(* ===== verification/_CoqProject ===== *)
-Q . S2P
Prelude.v
Bytes.v
BTree.v
ValueSemantics.v
Property.v
RangeValue.v
Cursor.v
QueueCodec.v
QueueLatest.v
QueueAlgebra.v
IdAllocator.v
ExternalId.v
Graph.v
GraphSearch.v
Traversal.v
TraversalSpec.v
TraversalBfs.v
TraversalPath.v
TraversalDfs.v
Transform.v
TransformDirection.v
TransformRecords.v
TransformCompose.v
QueryValue.v
QueryEquals.v
QueryShape.v
QueryDecimal.v
QueryRange.v
QueryOperators.v
QueryExpression.v
QueryMonad.v
QueryAggregate.v
QueryAggregateSpec.v
QueryEval.v
QueryEvalSafe.v
QueryRelocate.v
QueryEvalLaws.v
QuerySchema.v
QueryTypes.v
QueryLayout.v
QueryPlan.v
QueryPlanSpec.v
QueryContracts.v
QueryRewrite.v
QueryProgram.v
QueryProgramSpec.v
QueryStored.v
QueryParameters.v
QueryTotality.v
QueryTotalitySpec.v
RowMonad.v
RowSort.v
Rows.v
RowSpec.v
RowBatches.v
Cycles.v
CyclesTarjan.v
CyclesConnected.v
CyclesCanonical.v
CyclesSearch.v
CyclesExact.v
EqualityValue.v
EqualityValueSpec.v
IndexIdentity.v
ManagedKeys.v
ManagedKeysSpec.v
ManagedScans.v
IndexRecord.v
IndexRecordSpec.v
LifecycleValues.v
LifecycleSpec.v
OperationRecord.v
OperationRecordSpec.v
OperationValues.v
OperationValuesSpec.v
