(* ===== verification/Prelude.v ===== *)
(** * HelixDB: a verification development

    HelixDB is a graph and vector database in Rust. A query arrives as text (SQL or
    Cypher, crates/cypher) or as an arena AST (crates/ast); the planner
    (crates/planner) turns it into a relational [Query] and an execution plan; the
    interpreter (crates/db/src/execution) runs the plan over a SlateDB key-value
    store whose keys and values crates/db/src/encoding writes; secondary, text and
    vector indexes are maintained through persisted operation queues
    (crates/db/src/index_lifecycle). crates/graph-algorithms is a library of pure
    algorithms over a validated in-memory graph.

    This library models, from the sources, the parts of that system whose answers
    everything else depends on, and proves what makes them correct. Names are the
    code's; a definition that is part of a function carries a name of its own.

    ** How the code is represented

    - [None] is a panic (an index out of range, an [expect], an [assert!],
      [unreachable!]) and, where a loop is not structural, fuel that ran out; the
      theorems show that neither happens. [result E A] is [Result<A, E>].
    - An integer of width w is a [Z] with its wrap-around, saturation or check
      written out; a float is its IEEE 754 bit pattern; a string is its UTF-8 bytes,
      and a byte a [Z] below 256. A [BTreeMap] or [BTreeSet] is the increasing list
      its iterators give (BTree.v); a [HashMap] looked up by key is the list of its
      entries, or a [gmap].
    - Whether an allocation or a reservation of the memory budget is granted reads
      buffer capacities that values do not carry: it is a decision of the
      environment, read from a list, and theorems hold under every list
      (QueryMonad.v, RowMonad.v). A storage or deadline failure is one too.
    - Asynchronous code whose tasks interleave is a step relation whose program
      counter names one load, store, lock or storage call (IdAllocator.v).

    ** The parts, and where each is modelled

    Shared: Prelude.v (results, lawful comparisons, automation), Bytes.v (bytes and
    big-endian integers), BTree.v (ordered maps, sets and stable sorts).

    Values and keys of the store.
    - ValueSemantics.v: crates/value-semantics/src/lib.rs. Exact comparison of
      integers and floats.
    - Property.v, RangeValue.v: crates/db/src/encoding/v2/values/property. Stored
      values, their comparisons, and the bytes range indexes sort by.
    - Cursor.v, QueueCodec.v, QueueLatest.v, QueueAlgebra.v: encoding/v2/values/indexes/
      operation_queue. Wire format, bounded reads, and the merge algebra storage
      applies in any grouping.
    - IdAllocator.v: crates/db/src/id_allocator.rs. Lease-based identities.
    - EqualityValue.v with EqualityValueSpec.v: encoding/v2/values/property/
      equality_index_value. The typed bytes and digest of values equality indexes hold.
    - IndexIdentity.v, ManagedKeys.v with ManagedKeysSpec.v and ManagedScans.v:
      encoding/v2/keys (managed_index.rs, global.rs, scope.rs, lifecycle.rs and the keys
      of indexes). Every key of the managed indexes, its parser, and the ranges scanned.
    - IndexRecord.v with IndexRecordSpec.v: index_lifecycle/model.rs. Definitions,
      physical generations and the state machine of an index record; the code is
      [transition], and what it must do the relations [step] and, for every other
      request and its error, [refuses] of IndexRecordSpec.v, which use none of its
      functions.
    - LifecycleValues.v with LifecycleSpec.v: encoding/v2/values (codec.rs, lifecycle,
      global.rs) and index_lifecycle/metadata.rs. How those records, the control values
      and the states of entities are stored.
    - OperationRecord.v with OperationRecordSpec.v: index_lifecycle/operation.rs. The
      operations that build and drop generations: their progress, claims, blockers and
      schedules, and their state machine, again relations [step] and [refuses] beside
      the code, the stage a transition leads to stated by its own cases.
    - OperationValues.v with OperationValuesSpec.v: encoding/v2/values/lifecycle/
      operation_record.rs. How operations are stored, now and by older releases.

    Graph algorithms (crates/graph-algorithms/src): ExternalId.v (identity.rs),
    Graph.v (model.rs), GraphSearch.v, Traversal.v with TraversalSpec.v,
    TraversalBfs.v, TraversalPath.v, TraversalDfs.v (algorithms/traversal.rs),
    Transform.v with TransformDirection.v, TransformRecords.v, TransformCompose.v
    (transform.rs), Cycles.v with CyclesTarjan.v, CyclesConnected.v,
    CyclesCanonical.v, CyclesSearch.v, CyclesExact.v (algorithms/cycles.rs).

    Query language (crates/planner/src/relational).
    - Values and evaluation: QueryValue.v, QueryEquals.v, QueryShape.v (value.rs),
      QueryDecimal.v, QueryRange.v, QueryOperators.v, QueryExpression.v,
      QueryMonad.v, QueryEval.v with QueryEvalSafe.v and QueryEvalLaws.v
      (evaluation.rs, expression.rs, window.rs), QueryAggregate.v with
      QueryAggregateSpec.v (aggregation.rs).
    - Validation: QuerySchema.v (contracts/schema.rs), QueryTypes.v (types.rs),
      QueryPlan.v with QueryPlanSpec.v and QueryContracts.v (query.rs, selection.rs,
      projection.rs, contracts.rs).
    - Physical rows: QueryLayout.v (layout.rs), QueryRelocate.v, QueryRewrite.v,
      QueryProgram.v with QueryProgramSpec.v (layout/remap.rs, layout/program.rs).
    - Total predicates: QueryTotality.v with QueryTotalitySpec.v (planning.rs).

    Query execution (crates/db/src).
    - QueryParameters.v (cypher/parameters.rs), QueryStored.v
      (execution/interpreter/rows/property_conversion.rs and graph.rs).
    - RowMonad.v, RowSort.v, Rows.v with RowSpec.v and RowBatches.v
      (execution/interpreter/rows: projection.rs, top_k.rs, distinct.rs,
      aggregation.rs, aggregation/groups.rs, the buffers of mod.rs).

    The parts interact as in the code. [Query::new] (QueryPlan.v) validates operators
    against schemas and types; [RowLayout] (QueryLayout.v) gives bindings physical
    cells, and [RowProgram] (QueryProgram.v) moves the query there; the row operators
    (Rows.v) evaluate its projections with [eval] (QueryEval.v) over stored values
    read through QueryStored.v and parameters prepared by QueryParameters.v. Their
    simulation (RowSpec.v) uses the safety of evaluation (QueryEvalSafe.v) and that
    it depends on a row only at the slots it reads (QueryRelocate.v). An index record
    (IndexRecord.v) names its generation; the keys of ManagedKeys.v carry it, with the
    values EqualityValue.v and RangeValue.v encode, and LifecycleValues.v stores both
    the record and the entity states that hold such values. An operation
    (OperationRecord.v) carries the record through its transitions, generation by
    generation, and OperationValues.v stores it with the same frames. SHA-256 is the class
    [Sha256]: a parameter whose result is 32 bytes, with no other law. The standard
    library's unstable selection is an argument too; where its answer shows (DISTINCT
    with ORDER BY and a limit) the theorem assumes its documented contract
    ([select_contract], RowSort.v), which sorting meets ([sort_selects]).

    ** What the theorems show

    - Order and equality: comparisons are lawful orders and agree with the exact
      numbers; range-index bytes sort as values do, equality-index bytes are equal
      exactly when values are; Cypher equality is three-valued, a NaN equal to nothing;
      grouping keys group what sorting calls equal.
    - Encodings: what is written is read back, readers accept exactly the canonical
      bytes, and never panic on any bytes; the keys of one generation are exactly those
      in its scanned range, and those of one value exactly those its prefix recognises.
    - Lifecycle: transitions of an index record are exactly the steps of its machine;
      histories keep its identity and definition, count revisions and generations, and
      leave an active generation as it was built; removal is always reachable. The same
      of operations: exact steps, one completion, under a claim, and none is stuck. Every
      request that is not a step gets exactly the error its case calls for.
    - Refinement: the merge algebra implements an ordered queue and is insensitive
      to grouping; schemas implement sets of slots; layouts keep live slots apart;
      the operators of a projection implement its reference meaning whether rows are
      materialized, streamed, or kept in a bounded heap or ordered set; composition is
      right-biased in every field of nodes and edges; prepared parameters hold the
      request's values, variant by variant.
    - Safety: identities are unique under interleaving and failure; validated
      queries, evaluation, type inference, relocation and row operators never panic;
      inferred types are sound; predicates called total cannot fail.
    - Graphs: construction accepts exactly valid tables; breadth-first depths are
      distances, shortest paths are shortest, depth-first search is a forest;
      transformations give exactly the graphs they name; Tarjan's components are the
      strongly connected components, and the listed simple cycles are all of them.

    ** Fuel and bounds

    Loops that are not structural take fuel, and each has a theorem that the fuel
    its caller passes is enough: varints at most ten bytes (Cursor.v), envelopes the
    nesting limit (ExternalId.v), arc iterators, searches and walks the number of
    nodes and arcs (Graph.v, Traversal.v), searches for components and cycles the
    number of nodes (Cycles.v), expression validation the number of nodes
    of the tree (QueryExpression.v), ranges the item limit (QueryRange.v), slots of
    a dense set the width of its words (QuerySchema.v), chunks the length of the
    list (Rows.v). Widths are those of the code: [usize], [u64] and [i64] are 64 bits
    wide, lengths are below 2^64 where an operator counts rows.

    ** Not modelled

    - The byte counts of the memory budget, which read capacities, and the bodies of
      third-party calls (SlateDB, rkyv, serde_json, tokio, futures): what the code
      relies on is a parameter or a decision of the environment.
    - The text frontend and SQL (crates/cypher), the AST arena (crates/ast), rule
      based optimization, costs and memo (crates/planner outside relational), match
      planning and its access to indexes, mutations and transactions, the drivers of
      index builds, vector and text search, migrations, the server, the command line
      and the bindings. The manifest lists each with its reason.
    - Within modelled parts: hydration (which properties a batch reads from storage;
      evaluation reads a fixed view), tracing, serialization for explain output and
      the weighted degrees of the traversals, which are sums of floats.

    ** Remaining work

    Streamed chains of projections and UNWIND with their input windows and consumers
    (projection_chain.rs, input_window.rs), soundness of hydration requirements,
    per-group meaning of direct aggregation, the text manifests and scope gates
    of index_lifecycle, read tracking of transactions, and the adjacency encodings. *)

From stdpp Require Export base gmap sets list strings numbers option pretty sorting.
From Stdlib Require Export ZArith Lia.

#[global] Open Scope Z_scope.

(** ** Results

    Rust's [Result<A, E>]; [?] is the bind below. *)

Inductive result (E A : Type) : Type :=
| Ok (a : A)
| Err (e : E).
Arguments Ok {E A} a.
Arguments Err {E A} e.

Definition result_bind {E A B} (r : result E A) (k : A -> result E B) : result E B :=
  match r with
  | Ok a => k a
  | Err e => Err e
  end.

Definition result_map {E A B} (f : A -> B) (r : result E A) : result E B :=
  match r with
  | Ok a => Ok (f a)
  | Err e => Err e
  end.

Definition is_ok {E A} (r : result E A) : bool :=
  match r with
  | Ok _ => true
  | Err _ => false
  end.

(** [Option::ok_or]. *)
Definition ok_or {E A} (o : option A) (e : E) : result E A :=
  match o with
  | Some a => Ok a
  | None => Err e
  end.

Declare Scope rust_scope.
Delimit Scope rust_scope with rust.
Notation "'let?' x ':=' c 'in' k" := (result_bind c (fun x => k))
  (at level 10, x pattern, c at level 100, k at level 200) : rust_scope.
Notation "'check?' c 'else' e 'in' k" := (if c then k else Err e)
  (at level 10, c at level 100, e at level 100, k at level 200) : rust_scope.
#[global] Open Scope rust_scope.

(** [Iterator::collect::<Result<Vec<_>, _>>]: the first error wins. *)
Fixpoint collect {E A} (l : list (result E A)) : result E (list A) :=
  match l with
  | [] => Ok []
  | r :: l => let? a := r in let? rest := collect l in Ok (a :: rest)
  end.

(** ** Machine integers

    A [w]-bit unsigned integer is a [Z] in [0, 2^w). *)

(** [len()] of a vector, slice or map. *)
Definition len {A} (values : list A) : Z := Z.of_nat (length values).

Definition umax (w : Z) : Z := 2 ^ w - 1.
Definition in_u (w z : Z) : Prop := 0 <= z < 2 ^ w.
Definition in_i (w z : Z) : Prop := - 2 ^ (w - 1) <= z < 2 ^ (w - 1).
Definition wrap (w z : Z) : Z := z mod 2 ^ w.
Definition sat_add (w a b : Z) : Z := Z.min (a + b) (umax w).
Definition sat_mul (w a b : Z) : Z := Z.min (a * b) (umax w).
Definition sat_sub (a b : Z) : Z := Z.max 0 (a - b).
Definition checked_add (w a b : Z) : option Z :=
  if a + b <=? umax w then Some (a + b) else None.
Definition checked_sub (a b : Z) : option Z := if b <=? a then Some (a - b) else None.
Definition checked_mul (w a b : Z) : option Z :=
  if a * b <=? umax w then Some (a * b) else None.
(** [u64::div_ceil]. *)
Definition div_ceil (a b : Z) : Z := (a + b - 1) / b.
(** Bitwise complement at width [w]. *)
Definition unot (w z : Z) : Z := umax w - z.

#[export] Instance in_u_dec w z : Decision (in_u w z).
Proof. unfold in_u. apply _. Defined.
#[export] Instance in_i_dec w z : Decision (in_i w z).
Proof. unfold in_i. apply _. Defined.

(** ** Comparisons

    [Ordering::then_with] and [Ordering::reverse]. *)

Definition then_with (c d : comparison) : comparison :=
  match c with
  | Eq => d
  | _ => c
  end.

Fixpoint lex_compare {A} (cmp : A -> A -> comparison) (l1 l2 : list A) : comparison :=
  match l1, l2 with
  | [], [] => Eq
  | [], _ :: _ => Lt
  | _ :: _, [] => Gt
  | x :: l1, y :: l2 => then_with (cmp x y) (lex_compare cmp l1 l2)
  end.

(** What a comparison function promises to the structures ordered by it. *)
Class LawfulCompare {A} (cmp : A -> A -> comparison) : Prop := {
  cmp_refl : forall x, cmp x x = Eq;
  cmp_sym : forall x y, cmp y x = CompOpp (cmp x y);
  cmp_trans : forall x y z o, cmp x y = o -> cmp y z = o -> cmp x z = o;
}.

(** A lawful comparison whose equality is Leibniz equality. *)
Class StrictCompare {A} (cmp : A -> A -> comparison) : Prop := {
  strict_lawful :: LawfulCompare cmp;
  cmp_eq : forall x y, cmp x y = Eq -> x = y;
}.

(** ** Formatting

    [{:#04x}] of a byte. *)
Definition hex_digit (z : Z) : string :=
  match String.get (Z.to_nat z) "0123456789abcdef" with
  | Some a => String a EmptyString
  | None => EmptyString
  end.
Definition fmt_hex (z : Z) : string :=
  ("0x" +:+ hex_digit (z / 16) +:+ hex_digit (z mod 16))%string.
Definition fmt_dec (z : Z) : string := pretty z.

(** ** Automation *)

Create HintDb helix.

(** Splits the guards and matches of a model definition, in the goal or in a
    hypothesis, one at a time. *)
Ltac split_match :=
  match goal with
  | |- context [match ?x with _ => _ end] => destruct x eqn:?
  end.
Ltac split_match_in H :=
  match type of H with
  | context [match ?x with _ => _ end] => destruct x eqn:?
  end.

(** Turns the boolean comparisons of the code into propositions. *)
Ltac to_prop :=
  repeat match goal with
  | H : (_ && _)%bool = true |- _ => apply andb_true_iff in H as [? ?]
  | H : (_ || _)%bool = false |- _ => apply orb_false_iff in H as [? ?]
  | H : negb _ = true |- _ => apply negb_true_iff in H
  | H : negb _ = false |- _ => apply negb_false_iff in H
  | H : (_ <? _)%Z = true |- _ => apply Z.ltb_lt in H
  | H : (_ <? _)%Z = false |- _ => apply Z.ltb_ge in H
  | H : (_ <=? _)%Z = true |- _ => apply Z.leb_le in H
  | H : (_ <=? _)%Z = false |- _ => apply Z.leb_gt in H
  | H : (_ =? _)%Z = true |- _ => apply Z.eqb_eq in H
  | H : (_ =? _)%Z = false |- _ => apply Z.eqb_neq in H
  end.

(** Reduces binds whose first computation is known. *)
Ltac bind_simpl := cbn [result_bind result_map is_ok ok_or].

(** ** Lemmas on results *)

Lemma result_bind_ok {E A B} (r : result E A) (k : A -> result E B) b :
  result_bind r k = Ok b -> exists a, r = Ok a /\ k a = Ok b.
Proof. destruct r; simpl; [eauto | discriminate]. Qed.

Lemma is_ok_iff {E A} (r : result E A) : is_ok r = true <-> exists a, r = Ok a.
Proof. destruct r; simpl; split; [eauto | done | done | by intros [? ?]]. Qed.

Lemma collect_ok {E A} (l : list (result E A)) (xs : list A) :
  collect l = Ok xs <-> l = map Ok xs.
Proof.
  revert xs; induction l as [|r l IH]; intros xs; simpl.
  - split; [intros [= <-]; done | destruct xs; by intros].
  - split.
    + intros (a & -> & H)%result_bind_ok.
      apply result_bind_ok in H as (rest & H%IH & [= <-]). by subst.
    + destruct xs as [|x xs]; [done|]. intros [= -> ->]. simpl.
      by rewrite (proj2 (IH xs) eq_refl).
Qed.

Lemma collect_map_ok {E A} (xs : list A) : collect (map (@Ok E A) xs) = Ok xs.
Proof. by apply collect_ok. Qed.

(** Inverts a chain of binds known to have succeeded. *)
Ltac inv_bind H :=
  repeat match type of H with
  | result_bind _ _ = Ok _ =>
      let a := fresh "a" in let E := fresh "E" in
      apply result_bind_ok in H as (a & E & H)
  end.

(** ** Bit operations *)

Lemma testbit_high z k i : 0 <= z < 2 ^ k -> k <= i -> Z.testbit z i = false.
Proof.
  intros Hz Hi. destruct (Z.le_gt_cases 0 k).
  - rewrite <- (Z.mod_small z (2 ^ k)) by done. apply Z.mod_pow2_bits_high. lia.
  - rewrite Z.pow_neg_r in Hz; lia.
Qed.

Lemma land_disjoint a b k : 0 <= b < 2 ^ k -> 0 <= k -> Z.land (Z.shiftl a k) b = 0.
Proof.
  intros Hb Hk. apply Z.bits_inj'. intros i Hi. rewrite Z.land_spec, Z.bits_0.
  destruct (Z.lt_ge_cases i k).
  - by rewrite Z.shiftl_spec_low.
  - by rewrite (testbit_high b k i), andb_false_r.
Qed.

(** Or-ing a field below a shifted one adds them. *)
Lemma lor_disjoint_add a b k : 0 <= b < 2 ^ k -> 0 <= k -> Z.lor (Z.shiftl a k) b = a * 2 ^ k + b.
Proof.
  intros Hb Hk. pose proof (land_disjoint a b k Hb Hk) as Hl.
  rewrite <- Z.shiftl_mul_pow2, <- Z.lxor_lor by done.
  symmetry. by apply Z.add_nocarry_lxor.
Qed.

Lemma land_mask z k : 0 <= k -> Z.land z (Z.shiftl 1 k - 1) = z mod 2 ^ k.
Proof.
  intros Hk. rewrite Z.shiftl_1_l, Z.sub_1_r, <- Z.ones_equiv. by apply Z.land_ones.
Qed.

(** ** Lemmas on comparisons *)

Lemma then_with_opp c d : CompOpp (then_with c d) = then_with (CompOpp c) (CompOpp d).
Proof. by destruct c. Qed.

Lemma then_with_assoc a b c : then_with a (then_with b c) = then_with (then_with a b) c.
Proof. by destruct a. Qed.

Lemma then_with_eq c d : then_with c d = Eq <-> c = Eq /\ d = Eq.
Proof. destruct c; simpl; intuition congruence. Qed.

(** Lawfulness is decided by four equations, convenient for inductions. *)
Lemma cmp_trans_cases {A} (cmp : A -> A -> comparison) `{!LawfulCompare cmp} x y z :
  (cmp x y = Eq -> cmp x z = cmp y z) /\ (cmp y z = Eq -> cmp x z = cmp x y).
Proof.
  split; intros Heq.
  - destruct (cmp y z) eqn:E.
    + by apply cmp_trans with y.
    + destruct (cmp x z) eqn:F; [| done |].
      * assert (cmp y z = Eq); [|congruence].
        apply cmp_trans with x; [by rewrite cmp_sym, Heq | done].
      * assert (cmp y z = Gt); [|congruence].
        destruct (cmp y x) eqn:G; rewrite cmp_sym, Heq in G; simpl in G; try done.
        assert (cmp z x = Lt) as H1 by (by rewrite cmp_sym, F).
        assert (cmp y x = Lt) by (by apply cmp_trans with z).
        by rewrite cmp_sym, Heq in H.
    + destruct (cmp x z) eqn:F; [| |done].
      * assert (cmp y z = Eq); [|congruence].
        apply cmp_trans with x; [by rewrite cmp_sym, Heq | done].
      * assert (cmp z y = Lt) as H1 by (by rewrite cmp_sym, E).
        assert (cmp x y = Lt) by (by apply cmp_trans with z). congruence.
  - destruct (cmp x y) eqn:E.
    + by apply cmp_trans with y.
    + destruct (cmp x z) eqn:F; [| done |].
      * assert (cmp x y = Eq); [|congruence].
        apply cmp_trans with z; [done | by rewrite cmp_sym, Heq].
      * assert (cmp z x = Lt) as H1 by (by rewrite cmp_sym, F).
        assert (cmp z y = Lt) as H2 by (by apply cmp_trans with x).
        by rewrite cmp_sym, Heq in H2.
    + destruct (cmp x z) eqn:F; [| |done].
      * assert (cmp x y = Eq); [|congruence].
        apply cmp_trans with z; [done | by rewrite cmp_sym, Heq].
      * assert (cmp y x = Lt) as H1 by (by rewrite cmp_sym, E).
        assert (cmp y z = Lt) by (by apply cmp_trans with x). congruence.
Qed.

Lemma then_with_trans c1 c2 c3 d1 d2 d3 o :
  (forall o, c1 = o -> c2 = o -> c3 = o) ->
  (c1 = Eq -> c3 = c2) -> (c2 = Eq -> c3 = c1) ->
  (forall o, d1 = o -> d2 = o -> d3 = o) ->
  then_with c1 d1 = o -> then_with c2 d2 = o -> then_with c3 d3 = o.
Proof.
  intros Hc Hl Hr Hd H1 H2.
  destruct c1; simpl in H1.
  - rewrite Hl by done. destruct c2; simpl in *; auto.
  - subst o. destruct c2; simpl in *; [|by rewrite (Hc Lt)|done].
    rewrite Hr by done. done.
  - subst o. destruct c2; simpl in *; [|done|by rewrite (Hc Gt)].
    rewrite Hr by done. done.
Qed.

#[export] Instance Z_compare_strict : StrictCompare Z.compare.
Proof.
  split; [split|].
  - apply Z.compare_refl.
  - intros x y. by rewrite Z.compare_antisym.
  - intros x y z [] H1 H2;
      rewrite ?Z.compare_eq_iff, ?Z.compare_lt_iff, ?Z.compare_gt_iff in *; lia.
  - apply Z.compare_eq.
Qed.

Section Lexicographic.
Context {A : Type} (cmp : A -> A -> comparison).

(** The laws of a lexicographic comparison hold at a list as soon as they
    hold of the elements of the first list, which is what nested value
    types need. *)
Lemma lex_refl l : Forall (fun x => cmp x x = Eq) l -> lex_compare cmp l l = Eq.
Proof. induction 1 as [|x l Hx _ IH]; simpl; [done|]. by rewrite Hx. Qed.

Lemma lex_sym l1 l2 :
  Forall (fun x => forall y, cmp y x = CompOpp (cmp x y)) l1 ->
  lex_compare cmp l2 l1 = CompOpp (lex_compare cmp l1 l2).
Proof.
  intros H; revert l2; induction H as [|x l1 Hx _ IH]; intros [|y l2]; simpl; try done.
  by rewrite then_with_opp, Hx, IH.
Qed.

Lemma lex_trans l1 l2 l3 o :
  Forall (fun x => forall y z,
    (forall o, cmp x y = o -> cmp y z = o -> cmp x z = o) /\
    (cmp x y = Eq -> cmp x z = cmp y z) /\ (cmp y z = Eq -> cmp x z = cmp x y)) l1 ->
  lex_compare cmp l1 l2 = o -> lex_compare cmp l2 l3 = o -> lex_compare cmp l1 l3 = o.
Proof.
  intros H; revert l2 l3 o; induction H as [|x l1 Hx _ IH]; intros [|y l2] [|z l3] o;
    simpl; try congruence.
  destruct (Hx y z) as (H1 & H2 & H3).
  apply then_with_trans; eauto.
Qed.

#[export] Instance lex_lawful `{!LawfulCompare cmp} : LawfulCompare (lex_compare cmp).
Proof.
  split.
  - intros l. apply lex_refl, Forall_forall. intros; apply cmp_refl.
  - intros l1 l2. apply lex_sym, Forall_forall. intros; apply cmp_sym.
  - intros l1 l2 l3 o. apply lex_trans, Forall_forall. intros x _ y z.
    split; [intros ?; apply cmp_trans|]. by apply cmp_trans_cases.
Qed.

Lemma lex_app_same l l1 l2 `{!LawfulCompare cmp} :
  lex_compare cmp (l ++ l1) (l ++ l2) = lex_compare cmp l1 l2.
Proof. induction l as [|x l IH]; simpl; [done|]. by rewrite cmp_refl. Qed.

Lemma lex_app_length l1 l2 r1 r2 :
  length l1 = length l2 ->
  lex_compare cmp (l1 ++ r1) (l2 ++ r2) =
  then_with (lex_compare cmp l1 l2) (lex_compare cmp r1 r2).
Proof.
  revert l2; induction l1 as [|x l1 IH]; intros [|y l2]; simpl; try done.
  intros [= H]. rewrite IH by done. by rewrite then_with_assoc.
Qed.
End Lexicographic.

#[export] Instance lex_strict {A} (cmp : A -> A -> comparison) `{!StrictCompare cmp} :
  StrictCompare (lex_compare cmp).
Proof.
  split; [apply _|].
  intros l1; induction l1 as [|x l1 IH]; intros [|y l2]; simpl; try done.
  intros [H1%cmp_eq H2%IH]%then_with_eq. by subst.
Qed.

(** Comparing a projection, and comparing lexicographically by two criteria. *)
Lemma preimage_lawful {A B} (f : A -> B) (cmp : B -> B -> comparison) :
  LawfulCompare cmp -> LawfulCompare (fun a b => cmp (f a) (f b)).
Proof.
  intros H. split.
  - intros x. apply cmp_refl.
  - intros x y. apply cmp_sym.
  - intros x y z o. apply cmp_trans.
Qed.

Lemma then_with_lawful {A} (c1 c2 : A -> A -> comparison) :
  LawfulCompare c1 -> LawfulCompare c2 ->
  LawfulCompare (fun a b => then_with (c1 a b) (c2 a b)).
Proof.
  intros H1 H2. split.
  - intros x. by rewrite !cmp_refl.
  - intros x y. by rewrite then_with_opp, (cmp_sym x y), (cmp_sym (cmp := c2) x y).
  - intros x y z o. apply then_with_trans; try by apply cmp_trans_cases.
    + intros ?. apply cmp_trans.
    + intros ?. apply cmp_trans.
Qed.

(** The three laws at one value, against all others: the form the nested
    induction proves. *)
Definition laws_at {A} (cmp : A -> A -> comparison) (x : A) : Prop :=
  cmp x x = Eq /\ (forall y, cmp y x = CompOpp (cmp x y)) /\
  forall y z, (forall o, cmp x y = o -> cmp y z = o -> cmp x z = o) /\
    (cmp x y = Eq -> cmp x z = cmp y z) /\ (cmp y z = Eq -> cmp x z = cmp x y).

Lemma lawful_at {A} (cmp : A -> A -> comparison) `{!LawfulCompare cmp} x : laws_at cmp x.
Proof.
  split_and!; [apply cmp_refl | intros; apply cmp_sym|].
  intros y z. split; [intros o; apply cmp_trans | by apply cmp_trans_cases].
Qed.

Lemma lex_laws_at {A} (cmp : A -> A -> comparison) l :
  Forall (laws_at cmp) l -> laws_at (lex_compare cmp) l.
Proof.
  intros H. split_and!.
  - apply lex_refl. eapply Forall_impl; [done|]. by intros x (? & _).
  - intros l2. apply lex_sym. eapply Forall_impl; [done|]. by intros x (_ & ? & _).
  - intros l2 l3. split.
    { intros o. apply lex_trans. eapply Forall_impl; [done|]. by intros x (_ & _ & ?). }
    revert l2 l3. induction H as [|x l (_ & _ & Hx) _ IH]; intros [|y l2] [|z l3]; simpl; try done.
    destruct (Hx y z) as (_ & H2 & H3). destruct (IH l2 l3) as [I1 I2].
    split; intros [E1 E2]%then_with_eq.
    + by rewrite H2, I1.
    + by rewrite H3, I2.
Qed.

Lemma then_with_laws_at {A} (c1 c2 : A -> A -> comparison) x :
  laws_at c1 x -> laws_at c2 x -> laws_at (fun a b => then_with (c1 a b) (c2 a b)) x.
Proof.
  intros (R1 & S1 & T1) (R2 & S2 & T2). split_and!.
  - by rewrite R1, R2.
  - intros y. by rewrite then_with_opp, S1, S2.
  - intros y z. destruct (T1 y z) as (A1 & A2 & A3), (T2 y z) as (B1 & B2 & B3). split_and!.
    + intros o. apply then_with_trans; auto.
    + intros [E1 E2]%then_with_eq. by rewrite A2, B2.
    + intros [E1 E2]%then_with_eq. by rewrite A3, B3.
Qed.

Lemma preimage_laws_at {A B} (f : A -> B) (c : B -> B -> comparison) x :
  laws_at c (f x) -> laws_at (fun a b => c (f a) (f b)) x.
Proof. intros (R & S & T). split_and!; [done|auto|auto]. Qed.

(** ** Orders of variants

    A comparison of tagged unions compares a rank and, within one rank, the
    payloads. *)
Section Ranked.
Context {A : Type} (rank : A -> Z) (sub : A -> A -> comparison).

Definition payload_laws (v : A) : Prop :=
  sub v v = Eq /\
  (forall y, rank v = rank y -> sub y v = CompOpp (sub v y)) /\
  forall y z, rank v = rank y -> rank y = rank z ->
    (forall o, sub v y = o -> sub y z = o -> sub v z = o) /\
    (sub v y = Eq -> sub v z = sub y z) /\
    (sub y z = Eq -> sub v z = sub v y).

Lemma ranked_laws_at (cmp : A -> A -> comparison) v :
  (forall v w, cmp v w = then_with (rank v ?= rank w) (sub v w)) ->
  payload_laws v -> laws_at cmp v.
Proof.
  intros Hcmp (Hr & Hs & Ht). split_and!.
  - by rewrite Hcmp, Z.compare_refl.
  - intros y. rewrite !Hcmp, then_with_opp, <- Z.compare_antisym.
    destruct (Z.compare_spec (rank y) (rank v)); simpl; try done. by apply Hs.
  - intros y z. rewrite !Hcmp. specialize (Ht y z).
    destruct (Z.compare_spec (rank v) (rank y)) as [E1|E1|E1],
      (Z.compare_spec (rank y) (rank z)) as [E2|E2|E2],
      (Z.compare_spec (rank v) (rank z)) as [E3|E3|E3]; simpl;
      try lia; try (split_and!; intros; congruence). by apply Ht.
Qed.

(** One variant: its payload comparison and its constructor. *)
Lemma payload_of {B} (c : B -> B -> comparison) (mk : B -> A) x :
  laws_at c x ->
  (forall x y, sub (mk x) (mk y) = c x y) ->
  (forall x v, rank (mk x) = rank v -> exists y, v = mk y) ->
  payload_laws (mk x).
Proof.
  intros (Hr & Hs & Ht) He Hi. split_and!.
  - by rewrite He.
  - intros v [y ->]%Hi. by rewrite !He.
  - intros v w [y ->]%Hi [z ->]%Hi. rewrite !He. apply Ht.
Qed.

(** Variants sharing a rank, compared by one lawful comparison. *)
Lemma payload_rank (c : A -> A -> comparison) `{!LawfulCompare c} r v :
  (forall a b, rank a = r -> rank b = r -> sub a b = c a b) -> rank v = r -> payload_laws v.
Proof.
  intros He Hv. split_and!.
  - rewrite He by done. apply cmp_refl.
  - intros y Hy. rewrite !He by congruence. apply cmp_sym.
  - intros y z Hy Hz. rewrite !He by congruence.
    split; [intros o; apply cmp_trans | apply (cmp_trans_cases c)].
Qed.
End Ranked.
