(* ===== verification/Bytes.v ===== *)
(** Bytes, big-endian integers, bytewise order and the typed codec errors.

    A byte is a [Z] below 256; [list Z] with [bytes_ok] is Rust's [&[u8]].
    Keys are ordered by [bytes_cmp], the order SlateDB and Rust's [Ord for
    [u8]] both use. *)
From S2P Require Import Prelude.

Open Scope Z_scope.

Abbreviation bytes := (list Z).

Definition byte_ok (b : Z) : Prop := 0 <= b < 256.
Abbreviation bytes_ok := (Forall byte_ok).

#[export] Instance byte_ok_dec b : Decision (byte_ok b).
Proof. unfold byte_ok. apply _. Defined.

(** [len()] of a slice, as the [usize] the code compares. *)
Definition blen (l : bytes) : Z := Z.of_nat (length l).

(** crates/db/src/encoding/error.rs: [EncodingError]. The [Io] variant, which
    wraps [std::io::Error], is raised by no modelled code. [InvalidUtf8]
    carries no payload: the modelled code only propagates it. *)
Inductive EncodingError : Type :=
| InvalidTenantId (msg : string)
| BufferTooShort (expected actual : Z)
| InvalidEncodingType (ty : Z)
| InvalidUtf8
| InvalidKeyPrefix (p : Z)
| InvalidIndexPrefix (p : Z)
| InvalidKey (msg : string)
| InvalidIndexKey (msg : string)
| UnexpectedValueKind (expected actual : Z)
| CanonicalEqualityDigestMismatch
| InvalidRangeIndexDirection (d : Z)
| InvalidEdgeIndexDirection (d : Z)
| Rkyv (msg : string)
| PropertyNestingLimit
| Custom (msg : string).

(** ** Big-endian integers: [to_be_bytes] and [from_be_bytes] *)

Fixpoint to_be (n : nat) (z : Z) : bytes :=
  match n with
  | O => []
  | S n => (z / 256 ^ Z.of_nat n) mod 256 :: to_be n z
  end.

Definition of_be (l : bytes) : Z := fold_left (fun acc b => 256 * acc + b) l 0.

(** Bytewise lexicographic order. *)
Definition bytes_cmp : bytes -> bytes -> comparison := lex_compare Z.compare.

(** [!byte] over a whole slice. *)
Definition complement (l : bytes) : bytes := map (unot 8) l.

(** [core::cmp::Ordering] of two key ranges reduces to prefixes. *)
Fixpoint strip_prefix (p l : bytes) : option bytes :=
  match p, l with
  | [], _ => Some l
  | x :: p, y :: l => if x =? y then strip_prefix p l else None
  | _ :: _, [] => None
  end.

(** [std::str::from_utf8]: the well-formed byte sequences of Unicode table 3-7. *)
Definition between (lo hi b : Z) : bool := (lo <=? b) && (b <=? hi).
Definition cont (b : Z) : bool := between 0x80 0xBF b.

Fixpoint utf8_valid (l : bytes) : bool :=
  match l with
  | [] => true
  | b0 :: l =>
      if b0 <? 0x80 then utf8_valid l else
      match l with
      | [] => false
      | b1 :: l =>
          if between 0xC2 0xDF b0 then cont b1 && utf8_valid l else
          match l with
          | [] => false
          | b2 :: l =>
              if between 0xE0 0xEF b0 then
                (if b0 =? 0xE0 then between 0xA0 0xBF b1
                 else if b0 =? 0xED then between 0x80 0x9F b1 else cont b1)
                && cont b2 && utf8_valid l
              else
                match l with
                | [] => false
                | b3 :: l =>
                    between 0xF0 0xF4 b0 &&
                    (if b0 =? 0xF0 then between 0x90 0xBF b1
                     else if b0 =? 0xF4 then between 0x80 0x8F b1 else cont b1)
                    && cont b2 && cont b3 && utf8_valid l
                end
          end
      end
  end.

(** A Rust [str]. *)
Definition str_ok (s : bytes) : Prop := bytes_ok s /\ utf8_valid s = true.

Definition from_utf8 (l : bytes) : result EncodingError bytes :=
  if utf8_valid l then Ok l else Err InvalidUtf8.

(** ** Lemmas *)

Lemma blen_app l1 l2 : blen (l1 ++ l2) = blen l1 + blen l2.
Proof. unfold blen. rewrite length_app. lia. Qed.

Lemma blen_cons b l : blen (b :: l) = 1 + blen l.
Proof. unfold blen. simpl length. lia. Qed.

Lemma blen_nonneg l : 0 <= blen l.
Proof. unfold blen. lia. Qed.

Lemma length_to_be n z : length (to_be n z) = n.
Proof. induction n as [|n IH]; simpl; congruence. Qed.

Lemma blen_to_be n z : blen (to_be n z) = Z.of_nat n.
Proof. unfold blen. by rewrite length_to_be. Qed.

Create Rewrite HintDb bytes_len.
#[export] Hint Rewrite blen_app blen_cons blen_to_be length_to_be : bytes_len.

Lemma byte_ok_mod z : byte_ok (z mod 256).
Proof. unfold byte_ok. pose proof (Z.mod_pos_bound z 256). lia. Qed.

Lemma to_be_ok n z : bytes_ok (to_be n z).
Proof. induction n; simpl; constructor; [apply byte_ok_mod | done]. Qed.

#[export] Hint Resolve byte_ok_mod to_be_ok blen_nonneg : helix.

Lemma pow256 n : 256 ^ Z.of_nat n = 2 ^ (8 * Z.of_nat n).
Proof. change 256 with (2 ^ 8). rewrite <- Z.pow_mul_r; lia. Qed.

Lemma pow256_succ n : 256 ^ Z.of_nat (S n) = 256 * 256 ^ Z.of_nat n.
Proof. rewrite Nat2Z.inj_succ, Z.pow_succ_r; lia. Qed.

Lemma pow256_pos n : 0 < 256 ^ Z.of_nat n.
Proof. apply Z.pow_pos_nonneg; lia. Qed.

Lemma pow256_add n m : 256 ^ Z.of_nat (n + m) = 256 ^ Z.of_nat n * 256 ^ Z.of_nat m.
Proof. rewrite Nat2Z.inj_add, Z.pow_add_r; lia. Qed.

(** Only the low [n] bytes matter. *)
Lemma to_be_mod n m z : (n <= m)%nat -> to_be n (z mod 256 ^ Z.of_nat m) = to_be n z.
Proof.
  induction n as [|n IH]; intros Hle; simpl to_be; [done|].
  rewrite IH by lia. f_equal.
  replace m with (n + S (m - S n))%nat by lia.
  pose proof (pow256_pos n). pose proof (pow256_pos (m - S n)).
  rewrite pow256_add, Z.rem_mul_r, Z.mul_comm, Z.div_add by lia.
  rewrite (Z.div_small (z mod _)) by (apply Z.mod_pos_bound; lia).
  rewrite Z.add_0_l, pow256_succ, Z.rem_mul_r by lia.
  rewrite Z.mul_comm, Z.mod_add, Z.mod_mod by lia. done.
Qed.

Lemma of_be_acc l acc :
  fold_left (fun acc b => 256 * acc + b) l acc = 256 ^ Z.of_nat (length l) * acc + of_be l.
Proof.
  unfold of_be. revert acc. induction l as [|b l IH]; intros acc.
  - simpl. lia.
  - cbn [fold_left length]. rewrite IH, (IH (256 * 0 + b)), pow256_succ. lia.
Qed.

Lemma of_be_cons b l : of_be (b :: l) = 256 ^ Z.of_nat (length l) * b + of_be l.
Proof. unfold of_be at 1. cbn [fold_left]. rewrite of_be_acc. lia. Qed.

Lemma of_be_bound l : bytes_ok l -> 0 <= of_be l < 256 ^ Z.of_nat (length l).
Proof.
  induction 1 as [|b l Hb _ IH]; [done|].
  unfold byte_ok in Hb. rewrite of_be_cons. cbn [length]. rewrite pow256_succ.
  pose proof (pow256_pos (length l)). nia.
Qed.

Lemma of_to_be_mod n z : of_be (to_be n z) = z mod 256 ^ Z.of_nat n.
Proof.
  induction n as [|n IH]; simpl to_be.
  - rewrite Z.pow_0_r, Z.mod_1_r. done.
  - rewrite of_be_cons, IH, length_to_be, pow256_succ.
    pose proof (pow256_pos n).
    rewrite (Z.mul_comm 256), Z.rem_mul_r by lia. lia.
Qed.

Lemma of_to_be n z : 0 <= z < 256 ^ Z.of_nat n -> of_be (to_be n z) = z.
Proof. intros H. by rewrite of_to_be_mod, Z.mod_small. Qed.

Lemma to_of_be l : bytes_ok l -> to_be (length l) (of_be l) = l.
Proof.
  induction 1 as [|b l Hb Hl IH]; [done|].
  cbn [length to_be]. rewrite of_be_cons.
  pose proof (of_be_bound l Hl) as Hbd. pose proof (pow256_pos (length l)).
  rewrite Z.mul_comm, Z.div_add_l, (Z.div_small (of_be l)), Z.add_0_r by lia.
  rewrite Z.mod_small by done. f_equal.
  rewrite <- (to_be_mod _ (length l)), Z.add_comm, Z.mod_add, to_be_mod by lia. done.
Qed.

Lemma to_be_inj n a b :
  0 <= a < 256 ^ Z.of_nat n -> 0 <= b < 256 ^ Z.of_nat n -> to_be n a = to_be n b -> a = b.
Proof. intros Ha Hb H. by rewrite <- (of_to_be n a), H, of_to_be. Qed.

(** Big-endian encodings compare as the integers they encode. *)
Lemma to_be_cmp n a b :
  0 <= a < 256 ^ Z.of_nat n -> 0 <= b < 256 ^ Z.of_nat n ->
  bytes_cmp (to_be n a) (to_be n b) = Z.compare a b.
Proof.
  revert a b; induction n as [|n IH]; intros a b Ha Hb.
  - simpl in *. replace a with b by lia. by rewrite Z.compare_refl.
  - unfold bytes_cmp in *. cbn [to_be lex_compare].
    pose proof (pow256_pos n). rewrite pow256_succ in Ha, Hb.
    rewrite <- (to_be_mod n n a), <- (to_be_mod n n b) by done.
    rewrite IH by (apply Z.mod_pos_bound; lia).
    assert (forall z, 0 <= z < 256 * 256 ^ Z.of_nat n ->
      (z / 256 ^ Z.of_nat n) mod 256 = z / 256 ^ Z.of_nat n) as Hd.
    { intros z Hz. apply Z.mod_small. split; [apply Z.div_pos; lia|].
      apply Z.div_lt_upper_bound; lia. }
    rewrite !Hd by done.
    pose proof (Z.div_mod a (256 ^ Z.of_nat n)) as Ea.
    pose proof (Z.div_mod b (256 ^ Z.of_nat n)) as Eb.
    pose proof (Z.mod_pos_bound a (256 ^ Z.of_nat n)).
    pose proof (Z.mod_pos_bound b (256 ^ Z.of_nat n)).
    destruct (Z.compare_spec (a / 256 ^ Z.of_nat n) (b / 256 ^ Z.of_nat n)) as [E|E|E]; simpl.
    + destruct (Z.compare_spec (a mod 256 ^ Z.of_nat n) (b mod 256 ^ Z.of_nat n));
        symmetry; rewrite ?Z.compare_eq_iff, ?Z.compare_lt_iff, ?Z.compare_gt_iff; nia.
    + symmetry. apply Z.compare_lt_iff. nia.
    + symmetry. apply Z.compare_gt_iff. nia.
Qed.

#[export] Instance bytes_cmp_strict : StrictCompare bytes_cmp := lex_strict Z.compare.

Lemma bytes_cmp_app_same l l1 l2 : bytes_cmp (l ++ l1) (l ++ l2) = bytes_cmp l1 l2.
Proof. apply lex_app_same, _. Qed.

Lemma unot_cmp w a b : (unot w a ?= unot w b) = (b ?= a).
Proof.
  unfold unot. destruct (Z.compare_spec b a);
    rewrite ?Z.compare_eq_iff, ?Z.compare_lt_iff, ?Z.compare_gt_iff; lia.
Qed.

(** Complementing every byte exactly reverses the order of byte strings none
    of which is a proper prefix of the other, whatever follows them. *)
Lemma complement_cmp l1 l2 s1 s2 :
  (forall r, l2 = l1 ++ r -> r = []) -> (forall r, l1 = l2 ++ r -> r = []) ->
  bytes_cmp (complement l1 ++ s1) (complement l2 ++ s2) =
  then_with (bytes_cmp l2 l1) (bytes_cmp s1 s2).
Proof.
  unfold bytes_cmp, complement.
  revert l2; induction l1 as [|a l1 IH]; intros [|b l2] H1 H2; simpl.
  - done.
  - by specialize (H1 (b :: l2) eq_refl).
  - by specialize (H2 (a :: l1) eq_refl).
  - rewrite unot_cmp. destruct (Z.compare_spec b a) as [->| |]; simpl; [|done..].
    apply IH; intros r ->; eauto.
Qed.

Lemma complement_ok l : bytes_ok l -> bytes_ok (complement l).
Proof. induction 1; constructor; unfold byte_ok, unot, umax in *; auto; lia. Qed.

Lemma complement_involutive l : complement (complement l) = l.
Proof.
  unfold complement. rewrite map_map. induction l as [|b l IH]; simpl; [done|].
  rewrite IH. f_equal. unfold unot. lia.
Qed.

Lemma length_complement l : length (complement l) = length l.
Proof. apply length_map. Qed.

Lemma complement_app l1 l2 : complement (l1 ++ l2) = complement l1 ++ complement l2.
Proof. apply map_app. Qed.

Lemma strip_prefix_app p l : strip_prefix p (p ++ l) = Some l.
Proof. induction p as [|b p IH]; simpl; [done|]. by rewrite Z.eqb_refl. Qed.

Lemma strip_prefix_some p l r : strip_prefix p l = Some r <-> l = p ++ r.
Proof.
  split; [|intros ->; apply strip_prefix_app].
  revert l; induction p as [|b p IH]; intros [|c l]; simpl; try congruence.
  destruct (Z.eqb_spec b c) as [->|]; [|done]. intros H%IH. by subst.
Qed.

(** Encodings of symbolic integers stay folded. *)
#[global] Arguments to_be : simpl never.
#[global] Arguments of_be : simpl never.
