(* ===== verification/BTree.v ===== *)
(** Rust's ordered containers.

    A [BTreeMap] is the list of its entries in strictly increasing key order and
    a [BTreeSet] the list of its elements in strictly increasing order: what
    their iterators expose. Both are parameterised by the key comparison, which
    is lawful and whose equality is Leibniz equality ([StrictCompare]). The
    stable sort of [slice::sort_by] is here too. *)
From S2P Require Import Prelude.

Open Scope Z_scope.

Module BTree.

Section Operations.
Context {K : Type} (cmp : K -> K -> comparison) {V : Type}.

(** [BTreeMap::get]. *)
Fixpoint get (k : K) (m : list (K * V)) : option V :=
  match m with
  | [] => None
  | (k', v) :: m => match cmp k k' with Eq => Some v | _ => get k m end
  end.

(** [BTreeMap::insert], without the returned old value. *)
Fixpoint insert (k : K) (v : V) (m : list (K * V)) : list (K * V) :=
  match m with
  | [] => [(k, v)]
  | (k', v') :: m' =>
      match cmp k k' with
      | Lt => (k, v) :: m
      | Eq => (k', v) :: m'
      | Gt => (k', v') :: insert k v m'
      end
  end.

(** [BTreeMap::remove], without the returned value. *)
Fixpoint remove (k : K) (m : list (K * V)) : list (K * V) :=
  match m with
  | [] => []
  | (k', v') :: m' => match cmp k k' with Eq => m' | _ => (k', v') :: remove k m' end
  end.

(** [FromIterator] and [Extend] for [BTreeMap]: later entries win. *)
Definition extend (m entries : list (K * V)) : list (K * V) :=
  fold_left (fun m e => insert e.1 e.2 m) entries m.
Definition from_iter (entries : list (K * V)) : list (K * V) := extend [] entries.

(** [BTreeSet::contains] and [BTreeSet::insert]. *)
Fixpoint contains (x : K) (s : list K) : bool :=
  match s with
  | [] => false
  | y :: s => match cmp x y with Eq => true | _ => contains x s end
  end.
Fixpoint set_insert (x : K) (s : list K) : list K :=
  match s with
  | [] => [x]
  | y :: s' =>
      match cmp x y with
      | Lt => x :: s
      | Eq => s
      | Gt => y :: set_insert x s'
      end
  end.
Definition set_from_iter (l : list K) : list K := fold_left (fun s x => set_insert x s) l [].

(** [slice::sort_by]: insertion from the right is stable. *)
Fixpoint sort_insert (x : K) (l : list K) : list K :=
  match l with
  | [] => [x]
  | y :: l' => match cmp x y with Gt => y :: sort_insert x l' | _ => x :: l end
  end.
Definition sort_by (l : list K) : list K := foldr sort_insert [] l.

(** The same sort with a comparison that may panic ([None]). *)
Fixpoint sort_insert_opt (c : K -> K -> option comparison) (x : K) (l : list K) : option (list K) :=
  match l with
  | [] => Some [x]
  | y :: l' =>
      o ← c x y;
      match o with
      | Gt => l'' ← sort_insert_opt c x l'; Some (y :: l'')
      | _ => Some (x :: l)
      end
  end.
Fixpoint sort_by_opt (c : K -> K -> option comparison) (l : list K) : option (list K) :=
  match l with
  | [] => Some []
  | x :: l => l' ← sort_by_opt c l; sort_insert_opt c x l'
  end.

Definition lt (a b : K) : Prop := cmp a b = Lt.
Definition lt_key (a b : K * V) : Prop := cmp a.1 b.1 = Lt.
Definition sorted_set (s : list K) : Prop := StronglySorted lt s.
Definition sorted_map (m : list (K * V)) : Prop := StronglySorted lt_key m.
End Operations.

Arguments get {K} cmp {V} k m.
Arguments insert {K} cmp {V} k v m.
Arguments remove {K} cmp {V} k m.
Arguments extend {K} cmp {V} m entries.
Arguments from_iter {K} cmp {V} entries.
Arguments contains {K} cmp x s.
Arguments set_insert {K} cmp x s.
Arguments set_from_iter {K} cmp l.
Arguments sort_by {K} cmp l.
Arguments sort_insert {K} cmp x l.
Arguments sort_insert_opt {K} c x l.
Arguments sort_by_opt {K} c l.
Arguments lt {K} cmp a b /.
Arguments lt_key {K} cmp {V} a b /.
Arguments sorted_set {K} cmp s.
Arguments sorted_map {K} cmp {V} m.

(** ** Laws *)

Section Laws.
Context {K : Type} (cmp : K -> K -> comparison) `{!StrictCompare cmp}.

Lemma cmp_gt_lt x y : cmp x y = Gt -> cmp y x = Lt.
Proof. intros H. by rewrite cmp_sym, H. Qed.

Lemma cmp_lt_irrefl x : cmp x x <> Lt.
Proof. by rewrite cmp_refl. Qed.

Lemma cmp_neq x y : cmp x y <> Eq <-> x <> y.
Proof.
  split; [intros H ->; by rewrite cmp_refl in H | intros H E; by apply H, (cmp_eq (cmp := cmp))].
Qed.

Lemma get_in {V} k (v : V) m : get cmp k m = Some v -> (k, v) ∈ m.
Proof.
  induction m as [|[k' v'] m IH]; simpl; [done|].
  destruct (cmp k k') eqn:E; try (intros; apply elem_of_cons; auto; fail).
  intros [= ->]. apply (cmp_eq (cmp := cmp)) in E as ->. apply elem_of_cons. auto.
Qed.

Lemma get_none {V} k (m : list (K * V)) : get cmp k m = None <-> k ∉ m.*1.
Proof.
  induction m as [|[k' v'] m IH]; csimpl; [split; [intros _ H; inversion H | done]|].
  rewrite not_elem_of_cons, <- IH. destruct (cmp k k') eqn:E.
  - apply (cmp_eq (cmp := cmp)) in E. split; [done | intros [? _]; done].
  - assert (k <> k') by (apply cmp_neq; congruence). tauto.
  - assert (k <> k') by (apply cmp_neq; congruence). tauto.
Qed.

Lemma sorted_map_fst {V} (m : list (K * V)) : sorted_map cmp m <-> sorted_set cmp m.*1.
Proof.
  unfold sorted_map, sorted_set. induction m as [|e m IH]; csimpl.
  - split; constructor.
  - split; intros H; inversion H as [|? ? H1 H2]; subst; constructor;
      try by apply IH.
    + apply Forall_fmap. eapply Forall_impl; [done|]. by intros.
    + change (Forall (lt cmp e.1) (fst <$> m)) in H2. rewrite Forall_fmap in H2.
      eapply Forall_impl; [done|]. by intros.
Qed.

Lemma sorted_set_nodup s : sorted_set cmp s -> NoDup s.
Proof.
  induction 1 as [|x s Hs IH Hx]; constructor; [|done].
  intros Hin. rewrite Forall_forall in Hx. by apply (cmp_lt_irrefl x), Hx.
Qed.

Lemma get_some {V} k (v : V) m : sorted_map cmp m -> get cmp k m = Some v <-> (k, v) ∈ m.
Proof.
  intros Hs. split; [apply get_in|].
  induction Hs as [|[k' v'] m Hm IH Hx]; [by inversion 1|]. intros [[= -> ->]|Hin]%elem_of_cons; simpl.
  - by rewrite cmp_refl.
  - rewrite Forall_forall in Hx. specialize (Hx _ Hin). simpl in Hx.
    rewrite cmp_sym, Hx. simpl. auto.
Qed.

Lemma in_insert {V} k (v : V) m e :
  sorted_map cmp m -> e ∈ insert cmp k v m <-> e = (k, v) \/ (e ∈ m /\ e.1 <> k).
Proof.
  induction 1 as [|[k' v'] m Hm IH Hx]; simpl.
  - rewrite list_elem_of_singleton. split; [auto | intros [?|[H _]]; [done | inversion H]].
  - rewrite Forall_forall in Hx. destruct (cmp k k') eqn:E.
    + apply (cmp_eq (cmp := cmp)) in E as <-. rewrite !elem_of_cons. split.
      * intros [->|Hin]; [auto|]. right. split; [auto|].
        intros He. specialize (Hx _ Hin). simpl in Hx. rewrite He, cmp_refl in Hx. done.
      * intros [->|[[->|?] ?]]; auto. done.
    + rewrite !elem_of_cons. split; [|tauto]. intros [->|[->|Hin]]; [auto|right|right].
      * split; [auto|]. simpl. intros ->. by rewrite cmp_refl in E.
      * split; [auto|]. intros <-. specialize (Hx _ Hin). simpl in Hx.
        apply (cmp_lt_irrefl k'). by apply (cmp_trans (cmp := cmp)) with e.1.
    + rewrite !elem_of_cons, IH. split.
      * intros [->|[?|[? ?]]]; [right|auto|auto]. split; [auto|]. simpl. intros ->.
        by rewrite cmp_refl in E.
      * intros [?|[[?|?] ?]]; auto.
Qed.

Lemma insert_sorted {V} k (v : V) m : sorted_map cmp m -> sorted_map cmp (insert cmp k v m).
Proof.
  induction 1 as [|[k' v'] m Hm IH Hx]; simpl; [repeat constructor|].
  destruct (cmp k k') eqn:E.
  - constructor; done.
  - constructor; [by constructor|]. constructor; [done|].
    rewrite Forall_forall in *. intros e He. specialize (Hx _ He). simpl in *.
    by apply (cmp_trans (cmp := cmp)) with k'.
  - constructor; [done|]. rewrite Forall_forall in *. intros e [->|[He _]]%in_insert; simpl;
      [by apply cmp_gt_lt | by apply Hx | done].
Qed.

Lemma get_insert {V} k k0 (v : V) m : sorted_map cmp m ->
  get cmp k0 (insert cmp k v m) = match cmp k0 k with Eq => Some v | _ => get cmp k0 m end.
Proof.
  intros Hs. pose proof (insert_sorted k v m Hs) as Hi. destruct (cmp k0 k) eqn:E.
  1: { apply (cmp_eq (cmp := cmp)) in E as ->. apply get_some; [done|]. apply in_insert; auto. }
  all: assert (k0 <> k) as Hne by (apply cmp_neq; congruence).
  all: destruct (get cmp k0 m) as [w|] eqn:G.
  1, 3: apply get_some, in_insert; [done|done|]; right; split; [by apply get_in|done].
  all: apply get_none; rewrite list_elem_of_fmap; intros ([k1 v1] & -> & H).
  all: apply in_insert in H as [[= -> ->]|[H _]]; [done | |done].
  all: apply get_none in G; apply G; apply list_elem_of_fmap; by exists (k1, v1).
Qed.

Lemma insert_perm {V} k (v : V) m : get cmp k m = None -> insert cmp k v m ≡ₚ (k, v) :: m.
Proof.
  induction m as [|[k' v'] m IH]; simpl; [done|].
  destruct (cmp k k'); [done|done|]. intros Hg. rewrite IH by done. constructor.
Qed.

Lemma extend_perm {V} (entries m : list (K * V)) : sorted_map cmp m ->
  NoDup (m.*1 ++ entries.*1) ->
  sorted_map cmp (extend cmp m entries) /\ extend cmp m entries ≡ₚ m ++ entries.
Proof.
  unfold extend. revert m. induction entries as [|[k v] entries IH]; intros m Hm Hnd; simpl.
  - by rewrite app_nil_r.
  - csimpl in Hnd. apply NoDup_app in Hnd as (H1 & H2 & H3). apply NoDup_cons in H3 as [H3 H4].
    assert (get cmp k m = None) as Hg.
    { apply get_none. intros Hk. apply (H2 k Hk). left. }
    pose proof (insert_perm k v m Hg) as Hp.
    destruct (IH (insert cmp k v m)) as [I1 I2].
    + by apply insert_sorted.
    + rewrite Hp. csimpl. apply NoDup_cons. split.
      * rewrite not_elem_of_app. split; [by apply get_none|done].
      * apply NoDup_app. split_and!; [done| |done]. intros x Hx Hx'. apply (H2 x Hx). by right.
    + split; [done|]. rewrite I2, Hp. simpl. by rewrite Permutation_middle.
Qed.

Lemma get_from_iter {V} (entries : list (K * V)) k v : NoDup entries.*1 ->
  get cmp k (from_iter cmp entries) = Some v <-> (k, v) ∈ entries.
Proof.
  intros Hnd. destruct (extend_perm entries []) as [H1 H2]; [constructor|done|].
  unfold from_iter. rewrite get_some by done. by rewrite H2.
Qed.

Lemma extend_sorted {V} (entries m : list (K * V)) : sorted_map cmp m -> sorted_map cmp (extend cmp m entries).
Proof. unfold extend. revert m. induction entries as [|e entries IH]; intros m Hm; [done|]. by apply IH, insert_sorted. Qed.

(** The entries win over the map. *)
Lemma get_extend {V} k (entries m : list (K * V)) : sorted_map cmp m -> NoDup entries.*1 ->
  get cmp k (extend cmp m entries) = match get cmp k entries with Some v => Some v | None => get cmp k m end.
Proof.
  unfold extend. revert m. induction entries as [|[k' v] entries IH]; intros m Hm Hnd; [done|]. cbn [fold_left get fst snd].
  csimpl in Hnd. apply NoDup_cons in Hnd as [Hk' Hnd]. rewrite IH, get_insert by (done || by apply insert_sorted).
  destruct (cmp k k') eqn:E; try done. apply (cmp_eq (cmp := cmp)) in E as ->. by rewrite (proj2 (get_none k' entries) Hk').
Qed.

Lemma contains_iff x s : contains cmp x s = true <-> x ∈ s.
Proof.
  induction s as [|y s IH]; simpl; [split; [done | inversion 1]|].
  rewrite elem_of_cons, <- IH. destruct (cmp x y) eqn:E.
  - apply (cmp_eq (cmp := cmp)) in E. tauto.
  - assert (x <> y) by (apply cmp_neq; congruence). tauto.
  - assert (x <> y) by (apply cmp_neq; congruence). tauto.
Qed.

Lemma in_set_insert x y s : y ∈ set_insert cmp x s <-> y = x \/ y ∈ s.
Proof.
  induction s as [|z s IH]; simpl.
  - rewrite list_elem_of_singleton. split; [auto | intros [?|H]; [done | inversion H]].
  - destruct (cmp x z) eqn:E; rewrite !elem_of_cons.
    + apply (cmp_eq (cmp := cmp)) in E as ->. tauto.
    + done.
    + rewrite IH. tauto.
Qed.

Lemma set_insert_perm x s : x ∉ s -> set_insert cmp x s ≡ₚ x :: s.
Proof.
  induction s as [|y s IH]; simpl; [done|]. intros Hx. destruct (cmp x y) eqn:E; [|done|].
  - apply cmp_eq in E as ->. set_solver.
  - rewrite IH by set_solver. constructor.
Qed.

Lemma set_insert_sorted x s : sorted_set cmp s -> sorted_set cmp (set_insert cmp x s).
Proof.
  induction 1 as [|y s Hs IH Hx]; simpl; [repeat constructor|].
  destruct (cmp x y) eqn:E.
  - by constructor.
  - constructor; [by constructor|]. constructor; [done|]. rewrite Forall_forall in *.
    intros z Hz. simpl. apply (cmp_trans (cmp := cmp)) with y; [done | by apply Hx].
  - constructor; [done|]. rewrite Forall_forall in *. intros z [->|Hz]%in_set_insert; simpl.
    + by apply cmp_gt_lt.
    + by apply Hx.
Qed.

Lemma set_from_iter_sorted l : sorted_set cmp (set_from_iter cmp l).
Proof.
  unfold set_from_iter. assert (sorted_set cmp []) as H by constructor. revert H.
  generalize (@nil K). induction l as [|x l IH]; simpl; intros s H; [done|].
  by apply IH, set_insert_sorted.
Qed.

Lemma in_set_from_iter x l : x ∈ set_from_iter cmp l <-> x ∈ l.
Proof.
  unfold set_from_iter. assert (x ∈ @nil K -> False) as H by inversion 1. revert H.
  enough (forall s, x ∈ fold_left (fun s x => set_insert cmp x s) l s <-> x ∈ s \/ x ∈ l) as E
    by (intros; rewrite E; tauto).
  induction l as [|y l IH]; simpl; intros s.
  - split; [auto | intros [?|H]; [done | inversion H]].
  - rewrite IH, in_set_insert, elem_of_cons. tauto.
Qed.

(** Strictly sorted lists with the same elements are equal. *)
Lemma sorted_set_ext s t : sorted_set cmp s -> sorted_set cmp t ->
  (forall x, x ∈ s <-> x ∈ t) -> s = t.
Proof.
  intros Hs. revert t. induction Hs as [|x s Hs IH Hx]; intros [|y t] Ht He; try done.
  - exfalso. assert (y ∈ @nil K) by (apply He, elem_of_cons; auto). by inversion H.
  - exfalso. assert (x ∈ @nil K) by (apply He, elem_of_cons; auto). by inversion H.
  - inversion Ht as [|? ? Ht' Hy]; subst. rewrite Forall_forall in Hx, Hy.
    assert (x = y) as <-.
    { apply (cmp_eq (cmp := cmp)). destruct (cmp x y) eqn:E; [done| |].
      - assert (x ∈ y :: t) as [->|Hin]%elem_of_cons by (apply He, elem_of_cons; auto).
        + by rewrite cmp_refl in E.
        + specialize (Hy _ Hin). simpl in Hy. by rewrite cmp_sym, E in Hy.
      - assert (y ∈ x :: s) as [->|Hin]%elem_of_cons by (apply He, elem_of_cons; auto).
        + by rewrite cmp_refl in E.
        + specialize (Hx _ Hin). simpl in Hx. by rewrite E in Hx. }
    f_equal. apply IH; [done|]. intros z. specialize (He z). rewrite !elem_of_cons in He.
    destruct (decide (cmp z x = Eq)) as [E|E].
    + apply (cmp_eq (cmp := cmp)) in E as ->. split; intros Hz.
      * specialize (Hx _ Hz). simpl in Hx. by rewrite cmp_refl in Hx.
      * specialize (Hy _ Hz). simpl in Hy. by rewrite cmp_refl in Hy.
    + apply cmp_neq in E. tauto.
Qed.

Lemma set_from_iter_id s : sorted_set cmp s -> set_from_iter cmp s = s.
Proof.
  intros Hs. apply sorted_set_ext; [apply set_from_iter_sorted | done|].
  intros x. apply in_set_from_iter.
Qed.
End Laws.

(** ** Sorting *)

Lemma sorted_filter {A} (R : A -> A -> Prop) (P : A -> Prop) `{!forall x, Decision (P x)} l :
  StronglySorted R l -> StronglySorted R (filter P l).
Proof.
  induction 1 as [|x l Hl IH Hx]; [constructor|]. rewrite filter_cons. case_decide; [|done].
  constructor; [done|]. rewrite Forall_forall in *. intros y [_ Hy]%list_elem_of_filter. auto.
Qed.

Section Sorting.
Context {A : Type} (cmp : A -> A -> comparison) `{!LawfulCompare cmp}.

Definition le (a b : A) : Prop := cmp a b <> Gt.

Lemma le_trans a b c : le a b -> le b c -> le a c.
Proof.
  unfold le. intros H1 H2. destruct (cmp_trans_cases cmp a b c) as [T1 T2].
  destruct (cmp a b) eqn:E1; [by rewrite T1 | | done].
  destruct (cmp b c) eqn:E2; [by rewrite T2, ?E1 | | done].
  by rewrite (cmp_trans a b c Lt).
Qed.

Lemma sort_insert_perm x l : sort_insert cmp x l ≡ₚ x :: l.
Proof.
  induction l as [|y l IH]; simpl; [done|]. destruct (cmp x y); [done|done|].
  rewrite IH. constructor.
Qed.

Lemma sort_by_perm l : sort_by cmp l ≡ₚ l.
Proof. induction l as [|x l IH]; simpl; [done|]. by rewrite sort_insert_perm, IH. Qed.

(** A panicking comparison defined on the elements sorts as a total one. *)
Lemma sort_insert_opt_some c x l :
  Forall (fun y => c x y = Some (cmp x y)) l -> sort_insert_opt c x l = Some (sort_insert cmp x l).
Proof.
  induction 1 as [|y l Hy _ IH]; simpl; [done|]. rewrite Hy. simpl.
  destruct (cmp x y); [done|done|]. by rewrite IH.
Qed.

Lemma sort_by_opt_some c l :
  (forall x y, x ∈ l -> y ∈ l -> c x y = Some (cmp x y)) -> sort_by_opt c l = Some (sort_by cmp l).
Proof.
  induction l as [|x l IH]; simpl; intros H; [done|]. rewrite IH.
  - simpl. apply sort_insert_opt_some, Forall_forall. intros y Hy. apply H; [left|].
    right. by rewrite <- (sort_by_perm l).
  - intros y z Hy Hz. by apply H; right.
Qed.

Lemma sort_insert_sorted x l : StronglySorted le l -> StronglySorted le (sort_insert cmp x l).
Proof.
  induction 1 as [|y l Hl IH Hy]; simpl; [repeat constructor|].
  assert (cmp x y <> Gt -> StronglySorted le (x :: y :: l)) as Hle.
  { intros H. constructor; [by constructor|]. constructor; [done|].
    eapply Forall_impl; [done|]. intros z. by apply le_trans. }
  destruct (cmp x y) eqn:E; [by apply Hle | by apply Hle|].
  constructor; [done|]. rewrite sort_insert_perm. constructor; [|done].
  unfold le. by rewrite cmp_sym, E.
Qed.

Lemma sort_by_sorted l : StronglySorted le (sort_by cmp l).
Proof. induction l; simpl; [constructor | by apply sort_insert_sorted]. Qed.
End Sorting.

End BTree.
