(* ===== verification/ValueSemantics.v ===== *)
(** Exact numeric semantics: crates/value-semantics/src/lib.rs.

    Planner proofs, index encodings and row comparison all compare an [i64],
    an [f64] and an [f32] through [CanonicalNumber]. Floating-point values are
    their IEEE 754 bit patterns ([to_bits]), integers are [Z]. The reference is
    [exact]: the real value itself, scaled by 2^1074 so that it is an integer
    for every finite input. *)
From S2P Require Import Prelude Bytes.

Open Scope Z_scope.

Module Canonical.

(** [u64::trailing_zeros] and [u64::leading_zeros] for non-zero arguments (the
    width for zero). *)
Fixpoint pos_ctz (p : positive) : Z :=
  match p with
  | xO p => 1 + pos_ctz p
  | _ => 0
  end.
Definition trailing_zeros (w z : Z) : Z :=
  match z with
  | Zpos p => pos_ctz p
  | _ => w
  end.
Definition leading_zeros (w z : Z) : Z := if z =? 0 then w else w - 1 - Z.log2 z.

Record CanonicalFinite := {
  exponent : Z;
  odd_significand : Z;
  floor_log2 : Z;
  normalized_significand : Z;
}.

Definition magnitude_cmp (self other : CanonicalFinite) : comparison :=
  then_with (floor_log2 self ?= floor_log2 other)
            (normalized_significand self ?= normalized_significand other).

Inductive CanonicalNumber :=
| NegativeInfinity
| NegativeFinite (f : CanonicalFinite)
| Zero
| PositiveFinite (f : CanonicalFinite)
| PositiveInfinity.

(** [CanonicalNumber::finite]; [significand] is a non-zero [u64]. *)
Definition finite (negative : bool) (significand exponent : Z) : CanonicalNumber :=
  let trailing := trailing_zeros 64 significand in
  let odd_significand := Z.shiftr significand trailing in
  let exponent := exponent + trailing in
  let floor_log2 := exponent + (64 - 1 - leading_zeros 64 odd_significand) in
  let f := {|
    exponent := exponent;
    odd_significand := odd_significand;
    floor_log2 := floor_log2;
    normalized_significand :=
      wrap 64 (Z.shiftl odd_significand (leading_zeros 64 odd_significand));
  |} in
  if negative then NegativeFinite f else PositiveFinite f.

Definition from_i64 (value : Z) : CanonicalNumber :=
  if value =? 0 then Zero else finite (value <? 0) (Z.abs value) 0.

Definition from_f64 (bits : Z) : option CanonicalNumber :=
  let negative := negb (Z.shiftr bits 63 =? 0) in
  let exponent_bits := Z.land (Z.shiftr bits 52) 0x7FF in
  let fraction := Z.land bits (Z.shiftl 1 52 - 1) in
  if exponent_bits =? 0x7FF then
    if fraction =? 0 then
      Some (if negative then NegativeInfinity else PositiveInfinity)
    else None
  else if (exponent_bits =? 0) && (fraction =? 0) then Some Zero
  else
    let '(significand, exponent) :=
      if exponent_bits =? 0 then (fraction, -1074)
      else (Z.lor (Z.shiftl 1 52) fraction, exponent_bits - 1023 - 52) in
    Some (finite negative significand exponent).

Definition from_f32 (bits : Z) : option CanonicalNumber :=
  let negative := negb (Z.shiftr bits 31 =? 0) in
  let exponent_bits := Z.land (Z.shiftr bits 23) 0xFF in
  let fraction := Z.land bits (Z.shiftl 1 23 - 1) in
  if exponent_bits =? 0xFF then
    if fraction =? 0 then
      Some (if negative then NegativeInfinity else PositiveInfinity)
    else None
  else if (exponent_bits =? 0) && (fraction =? 0) then Some Zero
  else
    let '(significand, exponent) :=
      if exponent_bits =? 0 then (fraction, -149)
      else (Z.lor (Z.shiftl 1 23) fraction, exponent_bits - 127 - 23) in
    Some (finite negative significand exponent).

(** [impl Ord for CanonicalNumber], arm by arm. *)
Definition cmp (self other : CanonicalNumber) : comparison :=
  match self, other with
  | NegativeInfinity, NegativeInfinity
  | Zero, Zero
  | PositiveInfinity, PositiveInfinity => Eq
  | NegativeInfinity, _ | _, PositiveInfinity => Lt
  | _, NegativeInfinity | PositiveInfinity, _ => Gt
  | NegativeFinite l, NegativeFinite r => magnitude_cmp r l
  | PositiveFinite l, PositiveFinite r => magnitude_cmp l r
  | NegativeFinite _, _ | Zero, PositiveFinite _ => Lt
  | _, NegativeFinite _ | PositiveFinite _, Zero => Gt
  end.

#[global] Instance CanonicalFinite_eq_dec : EqDecision CanonicalFinite.
Proof. solve_decision. Defined.
#[global] Instance CanonicalNumber_eq_dec : EqDecision CanonicalNumber.
Proof. solve_decision. Defined.

(** ** Reference semantics *)

(** The numeric inputs of the two adapters (property values, query values). *)
Inductive Source :=
| I64 (z : Z)
| F64 (bits : Z)
| F32 (bits : Z).

Definition source_ok (s : Source) : Prop :=
  match s with
  | I64 z => in_i 64 z
  | F64 bits => in_u 64 bits
  | F32 bits => in_u 32 bits
  end.

Definition canonical (s : Source) : option CanonicalNumber :=
  match s with
  | I64 z => Some (from_i64 z)
  | F64 bits => from_f64 bits
  | F32 bits => from_f32 bits
  end.

(** The extended real line, finite values scaled by 2^1074. *)
Inductive Exact :=
| ENegInf
| EFin (scaled : Z)
| EPosInf.

Definition exact_cmp (a b : Exact) : comparison :=
  match a, b with
  | ENegInf, ENegInf | EPosInf, EPosInf => Eq
  | ENegInf, _ | _, EPosInf => Lt
  | _, ENegInf | EPosInf, _ => Gt
  | EFin x, EFin y => x ?= y
  end.

(** IEEE 754 binary interchange format with [ebits] exponent bits and [fbits]
    fraction bits, decoded arithmetically; [None] is NaN. *)
Definition ieee_exact (ebits fbits bits : Z) : option Exact :=
  let sign := bits / 2 ^ (ebits + fbits) in
  let e := (bits / 2 ^ fbits) mod 2 ^ ebits in
  let fr := bits mod 2 ^ fbits in
  let bias := 2 ^ (ebits - 1) - 1 in
  let signed z := if sign =? 0 then z else - z in
  if e =? 2 ^ ebits - 1 then
    if fr =? 0 then Some (if sign =? 0 then EPosInf else ENegInf) else None
  else if e =? 0 then Some (EFin (signed (fr * 2 ^ (1 - bias - fbits + 1074))))
  else Some (EFin (signed ((2 ^ fbits + fr) * 2 ^ (e - bias - fbits + 1074)))).

Definition exact (s : Source) : option Exact :=
  match s with
  | I64 z => Some (EFin (z * 2 ^ 1074))
  | F64 bits => ieee_exact 11 52 bits
  | F32 bits => ieee_exact 8 23 bits
  end.

(** What a canonical number denotes. *)
Definition magnitude (f : CanonicalFinite) : Z :=
  odd_significand f * 2 ^ (exponent f + 1074).

Definition denote (n : CanonicalNumber) : Exact :=
  match n with
  | NegativeInfinity => ENegInf
  | NegativeFinite f => EFin (- magnitude f)
  | Zero => EFin 0
  | PositiveFinite f => EFin (magnitude f)
  | PositiveInfinity => EPosInf
  end.

(** Invariant of the private constructor [finite]. *)
Record finite_ok (f : CanonicalFinite) : Prop := {
  fo_odd : Z.odd (odd_significand f) = true;
  fo_range : 0 < odd_significand f < 2 ^ 64;
  fo_exponent : -1074 <= exponent f;
  fo_floor : floor_log2 f = exponent f + Z.log2 (odd_significand f);
  fo_top : floor_log2 f <= 1023;
  fo_norm : normalized_significand f =
    odd_significand f * 2 ^ (63 - Z.log2 (odd_significand f));
}.

Definition number_ok (n : CanonicalNumber) : Prop :=
  match n with
  | NegativeFinite f | PositiveFinite f => finite_ok f
  | _ => True
  end.

(** ** Bit counting *)

Lemma pos_ctz_spec p :
  0 <= pos_ctz p /\ exists q, Z.odd (Zpos q) = true /\ Zpos p = Zpos q * 2 ^ pos_ctz p.
Proof.
  induction p as [p _|p (Hc & q & Hq & Hp)|]; cbn [pos_ctz].
  - split; [done|]. exists (xI p). by rewrite Z.pow_0_r, Z.mul_1_r.
  - split; [lia|]. exists q. split; [done|].
    rewrite Z.pow_add_r, Z.pow_1_r, Pos2Z.inj_xO, Hp by lia. lia.
  - split; [done|]. by exists 1%positive.
Qed.

Lemma trailing_zeros_spec w z :
  0 < z -> exists k q, trailing_zeros w z = k /\ 0 <= k /\ Z.odd q = true /\ 0 < q /\
    z = q * 2 ^ k /\ Z.shiftr z k = q.
Proof.
  destruct z as [|p|p]; [lia| |lia]. intros _.
  destruct (pos_ctz_spec p) as (Hc & q & Hq & Hp).
  exists (pos_ctz p), (Zpos q). simpl trailing_zeros. split_and!; try done.
  rewrite Z.shiftr_div_pow2, Hp, Z.div_mul by lia. done.
Qed.

Lemma log2_bound z w : 0 < z < 2 ^ w -> 0 <= Z.log2 z <= w - 1.
Proof.
  intros [H1 H2]. split; [apply Z.log2_nonneg|].
  destruct (Z.le_gt_cases w 0) as [Hw|Hw].
  - destruct (Z.eq_dec w 0) as [->|]; [lia|]. rewrite Z.pow_neg_r in H2; lia.
  - assert (Z.log2 z < w); [|lia]. by apply Z.log2_lt_pow2.
Qed.

Lemma normalized_bound q :
  0 < q < 2 ^ 64 -> 2 ^ 63 <= q * 2 ^ (63 - Z.log2 q) < 2 ^ 64.
Proof.
  intros H. pose proof (log2_bound q 64 H) as Hl.
  destruct (Z.log2_spec q) as [H1 H2]; [lia|].
  rewrite Z.pow_succ_r in H2 by lia.
  replace 63 with (Z.log2 q + (63 - Z.log2 q)) at 1 by lia.
  rewrite Z.pow_add_r by lia.
  assert (2 ^ 64 = 2 * 2 ^ Z.log2 q * 2 ^ (63 - Z.log2 q)) as ->.
  { rewrite <- Z.mul_assoc, <- Z.pow_add_r by lia.
    replace (Z.log2 q + (63 - Z.log2 q)) with 63 by lia. done. }
  assert (0 < 2 ^ (63 - Z.log2 q)) by (apply Z.pow_pos_nonneg; lia). nia.
Qed.

(** The odd part of a positive integer is unique. *)
Lemma odd_pow2_unique a b j k :
  Z.odd a = true -> Z.odd b = true -> 0 <= j -> 0 <= k ->
  a * 2 ^ j = b * 2 ^ k -> a = b /\ j = k.
Proof.
  assert (forall a b j k, Z.odd a = true -> 0 <= j <= k ->
    a * 2 ^ j = b * 2 ^ k -> a = b /\ j = k) as Hw.
  { intros a' b' j' k' Ha [Hj Hk] E.
    replace k' with (j' + (k' - j')) in E by lia.
    rewrite Z.pow_add_r, Z.mul_comm, (Z.mul_comm b'), <- Z.mul_assoc in E by lia.
    apply Z.mul_reg_l in E; [|apply Z.pow_nonzero; lia].
    destruct (Z.eq_dec j' k') as [->|Hne].
    { rewrite Z.sub_diag, Z.pow_0_r in E. lia. }
    exfalso. rewrite E in Ha.
    replace (k' - j') with (Z.succ (k' - j' - 1)) in Ha by lia.
    rewrite Z.pow_succ_r, !Z.odd_mul in Ha by lia. done. }
  intros Ha Hb Hj Hk E. destruct (Z.le_gt_cases j k).
  - apply Hw; auto.
  - destruct (Hw b a k j) as [-> ->]; auto with lia.
Qed.

(** ** The constructor keeps the invariant and the magnitude *)

Definition finite_of (n : CanonicalNumber) : option CanonicalFinite :=
  match n with
  | NegativeFinite f | PositiveFinite f => Some f
  | _ => None
  end.

Lemma finite_spec neg s e :
  0 < s < 2 ^ 64 -> -1074 <= e -> e + Z.log2 s <= 1023 ->
  exists f, finite neg s e = (if neg then NegativeFinite f else PositiveFinite f) /\
    finite_ok f /\ magnitude f = s * 2 ^ (e + 1074).
Proof.
  intros Hs He Htop. unfold finite.
  destruct (trailing_zeros_spec 64 s) as (k & q & -> & Hk & Hodd & Hq & E & ->); [lia|].
  eexists; split; [destruct neg; reflexivity|].
  assert (0 < 2 ^ k) by (apply Z.pow_pos_nonneg; lia).
  assert (q < 2 ^ 64) as Hq64 by nia.
  assert (Z.log2 s = Z.log2 q + k) as Hlog by (rewrite E, Z.log2_mul_pow2; lia).
  pose proof (log2_bound q 64 ltac:(lia)) as Hl.
  assert (leading_zeros 64 q = 63 - Z.log2 q) as Hlz.
  { unfold leading_zeros. destruct (Z.eqb_spec q 0); lia. }
  rewrite Hlz. split.
  - split; simpl; try lia; [done|].
    unfold wrap. rewrite Z.shiftl_mul_pow2 by lia.
    apply Z.mod_small. pose proof (normalized_bound q). lia.
  - unfold magnitude; simpl. rewrite E.
    replace (e + k + 1074) with (k + (e + 1074)) by lia.
    rewrite Z.pow_add_r by lia. lia.
Qed.

Lemma magnitude_pos f : finite_ok f -> 0 < magnitude f.
Proof.
  intros []. unfold magnitude.
  assert (0 < 2 ^ (exponent f + 1074)) by (apply Z.pow_pos_nonneg; lia). nia.
Qed.

(** The pair the order compares is the magnitude's binary logarithm and its
    top 64 bits. *)
Lemma magnitude_floor f : finite_ok f -> Z.log2 (magnitude f) = floor_log2 f + 1074.
Proof.
  intros []. unfold magnitude. rewrite Z.log2_mul_pow2 by lia. lia.
Qed.

Lemma magnitude_norm f :
  finite_ok f -> magnitude f * 2 ^ 63 = normalized_significand f * 2 ^ (floor_log2 f + 1074).
Proof.
  intros []. unfold magnitude. rewrite fo_norm0, fo_floor0.
  pose proof (log2_bound _ _ fo_range0).
  rewrite <- !Z.mul_assoc, <- !Z.pow_add_r by lia. f_equal. f_equal. lia.
Qed.

Lemma magnitude_cmp_exact f g :
  finite_ok f -> finite_ok g -> magnitude_cmp f g = (magnitude f ?= magnitude g).
Proof.
  intros Hf Hg. unfold magnitude_cmp.
  pose proof (magnitude_floor f Hf) as Lf. pose proof (magnitude_floor g Hg) as Lg.
  pose proof (magnitude_pos f Hf). pose proof (magnitude_pos g Hg).
  assert (0 <= floor_log2 f + 1074) by (rewrite <- Lf; apply Z.log2_nonneg).
  destruct (Z.compare_spec (floor_log2 f) (floor_log2 g)) as [E|E|E]; simpl; symmetry.
  - pose proof (magnitude_norm f Hf) as Nf. pose proof (magnitude_norm g Hg) as Ng.
    rewrite <- E in Ng.
    assert (0 < 2 ^ (floor_log2 f + 1074)) by (apply Z.pow_pos_nonneg; lia).
    rewrite (Zmult_compare_compat_r (magnitude f) _ (2 ^ 63)) by done.
    rewrite Nf, Ng. symmetry. apply Zmult_compare_compat_r. lia.
  - apply Z.compare_lt_iff. apply Z.log2_lt_cancel. lia.
  - apply Z.compare_gt_iff. apply Z.log2_lt_cancel. lia.
Qed.

Lemma magnitude_inj f g :
  finite_ok f -> finite_ok g -> magnitude f = magnitude g -> f = g.
Proof.
  intros Hf Hg E.
  pose proof (magnitude_floor f Hf). pose proof (magnitude_floor g Hg).
  destruct Hf as [], Hg as []. unfold magnitude in E.
  apply odd_pow2_unique in E as [E1 E2]; [|done..|lia|lia].
  destruct f, g; simpl in *. subst. f_equal; lia.
Qed.

Lemma cmp_denote a b :
  number_ok a -> number_ok b -> cmp a b = exact_cmp (denote a) (denote b).
Proof.
  intros Ha Hb. destruct a as [|f| |f|], b as [|g| |g|];
    cbn [number_ok cmp denote exact_cmp] in *; try done;
    try pose proof (magnitude_pos f Ha); try pose proof (magnitude_pos g Hb);
    rewrite ?magnitude_cmp_exact by done; rewrite ?Z.compare_opp; try done; symmetry;
    rewrite ?Z.compare_lt_iff, ?Z.compare_gt_iff; lia.
Qed.

Lemma denote_inj a b : number_ok a -> number_ok b -> denote a = denote b -> a = b.
Proof.
  intros Ha Hb. destruct a as [|f| |f|], b as [|g| |g|]; simpl in *; intros [=]; try done;
    try pose proof (magnitude_pos f Ha); try pose proof (magnitude_pos g Hb); try lia;
    f_equal; apply magnitude_inj; auto; lia.
Qed.

(** ** The adapters denote the exact value *)

Lemma from_i64_spec z : in_i 64 z -> number_ok (from_i64 z) /\ denote (from_i64 z) = EFin (z * 2 ^ 1074).
Proof.
  unfold in_i, from_i64. intros Hz. destruct (Z.eqb_spec z 0) as [->|Hne]; [done|].
  assert (Z.log2 (Z.abs z) <= 63) as Hl.
  { pose proof (log2_bound (Z.abs z) 64). lia. }
  destruct (finite_spec (z <? 0) (Z.abs z) 0) as (f & -> & Hok & Hm); [lia..|].
  change (0 + 1074) with 1074 in Hm.
  destruct (Z.ltb_spec z 0); simpl; rewrite Hm; (split; [done|f_equal; lia]).
Qed.

(** Both IEEE adapters run the same decoder with different field widths. *)
Definition ieee_decode (ebits fbits bits : Z) : option CanonicalNumber :=
  let emax := 2 ^ ebits - 1 in
  let bias := 2 ^ (ebits - 1) - 1 in
  let negative := negb (Z.shiftr bits (ebits + fbits) =? 0) in
  let e := Z.land (Z.shiftr bits fbits) emax in
  let fraction := Z.land bits (Z.shiftl 1 fbits - 1) in
  if e =? emax then
    if fraction =? 0 then
      Some (if negative then NegativeInfinity else PositiveInfinity)
    else None
  else if (e =? 0) && (fraction =? 0) then Some Zero
  else
    let '(significand, exponent) :=
      if e =? 0 then (fraction, 1 - bias - fbits)
      else (Z.lor (Z.shiftl 1 fbits) fraction, e - bias - fbits) in
    Some (finite negative significand exponent).

Lemma from_f64_ieee bits : from_f64 bits = ieee_decode 11 52 bits.
Proof. reflexivity. Qed.

Lemma from_f32_ieee bits : from_f32 bits = ieee_decode 8 23 bits.
Proof. reflexivity. Qed.

Lemma ieee_decode_spec ebits fbits bits :
  1 < ebits <= 11 -> 1 < fbits -> fbits <= 52 ->
  -1074 <= 1 - (2 ^ (ebits - 1) - 1) - fbits ->
  in_u (1 + ebits + fbits) bits ->
  match ieee_decode ebits fbits bits with
  | Some n => number_ok n /\ ieee_exact ebits fbits bits = Some (denote n)
  | None => ieee_exact ebits fbits bits = None
  end.
Proof.
  intros He Hf Hf' Hmin Hb. unfold in_u in Hb.
  unfold ieee_decode, ieee_exact.
  assert (forall z, Z.land z (2 ^ ebits - 1) = z mod 2 ^ ebits) as Hmask.
  { intros z. rewrite <- land_mask, Z.shiftl_1_l by lia. done. }
  rewrite land_mask, Hmask, !Z.shiftr_div_pow2 by lia.
  set (e := (bits / 2 ^ fbits) mod 2 ^ ebits).
  set (fr := bits mod 2 ^ fbits).
  set (sg := bits / 2 ^ (ebits + fbits)).
  set (bias := 2 ^ (ebits - 1) - 1) in *.
  assert (0 <= e < 2 ^ ebits) as Be by (apply Z.mod_pos_bound; lia).
  assert (0 <= fr < 2 ^ fbits) as Bf by (apply Z.mod_pos_bound; lia).
  assert (2 ^ ebits = 2 * 2 ^ (ebits - 1)) as Hpow.
  { rewrite <- Z.pow_succ_r by lia. f_equal. lia. }
  assert (bias <= 1023) as Hbias.
  { unfold bias. assert (2 ^ (ebits - 1) <= 2 ^ 10); [apply Z.pow_le_mono_r; lia | lia]. }
  assert (2 ^ fbits <= 2 ^ 52) as Hf52 by (apply Z.pow_le_mono_r; lia).
  destruct (Z.eqb_spec e (2 ^ ebits - 1)) as [Emax|Emax].
  { destruct (fr =? 0); [|done]. by destruct (sg =? 0). }
  destruct (Z.eqb_spec e 0) as [E0|E0]; simpl andb.
  - destruct (Z.eqb_spec fr 0) as [->|Hfr].
    { split; [done|]. cbn [denote]. by destruct (sg =? 0). }
    assert (Z.log2 fr < fbits) by (apply Z.log2_lt_pow2; lia).
    destruct (finite_spec (negb (sg =? 0)) fr (1 - bias - fbits)) as (g & -> & Hok & Hm); [lia..|].
    destruct (sg =? 0); simpl negb; cbn [number_ok denote]; rewrite Hm; done.
  - assert (Z.lor (Z.shiftl 1 fbits) fr = 2 ^ fbits + fr) as ->.
    { rewrite lor_disjoint_add; lia. }
    assert (Z.log2 (2 ^ fbits + fr) = fbits) as Hlog.
    { apply Z.log2_unique; [lia|]. rewrite Z.pow_succ_r; lia. }
    destruct (finite_spec (negb (sg =? 0)) (2 ^ fbits + fr) (e - bias - fbits))
      as (g & -> & Hok & Hm); [lia..|].
    destruct (sg =? 0); simpl negb; cbn [number_ok denote]; rewrite Hm; done.
Qed.

(** The adapters are total on non-NaN inputs, reject exactly NaN, and produce a
    well-formed number denoting the exact input. *)
Lemma canonical_spec s :
  source_ok s ->
  match canonical s with
  | Some n => number_ok n /\ exact s = Some (denote n)
  | None => exact s = None
  end.
Proof.
  destruct s as [z|bits|bits]; simpl source_ok; intros H; simpl canonical; simpl exact.
  - destruct (from_i64_spec z H) as [? ->]. done.
  - rewrite from_f64_ieee. apply ieee_decode_spec; try done; lia.
  - rewrite from_f32_ieee. apply ieee_decode_spec; try done; lia.
Qed.

(** A canonical number built by an adapter denotes at most the largest [u16]
    bias the range encoding stores. *)
Lemma number_ok_floor n f :
  number_ok n -> finite_of n = Some f ->
  -1074 <= floor_log2 f <= 1023 /\ 2 ^ 63 <= normalized_significand f < 2 ^ 64.
Proof.
  intros Hn Hf. assert (finite_ok f) as [] by (destruct n; simpl in *; congruence).
  rewrite fo_norm0. pose proof (normalized_bound _ fo_range0).
  pose proof (Z.log2_nonneg (odd_significand f)). lia.
Qed.

Lemma exact_cmp_eq a b : exact_cmp a b = Eq <-> a = b.
Proof.
  destruct a, b; simpl; split; try congruence.
  - intros ->%Z.compare_eq. done.
  - intros [= ->]. apply Z.compare_refl.
Qed.

#[global] Instance exact_cmp_strict : StrictCompare exact_cmp.
Proof.
  split; [split|].
  - by intros [| |]; simpl; rewrite ?Z.compare_refl.
  - intros [|x|] [|y|]; simpl; try done. by rewrite Z.compare_antisym.
  - intros [|x|] [|y|] [|z|] o; simpl; try congruence. apply (cmp_trans (cmp:=Z.compare)).
  - intros x y. apply exact_cmp_eq.
Qed.

(** ** Properties *)

(** [C21] The canonical order of any two numeric values, of whatever width and
    kind, is the order of the exact real numbers they stand for: no comparison
    between an [i64], an [f64] and an [f32] ever rounds. *)
Theorem cmp_exact (a b : Source) (m n : CanonicalNumber) (x y : Exact) :
  source_ok a -> source_ok b ->
  canonical a = Some m -> canonical b = Some n ->
  exact a = Some x -> exact b = Some y ->
  cmp m n = exact_cmp x y.
Proof.
  intros Ha Hb Em En Ex Ey.
  pose proof (canonical_spec a Ha) as Sa. pose proof (canonical_spec b Hb) as Sb.
  rewrite Em in Sa. rewrite En in Sb. destruct Sa as [Om Dm], Sb as [On Dn].
  rewrite Ex in Dm. rewrite Ey in Dn. injection Dm as ->. injection Dn as ->.
  by apply cmp_denote.
Qed.

(** Structural equality of canonical numbers, which hashing and grouping
    use, is exactly equality of the numbers: two inputs normalise to the same
    record precisely when they denote the same value. *)
Theorem canonical_equality (a b : Source) (m n : CanonicalNumber) :
  source_ok a -> source_ok b -> canonical a = Some m -> canonical b = Some n ->
  (m = n <-> exact a = exact b).
Proof.
  intros Ha Hb Em En.
  pose proof (canonical_spec a Ha) as Sa. pose proof (canonical_spec b Hb) as Sb.
  rewrite Em in Sa. rewrite En in Sb. destruct Sa as [Om ->], Sb as [On ->].
  split; [congruence|]. intros [= ?]. by apply denote_inj.
Qed.

(** 2^53 + 1 as an [i64] is greater than the [f64] 2^53 it would round to. *)
Example cmp_exact_witness :
  cmp (from_i64 9007199254740993) (from_i64 9007199254740992) = Gt /\
  from_f64 0x4340000000000000 = Some (from_i64 9007199254740992) /\
  cmp (from_i64 9007199254740993) (from_i64 9007199254740992) =
    exact_cmp (EFin (9007199254740993 * 2 ^ 1074)) (EFin (9007199254740992 * 2 ^ 1074)).
Proof.
  split; [vm_compute; reflexivity|]. split; [vm_compute; reflexivity|].
  apply (cmp_exact (I64 9007199254740993) (F64 0x4340000000000000));
    [vm_compute; intuition congruence | vm_compute; intuition congruence
    | vm_compute; reflexivity ..].
Defined.

Example canonical_equality_witness :
  from_i64 42 = from_i64 42 <-> exact (I64 42) = exact (F64 0x4045000000000000).
Proof.
  apply canonical_equality;
    [vm_compute; intuition congruence | vm_compute; intuition congruence
    | vm_compute; reflexivity ..].
Defined.

End Canonical.
