(* ===== verification/Property.v ===== *)
(** Stored property values: crates/db/src/encoding/v2/values/property/.

    [PropertyValue] with its comparisons (property_value.rs) and the exact
    numeric adapter (canonical_number.rs). Strings are their UTF-8 bytes, which
    is what Rust's [Ord for str] compares; floats are their bit patterns; a
    [BTreeMap] is the list of its entries in key order, which is all its
    iterators expose. *)
From S2P Require Import Prelude Bytes ValueSemantics.

Open Scope Z_scope.

#[local] Set Warnings "-register-all".

Module Property.

Inductive PropertyValue :=
| Null
| Bool (b : bool)
| I64 (z : Z)
| DateTime (millis : Z)
| F64 (bits : Z)
| F32 (bits : Z)  (** [F32(f64)]: the widened value *)
| Str (s : bytes)
| Bytes (b : bytes)
| I64Array (a : list Z)
| F64Array (a : list Z)
| F32Array (a : list Z)
| StringArray (a : list bytes)
| Array (a : list PropertyValue)
| Object (o : list (bytes * PropertyValue)).

(** canonical_number.rs: [from_property]. *)
Definition from_property (value : PropertyValue) : option Canonical.CanonicalNumber :=
  match value with
  | I64 value => Some (Canonical.from_i64 value)
  | F64 value => Canonical.from_f64 value
  | F32 value => Canonical.from_f64 value
  | _ => None
  end.

(** [f64::total_cmp] and [f32::total_cmp]: the sign-magnitude bits as a signed
    integer. *)
Definition total_key (w bits : Z) : Z :=
  if bits <? 2 ^ (w - 1) then bits else 2 ^ (w - 1) - 1 - bits.
Definition float_total_cmp (w a b : Z) : comparison := total_key w a ?= total_key w b.

(** IEEE equality of two [f64] bit patterns: NaN is unequal to everything and
    both zeroes are equal. *)
Definition is_nan (ebits fbits bits : Z) : bool :=
  (2 ^ ebits - 1) * 2 ^ fbits <? bits mod 2 ^ (ebits + fbits).
Definition is_zero (ebits fbits bits : Z) : bool := bits mod 2 ^ (ebits + fbits) =? 0.
Definition ieee_eq (ebits fbits a b : Z) : bool :=
  negb (is_nan ebits fbits a) && negb (is_nan ebits fbits b) &&
  ((a =? b) || (is_zero ebits fbits a && is_zero ebits fbits b)).
Definition f64_eq : Z -> Z -> bool := ieee_eq 11 52.
Definition f32_eq : Z -> Z -> bool := ieee_eq 8 23.

Definition bool_cmp (a b : bool) : comparison :=
  match a, b with
  | false, true => Lt
  | true, false => Gt
  | _, _ => Eq
  end.

(** The discriminant [total_order] ranks the variants by. *)
Definition rank (value : PropertyValue) : Z :=
  match value with
  | Null => 0
  | Bool _ => 1
  | I64 _ | F64 _ | F32 _ => 2
  | DateTime _ => 3
  | Str _ => 4
  | Bytes _ => 5
  | I64Array _ => 6
  | F64Array _ => 7
  | F32Array _ => 8
  | StringArray _ => 9
  | Array _ => 10
  | Object _ => 11
  end.

(** [numeric_bits]; [unreachable!] on a non-numeric value, where it is never
    called. *)
Definition numeric_bits (value : PropertyValue) : Z * Z :=
  match value with
  | I64 value => (0, wrap 64 value)
  | F64 value => (1, value)
  | F32 value => (2, value)
  | _ => (0, 0)
  end.

Definition pair_cmp (a b : Z * Z) : comparison := then_with (a.1 ?= b.1) (a.2 ?= b.2).

(** The numeric arm of [total_order]. *)
Definition numeric_total_order (self other : PropertyValue) : comparison :=
  match from_property self, from_property other with
  | Some l, Some r => Canonical.cmp l r
  | None, None => pair_cmp (numeric_bits self) (numeric_bits other)
  | None, Some _ => Gt
  | Some _, None => Lt
  end.

Definition total_cmp_f64_slices : list Z -> list Z -> comparison :=
  lex_compare (float_total_cmp 64).
Definition total_cmp_f32_slices : list Z -> list Z -> comparison :=
  lex_compare (float_total_cmp 32).

(** [total_cmp_objects]: entries in key order, key first, then value. *)
Definition entry_cmp {V} (cmp : V -> V -> comparison) (a b : bytes * V) : comparison :=
  then_with (bytes_cmp a.1 b.1) (cmp a.2 b.2).

(** [PropertyValue::total_order], with [total_cmp_slices] and
    [total_cmp_objects] as the lexicographic comparisons they are. *)
Fixpoint total_order (self other : PropertyValue) {struct self} : comparison :=
  then_with (rank self ?= rank other)
    match self, other with
    | Null, Null => Eq
    | Bool l, Bool r => bool_cmp l r
    | (I64 _ | F64 _ | F32 _), (I64 _ | F64 _ | F32 _) => numeric_total_order self other
    | DateTime l, DateTime r => l ?= r
    | Str l, Str r => bytes_cmp l r
    | Bytes l, Bytes r => bytes_cmp l r
    | I64Array l, I64Array r => lex_compare Z.compare l r
    | F64Array l, F64Array r => total_cmp_f64_slices l r
    | F32Array l, F32Array r => total_cmp_f32_slices l r
    | StringArray l, StringArray r => lex_compare bytes_cmp l r
    | Array l, Array r => lex_compare total_order l r
    | Object l, Object r =>
        lex_compare (fun a b => then_with (bytes_cmp a.1 b.1) (total_order a.2 b.2)) l r
    | _, _ => Eq
    end.

(** [PropertyValue::compare]: predicate comparison, undefined across domains
    and on NaN. *)
Definition compare (self other : PropertyValue) : option comparison :=
  match self, other with
  | (I64 _ | F64 _ | F32 _), (I64 _ | F64 _ | F32 _) =>
      match from_property self, from_property other with
      | Some l, Some r => Some (Canonical.cmp l r)
      | _, _ => None
      end
  | DateTime l, DateTime r => Some (l ?= r)
  | Str l, Str r => Some (bytes_cmp l r)
  | _, _ => None
  end.

(** Elementwise comparison of two slices of one length. *)
Fixpoint slices_equal {A} (eq : A -> A -> bool) (l r : list A) : bool :=
  match l, r with
  | [], [] => true
  | x :: l, y :: r => eq x y && slices_equal eq l r
  | _, _ => false
  end.

Definition canonical_eq (l r : option Canonical.CanonicalNumber) : bool :=
  match l, r with
  | Some l, Some r => bool_decide (l = r)
  | _, _ => false
  end.

Definition numeric_f64_slices_equal : list Z -> list Z -> bool :=
  slices_equal (fun l r => canonical_eq (Canonical.from_f64 l) (Canonical.from_f64 r)).
Definition numeric_f32_slices_equal : list Z -> list Z -> bool :=
  slices_equal (fun l r => canonical_eq (Canonical.from_f32 l) (Canonical.from_f32 r)).

Definition bytes_eqb (l r : bytes) : bool := slices_equal Z.eqb l r.

(** The derived [PartialEq] of [PropertyValue]. *)
Fixpoint derived_eq (self other : PropertyValue) {struct self} : bool :=
  match self, other with
  | Null, Null => true
  | Bool a, Bool b => Bool.eqb a b
  | I64 a, I64 b | DateTime a, DateTime b => a =? b
  | F64 a, F64 b | F32 a, F32 b => f64_eq a b
  | Str a, Str b | Bytes a, Bytes b => bytes_eqb a b
  | I64Array a, I64Array b => slices_equal Z.eqb a b
  | F64Array a, F64Array b => slices_equal f64_eq a b
  | F32Array a, F32Array b => slices_equal f32_eq a b
  | StringArray a, StringArray b => slices_equal bytes_eqb a b
  | Array a, Array b => slices_equal derived_eq a b
  | Object a, Object b =>
      slices_equal (fun x y => bytes_eqb x.1 y.1 && derived_eq x.2 y.2) a b
  | _, _ => false
  end.

(** [PropertyValue::eq_value]. *)
Definition eq_value (self other : PropertyValue) : bool :=
  match self, other with
  | Null, Null => true
  | Bool a, Bool b => Bool.eqb a b
  | (I64 _ | F64 _ | F32 _), (I64 _ | F64 _ | F32 _) =>
      canonical_eq (from_property self) (from_property other)
  | DateTime a, DateTime b => a =? b
  | Str a, Str b => bytes_eqb a b
  | Bytes a, Bytes b => bytes_eqb a b
  | I64Array a, I64Array b => slices_equal Z.eqb a b
  | F64Array a, F64Array b => numeric_f64_slices_equal a b
  | F32Array a, F32Array b => numeric_f32_slices_equal a b
  | StringArray a, StringArray b => slices_equal bytes_eqb a b
  | Array a, Array b => slices_equal derived_eq a b
  | Object a, Object b =>
      slices_equal (fun x y => bytes_eqb x.1 y.1 && derived_eq x.2 y.2) a b
  | _, _ => false
  end.

(** [PropertyValue::same_v1_representation]: floats by their bits. *)
Fixpoint same_v1_representation (self other : PropertyValue) {struct self} : bool :=
  match self, other with
  | Null, Null => true
  | Bool l, Bool r => Bool.eqb l r
  | I64 l, I64 r | DateTime l, DateTime r => l =? r
  | F64 l, F64 r | F32 l, F32 r => l =? r
  | Str l, Str r => bytes_eqb l r
  | Bytes l, Bytes r => bytes_eqb l r
  | I64Array l, I64Array r => slices_equal Z.eqb l r
  | F64Array l, F64Array r => slices_equal Z.eqb l r
  | F32Array l, F32Array r => slices_equal Z.eqb l r
  | StringArray l, StringArray r => slices_equal bytes_eqb l r
  | Array l, Array r => slices_equal same_v1_representation l r
  | Object l, Object r =>
      slices_equal (fun x y => bytes_eqb x.1 y.1 && same_v1_representation x.2 y.2) l r
  | _, _ => false
  end.

(** ** Induction over nested values *)

Section Induction.
Variable P : PropertyValue -> Prop.
Hypothesis Hscalar : forall v,
  match v with Array _ | Object _ => False | _ => True end -> P v.
Hypothesis Harray : forall l, Forall P l -> P (Array l).
Hypothesis Hobject : forall l, Forall (fun e => P e.2) l -> P (Object l).

Fixpoint value_ind' (v : PropertyValue) : P v :=
  match v with
  | Array l => Harray l ((fix go l : Forall P l :=
      match l with
      | [] => List.Forall_nil _
      | x :: l => List.Forall_cons _ _ _ (value_ind' x) (go l)
      end) l)
  | Object l => Hobject l ((fix go l : Forall (fun e => P e.2) l :=
      match l with
      | [] => List.Forall_nil _
      | x :: l => List.Forall_cons _ _ _ (value_ind' x.2) (go l)
      end) l)
  | v => Hscalar v I
  end.
End Induction.

(** ** [total_order] is a total preorder *)

#[global] Instance magnitude_cmp_lawful : LawfulCompare Canonical.magnitude_cmp.
Proof.
  apply then_with_lawful.
  - apply (preimage_lawful Canonical.floor_log2), _.
  - apply (preimage_lawful Canonical.normalized_significand), _.
Qed.

#[global] Instance canonical_cmp_lawful : LawfulCompare Canonical.cmp.
Proof.
  split.
  - intros []; simpl; try done; apply cmp_refl.
  - intros [] []; simpl; try done; apply (cmp_sym (cmp := Canonical.magnitude_cmp)).
  - intros [] [] [] o; simpl; try congruence;
      intros H1 H2; by eapply (cmp_trans (cmp := Canonical.magnitude_cmp)); eassumption.
Qed.

#[global] Instance pair_cmp_lawful : LawfulCompare pair_cmp.
Proof. apply then_with_lawful; [apply (preimage_lawful fst), _ | apply (preimage_lawful snd), _]. Qed.

#[global] Instance numeric_total_order_lawful : LawfulCompare numeric_total_order.
Proof.
  split; unfold numeric_total_order.
  - intros x. destruct (from_property x); apply cmp_refl.
  - intros x y. destruct (from_property x), (from_property y); try done.
    + apply (cmp_sym (cmp := Canonical.cmp)).
    + apply (cmp_sym (cmp := pair_cmp)).
  - intros x y z o. destruct (from_property x), (from_property y), (from_property z);
      try congruence.
    + apply (cmp_trans (cmp := Canonical.cmp)).
    + apply (cmp_trans (cmp := pair_cmp)).
Qed.

#[global] Instance float_total_cmp_lawful w : LawfulCompare (float_total_cmp w).
Proof. apply (preimage_lawful (total_key w)), _. Qed.

#[global] Instance bool_cmp_lawful : LawfulCompare bool_cmp.
Proof. split; [by intros [] | by intros [] [] | intros [] [] [] o; simpl; congruence]. Qed.

(** [total_order] past the rank. *)
Definition same_rank_order (self other : PropertyValue) : comparison :=
  match self, other with
  | Null, Null => Eq
  | Bool l, Bool r => bool_cmp l r
  | (I64 _ | F64 _ | F32 _), (I64 _ | F64 _ | F32 _) => numeric_total_order self other
  | DateTime l, DateTime r => l ?= r
  | Str l, Str r => bytes_cmp l r
  | Bytes l, Bytes r => bytes_cmp l r
  | I64Array l, I64Array r => lex_compare Z.compare l r
  | F64Array l, F64Array r => total_cmp_f64_slices l r
  | F32Array l, F32Array r => total_cmp_f32_slices l r
  | StringArray l, StringArray r => lex_compare bytes_cmp l r
  | Array l, Array r => lex_compare total_order l r
  | Object l, Object r => lex_compare (entry_cmp total_order) l r
  | _, _ => Eq
  end.

Lemma total_order_unfold v w :
  total_order v w = then_with (rank v ?= rank w) (same_rank_order v w).
Proof. by destruct v, w. Qed.

Lemma entry_laws_at {V} (cmp : V -> V -> comparison) e :
  laws_at cmp e.2 -> laws_at (entry_cmp cmp) e.
Proof.
  intros H. apply then_with_laws_at; [apply (preimage_laws_at fst), lawful_at, _|].
  by apply (preimage_laws_at snd).
Qed.

Lemma numeric_payload v : rank v = 2 -> payload_laws rank same_rank_order v.
Proof. apply (payload_rank _ _ numeric_total_order). by intros [] []. Qed.

(** One variant: its payload comparison and its constructor. *)
Ltac variant c mk :=
  apply (payload_of rank same_rank_order c mk);
  [try (apply lawful_at; first [apply _ | apply lex_lawful, _]) | done | by intros ? []; eauto].

Lemma total_order_laws v : laws_at total_order v.
Proof.
  induction v as [v Hv|l IH|l IH] using value_ind';
    apply (ranked_laws_at rank same_rank_order _ _ total_order_unfold).
  - destruct v; try done; try by apply numeric_payload.
    + split_and!; [done|by intros []|by intros [] []].
    + variant bool_cmp Bool.
    + variant Z.compare DateTime.
    + variant bytes_cmp Str.
    + variant bytes_cmp Bytes.
    + variant (lex_compare Z.compare) I64Array.
    + variant total_cmp_f64_slices F64Array.
    + variant total_cmp_f32_slices F32Array.
    + variant (lex_compare bytes_cmp) StringArray.
  - variant (lex_compare total_order) Array. by apply lex_laws_at.
  - variant (lex_compare (entry_cmp total_order)) Object.
    apply lex_laws_at. eapply Forall_impl; [done|]. intros e. apply entry_laws_at.
Qed.


(** ** Equality *)

Lemma slices_equal_spec {A} (eq : A -> A -> bool) l r :
  Forall (fun x => forall y, eq x y = true <-> x = y) l ->
  (slices_equal eq l r = true <-> l = r).
Proof.
  intros H; revert r; induction H as [|x l Hx _ IH]; intros [|y r]; simpl; try done.
  rewrite andb_true_iff, Hx, IH. split; [intros [-> ->]; done | by intros [= -> ->]].
Qed.

Lemma slices_Zeqb l r : slices_equal Z.eqb l r = true <-> l = r.
Proof. apply slices_equal_spec, Forall_forall. intros; apply Z.eqb_eq. Qed.

Lemma bytes_eqb_eq l r : bytes_eqb l r = true <-> l = r.
Proof. apply slices_Zeqb. Qed.

Lemma slices_bytes_eqb l r : slices_equal bytes_eqb l r = true <-> l = r.
Proof. apply slices_equal_spec, Forall_forall. intros; apply bytes_eqb_eq. Qed.

Lemma bytes_eqb_cmp l r : bytes_eqb l r = match bytes_cmp l r with Eq => true | _ => false end.
Proof.
  destruct (bytes_cmp l r) eqn:E.
  - by apply bytes_eqb_eq, cmp_eq.
  - apply not_true_is_false. intros ->%bytes_eqb_eq. by rewrite cmp_refl in E.
  - apply not_true_is_false. intros ->%bytes_eqb_eq. by rewrite cmp_refl in E.
Qed.

(** ** Well-formed values: floats and integers in their widths, text UTF-8 *)

Definition scalar_ok (v : PropertyValue) : Prop :=
  match v with
  | I64 z | DateTime z => in_i 64 z
  | F64 bits | F32 bits => in_u 64 bits
  | Str s => str_ok s
  | _ => True
  end.

(** The numeric source a property value is to value-semantics. *)
Definition as_source (v : PropertyValue) : option Canonical.Source :=
  match v with
  | I64 z => Some (Canonical.I64 z)
  | F64 bits | F32 bits => Some (Canonical.F64 bits)
  | _ => None
  end.

Lemma from_property_ok v n :
  scalar_ok v -> from_property v = Some n -> Canonical.number_ok n.
Proof.
  intros Hv Hn.
  assert (exists s, Canonical.source_ok s /\ Canonical.canonical s = Some n) as (s & Hs & E).
  { destruct v as [| |z| |z|z| | | | | | | |]; try done;
      [exists (Canonical.I64 z) | exists (Canonical.F64 z)..]; done. }
  pose proof (Canonical.canonical_spec s Hs) as H. rewrite E in H. apply H.
Qed.

Lemma canonical_eq_cmp a b l r :
  scalar_ok a -> scalar_ok b -> from_property a = Some l -> from_property b = Some r ->
  canonical_eq (Some l) (Some r) = match Canonical.cmp l r with Eq => true | _ => false end.
Proof.
  intros Ha Hb El Er.
  assert (Canonical.number_ok l) as Ol by eauto using from_property_ok.
  assert (Canonical.number_ok r) as Or by eauto using from_property_ok.
  simpl. rewrite Canonical.cmp_denote by done.
  destruct (Canonical.exact_cmp _ _) eqn:E.
  - apply bool_decide_eq_true. apply Canonical.denote_inj; try done. by apply Canonical.exact_cmp_eq.
  - apply bool_decide_eq_false. intros ->. by rewrite (cmp_refl (cmp := Canonical.exact_cmp)) in E.
  - apply bool_decide_eq_false. intros ->. by rewrite (cmp_refl (cmp := Canonical.exact_cmp)) in E.
Qed.

Lemma is_eq_iff c : match c with Eq => true | _ => false end = true <-> c = Eq.
Proof. by destruct c. Qed.

Lemma numeric_agrees a b o :
  rank a = 2 -> rank b = 2 -> scalar_ok a -> scalar_ok b -> compare a b = Some o ->
  same_rank_order a b = o /\ (eq_value a b = true <-> o = Eq).
Proof.
  intros Ra Rb Ha Hb H.
  assert (compare a b = match from_property a, from_property b with
    | Some l, Some r => Some (Canonical.cmp l r) | _, _ => None end) as E1
    by (destruct a; try discriminate Ra; destruct b; try discriminate Rb; reflexivity).
  assert (eq_value a b = canonical_eq (from_property a) (from_property b)) as E2
    by (destruct a; try discriminate Ra; destruct b; try discriminate Rb; reflexivity).
  assert (same_rank_order a b = numeric_total_order a b) as E3
    by (destruct a; try discriminate Ra; destruct b; try discriminate Rb; reflexivity).
  rewrite E1 in H. rewrite E2, E3. unfold numeric_total_order.
  destruct (from_property a) as [l|] eqn:El; [|done].
  destruct (from_property b) as [r|] eqn:Er; [|done].
  injection H as <-. split; [done|].
  rewrite (canonical_eq_cmp a b) by done. apply is_eq_iff.
Qed.

(** ** Properties *)

(** [total_order], which ORDER BY and DISTINCT sort by, is a total
    preorder on every pair of stored values, nested arrays and objects
    included: reflexive, antisymmetric up to reversal, and transitive through
    ties. *)
Theorem total_order_lawful : LawfulCompare total_order.
Proof.
  split.
  - intros v. apply total_order_laws.
  - intros v w. apply (total_order_laws v).
  - intros x y z o. apply (total_order_laws x).
Qed.

(** On every pair the predicate comparison is defined for, [ORDER BY]
    sorts by that comparison and [eq_value] holds exactly when it is [Equal]:
    filters, equality and ordering cannot disagree about two values. *)
Theorem compare_agrees (a b : PropertyValue) (o : comparison) :
  scalar_ok a -> scalar_ok b -> compare a b = Some o ->
  total_order a b = o /\ (eq_value a b = true <-> o = Eq).
Proof.
  intros Ha Hb H. rewrite total_order_unfold.
  destruct (decide (rank a = 2 /\ rank b = 2)) as [[Ra Rb]|Hne].
  - rewrite Ra, Rb. cbn [Z.compare Pos.compare Pos.compare_cont then_with].
    by apply numeric_agrees.
  - destruct a, b; try discriminate H; try (by destruct Hne); injection H as <-;
      (split; [done|]); cbn [eq_value]; rewrite ?bytes_eqb_cmp, ?Z.eqb_compare;
      apply is_eq_iff.
Qed.

(** Representation identity is exact: two stored values are reported as
    the same persisted representation precisely when they are the same value
    bit for bit, at every nesting depth. *)
Theorem same_v1_representation_exact (a b : PropertyValue) :
  same_v1_representation a b = true <-> a = b.
Proof.
  revert b. induction a as [v Hv|l IH|l IH] using value_ind'; intros b.
  - destruct v, b; simpl; try done;
      rewrite ?eqb_true_iff, ?Z.eqb_eq, ?bytes_eqb_eq, ?slices_Zeqb, ?slices_bytes_eqb;
      (split; [by intros -> | congruence]).
  - destruct b; simpl; try done. rewrite slices_equal_spec by done.
    split; [by intros -> | congruence].
  - destruct b; simpl; try done. rewrite slices_equal_spec.
    { split; [by intros -> | congruence]. }
    eapply Forall_impl; [done|]. intros [k x] Hx [k' y]. simpl in *.
    rewrite andb_true_iff, bytes_eqb_eq, Hx. split; [intros [-> ->]; done | by intros [= -> ->]].
Qed.

Example compare_agrees_witness :
  total_order (I64 3) (F64 0x400C000000000000) = Lt /\
  (eq_value (I64 3) (F64 0x400C000000000000) = true <-> Lt = Eq).
Proof.
  apply compare_agrees; [vm_compute; intuition congruence ..| vm_compute; reflexivity].
Defined.

End Property.
