(* ===== verification/RangeValue.v ===== *)
(** Order-preserving range-index values:
    crates/db/src/encoding/v2/values/property/range_index_value.rs and the
    index direction of crates/db/src/encoding/v2/keys/indexes/range/node.rs.

    [project_range_value] writes a property value as the bytes a secondary
    range index stores; [try_from_encoded] validates bytes read back. The
    contract is that the bytes sort as [PropertyValue::total_order] does, in
    both directions, with the entity-ID suffix breaking ties. *)
From S2P Require Import Prelude Bytes ValueSemantics Property.

Open Scope Z_scope.

Module RangeValue.
Import Property.

Inductive RangeIndexDirection := Asc | Desc.

#[global] Instance RangeIndexDirection_eq_dec : EqDecision RangeIndexDirection.
Proof. solve_decision. Defined.

Definition MAX_RANGE_ENCODED_LEN : Z := 1024 * 1024 - 32.
Definition NUMERIC_DOMAIN : Z := 0x01.
Definition DATETIME_DOMAIN : Z := 0x02.
Definition STRING_DOMAIN : Z := 0x03.
Definition NEGATIVE_INFINITY_CLASS : Z := 0x01.
Definition NEGATIVE_FINITE_CLASS : Z := 0x02.
Definition ZERO_CLASS : Z := 0x03.
Definition POSITIVE_FINITE_CLASS : Z := 0x04.
Definition POSITIVE_INFINITY_CLASS : Z := 0x05.
Definition EXPONENT_BIAS : Z := Z.shiftl 1 15.
Definition MIN_FINITE_FLOOR_LOG2 : Z := -1074.
Definition MAX_FINITE_FLOOR_LOG2 : Z := 1023.
Definition STRING_ESCAPE : Z := 0xFF.
Definition STRING_TERMINATOR : Z := 0x00.

Record CanonicalRangeValue := {
  direction : RangeIndexDirection;
  encoded : bytes;
}.

Inductive RangeValueProjection :=
| Indexed (v : CanonicalRangeValue)
| Unsupported (ty : string)
| NaN
| Oversized (encoded_len maximum : Z).

Definition biased_exponent (exponent : Z) : Z := exponent + EXPONENT_BIAS.

(** [put_ordered_number]. *)
Definition put_ordered_number (number : Canonical.CanonicalNumber) : bytes :=
  match number with
  | Canonical.NegativeInfinity => [NEGATIVE_INFINITY_CLASS]
  | Canonical.NegativeFinite f =>
      NEGATIVE_FINITE_CLASS ::
      to_be 2 (unot 16 (biased_exponent (Canonical.floor_log2 f))) ++
      to_be 8 (unot 64 (Canonical.normalized_significand f))
  | Canonical.Zero => [ZERO_CLASS]
  | Canonical.PositiveFinite f =>
      POSITIVE_FINITE_CLASS ::
      to_be 2 (biased_exponent (Canonical.floor_log2 f)) ++
      to_be 8 (Canonical.normalized_significand f)
  | Canonical.PositiveInfinity => [POSITIVE_INFINITY_CLASS]
  end.

(** The escape loop of the string arm, with its terminator. *)
Fixpoint put_escaped (s : bytes) : bytes :=
  match s with
  | [] => [STRING_TERMINATOR; STRING_TERMINATOR]
  | byte :: s =>
      if byte =? STRING_TERMINATOR then STRING_TERMINATOR :: STRING_ESCAPE :: put_escaped s
      else byte :: put_escaped s
  end.

(** [project_range_value] up to the size check: the ascending bytes, or the
    projection that ends it early. *)
Definition encode_ascending (value : PropertyValue) : RangeValueProjection + bytes :=
  match value with
  | I64 _ | F64 _ | F32 _ =>
      match from_property value with
      | None => inl NaN
      | Some number => inr (NUMERIC_DOMAIN :: put_ordered_number number)
      end
  | DateTime value =>
      inr (DATETIME_DOMAIN :: to_be 8 (Z.lxor (wrap 64 value) (Z.shiftl 1 63)))
  | Str value => inr (STRING_DOMAIN :: put_escaped value)
  | Null => inl (Unsupported "Null")
  | Bool _ => inl (Unsupported "Bool")
  | Property.Bytes _ => inl (Unsupported "Bytes")
  | I64Array _ => inl (Unsupported "I64Array")
  | F64Array _ => inl (Unsupported "F64Array")
  | F32Array _ => inl (Unsupported "F32Array")
  | StringArray _ => inl (Unsupported "StringArray")
  | Array _ => inl (Unsupported "Array")
  | Object _ => inl (Unsupported "Object")
  end.

Definition project_range_value (value : PropertyValue) (direction : RangeIndexDirection)
  : RangeValueProjection :=
  match encode_ascending value with
  | inl early => early
  | inr encoded =>
      if MAX_RANGE_ENCODED_LEN <? blen encoded then
        Oversized (blen encoded) MAX_RANGE_ENCODED_LEN
      else
        Indexed {|
          direction := direction;
          encoded := match direction with
            | Asc => encoded
            | Desc => complement encoded
            end;
        |}
  end.

(** [decode_byte]. *)
Definition decode_byte (direction : RangeIndexDirection) (byte : Z) : Z :=
  match direction with
  | Asc => byte
  | Desc => unot 8 byte
  end.

Definition require_len (encoded : bytes) (expected : Z) : result EncodingError unit :=
  if blen encoded =? expected then Ok tt
  else Err (InvalidKey ("canonical range value has length " +:+ fmt_dec (blen encoded)
            +:+ ", expected " +:+ fmt_dec expected)).

(** The loop of [validate_string]: [rest] are the bytes from [offset] on and
    [decoded] the bytes pushed so far, last first. *)
Fixpoint validate_string_loop (direction : RangeIndexDirection) (rest decoded : bytes)
  : result EncodingError bytes :=
  match rest with
  | [] => Err (InvalidKey "canonical range string has no terminator")
  | byte :: rest =>
      let byte := decode_byte direction byte in
      if negb (byte =? STRING_TERMINATOR) then
        validate_string_loop direction rest (byte :: decoded)
      else
        match rest with
        | [] => Err (InvalidKey "canonical range string has a truncated escape")
        | escaped :: rest =>
            let escaped := decode_byte direction escaped in
            if (escaped =? STRING_TERMINATOR) && (blen rest =? 0) then Ok (rev decoded)
            else if escaped =? STRING_ESCAPE then
              validate_string_loop direction rest (STRING_TERMINATOR :: decoded)
            else if escaped =? STRING_TERMINATOR then
              Err (InvalidKey "canonical range string terminator has trailing bytes")
            else
              Err (InvalidKey ("invalid canonical range string escape " +:+ fmt_hex escaped))
        end
  end.

Definition validate_string (direction : RangeIndexDirection) (encoded : bytes)
  : result EncodingError unit :=
  let? decoded := validate_string_loop direction (tail encoded) [] in
  let? _ := from_utf8 decoded in
  Ok tt.

(** The finite-number arm of [validate_encoded]. *)
Definition validate_finite (direction : RangeIndexDirection) (encoded : bytes) (class : Z)
  : result EncodingError unit :=
  let? _ := require_len encoded 12 in
  let biased := of_be (map (decode_byte direction) (take 2 (drop 2 encoded))) in
  let biased := if class =? NEGATIVE_FINITE_CLASS then unot 16 biased else biased in
  let exponent := biased - EXPONENT_BIAS in
  check? (MIN_FINITE_FLOOR_LOG2 <=? exponent) && (exponent <=? MAX_FINITE_FLOOR_LOG2)
    else InvalidKey "canonical range exponent is outside supported numeric values" in
  let normalized := of_be (map (decode_byte direction) (take 8 (drop 4 encoded))) in
  let normalized := if class =? NEGATIVE_FINITE_CLASS then unot 64 normalized else normalized in
  check? Canonical.leading_zeros 64 normalized =? 0
    else InvalidKey "canonical range significand is not normalized" in
  Ok tt.

Definition validate_encoded (direction : RangeIndexDirection) (encoded : bytes)
  : result EncodingError unit :=
  match encoded with
  | [] => Err (InvalidKey "canonical range value is empty")
  | first :: rest =>
      if MAX_RANGE_ENCODED_LEN <? blen encoded then
        Err (InvalidKey ("canonical range value exceeds " +:+ fmt_dec MAX_RANGE_ENCODED_LEN
             +:+ " bytes"))
      else
        let domain := decode_byte direction first in
        if domain =? NUMERIC_DOMAIN then
          match rest with
          | [] => Err (BufferTooShort 2 (blen encoded))
          | second :: _ =>
              let class := decode_byte direction second in
              if (class =? NEGATIVE_INFINITY_CLASS) || (class =? ZERO_CLASS)
                 || (class =? POSITIVE_INFINITY_CLASS) then require_len encoded 2
              else if (class =? NEGATIVE_FINITE_CLASS) || (class =? POSITIVE_FINITE_CLASS) then
                validate_finite direction encoded class
              else Err (InvalidKey ("unknown canonical numeric class " +:+ fmt_hex class))
          end
        else if domain =? DATETIME_DOMAIN then require_len encoded (1 + 8)
        else if domain =? STRING_DOMAIN then validate_string direction encoded
        else Err (InvalidKey ("unknown canonical range domain " +:+ fmt_hex domain))
  end.

(** [CanonicalRangeValue::try_from_encoded]. *)
Definition try_from_encoded (direction : RangeIndexDirection) (encoded : bytes)
  : result EncodingError CanonicalRangeValue :=
  let? _ := validate_encoded direction encoded in
  Ok {| direction := direction; encoded := encoded |}.

(** [entity_key_suffix]. *)
Definition entity_key_suffix (self : CanonicalRangeValue) (entity_id : Z) : bytes :=
  encoded self ++ to_be 8 entity_id.

(** [std::ops::Bound]. *)
Inductive Bound := Included (b : bytes) | Excluded (b : bytes).

(** [domain_key_bounds]; [None] stands for the panic of [expect], and of
    indexing an empty payload. *)
Definition domain_key_bounds (self : CanonicalRangeValue) : option (Bound * Bound) :=
  match encoded self with
  | [] => None
  | domain :: _ =>
      match checked_add 8 domain 1 with
      | None => None
      | Some next => Some (Included [domain], Excluded [next])
      end
  end.

(** Membership of a key in a pair of bounds, as a storage range scan reads
    them. *)
Definition in_bounds (bounds : Bound * Bound) (key : bytes) : bool :=
  match bounds.1 with
  | Included lo => match bytes_cmp lo key with Gt => false | _ => true end
  | Excluded lo => match bytes_cmp lo key with Lt => true | _ => false end
  end &&
  match bounds.2 with
  | Included hi => match bytes_cmp key hi with Gt => false | _ => true end
  | Excluded hi => match bytes_cmp key hi with Lt => true | _ => false end
  end.

(** ** Order of the ascending payloads

    Every lemma carries arbitrary suffixes, so that the payloads' prefix
    freedom and the entity-ID tie-breaker are instances of it. *)

Lemma cmp_cons a b l1 l2 :
  bytes_cmp (a :: l1) (b :: l2) = then_with (a ?= b) (bytes_cmp l1 l2).
Proof. done. Qed.

Lemma cmp_fixed n a b s1 s2 :
  0 <= a < 256 ^ Z.of_nat n -> 0 <= b < 256 ^ Z.of_nat n ->
  bytes_cmp (to_be n a ++ s1) (to_be n b ++ s2) = then_with (a ?= b) (bytes_cmp s1 s2).
Proof.
  intros Ha Hb. unfold bytes_cmp. rewrite lex_app_length by (by rewrite !length_to_be).
  f_equal. by apply to_be_cmp.
Qed.

Lemma put_escaped_order s t u v :
  bytes_ok s -> bytes_ok t ->
  bytes_cmp (put_escaped s ++ u) (put_escaped t ++ v) = then_with (bytes_cmp s t) (bytes_cmp u v).
Proof.
  intros Hs; revert t; induction Hs as [|a s Ha _ IH]; intros t Ht; destruct Ht as [|b t Hb Ht];
    cbn [put_escaped]; unfold byte_ok, STRING_TERMINATOR, STRING_ESCAPE in *.
  - done.
  - destruct (Z.eqb_spec b 0) as [->|]; simpl app; rewrite !cmp_cons; [done|].
    destruct b; try lia; done.
  - destruct (Z.eqb_spec a 0) as [->|]; simpl app; rewrite !cmp_cons; [done|].
    destruct a; try lia; done.
  - destruct (Z.eqb_spec a 0) as [->|], (Z.eqb_spec b 0) as [->|]; simpl app; rewrite !cmp_cons.
    + rewrite IH by done. done.
    + destruct b; try lia; done.
    + destruct a; try lia; done.
    + rewrite IH by done. by rewrite then_with_assoc.
Qed.

Definition finite_bounds (f : Canonical.CanonicalFinite) : Prop :=
  -1074 <= Canonical.floor_log2 f <= 1023 /\
  2 ^ 63 <= Canonical.normalized_significand f < 2 ^ 64.

Lemma unot_bound w z : 0 <= z < 2 ^ w -> 0 <= unot w z < 2 ^ w.
Proof. unfold unot, umax. lia. Qed.

Lemma put_ordered_number_order m n u v :
  Canonical.number_ok m -> Canonical.number_ok n ->
  bytes_cmp (put_ordered_number m ++ u) (put_ordered_number n ++ v) =
  then_with (Canonical.cmp m n) (bytes_cmp u v).
Proof.
  intros Hm Hn.
  assert (forall f g, finite_bounds f -> finite_bounds g -> forall u v,
    bytes_cmp (to_be 2 (biased_exponent (Canonical.floor_log2 f)) ++
               to_be 8 (Canonical.normalized_significand f) ++ u)
              (to_be 2 (biased_exponent (Canonical.floor_log2 g)) ++
               to_be 8 (Canonical.normalized_significand g) ++ v) =
    then_with (Canonical.magnitude_cmp f g) (bytes_cmp u v)) as Hpos.
  { intros f g [Bf Sf] [Bg Sg] u' v'. unfold biased_exponent, EXPONENT_BIAS.
    change (Z.shiftl 1 15) with 32768.
    rewrite cmp_fixed by lia. rewrite cmp_fixed by lia.
    unfold Canonical.magnitude_cmp. rewrite then_with_assoc. do 2 f_equal.
    destruct (Z.compare_spec (Canonical.floor_log2 f) (Canonical.floor_log2 g));
      rewrite ?Z.compare_eq_iff, ?Z.compare_lt_iff, ?Z.compare_gt_iff; lia. }
  assert (forall f g, finite_bounds f -> finite_bounds g -> forall u v,
    bytes_cmp (to_be 2 (unot 16 (biased_exponent (Canonical.floor_log2 f))) ++
               to_be 8 (unot 64 (Canonical.normalized_significand f)) ++ u)
              (to_be 2 (unot 16 (biased_exponent (Canonical.floor_log2 g))) ++
               to_be 8 (unot 64 (Canonical.normalized_significand g)) ++ v) =
    then_with (Canonical.magnitude_cmp g f) (bytes_cmp u v)) as Hneg.
  { intros f g [Bf Sf] [Bg Sg] u' v'. unfold biased_exponent, EXPONENT_BIAS.
    change (Z.shiftl 1 15) with 32768.
    rewrite cmp_fixed by (apply unot_bound; lia). rewrite cmp_fixed by (apply unot_bound; lia).
    rewrite !unot_cmp. unfold Canonical.magnitude_cmp. rewrite then_with_assoc. do 2 f_equal.
    destruct (Z.compare_spec (Canonical.floor_log2 g) (Canonical.floor_log2 f));
      rewrite ?Z.compare_eq_iff, ?Z.compare_lt_iff, ?Z.compare_gt_iff; lia. }
  assert (forall k f, Canonical.number_ok k -> Canonical.finite_of k = Some f -> finite_bounds f)
    as Hb by (intros; by eapply Canonical.number_ok_floor).
  destruct m as [|f| |f|], n as [|g| |g|]; try done;
    cbn [put_ordered_number]; cbn [app]; rewrite <- ?app_assoc, cmp_cons;
    cbn [Z.compare]; simpl then_with.
  - apply Hneg; [apply (Hb _ f Hm) | apply (Hb _ g Hn)]; done.
  - apply Hpos; [apply (Hb _ f Hm) | apply (Hb _ g Hn)]; done.
Qed.

(** Adding 2^63 by flipping the sign bit keeps the signed order. *)
Lemma flip_sign z : in_i 64 z -> Z.lxor (wrap 64 z) (Z.shiftl 1 63) = z + 2 ^ 63.
Proof.
  unfold in_i, wrap. intros Hz.
  assert (forall y, 0 <= y < 2 ^ 63 -> Z.lxor (Z.shiftl 1 63) y = 2 ^ 63 + y) as Hadd.
  { intros y Hy. rewrite <- Z.add_nocarry_lxor by (apply land_disjoint; lia). done. }
  destruct (Z.lt_ge_cases z 0).
  - replace (z mod 2 ^ 64) with (2 ^ 63 + (z + 2 ^ 63)) by (apply Z.mod_unique with (-1); lia).
    rewrite <- Hadd, Z.lxor_comm, <- Z.lxor_assoc, Z.lxor_nilpotent, Z.lxor_0_l by lia. done.
  - rewrite Z.mod_small, Z.lxor_comm, Hadd by lia. lia.
Qed.

Lemma encode_ascending_order v w ev ew s1 s2 :
  scalar_ok v -> scalar_ok w ->
  encode_ascending v = inr ev -> encode_ascending w = inr ew ->
  bytes_cmp (ev ++ s1) (ew ++ s2) = then_with (total_order v w) (bytes_cmp s1 s2).
Proof.
  intros Hv Hw Ev Ew.
  assert (forall a e, scalar_ok a -> encode_ascending a = inr e ->
    (rank a = 2 /\ exists n, from_property a = Some n /\ Canonical.number_ok n /\
                   e = NUMERIC_DOMAIN :: put_ordered_number n) \/
    (exists z, a = DateTime z /\ in_i 64 z /\ e = DATETIME_DOMAIN :: to_be 8 (z + 2 ^ 63)) \/
    (exists s, a = Str s /\ bytes_ok s /\ e = STRING_DOMAIN :: put_escaped s)) as Hcases.
  { intros a e Ha He. destruct a; try discriminate He; cbn [encode_ascending] in He.
    - left. split; [done|]. destruct (from_property (I64 z)) eqn:E; [|done].
      injection He as <-. eauto using from_property_ok.
    - right; left. exists millis. injection He as <-. by rewrite flip_sign.
    - left. split; [done|]. destruct (from_property (F64 bits)) eqn:E; [|done].
      injection He as <-. eauto using from_property_ok.
    - left. split; [done|]. destruct (from_property (F32 bits)) eqn:E; [|done].
      injection He as <-. eauto using from_property_ok.
    - right; right. exists s. injection He as <-. destruct Ha. done. }
  rewrite total_order_unfold.
  destruct (Hcases v ev Hv Ev) as [(Rv & m & Em & Om & ->)|[(a & -> & Ba & ->)|(s & -> & Bs & ->)]];
  destruct (Hcases w ew Hw Ew) as [(Rw & n & En & On & ->)|[(b & -> & Bb & ->)|(t & -> & Bt & ->)]];
    rewrite ?Rv, ?Rw; cbn [rank app]; rewrite cmp_cons;
    unfold NUMERIC_DOMAIN, DATETIME_DOMAIN, STRING_DOMAIN;
    cbn [Z.compare Pos.compare Pos.compare_cont then_with]; try done.
  - rewrite put_ordered_number_order by done. f_equal.
    assert (same_rank_order v w = numeric_total_order v w) as ->
      by (destruct v; try discriminate Rv; destruct w; try discriminate Rw; reflexivity).
    unfold numeric_total_order. by rewrite Em, En.
  - unfold in_i in *. rewrite cmp_fixed by lia. f_equal. simpl.
    destruct (Z.compare_spec a b);
      rewrite ?Z.compare_eq_iff, ?Z.compare_lt_iff, ?Z.compare_gt_iff; lia.
  - by rewrite put_escaped_order.
Qed.

Lemma encode_prefix_free v w ev ew r :
  scalar_ok v -> scalar_ok w ->
  encode_ascending v = inr ev -> encode_ascending w = inr ew -> ew = ev ++ r -> r = [].
Proof.
  intros Hv Hw Ev Ew ->.
  pose proof (encode_ascending_order v w ev (ev ++ r) r [] Hv Hw Ev Ew) as H.
  rewrite app_nil_r, cmp_refl in H. symmetry in H. apply then_with_eq in H as [_ H].
  by apply cmp_eq in H.
Qed.

Lemma encode_ascending_early v e : encode_ascending v <> inl (Indexed e).
Proof. destruct v; cbn [encode_ascending]; try destruct (from_property _); discriminate. Qed.

Lemma project_inv v dir e :
  project_range_value v dir = Indexed e ->
  exists ev, encode_ascending v = inr ev /\ blen ev <= MAX_RANGE_ENCODED_LEN /\
    direction e = dir /\
    encoded e = match dir with Asc => ev | Desc => complement ev end.
Proof.
  unfold project_range_value. destruct (encode_ascending v) as [early|ev] eqn:E.
  { intros ->. by apply encode_ascending_early in E. }
  destruct (Z.ltb_spec MAX_RANGE_ENCODED_LEN (blen ev)); [done|].
  intros [= <-]. simpl. eauto.
Qed.

(** The order a range index of a direction scans in. *)
Definition scan_order (dir : RangeIndexDirection) (v w : PropertyValue) : comparison :=
  match dir with
  | Asc => total_order v w
  | Desc => total_order w v
  end.

Lemma encoded_order v w dir ev ew s1 s2 :
  scalar_ok v -> scalar_ok w ->
  project_range_value v dir = Indexed ev -> project_range_value w dir = Indexed ew ->
  bytes_cmp (encoded ev ++ s1) (encoded ew ++ s2) =
  then_with (scan_order dir v w) (bytes_cmp s1 s2).
Proof.
  intros Hv Hw (bv & Ev & _ & _ & ->)%project_inv (bw & Ew & _ & _ & ->)%project_inv.
  destruct dir; simpl.
  - by apply encode_ascending_order.
  - rewrite complement_cmp.
    + f_equal. pose proof (encode_ascending_order w v bw bv [] [] Hw Hv Ew Ev) as H.
      rewrite !app_nil_r in H. rewrite H. by destruct (total_order w v).
    + intros r. by apply (encode_prefix_free v w).
    + intros r. by apply (encode_prefix_free w v).
Qed.


(** ** Validation of stored payloads *)

Definition stored (dir : RangeIndexDirection) (l : bytes) : bytes :=
  match dir with
  | Asc => l
  | Desc => complement l
  end.
Definition stored_byte (dir : RangeIndexDirection) (b : Z) : Z := decode_byte dir b.

Lemma stored_nil dir : stored dir [] = [].
Proof. by destruct dir. Qed.
Lemma stored_cons dir b l : stored dir (b :: l) = stored_byte dir b :: stored dir l.
Proof. by destruct dir. Qed.
Lemma stored_app dir l1 l2 : stored dir (l1 ++ l2) = stored dir l1 ++ stored dir l2.
Proof. destruct dir; [done|apply complement_app]. Qed.
Lemma blen_stored dir l : blen (stored dir l) = blen l.
Proof. destruct dir; [done|]. unfold blen. simpl. by rewrite length_complement. Qed.
Lemma decode_stored_byte dir b : decode_byte dir (stored_byte dir b) = b.
Proof. destruct dir; simpl; unfold unot; lia. Qed.
Lemma decode_stored dir l : map (decode_byte dir) (stored dir l) = l.
Proof.
  induction l as [|b l IH]; [by destruct dir|].
  by rewrite stored_cons, map_cons, IH, decode_stored_byte.
Qed.
Lemma length_stored dir l : length (stored dir l) = length l.
Proof. destruct dir; [done|apply length_complement]. Qed.

Lemma validate_string_escaped dir s acc :
  validate_string_loop dir (stored dir (put_escaped s)) acc = Ok (rev acc ++ s).
Proof.
  revert acc; induction s as [|b s IH]; intros acc; cbn [put_escaped].
  - rewrite !stored_cons, stored_nil. cbn [validate_string_loop].
    by rewrite !decode_stored_byte, app_nil_r.
  - destruct (Z.eqb_spec b STRING_TERMINATOR) as [->|Hb].
    + rewrite !stored_cons. cbn [validate_string_loop]. rewrite !decode_stored_byte.
      simpl. rewrite IH. cbn [rev]. by rewrite <- app_assoc.
    + rewrite stored_cons. cbn [validate_string_loop]. rewrite decode_stored_byte.
      destruct (Z.eqb_spec b STRING_TERMINATOR); [done|]. simpl negb. cbn iota.
      rewrite IH. cbn [rev]. by rewrite <- app_assoc.
Qed.

Lemma leading_zeros_normalized z : 2 ^ 63 <= z < 2 ^ 64 -> Canonical.leading_zeros 64 z = 0.
Proof.
  intros H. unfold Canonical.leading_zeros. destruct (Z.eqb_spec z 0); [lia|].
  assert (Z.log2 z = 63); [|lia]. apply Z.log2_unique; lia.
Qed.

(** The fixed-width fields of a stored finite number read back. *)
Lemma validate_finite_ok dir d c b n :
  0 <= b < 2 ^ 16 -> 0 <= n < 2 ^ 64 -> (c = NEGATIVE_FINITE_CLASS \/ c = POSITIVE_FINITE_CLASS) ->
  let b' := if c =? NEGATIVE_FINITE_CLASS then unot 16 b else b in
  let n' := if c =? NEGATIVE_FINITE_CLASS then unot 64 n else n in
  -1074 <= b' - EXPONENT_BIAS <= 1023 -> 2 ^ 63 <= n' < 2 ^ 64 ->
  validate_finite dir (stored dir (d :: c :: to_be 2 b ++ to_be 8 n)) c = Ok tt.
Proof.
  intros Hb Hn Hc b' n' Hb' Hn'. unfold validate_finite, require_len.
  rewrite blen_stored. autorewrite with bytes_len.
  replace (1 + (1 + (Z.of_nat 2 + Z.of_nat 8)) =? 12) with true by done. bind_simpl.
  rewrite !stored_cons, stored_app. cbn [drop]. rewrite !drop_0.
  rewrite (take_app_length' _ _ 2) by (by rewrite length_stored, length_to_be).
  rewrite (drop_app_length' _ _ 2) by (by rewrite length_stored, length_to_be).
  rewrite take_ge by (by rewrite length_stored, length_to_be).
  rewrite !decode_stored, !of_to_be by done. fold b'. fold n'.
  rewrite (proj2 (Z.leb_le _ _)) by (unfold MIN_FINITE_FLOOR_LOG2; lia).
  rewrite (proj2 (Z.leb_le _ _)) by (unfold MAX_FINITE_FLOOR_LOG2; lia). simpl andb. cbn iota.
  by rewrite leading_zeros_normalized.
Qed.

Lemma validate_number dir n :
  Canonical.number_ok n ->
  validate_encoded dir (stored dir (NUMERIC_DOMAIN :: put_ordered_number n)) = Ok tt.
Proof.
  intros Hn.
  assert (forall f, Canonical.finite_of n = Some f -> finite_bounds f) as Hb
    by (intros; by eapply Canonical.number_ok_floor).
  assert (forall b l, blen l <= 10 -> forall r,
    validate_encoded dir (stored dir (NUMERIC_DOMAIN :: b :: l)) = r <->
    (if (b =? NEGATIVE_INFINITY_CLASS) || (b =? ZERO_CLASS) || (b =? POSITIVE_INFINITY_CLASS)
     then require_len (stored dir (NUMERIC_DOMAIN :: b :: l)) 2
     else if (b =? NEGATIVE_FINITE_CLASS) || (b =? POSITIVE_FINITE_CLASS) then
       validate_finite dir (stored dir (NUMERIC_DOMAIN :: b :: l)) b
     else Err (InvalidKey ("unknown canonical numeric class " +:+ fmt_hex b))) = r) as Hv.
  { intros b l Hl r. rewrite !stored_cons. unfold validate_encoded.
    autorewrite with bytes_len. rewrite blen_stored, !decode_stored_byte.
    destruct (Z.ltb_spec MAX_RANGE_ENCODED_LEN (1 + (1 + blen l)));
      [unfold MAX_RANGE_ENCODED_LEN in *; lia | done]. }
  destruct n as [|f| |f|]; cbn [put_ordered_number]; apply Hv; try done;
    autorewrite with bytes_len; try done; unfold require_len; rewrite ?blen_stored; try done;
    destruct (Hb f eq_refl) as [B1 B2]; unfold biased_exponent; simpl orb; cbn iota;
    apply validate_finite_ok; auto; try (apply unot_bound);
    unfold EXPONENT_BIAS in *; change (Z.shiftl 1 15) with 32768 in *;
    cbn [Z.eqb Pos.eqb NEGATIVE_FINITE_CLASS POSITIVE_FINITE_CLASS]; unfold unot, umax; lia.
Qed.

Lemma validate_ascending v dir ev :
  scalar_ok v -> encode_ascending v = inr ev -> blen ev <= MAX_RANGE_ENCODED_LEN ->
  validate_encoded dir (stored dir ev) = Ok tt.
Proof.
  intros Hv He Hlen.
  assert (forall n, from_property v = Some n ->
    ev = NUMERIC_DOMAIN :: put_ordered_number n -> validate_encoded dir (stored dir ev) = Ok tt)
    as Hnum by (intros n E ->; eapply validate_number, from_property_ok; eauto).
  destruct v; try discriminate He; cbn [encode_ascending] in He.
  - destruct (from_property (I64 z)) eqn:E; [|done]. injection He as <-. exact (Hnum _ eq_refl eq_refl).
  - injection He as <-. revert Hlen. generalize (Z.lxor (wrap 64 millis) (Z.shiftl 1 63)).
    intros z Hlen. rewrite stored_cons. unfold validate_encoded.
    rewrite decode_stored_byte. autorewrite with bytes_len in *. rewrite blen_stored, blen_to_be.
    rewrite (proj2 (Z.ltb_ge _ _)) by lia. change (DATETIME_DOMAIN =? NUMERIC_DOMAIN) with false. cbn iota.
    rewrite Z.eqb_refl.
    unfold require_len. autorewrite with bytes_len. by rewrite blen_stored, blen_to_be.
  - destruct (from_property (F64 bits)) eqn:E; [|done]. injection He as <-. exact (Hnum _ eq_refl eq_refl).
  - destruct (from_property (F32 bits)) eqn:E; [|done]. injection He as <-. exact (Hnum _ eq_refl eq_refl).
  - injection He as <-. rewrite stored_cons. unfold validate_encoded.
    rewrite decode_stored_byte. autorewrite with bytes_len in *. rewrite blen_stored.
    rewrite (proj2 (Z.ltb_ge _ _)) by lia.
    change (STRING_DOMAIN =? NUMERIC_DOMAIN) with false.
    change (STRING_DOMAIN =? DATETIME_DOMAIN) with false. rewrite Z.eqb_refl. cbn iota.
    unfold validate_string. cbn [tail]. rewrite validate_string_escaped. bind_simpl.
    unfold from_utf8. destruct Hv as [_ Hu]. simpl. by rewrite Hu.
Qed.


(** ** Domain bounds *)

Definition domain_of (r : Z) : Z := r - 1.

Lemma encode_ascending_head v ev :
  encode_ascending v = inr ev -> exists l, ev = domain_of (rank v) :: l /\ 2 <= rank v <= 4.
Proof.
  intros He. destruct v; try discriminate He; cbn [encode_ascending] in He;
    try destruct (from_property _); simplify_eq; eexists; (split; [reflexivity | simpl; lia]).
Qed.

Lemma in_domain_bounds d e l : in_bounds (Included [d], Excluded [d + 1]) (e :: l) = (d =? e).
Proof.
  unfold in_bounds; cbn [fst snd]. rewrite !cmp_cons.
  destruct (Z.compare_spec d e) as [->|H|H].
  - rewrite Z.eqb_refl. rewrite (proj2 (Z.compare_lt_iff e (e + 1))) by lia. simpl. by destruct l.
  - rewrite (proj2 (Z.eqb_neq _ _)) by lia. simpl.
    destruct (Z.compare_spec e (d + 1)); [| lia |]; simpl; [by destruct l | done].
  - rewrite (proj2 (Z.eqb_neq _ _)) by lia. done.
Qed.

(** ** Properties *)

(** [C8] Range-index keys sort exactly as [ORDER BY] does. For any two values a
    range index stores, in either direction, the physical key suffixes (payload
    then entity ID) compare as [total_order] of the values, reversed when the
    index is descending, with the entity ID breaking ties. *)
Theorem range_key_order (v w : PropertyValue) (dir : RangeIndexDirection)
    (ev ew : CanonicalRangeValue) (i j : Z) :
  scalar_ok v -> scalar_ok w -> in_u 64 i -> in_u 64 j ->
  project_range_value v dir = Indexed ev -> project_range_value w dir = Indexed ew ->
  bytes_cmp (entity_key_suffix ev i) (entity_key_suffix ew j) =
  then_with (scan_order dir v w) (i ?= j).
Proof.
  intros Hv Hw Hi Hj Ev Ew. unfold entity_key_suffix.
  rewrite (encoded_order v w dir) by done. f_equal. by apply to_be_cmp.
Qed.

(** Two values share one stored range payload exactly when [total_order]
    cannot tell them apart, so an equality probe on a range index finds the
    exact numeric matches across [i64], [f64] and [f32] and nothing else. *)
Theorem range_payload_equality (v w : PropertyValue) (dir : RangeIndexDirection)
    (ev ew : CanonicalRangeValue) :
  scalar_ok v -> scalar_ok w ->
  project_range_value v dir = Indexed ev -> project_range_value w dir = Indexed ew ->
  (ev = ew <-> total_order v w = Eq).
Proof.
  intros Hv Hw Ev Ew.
  pose proof (encoded_order v w dir ev ew [] [] Hv Hw Ev Ew) as H. rewrite !app_nil_r in H.
  assert (scan_order dir v w = Eq <-> total_order v w = Eq) as Hs.
  { destruct dir; [done|]. simpl. destruct (total_order_laws v) as (_ & -> & _).
    by destruct (total_order v w). }
  rewrite <- Hs. split.
  - intros ->. rewrite cmp_refl in H. symmetry in H. by apply then_with_eq in H as [? _].
  - intros E. rewrite E in H. apply cmp_eq in H.
    apply project_inv in Ev as (? & _ & _ & Dv & _). apply project_inv in Ew as (? & _ & _ & Dw & _).
    destruct ev, ew. simpl in *. congruence.
Qed.

(** Validation accepts every payload the projection writes and returns
    the value it was written from: range rows round-trip. *)
Theorem range_roundtrip (v : PropertyValue) (dir : RangeIndexDirection) (e : CanonicalRangeValue) :
  scalar_ok v -> project_range_value v dir = Indexed e ->
  try_from_encoded dir (encoded e) = Ok e.
Proof.
  intros Hv (ev & Ev & Hlen & Hd & He)%project_inv. unfold try_from_encoded.
  rewrite He. change (match dir with Asc => ev | Desc => complement ev end) with (stored dir ev).
  rewrite (validate_ascending v) by done. bind_simpl. f_equal.
  destruct e. simpl in *. by subst.
Qed.

(** The scan bounds of a value's typed domain never panic and select
    exactly the index rows whose value has the same domain (numeric, datetime
    or string), in both directions. *)
Theorem domain_bounds_exact (v w : PropertyValue) (dir : RangeIndexDirection)
    (ev ew : CanonicalRangeValue) (id : Z) :
  project_range_value v dir = Indexed ev -> project_range_value w dir = Indexed ew ->
  exists bounds, domain_key_bounds ev = Some bounds /\
    (in_bounds bounds (entity_key_suffix ew id) = true <-> rank v = rank w).
Proof.
  intros (bv & Ev & _ & _ & Hv)%project_inv (bw & Ew & _ & _ & Hw)%project_inv.
  apply encode_ascending_head in Ev as (lv & -> & Rv).
  apply encode_ascending_head in Ew as (lw & -> & Rw).
  change (encoded ev = stored dir (domain_of (rank v) :: lv)) in Hv.
  change (encoded ew = stored dir (domain_of (rank w) :: lw)) in Hw.
  unfold domain_key_bounds, entity_key_suffix. rewrite Hv, Hw, !stored_cons.
  unfold checked_add. rewrite (proj2 (Z.leb_le _ _)).
  2:{ destruct dir; simpl; unfold unot, umax, domain_of; lia. }
  eexists; split; [reflexivity|]. cbn [app]. rewrite in_domain_bounds, Z.eqb_eq.
  destruct dir; simpl; unfold unot, domain_of; lia.
Qed.

(** 1 (an [i64]) before the string "a" NUL, descending. *)
Definition sample_string : PropertyValue := Str [97; 0].
Definition sample_stored : CanonicalRangeValue :=
  {| direction := Desc; encoded := complement [0x03; 97; 0; 0xFF; 0; 0] |}.
Definition sample_number : CanonicalRangeValue :=
  {| direction := Desc;
     encoded := complement [0x01; 0x04; 0x80; 0x00; 0x80; 0; 0; 0; 0; 0; 0; 0] |}.

Lemma sample_ok : scalar_ok sample_string /\ scalar_ok (I64 1) /\
  project_range_value sample_string Desc = Indexed sample_stored /\
  project_range_value (I64 1) Desc = Indexed sample_number.
Proof.
  split; [split; [repeat constructor; vm_compute; congruence | vm_compute; reflexivity]|].
  split; [vm_compute; intuition congruence|]. split; vm_compute; reflexivity.
Qed.

Example range_key_order_witness :
  bytes_cmp (entity_key_suffix sample_stored 7) (entity_key_suffix sample_number 9) =
  then_with (scan_order Desc sample_string (I64 1)) (7 ?= 9).
Proof.
  destruct sample_ok as (H1 & H2 & H3 & H4).
  apply (range_key_order sample_string (I64 1)); try assumption; vm_compute; intuition congruence.
Defined.

Example range_payload_equality_witness :
  sample_stored = sample_number <-> total_order sample_string (I64 1) = Eq.
Proof.
  destruct sample_ok as (H1 & H2 & H3 & H4).
  apply (range_payload_equality sample_string (I64 1) Desc); assumption.
Defined.

Example range_roundtrip_witness :
  try_from_encoded Desc (encoded sample_stored) = Ok sample_stored.
Proof.
  destruct sample_ok as (H1 & _ & H3 & _).
  apply (range_roundtrip sample_string); assumption.
Defined.

Example domain_bounds_exact_witness :
  exists bounds, domain_key_bounds sample_stored = Some bounds /\
    (in_bounds bounds (entity_key_suffix sample_number 9) = true <->
     rank sample_string = rank (I64 1)).
Proof.
  destruct sample_ok as (_ & _ & H3 & H4).
  apply (domain_bounds_exact sample_string (I64 1) Desc); assumption.
Defined.

End RangeValue.
