(* ===== verification/Cursor.v ===== *)
(** Varints and the bounded forward reader of the operation queue:
    [varint_len], [put_varint] and [Cursor] of
    crates/db/src/encoding/v2/values/indexes/operation_queue/mod.rs, with the
    operation, entity and partition fields it reads.

    A [Cursor] is the bytes that remain; every [take_*] returns the value read
    and the cursor after it. [usize] is 64 bits wide, so [usize::try_from] of a
    [u64] never fails. *)
From S2P Require Import Prelude Bytes.

Open Scope Z_scope.

Module Cursor.

Definition MAX_VARINT_LEN : Z := 10.
Definition OPERATION_ID_LEN : Z := 16.
Definition OPERATION_TOKEN_BIT : Z := Z.shiftl 1 127.
Definition MAX_PARTITION_LEN : Z := 16 * 1024 * 1024.
Definition MAX_LENGTH_DELIMITED_FIELD : Z := 16 * 1024 * 1024.

(** [QueuedOperationId]: a [u128] with bit 127 clear. *)
Definition try_from_u128 (value : Z) : result EncodingError Z :=
  if negb (Z.land value OPERATION_TOKEN_BIT =? 0) then
    Err (Custom "queued operation ID uses the reserved entity-token bit")
  else Ok value.

(** [IndexElementKind] and [IndexEntity] (index_lifecycle/model.rs,
    encoding/v2/keys/lifecycle.rs). *)
Inductive IndexElementKind := Node | Edge.
Definition element_kind_u8 (k : IndexElementKind) : Z :=
  match k with
  | Node => 0x01
  | Edge => 0x02
  end.
Record IndexEntity := { kind : IndexElementKind; entity_id : Z }.

#[global] Instance IndexElementKind_eq_dec : EqDecision IndexElementKind.
Proof. solve_decision. Defined.
#[global] Instance IndexEntity_eq_dec : EqDecision IndexEntity.
Proof. solve_decision. Defined.
#[global] Instance IndexElementKind_countable : Countable IndexElementKind.
Proof.
  refine (inj_countable' (fun k => match k with Node => true | Edge => false end)
    (fun b : bool => if b then Node else Edge) _). by intros [].
Defined.
#[global] Instance IndexEntity_countable : Countable IndexEntity.
Proof.
  refine (inj_countable' (fun e => (kind e, entity_id e))
    (fun p => {| kind := p.1; entity_id := p.2 |}) _). by intros [].
Defined.

(** [TextPartition] (index_lifecycle/work.rs). *)
Inductive TextPartition :=
| Unpartitioned
| TenantValue (value : bytes).

Inductive IndexWorkModelError :=
| EmptyTenantPartition
| UnpartitionedVectorMapping
| OversizedField (field : string) (actual maximum : Z)
| OversizedCollection (field : string) (actual maximum : Z)
| InvalidSplitReference
| InvalidManifestRootCounts (page_count split_count : Z)
| EmptyManifestPage
| NonContiguousManifestPage (expected actual : Z)
| ManifestPageCountExhausted
| ManifestRevisionExhausted
| EmptyTextCorpusWithTokens
| ZeroTextDocumentFrequency
| InvalidTextStatisticsTerms.

(** [Display] of the error. *)
Definition work_error_to_string (e : IndexWorkModelError) : string :=
  match e with
  | EmptyTenantPartition => "tenant partition value must not be empty"
  | UnpartitionedVectorMapping => "a vector partition mapping requires a tenant-value partition"
  | OversizedField field actual maximum =>
      "field " +:+ field +:+ " is " +:+ fmt_dec actual +:+ " bytes; maximum is " +:+ fmt_dec maximum
  | OversizedCollection field actual maximum =>
      "collection " +:+ field +:+ " has " +:+ fmt_dec actual +:+ " items; maximum is "
      +:+ fmt_dec maximum
  | InvalidSplitReference => "invalid split reference size/offset relationship"
  | InvalidManifestRootCounts page_count split_count =>
      "manifest root page count " +:+ fmt_dec page_count +:+ " disagrees with split count "
      +:+ fmt_dec split_count
  | EmptyManifestPage => "manifest page must contain at least one split"
  | NonContiguousManifestPage expected actual =>
      "manifest page " +:+ fmt_dec actual +:+ " does not follow expected page " +:+ fmt_dec expected
  | ManifestPageCountExhausted => "text manifest page count is exhausted"
  | ManifestRevisionExhausted => "text manifest revision is exhausted"
  | EmptyTextCorpusWithTokens => "an empty text corpus cannot retain indexed tokens"
  | ZeroTextDocumentFrequency => "text term document frequency must be non-zero"
  | InvalidTextStatisticsTerms =>
      "text statistics terms must be non-empty, sorted, unique, and bounded"
  end.

Definition try_tenant_value (value : bytes) : result IndexWorkModelError TextPartition :=
  if blen value =? 0 then Err EmptyTenantPartition
  else if MAX_LENGTH_DELIMITED_FIELD <? blen value then
    Err (OversizedField "tenant partition" (blen value) MAX_LENGTH_DELIMITED_FIELD)
  else Ok (TenantValue value).

(** [varint_len]: the loop runs at most ten times on a [u64]. *)
Fixpoint varint_len_loop (fuel : nat) (value len : Z) : Z :=
  match fuel with
  | O => len
  | S fuel => if 0x80 <=? value then varint_len_loop fuel (Z.shiftr value 7) (len + 1) else len
  end.
Definition varint_len (value : Z) : Z := varint_len_loop 10 value 1.

(** [put_varint]: the loop writes at most ten bytes of a [u64]. *)
Fixpoint put_varint_loop (fuel : nat) (value : Z) : bytes :=
  match fuel with
  | O => []
  | S fuel =>
      if 0x80 <=? value then
        Z.lor (Z.land (wrap 8 value) 0x7F) 0x80 :: put_varint_loop fuel (Z.shiftr value 7)
      else [wrap 8 value]
  end.
Definition put_varint (value : Z) : bytes := put_varint_loop 10 value.

Definition put_partition (partition : TextPartition) : bytes :=
  match partition with
  | Unpartitioned => [0x01]
  | TenantValue value => 0x02 :: put_varint (blen value) ++ value
  end.

Definition partition_encoded_len (partition : TextPartition) : Z :=
  match partition with
  | Unpartitioned => 1
  | TenantValue value => 1 + varint_len (blen value) + blen value
  end.

(** ** Reading *)

Definition take_raw (len : Z) (c : bytes) : result EncodingError (bytes * bytes) :=
  if blen c <? len then Err (BufferTooShort len (blen c))
  else Ok (take (Z.to_nat len) c, drop (Z.to_nat len) c).

Definition take_u8 (c : bytes) : result EncodingError (Z * bytes) :=
  let? (value, c) := take_raw 1 c in
  Ok (hd 0 value, c).

Definition take_operation_id (c : bytes) : result EncodingError (Z * bytes) :=
  let? (value, c) := take_raw OPERATION_ID_LEN c in
  let? id := try_from_u128 (of_be value) in
  Ok (id, c).

(** The [for index in 0..MAX_VARINT_LEN] loop; [n] iterations remain. *)
Fixpoint take_varint_loop (n : nat) (index value : Z) (c : bytes)
  : result EncodingError (Z * bytes) :=
  match n with
  | O => Err (Custom "queued varint is too long")
  | S n =>
      let? (byte, c) := take_u8 c in
      let payload := Z.land byte 0x7F in
      if (index =? MAX_VARINT_LEN - 1) && (1 <? payload) then
        Err (Custom "queued varint overflows u64")
      else
        let value := Z.lor value (wrap 64 (Z.shiftl payload (7 * index))) in
        if Z.land byte 0x80 =? 0 then
          if (0 <? index) && (byte =? 0) then
            Err (Custom "queued varint is not minimally encoded")
          else Ok (value, c)
        else take_varint_loop n (index + 1) value c
  end.
Definition take_varint (c : bytes) : result EncodingError (Z * bytes) :=
  take_varint_loop (Z.to_nat MAX_VARINT_LEN) 0 0 c.

Definition take_entity (c : bytes) : result EncodingError (IndexEntity * bytes) :=
  let? (tag, c) := take_u8 c in
  let? kind :=
    (if tag =? 0x01 then Ok Node
     else if tag =? 0x02 then Ok Edge
     else Err (Custom ("unknown queued entity kind " +:+ fmt_hex tag))) in
  let? (id, c) := take_varint c in
  Ok ({| kind := kind; entity_id := id |}, c).

Definition take_partition_body (tag : Z) (c : bytes)
  : result EncodingError (TextPartition * bytes) :=
  if tag =? 0x01 then Ok (Unpartitioned, c)
  else if tag =? 0x02 then
    let? (len, c) := take_varint c in
    if MAX_PARTITION_LEN <? len then
      Err (Custom ("queued tenant partition is " +:+ fmt_dec len +:+ " bytes; maximum is "
           +:+ fmt_dec MAX_PARTITION_LEN))
    else
      let? (value, c) := take_raw len c in
      match try_tenant_value value with
      | Ok partition => Ok (partition, c)
      | Err error => Err (Custom (work_error_to_string error))
      end
  else Err (Custom ("unknown queued partition tag " +:+ fmt_hex tag)).

(** [skip_partition_body] of algebra.rs: validates without copying. *)
Definition skip_partition_body (tag : Z) (c : bytes) : result EncodingError bytes :=
  if tag =? 0x01 then Ok c
  else if tag =? 0x02 then
    let? (len, c) := take_varint c in
    if (len =? 0) || (MAX_PARTITION_LEN <? len) then
      Err (Custom ("queued tenant partition length " +:+ fmt_dec len +:+ " is outside 1..="
           +:+ fmt_dec MAX_PARTITION_LEN))
    else
      let? (_, c) := take_raw len c in
      Ok c
  else Err (Custom ("unknown queued partition tag " +:+ fmt_hex tag)).

Definition finish (context : string) (c : bytes) : result EncodingError unit :=
  if blen c =? 0 then Ok tt
  else Err (Custom (context +:+ " has " +:+ fmt_dec (blen c) +:+ " trailing bytes")).

(** ** Raw reads *)

Lemma blen_nil_inv c : blen c = 0 -> c = [].
Proof. unfold blen. destruct c; [done|]. cbn [length]. lia. Qed.

Lemma take_raw_app l c : take_raw (blen l) (l ++ c) = Ok (l, c).
Proof.
  unfold take_raw. rewrite blen_app. pose proof (blen_nonneg c).
  rewrite (proj2 (Z.ltb_ge _ _)) by lia. unfold blen. rewrite Nat2Z.id.
  by rewrite take_app_length, drop_app_length.
Qed.

Lemma take_raw_ok len c l c' :
  0 <= len -> take_raw len c = Ok (l, c') -> c = l ++ c' /\ blen l = len.
Proof.
  unfold take_raw. destruct (Z.ltb_spec (blen c) len); [done|]. intros Hlen [= <- <-].
  rewrite take_drop. split; [done|]. unfold blen in *. rewrite length_take. lia.
Qed.

Lemma take_u8_cons b c : take_u8 (b :: c) = Ok (b, c).
Proof. unfold take_u8. change (b :: c) with ([b] ++ c).
  change 1 with (blen [b]). by rewrite take_raw_app. Qed.

Lemma take_u8_ok c b c' : take_u8 c = Ok (b, c') -> c = b :: c'.
Proof.
  unfold take_u8. intros H. apply result_bind_ok in H as ([l r] & E & [= <- <-]).
  apply take_raw_ok in E as [-> Hl]; [|lia].
  destruct l as [|x [|y l]]; [done|done|]. rewrite !blen_cons in Hl. pose proof (blen_nonneg l). lia.
Qed.

Lemma take_u8_nil : take_u8 [] = Err (BufferTooShort 1 0).
Proof. done. Qed.

Lemma finish_ok ctx c : finish ctx c = Ok tt <-> c = [].
Proof.
  unfold finish. destruct (Z.eqb_spec (blen c) 0) as [H|H].
  - apply blen_nil_inv in H. by subst.
  - split; [done|]. by intros ->.
Qed.

(** ** Varints *)

Lemma land_127 z : Z.land z 127 = z mod 128.
Proof. change 127 with (Z.ones 7). by rewrite Z.land_ones. Qed.

Lemma lor_128 x : 0 <= x < 128 -> Z.lor x 128 = 128 + x.
Proof. intros H. rewrite Z.lor_comm. by apply (lor_disjoint_add 1 x 7). Qed.

Lemma land_128 b : 0 <= b < 256 -> (Z.land b 128 =? 0) = (b <? 128).
Proof.
  intros H.
  assert (forall x, 0 <= x < 128 -> Z.land 128 x = 0) as H0
    by (intros x Hx; apply (land_disjoint 1 x 7); lia).
  destruct (Z.ltb_spec b 128).
  - rewrite Z.land_comm, H0 by lia. done.
  - replace b with (Z.lor 128 (b - 128)).
    2:{ rewrite Z.lor_comm, lor_128; lia. }
    rewrite Z.land_comm, Z.land_lor_distr_r, (H0 (b - 128)) by lia. done.
Qed.

Lemma continuation_byte v : 0 <= v -> Z.lor (Z.land (wrap 8 v) 0x7F) 0x80 = 128 + v mod 128.
Proof.
  intros Hv. unfold wrap. rewrite land_127. change (2 ^ 8) with (128 * 2).
  rewrite Z.rem_mul_r by lia. rewrite Z.mul_comm, Z.mod_add, Z.mod_mod by lia.
  apply lor_128, Z.mod_pos_bound. lia.
Qed.

(** Accumulating one payload is adding it at its position. *)
Lemma accumulate acc p i :
  0 <= i -> 7 * i <= 63 -> 0 <= acc < 2 ^ (7 * i) -> 0 <= p < 128 -> p * 2 ^ (7 * i) < 2 ^ 64 ->
  Z.lor acc (wrap 64 (Z.shiftl p (7 * i))) = acc + p * 2 ^ (7 * i).
Proof.
  intros Hi Hi' Ha Hp Hlt. unfold wrap.
  rewrite Z.mod_small by (rewrite Z.shiftl_mul_pow2; nia).
  rewrite Z.lor_comm, lor_disjoint_add by lia. lia.
Qed.

Lemma take_put_varint_loop n i acc v c :
  0 <= i -> i + Z.of_nat n = 10 -> 0 <= acc < 2 ^ (7 * i) ->
  0 <= v < 2 ^ (64 - 7 * i) -> (0 < i -> 0 < v) ->
  take_varint_loop n i acc (put_varint_loop n v ++ c) = Ok (acc + v * 2 ^ (7 * i), c).
Proof.
  revert i acc v; induction n as [|n IH]; intros i acc v Hi Hn Hacc Hv Hmin.
  { replace i with 10 in Hv by lia. simpl in Hv. lia. }
  cbn [put_varint_loop take_varint_loop]. change (MAX_VARINT_LEN - 1) with 9.
  assert (0 < 2 ^ (7 * i)) by (apply Z.pow_pos_nonneg; lia).
  assert (2 ^ (64 - 7 * i) * 2 ^ (7 * i) = 2 ^ 64) as Hpow
    by (rewrite <- Z.pow_add_r by lia; f_equal; lia).
  assert (i = 9 -> v < 2) as H9 by (intros ->; lia).
  destruct (Z.leb_spec 128 v).
  - rewrite continuation_byte by lia. cbn [app]. rewrite take_u8_cons. bind_simpl.
    pose proof (Z.mod_pos_bound v 128).
    rewrite land_127. replace ((128 + v mod 128) mod 128) with (v mod 128).
    2:{ apply Z.mod_unique with 1; lia. }
    rewrite (proj2 (Z.eqb_neq _ _)) by lia. cbn [andb].
    rewrite land_128 by lia. rewrite (proj2 (Z.ltb_ge _ _)) by lia.
    pose proof (Z.div_mod v 128 ltac:(lia)).
    rewrite accumulate by (try nia).
    rewrite Z.shiftr_div_pow2 by lia. change (2 ^ 7) with 128.
    rewrite IH; try lia.
    + f_equal. f_equal. replace (7 * (i + 1)) with (7 + 7 * i) by lia.
      rewrite Z.pow_add_r by lia. change (2 ^ 7) with 128. nia.
    + replace (7 * (i + 1)) with (7 + 7 * i) by lia.
      rewrite Z.pow_add_r by lia. change (2 ^ 7) with 128. nia.
    + split; [apply Z.div_pos; lia|]. apply Z.div_lt_upper_bound; [lia|].
      replace (64 - 7 * i) with (7 + (64 - 7 * (i + 1))) in Hv by lia.
      rewrite Z.pow_add_r in Hv by lia. lia.
  - assert (wrap 8 v = v) as -> by (apply Z.mod_small; change (2 ^ 8) with 256; lia).
    cbn [app]. rewrite take_u8_cons. bind_simpl.
    rewrite land_127, Z.mod_small by lia.
    destruct (Z.eqb_spec i 9); [rewrite (proj2 (Z.ltb_ge _ _)) by lia|]; cbn [andb];
      rewrite land_128 by lia; rewrite (proj2 (Z.ltb_lt _ _)) by lia;
      destruct (Z.ltb_spec 0 i); cbn [andb];
      try (rewrite (proj2 (Z.eqb_neq v 0)) by lia); rewrite accumulate by nia; done.
Qed.

Lemma take_put_varint v c : in_u 64 v -> take_varint (put_varint v ++ c) = Ok (v, c).
Proof.
  unfold in_u. intros Hv. unfold take_varint, put_varint.
  rewrite (take_put_varint_loop 10) by (simpl; lia). f_equal. f_equal. simpl. lia.
Qed.

Lemma take_varint_loop_inv n i acc c v c' :
  bytes_ok c -> 0 <= i -> i + Z.of_nat n = 10 -> 0 <= acc < 2 ^ (7 * i) ->
  take_varint_loop n i acc c = Ok (v, c') ->
  exists w, 0 <= w < 2 ^ (64 - 7 * i) /\ (0 < i -> 0 < w) /\
    v = acc + w * 2 ^ (7 * i) /\ c = put_varint_loop n w ++ c'.
Proof.
  revert i acc c; induction n as [|n IH]; intros i acc c Hc Hi Hn Hacc H; [done|].
  cbn [take_varint_loop] in H. change (MAX_VARINT_LEN - 1) with 9 in H.
  apply result_bind_ok in H as ([b c1] & Eb & H). apply take_u8_ok in Eb as ->.
  apply Forall_cons in Hc as [Hb Hc]. unfold byte_ok in Hb.
  rewrite land_127, land_128 in H by lia.
  pose proof (Z.mod_pos_bound b 128).
  assert (0 < 2 ^ (7 * i)) by (apply Z.pow_pos_nonneg; lia).
  assert (2 ^ (64 - 7 * i) * 2 ^ (7 * i) = 2 ^ 64) as Hpow
    by (rewrite <- Z.pow_add_r by lia; f_equal; lia).
  destruct ((i =? 9) && (1 <? b mod 128)) eqn:E9; [done|].
  assert (b mod 128 < 2 ^ (64 - 7 * i)) as Hp.
  { destruct (Z.eq_dec i 9) as [->|].
    - rewrite Z.eqb_refl in E9. simpl in E9. apply Z.ltb_ge in E9. simpl. lia.
    - apply Z.lt_le_trans with (2 ^ 7); [simpl; lia | apply Z.pow_le_mono_r; lia]. }
  rewrite accumulate in H by nia.
  destruct (Z.ltb_spec b 128).
  - destruct ((0 <? i) && (b =? 0)) eqn:E0; [done|]. injection H as <- <-.
    rewrite Z.mod_small in * by lia. exists b. split_and!; try lia.
    cbn [put_varint_loop]. rewrite (proj2 (Z.leb_gt _ _)) by lia.
    unfold wrap. by rewrite Z.mod_small by (change (2 ^ 8) with 256; lia).
  - assert (7 * (i + 1) = 7 + 7 * i) as E7 by lia.
    assert (2 ^ (7 * (i + 1)) = 128 * 2 ^ (7 * i)) as P7
      by (rewrite E7, Z.pow_add_r by lia; done).
    apply IH in H as (w & Hw & Hw0 & -> & ->); [|done|lia|lia|nia].
    exists (b mod 128 + 128 * w).
    assert (0 < w) by (apply Hw0; lia).
    assert (i < 9).
    { destruct (Z.eq_dec i 9) as [->|]; [|lia]. simpl in Hw. lia. }
    assert (2 ^ (64 - 7 * i) = 128 * 2 ^ (64 - 7 * (i + 1))) as P8.
    { replace (64 - 7 * i) with (7 + (64 - 7 * (i + 1))) by lia. rewrite Z.pow_add_r by lia. done. }
    split_and!; try nia.
    cbn [put_varint_loop]. rewrite (proj2 (Z.leb_le _ _)) by lia.
    rewrite continuation_byte by lia. cbn [app]. f_equal.
    + rewrite Z.mul_comm, Z.mod_add, Z.mod_mod by lia.
      assert (b = 128 + b mod 128); [|lia].
      rewrite (Z.mod_eq b 128) at 1 by lia.
      assert (b / 128 = 1) as ->; [|lia]. symmetry. apply Z.div_unique with (b - 128); lia.
    + f_equal. f_equal. rewrite Z.shiftr_div_pow2 by lia. change (2 ^ 7) with 128.
      rewrite Z.mul_comm, Z.div_add, Z.div_small by lia. lia.
Qed.

Lemma take_varint_inv c v c' :
  bytes_ok c -> take_varint c = Ok (v, c') -> in_u 64 v /\ c = put_varint v ++ c'.
Proof.
  intros Hc H. unfold take_varint in H.
  apply take_varint_loop_inv in H as (w & Hw & _ & -> & ->); [|done|lia|done|simpl; lia].
  change (2 ^ (7 * 0)) with 1. replace (0 + w * 1) with w by lia. done.
Qed.

Lemma varint_len_loop_spec n v acc :
  0 <= v < 2 ^ (7 * Z.of_nat n) ->
  varint_len_loop n v acc + 1 = acc + Z.max 1 (blen (put_varint_loop n v)).
Proof.
  revert v acc; induction n as [|n IH]; intros v acc Hv.
  { done. }
  cbn [varint_len_loop put_varint_loop]. destruct (Z.leb_spec 128 v).
  - rewrite IH.
    2:{ rewrite Z.shiftr_div_pow2 by lia. change (2 ^ 7) with 128. split; [apply Z.div_pos; lia|].
        apply Z.div_lt_upper_bound; [lia|].
        replace (7 * Z.of_nat (S n)) with (7 + 7 * Z.of_nat n) in Hv by lia.
        rewrite Z.pow_add_r in Hv by lia. lia. }
    rewrite blen_cons. pose proof (blen_nonneg (put_varint_loop n (Z.shiftr v 7))).
    assert (blen (put_varint_loop n (Z.shiftr v 7)) <> 0); [|lia].
    intros E%blen_nil_inv. destruct n; [|cbn [put_varint_loop] in E; by destruct (_ <=? _)].
    simpl in Hv. lia.
  - change (blen [wrap 8 v]) with 1. lia.
Qed.

(** [varint_len] is the number of bytes [put_varint] writes, one to ten. *)
Lemma blen_put_varint v : in_u 64 v -> blen (put_varint v) = varint_len v.
Proof.
  unfold in_u. intros Hv. unfold varint_len, put_varint.
  pose proof (varint_len_loop_spec 10 v 1) as H.
  assert (1 <= blen (put_varint_loop 10 v)).
  { cbn [put_varint_loop]. destruct (_ <=? _); rewrite blen_cons;
      match goal with |- context [blen ?l] => pose proof (blen_nonneg l) end; lia. }
  assert (2 ^ 64 < 2 ^ (7 * Z.of_nat 10)) by done. lia.
Qed.

Lemma put_varint_loop_bound n v : blen (put_varint_loop n v) <= Z.of_nat n.
Proof.
  revert v; induction n as [|n IH]; intros v; cbn [put_varint_loop]; [done|].
  destruct (_ <=? _); rewrite blen_cons; [specialize (IH (Z.shiftr v 7))|change (blen []) with 0]; lia.
Qed.

Lemma varint_len_bound v : in_u 64 v -> 1 <= varint_len v <= 10.
Proof.
  intros Hv. pose proof (put_varint_loop_bound 10 v). pose proof (blen_put_varint v Hv) as E.
  unfold put_varint in E.
  assert (blen (put_varint_loop 10 v) <> 0); [|pose proof (blen_nonneg (put_varint_loop 10 v)); lia].
  intros H0%blen_nil_inv. cbn [put_varint_loop] in H0. by destruct (_ <=? _).
Qed.

Lemma put_varint_ok v : in_u 64 v -> bytes_ok (put_varint v).
Proof.
  intros _. unfold put_varint. generalize 10%nat. intros n; revert v.
  induction n as [|n IH]; intros v; cbn [put_varint_loop]; [done|].
  destruct (Z.leb_spec 0x80 v).
  - constructor; [|done]. rewrite continuation_byte by lia.
    pose proof (Z.mod_pos_bound v 128). unfold byte_ok. lia.
  - constructor; [|done]. apply byte_ok_mod.
Qed.

#[global] Arguments put_varint : simpl never.
#[global] Arguments take_varint : simpl never.
#[global] Arguments varint_len : simpl never.

End Cursor.
