(* ===== verification/QueueCodec.v ===== *)
(** Operation-queue values: the persisted format of
    crates/db/src/encoding/v2/values/indexes/operation_queue/mod.rs and the
    structural parser of its algebra.rs.

    Every operand, partial merge and resolved value has one layout; this file
    writes it ([enqueue], [acknowledge], rows), parses it ([parse]), decodes it
    ([decode_queue_value]) and frames it without decoding payloads
    ([frame_queue_value], [decode_latest]). *)
From S2P Require Import Prelude Bytes Cursor.

Open Scope Z_scope.

Module QueueCodec.
Import Cursor.

Definition QUEUE_VALUE_VERSION : Z := 0x01.
Definition QUEUE_VALUE_KIND : Z := 0x14.
Definition ROW_VALUE_KIND : Z := 0x15.
Definition KIND_LEN : Z := 1.
Definition MODE_LEN : Z := 1.
Definition HEADER_LEN : Z := 3.
Definition F32_LEN : Z := 4.
Definition MIN_RETAINED_RECORD_LEN : Z := MODE_LEN + OPERATION_ID_LEN + 1 + 3.
Definition MAX_VALUE_FRAMING_LEN : Z := HEADER_LEN + 2 * MAX_VARINT_LEN.
Definition MAX_RETAINED_BYTES : Z :=
  (umax 32 - MAX_VALUE_FRAMING_LEN) * MIN_RETAINED_RECORD_LEN
  / (MIN_RETAINED_RECORD_LEN + OPERATION_ID_LEN).

Inductive QueueFamily := Vector | Text.

#[global] Instance QueueFamily_eq_dec : EqDecision QueueFamily.
Proof. solve_decision. Defined.

Definition family_u8 (f : QueueFamily) : Z :=
  match f with
  | Vector => 0x01
  | Text => 0x02
  end.

Definition family_try_from_u8 (value : Z) : result EncodingError QueueFamily :=
  if value =? 0x01 then Ok Vector
  else if value =? 0x02 then Ok Text
  else Err (Custom ("unknown queued operation family " +:+ fmt_hex value)).

(** [f32::is_finite] on the bit pattern. *)
Definition f32_is_finite (bits : Z) : bool :=
  negb (Z.land (Z.shiftr bits 23) 0xFF =? 0xFF).

(** An [f32] component is its bit pattern. *)
Record QueuedVectorReplacement := { vr_partition : TextPartition; vr_vector : list Z }.
Record QueuedVectorPayload := {
  vp_previous : option TextPartition;
  vp_replacement : option QueuedVectorReplacement;
}.
Record QueuedTextReplacement := { tr_partition : TextPartition; tr_text : bytes }.
Record QueuedTextPayload := { tp_replacement : option QueuedTextReplacement }.
Inductive QueuedPayload :=
| VectorPayload (p : QueuedVectorPayload)
| TextPayload (p : QueuedTextPayload).

Record QueuedOperation := {
  op_id : Z;
  op_entity : IndexEntity;
  op_payload : QueuedPayload;
}.

Definition payload_family (p : QueuedPayload) : QueueFamily :=
  match p with
  | VectorPayload _ => Vector
  | TextPayload _ => Text
  end.

Fixpoint position_from {A} (f : A -> bool) (i : Z) (l : list A) : option Z :=
  match l with
  | [] => None
  | x :: l => if f x then Some i else position_from f (i + 1) l
  end.

(** [QueuedVectorReplacement::try_new]. *)
Definition vector_try_new (partition : TextPartition) (vector : list Z)
  : result EncodingError QueuedVectorReplacement :=
  match vector with
  | [] => Err (Custom "queued vector replacement must not be empty")
  | _ =>
      match position_from (fun value => negb (f32_is_finite value)) 0 vector with
      | Some index => Err (Custom ("queued vector component " +:+ fmt_dec index +:+ " is not finite"))
      | None => Ok {| vr_partition := partition; vr_vector := vector |}
      end
  end.

(** [entity_enqueue_token]. *)
Definition entity_enqueue_token (entity : IndexEntity) : Z :=
  Z.lor (Z.lor OPERATION_TOKEN_BIT (Z.shiftl (element_kind_u8 (kind entity)) 64))
        (entity_id entity).

(** ** Encoding *)

Definition put_header (family : QueueFamily) : bytes :=
  [QUEUE_VALUE_VERSION; QUEUE_VALUE_KIND; family_u8 family].

Definition body_encoded_len (operation : QueuedOperation) : Z :=
  let entity := KIND_LEN + varint_len (entity_id (op_entity operation)) in
  let payload :=
    match op_payload operation with
    | VectorPayload payload =>
        match vp_previous payload with
        | None => KIND_LEN
        | Some partition => partition_encoded_len partition
        end +
        match vp_replacement payload with
        | None => KIND_LEN
        | Some replacement =>
            KIND_LEN + partition_encoded_len (vr_partition replacement)
            + varint_len (blen (vr_vector replacement)) + blen (vr_vector replacement) * F32_LEN
        end
    | TextPayload payload =>
        match tp_replacement payload with
        | None => KIND_LEN
        | Some replacement =>
            KIND_LEN + partition_encoded_len (tr_partition replacement)
            + varint_len (blen (tr_text replacement)) + blen (tr_text replacement)
        end
    end in
  entity + payload.

(** The payload match of [put_body]. *)
Definition put_payload (payload : QueuedPayload) : bytes :=
  match payload with
  | VectorPayload payload =>
      match vp_previous payload with
      | Some partition => put_partition partition
      | None => [0x00]
      end ++
      match vp_replacement payload with
      | Some replacement =>
          0x01 :: put_partition (vr_partition replacement)
          ++ put_varint (blen (vr_vector replacement))
          ++ flat_map (to_be 4) (vr_vector replacement)
      | None => [0x00]
      end
  | TextPayload payload =>
      match tp_replacement payload with
      | Some replacement =>
          0x01 :: put_partition (tr_partition replacement)
          ++ put_varint (blen (tr_text replacement)) ++ tr_text replacement
      | None => [0x00]
      end
  end.

Definition put_body (operation : QueuedOperation) : bytes :=
  element_kind_u8 (kind (op_entity operation)) :: put_varint (entity_id (op_entity operation)) ++
  put_payload (op_payload operation).

(** [retained_len]: exact in [u64] for every addressable body. *)
Definition retained_len (body_len : Z) : Z :=
  MODE_LEN + OPERATION_ID_LEN + varint_len body_len + body_len.
Definition retained_bytes (operation : QueuedOperation) : Z :=
  retained_len (body_encoded_len operation).

Inductive InsertMode := IfAbsent | SetMode.

#[global] Instance InsertMode_eq_dec : EqDecision InsertMode.
Proof. solve_decision. Defined.

Definition mode_u8 (mode : InsertMode) : Z :=
  match mode with
  | IfAbsent => 0x01
  | SetMode => 0x02
  end.
Definition mode_try_from_u8 (value : Z) : result EncodingError InsertMode :=
  if value =? 0x01 then Ok IfAbsent
  else if value =? 0x02 then Ok SetMode
  else Err (Custom ("unknown queued insert mode " +:+ fmt_hex value)).

(** [put_raw_insert] (algebra.rs). *)
Definition put_raw_insert (mode : InsertMode) (id : Z) (body : bytes) : bytes :=
  mode_u8 mode :: to_be 16 id ++ put_varint (blen body) ++ body.

Definition put_insert (mode : InsertMode) (operation : QueuedOperation) : bytes :=
  mode_u8 mode :: to_be 16 (op_id operation)
  ++ put_varint (body_encoded_len operation) ++ put_body operation.

(** [QueueOperand]. *)
Record QueueOperand := { operand_bytes : bytes; operand_tokens : list Z }.

(** The loop of [QueueOperand::enqueue]. *)
Fixpoint enqueue_loop (family : QueueFamily) (ids : gset Z) (entities : gset IndexEntity)
    (out : bytes) (tokens : list Z) (operations : list QueuedOperation)
  : result EncodingError QueueOperand :=
  match operations with
  | [] => Ok {| operand_bytes := out; operand_tokens := tokens |}
  | operation :: operations =>
      if negb (bool_decide (payload_family (op_payload operation) = family)) then
        Err (Custom "queue enqueue operand mixes index families")
      else if bool_decide (op_id operation ∈ ids) then
        Err (Custom "queue enqueue operand repeats an operation ID")
      else if bool_decide (op_entity operation ∈ entities) then
        Err (Custom "queue enqueue operand repeats an entity")
      else
        enqueue_loop family ({[ op_id operation ]} ∪ ids) ({[ op_entity operation ]} ∪ entities)
          (out ++ put_insert IfAbsent operation)
          (tokens ++ [op_id operation; entity_enqueue_token (op_entity operation)])
          operations
  end.

Definition enqueue (operations : list QueuedOperation) : result EncodingError QueueOperand :=
  match operations with
  | [] => Err (Custom "queue enqueue operand requires at least one operation")
  | first :: _ =>
      let family := payload_family (op_payload first) in
      enqueue_loop family ∅ ∅
        (put_header family ++ put_varint 0 ++ put_varint (Z.of_nat (length operations)))
        [] operations
  end.

(** [ids.windows(2).any(|pair| pair[0] == pair[1])] *)
Fixpoint has_equal_neighbours (ids : list Z) : bool :=
  match ids with
  | x :: ((y :: _) as rest) => (x =? y) || has_equal_neighbours rest
  | _ => false
  end.

(** [sort_unstable] of identifiers, as insertion into an ascending list: for a
    total order every sorting algorithm gives this list. *)
Fixpoint sorted_insert (x : Z) (l : list Z) : list Z :=
  match l with
  | [] => [x]
  | y :: rest => if x <=? y then x :: l else y :: sorted_insert x rest
  end.
Definition sort_ids (l : list Z) : list Z := foldr sorted_insert [] l.

(** [QueueOperand::acknowledge]. *)
Definition acknowledge (family : QueueFamily) (ids : list Z) : result EncodingError QueueOperand :=
  let ids := sort_ids ids in
  if has_equal_neighbours ids then
    Err (Custom "queue acknowledgement repeats an operation ID")
  else if (length ids =? 0)%nat then
    Err (Custom "queue acknowledgement requires at least one operation")
  else
    Ok {| operand_bytes :=
            put_header family ++ put_varint (Z.of_nat (length ids))
            ++ flat_map (to_be 16) ids ++ put_varint 0;
          operand_tokens := ids |}.

(** [QueueOperand::acknowledgement_capacity]. *)
Definition acknowledgement_capacity (max_bytes : Z) : Z :=
  let fixed := HEADER_LEN + 1 in
  let largest := sat_sub max_bytes fixed / OPERATION_ID_LEN in
  sat_sub max_bytes (fixed + varint_len largest) / OPERATION_ID_LEN.

(** ** Decoding bodies *)

Definition noncanonical_option (tag : Z) : EncodingError :=
  Custom ("noncanonical queued option tag " +:+ fmt_hex tag).

(** [chunks_exact(4)] of a slice, each read as a big-endian [u32]. *)
Fixpoint chunks4 (l : bytes) : list Z :=
  match l with
  | a :: b :: c :: d :: l => of_be [a; b; c; d] :: chunks4 l
  | _ => []
  end.

(** [decode_body]. *)
Definition decode_vector (c : bytes) : result EncodingError (QueuedVectorPayload * bytes) :=
  let? (tag, c) := take_u8 c in
  let? (previous, c) :=
    (if tag =? 0x00 then Ok (None, c)
     else let? (partition, c) := take_partition_body tag c in Ok (Some partition, c)) in
  let? (tag, c) := take_u8 c in
  if tag =? 0x00 then Ok ({| vp_previous := previous; vp_replacement := None |}, c)
  else if tag =? 0x01 then
    let? (tag, c) := take_u8 c in
    let? (partition, c) := take_partition_body tag c in
    let? (dimension, c) := take_varint c in
    if blen c / F32_LEN <? dimension then
      Err (BufferTooShort (sat_mul 64 dimension F32_LEN) (blen c))
    else
      let? (components, c) := take_raw (dimension * F32_LEN) c in
      let? replacement := vector_try_new partition (chunks4 components) in
      Ok ({| vp_previous := previous; vp_replacement := Some replacement |}, c)
  else Err (noncanonical_option tag).

Definition decode_text (c : bytes) : result EncodingError (QueuedTextPayload * bytes) :=
  let? (tag, c) := take_u8 c in
  if tag =? 0x00 then Ok ({| tp_replacement := None |}, c)
  else if tag =? 0x01 then
    let? (tag, c) := take_u8 c in
    let? (partition, c) := take_partition_body tag c in
    let? (len, c) := take_varint c in
    let? (raw, c) := take_raw len c in
    let? text := from_utf8 raw in
    Ok ({| tp_replacement := Some {| tr_partition := partition; tr_text := text |} |}, c)
  else Err (noncanonical_option tag).

Definition decode_body (family : QueueFamily) (id : Z) (body : bytes)
  : result EncodingError QueuedOperation :=
  let? (entity, c) := take_entity body in
  let? (payload, c) :=
    match family with
    | Vector => let? (p, c) := decode_vector c in Ok (VectorPayload p, c)
    | Text => let? (p, c) := decode_text c in Ok (TextPayload p, c)
    end in
  let? _ := finish "queued operation body" c in
  Ok {| op_id := id; op_entity := entity; op_payload := payload |}.

(** [validate_body] (algebra.rs): the same format, checked in place. *)
Definition validate_vector (c : bytes) : result EncodingError bytes :=
  let? (tag, c) := take_u8 c in
  let? c := (if tag =? 0x00 then Ok c else skip_partition_body tag c) in
  let? (tag, c) := take_u8 c in
  if tag =? 0x00 then Ok c
  else if tag =? 0x01 then
    let? (tag, c) := take_u8 c in
    let? c := skip_partition_body tag c in
    let? (dimension, c) := take_varint c in
    if dimension =? 0 then Err (Custom "queued vector replacement must not be empty")
    else if blen c / F32_LEN <? dimension then
      Err (BufferTooShort (sat_mul 64 dimension F32_LEN) (blen c))
    else
      let? (components, c) := take_raw (dimension * F32_LEN) c in
      if existsb (fun chunk => negb (f32_is_finite chunk)) (chunks4 components) then
        Err (Custom "queued vector component is not finite")
      else Ok c
  else Err (noncanonical_option tag).

Definition validate_text (c : bytes) : result EncodingError bytes :=
  let? (tag, c) := take_u8 c in
  if tag =? 0x00 then Ok c
  else if tag =? 0x01 then
    let? (tag, c) := take_u8 c in
    let? c := skip_partition_body tag c in
    let? (len, c) := take_varint c in
    let? (raw, c) := take_raw len c in
    let? _ := from_utf8 raw in
    Ok c
  else Err (noncanonical_option tag).

Definition validate_body (family : QueueFamily) (body : bytes) : result EncodingError unit :=
  let? (tag, c) := take_u8 body in
  check? (tag =? 0x01) || (tag =? 0x02)
    else Custom ("unknown queued entity kind " +:+ fmt_hex tag) in
  let? (_, c) := take_varint c in
  let? c :=
    match family with
    | Vector => validate_vector c
    | Text => validate_text c
    end in
  finish "queued operation body" c.

(** ** Values: [parse_header], [bounded_count], [RawValue::parse] *)

Definition parse_header (value : bytes) : result EncodingError (QueueFamily * bytes) :=
  match value with
  | version :: value_kind :: fam :: c =>
      check? version =? QUEUE_VALUE_VERSION
        else Custom ("unsupported operation queue value version " +:+ fmt_hex version) in
      check? value_kind =? QUEUE_VALUE_KIND
        else UnexpectedValueKind QUEUE_VALUE_KIND value_kind in
      let? family := family_try_from_u8 fam in
      Ok (family, c)
  | _ => Err (BufferTooShort HEADER_LEN (blen value))
  end.

Definition bounded_count (minimum_record_len : Z) (c : bytes) : result EncodingError (Z * bytes) :=
  let? (count, c) := take_varint c in
  if blen c / minimum_record_len <? count then
    Err (BufferTooShort (sat_mul 64 count minimum_record_len) (blen c))
  else Ok (count, c).

Record RawInsert := { ri_mode : InsertMode; ri_id : Z; ri_body : bytes }.
Record RawValue := { rv_family : QueueFamily; rv_removes : list Z; rv_inserts : list RawInsert }.

(** The removal loop; [previous] is [removes.last()]. *)
Fixpoint parse_removes (count : nat) (previous : option Z) (c : bytes)
  : result EncodingError (list Z * bytes) :=
  match count with
  | O => Ok ([], c)
  | S count =>
      let? (id, c) := take_operation_id c in
      check? (match previous with Some p => p <? id | None => true end)
        else Custom "queued removals are not strictly ascending" in
      let? (rest, c) := parse_removes count (Some id) c in
      Ok (id :: rest, c)
  end.

(** The insert loop. [removes.binary_search] on the ascending list is
    membership. *)
Fixpoint parse_inserts (count : nat) (family : QueueFamily) (removes : list Z) (ids : gset Z)
    (c : bytes) : result EncodingError (list RawInsert * bytes) :=
  match count with
  | O => Ok ([], c)
  | S count =>
      let? (mode, c) := take_u8 c in
      let? mode := mode_try_from_u8 mode in
      let? (id, c) := take_operation_id c in
      check? negb (bool_decide (id ∈ removes))
        else Custom "queued value both removes and inserts one operation ID" in
      check? negb (bool_decide (id ∈ ids))
        else Custom "queued value inserts one operation ID twice" in
      let? (body_len, c) := take_varint c in
      let? (body, c) := take_raw body_len c in
      let? _ := validate_body family body in
      let? (rest, c) := parse_inserts count family removes ({[ id ]} ∪ ids) c in
      Ok ({| ri_mode := mode; ri_id := id; ri_body := body |} :: rest, c)
  end.

Definition parse (value : bytes) : result EncodingError RawValue :=
  let? (family, c) := parse_header value in
  let? (remove_count, c) := bounded_count OPERATION_ID_LEN c in
  let? (removes, c) := parse_removes (Z.to_nat remove_count) None c in
  let? (insert_count, c) := bounded_count (MODE_LEN + OPERATION_ID_LEN + 1) c in
  let? (inserts, c) := parse_inserts (Z.to_nat insert_count) family removes ∅ c in
  let? _ := finish "operation queue value" c in
  Ok {| rv_family := family; rv_removes := removes; rv_inserts := inserts |}.

(** ** Resolved values: [ResolvedRecords], [decode_unique] *)

Definition take_record (c : bytes) : result EncodingError ((Z * bytes) * bytes) :=
  let? (mode, c) := take_u8 c in
  let? mode := mode_try_from_u8 mode in
  check? bool_decide (mode = IfAbsent)
    else Custom "resolved operation queue retains an unconditional set" in
  let? (id, c) := take_operation_id c in
  let? (body_len, c) := take_varint c in
  let? (body, c) := take_raw body_len c in
  Ok ((id, body), c).

(** The items the iterator yields up to its first error: every consumer stops
    there. The last item is the trailing-bytes error, if any. *)
Fixpoint records_from (remaining : nat) (c : bytes) : list (result EncodingError (Z * bytes)) :=
  match remaining with
  | O =>
      match finish "operation queue value" c with
      | Ok _ => []
      | Err e => [Err e]
      end
  | S remaining =>
      match take_record c with
      | Ok (record, c) => Ok record :: records_from remaining c
      | Err e => [Err e]
      end
  end.

Definition resolved_records (value : bytes)
  : result EncodingError (QueueFamily * list (result EncodingError (Z * bytes))) :=
  let? (family, c) := parse_header value in
  let? (removes, c) := take_varint c in
  check? removes =? 0 else Custom "resolved operation queue retains acknowledgements" in
  let? (remaining, c) := bounded_count (MODE_LEN + OPERATION_ID_LEN + 1) c in
  check? negb (remaining =? 0)
    else Custom "resolved operation queue is empty instead of absent" in
  Ok (family, records_from (Z.to_nat remaining) c).

Fixpoint decode_each {T} (decode : Z -> bytes -> result EncodingError T) (ids : gset Z)
    (records : list (result EncodingError (Z * bytes))) : result EncodingError (list T) :=
  match records with
  | [] => Ok []
  | record :: records =>
      let? (id, body) := record in
      check? negb (bool_decide (id ∈ ids))
        else Custom "queued value inserts one operation ID twice" in
      let? decoded := decode id body in
      let? rest := decode_each decode ({[ id ]} ∪ ids) records in
      Ok (decoded :: rest)
  end.

Definition decode_unique {T} (value : bytes)
    (decode : QueueFamily -> Z -> bytes -> result EncodingError T)
  : result EncodingError (QueueFamily * list T) :=
  let? (family, records) := resolved_records value in
  let? decoded := decode_each (decode family) ∅ records in
  Ok (family, decoded).

(** [OperationQueue::decode]. *)
Definition decode_queue_value (value : bytes)
  : result EncodingError (QueueFamily * list QueuedOperation) :=
  decode_unique value decode_body.

(** ** Frames: [OperationFrame] *)

Record OperationFrame := { of_id : Z; of_entity : IndexEntity; of_retained : Z }.

Definition frame_validate (family : QueueFamily) (id : Z) (body : bytes)
  : result EncodingError OperationFrame :=
  let? _ := validate_body family body in
  let? (entity, _) := take_entity body in
  Ok {| of_id := id; of_entity := entity; of_retained := retained_len (blen body) |}.

Definition frame_queue_value (value : bytes)
  : result EncodingError (QueueFamily * list OperationFrame) :=
  decode_unique value frame_validate.

(** ** Rows: [QueueRow] *)

Definition row_encode (family : QueueFamily) (operation : QueuedOperation) : bytes :=
  [QUEUE_VALUE_VERSION; ROW_VALUE_KIND; family_u8 family]
  ++ to_be 16 (op_id operation) ++ put_body operation.

Definition row_split (value : bytes) : result EncodingError (QueueFamily * Z * bytes) :=
  let? (version, c) := take_u8 value in
  check? version =? QUEUE_VALUE_VERSION else Custom "unsupported queued operation row version" in
  let? (value_kind, c) := take_u8 c in
  check? value_kind =? ROW_VALUE_KIND else Custom "queued operation row has another value kind" in
  let? (fam, c) := take_u8 c in
  let? family := family_try_from_u8 fam in
  let? (raw, c) := take_raw OPERATION_ID_LEN c in
  let? id := try_from_u128 (of_be raw) in
  let? (body, _) := take_raw (blen c) c in
  Ok (family, id, body).

Definition row_decode (value : bytes) : result EncodingError (QueueFamily * QueuedOperation) :=
  let? (family, id, body) := row_split value in
  let? operation := decode_body family id body in
  Ok (family, operation).

Definition frame_row (value : bytes) : result EncodingError (QueueFamily * OperationFrame) :=
  let? (family, id, body) := row_split value in
  let? frame := frame_validate family id body in
  Ok (family, frame).

(** ** Latest operations: [select_latest], [LatestOperations] *)

(** The raw bytes naming a body's entity: the kind byte and the varint up to
    its first terminating byte. *)
Definition entity_len (body : bytes) : Z :=
  Z.min
    match position_from (fun byte => Z.land byte 0x80 =? 0) 0
            (take (Z.to_nat MAX_VARINT_LEN) (drop (Z.to_nat KIND_LEN) body)) with
    | Some last => KIND_LEN + last + 1
    | None => blen body
    end
    (KIND_LEN + MAX_VARINT_LEN).
Definition raw_entity (body : bytes) : bytes := take (Z.to_nat (entity_len body)) body.

Record SelectState := {
  ss_order : list bytes;
  ss_latest : gmap bytes (Z * (Z * bytes));
  ss_untracked : bool;
}.

(** One iteration of the first loop. *)
Definition select_record (trackable : Z) (s : SelectState) (record : Z * bytes) : SelectState :=
  let '(id, body) := record in
  let entity := raw_entity body in
  let state := (retained_len (blen body), (id, body)) in
  match ss_latest s !! entity with
  | Some _ =>
      {| ss_order := ss_order s; ss_latest := <[entity := state]> (ss_latest s);
         ss_untracked := ss_untracked s |}
  | None =>
      if Z.of_nat (length (ss_order s)) <? trackable then
        {| ss_order := ss_order s ++ [entity]; ss_latest := <[entity := state]> (ss_latest s);
           ss_untracked := ss_untracked s |}
      else
        {| ss_order := ss_order s; ss_latest := ss_latest s; ss_untracked := true |}
  end.

(** The second loop; [latest.remove(entity).expect(..)] panics on [None],
    which [select_latest_total] shows unreachable. *)
Fixpoint select_fitting (budget charged : Z) (latest : gmap bytes (Z * (Z * bytes)))
    (order : list bytes) (selected : list (Z * bytes)) : option (list (Z * bytes) * option Z * Z) :=
  match order with
  | [] => Some (selected, None, charged)
  | entity :: order =>
      match latest !! entity with
      | None => None
      | Some (retained, record) =>
          let reached := sat_add 64 charged retained in
          if budget <? reached then Some (selected, Some reached, charged)
          else select_fitting budget reached (delete entity latest) order (selected ++ [record])
      end
  end.

(** [None] is the panic. *)
Definition select_latest (records : list (result EncodingError (Z * bytes))) (budget : Z)
  : result EncodingError (option (list (Z * bytes) * option Z)) :=
  let trackable := budget / MIN_RETAINED_RECORD_LEN in
  let? records := collect records in
  let s := fold_left (select_record trackable) records
             {| ss_order := []; ss_latest := ∅; ss_untracked := false |} in
  Ok match select_fitting budget 0 (ss_latest s) (ss_order s) [] with
     | None => None
     | Some (selected, Some reached, _) => Some (selected, Some reached)
     | Some (selected, None, charged) =>
         Some (selected,
           if ss_untracked s then
             Some (Z.max (sat_add 64 charged MIN_RETAINED_RECORD_LEN) (sat_add 64 budget 1))
           else None)
     end.

Record LatestOperations := {
  lo_family : QueueFamily;
  lo_operations : list QueuedOperation;
  lo_refused : option Z;
}.

Definition decode_selected (family : QueueFamily) (selected : list (Z * bytes))
    (refused : option Z) : result EncodingError LatestOperations :=
  let? operations := collect (map (fun r => decode_body family r.1 r.2) selected) in
  Ok {| lo_family := family; lo_operations := operations; lo_refused := refused |}.

(** [LatestOperations::decode]; the inner [None] is the panic. *)
Definition latest_decode (value : bytes) (budget : Z)
  : result EncodingError (option LatestOperations) :=
  let? (family, records) := resolved_records value in
  let? selection := select_latest records budget in
  match selection with
  | None => Ok None
  | Some (selected, refused) => result_map Some (decode_selected family selected refused)
  end.

(** The closure of [decode_rows], run over the rows: the records it yields up
    to its first error, and the family it captured. *)
Fixpoint row_records (family : option QueueFamily) (rows : list bytes)
  : list (result EncodingError (Z * bytes)) * option QueueFamily :=
  match rows with
  | [] => ([], family)
  | row :: rows =>
      match row_split row with
      | Err e => ([Err e], family)
      | Ok (row_family, id, body) =>
          let family := match family with Some f => f | None => row_family end in
          if bool_decide (family = row_family) then
            let '(records, final) := row_records (Some family) rows in
            (Ok (id, body) :: records, final)
          else ([Err (Custom "queued operation rows mix families")], Some family)
      end
  end.

(** [LatestOperations::decode_rows]: [Ok None] is the panic, [Ok (Some None)]
    no rows. *)
Definition latest_decode_rows (rows : list bytes) (budget : Z)
  : result EncodingError (option (option LatestOperations)) :=
  let '(records, family) := row_records None rows in
  let? selection := select_latest records budget in
  match selection, family with
  | None, _ => Ok None
  | Some _, None => Ok (Some None)
  | Some (selected, refused), Some family =>
      result_map (fun l => Some (Some l)) (decode_selected family selected refused)
  end.

(** ** Well-formed operations

    What the Rust types and constructors guarantee of a queued operation:
    identifiers below bit 127, 64-bit entity IDs, partitions accepted by
    [try_tenant_value], non-empty finite vectors, UTF-8 text, and bodies
    whose length is a [u64]. *)

Definition partition_ok (p : TextPartition) : Prop :=
  match p with
  | Unpartitioned => True
  | TenantValue v => bytes_ok v /\ 1 <= blen v <= MAX_PARTITION_LEN
  end.
Definition vector_ok (v : list Z) : Prop :=
  v <> [] /\ Forall (fun x => in_u 32 x /\ f32_is_finite x = true) v /\ in_u 62 (blen v).
Definition payload_ok (p : QueuedPayload) : Prop :=
  match p with
  | VectorPayload p =>
      match vp_previous p with Some q => partition_ok q | None => True end /\
      match vp_replacement p with
      | Some r => partition_ok (vr_partition r) /\ vector_ok (vr_vector r)
      | None => True
      end
  | TextPayload p =>
      match tp_replacement p with
      | Some r => partition_ok (tr_partition r) /\ str_ok (tr_text r) /\ in_u 64 (blen (tr_text r))
      | None => True
      end
  end.
Definition id_ok (id : Z) : Prop := in_u 127 id.
Definition op_ok (o : QueuedOperation) : Prop :=
  id_ok (op_id o) /\ in_u 64 (entity_id (op_entity o)) /\ payload_ok (op_payload o) /\
  in_u 64 (body_encoded_len o).

(** ** Fields *)

Definition partition_tag (p : TextPartition) : Z :=
  match p with Unpartitioned => 0x01 | TenantValue _ => 0x02 end.
Definition partition_rest (p : TextPartition) : bytes :=
  match p with Unpartitioned => [] | TenantValue v => put_varint (blen v) ++ v end.

Lemma put_partition_split p : put_partition p = partition_tag p :: partition_rest p.
Proof. by destruct p. Qed.

Lemma partition_len_u64 v : 1 <= blen v <= MAX_PARTITION_LEN -> in_u 64 (blen v).
Proof. unfold in_u, MAX_PARTITION_LEN. change (2 ^ 64) with 18446744073709551616. lia. Qed.

Lemma blen_put_partition p : partition_ok p -> blen (put_partition p) = partition_encoded_len p.
Proof.
  destruct p as [|v]; [done|]. intros [_ Hl%partition_len_u64].
  cbn [put_partition partition_encoded_len]. autorewrite with bytes_len.
  rewrite blen_put_varint by done. lia.
Qed.

Lemma take_put_partition p c :
  partition_ok p -> take_partition_body (partition_tag p) (partition_rest p ++ c) = Ok (p, c).
Proof.
  destruct p as [|v]; [done|]. intros [_ Hl].
  unfold take_partition_body, partition_tag, partition_rest. cbn [Z.eqb Pos.eqb].
  rewrite <- app_assoc, take_put_varint by by apply partition_len_u64. bind_simpl.
  rewrite (proj2 (Z.ltb_ge _ _)) by lia. rewrite take_raw_app. bind_simpl.
  unfold try_tenant_value. rewrite (proj2 (Z.eqb_neq _ _)) by lia.
  rewrite (proj2 (Z.ltb_ge _ _)) by (unfold MAX_LENGTH_DELIMITED_FIELD, MAX_PARTITION_LEN in *; lia).
  done.
Qed.

Lemma take_partition_inv tag c p c' :
  bytes_ok c -> take_partition_body tag c = Ok (p, c') ->
  partition_ok p /\ tag = partition_tag p /\ c = partition_rest p ++ c'.
Proof.
  intros Hc. unfold take_partition_body.
  destruct (Z.eqb_spec tag 1) as [->|]; [by intros [= <- <-]|].
  destruct (Z.eqb_spec tag 2) as [->|]; [|done].
  intros H. apply result_bind_ok in H as ([len c1] & E & H).
  apply take_varint_inv in E as [Hlen ->]; [|done]. apply Forall_app in Hc as [_ Hc].
  destruct (Z.ltb_spec MAX_PARTITION_LEN len); [done|].
  apply result_bind_ok in H as ([v c2] & E & H).
  apply take_raw_ok in E as [-> Hv]; [|apply Hlen]. apply Forall_app in Hc as [Hv' _].
  unfold try_tenant_value in H. destruct (Z.eqb_spec (blen v) 0); [done|].
  destruct (Z.ltb_spec MAX_LENGTH_DELIMITED_FIELD (blen v)); [done|].
  injection H as <- <-. cbn [partition_ok partition_tag partition_rest].
  rewrite <- app_assoc, Hv. pose proof (blen_nonneg v). split_and!; auto; lia.
Qed.

(** Skipping a partition accepts what decoding it accepts. *)
Lemma skip_partition_agrees tag c :
  bytes_ok c ->
  match take_partition_body tag c with
  | Ok (_, c') => skip_partition_body tag c = Ok c'
  | Err _ => exists e, skip_partition_body tag c = Err e
  end.
Proof.
  intros Hc. unfold take_partition_body, skip_partition_body.
  destruct (tag =? 1); [done|]. destruct (tag =? 2); [|eauto].
  destruct (take_varint c) as [[len c1]|e] eqn:E; bind_simpl; [|eauto].
  apply take_varint_inv in E as [[Hlen _] _]; [|done].
  destruct (Z.ltb_spec MAX_PARTITION_LEN len).
  { rewrite orb_true_r. eauto. }
  rewrite orb_false_r. destruct (take_raw len c1) as [[v c2]|e] eqn:E; bind_simpl.
  - apply take_raw_ok in E as [_ <-]; [|done].
    unfold try_tenant_value. destruct (Z.eqb_spec (blen v) 0); [eauto|].
    destruct (Z.ltb_spec MAX_LENGTH_DELIMITED_FIELD (blen v)); [|done].
    unfold MAX_LENGTH_DELIMITED_FIELD, MAX_PARTITION_LEN in *; lia.
  - destruct (Z.eqb_spec len 0); eauto.
Qed.

Lemma take_entity_put k i c :
  in_u 64 i ->
  take_entity (element_kind_u8 k :: put_varint i ++ c) = Ok ({| kind := k; entity_id := i |}, c).
Proof.
  intros Hi. unfold take_entity. rewrite take_u8_cons. bind_simpl.
  destruct k; cbn [element_kind_u8 Z.eqb Pos.eqb result_bind]; by rewrite take_put_varint.
Qed.

Lemma take_entity_inv c e c' :
  bytes_ok c -> take_entity c = Ok (e, c') ->
  in_u 64 (entity_id e) /\ c = element_kind_u8 (kind e) :: put_varint (entity_id e) ++ c'.
Proof.
  intros Hc H. unfold take_entity in H.
  apply result_bind_ok in H as ([tag c1] & E & H). apply take_u8_ok in E as ->.
  apply Forall_cons in Hc as [_ Hc].
  apply result_bind_ok in H as (k & Ek & H).
  apply result_bind_ok in H as ([i c2] & E & [= <- <-]).
  apply take_varint_inv in E as [Hi ->]; [|done]. cbn [kind entity_id]. split; [done|]. f_equal.
  destruct (Z.eqb_spec tag 1) as [->|]; [by injection Ek as <-|].
  destruct (Z.eqb_spec tag 2) as [->|]; [by injection Ek as <-|done].
Qed.

(** ** Vector components *)

Lemma chunks4_flat v rest :
  Forall (in_u 32) v -> (length rest < 4)%nat -> chunks4 (flat_map (to_be 4) v ++ rest) = v.
Proof.
  intros Hv Hr. induction Hv as [|x v Hx _ IH].
  - by destruct rest as [|? [|? [|? [|? ?]]]]; simpl in *; try done; lia.
  - cbn [flat_map]. rewrite <- app_assoc.
    assert (of_be (to_be 4 x) = x) as Hof by (by apply of_to_be).
    destruct (to_be 4 x) as [|a [|b [|c [|d [|]]]]] eqn:E;
      try (apply (f_equal length) in E; rewrite length_to_be in E; done).
    cbn [app chunks4]. by rewrite IH, Hof.
Qed.

Lemma flat_chunks4 n l :
  length l = (4 * n)%nat -> bytes_ok l ->
  flat_map (to_be 4) (chunks4 l) = l /\ length (chunks4 l) = n /\ Forall (in_u 32) (chunks4 l).
Proof.
  revert l; induction n as [|n IH]; intros l Hl Hok.
  { by destruct l. }
  destruct l as [|a [|b [|c [|d l]]]]; try (simpl in Hl; lia).
  assert (bytes_ok [a; b; c; d] /\ bytes_ok l) as [H4 Hl4].
  { rewrite !Forall_cons in Hok. rewrite !Forall_cons. intuition. }
  destruct (IH l) as (E1 & E2 & E3); [simpl in Hl; lia|done|].
  cbn [chunks4 flat_map]. rewrite E1. cbn [length]. rewrite E2. split_and!; [|done|].
  - change 4%nat with (length [a; b; c; d]). rewrite to_of_be by done. done.
  - constructor; [|done]. by apply (of_be_bound [a; b; c; d]).
Qed.

Lemma position_from_none {A} (f : A -> bool) i l :
  position_from f i l = None <-> existsb f l = false.
Proof.
  revert i; induction l as [|x l IH]; intros i; cbn [position_from existsb]; [done|].
  destruct (f x); [done|]. apply IH.
Qed.

Lemma finite_forall v :
  existsb (fun x => negb (f32_is_finite x)) v = false <-> Forall (fun x => f32_is_finite x = true) v.
Proof.
  induction v as [|x v IH]; cbn [existsb]; [by split|].
  rewrite orb_false_iff, Forall_cons, IH, negb_false_iff. done.
Qed.

Lemma vector_try_new_ok p v r :
  vector_try_new p v = Ok r <->
  v <> [] /\ Forall (fun x => f32_is_finite x = true) v /\ r = {| vr_partition := p; vr_vector := v |}.
Proof.
  unfold vector_try_new. destruct v as [|x v]; [split; [done | by intros (? & _)]|].
  destruct (position_from _ 0 (x :: v)) eqn:E.
  - split; [done|]. intros (_ & H & _). apply finite_forall, (position_from_none _ 0) in H. congruence.
  - apply position_from_none, finite_forall in E. split; [intros [= <-] | intros (_ & _ & ->)]; done.
Qed.

Lemma length_flat_to_be n v : length (flat_map (to_be n) v) = (n * length v)%nat.
Proof.
  induction v as [|x v IH]; cbn [flat_map length]; [lia|].
  rewrite length_app, length_to_be, IH. lia.
Qed.

Lemma blen_flat4 v : blen (flat_map (to_be 4) v) = blen v * F32_LEN.
Proof. unfold blen, F32_LEN. rewrite length_flat_to_be. lia. Qed.

Lemma flat_to_be_ok n v : bytes_ok (flat_map (to_be n) v).
Proof. induction v; cbn [flat_map]; [done|]. apply Forall_app; auto using to_be_ok. Qed.

Lemma vector_len_u64 v : vector_ok v -> in_u 64 (blen v).
Proof.
  intros (_ & _ & H). unfold in_u in *. change (2 ^ 64) with (4 * 2 ^ 62). lia.
Qed.

(** ** Payload round trips *)

Lemma decode_vector_put p c :
  payload_ok (VectorPayload p) ->
  decode_vector (put_payload (VectorPayload p) ++ c) = Ok (p, c).
Proof.
  destruct p as [prev repl]. cbn [payload_ok vp_previous vp_replacement put_payload].
  intros [Hprev Hrepl]. unfold decode_vector.
  assert (forall k, result_bind (take_u8 ((match prev with Some q => put_partition q
      | None => [0] end) ++ k)) (fun '(tag, c0) =>
    if tag =? 0 then Ok (None, c0)
    else let? (partition, c1) := take_partition_body tag c0 in Ok (Some partition, c1)) = Ok (prev, k)) as Hp.
  { intros k. destruct prev as [q|]; cbn [app]; [|by rewrite take_u8_cons].
    rewrite put_partition_split. cbn [app]. rewrite take_u8_cons. bind_simpl.
    replace (partition_tag q =? 0) with false by (by destruct q).
    by rewrite take_put_partition. }
  rewrite <- app_assoc. specialize (Hp ((match repl with
    | Some r => 1 :: put_partition (vr_partition r) ++ put_varint (blen (vr_vector r))
                ++ flat_map (to_be 4) (vr_vector r)
    | None => [0] end) ++ c)).
  destruct (take_u8 _) as [[tag c0]|]; [|done]. bind_simpl. cbn [result_bind] in Hp.
  destruct (if tag =? 0 then _ else _) as [[previous c1]|]; [|done].
  injection Hp as -> ->. bind_simpl.
  destruct repl as [[q v]|]; [|by cbn [app]; rewrite take_u8_cons].
  cbn [vr_partition vr_vector] in *. destruct Hrepl as [Hq Hv].
  cbn [app]. rewrite take_u8_cons. bind_simpl. cbn [Z.eqb Pos.eqb].
  rewrite put_partition_split. cbn [app]. rewrite take_u8_cons. bind_simpl.
  rewrite <- !app_assoc, take_put_partition by done. bind_simpl.
  rewrite take_put_varint by by apply vector_len_u64. bind_simpl.
  rewrite blen_app, blen_flat4. pose proof (blen_nonneg c).
  rewrite (proj2 (Z.ltb_ge _ _)) by (apply Z.div_le_lower_bound; unfold F32_LEN; lia).
  rewrite <- blen_flat4, take_raw_app. bind_simpl. destruct Hv as (Hne & Hf & _).
  rewrite <- (app_nil_r (flat_map _ _)), chunks4_flat;
    [|by eapply Forall_impl; [done|intros ? []]|simpl; lia].
  rewrite (proj2 (vector_try_new_ok q v {| vr_partition := q; vr_vector := v |})); [done|].
  split_and!; [done| |done]. by eapply Forall_impl; [done|intros ? []].
Qed.

Lemma decode_text_put p c :
  payload_ok (TextPayload p) -> decode_text (put_payload (TextPayload p) ++ c) = Ok (p, c).
Proof.
  destruct p as [repl]. cbn [payload_ok tp_replacement put_payload].
  intros Hr. unfold decode_text. destruct repl as [[q t]|]; cbn [app]; rewrite take_u8_cons; [|done].
  cbn [tr_partition tr_text] in *. destruct Hr as (Hq & [_ Ht] & Hl). bind_simpl. cbn [Z.eqb Pos.eqb].
  rewrite put_partition_split. cbn [app]. rewrite take_u8_cons. bind_simpl.
  rewrite <- !app_assoc, take_put_partition by done. bind_simpl.
  rewrite take_put_varint by done. bind_simpl. rewrite take_raw_app. bind_simpl.
  unfold from_utf8. by rewrite Ht.
Qed.

Lemma decode_vector_inv c p c' :
  bytes_ok c -> blen c < 2 ^ 64 -> decode_vector c = Ok (p, c') ->
  payload_ok (VectorPayload p) /\ c = put_payload (VectorPayload p) ++ c'.
Proof.
  intros Hc Hlen H. unfold decode_vector in H.
  apply result_bind_ok in H as ([tag c1] & E & H). apply take_u8_ok in E as ->.
  apply Forall_cons in Hc as [_ Hc]. rewrite blen_cons in Hlen.
  apply result_bind_ok in H as ([prev c2] & E & H).
  assert (match prev with Some q => partition_ok q | None => True end /\
    tag :: c1 = match prev with Some q => put_partition q | None => [0] end ++ c2) as [Hprev Hc1].
  { destruct (Z.eqb_spec tag 0) as [->|]; [by injection E as <- <-|].
    apply result_bind_ok in E as ([q c3] & E & [= <- <-]).
    apply take_partition_inv in E as (Hq & -> & ->); [|done].
    by rewrite put_partition_split. }
  assert (bytes_ok c2 /\ blen c2 < 2 ^ 64) as [Hc2 Hlen2].
  { assert (bytes_ok (tag :: c1) \/ True) as _ by by right.
    destruct prev as [q|].
    - rewrite put_partition_split in Hc1. injection Hc1 as -> ->.
      apply Forall_app in Hc as [_ Hc]. rewrite blen_app in Hlen.
      pose proof (blen_nonneg (partition_rest q)). split; [done|lia].
    - injection Hc1 as -> ->. split; [done|lia]. }
  rewrite Hc1. clear E Hc1 Hc Hlen c1 tag.
  apply result_bind_ok in H as ([tag c3] & E & H). apply take_u8_ok in E as ->.
  apply Forall_cons in Hc2 as [_ Hc]. rewrite blen_cons in Hlen2.
  cbn [payload_ok put_payload].
  destruct (Z.eqb_spec tag 0) as [->|].
  { injection H as <- <-. cbn [vp_previous vp_replacement]. by rewrite <- app_assoc. }
  destruct (Z.eqb_spec tag 1) as [->|]; [|done].
  apply result_bind_ok in H as ([tag c4] & E & H). apply take_u8_ok in E as ->.
  apply Forall_cons in Hc as [_ Hc].
  apply result_bind_ok in H as ([q c5] & E & H).
  apply take_partition_inv in E as (Hq & -> & ->); [|done]. apply Forall_app in Hc as [_ Hc].
  apply result_bind_ok in H as ([dim c6] & E & H).
  apply take_varint_inv in E as [Hd ->]; [|done]. apply Forall_app in Hc as [_ Hc].
  destruct (Z.ltb_spec (blen c6 / F32_LEN) dim); [done|].
  apply result_bind_ok in H as ([raw c7] & E & H).
  apply take_raw_ok in E as [-> Hraw]; [|unfold F32_LEN, in_u in *; lia].
  apply Forall_app in Hc as [Hraw' _].
  apply result_bind_ok in H as (r & E & [= <- <-]).
  apply vector_try_new_ok in E as (Hne & Hfin & ->).
  destruct (flat_chunks4 (Z.to_nat dim) raw) as (E1 & E2 & E3); [|done|].
  { unfold blen, F32_LEN, in_u in *. lia. }
  cbn [vp_previous vp_replacement vr_partition vr_vector].
  assert (blen (chunks4 raw) = dim) as Hdim by (unfold blen, in_u in *; lia).
  split; [split_and!; [done..|]|].
  - split_and!; [done| |].
    + apply Forall_and. done.
    + rewrite Hdim. autorewrite with bytes_len in Hlen2.
      repeat match type of Hlen2 with context [blen ?l] =>
        lazymatch goal with H : 0 <= blen l |- _ => fail | _ => pose proof (blen_nonneg l) end end.
      unfold in_u, F32_LEN in *. change (2 ^ 64) with (4 * 2 ^ 62) in Hlen2. lia.
  - rewrite Hdim, E1, put_partition_split. repeat (cbn [app]; rewrite <- app_assoc). done.
Qed.

Lemma decode_text_inv c p c' :
  bytes_ok c -> decode_text c = Ok (p, c') ->
  payload_ok (TextPayload p) /\ c = put_payload (TextPayload p) ++ c'.
Proof.
  intros Hc H. unfold decode_text in H.
  apply result_bind_ok in H as ([tag c1] & E & H). apply take_u8_ok in E as ->.
  apply Forall_cons in Hc as [_ Hc]. cbn [payload_ok put_payload].
  destruct (Z.eqb_spec tag 0) as [->|]; [by injection H as <- <-|].
  destruct (Z.eqb_spec tag 1) as [->|]; [|done].
  apply result_bind_ok in H as ([tag c2] & E & H). apply take_u8_ok in E as ->.
  apply Forall_cons in Hc as [_ Hc].
  apply result_bind_ok in H as ([q c3] & E & H).
  apply take_partition_inv in E as (Hq & -> & ->); [|done]. apply Forall_app in Hc as [_ Hc].
  apply result_bind_ok in H as ([len c4] & E & H).
  apply take_varint_inv in E as [Hl ->]; [|done]. apply Forall_app in Hc as [_ Hc].
  apply result_bind_ok in H as ([raw c5] & E & H).
  apply take_raw_ok in E as [-> Hraw]; [|apply Hl]. apply Forall_app in Hc as [Hraw' _].
  apply result_bind_ok in H as (t & E & [= <- <-]). unfold from_utf8 in E.
  destruct (utf8_valid raw) eqn:Hutf; [|done]. injection E as <-.
  cbn [tp_replacement tr_partition tr_text]. rewrite Hraw, put_partition_split. split; [done|].
  repeat (cbn [app]; rewrite <- app_assoc). done.
Qed.

Lemma blen_put_body o :
  in_u 64 (entity_id (op_entity o)) -> payload_ok (op_payload o) ->
  blen (put_body o) = body_encoded_len o.
Proof.
  destruct o as [id [k i] p]. cbn [op_entity entity_id op_payload]. intros Hi Hp.
  unfold put_body, body_encoded_len. cbn [op_entity entity_id op_payload kind].
  autorewrite with bytes_len. rewrite blen_put_varint by done.
  unfold KIND_LEN, F32_LEN in *.
  destruct p as [[prev repl]|[repl]];
    cbn [payload_ok put_payload vp_previous vp_replacement tp_replacement] in *.
  - destruct Hp as [Hprev Hrepl]. rewrite blen_app.
    assert (blen match prev with Some q => put_partition q | None => [0] end =
      match prev with Some q => partition_encoded_len q | None => 1 end) as ->.
    { destruct prev; [by apply blen_put_partition|done]. }
    destruct repl as [r|].
    + destruct Hrepl as [Hq Hv]. pose proof (vector_len_u64 _ Hv).
      autorewrite with bytes_len. rewrite blen_put_partition, blen_put_varint, blen_flat4 by done.
      unfold F32_LEN. destruct prev; lia.
    + change (blen [0]) with 1. destruct prev; lia.
  - destruct repl as [r|].
    + destruct Hp as (Hq & Ht & Hl). autorewrite with bytes_len.
      rewrite blen_put_partition, blen_put_varint by done. lia.
    + change (blen [0]) with 1. lia.
Qed.

(** Every body is at least three bytes, so an operation retains at least
    [MIN_RETAINED_RECORD_LEN] bytes. *)
Lemma body_encoded_len_min o :
  in_u 64 (entity_id (op_entity o)) -> payload_ok (op_payload o) -> 3 <= body_encoded_len o.
Proof.
  destruct o as [id [k i] p]. cbn [op_entity entity_id op_payload]. intros Hi Hp.
  rewrite <- blen_put_body by done. unfold put_body. cbn [op_entity entity_id op_payload kind].
  autorewrite with bytes_len. rewrite blen_put_varint by done.
  pose proof (varint_len_bound i Hi).
  assert (1 <= blen (put_payload p)); [|lia].
  assert (forall b l, 1 <= blen (b :: l)) as Hc.
  { intros b l. rewrite blen_cons. pose proof (blen_nonneg l). lia. }
  destruct p as [[prev repl]|[repl]]; cbn [put_payload vp_previous vp_replacement tp_replacement].
  - rewrite blen_app. assert (1 <= blen match repl with
      | Some r => 1 :: put_partition (vr_partition r) ++ put_varint (blen (vr_vector r))
                  ++ flat_map (to_be 4) (vr_vector r)
      | None => [0] end) by (destruct repl; [apply Hc|done]).
    pose proof (blen_nonneg match prev with Some q => put_partition q | None => [0] end). lia.
  - destruct repl; [apply Hc|done].
Qed.

(** ** [decode_body] is the inverse of [put_body] *)

Lemma decode_put_body o :
  op_ok o -> decode_body (payload_family (op_payload o)) (op_id o) (put_body o) = Ok o.
Proof.
  destruct o as [id [k i] p]. intros (_ & Hi & Hp & _). cbn [op_entity entity_id op_payload op_id] in *.
  unfold decode_body, put_body. cbn [op_entity entity_id op_payload kind].
  rewrite take_entity_put by done. bind_simpl.
  rewrite <- (app_nil_r (put_payload p)).
  destruct p as [p|p]; cbn [payload_family];
    [rewrite decode_vector_put by done | rewrite decode_text_put by done]; done.
Qed.

Lemma decode_body_inv fam id body o :
  bytes_ok body -> in_u 64 (blen body) -> id_ok id -> decode_body fam id body = Ok o ->
  op_ok o /\ payload_family (op_payload o) = fam /\ op_id o = id /\ put_body o = body.
Proof.
  intros Hb Hl Hid H. unfold decode_body in H.
  apply result_bind_ok in H as ([e c1] & E & H).
  apply take_entity_inv in E as [He ->]; [|done].
  apply Forall_cons in Hb as [_ [_ Hc]%Forall_app].
  apply result_bind_ok in H as ([p c2] & E & H).
  apply result_bind_ok in H as ([] & Ef & [= <-]). apply finish_ok in Ef as ->.
  assert (payload_ok p /\ payload_family p = fam /\ c1 = put_payload p) as (Hp & Hf & ->).
  { assert (blen c1 < 2 ^ 64).
    { unfold in_u in Hl. rewrite blen_cons, blen_app in Hl.
      pose proof (blen_nonneg (put_varint (entity_id e))). lia. }
    destruct fam; apply result_bind_ok in E as ([q c3] & E & [= <- ->]).
    - apply decode_vector_inv in E as [? ->]; [|done..]. by rewrite app_nil_r.
    - apply decode_text_inv in E as [? ->]; [|done..]. by rewrite app_nil_r. }
  cbn [op_payload op_id]. split_and!; [split_and!; try done|done..].
  rewrite <- blen_put_body by done. done.
Qed.

(** ** [validate_body] accepts what [decode_body] accepts *)

(** [v] succeeds exactly when [r] does, with the projection [f] of its value;
    the errors may differ. *)
Definition agrees {A B} (f : A -> B) (r : result EncodingError A) (v : result EncodingError B)
  : Prop :=
  match r with
  | Ok a => v = Ok (f a)
  | Err _ => exists e, v = Err e
  end.

Lemma agrees_refl {A} (r : result EncodingError A) : agrees id r r.
Proof. destruct r; simpl; eauto. Qed.

Lemma agrees_bind {A B C D} (f : A -> B) (g : C -> D) r v k k' :
  agrees f r v -> (forall a, r = Ok a -> agrees g (k a) (k' (f a))) ->
  agrees g (result_bind r k) (result_bind v k').
Proof.
  unfold agrees at 1. destruct r as [a|e]; [intros -> H; by apply H|].
  intros [e' ->] _. simpl. eauto.
Qed.

Lemma agrees_same {A C D} (g : C -> D) (r : result EncodingError A) k k' :
  (forall a, r = Ok a -> agrees g (k a) (k' a)) ->
  agrees g (result_bind r k) (result_bind r k').
Proof. apply (agrees_bind id), agrees_refl. Qed.

(** Consuming a well-formed cursor leaves a well-formed cursor. *)
Lemma take_u8_rest c b c' : bytes_ok c -> take_u8 c = Ok (b, c') -> bytes_ok c'.
Proof. intros Hc ->%take_u8_ok. by apply Forall_cons in Hc as [_ ?]. Qed.
Lemma take_varint_rest c v c' : bytes_ok c -> take_varint c = Ok (v, c') -> bytes_ok c'.
Proof. intros Hc [_ ->]%take_varint_inv; [|done]. by apply Forall_app in Hc as [_ ?]. Qed.
Lemma take_partition_rest tag c p c' :
  bytes_ok c -> take_partition_body tag c = Ok (p, c') -> bytes_ok c'.
Proof. intros Hc (_ & _ & ->)%take_partition_inv; [|done]. by apply Forall_app in Hc as [_ ?]. Qed.

Lemma skip_partition_agrees' tag c :
  bytes_ok c -> agrees snd (take_partition_body tag c) (skip_partition_body tag c).
Proof.
  intros Hc. pose proof (skip_partition_agrees tag c Hc).
  unfold agrees. by destruct (take_partition_body tag c) as [[]|].
Qed.

Lemma validate_vector_agrees c :
  bytes_ok c -> agrees snd (decode_vector c) (validate_vector c).
Proof.
  intros Hc. unfold decode_vector, validate_vector.
  apply agrees_same. intros [tag c1] H1. apply take_u8_rest in H1; [|done].
  apply (agrees_bind snd).
  { destruct (tag =? 0); [done|].
    pose proof (skip_partition_agrees' tag c1 H1) as H. unfold agrees in *.
    by destruct (take_partition_body tag c1) as [[]|]. }
  intros [prev c2] H2. cbn [snd].
  assert (bytes_ok c2) as Hc2.
  { destruct (tag =? 0); [by injection H2 as _ <-|].
    apply result_bind_ok in H2 as ([q c3] & E & [= _ <-]). by eapply take_partition_rest. }
  apply agrees_same. intros [tag' c3] H3. apply take_u8_rest in H3; [|done].
  destruct (tag' =? 0); [done|]. destruct (tag' =? 1); [|simpl; eauto].
  apply agrees_same. intros [tag'' c4] H4. apply take_u8_rest in H4; [|done].
  apply (agrees_bind snd); [by apply skip_partition_agrees'|].
  intros [q c5] H5. apply take_partition_rest in H5; [|done]. cbn [snd].
  apply agrees_same. intros [dim c6] H6. apply take_varint_inv in H6 as [Hd ->]; [|done].
  apply Forall_app in H5 as [_ Hc6]. unfold in_u in Hd.
  destruct (Z.ltb_spec (blen c6 / F32_LEN) dim) as [Hshort|Hfit].
  { destruct (Z.eqb_spec dim 0) as [->|]; [|simpl; eauto]. simpl; eauto. }
  destruct (Z.eqb_spec dim 0) as [->|Hd0].
  { change (0 * F32_LEN) with (blen []). change c6 with ([] ++ c6). rewrite take_raw_app.
    simpl. eauto. }
  apply agrees_same. intros [raw c7] H7. apply take_raw_ok in H7 as [-> Hraw];
    [|unfold F32_LEN in *; lia].
  apply Forall_app in Hc6 as [Hraw' _].
  assert (exists n, length raw = (4 * S n)%nat) as [n Hn].
  { exists (Z.to_nat (dim - 1)). unfold blen, F32_LEN in *. lia. }
  destruct (flat_chunks4 (S n) raw Hn Hraw') as (_ & Hlen & _).
  unfold vector_try_new. destruct (chunks4 raw) as [|x v]; [done|].
  destruct (position_from _ 0 (x :: v)) eqn:E.
  - destruct (existsb _ _) eqn:E'; [simpl; eauto|].
    apply (position_from_none _ 0) in E'. congruence.
  - by apply position_from_none in E as ->.
Qed.

Lemma validate_text_agrees c :
  bytes_ok c -> agrees snd (decode_text c) (validate_text c).
Proof.
  intros Hc. unfold decode_text, validate_text.
  apply agrees_same. intros [tag c1] H1. apply take_u8_rest in H1; [|done].
  destruct (tag =? 0); [done|]. destruct (tag =? 1); [|simpl; eauto].
  apply agrees_same. intros [tag'' c4] H4. apply take_u8_rest in H4; [|done].
  apply (agrees_bind snd); [by apply skip_partition_agrees'|].
  intros [q c5] H5. cbn [snd].
  apply agrees_same. intros [len c6] H6. apply agrees_same. intros [raw c7] H7.
  by apply agrees_same.
Qed.

Lemma validate_body_agrees fam id body :
  bytes_ok body -> agrees (fun _ => tt) (decode_body fam id body) (validate_body fam body).
Proof.
  intros Hb. unfold decode_body, validate_body, take_entity.
  destruct (take_u8 body) as [[tag c]|] eqn:E; bind_simpl; [|simpl; eauto].
  apply take_u8_rest in E; [|done].
  assert (forall k, agrees (fun _ : QueuedOperation => tt)
    (let? (entity, c) := (let? (i, c) := take_varint c in
       Ok ({| kind := k; entity_id := i |}, c)) in
     let? (payload, c) := match fam with
       | Vector => let? (p, c) := decode_vector c in Ok (VectorPayload p, c)
       | Text => let? (p, c) := decode_text c in Ok (TextPayload p, c) end in
     let? _ := finish "queued operation body" c in
     Ok {| op_id := id; op_entity := entity; op_payload := payload |})
    (let? (_, c) := take_varint c in
     let? c := match fam with Vector => validate_vector c | Text => validate_text c end in
     finish "queued operation body" c)) as Hk.
  { intros k. destruct (take_varint c) as [[i c1]|] eqn:Ev; bind_simpl; [|simpl; eauto].
    apply take_varint_rest in Ev; [|done]. apply (agrees_bind snd).
    { pose proof (validate_vector_agrees c1 Ev). pose proof (validate_text_agrees c1 Ev).
      unfold agrees in *. destruct fam;
        [destruct (decode_vector c1) as [[]|] | destruct (decode_text c1) as [[]|]]; done. }
    intros [p c2] _. cbn [snd]. destruct (finish _ c2) as [[]|]; simpl; eauto. }
  destruct (tag =? 1); [apply Hk|]. destruct (tag =? 2); [apply Hk|]. simpl. eauto.
Qed.

(** ** Records of a resolved value *)

Lemma try_from_u128_ok v id : in_u 128 v -> try_from_u128 v = Ok id <-> id_ok v /\ id = v.
Proof.
  unfold in_u, id_ok, in_u, try_from_u128, OPERATION_TOKEN_BIT. intros Hv.
  assert (Z.land v (Z.shiftl 1 127) = 0 <-> v < 2 ^ 127) as H.
  { rewrite Z.land_comm. split; intros Hl.
    - destruct (Z.lt_ge_cases v (2 ^ 127)); [done|].
      assert (Z.testbit (Z.land (Z.shiftl 1 127) v) 127 = true) as Hb; [|by rewrite Hl in Hb].
      rewrite Z.land_spec, Z.shiftl_spec by lia. change (Z.testbit 1 (127 - 127)) with true. cbn [andb]. rewrite Z.testbit_true by lia.
      assert (v / 2 ^ 127 = 1) as ->; [|done].
      symmetry. apply Z.div_unique with (v - 2 ^ 127); lia.
    - apply land_disjoint; lia. }
  destruct (Z.eqb_spec (Z.land v (Z.shiftl 1 127)) 0); cbn [negb].
  - split; [intros [= <-]; split; [lia|done] | by intros [_ ->]].
  - split; [done|]. intros [? _]. exfalso. apply n, H. lia.
Qed.

Lemma take_operation_id_put id c : id_ok id -> take_operation_id (to_be 16 id ++ c) = Ok (id, c).
Proof.
  intros Hid. unfold take_operation_id. change OPERATION_ID_LEN with (Z.of_nat 16).
  rewrite <- (blen_to_be 16 id), take_raw_app. bind_simpl.
  assert (in_u 128 id) by (unfold id_ok, in_u in *; change (2 ^ 128) with (2 * 2 ^ 127); lia).
  rewrite of_to_be by done. by rewrite (proj2 (try_from_u128_ok id id ltac:(done))).
Qed.

Lemma take_operation_id_inv c id c' :
  bytes_ok c -> take_operation_id c = Ok (id, c') -> id_ok id /\ c = to_be 16 id ++ c'.
Proof.
  intros Hc H. unfold take_operation_id in H.
  apply result_bind_ok in H as ([raw c1] & E & H).
  apply take_raw_ok in E as [-> Hl]; [|done]. apply Forall_app in Hc as [Hr _].
  apply result_bind_ok in H as (i & E & [= <- <-]).
  assert (length raw = 16%nat) as H16 by (unfold blen, OPERATION_ID_LEN in Hl; lia).
  pose proof (of_be_bound raw Hr) as Hb. rewrite H16 in Hb.
  apply try_from_u128_ok in E as [Hi ->]; [|done]. split; [done|].
  rewrite <- H16. by rewrite to_of_be.
Qed.

Lemma mode_roundtrip m : mode_try_from_u8 (mode_u8 m) = Ok m.
Proof. by destruct m. Qed.

Lemma mode_inv v m : mode_try_from_u8 v = Ok m -> v = mode_u8 m.
Proof.
  unfold mode_try_from_u8. destruct (Z.eqb_spec v 1) as [->|]; [by intros [= <-]|].
  destruct (Z.eqb_spec v 2) as [->|]; [by intros [= <-]|done].
Qed.

Lemma family_roundtrip f : family_try_from_u8 (family_u8 f) = Ok f.
Proof. by destruct f. Qed.

Lemma parse_header_put f c : parse_header (put_header f ++ c) = Ok (f, c).
Proof. by destruct f. Qed.

Lemma parse_header_inv v f c : parse_header v = Ok (f, c) -> v = put_header f ++ c.
Proof.
  destruct v as [|a [|b [|d v]]]; try done. cbn [parse_header].
  destruct (Z.eqb_spec a QUEUE_VALUE_VERSION) as [->|]; [|done].
  destruct (Z.eqb_spec b QUEUE_VALUE_KIND) as [->|]; [|done].
  unfold family_try_from_u8. destruct (Z.eqb_spec d 1) as [->|]; [by intros [= <- <-]|].
  destruct (Z.eqb_spec d 2) as [->|]; [by intros [= <- <-]|done].
Qed.

Lemma bounded_count_put m n c :
  0 < m -> in_u 64 n -> n * m <= blen c -> bounded_count m (put_varint n ++ c) = Ok (n, c).
Proof.
  intros Hm Hn Hl. unfold bounded_count. rewrite take_put_varint by done. bind_simpl.
  rewrite (proj2 (Z.ltb_ge _ _)); [done|]. apply Z.div_le_lower_bound; lia.
Qed.

Lemma bounded_count_inv m c n c' :
  bytes_ok c -> bounded_count m c = Ok (n, c') -> in_u 64 n /\ c = put_varint n ++ c'.
Proof.
  intros Hc H. unfold bounded_count in H. apply result_bind_ok in H as ([k c1] & E & H).
  destruct (_ <? _); [done|]. injection H as <- <-. by apply take_varint_inv.
Qed.

Lemma put_insert_raw m o :
  op_ok o -> put_insert m o = put_raw_insert m (op_id o) (put_body o).
Proof.
  intros (_ & Hi & Hp & _). unfold put_insert, put_raw_insert. by rewrite blen_put_body.
Qed.

Lemma take_record_put m id body c :
  id_ok id -> in_u 64 (blen body) -> m = IfAbsent ->
  take_record (put_raw_insert m id body ++ c) = Ok ((id, body), c).
Proof.
  intros Hid Hl ->. unfold take_record, put_raw_insert. cbn [app]. rewrite take_u8_cons. bind_simpl.
  rewrite mode_roundtrip. bind_simpl. rewrite bool_decide_true by done.
  rewrite <- !app_assoc, take_operation_id_put by done. bind_simpl.
  rewrite take_put_varint by done. bind_simpl. by rewrite take_raw_app.
Qed.

Lemma take_record_inv c id body c' :
  bytes_ok c -> take_record c = Ok ((id, body), c') ->
  id_ok id /\ in_u 64 (blen body) /\ c = put_raw_insert IfAbsent id body ++ c'.
Proof.
  intros Hc H. unfold take_record in H.
  apply result_bind_ok in H as ([mb c1] & E & H). apply take_u8_ok in E as ->.
  apply Forall_cons in Hc as [_ Hc].
  apply result_bind_ok in H as (m & ->%mode_inv & H).
  destruct (bool_decide (m = IfAbsent)) eqn:Em; [|done]. apply bool_decide_eq_true in Em as ->.
  apply result_bind_ok in H as ([i c2] & E & H).
  apply take_operation_id_inv in E as [Hi ->]; [|done]. apply Forall_app in Hc as [_ Hc].
  apply result_bind_ok in H as ([l c3] & E & H).
  apply take_varint_inv in E as [Hl ->]; [|done]. apply Forall_app in Hc as [_ Hc].
  apply result_bind_ok in H as ([b c4] & E & [= <- <- <-]).
  apply take_raw_ok in E as [-> Hb]; [|apply Hl]. rewrite <- Hb in Hl. split_and!; [done..|].
  unfold put_raw_insert. rewrite Hb. by rewrite <- app_comm_cons, <- !app_assoc.
Qed.

Definition record_ok (r : Z * bytes) : Prop :=
  id_ok r.1 /\ bytes_ok r.2 /\ in_u 64 (blen r.2).
Definition put_record (r : Z * bytes) : bytes := put_raw_insert IfAbsent r.1 r.2.

Lemma records_from_put rs :
  Forall record_ok rs -> records_from (length rs) (flat_map put_record rs) = map Ok rs.
Proof.
  induction 1 as [|[id body] rs (Hid & _ & Hl) _ IH]; [done|].
  cbn [length flat_map records_from map]. unfold put_record at 1. cbn [fst snd] in *.
  rewrite take_record_put by done. by rewrite IH.
Qed.

Lemma records_from_inv n c :
  bytes_ok c -> Forall (fun r => match r with Ok r => record_ok r | Err _ => True end) (records_from n c).
Proof.
  revert c; induction n as [|n IH]; intros c Hc; cbn [records_from].
  { destruct (finish _ c); by constructor. }
  destruct (take_record c) as [[[id body] c']|e] eqn:E; [|by constructor].
  apply take_record_inv in E as (Hid & Hl & ->); [|done].
  apply Forall_app in Hc as [Hr Hc]. constructor; [|by apply IH].
  split_and!; [done| |done]. cbn [snd]. unfold put_raw_insert in Hr.
  by apply Forall_cons in Hr as [_ [_ [_ ?]%Forall_app]%Forall_app].
Qed.

Lemma resolved_records_inv v fam rs :
  bytes_ok v -> resolved_records v = Ok (fam, rs) ->
  Forall (fun r => match r with Ok r => record_ok r | Err _ => True end) rs.
Proof.
  intros Hv H. unfold resolved_records in H.
  apply result_bind_ok in H as ([f c] & ->%parse_header_inv & H).
  apply Forall_app in Hv as [_ Hc].
  apply result_bind_ok in H as ([n c1] & E & H).
  apply take_varint_rest in E; [|done]. destruct (n =? 0); [|done].
  apply result_bind_ok in H as ([k c2] & E' & H).
  apply bounded_count_inv in E' as [_ ->]; [|done]. apply Forall_app in E as [_ E].
  destruct (negb _); [|done]. injection H as _ <-. by apply records_from_inv.
Qed.

(** What [resolved_records] reads back of a written value. *)
Definition put_resolved (fam : QueueFamily) (rs : list (Z * bytes)) : bytes :=
  put_header fam ++ put_varint 0 ++ put_varint (Z.of_nat (length rs)) ++ flat_map put_record rs.

Lemma put_records_len rs :
  Forall record_ok rs -> Z.of_nat (length rs) * 18 <= blen (flat_map put_record rs).
Proof.
  induction 1 as [|[id b] rs (_ & _ & Hl) _ IH]; [done|].
  cbn [length flat_map]. unfold put_record at 1, put_raw_insert. cbn [fst snd] in *.
  autorewrite with bytes_len. rewrite blen_put_varint by done.
  pose proof (varint_len_bound _ Hl). pose proof (blen_nonneg b). lia.
Qed.

Lemma resolved_records_put fam rs :
  rs <> [] -> Forall record_ok rs -> in_u 64 (Z.of_nat (length rs)) ->
  resolved_records (put_resolved fam rs) = Ok (fam, map Ok rs).
Proof.
  intros Hne Hok Hn. unfold resolved_records, put_resolved.
  rewrite parse_header_put. bind_simpl. rewrite take_put_varint by done. bind_simpl.
  cbn [Z.eqb]. rewrite bounded_count_put; [|done|done|by apply put_records_len]. bind_simpl.
  destruct rs as [|r rs]; [done|]. rewrite (proj2 (Z.eqb_neq _ _)) by (cbn [length]; lia).
  cbn [negb]. by rewrite Nat2Z.id, records_from_put.
Qed.

(** ** Generic agreement of [decode_unique] *)

Lemma decode_each_agrees {A B} (f : A -> B) decode decode' ids rs :
  Forall (fun r => match r with Ok r => record_ok r | Err _ => True end) rs ->
  (forall id body, record_ok (id, body) -> agrees f (decode id body) (decode' id body)) ->
  agrees (map f) (decode_each decode ids rs) (decode_each decode' ids rs).
Proof.
  intros Hok Hd. revert ids. induction Hok as [|r rs Hr _ IH]; intros ids; [done|].
  cbn [decode_each]. destruct r as [[id body]|e]; bind_simpl; [|simpl; eauto].
  destruct (negb _); [|simpl; eauto].
  apply (agrees_bind f); [by apply Hd|]. intros a _.
  apply (agrees_bind (map f)); [apply IH|]. intros rest _. done.
Qed.

Lemma decode_unique_agrees {A B} (f : A -> B) decode decode' value :
  bytes_ok value ->
  (forall fam id body, record_ok (id, body) -> agrees f (decode fam id body) (decode' fam id body)) ->
  agrees (fun r => (r.1, map f r.2)) (decode_unique value decode) (decode_unique value decode').
Proof.
  intros Hv Hd. unfold decode_unique. apply agrees_same. intros [fam rs] H.
  apply resolved_records_inv in H; [|done].
  apply (agrees_bind (map f)); [apply decode_each_agrees; auto|]. done.
Qed.

Definition frame_of (o : QueuedOperation) : OperationFrame :=
  {| of_id := op_id o; of_entity := op_entity o; of_retained := retained_bytes o |}.

Lemma frame_validate_agrees fam id body :
  record_ok (id, body) -> agrees frame_of (decode_body fam id body) (frame_validate fam id body).
Proof.
  intros (Hid & Hb & Hl). cbn [fst snd] in *. unfold frame_validate.
  pose proof (validate_body_agrees fam id body Hb) as Hv. unfold agrees in *.
  destruct (decode_body fam id body) as [o|e] eqn:E.
  2:{ destruct Hv as [e' ->]. simpl. eauto. }
  rewrite Hv. bind_simpl. pose proof E as E'.
  apply decode_body_inv in E as ((_ & Hi & Hp & _) & _ & Ho & <-); [|done..].
  assert (exists c, take_entity (put_body o) = Ok (op_entity o, c)) as [c ->].
  { unfold put_body. destruct o as [oid [k i] p]. cbn [op_entity op_payload entity_id kind] in *.
    rewrite take_entity_put by done. eauto. }
  bind_simpl. unfold frame_of, retained_bytes. by rewrite blen_put_body, Ho by done.
Qed.

Lemma row_split_inv value fam id body :
  bytes_ok value -> in_u 64 (blen value) -> row_split value = Ok (fam, id, body) ->
  record_ok (id, body) /\
  value = [QUEUE_VALUE_VERSION; ROW_VALUE_KIND; family_u8 fam] ++ to_be 16 id ++ body.
Proof.
  intros Hv Hl H. unfold row_split in H.
  apply result_bind_ok in H as ([a c] & ->%take_u8_ok & H). apply Forall_cons in Hv as [_ Hv].
  destruct (Z.eqb_spec a QUEUE_VALUE_VERSION) as [->|]; [|done].
  apply result_bind_ok in H as ([b c1] & ->%take_u8_ok & H). apply Forall_cons in Hv as [_ Hv].
  destruct (Z.eqb_spec b ROW_VALUE_KIND) as [->|]; [|done].
  apply result_bind_ok in H as ([d c2] & ->%take_u8_ok & H). apply Forall_cons in Hv as [_ Hv].
  apply result_bind_ok in H as (f & Ef & H).
  apply result_bind_ok in H as ([raw c3] & Er & H).
  apply take_raw_ok in Er as [-> Hr]; [|done]. apply Forall_app in Hv as [Hraw Hc3].
  apply result_bind_ok in H as (i & Ei & H).
  apply result_bind_ok in H as ([b' c4] & Eb & [= <- <- <-]).
  rewrite <- (app_nil_r c3) in Eb at 2. rewrite take_raw_app in Eb. injection Eb as <- <-.
  assert (length raw = 16%nat) as H16 by (unfold blen, OPERATION_ID_LEN in Hr; lia).
  pose proof (of_be_bound raw Hraw) as Hb. rewrite H16 in Hb.
  apply try_from_u128_ok in Ei as [Hi ->]; [|done].
  rewrite <- H16, to_of_be by done. split.
  - split_and!; [done|done|]. cbn [snd]. unfold in_u in *. autorewrite with bytes_len in Hl.
    pose proof (blen_nonneg raw). pose proof (blen_nonneg c3). lia.
  - assert (d = family_u8 f) as ->; [|done].
    unfold family_try_from_u8 in Ef. destruct (Z.eqb_spec d 1) as [->|]; [by injection Ef as <-|].
    destruct (Z.eqb_spec d 2) as [->|]; [by injection Ef as <-|done].
Qed.

(** ** Enqueue operands *)

Lemma enqueue_loop_spec fam ids ents out toks ops r :
  enqueue_loop fam ids ents out toks ops = Ok r <->
  Forall (fun o => payload_family (op_payload o) = fam) ops /\
  NoDup (map op_id ops) /\ NoDup (map op_entity ops) /\
  Forall (fun o => op_id o ∉ ids /\ op_entity o ∉ ents) ops /\
  r = {| operand_bytes := out ++ flat_map (put_insert IfAbsent) ops;
         operand_tokens :=
           toks ++ flat_map (fun o => [op_id o; entity_enqueue_token (op_entity o)]) ops |}.
Proof.
  revert ids ents out toks; induction ops as [|o ops IH]; intros ids ents out toks;
    cbn [enqueue_loop map flat_map].
  { rewrite !app_nil_r. split; [intros [= <-]; split_and!; constructor | by intros (_ & _ & _ & _ & ->)]. }
  rewrite !Forall_cons, !NoDup_cons.
  repeat case_bool_decide; cbn [negb]; try (split; [done|]; tauto).
  rewrite IH, <- !app_assoc. cbn [app].
  assert (Forall (fun o0 => op_id o0 ∉ {[op_id o]} ∪ ids /\ op_entity o0 ∉ {[op_entity o]} ∪ ents) ops <->
    op_id o ∉ map op_id ops /\ op_entity o ∉ map op_entity ops /\
    Forall (fun o0 => op_id o0 ∉ ids /\ op_entity o0 ∉ ents) ops) as ->; [|tauto].
  rewrite !Forall_forall, !list_elem_of_fmap. setoid_rewrite list_elem_of_In. set_solver.
Qed.

Definition operand_tokens_of (ops : list QueuedOperation) : list Z :=
  flat_map (fun o => [op_id o; entity_enqueue_token (op_entity o)]) ops.

Lemma enqueue_spec ops r :
  enqueue ops = Ok r <->
  exists fam, ops <> [] /\ Forall (fun o => payload_family (op_payload o) = fam) ops /\
  NoDup (map op_id ops) /\ NoDup (map op_entity ops) /\
  r = {| operand_bytes := put_header fam ++ put_varint 0 ++ put_varint (Z.of_nat (length ops))
           ++ flat_map (put_insert IfAbsent) ops;
         operand_tokens := operand_tokens_of ops |}.
Proof.
  unfold enqueue. destruct ops as [|o ops]; [split; [done|by intros (? & ? & _)]|].
  rewrite enqueue_loop_spec, <- !app_assoc. split.
  - intros (H1 & H2 & H3 & _ & ->). eauto 10.
  - intros (fam & _ & H1 & H2 & H3 & ->). pose proof H1 as [-> _]%Forall_cons.
    split_and!; [done..| |done]. apply Forall_true. set_solver.
Qed.

Lemma decode_each_ops fam ids ops :
  Forall op_ok ops -> Forall (fun o => payload_family (op_payload o) = fam) ops ->
  NoDup (map op_id ops) -> Forall (fun o => op_id o ∉ ids) ops ->
  decode_each (decode_body fam) ids (map (fun o => Ok (op_id o, put_body o)) ops) = Ok ops.
Proof.
  intros Hok Hf. revert ids; induction Hok as [|o ops Ho _ IH]; intros ids Hnd Hids; [done|].
  apply Forall_cons in Hf as [<- Hf]. cbn [map] in Hnd. apply NoDup_cons in Hnd as [Hn Hnd].
  apply Forall_cons in Hids as [Hid Hids].
  cbn [map decode_each result_bind]. rewrite bool_decide_false by done. cbn [negb].
  rewrite decode_put_body by done. bind_simpl. rewrite IH; [done..|].
  rewrite Forall_forall in *. intros o' Ho'. specialize (Hids _ Ho').
  assert (op_id o' ∈ map op_id ops) by (apply list_elem_of_fmap; eauto). set_solver.
Qed.

Lemma put_body_ok o : in_u 64 (entity_id (op_entity o)) -> payload_ok (op_payload o) ->
  bytes_ok (put_body o).
Proof.
  intros Hi Hp. unfold put_body. constructor; [by destruct (kind _)|].
  apply Forall_app. split; [by apply put_varint_ok|].
  assert (forall q, partition_ok q -> bytes_ok (put_partition q)) as Hq.
  { intros [|v]; [by repeat constructor|]. intros [Hv Hl%partition_len_u64].
    constructor; [done|]. apply Forall_app. auto using put_varint_ok. }
  assert (bytes_ok [0]) by (by repeat constructor).
  destruct (op_payload o) as [[prev repl]|[repl]];
    cbn [payload_ok put_payload vp_previous vp_replacement tp_replacement] in *.
  - destruct Hp as [Hprev Hrepl]. apply Forall_app. split; [destruct prev; auto|].
    destruct repl as [r|]; [|done]. destruct Hrepl as [Hr Hv]. constructor; [done|].
    rewrite !Forall_app. split_and!; auto using flat_to_be_ok.
    by apply put_varint_ok, vector_len_u64.
  - destruct repl as [r|]; [|done]. destruct Hp as (Hr & [Ht _] & Hl). constructor; [done|].
    rewrite !Forall_app. auto using put_varint_ok.
Qed.

Lemma op_record_ok o : op_ok o -> record_ok (op_id o, put_body o).
Proof.
  intros (Hid & Hi & Hp & Hl). split_and!; cbn [fst snd];
    [done | by apply put_body_ok | by rewrite blen_put_body].
Qed.

Lemma enqueue_bytes_resolved fam ops :
  Forall op_ok ops ->
  put_header fam ++ put_varint 0 ++ put_varint (Z.of_nat (length ops))
    ++ flat_map (put_insert IfAbsent) ops =
  put_resolved fam (map (fun o => (op_id o, put_body o)) ops).
Proof.
  intros Hok. unfold put_resolved. rewrite length_map. do 3 f_equal.
  induction Hok as [|o ops Ho _ IH]; [done|]. cbn [flat_map map].
  by rewrite IH, put_insert_raw.
Qed.

(** ** Acknowledgements *)

Lemma sorted_insert_perm x l : sorted_insert x l ≡ₚ x :: l.
Proof.
  induction l as [|y l IH]; cbn [sorted_insert]; [done|].
  destruct (x <=? y); [done|]. rewrite IH. by constructor.
Qed.

Lemma sort_ids_perm l : sort_ids l ≡ₚ l.
Proof.
  induction l as [|x l IH]; [done|]. cbn [sort_ids foldr].
  rewrite sorted_insert_perm. by constructor.
Qed.

Lemma sorted_insert_sorted x l : StronglySorted Z.le l -> StronglySorted Z.le (sorted_insert x l).
Proof.
  induction 1 as [|y l Hs IH Hy]; cbn [sorted_insert]; [by repeat constructor|].
  destruct (Z.leb_spec x y).
  - constructor; [by constructor|]. constructor; [done|].
    eapply Forall_impl; [done|]. simpl. lia.
  - constructor; [done|]. rewrite sorted_insert_perm. constructor; [lia|done].
Qed.

Lemma sort_ids_sorted l : StronglySorted Z.le (sort_ids l).
Proof. induction l; [constructor|]. by apply sorted_insert_sorted. Qed.

Lemma no_equal_neighbours l :
  StronglySorted Z.le l -> has_equal_neighbours l = false <-> StronglySorted Z.lt l.
Proof.
  induction 1 as [|x l Hs IH Hx]; [by split; [constructor|]|].
  destruct l as [|y l]; [by split; [repeat constructor|]|].
  change (has_equal_neighbours (x :: y :: l)) with ((x =? y) || has_equal_neighbours (y :: l)).
  rewrite orb_false_iff, IH. apply Forall_cons in Hx as [Hxy Hx].
  split.
  - intros [Hne Hlt]. constructor; [done|]. pose proof (StronglySorted_inv Hlt) as [_ Hy].
    constructor; [lia|]. eapply Forall_impl; [done|]. simpl. lia.
  - intros H. apply StronglySorted_inv in H as [H1 H2]. apply Forall_cons in H2 as [? _].
    split; [lia|done].
Qed.

Lemma strict_nodup l : StronglySorted Z.lt l -> NoDup l.
Proof.
  induction 1 as [|x l _ IH Hx]; constructor; [|done].
  intros Hin. rewrite Forall_forall in Hx. specialize (Hx _ Hin). lia.
Qed.

Lemma nodup_strict l : StronglySorted Z.le l -> NoDup l -> StronglySorted Z.lt l.
Proof.
  induction 1 as [|x l _ IH Hx]; [constructor|]. intros [Hn Hd]%NoDup_cons.
  constructor; [by apply IH|]. rewrite Forall_forall in *. intros y Hy.
  specialize (Hx y Hy). assert (x <> y) by (intros ->; done). lia.
Qed.

Lemma acknowledge_spec fam ids r :
  acknowledge fam ids = Ok r <->
  ids <> [] /\ NoDup ids /\
  r = {| operand_bytes := put_header fam ++ put_varint (Z.of_nat (length ids))
           ++ flat_map (to_be 16) (sort_ids ids) ++ put_varint 0;
         operand_tokens := sort_ids ids |}.
Proof.
  unfold acknowledge. pose proof (sort_ids_perm ids) as Hp.
  rewrite (Permutation_length Hp).
  destruct (has_equal_neighbours (sort_ids ids)) eqn:E.
  - split; [done|]. intros (_ & Hnd & _). rewrite <- Hp in Hnd.
    apply nodup_strict in Hnd; [|apply sort_ids_sorted].
    apply no_equal_neighbours in Hnd; [congruence|apply sort_ids_sorted].
  - apply no_equal_neighbours in E; [|apply sort_ids_sorted]. apply strict_nodup in E.
    rewrite Hp in E. destruct ids as [|x ids]; [split; [done|by intros []]|].
    cbn [length Nat.eqb]. split; [intros [= <-]; done | by intros (_ & _ & ->)].
Qed.

Lemma blen_put_header f : blen (put_header f) = HEADER_LEN.
Proof. done. Qed.

Lemma varint_len_mono a b : 0 <= a <= b -> b < 2 ^ 64 -> varint_len a <= varint_len b.
Proof.
  unfold varint_len. intros Hab Hb.
  assert (forall n k l, k <= l -> forall a b, 0 <= a <= b ->
    varint_len_loop n a k <= varint_len_loop n b l) as H; [|by apply H].
  clear. induction n as [|n IH]; intros k l Hkl a b Hab; cbn [varint_len_loop]; [done|].
  destruct (Z.leb_spec 0x80 a), (Z.leb_spec 0x80 b); try lia.
  - apply IH; [lia|]. rewrite !Z.shiftr_div_pow2 by lia. change (2 ^ 7) with 128.
    split; [apply Z.div_pos; lia|]. apply Z.div_le_mono; lia.
  - clear IH. assert (forall n v l, l <= varint_len_loop n v l) as Hge.
    { clear. induction n as [|n IH]; intros v l; cbn [varint_len_loop]; [done|].
      destruct (_ <=? _); [|done]. specialize (IH (Z.shiftr v 7) (l + 1)). lia. }
    specialize (Hge n (Z.shiftr b 7) (l + 1)). lia.
Qed.

(** ** Tokens *)

Lemma entity_token_value e :
  in_u 64 (entity_id e) ->
  entity_enqueue_token e = 2 ^ 127 + element_kind_u8 (kind e) * 2 ^ 64 + entity_id e.
Proof.
  intros Hi. unfold entity_enqueue_token, OPERATION_TOKEN_BIT. unfold in_u in Hi.
  rewrite (lor_disjoint_add 1 (Z.shiftl (element_kind_u8 (kind e)) 64) 127);
    [|destruct (kind e); vm_compute; split; congruence|lia].
  rewrite Z.shiftl_mul_pow2 by lia.
  replace (1 * 2 ^ 127 + element_kind_u8 (kind e) * 2 ^ 64)
    with ((2 ^ 63 + element_kind_u8 (kind e)) * 2 ^ 64) by (destruct (kind e); lia).
  rewrite <- (Z.shiftl_mul_pow2 (2 ^ 63 + element_kind_u8 (kind e))) by lia.
  rewrite lor_disjoint_add by lia. destruct (kind e); lia.
Qed.

(** ** Properties *)

(** Every well-formed operation survives its encoding: the body is as
    long as [body_encoded_len] says, [decode_body] returns the operation, and
    the row layout round-trips it with its identifier and family. *)
Theorem operation_roundtrip (o : QueuedOperation) :
  op_ok o ->
  blen (put_body o) = body_encoded_len o /\
  decode_body (payload_family (op_payload o)) (op_id o) (put_body o) = Ok o /\
  row_decode (row_encode (payload_family (op_payload o)) o)
    = Ok (payload_family (op_payload o), o).
Proof.
  intros Ho. pose proof Ho as (Hid & Hi & Hp & Hl).
  split_and!; [by apply blen_put_body|by apply decode_put_body|].
  unfold row_decode, row_split, row_encode. cbn [app]. rewrite take_u8_cons. bind_simpl.
  cbn [Z.eqb Pos.eqb QUEUE_VALUE_VERSION]. rewrite take_u8_cons. bind_simpl.
  rewrite Z.eqb_refl, take_u8_cons. bind_simpl. rewrite family_roundtrip. bind_simpl.
  change OPERATION_ID_LEN with (Z.of_nat 16). rewrite <- (blen_to_be 16 (op_id o)), take_raw_app.
  bind_simpl.
  assert (in_u 128 (op_id o)) by (unfold id_ok, in_u in *; change (2 ^ 128) with (2 * 2 ^ 127); lia).
  rewrite of_to_be by done. rewrite (proj2 (try_from_u128_ok _ (op_id o) ltac:(done))) by done.
  bind_simpl. rewrite <- (app_nil_r (put_body o)) at 2. rewrite take_raw_app. bind_simpl.
  by rewrite decode_put_body.
Qed.

(** An edge's vector replacement for a tenant. *)
Definition sample_operation : QueuedOperation :=
  {| op_id := 2 ^ 127 - 1;
     op_entity := {| kind := Edge; entity_id := 300 |};
     op_payload := VectorPayload
       {| vp_previous := Some Unpartitioned;
          vp_replacement := Some {| vr_partition := TenantValue [0x61]; vr_vector := [0x3F800000; 0] |} |} |}.

Lemma sample_operation_ok : op_ok sample_operation.
Proof.
  assert (in_u 127 (2 ^ 127 - 1) /\ in_u 64 300 /\ in_u 64 (body_encoded_len sample_operation) /\
    in_u 62 2 /\ in_u 32 0x3F800000 /\ in_u 32 0 /\ byte_ok 0x61)
    as (? & ? & ? & ? & ? & ? & ?).
  { unfold in_u, byte_ok. vm_compute. intuition discriminate. }
  repeat split; auto; try discriminate; try apply H; try apply H0; try apply H1; try apply H2;
    repeat constructor; auto; try discriminate; try apply H3; try apply H4; apply H5.
Defined.

Lemma operation_roundtrip_witness :
  decode_body Vector (2 ^ 127 - 1) (put_body sample_operation) = Ok sample_operation.
Proof. exact (proj1 (proj2 (operation_roundtrip sample_operation sample_operation_ok))). Defined.

(** The body format is canonical: a body that decodes is exactly the
    encoding of the well-formed operation it decodes to, under the same
    identifier and family, so no two byte strings decode to one operation. *)
Theorem operation_canonical (fam : QueueFamily) (id : Z) (body : bytes) (o : QueuedOperation) :
  bytes_ok body -> in_u 64 (blen body) -> id_ok id ->
  decode_body fam id body = Ok o ->
  put_body o = body /\ op_ok o /\ op_id o = id /\ payload_family (op_payload o) = fam.
Proof.
  intros Hb Hl Hid H. apply decode_body_inv in H as (? & ? & ? & ?); auto.
Qed.

Lemma operation_canonical_witness :
  let o := {| op_id := 5; op_entity := {| kind := Node; entity_id := 7 |};
              op_payload := TextPayload {| tp_replacement := None |} |} in
  put_body o = [1; 7; 0] /\ op_ok o /\ op_id o = 5 /\ payload_family (op_payload o) = Text.
Proof.
  apply (operation_canonical Text 5 [1; 7; 0]);
    [repeat constructor; unfold byte_ok; lia | unfold in_u, blen; simpl; lia
    | unfold id_ok, in_u; lia | vm_compute; reflexivity].
Defined.

(** [QueueOperand::enqueue] accepts exactly the non-empty lists of one
    family whose operation IDs and whose entities are pairwise distinct; its
    bytes then decode, as a resolved queue, to the same operations in the same
    order, and its tokens are each operation's ID followed by its entity's
    enqueue token. *)
Theorem enqueue_exact (ops : list QueuedOperation) :
  Forall op_ok ops -> in_u 64 (Z.of_nat (length ops)) ->
  (is_ok (enqueue ops) = true <->
     exists fam, ops <> [] /\ Forall (fun o => payload_family (op_payload o) = fam) ops /\
     NoDup (map op_id ops) /\ NoDup (map op_entity ops)) /\
  (forall operand, enqueue ops = Ok operand ->
     exists fam, decode_queue_value (operand_bytes operand) = Ok (fam, ops) /\
     operand_tokens operand =
       flat_map (fun o => [op_id o; entity_enqueue_token (op_entity o)]) ops).
Proof.
  intros Hok Hl. split.
  - rewrite is_ok_iff. setoid_rewrite enqueue_spec. split.
    + intros (? & fam & H). exists fam. tauto.
    + intros (fam & H). eexists _, fam. intuition reflexivity.
  - intros r (fam & Hne & Hf & Hid & Hent & ->)%enqueue_spec. exists fam. split; [|done].
    cbn [operand_bytes]. rewrite enqueue_bytes_resolved by done.
    unfold decode_queue_value, decode_unique. rewrite resolved_records_put.
    + bind_simpl. rewrite map_map, decode_each_ops; [done..|]. apply Forall_true. set_solver.
    + by destruct ops.
    + apply Forall_fmap. eapply Forall_impl; [exact Hok|]. intros o. apply op_record_ok.
    + by rewrite length_map.
Qed.

Lemma enqueue_exact_witness :
  exists operand fam, enqueue [sample_operation] = Ok operand /\
    decode_queue_value (operand_bytes operand) = Ok (fam, [sample_operation]).
Proof.
  destruct (enqueue_exact [sample_operation]) as [[_ Ha] Hd].
  - constructor; [apply sample_operation_ok | constructor].
  - unfold in_u. simpl. lia.
  - destruct (proj1 (is_ok_iff _) (Ha ltac:(exists Vector; split_and!; [discriminate |
      repeat constructor | repeat constructor; set_solver | repeat constructor; set_solver])))
      as [operand E].
    destruct (Hd operand E) as (fam & E' & _). exists operand, fam. split; assumption.
Defined.

(** Startup accounting's contract: reading frames accepts and rejects
    exactly the queue values and rows that full decoding does, and yields each
    decoded operation's identifier, entity and retained bytes in the same
    order. *)
Theorem frames_agree (value : bytes) :
  bytes_ok value -> in_u 64 (blen value) ->
  match decode_queue_value value with
  | Ok (fam, ops) => frame_queue_value value = Ok (fam, map frame_of ops)
  | Err _ => is_ok (frame_queue_value value) = false
  end /\
  match row_decode value with
  | Ok (fam, o) => frame_row value = Ok (fam, frame_of o)
  | Err _ => is_ok (frame_row value) = false
  end.
Proof.
  intros Hv Hl. split.
  - pose proof (decode_unique_agrees frame_of decode_body frame_validate value Hv
      frame_validate_agrees) as H.
    unfold agrees, decode_queue_value, frame_queue_value in *.
    destruct (decode_unique value decode_body) as [[fam ops]|]; [done|]. by destruct H as [e2 ->].
  - unfold row_decode, frame_row.
    destruct (row_split value) as [[[fam id] body]|e] eqn:E; bind_simpl; [|done].
    apply row_split_inv in E as [Hr _]; [|done..].
    pose proof (frame_validate_agrees fam id body Hr) as H. unfold agrees in H.
    destruct (decode_body fam id body); bind_simpl; [by rewrite H|]. by destruct H as [e2 ->].
Qed.

Lemma frames_agree_witness :
  frame_row (row_encode Vector sample_operation) = Ok (Vector, frame_of sample_operation).
Proof.
  pose proof (frames_agree (row_encode Vector sample_operation)) as H.
  destruct H as [_ H].
  - apply (bool_decide_unpack _). vm_compute. exact I.
  - apply (bool_decide_unpack _). vm_compute. exact I.
  - replace (row_decode _) with (Ok (E := EncodingError) (Vector, sample_operation)) in H
      by (vm_compute; reflexivity).
    exact H.
Defined.

(** [acknowledgement_capacity] never overestimates: an acknowledgement
    of at most that many distinct IDs fits the byte budget; and it is at most
    one below the true maximum, since two more IDs never fit. *)
Theorem acknowledgement_capacity_exact (fam : QueueFamily) (max_bytes : Z) (ids : list Z) r :
  in_u 64 max_bytes -> acknowledge fam ids = Ok r ->
  (Z.of_nat (length ids) <= acknowledgement_capacity max_bytes ->
     blen (operand_bytes r) <= max_bytes) /\
  (Z.of_nat (length ids) >= acknowledgement_capacity max_bytes + 2 ->
     in_u 64 (Z.of_nat (length ids)) -> max_bytes < blen (operand_bytes r)).
Proof.
  intros Hm (Hne & _ & ->)%acknowledge_spec. cbn [operand_bytes].
  unfold acknowledgement_capacity. autorewrite with bytes_len.
  rewrite blen_put_header.
  replace (blen (flat_map (to_be 16) (sort_ids ids))) with (16 * Z.of_nat (length ids)).
  2:{ unfold blen. rewrite length_flat_to_be, (Permutation_length (sort_ids_perm ids)). lia. }
  change (blen (put_varint 0)) with 1. unfold HEADER_LEN, OPERATION_ID_LEN, sat_sub.
  set (n := Z.of_nat (length ids)). assert (0 < n) by (destruct ids; simpl in *; [done|lia]).
  unfold in_u in Hm.
  assert (in_u 64 (Z.max 0 (max_bytes - (3 + 1)) / 16)) as HL.
  { unfold in_u. split; [apply Z.div_pos; lia|]. apply Z.div_lt_upper_bound; lia. }
  set (L := Z.max 0 (max_bytes - (3 + 1)) / 16) in *.
  assert (16 * L <= Z.max 0 (max_bytes - 4)) by (apply Z.mul_div_le; lia).
  assert (Z.max 0 (max_bytes - 4) < 16 * L + 16).
  { pose proof (Z.mul_succ_div_gt (Z.max 0 (max_bytes - (3 + 1))) 16). lia. }
  pose proof (varint_len_bound L HL).
  set (w := varint_len L) in *.
  assert (16 * (Z.max 0 (max_bytes - (3 + 1 + w)) / 16) <= Z.max 0 (max_bytes - (3 + 1 + w)))
    by (apply Z.mul_div_le; lia).
  assert (Z.max 0 (max_bytes - (3 + 1 + w)) < 16 * (Z.max 0 (max_bytes - (3 + 1 + w)) / 16) + 16).
  { pose proof (Z.mul_succ_div_gt (Z.max 0 (max_bytes - (3 + 1 + w))) 16). lia. }
  split; intros Hn.
  - assert (n <= L) by lia. rewrite blen_put_varint by (unfold in_u in *; lia).
    pose proof (varint_len_mono n L). unfold in_u in *. lia.
  - intros Hn'. rewrite blen_put_varint by done. pose proof (varint_len_bound n Hn'). lia.
Qed.

Lemma acknowledgement_capacity_exact_witness :
  exists r, acknowledge Text [9; 3] = Ok r /\
    acknowledgement_capacity 40 = 2 /\ blen (operand_bytes r) <= 40.
Proof.
  eexists. split; [vm_compute; reflexivity|]. split; [vm_compute; reflexivity|].
  refine (proj1 (acknowledgement_capacity_exact Text 40 [9; 3] _ _ _) _).
  - unfold in_u. lia.
  - vm_compute. reflexivity.
  - vm_compute. discriminate.
Defined.

(** The conflict tokens occupy disjoint halves of the token space:
    entity tokens set bit 127, fit 128 bits and determine the entity, and no
    accepted operation ID equals one. *)
Theorem tokens_disjoint (e e' : IndexEntity) (v id : Z) :
  in_u 64 (entity_id e) -> in_u 64 (entity_id e') -> in_u 128 v ->
  try_from_u128 v = Ok id ->
  in_u 128 (entity_enqueue_token e) /\
  id <> entity_enqueue_token e /\
  (entity_enqueue_token e = entity_enqueue_token e' -> e = e').
Proof.
  intros He He' Hv [Hid ->]%try_from_u128_ok; [|done].
  rewrite !entity_token_value by done. unfold id_ok, in_u in *.
  change (2 ^ 128) with (2 * 2 ^ 127). assert (2 ^ 64 * 3 < 2 ^ 127) by done.
  destruct e as [k i], e' as [k' i']. cbn [entity_id kind] in *.
  split_and!; [destruct k; cbn [element_kind_u8]; lia..|].
  intros H0. assert (k = k') as -> by (destruct k, k'; cbn [element_kind_u8] in *; (done || lia)).
  f_equal. lia.
Qed.

Lemma tokens_disjoint_witness :
  5 <> entity_enqueue_token {| kind := Node; entity_id := 5 |}.
Proof.
  refine (proj1 (proj2 (tokens_disjoint {| kind := Node; entity_id := 5 |}
    {| kind := Node; entity_id := 5 |} 5 5 _ _ _ _)));
    [unfold in_u; simpl; lia .. | vm_compute; reflexivity].
Defined.

(** The retained ceiling keeps stored values within a [u32] length:
    the framing, one removal per operation of a backlog of [R] retained bytes
    and that backlog's records fit whenever [R] is at most
    [MAX_RETAINED_BYTES]. *)
Theorem max_retained_fits (backlog : list QueuedOperation) :
  Forall op_ok backlog ->
  let R := foldr Z.add 0 (map retained_bytes backlog) in
  R <= MAX_RETAINED_BYTES ->
  MAX_VALUE_FRAMING_LEN + OPERATION_ID_LEN * Z.of_nat (length backlog) + R <= umax 32.
Proof.
  intros Hok R HR.
  assert (MIN_RETAINED_RECORD_LEN * Z.of_nat (length backlog) <= R).
  { clear HR. subst R. induction Hok as [|o ops (_ & Hi & Hp & Hl) _ IH]; [done|].
    cbn [length map foldr].
    assert (retained_bytes o = 17 + varint_len (body_encoded_len o) + body_encoded_len o) as ->
      by done.
    pose proof (body_encoded_len_min o Hi Hp). pose proof (varint_len_bound _ Hl).
    unfold MIN_RETAINED_RECORD_LEN, MODE_LEN, OPERATION_ID_LEN in *. lia. }
  assert (MAX_RETAINED_BYTES = 2437684127) as Hmax by reflexivity.
  change (umax 32) with 4294967295. unfold MIN_RETAINED_RECORD_LEN, MAX_VALUE_FRAMING_LEN,
    MODE_LEN, OPERATION_ID_LEN, HEADER_LEN, MAX_VARINT_LEN in *. lia.
Qed.

Lemma max_retained_fits_witness :
  MAX_VALUE_FRAMING_LEN + OPERATION_ID_LEN * 1 + retained_bytes sample_operation <= umax 32.
Proof.
  refine (eq_ind_r (fun z => MAX_VALUE_FRAMING_LEN + OPERATION_ID_LEN * 1 + z <= umax 32)
    (max_retained_fits [sample_operation] _ _) _).
  - constructor; [apply sample_operation_ok | constructor].
  - vm_compute. discriminate.
  - vm_compute. reflexivity.
Defined.

(** The source calls [MAX_RETAINED_BYTES] the largest ceiling for which
    [MAX_VALUE_FRAMING_LEN + OPERATION_ID_LEN * (R / MIN_RETAINED_RECORD_LEN) + R]
    fits a [u32]; with the integer division of that formula nine more bytes
    still fit. *)
Lemma max_retained_slack :
  let R := MAX_RETAINED_BYTES + 9 in
  MAX_VALUE_FRAMING_LEN + OPERATION_ID_LEN * (R / MIN_RETAINED_RECORD_LEN) + R = umax 32.
Proof. vm_compute. reflexivity. Qed.

End QueueCodec.
