(* ===== verification/QueueLatest.v ===== *)
(** Budgeted reads of an operation queue: [select_latest] and
    [LatestOperations] of
    crates/db/src/encoding/v2/values/indexes/operation_queue/mod.rs refine a
    reference selection on decoded operations. The definitions of the code are
    in QueueCodec.v; this file has the reference and the refinement. *)
From S2P Require Import Prelude Bytes Cursor QueueCodec.

Open Scope Z_scope.

Module QueueLatest.
Import Cursor QueueCodec.

Lemma map_take {A B} (f : A -> B) n l : map f (take n l) = take n (map f l).
Proof. symmetry. apply List.firstn_map. Qed.

(** ** Reference: the latest element per key, in first-occurrence order *)

Section Reference.
Context {A K : Type} `{EqDecision K} (key : A -> K).

Fixpoint upsert (a : A) (l : list A) : list A :=
  match l with
  | [] => [a]
  | x :: l => if decide (key x = key a) then a :: l else x :: upsert a l
  end.
Definition latest_per_key (l : list A) : list A := fold_left (fun acc a => upsert a acc) l [].

Fixpoint get (k : K) (l : list A) : option A :=
  match l with
  | [] => None
  | x :: l => if decide (key x = k) then Some x else get k l
  end.

Lemma upsert_keys a l :
  map key (upsert a l) =
  if decide (key a ∈ map key l) then map key l else map key l ++ [key a].
Proof.
  induction l as [|x l IH]; cbn [upsert map].
  { by rewrite decide_False by set_solver. }
  destruct (decide (key x = key a)) as [E|E]; cbn [map].
  - rewrite decide_True by set_solver. by rewrite E.
  - rewrite IH. destruct (decide (key a ∈ map key l)).
    + by rewrite decide_True by set_solver.
    + by rewrite decide_False by set_solver.
Qed.

Lemma get_upsert k a l : get k (upsert a l) = if decide (key a = k) then Some a else get k l.
Proof.
  induction l as [|x l IH]; cbn [upsert get]; [done|].
  destruct (decide (key x = key a)) as [E|E]; cbn [get].
  - destruct (decide (key a = k)); [done|]. by rewrite decide_False by congruence.
  - destruct (decide (key x = k)); [by rewrite decide_False by congruence|done].
Qed.

Lemma get_elem k l : k ∈ map key l -> exists x, get k l = Some x.
Proof.
  induction l as [|x l IH]; cbn [map get]; [set_solver|].
  intros [->|H]%elem_of_cons; [rewrite decide_True by done; eauto|].
  destruct (decide _); eauto.
Qed.

Lemma get_nodup x l : NoDup (map key l) -> x ∈ l -> get (key x) l = Some x.
Proof.
  induction l as [|y l IH]; cbn [map get]; [set_solver|].
  intros [Hy Hl]%NoDup_cons [->|Hx]%elem_of_cons; [by rewrite decide_True|].
  rewrite decide_False; [by apply IH|]. intros E. apply Hy. rewrite E.
  apply list_elem_of_fmap. eauto.
Qed.

Lemma latest_nodup l : NoDup (map key (latest_per_key l)).
Proof.
  unfold latest_per_key. assert (NoDup (map key [])) as H by constructor. revert H.
  generalize (@nil A). induction l as [|a l IH]; intros acc H; cbn [fold_left]; [done|].
  apply IH. rewrite upsert_keys. destruct (decide _); [done|].
  apply NoDup_app. split_and!; [done| |constructor; [set_solver|constructor]]. set_solver.
Qed.

End Reference.

Section Fitting.
Context {A : Type} (weight : A -> Z).

(** The longest prefix whose total weight fits, and the total the first
    element left out would have reached. *)
Fixpoint fitting (budget charged : Z) (l : list A) : list A * option Z :=
  match l with
  | [] => ([], None)
  | x :: l =>
      if budget <? charged + weight x then ([], Some (charged + weight x))
      else let '(selected, refused) := fitting budget (charged + weight x) l in
           (x :: selected, refused)
  end.

Lemma fitting_prefix budget charged l :
  exists rest, l = (fitting budget charged l).1 ++ rest.
Proof.
  revert charged; induction l as [|x l IH]; intros charged; cbn [fitting]; [by exists []|].
  destruct (_ <? _); [by exists (x :: l)|].
  destruct (IH (charged + weight x)) as [rest E].
  destruct (fitting budget (charged + weight x) l). exists rest. cbn in *. by rewrite <- E.
Qed.

Lemma fitting_refused budget charged l r :
  (fitting budget charged l).2 = Some r -> budget < r.
Proof.
  revert charged; induction l as [|x l IH]; intros charged; cbn [fitting]; [done|].
  destruct (Z.ltb_spec budget (charged + weight x)); [by intros [= <-]|].
  specialize (IH (charged + weight x)). destruct (fitting _ _ l); auto.
Qed.

Lemma fitting_all budget charged l :
  (fitting budget charged l).2 = None <-> (fitting budget charged l).1 = l.
Proof.
  revert charged; induction l as [|x l IH]; intros charged; cbn [fitting]; [done|].
  destruct (_ <? _); [done|]. specialize (IH (charged + weight x)).
  destruct (fitting _ _ l) as [s r]. cbn in *. rewrite IH. split; congruence.
Qed.

Definition total (l : list A) : Z := foldr (fun x acc => weight x + acc) 0 l.

(** Cutting the list at a point whose heavier prefix cannot fit changes only
    the reported reach. *)
Lemma fitting_app budget charged l1 l2 :
  fitting budget charged (l1 ++ l2) =
  match fitting budget charged l1 with
  | (s, Some r) => (s, Some r)
  | (s, None) =>
      let '(s', r) := fitting budget (charged + total l1) l2 in (s ++ s', r)
  end.
Proof.
  revert charged; induction l1 as [|x l1 IH]; intros charged; cbn [app fitting total foldr].
  { rewrite Z.add_0_r. by destruct (fitting _ _ l2). }
  destruct (_ <? _); [done|]. rewrite IH.
  destruct (fitting budget (charged + weight x) l1) as [s [r|]]; [done|].
  rewrite <- Z.add_assoc. fold (total l1). by destruct (fitting _ _ l2).
Qed.

Lemma fitting_total budget charged l s :
  fitting budget charged l = (s, None) -> l <> [] -> charged + total l <= budget.
Proof.
  revert charged s; induction l as [|x l IH]; intros charged s; [done|].
  cbn [fitting total foldr]. destruct (Z.ltb_spec budget (charged + weight x)); [done|].
  destruct (fitting budget (charged + weight x) l) as [s' r'] eqn:E. intros [= <- ->] _.
  fold (total l). destruct l as [|y l]; [cbn; lia|].
  specialize (IH _ _ E ltac:(done)). lia.
Qed.
End Fitting.

(** ** [select_latest] on raw records *)

Definition record_key (r : Z * bytes) : bytes := raw_entity r.2.
Definition record_weight (r : Z * bytes) : Z := retained_len (blen r.2).

(** The loop state after the records whose latest-per-entity list is [l]. *)
Definition tracks (T : nat) (l : list (Z * bytes)) (s : SelectState) : Prop :=
  ss_order s = take T (map record_key l) /\
  (forall k, ss_latest s !! k =
     if decide (k ∈ take T (map record_key l))
     then (fun r => (record_weight r, r)) <$> get record_key k l else None) /\
  ss_untracked s = bool_decide (T < length l)%nat.

Lemma select_record_tracks T l s r :
  NoDup (map record_key l) -> tracks T l s ->
  tracks T (upsert record_key r l) (select_record (Z.of_nat T) s r).
Proof.
  intros Hnd (Ho & Hm & Hu). destruct r as [id body]. unfold select_record.
  change (raw_entity body) with (record_key (id, body)).
  change (retained_len (blen body)) with (record_weight (id, body)).
  set (r := (id, body)). set (L := map record_key l) in *.
  pose proof (upsert_keys record_key r l) as Hk.
  assert (length l = length L) as Hlen by (unfold L; by rewrite length_map).
  assert (length (upsert record_key r l) = length (map record_key (upsert record_key r l))) as Hlen'
    by by rewrite length_map.
  rewrite Hm. destruct (decide (record_key r ∈ take T L)) as [Hin|Hin].
  - assert (record_key r ∈ L) as HinL by (eapply elem_of_take in Hin as (? & ? & _);
      by eapply list_elem_of_lookup_2).
    destruct (get_elem record_key _ l HinL) as [x ->]. cbn [fmap option_fmap option_map].
    rewrite decide_True in Hk by done. unfold tracks. cbn [ss_order ss_latest ss_untracked].
    rewrite Hk. fold L. split_and!; [done| |by rewrite Hu, Hlen', Hk, Hlen].
    intros k. rewrite get_upsert. destruct (decide (record_key r = k)) as [<-|Hne].
    + by rewrite lookup_insert_eq, decide_True.
    + by rewrite lookup_insert_ne.
  - rewrite Ho. fold L. destruct (decide (record_key r ∈ L)) as [HinL|HinL].
    + rewrite decide_True in Hk by done. assert (T < length L)%nat as HT.
      { destruct (Nat.lt_ge_cases T (length L)); [done|]. by rewrite take_ge in Hin by done. }
      rewrite length_take, Nat.min_l by lia. rewrite (proj2 (Z.ltb_ge _ _)) by lia.
      unfold tracks. cbn [ss_order ss_latest ss_untracked]. rewrite Hk. fold L.
      split_and!; [done| |by rewrite bool_decide_true by (rewrite Hlen', Hk; fold L; lia)].
      intros k. rewrite get_upsert, Hm. destruct (decide (k ∈ take T L)) as [Hk'|]; [|done].
      by rewrite decide_False by (intros <-; done).
    + rewrite decide_False in Hk by done.
      rewrite length_take. destruct (Z.ltb_spec (Z.of_nat (Nat.min T (length L))) (Z.of_nat T)).
      * assert (length L < T)%nat by lia. rewrite take_ge by lia.
        unfold tracks. cbn [ss_order ss_latest ss_untracked]. rewrite Hk. fold L.
        rewrite take_ge by (rewrite length_app; simpl; lia).
        split_and!; [done| |rewrite Hu, Hlen', Hk, Hlen; fold L; rewrite length_app;
          apply bool_decide_ext; simpl; lia].
        intros k. rewrite get_upsert. destruct (decide (record_key r = k)) as [<-|Hne].
        -- by rewrite lookup_insert_eq, decide_True by set_solver.
        -- rewrite lookup_insert_ne, Hm, take_ge by (done || lia).
           destruct (decide (k ∈ L)); [rewrite decide_True by set_solver
             | rewrite decide_False by set_solver]; done.
      * assert (T <= length L)%nat by lia.
        unfold tracks. cbn [ss_order ss_latest ss_untracked]. rewrite Hk. fold L.
        rewrite take_app_le by done.
        split_and!; [done| |rewrite bool_decide_true; [done|]; rewrite Hlen', Hk; fold L;
          rewrite length_app; simpl; lia].
        intros k. rewrite get_upsert, Hm. destruct (decide (k ∈ take T L)) as [Hk'|]; [|done].
        by rewrite decide_False by (intros <-; done).
Qed.

Lemma select_records_track T rs l s :
  NoDup (map record_key l) -> tracks T l s ->
  tracks T (fold_left (fun acc r => upsert record_key r acc) rs l)
    (fold_left (select_record (Z.of_nat T)) rs s).
Proof.
  revert l s; induction rs as [|r rs IH]; intros l s Hnd Hs; cbn [fold_left]; [done|].
  apply IH; [|by apply select_record_tracks]. rewrite upsert_keys. destruct (decide _); [done|].
  apply NoDup_app. split_and!; [done|set_solver|repeat constructor; set_solver].
Qed.

Lemma record_weight_pos r : 17 <= record_weight r.
Proof.
  unfold record_weight, retained_len, MODE_LEN, OPERATION_ID_LEN. pose proof (blen_nonneg r.2).
  assert (0 <= varint_len (blen r.2)); [|lia]. unfold varint_len.
  assert (forall n v l, 0 <= l -> 0 <= varint_len_loop n v l) as H0; [|by apply H0].
  induction n as [|n IH]; intros v l Hl; cbn [varint_len_loop]; [done|].
  destruct (_ <=? _); [apply IH; lia|done].
Qed.

(** The second loop never misses a tracked entity and never saturates. *)
Lemma select_fitting_spec budget charged latest l selected :
  NoDup (map record_key l) -> 0 <= charged -> charged + total record_weight l <= umax 64 ->
  (forall r, r ∈ l -> latest !! record_key r = Some (record_weight r, r)) ->
  select_fitting budget charged latest (map record_key l) selected =
  let '(s, refused) := fitting record_weight budget charged l in
  Some (selected ++ s, refused, charged + total record_weight s).
Proof.
  revert charged latest selected; induction l as [|r l IH]; intros charged latest selected
    Hnd Hc Ht Hm; cbn [map select_fitting fitting].
  { by rewrite app_nil_r, Z.add_0_r. }
  cbn [map] in Hnd. apply NoDup_cons in Hnd as [Hr Hnd].
  cbn [total foldr] in Ht. fold (total record_weight l) in Ht.
  rewrite Hm by set_solver. pose proof (record_weight_pos r).
  assert (0 <= total record_weight l) as H0.
  { clear. induction l as [|x l IH]; [done|]. cbn [total foldr]. fold (total record_weight l).
    pose proof (record_weight_pos x). lia. }
  unfold sat_add. rewrite Z.min_l by lia.
  destruct (budget <? charged + record_weight r); [by rewrite app_nil_r, Z.add_0_r|].
  rewrite IH; [|done|lia|lia|].
  - destruct (fitting record_weight budget (charged + record_weight r) l) as [s rf].
    cbn [total foldr]. fold (total record_weight s). by rewrite <- app_assoc, Z.add_assoc.
  - intros x Hx. rewrite lookup_delete_ne; [by apply Hm; set_solver|].
    intros E. apply Hr. rewrite E. apply list_elem_of_fmap. eauto.
Qed.

Lemma record_weight_min r : in_u 64 (blen r.2) -> 3 <= blen r.2 -> 21 <= record_weight r.
Proof.
  intros Hu H. unfold record_weight, retained_len, MODE_LEN, OPERATION_ID_LEN.
  pose proof (varint_len_bound _ Hu). lia.
Qed.

Lemma total_upsert_le r l :
  total record_weight (upsert record_key r l) <= total record_weight l + record_weight r.
Proof.
  unfold total. induction l as [|x l IH]; cbn [upsert foldr]; [lia|].
  pose proof (record_weight_pos x). destruct (decide _); cbn [foldr]; lia.
Qed.

Lemma total_latest_le rs : total record_weight (latest_per_key record_key rs) <= total record_weight rs.
Proof.
  unfold latest_per_key.
  assert (forall acc, total record_weight (fold_left (fun acc r => upsert record_key r acc) rs acc)
    <= total record_weight acc + total record_weight rs) as H; [|apply (H [])].
  induction rs as [|r rs IH]; intros acc; cbn [fold_left].
  { unfold total at 3. simpl. lia. }
  specialize (IH (upsert record_key r acc)). pose proof (total_upsert_le r acc).
  change (total record_weight (r :: rs)) with (record_weight r + total record_weight rs). lia.
Qed.

Lemma Forall_upsert (P : Z * bytes -> Prop) r l :
  P r -> Forall P l -> Forall P (upsert record_key r l).
Proof.
  intros Hr. induction 1; cbn [upsert]; [by repeat constructor|].
  destruct (decide _); by constructor.
Qed.

Lemma Forall_latest (P : Z * bytes -> Prop) rs :
  Forall P rs -> Forall P (latest_per_key record_key rs).
Proof.
  intros H. unfold latest_per_key. assert (Forall P []) as Ha by constructor. revert Ha.
  generalize (@nil (Z * bytes)). induction H; intros acc Hacc; cbn [fold_left]; [done|].
  auto using Forall_upsert.
Qed.

Lemma total_min l :
  Forall (fun r => 21 <= record_weight r) l -> 21 * Z.of_nat (length l) <= total record_weight l.
Proof.
  unfold total. induction 1; cbn [length foldr]; lia.
Qed.

Lemma total_app l1 l2 : total record_weight (l1 ++ l2) = total record_weight l1 + total record_weight l2.
Proof. unfold total. induction l1; cbn [app foldr]; lia. Qed.

Lemma total_nonneg l : 0 <= total record_weight l.
Proof.
  unfold total. induction l as [|x l IH]; cbn [foldr]; [done|]. pose proof (record_weight_pos x). lia.
Qed.

(** The reach the code reports for a reference reach. *)
Definition reach_ok (budget : Z) (reference refused : option Z) : Prop :=
  match reference, refused with
  | None, None => True
  | Some r, Some r' => budget < r' <= r
  | _, _ => False
  end.

Lemma select_latest_spec rs budget :
  Forall (fun r => in_u 64 (blen r.2) /\ 3 <= blen r.2) rs -> in_u 64 budget ->
  total record_weight rs <= umax 64 ->
  exists refused,
    select_latest (map Ok rs) budget =
      Ok (Some ((fitting record_weight budget 0 (latest_per_key record_key rs)).1, refused)) /\
    reach_ok budget (fitting record_weight budget 0 (latest_per_key record_key rs)).2 refused.
Proof.
  intros Hmin Hb Ht. unfold in_u in Hb. set (L := latest_per_key record_key rs).
  assert (Forall (fun r => 21 <= record_weight r) L) as HL.
  { apply Forall_latest. eapply Forall_impl; [exact Hmin|]. intros r []. by apply record_weight_min. }
  pose proof (total_latest_le rs) as HtL. fold L in HtL.
  unfold select_latest. rewrite collect_map_ok. bind_simpl.
  change MIN_RETAINED_RECORD_LEN with 21. set (T := Z.to_nat (budget / 21)).
  replace (budget / 21) with (Z.of_nat T) by (unfold T; rewrite Z2Nat.id; [done|apply Z.div_pos; lia]).
  assert (budget < 21 * (Z.of_nat T + 1)) as HT.
  { unfold T. rewrite Z2Nat.id by (apply Z.div_pos; lia).
    pose proof (Z.mul_succ_div_gt budget 21). lia. }
  destruct (select_records_track T rs [] {| ss_order := []; ss_latest := ∅; ss_untracked := false |})
    as (Ho & Hm & Hu); [constructor| |].
  { split_and!; cbn [ss_order ss_latest ss_untracked map length]; [by rewrite take_nil| |].
    - intros k. rewrite lookup_empty, take_nil. by rewrite decide_False by set_solver.
    - by rewrite bool_decide_false by lia. }
  fold (latest_per_key record_key rs) in Ho, Hm, Hu. fold L in Ho, Hm, Hu.
  set (st := fold_left _ rs _) in *. clearbody st.
  pose proof (latest_nodup record_key rs) as Hnd. fold L in Hnd.
  rewrite <- (take_drop T L) in HL, HtL. rewrite total_app in HtL.
  apply Forall_app in HL as [HL1 HL2].
  pose proof (total_nonneg (drop T L)) as Hd0.
  assert (NoDup (map record_key (take T L))) as Hnd1.
  { rewrite map_take. eapply sublist_NoDup; [exact Hnd|apply sublist_take]. }
  rewrite Ho, <- map_take, (select_fitting_spec budget 0 _ (take T L) []) ; [|done|lia|lia|].
  2:{ intros r Hr. rewrite Hm, <- map_take.
      assert (record_key r ∈ map record_key (take T L)) as Hk by (apply list_elem_of_fmap; eauto).
      rewrite decide_True by done.
      rewrite (get_nodup record_key r L Hnd); [done|].
      eapply elem_of_take in Hr as (? & ? & _). by eapply list_elem_of_lookup_2. }
  pose proof (fitting_app record_weight budget 0 (take T L) (drop T L)) as Happ.
  rewrite take_drop in Happ. rewrite Happ.
  pose proof (fitting_all record_weight budget 0 (take T L)) as Hall.
  pose proof (fitting_refused record_weight budget 0 (take T L)) as Hrf.
  destruct (fitting record_weight budget 0 (take T L)) as [s [r|]]; cbn [fst snd] in *.
  - exists (Some r). split; [done|]. cbn. specialize (Hrf r eq_refl). lia.
  - rewrite (proj1 Hall eq_refl). rewrite Hu. cbn [app]. rewrite Z.add_0_l.
    case_bool_decide as Hlen.
    + destruct (drop T L) as [|x rest] eqn:Ed.
      { apply (f_equal length) in Ed. rewrite length_drop in Ed. simpl in Ed. lia. }
      apply Forall_cons in HL2 as [Hx _]. pose proof (total_min _ HL1) as Htot.
      rewrite length_take, Nat.min_l in Htot by lia.
      change (total record_weight (x :: rest)) with (record_weight x + total record_weight rest) in *.
      pose proof (total_nonneg rest).
      cbn [fitting]. rewrite (proj2 (Z.ltb_lt _ _)) by lia. rewrite app_nil_r. cbn [fst snd].
      eexists. split; [done|]. unfold reach_ok, sat_add. rewrite !Z.min_l by lia. lia.
    + rewrite (drop_ge L T) by lia. cbn [fitting fst snd]. rewrite app_nil_r. exists None. done.
Qed.

(** ** From raw records to operations *)

Definition record_of (o : QueuedOperation) : Z * bytes := (op_id o, put_body o).

Lemma position_from_app {A} (f : A -> bool) i l x rest :
  existsb f l = false -> f x = true ->
  position_from f i (l ++ x :: rest) = Some (i + Z.of_nat (length l)).
Proof.
  revert i; induction l as [|y l IH]; intros i; cbn [existsb app position_from length].
  { intros _ ->. f_equal. lia. }
  intros [-> Hl]%orb_false_iff Hx. rewrite IH by done. f_equal. lia.
Qed.

(** A varint is continuation bytes followed by one terminating byte. *)
Lemma put_varint_shape v :
  in_u 64 v -> exists l x, put_varint v = l ++ [x] /\
    existsb (fun b => Z.land b 0x80 =? 0) l = false /\ (Z.land x 0x80 =? 0) = true /\
    (length l <= 9)%nat.
Proof.
  intros Hv.
  assert (forall n v, 0 <= v < 2 ^ (7 * Z.of_nat (S n)) ->
    exists l x, put_varint_loop (S n) v = l ++ [x] /\
    existsb (fun b => Z.land b 0x80 =? 0) l = false /\ (Z.land x 0x80 =? 0) = true /\
    (length l <= n)%nat) as H.
  { clear. induction n as [|n IH]; intros v Hv.
    - cbn [put_varint_loop]. change (2 ^ (7 * Z.of_nat 1)) with 128 in Hv.
      rewrite (proj2 (Z.leb_gt _ _)) by lia. exists [], (wrap 8 v). split_and!; [done|done| |done].
      unfold wrap. rewrite Z.mod_small by (change (2 ^ 8) with 256; lia).
      rewrite land_128 by lia. lia.
    - cbn [put_varint_loop]. destruct (Z.leb_spec 0x80 v) as [Hge|Hlt].
      + destruct (IH (Z.shiftr v 7)) as (l & x & E & H1 & H2 & H3).
        { rewrite Z.shiftr_div_pow2 by lia. change (2 ^ 7) with 128.
          split; [apply Z.div_pos; lia|]. apply Z.div_lt_upper_bound; [lia|].
          replace (7 * Z.of_nat (S (S n))) with (7 + 7 * Z.of_nat (S n)) in Hv by lia.
          rewrite Z.pow_add_r in Hv by lia. change (2 ^ 7) with 128 in Hv. lia. }
        cbn [put_varint_loop] in E. rewrite E. exists (Z.lor (Z.land (wrap 8 v) 0x7F) 0x80 :: l), x.
        split_and!; [done| |done|cbn [length]; lia]. cbn [existsb]. rewrite H1, orb_false_r.
        rewrite continuation_byte by lia. pose proof (Z.mod_pos_bound v 128).
        rewrite land_128 by lia. lia.
      + exists [], (wrap 8 v). split_and!; [done|done| |cbn [length]; lia].
        unfold wrap. rewrite Z.mod_small by (change (2 ^ 8) with 256; lia).
        rewrite land_128 by lia. lia. }
  apply (H 9%nat). unfold in_u in Hv. split; [lia|].
  apply Z.lt_trans with (2 ^ 64); [lia|done].
Qed.

(** A canonical body names its entity by its kind byte and minimal varint. *)
Lemma raw_entity_put o :
  in_u 64 (entity_id (op_entity o)) ->
  raw_entity (put_body o) =
  element_kind_u8 (kind (op_entity o)) :: put_varint (entity_id (op_entity o)).
Proof.
  intros Hi. destruct (put_varint_shape _ Hi) as (l & x & E & Hl & Hx & Hlen).
  unfold raw_entity, entity_len, put_body, KIND_LEN, MAX_VARINT_LEN.
  change (Z.to_nat 1) with 1%nat. change (Z.to_nat 10) with 10%nat.
  cbn [drop]. rewrite E, <- app_assoc. cbn [app].
  rewrite drop_0, take_app, (take_ge l 10) by lia.
  replace (10 - length l)%nat with (S (9 - length l)) by lia. cbn [take].
  rewrite position_from_app by done. rewrite Z.add_0_l, Z.min_l by lia.
  replace (Z.to_nat (1 + Z.of_nat (length l) + 1)) with (S (S (length l))) by lia.
  cbn [take]. rewrite take_app, (take_ge l) by lia.
  replace (S (length l) - length l)%nat with 1%nat by lia. done.
Qed.

Lemma raw_entity_inj o o' :
  in_u 64 (entity_id (op_entity o)) -> in_u 64 (entity_id (op_entity o')) ->
  record_key (record_of o) = record_key (record_of o') <-> op_entity o = op_entity o'.
Proof.
  intros Hi Hi'. unfold record_key, record_of. cbn [snd]. rewrite !raw_entity_put by done.
  split; [|by intros ->]. destruct (op_entity o) as [k i], (op_entity o') as [k' i'].
  cbn [kind entity_id] in *. intros [= Hk Hv].
  assert (k = k') as -> by by destruct k, k'. f_equal.
  pose proof (take_put_varint i [] Hi) as H1. rewrite Hv, take_put_varint in H1 by done. congruence.
Qed.

Definition entity_ok (o : QueuedOperation) : Prop :=
  in_u 64 (entity_id (op_entity o)).

Lemma upsert_records o l :
  entity_ok o -> Forall entity_ok l ->
  upsert record_key (record_of o) (map record_of l) = map record_of (upsert op_entity o l).
Proof.
  intros Ho. induction 1 as [|x l Hx _ IH]; cbn [map upsert]; [done|].
  destruct (decide (op_entity x = op_entity o)) as [E|E].
  - by rewrite decide_True by by apply raw_entity_inj.
  - rewrite decide_False by (rewrite raw_entity_inj; done). cbn [map]. by rewrite IH.
Qed.

Lemma Forall_upsert_op P o l : P o -> Forall P l -> Forall P (upsert op_entity o l).
Proof.
  intros Ho. induction 1; cbn [upsert]; [by repeat constructor|].
  destruct (decide _); by constructor.
Qed.

Lemma latest_records ops :
  Forall entity_ok ops ->
  latest_per_key record_key (map record_of ops) = map record_of (latest_per_key op_entity ops).
Proof.
  unfold latest_per_key. intros H.
  assert (forall acc, Forall entity_ok acc ->
    fold_left (fun a r => upsert record_key r a) (map record_of ops) (map record_of acc) =
    map record_of (fold_left (fun a o => upsert op_entity o a) ops acc)) as G; [|by apply (G [])].
  induction H as [|o ops Ho _ IH]; intros acc Hacc; cbn [map fold_left]; [done|].
  rewrite upsert_records by done. apply IH. by apply Forall_upsert_op.
Qed.

Lemma Forall_latest_op P ops : Forall P ops -> Forall P (latest_per_key op_entity ops).
Proof.
  intros H. unfold latest_per_key. assert (Forall P []) as Ha by constructor. revert Ha.
  generalize (@nil QueuedOperation). induction H; intros acc Hacc; cbn [fold_left]; [done|].
  auto using Forall_upsert_op.
Qed.

Lemma record_weight_of o : op_ok o -> record_weight (record_of o) = retained_bytes o.
Proof.
  intros (_ & Hi & Hp & _). unfold record_weight, record_of, retained_bytes. cbn [snd].
  by rewrite blen_put_body.
Qed.

Lemma fitting_records budget charged ops :
  Forall op_ok ops ->
  fitting record_weight budget charged (map record_of ops) =
  let '(s, r) := fitting retained_bytes budget charged ops in (map record_of s, r).
Proof.
  intros H; revert charged; induction H as [|o ops Ho _ IH]; intros charged; [done|].
  cbn [map fitting]. rewrite record_weight_of by done. destruct (_ <? _); [done|].
  rewrite IH. by destruct (fitting retained_bytes budget _ ops).
Qed.

Lemma total_records ops :
  Forall op_ok ops -> total record_weight (map record_of ops) = total retained_bytes ops.
Proof.
  unfold total. induction 1 as [|o ops Ho _ IH]; [done|]. cbn [map foldr].
  by rewrite IH, record_weight_of.
Qed.

Lemma select_latest_ops ops budget :
  Forall op_ok ops -> in_u 64 budget -> total retained_bytes ops <= umax 64 ->
  exists refused,
    select_latest (map (fun o => Ok (record_of o)) ops) budget =
      Ok (Some (map record_of (fitting retained_bytes budget 0 (latest_per_key op_entity ops)).1,
                refused)) /\
    reach_ok budget (fitting retained_bytes budget 0 (latest_per_key op_entity ops)).2 refused.
Proof.
  intros Hok Hb Ht. rewrite <- (map_map record_of Ok).
  assert (Forall entity_ok ops) as He by (eapply Forall_impl; [exact Hok|]; by intros o (_ & ? & _)).
  destruct (select_latest_spec (map record_of ops) budget) as (refused & E & Hr).
  - apply Forall_fmap. eapply Forall_impl; [exact Hok|]. intros o (_ & Hi & Hp & Hl).
    cbn. rewrite blen_put_body by done. split; [done|by apply body_encoded_len_min].
  - done.
  - by rewrite total_records.
  - exists refused. rewrite latest_records, fitting_records in E, Hr
      by (done || by apply Forall_latest_op).
    destruct (fitting retained_bytes _ _ _) as [s r]. done.
Qed.

Lemma decode_selected_ops fam ops refused :
  Forall op_ok ops -> Forall (fun o => payload_family (op_payload o) = fam) ops ->
  decode_selected fam (map record_of ops) refused =
  Ok {| lo_family := fam; lo_operations := ops; lo_refused := refused |}.
Proof.
  intros Hok Hf. unfold decode_selected. rewrite map_map.
  assert (map (fun o => decode_body fam (record_of o).1 (record_of o).2) ops = map Ok ops) as ->.
  { induction Hok as [|o ops Ho _ IH]; [done|]. apply Forall_cons in Hf as [<- Hf].
    cbn [map]. rewrite IH by done. cbn [record_of fst snd]. by rewrite decode_put_body. }
  by rewrite collect_map_ok.
Qed.

Lemma decode_each_inv fam ids rs ops :
  Forall (fun r => match r with Ok r => record_ok r | Err _ => True end) rs ->
  decode_each (decode_body fam) ids rs = Ok ops ->
  rs = map (fun o => Ok (record_of o)) ops /\ Forall op_ok ops /\
  Forall (fun o => payload_family (op_payload o) = fam) ops.
Proof.
  intros H; revert ids ops; induction H as [|r rs Hr _ IH]; intros ids ops E; cbn [decode_each] in E.
  { injection E as <-. by split_and!. }
  destruct r as [[id body]|]; [|done]. cbn [result_bind] in E.
  destruct (negb _); [|done].
  apply result_bind_ok in E as (o & Eo & E). apply result_bind_ok in E as (rest & Er & [= <-]).
  destruct (IH _ _ Er) as (-> & Hok & Hf). destruct Hr as (Hid & Hb & Hl).
  apply decode_body_inv in Eo as (Ho & Hfam & Hoid & Hbody); [|done..]. cbn [fst snd] in *.
  cbn [map]. unfold record_of at 2. rewrite Hbody, Hoid. by split_and!; [|constructor|constructor].
Qed.

Lemma records_from_blen n c rs :
  bytes_ok c -> records_from n c = map Ok rs -> c = flat_map put_record rs /\ Forall record_ok rs.
Proof.
  revert c rs; induction n as [|n IH]; intros c rs Hc; cbn [records_from].
  { destruct (finish _ c) as [[]|e] eqn:E; [|destruct rs as [|? []]; done].
    apply finish_ok in E as ->. destruct rs; [done|done]. }
  destruct (take_record c) as [[[id body] c']|e] eqn:E; [|destruct rs as [|? []]; done].
  apply take_record_inv in E as (Hid & Hl & ->); [|done]. apply Forall_app in Hc as [Hr Hc].
  destruct rs as [|r rs]; [done|]. cbn [map flat_map]. intros [= <- Hrs].
  destruct (IH _ _ Hc Hrs) as [<- Hok]. split; [done|]. constructor; [|done].
  split_and!; [done| |done]. cbn [snd]. unfold put_raw_insert in Hr.
  by apply Forall_cons in Hr as [_ [_ [_ ?]%Forall_app]%Forall_app].
Qed.

Lemma blen_put_records rs :
  Forall record_ok rs -> blen (flat_map put_record rs) = total record_weight rs.
Proof.
  unfold total. induction 1 as [|[id b] rs (_ & _ & Hl) _ IH]; [done|]. cbn [flat_map foldr].
  rewrite blen_app, IH. unfold put_record, put_raw_insert, record_weight, retained_len.
  cbn [fst snd] in *. autorewrite with bytes_len. rewrite blen_put_varint by done.
  unfold MODE_LEN, OPERATION_ID_LEN. lia.
Qed.

Lemma resolved_records_blen v fam rs :
  bytes_ok v -> resolved_records v = Ok (fam, map Ok rs) -> total record_weight rs <= blen v.
Proof.
  intros Hv H. unfold resolved_records in H.
  apply result_bind_ok in H as ([f c] & ->%parse_header_inv & H).
  apply Forall_app in Hv as [_ Hc].
  apply result_bind_ok in H as ([n c1] & E & H).
  apply take_varint_inv in E as [_ ->]; [|done]. apply Forall_app in Hc as [_ Hc].
  destruct (n =? 0); [|done].
  apply result_bind_ok in H as ([k c2] & E' & H).
  apply bounded_count_inv in E' as [_ ->]; [|done]. apply Forall_app in Hc as [_ Hc].
  destruct (negb _); [|done]. injection H as _ H.
  apply records_from_blen in H as [-> Hok]; [|done]. rewrite <- blen_put_records by done.
  autorewrite with bytes_len. repeat match goal with |- context [blen (put_header ?f)] =>
    change (blen (put_header f)) with 3 end.
  pose proof (blen_nonneg (put_varint n)). pose proof (blen_nonneg (put_varint k)). lia.
Qed.

(** [C18] A budgeted search read refines full decoding: whenever the whole
    queue decodes, [LatestOperations::decode] does not panic and returns the
    longest prefix, in order of each entity's oldest operation, of the
    entities' latest operations whose retained bytes fit the budget. It
    reports a refusal exactly when an entity is left out, and then a reach
    above the budget and at most the true one. *)
Theorem latest_refines (value : bytes) (budget : Z) fam ops :
  bytes_ok value -> in_u 64 (blen value) -> in_u 64 budget ->
  decode_queue_value value = Ok (fam, ops) ->
  let '(selected, reference) :=
    fitting retained_bytes budget 0 (latest_per_key op_entity ops) in
  exists refused,
    latest_decode value budget =
      Ok (Some {| lo_family := fam; lo_operations := selected; lo_refused := refused |}) /\
    reach_ok budget reference refused.
Proof.
  intros Hv Hl Hb H. unfold decode_queue_value, decode_unique in H. unfold latest_decode.
  apply result_bind_ok in H as ([f rs] & E & H). apply result_bind_ok in H as (l & Ed & [= -> ->]).
  pose proof (resolved_records_inv _ _ _ Hv E) as Hrs.
  apply decode_each_inv in Ed as (-> & Hok & Hf); [|done].
  rewrite <- (map_map record_of Ok) in E. pose proof (resolved_records_blen _ _ _ Hv E) as Ht.
  rewrite total_records in Ht by done. rewrite E. bind_simpl. rewrite map_map.
  destruct (select_latest_ops ops budget) as (refused & Es & Hr); [done|done| |].
  { unfold in_u, umax in *. lia. }
  rewrite Es. bind_simpl.
  pose proof (fitting_prefix retained_bytes budget 0 (latest_per_key op_entity ops)) as [rest Hp].
  pose proof (Forall_latest_op _ _ Hok) as Hok'. pose proof (Forall_latest_op _ _ Hf) as Hf'.
  rewrite Hp in Hok', Hf'. apply Forall_app in Hok' as [Hok' _]. apply Forall_app in Hf' as [Hf' _].
  destruct (fitting retained_bytes budget 0 (latest_per_key op_entity ops)) as [s r].
  cbn [fst snd] in *. exists refused. by rewrite decode_selected_ops.
Qed.

(** Two operations of one node around one of another. *)
Definition text_deletion (id node : Z) : QueuedOperation :=
  {| op_id := id; op_entity := {| kind := Node; entity_id := node |};
     op_payload := TextPayload {| tp_replacement := None |} |}.
Definition sample_value : bytes :=
  put_resolved Text (map record_of [text_deletion 1 7; text_deletion 2 8; text_deletion 3 7]).

Lemma latest_refines_witness :
  exists refused,
    latest_decode sample_value 21 =
      Ok (Some {| lo_family := Text; lo_operations := [text_deletion 3 7]; lo_refused := refused |}) /\
    reach_ok 21 (Some 42) refused.
Proof.
  exact (latest_refines sample_value 21 Text
    [text_deletion 1 7; text_deletion 2 8; text_deletion 3 7]
    ltac:(apply (bool_decide_unpack _); vm_compute; exact I)
    ltac:(apply (bool_decide_unpack _); vm_compute; exact I)
    ltac:(apply (bool_decide_unpack _); vm_compute; exact I)
    ltac:(vm_compute; reflexivity)).
Defined.

Lemma row_records_spec fam rows ops :
  Forall (fun row => bytes_ok row /\ in_u 64 (blen row)) rows ->
  Forall2 (fun row o => row_decode row = Ok (fam, o)) rows ops ->
  forall captured, (captured = None \/ captured = Some fam) ->
  row_records captured rows =
    (map (fun o => Ok (record_of o)) ops, if rows is [] then captured else Some fam) /\
  Forall op_ok ops /\ Forall (fun o => payload_family (op_payload o) = fam) ops.
Proof.
  intros Hrows H. induction H as [|row o rows ops Ho Hr IH]; intros captured Hc; [by split_and!|].
  apply Forall_cons in Hrows as [[Hb Hl] Hrows]. cbn [row_records map].
  unfold row_decode in Ho. apply result_bind_ok in Ho as ([[f id] body] & Es & Ho).
  apply result_bind_ok in Ho as (o' & Eb & [= -> ->]).
  apply row_split_inv in Es as Hi; [|done..]. destruct Hi as [(Hid & Hb' & Hl') _].
  cbn [fst snd] in *. apply decode_body_inv in Eb as (Hop & Hfam & Hoid & Hbody); [|done..].
  rewrite Es. destruct (IH Hrows (Some fam) ltac:(by right)) as (E & Hok & Hf).
  assert (match captured with Some f => f | None => fam end = fam) as ->
    by (destruct Hc as [->| ->]; done).
  rewrite bool_decide_true by done. rewrite E. unfold record_of at 2. rewrite Hbody, Hoid.
  split_and!; [|by constructor|by constructor]. by destruct rows.
Qed.

(** The row layout's budgeted read refines row decoding in the same way:
    rows that decode, all of one family, yield the same selection as the queue
    of their operations, and no rows yield no selection. *)
Theorem latest_rows_refine (rows : list bytes) (budget : Z) fam ops :
  Forall (fun row => bytes_ok row /\ in_u 64 (blen row)) rows -> in_u 64 budget ->
  Forall2 (fun row o => row_decode row = Ok (fam, o)) rows ops ->
  total retained_bytes ops <= umax 64 ->
  let '(selected, reference) :=
    fitting retained_bytes budget 0 (latest_per_key op_entity ops) in
  exists refused,
    latest_decode_rows rows budget =
      Ok (Some match rows with
               | [] => None
               | _ => Some {| lo_family := fam; lo_operations := selected; lo_refused := refused |}
               end) /\
    reach_ok budget reference refused.
Proof.
  intros Hrows Hb H Ht. unfold latest_decode_rows.
  destruct (row_records_spec fam rows ops Hrows H None ltac:(by left)) as (-> & Hok & Hf).
  destruct (select_latest_ops ops budget) as (refused & Es & Hr); [done..|].
  rewrite Es. bind_simpl.
  pose proof (fitting_prefix retained_bytes budget 0 (latest_per_key op_entity ops)) as [rest Hp].
  pose proof (Forall_latest_op _ _ Hok) as Hok'. pose proof (Forall_latest_op _ _ Hf) as Hf'.
  rewrite Hp in Hok', Hf'. apply Forall_app in Hok' as [Hok' _]. apply Forall_app in Hf' as [Hf' _].
  destruct (fitting retained_bytes budget 0 (latest_per_key op_entity ops)) as [s r].
  cbn [fst snd] in *. exists refused. split; [|done]. destruct rows as [|row rows]; [done|].
  by rewrite decode_selected_ops.
Qed.

Lemma latest_rows_refine_witness :
  exists refused,
    latest_decode_rows (map (row_encode Text) [text_deletion 1 7; text_deletion 3 7]) 100 =
      Ok (Some (Some {| lo_family := Text; lo_operations := [text_deletion 3 7];
                        lo_refused := refused |})) /\
    reach_ok 100 None refused.
Proof.
  exact (latest_rows_refine (map (row_encode Text) [text_deletion 1 7; text_deletion 3 7]) 100 Text
    [text_deletion 1 7; text_deletion 3 7]
    ltac:(apply (bool_decide_unpack _); vm_compute; exact I)
    ltac:(apply (bool_decide_unpack _); vm_compute; exact I)
    ltac:(repeat constructor)
    ltac:(vm_compute; discriminate)).
Defined.

End QueueLatest.
