(* ===== verification/QueueAlgebra.v ===== *)
(** The associative merge algebra over raw queue values:
    crates/db/src/encoding/v2/values/indexes/operation_queue/algebra.rs.

    [Composition] keeps every slot it ever pushed, marks superseded ones dead,
    and finds the live slot of an identifier through an index map. Theorems:
    merging never panics, implements an ordered queue, and is insensitive to
    grouping on the histories storage can present. *)
From S2P Require Import Prelude Bytes Cursor QueueCodec.

Open Scope Z_scope.

Module QueueAlgebra.
Import Cursor QueueCodec.

(** An error the code returns, or a panic (an index out of range). *)
Inductive Fault :=
| Failed (e : EncodingError)
| Panicked.

Definition lift {A} (r : result EncodingError A) : result Fault A :=
  match r with
  | Ok a => Ok a
  | Err e => Err (Failed e)
  end.

Record Slot := { slot_mode : InsertMode; slot_id : Z; slot_body : bytes; slot_live : bool }.

Record Composition := {
  c_family : QueueFamily;
  c_removes : gset Z;
  c_slots : list Slot;
  c_live : gmap Z nat;
  c_input_bytes : Z;
}.

Definition new (family : QueueFamily) : Composition :=
  {| c_family := family; c_removes := ∅; c_slots := []; c_live := ∅; c_input_bytes := 0 |}.

(** [self.slots[i].live = false] *)
Definition kill (i : nat) (slots : list Slot) : result Fault (list Slot) :=
  match slots !! i with
  | None => Err Panicked
  | Some s =>
      Ok (<[i := {| slot_mode := slot_mode s; slot_id := slot_id s; slot_body := slot_body s;
                    slot_live := false |}]> slots)
  end.

Definition push (mode : InsertMode) (insert : RawInsert) (c : Composition) : Composition :=
  {| c_family := c_family c; c_removes := c_removes c;
     c_slots := c_slots c ++ [{| slot_mode := mode; slot_id := ri_id insert;
                                 slot_body := ri_body insert; slot_live := true |}];
     c_live := <[ri_id insert := length (c_slots c)]> (c_live c);
     c_input_bytes := c_input_bytes c |}.

(** One iteration of the removal loop of [follow]. *)
Definition follow_remove (c : Composition) (id : Z) : result Fault Composition :=
  match c_live c !! id with
  | None =>
      Ok {| c_family := c_family c; c_removes := {[ id ]} ∪ c_removes c; c_slots := c_slots c;
            c_live := c_live c; c_input_bytes := c_input_bytes c |}
  | Some slot =>
      let live := delete id (c_live c) in
      let? slots := kill slot (c_slots c) in
      let? s := ok_or (slots !! slot) Panicked in
      Ok {| c_family := c_family c;
            c_removes := if decide (slot_mode s = SetMode) then {[ id ]} ∪ c_removes c
                         else c_removes c;
            c_slots := slots; c_live := live; c_input_bytes := c_input_bytes c |}
  end.

(** One iteration of the insert loop of [follow]. *)
Definition follow_insert (c : Composition) (insert : RawInsert) : result Fault Composition :=
  if decide (ri_id insert ∈ c_removes c) then
    Ok (push SetMode insert
      {| c_family := c_family c; c_removes := c_removes c ∖ {[ ri_id insert ]};
         c_slots := c_slots c; c_live := c_live c; c_input_bytes := c_input_bytes c |})
  else
    match c_live c !! ri_id insert with
    | None => Ok (push (ri_mode insert) insert c)
    | Some existing =>
        match ri_mode insert with
        | IfAbsent => Ok c
        | SetMode =>
            let? slots := kill existing (c_slots c) in
            Ok (push SetMode insert
              {| c_family := c_family c; c_removes := c_removes c; c_slots := slots;
                 c_live := c_live c; c_input_bytes := c_input_bytes c |})
        end
    end.

(** [for x in xs { step(&mut c, x) }] *)
Fixpoint each {A} (step : Composition -> A -> result Fault Composition) (c : Composition)
    (xs : list A) : result Fault Composition :=
  match xs with
  | [] => Ok c
  | x :: xs => let? c := step c x in each step c xs
  end.

Definition follow (c : Composition) (value : RawValue) (encoded_len : Z)
  : result Fault Composition :=
  if negb (bool_decide (rv_family value = c_family c)) then
    Err (Failed (Custom "operation queue merge mixes index families"))
  else
    let c := {| c_family := c_family c; c_removes := c_removes c; c_slots := c_slots c;
                c_live := c_live c;
                c_input_bytes := sat_add 64 (c_input_bytes c) encoded_len |} in
    let? c := each follow_remove c (rv_removes value) in
    each follow_insert c (rv_inserts value).

Definition live_slots (c : Composition) : list Slot :=
  filter (fun s => slot_live s = true) (c_slots c).

(** [encode_partial]; a [BTreeSet] iterates in ascending order. *)
Definition encode_partial (c : Composition) : bytes :=
  put_header (c_family c) ++ put_varint (Z.of_nat (size (c_removes c)))
  ++ flat_map (to_be 16) (sort_ids (elements (c_removes c)))
  ++ put_varint (Z.of_nat (size (c_live c)))
  ++ flat_map (fun s => put_raw_insert (slot_mode s) (slot_id s) (slot_body s)) (live_slots c).

Definition encode_resolved (c : Composition) : option bytes :=
  if decide (size (c_live c) = 0%nat) then None
  else
    Some (put_header (c_family c) ++ put_varint 0
      ++ put_varint (Z.of_nat (size (c_live c)))
      ++ flat_map (fun s => put_raw_insert IfAbsent (slot_id s) (slot_body s)) (live_slots c)).

Fixpoint compose_loop (c : option Composition) (values : list bytes)
  : result Fault (option Composition) :=
  match values with
  | [] => Ok c
  | value :: values =>
      let? raw := lift (parse value) in
      let composition := match c with Some c => c | None => new (rv_family raw) end in
      let? composition := follow composition raw (blen value) in
      compose_loop (Some composition) values
  end.
Definition compose (values : list bytes) : result Fault (option Composition) :=
  compose_loop None values.

Inductive QueueMergeResult :=
| Value (value : bytes)
| Empty.

Definition chain (first : option bytes) (operands : list bytes) : list bytes :=
  match first with
  | Some v => v :: operands
  | None => operands
  end.

Definition merge_partial (existing : option bytes) (operands : list bytes)
  : result Fault bytes :=
  let? composition := compose (chain existing operands) in
  match composition with
  | Some c => Ok (encode_partial c)
  | None => Err (Failed (Custom "operation queue merge has no operands"))
  end.

Definition merge_with_base (base : option bytes) (operands : list bytes)
  : result Fault QueueMergeResult :=
  let? composition := compose (chain base operands) in
  Ok match composition with
     | Some c => match encode_resolved c with Some v => Value v | None => Empty end
     | None => Empty
     end.

(** ** The abstract composition

    What a composition means: the identifiers whose removal is still pending,
    and the surviving inserts in effective order. *)

Record state := { pending : gset Z; entries : list RawInsert }.

Definition drop_id (id : Z) (l : list RawInsert) : list RawInsert :=
  filter (fun r => ri_id r <> id) l.
Fixpoint find_id (id : Z) (l : list RawInsert) : option RawInsert :=
  match l with
  | [] => None
  | r :: l => if decide (ri_id r = id) then Some r else find_id id l
  end.
Definition with_mode (m : InsertMode) (r : RawInsert) : RawInsert :=
  {| ri_mode := m; ri_id := ri_id r; ri_body := ri_body r |}.

Definition remove (s : state) (id : Z) : state :=
  match find_id id (entries s) with
  | None => {| pending := {[ id ]} ∪ pending s; entries := entries s |}
  | Some r =>
      {| pending := if decide (ri_mode r = SetMode) then {[ id ]} ∪ pending s else pending s;
         entries := drop_id id (entries s) |}
  end.

Definition insert_record (s : state) (r : RawInsert) : state :=
  if decide (ri_id r ∈ pending s) then
    {| pending := pending s ∖ {[ ri_id r ]}; entries := entries s ++ [with_mode SetMode r] |}
  else
    match find_id (ri_id r) (entries s), ri_mode r with
    | None, _ => {| pending := pending s; entries := entries s ++ [r] |}
    | Some _, IfAbsent => s
    | Some _, SetMode =>
        {| pending := pending s; entries := drop_id (ri_id r) (entries s) ++ [r] |}
    end.

Definition apply_value (s : state) (v : RawValue) : state :=
  fold_left insert_record (rv_inserts v) (fold_left remove (rv_removes v) s).

Definition empty_state : state := {| pending := ∅; entries := [] |}.

(** ** Lists of records *)

Abbreviation ids l := (map ri_id l).

Lemma find_id_app id l1 l2 :
  find_id id (l1 ++ l2) = match find_id id l1 with Some r => Some r | None => find_id id l2 end.
Proof. induction l1 as [|r l1 IH]; cbn [app find_id]; [done|]. by destruct (decide _). Qed.

Lemma find_id_none id l : find_id id l = None <-> id ∉ ids l.
Proof.
  induction l as [|r l IH]; cbn [find_id map]; [set_solver|].
  destruct (decide (ri_id r = id)); set_solver.
Qed.

Lemma find_id_some id l r : find_id id l = Some r -> r ∈ l /\ ri_id r = id.
Proof.
  induction l as [|x l IH]; cbn [find_id]; [done|].
  destruct (decide (ri_id x = id)); [intros [= <-]; set_solver|].
  intros [? ?]%IH. set_solver.
Qed.

Lemma find_id_in id l : id ∈ ids l -> exists r, find_id id l = Some r.
Proof.
  intros H. destruct (find_id id l) eqn:E; [eauto|]. by apply find_id_none in E.
Qed.

Lemma drop_id_app id l1 l2 : drop_id id (l1 ++ l2) = drop_id id l1 ++ drop_id id l2.
Proof. apply filter_app. Qed.

Lemma drop_id_notin id l : id ∉ ids l -> drop_id id l = l.
Proof.
  unfold drop_id. induction l as [|r l IH]; cbn [map]; [done|]. intros H.
  rewrite filter_cons_True by set_solver. rewrite IH; set_solver.
Qed.

Lemma elem_ids_drop x id l : x ∈ ids (drop_id id l) <-> x ∈ ids l /\ x <> id.
Proof.
  unfold drop_id. rewrite !list_elem_of_fmap. setoid_rewrite list_elem_of_filter.
  naive_solver.
Qed.

Lemma nodup_drop id l : NoDup (ids l) -> NoDup (ids (drop_id id l)).
Proof.
  induction l as [|r l IH]; [done|]. cbn [map]. intros [Hr Hl]%NoDup_cons.
  unfold drop_id in *. destruct (decide (ri_id r <> id)).
  - rewrite filter_cons_True by done. cbn [map]. apply NoDup_cons. split; [|by apply IH].
    intros [H _]%elem_ids_drop. done.
  - rewrite filter_cons_False by done. by apply IH.
Qed.

(** ** The concrete composition implements the abstract one *)

Definition entry (s : Slot) : RawInsert :=
  {| ri_mode := slot_mode s; ri_id := slot_id s; ri_body := slot_body s |}.
Definition survivors (slots : list Slot) : list RawInsert :=
  map entry (filter (fun s => slot_live s = true) slots).
Definition abs (c : Composition) : state :=
  {| pending := c_removes c; entries := survivors (c_slots c) |}.

(** The index map names exactly the live slots, and no pending removal has a
    live slot. *)
Record comp_ok (c : Composition) : Prop := {
  live_indexed : forall id i, c_live c !! id = Some i <->
    exists s, c_slots c !! i = Some s /\ slot_live s = true /\ slot_id s = id;
  pending_dead : forall id, id ∈ c_removes c -> c_live c !! id = None;
}.

Definition dead (s : Slot) : Slot :=
  {| slot_mode := slot_mode s; slot_id := slot_id s; slot_body := slot_body s; slot_live := false |}.

Lemma survivors_app l1 l2 : survivors (l1 ++ l2) = survivors l1 ++ survivors l2.
Proof. unfold survivors. by rewrite filter_app, map_app. Qed.

Lemma survivors_live s : slot_live s = true -> survivors [s] = [entry s].
Proof. intros H. unfold survivors. by rewrite filter_cons_True. Qed.

Lemma survivors_dead s : slot_live s = false -> survivors [s] = [].
Proof. intros H. unfold survivors. by rewrite filter_cons_False by by rewrite H. Qed.

Lemma survivors_ids x slots :
  x ∈ ids (survivors slots) <->
  exists i s, slots !! i = Some s /\ slot_live s = true /\ slot_id s = x.
Proof.
  unfold survivors. rewrite map_map, list_elem_of_fmap. setoid_rewrite list_elem_of_filter.
  setoid_rewrite list_elem_of_lookup. split.
  - intros (s & -> & Hl & i & Hi). eauto.
  - intros (i & s & Hi & Hl & <-). exists s. eauto.
Qed.

(** The survivors around the live slot of an identifier. *)
Lemma live_split c id i :
  comp_ok c -> c_live c !! id = Some i ->
  exists l1 s l2, c_slots c = l1 ++ s :: l2 /\ i = length l1 /\ slot_live s = true /\
    slot_id s = id /\ id ∉ ids (survivors l1) /\ id ∉ ids (survivors l2).
Proof.
  intros Hc Hi. apply (live_indexed _ Hc) in Hi as H. destruct H as (s & Hs & Hl & Hid).
  pose proof (take_drop_middle _ _ _ Hs) as E.
  assert (i < length (c_slots c))%nat by by eapply lookup_lt_Some.
  assert (forall j s', c_slots c !! j = Some s' -> slot_live s' = true -> slot_id s' = id -> j = i) as Hu.
  { intros j s' H1 H2 H3. assert (c_live c !! id = Some j) by (apply (live_indexed _ Hc); eauto).
    congruence. }
  exists (take i (c_slots c)), s, (drop (S i) (c_slots c)).
  split_and!; [by rewrite E|rewrite length_take; lia|done|done| |];
    rewrite survivors_ids; intros (j & s' & H1 & H2 & H3).
  - apply lookup_take_Some in H1 as [H1 ?]. specialize (Hu _ _ H1 H2 H3). lia.
  - rewrite lookup_drop in H1. specialize (Hu _ _ H1 H2 H3). lia.
Qed.

Lemma find_survivor c id :
  comp_ok c ->
  find_id id (survivors (c_slots c)) = c_live c !! id ≫= fun i => entry <$> c_slots c !! i.
Proof.
  intros Hc. destruct (c_live c !! id) as [i|] eqn:E; cbn.
  - destruct (live_split _ _ _ Hc E) as (l1 & s & l2 & Hs & -> & Hl & Hid & H1 & H2).
    rewrite Hs, list_lookup_middle by done. change (s :: l2) with ([s] ++ l2).
    rewrite !survivors_app, !find_id_app, (proj2 (find_id_none _ _) H1), survivors_live by done.
    cbn [find_id entry ri_id]. by rewrite decide_True.
  - apply find_id_none. rewrite survivors_ids. intros (i & s & Hi & Hl & Hid).
    assert (c_live c !! id = Some i) by (apply (live_indexed _ Hc); eauto). congruence.
Qed.

Lemma kill_survivor c id i :
  comp_ok c -> c_live c !! id = Some i ->
  exists s slots, kill i (c_slots c) = Ok slots /\ c_slots c !! i = Some s /\
    slots = <[i := dead s]> (c_slots c) /\ slots !! i = Some (dead s) /\
    survivors slots = drop_id id (survivors (c_slots c)).
Proof.
  intros Hc E. destruct (live_split _ _ _ Hc E) as (l1 & s & l2 & Hs & -> & Hl & Hid & H1 & H2).
  exists s, (<[length l1 := dead s]> (c_slots c)). unfold kill.
  rewrite Hs, list_lookup_middle by done. split_and!; [done|done|done| |].
  - rewrite list_lookup_insert_eq; [done|]. rewrite length_app. simpl. lia.
  - replace (length l1) with (length l1 + 0)%nat by lia. rewrite insert_app_r. cbn [insert list_insert].
    change (s :: l2) with ([s] ++ l2). change (dead s :: l2) with ([dead s] ++ l2).
    rewrite !survivors_app, (survivors_live s), (survivors_dead (dead s)), !drop_id_app by done.
    rewrite (drop_id_notin _ _ H1), (drop_id_notin _ _ H2). unfold drop_id at 1.
    rewrite filter_cons_False; [done|]. cbn. tauto.
Qed.

Lemma new_ok f : comp_ok (new f) /\ abs (new f) = empty_state.
Proof.
  split; [|done]. split; cbn [new c_live c_slots c_removes].
  - intros id i. rewrite lookup_empty. split; [done|]. by intros (? & ? & _).
  - set_solver.
Qed.

(** Appending a live slot for an identifier that has none. *)
Lemma push_ok m r c :
  comp_ok c -> ri_id r ∉ c_removes c -> ri_id r ∉ ids (survivors (c_slots c)) ->
  comp_ok (push m r c) /\
  abs (push m r c) = {| pending := c_removes c; entries := survivors (c_slots c) ++ [with_mode m r] |}.
Proof.
  intros Hc Hr Hs. split; [split|].
  - intros id i. cbn [push c_live c_slots].
    destruct (decide (ri_id r = id)) as [<-|Hne].
    + rewrite lookup_insert_eq. split.
      * intros [= <-]. rewrite list_lookup_middle by done. eauto.
      * intros (s & Hi & Hl & Hid). apply lookup_app_Some in Hi as [Hi|[Hi Hx]].
        -- exfalso. apply Hs. apply survivors_ids. eauto.
        -- apply lookup_lt_Some in Hx. simpl in Hx. f_equal. lia.
    + rewrite lookup_insert_ne by done. rewrite (live_indexed _ Hc). split.
      * intros (s & Hi & H). exists s. split; [|done]. by apply lookup_app_l_Some.
      * intros (s & Hi & Hl & Hid). exists s. split; [|done].
        apply lookup_app_Some in Hi as [Hi|[Hi Hx]]; [done|].
        apply list_lookup_singleton_Some in Hx as [_ <-]. by cbn in Hid.
  - intros id Hid. cbn [push c_live c_removes] in *.
    rewrite lookup_insert_ne by (intros <-; done). by apply (pending_dead _ Hc).
  - unfold abs. cbn [push c_removes c_slots]. by rewrite survivors_app.
Qed.

(** Removing the index of a killed slot. *)
Lemma killed_index c id i s :
  comp_ok c -> c_live c !! id = Some i -> c_slots c !! i = Some s ->
  forall id' j, delete id (c_live c) !! id' = Some j <->
    exists s', <[i := dead s]> (c_slots c) !! j = Some s' /\ slot_live s' = true /\ slot_id s' = id'.
Proof.
  intros Hc Hi Hs id' j.
  assert (i < length (c_slots c))%nat by by eapply lookup_lt_Some.
  rewrite lookup_delete_Some, (live_indexed _ Hc). split.
  - intros [Hne (s' & Hj & Hl & Hid)]. exists s'. split; [|done].
    rewrite list_lookup_insert_ne; [done|]. intros ->. rewrite Hs in Hj. injection Hj as <-.
    apply (live_indexed _ Hc) in Hi as (s'' & Hi' & _ & <-). congruence.
  - intros (s' & Hj & Hl & Hid). destruct (decide (i = j)) as [<-|Hne].
    + rewrite list_lookup_insert_eq in Hj by done. injection Hj as <-. done.
    + rewrite list_lookup_insert_ne in Hj by done. split; [|eauto]. intros <-.
      assert (c_live c !! id = Some j) by (apply (live_indexed _ Hc); eauto). congruence.
Qed.

Lemma follow_remove_spec c id :
  comp_ok c -> exists c', follow_remove c id = Ok c' /\ comp_ok c' /\ abs c' = remove (abs c) id /\
    c_family c' = c_family c.
Proof.
  intros Hc. unfold follow_remove, remove. cbn [abs entries pending].
  rewrite find_survivor by done.
  destruct (c_live c !! id) as [i|] eqn:E; cbn [mbind option_bind].
  - destruct (kill_survivor _ _ _ Hc E) as (s & slots & -> & Hs & -> & Hd & Hsv).
    bind_simpl. rewrite Hd, Hs. cbn. eexists. split; [done|]. split_and!; [|by unfold abs; cbn [c_removes c_slots]; rewrite Hsv|done].
    split; cbn.
    + by apply killed_index.
    + intros id' Hid'. rewrite lookup_delete_None. destruct (decide (id = id')); [by left|right].
      apply (pending_dead _ Hc). destruct (decide _); set_solver.
  - eexists. split; [done|]. split_and!; [|done|done]. split; cbn.
    + apply (live_indexed _ Hc).
    + intros id' [->%elem_of_singleton|?]%elem_of_union; [done|by apply (pending_dead _ Hc)].
Qed.

Lemma live_not_pending c id i : comp_ok c -> c_live c !! id = Some i -> id ∉ c_removes c.
Proof. intros Hc Hi Hr. apply (pending_dead _ Hc) in Hr. congruence. Qed.

Lemma with_mode_same r : with_mode (ri_mode r) r = r.
Proof. by destruct r. Qed.

Lemma follow_insert_spec c r :
  comp_ok c -> exists c', follow_insert c r = Ok c' /\ comp_ok c' /\
    abs c' = insert_record (abs c) r /\ c_family c' = c_family c.
Proof.
  intros Hc. unfold follow_insert, insert_record. cbn [abs entries pending].
  pose proof (find_survivor c (ri_id r) Hc) as Hf.
  destruct (decide (ri_id r ∈ c_removes c)) as [Hin|Hnin].
  - rewrite (pending_dead _ Hc) in Hf by done. cbn in Hf. apply find_id_none in Hf.
    eexists. split; [done|].
    pose proof (push_ok SetMode r {| c_family := c_family c; c_removes := c_removes c ∖ {[ri_id r]};
      c_slots := c_slots c; c_live := c_live c; c_input_bytes := c_input_bytes c |}) as [? ?];
      [|cbn; set_solver|done|done].
    split; cbn; [apply (live_indexed _ Hc)|].
    intros id [? _]%elem_of_difference. by apply (pending_dead _ Hc).
  - rewrite Hf. destruct (c_live c !! ri_id r) as [i|] eqn:E; cbn [mbind option_bind] in *.
    + destruct (kill_survivor _ _ _ Hc E) as (s & slots & Hk & Hs & -> & Hd & Hsv).
      rewrite Hs. cbn. destruct (ri_mode r) eqn:Em; [eauto|]. rewrite Hk. bind_simpl.
      eexists. split; [done|].
      set (c1 := {| c_family := c_family c; c_removes := c_removes c;
        c_slots := <[i := dead s]> (c_slots c); c_live := c_live c;
        c_input_bytes := c_input_bytes c |}).
      set (c2 := {| c_family := c_family c; c_removes := c_removes c;
        c_slots := <[i := dead s]> (c_slots c); c_live := delete (ri_id r) (c_live c);
        c_input_bytes := c_input_bytes c |}).
      assert (push SetMode r c1 = push SetMode r c2) as ->.
      { unfold push. cbn. by rewrite insert_delete_eq. }
      assert (comp_ok c2) as Hc2.
      { split; cbn; [by apply killed_index|]. intros id Hid. rewrite lookup_delete_None. right.
        by apply (pending_dead _ Hc). }
      destruct (push_ok SetMode r c2 Hc2) as [? Ha]; [done| |].
      { cbn [c2 c_slots]. rewrite Hsv. intros [_ ?]%elem_ids_drop. done. }
      split_and!; [done| |done]. rewrite Ha. cbn [c2 c_slots c_removes]. rewrite Hsv.
      unfold with_mode. destruct r as [m i' b]. cbn in Em. by subst m.
    + apply find_id_none in Hf. destruct (push_ok (ri_mode r) r c Hc Hnin Hf) as [? Ha].
      eexists. split; [done|]. split_and!; [done| |done]. by rewrite Ha, with_mode_same.
Qed.

Lemma each_spec {A} (step : Composition -> A -> result Fault Composition) (f : state -> A -> state)
    c xs :
  (forall c x, comp_ok c -> exists c', step c x = Ok c' /\ comp_ok c' /\ abs c' = f (abs c) x /\
     c_family c' = c_family c) ->
  comp_ok c ->
  exists c', each step c xs = Ok c' /\ comp_ok c' /\ abs c' = fold_left f xs (abs c) /\
    c_family c' = c_family c.
Proof.
  intros Hstep. revert c; induction xs as [|x xs IH]; intros c Hc; cbn [each fold_left]; [eauto|].
  destruct (Hstep c x Hc) as (c1 & -> & Hc1 & Ha & Hf). bind_simpl.
  destruct (IH c1 Hc1) as (c' & ? & ? & ? & ?). exists c'. rewrite <- Ha. split_and!; congruence.
Qed.

Lemma follow_spec c v n :
  comp_ok c -> rv_family v = c_family c ->
  exists c', follow c v n = Ok c' /\ comp_ok c' /\ abs c' = apply_value (abs c) v /\
    c_family c' = c_family c.
Proof.
  intros Hc Hf. unfold follow, apply_value. rewrite bool_decide_true by done. cbn [negb].
  set (c0 := {| c_family := _ |}).
  assert (comp_ok c0) as Hc0 by (destruct Hc; by split).
  destruct (each_spec follow_remove remove c0 (rv_removes v) follow_remove_spec Hc0)
    as (c1 & -> & Hc1 & Ha1 & Hf1). bind_simpl.
  destruct (each_spec follow_insert insert_record c1 (rv_inserts v) follow_insert_spec Hc1)
    as (c2 & -> & Hc2 & Ha2 & Hf2).
  exists c2. split_and!; [done|done| |by rewrite Hf2, Hf1]. by rewrite Ha2, Ha1.
Qed.

(** The values of one merge, parsed. *)
Definition parsed (fam : QueueFamily) (values : list bytes) (raws : list RawValue) : Prop :=
  Forall2 (fun v raw => parse v = Ok raw /\ rv_family raw = fam) values raws.

Lemma compose_loop_spec fam c values raws :
  comp_ok c -> c_family c = fam -> parsed fam values raws ->
  exists c', compose_loop (Some c) values = Ok (Some c') /\ comp_ok c' /\
    abs c' = fold_left apply_value raws (abs c) /\ c_family c' = fam.
Proof.
  intros Hc Hf H. revert c Hc Hf.
  induction H as [|v raw values raws [Hp Hr] _ IH]; intros c Hc Hf; cbn [compose_loop fold_left].
  { eauto. }
  rewrite Hp. cbn [lift result_bind].
  destruct (follow_spec c raw (blen v) Hc) as (c1 & -> & Hc1 & Ha & Hf1); [congruence|]. bind_simpl.
  rewrite <- Ha. apply IH; congruence.
Qed.

Lemma compose_spec fam values raws :
  values <> [] -> parsed fam values raws ->
  exists c, compose values = Ok (Some c) /\ comp_ok c /\
    abs c = fold_left apply_value raws empty_state /\ c_family c = fam.
Proof.
  intros Hne H. destruct (new_ok fam) as [Hn Ha].
  destruct (compose_loop_spec fam (new fam) values raws Hn eq_refl H) as (c & E & ? & Hc & ?).
  exists c. rewrite Ha in Hc. split_and!; try done. rewrite <- E.
  destruct H as [|v raw values raws [Hp Hr] H]; [done|].
  unfold compose. cbn [compose_loop]. rewrite Hp. cbn [lift result_bind]. by rewrite Hr.
Qed.

(** ** The value format is canonical *)

Definition insert_ok (fam : QueueFamily) (r : RawInsert) : Prop :=
  id_ok (ri_id r) /\ bytes_ok (ri_body r) /\ in_u 64 (blen (ri_body r)) /\
  validate_body fam (ri_body r) = Ok tt.
Record raw_ok (v : RawValue) : Prop := {
  removes_ok : Forall id_ok (rv_removes v);
  removes_sorted : StronglySorted Z.lt (rv_removes v);
  inserts_ok : Forall (insert_ok (rv_family v)) (rv_inserts v);
  inserts_nodup : NoDup (ids (rv_inserts v));
  removes_disjoint : forall id, id ∈ rv_removes v -> id ∉ ids (rv_inserts v);
  counts_ok : in_u 64 (Z.of_nat (length (rv_removes v))) /\
              in_u 64 (Z.of_nat (length (rv_inserts v)));
}.

Definition put_one (r : RawInsert) : bytes := put_raw_insert (ri_mode r) (ri_id r) (ri_body r).
Definition put_value (v : RawValue) : bytes :=
  put_header (rv_family v) ++ put_varint (Z.of_nat (length (rv_removes v)))
  ++ flat_map (to_be 16) (rv_removes v)
  ++ put_varint (Z.of_nat (length (rv_inserts v)))
  ++ flat_map put_one (rv_inserts v).

Lemma parse_removes_put l previous c :
  Forall id_ok l -> StronglySorted Z.lt l ->
  match previous with Some p => Forall (Z.lt p) l | None => True end ->
  parse_removes (length l) previous (flat_map (to_be 16) l ++ c) = Ok (l, c).
Proof.
  intros Hok Hs; revert previous; induction Hs as [|x l _ IH Hx]; intros previous Hp; [done|].
  apply Forall_cons in Hok as [Hid Hok]. cbn [length flat_map parse_removes].
  rewrite <- app_assoc, take_operation_id_put by done. bind_simpl.
  replace (match previous with Some p => p <? x | None => true end) with true.
  2:{ destruct previous; [|done]. apply Forall_cons in Hp as [? _]. symmetry. by apply Z.ltb_lt. }
  by rewrite (IH Hok (Some x) Hx).
Qed.

Lemma parse_removes_inv n previous c l c' :
  bytes_ok c -> parse_removes n previous c = Ok (l, c') ->
  length l = n /\ Forall id_ok l /\ StronglySorted Z.lt l /\
  match previous with Some p => Forall (Z.lt p) l | None => True end /\
  c = flat_map (to_be 16) l ++ c'.
Proof.
  revert previous c l; induction n as [|n IH]; intros previous c l Hc; cbn [parse_removes].
  { intros [= <- <-]. split_and!; try constructor. by destruct previous. }
  intros H. apply result_bind_ok in H as ([id c1] & E & H).
  apply take_operation_id_inv in E as [Hid ->]; [|done]. apply Forall_app in Hc as [_ Hc].
  destruct (match previous with Some p => p <? id | None => true end) eqn:Ep; [|done].
  apply result_bind_ok in H as ([rest c2] & E & [= <- <-]).
  apply IH in E as (Hn & Hok & Hs & Hlt & ->); [|done]. cbn [length flat_map].
  split_and!; [by rewrite Hn|by constructor|by constructor| |by rewrite <- app_assoc].
  destruct previous as [p|]; [|done]. apply Z.ltb_lt in Ep. constructor; [done|].
  eapply Forall_impl; [exact Hlt|]. simpl. lia.
Qed.

Lemma parse_inserts_put fam removes l used c :
  Forall (insert_ok fam) l -> NoDup (ids l) ->
  Forall (fun r => ri_id r ∉ removes /\ ri_id r ∉ used) l ->
  parse_inserts (length l) fam removes used (flat_map put_one l ++ c) = Ok (l, c).
Proof.
  intros Hok; revert used; induction Hok as [|r l (Hid & Hb & Hl & Hv) _ IH]; intros used Hnd Hd; [done|].
  cbn [map] in Hnd. apply NoDup_cons in Hnd as [Hr Hnd]. apply Forall_cons in Hd as [[H1 H2] Hd].
  cbn [length flat_map parse_inserts]. unfold put_one at 1, put_raw_insert.
  rewrite <- app_assoc. cbn [app]. rewrite take_u8_cons. bind_simpl. rewrite mode_roundtrip. bind_simpl.
  rewrite <- !app_assoc, take_operation_id_put by done. bind_simpl.
  rewrite !bool_decide_false by done. cbn [negb].
  rewrite take_put_varint by done. bind_simpl. rewrite take_raw_app. bind_simpl. rewrite Hv.
  bind_simpl. rewrite IH; [by destruct r|done|].
  rewrite Forall_forall in *. intros x Hx. specialize (Hd _ Hx).
  assert (ri_id x ∈ ids l) by (apply list_elem_of_fmap; eauto). set_solver.
Qed.

Lemma parse_inserts_inv n fam removes used c l c' :
  bytes_ok c -> parse_inserts n fam removes used c = Ok (l, c') ->
  length l = n /\ Forall (insert_ok fam) l /\ NoDup (ids l) /\
  Forall (fun r => ri_id r ∉ removes /\ ri_id r ∉ used) l /\ c = flat_map put_one l ++ c'.
Proof.
  revert used c l; induction n as [|n IH]; intros used c l Hc; cbn [parse_inserts].
  { intros [= <- <-]. split_and!; constructor. }
  intros H. apply result_bind_ok in H as ([mb c1] & ->%take_u8_ok & H).
  apply Forall_cons in Hc as [_ Hc].
  apply result_bind_ok in H as (m & ->%mode_inv & H).
  apply result_bind_ok in H as ([id c2] & E & H).
  apply take_operation_id_inv in E as [Hid ->]; [|done]. apply Forall_app in Hc as [_ Hc].
  destruct (bool_decide (id ∈ removes)) eqn:E1; [done|]. apply bool_decide_eq_false in E1.
  destruct (bool_decide (id ∈ used)) eqn:E2; [done|]. apply bool_decide_eq_false in E2. cbn [negb] in H.
  apply result_bind_ok in H as ([len c3] & E & H).
  apply take_varint_inv in E as [Hl ->]; [|done]. apply Forall_app in Hc as [_ Hc].
  apply result_bind_ok in H as ([body c4] & E & H).
  apply take_raw_ok in E as [-> Hb]; [|apply Hl]. apply Forall_app in Hc as [Hbody Hc].
  apply result_bind_ok in H as ([] & Hv & H).
  apply result_bind_ok in H as ([rest c5] & E & [= <- <-]).
  apply IH in E as (Hn & Hok & Hnd & Hd & ->); [|done]. cbn [length flat_map map ri_id].
  split_and!.
  - by rewrite Hn.
  - constructor; [|done]. split_and!; cbn [ri_id ri_body]; [done|done|by rewrite Hb|done].
  - apply NoDup_cons. split; [|done]. intros Hin. apply list_elem_of_fmap in Hin as (x & -> & Hx).
    rewrite Forall_forall in Hd. specialize (Hd _ Hx). set_solver.
  - constructor; [done|]. eapply Forall_impl; [exact Hd|]. set_solver.
  - unfold put_one at 2, put_raw_insert. cbn [ri_mode ri_id ri_body]. rewrite Hb.
    repeat (cbn [app]; rewrite <- app_assoc). done.
Qed.

Lemma blen_put_inserts fam l :
  Forall (insert_ok fam) l -> Z.of_nat (length l) * 18 <= blen (flat_map put_one l).
Proof.
  induction 1 as [|r l (_ & _ & Hl & _) _ IH]; [done|]. cbn [length flat_map].
  unfold put_one at 1, put_raw_insert. autorewrite with bytes_len. rewrite blen_put_varint by done.
  pose proof (varint_len_bound _ Hl). pose proof (blen_nonneg (ri_body r)). lia.
Qed.

Lemma blen_flat16 l : blen (flat_map (to_be 16) l) = 16 * Z.of_nat (length l).
Proof. unfold blen. rewrite length_flat_to_be. lia. Qed.

Lemma parse_put v : raw_ok v -> parse (put_value v) = Ok v.
Proof.
  intros [Hr Hs Hi Hnd Hd [Hc1 Hc2]]. unfold parse, put_value. rewrite parse_header_put. bind_simpl.
  rewrite bounded_count_put; [|done|done|].
  2:{ rewrite blen_app, blen_flat16. unfold OPERATION_ID_LEN.
      pose proof (blen_nonneg (put_varint (Z.of_nat (length (rv_inserts v)))
        ++ flat_map put_one (rv_inserts v))). lia. }
  bind_simpl. rewrite Nat2Z.id, parse_removes_put by done. bind_simpl.
  rewrite bounded_count_put; [|done|done|].
  2:{ pose proof (blen_put_inserts _ _ Hi). unfold MODE_LEN, OPERATION_ID_LEN. lia. }
  bind_simpl. rewrite Nat2Z.id, <- (app_nil_r (flat_map put_one _)), parse_inserts_put; [|done|done|].
  - bind_simpl. rewrite (proj2 (finish_ok _ []) eq_refl). bind_simpl. by destruct v.
  - apply Forall_forall. intros r Hin. split; [|set_solver].
    intros Hx. apply (Hd _ Hx), list_elem_of_fmap. eauto.
Qed.

Lemma parse_inv bs v : bytes_ok bs -> parse bs = Ok v -> raw_ok v /\ bs = put_value v.
Proof.
  intros Hb H. unfold parse in H.
  apply result_bind_ok in H as ([fam c] & ->%parse_header_inv & H). apply Forall_app in Hb as [_ Hc].
  apply result_bind_ok in H as ([n c1] & E & H).
  apply bounded_count_inv in E as [Hn ->]; [|done]. apply Forall_app in Hc as [_ Hc].
  apply result_bind_ok in H as ([removes c2] & E & H).
  apply parse_removes_inv in E as (Hln & Hr & Hs & _ & ->); [|done]. apply Forall_app in Hc as [_ Hc].
  apply result_bind_ok in H as ([k c3] & E & H).
  apply bounded_count_inv in E as [Hk ->]; [|done]. apply Forall_app in Hc as [_ Hc].
  apply result_bind_ok in H as ([inserts c4] & E & H).
  apply parse_inserts_inv in E as (Hlk & Hi & Hnd & Hd & ->); [|done].
  apply result_bind_ok in H as ([] & ->%finish_ok & [= <-]).
  unfold in_u in Hn, Hk.
  assert (n = Z.of_nat (length removes)) as -> by lia.
  assert (k = Z.of_nat (length inserts)) as -> by lia.
  split; [|unfold put_value; cbn; by rewrite app_nil_r].
  split; cbn; try done. intros id Hid Hin. apply list_elem_of_fmap in Hin as (r & -> & Hr').
  rewrite Forall_forall in Hd. by destruct (Hd _ Hr') as [? _].
Qed.

(** ** Invariants of the abstract composition *)

Record state_ok (fam : QueueFamily) (s : state) : Prop := {
  entries_nodup : NoDup (ids (entries s));
  entries_not_pending : forall id, id ∈ pending s -> id ∉ ids (entries s);
  entries_ok : Forall (insert_ok fam) (entries s);
  pending_ids_ok : forall id, id ∈ pending s -> id_ok id;
}.

Lemma empty_ok fam : state_ok fam empty_state.
Proof. split; cbn; [constructor|set_solver|constructor|set_solver]. Qed.

Lemma Forall_drop (P : RawInsert -> Prop) id l : Forall P l -> Forall P (drop_id id l).
Proof. unfold drop_id. rewrite !Forall_forall. intros H x [_ ?]%list_elem_of_filter. auto. Qed.

Lemma remove_ok fam s id : id_ok id -> state_ok fam s -> state_ok fam (remove s id).
Proof.
  intros Hid [H1 H2 H3 H4]. unfold remove. destruct (find_id id (entries s)) as [r|] eqn:E.
  - split; cbn; [by apply nodup_drop| |by apply Forall_drop|destruct (decide _); set_solver].
    intros x Hx [Hin Hne]%elem_ids_drop. destruct (decide _); set_solver.
  - apply find_id_none in E. split; cbn; [done|set_solver|done|set_solver].
Qed.

Lemma ids_snoc l m r : ids (l ++ [with_mode m r]) = ids l ++ [ri_id r].
Proof. by rewrite map_app. Qed.

Lemma nodup_snoc (l : list Z) x : NoDup l -> x ∉ l -> NoDup (l ++ [x]).
Proof. intros. apply NoDup_app. split_and!; [done|set_solver|repeat constructor; set_solver]. Qed.

Lemma insert_record_ok fam s r : insert_ok fam r -> state_ok fam s -> state_ok fam (insert_record s r).
Proof.
  intros Hr [H1 H2 H3 H4]. unfold insert_record.
  assert (forall m, Forall (insert_ok fam) [with_mode m r]) as Hw by (intros m; constructor; [exact Hr|constructor]).
  assert (Forall (insert_ok fam) [r]) as Hr1 by (constructor; [exact Hr|constructor]).
  destruct (decide (ri_id r ∈ pending s)) as [Hin|Hnin].
  - split; cbn [pending entries]; [|rewrite ids_snoc; set_solver|apply Forall_app; auto|set_solver].
    rewrite ids_snoc. apply nodup_snoc; auto.
  - assert (forall l : list RawInsert, NoDup (ids l) -> ri_id r ∉ ids l ->
      NoDup (ids (l ++ [r]))) as Hnd.
    { intros l ??. rewrite map_app. by apply nodup_snoc. }
    destruct (find_id (ri_id r) (entries s)) eqn:E; [destruct (ri_mode r); [by split|]|].
    + split; cbn [pending entries].
      * apply Hnd; [by apply nodup_drop|]. intros [_ ?]%elem_ids_drop. done.
      * intros x Hx. rewrite map_app. intros [[Hd _]%elem_ids_drop|Hs]%elem_of_app; [by apply (H2 x)|].
        set_solver.
      * apply Forall_app. split; [by apply Forall_drop|done].
      * done.
    + apply find_id_none in E. split; cbn [pending entries]; [by apply Hnd| | |done].
      * intros x Hx. rewrite map_app. set_solver.
      * by apply Forall_app.
Qed.

Lemma fold_left_ind {A B} (P : A -> Prop) (Q : B -> Prop) (f : A -> B -> A) l a :
  (forall a b, Q b -> P a -> P (f a b)) -> Forall Q l -> P a -> P (fold_left f l a).
Proof. intros Hf H; revert a; induction H; intros a Ha; cbn [fold_left]; auto. Qed.

Lemma apply_value_ok fam s v :
  raw_ok v -> rv_family v = fam -> state_ok fam s -> state_ok fam (apply_value s v).
Proof.
  intros Hv Hf Hs. unfold apply_value.
  apply (fold_left_ind _ (insert_ok fam)).
  - intros; by apply insert_record_ok.
  - rewrite <- Hf. by apply inserts_ok.
  - apply (fold_left_ind _ id_ok); [intros; by apply remove_ok|by apply removes_ok|done].
Qed.

Lemma parsed_raw_ok fam values raws :
  Forall bytes_ok values -> parsed fam values raws ->
  Forall (fun v => raw_ok v /\ rv_family v = fam) raws.
Proof.
  intros Hb H. induction H as [|v raw values raws [Hp Hf] _ IH]; [constructor|].
  apply Forall_cons in Hb as [Hb Hbs]. constructor; [|by apply IH].
  split; [by eapply parse_inv|done].
Qed.

Lemma apply_values_ok fam raws s :
  Forall (fun v => raw_ok v /\ rv_family v = fam) raws -> state_ok fam s ->
  state_ok fam (fold_left apply_value raws s).
Proof.
  intros H. apply (fold_left_ind _ _ _ _ _ (fun s v Hv Hs => apply_value_ok fam s v (proj1 Hv) (proj2 Hv) Hs) H).
Qed.

(** *** Sizes *)

Definition records (s : state) : nat := (size (pending s) + length (entries s))%nat.
Definition raw_records (v : RawValue) : nat :=
  (length (rv_removes v) + length (rv_inserts v))%nat.
Definition total_len (values : list bytes) : Z := foldr (fun v n => blen v + n) 0 values.

Lemma length_drop_id id l : (length (drop_id id l) <= length l)%nat.
Proof. apply length_filter. Qed.

Lemma size_add (x : Z) (X : gset Z) : (size ({[ x ]} ∪ X) <= S (size X))%nat.
Proof.
  destruct (decide (x ∈ X)).
  - replace ({[x]} ∪ X) with X by set_solver. lia.
  - rewrite size_union, size_singleton by set_solver. lia.
Qed.

Lemma records_remove s id : (records (remove s id) <= S (records s))%nat.
Proof.
  unfold records, remove. pose proof (size_add id (pending s)).
  pose proof (length_drop_id id (entries s)).
  destruct (find_id id (entries s)) as [r|]; cbn; [|lia]. destruct (decide _); lia.
Qed.

Lemma records_insert s r : (records (insert_record s r) <= S (records s))%nat.
Proof.
  unfold records, insert_record. pose proof (length_drop_id (ri_id r) (entries s)).
  assert (size (pending s ∖ {[ri_id r]}) <= size (pending s))%nat
    by (apply subseteq_size; set_solver).
  destruct (decide _); [cbn; rewrite length_app; simpl; lia|].
  destruct (find_id _ _); [destruct (ri_mode r)|]; cbn; rewrite ?length_app; simpl; lia.
Qed.

Lemma records_apply s v : (records (apply_value s v) <= records s + raw_records v)%nat.
Proof.
  unfold apply_value, raw_records.
  assert (forall l s, records (fold_left remove l s) <= records s + length l)%nat as H1.
  { induction l as [|x l IH]; intros s0; cbn; [lia|].
    specialize (IH (remove s0 x)). pose proof (records_remove s0 x). lia. }
  assert (forall l s, records (fold_left insert_record l s) <= records s + length l)%nat as H2.
  { induction l as [|x l IH]; intros s0; cbn; [lia|].
    specialize (IH (insert_record s0 x)). pose proof (records_insert s0 x). lia. }
  specialize (H1 (rv_removes v) s). specialize (H2 (rv_inserts v) (fold_left remove (rv_removes v) s)).
  lia.
Qed.

Lemma raw_records_len v : raw_ok v -> Z.of_nat (raw_records v) <= blen (put_value v).
Proof.
  intros Hv. unfold put_value, raw_records. autorewrite with bytes_len. rewrite blen_flat16.
  pose proof (blen_put_inserts _ _ (inserts_ok _ Hv)).
  pose proof (blen_nonneg (put_header (rv_family v))).
  pose proof (blen_nonneg (put_varint (Z.of_nat (length (rv_removes v))))).
  pose proof (blen_nonneg (put_varint (Z.of_nat (length (rv_inserts v))))). lia.
Qed.

Lemma records_total fam values raws s :
  Forall bytes_ok values -> parsed fam values raws ->
  Z.of_nat (records (fold_left apply_value raws s)) <= Z.of_nat (records s) + total_len values.
Proof.
  intros Hb H; revert s. induction H as [|v raw values raws [Hp Hf] _ IH]; intros s; cbn [fold_left].
  { unfold total_len. simpl. lia. }
  apply Forall_cons in Hb as [Hb Hbs]. specialize (IH Hbs (apply_value s raw)).
  apply parse_inv in Hp as [Hok ->]; [|done].
  pose proof (records_apply s raw). pose proof (raw_records_len raw Hok).
  change (total_len (put_value raw :: values)) with (blen (put_value raw) + total_len values). lia.
Qed.

(** ** Encodings of a composition *)

Definition value_of (fam : QueueFamily) (s : state) : RawValue :=
  {| rv_family := fam; rv_removes := sort_ids (elements (pending s)); rv_inserts := entries s |}.
Definition strip (r : RawInsert) : Z * bytes := (ri_id r, ri_body r).

Lemma live_size c :
  comp_ok c -> NoDup (ids (survivors (c_slots c))) ->
  size (c_live c) = length (survivors (c_slots c)).
Proof.
  intros Hc Hnd. rewrite <- size_dom.
  assert (dom (c_live c) = list_to_set (C := gset Z) (ids (survivors (c_slots c)))) as ->.
  { apply set_eq. intros id. rewrite elem_of_dom, elem_of_list_to_set, survivors_ids. split.
    - intros [i Hi]. apply (live_indexed _ Hc) in Hi as (s & H). eauto.
    - intros (i & s & H). exists i. apply (live_indexed _ Hc). eauto. }
  by rewrite size_list_to_set, length_map.
Qed.

Lemma length_sorted_elements (X : gset Z) : length (sort_ids (elements X)) = size X.
Proof. by rewrite (Permutation_length (sort_ids_perm _)). Qed.

Lemma flat_survivors f slots :
  flat_map (fun s => f (slot_mode s) (slot_id s) (slot_body s))
    (filter (fun s => slot_live s = true) slots) =
  flat_map (fun r => f (ri_mode r) (ri_id r) (ri_body r)) (survivors slots) :> bytes.
Proof.
  unfold survivors. induction (filter _ slots) as [|s l IH]; [done|]. cbn [flat_map map].
  by rewrite IH.
Qed.

Lemma encode_partial_value fam c :
  comp_ok c -> c_family c = fam -> state_ok fam (abs c) ->
  encode_partial c = put_value (value_of fam (abs c)).
Proof.
  intros Hc <- Hs. unfold encode_partial, put_value, value_of, live_slots.
  cbn [rv_family rv_removes rv_inserts abs pending entries].
  rewrite live_size, length_sorted_elements by (done || apply (entries_nodup _ _ Hs)).
  by rewrite (flat_survivors put_raw_insert).
Qed.

Lemma encode_resolved_value fam c :
  comp_ok c -> c_family c = fam -> state_ok fam (abs c) ->
  encode_resolved c =
  match map strip (entries (abs c)) with
  | [] => None
  | q => Some (put_resolved fam q)
  end.
Proof.
  intros Hc <- Hs. unfold encode_resolved, put_resolved, live_slots.
  rewrite live_size by (done || apply (entries_nodup _ _ Hs)). cbn [abs entries].
  pose proof (flat_survivors (fun _ => put_raw_insert IfAbsent) (c_slots c)) as ->.
  destruct (survivors (c_slots c)) as [|r l]; [done|].
  rewrite decide_False by done. cbn [map]. f_equal. do 3 f_equal; [by cbn [length]; rewrite length_map|].
  change (strip r :: map strip l) with (map strip (r :: l)).
  induction (r :: l) as [|x l' IH]; [done|]. cbn [flat_map map]. by rewrite IH.
Qed.

Lemma value_of_ok fam s :
  state_ok fam s -> Z.of_nat (records s) < 2 ^ 64 -> raw_ok (value_of fam s).
Proof.
  intros [H1 H2 H3 H4] Hn. unfold records in Hn.
  pose proof (sort_ids_perm (elements (pending s))) as Hp.
  split; cbn [value_of rv_family rv_removes rv_inserts].
  - rewrite Hp. apply Forall_forall. intros x Hx. apply H4. by apply elem_of_elements.
  - apply nodup_strict; [apply sort_ids_sorted|]. rewrite Hp. apply NoDup_elements.
  - done.
  - done.
  - intros id. rewrite Hp, elem_of_elements. apply H2.
  - rewrite length_sorted_elements. unfold in_u. lia.
Qed.

(** ** The ordered queue *)

Definition queue_remove (q : list (Z * bytes)) (id : Z) : list (Z * bytes) :=
  filter (fun e => e.1 <> id) q.
Definition queue_insert (q : list (Z * bytes)) (r : RawInsert) : list (Z * bytes) :=
  match ri_mode r with
  | IfAbsent => if decide (ri_id r ∈ map fst q) then q else q ++ [(ri_id r, ri_body r)]
  | SetMode => queue_remove q (ri_id r) ++ [(ri_id r, ri_body r)]
  end.
(** What one value does to an ordered queue of (identifier, body) entries. *)
Definition queue_apply (q : list (Z * bytes)) (v : RawValue) : list (Z * bytes) :=
  fold_left queue_insert (rv_inserts v) (fold_left queue_remove (rv_removes v) q).

Lemma strip_ids l : map fst (map strip l) = ids l.
Proof. by rewrite map_map. Qed.

Lemma strip_drop id l : map strip (drop_id id l) = queue_remove (map strip l) id.
Proof.
  unfold drop_id, queue_remove. induction l as [|r l IH]; [done|]. cbn [map].
  destruct (decide (ri_id r <> id)).
  - rewrite !filter_cons_True by done. cbn [map]. by rewrite IH.
  - by rewrite !filter_cons_False by done.
Qed.

Lemma queue_remove_notin q id : id ∉ map fst q -> queue_remove q id = q.
Proof.
  unfold queue_remove. induction q as [|e q IH]; cbn [map]; [done|]. intros H.
  rewrite filter_cons_True by set_solver. rewrite IH; set_solver.
Qed.

Lemma remove_queue s id :
  map strip (entries (remove s id)) = queue_remove (map strip (entries s)) id.
Proof.
  unfold remove. destruct (find_id id (entries s)) eqn:E; cbn [entries]; [apply strip_drop|].
  apply find_id_none in E. by rewrite queue_remove_notin by by rewrite strip_ids.
Qed.

Lemma insert_queue fam s r :
  state_ok fam s -> map strip (entries (insert_record s r)) = queue_insert (map strip (entries s)) r.
Proof.
  intros Hs. unfold insert_record, queue_insert. rewrite strip_ids.
  destruct (decide (ri_id r ∈ pending s)) as [Hin|Hnin]; cbn [entries].
  - apply (entries_not_pending _ _ Hs) in Hin. rewrite map_app, decide_False by done.
    rewrite queue_remove_notin by by rewrite strip_ids. by destruct (ri_mode r).
  - destruct (find_id (ri_id r) (entries s)) as [x|] eqn:E.
    + assert (ri_id r ∈ ids (entries s)).
      { apply find_id_some in E as [? <-]. apply list_elem_of_fmap. eauto. }
      destruct (ri_mode r); cbn [entries]; [by rewrite decide_True|].
      by rewrite map_app, strip_drop.
    + apply find_id_none in E. rewrite decide_False by done. cbn [entries].
      rewrite queue_remove_notin by by rewrite strip_ids. rewrite map_app. by destruct (ri_mode r).
Qed.

Lemma apply_queue fam s v :
  raw_ok v -> rv_family v = fam -> state_ok fam s ->
  map strip (entries (apply_value s v)) = queue_apply (map strip (entries s)) v.
Proof.
  intros Hv Hf Hs. unfold apply_value, queue_apply.
  assert (forall l s, Forall id_ok l -> state_ok fam s ->
    map strip (entries (fold_left remove l s)) = fold_left queue_remove l (map strip (entries s)) /\
    state_ok fam (fold_left remove l s)) as Hrem.
  { induction l as [|x l IH]; intros s0 Hl Hs0; cbn [fold_left]; [done|].
    apply Forall_cons in Hl as [Hx Hl]. rewrite <- remove_queue. apply IH; [done|].
    by apply remove_ok. }
  assert (forall l s, Forall (insert_ok fam) l -> state_ok fam s ->
    map strip (entries (fold_left insert_record l s)) =
      fold_left queue_insert l (map strip (entries s))) as Hins.
  { induction l as [|x l IH]; intros s0 Hl Hs0; cbn [fold_left]; [done|].
    apply Forall_cons in Hl as [Hx Hl]. rewrite <- (insert_queue fam) by done. apply IH; [done|].
    by apply insert_record_ok. }
  destruct (Hrem (rv_removes v) s (removes_ok _ Hv) Hs) as [E Hs1].
  rewrite Hins, E; [done| |done]. rewrite <- Hf. by apply inserts_ok.
Qed.

Lemma apply_values_queue fam raws s :
  Forall (fun v => raw_ok v /\ rv_family v = fam) raws -> state_ok fam s ->
  map strip (entries (fold_left apply_value raws s)) =
  fold_left queue_apply raws (map strip (entries s)).
Proof.
  intros H; revert s; induction H as [|v raws [Hv Hf] _ IH]; intros s Hs; cbn [fold_left]; [done|].
  rewrite IH by by apply apply_value_ok. by rewrite (apply_queue fam).
Qed.

(** ** Grouping

    A value is a sequence of single-identifier steps; composing a sequence
    first and applying the composition later gives the same state whenever
    the sequence inserts and removes each identifier at most once and inserts
    none that is already live. *)

Inductive op :=
| Rem (id : Z)
| Ins (r : RawInsert).

Definition step (s : state) (o : op) : state :=
  match o with
  | Rem id => remove s id
  | Ins r => insert_record s r
  end.
Definition ops_of (v : RawValue) : list op := map Rem (rv_removes v) ++ map Ins (rv_inserts v).
Definition ins_ids (l : list op) : list Z :=
  flat_map (fun o => match o with Ins r => [ri_id r] | Rem _ => [] end) l.
Definition rem_ids (l : list op) : list Z :=
  flat_map (fun o => match o with Rem id => [id] | Ins _ => [] end) l.

Lemma fold_left_map {A B C} (f : A -> C -> A) (g : B -> C) l a :
  fold_left f (map g l) a = fold_left (fun a b => f a (g b)) l a.
Proof. revert a; induction l as [|x l IH]; intros a; cbn; auto. Qed.

Lemma apply_value_steps s v : apply_value s v = fold_left step (ops_of v) s.
Proof. unfold ops_of, apply_value. by rewrite fold_left_app, !fold_left_map. Qed.

Lemma flat_map_app {A B} (f : A -> list B) l1 l2 : flat_map f (l1 ++ l2) = flat_map f l1 ++ flat_map f l2.
Proof. induction l1; cbn; [done|]. by rewrite IHl1, app_assoc. Qed.

Lemma ins_ids_of v : ins_ids (ops_of v) = ids (rv_inserts v).
Proof.
  unfold ins_ids, ops_of. rewrite flat_map_app.
  assert (forall l, flat_map (fun o => match o with Ins r => [ri_id r] | Rem _ => [] end) (map Rem l)
    = []) as -> by (induction l; done).
  induction (rv_inserts v) as [|r l IH]; cbn; [done|]. by rewrite <- IH.
Qed.

Lemma rem_ids_of v : rem_ids (ops_of v) = rv_removes v.
Proof.
  unfold rem_ids, ops_of. rewrite flat_map_app.
  assert (forall l, flat_map (fun o => match o with Rem id => [id] | Ins _ => [] end) (map Ins l)
    = []) as -> by (induction l; done).
  rewrite app_nil_r. induction (rv_removes v) as [|r l IH]; cbn; [done|]. by rewrite IH.
Qed.

(** The entry [r] as the composition [s0] before it sees it. *)
Definition reset (s0 : state) (r : RawInsert) : RawInsert :=
  if decide (ri_id r ∈ pending s0) then with_mode SetMode r else r.
Definition conditional (s : state) (id : Z) : Prop :=
  exists r, find_id id (entries s) = Some r /\ ri_mode r = IfAbsent.
Definition consistent (s : state) : Prop :=
  NoDup (ids (entries s)) /\ forall id, id ∈ pending s -> id ∉ ids (entries s).

(** What [s1], composed from nothing, does to [s0]. *)
Record acts (s0 s1 s : state) : Prop := {
  acts_entries : entries s =
    filter (fun r => ri_id r ∉ pending s1) (entries s0) ++ map (reset s0) (entries s1);
  acts_pending : forall id, id ∈ pending s <->
    (id ∈ pending s0 \/ (id ∈ pending s1 /\ ~ conditional s0 id)) /\ id ∉ ids (entries s1);
}.

Lemma ids_reset s0 l : ids (map (reset s0) l) = ids l.
Proof.
  rewrite map_map. apply map_ext. intros r. unfold reset. by destruct (decide _).
Qed.

Lemma find_reset s0 id l :
  find_id id (map (reset s0) l) = reset s0 <$> find_id id l.
Proof.
  induction l as [|r l IH]; [done|]. cbn [map find_id].
  assert (ri_id (reset s0 r) = ri_id r) as -> by (unfold reset; by destruct (decide _)).
  by destruct (decide _).
Qed.

Lemma find_filter (X : gset Z) id l :
  id ∉ X -> find_id id (filter (fun r => ri_id r ∉ X) l) = find_id id l.
Proof.
  intros H. induction l as [|r l IH]; [done|].
  destruct (decide (ri_id r ∉ X)).
  - rewrite filter_cons_True by done. cbn [find_id]. by destruct (decide _).
  - rewrite filter_cons_False by done. cbn [find_id]. rewrite decide_False by (intros E; subst id; done). done.
Qed.

Lemma drop_filter (X : gset Z) id l :
  drop_id id (filter (fun r => ri_id r ∉ X) l) = filter (fun r => ri_id r ∉ {[ id ]} ∪ X) l.
Proof.
  unfold drop_id. rewrite list_filter_filter. apply list_filter_iff. set_solver.
Qed.

Lemma drop_map_reset s0 id l : drop_id id (map (reset s0) l) = map (reset s0) (drop_id id l).
Proof.
  unfold drop_id. induction l as [|r l IH]; [done|]. cbn [map].
  assert (ri_id (reset s0 r) = ri_id r) as Hr by (unfold reset; by destruct (decide _)).
  destruct (decide (ri_id r <> id)).
  - rewrite !filter_cons_True by by rewrite ?Hr. cbn [map]. by rewrite IH.
  - by rewrite !filter_cons_False by by rewrite ?Hr.
Qed.

Lemma remove_acts s0 s1 s id :
  consistent s0 -> consistent s1 -> acts s0 s1 s ->
  (id ∈ ids (entries s1) -> id ∉ ids (entries s0)) -> id ∉ pending s1 ->
  acts s0 (remove s1 id) (remove s id).
Proof.
  intros [Hn0 Hd0] [Hn1 Hd1] [He Hp] Hfresh Hnew. unfold remove at 2.
  rewrite He, find_id_app, find_filter by done.
  destruct (find_id id (entries s0)) as [r|] eqn:E0.
  - assert (id ∈ ids (entries s0)) as Hin.
    { apply find_id_some in E0 as [? <-]. apply list_elem_of_fmap. eauto. }
    assert (id ∉ ids (entries s1)) as Hn by (intros ?; by apply Hfresh).
    assert (id ∉ pending s0) as Hnp by (intros Hx; by apply (Hd0 _ Hx)).
    unfold remove. rewrite (proj2 (find_id_none _ _) Hn). split; cbn [entries pending].
    + rewrite drop_id_app, drop_filter, (drop_id_notin id (map _ _)); [done|by rewrite ids_reset].
    + intros x. assert (conditional s0 id <-> ri_mode r = IfAbsent) as Hc.
      { unfold conditional. rewrite E0. naive_solver. }
      destruct (decide (ri_mode r = SetMode)) as [Em|Em].
      * rewrite elem_of_union, elem_of_singleton, Hp, elem_of_union, elem_of_singleton.
        destruct (decide (x = id)) as [->|]; [|naive_solver].
        split; [|naive_solver]. intros _. split; [|done]. right. split; [by left|].
        rewrite Hc, Em. done.
      * rewrite Hp, elem_of_union, elem_of_singleton.
        destruct (decide (x = id)) as [->|]; [|naive_solver].
        assert (ri_mode r = IfAbsent) as Ea by (destruct (ri_mode r); done). naive_solver.
  - rewrite find_reset. unfold remove.
    assert (~ conditional s0 id) as Hc by (unfold conditional; rewrite E0; naive_solver).
    apply find_id_none in E0 as E0'.
    assert (forall X : gset Z, filter (fun r => ri_id r ∉ {[ id ]} ∪ X) (entries s0) =
      filter (fun r => ri_id r ∉ X) (entries s0)) as Hf.
    { intros X. rewrite <- drop_filter, drop_id_notin; [done|]. intros Hx.
      apply E0'. apply list_elem_of_fmap in Hx as (r & -> & [_ Hr]%list_elem_of_filter).
      apply list_elem_of_fmap. eauto. }
    destruct (find_id id (entries s1)) as [r|] eqn:E1; cbn [fmap option_fmap option_map].
    + assert (id ∈ ids (entries s1)) as Hin.
      { apply find_id_some in E1 as [? <-]. apply list_elem_of_fmap. eauto. }
      assert (ri_id r = id) as Hid by by apply find_id_some in E1 as [_ ?].
      assert (forall X : gset Z, drop_id id (filter (fun r => ri_id r ∉ X) (entries s0)) =
        filter (fun r => ri_id r ∉ X) (entries s0)) as Hdf by (intros X; by rewrite drop_filter).
      split; cbn [entries pending].
      * rewrite drop_id_app, drop_map_reset, Hdf. destruct (decide (ri_mode r = SetMode)); by rewrite ?Hf.
      * intros x. unfold reset. rewrite Hid, elem_ids_drop.
        destruct (decide (id ∈ pending s0)) as [Hi|Hi].
        -- rewrite decide_True by done. rewrite elem_of_union, elem_of_singleton, Hp.
           destruct (decide (ri_mode r = SetMode)); rewrite ?elem_of_union, ?elem_of_singleton;
             destruct (decide (x = id)) as [->|]; naive_solver.
        -- destruct (decide (ri_mode r = SetMode)); rewrite ?elem_of_union, ?elem_of_singleton, Hp;
             destruct (decide (x = id)) as [->|]; naive_solver.
    + apply find_id_none in E1. split; cbn [entries pending]; [by rewrite Hf|].
      intros x. rewrite !elem_of_union, !elem_of_singleton, Hp.
      destruct (decide (x = id)) as [->|]; naive_solver.
Qed.

Lemma insert_fresh s r :
  ri_id r ∉ ids (entries s) ->
  insert_record s r =
    {| pending := pending s ∖ {[ ri_id r ]}; entries := entries s ++ [reset s r] |}.
Proof.
  intros H. unfold insert_record, reset. destruct (decide (ri_id r ∈ pending s)) as [|Hn]; [done|].
  apply find_id_none in H. rewrite H. f_equal. set_solver.
Qed.

Lemma filter_ext_in {A} (P Q : A -> Prop) `{!forall x, Decision (P x), !forall x, Decision (Q x)} (l : list A) :
  (forall x, x ∈ l -> P x <-> Q x) -> filter P l = filter Q l.
Proof.
  induction l as [|x l IH]; intros Hpq; [done|].
  assert (P x <-> Q x) as Hxx by (apply Hpq; set_solver).
  destruct (decide (P x)) as [Hx|Hx].
  - rewrite !filter_cons_True by tauto. f_equal. apply IH. set_solver.
  - rewrite !filter_cons_False by tauto. apply IH. set_solver.
Qed.

Lemma insert_acts s0 s1 s r :
  consistent s0 -> consistent s1 -> acts s0 s1 s ->
  ri_id r ∉ ids (entries s0) -> ri_id r ∉ ids (entries s1) ->
  acts s0 (insert_record s1 r) (insert_record s r).
Proof.
  intros [Hn0 Hd0] [Hn1 Hd1] [He Hp] H0 H1.
  assert (ri_id r ∉ ids (entries s)) as Hs.
  { rewrite He, map_app, ids_reset. intros [Hx|Hx]%elem_of_app; [|done].
    apply list_elem_of_fmap in Hx as (x & Hx & [_ Hin]%list_elem_of_filter).
    apply H0. rewrite Hx. apply list_elem_of_fmap. eauto. }
  assert (~ conditional s0 (ri_id r)) as Hc.
  { intros (x & Hx & _). apply find_id_none in H0. congruence. }
  rewrite !insert_fresh by done. split; cbn [entries pending].
  - rewrite He, map_app, <- app_assoc. f_equal.
    + apply filter_ext_in. intros x Hx.
      assert (ri_id x <> ri_id r) by (intros E; apply H0; rewrite <- E; apply list_elem_of_fmap; eauto).
      set_solver.
    + f_equal. cbn [map]. f_equal. unfold reset.
      pose proof (Hp (ri_id r)) as Hpr.
      destruct (decide (ri_id r ∈ pending s1)) as [Hi|Hi].
      * rewrite decide_True by (apply Hpr; tauto).
        change (ri_id (with_mode SetMode r)) with (ri_id r). by destruct (decide _).
      * destruct (decide (ri_id r ∈ pending s0)); [rewrite decide_True by (apply Hpr; tauto); done|].
        rewrite decide_False; [done|]. rewrite Hpr. tauto.
  - intros id. rewrite map_app, !elem_of_difference, !elem_of_singleton, Hp.
    assert (ids [reset s1 r] = [ri_id r]) as -> by (unfold reset; cbn; by destruct (decide _)).
    rewrite elem_of_app, list_elem_of_singleton. destruct (decide (id = ri_id r)) as [->|]; naive_solver.
Qed.

Lemma step_consistent s o : consistent s -> consistent (step s o).
Proof.
  intros [H1 H2]. destruct o as [id|r]; cbn [step].
  - unfold remove. destruct (find_id id (entries s)) as [r|] eqn:E; split; cbn [entries pending].
    + by apply nodup_drop.
    + intros x Hx [Hin Hne]%elem_ids_drop. destruct (decide _); set_solver.
    + done.
    + apply find_id_none in E. set_solver.
  - unfold insert_record. destruct (decide (ri_id r ∈ pending s)) as [Hin|Hnin].
    + split; cbn [entries pending]; rewrite ids_snoc; [apply nodup_snoc; auto|set_solver].
    + assert (forall l m, NoDup (ids l) -> ri_id r ∉ ids l -> NoDup (ids (l ++ [with_mode m r])))
        as Hnd by (intros; rewrite ids_snoc; by apply nodup_snoc).
      rewrite <- (with_mode_same r). cbn [with_mode ri_mode ri_id].
      destruct (find_id (ri_id r) (entries s)) eqn:E; [destruct (ri_mode r); [done|]|];
        split; cbn [entries pending].
      * apply Hnd; [by apply nodup_drop|]. intros [_ ?]%elem_ids_drop. done.
      * intros x Hx. rewrite ids_snoc. intros [[Hd _]%elem_ids_drop|Hs]%elem_of_app; [by apply (H2 x)|].
        set_solver.
      * apply find_id_none in E. by apply Hnd.
      * intros x Hx. rewrite ids_snoc. set_solver.
Qed.

Lemma steps_consistent s l : consistent s -> consistent (fold_left step l s).
Proof. revert s; induction l as [|o l IH]; intros s H; cbn [fold_left]; [done|]. by apply IH, step_consistent. Qed.

Lemma empty_consistent : consistent empty_state.
Proof. split; cbn; [constructor|set_solver]. Qed.

(** What a composition can mention. *)
Lemma steps_mention l :
  (forall id, id ∈ pending (fold_left step l empty_state) -> id ∈ rem_ids l) /\
  (forall id, id ∈ ids (entries (fold_left step l empty_state)) -> id ∈ ins_ids l).
Proof.
  induction l as [|o l [IH1 IH2]] using rev_ind; [cbn; set_solver|].
  rewrite fold_left_app. cbn [fold_left]. unfold rem_ids, ins_ids in *. rewrite !flat_map_app.
  set (s := fold_left step l empty_state) in *. clearbody s. destruct o as [id|r]; cbn [step flat_map].
  - unfold remove. destruct (find_id id (entries s)) as [r|]; cbn [pending entries].
    + split; [destruct (decide _); set_solver|]. intros x [Hx _]%elem_ids_drop. set_solver.
    + set_solver.
  - unfold insert_record. destruct (decide _); cbn [pending entries].
    + rewrite ids_snoc. set_solver.
    + rewrite <- (with_mode_same r). cbn [with_mode ri_mode ri_id].
      destruct (find_id _ _); [destruct (ri_mode r)|]; cbn [pending entries].
      * set_solver.
      * rewrite ids_snoc. split; [set_solver|]. intros x [[Hx _]%elem_ids_drop|Hx]%elem_of_app; set_solver.
      * rewrite ids_snoc. set_solver.
Qed.

Lemma steps_act s0 l :
  consistent s0 -> NoDup (ins_ids l) -> NoDup (rem_ids l) ->
  (forall id, id ∈ ins_ids l -> id ∉ ids (entries s0)) ->
  acts s0 (fold_left step l empty_state) (fold_left step l s0).
Proof.
  intros H0. induction l as [|o l IH] using rev_ind; intros Hi Hr Hd.
  - cbn. split; cbn; [|set_solver].
    rewrite app_nil_r. clear. induction (entries s0) as [|r l IH]; [done|].
    rewrite filter_cons_True by set_solver. by f_equal.
  - unfold ins_ids, rem_ids in Hi, Hr, Hd. rewrite flat_map_app in Hi, Hr, Hd.
    fold (ins_ids l) in Hi, Hd. fold (rem_ids l) in Hr.
    rewrite !fold_left_app. cbn [fold_left].
    apply NoDup_app in Hi as (Hi1 & Hi2 & _). apply NoDup_app in Hr as (Hr1 & Hr2 & _).
    specialize (IH Hi1 Hr1 ltac:(set_solver)).
    destruct (steps_mention l) as [Hm1 Hm2].
    pose proof (steps_consistent empty_state l empty_consistent) as Hc1.
    destruct o as [id|r]; cbn [step flat_map] in *.
    + apply remove_acts; auto; [intros Hx%Hm2; apply Hd; set_solver|].
      intros Hx%Hm1. apply (Hr2 _ Hx). set_solver.
    + apply insert_acts; auto; [apply Hd; set_solver|]. intros Hx%Hm2. apply (Hi2 _ Hx). set_solver.
Qed.

Lemma acts_unique s0 s1 s s' : acts s0 s1 s -> acts s0 s1 s' -> s = s'.
Proof.
  intros [He Hp] [He' Hp']. destruct s, s'. cbn in *. f_equal; [|congruence].
  apply set_eq. intros id. by rewrite Hp, Hp'.
Qed.

(** Composing a value that holds a composition gives that composition back. *)
Lemma compose_value_of fam s :
  consistent s -> fold_left step (ops_of (value_of fam s)) empty_state = s.
Proof.
  intros [Hn Hd]. unfold ops_of. rewrite fold_left_app, !fold_left_map.
  cbn [value_of rv_removes rv_inserts step].
  assert (forall l s, entries s = [] ->
    fold_left (fun a b => remove a b) l s =
      {| pending := list_to_set l ∪ pending s; entries := [] |}) as Hr.
  { induction l as [|x l IH]; intros s0 H0; cbn [fold_left].
    - destruct s0. cbn in *. subst. f_equal. set_solver.
    - rewrite IH; unfold remove; rewrite H0; cbn; [|done]. f_equal. set_solver. }
  rewrite Hr by done. cbn [pending entries empty_state].
  assert (list_to_set (sort_ids (elements (pending s))) ∪ ∅ = pending s) as ->.
  { apply set_eq. intros x. rewrite union_empty_r_L, elem_of_list_to_set, sort_ids_perm.
    by rewrite elem_of_elements. }
  assert (forall l done, NoDup (ids (done ++ l)) -> (forall x, x ∈ pending s -> x ∉ ids (done ++ l)) ->
    fold_left (fun a b => insert_record a b) l {| pending := pending s; entries := done |} =
      {| pending := pending s; entries := done ++ l |}) as Hins.
  { induction l as [|r l IH]; intros dn H1 H2; cbn [fold_left]; [by rewrite app_nil_r|].
    rewrite map_app in H1, H2. cbn [map] in H1, H2.
    assert (ri_id r ∉ pending s) as Hp by (intros Hx; apply (H2 _ Hx); set_solver).
    rewrite insert_fresh by (cbn; apply NoDup_app in H1 as (_ & H1 & _); set_solver).
    unfold reset. cbn [pending entries]. rewrite decide_False by done.
    replace (pending s ∖ {[ri_id r]}) with (pending s) by set_solver.
    rewrite IH, <- app_assoc; [done| |]; rewrite <- app_assoc, map_app; done. }
  rewrite Hins; [by destruct s|done|done].
Qed.

(** ** Histories *)

Definition all_inserts (raws : list RawValue) : list Z := flat_map (fun v => ids (rv_inserts v)) raws.
Definition all_removes (raws : list RawValue) : list Z := flat_map rv_removes raws.
Definition total_records (raws : list RawValue) : nat :=
  foldr (fun v n => (raw_records v + n)%nat) 0%nat raws.

(** The histories the source describes: values of one family in which every
    operation ID is inserted by at most one operand and removed by at most
    one. *)
Definition valid_history (fam : QueueFamily) (values : list bytes) (raws : list RawValue) : Prop :=
  Forall bytes_ok values /\ parsed fam values raws /\
  NoDup (all_inserts raws) /\ NoDup (all_removes raws) /\
  Z.of_nat (total_records raws) < 2 ^ 64.

Lemma records_total' raws s :
  (records (fold_left apply_value raws s) <= records s + total_records raws)%nat.
Proof.
  unfold total_records. revert s. induction raws as [|v raws IH]; intros s; cbn; [lia|].
  specialize (IH (apply_value s v)). pose proof (records_apply s v). lia.
Qed.

Lemma apply_values_steps raws s :
  fold_left apply_value raws s = fold_left step (flat_map ops_of raws) s.
Proof.
  revert s; induction raws as [|v raws IH]; intros s; cbn; [done|].
  by rewrite fold_left_app, IH, apply_value_steps.
Qed.

Lemma ins_ids_all raws : ins_ids (flat_map ops_of raws) = all_inserts raws.
Proof.
  unfold all_inserts. induction raws as [|v raws IH]; cbn; [done|].
  rewrite <- IH, <- ins_ids_of. apply flat_map_app.
Qed.

Lemma rem_ids_all raws : rem_ids (flat_map ops_of raws) = all_removes raws.
Proof.
  unfold all_removes. induction raws as [|v raws IH]; cbn; [done|].
  rewrite <- IH, <- (rem_ids_of v). apply flat_map_app.
Qed.

(** Replacing a segment of values by the value of its composition. *)
Lemma regroup fam pre seg s1 :
  s1 = fold_left apply_value seg empty_state ->
  NoDup (all_inserts (pre ++ seg)) -> NoDup (all_removes (pre ++ seg)) ->
  apply_value (fold_left apply_value pre empty_state) (value_of fam s1) =
  fold_left apply_value (pre ++ seg) empty_state.
Proof.
  unfold all_inserts, all_removes. rewrite !flat_map_app.
  fold (all_inserts pre) (all_inserts seg) (all_removes pre) (all_removes seg).
  intros -> (_ & Hd & Hi)%NoDup_app (_ & _ & Hr)%NoDup_app.
  rewrite fold_left_app, apply_value_steps, !apply_values_steps.
  rewrite <- ins_ids_all in Hi. rewrite <- rem_ids_all in Hr.
  set (l0 := flat_map ops_of pre). set (l := flat_map ops_of seg) in *.
  pose proof (steps_consistent empty_state l0 empty_consistent) as H0.
  pose proof (steps_consistent empty_state l empty_consistent) as H1.
  destruct (steps_mention l0) as [_ Hm0]. destruct (steps_mention l) as [_ Hm].
  set (s0 := fold_left step l0 empty_state) in *. set (s1 := fold_left step l empty_state) in *.
  assert (forall id, id ∈ ins_ids l -> id ∉ ids (entries s0)) as Hfresh.
  { intros id Hx Hy%Hm0. unfold l0, l in *. rewrite ins_ids_all in Hx, Hy. by apply (Hd id). }
  apply (acts_unique s0 s1); [|by apply steps_act].
  rewrite <- (compose_value_of fam s1 H1) at 1. apply steps_act.
  - done.
  - rewrite ins_ids_of. apply H1.
  - rewrite rem_ids_of. cbn. rewrite sort_ids_perm. apply NoDup_elements.
  - intros id. rewrite ins_ids_of. intros Hx%Hm. by apply Hfresh.
Qed.

Lemma put_value_ok v : raw_ok v -> bytes_ok (put_value v).
Proof.
  intros Hv. unfold put_value. rewrite !Forall_app. split_and!.
  - destruct (rv_family v); repeat constructor; unfold byte_ok, QUEUE_VALUE_VERSION, QUEUE_VALUE_KIND; cbn; lia.
  - apply put_varint_ok, (counts_ok _ Hv).
  - apply flat_to_be_ok.
  - apply put_varint_ok, (counts_ok _ Hv).
  - induction (inserts_ok _ Hv) as [|r l (Hid & Hb & Hl & _) _ IH]; [constructor|].
    cbn [flat_map]. apply Forall_app. split; [|done]. unfold put_one, put_raw_insert.
    constructor; [destruct (ri_mode r); unfold byte_ok; cbn; lia|].
    rewrite !Forall_app. auto using to_be_ok, put_varint_ok.
Qed.

Lemma parsed_app fam v1 v2 raws :
  parsed fam (v1 ++ v2) raws ->
  exists r1 r2, raws = r1 ++ r2 /\ parsed fam v1 r1 /\ parsed fam v2 r2.
Proof.
  intros H. apply Forall2_app_inv_l in H as (r1 & r2 & H1 & H2 & ->). eauto.
Qed.

(** What merges return on values that parse. *)
Lemma merge_partial_spec fam values raws :
  values <> [] -> Forall bytes_ok values -> parsed fam values raws ->
  merge_partial None values =
    Ok (put_value (value_of fam (fold_left apply_value raws empty_state))).
Proof.
  intros Hne Hb Hp. unfold merge_partial. cbn [chain].
  destruct (compose_spec fam values raws Hne Hp) as (c & -> & Hc & Ha & Hf). bind_simpl.
  pose proof (apply_values_ok fam raws empty_state (parsed_raw_ok _ _ _ Hb Hp) (empty_ok fam)) as Hs.
  rewrite <- Ha in Hs |- *. by rewrite (encode_partial_value fam).
Qed.

Lemma merge_base_spec fam values raws :
  Forall bytes_ok values -> parsed fam values raws ->
  merge_with_base None values =
    Ok match fold_left queue_apply raws [] with
       | [] => Empty
       | q => Value (put_resolved fam q)
       end.
Proof.
  intros Hb Hp. unfold merge_with_base. cbn [chain].
  destruct values as [|v values]; [apply Forall2_nil_inv_l in Hp as ->; done|].
  destruct (compose_spec fam (v :: values) raws) as (c & -> & Hc & Ha & Hf); [done|done|]. bind_simpl.
  pose proof (parsed_raw_ok _ _ _ Hb Hp) as Hraws.
  pose proof (apply_values_ok fam raws empty_state Hraws (empty_ok fam)) as Hs.
  pose proof (apply_values_queue fam raws empty_state Hraws (empty_ok fam)) as Hq.
  rewrite <- Ha in Hs, Hq. rewrite (encode_resolved_value fam), Hq by done.
  cbn [empty_state entries map]. by destruct (fold_left queue_apply raws []).
Qed.

Lemma merge_chain first operands :
  merge_partial first operands = merge_partial None (chain first operands) /\
  merge_with_base first operands = merge_with_base None (chain first operands).
Proof. done. Qed.

Lemma decode_validated fam l used :
  Forall (insert_ok fam) l -> NoDup (ids l) -> Forall (fun r => ri_id r ∉ used) l ->
  exists ops, decode_each (decode_body fam) used (map Ok (map strip l)) = Ok ops /\
    map (fun o => (op_id o, put_body o)) ops = map strip l.
Proof.
  intros Hok; revert used; induction Hok as [|r l (Hid & Hb & Hl & Hv) _ IH]; intros used Hnd Hu.
  { by exists []. }
  cbn [map] in Hnd. apply NoDup_cons in Hnd as [Hr Hnd]. apply Forall_cons in Hu as [Hu Hus].
  pose proof (validate_body_agrees fam (ri_id r) (ri_body r) Hb) as Ha. unfold agrees in Ha.
  destruct (decode_body fam (ri_id r) (ri_body r)) as [o|e] eqn:E.
  2:{ rewrite Hv in Ha. by destruct Ha. }
  destruct (IH ({[ ri_id r ]} ∪ used)) as (ops & E' & Hops); [done| |].
  { rewrite Forall_forall in *. intros x Hx. specialize (Hus _ Hx).
    assert (ri_id x ∈ ids l) by (apply list_elem_of_fmap; eauto). set_solver. }
  exists (o :: ops). cbn [map decode_each strip result_bind]. rewrite bool_decide_false by done.
  cbn [negb]. rewrite E. bind_simpl. rewrite E'. split; [done|]. cbn [map].
  apply decode_body_inv in E as (_ & _ & Hid' & Hb'); [|done..].
  rewrite Hops, Hid', Hb'. done.
Qed.

Lemma merged_decodes fam raws :
  Forall (fun v => raw_ok v /\ rv_family v = fam) raws ->
  Z.of_nat (total_records raws) < 2 ^ 64 ->
  fold_left queue_apply raws [] <> [] ->
  exists ops, decode_queue_value (put_resolved fam (fold_left queue_apply raws [])) = Ok (fam, ops) /\
    map (fun o => (op_id o, put_body o)) ops = fold_left queue_apply raws [].
Proof.
  intros Hraws Hn Hne.
  pose proof (apply_values_ok fam raws empty_state Hraws (empty_ok fam)) as [H1 _ H3 _].
  pose proof (apply_values_queue fam raws empty_state Hraws (empty_ok fam)) as Hq.
  pose proof (records_total' raws empty_state) as Hrec. unfold records in Hrec.
  cbn [empty_state entries map] in Hq. rewrite <- Hq in *. clear Hq.
  set (l := entries _) in *. clearbody l.
  change (size (pending empty_state)) with 0%nat in Hrec. cbn [empty_state entries length] in Hrec.
  destruct (decode_validated fam l ∅ H3 H1) as (ops & E & Hops).
  { apply Forall_true. set_solver. }
  exists ops. split; [|done]. unfold decode_queue_value, decode_unique.
  rewrite resolved_records_put; [bind_simpl; by rewrite E|done| |rewrite length_map; unfold in_u; lia].
  apply Forall_fmap. eapply Forall_impl; [exact H3|]. by intros r (? & ? & ? & _).
Qed.

(** Composing never panics, and fails only where a value does not parse or
    changes family. *)
Lemma compose_loop_total c values :
  comp_ok c ->
  (exists raws, parsed (c_family c) values raws) \/
  (exists e, compose_loop (Some c) values = Err (Failed e) /\
     ~ exists raws, parsed (c_family c) values raws).
Proof.
  revert c; induction values as [|v values IH]; intros c Hc; [left; exists []; constructor|].
  cbn [compose_loop]. destruct (parse v) as [raw|e] eqn:E; cbn [lift result_bind].
  2:{ right. exists e. split; [done|]. intros [raws H]. inversion H as [|? ? ? ? [Hp _]]. congruence. }
  destruct (decide (rv_family raw = c_family c)) as [Hf|Hf].
  - destruct (follow_spec c raw (blen v) Hc Hf) as (c1 & -> & Hc1 & _ & Hf1). bind_simpl.
    destruct (IH c1 Hc1) as [[raws H]|(e & -> & H)]; rewrite Hf1 in H.
    + left. exists (raw :: raws). by constructor.
    + right. exists e. split; [done|]. intros [raws H']. apply H.
      inversion H' as [|? ? ? ? _ Ht]. subst. eauto.
  - right. unfold follow. rewrite bool_decide_false by done. eexists. split; [done|].
    intros [raws H]. inversion H as [|? ? ? ? [Hp Hf']]. congruence.
Qed.

Lemma compose_total values :
  (exists fam raws, parsed fam values raws) \/
  (exists e, compose values = Err (Failed e) /\ ~ exists fam raws, parsed fam values raws).
Proof.
  destruct values as [|v values]; [left; exists Vector, []; constructor|].
  unfold compose. cbn [compose_loop].
  destruct (parse v) as [raw|e] eqn:E; cbn [lift result_bind].
  2:{ right. exists e. split; [done|]. intros (fam & raws & H). inversion H as [|? ? ? ? [Hp _]]. congruence. }
  destruct (new_ok (rv_family raw)) as [Hn _].
  destruct (follow_spec (new (rv_family raw)) raw (blen v) Hn eq_refl) as (c1 & -> & Hc1 & _ & Hf1).
  bind_simpl. destruct (compose_loop_total c1 values Hc1) as [[raws H]|(e & -> & H)];
    rewrite Hf1 in H; cbn [new c_family] in H.
  - left. exists (rv_family raw), (raw :: raws). by constructor.
  - right. exists e. split; [done|]. intros (fam & raws & H'). apply H.
    inversion H' as [|? ? ? ? [Hp <-] Ht]. subst. rewrite Hp in E. injection E as <-. eauto.
Qed.

Lemma nodup_replace (a b b' c : list Z) :
  NoDup (a ++ b ++ c) -> NoDup b' -> (forall x, x ∈ b' -> x ∈ b) -> NoDup (a ++ b' ++ c).
Proof.
  intros (Ha & Hd & (Hb & Hd' & Hc)%NoDup_app)%NoDup_app Hb' Hsub.
  rewrite !NoDup_app. set_solver.
Qed.

Lemma total_records_app l1 l2 :
  total_records (l1 ++ l2) = (total_records l1 + total_records l2)%nat.
Proof. unfold total_records. induction l1 as [|v l1 IH]; cbn [app foldr]; lia. Qed.

(** A composed segment mentions no identifier its values do not. *)
Lemma composed_mentions raws :
  let s := fold_left apply_value raws empty_state in
  (forall id, id ∈ pending s -> id ∈ all_removes raws) /\
  (forall id, id ∈ ids (entries s) -> id ∈ all_inserts raws).
Proof.
  cbn. rewrite apply_values_steps, <- rem_ids_all, <- ins_ids_all. apply steps_mention.
Qed.

(** The history left by replacing a segment with its composition. *)
Lemma regrouped_history fam pre seg post :
  let s := fold_left apply_value seg empty_state in
  NoDup (all_inserts (pre ++ seg ++ post)) -> NoDup (all_removes (pre ++ seg ++ post)) ->
  Z.of_nat (total_records (pre ++ seg ++ post)) < 2 ^ 64 ->
  NoDup (all_inserts (pre ++ [value_of fam s] ++ post)) /\
  NoDup (all_removes (pre ++ [value_of fam s] ++ post)) /\
  Z.of_nat (total_records (pre ++ [value_of fam s] ++ post)) < 2 ^ 64 /\
  Z.of_nat (records s) < 2 ^ 64.
Proof.
  intros s Hi Hr Hn. destruct (composed_mentions seg) as [Hm1 Hm2]. fold s in Hm1, Hm2.
  pose proof (records_total' seg empty_state) as Hrec. fold s in Hrec.
  change (records empty_state) with 0%nat in Hrec. rewrite !total_records_app in *.
  assert (total_records [value_of fam s] = records s) as Hv.
  { unfold total_records, raw_records, records. cbn [foldr value_of rv_removes rv_inserts].
    rewrite length_sorted_elements. lia. }
  assert (consistent s) as [Hs _].
  { unfold s. rewrite apply_values_steps. apply steps_consistent, empty_consistent. }
  unfold all_inserts, all_removes in *. rewrite !flat_map_app in *.
  split_and!; [| |lia|lia]; (eapply nodup_replace; [eassumption| |]);
    cbn [flat_map value_of rv_removes rv_inserts]; rewrite app_nil_r.
  - done.
  - apply Hm2.
  - rewrite sort_ids_perm. apply NoDup_elements.
  - intros x. rewrite sort_ids_perm, elem_of_elements. apply Hm1.
Qed.

(** ** Properties *)

(** [C1] Resolving operands against a base implements an ordered queue: from
    the empty queue, each value removes its removals, then appends each
    insert-if-absent whose identifier is absent and moves each set to the end.
    An empty result is the tombstone; any other is a resolved value that
    decodes to exactly the queue's entries. *)
Theorem merge_with_base_refines (base : option bytes) (operands : list bytes) fam raws :
  Forall bytes_ok (chain base operands) -> parsed fam (chain base operands) raws ->
  Z.of_nat (total_records raws) < 2 ^ 64 ->
  match fold_left queue_apply raws [] with
  | [] => merge_with_base base operands = Ok Empty
  | q => exists value ops, merge_with_base base operands = Ok (Value value) /\
      decode_queue_value value = Ok (fam, ops) /\
      map (fun o => (op_id o, put_body o)) ops = q
  end.
Proof.
  intros Hb Hp Hn. rewrite (proj2 (merge_chain _ _)), (merge_base_spec fam _ raws) by done.
  pose proof (merged_decodes fam raws (parsed_raw_ok _ _ _ Hb Hp) Hn) as Hd.
  destruct (fold_left queue_apply raws []) as [|e q]; [done|].
  destruct (Hd ltac:(done)) as (ops & ? & ?). eauto.
Qed.

(** Two enqueues, then the acknowledgement of the first. *)
Definition enqueue_12 : RawValue :=
  {| rv_family := Text; rv_removes := [];
     rv_inserts := [ {| ri_mode := IfAbsent; ri_id := 1; ri_body := [1; 7; 0] |};
                     {| ri_mode := IfAbsent; ri_id := 2; ri_body := [2; 9; 0] |} ] |}.
Definition acknowledge_1 : RawValue :=
  {| rv_family := Text; rv_removes := [1]; rv_inserts := [] |}.

Lemma sample_parsed :
  parsed Text [put_value enqueue_12; put_value acknowledge_1] [enqueue_12; acknowledge_1].
Proof.
  constructor; [split; [vm_compute; reflexivity | reflexivity]|].
  constructor; [split; [vm_compute; reflexivity | reflexivity] | constructor].
Defined.

Lemma merge_with_base_refines_witness :
  exists value ops,
    merge_with_base (Some (put_value enqueue_12)) [put_value acknowledge_1] = Ok (Value value) /\
    decode_queue_value value = Ok (Text, ops) /\
    map (fun o => (op_id o, put_body o)) ops = [(2, [2; 9; 0])].
Proof.
  exact (merge_with_base_refines (Some (put_value enqueue_12)) [put_value acknowledge_1] Text
    [enqueue_12; acknowledge_1]
    ltac:(apply (bool_decide_unpack _); vm_compute; exact I) sample_parsed
    ltac:(vm_compute; reflexivity)).
Defined.

(** Merging is total: no input makes it panic, and it succeeds exactly
    when every value parses and all share one family (a partial merge also
    needs at least one value). *)
Theorem merge_total (first : option bytes) (operands : list bytes) :
  merge_with_base first operands <> Err Panicked /\
  merge_partial first operands <> Err Panicked /\
  (is_ok (merge_with_base first operands) = true <->
     exists fam raws, parsed fam (chain first operands) raws) /\
  (is_ok (merge_partial first operands) = true <->
     chain first operands <> [] /\ exists fam raws, parsed fam (chain first operands) raws).
Proof.
  unfold merge_with_base, merge_partial. generalize (chain first operands). intros values.
  destruct (compose_total values) as [(fam & raws & H)|(e & -> & H)]; cbn [result_bind].
  - destruct values as [|v values].
    { cbn. split_and!; [done|done| |]; (split; [|by try intros [? _]]); [eauto|done]. }
    destruct (compose_spec fam (v :: values) raws) as (c & -> & _); [done|done|]. bind_simpl.
    split_and!; [done|done| |]; (split; [|done]); eauto.
  - cbn. split_and!; [done|done| |]; (split; [done|]); naive_solver.
Qed.

(** [C2] Grouping does not matter on the histories storage can present, in
    which each operation ID is inserted by at most one operand and removed by
    at most one: replacing any contiguous group of values by its partial
    merge changes neither a later partial merge nor the resolved queue, and
    leaves a history of the same kind, so groups may be merged repeatedly. *)
Theorem merge_grouping (pre seg post : list bytes) fam raws :
  seg <> [] -> valid_history fam (pre ++ seg ++ post) raws ->
  exists m, merge_partial None seg = Ok m /\
    merge_partial None (pre ++ [m] ++ post) = merge_partial None (pre ++ seg ++ post) /\
    merge_with_base None (pre ++ [m] ++ post) = merge_with_base None (pre ++ seg ++ post) /\
    exists raws', valid_history fam (pre ++ [m] ++ post) raws'.
Proof.
  intros Hne (Hb & Hp & Hi & Hr & Hn).
  apply parsed_app in Hp as (r0 & r12 & -> & Hp0 & Hp).
  apply parsed_app in Hp as (r1 & r2 & -> & Hp1 & Hp2).
  apply Forall_app in Hb as [Hb0 [Hb1 Hb2]%Forall_app].
  set (s1 := fold_left apply_value r1 empty_state).
  exists (put_value (value_of fam s1)). rewrite (merge_partial_spec fam seg r1) by done.
  split; [done|].
  destruct (regrouped_history fam r0 r1 r2 Hi Hr Hn) as (Hi' & Hr' & Hn' & Hrec).
  fold s1 in Hi', Hr', Hn', Hrec.
  assert (raw_ok (value_of fam s1)) as Hok.
  { apply value_of_ok; [|lia]. apply apply_values_ok; [exact (parsed_raw_ok _ _ _ Hb1 Hp1)|apply empty_ok]. }
  assert (parsed fam (pre ++ [put_value (value_of fam s1)] ++ post)
    (r0 ++ [value_of fam s1] ++ r2)) as Hp'.
  { apply Forall2_app; [done|]. apply Forall2_app; [|done]. repeat constructor. by apply parse_put. }
  assert (Forall bytes_ok (pre ++ [put_value (value_of fam s1)] ++ post)) as Hb'.
  { rewrite !Forall_app. split_and!; [done| |done]. constructor; [by apply put_value_ok|constructor]. }
  assert (fold_left apply_value (r0 ++ [value_of fam s1] ++ r2) empty_state =
    fold_left apply_value (r0 ++ r1 ++ r2) empty_state) as Hs.
  { rewrite !fold_left_app. cbn [fold_left]. rewrite (regroup fam r0 r1 s1), fold_left_app; [done..| |].
    - unfold all_inserts in *. rewrite app_assoc, flat_map_app in Hi.
      by apply NoDup_app in Hi as [? _].
    - unfold all_removes in *. rewrite app_assoc, flat_map_app in Hr.
      by apply NoDup_app in Hr as [? _]. }
  assert (parsed fam (pre ++ seg ++ post) (r0 ++ r1 ++ r2)) as Hpa
    by (apply Forall2_app; [done|]; by apply Forall2_app).
  assert (Forall bytes_ok (pre ++ seg ++ post)) as Hba by (rewrite !Forall_app; done).
  split_and!.
  - assert (pre ++ [put_value (value_of fam s1)] ++ post <> []) as Hne' by by destruct pre.
    assert (pre ++ seg ++ post <> []) as Hne'' by by destruct pre, seg.
    rewrite (merge_partial_spec fam _ _ Hne' Hb' Hp'), (merge_partial_spec fam _ _ Hne'' Hba Hpa).
    by rewrite Hs.
  - rewrite (merge_base_spec fam _ _ Hb' Hp'), (merge_base_spec fam _ _ Hba Hpa).
    pose proof (apply_values_queue fam (r0 ++ r1 ++ r2) empty_state
      (parsed_raw_ok _ _ _ Hba Hpa) (empty_ok fam)) as E1.
    pose proof (apply_values_queue fam _ empty_state (parsed_raw_ok _ _ _ Hb' Hp') (empty_ok fam)) as E2.
    rewrite Hs, E1 in E2. cbn [empty_state entries map] in E2. by rewrite E2.
  - exists (r0 ++ [value_of fam s1] ++ r2). by unfold valid_history.
Qed.

(** Three values: enqueue 1 and 2, acknowledge 1, enqueue 3. *)
Definition enqueue_3 : RawValue :=
  {| rv_family := Text; rv_removes := [];
     rv_inserts := [ {| ri_mode := IfAbsent; ri_id := 3; ri_body := [1; 7; 0] |} ] |}.
Definition sample_raws : list RawValue := [enqueue_12; acknowledge_1; enqueue_3].

Lemma sample_history : valid_history Text (map put_value sample_raws) sample_raws.
Proof.
  split; [apply (bool_decide_unpack _); vm_compute; exact I|].
  split; [repeat (constructor; [split; [vm_compute; reflexivity | reflexivity]|]); constructor|].
  split; [apply (bool_decide_unpack _); vm_compute; exact I|].
  split; [apply (bool_decide_unpack _); vm_compute; exact I | vm_compute; reflexivity].
Defined.

Lemma merge_grouping_witness :
  exists m, merge_partial None [put_value acknowledge_1; put_value enqueue_3] = Ok m /\
    merge_with_base None [put_value enqueue_12; m] =
      merge_with_base None (map put_value sample_raws).
Proof.
  destruct (merge_grouping [put_value enqueue_12] [put_value acknowledge_1; put_value enqueue_3] []
    Text sample_raws ltac:(discriminate) sample_history) as (m & E & _ & E' & _).
  exists m. split; [exact E | exact E'].
Defined.

(** ** The per-identifier state machine *)

Inductive id_state :=
| Unseen
| Removed
| Inserted (mode : InsertMode).

Definition id_state_of (c : Composition) (id : Z) : id_state :=
  match c_live c !! id ≫= fun i => c_slots c !! i with
  | Some s => Inserted (slot_mode s)
  | None => if decide (id ∈ c_removes c) then Removed else Unseen
  end.

(** The source's table. *)
Definition after_remove (s : id_state) : id_state :=
  match s with
  | Unseen => Removed
  | Removed => Removed
  | Inserted IfAbsent => Unseen
  | Inserted SetMode => Removed
  end.
Definition after_insert (m : InsertMode) (s : id_state) : id_state :=
  match s, m with
  | Unseen, _ => Inserted m
  | Removed, _ => Inserted SetMode
  | Inserted m', IfAbsent => Inserted m'
  | Inserted _, SetMode => Inserted SetMode
  end.

Definition abstract_state (s : state) (id : Z) : id_state :=
  match find_id id (entries s) with
  | Some r => Inserted (ri_mode r)
  | None => if decide (id ∈ pending s) then Removed else Unseen
  end.

Lemma id_state_abs c id : comp_ok c -> id_state_of c id = abstract_state (abs c) id.
Proof.
  intros Hc. unfold id_state_of, abstract_state. cbn [abs entries pending].
  rewrite find_survivor by done. destruct (c_live c !! id) as [i|]; cbn; [|done].
  by destruct (c_slots c !! i).
Qed.

Lemma find_drop x id l : find_id x (drop_id id l) = if decide (x = id) then None else find_id x l.
Proof.
  destruct (decide (x = id)) as [->|Hne].
  - apply find_id_none. intros [_ ?]%elem_ids_drop. done.
  - unfold drop_id. induction l as [|r l IH]; [done|]. cbn [find_id].
    destruct (decide (ri_id r = id)) as [Hr|Hr].
    + rewrite filter_cons_False by tauto. by rewrite decide_False by congruence.
    + rewrite filter_cons_True by done. cbn [find_id]. by rewrite IH.
Qed.

Lemma remove_table s id x :
  consistent s ->
  abstract_state (remove s id) x =
  if decide (x = id) then after_remove (abstract_state s id) else abstract_state s x.
Proof.
  intros [Hn Hd]. unfold abstract_state, remove.
  destruct (find_id id (entries s)) as [r|] eqn:E; cbn [entries pending].
  - assert (id ∉ pending s) as Hp.
    { intros Hp%Hd. apply Hp. apply find_id_some in E as [? <-]. apply list_elem_of_fmap. eauto. }
    rewrite find_drop. destruct (decide (x = id)) as [->|Hne].
    + destruct (ri_mode r); cbn; [by rewrite decide_False|by rewrite decide_True by set_solver].
    + destruct (find_id x (entries s)); [done|]. apply decide_ext.
      destruct (decide _); set_solver.
  - destruct (decide (x = id)) as [->|Hne].
    + rewrite E, decide_True by set_solver. by destruct (decide _).
    + destruct (find_id x (entries s)); [done|]. apply decide_ext. set_solver.
Qed.

Lemma insert_table s r x :
  consistent s ->
  abstract_state (insert_record s r) x =
  if decide (x = ri_id r) then after_insert (ri_mode r) (abstract_state s (ri_id r))
  else abstract_state s x.
Proof.
  intros [Hn Hd]. unfold abstract_state, insert_record.
  destruct (decide (ri_id r ∈ pending s)) as [Hp|Hp]; cbn [entries pending].
  - pose proof (Hd _ Hp) as H%find_id_none. rewrite find_id_app. cbn [find_id with_mode ri_id].
    destruct (decide (x = ri_id r)) as [->|Hne].
    + rewrite H, decide_True by done. by destruct (ri_mode r).
    + rewrite (decide_False (P := ri_id r = x)) by done.
      destruct (find_id x (entries s)); [done|]. apply decide_ext. set_solver.
  - destruct (find_id (ri_id r) (entries s)) as [y|] eqn:E.
    + destruct (ri_mode r) eqn:Em; cbn [entries pending].
      * destruct (decide (x = ri_id r)) as [->|]; [by rewrite E|done].
      * rewrite find_id_app, find_drop. cbn [find_id].
        destruct (decide (x = ri_id r)) as [->|Hne].
        -- rewrite decide_True by done. by rewrite Em.
        -- rewrite (decide_False (P := ri_id r = x)) by done. by destruct (find_id x (entries s)).
    + cbn [entries pending]. rewrite find_id_app. cbn [find_id].
      destruct (decide (x = ri_id r)) as [->|Hne].
      * rewrite E, decide_True by done. by destruct (ri_mode r).
      * rewrite (decide_False (P := ri_id r = x)) by done. by destruct (find_id x (entries s)).
Qed.

(** What a run of [follow] from a fresh composition reaches. *)
Inductive reachable (fam : QueueFamily) : Composition -> Prop :=
| reach_new : reachable fam (new fam)
| reach_remove c id c' : reachable fam c -> follow_remove c id = Ok c' -> reachable fam c'
| reach_insert c r c' : reachable fam c -> follow_insert c r = Ok c' -> reachable fam c'.

Lemma reachable_ok fam c : reachable fam c -> comp_ok c /\ consistent (abs c).
Proof.
  induction 1 as [|c id c' _ [Hc Ha] E|c r c' _ [Hc Ha] E].
  - destruct (new_ok fam) as [? ->]. split; [done|apply empty_consistent].
  - destruct (follow_remove_spec c id Hc) as (c2 & E' & Hc2 & Ha2 & _).
    rewrite E' in E. injection E as <-. split; [done|]. rewrite Ha2. by apply (step_consistent _ (Rem id)).
  - destruct (follow_insert_spec c r Hc) as (c2 & E' & Hc2 & Ha2 & _).
    rewrite E' in E. injection E as <-. split; [done|]. rewrite Ha2. by apply (step_consistent _ (Ins r)).
Qed.

(** In every composition the code can reach, each record moves its own
    identifier exactly along the source's table and leaves every other
    identifier's state alone, so an acknowledgement can never erase another
    operation. The step itself never panics. *)
Theorem per_id_state_machine (fam : QueueFamily) (c : Composition) :
  reachable fam c ->
  (forall id, exists c', follow_remove c id = Ok c' /\
     forall x, id_state_of c' x =
       if decide (x = id) then after_remove (id_state_of c id) else id_state_of c x) /\
  (forall r, exists c', follow_insert c r = Ok c' /\
     forall x, id_state_of c' x =
       if decide (x = ri_id r) then after_insert (ri_mode r) (id_state_of c (ri_id r))
       else id_state_of c x).
Proof.
  intros [Hc Ha]%reachable_ok. split.
  - intros id. destruct (follow_remove_spec c id Hc) as (c' & E & Hc' & Ha' & _).
    exists c'. split; [done|]. intros x. rewrite !id_state_abs, Ha' by done. by apply remove_table.
  - intros r. destruct (follow_insert_spec c r Hc) as (c' & E & Hc' & Ha' & _).
    exists c'. split; [done|]. intros x. rewrite !id_state_abs, Ha' by done. by apply insert_table.
Qed.

Lemma per_id_state_machine_witness :
  exists c', follow_remove (new Text) 7 = Ok c' /\ id_state_of c' 7 = Removed.
Proof.
  destruct (proj1 (per_id_state_machine Text (new Text) (reach_new Text)) 7) as (c' & E & H).
  exists c'. split; [exact E|]. rewrite H. reflexivity.
Defined.

(** ** Unresolved values stay bounded *)

Definition entry_retained (e : Z * bytes) : Z := retained_len (blen e.2).
Definition queue_retained (q : list (Z * bytes)) : Z := foldr Z.add 0 (map entry_retained q).

(** Producers only enqueue, and the worker acknowledges only identifiers it
    read from the queue. *)
Fixpoint follows (q : list (Z * bytes)) (raws : list RawValue) : Prop :=
  match raws with
  | [] => True
  | v :: raws =>
      Forall (fun id => id ∈ map fst q) (rv_removes v) /\
      Forall (fun r => ri_mode r = IfAbsent) (rv_inserts v) /\
      follows (queue_apply q v) raws
  end.

Definition settled (s : state) : Prop :=
  pending s = ∅ /\ Forall (fun r => ri_mode r = IfAbsent) (entries s).

Lemma remove_settled s id :
  settled s -> id ∈ ids (entries s) ->
  settled (remove s id) /\ forall x, x <> id -> x ∈ ids (entries s) -> x ∈ ids (entries (remove s id)).
Proof.
  intros [Hp Hm] [r Hr]%find_id_in. unfold remove. rewrite Hr.
  apply find_id_some in Hr as [Hr _]. rewrite Forall_forall in Hm.
  unfold settled. cbn [pending entries]. rewrite (Hm _ Hr), decide_False by done.
  split; [split; [done|by apply Forall_drop, Forall_forall]|].
  intros x Hne Hx. by apply elem_ids_drop.
Qed.

Lemma removes_settled l s :
  settled s -> NoDup l -> Forall (fun id => id ∈ ids (entries s)) l -> settled (fold_left remove l s).
Proof.
  revert s; induction l as [|x l IH]; intros s Hs Hnd Hl; cbn [fold_left]; [done|].
  apply NoDup_cons in Hnd as [Hx Hnd]. apply Forall_cons in Hl as [Hin Hl].
  destruct (remove_settled s x Hs Hin) as [Hs' Hkeep]. apply IH; [done|done|].
  rewrite Forall_forall in *. intros y Hy. apply Hkeep; [set_solver|auto].
Qed.

Lemma inserts_settled l s :
  settled s -> Forall (fun r => ri_mode r = IfAbsent) l -> settled (fold_left insert_record l s).
Proof.
  revert s; induction l as [|r l IH]; intros s [Hp Hm] Hl; cbn [fold_left]; [done|].
  apply Forall_cons in Hl as [Hr Hl]. apply IH; [|done]. unfold insert_record, settled.
  rewrite decide_False by (rewrite Hp; set_solver). rewrite Hr.
  destruct (find_id _ _); [done|]. cbn [pending entries]. split; [done|].
  apply Forall_app. split; [done|]. by constructor.
Qed.

Lemma follows_settled fam raws s :
  Forall (fun v => raw_ok v /\ rv_family v = fam) raws -> state_ok fam s -> settled s ->
  follows (map strip (entries s)) raws -> settled (fold_left apply_value raws s).
Proof.
  intros H; revert s; induction H as [|v raws [Hv Hf] _ IH]; intros s Hok Hs Hfol; cbn [fold_left]; [done|].
  destruct Hfol as (H1 & H2 & H3). rewrite strip_ids in H1. apply IH.
  - by apply apply_value_ok.
  - apply inserts_settled; [|done]. apply removes_settled; [done| |done].
    apply strict_nodup, (removes_sorted _ Hv).
  - by rewrite (apply_queue fam).
Qed.

Lemma follows_app q r1 r2 :
  follows q (r1 ++ r2) <-> follows q r1 /\ follows (fold_left queue_apply r1 q) r2.
Proof. revert q; induction r1 as [|v r1 IH]; intros q; cbn; [tauto|]. rewrite IH. tauto. Qed.

Lemma entry_retained_min fam r : insert_ok fam r -> 21 <= entry_retained (strip r).
Proof.
  intros (Hid & Hb & Hl & Hv).
  pose proof (validate_body_agrees fam (ri_id r) (ri_body r) Hb) as Ha. unfold agrees in Ha.
  destruct (decode_body fam (ri_id r) (ri_body r)) as [o|e] eqn:E.
  2:{ rewrite Hv in Ha. by destruct Ha. }
  apply decode_body_inv in E as ((_ & Hi & Hp & _) & _ & _ & Hbody); [|done..].
  pose proof (body_encoded_len_min o Hi Hp). rewrite <- (blen_put_body o), Hbody in H by done.
  unfold entry_retained, retained_len, strip, MODE_LEN, OPERATION_ID_LEN. cbn [snd].
  pose proof (varint_len_bound _ Hl). lia.
Qed.

Lemma queue_retained_min fam l :
  Forall (insert_ok fam) l -> 21 * Z.of_nat (length l) <= queue_retained (map strip l).
Proof.
  unfold queue_retained. induction 1 as [|r l Hr _ IH]; cbn [length map foldr]; [lia|].
  pose proof (entry_retained_min fam r Hr). lia.
Qed.

Lemma queue_retained_app q1 q2 : queue_retained (q1 ++ q2) = queue_retained q1 + queue_retained q2.
Proof. unfold queue_retained. induction q1; cbn [app map foldr]; lia. Qed.

Lemma blen_put_entries fam l :
  Forall (insert_ok fam) l -> blen (flat_map put_one l) = queue_retained (map strip l).
Proof.
  unfold queue_retained. induction 1 as [|r l (_ & _ & Hl & _) _ IH]; [done|]. cbn [flat_map map foldr].
  rewrite blen_app, IH. f_equal. unfold put_one, put_raw_insert, entry_retained, retained_len, strip.
  cbn [snd]. autorewrite with bytes_len. rewrite blen_put_varint by done.
  unfold MODE_LEN, OPERATION_ID_LEN. lia.
Qed.

(** Under the history, a segment's pending removals name operations
    outstanding before it and its inserts are outstanding after it. *)
Lemma segment_outstanding s0 s1 s :
  consistent s0 -> consistent s1 -> acts s0 s1 s -> pending s0 = ∅ -> pending s = ∅ ->
  (size (pending s1) <= length (entries s0))%nat /\ exists l, entries s = l ++ entries s1.
Proof.
  intros [Hn0 _] [Hn1 Hd1] [He Hp] H0 Hs. split.
  - rewrite <- (length_map ri_id), <- (size_list_to_set (C := gset Z)) by done.
    apply subseteq_size. intros id Hid. rewrite elem_of_list_to_set.
    destruct (find_id id (entries s0)) as [r|] eqn:E.
    + apply find_id_some in E as [? <-]. apply list_elem_of_fmap. eauto.
    + assert (id ∈ pending s) as Hx; [|rewrite Hs in Hx; set_solver].
      apply Hp. split; [|by apply Hd1]. right. split; [done|]. unfold conditional. naive_solver.
  - eexists. rewrite He. f_equal. rewrite <- (map_id (entries s1)) at 2. apply map_ext.
    intros r. unfold reset. rewrite decide_False; [done|]. rewrite H0. set_solver.
Qed.

(** A composition's length, when its removals are at most the [n] entries of a
    queue within the ceiling and its inserts are within it too. *)
Lemma composed_length fam s n ceiling :
  state_ok fam s -> Z.of_nat (records s) < 2 ^ 64 -> (size (pending s) <= n)%nat ->
  21 * Z.of_nat n <= ceiling -> queue_retained (map strip (entries s)) <= ceiling ->
  ceiling <= MAX_RETAINED_BYTES ->
  blen (put_value (value_of fam s)) <= umax 32.
Proof.
  intros Hok Hrec Hsize Hn Hq Hceil. unfold records in Hrec.
  unfold put_value, value_of. cbn [rv_family rv_removes rv_inserts].
  rewrite length_sorted_elements. autorewrite with bytes_len.
  rewrite blen_put_header, blen_flat16, length_sorted_elements, (blen_put_entries fam)
    by apply (entries_ok _ _ Hok).
  set (a := size (pending s)) in *. set (b := length (entries s)) in *.
  assert (in_u 64 (Z.of_nat a) /\ in_u 64 (Z.of_nat b)) as [Ha Hb] by (unfold in_u; lia).
  rewrite !blen_put_varint by done.
  pose proof (varint_len_bound _ Ha). pose proof (varint_len_bound _ Hb).
  assert (MAX_RETAINED_BYTES = 2437684127) as Hmax by reflexivity.
  change (umax 32) with 4294967295. unfold HEADER_LEN in *. lia.
Qed.

(** An unresolved value always fits SlateDB's 32-bit value length: on
    the histories storage presents, if the queue's retained bytes were within
    a ceiling of at most [MAX_RETAINED_BYTES] both before the oldest operand
    of a segment and after its newest, the segment's partial merge is at most
    [u32::MAX] bytes, however many operands it composes. *)
Theorem partial_merge_bounded (pre seg : list bytes) fam r0 r1 (ceiling : Z) :
  seg <> [] -> valid_history fam (pre ++ seg) (r0 ++ r1) -> parsed fam pre r0 ->
  follows [] (r0 ++ r1) -> ceiling <= MAX_RETAINED_BYTES ->
  queue_retained (fold_left queue_apply r0 []) <= ceiling ->
  queue_retained (fold_left queue_apply (r0 ++ r1) []) <= ceiling ->
  exists m, merge_partial None seg = Ok m /\ blen m <= umax 32.
Proof.
  intros Hne (Hb & Hp & Hi & Hr & Hn) Hp0 Hfol Hceil Hbefore Hafter.
  apply Forall_app in Hb as [Hb0 Hb1].
  assert (parsed fam seg r1) as Hp1.
  { apply Forall2_length in Hp0 as Hl. unfold parsed in *. by apply Forall2_app_inv in Hp as [_ ?]. }
  rewrite (merge_partial_spec fam seg r1) by done. eexists. split; [done|].
  pose proof (parsed_raw_ok _ _ _ Hb0 Hp0) as Hraw0. pose proof (parsed_raw_ok _ _ _ Hb1 Hp1) as Hraw1.
  pose proof (follows_settled fam (r0 ++ r1) empty_state
    ltac:(by apply Forall_app) (empty_ok fam) ltac:(split; [done|constructor]) Hfol) as [Hs _].
  apply follows_app in Hfol as [Hfol0 _].
  pose proof (follows_settled fam r0 empty_state Hraw0 (empty_ok fam)
    ltac:(split; [done|constructor]) Hfol0) as [Hs0 _].
  pose proof (apply_values_ok fam r0 empty_state Hraw0 (empty_ok fam)) as Hok0.
  pose proof (apply_values_ok fam r1 empty_state Hraw1 (empty_ok fam)) as Hok1.
  pose proof (apply_values_queue fam r0 empty_state Hraw0 (empty_ok fam)) as Hq0.
  pose proof (apply_values_queue fam (r0 ++ r1) empty_state ltac:(by apply Forall_app) (empty_ok fam)) as Hq.
  cbn [empty_state entries map] in Hq0, Hq. rewrite <- Hq0 in Hbefore. rewrite <- Hq in Hafter.
  assert (acts (fold_left apply_value r0 empty_state) (fold_left apply_value r1 empty_state)
    (fold_left apply_value (r0 ++ r1) empty_state)) as Hact.
  { unfold all_inserts, all_removes in Hi, Hr. rewrite flat_map_app in Hi, Hr.
    apply NoDup_app in Hi as (_ & Hd & Hi). apply NoDup_app in Hr as (_ & _ & Hr).
    rewrite fold_left_app, !apply_values_steps. apply steps_act.
    - apply steps_consistent, empty_consistent.
    - by rewrite ins_ids_all.
    - by rewrite rem_ids_all.
    - intros id Hx Hy. rewrite ins_ids_all in Hx. rewrite <- apply_values_steps in Hy.
      apply (proj2 (composed_mentions r0)) in Hy. by apply (Hd id). }
  set (s0 := fold_left apply_value r0 empty_state) in *.
  set (s1 := fold_left apply_value r1 empty_state) in *.
  set (s := fold_left apply_value (r0 ++ r1) empty_state) in *.
  destruct (segment_outstanding s0 s1 s (conj (entries_nodup _ _ Hok0) (entries_not_pending _ _ Hok0))
    (conj (entries_nodup _ _ Hok1) (entries_not_pending _ _ Hok1)) Hact Hs0 Hs) as [Hsize [l He]].
  rewrite He, map_app, queue_retained_app in Hafter.
  pose proof (records_total' r1 empty_state) as Hrec. fold s1 in Hrec.
  change (records empty_state) with 0%nat in Hrec. unfold records in Hrec.
  rewrite total_records_app in Hn.
  pose proof (apply_values_ok fam (r0 ++ r1) empty_state ltac:(by apply Forall_app) (empty_ok fam)) as Hok.
  fold s in Hok. pose proof (entries_ok _ _ Hok) as Hl. rewrite He in Hl.
  apply Forall_app in Hl as [Hl _]. apply queue_retained_min in Hl.
  apply (composed_length fam s1 (length (entries s0)) ceiling); try done; try lia.
  - unfold records. lia.
  - pose proof (queue_retained_min _ _ (entries_ok _ _ Hok0)). lia.
Qed.

Lemma partial_merge_bounded_witness :
  exists m, merge_partial None [put_value acknowledge_1; put_value enqueue_3] = Ok m /\
    blen m <= umax 32.
Proof.
  refine (partial_merge_bounded [put_value enqueue_12] [put_value acknowledge_1; put_value enqueue_3]
    Text [enqueue_12] [acknowledge_1; enqueue_3] 100 _ sample_history _ _ _ _ _).
  - discriminate.
  - constructor; [split; [vm_compute; reflexivity | reflexivity] | constructor].
  - cbn. repeat split; repeat constructor.
  - vm_compute. discriminate.
  - vm_compute. discriminate.
  - vm_compute. discriminate.
Defined.

End QueueAlgebra.
