(* ===== verification/IdAllocator.v ===== *)
(** The lease-based ID allocator: crates/db/src/id_allocator.rs and the
    watermark codec of crates/db/src/encoding/v2/values/id_allocation.rs.

    Tasks interleave at the granularity of their atomic operations: one step
    of a task is one load, store, read-modify-write, lock acquisition, lock
    release or storage call of the code, named by its program counter. Storage
    reads and writes may fail, a failed write may or may not have become
    durable, a task may be cancelled where it awaits, and the process may
    crash and restart from storage at any point. The scheduler's decisions are
    data ([choice]), so runs are executable. *)
From S2P Require Import Prelude Bytes.

Open Scope Z_scope.

Module IdAllocator.

(** ** [IdAllocationWatermarkValue] *)

Definition WATERMARK_LEN : Z := 8.
Definition encode (exclusive_id : Z) : bytes := to_be 8 exclusive_id.
Definition decode (b : bytes) : result EncodingError Z :=
  if negb (blen b =? WATERMARK_LEN) then
    Err (InvalidKey ("ID allocation watermark must be " +:+ fmt_dec WATERMARK_LEN
      +:+ " bytes, got " +:+ fmt_dec (blen b)))
  else Ok (of_be b).

(** ** Configuration and lease arithmetic *)

Record config := { lease_size : Z; refill_threshold : Z }.
Definition config_ok (c : config) : Prop :=
  in_u 64 (lease_size c) /\ lease_size c <> 0 /\ in_u 64 (refill_threshold c).

Definition extension_target (current_lease_end next_id lease_size refill_threshold : Z) : Z :=
  let desired_lease_end := sat_add 64 next_id refill_threshold in
  if desired_lease_end <? current_lease_end then current_lease_end
  else
    let missing := desired_lease_end - current_lease_end in
    let chunks := if missing =? 0 then 1 else div_ceil missing lease_size in
    Z.max (sat_add 64 current_lease_end (sat_mul 64 chunks lease_size)) desired_lease_end.

Inductive RefillLifecycle := Idle | InFlight | ClosingInFlight | Closed.
#[global] Instance RefillLifecycle_eq_dec : EqDecision RefillLifecycle.
Proof. solve_decision. Defined.

(** A half-open range of IDs. *)
Abbreviation range := (Z * Z)%type.

(** ** Tasks *)

(** What runs after [persist_lease_extension] returns. *)
Inductive cont :=
| KRange (r : range)
| KReserve (n : Z)
| KRefill.

Inductive pc :=
(* allocate, allocate_batch *)
| AllocStart (count : Z)
| FastClaim (count : Z)
| FastCheck (r : range)
| AfterNext (r : range)
| AfterEnd (r : range) (next : Z)
| AfterCas (r : range)
(* ensure_lease_covers_claimed_ids *)
| EnsureLock (r : range)
| EnsureNext (r : range)
| EnsureEnd (r : range) (next : Z)
(* initialize_and_allocate *)
| InitLock (count : Z)
| InitCheck (count : Z)
| InitClaim (count lease_end : Z)
| InitLoad (count : Z)
| InitStore (count persisted : Z)
| InitFirstClaim (count persisted : Z)
(* persist_lease_extension *)
| PersistNext (k : cont) (current : Z)
| PersistPut (k : cont) (new : Z)
| PersistStore (k : cont) (new : Z)
(* reserve_at_least *)
| ResLock (n : Z)
| ResLoad (n : Z)
| ResNext (n persisted : Z)
| ResMax (n persisted target : Z)
| ResEnd (n persisted : Z)
| ResFinal (n persisted current : Z)
(* the refill task: refill_if_needed, then RefillCompletion::drop *)
| RefLock
| RefNext
| RefEnd (next : Z)
| RefComplete
| RefCas (observed : RefillLifecycle)
(* shutdown *)
| ShutLoad
| ShutCas (observed : RefillLifecycle)
| ShutWait
(* an [unreachable!] was reached *)
| Unreachable.

Inductive event :=
| Claimed (r : range)
| Returned (r : range)
| Reserved (n : Z)
| Errored
| ShutDown
| Crashed.

Record state := {
  next_id : Z;
  lease_end : Z;
  store : option bytes;
  lock : option nat;
  lifecycle : RefillLifecycle;
  tasks : gmap nat pc;
  events : list event;
}.

(** A database with no watermark and a new allocator. *)
Definition fresh_state : state :=
  {| next_id := 0; lease_end := 0; store := None; lock := None; lifecycle := Idle;
     tasks := ∅; events := [] |}.

(** *** State updates *)

Definition goto (i : nat) (p : pc) (s : state) : state :=
  {| next_id := next_id s; lease_end := lease_end s; store := store s; lock := lock s;
     lifecycle := lifecycle s; tasks := <[i := p]> (tasks s); events := events s |}.
Definition exit (i : nat) (s : state) : state :=
  {| next_id := next_id s; lease_end := lease_end s; store := store s; lock := lock s;
     lifecycle := lifecycle s; tasks := delete i (tasks s); events := events s |}.
Definition emit (e : event) (s : state) : state :=
  {| next_id := next_id s; lease_end := lease_end s; store := store s; lock := lock s;
     lifecycle := lifecycle s; tasks := tasks s; events := e :: events s |}.
Definition set_next (n : Z) (s : state) : state :=
  {| next_id := n; lease_end := lease_end s; store := store s; lock := lock s;
     lifecycle := lifecycle s; tasks := tasks s; events := events s |}.
Definition set_lease (n : Z) (s : state) : state :=
  {| next_id := next_id s; lease_end := n; store := store s; lock := lock s;
     lifecycle := lifecycle s; tasks := tasks s; events := events s |}.
Definition set_store (b : bytes) (s : state) : state :=
  {| next_id := next_id s; lease_end := lease_end s; store := Some b; lock := lock s;
     lifecycle := lifecycle s; tasks := tasks s; events := events s |}.
Definition set_lock (l : option nat) (s : state) : state :=
  {| next_id := next_id s; lease_end := lease_end s; store := store s; lock := l;
     lifecycle := lifecycle s; tasks := tasks s; events := events s |}.
Definition set_lifecycle (l : RefillLifecycle) (s : state) : state :=
  {| next_id := next_id s; lease_end := lease_end s; store := store s; lock := lock s;
     lifecycle := l; tasks := tasks s; events := events s |}.

(** ** Steps *)

(** How a storage call ends. A failed write may still be durable. *)
Inductive outcome :=
| IoOk
| IoErr (durable : bool).

(** The task holds [extend_lock] before the step at this point. *)
Definition holds (p : pc) : bool :=
  match p with
  | EnsureNext _ | EnsureEnd _ _ | InitCheck _ | InitClaim _ _ | InitLoad _ | InitStore _ _
  | InitFirstClaim _ _ | PersistNext _ _ | PersistPut _ _ | PersistStore _ _
  | ResLoad _ | ResNext _ _ | ResMax _ _ _ | ResEnd _ _ | ResFinal _ _ _
  | RefNext | RefEnd _ => true
  | _ => false
  end.

(** [extend_lock.lock().await]: [None] while another task holds it. *)
Definition acquire (i : nat) (p : pc) (s : state) : option state :=
  match lock s with
  | None => Some (goto i p (set_lock (Some i) s))
  | Some _ => None
  end.

(** The end of a task's call with an error; the guard is dropped. *)
Definition fail (i : nat) (s : state) : state := exit i (emit Errored (set_lock None s)).

(** [claim_ids]: [fetch_update] with [checked_add]. *)
Definition claim_ids (count : Z) (s : state) : option (range * state) :=
  match checked_add 64 (next_id s) count with
  | None => None
  | Some stop =>
      let r := (next_id s, stop) in
      Some (r, emit (Claimed r) (set_next stop s))
  end.

(** [persist_lease_extension] returned [Ok]; its callers return. *)
Definition persisted (i : nat) (k : cont) (s : state) : state :=
  let s := set_lock None s in
  match k with
  | KRange r => goto i (AfterNext r) s
  | KReserve n => exit i (emit (Reserved n) s)
  | KRefill => goto i RefComplete s
  end.

(** It returned an error. A refill's error is only logged. *)
Definition persist_failed (i : nat) (k : cont) (s : state) : state :=
  match k with
  | KRefill => goto i RefComplete (set_lock None s)
  | _ => fail i s
  end.

(** [load_persisted_watermark]. *)
Definition load_persisted (s : state) : result EncodingError Z :=
  match store s with
  | None => Ok 0
  | Some b => decode b
  end.

Section Steps.
Context (cfg : config).

(** [allocate] and [allocate_batch], up to [start_refill_if_needed]. *)
Definition alloc_step (s : state) (i : nat) (p : pc) : option state :=
  match p with
  | AllocStart count =>
      if count =? 0 then Some (exit i (emit (Returned (0, 0)) s))
      else if lease_end s =? 0 then Some (goto i (InitLock count) s)
      else Some (goto i (FastClaim count) s)
  | FastClaim count =>
      match claim_ids count s with
      | None => Some (exit i (emit Errored s))
      | Some (r, s) => Some (goto i (FastCheck r) s)
      end
  | FastCheck r =>
      if lease_end s <? snd r then Some (goto i (EnsureLock r) s)
      else Some (goto i (AfterNext r) s)
  | _ => None
  end.

(** [start_refill_if_needed]: the two loads of [remaining_in_lease], then the exchange and the spawn. *)
Definition start_refill_step (s : state) (i : nat) (p : pc) (j : nat) : option state :=
  match p with
  | AfterNext r => Some (goto i (AfterEnd r (next_id s)) s)
  | AfterEnd r next =>
      if refill_threshold cfg <? sat_sub (lease_end s) next then
        Some (exit i (emit (Returned r) s))
      else Some (goto i (AfterCas r) s)
  | AfterCas r =>
      if decide (lifecycle s = Idle) then
        match tasks s !! j with
        | None => Some (exit i (emit (Returned r) (goto j RefLock (set_lifecycle InFlight s))))
        | Some _ => None
        end
      else Some (exit i (emit (Returned r) s))
  | _ => None
  end.

(** [ensure_lease_covers_claimed_ids]. *)
Definition ensure_step (s : state) (i : nat) (p : pc) : option state :=
  match p with
  | EnsureLock r => acquire i (EnsureNext r) s
  | EnsureNext r => Some (goto i (EnsureEnd r (next_id s)) s)
  | EnsureEnd r next =>
      if next <=? lease_end s then Some (goto i (AfterNext r) (set_lock None s))
      else Some (goto i (PersistNext (KRange r) (lease_end s)) s)
  | _ => None
  end.

(** [initialize_and_allocate]. *)
Definition init_step (s : state) (i : nat) (p : pc) (o : outcome) : option state :=
  match p with
  | InitLock count => acquire i (InitCheck count) s
  | InitCheck count =>
      if 0 <? lease_end s then Some (goto i (InitClaim count (lease_end s)) s)
      else Some (goto i (InitLoad count) s)
  | InitClaim count lease =>
      match claim_ids count s with
      | None => Some (fail i s)
      | Some (r, s) =>
          if snd r <=? lease then Some (goto i (AfterNext r) (set_lock None s))
          else Some (goto i (PersistNext (KRange r) lease) s)
      end
  | InitLoad count =>
      match o, load_persisted s with
      | IoOk, Ok persisted => Some (goto i (InitStore count persisted) s)
      | _, _ => Some (fail i s)
      end
  | InitStore count persisted =>
      Some (goto i (InitFirstClaim count persisted) (set_next persisted s))
  | InitFirstClaim count persisted =>
      match claim_ids count s with
      | None => Some (fail i s)
      | Some (r, s) => Some (goto i (PersistNext (KRange r) persisted) s)
      end
  | _ => None
  end.

(** [persist_lease_extension]. *)
Definition persist_step (s : state) (i : nat) (p : pc) (o : outcome) : option state :=
  match p with
  | PersistNext k current =>
      let new := extension_target current (next_id s) (lease_size cfg) (refill_threshold cfg) in
      if new =? current then Some (persisted i k s)
      else Some (goto i (PersistPut k new) s)
  | PersistPut k new =>
      match o with
      | IoOk => Some (goto i (PersistStore k new) (set_store (encode new) s))
      | IoErr durable =>
          Some (persist_failed i k (if durable then set_store (encode new) s else s))
      end
  | PersistStore k new => Some (persisted i k (set_lease new s))
  | _ => None
  end.

(** [reserve_at_least]. *)
Definition reserve_step (s : state) (i : nat) (p : pc) (o : outcome) : option state :=
  match p with
  | ResLock n => acquire i (ResLoad n) s
  | ResLoad n =>
      match o, load_persisted s with
      | IoOk, Ok persisted => Some (goto i (ResNext n persisted) s)
      | _, _ => Some (fail i s)
      end
  | ResNext n persisted =>
      Some (goto i (ResMax n persisted (Z.max (Z.max persisted (next_id s)) n)) s)
  | ResMax n persisted target =>
      Some (goto i (ResEnd n persisted) (set_next (Z.max (next_id s) target) s))
  | ResEnd n persisted => Some (goto i (ResFinal n persisted (lease_end s)) s)
  | ResFinal n persisted current =>
      if (current <? next_id s) || (persisted <? next_id s) then
        Some (goto i (PersistNext (KReserve n) (Z.max current persisted)) s)
      else Some (exit i (emit (Reserved n) (set_lock None s)))
  | _ => None
  end.

(** [refill_if_needed], run by the spawned task. *)
Definition refill_step (s : state) (i : nat) (p : pc) : option state :=
  match p with
  | RefLock => acquire i RefNext s
  | RefNext => Some (goto i (RefEnd (next_id s)) s)
  | RefEnd next =>
      if refill_threshold cfg <? sat_sub (lease_end s) next then
        Some (goto i RefComplete (set_lock None s))
      else Some (goto i (PersistNext KRefill (lease_end s)) s)
  | _ => None
  end.

(** [RefillCompletion::drop]. *)
Definition completion_step (s : state) (i : nat) (p : pc) : option state :=
  match p with
  | RefComplete => Some (goto i (RefCas (lifecycle s)) s)
  | RefCas observed =>
      match observed with
      | Idle | Closed => Some (goto i Unreachable s)
      | InFlight | ClosingInFlight =>
          if decide (lifecycle s = observed) then
            Some (exit i (set_lifecycle
              match observed with InFlight => Idle | _ => Closed end s))
          else Some (goto i RefComplete s)
      end
  | _ => None
  end.

(** [shutdown]. *)
Definition shutdown_step (s : state) (i : nat) (p : pc) : option state :=
  match p with
  | ShutLoad =>
      match lifecycle s with
      | Closed => Some (exit i (emit ShutDown s))
      | ClosingInFlight => Some (goto i ShutWait s)
      | observed => Some (goto i (ShutCas observed) s)
      end
  | ShutCas observed =>
      if decide (lifecycle s = observed) then
        match observed with
        | Idle => Some (exit i (emit ShutDown (set_lifecycle Closed s)))
        | InFlight => Some (goto i ShutLoad (set_lifecycle ClosingInFlight s))
        | _ => Some (goto i ShutLoad s)
        end
      else Some (goto i ShutLoad s)
  | ShutWait =>
      (* the notification follows the change of the lifecycle *)
      if decide (lifecycle s = ClosingInFlight) then None else Some (goto i ShutLoad s)
  | _ => None
  end.

(** One step of task [i], at [p]. [o] is the result of a storage call and [j]
    the identity of a task it spawns. [None] means the step is not enabled. *)
Definition task_step (s : state) (i : nat) (p : pc) (o : outcome) (j : nat) : option state :=
  match p with
  | AllocStart _ | FastClaim _ | FastCheck _ => alloc_step s i p
  | AfterNext _ | AfterEnd _ _ | AfterCas _ => start_refill_step s i p j
  | EnsureLock _ | EnsureNext _ | EnsureEnd _ _ => ensure_step s i p
  | InitLock _ | InitCheck _ | InitClaim _ _
  | InitLoad _ | InitStore _ _ | InitFirstClaim _ _ => init_step s i p o
  | PersistNext _ _ | PersistPut _ _ | PersistStore _ _ => persist_step s i p o
  | ResLock _ | ResLoad _ | ResNext _ _ | ResMax _ _ _ | ResEnd _ _ | ResFinal _ _ _ => reserve_step s i p o
  | RefLock | RefNext | RefEnd _ => refill_step s i p
  | RefComplete | RefCas _ => completion_step s i p
  | ShutLoad | ShutCas _ | ShutWait => shutdown_step s i p
  | Unreachable => None
  end.

(** Where a task awaits, and so may be dropped. Dropping a refill runs its
    completion. *)
Definition awaits (p : pc) : bool :=
  match p with
  | EnsureLock _ | InitLock _ | InitLoad _ | PersistPut _ _ | ResLock _ | ResLoad _ | RefLock
  | ShutWait => true
  | _ => false
  end.

Definition cancel (s : state) (i : nat) (p : pc) (durable : bool) : option state :=
  if awaits p then
    let s := match p with
             | PersistPut _ new => if durable then set_store (encode new) s else s
             | _ => s
             end in
    let s := if holds p then set_lock None s else s in
    Some match p with
         | RefLock | PersistPut KRefill _ => goto i RefComplete s
         | _ => exit i s
         end
  else None.

Inductive operation :=
| AllocateBatch (count : Z)
| ReserveAtLeast (n : Z)
| Shutdown.

Definition start_pc (op : operation) : pc :=
  match op with
  | AllocateBatch count => AllocStart count
  | ReserveAtLeast n => ResLock n
  | Shutdown => ShutLoad
  end.

(** The scheduler's decisions. [allocate] is [AllocateBatch 1]. *)
Inductive choice :=
| Call (i : nat) (op : operation)
| Run (i : nat) (o : outcome) (j : nat)
| Cancel (i : nat) (durable : bool)
| Crash.

(** What the process keeps across a crash is the store. *)
Definition crash (s : state) : state :=
  {| next_id := 0; lease_end := 0; store := store s; lock := None; lifecycle := Idle;
     tasks := ∅; events := Crashed :: events s |}.

Definition operation_ok (op : operation) : bool :=
  match op with
  | AllocateBatch n | ReserveAtLeast n => (0 <=? n) && (n <? 2 ^ 64)
  | Shutdown => true
  end.

Definition exec (c : choice) (s : state) : option state :=
  match c with
  | Call i op =>
      match tasks s !! i with
      | None => if operation_ok op then Some (goto i (start_pc op) s) else None
      | Some _ => None
      end
  | Run i o j => tasks s !! i ≫= fun p => task_step s i p o j
  | Cancel i durable => tasks s !! i ≫= fun p => cancel s i p durable
  | Crash => Some (crash s)
  end.

Fixpoint run (cs : list choice) (s : state) : option state :=
  match cs with
  | [] => Some s
  | c :: cs => exec c s ≫= run cs
  end.

Definition reachable (s : state) : Prop := exists cs, run cs fresh_state = Some s.

End Steps.

(** Exposes one step of a task. *)
Ltac step_cbn :=
  cbn [task_step alloc_step start_refill_step ensure_step init_step persist_step reserve_step refill_step completion_step shutdown_step].
(** ** Invariant *)

Definition returned (l : list event) : list range :=
  omap (fun e => match e with Returned r => Some r | _ => None end) l.
Definition reserved (l : list event) : list Z :=
  omap (fun e => match e with Reserved n => Some n | _ => None end) l.

Definition disjoint (r1 r2 : range) : Prop :=
  forall x, fst r1 <= x < snd r1 -> fst r2 <= x < snd r2 -> False.

(** The durable watermark. *)
Definition watermark (s : state) : Z :=
  match load_persisted s with
  | Ok w => w
  | Err _ => 0
  end.
Definition store_ok (s : state) : Prop :=
  match store s with
  | None => True
  | Some b => exists w, in_u 64 w /\ b = encode w
  end.

(** The next ID is above everything returned and reserved. *)
Definition covers (s : state) : Prop :=
  Forall (fun r => snd r <= next_id s) (returned (events s)) /\
  Forall (fun n => n <= next_id s) (reserved (events s)).

(** The range a task has claimed and not yet returned. *)
Definition cont_claim (k : cont) : option range :=
  match k with
  | KRange r => Some r
  | _ => None
  end.
Definition claim_of (p : pc) : option range :=
  match p with
  | FastCheck r | AfterNext r | AfterEnd r _ | AfterCas r
  | EnsureLock r | EnsureNext r | EnsureEnd r _ => Some r
  | PersistNext k _ | PersistPut k _ | PersistStore k _ => cont_claim k
  | _ => None
  end.

(** What each task knows at its point. *)
Definition knows (s : state) (p : pc) : Prop :=
  match p with
  | FastClaim c => 0 < c /\ 0 < lease_end s
  | AllocStart c => 0 <= c
  | FastCheck _ | EnsureLock _ | EnsureNext _ => 0 < lease_end s
  | EnsureEnd r n => 0 < lease_end s /\ snd r <= n <= next_id s
  | AfterNext r | AfterEnd r _ | AfterCas r => 0 < lease_end s /\ snd r <= lease_end s
  | InitLock c | InitCheck c => 0 < c
  | InitClaim c l => 0 < c /\ l = lease_end s /\ 0 < l
  | InitLoad c => 0 < c /\ lease_end s = 0
  | InitStore c w => 0 < c /\ lease_end s = 0 /\ w = watermark s
  | InitFirstClaim c w => 0 < c /\ lease_end s = 0 /\ w = watermark s /\ next_id s = w
  | PersistNext k cur =>
      lease_end s <= cur <= watermark s /\ (lease_end s = 0 -> cur = watermark s) /\ covers s /\
      match k with
      | KRange r => cur < next_id s
      | KReserve n => 0 <= n <= next_id s
      | KRefill => 0 < lease_end s
      end
  | PersistPut k new =>
      in_u 64 new /\ 0 < new /\ lease_end s <= new /\ (lease_end s = 0 -> watermark s <= new) /\
      Forall (fun n => n <= new) (reserved (events s)) /\ covers s /\
      match k with
      | KRange r => snd r <= new
      | KReserve n => 0 <= n <= next_id s /\ n <= new
      | KRefill => True
      end
  | PersistStore k new =>
      in_u 64 new /\ 0 < new /\ lease_end s <= new /\ watermark s = new /\ covers s /\
      match k with
      | KRange r => snd r <= new
      | KReserve n => 0 <= n <= next_id s /\ n <= new
      | KRefill => True
      end
  | ResLock n | ResLoad n => in_u 64 n
  | ResNext n w => in_u 64 n /\ w = watermark s
  | ResMax n w t => in_u 64 t /\ 0 <= n <= t /\ w = watermark s /\ w <= t
  | ResEnd n w => 0 <= n <= next_id s /\ w = watermark s /\ w <= next_id s
  | ResFinal n w c => 0 <= n <= next_id s /\ w = watermark s /\ w <= next_id s /\ c = lease_end s
  | RefLock | RefNext | RefEnd _ => 0 < lease_end s
  | _ => True
  end.

(** What the shared variables satisfy. *)
Record shared_ok (s : state) : Prop := {
  sh_next : in_u 64 (next_id s);
  sh_lease : in_u 64 (lease_end s);
  sh_store : store_ok s;
  sh_durable : lease_end s <= watermark s;
  sh_returned : Forall (fun r => snd r <= (if lease_end s =? 0 then watermark s else lease_end s))
                  (returned (events s));
  sh_reserved : Forall (fun n => n <= watermark s) (reserved (events s));
  sh_covers : 0 < lease_end s -> covers s;
}.

Record invariant (s : state) : Prop := {
  inv_shared : shared_ok s;
  inv_disjoint : ForallOrdPairs disjoint (returned (events s));
  inv_lock : forall i p, tasks s !! i = Some p -> holds p = true -> lock s = Some i;
  inv_held : forall i, lock s = Some i -> exists p, tasks s !! i = Some p /\ holds p = true;
  inv_knows : forall i p, tasks s !! i = Some p -> knows s p;
  inv_claim : forall i p r, tasks s !! i = Some p -> claim_of p = Some r ->
    fst r < snd r /\ snd r <= next_id s /\ Forall (disjoint r) (returned (events s));
  inv_claims : forall i j p q r1 r2, i <> j -> tasks s !! i = Some p -> tasks s !! j = Some q ->
    claim_of p = Some r1 -> claim_of q = Some r2 -> disjoint r1 r2;
}.

Lemma disjoint_sym r1 r2 : disjoint r1 r2 -> disjoint r2 r1.
Proof. unfold disjoint. eauto. Qed.

(** *** Stability of what other tasks know *)

Lemma knows_free s s' q :
  holds q = false -> lease_end s <= lease_end s' -> knows s q -> knows s' q.
Proof. destruct q; cbn; try done; intros _ H; intuition lia. Qed.

(** A step of a task that does not hold the lock. *)
Record frozen (s s' : state) : Prop := {
  fr_lease : lease_end s' = lease_end s;
  fr_watermark : watermark s' = watermark s;
  fr_next : next_id s <= next_id s';
  fr_init : lease_end s = 0 -> next_id s' = next_id s;
  fr_reserved : reserved (events s') = reserved (events s);
  fr_covers : covers s -> covers s';
}.

Lemma knows_held s s' q : frozen s s' -> knows s q -> knows s' q.
Proof.
  intros [Hl Hw Hn Hi Hr Hc].
  destruct q; cbn; rewrite ?Hl, ?Hw, ?Hr; try tauto;
    try match goal with k : cont |- _ => destruct k end; intuition lia.
Qed.

(** A claim held while no lease exists belongs to the lock's holder. *)
Lemma claim_holder s q r :
  knows s q -> claim_of q = Some r -> lease_end s = 0 -> holds q = true.
Proof. destruct q; cbn; try done; intros H _ H0; intuition lia. Qed.

Definition moved (i : nat) (op : option pc) (s s' : state) : Prop :=
  tasks s' = match op with Some p => <[i := p]> (tasks s) | None => delete i (tasks s) end.

Lemma moved_lookup i op s s' j q :
  moved i op s s' -> tasks s' !! j = Some q ->
  (j = i /\ op = Some q) \/ (j <> i /\ tasks s !! j = Some q).
Proof.
  intros ->. destruct (decide (j = i)) as [->|Hne].
  - destruct op; [rewrite lookup_insert_eq; intros [= ->]; auto | by rewrite lookup_delete_eq].
  - destruct op; [rewrite lookup_insert_ne by done | rewrite lookup_delete_ne by done]; auto.
Qed.

(** One task moved from [p] to [op] (or ended), changing the shared state. *)
Lemma inv_update i p op s s' :
  invariant s -> tasks s !! i = Some p -> moved i op s s' -> shared_ok s' ->
  lease_end s <= lease_end s' ->
  (holds p = true \/ lock s = None \/ frozen s s') ->
  lock s' = (if match op with Some q => holds q | None => false end then Some i
             else if holds p then None else lock s) ->
  (holds p = true \/ lock s = None \/ match op with Some q => holds q | None => false end = false) ->
  (forall q, op = Some q -> knows s' q) ->
  (next_id s <= next_id s' \/ (lease_end s = 0 /\ holds p = true)) ->
  (forall q r, op = Some q -> claim_of q = Some r -> snd r <= next_id s' /\
     (claim_of p = Some r \/ (covers s /\ next_id s <= fst r /\ fst r < snd r))) ->
  (returned (events s') = returned (events s) \/
   exists r, returned (events s') = r :: returned (events s) /\
     (r = (0, 0) \/ (claim_of p = Some r /\ op = None))) ->
  invariant s'.
Proof.
  intros [Hsh Hdis Hlk Hhd Hkn Hcl Hcls] Hp Hmv Hsh' Hlease Hfr Hlock' Hacq Hk Hnext Hnew Hret.
  assert (forall j q, j <> i -> tasks s !! j = Some q -> holds q = true ->
    holds p = false /\ frozen s s' /\ lock s' = lock s) as Hother.
  { intros j q Hne Hq Hh. pose proof (Hlk _ _ Hq Hh) as Hl.
    assert (holds p = false) as Hpf.
    { destruct (holds p) eqn:E; [|done]. specialize (Hlk _ _ Hp E). congruence. }
    rewrite Hpf in *. destruct Hfr as [|[|Hfr]]; [done|congruence|].
    destruct Hacq as [|[|Hacq]]; [done|congruence|]. rewrite Hacq in Hlock'. done. }
  assert (forall j q r, j <> i -> tasks s !! j = Some q -> claim_of q = Some r ->
    snd r <= next_id s') as Hcn.
  { intros j q r Hne Hq Hr. destruct (Hcl _ _ _ Hq Hr) as (_ & Hle & _).
    destruct Hnext as [|[H0 Hhp]]; [lia|].
    pose proof (claim_holder _ _ _ (Hkn _ _ Hq) Hr H0) as Hh.
    destruct (Hother _ _ Hne Hq Hh) as [? _]. congruence. }
  assert (forall q r, op = Some q -> claim_of q = Some r ->
    fst r < snd r /\ snd r <= next_id s' /\ Forall (disjoint r) (returned (events s')) /\
    forall j q' r', j <> i -> tasks s !! j = Some q' -> claim_of q' = Some r' -> disjoint r r') as Hmine.
  { intros q r Hq Hr. destruct (Hnew _ _ Hq Hr) as [Hle [Hold|(Hcov & Hge & Hlt)]].
    - destruct (Hcl _ _ _ Hp Hold) as (H1 & _ & H3). split_and!; [done|done| |].
      + destruct Hret as [->|(r' & -> & [->|[_ ->]])]; [done| |done].
        constructor; [intros x; cbn; lia|done].
      + intros j q' r' Hne Hq' Hr'. by apply (Hcls i j p q').
    - split_and!; [done|done| |].
      + assert (Forall (disjoint r) (returned (events s))) as Hd.
        { eapply Forall_impl; [apply Hcov|]. intros r' Hr' x. cbn in Hr'. lia. }
        destruct Hret as [->|(r' & -> & [->|[_ ->]])]; [done| |done].
        constructor; [intros x; cbn; lia|done].
      + intros j q' r' Hne Hq' Hr'. destruct (Hcl _ _ _ Hq' Hr') as (_ & Hle' & _). intros x. lia. }
  split; [done| | | | | |].
  - destruct Hret as [->|(r & -> & Hr)]; [done|]. constructor; [|done].
    destruct Hr as [->|[Hr _]]; [|by apply (Hcl _ _ _ Hp Hr)].
    apply Forall_true. intros r' x. cbn. lia.
  - intros j q Hq Hh. destruct (moved_lookup _ _ _ _ _ _ Hmv Hq) as [[-> ->]|[Hne Hq']].
    + by rewrite Hh in Hlock'.
    + destruct (Hother _ _ Hne Hq' Hh) as (_ & _ & ->). by apply (Hlk _ q).
  - intros j Hj. rewrite Hlock' in Hj. unfold moved in Hmv.
    destruct op as [q|]; [destruct (holds q) eqn:Eq|].
    + injection Hj as <-. exists q. by rewrite Hmv, lookup_insert_eq.
    + destruct (holds p) eqn:Ep; [done|]. destruct (Hhd _ Hj) as (q' & Hq' & Hh').
      exists q'. rewrite Hmv, lookup_insert_ne; [done|]. intros <-. congruence.
    + destruct (holds p) eqn:Ep; [done|]. destruct (Hhd _ Hj) as (q' & Hq' & Hh').
      exists q'. rewrite Hmv, lookup_delete_ne; [done|]. intros <-. congruence.
  - intros j q Hq. destruct (moved_lookup _ _ _ _ _ _ Hmv Hq) as [[-> ->]|[Hne Hq']]; [by apply Hk|].
    destruct (holds q) eqn:Eh.
    + destruct (Hother _ _ Hne Hq' Eh) as (_ & Hf & _). by apply (knows_held s), (Hkn j).
    + apply (knows_free s); [done|done|]. by apply (Hkn j).
  - intros j q r Hq Hr. destruct (moved_lookup _ _ _ _ _ _ Hmv Hq) as [[-> ->]|[Hne Hq']].
    + destruct (Hmine _ _ eq_refl Hr) as (? & ? & ? & _). done.
    + destruct (Hcl _ _ _ Hq' Hr) as (H1 & _ & H3). split_and!; [done|by eapply Hcn|].
      destruct Hret as [->|(r' & -> & [->|[Hr' _]])]; [done| |].
      * constructor; [intros x; cbn; lia|done].
      * constructor; [|done]. by apply (Hcls j i q p).
  - intros j k q q' r1 r2 Hne Hq Hq' Hr1 Hr2.
    destruct (moved_lookup _ _ _ _ _ _ Hmv Hq) as [[Ej Eq]|[Hn1 Hq1]];
      destruct (moved_lookup _ _ _ _ _ _ Hmv Hq') as [[Ek Eq']|[Hn2 Hq2]].
    + congruence.
    + destruct (Hmine _ _ Eq Hr1) as (_ & _ & _ & H). by apply (H k q').
    + apply disjoint_sym. destruct (Hmine _ _ Eq' Hr2) as (_ & _ & _ & H). by apply (H j q).
    + by apply (Hcls j k q q').
Qed.

(** *** Steps that change no shared variable *)

Record quiet (s s' : state) : Prop := {
  q_next : next_id s' = next_id s;
  q_lease : lease_end s' = lease_end s;
  q_store : store s' = store s;
  q_returned : returned (events s') = returned (events s);
  q_reserved : reserved (events s') = reserved (events s);
}.

Lemma quiet_watermark s s' : quiet s s' -> watermark s' = watermark s.
Proof. intros [_ _ H _ _]. unfold watermark, load_persisted. by rewrite H. Qed.

Lemma quiet_covers s s' : quiet s s' -> covers s <-> covers s'.
Proof. intros [H1 _ _ H2 H3]. unfold covers. by rewrite H1, H2, H3. Qed.

Lemma quiet_shared s s' : quiet s s' -> shared_ok s -> shared_ok s'.
Proof.
  intros Hq [H1 H2 H3 H4 H5 H6 H7]. pose proof (quiet_watermark _ _ Hq) as Hw.
  pose proof (quiet_covers _ _ Hq) as Hc. destruct Hq as [E1 E2 E3 E4 E5].
  split; rewrite ?E1, ?E2, ?E4, ?E5, ?Hw; try done.
  - unfold store_ok. by rewrite E3.
  - intros H. by apply Hc, H7.
Qed.

Lemma quiet_frozen s s' : quiet s s' -> frozen s s'.
Proof.
  intros Hq. pose proof (quiet_watermark _ _ Hq). pose proof (quiet_covers _ _ Hq) as Hc.
  destruct Hq. split; [done|done|lia|done|done|by apply Hc].
Qed.

Lemma inv_quiet i p op s s' :
  invariant s -> tasks s !! i = Some p -> moved i op s s' -> quiet s s' ->
  lock s' = (if match op with Some q => holds q | None => false end then Some i
             else if holds p then None else lock s) ->
  (holds p = true \/ lock s = None \/ match op with Some q => holds q | None => false end = false) ->
  (forall q, op = Some q -> knows s q) ->
  (forall q r, op = Some q -> claim_of q = Some r -> claim_of p = Some r) ->
  invariant s'.
Proof.
  intros Hinv Hp Hmv Hq Hl Ha Hk Hc. pose proof (quiet_frozen _ _ Hq) as Hf.
  eapply (inv_update i p op s s'); eauto.
  - apply (quiet_shared s); [done|apply Hinv].
  - destruct Hq. lia.
  - intros q E. by apply (knows_held s), Hk.
  - destruct Hq. lia.
  - intros q r E Hr. specialize (Hc _ _ E Hr). split; [|by left].
    rewrite (q_next _ _ Hq). by apply (inv_claim _ Hinv i p r).
  - left. by destruct Hq.
Qed.

(** *** Storage *)

Lemma decode_encode w : in_u 64 w -> decode (encode w) = Ok w.
Proof.
  intros H. unfold decode, encode. rewrite blen_to_be. cbn [negb Z.eqb Z.of_nat WATERMARK_LEN].
  change (Z.of_nat 8 =? WATERMARK_LEN) with true. cbn [negb]. by rewrite of_to_be.
Qed.

Lemma load_ok s : store_ok s -> load_persisted s = Ok (watermark s) /\ in_u 64 (watermark s).
Proof.
  unfold store_ok, watermark, load_persisted. destruct (store s) as [b|]; [|done].
  intros (w & Hw & ->). by rewrite decode_encode.
Qed.

Lemma watermark_put w s : in_u 64 w -> watermark (set_store (encode w) s) = w.
Proof. intros H. unfold watermark, load_persisted. cbn. by rewrite decode_encode. Qed.

Lemma extension_target_bounds cur next size thr :
  in_u 64 cur -> in_u 64 next -> in_u 64 size -> size <> 0 -> in_u 64 thr ->
  let t := extension_target cur next size thr in
  in_u 64 t /\ cur <= t /\ next <= t.
Proof.
  unfold in_u, extension_target, sat_add, sat_mul, umax. intros Hc Hn Hs Hs0 Ht.
  destruct (Z.ltb_spec (Z.min (next + thr) (2 ^ 64 - 1)) cur) as [H|H]; cbn; [lia|].
  set (d := Z.min (next + thr) (2 ^ 64 - 1)) in *.
  assert (0 <= (if d - cur =? 0 then 1 else div_ceil (d - cur) size) * size) as Hch.
  { destruct (d - cur =? 0); [lia|]. unfold div_ceil. apply Z.mul_nonneg_nonneg; [|lia].
    apply Z.div_pos; lia. }
  lia.
Qed.

Section Preservation.
Context (cfg : config) (Hcfg : config_ok cfg).

(** A new claim starts above everything claimed, returned or reserved. *)
Lemma claim_ids_spec c s r s' :
  claim_ids c s = Some (r, s') -> in_u 64 (next_id s) -> 0 < c ->
  fst r = next_id s /\ snd r = next_id s' /\ next_id s < next_id s' /\ in_u 64 (next_id s') /\
  lease_end s' = lease_end s /\ store s' = store s /\ lock s' = lock s /\
  lifecycle s' = lifecycle s /\ tasks s' = tasks s /\ events s' = Claimed r :: events s.
Proof.
  unfold claim_ids, checked_add, umax, in_u. destruct (Z.leb_spec (next_id s + c) (2 ^ 64 - 1)); [|done].
  intros [= <- <-]. cbn. intros. split_and!; try done; lia.
Qed.

Lemma claimed_shared c s r s' :
  claim_ids c s = Some (r, s') -> 0 < c -> shared_ok s ->
  shared_ok s' /\ watermark s' = watermark s /\ (covers s -> covers s').
Proof.
  intros E Hc Hsh. pose proof (sh_next _ Hsh) as Hn.
  destruct (claim_ids_spec _ _ _ _ E Hn Hc) as (H1 & H2 & H3 & H4 & H5 & H6 & H7 & H8 & H9 & H10).
  assert (watermark s' = watermark s) as Hw by (unfold watermark, load_persisted; by rewrite H6).
  assert (covers s -> covers s') as Hcov.
  { unfold covers. rewrite H10. cbn. intros [Ha Hb]. split.
    - eapply Forall_impl; [exact Ha|]. cbn. lia.
    - eapply Forall_impl; [exact Hb|]. cbn. lia. }
  split_and!; [|done|done]. destruct Hsh. split; rewrite ?H5, ?Hw, ?H10; try done.
  - unfold store_ok. by rewrite H6.
  - auto.
Qed.

(** Discharges the side conditions of [inv_quiet] for a step to [op]. *)
Ltac quiet_step i p op Hinv Hp Hlk :=
  apply (inv_quiet i p op _ _ Hinv Hp);
  [ reflexivity | split; reflexivity | cbn; first [reflexivity | by rewrite Hlk]
  | cbn; auto | intros ? [= <-]; cbn in * | intros ? ? [= <-]; cbn; try done ].

Lemma acquire_some i q s s' :
  acquire i q s = Some s' -> lock s = None /\ s' = goto i q (set_lock (Some i) s).
Proof. unfold acquire. destruct (lock s); [done|]. by intros [= <-]. Qed.

Lemma shared_returned s r :
  shared_ok s -> snd r <= (if lease_end s =? 0 then watermark s else lease_end s) ->
  (0 < lease_end s -> snd r <= next_id s) -> shared_ok (emit (Returned r) s).
Proof.
  intros [H1 H2 H3 H4 H5 H6 H7] Hr Hn. split; try done.
  - by constructor.
  - intros H. destruct (H7 H). split; [|done]. constructor; [by apply Hn|done].
Qed.

Lemma frozen_returned s r : snd r <= next_id s -> frozen s (emit (Returned r) s).
Proof. intros Hr. split; try done. intros [H1 H2]. split; [|done]. by constructor. Qed.

Lemma alloc_preserves s i p o j s' :
  match p with AllocStart _ | FastClaim _ | FastCheck _ | AfterNext _ => True | _ => False end ->
  invariant s -> tasks s !! i = Some p -> task_step cfg s i p o j = Some s' -> invariant s'.
Proof.
  intros Hp0 Hinv Hp. pose proof (inv_knows _ Hinv _ _ Hp) as Hk.
  pose proof (inv_shared _ Hinv) as Hsh. pose proof (inv_lock _ Hinv _ _ Hp) as Hlk.
  destruct p; try done; clear Hp0; step_cbn.
  - destruct (Z.eqb_spec count 0) as [->|Hc].
    + intros [= <-]. pose proof (sh_lease _ Hsh). pose proof (sh_next _ Hsh).
      pose proof (sh_durable _ Hsh). unfold in_u in *.
      destruct (shared_returned s (0, 0) Hsh) as []; [cbn; destruct (_ =? 0); lia|cbn; lia|].
      destruct (frozen_returned s (0, 0)) as []; [cbn; lia|].
      eapply (inv_update i _ None s); try done; try (cbn; auto; lia).
      * right. right. by split.
      * cbn. right. eauto.
    + cbn in Hk. destruct (Z.eqb_spec (lease_end s) 0) as [H0|H0]; intros [= <-].
      * quiet_step i (AllocStart count) (Some (InitLock count)) Hinv Hp Hlk. lia.
      * quiet_step i (AllocStart count) (Some (FastClaim count)) Hinv Hp Hlk.
        pose proof (sh_lease _ Hsh). unfold in_u in *. lia.
  - destruct Hk as [Hc Hl]. destruct (claim_ids count s) as [[r s1]|] eqn:E; intros [= <-].
    + destruct (claimed_shared _ _ _ _ E Hc Hsh) as (Hsh1 & Hw & Hcov).
      destruct (claim_ids_spec _ _ _ _ E (sh_next _ Hsh) Hc)
        as (H1 & H2 & H3 & H4 & H5 & H6 & H7 & H8 & H9 & H10).
      apply (inv_update i (FastClaim count) (Some (FastCheck r)) s _ Hinv Hp).
      * unfold moved. cbn. by rewrite H9.
      * destruct Hsh1. by split.
      * cbn. lia.
      * right. right. split; cbn; try done; try lia. by rewrite H10.
      * cbn. by rewrite H7.
      * cbn. auto.
      * intros q [= <-]. cbn. lia.
      * cbn. lia.
      * intros q r' [= <-] [= <-]. cbn. split; [lia|]. right.
        split_and!; [by apply (sh_covers _ Hsh)|lia|lia].
      * left. cbn. by rewrite H10.
    + quiet_step i (FastClaim count) (@None pc) Hinv Hp Hlk.
  - cbn in Hk. destruct (Z.ltb_spec (lease_end s) (snd r)); intros [= <-].
    + quiet_step i (FastCheck r) (Some (EnsureLock r)) Hinv Hp Hlk. done.
    + quiet_step i (FastCheck r) (Some (AfterNext r)) Hinv Hp Hlk. lia.
  - intros [= <-]. quiet_step i (AfterNext r) (Some (AfterEnd r (next_id s))) Hinv Hp Hlk. done.
Qed.

(** A task returns its claimed range and ends. *)
Lemma return_preserves s i p r :
  (p = AfterCas r \/ exists n, p = AfterEnd r n) ->
  invariant s -> tasks s !! i = Some p -> invariant (exit i (emit (Returned r) s)).
Proof.
  intros Hpr Hinv Hp. pose proof (inv_knows _ Hinv _ _ Hp) as Hk.
  pose proof (inv_shared _ Hinv) as Hsh. pose proof (inv_claim _ Hinv _ _ r Hp) as Hc.
  assert (holds p = false /\ claim_of p = Some r /\ 0 < lease_end s /\ snd r <= lease_end s)
    as (Hh & Hcl & Hl & Hr) by (destruct Hpr as [->|[n ->]]; done).
  destruct (Hc Hcl) as (_ & Hn & _).
  destruct (shared_returned s r Hsh) as []; [rewrite (proj2 (Z.eqb_neq _ _)) by lia; done|done|].
  destruct (frozen_returned s r Hn) as [].
  apply (inv_update i p None s _ Hinv Hp); try done; try (cbn; auto; lia).
  - right. right. by split.
  - cbn. by rewrite Hh.
  - cbn. right. eauto.
Qed.

(** A new task that knows nothing of the shared state. *)
Lemma add_preserves s j q :
  invariant s -> tasks s !! j = None -> holds q = false -> claim_of q = None -> knows s q ->
  invariant (goto j q s).
Proof.
  intros [H1 H2 H3 H4 H5 H6 H7] Hj Hh Hc Hk. split; cbn; try done.
  - destruct H1. by split.
  - intros i p Hi. destruct (decide (i = j)) as [->|Hne].
    + rewrite lookup_insert_eq in Hi. injection Hi as <-. congruence.
    + rewrite lookup_insert_ne in Hi by done. eauto.
  - intros i Hi. destruct (H4 i Hi) as (p & Hp & Hhp). exists p.
    rewrite lookup_insert_ne by congruence. done.
  - intros i p Hi. destruct (decide (i = j)) as [->|Hne].
    + rewrite lookup_insert_eq in Hi. injection Hi as <-. by destruct q.
    + rewrite lookup_insert_ne in Hi by done. specialize (H5 _ _ Hi). by destruct p.
  - intros i p r Hi. destruct (decide (i = j)) as [->|Hne].
    + rewrite lookup_insert_eq in Hi. injection Hi as <-. congruence.
    + rewrite lookup_insert_ne in Hi by done. eauto.
  - intros i k p p' r1 r2 Hik Hi Hk' Hr1 Hr2.
    destruct (decide (i = j)) as [->|Hi'].
    { rewrite lookup_insert_eq in Hi. injection Hi as <-. congruence. }
    destruct (decide (k = j)) as [->|Hk''].
    { rewrite lookup_insert_eq in Hk'. injection Hk' as <-. congruence. }
    rewrite lookup_insert_ne in Hi, Hk' by done. eauto.
Qed.

Lemma set_lifecycle_preserves s l : invariant s -> invariant (set_lifecycle l s).
Proof.
  intros [H1 H2 H3 H4 H5 H6 H7]. split; cbn; try done.
  destruct H1. by split.
Qed.

Lemma after_preserves s i p o j s' :
  match p with AfterEnd _ _ | AfterCas _ => True | _ => False end ->
  invariant s -> tasks s !! i = Some p -> task_step cfg s i p o j = Some s' -> invariant s'.
Proof.
  intros Hp0 Hinv Hp. pose proof (inv_knows _ Hinv _ _ Hp) as Hk.
  pose proof (inv_lock _ Hinv _ _ Hp) as Hlk.
  destruct p; try done; clear Hp0; step_cbn.
  - destruct (_ <? _); intros [= <-].
    + apply (return_preserves s i (AfterEnd r next)); eauto.
    + quiet_step i (AfterEnd r next) (Some (AfterCas r)) Hinv Hp Hlk. done.
  - destruct (decide (lifecycle s = Idle)) as [Hidle|Hidle].
    + destruct (tasks s !! j) eqn:Ej; [done|]. intros [= <-].
      apply (return_preserves _ i (AfterCas r)); [auto| |].
      * apply add_preserves; try done; [by apply set_lifecycle_preserves|]. cbn in *. lia.
      * cbn. rewrite lookup_insert_ne; [done|]. intros ->. congruence.
    + intros [= <-]. apply (return_preserves s i (AfterCas r)); auto.
Qed.

Lemma ensure_preserves s i p o j s' :
  match p with EnsureLock _ | EnsureNext _ | EnsureEnd _ _ => True | _ => False end ->
  invariant s -> tasks s !! i = Some p -> task_step cfg s i p o j = Some s' -> invariant s'.
Proof.
  intros Hp0 Hinv Hp. pose proof (inv_knows _ Hinv _ _ Hp) as Hk.
  pose proof (inv_lock _ Hinv _ _ Hp) as Hlk. pose proof (inv_shared _ Hinv) as Hsh.
  pose proof (inv_claim _ Hinv i p) as Hcl.
  destruct p; try done; clear Hp0; step_cbn; cbn in Hk.
  - intros [Hl ->]%acquire_some.
    quiet_step i (EnsureLock r) (Some (EnsureNext r)) Hinv Hp Hlk. done.
  - intros [= <-]. quiet_step i (EnsureNext r) (Some (EnsureEnd r (next_id s))) Hinv Hp Hlk.
    destruct (Hcl r Hp eq_refl) as (? & ? & _). lia.
  - destruct (Z.leb_spec next (lease_end s)); intros [= <-].
    + quiet_step i (EnsureEnd r next) (Some (AfterNext r)) Hinv Hp Hlk. lia.
    + quiet_step i (EnsureEnd r next) (Some (PersistNext (KRange r) (lease_end s))) Hinv Hp Hlk.
      split_and!; [lia|apply Hsh|lia|apply (sh_covers _ Hsh); lia|lia].
Qed.

(** A claim made by the lock's holder, which goes on to [q]. *)
Lemma claim_held s i p q c r s1 s' :
  invariant s -> tasks s !! i = Some p -> holds p = true -> 0 < c -> covers s ->
  claim_ids c s = Some (r, s1) -> claim_of q = Some r -> knows s1 q ->
  (s' = goto i q s1 /\ holds q = true \/ s' = goto i q (set_lock None s1) /\ holds q = false) ->
  invariant s'.
Proof.
  intros Hinv Hp Hh Hc Hcov E Hq Hk Hs'. pose proof (inv_shared _ Hinv) as Hsh.
  destruct (claimed_shared _ _ _ _ E Hc Hsh) as (Hsh1 & Hw & Hcov1).
  destruct (claim_ids_spec _ _ _ _ E (sh_next _ Hsh) Hc)
    as (H1 & H2 & H3 & H4 & H5 & H6 & H7 & H8 & H9 & H10).
  pose proof (inv_lock _ Hinv _ _ Hp Hh) as Hlk.
  assert (next_id s' = next_id s1 /\ lease_end s' = lease_end s1 /\ store s' = store s1 /\
    events s' = events s1 /\ tasks s' = <[i := q]> (tasks s1) /\
    lock s' = if holds q then Some i else None) as (E1 & E2 & E3 & E4 & E5 & E6).
  { destruct Hs' as [[-> ->]|[-> ->]]; cbn; split_and!; try done. congruence. }
  assert (quiet s1 s') as Hqt by (split; congruence).
  apply (inv_update i p (Some q) s _ Hinv Hp).
  - unfold moved. congruence.
  - by apply (quiet_shared s1).
  - lia.
  - by left.
  - by rewrite E6, Hh.
  - by left.
  - intros ? [= <-]. apply (knows_held s1); [by apply quiet_frozen|done].
  - lia.
  - intros ? r' [= <-] Hr'. assert (r' = r) as -> by congruence. split; [lia|]. right.
    split_and!; [done|lia|lia].
  - left. rewrite E4, H10. done.
Qed.

Lemma init_preserves s i p o j s' :
  match p with
  | InitLock _ | InitCheck _ | InitClaim _ _ | InitLoad _ | InitStore _ _ | InitFirstClaim _ _ => True
  | _ => False
  end ->
  invariant s -> tasks s !! i = Some p -> task_step cfg s i p o j = Some s' -> invariant s'.
Proof.
  intros Hp0 Hinv Hp. pose proof (inv_knows _ Hinv _ _ Hp) as Hk.
  pose proof (inv_lock _ Hinv _ _ Hp) as Hlk. pose proof (inv_shared _ Hinv) as Hsh.
  destruct (load_ok _ (sh_store _ Hsh)) as [Hload Hwu].
  destruct p; try done; clear Hp0; step_cbn; cbn in Hk.
  - intros [Hl ->]%acquire_some.
    quiet_step i (InitLock count) (Some (InitCheck count)) Hinv Hp Hlk. done.
  - destruct (Z.ltb_spec 0 (lease_end s)); intros [= <-].
    + quiet_step i (InitCheck count) (Some (InitClaim count (lease_end s))) Hinv Hp Hlk. done.
    + quiet_step i (InitCheck count) (Some (InitLoad count)) Hinv Hp Hlk.
      pose proof (sh_lease _ Hsh). unfold in_u in *. lia.
  - destruct Hk as (Hc & -> & Hl). pose proof (sh_covers _ Hsh Hl) as Hcov.
    destruct (claim_ids count s) as [[r s1]|] eqn:E.
    2:{ intros [= <-]. quiet_step i (InitClaim count (lease_end s)) (@None pc) Hinv Hp Hlk. }
    destruct (claimed_shared _ _ _ _ E Hc Hsh) as (Hsh1 & Hw & Hcov1).
    destruct (claim_ids_spec _ _ _ _ E (sh_next _ Hsh) Hc) as (H1 & H2 & H3 & H4 & H5 & _).
    destruct (Z.leb_spec (snd r) (lease_end s)); intros [= <-].
    + apply (claim_held s i _ (AfterNext r) count r s1 _ Hinv Hp); try done; [cbn; lia|by right].
    + apply (claim_held s i _ (PersistNext (KRange r) (lease_end s)) count r s1 _ Hinv Hp);
        try done; [|by left].
      cbn. rewrite H5, Hw. pose proof (sh_durable _ Hsh). split_and!; auto; lia.
  - destruct o; [rewrite Hload|]; intros [= <-].
    + quiet_step i (InitLoad count) (Some (InitStore count (watermark s))) Hinv Hp Hlk. lia.
    + quiet_step i (InitLoad count) (@None pc) Hinv Hp Hlk.
  - destruct Hk as (Hc & H0 & ->). intros [= <-].
    assert (covers (set_next (watermark s) s)) as Hcov.
    { split; [|apply Hsh]. pose proof (sh_returned _ Hsh) as Hr. rewrite H0 in Hr. done. }
    apply (inv_update i (InitStore count (watermark s)) (Some (InitFirstClaim count (watermark s)))
      s _ Hinv Hp); try done.
    + destruct Hsh. by split.
    + by left.
    + cbn. by rewrite Hlk.
    + by left.
    + intros q [= <-]. cbn. done.
    + by right.
    + intros q r [= <-]. done.
    + by left.
  - destruct Hk as (Hc & H0 & -> & Hn).
    assert (covers s) as Hcov.
    { split; rewrite Hn; [|apply Hsh]. pose proof (sh_returned _ Hsh) as Hr. rewrite H0 in Hr. done. }
    destruct (claim_ids count s) as [[r s1]|] eqn:E.
    2:{ intros [= <-]. quiet_step i (InitFirstClaim count (watermark s)) (@None pc) Hinv Hp Hlk. }
    destruct (claimed_shared _ _ _ _ E Hc Hsh) as (Hsh1 & Hw & Hcov1).
    destruct (claim_ids_spec _ _ _ _ E (sh_next _ Hsh) Hc) as (H1 & H2 & H3 & H4 & H5 & _).
    intros [= <-].
    apply (claim_held s i _ (PersistNext (KRange r) (watermark s)) count r s1 _ Hinv Hp);
      try done; [|by left].
    cbn. rewrite H5, Hw. unfold in_u in Hwu. split_and!; auto; lia.
Qed.

(** A put that may or may not have become durable, by the lock's holder,
    which moves to [q] or ends. *)
Lemma put_preserves s i k new q (done_ : bool) s1 s' :
  invariant s -> tasks s !! i = Some (PersistPut k new) ->
  s1 = (if done_ then set_store (encode new) s else s) ->
  next_id s' = next_id s1 -> lease_end s' = lease_end s1 -> store s' = store s1 ->
  returned (events s') = returned (events s1) -> reserved (events s') = reserved (events s1) ->
  moved i q s s' ->
  lock s' = (if match q with Some q => holds q | None => false end then Some i else None) ->
  (forall p', q = Some p' -> knows s1 p') ->
  (forall p' r, q = Some p' -> claim_of p' = Some r -> cont_claim k = Some r) ->
  invariant s'.
Proof.
  intros Hinv Hp Hs1 E1 E2 E3 E4 E5 Hmv Hl Hk Hc.
  pose proof (inv_knows _ Hinv _ _ Hp) as (Hnew & Hpos & Hle & Hw0 & Hres & Hcov & _).
  pose proof (inv_shared _ Hinv) as Hsh.
  assert (next_id s1 = next_id s /\ lease_end s1 = lease_end s /\ events s1 = events s)
    as (F1 & F2 & F3) by (subst s1; by destruct done_).
  assert (shared_ok s1) as Hsh1.
  { subst s1. destruct done_; [|done]. destruct Hsh as [G1 G2 G3 G4 G5 G6 G7].
    pose proof (watermark_put new s Hnew) as Hw.
    split; rewrite ?Hw; try done.
    - cbn. eauto.
    - eapply Forall_impl; [exact G5|]. cbn. intros r Hr.
      destruct (Z.eqb_spec (lease_end s) 0) as [H0|]; [specialize (Hw0 H0); lia|lia]. }
  assert (quiet s1 s') as Hq by done.
  assert (holds (PersistPut k new) = true) as Hh by done.
  apply (inv_update i (PersistPut k new) q s _ Hinv Hp); try done.
  - by apply (quiet_shared s1).
  - lia.
  - by left.
  - by left.
  - intros p' Hp'. apply (knows_held s1); [by apply quiet_frozen|auto].
  - lia.
  - intros p' r Hp' Hr. specialize (Hc _ _ Hp' Hr). split; [|by left].
    rewrite E1, F1. by apply (inv_claim _ Hinv i (PersistPut k new) r).
  - left. by rewrite E4, F3.
Qed.

(** The lease is stored, or was already covered: [persist_lease_extension]
    returns and the lock is released. *)
Lemma persisted_preserves s i p k new :
  invariant s -> tasks s !! i = Some p -> holds p = true -> claim_of p = cont_claim k ->
  lease_end s <= new <= watermark s -> in_u 64 new -> covers s ->
  (lease_end s = 0 -> new = watermark s \/ new = lease_end s) ->
  match k with
  | KRange r => 0 < new /\ snd r <= new
  | KReserve n => 0 <= n <= next_id s /\ n <= watermark s
  | KRefill => True
  end ->
  invariant (persisted i k (set_lease new s)).
Proof.
  intros Hinv Hp Hh Hcl Hb Hu Hcov H0 Hk. pose proof (inv_shared _ Hinv) as Hsh.
  pose proof (inv_lock _ Hinv _ _ Hp Hh) as Hlk.
  assert (shared_ok (set_lease new s)) as Hsh1.
  { destruct Hsh as [G1 G2 G3 G4 G5 G6 G7]. split; try done; [cbn; change (watermark _) with (watermark s); lia|].
    cbn. change (watermark (set_lease new s)) with (watermark s).
    eapply Forall_impl; [exact G5|]. cbn. intros r Hr. unfold in_u in *.
    destruct (Z.eqb_spec (lease_end s) 0) as [He|He], (Z.eqb_spec new 0); lia. }
  set (q := match k with KRange r => Some (AfterNext r) | KReserve _ => None | KRefill => Some RefComplete end).
  apply (inv_update i p q s _ Hinv Hp).
  - destruct k; done.
  - destruct Hsh1 as [G1 G2 G3 G4 G5 G6 G7]. destruct k; [by split| |by split]. split; try done.
    + cbn. constructor; [|done]. apply Hk.
    + intros _. split; [apply Hcov|]. constructor; [apply Hk|apply Hcov].
  - destruct k; cbn; lia.
  - by left.
  - rewrite Hh. destruct k; done.
  - by left.
  - intros q' Hq. destruct k; cbn in Hq; try done; injection Hq as <-; cbn; done.
  - left. destruct k; cbn; lia.
  - intros q' r Hq Hr. destruct k as [r'| |]; cbn in Hq; try done; injection Hq as <-; [|done].
    injection Hr as <-. split; [|left; done].
    cbn. by apply (inv_claim _ Hinv i p r').
  - left. destruct k; done.
Qed.

Lemma set_lease_same s : set_lease (lease_end s) s = s.
Proof. by destruct s. Qed.

Lemma persist_preserves s i p o j s' :
  match p with PersistNext _ _ | PersistPut _ _ | PersistStore _ _ => True | _ => False end ->
  invariant s -> tasks s !! i = Some p -> task_step cfg s i p o j = Some s' -> invariant s'.
Proof.
  intros Hp0 Hinv Hp. pose proof (inv_knows _ Hinv _ _ Hp) as Hk.
  pose proof (inv_lock _ Hinv _ _ Hp) as Hlk. pose proof (inv_shared _ Hinv) as Hsh.
  pose proof (inv_claim _ Hinv i p) as Hcl.
  destruct p; try done; clear Hp0; step_cbn; cbn [knows] in Hk.
  - destruct Hk as (Hb & H0 & Hcov & Hkk). destruct Hcfg as (Hc1 & Hc2 & Hc3).
    pose proof (sh_lease _ Hsh) as Hl. destruct (load_ok _ (sh_store _ Hsh)) as [_ Hwu].
    assert (in_u 64 current) as Hcu by (unfold in_u in *; lia).
    destruct (extension_target_bounds current (next_id s) _ _ Hcu (sh_next _ Hsh) Hc1 Hc2 Hc3)
      as (Ht1 & Ht2 & Ht3).
    set (new := extension_target _ _ _ _) in *.
    destruct (Z.eqb_spec new current) as [E|E]; intros [= <-].
    + pose proof (persisted_preserves s i (PersistNext k current) k (lease_end s) Hinv Hp
        eq_refl eq_refl) as H. rewrite set_lease_same in H.
      apply H; [split; [done|apply Hsh]|done|done|by right|].
      destruct k; [lia| |done]. split; [done|lia].
    + quiet_step i (PersistNext k current) (Some (PersistPut k new)) Hinv Hp Hlk.
      split_and!; try done; try lia; [unfold in_u in *; lia|..].
      * eapply Forall_impl; [apply Hcov|]. cbn. lia.
      * destruct k; [|split; [done|lia]|done].
        destruct (Hcl r Hp eq_refl) as (_ & ? & _). lia.
  - destruct Hk as (Hnew & Hpos & Hle & Hw0 & Hres & Hcov & Hkk).
    destruct o as [|durable]; intros [= <-].
    + eapply (put_preserves s i k new (Some (PersistStore k new)) true); try done.
      * cbn. by rewrite Hlk.
      * intros p' [= <-]. cbn [knows]. rewrite watermark_put by done.
        split_and!; try done; apply Hcov.
      * intros p' r [= <-]. done.
    + destruct k.
      * eapply (put_preserves s i _ new None durable); try done; by destruct durable.
      * eapply (put_preserves s i _ new None durable); try done; by destruct durable.
      * eapply (put_preserves s i _ new (Some RefComplete) durable); try done;
          try (by destruct durable);
          [by intros p' [= <-] | by intros p' r [= <-]].
  - destruct Hk as (Hnew & Hpos & Hle & Hw & Hcov & Hkk). intros [= <-].
    apply (persisted_preserves s i (PersistStore k new)); try done.
    + lia.
    + left. lia.
    + destruct k; lia.
Qed.

Lemma reserve_preserves s i p o j s' :
  match p with
  | ResLock _ | ResLoad _ | ResNext _ _ | ResMax _ _ _ | ResEnd _ _ | ResFinal _ _ _ => True
  | _ => False
  end ->
  invariant s -> tasks s !! i = Some p -> task_step cfg s i p o j = Some s' -> invariant s'.
Proof.
  intros Hp0 Hinv Hp. pose proof (inv_knows _ Hinv _ _ Hp) as Hk.
  pose proof (inv_lock _ Hinv _ _ Hp) as Hlk. pose proof (inv_shared _ Hinv) as Hsh.
  destruct (load_ok _ (sh_store _ Hsh)) as [Hload Hwu]. pose proof (sh_next _ Hsh) as Hn.
  destruct p; try done; clear Hp0; step_cbn; cbn [knows] in Hk.
  - intros [Hl ->]%acquire_some. quiet_step i (ResLock n) (Some (ResLoad n)) Hinv Hp Hlk. done.
  - destruct o; [rewrite Hload|]; intros [= <-].
    + quiet_step i (ResLoad n) (Some (ResNext n (watermark s))) Hinv Hp Hlk. done.
    + quiet_step i (ResLoad n) (@None pc) Hinv Hp Hlk.
  - destruct Hk as [Hnu ->]. intros [= <-].
    quiet_step i (ResNext n (watermark s))
      (Some (ResMax n (watermark s) (Z.max (Z.max (watermark s) (next_id s)) n))) Hinv Hp Hlk.
    unfold in_u in *. lia.
  - destruct Hk as (Ht & Hnt & -> & Hw). intros [= <-].
    assert (covers s -> covers (set_next (Z.max (next_id s) target) s)) as Hcov.
    { intros [H1 H2]. split; (eapply Forall_impl; [eassumption|]); cbn; lia. }
    apply (inv_update i (ResMax n (watermark s) target) (Some (ResEnd n (watermark s))) s _ Hinv Hp);
      try done.
    + destruct Hsh as [G1 G2 G3 G4 G5 G6 G7]. split; try done; cbn; [unfold in_u in *; lia|].
      intros H. apply Hcov; auto.
    + by left.
    + cbn. by rewrite Hlk.
    + by left.
    + intros q [= <-]. cbn. change (watermark _) with (watermark s). lia.
    + left. cbn. lia.
    + intros q r [= <-]. done.
    + by left.
  - destruct Hk as (H1 & -> & H2). intros [= <-].
    quiet_step i (ResEnd n (watermark s)) (Some (ResFinal n (watermark s) (lease_end s))) Hinv Hp Hlk.
    done.
  - destruct Hk as (H1 & -> & H2 & ->).
    pose proof (sh_durable _ Hsh) as Hd. unfold in_u in *.
    assert (covers s) as Hcov.
    { split.
      - eapply Forall_impl; [apply (sh_returned _ Hsh)|]. cbn. intros r.
        destruct (lease_end s =? 0); lia.
      - eapply Forall_impl; [apply (sh_reserved _ Hsh)|]. cbn. lia. }
    destruct (_ || _) eqn:E; intros [= <-].
    + quiet_step i (ResFinal n (watermark s) (lease_end s))
        (Some (PersistNext (KReserve n) (Z.max (lease_end s) (watermark s)))) Hinv Hp Hlk.
      split_and!; try done; lia.
    + apply orb_false_iff in E as [E1 E2].
      pose proof (persisted_preserves s i (ResFinal n (watermark s) (lease_end s)) (KReserve n)
        (lease_end s) Hinv Hp eq_refl eq_refl) as H. rewrite set_lease_same in H.
      apply H; [lia|apply Hsh|done|by right|lia].
Qed.

Lemma refill_preserves s i p o j s' :
  match p with
  | RefLock | RefNext | RefEnd _ | RefComplete | RefCas _ | ShutLoad | ShutCas _ | ShutWait
  | Unreachable => True
  | _ => False
  end ->
  invariant s -> tasks s !! i = Some p -> task_step cfg s i p o j = Some s' -> invariant s'.
Proof.
  intros Hp0 Hinv Hp. pose proof (inv_knows _ Hinv _ _ Hp) as Hk.
  pose proof (inv_lock _ Hinv _ _ Hp) as Hlk. pose proof (inv_shared _ Hinv) as Hsh.
  destruct p; try done; clear Hp0; step_cbn; cbn [knows] in Hk.
  - intros [Hl ->]%acquire_some. quiet_step i RefLock (Some RefNext) Hinv Hp Hlk. done.
  - intros [= <-]. quiet_step i RefNext (Some (RefEnd (next_id s))) Hinv Hp Hlk. done.
  - destruct (_ <? _); intros [= <-].
    + quiet_step i (RefEnd next) (Some RefComplete) Hinv Hp Hlk. done.
    + quiet_step i (RefEnd next) (Some (PersistNext KRefill (lease_end s))) Hinv Hp Hlk.
      split_and!; [lia|apply Hsh|lia|by apply (sh_covers _ Hsh)|done].
  - intros [= <-]. quiet_step i RefComplete (Some (RefCas (lifecycle s))) Hinv Hp Hlk. done.
  - destruct observed; [|destruct (decide _)|destruct (decide _)|]; intros [= <-].
    + quiet_step i (RefCas Idle) (Some Unreachable) Hinv Hp Hlk. done.
    + quiet_step i (RefCas InFlight) (@None pc) Hinv Hp Hlk.
    + quiet_step i (RefCas InFlight) (Some RefComplete) Hinv Hp Hlk. done.
    + quiet_step i (RefCas ClosingInFlight) (@None pc) Hinv Hp Hlk.
    + quiet_step i (RefCas ClosingInFlight) (Some RefComplete) Hinv Hp Hlk. done.
    + quiet_step i (RefCas Closed) (Some Unreachable) Hinv Hp Hlk. done.
  - destruct (lifecycle s) eqn:El; intros [= <-].
    + quiet_step i ShutLoad (Some (ShutCas Idle)) Hinv Hp Hlk. done.
    + quiet_step i ShutLoad (Some (ShutCas InFlight)) Hinv Hp Hlk. done.
    + quiet_step i ShutLoad (Some ShutWait) Hinv Hp Hlk. done.
    + quiet_step i ShutLoad (@None pc) Hinv Hp Hlk.
  - destruct (decide _); [destruct observed|]; intros [= <-].
    + quiet_step i (ShutCas Idle) (@None pc) Hinv Hp Hlk.
    + quiet_step i (ShutCas InFlight) (Some ShutLoad) Hinv Hp Hlk. done.
    + quiet_step i (ShutCas ClosingInFlight) (Some ShutLoad) Hinv Hp Hlk. done.
    + quiet_step i (ShutCas Closed) (Some ShutLoad) Hinv Hp Hlk. done.
    + quiet_step i (ShutCas observed) (Some ShutLoad) Hinv Hp Hlk. done.
  - destruct (decide _); intros [= <-]. quiet_step i ShutWait (Some ShutLoad) Hinv Hp Hlk. done.
Qed.

Lemma task_step_preserves s i p o j s' :
  invariant s -> tasks s !! i = Some p -> task_step cfg s i p o j = Some s' -> invariant s'.
Proof.
  intros Hinv Hp.
  destruct p;
    first [ by apply alloc_preserves | by apply after_preserves | by apply ensure_preserves
          | by apply init_preserves | by apply persist_preserves | by apply reserve_preserves
          | by apply refill_preserves ].
Qed.

Lemma cancel_preserves s i p d s' :
  invariant s -> tasks s !! i = Some p -> cancel s i p d = Some s' -> invariant s'.
Proof.
  intros Hinv Hp. pose proof (inv_lock _ Hinv _ _ Hp) as Hlk.
  destruct p; cbn [cancel awaits holds]; try done; intros [= <-].
  - quiet_step i (EnsureLock r) (@None pc) Hinv Hp Hlk.
  - quiet_step i (InitLock count) (@None pc) Hinv Hp Hlk.
  - quiet_step i (InitLoad count) (@None pc) Hinv Hp Hlk.
  - destruct k.
    + eapply (put_preserves s i _ new None d); try done; by destruct d.
    + eapply (put_preserves s i _ new None d); try done; by destruct d.
    + eapply (put_preserves s i _ new (Some RefComplete) d); try done;
        try (by destruct d); [by intros p' [= <-] | by intros p' r [= <-]].
  - quiet_step i (ResLock n) (@None pc) Hinv Hp Hlk.
  - quiet_step i (ResLoad n) (@None pc) Hinv Hp Hlk.
  - quiet_step i RefLock (Some RefComplete) Hinv Hp Hlk. done.
  - quiet_step i ShutWait (@None pc) Hinv Hp Hlk.
Qed.

Lemma crash_preserves s : invariant s -> invariant (crash s).
Proof.
  intros [[G1 G2 G3 G4 G5 G6 G7] H2 _ _ _ _ _]. split; try done.
  split; try done. cbn. change (watermark (crash s)) with (watermark s).
  - destruct (load_ok _ G3) as [_ Hw]. unfold in_u in *. lia.
  - cbn. change (watermark (crash s)) with (watermark s).
    eapply Forall_impl; [exact G5|]. cbn. intros r. destruct (Z.eqb_spec (lease_end s) 0); lia.
Qed.

Lemma exec_preserves c s s' : invariant s -> exec cfg c s = Some s' -> invariant s'.
Proof.
  intros Hinv. destruct c as [i op|i o j|i d|]; cbn [exec].
  - destruct (tasks s !! i) eqn:E; [done|]. destruct (operation_ok op) eqn:Eo; [|done].
    intros [= <-]. apply add_preserves; try done; destruct op; try done; cbn in *;
      unfold in_u; lia.
  - destruct (tasks s !! i) as [p|] eqn:E; [|done]. by apply task_step_preserves.
  - destruct (tasks s !! i) as [p|] eqn:E; [|done]. by apply cancel_preserves.
  - intros [= <-]. by apply crash_preserves.
Qed.

Lemma fresh_invariant : invariant fresh_state.
Proof.
  split; try done; constructor; done.
Qed.

Lemma run_preserves cs s s' : invariant s -> run cfg cs s = Some s' -> invariant s'.
Proof.
  revert s; induction cs as [|c cs IH]; intros s Hinv; cbn [run]; [by intros [= <-]|].
  destruct (exec cfg c s) as [s1|] eqn:E; [|done]. cbn. apply IH. by eapply exec_preserves.
Qed.

Lemma reachable_invariant s : reachable cfg s -> invariant s.
Proof. intros [cs H]. eapply run_preserves; [apply fresh_invariant|exact H]. Qed.

End Preservation.

(** ** The refill lifecycle *)

(** The background refill task, until its completion has run. *)
Definition is_refill (p : pc) : bool :=
  match p with
  | RefLock | RefNext | RefEnd _ | RefComplete | RefCas _
  | PersistNext KRefill _ | PersistPut KRefill _ | PersistStore KRefill _ => true
  | _ => false
  end.
Definition active (l : RefillLifecycle) : bool :=
  match l with
  | InFlight | ClosingInFlight => true
  | Idle | Closed => false
  end.

(** The events of the current process. *)
Fixpoint since_crash (l : list event) : list event :=
  match l with
  | [] => []
  | Crashed :: _ => []
  | e :: l => e :: since_crash l
  end.

Record life_ok (s : state) : Prop := {
  l_unique : forall i j p q, tasks s !! i = Some p -> tasks s !! j = Some q ->
    is_refill p = true -> is_refill q = true -> i = j;
  l_active : active (lifecycle s) = true <-> exists i p, tasks s !! i = Some p /\ is_refill p = true;
  l_cas : forall i o, tasks s !! i = Some (RefCas o) -> active o = true;
  l_never : forall i, tasks s !! i <> Some Unreachable;
  l_closed : ShutDown ∈ since_crash (events s) -> lifecycle s = Closed;
}.

Definition shut_same (s s' : state) : Prop :=
  ShutDown ∈ since_crash (events s') ->
  ShutDown ∈ since_crash (events s) \/ lifecycle s = Closed.

Lemma life_goto i p q s s' :
  life_ok s -> tasks s !! i = Some p -> tasks s' = <[i := q]> (tasks s) ->
  lifecycle s' = lifecycle s -> is_refill q = is_refill p ->
  match q with RefCas o => active o = true | Unreachable => False | _ => True end ->
  shut_same s s' -> life_ok s'.
Proof.
  intros [H1 H2 H3 H4 H5] Hp Ht Hl Hr Hq Hs.
  assert (forall j p', tasks s' !! j = Some p' -> is_refill p' = true ->
    exists p'', tasks s !! j = Some p'' /\ is_refill p'' = true) as Hback.
  { intros j p'. rewrite Ht. destruct (decide (j = i)) as [->|Hne].
    - rewrite lookup_insert_eq. intros [= <-] E. exists p. by rewrite <- Hr.
    - rewrite lookup_insert_ne by done. eauto. }
  split.
  - intros j k p1 p2 Hj Hk R1 R2. destruct (Hback _ _ Hj R1) as (? & ? & ?).
    destruct (Hback _ _ Hk R2) as (? & ? & ?). eauto.
  - rewrite Hl, H2. split.
    + intros (j & p' & Hj & Hp'). destruct (decide (j = i)) as [->|Hne].
      * exists i, q. rewrite Ht, lookup_insert_eq. split; [done|]. congruence.
      * exists j, p'. by rewrite Ht, lookup_insert_ne.
    + intros (j & p' & Hj & Hp'). destruct (Hback _ _ Hj Hp') as (? & ? & ?). eauto.
  - intros j o. rewrite Ht. destruct (decide (j = i)) as [->|Hne].
    + rewrite lookup_insert_eq. by intros [= ->].
    + rewrite lookup_insert_ne by done. apply H3.
  - intros j. rewrite Ht. destruct (decide (j = i)) as [->|Hne].
    + rewrite lookup_insert_eq. by intros [= ->].
    + rewrite lookup_insert_ne by done. apply H4.
  - intros H. rewrite Hl. destruct (Hs H); auto.
Qed.

Lemma life_exit i p s s' :
  life_ok s -> tasks s !! i = Some p -> tasks s' = delete i (tasks s) ->
  lifecycle s' = lifecycle s -> is_refill p = false -> shut_same s s' -> life_ok s'.
Proof.
  intros [H1 H2 H3 H4 H5] Hp Ht Hl Hr Hs.
  assert (forall j p', tasks s' !! j = Some p' -> tasks s !! j = Some p') as Hback.
  { intros j p'. rewrite Ht, lookup_delete_Some. by intros [_ ?]. }
  split.
  - eauto.
  - rewrite Hl, H2. split.
    + intros (j & p' & Hj & Hp'). exists j, p'. rewrite Ht, lookup_delete_ne; [done|].
      intros <-. congruence.
    + intros (j & p' & Hj & Hp'). eauto.
  - eauto.
  - intros j Hj. by apply (H4 j), Hback.
  - intros H. rewrite Hl. destruct (Hs H); auto.
Qed.

(** A change of lifecycle that keeps whether a refill is active, and is not
    away from [Closed]. *)
Lemma life_set s l :
  life_ok s -> active l = active (lifecycle s) -> (lifecycle s = Closed -> l = Closed) ->
  life_ok (set_lifecycle l s).
Proof.
  intros [H1 H2 H3 H4 H5] Ha Hc. split; cbn; try done; [by rewrite Ha|auto].
Qed.

Ltac life_step i Hlife Hp :=
  first [ eapply (life_exit i _); [exact Hlife|exact Hp|reflexivity|reflexivity|reflexivity|]
        | eapply (life_goto i _); [exact Hlife|exact Hp|reflexivity|reflexivity|reflexivity|cbn; done|] ];
  unfold shut_same; cbn;
  let Hs := fresh "Hs" in intros Hs; rewrite ?elem_of_cons in Hs; intuition congruence.

Lemma life_claim c s r s1 : claim_ids c s = Some (r, s1) ->
  tasks s1 = tasks s /\ lifecycle s1 = lifecycle s /\ events s1 = Claimed r :: events s.
Proof. unfold claim_ids. destruct (checked_add _ _ _); [|done]. by intros [= <- <-]. Qed.

Section LifePreservation.
Context (cfg : config).

Lemma acquire_life i p q s s' :
  life_ok s -> tasks s !! i = Some p -> acquire i q s = Some s' -> is_refill q = is_refill p ->
  match q with RefCas _ | Unreachable => False | _ => True end -> life_ok s'.
Proof.
  intros Hlife Hp [_ ->]%acquire_some Hr Hq.
  apply (life_goto i p q s); try done; [by destruct q|]. intros H. by left.
Qed.

Lemma persisted_life i p k n s :
  life_ok s -> tasks s !! i = Some p -> is_refill p = is_refill (PersistStore k n) ->
  life_ok (persisted i k (set_lease n s)) /\ life_ok (persisted i k s).
Proof.
  intros Hlife Hp Hr. destruct k; cbn in Hr; split; cbn [persisted];
    first [ eapply (life_exit i p); [exact Hlife|exact Hp|reflexivity|reflexivity|exact Hr|]
          | eapply (life_goto i p); [exact Hlife|exact Hp|reflexivity|reflexivity|by rewrite Hr|done|] ];
    unfold shut_same; cbn; intros H; left; set_solver.
Qed.

Lemma failed_life i p k n b s :
  life_ok s -> tasks s !! i = Some p -> is_refill p = is_refill (PersistStore k n) ->
  life_ok (persist_failed i k (if b : bool then set_store (encode n) s else s)).
Proof.
  intros Hlife Hp Hr. destruct k, b; cbn in Hr; cbn [persist_failed];
    first [ eapply (life_exit i p); [exact Hlife|exact Hp|reflexivity|reflexivity|exact Hr|]
          | eapply (life_goto i p); [exact Hlife|exact Hp|reflexivity|reflexivity|by rewrite Hr|done|] ];
    unfold shut_same; cbn; intros H; left; set_solver.
Qed.

(** The refill task ends: its slot in the lifecycle is given back. *)
Lemma complete_life i o s :
  life_ok s -> tasks s !! i = Some (RefCas o) -> lifecycle s = o -> active o = true ->
  life_ok (exit i (set_lifecycle match o with InFlight => Idle | _ => Closed end s)).
Proof.
  intros [H1 H2 H3 H4 H5] Hp Hl Ha.
  assert (forall j p', delete i (tasks s) !! j = Some p' -> tasks s !! j = Some p' /\ j <> i) as Hback.
  { intros j p'. rewrite lookup_delete_Some. by intros [? ?]. }
  split; cbn.
  - intros j k p1 p2 Hj Hk. destruct (Hback _ _ Hj), (Hback _ _ Hk). eauto.
  - split; [destruct o; done|]. intros (j & p' & Hj & Hp'). destruct (Hback _ _ Hj) as [Hj' Hne].
    exfalso. apply Hne. by apply (H1 j i p' (RefCas o)).
  - intros j o' Hj. destruct (Hback _ _ Hj). eauto.
  - intros j Hj. destruct (Hback _ _ Hj). by apply (H4 j).
  - intros H. specialize (H5 H). rewrite Hl in H5. by subst o.
Qed.

(** The first refill task starts. *)
Lemma spawn_life j s :
  life_ok s -> tasks s !! j = None -> lifecycle s = Idle ->
  life_ok (goto j RefLock (set_lifecycle InFlight s)).
Proof.
  intros [H1 H2 H3 H4 H5] Hj Hl.
  assert (forall i p, tasks s !! i = Some p -> is_refill p = false) as Hnone.
  { intros i p Hi. destruct (is_refill p) eqn:E; [|done].
    assert (active (lifecycle s) = true) as Ha by (apply H2; eauto). by rewrite Hl in Ha. }
  split; cbn.
  - intros i k p q. destruct (decide (i = j)) as [->|Hi], (decide (k = j)) as [->|Hk];
      rewrite ?lookup_insert_eq, ?lookup_insert_ne by done; try done;
      intros Hp Hq R1 R2; exfalso;
      try (specialize (Hnone _ _ Hp)); try (specialize (Hnone _ _ Hq)); congruence.
  - split; [|done]. intros _. exists j, RefLock. by rewrite lookup_insert_eq.
  - intros i o. destruct (decide (i = j)) as [->|Hi];
      rewrite ?lookup_insert_eq, ?lookup_insert_ne by done; [done|apply H3].
  - intros i. destruct (decide (i = j)) as [->|Hi];
      rewrite ?lookup_insert_eq, ?lookup_insert_ne by done; [done|apply H4].
  - intros H. specialize (H5 H). congruence.
Qed.

(** A step that went through [claim_ids]. *)
Lemma claim_life i p c r s s1 s' q :
  life_ok s -> tasks s !! i = Some p -> claim_ids c s = Some (r, s1) -> is_refill p = false ->
  (s' = goto i q s1 \/ s' = goto i q (set_lock None s1)) -> is_refill q = false ->
  match q with RefCas _ | Unreachable => False | _ => True end -> life_ok s'.
Proof.
  intros Hlife Hp (E1 & E2 & E3)%life_claim Hr Hs Hq Hm.
  apply (life_goto i p q s); try done.
  - destruct Hs as [-> | ->]; cbn; congruence.
  - destruct Hs as [-> | ->]; cbn; congruence.
  - congruence.
  - by destruct q.
  - destruct Hs as [-> | ->]; unfold shut_same; cbn; rewrite E3; cbn;
      rewrite elem_of_cons; intros [|]; [done|by left|done|by left].
Qed.

Lemma shut_life i s s' o :
  life_ok s -> tasks s !! i = Some (ShutCas o) -> task_step cfg s i (ShutCas o) IoOk 0 = Some s' ->
  life_ok s'.
Proof.
  intros Hlife Hp. step_cbn. destruct (decide (lifecycle s = o)) as [Hl|Hl].
  2:{ intros [= <-]. life_step i Hlife Hp. }
  destruct o; intros [= <-].
  - eapply (life_exit i (ShutCas Idle) (emit ShutDown (set_lifecycle Closed s))); try done.
    pose proof (life_set s Closed Hlife ltac:(by rewrite Hl) ltac:(done)) as [H1 H2 H3 H4 H5].
    { by split. }
    intros H. by left.
  - eapply (life_goto i (ShutCas InFlight) ShutLoad (set_lifecycle ClosingInFlight s)); try done.
    + apply life_set; [done|by rewrite Hl|by rewrite Hl].
    + intros H. by left.
  - life_step i Hlife Hp.
  - life_step i Hlife Hp.
Qed.

Lemma task_step_life s i p o j s' :
  life_ok s -> tasks s !! i = Some p -> task_step cfg s i p o j = Some s' -> life_ok s'.
Proof.
  intros Hlife Hp. pose proof (l_never _ Hlife i) as Hnev. pose proof (l_cas _ Hlife i) as Hcas.
  pose proof (proj2 (l_active _ Hlife)) as Hact.
  destruct p; try (step_cbn; intros [= <-]; life_step i Hlife Hp).
  - cbn. repeat case_match; intros [= <-]; life_step i Hlife Hp.
  - cbn. destruct (claim_ids _ s) as [[r s1]|] eqn:E; intros [= <-]; [|life_step i Hlife Hp].
    eapply (claim_life i _ _ _ s s1 _ (FastCheck r)); eauto.
  - cbn. repeat case_match; intros [= <-]; life_step i Hlife Hp.
  - cbn. repeat case_match; intros [= <-]; life_step i Hlife Hp.
  - step_cbn. destruct (decide (lifecycle s = Idle)) as [Hl|Hl].
    2:{ intros [= <-]. life_step i Hlife Hp. }
    destruct (tasks s !! j) eqn:Ej; [done|]. intros [= <-].
    assert (i <> j) by congruence.
    eapply (life_exit i (AfterCas r)); [by apply (spawn_life j s)| |done..|].
    + cbn. by rewrite lookup_insert_ne.
    + unfold shut_same. cbn. rewrite elem_of_cons. intros [|]; [done|by left].
  - step_cbn. intros H. by eapply acquire_life.
  - cbn. repeat case_match; intros [= <-]; life_step i Hlife Hp.
  - step_cbn. intros H. by eapply acquire_life.
  - cbn. repeat case_match; intros [= <-]; life_step i Hlife Hp.
  - cbn. destruct (claim_ids _ s) as [[r s1]|] eqn:E.
    2:{ intros [= <-]. life_step i Hlife Hp. }
    case_match; intros [= <-].
    + eapply (claim_life i _ _ _ s s1 _ (AfterNext r)); eauto.
    + eapply (claim_life i _ _ _ s s1 _ (PersistNext (KRange r) _)); eauto.
  - step_cbn. repeat case_match; intros [= <-]; life_step i Hlife Hp.
  - cbn. destruct (claim_ids _ s) as [[r s1]|] eqn:E; intros [= <-]; [|life_step i Hlife Hp].
    eapply (claim_life i _ _ _ s s1 _ (PersistNext (KRange r) _)); eauto.
  - step_cbn. case_match; intros [= <-].
    + by apply (persisted_life i (PersistNext k current) k 0 s Hlife Hp).
    + destruct k; life_step i Hlife Hp.
  - step_cbn. destruct o as [|d]; intros [= <-]; [destruct k; life_step i Hlife Hp|].
    by apply (failed_life i (PersistPut k new)).
  - step_cbn. intros [= <-]. by apply (persisted_life i (PersistStore k new) k new s Hlife Hp).
  - step_cbn. intros H. by eapply acquire_life.
  - step_cbn. repeat case_match; intros [= <-]; life_step i Hlife Hp.
  - step_cbn. repeat case_match; intros [= <-]; life_step i Hlife Hp.
  - step_cbn. intros H. by eapply acquire_life.
  - step_cbn. repeat case_match; intros [= <-]; life_step i Hlife Hp.
  - step_cbn. intros [= <-].
    eapply (life_goto i RefComplete); [exact Hlife|exact Hp|reflexivity|done|done| |].
    + apply Hact. exists i, RefComplete. done.
    + intros H. by left.
  - specialize (Hcas _ Hp). step_cbn. destruct observed; try done;
      (destruct (decide _) as [Hl|Hl]; intros [= <-]; [by apply (complete_life i _ s Hlife Hp)|]);
      life_step i Hlife Hp.
  - step_cbn. destruct (lifecycle s) eqn:El; intros [= <-]; life_step i Hlife Hp.
  - intros H. by apply (shut_life i s s' observed).
  - step_cbn. destruct (decide _); intros [= <-]. life_step i Hlife Hp.
Qed.

Lemma cancel_life s i p d s' :
  life_ok s -> tasks s !! i = Some p -> cancel s i p d = Some s' -> life_ok s'.
Proof.
  intros Hlife Hp. destruct p; cbn [cancel awaits holds]; try done; intros [= <-];
    try (life_step i Hlife Hp).
  destruct k, d; life_step i Hlife Hp.
Qed.

Lemma exec_life c s s' : life_ok s -> exec cfg c s = Some s' -> life_ok s'.
Proof.
  intros Hlife. destruct c as [i op|i o j|i d|]; cbn [exec].
  - destruct (tasks s !! i) eqn:E; [done|]. destruct (operation_ok op); [|done]. intros [= <-].
    destruct Hlife as [H1 H2 H3 H4 H5].
    assert (forall k q, <[i := start_pc op]> (tasks s) !! k = Some q ->
      (k = i /\ q = start_pc op) \/ tasks s !! k = Some q) as Hk.
    { intros k q. destruct (decide (k = i)) as [->|];
        rewrite ?lookup_insert_eq, ?lookup_insert_ne by done; [intros [= <-]; auto|auto]. }
    split; cbn; [| | | |done].
    + intros a b p q Ha Hb Hra Hrb.
      destruct (Hk _ _ Ha) as [[-> ->]|Ha']; [by destruct op|].
      destruct (Hk _ _ Hb) as [[-> ->]|Hb']; [by destruct op|]. eauto.
    + rewrite H2. split.
      * intros (k & p & Hkp & Hr). exists k, p. split; [|done].
        rewrite lookup_insert_ne; [done|]. intros <-. congruence.
      * intros (k & p & Hkp & Hr). destruct (Hk _ _ Hkp) as [[-> ->]|?]; [by destruct op|eauto].
    + intros k o Hko. destruct (Hk _ _ Hko) as [[_ E2]|?]; [by destruct op|eauto].
    + intros k Hko. destruct (Hk _ _ Hko) as [[_ E2]|?]; [by destruct op|]. by apply (H4 k).
  - destruct (tasks s !! i) as [p|] eqn:E; [|done]. by apply task_step_life.
  - destruct (tasks s !! i) as [p|] eqn:E; [|done]. by apply cancel_life.
  - intros [= <-]. split; cbn; try done; try set_solver.
Qed.

Lemma reachable_life s : reachable cfg s -> life_ok s.
Proof.
  intros [cs H]. assert (life_ok fresh_state) as H0.
  { split; cbn; try done; [|set_solver]. split; [done|]. by intros (k & p & Hk & _). }
  revert H0 H. generalize fresh_state. induction cs as [|c cs IH]; intros s0 H0; cbn [run].
  - by intros [= <-].
  - destruct (exec cfg c s0) as [s1|] eqn:E; [|done]. cbn. apply IH. by eapply exec_life.
Qed.

End LifePreservation.

Definition claims_at (p : pc) : bool :=
  match p with
  | FastClaim _ | InitClaim _ _ | InitFirstClaim _ _ => true
  | _ => false
  end.

Definition unclaimed (s s' : state) : Prop :=
  events s' = events s \/ exists e, events s' = e :: events s /\ forall r, e <> Claimed r.

Lemma persist_events i k s0 s :
  events s0 = events s -> unclaimed s (persisted i k s0) /\ unclaimed s (persist_failed i k s0).
Proof.
  intros H. destruct k; cbn; unfold unclaimed; cbn; rewrite H; split; eauto.
Qed.

Lemma task_step_events cfg s i p o j s' :
  claims_at p = false -> task_step cfg s i p o j = Some s' -> unclaimed s s'.
Proof.
  destruct p; try done; intros _; step_cbn; unfold acquire;
    try (intros [= <-]; first [by left | right; eexists; by split]);
    repeat case_match; try done; intros [= <-];
    first [by left | right; eexists; by split | by apply persist_events
          | apply persist_events; by destruct durable ].
Qed.

(** Only [claim_ids] claims, where everything returned or reserved is below the
    next ID. *)
Lemma claim_task_step cfg s i p o j s' r :
  invariant s -> tasks s !! i = Some p -> task_step cfg s i p o j = Some s' ->
  events s' = Claimed r :: events s -> covers s /\ fst r = next_id s.
Proof.
  intros Hinv Hp Hex Hev.
  pose proof (inv_knows _ Hinv _ _ Hp) as Hk. pose proof (inv_shared _ Hinv) as Hsh.
  assert (forall l, l <> Claimed r :: l) as Hl.
  { intros l E. apply (f_equal length) in E. cbn in E. lia. }
  assert (forall c r' s1, claim_ids c s = Some (r', s1) ->
    events s1 = Claimed r' :: events s /\ fst r' = next_id s) as Hc.
  { intros c r' s1. unfold claim_ids. destruct (checked_add _ _ _); [|done]. by intros [= <- <-]. }
  destruct (claims_at p) eqn:Ep.
  2:{ destruct (task_step_events _ _ _ _ _ _ _ Ep Hex) as [E|(e & E & He)].
      - rewrite E in Hev. by destruct (Hl _ Hev).
      - rewrite E in Hev. injection Hev as ->. by destruct (He r). }
  assert (covers s) as Hcov.
  { destruct p; try done; cbn in Hk; try (apply (sh_covers _ Hsh); lia).
    destruct Hk as (_ & H0 & -> & Hn). split; rewrite Hn; [|apply Hsh].
    pose proof (sh_returned _ Hsh) as Hr. by rewrite H0 in Hr. }
  split; [done|].
  destruct p; try done; cbn in Hex;
    (destruct (claim_ids _ s) as [[r' s1]|] eqn:E; [destruct (Hc _ _ _ E) as [E1 E2]|]).
  - injection Hex as <-. cbn in Hev. rewrite E1 in Hev. by injection Hev as <-.
  - injection Hex as <-. cbn in Hev. congruence.
  - destruct (_ <=? _); injection Hex as <-; cbn in Hev; rewrite E1 in Hev; by injection Hev as <-.
  - injection Hex as <-. cbn in Hev. congruence.
  - injection Hex as <-. cbn in Hev. rewrite E1 in Hev. by injection Hev as <-.
  - injection Hex as <-. cbn in Hev. congruence.
Qed.

Lemma claim_step cfg s s' c r :
  invariant s -> exec cfg c s = Some s' -> events s' = Claimed r :: events s ->
  covers s /\ fst r = next_id s.
Proof.
  intros Hinv Hex Hev.
  assert (forall l, l <> Claimed r :: l) as Hl.
  { intros l E. apply (f_equal length) in E. cbn in E. lia. }
  destruct c as [i op|i o j|i d|]; cbn [exec] in Hex.
  - destruct (tasks s !! i); [done|]. destruct (operation_ok op); [|done]. injection Hex as <-.
    by destruct (Hl (events s)).
  - destruct (tasks s !! i) as [p|] eqn:Hp; [|done]. by eapply claim_task_step.
  - destruct (tasks s !! i) as [p|] eqn:Hp; [|done]. cbn in Hex. unfold cancel in Hex.
    destruct (awaits p); [|done]. injection Hex as <-. destruct (Hl (events s)).
    rewrite <- Hev. destruct p; cbn; repeat case_match; done.
  - injection Hex as <-. cbn in Hev. congruence.
Qed.

(** ** Properties *)

(** [C3] IDs are never handed out twice: whatever the interleaving of
    allocations, reservations and refills, and whatever storage calls fail,
    tasks are cancelled or the process crashes, the ranges returned over the
    whole life of the database are pairwise disjoint, and every one lies below
    the durable watermark, so no later process can return it again. *)
Theorem ids_unique (cfg : config) (s : state) :
  config_ok cfg -> reachable cfg s ->
  ForallOrdPairs disjoint (returned (events s)) /\
  Forall (fun r => snd r <= watermark s) (returned (events s)) /\
  load_persisted s = Ok (watermark s).
Proof.
  intros Hcfg H. pose proof (reachable_invariant cfg Hcfg s H) as Hinv.
  pose proof (inv_shared _ Hinv) as Hsh. split; [apply Hinv|]. split; [|apply load_ok, Hsh].
  eapply Forall_impl; [apply (sh_returned _ Hsh)|]. cbn. pose proof (sh_durable _ Hsh).
  intros r. destruct (_ =? 0); lia.
Qed.

(** A completed reservation holds: once [reserve_at_least(n)] has
    returned, in this process or an earlier one, every later claim starts at
    [n] or above. *)
Theorem reservations_hold (cfg : config) (s s' : state) (c : choice) (r : range) (n : Z) :
  config_ok cfg -> reachable cfg s -> exec cfg c s = Some s' ->
  events s' = Claimed r :: events s -> Reserved n ∈ events s ->
  n <= fst r.
Proof.
  intros Hcfg H Hex Hev Hn. pose proof (reachable_invariant cfg Hcfg s H) as Hinv.
  destruct (claim_step cfg s s' c r Hinv Hex Hev) as [[_ Hres] ->].
  assert (n ∈ reserved (events s)) as Hin by (apply list_elem_of_omap; eauto).
  rewrite Forall_forall in Hres. by apply Hres.
Qed.

Lemma ids_unique_witness :
  let cfg := {| lease_size := 10; refill_threshold := 0 |} in
  let go := fun i n => repeat (Run i IoOk 9) n in
  exists s, run cfg ([Call 1 (AllocateBatch 3)] ++ go 1%nat 11%nat ++ [Crash; Call 2 (AllocateBatch 1)]
      ++ go 2%nat 11%nat) fresh_state = Some s /\
    returned (events s) = [(10, 11); (0, 3)] /\
    ForallOrdPairs disjoint (returned (events s)).
Proof.
  eexists. split; [vm_compute; reflexivity|]. split; [vm_compute; reflexivity|].
  refine (proj1 (ids_unique {| lease_size := 10; refill_threshold := 0 |} _ _ _)).
  - unfold config_ok, in_u. cbn. lia.
  - exists ([Call 1 (AllocateBatch 3)] ++ repeat (Run 1 IoOk 9) 11 ++
      [Crash; Call 2 (AllocateBatch 1)] ++ repeat (Run 2 IoOk 9) 11).
    vm_compute. reflexivity.
Defined.

(** The state after [reserve_at_least 50] on a fresh database. *)
Definition reserved_run : list choice := Call 1 (ReserveAtLeast 50) :: repeat (Run 1 IoOk 9) 9.

Lemma reservations_hold_witness :
  let cfg := {| lease_size := 10; refill_threshold := 0 |} in
  exists s s', run cfg (reserved_run ++ [Call 2 (AllocateBatch 1); Run 2 IoOk 9]) fresh_state = Some s /\
    exec cfg (Run 2 IoOk 9) s = Some s' /\ 50 <= fst (50, 51).
Proof.
  eexists. eexists. split; [vm_compute; reflexivity|]. split; [vm_compute; reflexivity|].
  refine (reservations_hold {| lease_size := 10; refill_threshold := 0 |} _ _ (Run 2 IoOk 9)
    (50, 51) 50 _ _ _ _ _).
  - unfold config_ok, in_u. cbn. lia.
  - exists (reserved_run ++ [Call 2 (AllocateBatch 1); Run 2 IoOk 9]). vm_compute. reflexivity.
  - vm_compute. reflexivity.
  - vm_compute. reflexivity.
  - apply list_elem_of_In. left. reflexivity.
Defined.

(** At most one background refill runs at a time, its completion always
    finds its own state (the code's [unreachable!]s are), and once [shutdown]
    has returned no refill is in flight and none can have started since. *)
Theorem refill_lifecycle (cfg : config) (s : state) :
  reachable cfg s ->
  (forall i j p q, tasks s !! i = Some p -> tasks s !! j = Some q ->
     is_refill p = true -> is_refill q = true -> i = j) /\
  (forall i, tasks s !! i <> Some Unreachable) /\
  (ShutDown ∈ since_crash (events s) ->
     lifecycle s = Closed /\ forall i p, tasks s !! i = Some p -> is_refill p = false).
Proof.
  intros [H1 H2 H3 H4 H5]%reachable_life. split_and!; [done|done|].
  intros H. specialize (H5 H). split; [done|]. intros i p Hi.
  destruct (is_refill p) eqn:E; [|done].
  assert (active (lifecycle s) = true) as Ha by (apply H2; eauto). by rewrite H5 in Ha.
Qed.

Lemma refill_lifecycle_witness :
  exists s, run {| lease_size := 10; refill_threshold := 0 |} [Call 1 Shutdown; Run 1 IoOk 9; Run 1 IoOk 9]
      fresh_state = Some s /\ lifecycle s = Closed.
Proof.
  eexists. split; [vm_compute; reflexivity|].
  refine (proj1 (proj2 (proj2 (refill_lifecycle {| lease_size := 10; refill_threshold := 0 |} _ _)) _)).
  - exists [Call 1 Shutdown; Run 1 IoOk 9; Run 1 IoOk 9]. vm_compute. reflexivity.
  - apply list_elem_of_In. left. reflexivity.
Defined.

(** [extension_target] extends by the fewest whole leases, at least one,
    that cover the next ID and the refill headroom, clamped to the end of the
    ID space, and leaves a lease that already covers more than them alone. *)
Theorem extension_target_exact (cur next size thr : Z) :
  in_u 64 cur -> in_u 64 next -> in_u 64 size -> size <> 0 -> in_u 64 thr ->
  let desired := Z.min (next + thr) (2 ^ 64 - 1) in
  if desired <? cur then extension_target cur next size thr = cur
  else exists k, 1 <= k /\ desired <= cur + k * size /\
    (k = 1 \/ cur + (k - 1) * size < desired) /\
    extension_target cur next size thr = Z.min (cur + k * size) (2 ^ 64 - 1).
Proof.
  intros Hc Hn Hs Hs0 Ht desired. unfold extension_target, sat_add, sat_mul, umax.
  fold desired. unfold in_u in *. destruct (Z.ltb_spec desired cur); [done|].
  set (k := if desired - cur =? 0 then 1 else div_ceil (desired - cur) size).
  assert (1 <= k /\ desired <= cur + k * size /\ (k = 1 \/ cur + (k - 1) * size < desired))
    as (H1 & H2 & H3).
  { unfold k. destruct (Z.eqb_spec (desired - cur) 0); [lia|]. unfold div_ceil.
    pose proof (Z.div_mod (desired - cur + size - 1) size ltac:(lia)).
    pose proof (Z.mod_pos_bound (desired - cur + size - 1) size ltac:(lia)). nia. }
  exists k. split_and!; [done|done|done|]. lia.
Qed.

Lemma extension_target_exact_witness :
  exists k, 1 <= k /\ 26 <= 0 + k * 10 /\ (k = 1 \/ 0 + (k - 1) * 10 < 26) /\
    extension_target 0 1 10 25 = Z.min (0 + k * 10) (2 ^ 64 - 1).
Proof.
  exact (extension_target_exact 0 1 10 25 ltac:(unfold in_u; lia) ltac:(unfold in_u; lia)
    ltac:(unfold in_u; lia) ltac:(lia) ltac:(unfold in_u; lia)).
Defined.

(** ** Progress *)

Lemma step_enabled cfg s i p :
  life_ok s -> tasks s !! i = Some p -> (holds p = true \/ lock s = None) ->
  ~ (p = ShutWait /\ lifecycle s = ClosingInFlight) ->
  exists o j s', exec cfg (Run i o j) s = Some s'.
Proof.
  intros Hlife Hp Hl Hw. exists IoOk, (fresh (dom (tasks s))). cbn [exec]. rewrite Hp. cbn.
  assert (tasks s !! fresh (dom (tasks s)) = None) as Hf.
  { apply not_elem_of_dom, is_fresh. }
  pose proof (l_never _ Hlife i) as Hn. pose proof (l_cas _ Hlife i) as Hc.
  assert (forall q, holds p = false -> exists s', acquire i q s = Some s') as Hacq.
  { intros q E. destruct Hl as [Hl|Hl]; [congruence|]. unfold acquire. rewrite Hl. eauto. }
  destruct p; cbn; eauto; try congruence; try (by apply Hacq); rewrite ?Hf;
    repeat case_match; eauto; try congruence; tauto.
Qed.

(** The allocator never deadlocks: while any task is running, some task
    can take a step. *)
Theorem allocator_progress (cfg : config) (s : state) (i : nat) (p : pc) :
  config_ok cfg -> reachable cfg s -> tasks s !! i = Some p ->
  exists k o j s', exec cfg (Run k o j) s = Some s'.
Proof.
  intros Hcfg Hr Hp. pose proof (reachable_invariant cfg Hcfg s Hr) as Hinv.
  pose proof (reachable_life cfg s Hr) as Hlife. destruct (lock s) as [k|] eqn:El.
  - destruct (inv_held _ Hinv k El) as (q & Hq & Hh). exists k.
    apply (step_enabled cfg s k q); auto. intros [-> _]. done.
  - destruct (decide (lifecycle s = ClosingInFlight)) as [Hc|Hc].
    + destruct (proj1 (l_active _ Hlife)) as (k & q & Hq & Hrf); [by rewrite Hc|].
      exists k. apply (step_enabled cfg s k q); auto. intros [-> _]. done.
    + exists i. apply (step_enabled cfg s i p); auto. by intros [_ ?].
Qed.

Lemma allocator_progress_witness :
  exists k o j s', exec {| lease_size := 10; refill_threshold := 0 |} (Run k o j)
    (goto 1 ShutLoad fresh_state) = Some s'.
Proof.
  refine (allocator_progress {| lease_size := 10; refill_threshold := 0 |}
    (goto 1 ShutLoad fresh_state) 1 ShutLoad _ _ _).
  - unfold config_ok, in_u. cbn. lia.
  - exists [Call 1 Shutdown]. reflexivity.
  - reflexivity.
Defined.

End IdAllocator.
