(* ===== verification/ExternalId.v ===== *)
(** External graph identities: crates/graph-algorithms/src/identity.rs, with the
    edge identity and the errors of crates/graph-algorithms/src/model.rs.

    [ExternalId] with its derived order, its validation and its canonical tagged
    JSON envelope. [serde_json] is not part of the repository: [Value] has the
    variants the code matches on, with an object as its entries in key order;
    [Number], its accessors and the serializer [to_vec] are parameters. Strings
    are their UTF-8 bytes and floats their bits. *)
From S2P Require Import Prelude Bytes BTree.

Open Scope Z_scope.

#[local] Set Warnings "-register-all".

Module ExternalId.

(** A string literal. *)
Definition lit (s : string) : bytes :=
  map (fun c => Z.of_N (Ascii.N_of_ascii c)) (String.list_ascii_of_string s).

(** ** [serde_json] *)

Class JsonNumber := {
  Number : Type;
  is_i64 : Number -> bool;
  is_u64 : Number -> bool;
  number_to_string : Number -> bytes;
  as_f64 : Number -> option Z;
}.

Inductive Value `{JsonNumber} :=
| VNull
| VBool (b : bool)
| VNumber (n : Number)
| VString (s : bytes)
| VArray (l : list Value)
| VObject (o : list (bytes * Value)).

(** [serde_json::to_vec]; its error is only shown. *)
Class JsonWriter `{JsonNumber} := { to_vec : Value -> result string bytes }.

(** A member of an array or object. *)
Definition member `{JsonNumber} (x v : Value) : Prop :=
  match v with
  | VArray l => x ∈ l
  | VObject o => exists k, (k, x) ∈ o
  | _ => False
  end.

(** JSON text contains the text of its members. *)
Class JsonWriterLaws `{JsonWriter} : Prop := {
  to_vec_member : forall v x b, to_vec v = Ok b -> member x v ->
    exists b', to_vec x = Ok b' /\ blen b' <= blen b;
}.

(** ** Identities *)

Definition ENVELOPE : bytes := lit "__helix_external_id_v1".
Definition MAX_DEPTH : Z := 64.
Definition MAX_ENCODED_LEN : Z := 64 * 1024.

Inductive ExternalId :=
| Null
| Boolean (b : bool)
| Integer (s : bytes)
| Float (bits : Z)
| Str (s : bytes)
| Bytes (b : bytes)
| Tuple (l : list ExternalId)
| FrozenSet (s : list ExternalId).

(** model.rs: [EdgeId]; its derived order compares the stored ID first. *)
Record EdgeId := { stored_id : bytes; reverse_generation : Z }.

Definition edge_id_cmp (a b : EdgeId) : comparison :=
  then_with (bytes_cmp (stored_id a) (stored_id b))
    (reverse_generation a ?= reverse_generation b).

Definition original (id : bytes) : EdgeId := {| stored_id := id; reverse_generation := 0 |}.
Definition synthesized_reverse (id : bytes) (generation : Z) : option EdgeId :=
  if 0 <? generation then Some {| stored_id := id; reverse_generation := generation |} else None.
Definition reversed (self : EdgeId) : option EdgeId :=
  checked_add 64 (reverse_generation self) 1 ≫= synthesized_reverse (stored_id self).
Definition is_valid (self : EdgeId) : bool := negb (bool_decide (stored_id self = [])).

Inductive GraphKind := Graph | DiGraph | MultiGraph | MultiDiGraph.
#[global] Instance GraphKind_eq_dec : EqDecision GraphKind.
Proof. solve_decision. Defined.

Definition is_directed (self : GraphKind) : bool :=
  match self with DiGraph | MultiDiGraph => true | _ => false end.
Definition is_multigraph (self : GraphKind) : bool :=
  match self with MultiGraph | MultiDiGraph => true | _ => false end.

Inductive GraphError :=
| EmptyEdgeId
| DuplicateNode (id : ExternalId)
| DuplicateEdge (id : EdgeId)
| MissingEndpoint (edge_id : EdgeId) (endpoint : string) (node_id : ExternalId)
| InvalidWeight (edge_id : EdgeId) (weight : Z)
| InvalidExternalId (msg : string)
| UnknownNode (id : ExternalId)
| UnknownEdge (id : EdgeId)
| RelabelCollision (target first second : ExternalId)
| ParallelEdge (kind : GraphKind) (pair_source pair_target : ExternalId)
| KindMismatch
| ConflictingEdge (edge_id : EdgeId)
| EdgeIdentityExhausted (stored_id : bytes)
| InvalidOption (msg : string).

Definition invalid {A} (message : string) : result GraphError A := Err (InvalidExternalId message).

(** *** The derived order *)

Definition id_rank (id : ExternalId) : Z :=
  match id with
  | Null => 0 | Boolean _ => 1 | Integer _ => 2 | Float _ => 3
  | Str _ => 4 | Bytes _ => 5 | Tuple _ => 6 | FrozenSet _ => 7
  end.

Definition bool_cmp (a b : bool) : comparison :=
  match a, b with
  | false, true => Lt
  | true, false => Gt
  | _, _ => Eq
  end.

Fixpoint id_cmp (a b : ExternalId) {struct a} : comparison :=
  then_with (id_rank a ?= id_rank b)
    match a, b with
    | Boolean a, Boolean b => bool_cmp a b
    | Integer a, Integer b | Str a, Str b | Bytes a, Bytes b => bytes_cmp a b
    | Float a, Float b => a ?= b
    | Tuple a, Tuple b | FrozenSet a, FrozenSet b => lex_compare id_cmp a b
    | _, _ => Eq
    end.

(** *** Characters *)

Definition is_ascii_digit (b : Z) : bool := between 48 57 b.
Definition is_ascii_uppercase (b : Z) : bool := between 65 90 b.
Definition is_ascii_hexdigit (b : Z) : bool :=
  between 48 57 b || between 65 70 b || between 97 102 b.

Definition DIGITS : bytes := lit "0123456789abcdef".
Definition hex_char (nibble : Z) : Z := default 0 (DIGITS !! Z.to_nat nibble).

Definition digit_value (b : Z) : option Z :=
  if between 48 57 b then Some (b - 48)
  else if between 97 102 b then Some (b - 87)
  else if between 65 70 b then Some (b - 55)
  else None.

(** [uN::from_str_radix(_, 16)] on text without a sign. *)
Fixpoint radix16 (acc : Z) (l : bytes) : option Z :=
  match l with
  | [] => Some acc
  | b :: l => digit_value b ≫= fun d => radix16 (16 * acc + d) l
  end.
Definition from_str_radix (w : Z) (l : bytes) : option Z :=
  match l with
  | [] => None
  | _ => radix16 0 l ≫= fun v => if v <? 2 ^ w then Some v else None
  end.

Definition encode_hex (l : bytes) : bytes :=
  flat_map (fun byte => [hex_char (Z.shiftr byte 4); hex_char (Z.land byte 0x0f)]) l.

(** [format!("{bits:016x}")]. *)
Definition fmt_016x (bits : Z) : bytes := encode_hex (to_be 8 bits).

(** [chunks_exact(2)] parsed and collected. *)
Fixpoint hex_pairs (l : bytes) : result GraphError bytes :=
  match l with
  | a :: b :: l =>
      let? byte := match from_str_radix 8 [a; b] with
                   | Some v => Ok v
                   | None => invalid "invalid bytes identity"
                   end in
      let? rest := hex_pairs l in
      Ok (byte :: rest)
  | _ => Ok []
  end.

Definition decode_hex (value : bytes) : result GraphError bytes :=
  if negb (blen value mod 2 =? 0) || negb (forallb is_ascii_hexdigit value) then
    invalid "bytes identity must contain lowercase hexadecimal pairs"
  else if existsb is_ascii_uppercase value then
    invalid "bytes identity hexadecimal must be lowercase"
  else hex_pairs value.

(** *** Validation *)

Definition validate_integer (value : bytes) : result GraphError unit :=
  let digits := default value (strip_prefix (lit "-") value) in
  let canonical :=
    negb (bool_decide (digits = [])) && forallb is_ascii_digit digits &&
    (bool_decide (digits = lit "0") || negb (bool_decide (head digits = Some 48))) &&
    negb (bool_decide (value = lit "-0")) in
  if canonical then Ok tt else invalid "integer identity is not canonical decimal".

Definition integer (value : bytes) : result GraphError ExternalId :=
  let? _ := validate_integer value in Ok (Integer value).

(** [Iterator::try_for_each]. *)
Definition try_for_each {A} (f : A -> result GraphError unit) :=
  fix go (l : list A) : result GraphError unit :=
    match l with
    | [] => Ok tt
    | x :: l => let? _ := f x in go l
    end.

Fixpoint validate_depth (self : ExternalId) (depth : Z) : result GraphError unit :=
  if MAX_DEPTH <? depth then
    invalid ("identity nesting exceeds " +:+ fmt_dec MAX_DEPTH +:+ " levels")
  else
    match self with
    | Integer value => validate_integer value
    | Tuple values | FrozenSet values =>
        try_for_each (fun value => validate_depth value (depth + 1)) values
    | Null | Boolean _ | Float _ | Str _ | Bytes _ => Ok tt
    end.

(** *** The tagged envelope *)

Section Codec.
Context `{JsonWriter}.

Definition envelope (kind : string) (value : option Value) : Value :=
  let payload := BTree.from_iter bytes_cmp [(lit "type", VString (lit kind))] in
  let payload := match value with
                 | Some value => BTree.insert bytes_cmp (lit "value") value payload
                 | None => payload
                 end in
  VObject (BTree.from_iter bytes_cmp [(ENVELOPE, VObject (BTree.from_iter bytes_cmp payload))]).

Fixpoint tagged_value (self : ExternalId) : Value :=
  match self with
  | Null => envelope "null" None
  | Boolean value => envelope "boolean" (Some (VBool value))
  | Integer value => envelope "integer" (Some (VString value))
  | Float bits => envelope "float" (Some (VString (fmt_016x bits)))
  | Str value => envelope "string" (Some (VString value))
  | Bytes value => envelope "bytes" (Some (VString (encode_hex value)))
  | Tuple values => envelope "tuple" (Some (VArray (map tagged_value values)))
  | FrozenSet values => envelope "frozenset" (Some (VArray (map tagged_value values)))
  end.

Definition validate (self : ExternalId) : result GraphError unit :=
  let? _ := validate_depth self 0 in
  match to_vec (tagged_value self) with
  | Err error => invalid error
  | Ok encoded =>
      if MAX_ENCODED_LEN <? blen encoded then
        invalid ("encoded identity exceeds " +:+ fmt_dec MAX_ENCODED_LEN +:+ " bytes")
      else Ok tt
  end.

Definition tuple (values : list ExternalId) : result GraphError ExternalId :=
  let? _ := validate (Tuple values) in Ok (Tuple values).

Definition frozen_set (values : list ExternalId) : result GraphError ExternalId :=
  let value := FrozenSet (BTree.set_from_iter id_cmp values) in
  let? _ := validate value in Ok value.

Definition to_json_bytes (self : ExternalId) : result GraphError bytes :=
  let? _ := validate self in
  match to_vec (tagged_value self) with
  | Err error => invalid error
  | Ok encoded => Ok encoded
  end.

(** [values.windows(2).all(|pair| pair[0] < pair[1])]. *)
Fixpoint windows_increasing (l : list ExternalId) : bool :=
  match l with
  | a :: ((b :: _) as l) =>
      match id_cmp a b with Lt => windows_increasing l | _ => false end
  | _ => true
  end.

(** The [match (kind.as_str(), value)] of [from_tagged_value]; [recur] is the
    recursive call. *)
Definition tagged_payload (recur : Value -> result GraphError ExternalId)
    (kind : bytes) (value : option Value) : result GraphError ExternalId :=
  let mismatch := invalid "invalid tagged identity type or value" in
  if decide (kind = lit "null") then
    match value with
    | None => Ok Null
    | Some _ => invalid "null identity must not contain a value"
    end
  else if decide (kind = lit "boolean") then
    match value with Some (VBool value) => Ok (Boolean value) | _ => mismatch end
  else if decide (kind = lit "integer") then
    match value with Some (VString value) => integer value | _ => mismatch end
  else if decide (kind = lit "float") then
    match value with
    | Some (VString value) =>
        if negb (blen value =? 16) || existsb is_ascii_uppercase value
           || negb (forallb is_ascii_hexdigit value) then
          invalid "float identity must contain 16 hexadecimal digits"
        else match from_str_radix 64 value with
             | Some bits => Ok (Float bits)
             | None => invalid "invalid float identity bits"
             end
    | _ => mismatch
    end
  else if decide (kind = lit "string") then
    match value with Some (VString value) => Ok (Str value) | _ => mismatch end
  else if decide (kind = lit "bytes") then
    match value with
    | Some (VString value) => let? value := decode_hex value in Ok (Bytes value)
    | _ => mismatch
    end
  else if decide (kind = lit "tuple") then
    match value with
    | Some (VArray values) => let? values := collect (map recur values) in Ok (Tuple values)
    | _ => mismatch
    end
  else if decide (kind = lit "frozenset") then
    match value with
    | Some (VArray values) =>
        let? values := collect (map recur values) in
        let set := BTree.set_from_iter id_cmp values in
        if negb (Nat.eqb (length set) (length values)) || negb (windows_increasing values) then
          invalid "frozenset identity must be sorted and unique"
        else Ok (FrozenSet set)
    | _ => mismatch
    end
  else mismatch.

(** The body of [from_tagged_value]. *)
Definition tagged_body (recur : Value -> result GraphError ExternalId) (value : Value)
    : result GraphError ExternalId :=
  match value with
  | VObject outer =>
      if negb (Nat.eqb (length outer) 1) then
        invalid "tagged identity must contain exactly one envelope key"
      else match BTree.get bytes_cmp ENVELOPE outer with
      | None => invalid "missing tagged identity envelope"
      | Some (VObject payload) =>
          match BTree.get bytes_cmp (lit "type") payload with
          | Some (VString kind) =>
              let payload := BTree.remove bytes_cmp (lit "type") payload in
              let value := BTree.get bytes_cmp (lit "value") payload in
              let payload := BTree.remove bytes_cmp (lit "value") payload in
              if negb (Nat.eqb (length payload) 0) then
                invalid "tagged identity payload contains unknown fields"
              else
                let? identity := tagged_payload recur kind value in
                let? _ := validate identity in
                Ok identity
          | _ => invalid "tagged identity type must be a string"
          end
      | Some _ => invalid "tagged identity payload must be an object"
      end
  | _ => invalid "tagged identity must be an object"
  end.

(** The recursion of [from_tagged_value] is on the nesting of the value, which
    bounds the fuel. *)
Fixpoint nesting (v : Value) : nat :=
  match v with
  | VArray l => S (foldr (fun x n => Nat.max (nesting x) n) 0%nat l)
  | VObject o => S (foldr (fun e n => Nat.max (nesting e.2) n) 0%nat o)
  | _ => 1%nat
  end.

Fixpoint from_tagged (fuel : nat) (value : Value) : result GraphError ExternalId :=
  match fuel with
  | O => invalid ""
  | S fuel => tagged_body (from_tagged fuel) value
  end.

Definition from_tagged_value (value : Value) : result GraphError ExternalId :=
  from_tagged (nesting value) value.

Definition from_scalar (value : Value) : result GraphError ExternalId :=
  let? identity :=
    match value with
    | VNull => Ok Null
    | VBool value => Ok (Boolean value)
    | VString value => Ok (Str value)
    | VNumber value =>
        if is_i64 value || is_u64 value then integer (number_to_string value)
        else match as_f64 value with
             | Some bits => Ok (Float bits)
             | None => invalid "identity number cannot be represented as f64"
             end
    | VArray _ | VObject _ => invalid "scalar identity must not be an array or object"
    end in
  let? _ := validate identity in
  Ok identity.

(** [Deserialize], from the deserialized [Value]. *)
Definition deserialize (value : Value) : result GraphError ExternalId :=
  match value with
  | VObject object =>
      if BTree.get bytes_cmp ENVELOPE object then from_tagged_value value else from_scalar value
  | _ => from_scalar value
  end.
End Codec.

(** ** The derived order is a strict total order *)

Section Induction.
Variable P : ExternalId -> Prop.
Hypothesis Hscalar : forall v, match v with Tuple _ | FrozenSet _ => False | _ => True end -> P v.
Hypothesis Htuple : forall l, Forall P l -> P (Tuple l).
Hypothesis Hset : forall l, Forall P l -> P (FrozenSet l).

Fixpoint id_ind' (v : ExternalId) : P v :=
  let fix go l : Forall P l :=
    match l with
    | [] => List.Forall_nil _
    | x :: l => List.Forall_cons _ _ _ (id_ind' x) (go l)
    end in
  match v with
  | Tuple l => Htuple l (go l)
  | FrozenSet l => Hset l (go l)
  | v => Hscalar v I
  end.
End Induction.

#[global] Instance bool_cmp_strict : StrictCompare bool_cmp.
Proof.
  split; [split|]; [by intros [] | by intros [] [] | intros [] [] [] o; simpl; congruence |
    by intros [] []].
Qed.

#[global] Instance edge_id_cmp_strict : StrictCompare edge_id_cmp.
Proof.
  split.
  - apply then_with_lawful.
    + apply (preimage_lawful stored_id), _.
    + apply (preimage_lawful reverse_generation), _.
  - intros [a g] [b h]. unfold edge_id_cmp. simpl.
    intros [E1%(cmp_eq (cmp := bytes_cmp)) E2%Z.compare_eq]%then_with_eq. by subst.
Qed.

(** A comparison by rank, then by payload among equal ranks, obeys the laws at
    [x] when the payload comparison does. *)
Lemma rank_laws_at {A B} (rank : A -> Z) (mk : B -> A) (c : B -> B -> comparison) cmp x :
  laws_at c x ->
  (forall a b, rank a <> rank b -> cmp a b = (rank a ?= rank b)) ->
  (forall x y, cmp (mk x) (mk y) = c x y) ->
  (forall x y, rank (mk x) = rank y -> exists z, y = mk z) ->
  laws_at cmp (mk x).
Proof.
  intros (Hr & Hs & Ht) Hrank Hc Hmk.
  assert (forall a b, cmp a b = Eq -> rank a = rank b) as Heq.
  { intros a b E. destruct (decide (rank a = rank b)) as [|Hn]; [done|].
    rewrite Hrank in E by done. by apply Z.compare_eq in E. }
  split_and!; [by rewrite Hc| |].
  - intros y. destruct (decide (rank (mk x) = rank y)) as [[z ->]%Hmk|Hn].
    + rewrite !Hc. apply Hs.
    + rewrite !Hrank by done. apply Z.compare_antisym.
  - intros y z. destruct (decide (rank (mk x) = rank y)) as [E1|N1].
    + destruct (Hmk _ _ E1) as [y' ->]. destruct (decide (rank (mk y') = rank z)) as [E2|N2].
      * destruct (Hmk _ _ E2) as [z' ->]. rewrite !Hc. apply Ht.
      * rewrite (Hrank (mk y') z), (Hrank (mk x) z) by congruence. rewrite E1.
        split_and!; [congruence | done | intros E%Z.compare_eq; done].
    + rewrite (Hrank (mk x) y) by done.
      destruct (decide (rank y = rank z)) as [E2|N2].
      * rewrite (Hrank (mk x) z) by congruence. rewrite E2.
        split_and!; [congruence | intros E%Z.compare_eq; congruence | done].
      * rewrite (Hrank y z) by done. split_and!.
        -- intros o H1 H2. assert (rank (mk x) ?= rank z = o) as H3.
           { by apply (cmp_trans (cmp := Z.compare)) with (rank y). }
           destruct (decide (rank (mk x) = rank z)) as [E3|N3]; [|by rewrite Hrank].
           rewrite E3, Z.compare_refl in H3. rewrite <- H3 in H1.
           by apply Z.compare_eq in H1.
        -- intros E%Z.compare_eq. done.
        -- intros E%Z.compare_eq. done.
Qed.

Lemma id_cmp_rank a b : id_rank a <> id_rank b -> id_cmp a b = (id_rank a ?= id_rank b).
Proof.
  intros H. assert (id_rank a ?= id_rank b <> Eq) as Hc by (by intros ?%Z.compare_eq).
  destruct a, b; simpl in *; try done.
Qed.

(** One variant: its payload comparison and its constructor. *)
Ltac id_variant c mk :=
  apply (rank_laws_at id_rank mk c id_cmp);
  [try (apply lawful_at; apply _) | apply id_cmp_rank | done | by intros ? []; eauto].

Lemma id_cmp_laws v : laws_at id_cmp v.
Proof.
  induction v as [v Hv|l IH|l IH] using id_ind'.
  - destruct v; try done.
    + apply (rank_laws_at id_rank (fun _ : unit => Null) (fun _ _ => Eq) id_cmp tt);
        [done | apply id_cmp_rank | done | intros ? []; try done; by exists tt].
    + id_variant bool_cmp Boolean.
    + id_variant bytes_cmp Integer.
    + id_variant Z.compare Float.
    + id_variant bytes_cmp Str.
    + id_variant bytes_cmp Bytes.
  - id_variant (lex_compare id_cmp) Tuple. by apply lex_laws_at.
  - id_variant (lex_compare id_cmp) FrozenSet. by apply lex_laws_at.
Qed.

Lemma lex_cmp_eq {A} (cmp : A -> A -> comparison) l :
  Forall (fun x => forall y, cmp x y = Eq -> x = y) l ->
  forall l', lex_compare cmp l l' = Eq -> l = l'.
Proof.
  induction 1 as [|x l Hx _ IH]; intros [|y l']; simpl; try done.
  intros [H1%Hx H2%IH]%then_with_eq. by subst.
Qed.

#[global] Instance id_cmp_strict : StrictCompare id_cmp.
Proof.
  split.
  - split.
    + intros x. apply (id_cmp_laws x).
    + intros x. apply (id_cmp_laws x).
    + intros x y z o. apply (id_cmp_laws x).
  - intros x. induction x as [x Hx|l IH|l IH] using id_ind'; intros y E.
    + destruct x, y; try done; simpl in E; f_equal;
        first [by apply (cmp_eq (cmp := bool_cmp)) | by apply (cmp_eq (cmp := bytes_cmp)) |
          by apply Z.compare_eq].
    + destruct y; try done. f_equal. by eapply lex_cmp_eq.
    + destruct y; try done. f_equal. by eapply lex_cmp_eq.
Qed.

#[global] Instance id_eq_dec : EqDecision ExternalId.
Proof.
  intros x y. destruct (id_cmp x y) eqn:E; [left; by apply (cmp_eq (cmp := id_cmp))| |];
    right; intros ->; by rewrite cmp_refl in E.
Defined.

(** ** Hexadecimal text *)

Definition lower_hex (b : Z) : bool := is_ascii_hexdigit b && negb (is_ascii_uppercase b).

Definition nibble_ok (n : Z) : bool :=
  lower_hex (hex_char n) && bool_decide (digit_value (hex_char n) = Some n).

Lemma nibbles n : 0 <= n < 16 -> lower_hex (hex_char n) = true /\ digit_value (hex_char n) = Some n.
Proof.
  intros Hn. assert (Forall (fun n => nibble_ok n = true) (seqZ 0 16)) as H by (vm_compute; repeat constructor).
  rewrite Forall_forall in H. specialize (H n (proj2 (elem_of_seqZ _ _ _) Hn)).
  apply andb_true_iff in H as [H1 H2%bool_decide_eq_true]. done.
Qed.

Lemma lower_hex_nibble c : lower_hex c = true -> exists n, 0 <= n < 16 /\ c = hex_char n.
Proof.
  intros H. assert (c ∈ seqZ 48 10 ++ seqZ 97 6) as Hin.
  { rewrite elem_of_app, !elem_of_seqZ. unfold lower_hex, is_ascii_hexdigit, is_ascii_uppercase, between in H.
    to_prop. apply andb_false_iff in H0. rewrite !orb_true_iff, !andb_true_iff in H.
    rewrite !Z.leb_le in H. rewrite !Z.leb_gt in H0. lia. }
  clear H. revert c Hin. apply Forall_forall. vm_compute.
  repeat (constructor; [first [by exists 0 | by exists 1 | by exists 2 | by exists 3 | by exists 4
    | by exists 5 | by exists 6 | by exists 7 | by exists 8 | by exists 9 | by exists 10
    | by exists 11 | by exists 12 | by exists 13 | by exists 14 | by exists 15]|]).
  constructor.
Qed.

Lemma byte_nibbles b : byte_ok b ->
  0 <= Z.shiftr b 4 < 16 /\ 0 <= Z.land b 15 < 16 /\ b = 16 * Z.shiftr b 4 + Z.land b 15.
Proof.
  intros Hb. unfold byte_ok in Hb. change 15 with (Z.ones 4).
  rewrite Z.land_ones, Z.shiftr_div_pow2 by lia. change (2 ^ 4) with 16.
  pose proof (Z.div_mod b 16). pose proof (Z.mod_pos_bound b 16). lia.
Qed.

Lemma encode_hex_cons b l : encode_hex (b :: l) = hex_char (Z.shiftr b 4) :: hex_char (Z.land b 15) :: encode_hex l.
Proof. done. Qed.

Lemma length_encode_hex l : length (encode_hex l) = (2 * length l)%nat.
Proof. induction l; [done|]. rewrite encode_hex_cons. simpl length. lia. Qed.

Lemma encode_hex_lower l : bytes_ok l -> forallb lower_hex (encode_hex l) = true.
Proof.
  induction 1 as [|b l Hb _ IH]; [done|]. rewrite encode_hex_cons. simpl.
  destruct (byte_nibbles b Hb) as (H1 & H2 & _).
  destruct (nibbles _ H1) as [-> _], (nibbles _ H2) as [-> _]. done.
Qed.

Lemma lower_hex_split s : forallb lower_hex s = true <->
  forallb is_ascii_hexdigit s = true /\ existsb is_ascii_uppercase s = false.
Proof.
  induction s as [|c s IH]; simpl; [done|]. unfold lower_hex at 1.
  rewrite !andb_true_iff, orb_false_iff, negb_true_iff, IH. tauto.
Qed.

Lemma hex_decompose s : forallb lower_hex s = true -> forall n, length s = (2 * n)%nat ->
  exists b, bytes_ok b /\ length b = n /\ s = encode_hex b.
Proof.
  intros Hs n. revert s Hs. induction n as [|n IH]; intros s Hs Hl.
  - exists []. destruct s; [done|simpl in Hl; lia].
  - destruct s as [|c [|d s]]; simpl in Hl; [lia|lia|]. simpl in Hs. to_prop.
    destruct (lower_hex_nibble c) as (h & Hh & ->); [done|].
    destruct (lower_hex_nibble d) as (k & Hk & ->); [done|].
    destruct (IH s) as (b & Hb & <- & ->); [done|lia|].
    assert (byte_ok (16 * h + k)) as Hok by (unfold byte_ok; lia).
    destruct (byte_nibbles _ Hok) as (? & ? & ?).
    exists (16 * h + k :: b). split_and!; [by constructor|done|].
    rewrite encode_hex_cons. f_equal; [|f_equal]; f_equal; lia.
Qed.

Lemma radix16_encode l acc : bytes_ok l ->
  radix16 acc (encode_hex l) = Some (256 ^ Z.of_nat (length l) * acc + of_be l).
Proof.
  intros Hl. revert acc. induction Hl as [|b l Hb _ IH]; intros acc.
  - simpl. f_equal. unfold of_be. simpl. lia.
  - rewrite encode_hex_cons. cbn [radix16]. destruct (byte_nibbles b Hb) as (H1 & H2 & H3).
    destruct (nibbles _ H1) as [_ ->], (nibbles _ H2) as [_ ->]. cbn [mbind option_bind].
    rewrite IH, of_be_cons. cbn [length]. rewrite pow256_succ. f_equal. nia.
Qed.

Lemma from_str_radix_encode l w : bytes_ok l -> l <> [] -> 8 * Z.of_nat (length l) <= w ->
  from_str_radix w (encode_hex l) = Some (of_be l).
Proof.
  intros Hl Hne Hw. destruct l as [|b l]; [done|]. unfold from_str_radix.
  rewrite encode_hex_cons at 1. rewrite radix16_encode by done. cbn [mbind option_bind].
  pose proof (of_be_bound _ Hl) as Hb. rewrite pow256 in Hb.
  assert (2 ^ (8 * Z.of_nat (length (b :: l))) <= 2 ^ w) by (apply Z.pow_le_mono_r; lia).
  rewrite (proj2 (Z.ltb_lt _ _)) by lia. f_equal. lia.
Qed.

Lemma hex_pairs_encode l : bytes_ok l -> hex_pairs (encode_hex l) = Ok l.
Proof.
  induction 1 as [|b l Hb Hl IH]; [done|]. rewrite encode_hex_cons. cbn [hex_pairs].
  change [hex_char (Z.shiftr b 4); hex_char (Z.land b 15)] with (encode_hex [b]).
  rewrite from_str_radix_encode; [|by apply Forall_singleton|done|simpl; lia].
  bind_simpl. rewrite IH. bind_simpl. done.
Qed.

(** [decode_hex] inverts [encode_hex] and accepts nothing else. *)
Lemma decode_hex_iff s b : decode_hex s = Ok b <-> bytes_ok b /\ s = encode_hex b.
Proof.
  unfold decode_hex. split.
  - destruct (negb _ || negb _) eqn:E; [done|]. to_prop.
    destruct (existsb _ s) eqn:E2; [done|].
    assert (forallb lower_hex s = true) as Hs by (by apply lower_hex_split).
    destruct (hex_decompose s Hs (Z.to_nat (blen s / 2))) as (c & Hc & _ & ->).
    { unfold blen in *. pose proof (Z.div_mod (Z.of_nat (length s)) 2). lia. }
    rewrite hex_pairs_encode by done. intros [= ->]. done.
  - intros [Hb ->]. pose proof (encode_hex_lower b Hb) as [-> ->]%lower_hex_split.
    assert (blen (encode_hex b) mod 2 = 0) as ->.
    { unfold blen. rewrite length_encode_hex, Nat2Z.inj_mul, Z.mul_comm. by apply Z.mod_mul. }
    by apply hex_pairs_encode.
Qed.

Definition float_digits (value : bytes) : bool :=
  negb (negb (blen value =? 16) || existsb is_ascii_uppercase value
    || negb (forallb is_ascii_hexdigit value)).

(** The 16 digits of a float are the hexadecimal of its bits. *)
Lemma fmt_016x_spec bits : in_u 64 bits ->
  float_digits (fmt_016x bits) = true /\ from_str_radix 64 (fmt_016x bits) = Some bits.
Proof.
  intros Hb. pose proof (to_be_ok 8 bits) as Hok. unfold float_digits, fmt_016x. split.
  - pose proof (encode_hex_lower _ Hok) as [-> ->]%lower_hex_split.
    unfold blen. by rewrite length_encode_hex, length_to_be.
  - rewrite from_str_radix_encode; [by rewrite of_to_be | done | done | by rewrite length_to_be].
Qed.

Lemma float_digits_inv s : float_digits s = true -> exists bits, in_u 64 bits /\
  s = fmt_016x bits.
Proof.
  unfold float_digits, fmt_016x. intros H. to_prop. unfold blen in *.
  destruct (hex_decompose s) with (n := 8%nat) as (b & Hb & Hl & ->);
    [by apply lower_hex_split | lia|].
  exists (of_be b). pose proof (of_be_bound b Hb) as Hbb. rewrite Hl in Hbb.
  split; [done|]. by rewrite <- Hl, to_of_be.
Qed.

(** ** The tagged envelope is a bijection *)

(** The invariants of Rust values: strings are UTF-8, bytes and floats are in
    range, and the sets are sorted. *)
Inductive id_ok : ExternalId -> Prop :=
| ok_null : id_ok Null
| ok_boolean b : id_ok (Boolean b)
| ok_integer s : str_ok s -> id_ok (Integer s)
| ok_float bits : in_u 64 bits -> id_ok (Float bits)
| ok_string s : str_ok s -> id_ok (Str s)
| ok_bytes b : bytes_ok b -> id_ok (Bytes b)
| ok_tuple l : Forall id_ok l -> id_ok (Tuple l)
| ok_frozen_set l : BTree.sorted_set id_cmp l -> Forall id_ok l -> id_ok (FrozenSet l).

Inductive value_ok `{JsonNumber} : Value -> Prop :=
| ok_vnull : value_ok VNull
| ok_vbool b : value_ok (VBool b)
| ok_vnumber n : value_ok (VNumber n)
| ok_vstring s : str_ok s -> value_ok (VString s)
| ok_varray l : Forall value_ok l -> value_ok (VArray l)
| ok_vobject o : BTree.sorted_map bytes_cmp o -> Forall (fun e => value_ok e.2) o ->
    value_ok (VObject o).

Lemma try_for_each_ok {A} (f : A -> result GraphError unit) l :
  try_for_each f l = Ok tt <-> Forall (fun x => f x = Ok tt) l.
Proof.
  induction l as [|x l IH]; simpl; [by split|]. rewrite Forall_cons, <- IH.
  destruct (f x) as [[]|e]; simpl; [tauto|]. split; [done | by intros [? _]].
Qed.

Lemma windows_sorted l : windows_increasing l = true <-> BTree.sorted_set id_cmp l.
Proof.
  split.
  - intros H. apply Sorted_StronglySorted; [intros x y z; apply (cmp_trans (cmp := id_cmp))|].
    induction l as [|x [|y l] IH]; [constructor|repeat constructor|].
    cbn [windows_increasing] in H. destruct (id_cmp x y) eqn:E; try done.
    constructor; [by apply IH|]. by constructor.
  - induction 1 as [|x [|y l] Hl IH Hx]; [done|done|]. cbn [windows_increasing].
    apply Forall_cons in Hx as [Hx _]. simpl in Hx. rewrite Hx. apply IH.
Qed.

Section CodecProofs.
Context `{JsonWriter}.

Lemma envelope_eq kind value : envelope kind value =
  VObject [(ENVELOPE, VObject ((lit "type", VString (lit kind)) ::
    match value with Some x => [(lit "value", x)] | None => [] end))].
Proof. by destruct value. Qed.

Lemma tagged_body_envelope recur kind value :
  tagged_body recur (envelope kind value) =
  let? identity := tagged_payload recur (lit kind) value in
  let? _ := validate identity in
  Ok identity.
Proof. by destruct value. Qed.

Lemma validate_iff self : validate self = Ok tt <->
  validate_depth self 0 = Ok tt /\
  exists b, to_vec (tagged_value self) = Ok b /\ blen b <= MAX_ENCODED_LEN.
Proof.
  unfold validate. destruct (validate_depth self 0) as [[]|e]; bind_simpl;
    [|split; [done | by intros [? _]]].
  destruct (to_vec (tagged_value self)) as [b|e].
  - destruct (Z.ltb_spec MAX_ENCODED_LEN (blen b)).
    + split; [done|]. intros (_ & ? & [= <-] & ?). lia.
    + split; [intros _; eauto | done].
  - split; [done | by intros (_ & ? & ? & _)].
Qed.

Lemma validate_depth_mono self d d' : d' <= d ->
  validate_depth self d = Ok tt -> validate_depth self d' = Ok tt.
Proof.
  revert d d'. induction self as [v Hv|l IH|l IH] using id_ind'; intros d d' Hd.
  1: assert (forall d, validate_depth v d =
       if MAX_DEPTH <? d then invalid ("identity nesting exceeds " +:+ fmt_dec MAX_DEPTH +:+ " levels")
       else match v with Integer s => validate_integer s | _ => Ok tt end) as E by (by destruct v);
     rewrite !E.
  2, 3: cbn [validate_depth].
  all: destruct (Z.ltb_spec MAX_DEPTH d), (Z.ltb_spec MAX_DEPTH d'); try done; try lia.
  all: rewrite !try_for_each_ok, !Forall_forall; intros Hl x Hx;
    rewrite Forall_forall in IH; apply (IH x Hx (d + 1)); [lia | by apply Hl].
Qed.

(** The members of an identity, and what its validity gives them. *)
Definition children (self : ExternalId) : list ExternalId :=
  match self with
  | Tuple l | FrozenSet l => l
  | _ => []
  end.

Lemma validate_child `{!JsonWriterLaws} self x :
  validate self = Ok tt -> x ∈ children self -> validate x = Ok tt.
Proof.
  rewrite !validate_iff. intros (Hd & b & Hb & Hlen) Hx.
  assert (exists kind, (self = Tuple (children self) \/ self = FrozenSet (children self)) /\
    tagged_value self = envelope kind (Some (VArray (map tagged_value (children self)))))
    as (kind & Hself & Ht).
  { destruct self; try (by inversion Hx); eauto. }
  split.
  - apply (validate_depth_mono _ 1); [lia|].
    assert (try_for_each (fun v => validate_depth v (0 + 1)) (children self) = Ok tt) as Hl.
    { destruct Hself as [E|E]; rewrite E in Hd; destruct self; try done. }
    rewrite try_for_each_ok, Forall_forall in Hl. by apply Hl.
  - rewrite Ht, envelope_eq in Hb.
    destruct (to_vec_member _ (VObject [(lit "type", VString (lit kind));
      (lit "value", VArray (map tagged_value (children self)))]) _ Hb) as (b1 & Hb1 & L1).
    { exists ENVELOPE. by apply list_elem_of_singleton. }
    destruct (to_vec_member _ (VArray (map tagged_value (children self))) _ Hb1) as (b2 & Hb2 & L2).
    { exists (lit "value"). rewrite !elem_of_cons. auto. }
    destruct (to_vec_member _ (tagged_value x) _ Hb2) as (b3 & Hb3 & L3).
    { simpl. apply list_elem_of_fmap. eauto. }
    exists b3. split; [done|]. lia.
Qed.

Lemma collect_recur {A B} (recur : A -> result GraphError B) (f : B -> A) l :
  Forall (fun x => recur (f x) = Ok x) l -> collect (map recur (map f l)) = Ok l.
Proof. induction 1 as [|x l Hx _ IH]; simpl; [done|]. by rewrite Hx, IH. Qed.

Lemma nesting_member x v : member x v -> (nesting x < nesting v)%nat.
Proof.
  destruct v; simpl; try done.
  - induction l as [|y l IH]; [by inversion 1|]. intros [->|Hx]%elem_of_cons; simpl; [lia|].
    specialize (IH Hx). lia.
  - induction o as [|y o IH]; [intros [k Hk]; by inversion Hk|].
    intros (k & [<-|Hx]%elem_of_cons); simpl; [lia|].
    assert (exists k, (k, x) ∈ o) as Ho by eauto. specialize (IH Ho). simpl in *. lia.
Qed.

(** The arrays whose items the recursive calls decode are below the value. *)
Lemma tagged_body_ext f g v :
  (forall x, (nesting x < nesting v)%nat -> f x = g x) -> tagged_body f v = tagged_body g v.
Proof.
  intros Hfg. unfold tagged_body. destruct v as [| | | | |outer]; try done.
  case_match; [done|]. destruct (BTree.get _ ENVELOPE outer) as [v|] eqn:E1; [|done].
  apply (BTree.get_in bytes_cmp) in E1.
  assert (nesting v < nesting (VObject outer))%nat as L1 by (apply nesting_member; simpl; eauto).
  destruct v as [| | | | |payload]; try done.
  destruct (BTree.get _ (lit "type") payload) as [[| | |kind| |]|]; try done.
  case_match; [done|]. f_equal.
  assert (forall (e : bytes * Value) m k, e ∈ BTree.remove bytes_cmp k m -> e ∈ m) as Hrem.
  { intros e m k. induction m as [|[k' v'] m IH]; simpl; [done|].
    destruct (bytes_cmp k k'); rewrite !elem_of_cons; tauto. }
  destruct (BTree.get _ (lit "value") _) as [w|] eqn:E2; [|done].
  apply (BTree.get_in bytes_cmp), Hrem in E2.
  assert (nesting w < nesting (VObject payload))%nat as L2 by (apply nesting_member; simpl; eauto).
  unfold tagged_payload. repeat (case_decide; [done|]).
  destruct w as [| | | |l|]; try done.
  assert (map f l = map g l) as ->; [|done].
  apply map_ext_in. intros x Hx. apply Hfg.
  assert (nesting x < nesting (VArray l))%nat by (apply nesting_member; simpl; by apply list_elem_of_In).
  lia.
Qed.

Lemma from_tagged_fuel v n : (nesting v <= n)%nat -> from_tagged n v = from_tagged_value v.
Proof.
  unfold from_tagged_value. revert v. induction n as [n IH] using lt_wf_ind. intros v Hn.
  destruct n as [|n]; [destruct v; simpl in Hn; lia|].
  destruct (nesting v) as [|m] eqn:E; [destruct v; simpl in E; lia|].
  cbn [from_tagged]. apply tagged_body_ext. intros x Hx.
  rewrite (IH n) by lia. destruct (decide (m = n)) as [->|Hmn].
  - rewrite (IH n); [done|lia|lia].
  - rewrite (IH m); [done|lia|lia].
Qed.

Lemma from_tagged_value_eq v : from_tagged_value v = tagged_body from_tagged_value v.
Proof.
  rewrite <- (from_tagged_fuel v (S (nesting v))) by lia. cbn [from_tagged].
  apply tagged_body_ext. intros x Hx. apply from_tagged_fuel. lia.
Qed.

(** A payload object with the fields the decoder accepts. *)
Lemma payload_shape (payload : list (bytes * Value)) t :
  BTree.sorted_map bytes_cmp payload ->
  BTree.get bytes_cmp (lit "type") payload = Some t ->
  let rest := BTree.remove bytes_cmp (lit "type") payload in
  BTree.remove bytes_cmp (lit "value") rest = [] ->
  payload = (lit "type", t) ::
    match BTree.get bytes_cmp (lit "value") rest with Some x => [(lit "value", x)] | None => [] end.
Proof.
  intros Hs Hg. destruct payload as [|[k1 v1] payload]; [done|].
  cbn [BTree.get BTree.remove] in *. destruct (bytes_cmp (lit "type") k1) eqn:E1.
  1: { injection Hg as ->. apply (cmp_eq (cmp := bytes_cmp)) in E1 as <-. intros Hr.
    destruct payload as [|[k2 v2] payload]; [done|]. cbn [BTree.get BTree.remove] in *.
    destruct (bytes_cmp (lit "value") k2) eqn:E2; try done.
    apply (cmp_eq (cmp := bytes_cmp)) in E2 as <-. by subst. }
  all: intros Hr; cbn [BTree.get BTree.remove] in Hr |- *.
  all: destruct (bytes_cmp (lit "value") k1) eqn:E2; try done.
  all: apply (cmp_eq (cmp := bytes_cmp)) in E2 as <-; try done.
  all: destruct payload as [|[k2 v2] payload]; try done.
  all: cbn [BTree.get BTree.remove] in Hg, Hr; destruct (bytes_cmp (lit "type") k2) eqn:E3; try done.
  all: apply (cmp_eq (cmp := bytes_cmp)) in E3 as <-.
  all: inversion Hs as [|? ? _ Hlt]; subst; by apply Forall_cons in Hlt as [? _].
Qed.

Definition decoded (v : Value) (id : ExternalId) : Prop :=
  id_ok id /\ validate id = Ok tt /\ v = tagged_value id.

Lemma decoded_items (recur : Value -> result GraphError ExternalId) l ids :
  (forall x id, value_ok x -> recur x = Ok id -> decoded x id) ->
  Forall value_ok l -> collect (map recur l) = Ok ids ->
  Forall id_ok ids /\ l = map tagged_value ids.
Proof.
  intros Hrec Hl. revert ids. induction Hl as [|x l Hx _ IH]; intros ids Hc; simpl in Hc.
  - injection Hc as <-. split; [constructor|done].
  - apply result_bind_ok in Hc as (a & Ha & Hc). apply result_bind_ok in Hc as (r & Hr & [= <-]).
    destruct (IH _ Hr) as [H1 ->]. destruct (Hrec _ _ Hx Ha) as (Ho & _ & ->).
    split; [by constructor|done].
Qed.

Lemma payload_sound recur kind value id :
  match value with Some v => value_ok v | None => True end ->
  (forall x id, value_ok x -> recur x = Ok id -> decoded x id) ->
  tagged_payload recur kind value = Ok id ->
  id_ok id /\ exists k, kind = lit k /\ tagged_value id = envelope k value.
Proof.
  intros Hv Hrec. unfold tagged_payload.
  repeat case_decide; destruct value as [[| | |s|l|]|]; try done; try (inversion Hv; subst; clear Hv).
  - intros [= <-]. split; [constructor|]. by exists "null"%string.
  - intros [= <-]. split; [constructor|]. by exists "boolean"%string.
  - intros (u & Hu & [= <-])%result_bind_ok. split; [by constructor|]. by exists "integer"%string.
  - destruct (negb _ || _ || _) eqn:E; [done|].
    assert (float_digits s = true) as (bits & Hb & ->)%float_digits_inv
      by (unfold float_digits; by rewrite E).
    destruct (fmt_016x_spec bits Hb) as [_ ->].
    intros [= <-]. split; [by constructor|]. by exists "float"%string.
  - intros [= <-]. split; [by constructor|]. by exists "string"%string.
  - intros (b & [Hb ->]%decode_hex_iff & [= <-])%result_bind_ok.
    split; [by constructor|]. by exists "bytes"%string.
  - intros (ids & Hi & [= <-])%result_bind_ok.
    edestruct decoded_items as [Hids ->]; [done|done|done|].
    split; [by constructor|]. by exists "tuple"%string.
  - intros (ids & Hi & Hset)%result_bind_ok. simpl in Hset.
    edestruct decoded_items as [Hids ->]; [done|done|done|].
    destruct (negb _ || _) eqn:E in Hset; [done|]. injection Hset as <-. to_prop.
    assert (BTree.sorted_set id_cmp ids) as Hs by (by apply windows_sorted).
    rewrite (BTree.set_from_iter_id id_cmp ids Hs).
    split; [by constructor|]. by exists "frozenset"%string.
Qed.

Lemma from_tagged_sound n v id : value_ok v -> from_tagged n v = Ok id -> decoded v id.
Proof.
  revert v id. induction n as [|n IH]; intros v id Hv; [done|]. cbn [from_tagged].
  unfold tagged_body. destruct v as [| | | | |outer]; try done.
  destruct (Nat.eqb_spec (length outer) 1) as [Hl|]; [|done]. cbn [negb].
  destruct outer as [|[k p] [|]]; try done. clear Hl.
  inversion Hv as [| | | | |? _ Ho]; subst. apply Forall_cons in Ho as [Hp _]. simpl in Hp.
  cbn [BTree.get]. destruct (bytes_cmp ENVELOPE k) eqn:E; try done.
  apply (cmp_eq (cmp := bytes_cmp)) in E as <-. destruct p as [| | | | |payload]; try done.
  inversion Hp as [| | | | |? Hs Hpay]; subst.
  destruct (BTree.get bytes_cmp (lit "type") payload) as [[| | |kind| |]|] eqn:Et; try done.
  destruct (Nat.eqb_spec (length (BTree.remove bytes_cmp (lit "value")
    (BTree.remove bytes_cmp (lit "type") payload))) 0) as [Hr|]; [|done].
  apply nil_length_inv in Hr. cbn [negb]. intros Hid.
  apply result_bind_ok in Hid as (id' & Hid & (u & Hval & [= ->])%result_bind_ok). destruct u.
  pose proof (payload_shape _ _ Hs Et Hr) as Hshape.
  apply payload_sound in Hid as (Hok & name & -> & Htag); [|clear Hid|by apply IH].
  - split_and!; [done|done|]. by rewrite Htag, envelope_eq, <- Hshape.
  - destruct (BTree.get _ (lit "value") _) as [x|] eqn:Ex; [|done]. rewrite Hshape in Hpay.
    apply Forall_cons in Hpay as [_ Hpay]. apply Forall_cons in Hpay as [Hx _]. done.
Qed.

Lemma from_tagged_complete `{!JsonWriterLaws} id :
  id_ok id -> validate id = Ok tt -> from_tagged_value (tagged_value id) = Ok id.
Proof.
  induction id as [v Hv|l IH|l IH] using id_ind'; intros Hok Hval;
    rewrite from_tagged_value_eq; inversion Hok; subst; try done; cbn [tagged_value];
    rewrite tagged_body_envelope; unfold tagged_payload;
    repeat (case_decide; [try done|]); try done; bind_simpl.
  all: try (by rewrite Hval).
  all: pose proof Hval as Hval0; apply validate_iff in Hval0 as [Hd _].
  - cbn in Hd. unfold integer. rewrite Hd. bind_simpl. by rewrite Hval.
  - destruct (fmt_016x_spec bits) as [Hf Hr]; [done|]. unfold float_digits in Hf.
    apply negb_true_iff in Hf. rewrite Hf, Hr. bind_simpl. by rewrite Hval.
  - rewrite (proj2 (decode_hex_iff _ _)) by done. bind_simpl. by rewrite Hval.
  - rewrite collect_recur; [bind_simpl; by rewrite Hval|].
    rewrite Forall_forall in *. intros x Hx. apply IH; [done|by auto|].
    by apply (validate_child (Tuple l)).
  - rewrite collect_recur.
    + bind_simpl. rewrite (BTree.set_from_iter_id id_cmp l) by done.
      rewrite Nat.eqb_refl, (proj2 (windows_sorted l)) by done. simpl. by rewrite Hval.
    + rewrite Forall_forall in *. intros x Hx. apply IH; [done|by auto|].
      by apply (validate_child (FrozenSet l)).
Qed.

Lemma ascii_ok s : forallb (between 0 127) s = true -> str_ok s.
Proof.
  intros Ha. split.
  - induction s as [|b s IH]; [constructor|]. simpl in Ha. to_prop. unfold between in *. to_prop.
    constructor; [unfold byte_ok; lia | by apply IH].
  - induction s as [|b s IH]; [done|]. simpl in Ha. to_prop. unfold between in *. to_prop.
    simpl. rewrite (proj2 (Z.ltb_lt b 128)) by lia. auto.
Qed.

Lemma hex_ok b : bytes_ok b -> str_ok (encode_hex b).
Proof.
  intros Hb. apply ascii_ok. pose proof (encode_hex_lower b Hb) as Hx.
  induction (encode_hex b) as [|c s IH]; [done|]. simpl in *. to_prop.
  rewrite IH by done. rewrite andb_true_r. unfold lower_hex, is_ascii_hexdigit, between in *.
  to_prop. rewrite !orb_true_iff, !andb_true_iff, !Z.leb_le in *. lia.
Qed.

Lemma envelope_ok kind value :
  forallb (between 0 127) (lit kind) = true ->
  match value with Some v => value_ok v | None => True end -> value_ok (envelope kind value).
Proof.
  intros Hk Hv. rewrite envelope_eq. constructor; [repeat constructor|].
  apply Forall_singleton. simpl. constructor.
  - destruct value; repeat constructor.
  - constructor; [constructor; by apply ascii_ok|]. destruct value; [|constructor].
    by apply Forall_singleton.
Qed.

Lemma tagged_value_ok id : id_ok id -> value_ok (tagged_value id).
Proof.
  induction id as [v Hv|l IH|l IH] using id_ind'; intros Hok; inversion Hok; subst; try done;
    apply envelope_ok; try done; constructor; try done.
  - apply hex_ok, to_be_ok.
  - by apply hex_ok.
  - apply Forall_fmap. rewrite Forall_forall in *. unfold compose. auto.
  - apply Forall_fmap. rewrite Forall_forall in *. unfold compose. auto.
Qed.

(** [C20] The tagged envelope is a bijection between valid identities and the
    JSON values [from_tagged_value] accepts: it decodes a value exactly when
    the value is the canonical envelope of a valid identity, and to that
    identity. Its recursion is bounded by the nesting of the value. *)
Theorem tagged_codec_exact `{!JsonWriterLaws} (v : Value) (id : ExternalId) :
  value_ok v ->
  from_tagged_value v = tagged_body from_tagged_value v /\
  (from_tagged_value v = Ok id <-> id_ok id /\ validate id = Ok tt /\ v = tagged_value id).
Proof.
  intros Hv. split; [apply from_tagged_value_eq|]. split.
  - by apply from_tagged_sound.
  - intros (Hok & Hval & ->). by apply from_tagged_complete.
Qed.

(** Identities are totally ordered with equality as Rust's derived
    equality, and a frozen set is a canonical identity: it depends only on which
    members it is given, not on their order or repetition, and keeps exactly
    those members. *)
Theorem frozen_set_canonical (l l' : list ExternalId) (id : ExternalId) :
  StrictCompare id_cmp /\
  ((forall x, x ∈ l <-> x ∈ l') -> frozen_set l = frozen_set l') /\
  (frozen_set l = Ok id -> exists s, id = FrozenSet s /\ BTree.sorted_set id_cmp s /\
     (forall x, x ∈ s <-> x ∈ l) /\ validate id = Ok tt).
Proof.
  split_and!; [apply _| |].
  - intros He. unfold frozen_set.
    enough (BTree.set_from_iter id_cmp l = BTree.set_from_iter id_cmp l') as -> by done.
    apply (BTree.sorted_set_ext id_cmp); try apply BTree.set_from_iter_sorted; try apply _.
    intros x. by rewrite !(BTree.in_set_from_iter id_cmp).
  - unfold frozen_set. intros (u & Hv & [= <-])%result_bind_ok. destruct u.
    eexists. split_and!; [done | apply BTree.set_from_iter_sorted; apply _ | | done].
    intros x. by apply (BTree.in_set_from_iter id_cmp).
Qed.

End CodecProofs.

(** ** A concrete JSON writer *)

Module Json.
(** The only number is [0]. *)
#[local] Instance number : JsonNumber := {|
  Number := unit; is_i64 := fun _ => true; is_u64 := fun _ => true;
  number_to_string := fun _ => lit "0"; as_f64 := fun _ => None |}.

(** Compact JSON, without the escapes in strings. *)
Fixpoint text (v : Value) : bytes :=
  match v with
  | VNull => lit "null"
  | VBool b => lit (if b then "true" else "false")
  | VNumber n => number_to_string n
  | VString s => [34] ++ s ++ [34]
  | VArray l => [91] ++ flat_map (fun x => text x ++ [44]) l ++ [93]
  | VObject o => [123] ++ flat_map (fun e => [34] ++ e.1 ++ [34; 58] ++ text e.2 ++ [44]) o ++ [125]
  end.

#[local] Instance writer : JsonWriter := {| to_vec := fun v => Ok (text v) |}.

Lemma flat_map_length {A} (f : A -> bytes) (n : nat) x l :
  x ∈ l -> (n <= length (f x))%nat -> (n <= length (flat_map f l))%nat.
Proof.
  induction l as [|y l IH]; [by inversion 1|]. simpl. rewrite length_app.
  intros [->|Hx]%elem_of_cons Hn; [lia|]. specialize (IH Hx Hn). lia.
Qed.

#[local] Instance writer_laws : JsonWriterLaws.
Proof.
  split. intros v x b [= <-] Hx. exists (text x). split; [done|]. unfold blen.
  enough (length (text x) <= length (text v))%nat by lia.
  destruct v as [| | | |l|o]; try done; cbn [text]; rewrite !length_app.
  - pose proof (flat_map_length (fun x => text x ++ [44]) (length (text x)) x l Hx) as H.
    cbv beta in H. rewrite length_app in H. lia.
  - destruct Hx as [k Hk].
    pose proof (flat_map_length (fun e => [34] ++ e.1 ++ [34; 58] ++ text e.2 ++ [44])
      (length (text x)) (k, x) o Hk) as H. cbv beta in H. cbn [fst snd] in H.
    rewrite !length_app in H. lia.
Qed.
End Json.

Definition sample_id : ExternalId :=
  Tuple [Integer (lit "-17"); Float 0x3ff0000000000000; Bytes [0; 255];
         FrozenSet [Null; Boolean true; Str (lit "a")]].

Lemma tagged_codec_exact_witness :
  let _ := Json.number in let _ := Json.writer in
  value_ok (tagged_value sample_id) /\
  from_tagged_value (tagged_value sample_id) = Ok sample_id.
Proof.
  cbv zeta.
  assert (Hid : id_ok sample_id).
  { repeat first [constructor | split]; done. }
  assert (Hv : @value_ok Json.number (@tagged_value Json.number sample_id)).
  { by apply tagged_value_ok. }
  split; [exact Hv|].
  apply (@tagged_codec_exact Json.number Json.writer Json.writer_laws
    (@tagged_value Json.number sample_id) sample_id Hv).
  split; [exact Hid|]. split; [vm_compute; reflexivity|reflexivity].
Defined.

Lemma frozen_set_canonical_witness :
  let _ := Json.number in let _ := Json.writer in
  (forall x, x ∈ [Null; Str []; Null] <-> x ∈ [Str []; Null]) /\
  frozen_set [Null; Str []; Null] = frozen_set [Str []; Null].
Proof.
  cbv zeta.
  assert (He : forall x, x ∈ [Null; Str []; Null] <-> x ∈ [Str []; Null]).
  { intros x. rewrite !elem_of_cons. tauto. }
  split; [exact He|].
  exact (proj1 (proj2 (@frozen_set_canonical Json.number Json.writer
    [Null; Str []; Null] [Str []; Null] Null)) He).
Defined.

End ExternalId.
