(* ===== verification/Graph.v ===== *)
(** The validated graph: crates/graph-algorithms/src/model.rs.

    Construction ([Graph::with_attributes]) with its ordered node and edge
    tables, index maps and compressed adjacency rows, and the arc iterators all
    algorithms read it through. A [usize] index is a [nat]; indexing out of
    range panics in Rust and is [None] here, so a result [Some _] says the code
    does not panic. Weights are [f64] bits. *)
From S2P Require Import Prelude Bytes BTree ExternalId.

Open Scope Z_scope.

#[local] Set Warnings "-register-all".

Module Graph.
Export ExternalId.

Section Model.
Context {JN : JsonNumber} {JW : JsonWriter}.

(** ** Records *)

Definition Attributes : Type := list (bytes * Value).

Record Node := {
  node_key : ExternalId;
  node_label : option bytes;
  node_attributes : Attributes;
}.

Record Edge := {
  edge_id : EdgeId;
  graphify_key : option ExternalId;
  source : ExternalId;
  target : ExternalId;
  label : option bytes;
  weight : option Z;
  attributes : Attributes;
}.

Record ArcRef := { neighbor : nat; arc_edge : nat }.

Record Csr := { offsets : list nat; csr_arcs : list ArcRef }.

Record GraphInner := {
  kind : GraphKind;
  graph_attributes : Attributes;
  nodes : list Node;
  edges : list Edge;
  node_indexes : list (ExternalId * nat);
  edge_indexes : list (EdgeId * nat);
  outgoing_csr : Csr;
  incoming_csr : Csr;
}.

(** ** Compressed rows *)

(** [Csr::from_rows]. *)
Definition from_rows (rows : list (list ArcRef)) : Csr :=
  fold_left (fun csr row =>
    let arcs := csr_arcs csr ++ row in
    {| offsets := offsets csr ++ [length arcs]; csr_arcs := arcs |})
    rows {| offsets := [0%nat]; csr_arcs := [] |}.

(** [Csr::row]: both index reads and the slice may panic. *)
Definition row (csr : Csr) (node : nat) : option (list ArcRef) :=
  start ← offsets csr !! node;
  stop ← offsets csr !! S node;
  if (Nat.leb start stop && Nat.leb stop (length (csr_arcs csr)))%bool then
    Some (take (stop - start) (drop start (csr_arcs csr)))
  else None.

(** ** Arc order *)

(** The derived [Ord] of [Option<ExternalId>]. *)
Definition option_cmp (a b : option ExternalId) : comparison :=
  match a, b with
  | None, None => Eq
  | None, Some _ => Lt
  | Some _, None => Gt
  | Some a, Some b => id_cmp a b
  end.

Definition compare_arcs (nodes : list Node) (edges : list Edge) (left right : ArcRef)
    : option comparison :=
  ln ← nodes !! neighbor left;
  rn ← nodes !! neighbor right;
  match id_cmp (node_key ln) (node_key rn) with
  | Eq =>
      le ← edges !! arc_edge left;
      re ← edges !! arc_edge right;
      Some (then_with (option_cmp (graphify_key le) (graphify_key re))
        (edge_id_cmp (edge_id le) (edge_id re)))
  | o => Some o
  end.

(** ** Construction *)

(** [f64::is_finite] and [weight < 0.0]. *)
Definition is_finite (bits : Z) : bool := negb ((bits / 2 ^ 52) mod 2 ^ 11 =? 2047).
Definition lt_zero (bits : Z) : bool := (2 ^ 63 <? bits) && (bits <=? 2 ^ 63 + 2047 * 2 ^ 52).

Fixpoint build_node_map (nodes : list Node) (node_map : list (ExternalId * Node))
    : result GraphError (list (ExternalId * Node)) :=
  match nodes with
  | [] => Ok node_map
  | node :: nodes =>
      let? _ := validate (node_key node) in
      match BTree.get id_cmp (node_key node) node_map with
      | Some _ => Err (DuplicateNode (node_key node))
      | None => build_node_map nodes (BTree.insert id_cmp (node_key node) node node_map)
      end
  end.

Definition enumerate {A K} (key : A -> K) (l : list A) : list (K * nat) :=
  imap (fun index x => (key x, index)) l.

(** The checks made on one edge before it is inserted. *)
Definition check_edge (node_indexes : list (ExternalId * nat)) (edge : Edge) : result GraphError unit :=
  if negb (is_valid (edge_id edge)) then Err EmptyEdgeId
  else match BTree.get id_cmp (source edge) node_indexes with
  | None => Err (MissingEndpoint (edge_id edge) "source" (source edge))
  | Some _ =>
      match BTree.get id_cmp (target edge) node_indexes with
      | None => Err (MissingEndpoint (edge_id edge) "target" (target edge))
      | Some _ =>
          match weight edge with
          | Some weight =>
              if negb (is_finite weight) || lt_zero weight then
                Err (InvalidWeight (edge_id edge) weight)
              else Ok tt
          | None => Ok tt
          end
      end
  end.

Fixpoint build_edge_map (node_indexes : list (ExternalId * nat)) (edges : list Edge)
    (edge_map : list (EdgeId * Edge)) : result GraphError (list (EdgeId * Edge)) :=
  match edges with
  | [] => Ok edge_map
  | edge :: edges =>
      let? _ := check_edge node_indexes edge in
      match BTree.get edge_id_cmp (edge_id edge) edge_map with
      | Some _ => Err (DuplicateEdge (edge_id edge))
      | None =>
          build_edge_map node_indexes edges (BTree.insert edge_id_cmp (edge_id edge) edge edge_map)
      end
  end.

Definition pair_cmp (a b : ExternalId * ExternalId) : comparison :=
  then_with (id_cmp a.1 b.1) (id_cmp a.2 b.2).

Definition endpoint_pair (directed : bool) (edge : Edge) : ExternalId * ExternalId :=
  if directed || match id_cmp (source edge) (target edge) with Gt => false | _ => true end then
    (source edge, target edge)
  else (target edge, source edge).

Fixpoint check_parallel (kind : GraphKind) (edges : list Edge)
    (endpoint_pairs : list (ExternalId * ExternalId)) : result GraphError unit :=
  match edges with
  | [] => Ok tt
  | edge :: edges =>
      let pair := endpoint_pair (is_directed kind) edge in
      if BTree.contains pair_cmp pair endpoint_pairs then
        Err (ParallelEdge kind pair.1 pair.2)
      else check_parallel kind edges (BTree.set_insert pair_cmp pair endpoint_pairs)
  end.

(** [rows[index].push(arc)]. *)
Definition push_row (rows : list (list ArcRef)) (index : nat) (arc : ArcRef)
    : option (list (list ArcRef)) :=
  row ← rows !! index;
  Some (<[index := row ++ [arc]]> rows).

Fixpoint fill_rows (node_indexes : list (ExternalId * nat)) (edges : list Edge) (edge_index : nat)
    (outgoing_rows incoming_rows : list (list ArcRef))
    : option (list (list ArcRef) * list (list ArcRef)) :=
  match edges with
  | [] => Some (outgoing_rows, incoming_rows)
  | edge :: edges =>
      source ← BTree.get id_cmp (source edge) node_indexes;
      target ← BTree.get id_cmp (target edge) node_indexes;
      outgoing_rows ← push_row outgoing_rows source {| neighbor := target; arc_edge := edge_index |};
      incoming_rows ← push_row incoming_rows target {| neighbor := source; arc_edge := edge_index |};
      fill_rows node_indexes edges (S edge_index) outgoing_rows incoming_rows
  end.

(** The adjacency of [with_attributes], from the ordered tables. *)
Definition build_rows (nodes : list Node) (edges : list Edge)
    (node_indexes : list (ExternalId * nat)) : option (Csr * Csr) :=
  rows ← fill_rows node_indexes edges 0 (replicate (length nodes) []) (replicate (length nodes) []);
  outgoing ← mapM (BTree.sort_by_opt (compare_arcs nodes edges)) rows.1;
  incoming ← mapM (BTree.sort_by_opt (compare_arcs nodes edges)) rows.2;
  Some (from_rows outgoing, from_rows incoming).

(** [Graph::with_attributes]. *)
Definition with_attributes (kind : GraphKind) (graph_attributes : Attributes)
    (nodes : list Node) (edges : list Edge) : option (result GraphError GraphInner) :=
  match build_node_map nodes [] with
  | Err e => Some (Err e)
  | Ok node_map =>
      let nodes := map snd node_map in
      let node_indexes := BTree.from_iter id_cmp (enumerate node_key nodes) in
      match build_edge_map node_indexes edges [] with
      | Err e => Some (Err e)
      | Ok edge_map =>
          let edges := map snd edge_map in
          match (if is_multigraph kind then Ok tt else check_parallel kind edges []) with
          | Err e => Some (Err e)
          | Ok _ =>
              let edge_indexes := BTree.from_iter edge_id_cmp (enumerate edge_id edges) in
              csrs ← build_rows nodes edges node_indexes;
              Some (Ok {|
                kind := kind; graph_attributes := graph_attributes; nodes := nodes; edges := edges;
                node_indexes := node_indexes; edge_indexes := edge_indexes;
                outgoing_csr := csrs.1; incoming_csr := csrs.2 |})
          end
      end
  end.

(** ** Accessors *)

Definition node_count (self : GraphInner) : nat := length (nodes self).
Definition edge_count (self : GraphInner) : nat := length (edges self).

Definition node_index (self : GraphInner) (id : ExternalId) : result GraphError nat :=
  ok_or (BTree.get id_cmp id (node_indexes self)) (UnknownNode id).
Definition node_id (self : GraphInner) (index : nat) : option ExternalId :=
  node_key <$> nodes self !! index.
Definition edge_at (self : GraphInner) (index : nat) : option Edge := edges self !! index.
Definition node (self : GraphInner) (id : ExternalId) : option (option Node) :=
  match BTree.get id_cmp id (node_indexes self) with
  | None => Some None
  | Some index => Some <$> nodes self !! index
  end.
Definition edge (self : GraphInner) (id : EdgeId) : option (option Edge) :=
  match BTree.get edge_id_cmp id (edge_indexes self) with
  | None => Some None
  | Some index => Some <$> edges self !! index
  end.
Definition contains_node (self : GraphInner) (id : ExternalId) : bool :=
  if BTree.get id_cmp id (node_indexes self) then true else false.
Definition contains_edge (self : GraphInner) (id : EdgeId) : bool :=
  if BTree.get edge_id_cmp id (edge_indexes self) then true else false.
Definition outgoing (self : GraphInner) (node : nat) : option (list ArcRef) :=
  row (outgoing_csr self) node.
Definition incoming (self : GraphInner) (node : nat) : option (list ArcRef) :=
  row (incoming_csr self) node.

(** ** Arc iterators *)

(** traversal.rs: [TraversalDirection]. *)
Inductive TraversalDirection := Out | In | Both.

Inductive ArcIter :=
| One (arcs : list ArcRef)
| Merge (node : nat) (outgoing incoming : list ArcRef) (outgoing_index incoming_index : nat).

(** The loop that steps over incoming self-loops, on what follows the index. *)
Fixpoint skip_loops (node : nat) (rest : list ArcRef) (incoming_index : nat) : nat :=
  match rest with
  | arc :: rest =>
      if Nat.eqb (neighbor arc) node then skip_loops node rest (S incoming_index) else incoming_index
  | [] => incoming_index
  end.

(** [ArcIter::next]. *)
Definition next (graph : GraphInner) (self : ArcIter) : option (option ArcRef * ArcIter) :=
  match self with
  | One [] => Some (None, One [])
  | One (arc :: arcs) => Some (Some arc, One arcs)
  | Merge node outgoing incoming outgoing_index incoming_index =>
      let incoming_index := skip_loops node (drop incoming_index incoming) incoming_index in
      let take_left left_ :=
        Some (Some left_, Merge node outgoing incoming (S outgoing_index) incoming_index) in
      let take_right right_ :=
        Some (Some right_, Merge node outgoing incoming outgoing_index (S incoming_index)) in
      match outgoing !! outgoing_index, incoming !! incoming_index with
      | Some left_, Some right_ =>
          o ← compare_arcs (nodes graph) (edges graph) left_ right_;
          match o with
          | Gt => take_right right_
          | _ => take_left left_
          end
      | Some left_, None => take_left left_
      | None, Some right_ => take_right right_
      | None, None => Some (None, Merge node outgoing incoming outgoing_index incoming_index)
      end
  end.

(** All arcs an iterator yields; [None] also when the fuel runs out. *)
Fixpoint drain (fuel : nat) (graph : GraphInner) (self : ArcIter) : option (list ArcRef) :=
  match fuel with
  | O => None
  | S fuel =>
      step ← next graph self;
      match step with
      | (None, _) => Some []
      | (Some arc, self) => rest ← drain fuel graph self; Some (arc :: rest)
      end
  end.

(** [Graph::arcs]. *)
Definition arc_iter (self : GraphInner) (node : nat) (direction : TraversalDirection)
    : option ArcIter :=
  let direction := if is_directed (kind self) then direction else Both in
  match direction with
  | Out => One <$> outgoing self node
  | In => One <$> incoming self node
  | Both =>
      outgoing ← outgoing self node;
      incoming ← incoming self node;
      Some (Merge node outgoing incoming 0 0)
  end.

Definition arcs (self : GraphInner) (node : nat) (direction : TraversalDirection)
    : option (list ArcRef) :=
  iter ← arc_iter self node direction;
  let bound := match iter with
               | One arcs => length arcs
               | Merge _ outgoing incoming _ _ => (length outgoing + length incoming)%nat
               end in
  drain (S bound) self iter.

(** ** Ordered tables

    [build_node_map] and [build_edge_map] are one loop: check, then insert
    under a fresh key. *)

Definition keyed {A K} (key : A -> K) (l : list A) : list (K * A) := map (fun x => (key x, x)) l.

Fixpoint build_map {A K} (cmp : K -> K -> comparison) (key : A -> K)
    (check : A -> result GraphError unit) (duplicate : K -> GraphError)
    (l : list A) (m : list (K * A)) : result GraphError (list (K * A)) :=
  match l with
  | [] => Ok m
  | x :: l =>
      let? _ := check x in
      match BTree.get cmp (key x) m with
      | Some _ => Err (duplicate (key x))
      | None => build_map cmp key check duplicate l (BTree.insert cmp (key x) x m)
      end
  end.

Lemma build_node_map_eq l m : build_node_map l m =
  build_map id_cmp node_key (fun n => validate (node_key n)) DuplicateNode l m.
Proof.
  revert m. induction l as [|x l IH]; intros m; simpl; [done|].
  destruct (validate _); simpl; [|done]. by destruct (BTree.get _ _ _).
Qed.

Lemma build_edge_map_eq idx l m : build_edge_map idx l m =
  build_map edge_id_cmp edge_id (check_edge idx) DuplicateEdge l m.
Proof.
  revert m. induction l as [|x l IH]; intros m; simpl; [done|].
  destruct (check_edge _ _); simpl; [|done]. by destruct (BTree.get _ _ _).
Qed.

Section BuildMap.
Context {A K : Type} (cmp : K -> K -> comparison) `{!StrictCompare cmp} (key : A -> K)
  (check : A -> result GraphError unit) (duplicate : K -> GraphError).

Lemma keyed_fst l : (keyed key l).*1 = map key l.
Proof. unfold keyed. induction l as [|x l IH]; [done|]. csimpl. by f_equal. Qed.

Lemma build_map_sound l m m' : BTree.sorted_map cmp m ->
  build_map cmp key check duplicate l m = Ok m' ->
  BTree.sorted_map cmp m' /\ m' ≡ₚ m ++ keyed key l /\ Forall (fun x => check x = Ok tt) l.
Proof.
  revert m. induction l as [|x l IH]; intros m Hm; simpl.
  - intros [= <-]. by rewrite app_nil_r.
  - destruct (check x) as [[]|] eqn:Ec; [|done]. simpl.
    destruct (BTree.get cmp (key x) m) eqn:Eg; [done|]. intros Hb.
    destruct (IH _ (BTree.insert_sorted cmp _ _ _ Hm) Hb) as (H1 & H2 & H3).
    split_and!; [done| |by constructor]. rewrite H2, (BTree.insert_perm cmp) by done.
    simpl. by rewrite <- Permutation_middle.
Qed.

Lemma build_map_complete l m : BTree.sorted_map cmp m ->
  Forall (fun x => check x = Ok tt) l -> NoDup (m.*1 ++ map key l) ->
  exists m', build_map cmp key check duplicate l m = Ok m'.
Proof.
  intros Hm Hl. revert m Hm. induction Hl as [|x l Hx _ IH]; intros m Hm Hnd; simpl; [eauto|].
  rewrite Hx. simpl. simpl in Hnd. apply NoDup_app in Hnd as (H1 & H2 & H3).
  apply NoDup_cons in H3 as [H3 H4].
  assert (BTree.get cmp (key x) m = None) as Hg.
  { apply (BTree.get_none cmp). intros Hk. apply (H2 _ Hk). left. }
  rewrite Hg. apply IH; [by apply BTree.insert_sorted|].
  rewrite (BTree.insert_perm cmp) by done. csimpl. apply NoDup_cons. split.
  - rewrite not_elem_of_app. split; [by apply (BTree.get_none cmp)|done].
  - apply NoDup_app. split_and!; [done| |done]. intros y Hy Hy'. apply (H2 y Hy). by right.
Qed.

(** What the tables built from scratch hold. *)
Lemma build_map_table l m' : build_map cmp key check duplicate l [] = Ok m' ->
  BTree.sorted_set cmp (map key (map snd m')) /\ map snd m' ≡ₚ l /\
  Forall (fun x => check x = Ok tt) l.
Proof.
  intros Hb. destruct (build_map_sound l [] m') as (H1 & H2 & H3); [constructor|done|].
  simpl in H2. assert (map key (map snd m') = m'.*1) as E.
  { assert (Forall (fun e => key e.2 = e.1) m') as Hf.
    { rewrite H2. unfold keyed. apply Forall_fmap, Forall_forall. done. }
    clear H1 H2 Hb. induction Hf as [|e m' He _ IH]; [done|]. csimpl. by rewrite He, IH. }
  split_and!; [|rewrite H2; unfold keyed; rewrite map_map; simpl; by rewrite map_id|done].
  rewrite E. by apply (BTree.sorted_map_fst cmp).
Qed.

Lemma table_total l : (exists m', build_map cmp key check duplicate l [] = Ok m') <->
  Forall (fun x => check x = Ok tt) l /\ NoDup (map key l).
Proof.
  split.
  - intros [m' Hm]. destruct (build_map_table l m' Hm) as (H1 & H2 & H3). split; [done|].
    rewrite <- H2. by apply (BTree.sorted_set_nodup cmp).
  - intros [H1 H2]. apply build_map_complete; [constructor|done|done].
Qed.

(** Tables with the same records are equal. *)
Lemma table_unique (l l' : list A) :
  BTree.sorted_set cmp (map key l) -> BTree.sorted_set cmp (map key l') -> l ≡ₚ l' -> l = l'.
Proof.
  intros H1 H2 Hp. assert (map key l = map key l') as E.
  { apply (BTree.sorted_set_ext cmp); [done|done|]. intros x. by rewrite Hp. }
  assert (NoDup (map key l')) as Hnd by (by apply (BTree.sorted_set_nodup cmp)).
  clear H1 H2. revert l' Hp E Hnd. induction l as [|x l IH]; intros [|y l'] Hp E Hnd; try done.
  simpl in E, Hnd. injection E as E1 E2. apply NoDup_cons in Hnd as [Hy Hnd].
  assert (x = y) as <-.
  { assert (x ∈ y :: l') as [->|Hx]%elem_of_cons by (rewrite <- Hp; left); [done|].
    exfalso. apply Hy. rewrite <- E1. apply list_elem_of_fmap. eauto. }
  f_equal. apply IH; [by apply Permutation_cons_inv in Hp|done|done].
Qed.

Lemma in_enumerate (l : list A) k i : (k, i) ∈ enumerate key l <-> exists x, l !! i = Some x /\ key x = k.
Proof.
  unfold enumerate. rewrite list_elem_of_lookup. split.
  - intros (j & Hj). rewrite list_lookup_imap in Hj. destruct (l !! j) as [x|] eqn:E; [|done].
    injection Hj as <- <-. eauto.
  - intros (x & Hx & <-). exists i. by rewrite list_lookup_imap, Hx.
Qed.

Lemma enumerate_fst (l : list A) : (enumerate key l).*1 = map key l.
Proof.
  apply list_eq. intros i. unfold enumerate. rewrite list_lookup_fmap, list_lookup_imap.
  change (map key l) with (key <$> l). rewrite list_lookup_fmap. by destruct (l !! i).
Qed.

Lemma index_spec (l : list A) k i : BTree.sorted_set cmp (map key l) ->
  BTree.get cmp k (BTree.from_iter cmp (enumerate key l)) = Some i <->
  exists x, l !! i = Some x /\ key x = k.
Proof.
  intros Hs. rewrite (BTree.get_from_iter cmp); [apply in_enumerate|].
  rewrite enumerate_fst. by apply (BTree.sorted_set_nodup cmp).
Qed.
End BuildMap.

(** ** Adjacency rows *)

Lemma from_rows_snoc rows r : from_rows (rows ++ [r]) =
  {| offsets := offsets (from_rows rows) ++ [length (csr_arcs (from_rows rows) ++ r)];
     csr_arcs := csr_arcs (from_rows rows) ++ r |}.
Proof. unfold from_rows. by rewrite fold_left_app. Qed.

Lemma from_rows_spec rows :
  csr_arcs (from_rows rows) = concat rows /\ length (offsets (from_rows rows)) = S (length rows) /\
  forall n, (n <= length rows)%nat ->
    offsets (from_rows rows) !! n = Some (length (concat (take n rows))).
Proof.
  induction rows as [|r rows IH] using rev_ind.
  - split_and!; [done|done|]. intros n Hn. simpl in Hn. by replace n with 0%nat by lia.
  - destruct IH as (H1 & H2 & H3). rewrite from_rows_snoc. simpl.
    rewrite H1, concat_app, length_app. simpl. rewrite app_nil_r.
    split_and!; [done|rewrite length_app; simpl; lia|]. intros n Hn.
    destruct (decide (n <= length rows)%nat).
    + rewrite lookup_app_l by lia. rewrite H3 by done. by rewrite take_app_le.
    + replace n with (length (offsets (from_rows rows))) at 1 by (rewrite length_app in Hn; simpl in Hn; lia).
      rewrite list_lookup_middle by done. rewrite take_ge by (rewrite length_app; simpl; lia).
      rewrite concat_app. simpl. by rewrite app_nil_r.
Qed.

(** A compressed row is the row it was built from. *)
Lemma row_from_rows rows n r : rows !! n = Some r -> row (from_rows rows) n = Some r.
Proof.
  intros Hr. destruct (list_elem_of_split_length rows n r Hr) as (l1 & l2 & -> & ->). clear Hr.
  destruct (from_rows_spec (l1 ++ r :: l2)) as (H1 & _ & H3). rewrite length_app in H3. simpl in H3.
  unfold row. rewrite !H3 by lia. simpl. rewrite H1, concat_app. simpl.
  rewrite take_app_length, (take_S_r _ _ r), take_app_length, concat_app by (by rewrite list_lookup_middle).
  simpl. rewrite app_nil_r, !length_app.
  rewrite !(proj2 (Nat.leb_le _ _)) by lia. simpl.
  rewrite drop_app_length, Nat.add_comm, Nat.add_sub. by rewrite take_app_length.
Qed.

(** The arcs a list of edges adds to row [n]: [here] is the endpoint the row
    belongs to and [there] the other one. *)
Fixpoint row_of (here there : Edge -> option nat) (es : list Edge) (k n : nat) : list ArcRef :=
  match es with
  | [] => []
  | e :: es =>
      (if decide (here e = Some n) then
         match there e with Some m => [{| neighbor := m; arc_edge := k |}] | None => [] end
       else []) ++ row_of here there es (S k) n
  end.

Lemma in_row_of here there es k n a : a ∈ row_of here there es k n <->
  exists i e, es !! i = Some e /\ arc_edge a = (k + i)%nat /\ here e = Some n /\
    there e = Some (neighbor a).
Proof.
  revert k. induction es as [|e es IH]; intros k; simpl.
  - split; [inversion 1 | by intros (i & e & Hn & _)].
  - rewrite elem_of_app, IH. split.
    + intros [Ha|(i & e' & H1 & H2 & H3 & H4)].
      * case_decide; [|by inversion Ha]. destruct (there e) as [m|] eqn:Em; [|by inversion Ha].
        apply list_elem_of_singleton in Ha as ->. exists 0%nat, e. simpl. split_and!; [done|lia|done|done].
      * exists (S i), e'. split_and!; [done|lia|done|done].
    + intros ([|i] & e' & H1 & H2 & H3 & H4); simpl in H1.
      * injection H1 as <-. left. rewrite decide_True by done. rewrite H4.
        apply list_elem_of_singleton. destruct a; simpl in *. f_equal. lia.
      * right. exists i, e'. split_and!; [done|lia|done|done].
Qed.

Lemma row_of_nodup here there es k n : NoDup (map arc_edge (row_of here there es k n)).
Proof.
  revert k. induction es as [|e es IH]; intros k; simpl; [constructor|].
  rewrite map_app. apply NoDup_app. split_and!; [| |apply IH].
  - case_decide; [|constructor]. destruct (there e); [|constructor]. apply NoDup_singleton.
  - intros x Hx (a & -> & Ha)%list_elem_of_fmap. apply in_row_of in Ha as (i & e' & H1 & H2 & _).
    case_decide; [|by inversion Hx]. destruct (there e); [|by inversion Hx].
    apply list_elem_of_singleton in Hx. simpl in Hx. lia.
Qed.

Lemma push_row_some rows n arc : (n < length rows)%nat -> exists rows',
  push_row rows n arc = Some rows' /\ length rows' = length rows /\
  forall m r, rows !! m = Some r ->
    rows' !! m = Some (r ++ if decide (m = n) then [arc] else []).
Proof.
  intros Hn. destruct (lookup_lt_is_Some_2 rows n Hn) as [r Hr]. unfold push_row. rewrite Hr. simpl.
  eexists. split_and!; [done|by rewrite length_insert|]. intros m r' Hm. destruct (decide (m = n)) as [->|].
  - rewrite list_lookup_insert_eq by done. by simplify_eq.
  - rewrite list_lookup_insert_ne by done. by rewrite Hm, app_nil_r.
Qed.

Lemma fill_rows_some idx es k o i N :
  length o = N -> length i = N ->
  (forall e, e ∈ es -> exists s t, BTree.get id_cmp (source e) idx = Some s /\ (s < N)%nat /\
    BTree.get id_cmp (target e) idx = Some t /\ (t < N)%nat) ->
  exists o' i', fill_rows idx es k o i = Some (o', i') /\ length o' = N /\ length i' = N /\
    (forall n r, o !! n = Some r -> o' !! n = Some (r ++
       row_of (fun e => BTree.get id_cmp (source e) idx) (fun e => BTree.get id_cmp (target e) idx) es k n)) /\
    (forall n r, i !! n = Some r -> i' !! n = Some (r ++
       row_of (fun e => BTree.get id_cmp (target e) idx) (fun e => BTree.get id_cmp (source e) idx) es k n)).
Proof.
  revert k o i. induction es as [|e es IH]; intros k o i Ho Hi Hes; simpl.
  - exists o, i. split_and!; try done; intros n r Hr; by rewrite app_nil_r.
  - destruct (Hes e) as (s & t & Hs & Hsn & Ht & Htn); [left|]. rewrite Hs, Ht. simpl.
    destruct (push_row_some o s {| neighbor := t; arc_edge := k |}) as (o1 & -> & Lo & Po); [lia|].
    destruct (push_row_some i t {| neighbor := s; arc_edge := k |}) as (i1 & -> & Li & Pi); [lia|].
    simpl. destruct (IH (S k) o1 i1) as (o2 & i2 & -> & L1 & L2 & H1 & H2); [lia|lia| |].
    { intros e' He'. apply Hes. by right. }
    exists o2, i2. split_and!; [done|done|done| |].
    + intros n r Hr. rewrite (H1 _ _ (Po _ _ Hr)), <- app_assoc. do 2 f_equal.
      destruct (decide (n = s)), (decide (Some s = Some n)); simplify_eq; done.
    + intros n r Hr. rewrite (H2 _ _ (Pi _ _ Hr)), <- app_assoc. do 2 f_equal.
      destruct (decide (n = t)), (decide (Some t = Some n)); simplify_eq; done.
Qed.

(** ** The arc order *)

Definition opt_cmp {A} (cmp : A -> A -> comparison) (a b : option A) : comparison :=
  match a, b with
  | None, None => Eq
  | None, Some _ => Lt
  | Some _, None => Gt
  | Some a, Some b => cmp a b
  end.

#[global] Instance opt_cmp_strict {A} (cmp : A -> A -> comparison) `{!StrictCompare cmp} :
  StrictCompare (opt_cmp cmp).
Proof.
  split; [split|].
  - intros [x|]; [apply (cmp_refl (cmp := cmp))|done].
  - intros [x|] [y|]; [apply (cmp_sym (cmp := cmp))|done|done|done].
  - intros [x|] [y|] [z|] o; simpl; try congruence. apply (cmp_trans (cmp := cmp)).
  - intros [x|] [y|]; simpl; try done. intros ?%(cmp_eq (cmp := cmp)). by subst.
Qed.

#[global] Instance option_cmp_strict : StrictCompare option_cmp.
Proof. apply (opt_cmp_strict id_cmp). Qed.

Section ArcOrder.
Context (ns : list Node) (es : list Edge).

(** [compare_arcs] extended to indices out of range. *)
Definition arc_cmp (a b : ArcRef) : comparison :=
  then_with (opt_cmp id_cmp (node_key <$> ns !! neighbor a) (node_key <$> ns !! neighbor b))
    (then_with (opt_cmp option_cmp (graphify_key <$> es !! arc_edge a) (graphify_key <$> es !! arc_edge b))
      (opt_cmp edge_id_cmp (edge_id <$> es !! arc_edge a) (edge_id <$> es !! arc_edge b))).

#[global] Instance arc_cmp_lawful : LawfulCompare arc_cmp.
Proof.
  apply then_with_lawful.
  { apply (preimage_lawful (fun a => node_key <$> ns !! neighbor a)), _. }
  apply then_with_lawful.
  - apply (preimage_lawful (fun a => graphify_key <$> es !! arc_edge a)), _.
  - apply (preimage_lawful (fun a => edge_id <$> es !! arc_edge a)), _.
Qed.

Definition in_range (a : ArcRef) : Prop := is_Some (ns !! neighbor a) /\ is_Some (es !! arc_edge a).

Lemma compare_arcs_total a b : in_range a -> in_range b ->
  compare_arcs ns es a b = Some (arc_cmp a b).
Proof.
  intros [[na Hna] [ea Hea]] [[nb Hnb] [eb Heb]]. unfold compare_arcs, arc_cmp.
  rewrite Hna, Hnb, Hea, Heb. simpl. by destruct (id_cmp _ _).
Qed.

Lemma arc_cmp_eq a b : BTree.sorted_set edge_id_cmp (map edge_id es) ->
  in_range a -> in_range b -> arc_cmp a b = Eq -> arc_edge a = arc_edge b.
Proof.
  intros Hs [_ [ea Hea]] [_ [eb Heb]] (_ & (_ & E)%then_with_eq)%then_with_eq.
  rewrite Hea, Heb in E. simpl in E. apply (cmp_eq (cmp := edge_id_cmp)) in E.
  apply (BTree.sorted_set_nodup edge_id_cmp) in Hs. rewrite NoDup_alt in Hs.
  apply (Hs _ _ (edge_id ea)); change (map edge_id es) with (edge_id <$> es);
    rewrite list_lookup_fmap; [by rewrite Hea | by rewrite Heb, E].
Qed.

(** A sorted row with one arc per edge is strictly sorted. *)
Definition arc_lt (a b : ArcRef) : Prop := compare_arcs ns es a b = Some Lt.

Lemma strictly_sorted l : BTree.sorted_set edge_id_cmp (map edge_id es) ->
  Forall in_range l -> NoDup (map arc_edge l) -> StronglySorted (BTree.le arc_cmp) l ->
  StronglySorted arc_lt l.
Proof.
  intros Hs Hr Hnd Hl. induction Hl as [|a l Hl IH Ha]; [constructor|].
  apply Forall_cons in Hr as [Hra Hr]. simpl in Hnd. apply NoDup_cons in Hnd as [Hn Hnd].
  constructor; [by apply IH|]. rewrite Forall_forall in *. intros b Hb.
  unfold arc_lt. rewrite compare_arcs_total by auto. specialize (Ha b Hb). unfold BTree.le in Ha.
  destruct (arc_cmp a b) eqn:E; [|done|done]. exfalso.
  apply (arc_cmp_eq a b Hs Hra (Hr b Hb)) in E. apply Hn. rewrite E.
  apply list_elem_of_fmap. eauto.
Qed.

Lemma sort_row r : BTree.sorted_set edge_id_cmp (map edge_id es) ->
  Forall in_range r -> NoDup (map arc_edge r) ->
  exists l, BTree.sort_by_opt (compare_arcs ns es) r = Some l /\ l ≡ₚ r /\ StronglySorted arc_lt l.
Proof.
  intros Hs Hr Hnd. exists (BTree.sort_by arc_cmp r).
  pose proof (BTree.sort_by_perm arc_cmp r) as Hp. split_and!; [|done|].
  - apply (BTree.sort_by_opt_some arc_cmp). rewrite Forall_forall in Hr.
    intros x y Hx Hy. apply compare_arcs_total; auto.
  - apply strictly_sorted; [done|by rewrite Hp| |apply BTree.sort_by_sorted; apply _].
    assert (map arc_edge (BTree.sort_by arc_cmp r) ≡ₚ map arc_edge r) as -> by (by rewrite Hp). done.
Qed.

Lemma sort_rows rows : BTree.sorted_set edge_id_cmp (map edge_id es) ->
  (forall r, r ∈ rows -> Forall in_range r /\ NoDup (map arc_edge r)) ->
  exists rows', mapM (BTree.sort_by_opt (compare_arcs ns es)) rows = Some rows' /\
    forall n r, rows !! n = Some r -> exists l, rows' !! n = Some l /\ l ≡ₚ r /\ StronglySorted arc_lt l.
Proof.
  intros Hs. induction rows as [|r rows IH]; intros Hr; simpl; [by exists []|].
  destruct (Hr r) as [H1 H2]; [left|]. destruct (sort_row r Hs H1 H2) as (l & -> & Hp & Hl).
  destruct IH as (rows' & -> & Hrows). { intros r' Hr'. apply Hr. by right. }
  simpl. exists (l :: rows'). split; [done|]. intros [|n] r' Hn; simpl in *; [|by apply Hrows].
  simplify_eq. eauto.
Qed.
End ArcOrder.

(** ** The invariant of a constructed graph *)

(** The arc [a] leaves, or enters, the node at [n]. *)
Definition out_arc (g : GraphInner) (n : nat) (a : ArcRef) : Prop :=
  exists e, edges g !! arc_edge a = Some e /\
    node_id g n = Some (source e) /\ node_id g (neighbor a) = Some (target e).
Definition in_arc (g : GraphInner) (n : nat) (a : ArcRef) : Prop :=
  exists e, edges g !! arc_edge a = Some e /\
    node_id g n = Some (target e) /\ node_id g (neighbor a) = Some (source e).

(** [l] lists exactly the arcs satisfying [P], each once, in the arc order. *)
Definition lists_arcs (g : GraphInner) (l : list ArcRef) (P : ArcRef -> Prop) : Prop :=
  StronglySorted (arc_lt (nodes g) (edges g)) l /\ NoDup l /\ forall a, a ∈ l <-> P a.

Record graph_ok (g : GraphInner) : Prop := {
  gk_nodes : BTree.sorted_set id_cmp (map node_key (nodes g));
  gk_edges : BTree.sorted_set edge_id_cmp (map edge_id (edges g));
  gk_node_index : forall id i,
    BTree.get id_cmp id (node_indexes g) = Some i <-> node_id g i = Some id;
  gk_edge_index : forall id i,
    BTree.get edge_id_cmp id (edge_indexes g) = Some i <-> edge_id <$> edges g !! i = Some id;
  gk_ends : forall e, e ∈ edges g ->
    source e ∈ map node_key (nodes g) /\ target e ∈ map node_key (nodes g);
  gk_outgoing : forall n, (n < node_count g)%nat ->
    exists l, outgoing g n = Some l /\ lists_arcs g l (out_arc g n);
  gk_incoming : forall n, (n < node_count g)%nat ->
    exists l, incoming g n = Some l /\ lists_arcs g l (in_arc g n);
  gk_simple : is_multigraph (kind g) = false ->
    NoDup (map (endpoint_pair (is_directed (kind g))) (edges g));
}.

(** What construction requires of its input. *)
Definition edge_ok (ns : list Node) (e : Edge) : Prop :=
  stored_id (edge_id e) <> [] /\
  source e ∈ map node_key ns /\ target e ∈ map node_key ns /\
  match weight e with Some w => is_finite w = true /\ lt_zero w = false | None => True end.

Definition input_ok (k : GraphKind) (ns : list Node) (es : list Edge) : Prop :=
  Forall (fun n => validate (node_key n) = Ok tt) ns /\ NoDup (map node_key ns) /\
  Forall (edge_ok ns) es /\ NoDup (map edge_id es) /\
  (is_multigraph k = false -> NoDup (map (endpoint_pair (is_directed k)) es)).

Lemma key_index (ns : list Node) id : BTree.sorted_set id_cmp (map node_key ns) ->
  let idx := BTree.from_iter id_cmp (enumerate node_key ns) in
  (forall i, BTree.get id_cmp id idx = Some i <-> node_key <$> ns !! i = Some id) /\
  (id ∈ map node_key ns -> exists i, BTree.get id_cmp id idx = Some i /\ (i < length ns)%nat).
Proof.
  intros Hs idx. assert (forall i, BTree.get id_cmp id idx = Some i <-> node_key <$> ns !! i = Some id) as Hi.
  { intros i. unfold idx. rewrite (index_spec id_cmp node_key) by done.
    rewrite fmap_Some. split; intros (x & ? & ?); eauto. }
  split; [done|]. intros (x & -> & Hx)%list_elem_of_fmap.
  apply list_elem_of_lookup in Hx as [i Hx]. exists i.
  split; [apply Hi; by rewrite Hx | by eapply lookup_lt_Some].
Qed.

Lemma check_edge_iff ns e : BTree.sorted_set id_cmp (map node_key ns) ->
  check_edge (BTree.from_iter id_cmp (enumerate node_key ns)) e = Ok tt <-> edge_ok ns e.
Proof.
  intros Hs. unfold check_edge, edge_ok, is_valid. rewrite negb_involutive.
  assert (forall id, id ∈ map node_key ns <->
    BTree.get id_cmp id (BTree.from_iter id_cmp (enumerate node_key ns)) <> None) as Hk.
  { intros id. split.
    - by intros (i & -> & _)%(proj2 (key_index ns id Hs)).
    - intros Hn. destruct (BTree.get _ _ _) as [i|] eqn:E; [|done].
      apply (proj1 (key_index ns id Hs)) in E.
      apply fmap_Some in E as (x & Hx & ->). apply list_elem_of_fmap. exists x.
      split; [done|]. by eapply list_elem_of_lookup_2. }
  rewrite (Hk (source e)), (Hk (target e)). case_bool_decide; [by split; [|intros [? _]]|].
  do 2 (destruct (BTree.get _ _ _); [|split; [done | intros (_ & ? & ? & _); done]]).
  destruct (weight e) as [w|]; [|done].
  destruct (is_finite w), (lt_zero w); simpl; split; try done; intros (_ & _ & _ & ? & ?); done.
Qed.

#[global] Instance pair_cmp_strict : StrictCompare pair_cmp.
Proof.
  split.
  - apply then_with_lawful; [apply (preimage_lawful fst), _ | apply (preimage_lawful snd), _].
  - intros [a b] [c d] [E1%(cmp_eq (cmp := id_cmp)) E2%(cmp_eq (cmp := id_cmp))]%then_with_eq.
    simpl in *. by subst.
Qed.

Lemma check_parallel_iff k es pairs : check_parallel k es pairs = Ok tt <->
  NoDup (map (endpoint_pair (is_directed k)) es) /\
  forall e, e ∈ es -> endpoint_pair (is_directed k) e ∉ pairs.
Proof.
  revert pairs. induction es as [|e es IH]; intros pairs; simpl.
  - split; [|done]. split; [constructor|]. intros e He. inversion He.
  - destruct (BTree.contains pair_cmp _ pairs) eqn:E.
    + apply (BTree.contains_iff pair_cmp) in E. split; [done|]. intros [_ Hn].
      exfalso. apply (Hn e); [left|done].
    + assert (endpoint_pair (is_directed k) e ∉ pairs) as Hn.
      { intros Hin. apply (BTree.contains_iff pair_cmp) in Hin. congruence. }
      rewrite IH, NoDup_cons. split.
      * intros [Hnd Hp]. split_and!; [|done|].
        -- intros (e' & He & Hin)%list_elem_of_fmap. apply (Hp e' Hin), (BTree.in_set_insert pair_cmp).
           auto.
        -- intros e' [->|Hin]%elem_of_cons; [done|]. intros Hb. apply (Hp e' Hin).
           apply (BTree.in_set_insert pair_cmp). auto.
      * intros [[Hx Hnd] Hp]. split; [done|]. intros e' Hin [He|Hb]%(BTree.in_set_insert pair_cmp).
        -- apply Hx. rewrite <- He. apply list_elem_of_fmap. eauto.
        -- apply (Hp e'); [by right|done].
Qed.

(** The adjacency built from the tables, stated on them. *)
Definition row_arc (ns : list Node) (es : list Edge) (here there : Edge -> ExternalId)
    (n : nat) (a : ArcRef) : Prop :=
  exists e, es !! arc_edge a = Some e /\
    node_key <$> ns !! n = Some (here e) /\ node_key <$> ns !! neighbor a = Some (there e).

Definition row_exact (ns : list Node) (es : list Edge) (here there : Edge -> ExternalId)
    (csr : Csr) : Prop :=
  forall n, (n < length ns)%nat -> exists l, row csr n = Some l /\
    StronglySorted (arc_lt ns es) l /\ NoDup l /\ forall a, a ∈ l <-> row_arc ns es here there n a.

Section BuildRows.
Context (ns : list Node) (es : list Edge).
Hypothesis Hns : BTree.sorted_set id_cmp (map node_key ns).
Hypothesis Hes : BTree.sorted_set edge_id_cmp (map edge_id es).

Let idx := BTree.from_iter id_cmp (enumerate node_key ns).

Lemma in_row here there n a :
  a ∈ row_of (fun e => BTree.get id_cmp (here e) idx) (fun e => BTree.get id_cmp (there e) idx) es 0 n <->
  row_arc ns es here there n a.
Proof.
  rewrite in_row_of. unfold row_arc. split.
  - intros (i & e & H1 & H2 & H3%(proj1 (key_index ns _ Hns)) & H4%(proj1 (key_index ns _ Hns))).
    exists e. by rewrite H2.
  - intros (e & H1 & H2%(proj1 (key_index ns _ Hns)) & H3%(proj1 (key_index ns _ Hns))).
    exists (arc_edge a), e. done.
Qed.

Lemma row_in_range here there n a : row_arc ns es here there n a -> in_range ns es a.
Proof.
  intros (e & H1 & _ & H2). split; [|by eexists].
  apply fmap_Some in H2 as (x & -> & _). by eexists.
Qed.

(** One direction: the filled rows, sorted and compressed. *)
Lemma compress_rows here there rows :
  length rows = length ns ->
  (forall n r, replicate (length ns) [] !! n = Some r -> rows !! n = Some (r ++
     row_of (fun e => BTree.get id_cmp (here e) idx) (fun e => BTree.get id_cmp (there e) idx) es 0 n)) ->
  exists rows', mapM (BTree.sort_by_opt (compare_arcs ns es)) rows = Some rows' /\
    row_exact ns es here there (from_rows rows').
Proof.
  intros Hl Hr.
  assert (forall n r, rows !! n = Some r -> r =
    row_of (fun e => BTree.get id_cmp (here e) idx) (fun e => BTree.get id_cmp (there e) idx) es 0 n)
    as Hrow.
  { intros n r Hn. pose proof (lookup_lt_Some _ _ _ Hn). rewrite (Hr n []) in Hn; [by injection Hn|].
    apply lookup_replicate_2. lia. }
  destruct (sort_rows ns es rows Hes) as (rows' & Hm & Hs).
  { intros r [n Hn]%list_elem_of_lookup. rewrite (Hrow _ _ Hn). split; [|apply row_of_nodup].
    apply Forall_forall. intros a Ha%in_row. by eapply row_in_range. }
  exists rows'. split; [done|]. intros n Hn.
  destruct (lookup_lt_is_Some_2 rows n) as [r Hrn]; [lia|].
  destruct (Hs _ _ Hrn) as (l & Hl' & Hp & Hsort). exists l.
  split_and!; [by apply row_from_rows|done| |].
  - rewrite Hp, (Hrow _ _ Hrn). eapply NoDup_fmap_1, row_of_nodup.
  - intros a. by rewrite Hp, (Hrow _ _ Hrn), in_row.
Qed.

Lemma build_rows_exact :
  (forall e, e ∈ es -> source e ∈ map node_key ns /\ target e ∈ map node_key ns) ->
  exists csrs, build_rows ns es idx = Some csrs /\
    row_exact ns es source target csrs.1 /\ row_exact ns es target source csrs.2.
Proof.
  intros Hends. unfold build_rows.
  destruct (fill_rows_some idx es 0 (replicate (length ns) []) (replicate (length ns) []) (length ns))
    as (o & i & -> & Lo & Li & Ho & Hi); try apply length_replicate.
  { intros e [Hs Ht]%Hends. destruct (proj2 (key_index ns _ Hns) Hs) as (s & ? & ?).
    destruct (proj2 (key_index ns _ Hns) Ht) as (t & ? & ?). eauto 7. }
  simpl. destruct (compress_rows source target o Lo Ho) as (o' & -> & Ro).
  destruct (compress_rows target source i Li Hi) as (i' & Hi' & Ri). simpl. rewrite Hi'. simpl.
  eexists. by split_and!.
Qed.
End BuildRows.

(** The construction from its two tables on. *)
Definition assemble (k : GraphKind) (ga : Attributes) (ns : list Node) (es : list Edge)
    : option (result GraphError GraphInner) :=
  match (if is_multigraph k then Ok tt else check_parallel k es []) with
  | Err e => Some (Err e)
  | Ok _ =>
      csrs ← build_rows ns es (BTree.from_iter id_cmp (enumerate node_key ns));
      Some (Ok {| kind := k; graph_attributes := ga; nodes := ns; edges := es;
        node_indexes := BTree.from_iter id_cmp (enumerate node_key ns);
        edge_indexes := BTree.from_iter edge_id_cmp (enumerate edge_id es);
        outgoing_csr := csrs.1; incoming_csr := csrs.2 |})
  end.

Lemma assemble_ok k ga ns es :
  BTree.sorted_set id_cmp (map node_key ns) -> BTree.sorted_set edge_id_cmp (map edge_id es) ->
  (forall e, e ∈ es -> source e ∈ map node_key ns /\ target e ∈ map node_key ns) ->
  exists r, assemble k ga ns es = Some r /\
    (is_ok r = true <-> (is_multigraph k = false -> NoDup (map (endpoint_pair (is_directed k)) es))) /\
    forall g, r = Ok g -> graph_ok g /\ kind g = k /\ graph_attributes g = ga /\
      nodes g = ns /\ edges g = es.
Proof.
  intros Hns Hes Hends. unfold assemble.
  assert (is_ok (if is_multigraph k then Ok tt else check_parallel k es []) = true <->
    (is_multigraph k = false -> NoDup (map (endpoint_pair (is_directed k)) es))) as Hpar.
  { destruct (is_multigraph k); [by split|]. rewrite is_ok_iff. split.
    - intros [[] Hc] _. by apply check_parallel_iff in Hc as [? _].
    - intros Hn. exists tt. apply check_parallel_iff. split; [auto|]. intros e _ Hin. inversion Hin. }
  destruct (if is_multigraph k then _ else _) as [u|e]; [|by eexists].
  destruct (build_rows_exact ns es Hns Hes Hends) as (csrs & -> & Ho & Hi). simpl.
  eexists. split; [done|]. split; [done|]. intros g [= <-]. split; [|done].
  constructor; simpl; try done.
  - intros id i. by apply (key_index ns id Hns).
  - intros id i. rewrite (index_spec edge_id_cmp edge_id) by done. rewrite fmap_Some.
    split; intros (x & ? & ?); eauto.
  - by apply Hpar.
Qed.

Lemma with_attributes_tables k ga ns es :
  Forall (fun n => validate (node_key n) = Ok tt) ns -> NoDup (map node_key ns) ->
  Forall (edge_ok ns) es -> NoDup (map edge_id es) ->
  exists ns' es', ns' ≡ₚ ns /\ es' ≡ₚ es /\
    BTree.sorted_set id_cmp (map node_key ns') /\ BTree.sorted_set edge_id_cmp (map edge_id es') /\
    with_attributes k ga ns es = assemble k ga ns' es'.
Proof.
  intros H1 H2 H3 H4. unfold with_attributes. rewrite build_node_map_eq.
  destruct (proj2 (table_total id_cmp node_key (fun n => validate (node_key n)) DuplicateNode ns))
    as [m Hm]; [done|]. rewrite Hm.
  apply (build_map_table id_cmp) in Hm as (S1 & P1 & _).
  rewrite build_edge_map_eq.
  destruct (proj2 (table_total edge_id_cmp edge_id
    (check_edge (BTree.from_iter id_cmp (enumerate node_key (map snd m)))) DuplicateEdge es)) as [n Hn].
  { split; [|done]. eapply Forall_impl; [exact H3|]. intros e He. apply check_edge_iff; [done|].
    unfold edge_ok in *. by rewrite P1. }
  rewrite Hn. apply (build_map_table edge_id_cmp) in Hn as (S2 & P2 & _).
  by exists (map snd m), (map snd n).
Qed.

Definition records_ok (ns : list Node) (es : list Edge) : Prop :=
  Forall (fun n => validate (node_key n) = Ok tt) ns /\ NoDup (map node_key ns) /\
  Forall (edge_ok ns) es /\ NoDup (map edge_id es).

Lemma with_attributes_cases k ga ns es :
  records_ok ns es \/
  (~ records_ok ns es /\ exists e, with_attributes k ga ns es = Some (Err e)).
Proof.
  unfold with_attributes, records_ok. rewrite build_node_map_eq.
  pose proof (table_total id_cmp node_key (fun n => validate (node_key n)) DuplicateNode ns) as Tn.
  destruct (build_map id_cmp node_key _ _ ns []) as [m|e] eqn:Hm.
  2: { right. split; [|eauto]. intros (H1 & H2 & _).
    destruct (proj2 Tn) as [m' [=]]. done. }
  destruct (build_map_table id_cmp _ _ _ _ _ Hm) as (S1 & P1 & V1). clear Tn Hm.
  assert (NoDup (map node_key ns)) as Hnd.
  { rewrite <- P1. by apply (BTree.sorted_set_nodup id_cmp). }
  rewrite build_edge_map_eq.
  pose proof (table_total edge_id_cmp edge_id
    (check_edge (BTree.from_iter id_cmp (enumerate node_key (map snd m)))) DuplicateEdge es) as Te.
  assert (forall e, check_edge (BTree.from_iter id_cmp (enumerate node_key (map snd m))) e = Ok tt <->
    edge_ok ns e) as Hc.
  { intros e. rewrite check_edge_iff by done. unfold edge_ok. by rewrite P1. }
  destruct (build_map edge_id_cmp edge_id _ _ es []) as [n|e] eqn:Hn.
  - left. destruct (proj1 Te) as [V2 D2]; [eauto|]. split_and!; [done|done| |done].
    eapply Forall_impl; [exact V2|]. intros e. apply Hc.
  - right. split; [|eauto]. intros (_ & _ & H3 & H4). destruct (proj2 Te) as [m' [=]].
    split; [|done]. eapply Forall_impl; [exact H3|]. intros e'. apply Hc.
Qed.

Lemma with_attributes_exact (k : GraphKind) (ga : Attributes) (ns : list Node) (es : list Edge) :
  exists r, with_attributes k ga ns es = Some r /\
    (is_ok r = true <-> input_ok k ns es) /\
    forall g, r = Ok g ->
      graph_ok g /\ kind g = k /\ graph_attributes g = ga /\
      nodes g ≡ₚ ns /\ edges g ≡ₚ es /\
      forall ns' es', ns' ≡ₚ ns -> es' ≡ₚ es -> with_attributes k ga ns' es' = Some (Ok g).
Proof.
  assert (input_ok k ns es <-> records_ok ns es /\
    (is_multigraph k = false -> NoDup (map (endpoint_pair (is_directed k)) es))) as Hin
    by (unfold input_ok, records_ok; tauto).
  destruct (with_attributes_cases k ga ns es) as [Hok|[Hno [e ->]]].
  2: { eexists. split; [done|]. split; [|done]. rewrite Hin. split; [done|]. by intros [? _]. }
  destruct Hok as (H1 & H2 & H3 & H4).
  destruct (with_attributes_tables k ga ns es H1 H2 H3 H4) as (N & E & PN & PE & SN & SE & ->).
  assert (forall e, e ∈ E -> source e ∈ map node_key N /\ target e ∈ map node_key N) as Hends.
  { intros e He. rewrite PE in He. rewrite Forall_forall in H3.
    destruct (H3 e He) as (_ & ? & ? & _). by rewrite PN. }
  destruct (assemble_ok k ga N E SN SE Hends) as (r & Hr & Hiff & Hg).
  exists r. split; [done|]. split.
  - rewrite Hiff, Hin, PE. unfold records_ok. tauto.
  - intros g Hrg. destruct (Hg g Hrg) as (G & Gk & Ga & Gn & Ge). rewrite Gn, Ge.
    split_and!; try done. intros ns' es' Pn Pe.
    destruct (with_attributes_tables k ga ns' es') as (N' & E' & PN' & PE' & SN' & SE' & ->).
    + by rewrite Pn.
    + by rewrite Pn.
    + rewrite Pe. eapply Forall_impl; [exact H3|]. unfold edge_ok. intros e. by rewrite Pn.
    + by rewrite Pe.
    + assert (N' = N) as -> by (apply (table_unique id_cmp node_key); [done|done|by rewrite PN', Pn]).
      assert (E' = E) as -> by (apply (table_unique edge_id_cmp edge_id); [done|done|by rewrite PE', Pe]).
      by rewrite Hr, Hrg.
Qed.

(** [C19] Construction is total and exact: [with_attributes] never panics,
    succeeds precisely on valid identities without duplicates, edges with
    non-empty identities, existing endpoints and finite non-negative weights,
    and no parallel pair in a simple graph; the graph then satisfies the
    invariant every algorithm relies on, holds exactly the given records, and
    does not depend on the order they were given in. *)
Theorem construct_exact (k : GraphKind) (ga : Attributes) (ns : list Node) (es : list Edge) :
  exists r, with_attributes k ga ns es = Some r /\
    (is_ok r = true <-> input_ok k ns es) /\
    forall g, r = Ok g ->
      graph_ok g /\ kind g = k /\ graph_attributes g = ga /\
      nodes g ≡ₚ ns /\ edges g ≡ₚ es /\
      forall ns' es', ns' ≡ₚ ns -> es' ≡ₚ es -> with_attributes k ga ns' es' = Some (Ok g).
Proof. apply with_attributes_exact. Qed.

(** ** The arc iterators *)

Section Arcs.
Context (g : GraphInner) (Hg : graph_ok g).

Let cmp := arc_cmp (nodes g) (edges g).

#[local] Instance le_dec : RelDecision (BTree.le cmp).
Proof. intros a b. unfold BTree.le. apply _. Defined.
#[local] Instance le_total : Total (BTree.le cmp).
Proof.
  intros a b. unfold BTree.le. rewrite (cmp_sym (cmp := cmp) a b).
  destruct (cmp a b); simpl; auto.
Qed.

Lemma arcs_in_range n a : out_arc g n a \/ in_arc g n a -> in_range (nodes g) (edges g) a.
Proof.
  intros [(e & H1 & _ & H2)|(e & H1 & _ & H2)]; split; try (by eexists);
    apply fmap_Some in H2 as (x & -> & _); by eexists.
Qed.

Lemma drain_one l : drain (S (length l)) g (One l) = Some l.
Proof. induction l as [|a l IH]; [done|]. cbn [drain next length]. simpl in *. by rewrite IH. Qed.

Definition not_loop (n : nat) (a : ArcRef) : Prop := neighbor a <> n.

Lemma skip_loops_drop n inc ii :
  let ii' := skip_loops n (drop ii inc) ii in
  (ii <= ii')%nat /\ filter (not_loop n) (drop ii' inc) = filter (not_loop n) (drop ii inc) /\
  forall a, inc !! ii' = Some a -> not_loop n a.
Proof.
  remember (drop ii inc) as rest eqn:E. revert ii E.
  induction rest as [|a rest IH]; intros ii E; simpl.
  - rewrite <- E. split_and!; [lia|done|]. intros a Ha.
    assert (drop ii inc !! 0%nat = Some a) as Hd by (by rewrite lookup_drop, Nat.add_0_r).
    by rewrite <- E in Hd.
  - assert (inc !! ii = Some a /\ rest = drop (S ii) inc) as [Ha Hr].
    { split.
      - rewrite <- (Nat.add_0_r ii), <- lookup_drop, <- E. done.
      - rewrite <- (Nat.add_1_r ii), <- drop_drop, <- E. done. }
    destruct (Nat.eqb_spec (neighbor a) n) as [Hn|Hn].
    + destruct (IH (S ii) Hr) as (I1 & I2 & I3). split_and!; [lia| |done].
      rewrite I2. unfold not_loop at 2. by rewrite filter_cons_False by tauto.
    + rewrite <- E. split_and!; [lia|done|]. intros b Hb. rewrite Ha in Hb. by injection Hb as <-.
Qed.

Lemma drop_cons {A} (l : list A) i x : l !! i = Some x -> drop i l = x :: drop (S i) l.
Proof. intros H. by rewrite (drop_S l x i H). Qed.

Lemma drain_merge fuel n out inc oi ii :
  Forall (in_range (nodes g) (edges g)) out -> Forall (in_range (nodes g) (edges g)) inc ->
  (length (drop oi out) + length (drop ii inc) < fuel)%nat ->
  drain fuel g (Merge n out inc oi ii) =
    Some (list_merge (BTree.le cmp) (drop oi out) (filter (not_loop n) (drop ii inc))).
Proof.
  intros Ho Hi. revert oi ii. induction fuel as [|fuel IH]; intros oi ii Hf; [lia|].
  cbn [drain next]. destruct (skip_loops_drop n inc ii) as (L & F & NL). cbv zeta in L, F, NL.
  set (ii' := skip_loops n (drop ii inc) ii) in *. rewrite <- F.
  rewrite !length_drop in Hf.
  destruct (out !! oi) as [a|] eqn:Ea, (inc !! ii') as [b|] eqn:Eb.
  - pose proof (lookup_lt_Some _ _ _ Ea). pose proof (lookup_lt_Some _ _ _ Eb).
    rewrite compare_arcs_total;
      [|by eapply (Forall_lookup_1 _ _ _ _ Ho)|by eapply (Forall_lookup_1 _ _ _ _ Hi)]. simpl.
    rewrite (drop_cons _ _ _ Ea), (drop_cons _ _ _ Eb).
    rewrite (filter_cons_True _ _ _ (NL b eq_refl)).
    cbn [list_merge]. destruct (decide_rel (BTree.le cmp) a b) as [Hle|Hle].
    + assert (forall A (x y : A), match arc_cmp (nodes g) (edges g) a b with Gt => x | _ => y end = y)
        as E by (intros; unfold BTree.le, cmp in Hle; by destruct (arc_cmp _ _ a b)).
      rewrite E. simpl. rewrite IH by (rewrite !length_drop; lia). simpl.
      by rewrite (drop_cons _ _ _ Eb), (filter_cons_True _ _ _ (NL b eq_refl)).
    + assert (arc_cmp (nodes g) (edges g) a b = Gt) as ->.
      { unfold BTree.le, cmp in Hle. destruct (arc_cmp _ _ a b); [exfalso; by apply Hle..|done]. }
      simpl. rewrite IH by (rewrite !length_drop; lia). simpl. by rewrite (drop_cons _ _ _ Ea).
  - pose proof (lookup_lt_Some _ _ _ Ea). simpl. rewrite IH by (rewrite !length_drop; lia).
    rewrite (drop_ge inc ii') by (by apply lookup_ge_None).
    rewrite (drop_cons _ _ _ Ea). simpl. by destruct (drop (S oi) out).
  - pose proof (lookup_lt_Some _ _ _ Eb). simpl. rewrite IH by (rewrite !length_drop; lia).
    rewrite (drop_ge out oi) by (by apply lookup_ge_None).
    rewrite (drop_cons _ _ _ Eb), (filter_cons_True _ _ _ (NL b eq_refl)). simpl.
    by destruct (filter (not_loop n) (drop (S ii') inc)).
  - simpl. by rewrite !drop_ge by (by apply lookup_ge_None).
Qed.

Lemma strict_le l : StronglySorted (arc_lt (nodes g) (edges g)) l ->
  Forall (in_range (nodes g) (edges g)) l -> StronglySorted (BTree.le cmp) l.
Proof.
  induction 1 as [|a l Hl IH Ha]; intros Hr; [constructor|]. apply Forall_cons in Hr as [Hra Hr].
  constructor; [by apply IH|]. rewrite Forall_forall in *. intros b Hb. specialize (Ha b Hb).
  unfold arc_lt in Ha. rewrite compare_arcs_total in Ha by auto. unfold BTree.le. fold cmp in Ha. congruence.
Qed.

(** The arcs that [arcs] is asked for. *)
Definition incident (n : nat) (direction : TraversalDirection) (a : ArcRef) : Prop :=
  match (if is_directed (kind g) then direction else Both) with
  | Out => out_arc g n a
  | In => in_arc g n a
  | Both => out_arc g n a \/ in_arc g n a
  end.

Lemma arc_unique a b n : out_arc g n a -> in_arc g n b -> arc_edge a = arc_edge b ->
  neighbor a = n /\ neighbor b = n.
Proof.
  intros (e & H1 & H2 & H3) (e' & H4 & H5 & H6) He. rewrite He, H4 in H1. injection H1 as ->.
  apply (gk_node_index g Hg) in H2, H3, H5, H6. split; congruence.
Qed.

Lemma same_edge_arc n (here : bool) a b :
  (if here then out_arc g n a /\ out_arc g n b else in_arc g n a /\ in_arc g n b) ->
  arc_edge a = arc_edge b -> a = b.
Proof.
  intros H1 He. assert (neighbor a = neighbor b) as Hn.
  { destruct here; destruct H1 as [(e & Ha & _ & Na) (e' & Hb & _ & Nb)];
      rewrite He, Hb in Ha; injection Ha as ->; apply (gk_node_index g Hg) in Na, Nb; congruence. }
  destruct a, b; simpl in *; by subst.
Qed.

Lemma rows_nodup_edges n (here : bool) l : NoDup l ->
  (forall a, a ∈ l -> if here then out_arc g n a else in_arc g n a) -> NoDup (map arc_edge l).
Proof.
  intros Hnd Hl. apply NoDup_fmap_2_strong; [|done]. intros a b Ha Hb.
  apply (same_edge_arc n here). specialize (Hl a Ha) as H1. specialize (Hl b Hb) as H2.
  by destruct here.
Qed.

Lemma arcs_lists n direction : (n < node_count g)%nat ->
  exists l, arcs g n direction = Some l /\ NoDup (map arc_edge l) /\
    lists_arcs g l (incident n direction).
Proof.
  intros Hn. destruct (gk_outgoing g Hg n Hn) as (o & Ho & So & No & Eo).
  destruct (gk_incoming g Hg n Hn) as (i & Hi & Si & Ni & Ei).
  unfold arcs, arc_iter, incident. destruct (if is_directed (kind g) then direction else Both).
  - rewrite Ho. cbn [fmap option_fmap option_map mbind option_bind]. rewrite drain_one.
    exists o. split_and!; try done. apply (rows_nodup_edges n true); [done|]. intros a. apply Eo.
  - rewrite Hi. cbn [fmap option_fmap option_map mbind option_bind]. rewrite drain_one.
    exists i. split_and!; try done. apply (rows_nodup_edges n false); [done|]. intros a. apply Ei.
  - rewrite Ho, Hi. cbn [mbind option_bind].
    assert (Forall (in_range (nodes g) (edges g)) o) as Ro.
    { apply Forall_forall. intros a Ha%Eo. by apply (arcs_in_range n); left. }
    assert (Forall (in_range (nodes g) (edges g)) i) as Ri.
    { apply Forall_forall. intros a Ha%Ei. by apply (arcs_in_range n); right. }
    rewrite drain_merge by (done || (rewrite !drop_0; lia)). rewrite !drop_0.
    set (l := list_merge _ _ _).
    assert (l ≡ₚ o ++ filter (not_loop n) i) as Hp by apply merge_Permutation.
    assert (forall a, a ∈ l <-> out_arc g n a \/ in_arc g n a) as Hin.
    { intros a. rewrite Hp, elem_of_app, list_elem_of_filter, Eo, Ei. split; [tauto|].
      intros [Ha|Ha]; [by left|]. destruct (decide (neighbor a = n)) as [Hl|Hl]; [|by right].
      left. destruct Ha as (e & H1 & H2 & H3). exists e. rewrite Hl in H3. split_and!; [done|done|].
      by rewrite Hl. }
    assert (NoDup (map arc_edge l)) as Hnd.
    { assert (map arc_edge l ≡ₚ map arc_edge (o ++ filter (not_loop n) i)) as -> by (by rewrite Hp).
      rewrite map_app. apply NoDup_app. split_and!.
      - apply (rows_nodup_edges n true); [done|]. intros a. apply Eo.
      - intros x (a & -> & Ha%Eo)%list_elem_of_fmap (b & He & Hb)%list_elem_of_fmap.
        apply list_elem_of_filter in Hb as [Hl Hb%Ei].
        destruct (arc_unique a b n Ha Hb He) as [_ ?]. done.
      - apply (rows_nodup_edges n false); [by apply NoDup_filter|].
        intros a [_ ?]%list_elem_of_filter. by apply Ei. }
    exists l. split; [done|]. split; [done|]. split_and!; [|by eapply NoDup_fmap_1|done].
    apply strictly_sorted; [apply (gk_edges g Hg)| |done|].
    + apply Forall_forall. intros a Ha%Hin. by eapply arcs_in_range.
    + apply Sorted_StronglySorted; [intros a b c; apply (BTree.le_trans cmp)|].
      apply (Sorted_list_merge (BTree.le cmp)).
      * by apply StronglySorted_Sorted, strict_le.
      * apply StronglySorted_Sorted, BTree.sorted_filter. by apply strict_le.
Qed.
End Arcs.

(** Arc iteration is exact: from any node, in any direction, [arcs]
    yields every incident edge exactly once, a self-loop included, in the
    strict order by neighbour, key and edge identity; in an undirected graph
    every direction means both. *)
Theorem arcs_exact (g : GraphInner) (n : nat) (direction : TraversalDirection) :
  graph_ok g -> (n < node_count g)%nat ->
  exists l, arcs g n direction = Some l /\ NoDup (map arc_edge l) /\
    lists_arcs g l (incident g n direction).
Proof.
  intros Hg Hn. by apply arcs_lists.
Qed.

(** A constructed graph satisfies the invariant. *)
Lemma constructed_ok k ga ns es g : with_attributes k ga ns es = Some (Ok g) -> graph_ok g.
Proof.
  intros Hw. destruct (with_attributes_exact k ga ns es) as (r & Hr & _ & Hg).
  rewrite Hw in Hr. injection Hr as <-. by apply Hg.
Qed.

End Model.

(** ** A sample graph *)

Module Sample.
#[local] Existing Instance Json.number.
#[local] Existing Instance Json.writer.

Definition n (name : string) : Node :=
  {| node_key := Str (lit name); node_label := None; node_attributes := [] |}.
Definition e (id from to l : string) : Edge :=
  {| edge_id := original (lit id); graphify_key := None; source := Str (lit from);
     target := Str (lit to); label := Some (lit l); weight := None; attributes := [] |}.

Definition nodes : list Node := [n "d"; n "b"; n "a"; n "c"].
Definition edges : list Edge :=
  [e "cd" "c" "d" "x"; e "ab" "a" "b" "x"; e "bc" "b" "c" "x"; e "aa" "a" "a" "y"; e "ca" "c" "a" "x"].

Definition built : option (result GraphError GraphInner) :=
  Eval vm_compute in with_attributes DiGraph [] nodes edges.
Definition graph : GraphInner :=
  match built with
  | Some (Ok g) => g
  | _ => {| kind := DiGraph; graph_attributes := []; Graph.nodes := []; Graph.edges := [];
            node_indexes := []; edge_indexes := [];
            outgoing_csr := from_rows []; incoming_csr := from_rows [] |}
  end.

Lemma built_eq : with_attributes DiGraph [] nodes edges = Some (Ok graph).
Proof. vm_compute. reflexivity. Qed.

Lemma graph_ok : graph_ok graph.
Proof. exact (constructed_ok _ _ _ _ _ built_eq). Qed.
End Sample.

Lemma construct_exact_witness :
  let _ := Json.number in let _ := Json.writer in
  exists r, with_attributes DiGraph [] Sample.nodes Sample.edges = Some r /\
    (forall g, r = Ok g -> graph_ok g) /\ is_ok r = true.
Proof.
  cbv zeta.
  destruct (@construct_exact Json.number Json.writer DiGraph [] Sample.nodes Sample.edges)
    as (r & Hr & _ & Hg).
  exists r. split; [exact Hr|]. split; [intros g Hrg; apply (Hg g Hrg)|].
  rewrite Sample.built_eq in Hr. injection Hr as <-. reflexivity.
Defined.

Lemma arcs_exact_witness :
  let _ := Json.number in let _ := Json.writer in
  exists l, arcs Sample.graph 0 Both = Some l /\ length l = 3%nat /\
    lists_arcs Sample.graph l (incident Sample.graph 0 Both).
Proof.
  cbv zeta.
  destruct (@arcs_exact Json.number Sample.graph 0 Both Sample.graph_ok)
    as (l & Hl & _ & H); [vm_compute; lia|].
  exists l. split; [exact Hl|]. split; [|exact H].
  vm_compute in Hl. injection Hl as <-. reflexivity.
Defined.

End Graph.
