(* ===== verification/GraphSearch.v ===== *)
(** Breadth-first and depth-first search over an abstract adjacency: the theory
    the traversals of crates/graph-algorithms/src/algorithms/traversal.rs are
    proved against.

    A breadth-first search is seen through its list of discoveries [(node,
    depth)]: the queue is always the part not yet expanded. *)
From S2P Require Import Prelude Graph.

Open Scope nat_scope.

Module GraphSearch.
Export Graph.

(** The arcs a loop over [arcs] discovers: allowed, to nodes not yet seen. *)
Fixpoint discover (ok : ArcRef -> bool) (seen : list nat) (arcs : list ArcRef) : list ArcRef :=
  match arcs with
  | [] => []
  | a :: arcs =>
      if ok a && negb (bool_decide (neighbor a ∈ seen)) then
        a :: discover ok (neighbor a :: seen) arcs
      else discover ok seen arcs
  end.

Lemma in_discover ok seen arcs a : a ∈ discover ok seen arcs ->
  a ∈ arcs /\ ok a = true /\ neighbor a ∉ seen.
Proof.
  revert seen. induction arcs as [|b arcs IH]; intros seen; simpl; [by inversion 1|].
  destruct (ok b) eqn:Eb; simpl.
  - case_bool_decide as Hs; simpl.
    + intros (? & ? & ?)%IH. split_and!; [by right|done|done].
    + intros [->|(H1 & H2 & H3)%IH]%elem_of_cons; [split_and!; [left|done|done]|].
      apply not_elem_of_cons in H3 as [_ H3]. split_and!; [by right|done|done].
  - intros (? & ? & ?)%IH. split_and!; [by right|done|done].
Qed.

Lemma discover_nodup ok seen arcs :
  NoDup (map neighbor (discover ok seen arcs)).
Proof.
  revert seen. induction arcs as [|b arcs IH]; intros seen; simpl; [constructor|].
  destruct (_ && _); [|done]. simpl. apply NoDup_cons. split; [|done].
  intros (a & -> & Ha)%list_elem_of_fmap.
  apply in_discover in Ha as (_ & _ & H). apply not_elem_of_cons in H as [H _]. done.
Qed.

Lemma discover_complete ok seen arcs a : a ∈ arcs -> ok a = true ->
  neighbor a ∈ seen \/ neighbor a ∈ map neighbor (discover ok seen arcs).
Proof.
  intros Ha Hok. revert seen. induction Ha as [a arcs|a b arcs Ha IH]; intros seen; simpl.
  - rewrite Hok. simpl. case_bool_decide; simpl; [by left|]. right. left.
  - destruct (_ && _); simpl; [|by apply IH]; auto.
    destruct (IH Hok (neighbor b :: seen)) as [[->|H]%elem_of_cons|H]; auto.
    + right. left.
    + right. by right.
Qed.

Lemma sorted_lookup {A} (R : A -> A -> Prop) l i j x y :
  StronglySorted R l -> i < j -> l !! i = Some x -> l !! j = Some y -> R x y.
Proof.
  intros Hl. revert i j. induction Hl as [|z l Hl IH Hz]; intros [|i] [|j] Hij Hx Hy;
    simpl in *; try done; try lia.
  - injection Hx as ->. by eapply (Forall_lookup_1 _ _ _ _ Hz).
  - eapply (IH i j); [lia|done|done].
Qed.

Section Search.
Context (N : nat) (adj : nat -> list ArcRef) (ok : ArcRef -> bool) (expands : nat -> bool)
  (within : nat -> bool) (seeds : list nat).
Hypothesis adj_range : forall u a, u < N -> a ∈ adj u -> neighbor a < N.
Hypothesis within_mono : forall d d', d' <= d -> within d = true -> within d' = true.
Hypothesis seeds_range : Forall (fun s => s < N) seeds.
Hypothesis seeds_nodup : NoDup seeds.

(** One hop the search may take from an expanded node. *)
Definition hop (u v : nat) : Prop :=
  expands u = true /\ exists a, a ∈ adj u /\ ok a = true /\ neighbor a = v.

(** Reachable from a seed by exactly [n] hops. *)
Inductive reach : nat -> nat -> Prop :=
| reach_seed s : s ∈ seeds -> reach 0 s
| reach_hop n u v : reach n u -> hop u v -> reach (S n) v.

(** [n] is the distance of [v] from the seeds. *)
Definition distance (n v : nat) : Prop := reach n v /\ forall m, reach m v -> n <= m.

(** Nodes at depths the search expands. *)
Definition limit (n : nat) : Prop := forall m, m < n -> within m = true.

Abbreviation gh_t := (list (nat * nat)).

(** The node discovered by [(u, a)], when [u] has depth [d]. *)
Definition found (e : nat * nat * ArcRef) : nat * nat := (neighbor e.2, S e.1.2).

(** [gh] are the discoveries so far, [i] of them are expanded, [tree] the
    discovering node, its depth and arc of each non-seed. *)
Record bfs_inv (gh : gh_t) (i : nat) (tree : list (nat * nat * ArcRef)) : Prop := {
  bi_shape : gh = map (fun s => (s, 0)) seeds ++ map found tree;
  bi_range : Forall (fun e => e.1 < N) gh;
  bi_reach : Forall (fun e => reach e.2 e.1 /\ limit e.2) gh;
  bi_nodup : NoDup gh.*1;
  bi_sorted : StronglySorted le gh.*2;
  bi_front : forall u d, gh !! i = Some (u, d) -> Forall (fun e => e.2 <= S d) gh;
  bi_tree : forall u d a, (u, d, a) ∈ tree ->
    (u, d) ∈ take i gh /\ expands u = true /\ within d = true /\ a ∈ adj u /\ ok a = true;
  bi_closed : forall u d, (u, d) ∈ take i gh -> expands u = true -> within d = true ->
    forall a, a ∈ adj u -> ok a = true -> exists d', (neighbor a, d') ∈ gh /\ d' <= S d;
}.

Lemma init_inv : bfs_inv (map (fun s => (s, 0)) seeds) 0 [].
Proof.
  assert ((map (fun s => (s, 0)) seeds).*1 = seeds) as E.
  { clear. induction seeds as [|s l IH]; [done|]. csimpl. by f_equal. }
  constructor; simpl.
  - by rewrite app_nil_r.
  - by apply Forall_fmap.
  - apply Forall_fmap, Forall_forall. intros s Hs. split; [by constructor|]. intros m Hm. simpl in Hm. lia.
  - by rewrite E.
  - clear. induction seeds as [|s l IH]; csimpl; constructor; [done|].
    apply Forall_forall. lia.
  - intros u d _. apply Forall_fmap, Forall_forall. intros x _. simpl. lia.
  - intros u d a Ha. inversion Ha.
  - intros u d Hu. rewrite take_0 in Hu. inversion Hu.
Qed.

(** Expanding nothing at the front. *)
Lemma skip_inv gh i tree u d : bfs_inv gh i tree -> gh !! i = Some (u, d) ->
  expands u && within d = false -> bfs_inv gh (S i) tree.
Proof.
  intros Hi Hu Hex. pose proof (take_S_r _ _ _ Hu) as Ht. destruct Hi. constructor; try done.
  - intros v dv Hv. eapply Forall_impl; [by apply (bi_front0 u d)|]. simpl. intros e He.
    assert (d <= dv); [|lia].
    apply (sorted_lookup le gh.*2 i (S i)); [done|lia| |];
      rewrite list_lookup_fmap; [by rewrite Hu|by rewrite Hv].
  - intros u' d' a Ha. destruct (bi_tree0 u' d' a Ha) as (H1 & H2). split; [|done].
    rewrite Ht. apply elem_of_app. by left.
  - intros u' d' Hin. rewrite Ht in Hin. apply elem_of_app in Hin as [Hin|Hin].
    + by apply bi_closed0.
    + apply list_elem_of_singleton in Hin as [= -> ->]. intros H1 H2. by rewrite H1, H2 in Hex.
Qed.

Lemma limit_S d : limit d -> within d = true -> limit (S d).
Proof. intros Hl Hw m Hm. destruct (decide (m = d)) as [->|]; [done|]. apply Hl. lia. Qed.

(** Expanding the front appends what its arcs discover. *)
Lemma expand_inv gh i tree u d : bfs_inv gh i tree -> gh !! i = Some (u, d) ->
  expands u = true -> within d = true ->
  let new := discover ok gh.*1 (adj u) in
  bfs_inv (gh ++ map (fun a => (neighbor a, S d)) new) (S i) (tree ++ map (fun a => (u, d, a)) new).
Proof.
  intros Hi Hu Hex Hw new. pose proof (take_S_r _ _ _ Hu) as Ht.
  pose proof (lookup_lt_Some _ _ _ Hu) as Hlt. destruct Hi.
  pose proof (bi_front0 u d Hu) as Hfront.
  assert (u < N) as HuN by (eapply (Forall_lookup_1 _ _ _ _ bi_range0 Hu)).
  destruct (Forall_lookup_1 _ _ _ _ bi_reach0 Hu) as [Hru Hlu]. simpl in Hru, Hlu.
  assert ((map (fun a => (neighbor a, S d)) new).*1 = map neighbor new) as E1.
  { clear. induction new as [|a l IH]; [done|]. csimpl. by f_equal. }
  assert (forall e, e ∈ map (fun a => (neighbor a, S d)) new -> e.2 = S d) as E2.
  { intros e (a & -> & _)%list_elem_of_fmap. done. }
  assert (take (S i) (gh ++ map (fun a => (neighbor a, S d)) new) = take i gh ++ [(u, d)]) as Et.
  { rewrite take_app_le by lia. done. }
  constructor.
  - rewrite bi_shape0 at 1. rewrite <- app_assoc, map_app. do 2 f_equal.
    rewrite map_map. apply map_ext. done.
  - apply Forall_app. split; [done|]. apply Forall_fmap, Forall_forall. intros a Ha.
    apply in_discover in Ha as (Ha & _ & _). by eapply adj_range.
  - apply Forall_app. split; [done|]. apply Forall_fmap, Forall_forall. intros a Ha.
    apply in_discover in Ha as (Ha & Hok & _). split; [|by apply limit_S]. simpl.
    econstructor; [done|]. split; [done|]. eauto.
  - rewrite fmap_app, E1. apply NoDup_app. split_and!; [done| |apply discover_nodup].
    intros x Hx (a & -> & Ha)%list_elem_of_fmap. by apply in_discover in Ha as (_ & _ & ?).
  - rewrite fmap_app. apply StronglySorted_app_2; [|done|].
    + intros x y (e & -> & He)%list_elem_of_fmap (e' & -> & He')%list_elem_of_fmap.
      rewrite (E2 e' He'). rewrite Forall_forall in Hfront. by apply Hfront.
    + clear. induction new as [|a l IH]; csimpl; constructor; [done|].
      apply Forall_fmap, Forall_fmap, Forall_forall. unfold compose. simpl. lia.
  - intros v dv Hv. assert (d <= dv) as Hd.
    { destruct (decide (S i < length gh)).
      - rewrite lookup_app_l in Hv by done.
        apply (sorted_lookup le gh.*2 i (S i)); [done|lia| |];
          rewrite list_lookup_fmap; [by rewrite Hu|by rewrite Hv].
      - rewrite lookup_app_r in Hv by lia. apply list_elem_of_lookup_2, E2 in Hv. simpl in Hv. lia. }
    apply Forall_app. split.
    + eapply Forall_impl; [exact Hfront|]. simpl. lia.
    + apply Forall_forall. intros e He. rewrite (E2 e He). lia.
  - intros u' d' a [Ha|Ha]%elem_of_app.
    + destruct (bi_tree0 u' d' a Ha) as (H1 & H2). split; [|done].
      rewrite Et. apply elem_of_app. by left.
    + apply list_elem_of_fmap in Ha as (b & [= -> -> ->] & Hb).
      apply in_discover in Hb as (Hb & Hok & _). split_and!; try done.
      rewrite Et. apply elem_of_app. right. by apply list_elem_of_singleton.
  - intros u' d' Hin H1 H2 a Ha Hok. rewrite Et in Hin. apply elem_of_app in Hin as [Hin|Hin].
    + destruct (bi_closed0 u' d' Hin H1 H2 a Ha Hok) as (d2 & Hd & Hle). exists d2.
      split; [|done]. apply elem_of_app. by left.
    + apply list_elem_of_singleton in Hin as [= -> ->].
      destruct (discover_complete ok gh.*1 (adj u) a Ha Hok) as [Hs|Hn].
      * apply list_elem_of_fmap in Hs as ([v d2] & E & Hin). simpl in E. subst v.
        exists d2. split; [apply elem_of_app; by left|]. rewrite Forall_forall in Hfront.
        by apply (Hfront _ Hin).
      * exists (S d). split; [|done]. apply elem_of_app. right.
        apply list_elem_of_fmap in Hn as (b & E & Hb). apply list_elem_of_fmap. exists b.
        by rewrite E.
Qed.

Lemma bfs_bound gh i tree : bfs_inv gh i tree -> length gh <= N.
Proof.
  intros Hi. destruct Hi. assert (gh.*1 ⊆+ seq 0 N) as Hs.
  { apply NoDup_submseteq; [done|]. intros x (e & -> & He)%list_elem_of_fmap.
    rewrite Forall_forall in bi_range0. apply elem_of_seq. specialize (bi_range0 _ He). lia. }
  apply submseteq_length in Hs. by rewrite length_fmap, length_seq in Hs.
Qed.

(** When everything is expanded, exactly the nodes within the limit have been
    found, at their distances. *)
Lemma bfs_complete gh tree : bfs_inv gh (length gh) tree ->
  forall n v, reach n v -> limit n -> exists d, (v, d) ∈ gh /\ d <= n.
Proof.
  intros Hi n v Hr. induction Hr as [s Hs|n u v Hr IH [Hex (a & Ha & Hok & <-)]]; intros Hl.
  - exists 0. split; [|lia]. rewrite (bi_shape _ _ _ Hi). apply elem_of_app. left.
    apply list_elem_of_fmap. eauto.
  - destruct IH as (d & Hd & Hle). { intros m Hm. apply Hl. lia. }
    destruct (bi_closed _ _ _ Hi u d) with (a := a) as (d' & H1 & H2); try done.
    + by rewrite firstn_all.
    + apply (within_mono n); [done|]. apply Hl. lia.
    + exists d'. split; [done|]. lia.
Qed.

Lemma bfs_distances gh tree : bfs_inv gh (length gh) tree ->
  forall v d, (v, d) ∈ gh <-> distance d v /\ limit d.
Proof.
  intros Hi v d. split.
  - intros Hin. pose proof (bi_reach _ _ _ Hi) as Hreach. rewrite Forall_forall in Hreach.
    destruct (Hreach _ Hin) as [Hr Hl]. simpl in Hr, Hl. split; [|done]. split; [done|].
    intros m Hm. destruct (decide (m < d)) as [Hlt|]; [|lia]. exfalso.
    destruct (bfs_complete gh tree Hi m v Hm) as (d' & Hd' & Hle).
    { intros k Hk. apply Hl. lia. }
    assert (d = d'); [|lia]. pose proof (bi_nodup _ _ _ Hi) as Hnd.
    apply list_elem_of_lookup in Hin as [j Hj]. apply list_elem_of_lookup in Hd' as [j' Hj'].
    assert (j = j') as <-.
    { apply (NoDup_lookup gh.*1 j j' v); [done| |]; rewrite list_lookup_fmap; [by rewrite Hj|by rewrite Hj']. }
    congruence.
  - intros [[Hr Hmin] Hl]. destruct (bfs_complete gh tree Hi d v Hr Hl) as (d' & Hd' & Hle).
    assert (d = d') as ->; [|done]. pose proof (bi_reach _ _ _ Hi) as Hreach.
    rewrite Forall_forall in Hreach. destruct (Hreach _ Hd') as [Hr' _]. simpl in Hr'.
    specialize (Hmin _ Hr'). lia.
Qed.
(** Part way, everything as close as the front has been found. *)
Lemma bfs_partial gh i tree u f : bfs_inv gh i tree -> gh !! i = Some (u, f) ->
  forall n v, reach n v -> limit n -> n <= f -> exists d, (v, d) ∈ gh /\ d <= n.
Proof.
  intros Hi Hu n v Hr. induction Hr as [s Hs|n w v Hr IH [Hex (a & Ha & Hok & <-)]]; intros Hl Hnf.
  - exists 0. split; [|lia]. rewrite (bi_shape _ _ _ Hi). apply elem_of_app. left.
    apply list_elem_of_fmap. eauto.
  - destruct IH as (d & Hd & Hle); [intros m Hm; apply Hl; lia|lia|].
    apply list_elem_of_lookup in Hd as [j Hj].
    assert (j < i) as Hji.
    { destruct (decide (j = i)) as [->|]; [rewrite Hu in Hj; simplify_eq; lia|].
      destruct (decide (j < i)); [done|]. exfalso.
      assert (f <= d); [|lia].
      apply (sorted_lookup le gh.*2 i j); [by destruct Hi|lia| |]; rewrite list_lookup_fmap;
        [by rewrite Hu | by rewrite Hj]. }
    destruct (bi_closed _ _ _ Hi w d) with (a := a) as (d' & H1 & H2); try done.
    + apply list_elem_of_lookup. exists j. by rewrite lookup_take_lt.
    + apply (within_mono n); [done|]. apply Hl. lia.
    + exists d'. split; [done|]. lia.
Qed.

(** What the front newly discovers is one hop further than the front. *)
Lemma discover_distance gh i tree u f a : bfs_inv gh i tree -> gh !! i = Some (u, f) ->
  expands u = true -> within f = true -> a ∈ adj u -> ok a = true -> neighbor a ∉ gh.*1 ->
  distance (S f) (neighbor a) /\ limit (S f).
Proof.
  intros Hi Hu Hex Hw Ha Hok Hn. destruct (Forall_lookup_1 _ _ _ _ (bi_reach _ _ _ Hi) Hu) as [Hr Hl].
  simpl in Hr, Hl. pose proof (limit_S f Hl Hw) as Hl'. split; [|done]. split.
  - econstructor; [done|]. split; eauto.
  - intros m Hm. destruct (decide (m <= f)); [|lia]. exfalso. apply Hn.
    destruct (bfs_partial gh i tree u f Hi Hu m (neighbor a) Hm) as (d & Hd & _); [|done|].
    { intros k Hk. apply Hl. lia. }
    apply list_elem_of_fmap. by exists (neighbor a, d).
Qed.

(** A node at depth [d] has ancestors at every smaller depth, so [d] is below
    the number of discoveries. *)
Lemma ancestors gh i tree v d : bfs_inv gh i tree -> (v, d) ∈ gh ->
  forall k, k <= d -> exists w, (w, k) ∈ gh.
Proof.
  intros Hi. revert v. induction d as [|d IH]; intros v Hv k Hk.
  - assert (k = 0) as -> by lia. eauto.
  - destruct (decide (k = S d)) as [->|]; [eauto|].
    assert (exists u a, (u, d, a) ∈ tree) as (u & a & Ht).
    { rewrite (bi_shape _ _ _ Hi) in Hv. apply elem_of_app in Hv as [Hv|Hv].
      - by apply list_elem_of_fmap in Hv as (s & [=] & _).
      - apply list_elem_of_fmap in Hv as ([[u d'] a] & [= -> ->] & Ht). eauto. }
    destruct (bi_tree _ _ _ Hi u d a Ht) as (Hu & _). apply (IH u); [|lia].
    by apply elem_of_take in Hu as (? & Hu & _); eapply list_elem_of_lookup_2.
Qed.

Lemma depth_bound gh i tree v d : bfs_inv gh i tree -> (v, d) ∈ gh -> d < length gh.
Proof.
  intros Hi Hv. assert (seq 0 (S d) ⊆+ gh.*2) as Hs.
  { apply NoDup_submseteq; [apply NoDup_seq|]. intros k Hk%elem_of_seq.
    destruct (ancestors gh i tree v d Hi Hv k) as [w Hw]; [lia|].
    apply list_elem_of_fmap. by exists (w, k). }
  apply submseteq_length in Hs. rewrite length_seq, length_fmap in Hs. lia.
Qed.

End Search.
End GraphSearch.
