(* ===== verification/Traversal.v ===== *)
(** Traversals and shortest paths:
    crates/graph-algorithms/src/algorithms/traversal.rs.

    [None] is a panic (indexing out of range, [unreachable!]) or fuel that ran
    out; the theorems show neither happens. Depths are [Z] ([usize]), indices
    and discovery orders [nat]. The weighted degrees (sums of [f64]) are left
    out. *)
From S2P Require Import Prelude Bytes BTree ExternalId Graph GraphSearch.

Open Scope Z_scope.

Module Traversal.
Export GraphSearch.

(** ** Options and results *)

Inductive TraversalStrategy := BreadthFirst | DepthFirst.
Inductive HubExpansionPolicy := ExpandAll | StopNonSeedAtOrAbove (degree : Z).

Record TraversalOptions := {
  strategy : TraversalStrategy;
  seeds : list ExternalId;
  max_depth : Z;
  direction : TraversalDirection;
  allowed_labels : list bytes;
  hub_policy : HubExpansionPolicy;
}.

(** [TraversalOptions::breadth_first] and [depth_first]. *)
Definition breadth_first_options (seeds : list ExternalId) (max_depth : Z) : TraversalOptions :=
  {| strategy := BreadthFirst; seeds := seeds; max_depth := max_depth; direction := Both;
     allowed_labels := []; hub_policy := ExpandAll |}.
Definition depth_first_options (seeds : list ExternalId) (max_depth : Z) : TraversalOptions :=
  {| strategy := DepthFirst; seeds := seeds; max_depth := max_depth; direction := Both;
     allowed_labels := []; hub_policy := ExpandAll |}.

Record Visit := { visit_node : ExternalId; depth : Z; discovery_order : nat }.

Inductive EdgeTraversalDirection := Forward | Reverse.

Record TraversedEdge := {
  te_edge_id : EdgeId;
  te_graphify_key : option ExternalId;
  te_source : ExternalId;
  te_target : ExternalId;
  te_direction : EdgeTraversalDirection;
  te_label : option bytes;
}.

Record TraversalResult := { visits : list Visit; discovery_edges : list TraversedEdge }.

Inductive DegreeKind := DegreeIn | DegreeOut | DegreeTotal.

Section Model.
Context {JN : JsonNumber}.

Record PathEdge := {
  pe_edge_id : EdgeId;
  pe_graphify_key : option ExternalId;
  pe_source : ExternalId;
  pe_target : ExternalId;
  pe_direction : EdgeTraversalDirection;
  pe_label : option bytes;
  pe_attributes : Attributes;
}.

Inductive PathResult :=
| MissingSource
| MissingTarget
| NoPath
| Found (node_ids : list ExternalId) (edges : list PathEdge).

(** ** Edges *)

Definition edge_label_allowed (edge : Edge) (allowed : list bytes) : bool :=
  bool_decide (allowed = []) ||
  match label edge with Some label => BTree.contains bytes_cmp label allowed | None => false end.

Definition edge_direction (graph : GraphInner) (current : nat) (edge : Edge)
    : option EdgeTraversalDirection :=
  id ← node_id graph current;
  Some (if decide (id = source edge) then Forward else Reverse).

Definition traversed_edge (graph : GraphInner) (current : nat) (edge : Edge) : option TraversedEdge :=
  direction ← edge_direction graph current edge;
  Some {| te_edge_id := edge_id edge; te_graphify_key := graphify_key edge;
          te_source := source edge; te_target := target edge; te_direction := direction;
          te_label := label edge |}.

Definition unweighted_degree_at (self : GraphInner) (node : nat) (kind_ : DegreeKind) : option nat :=
  let total :=
    outgoing ← outgoing self node;
    incoming ← incoming self node;
    Some (length outgoing + length incoming)%nat in
  if negb (is_directed (kind self)) then total
  else match kind_ with
       | DegreeIn => length <$> incoming self node
       | DegreeOut => length <$> outgoing self node
       | DegreeTotal => total
       end.

(** [Graph::degree], its unweighted field. *)
Definition degree (self : GraphInner) (id : ExternalId) (kind_ : DegreeKind)
    : option (result GraphError nat) :=
  match node_index self id with
  | Err e => Some (Err e)
  | Ok node => Ok <$> unweighted_degree_at self node kind_
  end.

Definition suppresses_hub (self : GraphInner) (node : nat) (options : TraversalOptions) : option bool :=
  match hub_policy options with
  | ExpandAll => Some false
  | StopNonSeedAtOrAbove degree =>
      total ← unweighted_degree_at self node DegreeTotal;
      Some (degree <=? Z.of_nat total)
  end.

(** [visited[index] = true]. *)
Definition mark (visited : list bool) (index : nat) : option (list bool) :=
  if Nat.ltb index (length visited) then Some (<[index := true]> visited) else None.

(** The test that skips the expansion of a popped node:
    [depth >= max_depth || (!seeds.contains(&node) && suppresses_hub(node))]. *)
Definition stops (self : GraphInner) (options : TraversalOptions) (seeds : list nat)
    (node : nat) (depth : Z) : option bool :=
  if max_depth options <=? depth then Some true
  else if bool_decide (node ∈ seeds) then Some false
  else suppresses_hub self node options.

(** ** Breadth first *)

Record bfs_state := {
  bfs_visited : list bool;
  bfs_queue : list (nat * Z);
  bfs_visits : list Visit;
  bfs_edges : list TraversedEdge;
}.

Fixpoint bfs_seeds (self : GraphInner) (seeds : list nat) (st : bfs_state) : option bfs_state :=
  match seeds with
  | [] => Some st
  | seed :: seeds =>
      visited ← mark (bfs_visited st) seed;
      id ← node_id self seed;
      bfs_seeds self seeds
        {| bfs_visited := visited; bfs_queue := bfs_queue st ++ [(seed, 0)];
           bfs_visits := bfs_visits st ++
             [{| visit_node := id; depth := 0; discovery_order := length (bfs_visits st) |}];
           bfs_edges := bfs_edges st |}
  end.

(** The loop over the arcs of a popped node. *)
Fixpoint bfs_arcs (self : GraphInner) (options : TraversalOptions) (node : nat) (depth_ : Z)
    (arcs : list ArcRef) (st : bfs_state) : option bfs_state :=
  match arcs with
  | [] => Some st
  | arc :: arcs =>
      edge ← edge_at self (arc_edge arc);
      if negb (edge_label_allowed edge (allowed_labels options)) then
        bfs_arcs self options node depth_ arcs st
      else
        seen ← bfs_visited st !! neighbor arc;
        if seen : bool then bfs_arcs self options node depth_ arcs st
        else
          visited ← mark (bfs_visited st) (neighbor arc);
          id ← node_id self (neighbor arc);
          discovery ← traversed_edge self node edge;
          bfs_arcs self options node depth_ arcs
            {| bfs_visited := visited; bfs_queue := bfs_queue st ++ [(neighbor arc, depth_ + 1)];
               bfs_visits := bfs_visits st ++
                 [{| visit_node := id; depth := depth_ + 1;
                     discovery_order := length (bfs_visits st) |}];
               bfs_edges := bfs_edges st ++ [discovery] |}
  end.

Fixpoint bfs_loop (fuel : nat) (self : GraphInner) (options : TraversalOptions) (seeds : list nat)
    (st : bfs_state) : option bfs_state :=
  match bfs_queue st with
  | [] => Some st
  | (node, depth) :: queue =>
      match fuel with
      | O => None
      | S fuel =>
          let st := {| bfs_visited := bfs_visited st; bfs_queue := queue;
                       bfs_visits := bfs_visits st; bfs_edges := bfs_edges st |} in
          stop ← stops self options seeds node depth;
          if stop : bool then bfs_loop fuel self options seeds st
          else
            arcs ← arcs self node (direction options);
            st ← bfs_arcs self options node depth arcs st;
            bfs_loop fuel self options seeds st
      end
  end.

(** Every node is queued at most once, which bounds the fuel. *)
Definition breadth_first (self : GraphInner) (options : TraversalOptions) (seeds : list nat)
    : option (result GraphError TraversalResult) :=
  st ← bfs_seeds self seeds
    {| bfs_visited := replicate (node_count self) false; bfs_queue := [];
       bfs_visits := []; bfs_edges := [] |};
  st ← bfs_loop (node_count self) self options seeds st;
  Some (Ok {| visits := bfs_visits st; discovery_edges := bfs_edges st |}).

(** ** Depth first *)

(** A stack entry: the node, its depth and the node and edge that scheduled
    it. The head of the list is the top of the stack. *)
Definition entry : Type := nat * Z * option (nat * nat).

Record dfs_state := {
  dfs_visited : list bool;
  dfs_stack : list entry;
  dfs_visits : list Visit;
  dfs_edges : list TraversedEdge;
}.

(** The loop over the reversed seeds. *)
Fixpoint dfs_seeds (seeds : list nat) (visited : list bool) (stack : list entry)
    : option (list bool * list entry) :=
  match seeds with
  | [] => Some (visited, stack)
  | seed :: seeds =>
      seen ← visited !! seed;
      if seen : bool then dfs_seeds seeds visited stack
      else
        visited ← mark visited seed;
        dfs_seeds seeds visited ((seed, 0, None) :: stack)
  end.

(** The filter over the arcs, with its set of neighbours already kept. *)
Fixpoint dfs_filter (self : GraphInner) (options : TraversalOptions) (visited : list bool)
    (arcs : list ArcRef) (discovered : list nat) : option (list ArcRef) :=
  match arcs with
  | [] => Some []
  | arc :: arcs =>
      seen ← visited !! neighbor arc;
      if seen : bool then dfs_filter self options visited arcs discovered
      else
        edge ← edge_at self (arc_edge arc);
        if negb (edge_label_allowed edge (allowed_labels options)) then
          dfs_filter self options visited arcs discovered
        else if BTree.contains Nat.compare (neighbor arc) discovered then
          dfs_filter self options visited arcs discovered
        else
          rest ← dfs_filter self options visited arcs
            (BTree.set_insert Nat.compare (neighbor arc) discovered);
          Some (arc :: rest)
  end.

(** The loop over the reversed kept arcs. *)
Fixpoint dfs_push (node : nat) (depth_ : Z) (arcs : list ArcRef) (visited : list bool)
    (stack : list entry) : option (list bool * list entry) :=
  match arcs with
  | [] => Some (visited, stack)
  | arc :: arcs =>
      visited ← mark visited (neighbor arc);
      dfs_push node depth_ arcs visited
        ((neighbor arc, depth_ + 1, Some (node, arc_edge arc)) :: stack)
  end.

(** One iteration of the loop, after the pop. *)
Definition dfs_visit (self : GraphInner) (options : TraversalOptions) (seeds : list nat)
    (node : nat) (depth_ : Z) (discovery : option (nat * nat)) (st : dfs_state) : option dfs_state :=
  id ← node_id self node;
  let visits := dfs_visits st ++
    [{| visit_node := id; depth := depth_; discovery_order := length (dfs_visits st) |}] in
  edges ← match discovery with
          | None => Some (dfs_edges st)
          | Some (previous, edge_index) =>
              edge ← edge_at self edge_index;
              discovery ← traversed_edge self previous edge;
              Some (dfs_edges st ++ [discovery])
          end;
  stop ← stops self options seeds node depth_;
  if stop : bool then
    Some {| dfs_visited := dfs_visited st; dfs_stack := dfs_stack st;
            dfs_visits := visits; dfs_edges := edges |}
  else
    arcs ← arcs self node (direction options);
    arcs ← dfs_filter self options (dfs_visited st) arcs [];
    pushed ← dfs_push node depth_ (rev arcs) (dfs_visited st) (dfs_stack st);
    Some {| dfs_visited := pushed.1; dfs_stack := pushed.2; dfs_visits := visits; dfs_edges := edges |}.

Fixpoint dfs_loop (fuel : nat) (self : GraphInner) (options : TraversalOptions) (seeds : list nat)
    (st : dfs_state) : option dfs_state :=
  match dfs_stack st with
  | [] => Some st
  | (node, depth, discovery) :: stack =>
      match fuel with
      | O => None
      | S fuel =>
          st ← dfs_visit self options seeds node depth discovery
            {| dfs_visited := dfs_visited st; dfs_stack := stack;
               dfs_visits := dfs_visits st; dfs_edges := dfs_edges st |};
          dfs_loop fuel self options seeds st
      end
  end.

Definition depth_first (self : GraphInner) (options : TraversalOptions) (seeds : list nat)
    : option (result GraphError TraversalResult) :=
  init ← dfs_seeds (rev seeds) (replicate (node_count self) false) [];
  st ← dfs_loop (node_count self) self options seeds
    {| dfs_visited := init.1; dfs_stack := init.2; dfs_visits := []; dfs_edges := [] |};
  Some (Ok {| visits := dfs_visits st; discovery_edges := dfs_edges st |}).

(** ** Entry point *)

(** The loop over the seeds of [traverse]. *)
Fixpoint seed_indexes (self : GraphInner) (seeds : list ExternalId) (seed_set : list nat)
    : result GraphError (list nat) :=
  match seeds with
  | [] => Ok []
  | seed :: seeds =>
      let? index := node_index self seed in
      if BTree.contains Nat.compare index seed_set then seed_indexes self seeds seed_set
      else
        let? rest := seed_indexes self seeds (BTree.set_insert Nat.compare index seed_set) in
        Ok (index :: rest)
  end.

(** [Graph::traverse]. *)
Definition traverse (self : GraphInner) (options : TraversalOptions)
    : option (result GraphError TraversalResult) :=
  if bool_decide (seeds options = []) then
    Some (Err (InvalidOption "traversal requires at least one seed"))
  else match seed_indexes self (seeds options) [] with
  | Err e => Some (Err e)
  | Ok indexes =>
      match strategy options with
      | BreadthFirst => breadth_first self options indexes
      | DepthFirst => depth_first self options indexes
      end
  end.

(** ** Shortest path *)

Definition path_edge (graph : GraphInner) (previous : nat) (edge : Edge) : option PathEdge :=
  direction ← edge_direction graph previous edge;
  Some {| pe_edge_id := edge_id edge; pe_graphify_key := graphify_key edge;
          pe_source := source edge; pe_target := target edge; pe_direction := direction;
          pe_label := label edge; pe_attributes := attributes edge |}.

(** The loop of [reconstruct_path], before the reversals. *)
Fixpoint walk_back (fuel : nat) (self : GraphInner) (source_ current : nat)
    (predecessor : list (option (nat * nat))) (path_nodes : list nat) (path_edges : list PathEdge)
    : option (list nat * list PathEdge) :=
  if Nat.eqb current source_ then Some (path_nodes, path_edges)
  else match fuel with
  | O => None
  | S fuel =>
      entry ← predecessor !! current;
      step ← entry;
      let '(previous, edge_index) := (step : nat * nat) in
      edge ← edge_at self edge_index;
      pe ← path_edge self previous edge;
      walk_back fuel self source_ previous predecessor (path_nodes ++ [previous]) (path_edges ++ [pe])
  end.

Definition reconstruct_path (self : GraphInner) (source_ target_ : nat)
    (predecessor : list (option (nat * nat))) : option PathResult :=
  walked ← walk_back (node_count self) self source_ target_ predecessor [target_] [];
  node_ids ← mapM (node_id self) (rev walked.1);
  Some (Found node_ids (rev walked.2)).

Record sp_state := {
  sp_visited : list bool;
  sp_predecessor : list (option (nat * nat));
  sp_queue : list (nat * Z);
}.

(** [predecessor[index] = Some((node, edge))]. *)
Definition set_predecessor (predecessor : list (option (nat * nat))) (index : nat) (p : nat * nat)
    : option (list (option (nat * nat))) :=
  if Nat.ltb index (length predecessor) then Some (<[index := Some p]> predecessor) else None.

(** The loop over the arcs; [inr] is the early return. *)
Fixpoint sp_arcs (self : GraphInner) (source_ target_ : nat) (allowed_labels : list bytes)
    (node : nat) (depth_ : Z) (arcs : list ArcRef) (st : sp_state) : option (sp_state + PathResult) :=
  match arcs with
  | [] => Some (inl st)
  | arc :: arcs =>
      seen ← sp_visited st !! neighbor arc;
      if seen : bool then sp_arcs self source_ target_ allowed_labels node depth_ arcs st
      else
        edge ← edge_at self (arc_edge arc);
        if negb (edge_label_allowed edge allowed_labels) then
          sp_arcs self source_ target_ allowed_labels node depth_ arcs st
        else
          visited ← mark (sp_visited st) (neighbor arc);
          predecessor ← set_predecessor (sp_predecessor st) (neighbor arc) (node, arc_edge arc);
          if Nat.eqb (neighbor arc) target_ then
            inr <$> reconstruct_path self source_ target_ predecessor
          else
            sp_arcs self source_ target_ allowed_labels node depth_ arcs
              {| sp_visited := visited; sp_predecessor := predecessor;
                 sp_queue := sp_queue st ++ [(neighbor arc, depth_ + 1)] |}
  end.

Fixpoint sp_loop (fuel : nat) (self : GraphInner) (source_ target_ : nat)
    (direction : TraversalDirection) (allowed_labels : list bytes) (max_depth : option Z)
    (st : sp_state) : option PathResult :=
  match sp_queue st with
  | [] => Some NoPath
  | (node, depth) :: queue =>
      match fuel with
      | O => None
      | S fuel =>
          let st := {| sp_visited := sp_visited st; sp_predecessor := sp_predecessor st;
                       sp_queue := queue |} in
          if match max_depth with Some bound => bound <=? depth | None => false end then
            sp_loop fuel self source_ target_ direction allowed_labels max_depth st
          else
            arcs ← arcs self node direction;
            next ← sp_arcs self source_ target_ allowed_labels node depth arcs st;
            match next with
            | inl st => sp_loop fuel self source_ target_ direction allowed_labels max_depth st
            | inr r => Some r
            end
      end
  end.

(** [Graph::shortest_path]. *)
Definition shortest_path (self : GraphInner) (source_ target_ : ExternalId)
    (direction : TraversalDirection) (allowed_labels : list bytes) (max_depth : option Z)
    : option PathResult :=
  match node_index self source_ with
  | Err _ => Some MissingSource
  | Ok source_index =>
      match node_index self target_ with
      | Err _ => Some MissingTarget
      | Ok target_index =>
          if Nat.eqb source_index target_index then Some (Found [source_] [])
          else
            visited ← mark (replicate (node_count self) false) source_index;
            sp_loop (node_count self) self source_index target_index direction allowed_labels
              max_depth
              {| sp_visited := visited; sp_predecessor := replicate (node_count self) None;
                 sp_queue := [(source_index, 0)] |}
      end
  end.

(** ** Neighbours and edges *)

(** [Vec::dedup]. *)
Fixpoint dedup (l : list ExternalId) : list ExternalId :=
  match l with
  | a :: ((b :: _) as l) => if decide (a = b) then dedup l else a :: dedup l
  | _ => l
  end.

Definition neighbors (self : GraphInner) (id : ExternalId) (direction : TraversalDirection)
    : option (result GraphError (list ExternalId)) :=
  match node_index self id with
  | Err e => Some (Err e)
  | Ok node =>
      arcs ← arcs self node direction;
      ids ← mapM (fun arc => node_id self (neighbor arc)) arcs;
      Some (Ok (dedup (BTree.sort_by id_cmp ids)))
  end.
Definition successors (self : GraphInner) (id : ExternalId) := neighbors self id Out.
Definition predecessors (self : GraphInner) (id : ExternalId) := neighbors self id In.

Definition edge_ids_for (self : GraphInner) (id : ExternalId) (direction : TraversalDirection)
    : option (result GraphError (list EdgeId)) :=
  match node_index self id with
  | Err e => Some (Err e)
  | Ok node =>
      arcs ← arcs self node direction;
      ids ← mapM (fun arc => edge_id <$> edge_at self (arc_edge arc)) arcs;
      Some (Ok ids)
  end.
Definition out_edge_ids (self : GraphInner) (id : ExternalId) := edge_ids_for self id Out.
Definition in_edge_ids (self : GraphInner) (id : ExternalId) := edge_ids_for self id In.
Definition incident_edge_ids (self : GraphInner) (id : ExternalId) := edge_ids_for self id Both.

Definition edges_between (self : GraphInner) (source_ target_ : ExternalId)
    (direction : TraversalDirection) : option (result GraphError (list EdgeId)) :=
  match node_index self source_ with
  | Err e => Some (Err e)
  | Ok source_ =>
      match node_index self target_ with
      | Err e => Some (Err e)
      | Ok target_ =>
          arcs ← arcs self source_ direction;
          ids ← mapM (fun arc => edge_id <$> edge_at self (arc_edge arc))
            (List.filter (fun arc => Nat.eqb (neighbor arc) target_) arcs);
          Some (Ok ids)
      end
  end.

Definition has_edge_between (self : GraphInner) (source_ target_ : ExternalId)
    (direction : TraversalDirection) : option (result GraphError bool) :=
  match node_index self source_ with
  | Err e => Some (Err e)
  | Ok source_ =>
      match node_index self target_ with
      | Err e => Some (Err e)
      | Ok target_ =>
          arcs ← arcs self source_ direction;
          Some (Ok (existsb (fun arc => Nat.eqb (neighbor arc) target_) arcs))
      end
  end.

End Model.
End Traversal.
