(* ===== verification/TraversalSpec.v ===== *)
(** What the traversals promise, and the bridge from their code to the abstract
    searches of GraphSearch.v. *)
From S2P Require Import Prelude Bytes BTree ExternalId Graph GraphSearch Traversal.

Open Scope nat_scope.

Module TraversalSpec.
Export Traversal.

Section Spec.
Context {JN : JsonNumber}.

(** ** Specification *)

(** An edge with an allowed label takes the search from [u] to [v]. *)
Definition allowed_hop (g : GraphInner) (dir : TraversalDirection) (labels : list bytes)
    (u v : nat) : Prop :=
  exists a e, incident g u dir a /\ neighbor a = v /\ edges g !! arc_edge a = Some e /\
    edge_label_allowed e labels = true.

(** [n] allowed hops lead from a source to [v], through nodes satisfying
    [through]. *)
Inductive reaches (g : GraphInner) (dir : TraversalDirection) (labels : list bytes)
    (sources through : nat -> Prop) : nat -> nat -> Prop :=
| reaches_source s : sources s -> reaches g dir labels sources through 0 s
| reaches_hop n u v : reaches g dir labels sources through n u -> through u ->
    allowed_hop g dir labels u v -> reaches g dir labels sources through (S n) v.

Definition is_seed (g : GraphInner) (o : TraversalOptions) (v : nat) : Prop :=
  exists id, id ∈ seeds o /\ node_id g v = Some id.

(** Nodes the traversal expands: seeds and nodes that are not hubs. *)
Definition expanded (g : GraphInner) (o : TraversalOptions) (v : nat) : Prop :=
  is_seed g o v \/ suppresses_hub g v o = Some false.

Definition traversal_reaches (g : GraphInner) (o : TraversalOptions) : nat -> nat -> Prop :=
  reaches g (direction o) (allowed_labels o) (is_seed g o) (expanded g o).

(** [te] records that [x] was discovered from [p]. *)
Definition discovers (g : GraphInner) (o : TraversalOptions) (p x : Visit) (te : TraversedEdge) : Prop :=
  depth x = (depth p + 1)%Z /\ discovery_order p < discovery_order x /\
  (exists e, e ∈ edges g /\ edge_label_allowed e (allowed_labels o) = true /\
     te_edge_id te = edge_id e /\ te_graphify_key te = graphify_key e /\
     te_source te = source e /\ te_target te = target e /\ te_label te = label e) /\
  match te_direction te with
  | Forward => te_source te = visit_node p /\ te_target te = visit_node x
  | Reverse => te_source te = visit_node x /\ te_target te = visit_node p
  end.

(** The result is a forest: distinct nodes in discovery order, seeds at depth
    zero, and one edge per other node, in order, from an earlier visit. *)
Record forest (g : GraphInner) (o : TraversalOptions) (r : TraversalResult) : Prop := {
  fo_distinct : NoDup (map visit_node (visits r));
  fo_order : forall k x, visits r !! k = Some x -> discovery_order x = k;
  fo_seeds : forall x, x ∈ visits r -> (0 <= depth x)%Z /\ (depth x = 0%Z <-> visit_node x ∈ seeds o);
  fo_edges : Forall2 (fun x te => exists p, p ∈ visits r /\ discovers g o p x te)
    (filter (fun x => (0 < depth x)%Z) (visits r)) (discovery_edges r);
}.

(** ** The adjacency the code reads *)

Section Bridge.
Context (g : GraphInner) (Hg : graph_ok g).

Abbreviation N := (node_count g).

Definition adj (dir : TraversalDirection) (u : nat) : list ArcRef := default [] (arcs g u dir).

Lemma adj_arcs dir u : u < N -> arcs g u dir = Some (adj dir u).
Proof. intros Hu. destruct (arcs_lists g Hg u dir Hu) as (l & Hl & _). unfold adj. by rewrite Hl. Qed.

Lemma in_adj dir u a : u < N -> a ∈ adj dir u <-> incident g u dir a.
Proof.
  intros Hu. destruct (arcs_lists g Hg u dir Hu) as (l & Hl & _ & _ & _ & Hin).
  unfold adj. by rewrite Hl.
Qed.

Lemma incident_range dir u a : incident g u dir a ->
  u < N /\ neighbor a < N /\ exists e, edges g !! arc_edge a = Some e.
Proof.
  assert (forall i id, node_id g i = Some id -> i < N) as Hid.
  { intros i id. unfold node_id. intros (x & Hx & _)%fmap_Some. by eapply lookup_lt_Some. }
  unfold incident. destruct (if is_directed (kind g) then dir else Both);
    [intros (e & H1 & H2 & H3) | intros (e & H1 & H2 & H3) |
      intros [(e & H1 & H2 & H3)|(e & H1 & H2 & H3)]]; eauto 6.
Qed.

Lemma adj_range dir u a : u < N -> a ∈ adj dir u -> neighbor a < N.
Proof. intros Hu Ha. apply in_adj in Ha; [|done]. by apply incident_range in Ha as (_ & ? & _). Qed.

Definition arc_ok (labels : list bytes) (a : ArcRef) : bool :=
  match edges g !! arc_edge a with Some e => edge_label_allowed e labels | None => false end.

Lemma hop_allowed dir labels u v : u < N ->
  (exists a, a ∈ adj dir u /\ arc_ok labels a = true /\ neighbor a = v) <-> allowed_hop g dir labels u v.
Proof.
  intros Hu. unfold allowed_hop, arc_ok. split.
  - intros (a & Ha & Hok & Hv). apply in_adj in Ha; [|done].
    destruct (edges g !! arc_edge a) as [e|] eqn:E; [|done]. by exists a, e.
  - intros (a & e & Ha & Hv & He & Hok). exists a. rewrite in_adj, He by done. done.
Qed.

(** [suppresses_hub] and the degrees never panic on existing nodes. *)
Lemma degree_some u k : u < N -> exists n, unweighted_degree_at g u k = Some n.
Proof.
  intros Hu. destruct (gk_outgoing g Hg u Hu) as (o & Ho & _).
  destruct (gk_incoming g Hg u Hu) as (i & Hi & _).
  unfold unweighted_degree_at. rewrite Ho, Hi. simpl. destruct (negb _), k; eauto.
Qed.

Lemma suppresses_some u o : u < N -> exists b, suppresses_hub g u o = Some b.
Proof.
  intros Hu. unfold suppresses_hub. destruct (hub_policy o); [eauto|].
  destruct (degree_some u DegreeTotal Hu) as [n ->]. simpl. eauto.
Qed.

Definition expands (o : TraversalOptions) (ss : list nat) (u : nat) : bool :=
  bool_decide (u ∈ ss) || negb (default true (suppresses_hub g u o)).
Definition within (o : TraversalOptions) (d : nat) : bool := (Z.of_nat d <? max_depth o)%Z.

Lemma stops_eq o ss u d : u < N ->
  stops g o ss u (Z.of_nat d) = Some (negb (expands o ss u && within o d)).
Proof.
  intros Hu. unfold stops, expands, within. destruct (suppresses_some u o Hu) as [b Hb].
  destruct (Z.leb_spec (max_depth o) (Z.of_nat d)), (Z.ltb_spec (Z.of_nat d) (max_depth o)); try lia.
  - by rewrite andb_false_r.
  - rewrite andb_true_r. case_bool_decide; [done|]. rewrite Hb. simpl. by rewrite negb_involutive.
Qed.

Lemma within_mono o d d' : d' <= d -> within o d = true -> within o d' = true.
Proof. unfold within. rewrite !Z.ltb_lt. lia. Qed.

Lemma limit_iff o d : (0 <= max_depth o)%Z ->
  limit (within o) d <-> (Z.of_nat d <= max_depth o)%Z.
Proof.
  intros Hm. unfold limit, within. split.
  - intros H. destruct d as [|d]; [lia|]. specialize (H d). rewrite Z.ltb_lt in H. lia.
  - intros H m Hd. apply Z.ltb_lt. lia.
Qed.

(** ** The visited array *)

Definition marks (seen : list nat) (visited : list bool) : Prop :=
  length visited = N /\ forall v, v < N -> visited !! v = Some (bool_decide (v ∈ seen)).

Lemma marks_ext seen seen' visited : (forall v, v ∈ seen <-> v ∈ seen') ->
  marks seen visited -> marks seen' visited.
Proof.
  intros He [H1 H2]. split; [done|]. intros v Hv. rewrite H2 by done. f_equal.
  by apply bool_decide_ext.
Qed.

Lemma marks_nil : marks [] (replicate N false).
Proof.
  split; [apply length_replicate|]. intros v Hv. by rewrite lookup_replicate_2 by done.
Qed.

Lemma mark_some seen visited v : marks seen visited -> v < N ->
  exists visited', mark visited v = Some visited' /\ marks (v :: seen) visited'.
Proof.
  intros [H1 H2] Hv. unfold mark. rewrite H1, (proj2 (Nat.ltb_lt _ _)) by done.
  eexists. split; [done|]. split; [by rewrite length_insert|]. intros w Hw.
  destruct (decide (w = v)) as [->|Hne].
  - rewrite list_lookup_insert_eq by lia. f_equal. symmetry. apply bool_decide_eq_true. left.
  - rewrite list_lookup_insert_ne, H2 by done. f_equal. apply bool_decide_ext.
    rewrite elem_of_cons. tauto.
Qed.

(** ** Rendering of discoveries *)

Definition id_of (v : nat) : ExternalId := default Null (node_id g v).

Lemma node_id_of v : v < N -> node_id g v = Some (id_of v).
Proof.
  intros Hv. unfold id_of, node_id. destruct (lookup_lt_is_Some_2 (nodes g) v Hv) as [x Hx].
  by rewrite Hx.
Qed.

Lemma id_of_inj v w : v < N -> w < N -> id_of v = id_of w -> v = w.
Proof.
  intros Hv Hw E. pose proof (node_id_of v Hv) as H1. pose proof (node_id_of w Hw) as H2.
  rewrite E in H1. apply (gk_node_index g Hg) in H1, H2. congruence.
Qed.

Definition mk_visit (k : nat) (e : nat * nat) : Visit :=
  {| visit_node := id_of e.1; depth := Z.of_nat e.2; discovery_order := k |}.
Definition visits_of (gh : list (nat * nat)) : list Visit := imap mk_visit gh.

Lemma visits_of_snoc gh e : visits_of (gh ++ [e]) = visits_of gh ++ [mk_visit (length gh) e].
Proof. unfold visits_of. rewrite imap_app. simpl. by rewrite Nat.add_0_r. Qed.

Lemma length_visits_of gh : length (visits_of gh) = length gh.
Proof. apply length_imap. Qed.

Definition mk_edge (u : nat) (e : Edge) : TraversedEdge :=
  {| te_edge_id := edge_id e; te_graphify_key := graphify_key e; te_source := source e;
     te_target := target e;
     te_direction := if decide (id_of u = source e) then Forward else Reverse;
     te_label := label e |}.

Lemma traversed_edge_eq u e : u < N -> traversed_edge g u e = Some (mk_edge u e).
Proof. intros Hu. unfold traversed_edge, edge_direction. by rewrite node_id_of. Qed.

(** The endpoints of a rendered edge are the two nodes, as its direction says. *)
Lemma mk_edge_ends dir u a e : incident g u dir a -> edges g !! arc_edge a = Some e ->
  match te_direction (mk_edge u e) with
  | Forward => source e = id_of u /\ target e = id_of (neighbor a)
  | Reverse => source e = id_of (neighbor a) /\ target e = id_of u
  end.
Proof.
  intros Ha He.
  assert ((source e = id_of u /\ target e = id_of (neighbor a)) \/
    (source e = id_of (neighbor a) /\ target e = id_of u)) as Hends.
  { unfold id_of. unfold incident in Ha. destruct (if is_directed (kind g) then dir else Both);
      [destruct Ha as (e' & H1 & H2 & H3) | destruct Ha as (e' & H1 & H2 & H3) |
       destruct Ha as [(e' & H1 & H2 & H3)|(e' & H1 & H2 & H3)]];
      rewrite He in H1; injection H1 as <-; rewrite H2, H3; auto. }
  unfold mk_edge. simpl. destruct (decide (id_of u = source e)) as [E|E]; simpl;
    destruct Hends as [[H1 H2]|[H1 H2]]; rewrite ?H1, ?H2 in *; try done.
Qed.

(** ** Seeds *)

#[export] Instance nat_compare_strict : StrictCompare Nat.compare.
Proof.
  split; [split|].
  - apply Nat.compare_refl.
  - intros x y. by rewrite Nat.compare_antisym.
  - intros x y z []; rewrite ?Nat.compare_eq_iff, ?Nat.compare_lt_iff, ?Nat.compare_gt_iff; lia.
  - apply Nat.compare_eq.
Qed.

Lemma seed_indexes_some ids set : (forall id, id ∈ ids -> id ∈ map node_key (nodes g)) ->
  exists ss, seed_indexes g ids set = Ok ss /\ NoDup ss /\ Forall (fun s => s < N) ss /\
    forall v, v ∈ ss <-> v ∉ set /\ exists id, id ∈ ids /\ node_id g v = Some id.
Proof.
  revert set. induction ids as [|id ids IH]; intros set Hids; simpl.
  - exists []. split_and!; [done|constructor|constructor|]. intros v.
    split; [by inversion 1 | intros (_ & id & H & _); by inversion H].
  - assert (id ∈ map node_key (nodes g)) as Hin by (apply Hids; left).
    apply list_elem_of_fmap in Hin as (x & -> & Hx). apply list_elem_of_lookup in Hx as [i Hi].
    assert (node_id g i = Some (node_key x)) as Hid by (unfold node_id; by rewrite Hi).
    assert (node_index g (node_key x) = Ok i) as ->.
    { unfold node_index. by rewrite (proj2 (gk_node_index g Hg _ _) Hid). }
    simpl. assert (forall v, node_id g v = Some (node_key x) <-> v = i) as Hu.
    { intros v. split; [|by intros ->]. intros Hv. apply (gk_node_index g Hg) in Hv, Hid. congruence. }
    destruct (BTree.contains Nat.compare i set) eqn:Ec.
    + apply (BTree.contains_iff Nat.compare) in Ec.
      destruct (IH set) as (ss & H1 & H2 & H3 & H4); [by intros; apply Hids; right|].
      exists ss. split_and!; [done|done|done|]. intros v. rewrite H4. split.
      * intros (Hn & id & Hid' & Hv). split; [done|]. exists id. split; [by right|done].
      * intros (Hn & id & [->|Hid']%elem_of_cons & Hv); [|eauto]. apply Hu in Hv as ->. done.
    + assert (i ∉ set) as Hni.
      { intros Hin. apply (BTree.contains_iff Nat.compare) in Hin. congruence. }
      destruct (IH (BTree.set_insert Nat.compare i set)) as (ss & H1 & H2 & H3 & H4);
        [by intros; apply Hids; right|].
      setoid_rewrite (BTree.in_set_insert Nat.compare) in H4.
      exists (i :: ss). rewrite H1. split_and!; [done| | |].
      * constructor; [|done]. rewrite H4. tauto.
      * constructor; [|done]. by eapply lookup_lt_Some.
      * intros v. rewrite elem_of_cons, H4. split.
        -- intros [->|(Hn & id & Hid' & Hv)].
           ++ split; [done|]. exists (node_key x). split; [left|done].
           ++ split; [tauto|]. exists id. split; [by right|done].
        -- intros (Hn & id & [->|Hid']%elem_of_cons & Hv); [left; by apply Hu|].
           destruct (decide (v = i)); [by left|right]. split; [tauto|eauto].
Qed.

End Bridge.
End Spec.
End TraversalSpec.
