(* ===== verification/TraversalBfs.v ===== *)
(** Breadth-first traversal returns the distances: [Graph::breadth_first] of
    crates/graph-algorithms/src/algorithms/traversal.rs. *)
From S2P Require Import Prelude Bytes BTree ExternalId Graph GraphSearch Traversal TraversalSpec.

Open Scope nat_scope.

Module TraversalBfs.
Export TraversalSpec.

Section Bfs.
Context {JN : JsonNumber} (g : GraphInner) (Hg : graph_ok g).

Abbreviation N := (node_count g).

(** ** The loop over arcs is [discover] *)

Lemma discover_ext ok seen seen' arcs : (forall v, v ∈ seen <-> v ∈ seen') ->
  discover ok seen arcs = discover ok seen' arcs.
Proof.
  revert seen seen'. induction arcs as [|a arcs IH]; intros seen seen' He; simpl; [done|].
  rewrite (bool_decide_ext _ _ (He (neighbor a))). rewrite (IH seen seen') by done.
  destruct (_ && _); [|done]. f_equal. apply IH. intros v. rewrite !elem_of_cons, He. done.
Qed.

Definition edge_of (a : ArcRef) : option Edge := edges g !! arc_edge a.

(** The discovery edges rendered from the search tree. *)
Definition edges_of (tree : list (nat * nat * ArcRef)) : list TraversedEdge :=
  omap (fun x => mk_edge g x.1.1 <$> edge_of x.2) tree.

Lemma edges_of_snoc tree u d a e : edge_of a = Some e ->
  edges_of (tree ++ [(u, d, a)]) = edges_of tree ++ [mk_edge g u e].
Proof. intros He. unfold edges_of. rewrite omap_app. simpl. by rewrite He. Qed.

(** The state of the code, from the discoveries [gh], the tree and the queue. *)
Definition state_of (gh : list (nat * nat)) (tree : list (nat * nat * ArcRef)) (queue : list (nat * Z))
    (st : bfs_state) : Prop :=
  marks g gh.*1 (bfs_visited st) /\ bfs_queue st = queue /\ bfs_visits st = visits_of g gh /\
  bfs_edges st = edges_of tree.

Definition queued (e : nat * nat) : nat * Z := (e.1, Z.of_nat e.2).

Lemma bfs_arcs_discover o u d arcs st gh tree queue :
  u < N -> Forall (fun a => neighbor a < N /\ is_Some (edge_of a)) arcs ->
  state_of gh tree queue st ->
  let new := discover (arc_ok g (allowed_labels o)) gh.*1 arcs in
  exists st', bfs_arcs g o u (Z.of_nat d) arcs st = Some st' /\
    state_of (gh ++ map (fun a => (neighbor a, S d)) new) (tree ++ map (fun a => (u, d, a)) new)
      (queue ++ map (fun a => queued (neighbor a, S d)) new) st'.
Proof.
  intros Hu Harcs. revert st gh tree queue.
  induction Harcs as [|a arcs [Ha [e He]] _ IH]; intros st gh tree queue (Hm & Hq & Hv & Ht); simpl.
  - exists st. split; [done|]. rewrite !app_nil_r. done.
  - unfold edge_of in He. unfold edge_at. rewrite He. simpl.
    assert (arc_ok g (allowed_labels o) a = edge_label_allowed e (allowed_labels o)) as ->
      by (unfold arc_ok; by rewrite He).
    destruct (edge_label_allowed e _) eqn:El; simpl.
    2: { apply IH. done. }
    rewrite (proj2 Hm) by done. simpl. case_bool_decide as Hs; simpl; [by apply IH|].
    destruct (mark_some g _ _ (neighbor a) Hm Ha) as (vis & -> & Hm'). simpl.
    rewrite node_id_of, traversed_edge_eq by done. simpl.
    match goal with |- context [bfs_arcs g o u _ arcs ?st1] =>
      destruct (IH st1 (gh ++ [(neighbor a, S d)]) (tree ++ [(u, d, a)])
        (queue ++ [queued (neighbor a, S d)])) as (st' & -> & Hst) end.
    { split_and!; simpl.
      - eapply marks_ext; [|exact Hm']. intros v. rewrite fmap_app, elem_of_app, elem_of_cons. simpl.
        rewrite list_elem_of_singleton. tauto.
      - rewrite Hq. unfold queued. simpl. do 3 f_equal. lia.
      - rewrite visits_of_snoc, Hv, length_visits_of. unfold mk_visit. simpl. do 3 f_equal. lia.
      - by rewrite (edges_of_snoc tree u d a e He), Ht. }
    exists st'. split; [done|]. rewrite (discover_ext _ _ (gh ++ [(neighbor a, S d)]).*1).
    + by rewrite <- !app_assoc in Hst.
    + intros v. rewrite fmap_app, elem_of_app, elem_of_cons. simpl.
      rewrite list_elem_of_singleton. tauto.
Qed.

(** ** The queue loop is the abstract search *)

Section Options.
Context (o : TraversalOptions) (ss : list nat).
Hypothesis ss_range : Forall (fun s => s < N) ss.
Hypothesis ss_nodup : NoDup ss.

Abbreviation inv := (bfs_inv N (adj g (direction o)) (arc_ok g (allowed_labels o))
  (expands g o ss) (within o) ss).

Lemma adj_arcs_ok u : u < N ->
  Forall (fun a => neighbor a < N /\ is_Some (edge_of a)) (adj g (direction o) u).
Proof.
  intros Hu. apply Forall_forall. intros a Ha. apply (in_adj g Hg) in Ha; [|done].
  apply incident_range in Ha as (_ & ? & e & He). split; [done|by exists e].
Qed.

Lemma bfs_loop_inv fuel st gh i tree : inv gh i tree -> i <= length gh ->
  state_of gh tree (map queued (drop i gh)) st -> N <= i + fuel ->
  exists st' gh' tree', bfs_loop fuel g o ss st = Some st' /\ inv gh' (length gh') tree' /\
    bfs_visits st' = visits_of g gh' /\ bfs_edges st' = edges_of tree'.
Proof.
  revert st gh i tree. induction fuel as [|fuel IH]; intros st gh i tree Hi Hle Hst Hf.
  all: destruct Hst as (Hm & Hq & Hv & Ht); cbn [bfs_loop]; rewrite Hq.
  all: destruct (gh !! i) as [[u d]|] eqn:Hu;
    [|rewrite drop_ge by (by apply lookup_ge_None); simpl; apply lookup_ge_None in Hu;
      assert (i = length gh) as -> by lia; by exists st, gh, tree].
  { pose proof (bfs_bound _ _ _ _ _ _ _ _ _ Hi). apply lookup_lt_Some in Hu. lia. }
  rewrite (drop_cons _ _ _ Hu). simpl.
  assert (u < N) as HuN by (by eapply (Forall_lookup_1 _ _ _ _ (bi_range _ _ _ _ _ _ _ _ _ Hi) Hu)).
  pose proof (lookup_lt_Some _ _ _ Hu) as Hlt.
  rewrite (stops_eq g Hg) by done. simpl.
  destruct (expands g o ss u && within o d) eqn:Hex; simpl.
  - apply andb_true_iff in Hex as [Hex Hw]. rewrite (adj_arcs g Hg) by done. simpl.
    match goal with |- context [bfs_arcs g o u _ _ ?st1] =>
      destruct (bfs_arcs_discover o u d (adj g (direction o) u) st1 gh tree (map queued (drop (S i) gh)))
        as (st' & -> & Hst'); [done|by apply adj_arcs_ok|by split_and!|] end.
    simpl. eapply IH.
    + by apply expand_inv; [intros; eapply (adj_range g Hg)| | | |].
    + rewrite length_app. lia.
    + rewrite drop_app_le by lia. rewrite map_app. by rewrite map_map.
    + lia.
  - eapply IH; [by eapply skip_inv|lia| |lia]. by split_and!.
Qed.

Lemma bfs_seeds_state l st gh queue :
  Forall (fun s => s < N) l -> NoDup (gh.*1 ++ l) -> state_of gh [] queue st ->
  exists st', bfs_seeds g l st = Some st' /\
    state_of (gh ++ map (fun s => (s, 0)) l) [] (queue ++ map (fun s => queued (s, 0)) l) st'.
Proof.
  revert st gh queue. induction l as [|s l IH]; intros st gh queue Hl Hnd (Hm & Hq & Hv & Ht); simpl.
  - exists st. rewrite !app_nil_r. done.
  - apply Forall_cons in Hl as [Hs Hl].
    destruct (mark_some g _ _ s Hm Hs) as (vis & -> & Hm'). simpl. rewrite node_id_of by done. simpl.
    match goal with |- context [bfs_seeds g l ?st1] =>
      destruct (IH st1 (gh ++ [(s, 0)]) (queue ++ [queued (s, 0)])) as (st' & -> & Hst); [done| | |] end.
    + rewrite fmap_app, <- app_assoc. done.
    + split_and!; simpl; [| | |exact Ht].
      * eapply marks_ext; [|exact Hm']. intros v. rewrite fmap_app, elem_of_app, elem_of_cons. simpl.
        rewrite list_elem_of_singleton. tauto.
      * by rewrite Hq.
      * by rewrite visits_of_snoc, Hv, length_visits_of.
    + exists st'. split; [done|]. by rewrite <- !app_assoc in Hst.
Qed.

Lemma breadth_first_search : exists gh tree,
  breadth_first g o ss = Some (Ok {| visits := visits_of g gh; discovery_edges := edges_of tree |}) /\
  inv gh (length gh) tree.
Proof.
  unfold breadth_first.
  match goal with |- context [bfs_seeds g ss ?st1] =>
    destruct (bfs_seeds_state ss st1 [] []) as (st & -> & Hst); [done|done| |] end.
  { split_and!; [apply marks_nil|done|done|done]. }
  cbn [mbind option_bind].
  assert (inv (map (fun s => (s, 0)) ss) 0 []) as Hinit by (by apply init_inv).
  destruct (bfs_loop_inv N st _ 0 [] Hinit) as (st' & gh & tree & -> & Hi & Hv & He); [lia| |lia|].
  - rewrite drop_0, map_map. exact Hst.
  - exists gh, tree. simpl. by rewrite Hv, He.
Qed.
(** ** From the search to the specification *)

Hypothesis ss_seeds : forall v, v ∈ ss <-> is_seed g o v.

Lemma expands_iff u : u < N -> expands g o ss u = true <-> expanded g o u.
Proof.
  intros Hu. unfold expands, expanded. destruct (suppresses_some g Hg u o Hu) as [b ->].
  rewrite orb_true_iff, bool_decide_eq_true, ss_seeds. simpl. rewrite negb_true_iff.
  split; (intros [?|?]; [by left|right; congruence]).
Qed.

Lemma reach_range n v : traversal_reaches g o n v -> v < N.
Proof.
  intros Hr. destruct Hr as [s Hs|n u v _ _ (a & e & Ha & <- & _)].
  - apply ss_seeds in Hs. rewrite Forall_forall in ss_range. by apply ss_range.
  - by apply incident_range in Ha as (_ & ? & _).
Qed.

Lemma reach_iff n v :
  reach (adj g (direction o)) (arc_ok g (allowed_labels o)) (expands g o ss) ss n v <->
  traversal_reaches g o n v.
Proof.
  split.
  - induction 1 as [s Hs|n u v Hr IH [Hex Hop]]; [constructor; by apply ss_seeds|].
    pose proof (reach_range _ _ IH) as Hu. econstructor; [done|by apply expands_iff|].
    by apply (hop_allowed g Hg).
  - intros Hr. induction Hr as [s Hs|n u v Hr IH Hex Hop]; [constructor; by apply ss_seeds|].
    pose proof (reach_range _ _ Hr) as Hu. econstructor; [done|]. split; [by apply expands_iff|].
    by apply (hop_allowed g Hg).
Qed.

Lemma in_visits gh x : x ∈ visits_of g gh <-> exists k e, gh !! k = Some e /\ x = mk_visit g k e.
Proof.
  unfold visits_of. rewrite list_elem_of_lookup. split.
  - intros [k Hk]. rewrite list_lookup_imap in Hk. destruct (gh !! k) as [e|] eqn:E; [|done].
    simpl in Hk. injection Hk as <-. eauto.
  - intros (k & e & He & ->). exists k. by rewrite list_lookup_imap, He.
Qed.

Lemma visits_distinct gh : Forall (fun e => e.1 < N) gh -> NoDup gh.*1 ->
  NoDup (map visit_node (visits_of g gh)).
Proof.
  intros Hr Hnd. assert (map visit_node (visits_of g gh) = id_of g <$> gh.*1) as ->.
  { apply list_eq. intros k. change (map visit_node ?l) with (visit_node <$> l). unfold visits_of.
    rewrite !list_lookup_fmap, list_lookup_imap. by destruct (gh !! k). }
  apply NoDup_fmap_2_strong; [|done]. intros v w Hv Hw. rewrite Forall_forall in Hr.
  apply list_elem_of_fmap in Hv as (e & -> & He), Hw as (e' & -> & He').
  apply (id_of_inj g Hg); by apply Hr.
Qed.

Lemma seed_id v : v < N -> id_of g v ∈ seeds o <-> v ∈ ss.
Proof.
  intros Hv. rewrite ss_seeds. pose proof (node_id_of g v Hv) as Hid. split.
  - intros Hin. by exists (id_of g v).
  - intros (id & Hin & Hid'). congruence.
Qed.

Lemma render_forall2 (P : Visit -> TraversedEdge -> Prop) tree k :
  (forall j u d a, tree !! j = Some (u, d, a) -> exists e, edge_of a = Some e /\
     P (mk_visit g (k + j) (neighbor a, S d)) (mk_edge g u e)) ->
  Forall2 P (imap (fun j => mk_visit g (k + j)) (map found tree)) (edges_of tree).
Proof.
  revert k. induction tree as [|[[u d] a] tree IH]; intros k Hp; [constructor|].
  destruct (Hp 0 u d a) as (e & He & HP); [done|].
  unfold edges_of. simpl. rewrite He. simpl. constructor; [done|].
  rewrite (imap_ext _ (fun j => mk_visit g (S k + j))) by (intros; simpl; by rewrite Nat.add_succ_r).
  apply IH. intros j u' d' a' Hj. destruct (Hp (S j) u' d' a' Hj) as (e' & He' & HP').
  exists e'. split; [done|]. by rewrite Nat.add_succ_r in HP'.
Qed.

Lemma filter_visits gh tree : inv gh (length gh) tree ->
  filter (fun x => (0 < depth x)%Z) (visits_of g gh) =
  imap (fun j => mk_visit g (length ss + j)) (map found tree).
Proof.
  intros Hi. rewrite (bi_shape _ _ _ _ _ _ _ _ _ Hi). unfold visits_of. rewrite imap_app, filter_app.
  rewrite length_map.
  assert (forall (P : Visit -> Prop) `{!forall x, Decision (P x)} l, Forall (fun x => ~ P x) l -> filter P l = [])
    as Hnone.
  { intros P ? l. induction 1 as [|x l Hx _ IH]; [done|]. by rewrite filter_cons_False. }
  assert (forall (P : Visit -> Prop) `{!forall x, Decision (P x)} l, Forall P l -> filter P l = l) as Hall.
  { intros P ? l. induction 1 as [|x l Hx _ IH]; [done|]. by rewrite filter_cons_True, IH. }
  rewrite Hnone, Hall; [done| |].
  - apply Forall_forall. intros x Hx. apply elem_of_lookup_imap in Hx as (j & y & -> & Hy).
    apply list_lookup_fmap_Some in Hy as ([[u d] a] & -> & _). simpl. lia.
  - apply Forall_forall. intros x Hx. apply elem_of_lookup_imap in Hx as (j & y & -> & Hy).
    apply list_lookup_fmap_Some in Hy as (s & -> & _). simpl. lia.
Qed.

Lemma sorted_visits gh : StronglySorted le gh.*2 ->
  StronglySorted (fun x y => (depth x <= depth y)%Z) (visits_of g gh).
Proof.
  unfold visits_of.
  enough (forall k, StronglySorted le gh.*2 ->
    StronglySorted (fun x y => (depth x <= depth y)%Z) (imap (fun j => mk_visit g (k + j)) gh)) as H.
  { apply (H 0). }
  induction gh as [|[v d] gh IH]; intros k Hs; [constructor|]. csimpl in Hs.
  inversion Hs as [|? ? Hs' Hd]; subst. simpl. constructor.
  - rewrite (imap_ext _ (fun j => mk_visit g (S k + j))) by (intros; simpl; by rewrite Nat.add_succ_r).
    by apply IH.
  - apply Forall_forall. intros x (j & [w e] & -> & Hw)%elem_of_lookup_imap. simpl.
    rewrite Forall_fmap in Hd. apply (Forall_lookup_1 _ _ _ _ Hd) in Hw. simpl in Hw. lia.
Qed.

Lemma search_forest gh tree : inv gh (length gh) tree ->
  forest g o {| visits := visits_of g gh; discovery_edges := edges_of tree |}.
Proof.
  intros Hi. pose proof (bi_range _ _ _ _ _ _ _ _ _ Hi) as Hr.
  pose proof (bi_nodup _ _ _ _ _ _ _ _ _ Hi) as Hnd. constructor; simpl.
  - by apply visits_distinct.
  - intros k x Hx. unfold visits_of in Hx. rewrite list_lookup_imap in Hx.
    destruct (gh !! k); [|done]. simpl in Hx. by injection Hx as <-.
  - intros x (k & [v d] & Hk & ->)%in_visits. simpl. split; [lia|].
    rewrite seed_id by (by apply (Forall_lookup_1 _ _ _ _ Hr Hk)). split.
    + intros Hd. assert (d = 0) as -> by lia. apply list_elem_of_lookup_2 in Hk.
      rewrite (bi_shape _ _ _ _ _ _ _ _ _ Hi) in Hk. apply elem_of_app in Hk as [Hk|Hk].
      * by apply list_elem_of_fmap in Hk as (s & [= ->] & Hs).
      * by apply list_elem_of_fmap in Hk as (y & [=] & _).
    + intros Hs. assert ((v, 0) ∈ gh) as Hv.
      { rewrite (bi_shape _ _ _ _ _ _ _ _ _ Hi). apply elem_of_app. left.
        apply list_elem_of_fmap. eauto. }
      apply list_elem_of_lookup in Hv as [k' Hk'].
      assert (k' = k) as ->; [|rewrite Hk in Hk'; by injection Hk' as ->].
      apply (NoDup_lookup gh.*1 k' k v); [done| |]; rewrite list_lookup_fmap;
        [by rewrite Hk'|by rewrite Hk].
  - rewrite (filter_visits _ _ Hi). apply render_forall2. intros j u d a Hj.
    pose proof (list_elem_of_lookup_2 _ _ _ Hj) as Hin.
    destruct (bi_tree _ _ _ _ _ _ _ _ _ Hi u d a Hin) as (Hu & _ & _ & Ha & Hok).
    rewrite firstn_all in Hu. apply list_elem_of_lookup in Hu as [p Hp].
    assert (u < N) as HuN by (by apply (Forall_lookup_1 _ _ _ _ Hr Hp)).
    apply (in_adj g Hg) in Ha; [|done]. unfold arc_ok in Hok.
    destruct (edges g !! arc_edge a) as [e|] eqn:He; [|done]. exists e. split; [done|].
    assert (gh !! (length ss + j) = Some (neighbor a, S d)) as Hx.
    { rewrite (bi_shape _ _ _ _ _ _ _ _ _ Hi), lookup_app_r; rewrite length_map; [|lia].
      rewrite Nat.add_comm, Nat.add_sub. change (map found tree) with (found <$> tree).
      by rewrite list_lookup_fmap, Hj. }
    exists (mk_visit g p (u, d)). split; [apply in_visits; eauto|].
    split_and!; simpl; [lia| | |].
    + destruct (decide (p < length ss + j)) as [|Hge]; [done|]. exfalso.
      destruct (decide (p = length ss + j)) as [->|]; [rewrite Hp in Hx; injection Hx; lia|].
      assert (S d <= d); [|lia].
      apply (sorted_lookup le gh.*2 (length ss + j) p);
        [by destruct Hi|lia| |]; rewrite list_lookup_fmap; [by rewrite Hx|by rewrite Hp].
    + exists e. split_and!; try done. by eapply list_elem_of_lookup_2.
    + pose proof (mk_edge_ends g _ _ _ _ Ha He) as Hends. simpl in Hends.
      by destruct (decide _).
Qed.
End Options.

(** [C4] Breadth-first traversal computes distances: on existing seeds it
    returns without panicking the forest of all nodes within [max_depth]
    allowed hops of a seed, each once, at exactly its distance, in order of
    distance, with the edge that discovered each. Hubs are reached but not
    passed through. *)
Theorem bfs_exact (o : TraversalOptions) :
  strategy o = BreadthFirst -> (0 <= max_depth o)%Z -> seeds o <> [] ->
  (forall id, id ∈ seeds o -> id ∈ map node_key (nodes g)) ->
  exists r, traverse g o = Some (Ok r) /\ forest g o r /\
    StronglySorted (fun x y => (depth x <= depth y)%Z) (visits r) /\
    forall v id d, node_id g v = Some id ->
      (exists x, x ∈ visits r /\ visit_node x = id /\ depth x = Z.of_nat d) <->
      (Z.of_nat d <= max_depth o)%Z /\ traversal_reaches g o d v /\
      forall m, traversal_reaches g o m v -> d <= m.
Proof.
  intros Hstrat Hmax Hne Hseeds. unfold traverse. rewrite bool_decide_eq_false_2 by done.
  destruct (seed_indexes_some g Hg (seeds o) [] Hseeds) as (ss & -> & Hnd & Hr & Hss).
  assert (forall v, v ∈ ss <-> is_seed g o v) as Hiff.
  { intros v. rewrite Hss. unfold is_seed. split; [by intros [_ ?]|].
    intros ?. split; [inversion 1|done]. }
  rewrite Hstrat. destruct (breadth_first_search o ss Hr Hnd) as (gh & tree & -> & Hi).
  eexists. split; [done|]. split; [by apply (search_forest o ss)|]. simpl. split.
  - by apply sorted_visits, (bi_sorted _ _ _ _ _ _ _ _ _ Hi).
  - intros v id d Hid. pose proof (bi_range _ _ _ _ _ _ _ _ _ Hi) as Hrange.
    rewrite <- (limit_iff o d) by done.
    pose proof (bfs_distances _ _ _ _ _ _ (within_mono o) gh tree Hi v d) as Hdist.
    unfold distance in Hdist. rewrite (reach_iff o ss Hr Hiff) in Hdist.
    assert ((forall m, reach (adj g (direction o)) (arc_ok g (allowed_labels o)) (expands g o ss) ss m v ->
      d <= m) <-> (forall m, traversal_reaches g o m v -> d <= m)) as Hmin.
    { split; intros H m Hm; apply H; by apply (reach_iff o ss Hr Hiff). }
    rewrite Hmin in Hdist. rewrite (and_comm (limit _ _)), <- Hdist. split.
    + intros (x & (k & [w d'] & Hk & ->)%in_visits & Hx & Hd). simpl in Hx, Hd.
      assert (d' = d) as -> by lia. apply list_elem_of_lookup_2 in Hk.
      rewrite Forall_forall in Hrange. pose proof (node_id_of g w (Hrange _ Hk)) as Hw.
      rewrite Hx in Hw. apply (gk_node_index g Hg) in Hw, Hid. congruence.
    + intros [k Hk]%list_elem_of_lookup. exists (mk_visit g k (v, d)).
      split; [apply in_visits; eauto|]. simpl. unfold id_of. by rewrite Hid.
Qed.
End Bfs.

Definition sample_options (strategy : TraversalStrategy) (max_depth : Z) : TraversalOptions :=
  {| strategy := strategy; seeds := [Str (lit "a")]; max_depth := max_depth; direction := Out;
     allowed_labels := [lit "x"]; hub_policy := StopNonSeedAtOrAbove 5 |}.

Lemma bfs_exact_witness :
  let _ := Json.number in
  exists r, traverse Sample.graph (sample_options BreadthFirst 2) = Some (Ok r) /\
    forest Sample.graph (sample_options BreadthFirst 2) r /\
    map visit_node (visits r) = [Str (lit "a"); Str (lit "b"); Str (lit "c")].
Proof.
  cbv zeta.
  destruct (@bfs_exact Json.number Sample.graph Sample.graph_ok (sample_options BreadthFirst 2))
    as (r & Hr & Hf & _).
  - reflexivity.
  - discriminate.
  - discriminate.
  - intros id Hid. apply list_elem_of_singleton in Hid as ->. vm_compute. left.
  - exists r. split; [exact Hr|]. split; [exact Hf|].
    vm_compute in Hr. injection Hr as <-. reflexivity.
Defined.

End TraversalBfs.
