(* ===== verification/TraversalPath.v ===== *)
(** Shortest paths are shortest: [Graph::shortest_path] and [reconstruct_path]
    of crates/graph-algorithms/src/algorithms/traversal.rs. *)
From S2P Require Import Prelude Bytes BTree ExternalId Graph GraphSearch Traversal TraversalSpec.
From S2P Require Import TraversalBfs.

Open Scope nat_scope.

Module TraversalPath.
Export TraversalBfs.

Section Path.
Context {JN : JsonNumber} (g : GraphInner) (Hg : graph_ok g).

Abbreviation N := (node_count g).

(** ** Specification *)

(** [pe] is a taken edge from [u] to [v], with the stored edge's fields. *)
Definition path_hop (dir : TraversalDirection) (labels : list bytes) (from to : ExternalId)
    (pe : PathEdge) : Prop :=
  exists u a e, incident g u dir a /\ edges g !! arc_edge a = Some e /\
    edge_label_allowed e labels = true /\
    node_id g u = Some from /\ node_id g (neighbor a) = Some to /\
    pe_edge_id pe = edge_id e /\ pe_graphify_key pe = graphify_key e /\
    pe_source pe = source e /\ pe_target pe = target e /\ pe_label pe = label e /\
    pe_attributes pe = attributes e /\
    match pe_direction pe with
    | Forward => pe_source pe = from /\ pe_target pe = to
    | Reverse => pe_source pe = to /\ pe_target pe = from
    end.

(** [es] leads through the nodes [ids], the first of which is [from]. *)
Inductive path_ok (dir : TraversalDirection) (labels : list bytes) :
    ExternalId -> ExternalId -> list ExternalId -> list PathEdge -> Prop :=
| path_nil id : path_ok dir labels id id [id] []
| path_snoc from mid to ids es pe : path_ok dir labels from mid ids es ->
    path_hop dir labels mid to pe -> path_ok dir labels from to (ids ++ [to]) (es ++ [pe]).

(** ** The search *)

Section Query.
Context (dir : TraversalDirection) (labels : list bytes) (bound : option Z) (src dst : nat).
Hypothesis src_range : src < N.
Hypothesis dst_range : dst < N.
Hypothesis src_dst : src <> dst.

Definition below (d : nat) : bool :=
  match bound with Some b => (Z.of_nat d <? b)%Z | None => true end.

Lemma below_mono d d' : d' <= d -> below d = true -> below d' = true.
Proof. unfold below. destruct bound; [|done]. rewrite !Z.ltb_lt. lia. Qed.

Abbreviation inv := (bfs_inv N (adj g dir) (arc_ok g labels) (fun _ => true) below [src]).
Abbreviation tree_t := (list (nat * nat * ArcRef)).

(** The predecessors recorded for the non-source discoveries. *)
Definition preds_ok (tree : tree_t) (predecessor : list (option (nat * nat))) : Prop :=
  length predecessor = N /\
  forall u d a, (u, d, a) ∈ tree -> predecessor !! neighbor a = Some (Some (u, arc_edge a)).

Definition sp_state_of (gh : list (nat * nat)) (tree : tree_t) (queue : list (nat * Z))
    (st : sp_state) : Prop :=
  marks g gh.*1 (sp_visited st) /\ sp_queue st = queue /\ preds_ok tree (sp_predecessor st).

Lemma set_predecessor_ok tree p u d a : preds_ok tree p -> neighbor a < N ->
  (forall u' d' a', (u', d', a') ∈ tree -> neighbor a' <> neighbor a) ->
  exists p', set_predecessor p (neighbor a) (u, arc_edge a) = Some p' /\
    preds_ok (tree ++ [(u, d, a)]) p'.
Proof.
  intros [Hl Hp] Ha Hne. unfold set_predecessor. rewrite Hl, (proj2 (Nat.ltb_lt _ _)) by done.
  eexists. split; [done|]. split; [by rewrite length_insert|].
  intros u' d' a' [Hin|Hin]%elem_of_app.
  - specialize (Hne _ _ _ Hin). rewrite list_lookup_insert_ne by done. by eapply Hp.
  - apply list_elem_of_singleton in Hin as [= -> -> ->]. by rewrite list_lookup_insert_eq by lia.
Qed.

(** The loop over arcs either discovers all of them, or stops at the target. *)
Lemma sp_arcs_discover u d arcs st gh tree queue :
  u < N -> Forall (fun a => neighbor a < N /\ is_Some (edge_of g a)) arcs ->
  sp_state_of gh tree queue st -> (forall u d a, (u, d, a) ∈ tree -> neighbor a ∈ gh.*1) ->
  dst ∉ gh.*1 ->
  let new := discover (arc_ok g labels) gh.*1 arcs in
  (dst ∉ map neighbor new /\
   exists st', sp_arcs g src dst labels u (Z.of_nat d) arcs st = Some (inl st') /\
     sp_state_of (gh ++ map (fun a => (neighbor a, S d)) new) (tree ++ map (fun a => (u, d, a)) new)
       (queue ++ map (fun a => queued (neighbor a, S d)) new) st') \/
  exists a seen p, a ∈ new /\ neighbor a = dst /\ preds_ok (tree ++ seen ++ [(u, d, a)]) p /\
    sp_arcs g src dst labels u (Z.of_nat d) arcs st = inr <$> reconstruct_path g src dst p.
Proof.
  intros Hu Harcs. revert st gh tree queue.
  induction Harcs as [|a arcs [Ha [e He]] _ IH]; intros st gh tree queue (Hm & Hq & Hp) Htree Hdst; simpl.
  - left. split; [inversion 1|]. exists st. split; [done|]. rewrite !app_nil_r. done.
  - rewrite (proj2 Hm) by done. simpl. unfold edge_of in He. unfold edge_at. rewrite He. simpl.
    assert (arc_ok g labels a = edge_label_allowed e labels) as ->
      by (unfold arc_ok; by rewrite He).
    case_bool_decide as Hs; simpl; [rewrite andb_false_r; by apply IH|]. rewrite andb_true_r.
    destruct (edge_label_allowed e labels); simpl; [|by apply IH].
    destruct (mark_some g _ _ (neighbor a) Hm Ha) as (vis & -> & Hm'). simpl.
    destruct (set_predecessor_ok tree (sp_predecessor st) u d a Hp Ha) as (p' & -> & Hp').
    { intros u' d' a' Hin E. apply Hs. rewrite <- E. by eapply Htree. }
    simpl. destruct (Nat.eqb_spec (neighbor a) dst) as [E|E].
    + right. exists a, [], p'. split_and!; [left|done|done|done].
    + set (gh' := gh ++ [(neighbor a, S d)]).
      assert (forall v, v ∈ neighbor a :: gh.*1 <-> v ∈ gh'.*1) as Hext.
      { intros v. unfold gh'. rewrite fmap_app, elem_of_app, elem_of_cons. simpl.
        rewrite list_elem_of_singleton. tauto. }
      rewrite (discover_ext _ _ _ _ Hext).
      match goal with |- context [sp_arcs g src dst labels u _ arcs ?st1] =>
        destruct (IH st1 gh' (tree ++ [(u, d, a)]) (queue ++ [queued (neighbor a, S d)]))
          as [[Hn (st' & Hst & Hok)]|(b & seen & p & Hb & Hbd & Hpb & Hr)] end.
      * split_and!; simpl; [by eapply marks_ext| |done].
        rewrite Hq. unfold queued. simpl. do 3 f_equal. lia.
      * intros u' d' a' [Hin|Hin]%elem_of_app; apply Hext; apply elem_of_cons.
        -- right. by eapply Htree.
        -- apply list_elem_of_singleton in Hin as [= -> -> ->]. by left.
      * rewrite <- Hext. rewrite not_elem_of_cons. split; [congruence|done].
      * left. split; [apply not_elem_of_cons; split; [congruence|done]|]. exists st'. split; [done|].
        unfold gh' in Hok. by rewrite <- !app_assoc in Hok.
      * right. exists b, ((u, d, a) :: seen), p. split_and!; [by right|done| |done].
        by rewrite <- app_assoc in Hpb.
Qed.

(** ** Walking back *)

(** [v] is [d] tree arcs from the source, along [nodes] and [steps], both from
    [v] backwards. *)
Inductive chain (tree : tree_t) : nat -> nat -> list nat -> list (nat * ArcRef) -> Prop :=
| chain_src : chain tree 0 src [src] []
| chain_step u d a ns ss : chain tree d u ns ss -> (u, d, a) ∈ tree -> neighbor a <> src ->
    chain tree (S d) (neighbor a) (neighbor a :: ns) ((u, a) :: ss).

Definition mk_path_edge (u : nat) (e : Edge) : PathEdge :=
  {| pe_edge_id := edge_id e; pe_graphify_key := graphify_key e; pe_source := source e;
     pe_target := target e;
     pe_direction := if decide (id_of g u = source e) then Forward else Reverse;
     pe_label := label e; pe_attributes := attributes e |}.

Definition steps_edges (ss : list (nat * ArcRef)) : list PathEdge :=
  omap (fun s => mk_path_edge s.1 <$> edge_of g s.2) ss.

Lemma steps_edges_cons u a ss e : edge_of g a = Some e ->
  steps_edges ((u, a) :: ss) = mk_path_edge u e :: steps_edges ss.
Proof. intros He. unfold steps_edges. simpl. by rewrite He. Qed.

Lemma walk_back_chain tree p d v ns ss fuel pn pe :
  preds_ok tree p -> chain tree d v ns ss -> d <= fuel ->
  (forall u d a, (u, d, a) ∈ tree -> u < N /\ is_Some (edge_of g a)) ->
  walk_back fuel g src v p pn pe = Some (pn ++ tail ns, pe ++ steps_edges ss).
Proof.
  intros [Hl Hp] Hc. revert fuel pn pe.
  induction Hc as [|u d a ns ss Hc IH Hin Hne]; intros fuel pn pe Hd Hrange.
  - destruct fuel; simpl; rewrite Nat.eqb_refl, !app_nil_r; done.
  - destruct fuel as [|fuel]; [lia|]. simpl. rewrite (proj2 (Nat.eqb_neq _ _)) by done.
    rewrite (Hp _ _ _ Hin). simpl. destruct (Hrange _ _ _ Hin) as [Hu [e He]].
    unfold edge_of in He. unfold edge_at. rewrite He. simpl. unfold path_edge, edge_direction.
    rewrite node_id_of by done. simpl. rewrite IH by (done || lia). unfold steps_edges. simpl.
    unfold edge_of. rewrite He. simpl. rewrite <- !app_assoc. do 2 f_equal.
    inversion Hc; subst; done.
Qed.

(** Every discovery has its chain. *)
Lemma inv_chain gh i tree v d : inv gh i tree -> (v, d) ∈ gh ->
  exists ns ss, chain tree d v ns ss.
Proof.
  intros Hi. revert v. induction d as [|d IH]; intros v Hv.
  - rewrite (bi_shape _ _ _ _ _ _ _ _ _ Hi) in Hv. apply elem_of_app in Hv as [Hv|Hv].
    + apply list_elem_of_singleton in Hv as [= ->]. exists [src], []. constructor.
    + by apply list_elem_of_fmap in Hv as (x & [=] & _).
  - pose proof Hv as Hv0. rewrite (bi_shape _ _ _ _ _ _ _ _ _ Hi) in Hv. apply elem_of_app in Hv as [Hv|Hv].
    + by apply list_elem_of_singleton in Hv.
    + apply list_elem_of_fmap in Hv as ([[u d'] a] & [= -> ->] & Hin).
      destruct (bi_tree _ _ _ _ _ _ _ _ _ Hi _ _ _ Hin) as (Hu & _).
      apply elem_of_take in Hu as (j & Hj & _). apply list_elem_of_lookup_2 in Hj.
      destruct (IH u Hj) as (ns & ss & Hc). exists (neighbor a :: ns), ((u, a) :: ss).
      constructor; [done|done|]. intros E.
      assert ((src, 0) ∈ gh) as Hsrc.
      { rewrite (bi_shape _ _ _ _ _ _ _ _ _ Hi). apply elem_of_app. left. left. }
      pose proof (bi_nodup _ _ _ _ _ _ _ _ _ Hi) as Hnd. rewrite E in Hv0.
      apply list_elem_of_lookup in Hsrc as [k Hk], Hv0 as [k' Hk'].
      assert (k = k') as <-; [|congruence].
      apply (NoDup_lookup gh.*1 k k' src); [done| |]; rewrite list_lookup_fmap;
        [by rewrite Hk|by rewrite Hk'].
Qed.

Lemma chain_mono tree tree' d v ns ss : (forall x, x ∈ tree -> x ∈ tree') ->
  chain tree d v ns ss -> chain tree' d v ns ss.
Proof. intros Hs. induction 1; constructor; auto. Qed.

(** A chain, reversed, is a path. *)
Lemma chain_path tree d v ns ss : chain tree d v ns ss ->
  (forall u d a, (u, d, a) ∈ tree -> u < N /\ a ∈ adj g dir u /\ arc_ok g labels a = true) ->
  path_ok dir labels (id_of g src) (id_of g v) (rev (map (id_of g) ns)) (rev (steps_edges ss)) /\
  length (steps_edges ss) = d /\ Forall (fun w => w < N) ns.
Proof.
  intros Hc Htree. induction Hc as [|u d a ns ss Hc IH Hin Hne].
  - split_and!; [constructor|done|by constructor].
  - destruct IH as (Hpath & Hlen & Hr). destruct (Htree _ _ _ Hin) as (Hu & Ha & Hok).
    apply (in_adj g Hg) in Ha; [|done]. pose proof (incident_range g _ _ _ Ha) as (_ & Hv & e & He).
    assert (edge_label_allowed e labels = true) as Hl by (unfold arc_ok in Hok; by rewrite He in Hok).
    rewrite (steps_edges_cons u a ss e He). simpl. split_and!.
    + eapply path_snoc; [exact Hpath|]. exists u, a, e. split_and!; try done.
      * by apply node_id_of.
      * by apply node_id_of.
      * pose proof (mk_edge_ends g _ _ _ _ Ha He) as Hends. simpl in Hends. simpl.
        by destruct (decide _).
    + by rewrite Hlen.
    + by constructor.
Qed.
Abbreviation hops := (reach (adj g dir) (arc_ok g labels) (fun _ => true) [src]).

(** A search that reached the target from [(u, d)] by [a] returns the path. *)
Lemma reconstruct_found gh i tree u d a seen p :
  inv gh i tree -> gh !! i = Some (u, d) -> below d = true -> a ∈ adj g dir u ->
  arc_ok g labels a = true -> neighbor a = dst -> dst ∉ gh.*1 ->
  preds_ok (tree ++ seen ++ [(u, d, a)]) p ->
  exists ids es, reconstruct_path g src dst p = Some (Found ids es) /\
    path_ok dir labels (id_of g src) (id_of g dst) ids es /\ length es = S d.
Proof.
  intros Hi Hu Hb Ha Hok Hdst Hn [Hl Hp]. pose proof (list_elem_of_lookup_2 _ _ _ Hu) as Hin.
  assert (preds_ok (tree ++ [(u, d, a)]) p) as Hp'.
  { split; [done|]. intros u' d' a' [H|H]%elem_of_app; apply (Hp u' d' a'); rewrite !elem_of_app; auto. }
  destruct (inv_chain gh i tree u d Hi Hin) as (ns & ss & Hc).
  apply (chain_mono _ (tree ++ [(u, d, a)])) in Hc; [|intros; apply elem_of_app; auto].
  assert (chain (tree ++ [(u, d, a)]) (S d) dst (dst :: ns) ((u, a) :: ss)) as Hcd.
  { rewrite <- Hdst. constructor; [done| |congruence]. apply elem_of_app. right.
    by apply list_elem_of_singleton. }
  assert (forall u' d' a', (u', d', a') ∈ tree ++ [(u, d, a)] ->
    u' < N /\ a' ∈ adj g dir u' /\ arc_ok g labels a' = true) as Htree.
  { pose proof (bi_range _ _ _ _ _ _ _ _ _ Hi) as Hr. rewrite Forall_forall in Hr.
    intros u' d' a' [H|H]%elem_of_app.
    - destruct (bi_tree _ _ _ _ _ _ _ _ _ Hi _ _ _ H) as (H1 & _ & _ & H2 & H3).
      apply elem_of_take in H1 as (j & Hj & _). apply list_elem_of_lookup_2 in Hj.
      split_and!; [by apply (Hr _ Hj)|done|done].
    - apply list_elem_of_singleton in H as [= -> -> ->]. split_and!; [by apply (Hr _ Hin)|done|done]. }
  destruct (chain_path _ _ _ _ _ Hcd Htree) as (Hpath & Hlen & Hr).
  exists (rev (map (id_of g) (dst :: ns))), (rev (steps_edges ((u, a) :: ss))).
  split_and!; [|done|by rewrite length_rev].
  unfold reconstruct_path. rewrite (walk_back_chain _ p _ _ _ _ N [dst] [] Hp' Hcd).
  - simpl. assert (mapM (node_id g) (rev ns ++ [dst]) = Some (rev (map (id_of g) ns) ++ [id_of g dst])) as ->.
    + apply mapM_Some_2. rewrite <- map_rev. apply Forall2_app.
      * apply Forall2_fmap_r. apply Forall_Forall2_diag. apply Forall_cons in Hr as [_ Hr].
        rewrite rev_alt. apply Forall_forall. intros w Hw. apply node_id_of.
        rewrite <- rev_alt in Hw. rewrite Forall_forall in Hr. apply Hr.
        apply list_elem_of_In, in_rev. by apply list_elem_of_In.
      * constructor; [by apply node_id_of|constructor].
    + done.
  - pose proof (depth_bound _ _ _ _ _ _ _ _ _ _ _ Hi Hin).
    pose proof (bfs_bound _ _ _ _ _ _ _ _ _ Hi). lia.
  - intros u' d' a' Hx. destruct (Htree _ _ _ Hx) as (H1 & _ & H2). split; [done|].
    unfold arc_ok in H2. unfold edge_of. destruct (edges g !! arc_edge a'); [by eexists|done].
Qed.

(** Outcomes of the queue loop. *)
Lemma sp_loop_spec fuel st gh i tree : inv gh i tree -> i <= length gh ->
  sp_state_of gh tree (map queued (drop i gh)) st -> dst ∉ gh.*1 -> N <= i + fuel ->
  (sp_loop fuel g src dst dir labels bound st = Some NoPath /\
   forall n, hops n dst -> ~ limit below n) \/
  exists ids es, sp_loop fuel g src dst dir labels bound st = Some (Found ids es) /\
    path_ok dir labels (id_of g src) (id_of g dst) ids es /\
    hops (length es) dst /\ (forall m, hops m dst -> length es <= m) /\ limit below (length es).
Proof.
  revert st gh i tree. induction fuel as [|fuel IH]; intros st gh i tree Hi Hle Hst Hdst Hf.
  all: destruct Hst as (Hm & Hq & Hp); cbn [sp_loop]; rewrite Hq.
  all: destruct (gh !! i) as [[u d]|] eqn:Hu;
    [|rewrite drop_ge by (by apply lookup_ge_None); simpl; apply lookup_ge_None in Hu;
      assert (i = length gh) as -> by lia; left; split; [done|];
      intros n Hn Hl; destruct (bfs_complete _ _ _ _ _ _ below_mono gh tree Hi n dst Hn Hl) as (d & Hd & _);
      apply Hdst, list_elem_of_fmap; by exists (dst, d)].
  { pose proof (bfs_bound _ _ _ _ _ _ _ _ _ Hi). apply lookup_lt_Some in Hu. lia. }
  rewrite (drop_cons _ _ _ Hu). simpl.
  assert (u < N) as HuN by (by eapply (Forall_lookup_1 _ _ _ _ (bi_range _ _ _ _ _ _ _ _ _ Hi) Hu)).
  pose proof (lookup_lt_Some _ _ _ Hu) as Hlt.
  assert (match bound with Some b => (b <=? Z.of_nat d)%Z | None => false end = negb (below d)) as ->.
  { unfold below. destruct bound as [b|]; [|done].
    destruct (Z.leb_spec b (Z.of_nat d)), (Z.ltb_spec (Z.of_nat d) b); try done; lia. }
  destruct (below d) eqn:Hb; simpl.
  2: { eapply IH; [eapply skip_inv; [done|done|by rewrite Hb]|lia|by split_and!|done|lia]. }
  rewrite (adj_arcs g Hg) by done. simpl.
  match goal with |- context [sp_arcs g src dst labels u _ _ ?st1] =>
    destruct (sp_arcs_discover u d (adj g dir u) st1 gh tree (map queued (drop (S i) gh)))
      as [[Hn (st' & -> & Hst')]|(a & seen & p & Ha & Had & Hpa & ->)] end;
    [done|by apply (adj_arcs_ok g Hg {| strategy := BreadthFirst; seeds := []; max_depth := 0;
       direction := dir; allowed_labels := labels; hub_policy := ExpandAll |})|by split_and!| |done| |].
  - intros u' d' a' Hin. apply list_elem_of_fmap. exists (neighbor a', S d'). split; [done|].
    rewrite (bi_shape _ _ _ _ _ _ _ _ _ Hi). apply elem_of_app. right.
    apply list_elem_of_fmap. by exists (u', d', a').
  - simpl. eapply IH.
    + by apply expand_inv; [intros; eapply (adj_range g Hg)| | | |].
    + rewrite length_app. lia.
    + rewrite drop_app_le by lia. rewrite map_app. by rewrite map_map.
    + rewrite fmap_app, not_elem_of_app. split; [done|].
      intros (x & E & (b & -> & Hbn)%list_elem_of_fmap)%list_elem_of_fmap. simpl in E. apply Hn.
      apply list_elem_of_fmap. eauto.
    + lia.
  - right. apply in_discover in Ha as (Ha & Hok & _).
    destruct (reconstruct_found gh i tree u d a seen p Hi Hu Hb Ha Hok Had Hdst Hpa)
      as (ids & es & -> & Hpath & Hlen).
    exists ids, es. split; [done|]. split; [done|]. rewrite Hlen, <- Had.
    destruct (discover_distance _ _ _ _ _ _ below_mono gh i tree u d a Hi Hu) as [[H1 H2] H3];
      [done|done|done|done|by rewrite Had|]. done.
Qed.

End Query.
Definition path_reaches (dir : TraversalDirection) (labels : list bytes) (from : nat) : nat -> nat -> Prop :=
  reaches g dir labels (fun v => v = from) (fun _ => True).

Lemma hops_iff dir labels src n v : src < N ->
  reach (adj g dir) (arc_ok g labels) (fun _ => true) [src] n v <-> path_reaches dir labels src n v.
Proof.
  intros Hs. assert (forall n v, path_reaches dir labels src n v -> v < N) as Hr.
  { intros m w Hr. destruct Hr as [? ->|m u w _ _ (a & e & Ha & <- & _)]; [done|].
    by apply incident_range in Ha as (_ & ? & _). }
  split.
  - induction 1 as [s Hin|n u v _ IH [_ Hop]].
    + constructor. by apply list_elem_of_singleton in Hin.
    + econstructor; [done|done|]. apply (hop_allowed g Hg); [by eapply Hr|done].
  - intros Hp. induction Hp as [s ->|n u v Hp IH _ Hop].
    + constructor. by apply list_elem_of_singleton.
    + econstructor; [done|]. split; [done|]. apply (hop_allowed g Hg) in Hop; [done|by eapply Hr].
Qed.

Lemma below_limit bound n : match bound with Some b => (0 <= b)%Z | None => True end ->
  limit (below bound) n <-> match bound with Some b => (Z.of_nat n <= b)%Z | None => True end.
Proof.
  intros Hb. unfold limit, below. destruct bound as [b|]; [|by split]. split.
  - intros H. destruct n as [|n]; [lia|]. specialize (H n). rewrite Z.ltb_lt in H. lia.
  - intros H m Hm. apply Z.ltb_lt. lia.
Qed.

Lemma node_index_cases id :
  (exists i, node_index g id = Ok i /\ i < N /\ node_id g i = Some id) \/
  (exists e, node_index g id = Err e /\ id ∉ map node_key (nodes g)).
Proof.
  unfold node_index. destruct (BTree.get id_cmp id (node_indexes g)) as [i|] eqn:E; simpl.
  - left. exists i. apply (gk_node_index g Hg) in E. split_and!; [done| |done].
    unfold node_id in E. apply fmap_Some in E as (x & Hx & _). by eapply lookup_lt_Some.
  - right. eexists. split; [done|]. intros (x & -> & Hx)%list_elem_of_fmap.
    apply list_elem_of_lookup in Hx as [i Hi].
    assert (node_id g i = Some (node_key x)) as Hid by (unfold node_id; by rewrite Hi).
    apply (gk_node_index g Hg) in Hid. congruence.
Qed.

(** [C5] Shortest paths are exact. The query never panics, says which endpoint
    is missing, returns a path exactly when the bound admits one, and then a
    path of allowed stored edges from source to target that no other path
    undercuts; the [unreachable!] of the reconstruction is unreachable. *)
Theorem shortest_path_exact (dir : TraversalDirection) (labels : list bytes) (bound : option Z)
    (from to : ExternalId) :
  match bound with Some b => (0 <= b)%Z | None => True end ->
  exists p, shortest_path g from to dir labels bound = Some p /\
  match p with
  | MissingSource => from ∉ map node_key (nodes g)
  | MissingTarget => from ∈ map node_key (nodes g) /\ to ∉ map node_key (nodes g)
  | NoPath => exists u v, node_id g u = Some from /\ node_id g v = Some to /\
      forall n, path_reaches dir labels u n v ->
        match bound with Some b => (b < Z.of_nat n)%Z | None => False end
  | Found ids es => exists u v, node_id g u = Some from /\ node_id g v = Some to /\
      path_ok dir labels from to ids es /\ path_reaches dir labels u (length es) v /\
      (forall n, path_reaches dir labels u n v -> length es <= n) /\
      match bound with Some b => (Z.of_nat (length es) <= b)%Z | None => True end
  end.
Proof.
  intros Hb. unfold shortest_path.
  destruct (node_index_cases from) as [(u & -> & Hu & Hid)|(e & -> & Hn)]; [|by eexists].
  assert (from ∈ map node_key (nodes g)) as Hin.
  { unfold node_id in Hid. apply fmap_Some in Hid as (x & Hx & ->).
    apply list_elem_of_fmap. exists x. split; [done|by eapply list_elem_of_lookup_2]. }
  destruct (node_index_cases to) as [(v & -> & Hv & Hid')|(e & -> & Hn)]; [|by eexists].
  destruct (Nat.eqb_spec u v) as [->|Huv].
  - eexists. split; [done|]. exists v, v. assert (from = to) as <- by congruence.
    split_and!; [done|done|constructor|by constructor|simpl; lia|by destruct bound].
  - destruct (mark_some g [] (replicate N false) u (marks_nil g) Hu) as (vis & -> & Hm).
    cbn [mbind option_bind].
    assert (id_of g u = from /\ id_of g v = to) as [Eu Ev] by (unfold id_of; by rewrite Hid, Hid').
    destruct (sp_loop_spec dir labels bound u v Hu Hv Huv N
      {| sp_visited := vis; sp_predecessor := replicate N None; sp_queue := [(u, 0%Z)] |}
      [(u, 0)] 0 []) as [[-> Hno]|(ids & es & -> & Hpath & Hr & Hmin & Hl)].
    + apply (init_inv N _ _ _ _ [u]); [by constructor|apply NoDup_singleton].
    + simpl. lia.
    + split_and!; [done|done|]. split; [apply length_replicate|]. intros ? ? ? H. inversion H.
    + simpl. intros H. apply list_elem_of_singleton in H. congruence.
    + lia.
    + eexists. split; [done|]. exists u, v. split_and!; [done|done|]. intros n Hn.
      apply (hops_iff dir labels u n v Hu) in Hn. specialize (Hno n Hn).
      rewrite below_limit in Hno by done. destruct bound; [lia|tauto].
    + eexists. split; [done|]. exists u, v. rewrite Eu, Ev in Hpath.
      split_and!; [done|done|done|by apply (hops_iff dir labels u _ v Hu)| |by apply below_limit in Hl].
      intros n Hn. apply Hmin. by apply (hops_iff dir labels u n v Hu).
Qed.
End Path.

Lemma shortest_path_exact_witness :
  let _ := Json.number in
  exists ids es,
    shortest_path Sample.graph (Str (lit "a")) (Str (lit "d")) Out [] (Some 3%Z) = Some (Found ids es) /\
    path_ok Sample.graph Out [] (Str (lit "a")) (Str (lit "d")) ids es /\
    ids = [Str (lit "a"); Str (lit "b"); Str (lit "c"); Str (lit "d")].
Proof.
  cbv zeta.
  destruct (@shortest_path_exact Json.number Sample.graph Sample.graph_ok Out [] (Some 3%Z)
    (Str (lit "a")) (Str (lit "d"))) as (p & Hp & Hspec); [lia|].
  destruct p as [| | |ids es].
  1-3: vm_compute in Hp; discriminate Hp.
  destruct Hspec as (u & v & _ & _ & Hpath & _).
  exists ids, es. split; [exact Hp|]. split; [exact Hpath|].
  vm_compute in Hp. injection Hp as <- _. reflexivity.
Defined.

End TraversalPath.
