(* ===== verification/TraversalDfs.v ===== *)
(** Depth-first traversal returns a forest of walks: [Graph::depth_first] of
    crates/graph-algorithms/src/algorithms/traversal.rs. *)
From S2P Require Import Prelude Bytes BTree ExternalId Graph GraphSearch Traversal TraversalSpec.
From S2P Require Import TraversalBfs.

Open Scope nat_scope.

Module TraversalDfs.
Export TraversalBfs.

Section Dfs.
Context {JN : JsonNumber} (g : GraphInner) (Hg : graph_ok g) (o : TraversalOptions) (ss : list nat).
Hypothesis ss_range : Forall (fun s => s < node_count g) ss.
Hypothesis ss_nodup : NoDup ss.
Hypothesis ss_seeds : forall v, v ∈ ss <-> is_seed g o v.

Abbreviation N := (node_count g).
Abbreviation ok := (arc_ok g (allowed_labels o)).
Abbreviation adjacent := (adj g (direction o)).
Abbreviation hops := (reach adjacent ok (expands g o ss) ss).

(** A scheduled node: itself, its depth, and the node and edge that scheduled
    it. *)
Abbreviation node_t := (nat * nat * option (nat * nat))%type.

Definition node_of (x : node_t) : nat := x.1.1.
Definition depth_of (x : node_t) : nat := x.1.2.

(** [x], visited at position [k], was scheduled by an earlier visit. *)
Definition scheduled (V : list node_t) (k : nat) (x : node_t) : Prop :=
  match x.2 with
  | None => depth_of x = 0 /\ node_of x ∈ ss
  | Some (u, edge_index) => exists j y a, j < k /\ V !! j = Some y /\ node_of y = u /\
      depth_of x = S (depth_of y) /\ a ∈ adjacent u /\ ok a = true /\ expands g o ss u = true /\
      arc_edge a = edge_index /\ neighbor a = node_of x
  end.

(** [V] is visited, in order; [stk] is the stack. *)
Record dfs_inv (V stk : list node_t) : Prop := {
  di_range : Forall (fun x => node_of x < N) (V ++ stk);
  di_nodup : NoDup (map node_of (V ++ stk));
  di_reach : Forall (fun x => hops (depth_of x) (node_of x) /\ limit (within o) (depth_of x)) (V ++ stk);
  di_depth : forall k x, V !! k = Some x -> depth_of x <= k;
  di_stack_depth : Forall (fun x => depth_of x <= length V) stk;
  di_visited : forall k x, V !! k = Some x -> scheduled V k x;
  di_stack : Forall (scheduled V (length V)) stk;
  di_seeds : forall s, s ∈ ss -> (s, 0, None) ∈ V ++ stk;
  di_closed : forall x a, x ∈ V -> expands g o ss (node_of x) = true -> within o (depth_of x) = true ->
    a ∈ adjacent (node_of x) -> ok a = true -> neighbor a ∈ map node_of (V ++ stk);
}.

Lemma scheduled_snoc V y k x : k <= length V -> scheduled V k x -> scheduled (V ++ [y]) k x.
Proof.
  intros Hk. unfold scheduled. destruct x.2 as [[u e]|]; [|done].
  intros (j & z & a & Hj & Hz & H). exists j, z, a. split; [done|]. split; [|done].
  apply lookup_app_l_Some. done.
Qed.

Lemma scheduled_mono V k k' x : k <= k' -> scheduled V k x -> scheduled V k' x.
Proof.
  intros Hk. unfold scheduled. destruct x.2 as [[u e]|]; [|done].
  intros (j & z & a & Hj & H). exists j, z, a. split; [lia|done].
Qed.

(** What a popped entry keeps of the invariant, whatever is pushed. *)
Lemma pop_inv V x stk new : dfs_inv V (x :: stk) ->
  Forall (fun y => node_of y < N) new ->
  NoDup (map node_of new) -> (forall y, y ∈ new -> node_of y ∉ map node_of (V ++ x :: stk)) ->
  Forall (fun y => hops (depth_of y) (node_of y) /\ limit (within o) (depth_of y)) new ->
  Forall (fun y => depth_of y <= S (depth_of x)) new ->
  Forall (scheduled (V ++ [x]) (S (length V))) new ->
  (expands g o ss (node_of x) = true -> within o (depth_of x) = true ->
   forall a, a ∈ adjacent (node_of x) -> ok a = true ->
     neighbor a ∈ map node_of (V ++ x :: stk) \/ neighbor a ∈ map node_of new) ->
  dfs_inv (V ++ [x]) (new ++ stk).
Proof.
  intros [] Hnr Hnn Hnew Hre Hde Hsc Hcl.
  assert ((V ++ [x]) ++ new ++ stk ≡ₚ new ++ (V ++ x :: stk)) as Hp.
  { rewrite <- app_assoc, (Permutation_app_swap_app new). simpl. apply Permutation_app_head.
    by rewrite Permutation_middle. }
  apply Forall_cons in di_stack_depth0 as [Hxd Hsd]. apply Forall_cons in di_stack0 as [Hxs Hss].
  assert (length (V ++ [x]) = S (length V)) as Hlen by (rewrite length_app; simpl; lia).
  constructor.
  - rewrite Hp. by apply Forall_app.
  - assert (map node_of ((V ++ [x]) ++ new ++ stk) ≡ₚ map node_of (new ++ (V ++ x :: stk))) as ->
      by (by rewrite Hp).
    rewrite map_app. apply NoDup_app. split_and!; [done| |done].
    intros v (y & -> & Hy)%list_elem_of_fmap. by apply Hnew.
  - rewrite Hp. by apply Forall_app.
  - intros k y [Hk|[Hk Hy]]%lookup_app_Some; [by apply di_depth0|].
    destruct (k - length V) as [|n] eqn:E; [|by destruct n]. simpl in Hy. injection Hy as <-. lia.
  - rewrite Hlen. apply Forall_app. split.
    + eapply Forall_impl; [exact Hde|]. simpl. lia.
    + eapply Forall_impl; [exact Hsd|]. simpl. lia.
  - intros k y [Hk|[Hk Hy]]%lookup_app_Some.
    + apply scheduled_snoc; [|by apply di_visited0]. apply lookup_lt_Some in Hk. lia.
    + destruct (k - length V) as [|n] eqn:E; [|by destruct n]. simpl in Hy. injection Hy as <-.
      assert (k = length V) as -> by lia. by apply scheduled_snoc.
  - rewrite Hlen. apply Forall_app. split; [done|]. eapply Forall_impl; [exact Hss|]. intros y Hy.
    apply scheduled_mono with (length V); [lia|]. by apply scheduled_snoc.
  - intros s Hs. rewrite Hp. apply elem_of_app. right. by apply di_seeds0.
  - intros y a Hy He Hw Ha Ho.
    assert (map node_of ((V ++ [x]) ++ new ++ stk) ≡ₚ map node_of (new ++ (V ++ x :: stk))) as ->
      by (by rewrite Hp).
    rewrite map_app, elem_of_app. apply elem_of_app in Hy as [Hy|Hy].
    + right. by apply (di_closed0 y).
    + apply list_elem_of_singleton in Hy as ->. destruct (Hcl He Hw a Ha Ho); auto.
Qed.

(** A popped entry that is not expanded. *)
Lemma pop_stop V x stk : dfs_inv V (x :: stk) ->
  expands g o ss (node_of x) && within o (depth_of x) = false -> dfs_inv (V ++ [x]) stk.
Proof.
  intros Hi Hs. apply (pop_inv V x stk []);
    [done|constructor|constructor| |constructor|constructor|constructor|].
  - intros y Hy. inversion Hy.
  - intros He Hw. by rewrite He, Hw in Hs.
Qed.

(** A popped entry that is: its undiscovered neighbours are pushed. *)
Definition pushed (x : node_t) (a : ArcRef) : node_t :=
  (neighbor a, S (depth_of x), Some (node_of x, arc_edge a)).

Lemma pop_expand V x stk seen : dfs_inv V (x :: stk) ->
  (forall v, v ∈ seen <-> v ∈ map node_of (V ++ x :: stk)) ->
  expands g o ss (node_of x) = true -> within o (depth_of x) = true ->
  dfs_inv (V ++ [x]) (map (pushed x) (discover ok seen (adjacent (node_of x))) ++ stk).
Proof.
  intros Hi Hseen He Hw. set (kept := discover ok seen (adjacent (node_of x))).
  assert (x ∈ V ++ x :: stk) as Hx by (apply elem_of_app; right; left).
  pose proof (di_range _ _ Hi) as Hr. pose proof (di_reach _ _ Hi) as Hre.
  rewrite Forall_forall in Hr, Hre. destruct (Hre x Hx) as [Hrx Hlx].
  assert (forall a, a ∈ kept -> a ∈ adjacent (node_of x) /\ ok a = true /\ neighbor a ∉ seen) as Hk.
  { intros a. apply in_discover. }
  assert (map node_of (map (pushed x) kept) = map neighbor kept) as Hmap by (by rewrite map_map).
  apply (pop_inv V x stk); [done| | | | | | |].
  - apply Forall_fmap, Forall_forall. intros a Ha. eapply (adj_range g Hg); [|by apply Hk]. by apply Hr.
  - rewrite Hmap. apply discover_nodup.
  - intros y (a & -> & Ha)%list_elem_of_fmap. rewrite <- Hseen. by apply Hk.
  - apply Forall_fmap, Forall_forall. intros a Ha. unfold compose, pushed, depth_of, node_of. simpl.
    split; [|by apply limit_S]. econstructor; [exact Hrx|]. split; [done|]. exists a. by apply Hk in Ha as (? & ? & _).
  - apply Forall_fmap, Forall_forall. intros a _. unfold compose, pushed, depth_of. simpl. lia.
  - apply Forall_fmap, Forall_forall. intros a Ha. unfold compose, pushed, scheduled. simpl.
    apply Hk in Ha as (Ha & Hok & _). exists (length V), x, a. split_and!; try done; [lia|].
    by apply list_lookup_middle.
  - intros _ _ a Ha Hok. rewrite Hmap, <- Hseen. by apply discover_complete.
Qed.

Lemma dfs_init : dfs_inv [] (map (fun s => (s, 0, None)) ss).
Proof.
  assert (map node_of (map (fun s => (s, 0, None)) ss) = ss) as E.
  { rewrite map_map. unfold node_of. simpl. apply map_id. }
  constructor; simpl; rewrite ?E; try done.
  - by apply Forall_fmap.
  - apply Forall_fmap, Forall_forall. intros s Hs. split; [by constructor|]. intros m Hm.
    unfold depth_of in Hm. simpl in Hm. lia.
  - apply Forall_fmap, Forall_forall. unfold compose, depth_of. simpl. lia.
  - apply Forall_fmap, Forall_forall. unfold compose, scheduled. simpl. done.
  - intros s Hs. apply list_elem_of_fmap. eauto.
  - intros x a Hx. inversion Hx.
Qed.

Lemma dfs_bound V stk : dfs_inv V stk -> length V + length stk <= N.
Proof.
  intros Hi. pose proof (di_range _ _ Hi) as Hr. rewrite Forall_forall in Hr.
  assert (map node_of (V ++ stk) ⊆+ seq 0 N) as Hs.
  { apply NoDup_submseteq; [by apply di_nodup|]. intros v (x & -> & Hx)%list_elem_of_fmap.
    apply elem_of_seq. specialize (Hr _ Hx). lia. }
  apply submseteq_length in Hs. by rewrite length_map, length_app, length_seq in Hs.
Qed.

(** With the depth unbounded by [max_depth], everything reachable is visited. *)
Lemma dfs_complete V : dfs_inv V [] -> (Z.of_nat N <= max_depth o)%Z ->
  forall n v, hops n v -> v ∈ map node_of V.
Proof.
  intros Hi Hm n v Hr. pose proof (di_closed _ _ Hi) as Hc. rewrite app_nil_r in Hc.
  induction Hr as [s Hs|n u v _ IH [He (a & Ha & Hok & <-)]].
  - pose proof (di_seeds _ _ Hi s Hs) as H. rewrite app_nil_r in H.
    apply list_elem_of_fmap. by exists (s, 0, None).
  - apply list_elem_of_fmap in IH as (x & -> & Hx). apply (Hc x a); try done.
    unfold within. apply Z.ltb_lt. pose proof (dfs_bound _ _ Hi) as Hb.
    apply list_elem_of_lookup in Hx as [k Hk]. pose proof (di_depth _ _ Hi k x Hk).
    apply lookup_lt_Some in Hk. simpl in Hb. lia.
Qed.
(** ** The loops of the code *)

Lemma dfs_filter_discover seen visited arcs discovered :
  marks g seen visited -> Forall (fun a => neighbor a < N /\ is_Some (edge_of g a)) arcs ->
  dfs_filter g o visited arcs discovered = Some (discover ok (discovered ++ seen) arcs).
Proof.
  intros Hm Harcs. revert discovered. induction Harcs as [|a arcs [Ha [e He]] _ IH]; intros discovered; simpl.
  - done.
  - rewrite (proj2 Hm) by done. simpl. unfold edge_of in He. unfold edge_at. rewrite He. simpl.
    assert (ok a = edge_label_allowed e (allowed_labels o)) as -> by (unfold arc_ok; by rewrite He).
    rewrite (bool_decide_ext (neighbor a ∈ discovered ++ seen)
      (neighbor a ∈ discovered \/ neighbor a ∈ seen)) by apply elem_of_app.
    case_bool_decide as Hs; simpl.
    { rewrite bool_decide_eq_true_2 by auto. rewrite andb_false_r. apply IH. }
    destruct (edge_label_allowed e _); simpl; [|apply IH].
    destruct (BTree.contains Nat.compare (neighbor a) discovered) eqn:Ec.
    + apply (BTree.contains_iff Nat.compare) in Ec. rewrite bool_decide_eq_true_2 by auto. apply IH.
    + assert (neighbor a ∉ discovered) as Hd.
      { intros Hin. apply (BTree.contains_iff Nat.compare) in Hin. congruence. }
      rewrite bool_decide_eq_false_2 by tauto. simpl. rewrite IH. simpl. do 2 f_equal.
      apply discover_ext. intros v. rewrite !elem_of_app, elem_of_cons, elem_of_app.
      rewrite (BTree.in_set_insert Nat.compare). tauto.
Qed.

(** An entry as the code stores it. *)
Definition entry_of (x : node_t) : entry := (node_of x, Z.of_nat (depth_of x), x.2).

Lemma dfs_push_some x arcs visited seen stack :
  marks g seen visited -> Forall (fun a => neighbor a < N) arcs ->
  exists visited', dfs_push (node_of x) (Z.of_nat (depth_of x)) arcs visited stack =
      Some (visited', map entry_of (rev (map (pushed x) arcs)) ++ stack) /\
    marks g (map neighbor arcs ++ seen) visited'.
Proof.
  intros Hm Harcs. revert visited seen stack Hm.
  induction Harcs as [|a arcs Ha _ IH]; intros visited seen stack Hm; simpl; [by exists visited|].
  destruct (mark_some g _ _ _ Hm Ha) as (vis & -> & Hm'). simpl.
  destruct (IH vis _ ((neighbor a, (Z.of_nat (depth_of x) + 1)%Z, Some (node_of x, arc_edge a)) :: stack) Hm')
    as (vis' & -> & Hm'').
  exists vis'. split.
  - do 2 f_equal. rewrite map_app, <- app_assoc. simpl. do 2 f_equal.
    unfold entry_of, pushed, depth_of, node_of. simpl. do 2 f_equal. lia.
  - eapply marks_ext; [|exact Hm'']. intros v. rewrite !elem_of_app, !elem_of_cons, elem_of_app. tauto.
Qed.

Lemma dfs_seeds_some l visited seen stack :
  marks g seen visited -> Forall (fun s => s < N) l -> NoDup l -> (forall s, s ∈ l -> s ∉ seen) ->
  exists visited', dfs_seeds l visited stack =
      Some (visited', map entry_of (map (fun s => (s, 0, None)) (rev l)) ++ stack) /\
    marks g (l ++ seen) visited'.
Proof.
  intros Hm Hl. revert visited seen stack Hm.
  induction Hl as [|s l Hs _ IH]; intros visited seen stack Hm Hnd Hn; simpl; [by exists visited|].
  apply NoDup_cons in Hnd as [Hsl Hnd]. rewrite (proj2 Hm) by done. simpl.
  rewrite bool_decide_eq_false_2 by (apply Hn; left).
  destruct (mark_some g _ _ _ Hm Hs) as (vis & -> & Hm'). simpl.
  destruct (IH vis _ ((s, 0%Z, None) :: stack) Hm' Hnd) as (vis' & -> & Hm'').
  { intros t Ht. rewrite not_elem_of_cons. split; [by intros ->|]. apply Hn. by right. }
  exists vis'. split.
  - do 2 f_equal. rewrite !map_app, <- app_assoc. done.
  - eapply marks_ext; [|exact Hm'']. intros v. rewrite !elem_of_app, !elem_of_cons, elem_of_app. tauto.
Qed.

(** The visits and discovery edges rendered from the visited entries. *)
Definition render_visit (k : nat) (x : node_t) : Visit := mk_visit g k (node_of x, depth_of x).
Definition render_visits (V : list node_t) : list Visit := imap render_visit V.
Definition render_edges (V : list node_t) : list TraversedEdge :=
  omap (fun x => x.2 ≫= fun s => mk_edge g s.1 <$> (edges g !! s.2)) V.

Definition dfs_state_of (V stk : list node_t) (st : dfs_state) : Prop :=
  marks g (map node_of (V ++ stk)) (dfs_visited st) /\ dfs_stack st = map entry_of stk /\
  dfs_visits st = render_visits V /\ dfs_edges st = render_edges V.

Lemma dfs_visit_some V x stk st : dfs_inv V (x :: stk) ->
  marks g (map node_of (V ++ x :: stk)) (dfs_visited st) -> dfs_stack st = map entry_of stk ->
  dfs_visits st = render_visits V -> dfs_edges st = render_edges V ->
  exists st' new, dfs_visit g o ss (node_of x) (Z.of_nat (depth_of x)) x.2 st = Some st' /\
    dfs_inv (V ++ [x]) (new ++ stk) /\ dfs_state_of (V ++ [x]) (new ++ stk) st'.
Proof.
  intros Hi Hm Hst Hv He.
  assert (x ∈ V ++ x :: stk) as Hx by (apply elem_of_app; right; left).
  pose proof (di_range _ _ Hi) as Hr. rewrite Forall_forall in Hr. pose proof (Hr x Hx) as Hxr.
  unfold dfs_visit. rewrite node_id_of by done. cbn [mbind option_bind].
  assert (render_visits (V ++ [x]) = dfs_visits st ++ [{| visit_node := id_of g (node_of x);
    depth := Z.of_nat (depth_of x); discovery_order := length (dfs_visits st) |}]) as Hvis.
  { unfold render_visits. rewrite imap_app, Hv. unfold render_visits. rewrite length_imap. simpl.
    by rewrite Nat.add_0_r. }
  assert (match x.2 with
    | None => Some (dfs_edges st)
    | Some (previous, edge_index) =>
        edge ← edge_at g edge_index;
        discovery ← traversed_edge g previous edge;
        Some (dfs_edges st ++ [discovery])
    end = Some (render_edges (V ++ [x]))) as ->.
  { unfold render_edges. rewrite omap_app, He. simpl.
    pose proof (di_stack _ _ Hi) as Hsc. apply Forall_cons in Hsc as [Hsc _]. unfold scheduled in Hsc.
    destruct x.2 as [[u ei]|]; simpl; [|by rewrite app_nil_r].
    destruct Hsc as (j & y & a & _ & Hy & <- & _ & Ha & _ & _ & <- & _).
    assert (node_of y < N) as Hyr.
    { apply Hr, elem_of_app. left. by eapply list_elem_of_lookup_2. }
    apply (in_adj g Hg) in Ha; [|done]. apply incident_range in Ha as (_ & _ & e & Hae).
    unfold edge_at. rewrite Hae. simpl. by rewrite traversed_edge_eq. }
  cbn [mbind option_bind]. rewrite (stops_eq g Hg) by done. cbn [mbind option_bind].
  destruct (expands g o ss (node_of x) && within o (depth_of x)) eqn:Hex; cbn [negb].
  - apply andb_true_iff in Hex as [Hex Hw]. rewrite (adj_arcs g Hg) by done. cbn [mbind option_bind].
    rewrite (dfs_filter_discover _ _ _ [] Hm) by (by apply (adj_arcs_ok g Hg)). cbn [mbind option_bind].
    rewrite app_nil_l. set (kept := discover _ _ _).
    assert (Forall (fun a => neighbor a < N) (rev kept)) as Hkr.
    { apply Forall_forall. intros a Ha. apply list_elem_of_In, in_rev, list_elem_of_In in Ha.
      apply in_discover in Ha as (Ha & _). by eapply (adj_range g Hg). }
    destruct (dfs_push_some x (rev kept) (dfs_visited st) _ (dfs_stack st) Hm Hkr) as (vis & -> & Hm').
    cbn [mbind option_bind]. exists {| dfs_visited := vis;
      dfs_stack := map entry_of (rev (map (pushed x) (rev kept))) ++ dfs_stack st;
      dfs_visits := render_visits (V ++ [x]); dfs_edges := render_edges (V ++ [x]) |}, (map (pushed x) kept).
    split; [simpl; by rewrite Hvis|]. split; [by apply pop_expand|]. split_and!; simpl; [| |done|done].
    + eapply marks_ext; [|exact Hm']. intros v. rewrite !map_app, !elem_of_app, !map_map. simpl.
      rewrite elem_of_cons. assert (v ∈ map neighbor (rev kept) <-> v ∈ map neighbor kept) as ->.
      { rewrite map_rev, !list_elem_of_In. symmetry. apply in_rev. }
      change (map (fun x0 => node_of (pushed x x0)) kept) with (map neighbor kept).
      rewrite list_elem_of_singleton. tauto.
    + by rewrite (map_rev (pushed x)), rev_involutive, Hst, map_app.
  - exists {| dfs_visited := dfs_visited st; dfs_stack := dfs_stack st;
      dfs_visits := render_visits (V ++ [x]); dfs_edges := render_edges (V ++ [x]) |}, [].
    split; [simpl; by rewrite Hvis|]. split; [by apply pop_stop|]. split_and!; simpl; [|done|done|done].
    eapply marks_ext; [|exact Hm]. intros v. by rewrite <- app_assoc.
Qed.

Lemma dfs_loop_some fuel V stk st : dfs_inv V stk -> dfs_state_of V stk st -> N <= length V + fuel ->
  exists st' V', dfs_loop fuel g o ss st = Some st' /\ dfs_inv V' [] /\ dfs_state_of V' [] st'.
Proof.
  revert V stk st. induction fuel as [|fuel IH]; intros V stk st Hi (Hm & Hs & Hv & He) Hf;
    cbn [dfs_loop]; rewrite Hs; destruct stk as [|x stk]; simpl; try (by exists st, V).
  { pose proof (dfs_bound _ _ Hi) as Hb. simpl in Hb. lia. }
  match goal with |- context [dfs_visit g o ss _ _ _ ?st1] =>
    destruct (dfs_visit_some V x stk st1 Hi Hm) as (st' & new & -> & Hi' & Hst'); [done|done|done|] end.
  simpl. apply (IH (V ++ [x]) (new ++ stk)); [done|done|]. rewrite length_app. simpl. lia.
Qed.

Lemma depth_first_search : exists V,
  depth_first g o ss = Some (Ok {| visits := render_visits V; discovery_edges := render_edges V |}) /\
  dfs_inv V [].
Proof.
  unfold depth_first.
  destruct (dfs_seeds_some (rev ss) (replicate N false) [] []) as (vis & -> & Hm).
  - apply marks_nil.
  - apply Forall_forall. intros s Hs. apply list_elem_of_In, in_rev, list_elem_of_In in Hs.
    rewrite Forall_forall in ss_range. by apply ss_range.
  - by rewrite <- Permutation_rev.
  - intros s _ Hn. inversion Hn.
  - cbn [mbind option_bind]. rewrite rev_involutive, app_nil_r.
    match goal with |- context [dfs_loop _ g o ss ?st1] =>
      destruct (dfs_loop_some N [] (map (fun s => (s, 0, None)) ss) st1) as (st' & V & -> & Hi & Hst) end.
    + apply dfs_init.
    + split_and!; simpl; [|done|done|done]. eapply marks_ext; [|exact Hm]. intros v.
      rewrite app_nil_r, map_map. unfold node_of. simpl. rewrite map_id.
      rewrite !list_elem_of_In. symmetry. apply in_rev.
    + simpl. lia.
    + exists V. split; [|done]. destruct Hst as (_ & _ & Hv & He). simpl. by rewrite Hv, He.
Qed.
(** ** The result is a forest *)

Lemma in_render V x : x ∈ render_visits V <-> exists k y, V !! k = Some y /\ x = render_visit k y.
Proof.
  unfold render_visits. rewrite list_elem_of_lookup. split.
  - intros [k Hk]. rewrite list_lookup_imap in Hk. destruct (V !! k) as [y|] eqn:E; [|done].
    simpl in Hk. injection Hk as <-. eauto.
  - intros (k & y & Hy & ->). exists k. by rewrite list_lookup_imap, Hy.
Qed.

(** Visits with a depth and discovery edges pair up. *)
Lemma render_pairs (P : Visit -> TraversedEdge -> Prop) V k :
  (forall j x, V !! j = Some x ->
     match x.2 with
     | None => depth_of x = 0
     | Some (u, ei) => 0 < depth_of x /\ exists e, edges g !! ei = Some e /\
         P (render_visit (k + j) x) (mk_edge g u e)
     end) ->
  Forall2 P (filter (fun x => (0 < depth x)%Z) (imap (fun j => render_visit (k + j)) V)) (render_edges V).
Proof.
  revert k. induction V as [|x V IH]; intros k Hp; [constructor|].
  assert (Forall2 P (filter (fun x => (0 < depth x)%Z) (imap (fun j => render_visit (k + S j)) V))
    (render_edges V)) as Hrest.
  { rewrite (imap_ext _ (fun j => render_visit (S k + j))) by (intros; simpl; by rewrite Nat.add_succ_r).
    apply IH. intros j y Hj. specialize (Hp (S j) y Hj). by rewrite Nat.add_succ_r in Hp. }
  specialize (Hp 0 x eq_refl). rewrite imap_cons. unfold render_edges. cbn [omap list_omap].
  destruct x.2 as [[u ei]|].
  - destruct Hp as (Hd & e & He & HP). cbn [mbind option_bind fst snd]. rewrite He. simpl.
    rewrite filter_cons_True by (simpl; lia). constructor; [done|]. exact Hrest.
  - simpl. rewrite filter_cons_False by (simpl; rewrite Hp; lia). exact Hrest.
Qed.

Lemma dfs_forest V : dfs_inv V [] ->
  forest g o {| visits := render_visits V; discovery_edges := render_edges V |}.
Proof.
  intros Hi. destruct (Hi) as [Hr Hnd _ _ _ Hsc _ Hs _]. rewrite app_nil_r in Hr, Hnd.
  setoid_rewrite app_nil_r in Hs. constructor; simpl.
  - assert (render_visits V = visits_of g (map (fun x => (node_of x, depth_of x)) V)) as ->.
    { apply list_eq. intros k. unfold render_visits, visits_of. rewrite !list_lookup_imap.
      change (map ?f V) with (f <$> V). rewrite list_lookup_fmap. by destruct (V !! k). }
    apply (visits_distinct g Hg).
    + by apply Forall_fmap.
    + assert ((map (fun x => (node_of x, depth_of x)) V).*1 = map node_of V) as ->; [|done].
      clear. induction V as [|x V IH]; [done|]. csimpl. by f_equal.
  - intros k x Hx. unfold render_visits in Hx. rewrite list_lookup_imap in Hx.
    destruct (V !! k); [|done]. simpl in Hx. by injection Hx as <-.
  - intros x (k & y & Hk & ->)%in_render. simpl. split; [lia|].
    rewrite (seed_id g o ss ss_seeds) by (by apply (Forall_lookup_1 _ _ _ _ Hr Hk)). split.
    + intros Hd. specialize (Hsc k y Hk). unfold scheduled in Hsc. destruct y.2 as [[u ei]|].
      * destruct Hsc as (? & ? & ? & _ & _ & _ & Hd' & _). lia.
      * by destruct Hsc.
    + intros Hin. specialize (Hs _ Hin). apply list_elem_of_lookup in Hs as [k' Hk'].
      assert (k' = k) as ->.
      { apply (NoDup_lookup (map node_of V) k' k (node_of y)); [done| |];
          change (map node_of V) with (node_of <$> V); rewrite list_lookup_fmap; [by rewrite Hk'|by rewrite Hk]. }
      rewrite Hk in Hk'. injection Hk' as ->. done.
  - apply (render_pairs _ V 0). intros k x Hk. pose proof (Hsc k x Hk) as Hx. unfold scheduled in Hx.
    destruct x.2 as [[u ei]|]; [|by destruct Hx].
    destruct Hx as (j & y & a & Hj & Hy & Hyu & Hd & Ha & Hok & Hex & <- & Hax).
    assert (u < N) as Hu by (rewrite <- Hyu; by apply (Forall_lookup_1 _ _ _ _ Hr Hy)).
    apply (in_adj g Hg) in Ha; [|done]. unfold arc_ok in Hok.
    destruct (edges g !! arc_edge a) as [e|] eqn:He; [|done].
    split; [lia|]. exists e. split; [done|]. exists (render_visit j y). split; [apply in_render; eauto|].
    split_and!; simpl; [lia|done| |].
    + exists e. split_and!; try done. by eapply list_elem_of_lookup_2.
    + pose proof (mk_edge_ends g _ _ _ _ Ha He) as Hends. rewrite Hax in Hends. simpl in Hends.
      rewrite Hyu. by destruct (decide _).
Qed.
End Dfs.

(** Depth-first traversal visits by walks: on existing seeds it returns
    without panicking a forest in which every node is visited at the length of
    an allowed walk from a seed, within [max_depth]; and when [max_depth] does
    not cut it off, exactly the reachable nodes are visited. *)
Theorem dfs_exact {JN : JsonNumber} (g : GraphInner) (o : TraversalOptions) :
  graph_ok g -> strategy o = DepthFirst -> (0 <= max_depth o)%Z -> seeds o <> [] ->
  (forall id, id ∈ seeds o -> id ∈ map node_key (nodes g)) ->
  exists r, traverse g o = Some (Ok r) /\ forest g o r /\
    (forall x, x ∈ visits r -> exists v n, node_id g v = Some (visit_node x) /\
       depth x = Z.of_nat n /\ (Z.of_nat n <= max_depth o)%Z /\ traversal_reaches g o n v) /\
    ((Z.of_nat (node_count g) <= max_depth o)%Z -> forall n v id,
       node_id g v = Some id -> traversal_reaches g o n v -> id ∈ map visit_node (visits r)).
Proof.
  intros Hg Hstrat Hmax Hne Hseeds. unfold traverse. rewrite bool_decide_eq_false_2 by done.
  destruct (seed_indexes_some g Hg (seeds o) [] Hseeds) as (ss & -> & Hnd & Hr & Hss).
  assert (forall v, v ∈ ss <-> is_seed g o v) as Hiff.
  { intros v. rewrite Hss. unfold is_seed. split; [by intros [_ ?]|].
    intros ?. split; [inversion 1|done]. }
  rewrite Hstrat. destruct (depth_first_search g Hg o ss Hr Hnd) as (V & -> & Hi).
  eexists. split; [done|]. split; [by apply (dfs_forest g Hg o ss)|]. simpl.
  pose proof (di_range _ _ _ _ _ Hi) as Hrange. rewrite app_nil_r in Hrange. split.
  - intros x (k & y & Hk & ->)%in_render. exists (node_of y), (depth_of y).
    pose proof (di_reach _ _ _ _ _ Hi) as Hre. rewrite app_nil_r in Hre.
    destruct (Forall_lookup_1 _ _ _ _ Hre Hk) as [H1 H2].
    split_and!; [|done|by apply limit_iff|by apply (reach_iff g Hg o ss Hr Hiff)].
    apply node_id_of. by apply (Forall_lookup_1 _ _ _ _ Hrange Hk).
  - intros Hbig n v id Hid Hv. apply (reach_iff g Hg o ss Hr Hiff) in Hv.
    pose proof (dfs_complete g o ss V Hi Hbig n v Hv) as Hin.
    apply list_elem_of_fmap in Hin as (y & -> & [k Hk]%list_elem_of_lookup).
    apply list_elem_of_fmap. exists (render_visit g k y). split; [|apply in_render; eauto].
    simpl. unfold id_of. by rewrite Hid.
Qed.

Lemma dfs_exact_witness :
  let _ := Json.number in
  exists r, traverse Sample.graph (sample_options DepthFirst 4) = Some (Ok r) /\
    forest Sample.graph (sample_options DepthFirst 4) r /\
    map visit_node (visits r) = [Str (lit "a"); Str (lit "b"); Str (lit "c"); Str (lit "d")].
Proof.
  cbv zeta.
  destruct (@dfs_exact Json.number Sample.graph (sample_options DepthFirst 4) Sample.graph_ok)
    as (r & Hr & Hf & _).
  - reflexivity.
  - discriminate.
  - discriminate.
  - intros id Hid. apply list_elem_of_singleton in Hid as ->. vm_compute. left.
  - exists r. split; [exact Hr|]. split; [exact Hf|].
    vm_compute in Hr. injection Hr as <-. reflexivity.
Defined.

End TraversalDfs.
