(* ===== verification/Transform.v ===== *)
(** Graph transformations: crates/graph-algorithms/src/transform.rs.

    Direction conversions, induced subgraphs, relabelling and composition. Each
    operation rebuilds the graph through [Graph::with_attributes]; as there,
    the outer [option] is a panic (here the two [expect]s of [to_directed]). *)
From S2P Require Import Prelude Bytes BTree ExternalId Graph.

Open Scope Z_scope.

Module Transform.
Export Graph.

Section Model.
Context {JN : JsonNumber} {JW : JsonWriter}.

(** ** [Graph::to_directed] *)

(** The fold that indexes the last reversal generation of each stored ID. *)
Definition reverse_generations (edges : list Edge) : list (bytes * Z) :=
  fold_left (fun generations edge =>
    let id := stored_id (edge_id edge) in
    let generation := reverse_generation (edge_id edge) in
    BTree.insert bytes_cmp id
      match BTree.get bytes_cmp id generations with
      | Some known => Z.max known generation
      | None => generation
      end generations) edges [].

(** [Edge { id, source: edge.target, target: edge.source, ..edge.clone() }]. *)
Definition flip_edge (id : EdgeId) (edge : Edge) : Edge :=
  {| edge_id := id; graphify_key := graphify_key edge; source := target edge;
     target := source edge; label := label edge; weight := weight edge;
     attributes := attributes edge |}.

Fixpoint direct_edges (edges : list Edge) (generations : list (bytes * Z)) (out : list Edge)
    : option (result GraphError (list Edge)) :=
  match edges with
  | [] => Some (Ok out)
  | edge :: edges =>
      let out := out ++ [edge] in
      if decide (source edge = target edge) then direct_edges edges generations out
      else
        let id := stored_id (edge_id edge) in
        generation ← BTree.get bytes_cmp id generations;
        match checked_add 64 generation 1 with
        | None => Some (Err (EdgeIdentityExhausted id))
        | Some generation =>
            reverse_id ← synthesized_reverse id generation;
            direct_edges edges (BTree.insert bytes_cmp id generation generations)
              (out ++ [flip_edge reverse_id edge])
        end
  end.

Definition to_directed (self : GraphInner) : option (result GraphError GraphInner) :=
  if is_directed (kind self) then Some (Ok self)
  else
    let kind := match kind self with
                | MultiGraph => MultiDiGraph
                | _ => DiGraph
                end in
    edges ← direct_edges (edges self) (reverse_generations (edges self)) [];
    match edges with
    | Err e => Some (Err e)
    | Ok edges => with_attributes kind (graph_attributes self) (nodes self) edges
    end.

(** ** [Graph::to_undirected] *)

(** [any(|edge| !endpoint_pairs.insert(pair))]. *)
Fixpoint has_parallel_pair (edges : list Edge) (endpoint_pairs : list (ExternalId * ExternalId))
    : bool :=
  match edges with
  | [] => false
  | edge :: edges =>
      let pair := endpoint_pair false edge in
      if BTree.contains pair_cmp pair endpoint_pairs then true
      else has_parallel_pair edges (BTree.set_insert pair_cmp pair endpoint_pairs)
  end.

Definition to_undirected (self : GraphInner) : option (result GraphError GraphInner) :=
  if negb (is_directed (kind self)) then Some (Ok self)
  else
    let kind := match kind self with
                | MultiDiGraph => MultiGraph
                | _ => if has_parallel_pair (edges self) [] then MultiGraph else Graph
                end in
    with_attributes kind (graph_attributes self) (nodes self) (edges self).

(** ** [Graph::induced_subgraph] *)

(** The loop over the selected identities, in their order. *)
Fixpoint check_nodes (self : GraphInner) (selected : list ExternalId) : result GraphError unit :=
  match selected with
  | [] => Ok tt
  | node_id :: selected =>
      if negb (contains_node self node_id) then Err (UnknownNode node_id)
      else check_nodes self selected
  end.

Definition induced_subgraph (self : GraphInner) (node_ids : list ExternalId)
    : option (result GraphError GraphInner) :=
  let selected := BTree.set_from_iter id_cmp node_ids in
  match check_nodes self selected with
  | Err e => Some (Err e)
  | Ok _ =>
      with_attributes (kind self) (graph_attributes self)
        (List.filter (fun node => BTree.contains id_cmp (node_key node) selected) (nodes self))
        (List.filter (fun edge => BTree.contains id_cmp (source edge) selected &&
                                  BTree.contains id_cmp (target edge) selected) (edges self))
  end.

(** ** [Graph::relabel] *)

(** The closure [relabel]. *)
Definition relabel_id (mapping : list (ExternalId * ExternalId)) (id : ExternalId) : ExternalId :=
  default id (BTree.get id_cmp id mapping).

Fixpoint check_targets (mapping : list (ExternalId * ExternalId)) (nodes : list Node)
    (targets : list (ExternalId * ExternalId)) : result GraphError unit :=
  match nodes with
  | [] => Ok tt
  | node :: nodes =>
      let target := relabel_id mapping (node_key node) in
      match BTree.get id_cmp target targets with
      | Some first => Err (RelabelCollision target first (node_key node))
      | None => check_targets mapping nodes (BTree.insert id_cmp target (node_key node) targets)
      end
  end.

Definition relabel_node (f : ExternalId -> ExternalId) (node : Node) : Node :=
  {| node_key := f (node_key node); node_label := node_label node;
     node_attributes := node_attributes node |}.
Definition relabel_edge (f : ExternalId -> ExternalId) (edge : Edge) : Edge :=
  {| edge_id := edge_id edge; graphify_key := graphify_key edge; source := f (source edge);
     target := f (target edge); label := label edge; weight := weight edge;
     attributes := attributes edge |}.

Definition relabel (self : GraphInner) (mapping : list (ExternalId * ExternalId))
    : option (result GraphError GraphInner) :=
  match check_targets mapping (nodes self) [] with
  | Err e => Some (Err e)
  | Ok _ =>
      with_attributes (kind self) (graph_attributes self)
        (map (relabel_node (relabel_id mapping)) (nodes self))
        (map (relabel_edge (relabel_id mapping)) (edges self))
  end.

(** ** [Graph::compose] *)

Definition merge_node (left_node right_node : Node) : Node :=
  {| node_key := node_key left_node;
     node_label := if node_label right_node then node_label right_node else node_label left_node;
     node_attributes :=
       BTree.extend bytes_cmp (node_attributes left_node) (node_attributes right_node) |}.

Fixpoint compose_nodes (right_ : list Node) (nodes : list (ExternalId * Node))
    : list (ExternalId * Node) :=
  match right_ with
  | [] => nodes
  | right_node :: right_ =>
      let id := node_key right_node in
      compose_nodes right_
        (BTree.insert id_cmp id
          match BTree.get id_cmp id nodes with
          | Some left_node => merge_node left_node right_node
          | None => right_node
          end nodes)
  end.

Definition merge_edge (left_edge right_edge : Edge) : Edge :=
  {| edge_id := edge_id left_edge;
     graphify_key :=
       if graphify_key right_edge then graphify_key right_edge else graphify_key left_edge;
     source := source left_edge; target := target left_edge;
     label := if label right_edge then label right_edge else label left_edge;
     weight := if weight right_edge then weight right_edge else weight left_edge;
     attributes := BTree.extend bytes_cmp (attributes left_edge) (attributes right_edge) |}.

Fixpoint compose_edges (right_ : list Edge) (edges : list (EdgeId * Edge))
    : result GraphError (list (EdgeId * Edge)) :=
  match right_ with
  | [] => Ok edges
  | right_edge :: right_ =>
      let id := edge_id right_edge in
      match BTree.get edge_id_cmp id edges with
      | Some left_edge =>
          if bool_decide (source left_edge <> source right_edge) ||
             bool_decide (target left_edge <> target right_edge)
          then Err (ConflictingEdge id)
          else compose_edges right_ (BTree.insert edge_id_cmp id (merge_edge left_edge right_edge) edges)
      | None => compose_edges right_ (BTree.insert edge_id_cmp id right_edge edges)
      end
  end.

Definition compose (self right_ : GraphInner) : option (result GraphError GraphInner) :=
  if decide (kind self = kind right_) then
    let attributes := BTree.extend bytes_cmp (graph_attributes self) (graph_attributes right_) in
    let nodes := compose_nodes (nodes right_)
      (BTree.from_iter id_cmp (map (fun node => (node_key node, node)) (nodes self))) in
    match compose_edges (edges right_)
      (BTree.from_iter edge_id_cmp (map (fun edge => (edge_id edge, edge)) (edges self))) with
    | Err e => Some (Err e)
    | Ok edges => with_attributes (kind self) attributes (map snd nodes) (map snd edges)
    end
  else Some (Err KindMismatch).

(** [Graph::export_parts]. *)
Definition export_parts (self : GraphInner) : Attributes * list Node * list Edge :=
  (graph_attributes self, nodes self, edges self).

End Model.
End Transform.
