(* ===== verification/TransformDirection.v ===== *)
(** Direction conversions are exact: [Graph::to_directed] and
    [Graph::to_undirected] of crates/graph-algorithms/src/transform.rs. *)
From S2P Require Import Prelude Bytes BTree ExternalId Graph Transform.

Open Scope Z_scope.

Module TransformDirection.
Export Transform.

Section Valid.
Context {JN : JsonNumber} {JW : JsonWriter}.

(** What every value of the type [Graph] satisfies: the private constructor is
    [with_attributes], and a generation is a [u64]. *)
Record valid (g : GraphInner) : Prop := {
  valid_ok : graph_ok g;
  valid_input : input_ok (kind g) (nodes g) (edges g);
  valid_generations : Forall (fun e => in_u 64 (reverse_generation (edge_id e))) (edges g);
}.

Lemma table_nodes g : valid g -> NoDup (map node_key (nodes g)).
Proof. intros [_ (_ & ? & _) _]. done. Qed.

(** Rebuilding from checked records: every transformation ends with it. *)
Lemma rebuild k ga ns es : input_ok k ns es ->
  Forall (fun e => in_u 64 (reverse_generation (edge_id e))) es ->
  exists g, with_attributes k ga ns es = Some (Ok g) /\ valid g /\ kind g = k /\
    graph_attributes g = ga /\ nodes g ≡ₚ ns /\ edges g ≡ₚ es /\
    (BTree.sorted_set id_cmp (map node_key ns) -> nodes g = ns) /\
    (BTree.sorted_set edge_id_cmp (map edge_id es) -> edges g = es).
Proof.
  intros Hin Hgen. destruct (with_attributes_exact k ga ns es) as (r & Hr & Hiff & Hg).
  apply Hiff, is_ok_iff in Hin as [g ->]. exists g.
  destruct (Hg g eq_refl) as (G & Gk & Ga & Gn & Ge & Hperm). split_and!; try done.
  - constructor; [done| |by rewrite Ge]. specialize (Hperm _ _ Gn Ge). rewrite <- Gk in Hperm.
    destruct (with_attributes_exact (kind g) ga (nodes g) (edges g)) as (r & Hr' & Hiff' & _).
    apply Hiff'. rewrite Hperm in Hr'. by injection Hr' as <-.
  - intros Hs. apply (table_unique id_cmp node_key); [apply G|done|done].
  - intros Hs. apply (table_unique edge_id_cmp edge_id); [apply G|done|done].
Qed.

(** A graph built by the constructor is valid. *)
Lemma constructed_valid k ga ns es g : with_attributes k ga ns es = Some (Ok g) ->
  Forall (fun e => in_u 64 (reverse_generation (edge_id e))) es -> valid g.
Proof.
  intros Hw Hgen. destruct (with_attributes_exact k ga ns es) as (r & Hr & Hiff & _).
  rewrite Hw in Hr. injection Hr as <-.
  destruct (rebuild k ga ns es) as (g' & Hg' & Hv & _); [by apply Hiff|done|].
  rewrite Hw in Hg'. by injection Hg' as <-.
Qed.
End Valid.

(** ** Towards directed graphs *)

Section Directed.
Context {JN : JsonNumber} {JW : JsonWriter}.

Definition not_self (e : Edge) : Prop := source e <> target e.
Abbreviation sid e := (stored_id (edge_id e)).
Abbreviation gen e := (reverse_generation (edge_id e)).

(** [e'] is [e] reversed under an identity of the same stored edge that is
    later than every identity of that stored edge among [all]. *)
Definition reversal (all : list Edge) (e e' : Edge) : Prop :=
  sid e' = sid e /\ e' = flip_edge (edge_id e') e /\ gen e' <= umax 64 /\
  forall d, d ∈ all -> sid d = sid e -> gen d < gen e'.

(** Reversals the stored edge [id] needs. *)
Definition needed (id : bytes) (es : list Edge) : nat :=
  length (filter (fun e => sid e = id /\ not_self e) es).

Definition exhausted (es : list Edge) (id : bytes) : Prop :=
  exists d, d ∈ es /\ sid d = id /\ umax 64 < gen d + Z.of_nat (needed id es).

#[local] Instance not_self_dec e : Decision (not_self e).
Proof. unfold not_self. apply _. Defined.

(** The index holds the last generation of every stored edge. *)
Definition last_generations (es : list Edge) (m : list (bytes * Z)) : Prop :=
  BTree.sorted_map bytes_cmp m /\
  (forall e, e ∈ es -> exists n, BTree.get bytes_cmp (sid e) m = Some n /\ gen e <= n) /\
  (forall id n, BTree.get bytes_cmp id m = Some n -> exists e, e ∈ es /\ sid e = id /\ gen e = n).

Lemma get_here {V} k (v : V) m : BTree.sorted_map bytes_cmp m ->
  BTree.get bytes_cmp k (BTree.insert bytes_cmp k v m) = Some v.
Proof. intros Hm. by rewrite (BTree.get_insert bytes_cmp), cmp_refl by done. Qed.

Lemma get_there {V} k k' (v : V) m : BTree.sorted_map bytes_cmp m -> k' <> k ->
  BTree.get bytes_cmp k' (BTree.insert bytes_cmp k v m) = BTree.get bytes_cmp k' m.
Proof.
  intros Hm Hk. rewrite (BTree.get_insert bytes_cmp) by done.
  destruct (bytes_cmp k' k) eqn:E; [|done|done]. by apply (cmp_eq (cmp := bytes_cmp)) in E.
Qed.

Lemma reverse_generations_snoc es e m : last_generations es m ->
  last_generations (es ++ [e]) (BTree.insert bytes_cmp (sid e)
    match BTree.get bytes_cmp (sid e) m with
    | Some known => Z.max known (gen e)
    | None => gen e
    end m).
Proof.
  intros (Hm & Hle & Hin). split; [by apply (BTree.insert_sorted bytes_cmp)|]. split.
  - intros d Hd. destruct (decide (sid d = sid e)) as [Hs|Hs].
    + rewrite Hs, get_here by done. eexists. split; [done|].
      apply elem_of_app in Hd as [Hd| ->%list_elem_of_singleton].
      * destruct (Hle d Hd) as (n & Hn & ?). rewrite Hs in Hn. rewrite Hn. lia.
      * destruct (BTree.get _ _ m); lia.
    + apply elem_of_app in Hd as [Hd| ->%list_elem_of_singleton]; [|done].
      rewrite get_there by done. by apply Hle.
  - intros id n. destruct (decide (id = sid e)) as [->|Hs].
    + rewrite get_here by done. intros [= <-].
      destruct (BTree.get bytes_cmp (sid e) m) as [known|] eqn:G.
      * destruct (Z.max_spec known (gen e)) as [[_ ->]|[_ ->]]; [exists e; set_solver|].
        destruct (Hin _ _ G) as (d & ? & ? & ?). exists d. set_solver.
      * exists e. set_solver.
    + rewrite get_there by done. intros (d & ? & ? & ?)%Hin. exists d. set_solver.
Qed.

Lemma reverse_generations_last es : last_generations es (reverse_generations es).
Proof.
  unfold reverse_generations. induction es as [|e es IH] using rev_ind.
  - split_and!; [constructor|intros e He; inversion He|done].
  - rewrite fold_left_app. by apply reverse_generations_snoc.
Qed.

(** What the loop still has to satisfy, for the reversals it has not made. *)
Definition fresh (m : list (bytes * Z)) (revs : list Edge) : Prop :=
  NoDup (map edge_id revs) /\
  forall r n, r ∈ revs -> BTree.get bytes_cmp (sid r) m = Some n -> n < gen r.

Lemma needed_cons id e es :
  needed id (e :: es) = ((if decide (sid e = id /\ not_self e) then 1 else 0) + needed id es)%nat.
Proof. unfold needed. rewrite filter_cons. by destruct (decide _). Qed.

Definition flips (e e' : Edge) : Prop := sid e' = sid e /\ e' = flip_edge (edge_id e') e.

Lemma direct_edges_cases es : forall m out, BTree.sorted_map bytes_cmp m ->
  (forall e, e ∈ es -> exists n, BTree.get bytes_cmp (sid e) m = Some n) ->
  (forall id n, BTree.get bytes_cmp id m = Some n -> 0 <= n <= umax 64) ->
  (exists id n, BTree.get bytes_cmp id m = Some n /\ umax 64 < n + Z.of_nat (needed id es) /\
     direct_edges es m out = Some (Err (EdgeIdentityExhausted id))) \/
  (exists revs out', direct_edges es m out = Some (Ok out') /\ out' ≡ₚ out ++ es ++ revs /\
     Forall2 flips (filter not_self es) revs /\ fresh m revs /\
     Forall (fun r => 0 <= gen r <= umax 64) revs /\
     forall id n, BTree.get bytes_cmp id m = Some n -> n + Z.of_nat (needed id es) <= umax 64).
Proof.
  induction es as [|e es IH]; intros m out Hm Hdom Hu; simpl.
  - right. exists [], out. rewrite app_nil_r. split_and!; try done.
    + split; [constructor|]. intros r n Hr. inversion Hr.
    + intros id n Hn. specialize (Hu _ _ Hn). unfold needed. simpl. lia.
  - assert (forall e, e ∈ es -> exists n, BTree.get bytes_cmp (sid e) m = Some n) as Hdom'
      by (intros; apply Hdom; by right).
    destruct (decide (source e = target e)) as [Hs|Hs].
    + assert (forall id, needed id (e :: es) = needed id es) as Hneed.
      { intros id. rewrite needed_cons. rewrite decide_False; [done|]. by intros [_ []]. }
      destruct (IH m (out ++ [e]) Hm Hdom' Hu) as [(id & n & H1 & H2 & H3)|(revs & out' & H1 & H2 & H3 & H4 & H5 & H6)].
      * left. exists id, n. by rewrite Hneed.
      * right. exists revs, out'. rewrite filter_cons_False by (by intros []).
        split_and!; try done; [by rewrite H2, <- app_assoc|]. intros id n. rewrite Hneed. apply H6.
    + destruct (Hdom e) as [n Hn]; [left|]. rewrite Hn. cbn [mbind option_bind].
      pose proof (Hu _ _ Hn) as Hnu. unfold checked_add. destruct (n + 1 <=? umax 64) eqn:Hov.
      2: { left. exists (sid e), n. split_and!; [done| |done]. rewrite needed_cons.
           rewrite decide_True by done. lia. }
      unfold synthesized_reverse. replace (0 <? n + 1) with true by lia. cbn [mbind option_bind].
      set (m' := BTree.insert bytes_cmp (sid e) (n + 1) m).
      set (r0 := flip_edge {| stored_id := sid e; reverse_generation := n + 1 |} e).
      assert (BTree.sorted_map bytes_cmp m') as Hm' by (by apply (BTree.insert_sorted bytes_cmp)).
      assert (forall id k, BTree.get bytes_cmp id m' = Some k <->
        (id = sid e /\ k = n + 1) \/ (id <> sid e /\ BTree.get bytes_cmp id m = Some k)) as Hg'.
      { intros id k. unfold m'. destruct (decide (id = sid e)) as [->|Hid].
        - rewrite get_here by done. split; [intros [= <-]; auto|]. by intros [[_ ->]|[[] _]].
        - rewrite get_there by done. tauto. }
      destruct (IH m' ((out ++ [e]) ++ [r0]) Hm') as
        [(id & k & H1 & H2 & H3)|(revs & out' & H1 & H2 & H3 & H4 & H5 & H6)].
      * intros d Hd. destruct (Hdom' d Hd) as [k Hk].
        destruct (decide (sid d = sid e)); [exists (n + 1)|exists k]; apply Hg'; auto.
      * intros id k [[-> ->]|[_ Hk]]%Hg'; [lia|by eapply Hu].
      * left. apply Hg' in H1 as [[-> ->]|[Hid H1]]; rewrite ?needed_cons.
        -- exists (sid e), n. rewrite needed_cons, decide_True by done. split_and!; [done|lia|done].
        -- exists id, k. rewrite needed_cons, decide_False by (intros [? _]; congruence). done.
      * right. exists (r0 :: revs), out'. rewrite filter_cons_True by done. split_and!.
        -- done.
        -- rewrite H2. rewrite <- !app_assoc. simpl. by rewrite (Permutation_middle es revs r0).
        -- constructor; [by split|done].
        -- split.
           ++ csimpl. apply NoDup_cons. split; [|apply H4].
              intros (r & Hr & Hin)%list_elem_of_fmap. simpl in Hr.
              assert (n + 1 < gen r) as Hlt.
              { apply (proj2 H4 r (n + 1) Hin), Hg'. left. by rewrite <- Hr. }
              rewrite <- Hr in Hlt. simpl in Hlt. lia.
           ++ intros r k [->|Hr]%elem_of_cons Hk; simpl in *; [rewrite Hn in Hk; injection Hk as <-; lia|].
              destruct (decide (sid r = sid e)) as [Hid|Hid].
              ** rewrite Hid, Hn in Hk. injection Hk as <-.
                 assert (n + 1 < gen r); [|lia]. apply (proj2 H4 r (n + 1) Hr), Hg'. auto.
              ** apply (proj2 H4 r k Hr), Hg'. auto.
        -- constructor; [simpl; lia|done].
        -- intros id k Hk. rewrite needed_cons. destruct (decide (id = sid e)) as [->|Hid].
           ++ rewrite Hn in Hk. injection Hk as <-. rewrite decide_True by done.
              assert (n + 1 + Z.of_nat (needed (sid e) es) <= umax 64); [|lia].
              apply (H6 (sid e)), Hg'. auto.
           ++ rewrite decide_False by (intros [? _]; congruence). apply (H6 id k), Hg'. auto.
Qed.

(** ** Endpoint pairs *)

Lemma key_inj {A B} (f : A -> B) l x y :
  NoDup (map f l) -> x ∈ l -> y ∈ l -> f x = f y -> x = y.
Proof.
  intros Hnd [i Hi]%list_elem_of_lookup [j Hj]%list_elem_of_lookup E.
  assert (i = j) as <-; [|congruence].
  apply (NoDup_lookup (map f l) i j (f x)); [done| |]; change (map f l) with (f <$> l);
    rewrite list_lookup_fmap, ?Hi, ?Hj; simpl; congruence.
Qed.

Lemma unordered_pair_sym e e' : source e' = target e -> target e' = source e ->
  endpoint_pair false e' = endpoint_pair false e.
Proof.
  intros Hs Ht. unfold endpoint_pair. simpl. rewrite Hs, Ht.
  rewrite (cmp_sym (cmp := id_cmp) (target e) (source e)). destruct (id_cmp (target e) (source e)) eqn:E; simpl; [|done..].
  by apply (cmp_eq (cmp := id_cmp)) in E as ->.
Qed.

Lemma ordered_unordered es :
  NoDup (map (endpoint_pair false) es) -> NoDup (map (endpoint_pair true) es).
Proof.
  intros Hnd. apply (NoDup_fmap_1 (fun p => match id_cmp p.1 p.2 with Gt => (p.2, p.1) | _ => p end)).
  change (NoDup (map (fun p => match id_cmp p.1 p.2 with Gt => (p.2, p.1) | _ => p end)
    (map (endpoint_pair true) es))).
  rewrite map_map. erewrite map_ext; [exact Hnd|]. intros e. unfold endpoint_pair. simpl.
  by destruct (id_cmp _ _).
Qed.

Lemma flips_in es revs r : Forall2 flips (filter not_self es) revs -> r ∈ revs ->
  exists e, e ∈ es /\ not_self e /\ flips e r.
Proof.
  intros Hf [i Hi]%list_elem_of_lookup. destruct (Forall2_lookup_r _ _ _ _ _ Hf Hi) as (e & He & ?).
  apply list_elem_of_lookup_2, list_elem_of_filter in He as [? ?]. eauto.
Qed.

Lemma flips_ends e r : flips e r -> source r = target e /\ target r = source e.
Proof. by intros [_ ->]. Qed.

Lemma directed_pairs es revs : NoDup (map (endpoint_pair false) es) ->
  Forall2 flips (filter not_self es) revs -> NoDup (map (endpoint_pair true) (es ++ revs)).
Proof.
  intros Hnd Hf. rewrite map_app. apply NoDup_app. split_and!; [by apply ordered_unordered| |].
  - intros p (d & -> & Hd)%list_elem_of_fmap (r & Hdr & Hr)%list_elem_of_fmap.
    destruct (flips_in _ _ _ Hf Hr) as (e & He & Hne & [Hs Ht]%flips_ends).
    unfold endpoint_pair in Hdr. simpl in Hdr. injection Hdr as H1 H2.
    assert (d = e) as ->; [|unfold not_self in Hne; congruence].
    apply (key_inj (endpoint_pair false) es); [done..|]. apply unordered_pair_sym; congruence.
  - apply ordered_unordered. assert (map (endpoint_pair false) revs =
      map (endpoint_pair false) (filter not_self es)) as ->.
    { clear Hnd. induction Hf as [|e r es' revs Her _ IH]; [done|]. simpl. rewrite IH. f_equal.
      apply flips_ends in Her as []. by apply unordered_pair_sym. }
    clear Hf. induction es as [|e es IH]; simpl; [constructor|]. csimpl in Hnd.
    apply NoDup_cons in Hnd as [Hn Hnd]. rewrite filter_cons. destruct (decide (not_self e)); [|auto].
    simpl. apply NoDup_cons. split; [|auto].
    intros (d & Hd & [_ Hin]%list_elem_of_filter)%list_elem_of_fmap. apply Hn. rewrite Hd.
    by apply (list_elem_of_fmap_2 (endpoint_pair false)).
Qed.

(** The records of the directed graph pass construction's checks. *)
Lemma directed_input g k revs m : valid g -> is_directed (kind g) = false ->
  is_directed k = true -> is_multigraph k = is_multigraph (kind g) ->
  last_generations (edges g) m -> fresh m revs -> Forall2 flips (filter not_self (edges g)) revs ->
  input_ok k (nodes g) (edges g ++ revs).
Proof.
  intros [_ (I1 & I2 & I3 & I4 & I5) _] Hu Hd Hmulti (_ & Hle & _) [Hnd Hfresh] Hf.
  assert (Forall (edge_ok (nodes g)) revs) as Hok.
  { apply Forall_forall. intros r Hr. destruct (flips_in _ _ _ Hf Hr) as (e & He & _ & Hs & ->).
    rewrite Forall_forall in I3. destruct (I3 e He) as (? & ? & ? & ?).
    unfold edge_ok. simpl. by rewrite Hs. }
  split_and!; [done|done|by apply Forall_app| |].
  - rewrite map_app. apply NoDup_app. split_and!; [done| |done].
    intros i (d & -> & Hdin)%list_elem_of_fmap (r & Hi & Hr)%list_elem_of_fmap.
    destruct (Hle d Hdin) as (n & Hn & Hdn). rewrite Hi in Hn. specialize (Hfresh r n Hr Hn).
    rewrite Hi in Hdn. lia.
  - rewrite Hmulti, Hd. intros Hsimple. specialize (I5 Hsimple). rewrite Hu in I5.
    by apply directed_pairs.
Qed.

Lemma flips_reversal es revs m : last_generations es m -> fresh m revs ->
  Forall (fun r => 0 <= gen r <= umax 64) revs ->
  Forall2 flips (filter not_self es) revs -> Forall2 (reversal es) (filter not_self es) revs.
Proof.
  intros (_ & Hle & _) [_ Hfresh] Hu Hf. apply Forall2_same_length_lookup. split.
  - by eapply Forall2_length.
  - intros i e r He Hr. destruct (Forall2_lookup_lr _ _ _ _ _ _ Hf He Hr) as [Hs Hflip].
    apply list_elem_of_lookup_2 in Hr. rewrite Forall_forall in Hu.
    split_and!; [done|done|by apply Hu|]. intros d Hd Hds.
    destruct (Hle d Hd) as (n & Hn & ?). rewrite Hds, <- Hs in Hn. specialize (Hfresh r n Hr Hn). lia.
Qed.

(** [to_directed] is exact: on every valid graph it runs without panicking
    and keeps nodes and attributes; a directed graph is returned unchanged, an
    undirected one gains exactly one reversal per edge that is not a loop, each
    under a new identity of the same stored edge; and it fails exactly when the
    64-bit generations of some stored edge run out. *)
Theorem to_directed_exact (g : GraphInner) : valid g ->
  exists r, to_directed g = Some r /\
  match r with
  | Ok d =>
      valid d /\ is_directed (kind d) = true /\ is_multigraph (kind d) = is_multigraph (kind g) /\
      graph_attributes d = graph_attributes g /\ nodes d = nodes g /\
      if is_directed (kind g) then d = g
      else (exists revs, edges d ≡ₚ edges g ++ revs /\
              Forall2 (reversal (edges g)) (filter not_self (edges g)) revs) /\
           forall id, ~ exhausted (edges g) id
  | Err e => is_directed (kind g) = false /\
      exists id, e = EdgeIdentityExhausted id /\ exhausted (edges g) id
  end.
Proof.
  intros Hv. unfold to_directed. destruct (is_directed (kind g)) eqn:Hd.
  { eexists. split; [done|]. simpl. by rewrite Hd. }
  set (k := match kind g with MultiGraph => MultiDiGraph | _ => DiGraph end).
  assert (is_directed k = true /\ is_multigraph k = is_multigraph (kind g)) as [Hkd Hkm]
    by (subst k; by destruct (kind g)).
  pose proof (reverse_generations_last (edges g)) as Hlast. pose proof Hlast as (Hs & Hle & Hin).
  destruct Hv as [G I U]. assert (valid g) as Hv by done. rewrite Forall_forall in U.
  destruct (direct_edges_cases (edges g) (reverse_generations (edges g)) [] Hs)
    as [(id & n & Hn & Hx & ->)|(revs & out & -> & Hperm & Hflip & Hf & Hu & Hroom)].
  - intros e He. destruct (Hle e He) as (n & ? & _). eauto.
  - intros id n (e & He & _ & <-)%Hin. specialize (U e He). unfold in_u, umax in *. lia.
  - eexists. split; [done|]. split; [done|]. exists id. split; [done|].
    destruct (Hin _ _ Hn) as (d & ? & ? & <-). by exists d.
  - simpl in Hperm. cbn [mbind option_bind].
    pose proof (directed_input g k revs _ Hv Hd Hkd Hkm Hlast Hf Hflip) as Hok.
    destruct (with_attributes_exact k (graph_attributes g) (nodes g) (edges g ++ revs)) as (r & Hr & Hiff & Hg).
    pose proof Hok as [d ->]%Hiff%is_ok_iff. destruct (Hg d eq_refl) as (_ & _ & _ & _ & _ & Hany).
    rewrite (Hany (nodes g) out) by done. eexists. split; [done|]. simpl.
    destruct (rebuild k (graph_attributes g) (nodes g) (edges g ++ revs)) as
      (d' & Hd' & Hvd & Hkd' & Ha & _ & He & Hn & _).
    { done. }
    { apply Forall_app. split; [by apply Forall_forall|]. eapply Forall_impl; [exact Hu|].
      intros e. unfold in_u, umax. simpl. lia. }
    rewrite Hr in Hd'. injection Hd' as <-. rewrite Hkd'. split_and!; try done.
    + apply Hn, G.
    + exists revs. split; [done|]. by apply (flips_reversal _ _ (reverse_generations (edges g))).
    + intros id (e & He' & <- & Hx). destruct (Hle e He') as (n & Hn' & ?). specialize (Hroom _ _ Hn'). lia.
Qed.
End Directed.

(** ** Towards undirected graphs *)

Section Undirected.
Context {JN : JsonNumber} {JW : JsonWriter}.

Lemma has_parallel_pair_check es pairs :
  has_parallel_pair es pairs = negb (is_ok (check_parallel Graph es pairs)).
Proof. revert pairs. induction es as [|e es IH]; intros pairs; simpl; [done|]. by destruct (BTree.contains _ _ _). Qed.

Lemma has_parallel_pair_iff es :
  has_parallel_pair es [] = false <-> NoDup (map (endpoint_pair false) es).
Proof.
  rewrite has_parallel_pair_check, negb_false_iff, is_ok_iff.
  pose proof (check_parallel_iff Graph es []) as H. simpl in H. split.
  - by intros [[] [? _]%H].
  - intros Hnd. exists tt. apply H. split; [done|]. intros e _ Hin. inversion Hin.
Qed.

(** [to_undirected] keeps everything: it never fails or panics, keeps
    nodes, edges and attributes exactly, returns an undirected graph unchanged,
    and makes a simple graph of a simple directed one unless two of its edges
    join the same pair. *)
Theorem to_undirected_exact (g : GraphInner) : valid g ->
  exists u, to_undirected g = Some (Ok u) /\ valid u /\ is_directed (kind u) = false /\
    graph_attributes u = graph_attributes g /\ nodes u = nodes g /\ edges u = edges g /\
    if is_directed (kind g) then
      is_multigraph (kind u) = true <->
        is_multigraph (kind g) = true \/ ~ NoDup (map (endpoint_pair false) (edges g))
    else u = g.
Proof.
  intros Hv. unfold to_undirected. destruct (is_directed (kind g)) eqn:Hd; simpl.
  2: { eexists. split; [done|]. by rewrite Hd. }
  set (k := match kind g with MultiDiGraph => MultiGraph | _ => _ end).
  assert (is_directed k = false /\ (is_multigraph k = true <->
    is_multigraph (kind g) = true \/ ~ NoDup (map (endpoint_pair false) (edges g)))) as [Hk Hm].
  { rewrite <- has_parallel_pair_iff. subst k. destruct (kind g) eqn:E; [done| |done|].
    - destruct (has_parallel_pair _ _); simpl; split; [done|split; [by right|done]|done|].
      split; [done|]. intros [?|[]]; done.
    - split; [done|]. simpl. tauto. }
  destruct Hv as [G (I1 & I2 & I3 & I4 & I5) U].
  destruct (rebuild k (graph_attributes g) (nodes g) (edges g)) as
    (u & -> & Hu & Hku & Ha & _ & _ & Hn & He); [|done|].
  - split_and!; try done. intros Hsimple. rewrite Hk.
    destruct (decide (NoDup (map (endpoint_pair false) (edges g)))) as [|Hdup]; [done|].
    rewrite (proj2 Hm) in Hsimple by auto. done.
  - exists u. rewrite Hku. split_and!; try done; [apply Hn, G|apply He, G|apply Hm..].
Qed.
End Undirected.

(** ** Samples *)

#[local] Existing Instance Json.number.
#[local] Existing Instance Json.writer.

Lemma sample_generations : Forall (fun e => in_u 64 (reverse_generation (edge_id e))) Sample.edges.
Proof. repeat (constructor; [unfold in_u; simpl; lia|]). constructor. Qed.

Lemma sample_valid : valid Sample.graph.
Proof. exact (constructed_valid _ _ _ _ _ Sample.built_eq sample_generations). Qed.

Definition sample_undirected : GraphInner :=
  Eval vm_compute in
    match with_attributes Graph [] Sample.nodes Sample.edges with
    | Some (Ok g) => g
    | _ => Sample.graph
    end.

Lemma sample_undirected_valid : valid sample_undirected.
Proof.
  apply (constructed_valid Graph [] Sample.nodes Sample.edges); [|exact sample_generations].
  vm_compute. reflexivity.
Qed.

Lemma to_directed_exact_witness :
  exists d revs, to_directed sample_undirected = Some (Ok d) /\ valid d /\ kind d = DiGraph /\
    edges d ≡ₚ edges sample_undirected ++ revs /\ length revs = 4%nat.
Proof.
  destruct (to_directed_exact sample_undirected sample_undirected_valid) as ([d|e] & Hd & H).
  - destruct H as (Hv & _ & _ & _ & _ & [(revs & Hp & Hf) _]). exists d, revs.
    split; [exact Hd|]. split; [exact Hv|]. split.
    + vm_compute in Hd. injection Hd as <-. reflexivity.
    + split; [exact Hp|]. apply Forall2_length in Hf. rewrite <- Hf. vm_compute. reflexivity.
  - exfalso. vm_compute in Hd. discriminate Hd.
Defined.

Lemma to_undirected_exact_witness :
  exists u, to_undirected Sample.graph = Some (Ok u) /\ valid u /\ edges u = edges Sample.graph /\
    kind u = Graph.
Proof.
  destruct (to_undirected_exact Sample.graph sample_valid) as (u & Hu & Hv & _ & _ & _ & He & _).
  exists u. split; [exact Hu|]. split; [exact Hv|]. split; [exact He|].
  vm_compute in Hu. injection Hu as <-. reflexivity.
Defined.

End TransformDirection.
