(* ===== verification/TransformRecords.v ===== *)
(** Induced subgraphs and relabelling are exact: [Graph::induced_subgraph] and
    [Graph::relabel] of crates/graph-algorithms/src/transform.rs. *)
From S2P Require Import Prelude Bytes BTree ExternalId Graph Transform TransformDirection.

Open Scope Z_scope.

Module TransformRecords.
Export TransformDirection.

Section Subgraph.
Context {JN : JsonNumber} {JW : JsonWriter}.

Lemma contains_node_iff g id : graph_ok g ->
  contains_node g id = true <-> id ∈ map node_key (nodes g).
Proof.
  intros Hg. unfold contains_node. destruct (BTree.get _ _ _) as [i|] eqn:E; split; try done.
  - intros _. apply (gk_node_index g Hg), fmap_Some in E as (n & Hn & ->).
    by apply (list_elem_of_fmap_2 node_key), list_elem_of_lookup_2 with i.
  - intros (n & -> & [i Hi]%list_elem_of_lookup)%list_elem_of_fmap.
    assert (node_id g i = Some (node_key n)) as H by (unfold node_id; by rewrite Hi).
    apply (gk_node_index g Hg) in H. congruence.
Qed.

Lemma check_nodes_cases g l : graph_ok g ->
  match check_nodes g l with
  | Ok _ => forall id, id ∈ l -> id ∈ map node_key (nodes g)
  | Err e => exists l1 id l2, l = l1 ++ id :: l2 /\ e = UnknownNode id /\
      id ∉ map node_key (nodes g) /\ forall id', id' ∈ l1 -> id' ∈ map node_key (nodes g)
  end.
Proof.
  intros Hg. induction l as [|id l IH]; simpl; [intros id Hid; inversion Hid|].
  destruct (contains_node g id) eqn:E; simpl.
  - apply contains_node_iff in E; [|done]. destruct (check_nodes g l).
    + by intros id' [->|?]%elem_of_cons; auto.
    + destruct IH as (l1 & x & l2 & -> & -> & Hx & Hl). exists (id :: l1), x, l2.
      split_and!; try done. by intros id' [->|?]%elem_of_cons; auto.
  - exists [], id, l. split_and!; try done; [|intros id' Hid; inversion Hid].
    intros Hin%contains_node_iff; [congruence|done].
Qed.

Lemma filter_bool_ext {A} (f : A -> bool) (P : A -> Prop) `{!forall x, Decision (P x)} l :
  (forall x, f x = true <-> P x) -> List.filter f l = filter P l.
Proof.
  intros Hf. induction l as [|x l IH]; [done|]. simpl. rewrite filter_cons, IH.
  specialize (Hf x). destruct (f x), (decide (P x)); naive_solver.
Qed.

Lemma filter_map_nodup {A B} (f : A -> B) (P : A -> Prop) `{!forall x, Decision (P x)} l :
  NoDup (map f l) -> NoDup (map f (filter P l)).
Proof.
  intros Hnd. apply (sublist_NoDup _ (map f l)); [done|].
  change (f <$> filter P l `sublist_of` f <$> l). apply fmap_sublist, sublist_filter.
Qed.

Lemma sorted_set_filter {A K} (cmp : K -> K -> comparison) (key : A -> K) (P : A -> Prop)
    `{!forall x, Decision (P x)} l :
  BTree.sorted_set cmp (map key l) -> BTree.sorted_set cmp (map key (filter P l)).
Proof.
  unfold BTree.sorted_set. induction l as [|x l IH]; [done|]. csimpl.
  intros [Hl Hx]%StronglySorted_inv.
  rewrite filter_cons. destruct (decide (P x)); [|auto]. csimpl. constructor; [auto|].
  rewrite Forall_forall in *. intros y (z & -> & [_ Hz]%list_elem_of_filter)%list_elem_of_fmap.
  apply Hx. by apply (list_elem_of_fmap_2 key).
Qed.

Definition selects (ids : list ExternalId) (e : Edge) : Prop := source e ∈ ids /\ target e ∈ ids.
#[local] Instance selects_dec ids e : Decision (selects ids e).
Proof. unfold selects. apply _. Defined.

(** [induced_subgraph] is exact: given any list of identities it keeps
    precisely the listed nodes and the edges with both ends listed, in the same
    order, whatever the order and repetitions of the list; and it fails, with
    the least unknown identity, precisely when one is unknown. *)
Theorem induced_subgraph_exact (g : GraphInner) (ids : list ExternalId) : valid g ->
  exists r, induced_subgraph g ids = Some r /\
  match r with
  | Ok s =>
      valid s /\ kind s = kind g /\ graph_attributes s = graph_attributes g /\
      (forall id, id ∈ ids -> id ∈ map node_key (nodes g)) /\
      nodes s = filter (fun n => node_key n ∈ ids) (nodes g) /\
      edges s = filter (selects ids) (edges g)
  | Err e => exists id, e = UnknownNode id /\ id ∈ ids /\ id ∉ map node_key (nodes g) /\
      forall id', id' ∈ ids -> id' ∉ map node_key (nodes g) -> id_cmp id id' <> Gt
  end.
Proof.
  intros [G (I1 & I2 & I3 & I4 & I5) U]. unfold induced_subgraph.
  set (sel := BTree.set_from_iter id_cmp ids).
  assert (forall id, id ∈ sel <-> id ∈ ids) as Hsel by (intros; apply (BTree.in_set_from_iter id_cmp)).
  pose proof (check_nodes_cases g sel G) as Hc. destruct (check_nodes g sel) as [[]|e].
  - rewrite (filter_bool_ext _ (fun n => node_key n ∈ ids)), (filter_bool_ext _ (selects ids)).
    2: { intros e. rewrite andb_true_iff, !(BTree.contains_iff id_cmp), !Hsel. done. }
    2: { intros n. by rewrite (BTree.contains_iff id_cmp), Hsel. }
    destruct (rebuild (kind g) (graph_attributes g) (filter (fun n => node_key n ∈ ids) (nodes g))
      (filter (selects ids) (edges g))) as (s & -> & Hv & Hk & Ha & _ & _ & Hn & He).
    + split_and!.
      * apply Forall_forall. intros n [_ Hn]%list_elem_of_filter. by apply (proj1 (Forall_forall _ _) I1).
      * by apply filter_map_nodup.
      * apply Forall_forall. intros e [[Hs Ht] He]%list_elem_of_filter.
        destruct (proj1 (Forall_forall _ _) I3 e He) as (? & Hse & Hte & ?).
        assert (forall x, x ∈ map node_key (nodes g) -> x ∈ ids ->
          x ∈ map node_key (filter (fun n => node_key n ∈ ids) (nodes g))) as Hkeep.
        { intros x (n & -> & Hn)%list_elem_of_fmap Hx. apply (list_elem_of_fmap_2 node_key).
          by apply list_elem_of_filter. }
        unfold edge_ok. auto.
      * by apply filter_map_nodup.
      * intros Hs. by apply filter_map_nodup, I5.
    + apply Forall_forall. intros e [_ He]%list_elem_of_filter. by apply (proj1 (Forall_forall _ _) U).
    + eexists. split; [done|]. split_and!; try done.
      * intros id Hid. by apply Hc, Hsel.
      * apply Hn, sorted_set_filter, G.
      * apply He, sorted_set_filter, G.
  - destruct Hc as (l1 & id & l2 & Hl & -> & Hid & Hl1). eexists. split; [done|]. exists id.
    split_and!; [done|apply Hsel; rewrite Hl; set_solver|done|].
    intros id' Hin Hn Hgt. apply Hsel in Hin. rewrite Hl in Hin.
    apply elem_of_app in Hin as [Hin|[->|Hin]%elem_of_cons]; [by apply Hn, Hl1|by rewrite cmp_refl in Hgt|].
    pose proof (BTree.set_from_iter_sorted id_cmp ids) as Hs. fold sel in Hs. rewrite Hl in Hs.
    apply StronglySorted_app in Hs as (_ & _ & [_ Hall]%StronglySorted_inv).
    rewrite Forall_forall in Hall. specialize (Hall _ Hin). simpl in Hall. congruence.
Qed.
End Subgraph.

(** ** Relabelling *)

Section Relabel.
Context {JN : JsonNumber} {JW : JsonWriter}.

(** Equal unordered pairs have equal ends, up to their order. *)
Lemma unordered_pair_eq e d : endpoint_pair false e = endpoint_pair false d <->
  (source e = source d /\ target e = target d) \/ (source e = target d /\ target e = source d).
Proof.
  split.
  - unfold endpoint_pair. simpl. destruct (id_cmp (source e) _), (id_cmp (source d) _); intros [= -> ->]; auto.
  - intros [[Hs Ht]|[Hs Ht]]; [|by apply unordered_pair_sym].
    unfold endpoint_pair. simpl. by rewrite Hs, Ht.
Qed.

Lemma check_targets_cases mapping ns : forall targets, BTree.sorted_map id_cmp targets ->
  (forall t first, BTree.get id_cmp t targets = Some first -> relabel_id mapping first = t) ->
  NoDup (map node_key ns) -> (forall t first, BTree.get id_cmp t targets = Some first ->
    first ∉ map node_key ns) ->
  match check_targets mapping ns targets with
  | Ok _ => NoDup (map (fun n => relabel_id mapping (node_key n)) ns) /\
      forall n, n ∈ ns -> BTree.get id_cmp (relabel_id mapping (node_key n)) targets = None
  | Err e => exists target first second, e = RelabelCollision target first second /\
      first <> second /\ relabel_id mapping first = target /\ relabel_id mapping second = target /\
      second ∈ map node_key ns /\
      (first ∈ map node_key ns \/ BTree.get id_cmp target targets = Some first)
  end.
Proof.
  induction ns as [|n ns IH]; intros targets Hs Hf Hnd Hout; simpl.
  { split; [constructor|]. intros n Hn. inversion Hn. }
  csimpl in Hnd. apply NoDup_cons in Hnd as [Hn Hnd].
  destruct (BTree.get id_cmp (relabel_id mapping (node_key n)) targets) as [first|] eqn:G.
  { exists (relabel_id mapping (node_key n)), first, (node_key n). split_and!; auto.
    - intros ->. apply (Hout _ _ G). left.
    - left. }
  set (f := relabel_id mapping) in *. set (targets' := BTree.insert id_cmp (f (node_key n)) (node_key n) targets).
  assert (forall t first, BTree.get id_cmp t targets' = Some first <->
    (t = f (node_key n) /\ first = node_key n) \/
    (t <> f (node_key n) /\ BTree.get id_cmp t targets = Some first)) as Hg.
  { intros t first. unfold targets'. rewrite (BTree.get_insert id_cmp) by done.
    destruct (id_cmp t (f (node_key n))) eqn:E.
    - apply (cmp_eq (cmp := id_cmp)) in E as ->. naive_solver.
    - assert (t <> f (node_key n)) by (apply (BTree.cmp_neq id_cmp); congruence). tauto.
    - assert (t <> f (node_key n)) by (apply (BTree.cmp_neq id_cmp); congruence). tauto. }
  specialize (IH targets'). destruct (check_targets mapping ns targets') as [u|e].
  - destruct IH as [IH1 IH2].
    + by apply (BTree.insert_sorted id_cmp).
    + intros t first [[-> ->]|[_ Ht]]%Hg; [done|auto].
    + done.
    + intros t first [[-> ->]|[_ Ht]]%Hg; [done|]. specialize (Hout _ _ Ht). set_solver.
    + assert (forall d, d ∈ ns -> f (node_key d) <> f (node_key n) /\
        BTree.get id_cmp (f (node_key d)) targets = None) as Hd.
      { intros d Hd. specialize (IH2 d Hd). split.
        - intros E. pose proof (proj2 (Hg (f (node_key d)) (node_key n)) (or_introl (conj E eq_refl))). congruence.
        - destruct (BTree.get id_cmp (f (node_key d)) targets) as [x|] eqn:Ex; [|done].
          destruct (decide (f (node_key d) = f (node_key n))) as [E|E].
          + congruence.
          + pose proof (proj2 (Hg (f (node_key d)) x) (or_intror (conj E Ex))). congruence. }
      split.
      * csimpl. apply NoDup_cons. split; [|done]. intros (d & E & Hin)%list_elem_of_fmap. by apply (Hd d Hin).
      * intros d [->|Hin]%elem_of_cons; [done|]. by apply Hd.
  - destruct IH as (t & first & second & -> & Hne & H1 & H2 & H3 & H4).
    + by apply (BTree.insert_sorted id_cmp).
    + intros t first [[-> ->]|[_ Ht]]%Hg; [done|auto].
    + done.
    + intros t first [[-> ->]|[_ Ht]]%Hg; [done|]. specialize (Hout _ _ Ht). set_solver.
    + exists t, first, second. split_and!; try done; [by right|].
      destruct H4 as [?|[[-> ->]|[_ ?]]%Hg]; [left; by right|left; left|by right].
Qed.

(** The first failing check of the node loop. *)
Lemma node_map_error ns m e : BTree.sorted_map id_cmp m -> NoDup (m.*1 ++ map node_key ns) ->
  build_node_map ns m = Err e -> exists n, n ∈ ns /\ validate (node_key n) = Err e.
Proof.
  revert m. induction ns as [|n ns IH]; intros m Hm Hnd; simpl; [done|].
  destruct (validate (node_key n)) as [[]|e'] eqn:E; simpl; [|intros [= ->]; exists n; split; [left|done]].
  simpl in Hnd. apply NoDup_app in Hnd as (H1 & H2 & H3). apply NoDup_cons in H3 as [H3 H4].
  assert (BTree.get id_cmp (node_key n) m = None) as Hg.
  { apply (BTree.get_none id_cmp). intros Hk. apply (H2 _ Hk). left. }
  rewrite Hg. intros Herr. edestruct IH as (x & Hx & ?); [|  |exact Herr|].
  - by apply (BTree.insert_sorted id_cmp).
  - rewrite (BTree.insert_perm id_cmp) by done. csimpl. apply NoDup_cons. split.
    + rewrite not_elem_of_app. split; [by apply (BTree.get_none id_cmp)|done].
    + apply NoDup_app. split_and!; [done| |done]. intros y Hy Hy'. apply (H2 y Hy). by right.
  - exists x. split; [by right|done].
Qed.

(** Construction that fails only for a node fails with that node's error. *)
Lemma with_attributes_node_error k ga ns es : NoDup (map node_key ns) ->
  (Forall (fun n => validate (node_key n) = Ok tt) ns -> input_ok k ns es) ->
  exists r, with_attributes k ga ns es = Some r /\
    forall e, r = Err e -> exists n, n ∈ ns /\ validate (node_key n) = Err e.
Proof.
  intros Hnd Hin. destruct (with_attributes_exact k ga ns es) as (r & Hr & Hiff & _).
  exists r. split; [done|]. intros e ->. unfold with_attributes in Hr.
  destruct (build_node_map ns []) as [m|e'] eqn:E.
  - exfalso. rewrite build_node_map_eq in E. apply (build_map_table id_cmp) in E as (_ & _ & E).
    apply Hin, Hiff in E. done.
  - injection Hr as ->. apply (node_map_error ns []); [constructor|done|done].
Qed.

Lemma relabelled_pairs dir f es (ids : list ExternalId) :
  (forall a b, a ∈ ids -> b ∈ ids -> f a = f b -> a = b) ->
  (forall e, e ∈ es -> source e ∈ ids /\ target e ∈ ids) ->
  NoDup (map (endpoint_pair dir) es) ->
  NoDup (map (endpoint_pair dir) (map (relabel_edge f) es)).
Proof.
  intros Hinj Hends. induction es as [|e es IH]; csimpl; [done|].
  intros [Hn Hnd]%NoDup_cons. apply NoDup_cons. split.
  2: { apply IH; [|done]. intros d Hd. apply Hends. by right. }
  intros (x & E & (d & -> & Hd)%list_elem_of_fmap)%list_elem_of_fmap. apply Hn.
  apply list_elem_of_fmap. exists d. split; [|done].
  destruct (Hends e) as [Hse Hte]; [left|]. destruct (Hends d) as [Hsd Htd]; [by right|].
  destruct dir.
  - unfold endpoint_pair in *. simpl in *. injection E as E1 E2. f_equal; auto.
  - apply unordered_pair_eq. apply unordered_pair_eq in E. simpl in E. naive_solver.
Qed.

(** [relabel] is exact: it renames nodes and rewires every endpoint when
    the mapping keeps distinct nodes distinct and the new identities are valid,
    and otherwise reports two nodes the mapping merges, or the defect of an
    invalid new identity; no other failure is possible, parallel edges included. *)
Theorem relabel_exact (g : GraphInner) (mapping : list (ExternalId * ExternalId)) : valid g ->
  let f := relabel_id mapping in let ids := map node_key (nodes g) in
  exists r, relabel g mapping = Some r /\
  match r with
  | Ok s =>
      valid s /\ kind s = kind g /\ graph_attributes s = graph_attributes g /\
      (forall a b, a ∈ ids -> b ∈ ids -> f a = f b -> a = b) /\
      nodes s ≡ₚ map (relabel_node f) (nodes g) /\ edges s ≡ₚ map (relabel_edge f) (edges g)
  | Err e =>
      (exists first second, e = RelabelCollision (f first) first second /\ first ∈ ids /\
         second ∈ ids /\ first <> second /\ f first = f second) \/
      (exists id, id ∈ ids /\ validate (f id) = Err e)
  end.
Proof.
  intros [G (I1 & I2 & I3 & I4 & I5) U] f ids. unfold relabel.
  pose proof (check_targets_cases mapping (nodes g) []) as Hc.
  destruct (check_targets mapping (nodes g) []) as [u|e].
  2: { destruct Hc as (t & first & second & -> & ? & <- & ? & ? & [?|?]); [constructor|done..| |done].
       eexists. split; [done|]. left. by exists first, second. }
  destruct Hc as [Hnd _]; [constructor|done..|].
  assert (forall a b, a ∈ ids -> b ∈ ids -> f a = f b -> a = b) as Hinj.
  { intros a b (n & -> & Hn)%list_elem_of_fmap (n' & -> & Hn')%list_elem_of_fmap E. f_equal.
    by apply (key_inj (fun n => f (node_key n)) (nodes g)). }
  set (ns := map (relabel_node f) (nodes g)). set (es := map (relabel_edge f) (edges g)).
  assert (NoDup (map node_key ns)) as Hns by (unfold ns; by rewrite map_map).
  assert (map edge_id es = map edge_id (edges g)) as Hes by (unfold es; by rewrite map_map).
  destruct (with_attributes_node_error (kind g) (graph_attributes g) ns es Hns) as (r & Hr & Herr).
  { intros Hval. split_and!; [done|done| |by rewrite Hes|].
    - apply Forall_fmap, Forall_forall. intros e He.
      destruct (proj1 (Forall_forall _ _) I3 e He) as (Hid & Hs & Ht & Hw).
      assert (forall x, x ∈ map node_key (nodes g) -> f x ∈ map node_key ns) as Hf.
      { intros x (n & -> & Hn)%list_elem_of_fmap. unfold ns. rewrite map_map.
        by apply (list_elem_of_fmap_2 (fun n => f (node_key n))). }
      unfold edge_ok. simpl. auto.
    - intros Hs. apply (relabelled_pairs _ f (edges g) ids); [done|apply G|auto]. }
  fold f ns es. rewrite Hr. eexists. split; [done|]. destruct r as [s|e].
  - destruct (with_attributes_exact (kind g) (graph_attributes g) ns es) as (r & Hr' & Hiff & Hs).
    rewrite Hr in Hr'. injection Hr' as <-. destruct (Hs s eq_refl) as (_ & Hk & Ha & Hn & He & _).
    split_and!; try done. apply (constructed_valid _ _ _ _ _ Hr).
    apply Forall_fmap, Forall_forall. intros e Hin. exact (proj1 (Forall_forall _ _) U e Hin).
  - right. destruct (Herr e eq_refl) as (n & (n' & -> & Hn)%list_elem_of_fmap & Hv).
    exists (node_key n'). split; [by apply (list_elem_of_fmap_2 node_key)|done].
Qed.
End Relabel.

(** ** Samples *)

#[local] Existing Instance Json.number.
#[local] Existing Instance Json.writer.

Lemma induced_subgraph_exact_witness :
  exists s, induced_subgraph Sample.graph [Str (lit "b"); Str (lit "a"); Str (lit "b")] = Some (Ok s) /\
    valid s /\ map node_key (nodes s) = [Str (lit "a"); Str (lit "b")] /\
    map edge_id (edges s) = [original (lit "aa"); original (lit "ab")].
Proof.
  destruct (induced_subgraph_exact Sample.graph [Str (lit "b"); Str (lit "a"); Str (lit "b")]
    sample_valid) as ([s|e] & Hs & H).
  - exists s. split; [exact Hs|]. split; [exact (proj1 H)|].
    vm_compute in Hs. injection Hs as <-. split; reflexivity.
  - exfalso. vm_compute in Hs. discriminate Hs.
Defined.

Lemma relabel_exact_witness :
  exists s, relabel Sample.graph [(Str (lit "a"), Str (lit "z"))] = Some (Ok s) /\ valid s /\
    map node_key (nodes s) = [Str (lit "b"); Str (lit "c"); Str (lit "d"); Str (lit "z")].
Proof.
  destruct (relabel_exact Sample.graph [(Str (lit "a"), Str (lit "z"))] sample_valid)
    as ([s|e] & Hs & H).
  - exists s. split; [exact Hs|]. split; [exact (proj1 H)|].
    vm_compute in Hs. injection Hs as <-. reflexivity.
  - exfalso. vm_compute in Hs. discriminate Hs.
Defined.

End TransformRecords.
