(* ===== verification/TransformCompose.v ===== *)
(** Composition of graphs is a right-biased union: [Graph::compose] of
    crates/graph-algorithms/src/transform.rs, field by field of nodes and edges. *)
From S2P Require Import Prelude Bytes BTree ExternalId Graph Transform TransformDirection.
From S2P Require Import TransformRecords.

Open Scope Z_scope.

Module TransformCompose.
Export TransformRecords.

(** ** Merging a table into another *)

Section Merge.
Context {A K : Type} (cmp : K -> K -> comparison) `{!StrictCompare cmp} (key : A -> K)
  (merge : A -> A -> result GraphError A).

(** [compose_nodes] and [compose_edges] are one loop. *)
Fixpoint merge_map (rights : list A) (m : list (K * A)) : result GraphError (list (K * A)) :=
  match rights with
  | [] => Ok m
  | x :: rights =>
      let? v := match BTree.get cmp (key x) m with Some l => merge l x | None => Ok x end in
      merge_map rights (BTree.insert cmp (key x) v m)
  end.

Definition merged (a b : option A) : option A :=
  union_with (fun l r => match merge l r with Ok v => Some v | Err _ => None end) a b.

(** Every entry is under its own key. *)
Definition keyed_ok (m : list (K * A)) : Prop := forall k x, (k, x) ∈ m -> key x = k.

Lemma from_iter_sorted {V} (m : list (K * V)) : BTree.sorted_map cmp m -> BTree.from_iter cmp m = m.
Proof.
  intros Hm. pose proof (proj1 (BTree.sorted_map_fst cmp m) Hm) as Hs.
  destruct (BTree.extend_perm cmp m []) as [H1 H2]; [constructor| |].
  - by apply (BTree.sorted_set_nodup cmp).
  - apply (table_unique cmp fst); [by apply (BTree.sorted_map_fst cmp)|done|done].
Qed.

Lemma keyed_sorted l : BTree.sorted_set cmp (map key l) -> BTree.sorted_map cmp (keyed key l).
Proof. intros Hs. apply (BTree.sorted_map_fst cmp). by rewrite keyed_fst. Qed.

Lemma keyed_ok_keyed l : keyed_ok (keyed key l).
Proof. intros k x (y & [= -> ->] & _)%list_elem_of_fmap. done. Qed.

Lemma keyed_snd m : keyed_ok m -> keyed key (map snd m) = m.
Proof.
  intros Hm. unfold keyed. rewrite map_map. rewrite <- (map_id m) at 2. apply map_ext_in.
  intros [k x] Hin. simpl. f_equal. apply (Hm k x). by apply list_elem_of_In.
Qed.

Lemma get_keyed_cons k x l :
  BTree.get cmp k (keyed key (x :: l)) =
  match cmp k (key x) with Eq => Some x | _ => BTree.get cmp k (keyed key l) end.
Proof. done. Qed.

Lemma get_keyed_notin k l : k ∉ map key l -> BTree.get cmp k (keyed key l) = None.
Proof. intros Hk. apply (BTree.get_none cmp). by rewrite keyed_fst. Qed.

Lemma get_keyed l x : NoDup (map key l) -> x ∈ l -> BTree.get cmp (key x) (keyed key l) = Some x.
Proof.
  induction l as [|y l IH]; [inversion 2|]. intros Hnd Hin. csimpl in Hnd.
  apply NoDup_cons in Hnd as [Hy Hnd]. rewrite get_keyed_cons.
  apply elem_of_cons in Hin as [->|Hx].
  - by rewrite cmp_refl.
  - destruct (cmp (key x) (key y)) eqn:E; [|by apply IH..]. apply (cmp_eq (cmp := cmp)) in E.
    exfalso. apply Hy. rewrite <- E. by apply (list_elem_of_fmap_2 key).
Qed.

Hypothesis merge_key : forall l r v, merge l r = Ok v -> key l = key r -> key v = key l.

Lemma merge_map_cases rights : forall m, BTree.sorted_map cmp m -> keyed_ok m ->
  NoDup (map key rights) ->
  match merge_map rights m with
  | Err e => exists l r, r ∈ rights /\ (key r, l) ∈ m /\ merge l r = Err e
  | Ok m' => BTree.sorted_map cmp m' /\ keyed_ok m' /\
      (forall k, BTree.get cmp k m' = merged (BTree.get cmp k m) (BTree.get cmp k (keyed key rights))) /\
      forall l r, r ∈ rights -> (key r, l) ∈ m -> is_ok (merge l r) = true
  end.
Proof.
  induction rights as [|x rights IH]; intros m Hm Hk Hnd; simpl.
  { split_and!; [done|done| |intros l r Hr; inversion Hr]. intros k. by destruct (BTree.get cmp k m). }
  csimpl in Hnd. apply NoDup_cons in Hnd as [Hx Hnd].
  set (v := match BTree.get cmp (key x) m with Some l => merge l x | None => Ok x end).
  destruct v as [y|e] eqn:Ev; subst v; simpl.
  2: { destruct (BTree.get cmp (key x) m) as [l|] eqn:G; [|done]. exists l, x.
       split_and!; [left|by apply (BTree.get_in cmp)|done]. }
  assert (key y = key x) as Hy.
  { destruct (BTree.get cmp (key x) m) as [l|] eqn:G; [|by injection Ev as <-].
    pose proof (Hk _ _ (BTree.get_in cmp _ _ _ G)) as Hl. rewrite <- Hl. by apply (merge_key l x). }
  set (m1 := BTree.insert cmp (key x) y m).
  assert (BTree.sorted_map cmp m1) as Hm1 by (by apply (BTree.insert_sorted cmp)).
  assert (forall e, e ∈ m1 <-> e = (key x, y) \/ (e ∈ m /\ e.1 <> key x)) as Hin1
    by (intros e; by apply (BTree.in_insert cmp)).
  assert (keyed_ok m1) as Hk1.
  { intros k z [[= -> ->]|[Hz _]]%Hin1; [done|by apply Hk]. }
  assert (forall l r, r ∈ rights -> (key r, l) ∈ m1 <-> (key r, l) ∈ m) as Hold.
  { intros l r Hr. rewrite Hin1. simpl.
    assert (key r <> key x) by (intros E; apply Hx; rewrite <- E; by apply (list_elem_of_fmap_2 key)).
    split; [intros [[= ? _]|[? _]]; done|auto]. }
  specialize (IH m1 Hm1 Hk1 Hnd). destruct (merge_map rights m1) as [m'|e].
  - destruct IH as (I1 & I2 & I3 & I4). split_and!; [done|done| |].
    + intros k. rewrite I3. unfold m1. rewrite (BTree.get_insert cmp) by done.
      destruct (cmp k (key x)) eqn:E; [|done|done]. apply (cmp_eq (cmp := cmp)) in E as ->.
      rewrite (get_keyed_notin (key x)) by done. destruct (BTree.get cmp (key x) m) as [l|]; simpl.
      * by rewrite Ev.
      * injection Ev as <-. done.
    + intros l r [->|Hr]%elem_of_cons Hl; [|by apply I4; [|apply Hold]].
      apply (BTree.get_some cmp) in Hl; [|done]. rewrite Hl in Ev. by rewrite Ev.
  - destruct IH as (l & r & Hr & Hl & He). exists l, r. split_and!; [by right|by apply Hold|done].
Qed.
Lemma get_keyed_some l k x : BTree.get cmp k (keyed key l) = Some x -> x ∈ l /\ key x = k.
Proof. intros (y & [= -> ->] & Hy)%(BTree.get_in cmp)%list_elem_of_fmap. done. Qed.

(** The table that [merge_map] makes of two tables. *)
Lemma merge_table l rights : BTree.sorted_set cmp (map key l) -> NoDup (map key rights) ->
  match merge_map rights (BTree.from_iter cmp (keyed key l)) with
  | Err e => exists a b, a ∈ l /\ b ∈ rights /\ key a = key b /\ merge a b = Err e
  | Ok m' => let t := map snd m' in
      BTree.sorted_set cmp (map key t) /\
      (forall k, BTree.get cmp k (keyed key t) =
        merged (BTree.get cmp k (keyed key l)) (BTree.get cmp k (keyed key rights))) /\
      (forall x, x ∈ t -> x ∈ l \/ x ∈ rights \/
        exists a b, a ∈ l /\ b ∈ rights /\ key a = key b /\ merge a b = Ok x) /\
      (forall x, x ∈ l \/ x ∈ rights -> key x ∈ map key t) /\
      forall a b, a ∈ l -> b ∈ rights -> key a = key b -> is_ok (merge a b) = true
  end.
Proof.
  intros Hl Hr. rewrite from_iter_sorted by (by apply keyed_sorted).
  pose proof (merge_map_cases rights (keyed key l) (keyed_sorted l Hl) (keyed_ok_keyed l) Hr) as H.
  assert (forall k x, (k, x) ∈ keyed key l <-> x ∈ l /\ key x = k) as Hin.
  { intros k x. unfold keyed. rewrite list_elem_of_fmap. naive_solver. }
  destruct (merge_map rights (keyed key l)) as [m'|e].
  2: { destruct H as (a & b & Hb & [Ha E]%Hin & He). by exists a, b. }
  destruct H as (Hs & Hk & Hget & Hok). set (t := map snd m').
  assert (keyed key t = m') as Ht by (by apply keyed_snd).
  assert (BTree.sorted_set cmp (map key t)) as Hst.
  { rewrite <- keyed_fst, Ht. by apply (BTree.sorted_map_fst cmp). }
  pose proof (BTree.sorted_set_nodup cmp _ Hl) as Hndl. pose proof (BTree.sorted_set_nodup cmp _ Hst) as Hndt.
  assert (forall a b, a ∈ l -> b ∈ rights -> key a = key b -> is_ok (merge a b) = true) as Hm.
  { intros a b Ha Hb E. apply Hok; [done|]. by apply Hin. }
  rewrite <- Ht in Hget. split_and!; [done|done| | |done].
  - intros x Hx. pose proof (get_keyed t x Hndt Hx) as G. rewrite Hget in G.
    destruct (BTree.get cmp (key x) (keyed key l)) as [a|] eqn:Ga,
      (BTree.get cmp (key x) (keyed key rights)) as [b|] eqn:Gb; simpl in G; simplify_eq.
    + right; right. apply get_keyed_some in Ga as [Ha Ea], Gb as [Hb Eb]. exists a, b.
      destruct (merge a b); simplify_eq. split_and!; congruence.
    + left. by apply get_keyed_some in Ga as [? _].
    + right; left. by apply get_keyed_some in Gb as [? _].
  - intros x Hx. destruct (BTree.get cmp (key x) (keyed key t)) as [y|] eqn:Hn.
    { apply get_keyed_some in Hn as [Hy <-]. by apply (list_elem_of_fmap_2 key). }
    exfalso. rewrite Hget in Hn.
    destruct (BTree.get cmp (key x) (keyed key l)) as [a|] eqn:Ga,
      (BTree.get cmp (key x) (keyed key rights)) as [b|] eqn:Gb; simpl in Hn; try done.
    + apply get_keyed_some in Ga as [Ha Ea], Gb as [Hb Eb].
      assert (is_ok (merge a b) = true) as Hab by (apply Hm; congruence). by destruct (merge a b).
    + destruct Hx as [Hx|Hx].
      * by rewrite (get_keyed l x Hndl Hx) in Ga.
      * by rewrite (get_keyed rights x Hr Hx) in Gb.
Qed.
End Merge.

(** ** The failures of construction on checked records *)

Section Parallel.
Context {JN : JsonNumber} {JW : JsonWriter}.

Lemma check_parallel_error k es e : forall pairs, check_parallel k es pairs = Err e ->
  exists pre y post, es = pre ++ y :: post /\
    let p := endpoint_pair (is_directed k) y in
    e = ParallelEdge k p.1 p.2 /\
    (p ∈ pairs \/ exists x, x ∈ pre /\ endpoint_pair (is_directed k) x = p).
Proof.
  induction es as [|y es IH]; intros pairs; simpl; [done|].
  destruct (BTree.contains pair_cmp _ pairs) eqn:E.
  - intros [= <-]. apply (BTree.contains_iff pair_cmp) in E. exists [], y, es. auto.
  - intros (pre & z & post & -> & -> & H)%IH. exists (y :: pre), z, post. split; [done|]. split; [done|].
    destruct H as [[->|H]%(BTree.in_set_insert pair_cmp)|(x & Hx & Hp)]; [right|by left|right].
    + exists y. split; [left|done].
    + exists x. split; [by right|done].
Qed.

Lemma with_attributes_records k ga ns es : records_ok ns es ->
  exists r, with_attributes k ga ns es = Some r /\
    match r with
    | Ok g => input_ok k ns es
    | Err e => is_multigraph k = false /\ exists x y, x ∈ es /\ y ∈ es /\ edge_id x <> edge_id y /\
        let p := endpoint_pair (is_directed k) y in
        endpoint_pair (is_directed k) x = p /\ e = ParallelEdge k p.1 p.2
    end.
Proof.
  intros (H1 & H2 & H3 & H4). destruct (with_attributes_exact k ga ns es) as (r & Hr & Hiff & _).
  exists r. split; [done|]. destruct r as [g|e]; [by apply Hiff|].
  destruct (with_attributes_tables k ga ns es H1 H2 H3 H4) as (N & E & PN & PE & SN & SE & Ha).
  rewrite Hr in Ha. unfold assemble in Ha. destruct (is_multigraph k) eqn:Hk.
  { exfalso. destruct (build_rows _ _ _); [|done]. done. }
  split; [done|]. destruct (check_parallel k E []) as [u|e'] eqn:Hc.
  { exfalso. destruct (build_rows _ _ _); done. }
  injection Ha as ->. apply check_parallel_error in Hc as (pre & y & post & HE & -> & [Hp|(x & Hx & Hp)]).
  { inversion Hp. }
  exists x, y. cbv zeta. rewrite <- PE, HE. split_and!; [set_solver|set_solver| |done|done].
  rewrite <- PE, HE, map_app in H4. apply NoDup_app in H4 as (_ & H4 & _). intros Hid.
  apply (H4 (edge_id x)); [by apply (list_elem_of_fmap_2 edge_id)|]. csimpl. rewrite Hid. left.
Qed.
End Parallel.

(** ** Composition *)

Section Compose.
Context {JN : JsonNumber} {JW : JsonWriter}.

Definition join_node (left_ right_ : Node) : result GraphError Node := Ok (merge_node left_ right_).
Definition join_edge (left_ right_ : Edge) : result GraphError Edge :=
  if bool_decide (source left_ <> source right_) || bool_decide (target left_ <> target right_)
  then Err (ConflictingEdge (edge_id right_)) else Ok (merge_edge left_ right_).

Lemma compose_nodes_eq rights m :
  merge_map id_cmp node_key join_node rights m = Ok (compose_nodes rights m).
Proof.
  revert m. induction rights as [|x rights IH]; intros m; simpl; [done|].
  destruct (BTree.get id_cmp (node_key x) m); simpl; apply IH.
Qed.

Lemma compose_edges_eq rights m :
  compose_edges rights m = merge_map edge_id_cmp edge_id join_edge rights m.
Proof.
  revert m. induction rights as [|x rights IH]; intros m; simpl; [done|].
  destruct (BTree.get edge_id_cmp (edge_id x) m); simpl; [|apply IH].
  unfold join_edge. destruct (_ || _); simpl; [done|apply IH].
Qed.

Lemma join_edge_cases a b :
  (source a = source b /\ target a = target b /\ join_edge a b = Ok (merge_edge a b)) \/
  ((source a <> source b \/ target a <> target b) /\ join_edge a b = Err (ConflictingEdge (edge_id b))).
Proof.
  unfold join_edge. destruct (decide (source a = source b)) as [Hs|Hs], (decide (target a = target b)) as [Ht|Ht].
  - left. by rewrite !bool_decide_eq_false_2 by tauto.
  - right. rewrite (bool_decide_eq_true_2 (target a <> target b)), orb_true_r by done. auto.
  - right. rewrite (bool_decide_eq_true_2 (source a <> source b)) by done. auto.
  - right. rewrite (bool_decide_eq_true_2 (source a <> source b)) by done. auto.
Qed.

(** Looking a record up by its identity reads the table. *)
Lemma table_lookup {A K} (cmp : K -> K -> comparison) `{!StrictCompare cmp} (key : A -> K) l idx k :
  (forall k i, BTree.get cmp k idx = Some i <-> key <$> l !! i = Some k) -> NoDup (map key l) ->
  match BTree.get cmp k idx with
  | None => Some None
  | Some i => Some <$> l !! i
  end = Some (BTree.get cmp k (keyed key l)).
Proof.
  intros Hidx Hnd. destruct (BTree.get cmp k idx) as [i|] eqn:E.
  - apply Hidx, fmap_Some in E as (x & Hx & ->). rewrite Hx. simpl. f_equal. symmetry.
    apply (get_keyed cmp key); [done|]. by eapply list_elem_of_lookup_2.
  - f_equal. symmetry. apply (get_keyed_notin cmp key).
    intros (x & -> & [i Hi]%list_elem_of_lookup)%list_elem_of_fmap.
    assert (BTree.get cmp (key x) idx = Some i); [|congruence]. apply Hidx. by rewrite Hi.
Qed.

Lemma node_lookup g id : graph_ok g ->
  node g id = Some (BTree.get id_cmp id (keyed node_key (nodes g))).
Proof.
  intros G. apply (table_lookup id_cmp node_key); [apply G|].
  apply (BTree.sorted_set_nodup id_cmp), G.
Qed.

Lemma edge_lookup g id : graph_ok g ->
  edge g id = Some (BTree.get edge_id_cmp id (keyed edge_id (edges g))).
Proof.
  intros G. apply (table_lookup edge_id_cmp edge_id); [apply G|].
  apply (BTree.sorted_set_nodup edge_id_cmp), G.
Qed.

Lemma composed_edges_ok l r (ns : list ExternalId) (es : list Edge) : valid l -> valid r ->
  (forall id, id ∈ map node_key (nodes l) \/ id ∈ map node_key (nodes r) -> id ∈ ns) ->
  (forall e, e ∈ es -> e ∈ edges l \/ e ∈ edges r \/
     exists a b, a ∈ edges l /\ b ∈ edges r /\ edge_id a = edge_id b /\ join_edge a b = Ok e) ->
  forall e, e ∈ es -> stored_id (edge_id e) <> [] /\ source e ∈ ns /\ target e ∈ ns /\
    match weight e with Some w => is_finite w = true /\ lt_zero w = false | None => True end /\
    in_u 64 (reverse_generation (edge_id e)) /\
    exists e0, e0 ∈ edges l ++ edges r /\ edge_id e0 = edge_id e /\ source e0 = source e /\
      target e0 = target e.
Proof.
  intros [_ (_ & _ & L & _) Lg] [_ (_ & _ & R & _) Rg] Hns Hes e He.
  rewrite Forall_forall in L, R, Lg, Rg. unfold edge_ok in L, R.
  destruct (Hes e He) as [Hl|[Hr|(a & b & Ha & Hb & Hid & Hj)]].
  - destruct (L e Hl) as (? & ? & ? & ?). split_and!; auto. exists e. set_solver.
  - destruct (R e Hr) as (? & ? & ? & ?). split_and!; auto. exists e. set_solver.
  - destruct (L a Ha) as (? & ? & ? & Hwa). destruct (R b Hb) as (_ & _ & _ & Hwb).
    destruct (join_edge_cases a b) as [(Hs & Ht & E)|[_ E]]; rewrite Hj in E; [|done].
    injection E as ->. simpl. split_and!; auto; [by destruct (weight b)|]. exists a. set_solver.
Qed.

(** A record table merged from two: sorted, and read by identity. *)
Record union_of {A K} (cmp : K -> K -> comparison) (key : A -> K) (merge : A -> A -> A)
    (l r t : list A) : Prop := {
  uo_sorted : BTree.sorted_set cmp (map key t);
  uo_get : forall k, BTree.get cmp k (keyed key t) =
    union_with (fun x y => Some (merge x y)) (BTree.get cmp k (keyed key l))
      (BTree.get cmp k (keyed key r));
}.

Definition ends_agree (l r : GraphInner) : Prop :=
  forall a b, a ∈ edges l -> b ∈ edges r -> edge_id a = edge_id b ->
    source a = source b /\ target a = target b.

Definition conflict (l r : GraphInner) (e : GraphError) : Prop :=
  exists a b, a ∈ edges l /\ b ∈ edges r /\ edge_id a = edge_id b /\
    (source a <> source b \/ target a <> target b) /\ e = ConflictingEdge (edge_id b).

(** ** What right-biased means *)

(** The newer of two optional values. *)
Inductive newest {V} : option V -> option V -> option V -> Prop :=
| newest_right old v : newest old (Some v) (Some v)
| newest_left old : newest old None old.

(** A map that holds the newer value under every key; an attribute map is sorted by key. *)
Definition overlays (a b c : Attributes) : Prop :=
  BTree.sorted_map bytes_cmp a -> BTree.sorted_map bytes_cmp b ->
  BTree.sorted_map bytes_cmp c /\ forall key, newest (BTree.get bytes_cmp key a) (BTree.get bytes_cmp key b) (BTree.get bytes_cmp key c).

(** A record of the left graph, updated by the one of the right graph. *)
Record node_updated (x y z : Node) : Prop := {
  nu_key : node_key z = node_key x;
  nu_label : newest (node_label x) (node_label y) (node_label z);
  nu_attributes : overlays (node_attributes x) (node_attributes y) (node_attributes z) }.
Record edge_updated (x y z : Edge) : Prop := {
  eu_id : edge_id z = edge_id x;
  eu_ends : source z = source x /\ target z = target x;
  eu_key : newest (graphify_key x) (graphify_key y) (graphify_key z);
  eu_label : newest (label x) (label y) (label z);
  eu_weight : newest (weight x) (weight y) (weight z);
  eu_attributes : overlays (attributes x) (attributes y) (attributes z) }.

(** What a composition holds where the two graphs hold [a] and [b]. *)
Inductive right_biased {A} (updated : A -> A -> A -> Prop) : option A -> option A -> option A -> Prop :=
| biased_none : right_biased updated None None None
| biased_left x : right_biased updated (Some x) None (Some x)
| biased_right y : right_biased updated None (Some y) (Some y)
| biased_both x y z : updated x y z -> right_biased updated (Some x) (Some y) (Some z).

Lemma newest_match {V} (a b : option V) : newest a b match b with Some _ => b | None => a end.
Proof. destruct b; constructor. Qed.

Lemma extend_overlays a b : overlays a b (BTree.extend bytes_cmp a b).
Proof.
  intros Ha Hb. split; [by apply (BTree.extend_sorted bytes_cmp)|]. intros key.
  rewrite (BTree.get_extend bytes_cmp); [destruct (BTree.get bytes_cmp key b); constructor|done|].
  by apply (BTree.sorted_set_nodup bytes_cmp), (BTree.sorted_map_fst bytes_cmp).
Qed.

Lemma merge_node_updated x y : node_updated x y (merge_node x y).
Proof. split; [done|apply newest_match|apply extend_overlays]. Qed.

Lemma merge_edge_updated x y : edge_updated x y (merge_edge x y).
Proof. split; [done|done|apply newest_match..|apply extend_overlays]. Qed.

Lemma union_biased {A} (updated : A -> A -> A -> Prop) merge a b : (forall x y, updated x y (merge x y)) ->
  right_biased updated a b (union_with (fun x y => Some (merge x y)) a b).
Proof. intros H. by destruct a, b; constructor. Qed.

(** The node table of a composition. *)
Lemma composed_nodes l r : valid l -> valid r ->
  let t := map snd (compose_nodes (nodes r) (BTree.from_iter id_cmp (keyed node_key (nodes l)))) in
  union_of id_cmp node_key merge_node (nodes l) (nodes r) t /\
  Forall (fun n => validate (node_key n) = Ok tt) t /\
  forall id, id ∈ map node_key (nodes l) \/ id ∈ map node_key (nodes r) -> id ∈ map node_key t.
Proof.
  intros [Gl (Ll & _) _] [Gr (Lr & _) _].
  pose proof (merge_table id_cmp node_key join_node ltac:(by intros ? ? ? [= <-]) (nodes l) (nodes r)
    (gk_nodes l Gl) (BTree.sorted_set_nodup id_cmp _ (gk_nodes r Gr))) as H.
  rewrite compose_nodes_eq in H. cbv zeta in H |- *. destruct H as (H1 & H2 & H3 & H4 & _).
  split_and!; [by constructor| |].
  - rewrite Forall_forall in Ll, Lr. apply Forall_forall. intros n Hn.
    destruct (H3 n Hn) as [?|[?|(a & b & Ha & _ & _ & [= <-])]]; auto. by apply (Ll a).
  - intros id [(n & -> & ?)%list_elem_of_fmap|(n & -> & ?)%list_elem_of_fmap]; auto.
Qed.

(** Its edge table, or the conflict that ends it. *)
Lemma composed_edges l r : valid l -> valid r ->
  match compose_edges (edges r) (BTree.from_iter edge_id_cmp (keyed edge_id (edges l))) with
  | Err e => conflict l r e
  | Ok m => let t := map snd m in
      union_of edge_id_cmp edge_id merge_edge (edges l) (edges r) t /\ ends_agree l r /\
      forall e, e ∈ t -> e ∈ edges l \/ e ∈ edges r \/
        exists a b, a ∈ edges l /\ b ∈ edges r /\ edge_id a = edge_id b /\ join_edge a b = Ok e
  end.
Proof.
  intros [Gl _ _] [Gr _ _].
  assert (forall a b v, join_edge a b = Ok v -> edge_id a = edge_id b -> edge_id v = edge_id a) as Hkey.
  { intros a b v Hj _. destruct (join_edge_cases a b) as [(_ & _ & E)|[_ E]]; rewrite Hj in E; [|done].
    by injection E as ->. }
  pose proof (merge_table edge_id_cmp edge_id join_edge Hkey (edges l) (edges r)
    (gk_edges l Gl) (BTree.sorted_set_nodup edge_id_cmp _ (gk_edges r Gr))) as H.
  rewrite compose_edges_eq. destruct (merge_map _ _ _ _ _) as [m|e]; cbv zeta in H |- *.
  2: { destruct H as (a & b & Ha & Hb & Hid & Hj). exists a, b.
       destruct (join_edge_cases a b) as [(_ & _ & E)|[? E]]; rewrite Hj in E; [done|].
       injection E as ->. done. }
  destruct H as (H1 & H2 & H3 & _ & H5).
  assert (ends_agree l r) as Hends.
  { intros a b Ha Hb Hid. specialize (H5 a b Ha Hb Hid).
    destruct (join_edge_cases a b) as [(? & ? & _)|[_ Ej]]; [done|]. by rewrite Ej in H5. }
  split_and!; [constructor; [done|]|done|done]. intros k. rewrite H2. unfold merged.
  destruct (BTree.get edge_id_cmp k (keyed edge_id (edges l))) as [a|] eqn:Ga,
    (BTree.get edge_id_cmp k (keyed edge_id (edges r))) as [b|] eqn:Gb; try done.
  apply (get_keyed_some edge_id_cmp edge_id) in Ga as [Ha Ea], Gb as [Hb Eb].
  change (match join_edge a b with Ok v => Some v | Err _ => None end = Some (merge_edge a b)).
  destruct (join_edge_cases a b) as [(_ & _ & ->)|[Hne _]]; [done|].
  destruct (Hends a b Ha Hb) as [? ?]; [congruence|tauto].
Qed.

(** [C32] [compose] is a right-biased union, or one of three documented failures:
    every node and every edge of the result is the left one, the right one, or
    for a shared identity the left one with the right one's label, weight, key and
    attributes wherever the right one has them, and so are the attributes of the
    graph; it fails only when the kinds differ, when a shared edge has different ends, or when two
    edges of a simple graph join the same pair. It never panics. *)
Theorem compose_exact (l r : GraphInner) : valid l -> valid r ->
  exists res, Transform.compose l r = Some res /\
  match res with
  | Ok c =>
      kind l = kind r /\ valid c /\ kind c = kind l /\
      overlays (graph_attributes l) (graph_attributes r) (graph_attributes c) /\
      (forall id, exists a b z, node l id = Some a /\ node r id = Some b /\ node c id = Some z /\ right_biased node_updated a b z) /\
      (forall id, exists a b z, edge l id = Some a /\ edge r id = Some b /\ edge c id = Some z /\ right_biased edge_updated a b z) /\
      ends_agree l r
  | Err e =>
      (kind l <> kind r /\ e = KindMismatch) \/
      conflict l r e \/
      (is_multigraph (kind l) = false /\ exists a b, a ∈ edges l ++ edges r /\
         b ∈ edges l ++ edges r /\ edge_id a <> edge_id b /\
         let p := endpoint_pair (is_directed (kind l)) b in
         endpoint_pair (is_directed (kind l)) a = p /\ e = ParallelEdge (kind l) p.1 p.2)
  end.
Proof.
  intros Vl Vr. unfold Transform.compose. destruct (decide (kind l = kind r)) as [Hk|Hk].
  2: { eexists. split; [done|]. by left. }
  destruct (composed_nodes l r Vl Vr) as ([N1 N2] & N3 & N4).
  pose proof (composed_edges l r Vl Vr) as He. fold (keyed node_key (nodes l)) (keyed edge_id (edges l)).
  set (N := map snd (compose_nodes _ _)) in *. destruct (compose_edges _ _) as [m|e].
  2: { eexists. split; [done|]. right; by left. }
  set (E := map snd m) in *. destruct He as ([E1 E2] & Hends & E3).
  pose proof (composed_edges_ok l r (map node_key N) E Vl Vr N4 E3) as Hok.
  assert (records_ok N E) as Hrec.
  { split_and!; [done|by apply (BTree.sorted_set_nodup id_cmp)|
      |by apply (BTree.sorted_set_nodup edge_id_cmp)].
    apply Forall_forall. intros e He. destruct (Hok e He) as (? & ? & ? & ? & _). done. }
  set (ga := BTree.extend bytes_cmp (graph_attributes l) (graph_attributes r)).
  destruct (with_attributes_records (kind l) ga N E Hrec) as (res & Hres & Hcase).
  rewrite Hres. eexists. split; [done|]. destruct res as [c|e].
  - destruct (rebuild _ ga N E Hcase) as (c' & Hc & Vc & Hkc & Hac & _ & _ & Hnc & Hec).
    { apply Forall_forall. intros e He. by destruct (Hok e He) as (_ & _ & _ & _ & ? & _). }
    rewrite Hres in Hc. injection Hc as <-. specialize (Hnc N1). specialize (Hec E1).
    pose proof (valid_ok l Vl). pose proof (valid_ok r Vr). pose proof (valid_ok c Vc).
    split_and!; try done.
    + rewrite Hac. apply extend_overlays.
    + intros id. rewrite !node_lookup, Hnc, N2 by done. do 3 eexists. split_and!; try done. apply union_biased, merge_node_updated.
    + intros id. rewrite !edge_lookup, Hec, E2 by done. do 3 eexists. split_and!; try done. apply union_biased, merge_edge_updated.
  - right; right. destruct Hcase as (Hm & x & y & Hx & Hy & Hxy & Hp & ->). split; [done|].
    destruct (Hok x Hx) as (_ & _ & _ & _ & _ & a & Ha & Ia & Sa & Ta).
    destruct (Hok y Hy) as (_ & _ & _ & _ & _ & b & Hb & Ib & Sb & Tb).
    assert (forall d u v, source u = source v -> target u = target v ->
      endpoint_pair d u = endpoint_pair d v) as Hpair.
    { intros d u v Hs Ht. unfold endpoint_pair. by rewrite Hs, Ht. }
    exists a, b. cbv zeta. rewrite (Hpair _ a x), (Hpair _ b y) by done.
    split_and!; [done|done|congruence|done|done].
Qed.
End Compose.

(** ** A sample *)

#[local] Existing Instance Json.number.
#[local] Existing Instance Json.writer.

Lemma compose_exact_witness :
  exists c, Transform.compose Sample.graph Sample.graph = Some (Ok c) /\ valid c /\
    nodes c = nodes Sample.graph /\ ends_agree Sample.graph Sample.graph.
Proof.
  destruct (compose_exact Sample.graph Sample.graph sample_valid sample_valid) as ([c|e] & Hc & H).
  - destruct H as (_ & Hv & _ & _ & _ & _ & Hends). exists c.
    split; [exact Hc|]. split; [exact Hv|]. split; [|exact Hends].
    vm_compute in Hc. injection Hc as <-. vm_compute. reflexivity.
  - exfalso. vm_compute in Hc. discriminate Hc.
Defined.

End TransformCompose.
