(* ===== verification/QueryValue.v ===== *)
(** Query values: crates/planner/src/relational/value.rs.

    The values Cypher expressions compute with, their three-valued equality, the
    total order of sorting and grouping, grouping keys with their hash, and the
    structural limits checked before recursive use. Strings are their UTF-8
    bytes, floats their bit patterns, a [BTreeMap] the list of its entries in
    key order, and a [u64] or [i64] an integer. *)
From S2P Require Import Prelude Bytes ValueSemantics Property.

Open Scope Z_scope.

#[local] Set Warnings "-register-all".

Module QueryValue.

(** ** Errors of the query language (mod.rs, codes.rs) *)

Inductive ErrorPhase := Compile | Runtime.

Record QueryError := {
  error_category : string;
  error_detail : string;
  error_phase : ErrorPhase;
  error_message : string;
}.

(** [QueryError::compile] and [QueryError::runtime]; a span is attached later. *)
Definition compile_error (category detail message : string) : QueryError :=
  {| error_category := category; error_detail := detail; error_phase := Compile;
     error_message := message |}.
Definition runtime_error (category detail message : string) : QueryError :=
  {| error_category := category; error_detail := detail; error_phase := Runtime;
     error_message := message |}.

Definition MAX_EXPRESSION_DEPTH : Z := 48.

(** ** Values *)

Inductive Entity := Node (id : Z) | Relationship (id : Z).

Record Path := { path_nodes : list Z; path_relationships : list Z }.

Inductive Value :=
| Null
| Boolean (b : bool)
| Integer (z : Z)
| Float (bits : Z)
| Str (s : bytes)
| List (l : list Value)
| Map (m : list (bytes * Value))
| EntityValue (e : Entity)
| PathValue (p : Path).

(** [Path::new]. *)
Definition path_new (nodes relationships : list Z) : result QueryError Path :=
  if Nat.eqb (length nodes) (S (length relationships)) then
    Ok {| path_nodes := nodes; path_relationships := relationships |}
  else Err (compile_error "internal_planner_error" "invalid_path"
              "a path must alternate nodes and relationships").

#[global] Instance Entity_eq_dec : EqDecision Entity.
Proof. solve_decision. Defined.
#[global] Instance Path_eq_dec : EqDecision Path.
Proof. solve_decision. Defined.

(** ** Structural limits *)

Inductive ShapeViolation := Structure | Collection.

(** [try_for_each] over values, threading [remaining]. *)
Fixpoint try_each {A E} (f : A -> Z -> result E Z) (l : list A) (remaining : Z) : result E Z :=
  match l with
  | [] => Ok remaining
  | x :: l => let? remaining := f x remaining in try_each f l remaining
  end.

Fixpoint check_shape (self : Value) (depth : Z) (max_list_items : Z) (remaining : Z)
    : result ShapeViolation Z :=
  if (MAX_EXPRESSION_DEPTH <=? depth) || (remaining =? 0) then Err Structure
  else
    let remaining := remaining - 1 in
    match self with
    | List values =>
        if max_list_items <? Z.of_nat (length values) then Err Collection
        else try_each (fun v => check_shape v (depth + 1) max_list_items) values remaining
    | Map values =>
        try_each (fun e => check_shape e.2 (depth + 1) max_list_items) values remaining
    | _ => Ok remaining
    end.

Definition structural_limits {A} (e : string -> string -> string -> QueryError) : result QueryError A :=
  Err (e "resource_limit" "value_depth" "value exceeds structural limits")%string.

Definition validate_shape (self : Value) : result QueryError unit :=
  if is_ok (check_shape self 0 (umax 64) 200000) then Ok tt else structural_limits compile_error.

Definition validate_runtime_shape (self : Value) (depth max_items : Z) : result QueryError unit :=
  if is_ok (check_shape self depth (umax 64) max_items) then Ok tt else structural_limits runtime_error.

Definition validate_depth (self : Value) : result QueryError unit :=
  validate_runtime_shape self 0 (umax 64).

Definition validate_collections (self : Value) (depth max_items : Z) : result QueryError unit :=
  match check_shape self depth max_items (umax 64) with
  | Ok _ => Ok tt
  | Err Structure => structural_limits runtime_error
  | Err Collection =>
      Err (runtime_error "resource_limit" "collection_limit" "expression exceeds collection budget")
  end.

(** [Value::truth]. *)
Definition truth_of (self : Value) : result QueryError (option bool) :=
  match self with
  | Null => Ok None
  | Boolean value => Ok (Some value)
  | _ => Err (runtime_error "type_error" "invalid_argument_type" "expected a boolean or null")
  end.

(** ** Equality of predicates *)

(** [CanonicalNumber] of a numeric value; NaN and other values have none. *)
Definition number (value : Value) : option Canonical.CanonicalNumber :=
  match value with
  | Integer x => Some (Canonical.from_i64 x)
  | Float x => Canonical.from_f64 x
  | _ => None
  end.

Definition number_cmp (self other : Value) : option comparison :=
  l ← number self;
  r ← number other;
  Some (Canonical.cmp l r).

(** The loop over paired elements: false at the first difference, unknown if
    any pair is. *)
Fixpoint all_equal {A} (eq : A -> A -> option bool) (a b : list A) (unknown : bool) : option bool :=
  match a, b with
  | x :: a, y :: b =>
      match eq x y with
      | Some false => Some false
      | None => all_equal eq a b true
      | Some true => all_equal eq a b unknown
      end
  | _, _ => if unknown then None else Some true
  end.

Fixpoint equals (self other : Value) {struct self} : option bool :=
  match self, other with
  | Null, _ | _, Null => None
  | List a, List b =>
      if negb (Nat.eqb (length a) (length b)) then Some false
      else all_equal equals a b false
  | Map a, Map b =>
      if negb (bool_decide (a.*1 = b.*1)) then Some false
      else all_equal (fun x y => equals x.2 y.2) a b false
  | (Integer _ | Float _), (Integer _ | Float _) =>
      Some (bool_decide (number_cmp self other = Some Eq))
  | Boolean a, Boolean b => Some (Bool.eqb a b)
  | Str a, Str b => Some (Property.bytes_eqb a b)
  | EntityValue a, EntityValue b => Some (bool_decide (a = b))
  | PathValue a, PathValue b => Some (bool_decide (a = b))
  | _, _ => Some false
  end.

(** ** The order of sorting and grouping *)

Definition f64_is_nan (bits : Z) : bool := Property.is_nan 11 52 bits.

Definition rank (v : Value) : Z :=
  match v with
  | Map _ => 0
  | EntityValue (Node _) => 1
  | EntityValue (Relationship _) => 2
  | List _ => 3
  | PathValue _ => 4
  | Str _ => 5
  | Boolean _ => 6
  | Integer _ | Float _ => 7
  | Null => 8
  end.

(** The derived [Ord] of [Entity]. *)
Definition entity_cmp (a b : Entity) : comparison :=
  match a, b with
  | Node a, Node b | Relationship a, Relationship b => a ?= b
  | Node _, Relationship _ => Lt
  | Relationship _, Node _ => Gt
  end.

Definition numeric_cmp (self other : Value) : comparison :=
  match number_cmp self other with
  | Some o => o
  | None =>
      match self, other with
      | Float a, Float b =>
          if f64_is_nan a && f64_is_nan b then Eq else if negb (f64_is_nan a) then Lt else Gt
      | Float _, _ => Gt
      | _, _ => Lt
      end
  end.

(** The first difference of the zipped elements, then the lengths: for lists. *)
Fixpoint zip_cmp {A} (cmp : A -> A -> comparison) (a b : list A) : comparison :=
  match a, b with
  | x :: a, y :: b => then_with (cmp x y) (zip_cmp cmp a b)
  | _, _ => Eq
  end.

Definition compare_lists {A} (cmp : A -> A -> comparison) (a b : list A) : comparison :=
  then_with (zip_cmp cmp a b) (Nat.compare (length a) (length b)).

Definition path_cmp (a b : Path) : comparison :=
  then_with (lex_compare Z.compare (path_nodes a) (path_nodes b))
    (lex_compare Z.compare (path_relationships a) (path_relationships b)).

Fixpoint total_cmp (self other : Value) {struct self} : comparison :=
  match self, other with
  | (Integer _ | Float _), (Integer _ | Float _) => numeric_cmp self other
  | Str a, Str b => bytes_cmp a b
  | Boolean a, Boolean b => Property.bool_cmp a b
  | EntityValue a, EntityValue b => entity_cmp a b
  | List a, List b => compare_lists total_cmp a b
  | Map a, Map b =>
      then_with (Nat.compare (length a) (length b))
        (then_with (lex_compare bytes_cmp a.*1 b.*1)
          (zip_cmp (fun x y => total_cmp x.2 y.2) a b))
  | PathValue a, PathValue b => path_cmp a b
  | _, _ => rank self ?= rank other
  end.

(** ** Grouping keys *)

Record GroupingKey := { key_value : Value }.

Definition grouping_key (value : Value) : result QueryError GroupingKey :=
  let? _ := validate_runtime_shape value 0 200000 in Ok {| key_value := value |}.

(** [GroupingKey::row]: one item budget is shared by the columns. *)
Fixpoint check_columns (values : list Value) (remaining : Z) : bool :=
  match values with
  | [] => true
  | value :: values =>
      match check_shape value 0 (umax 64) remaining with
      | Ok remaining => check_columns values remaining
      | Err _ => false
      end
  end.

Definition grouping_row (values : list Value) : result QueryError GroupingKey :=
  if check_columns values (200000 - 1) then Ok {| key_value := List values |}
  else Err (runtime_error "resource_limit" "value_depth"
              "grouping columns exceed structural limits").

Definition key_eq (self other : GroupingKey) : bool :=
  match total_cmp (key_value self) (key_value other) with Eq => true | _ => false end.

(** What is written to the [Hasher]: the hash of a standard or derived type is
    a function of its value. *)
Inductive HashWrite :=
| HashTag (tag : Z)
| HashNumber (n : option Canonical.CanonicalNumber)
| HashBool (b : bool)
| HashStr (s : bytes)
| HashEntity (e : Entity)
| HashIds (l : list Z)
| HashLen (n : nat).

Fixpoint hash_value (value : Value) : list HashWrite :=
  match value with
  | Integer value => [HashTag 0; HashNumber (Some (Canonical.from_i64 value))]
  | Float value => [HashTag 0; HashNumber (Canonical.from_f64 value)]
  | Null => [HashTag 1]
  | Boolean value => [HashTag 2; HashBool value]
  | Str value => [HashTag 3; HashStr value]
  | EntityValue value => [HashTag 4; HashEntity value]
  | PathValue value => [HashTag 5; HashIds (path_nodes value); HashIds (path_relationships value)]
  | List values => HashTag 6 :: HashLen (length values) :: flat_map hash_value values
  | Map values =>
      HashTag 7 :: HashLen (length values) ::
      flat_map (fun e => HashStr e.1 :: hash_value e.2) values
  end.

Definition key_hash (self : GroupingKey) : list HashWrite := hash_value (key_value self).

(** ** Induction over nested values *)

Section Induction.
Variable P : Value -> Prop.
Hypothesis Hscalar : forall v, match v with List _ | Map _ => False | _ => True end -> P v.
Hypothesis Hlist : forall l, Forall P l -> P (List l).
Hypothesis Hmap : forall m, Forall (fun e => P e.2) m -> P (Map m).

Fixpoint value_ind' (v : Value) : P v :=
  match v with
  | List l => Hlist l ((fix go l : Forall P l :=
      match l with
      | [] => List.Forall_nil _
      | x :: l => List.Forall_cons _ _ _ (value_ind' x) (go l)
      end) l)
  | Map l => Hmap l ((fix go l : Forall (fun e => P e.2) l :=
      match l with
      | [] => List.Forall_nil _
      | x :: l => List.Forall_cons _ _ _ (value_ind' x.2) (go l)
      end) l)
  | v => Hscalar v I
  end.
End Induction.

(** ** [total_cmp] is a total preorder *)

Lemma zip_lex {A} (cmp : A -> A -> comparison) a b : length a = length b ->
  zip_cmp cmp a b = lex_compare cmp a b.
Proof.
  revert b. induction a as [|x a IH]; intros [|y b]; simpl; try done. intros [= H]. by rewrite IH.
Qed.

Lemma compare_lists_lex {A} (cmp : A -> A -> comparison) a b :
  compare_lists cmp a b = lex_compare cmp a b.
Proof.
  unfold compare_lists. revert b. induction a as [|x a IH]; intros [|y b]; simpl; try done.
  rewrite <- IH. by destruct (cmp x y).
Qed.

Lemma lex_eq_length {A} (cmp : A -> A -> comparison) a b :
  lex_compare cmp a b = Eq -> length a = length b.
Proof.
  revert b. induction a as [|x a IH]; intros [|y b]; simpl; try done.
  intros [_ E]%then_with_eq. by rewrite (IH b).
Qed.

Definition map_cmp {V} (cmp : V -> V -> comparison) (a b : list (bytes * V)) : comparison :=
  then_with (Nat.compare (length a) (length b))
    (then_with (lex_compare bytes_cmp a.*1 b.*1) (lex_compare (fun x y => cmp x.2 y.2) a b)).

Lemma map_cmp_zip {V} (cmp : V -> V -> comparison) a b :
  then_with (Nat.compare (length a) (length b))
    (then_with (lex_compare bytes_cmp a.*1 b.*1) (zip_cmp (fun x y => cmp x.2 y.2) a b)) =
  map_cmp cmp a b.
Proof.
  unfold map_cmp. destruct (Nat.compare_spec (length a) (length b)); [|done..]. by rewrite zip_lex.
Qed.

(** NaN is what has no canonical number. *)
Lemma f64_nan bits : Canonical.from_f64 bits = None <-> f64_is_nan bits = true.
Proof.
  unfold Canonical.from_f64, f64_is_nan, Property.is_nan.
  rewrite land_mask by lia. rewrite !Z.shiftr_div_pow2 by lia.
  assert (forall z, Z.land z 0x7FF = z mod 2 ^ 11) as Hland by (intros z; apply (Z.land_ones z 11); lia).
  rewrite Hland.
  change (2 ^ (11 + 52)) with (2 ^ 52 * 2 ^ 11). rewrite (Z.rem_mul_r bits (2 ^ 52) (2 ^ 11)) by lia.
  pose proof (Z.mod_pos_bound bits (2 ^ 52) ltac:(lia)).
  pose proof (Z.mod_pos_bound (bits / 2 ^ 52) (2 ^ 11) ltac:(lia)).
  set (f := bits mod 2 ^ 52) in *. set (e := (bits / 2 ^ 52) mod 2 ^ 11) in *. clearbody f e.
  rewrite Z.ltb_lt. change (2 ^ 11) with 2048 in *. change (2 ^ 52) with 4503599627370496 in *.
  destruct (Z.eqb_spec e 0x7FF) as [->|He].
  - destruct (Z.eqb_spec f 0) as [->|Hf]; split; [done|lia|lia|done].
  - split; [by destruct ((e =? 0) && (f =? 0)), (e =? 0)|lia].
Qed.

#[export] Instance nat_compare_lawful : LawfulCompare Nat.compare.
Proof.
  split.
  - apply Nat.compare_refl.
  - intros x y. apply Nat.compare_antisym.
  - intros x y z [] ; rewrite ?Nat.compare_eq_iff, ?Nat.compare_lt_iff, ?Nat.compare_gt_iff; lia.
Qed.

Lemma f64_is_nan_eq bits :
  f64_is_nan bits = match Canonical.from_f64 bits with None => true | Some _ => false end.
Proof.
  pose proof (f64_nan bits) as H. destruct (Canonical.from_f64 bits).
  - apply not_true_is_false. by intros ?%H.
  - by apply H.
Qed.

(** Numbers by value, NaN after them. *)
Lemma numeric_cmp_number v w : rank v = 7 -> rank w = 7 ->
  numeric_cmp v w = match number v, number w with
                    | Some l, Some r => Canonical.cmp l r
                    | None, None => Eq
                    | None, Some _ => Gt
                    | Some _, None => Lt
                    end.
Proof.
  intros Hv Hw. unfold numeric_cmp, number_cmp.
  destruct v as [| |x|x| | | |[]|]; try discriminate Hv;
    destruct w as [| |y|y| | | |[]|]; try discriminate Hw; cbn [number mbind option_bind].
  - reflexivity.
  - by destruct (Canonical.from_f64 y).
  - by destruct (Canonical.from_f64 x).
  - rewrite !f64_is_nan_eq. by destruct (Canonical.from_f64 x), (Canonical.from_f64 y).
Qed.

Definition number_order (v w : Value) : comparison :=
  match number v, number w with
  | Some l, Some r => Canonical.cmp l r
  | None, None => Eq
  | None, Some _ => Gt
  | Some _, None => Lt
  end.

#[export] Instance number_order_lawful : LawfulCompare number_order.
Proof.
  split; unfold number_order.
  - intros x. destruct (number x); [apply cmp_refl|done].
  - intros x y. destruct (number x), (number y); try done. apply (cmp_sym (cmp := Canonical.cmp)).
  - intros x y z o. destruct (number x), (number y), (number z); try congruence.
    apply (cmp_trans (cmp := Canonical.cmp)).
Qed.

#[export] Instance entity_cmp_strict : StrictCompare entity_cmp.
Proof.
  split; [split|].
  - intros []; apply Z.compare_refl.
  - intros [] []; simpl; try done; apply Z.compare_antisym.
  - intros [] [] [] o; simpl; try congruence; apply (cmp_trans (cmp := Z.compare)).
  - intros [] []; simpl; try done; by intros ->%Z.compare_eq.
Qed.

#[export] Instance path_cmp_strict : StrictCompare path_cmp.
Proof.
  split.
  - apply then_with_lawful; [apply (preimage_lawful path_nodes), _|apply (preimage_lawful path_relationships), _].
  - intros [n r] [n' r'] [E1%(cmp_eq (cmp := lex_compare Z.compare)) E2%(cmp_eq (cmp := lex_compare Z.compare))]%then_with_eq.
    simpl in *. by subst.
Qed.

(** [total_cmp] past the rank. *)
Definition same_rank (self other : Value) : comparison :=
  match self, other with
  | (Integer _ | Float _), (Integer _ | Float _) => number_order self other
  | Str a, Str b => bytes_cmp a b
  | Boolean a, Boolean b => Property.bool_cmp a b
  | EntityValue a, EntityValue b => entity_cmp a b
  | List a, List b => lex_compare total_cmp a b
  | Map a, Map b => map_cmp total_cmp a b
  | PathValue a, PathValue b => path_cmp a b
  | _, _ => Eq
  end.

Lemma total_cmp_unfold v w : total_cmp v w = then_with (rank v ?= rank w) (same_rank v w).
Proof.
  assert (forall a b, rank a = 7 -> rank b = 7 -> numeric_cmp a b = number_order a b) as Hn
    by (intros; by apply numeric_cmp_number).
  destruct v as [| | | | | | |[]|], w as [| | | | | | |[]|]; simpl; try done;
    try (by apply Hn); [apply compare_lists_lex|apply map_cmp_zip].
Qed.

Lemma total_cmp_laws v : laws_at total_cmp v.
Proof.
  induction v as [v Hv|l IH|m IH] using value_ind';
    apply (ranked_laws_at rank same_rank _ _ total_cmp_unfold).
  - assert (forall r, rank v = r -> r = 7 -> payload_laws rank same_rank v) as Hnum.
    { intros r Hr ->. apply (payload_rank _ _ number_order 7); [|done].
      intros [| | | | | | |[]|] [| | | | | | |[]|]; done. }
    destruct v as [|b|z|z|s|l|m|e|p]; try done; try (by eapply Hnum).
    + split_and!; [done|by intros [| | | | | | |[]|]|by intros [| | | | | | |[]|] [| | | | | | |[]|]].
    + apply (payload_of _ _ Property.bool_cmp Boolean); [apply lawful_at, _|done|].
      intros ? [| | | | | | |[]|]; eauto; done.
    + apply (payload_of _ _ bytes_cmp Str); [apply lawful_at, _|done|].
      intros ? [| | | | | | |[]|]; eauto; done.
    + split_and!; simpl; [apply cmp_refl| |].
      * intros [| | | | | | |e'|]; destruct e; try done; intros _; apply (cmp_sym (cmp := entity_cmp)).
      * intros y z Hy Hz. assert (exists a b, y = EntityValue a /\ z = EntityValue b) as (a & b & -> & ->).
        { destruct e, y as [| | | | | | |[]|], z as [| | | | | | |[]|]; try done; eauto. }
        simpl. split; [intros o; apply cmp_trans|apply (cmp_trans_cases entity_cmp)].
    + apply (payload_of _ _ path_cmp PathValue); [apply lawful_at, _|done|].
      intros ? [| | | | | | |[]|]; eauto; done.
  - apply (payload_of _ _ (lex_compare total_cmp) List); [by apply lex_laws_at|done|].
    intros ? [| | | | | | |[]|]; eauto; done.
  - apply (payload_of _ _ (map_cmp total_cmp) Map); [|done|intros ? [| | | | | | |[]|]; eauto; done].
    apply then_with_laws_at; [apply (preimage_laws_at length), lawful_at, _|].
    apply then_with_laws_at; [apply (preimage_laws_at (fun m : list (bytes * Value) => m.*1)), lawful_at, _|].
    apply lex_laws_at. eapply Forall_impl; [done|]. intros e. apply (preimage_laws_at snd).
Qed.

#[export] Instance total_cmp_lawful : LawfulCompare total_cmp.
Proof.
  split.
  - intros v. apply total_cmp_laws.
  - intros v w. apply (total_cmp_laws v).
  - intros x y z o. apply (total_cmp_laws x).
Qed.

#[local] Opaque Canonical.from_i64 Canonical.from_f64 Canonical.cmp.

(** ** Well-formed values *)

(** The scalars of a value, in order. *)
Fixpoint scalars (v : Value) : list Value :=
  match v with
  | List l => flat_map scalars l
  | Map m => flat_map (fun e => scalars e.2) m
  | v => [v]
  end.

Definition scalar_ok (v : Value) : Prop :=
  match v with
  | Integer z => in_i 64 z
  | Float bits => in_u 64 bits
  | _ => True
  end.

(** Integers and floats within their 64 bits. *)
Definition value_ok (v : Value) : Prop := Forall scalar_ok (scalars v).

Lemma scalars_list (P : Value -> Prop) l :
  Forall P (scalars (List l)) <-> Forall (fun v => Forall P (scalars v)) l.
Proof. simpl. induction l as [|v l IH]; simpl; [done|]. by rewrite Forall_app, IH, Forall_cons. Qed.

Lemma scalars_map (P : Value -> Prop) m :
  Forall P (scalars (Map m)) <-> Forall (fun e => Forall P (scalars e.2)) m.
Proof. simpl. induction m as [|e m IH]; simpl; [done|]. by rewrite Forall_app, IH, Forall_cons. Qed.

Lemma number_canonical v n : value_ok v -> number v = Some n -> Canonical.number_ok n.
Proof.
  unfold value_ok. destruct v as [| |z|z| | | | |]; try discriminate; simpl; rewrite Forall_singleton; simpl.
  - intros Hz [= <-]. by apply Canonical.from_i64_spec.
  - intros Hz Hn. pose proof (Canonical.canonical_spec (Canonical.F64 z) Hz) as H. simpl in H.
    rewrite Hn in H. apply H.
Qed.

(** Numbers that compare equal are represented alike. *)
Lemma number_order_eq v w : value_ok v -> value_ok w -> number_order v w = Eq <-> number v = number w.
Proof.
  intros Hv Hw. pose proof (number_canonical v) as Nv. pose proof (number_canonical w) as Nw.
  unfold number_order. destruct (number v) as [l|], (number w) as [r|]; try done.
  specialize (Nv l Hv eq_refl). specialize (Nw r Hw eq_refl).
  rewrite Canonical.cmp_denote, Canonical.exact_cmp_eq by done. split; [|congruence].
  intros E. f_equal. by apply Canonical.denote_inj.
Qed.

(** ** The hash contract *)

Definition hash_number (v : Value) : list HashWrite := [HashTag 0; HashNumber (number v)].

Lemma hash_numeric v : rank v = 7 -> hash_value v = hash_number v.
Proof. destruct v as [| | | | | | |[]|]; try discriminate; reflexivity. Qed.

(** Streams are prefix-free, so they determine the value up to [total_cmp]. *)
Definition hash_exact (v : Value) : Prop := forall w s s', value_ok w ->
  (hash_value v ++ s = hash_value w ++ s' <-> total_cmp v w = Eq /\ s = s').

Lemma hash_list l l' s s' : Forall hash_exact l -> Forall value_ok l' -> length l = length l' ->
  flat_map hash_value l ++ s = flat_map hash_value l' ++ s' <->
  lex_compare total_cmp l l' = Eq /\ s = s'.
Proof.
  intros H; revert l' s s'. induction H as [|v l Hv _ IH]; intros [|w l'] s s' Hok Hlen; try done; simpl.
  - tauto.
  - injection Hlen as Hlen. apply Forall_cons in Hok as [Hw Hok]. rewrite <- !app_assoc.
    rewrite (Hv w) by done. rewrite IH by done. rewrite then_with_eq. tauto.
Qed.

Lemma hash_map m m' s s' : Forall (fun e => hash_exact e.2) m -> Forall (fun e => value_ok e.2) m' ->
  length m = length m' ->
  flat_map (fun e => HashStr e.1 :: hash_value e.2) m ++ s =
  flat_map (fun e => HashStr e.1 :: hash_value e.2) m' ++ s' <->
  lex_compare bytes_cmp m.*1 m'.*1 = Eq /\ lex_compare (fun x y => total_cmp x.2 y.2) m m' = Eq /\ s = s'.
Proof.
  intros H; revert m' s s'. induction H as [|[k v] m Hv _ IH]; intros [|[k' w] m'] s s' Hok Hlen; try done; simpl.
  - tauto.
  - injection Hlen as Hlen. apply Forall_cons in Hok as [Hw Hok]. simpl in Hv, Hw.
    rewrite <- !app_assoc. rewrite !then_with_eq. specialize (IH m' s s' Hok Hlen).
    specialize (Hv w (flat_map (fun e => HashStr e.1 :: hash_value e.2) m ++ s)
      (flat_map (fun e => HashStr e.1 :: hash_value e.2) m' ++ s') Hw).
    assert (bytes_cmp k k' = Eq <-> k = k') as Hk.
    { split; [apply cmp_eq|]. intros ->. apply cmp_refl. }
    rewrite Hk. split.
    + intros [= -> E]. apply Hv in E as [E1 E2]. apply IH in E2 as (? & ? & ?). auto.
    + intros ([-> E1] & [E2 E3] & ->). f_equal. apply Hv. split; [done|]. by apply IH.
Qed.

Lemma hash_numbers v w s s' : rank v = 7 -> value_ok v -> value_ok w ->
  hash_value v ++ s = hash_value w ++ s' <-> total_cmp v w = Eq /\ s = s'.
Proof.
  intros Hv Ov Ow. rewrite total_cmp_unfold, Hv, (hash_numeric v Hv).
  destruct (decide (rank w = 7)) as [Hw|Hw].
  - rewrite (hash_numeric w Hw), Hw. change (then_with (7 ?= 7) (same_rank v w)) with (same_rank v w).
    assert (same_rank v w = number_order v w) as ->
      by (destruct v as [| | | | | | |[]|]; try discriminate Hv;
          destruct w as [| | | | | | |[]|]; try discriminate Hw; reflexivity).
    rewrite number_order_eq by done. unfold hash_number. simpl. split; [by intros [= -> ->]|by intros [-> ->]].
  - split.
    + destruct w as [| | | | | | |[]|]; try discriminate; by destruct Hw.
    + rewrite then_with_eq, Z.compare_eq_iff. intros [[E _] _]. congruence.
Qed.

(** One variant: a strict comparison of what is written. *)
Lemma hash_payload {A} (c : A -> A -> comparison) `{!StrictCompare c} (tag : HashWrite)
    (mk : A -> list HashWrite) a b s s' :
  (mk a ++ s = mk b ++ s' <-> a = b /\ s = s') ->
  (tag :: mk a) ++ s = (tag :: mk b) ++ s' <-> c a b = Eq /\ s = s'.
Proof.
  intros H. assert (c a b = Eq <-> a = b) as ->.
  { split; [apply cmp_eq|intros ->; apply cmp_refl]. }
  rewrite <- H. simpl. split; [by intros [= ->]|by intros ->].
Qed.

#[export] Instance bool_cmp_strict : StrictCompare Property.bool_cmp.
Proof. split; [apply _|by intros [] []]. Qed.

(** Values of different variants. *)
Ltac other_variant := split; [discriminate | intros [E ?]; discriminate E].

Lemma hash_value_exact v : value_ok v -> hash_exact v.
Proof.
  induction v as [v Hv|l IH|m IH] using value_ind'; intros Hok w s s' Hw.
  - destruct v as [|b|z|z|x|l|m|e|p]; try (by destruct Hv); try (by apply hash_numbers).
    + destruct w as [| | | | | | |[]|]; try other_variant. simpl. split; [by intros [= ->]|by intros [_ ->]].
    + destruct w as [|b'| | | | | |[]|]; try other_variant.
      apply (hash_payload Property.bool_cmp _ (fun b => [HashBool b])). simpl. naive_solver.
    + destruct w as [| | | |x'| | |[]|]; try other_variant.
      apply (hash_payload bytes_cmp _ (fun b => [HashStr b])). simpl. naive_solver.
    + destruct w as [| | | | | | |e'|]; try (destruct e; other_variant).
      apply (hash_payload entity_cmp _ (fun b => [HashEntity b])). simpl. naive_solver.
    + destruct w as [| | | | | | |[]|p']; try other_variant.
      apply (hash_payload path_cmp _ (fun p => [HashIds (path_nodes p); HashIds (path_relationships p)])).
      destruct p, p'. simpl. naive_solver.
  - apply scalars_list in Hok. destruct w as [| | | | |l'| |[]|]; try other_variant.
    apply scalars_list in Hw. simpl. rewrite compare_lists_lex.
    assert (Forall hash_exact l) as Hl.
    { apply Forall_forall. intros x Hx. rewrite Forall_forall in IH, Hok. by apply IH, Hok. }
    split.
    + intros [= Hlen E]. by apply hash_list in E.
    + intros [E ->]. pose proof (lex_eq_length _ _ _ E) as Hlen. rewrite Hlen. do 2 f_equal.
      by apply hash_list.
  - apply scalars_map in Hok. destruct w as [| | | | | |m'|[]|]; try other_variant.
    apply scalars_map in Hw. simpl. rewrite map_cmp_zip. unfold map_cmp.
    assert (Forall (fun e => hash_exact e.2) m) as Hm.
    { apply Forall_forall. intros x Hx. rewrite Forall_forall in IH, Hok. by apply IH, Hok. }
    rewrite !then_with_eq, Nat.compare_eq_iff. split.
    + intros [= Hlen E]. apply hash_map in E as (? & ? & ?); auto.
    + intros ((Hlen & E1 & E2) & ->). rewrite Hlen. do 2 f_equal. by apply hash_map.
Qed.

(** ** Grouping *)

(** Grouping keys honour the hash contract exactly: sorting and grouping
    compare by a total preorder, so key equality is an equivalence, and two
    well-formed keys are equal precisely when they make the same writes to the
    hasher, whatever mixture of integers, floats, NaN, signed zeroes, nulls and
    nested collections they hold. *)
Theorem grouping_contract :
  LawfulCompare total_cmp /\
  forall a b : GroupingKey, value_ok (key_value a) -> value_ok (key_value b) ->
    (key_eq a b = true <-> key_hash a = key_hash b).
Proof.
  split; [apply _|]. intros [a] [b] Ha Hb. unfold key_eq, key_hash. simpl in *.
  pose proof (hash_value_exact a Ha b [] [] Hb) as H. rewrite !app_nil_r in H.
  rewrite H. destruct (total_cmp a b); split; try done; by intros [? _].
Qed.

(** The integer 1 and the float 1.0, under a null and a NaN. *)
Definition sample_key : GroupingKey :=
  {| key_value := List [Integer 1; Null; Float 0x7FF8000000000000] |}.
Definition sample_key' : GroupingKey :=
  {| key_value := List [Float 0x3FF0000000000000; Null; Float 0xFFF8000000000001] |}.

Lemma grouping_contract_witness :
  key_eq sample_key sample_key' = true /\ key_hash sample_key = key_hash sample_key'.
Proof.
  assert (key_eq sample_key sample_key' = true) as E by (vm_compute; reflexivity).
  split; [exact E|].
  apply (proj2 grouping_contract sample_key sample_key'); [..|exact E];
    repeat (constructor; [vm_compute; intuition discriminate|]); constructor.
Defined.

End QueryValue.
