(* ===== verification/QueryEquals.v ===== *)
(** Cypher equality is three-valued: [Value::equals] of
    crates/planner/src/relational/value.rs against the total order on definite values,
    where a NaN is equal to nothing, and against the completions of its unknowns. *)
From S2P Require Import Prelude Bytes ValueSemantics Property QueryValue.

Open Scope Z_scope.

Module QueryEquals.
Export QueryValue.

#[local] Opaque Canonical.from_i64 Canonical.from_f64 Canonical.cmp.

(** ** Completions

    [w] completes [v] when it is [v] with some of its nulls, at any depth,
    replaced by values. *)

Fixpoint all2 {A B} (R : A -> B -> Prop) (l : list A) (l' : list B) : Prop :=
  match l, l' with
  | [], [] => True
  | x :: l, y :: l' => R x y /\ all2 R l l'
  | _, _ => False
  end.

Fixpoint completes (v w : Value) {struct v} : Prop :=
  match v, w with
  | Null, _ => True
  | List l, List l' => all2 completes l l'
  | Map m, Map m' => all2 (fun e e' => e.1 = e'.1 /\ completes e.2 e'.2) m m'
  | List _, _ | Map _, _ => False
  | v, w => v = w
  end.

Definition not_null (v : Value) : Prop := v <> Null.
Definition not_nan (v : Value) : Prop :=
  match v with Float bits => f64_is_nan bits = false | _ => True end.
Definition null_free (v : Value) : Prop := Forall not_null (scalars v).
Definition nan_free (v : Value) : Prop := Forall not_nan (scalars v).

Definition completion (v w : Value) : Prop := completes v w /\ null_free w /\ nan_free w.

Lemma all2_length {A B} (R : A -> B -> Prop) l l' : all2 R l l' -> length l = length l'.
Proof. revert l'. induction l as [|x l IH]; intros [|y l']; simpl; try done. intros [_ H]. f_equal; auto. Qed.

Lemma all2_keys {B C} (R : B -> C -> Prop) (m : list (bytes * B)) (m' : list (bytes * C)) :
  all2 (fun e e' => e.1 = e'.1 /\ R e.2 e'.2) m m' -> m.*1 = m'.*1.
Proof.
  revert m'. induction m as [|e m IH]; intros [|e' m']; simpl; try done.
  intros [[-> _] H]. f_equal; auto.
Qed.

(** The whole compound of two values of one shape. *)
Lemma equals_lists a b : equals (List a) (List b) =
  if Nat.eqb (length a) (length b) then all_equal equals a b false else Some false.
Proof. simpl. by destruct (Nat.eqb _ _). Qed.

Definition entry_equals (x y : bytes * Value) : option bool := equals x.2 y.2.

Lemma equals_maps a b : equals (Map a) (Map b) =
  if bool_decide (a.*1 = b.*1) then all_equal entry_equals a b false else Some false.
Proof. simpl. by destruct (bool_decide _). Qed.

(** ** A definite answer survives every completion *)

Lemma all_equal_mono {A} (eq : A -> A -> option bool) (R : A -> A -> Prop) l1 l2 l1' l2' u t :
  Forall (fun x => forall y x' y' t, R x x' -> R y y' -> eq x y = Some t -> eq x' y' = Some t) l1 ->
  all2 R l1 l1' -> all2 R l2 l2' ->
  all_equal eq l1 l2 u = Some t -> all_equal eq l1' l2' u = Some t.
Proof.
  intros H. revert l2 l1' l2' u.
  assert (forall l1 l2 l1' l2', Forall (fun x => forall y x' y' t, R x x' -> R y y' ->
    eq x y = Some t -> eq x' y' = Some t) l1 -> all2 R l1 l1' -> all2 R l2 l2' -> forall u u',
    (u' = true -> u = true) -> all_equal eq l1 l2 u = Some t -> all_equal eq l1' l2' u' = Some t) as Hgen.
  { clear. induction l1 as [|x l1 IH]; intros [|y l2] [|x' l1'] [|y' l2'] Hl H1 H2 u u' Hu; simpl in *; try done;
      try (by destruct u, u'; naive_solver).
    apply Forall_cons in Hl as [Hx Hl]. destruct H1 as [Hxx H1], H2 as [Hyy H2].
    specialize (Hx y x' y'). destruct (eq x y) as [[]|]; [|intros [= <-]|].
    - rewrite (Hx true) by done. by apply (IH l2).
    - by rewrite (Hx false).
    - intros Ht. destruct (eq x' y') as [[]|].
      + apply (IH l2 _ _ Hl H1 H2 true); [done|done].
      + assert (t = false) as ->; [|done]. clear -Ht. revert l2 Ht.
        induction l1 as [|x l1 IH]; intros [|y l2]; simpl; try done.
        destruct (eq x y) as [[]|]; [apply IH|by intros [= <-]|apply IH].
      + by apply (IH l2 _ _ Hl H1 H2 true). }
  intros l2 l1' l2' u H1 H2. by apply (Hgen l1 l2 l1' l2').
Qed.

Lemma equals_mono a : forall b a' b' t, completes a a' -> completes b b' ->
  equals a b = Some t -> equals a' b' = Some t.
Proof.
  induction a as [a Ha|l IH|m IH] using value_ind'; intros b a' b' t Hca Hcb.
  - destruct a; try done; simpl in Hca; subst a'; destruct b; simpl in Hcb; try subst b'; try done;
      destruct b'; try done.
  - destruct a' as [| | | | |l'| | |]; try done.
    destruct b as [| | | | |k| | |], b' as [| | | | |k'| | |]; simpl in Hcb; try done.
    rewrite !equals_lists.
    rewrite (all2_length _ _ _ Hca), (all2_length _ _ _ Hcb). destruct (Nat.eqb _ _); [|done].
    by apply (all_equal_mono _ completes).
  - destruct a' as [| | | | | |m'| |]; try done.
    destruct b as [| | | | | |k| |], b' as [| | | | | |k'| |]; simpl in Hcb; try done.
    rewrite !equals_maps.
    rewrite (all2_keys _ _ _ Hca), (all2_keys _ _ _ Hcb). destruct (bool_decide _); [|done].
    apply (all_equal_mono _ (fun e e' => e.1 = e'.1 /\ completes e.2 e'.2)); [|done|done].
    eapply Forall_impl; [done|]. intros e He y x' y' t' [_ Hx] [_ Hy]. by apply He.
Qed.

(** ** Equality is symmetric, and reflexive on definite values *)

Lemma all_equal_sym {A} (eq : A -> A -> option bool) l l' u :
  Forall (fun x => forall y, eq x y = eq y x) l -> all_equal eq l l' u = all_equal eq l' l u.
Proof.
  intros H. revert l' u. induction H as [|x l Hx _ IH]; intros [|y l'] u; simpl; try done.
  rewrite Hx. destruct (eq y x) as [[]|]; auto.
Qed.

Lemma number_cmp_sym a b : number_cmp b a = CompOpp <$> number_cmp a b.
Proof.
  unfold number_cmp. destruct (number a) as [l|], (number b) as [r|]; try done. simpl. f_equal.
  apply (cmp_sym (cmp := Canonical.cmp)).
Qed.

Lemma numeric_equals_sym a b :
  bool_decide (number_cmp a b = Some Eq) = bool_decide (number_cmp b a = Some Eq).
Proof.
  apply bool_decide_ext. rewrite (number_cmp_sym a b). by destruct (number_cmp a b) as [[]|].
Qed.

Lemma bytes_eqb_sym a b : Property.bytes_eqb a b = Property.bytes_eqb b a.
Proof. apply eq_true_iff_eq. rewrite !Property.bytes_eqb_eq. naive_solver. Qed.

Lemma equals_sym a b : equals a b = equals b a.
Proof.
  revert b. induction a as [a Ha|l IH|m IH] using value_ind'; intros b.
  - destruct a as [|x|x|x|x|x|x|x|x]; try (by destruct Ha); destruct b as [|y|y|y|y|y|y|y|y]; try reflexivity;
      simpl; f_equal; try (by apply numeric_equals_sym).
    + by destruct x, y.
    + apply bytes_eqb_sym.
    + apply bool_decide_ext. naive_solver.
    + apply bool_decide_ext. naive_solver.
  - destruct b as [| | | | |k| | |]; try reflexivity. rewrite !equals_lists, Nat.eqb_sym.
    destruct (Nat.eqb _ _); [|done]. by apply all_equal_sym.
  - destruct b as [| | | | | |k| |]; try reflexivity. rewrite !equals_maps.
    rewrite (bool_decide_ext (k.*1 = m.*1) (m.*1 = k.*1)) by naive_solver.
    destruct (bool_decide _); [|done]. apply all_equal_sym.
    eapply Forall_impl; [done|]. intros e He y. apply He.
Qed.

Lemma all_equal_true {A} (eq : A -> A -> option bool) l l' : length l = length l' ->
  all_equal eq l l' false = Some true <-> Forall2 (fun x y => eq x y = Some true) l l'.
Proof.
  intros Hlen.
  assert (forall l l', all_equal eq l l' true <> Some true) as Hu.
  { clear. induction l as [|x l IH]; intros [|y l']; simpl; try done. destruct (eq x y) as [[]|]; auto. }
  revert l' Hlen. induction l as [|x l IH]; intros [|y l'] Hlen; try discriminate Hlen; simpl.
  - split; [intros _; constructor|reflexivity].
  - injection Hlen as Hlen. rewrite Forall2_cons. destruct (eq x y) as [[]|] eqn:E.
    + rewrite IH by done. naive_solver.
    + naive_solver.
    + split; [intros H; by apply Hu in H|naive_solver].
Qed.

(** On definite values, equality is the equivalence of the total order. *)
Lemma forall2_lex {A} (c : A -> A -> comparison) l l' :
  lex_compare c l l' = Eq <-> Forall2 (fun x y => c x y = Eq) l l'.
Proof.
  revert l'. induction l as [|x l IH]; intros [|y l']; simpl.
  - split; [intros _; constructor|done].
  - split; [done|inversion 1].
  - split; [done|inversion 1].
  - rewrite then_with_eq, IH, Forall2_cons. done.
Qed.

Lemma Forall2_iff_l {A B} (P Q : A -> B -> Prop) l l' :
  Forall (fun x => forall y, y ∈ l' -> P x y <-> Q x y) l -> Forall2 P l l' <-> Forall2 Q l l'.
Proof.
  intros H. revert l' H. induction l as [|x l IH]; intros [|y l'] H.
  - split; intros _; constructor.
  - split; inversion 1.
  - split; inversion 1.
  - apply Forall_cons in H as [Hx H]. rewrite !Forall2_cons, (Hx y) by left. rewrite IH; [done|].
    eapply Forall_impl; [done|]. intros z Hz w Hw. apply Hz. by right.
Qed.

Lemma maps_zip (m k : list (bytes * Value)) :
  (m.*1 = k.*1 /\ Forall2 (fun x y => total_cmp x.2 y.2 = Eq) m k) <-> map_cmp total_cmp m k = Eq.
Proof.
  unfold map_cmp. rewrite !then_with_eq, Nat.compare_eq_iff,
    (forall2_lex (fun x y : bytes * Value => total_cmp x.2 y.2)). split.
  - intros [E H]. split_and!; [by apply Forall2_length in H|rewrite E; apply (cmp_refl (cmp := lex_compare bytes_cmp))|done].
  - intros (_ & E & H). split; [by apply (cmp_eq (cmp := lex_compare bytes_cmp))|done].
Qed.

Lemma some_true (b : bool) : Some b = Some true <-> b = true.
Proof. split; [by intros [= ->]|by intros ->]. Qed.

Lemma equals_total a : forall b, null_free a -> null_free b -> nan_free a ->
  equals a b = Some true <-> total_cmp a b = Eq.
Proof.
  induction a as [a Ha|l IH|m IH] using value_ind'; intros b Na Nb Fa.
  - assert (forall v w, rank v = 7 -> rank w = 7 -> not_nan v ->
      Some (bool_decide (number_cmp v w = Some Eq)) = Some true <-> numeric_cmp v w = Eq) as Hn.
    { intros v w Hv Hw Hnan. rewrite numeric_cmp_number by done. unfold number_cmp.
      assert (number v <> None) as Hs.
      { destruct v as [| |z|z| | | |[]|]; try discriminate Hv; [done|]. simpl in *.
        rewrite f64_is_nan_eq in Hnan. by destruct (Canonical.from_f64 z). }
      rewrite some_true, bool_decide_eq_true. destruct (number v) as [n|]; [|done].
      destruct (number w); simpl; [|done]. split; [by intros [= ->]|by intros ->]. }
    unfold null_free, nan_free in *.
    destruct a as [|x|x|x|x|x|x|x|x]; try (by destruct Ha); simpl in Na, Fa;
      try (rewrite Forall_singleton in Na; by exfalso; apply Na); rewrite Forall_singleton in Fa;
      destruct b as [|y|y|y|y|y|y|y|y]; try (by apply Hn);
      try (rewrite Forall_singleton in Nb; by exfalso; apply Nb);
      try (split; [discriminate|try destruct x; try destruct y; discriminate]); simpl;
      rewrite some_true, ?bool_decide_eq_true.
    + by destruct x, y.
    + rewrite Property.bytes_eqb_eq. split; [intros ->; apply cmp_refl|apply cmp_eq].
    + split; [intros ->; apply cmp_refl|apply cmp_eq].
    + split; [intros ->; apply cmp_refl|apply cmp_eq].
  - destruct b as [| | | | |k| |[]|]; try (split; discriminate).
    rewrite equals_lists. change (total_cmp (List l) (List k)) with (compare_lists total_cmp l k).
    rewrite compare_lists_lex. apply scalars_list in Na, Nb, Fa.
    destruct (Nat.eqb_spec (length l) (length k)) as [E|E].
    + rewrite all_equal_true, forall2_lex by done. apply Forall2_iff_l, Forall_forall.
      intros x Hx y Hy. rewrite Forall_forall in IH, Na, Nb, Fa.
      apply (IH x Hx y); [by apply Na|by apply Nb|by apply Fa].
    + split; [done|]. by intros H%lex_eq_length.
  - destruct b as [| | | | | |k|[]|]; try (split; discriminate).
    rewrite equals_maps. cbn [total_cmp]. rewrite map_cmp_zip, <- maps_zip.
    apply scalars_map in Na, Nb, Fa. case_bool_decide as E.
    + assert (length m = length k) as Hlen by (by rewrite <- (length_fmap fst m), E, length_fmap).
      rewrite all_equal_true by done.
      assert (Forall2 (fun x y => entry_equals x y = Some true) m k <->
        Forall2 (fun x y => total_cmp x.2 y.2 = Eq) m k) as ->; [|tauto].
      apply Forall2_iff_l, Forall_forall. intros x Hx y Hy. rewrite Forall_forall in IH, Na, Nb, Fa.
      apply (IH x Hx y.2); [by apply Na|by apply Nb|by apply Fa].
    + split; [done|]. by intros [? _].
Qed.

(** ** An unknown answer can still go either way *)

Fixpoint fill (v : Value) : Value :=
  match v with
  | Null => Boolean true
  | List l => List (map fill l)
  | Map m => Map (map (fun e => (e.1, fill e.2)) m)
  | v => v
  end.

Lemma fill_completion v : nan_free v -> completion v (fill v).
Proof.
  unfold completion. induction v as [v Hv|l IH|m IH] using value_ind'; intros Hn.
  - unfold null_free, nan_free in *. destruct v; try (by destruct Hv); simpl in *; rewrite ?Forall_singleton in *;
      by split_and!.
  - unfold null_free, nan_free in *. rewrite scalars_list in Hn. cbn [fill].
    rewrite !scalars_list, !Forall_map. clear -IH Hn.
    induction l as [|v l IHl]; [by split_and!|]. apply Forall_cons in IH as [Hv IH], Hn as [Nv Hn].
    destruct (Hv Nv) as (? & ? & ?). destruct (IHl IH Hn) as (? & ? & ?).
    split_and!; [by split|by constructor|by constructor].
  - unfold null_free, nan_free in *. rewrite scalars_map in Hn. cbn [fill].
    rewrite !scalars_map, !Forall_map. clear -IH Hn.
    induction m as [|[k v] m IHm]; [by split_and!|]. apply Forall_cons in IH as [Hv IH], Hn as [Nv Hn].
    destruct (Hv Nv) as (? & ? & ?). destruct (IHm IH Hn) as (? & ? & ?).
    split_and!; [by split|by constructor|by constructor].
Qed.

(** Answer [t] is still open for the pair. *)
Definition open {A} (R : A -> A -> Prop) (eq : A -> A -> option bool) (x y : A) (t : bool) : Prop :=
  exists x' y', R x x' /\ R y y' /\ eq x' y' = Some t.

Section Open.
Context {A : Type} (R : A -> A -> Prop) (eq : A -> A -> option bool).

(** Every answer a pair does not exclude is open for it. *)
Definition pairs_open (l1 l2 : list A) : Prop :=
  Forall (fun x => forall y, y ∈ l2 -> forall t, eq x y <> Some (negb t) -> open R eq x y t) l1.

Lemma pairs_open_cons x y l1 l2 : pairs_open (x :: l1) (y :: l2) ->
  (forall t, eq x y <> Some (negb t) -> open R eq x y t) /\ pairs_open l1 l2.
Proof.
  intros [Hx H]%Forall_cons. split; [intros t; apply Hx; left|].
  eapply Forall_impl; [exact H|]. intros z Hz w Hw. apply Hz. by right.
Qed.

Lemma all_equal_complete l1 l2 : pairs_open l1 l2 -> length l1 = length l2 ->
  exists l1' l2', all2 R l1 l1' /\ all2 R l2 l2'.
Proof.
  revert l2. induction l1 as [|x l1 IH]; intros [|y l2] H Hlen; try discriminate Hlen; [by exists [], []|].
  apply pairs_open_cons in H as [Hx H]. injection Hlen as Hlen. destruct (IH l2 H Hlen) as (l1' & l2' & ? & ?).
  assert (exists t, eq x y <> Some (negb t)) as [t Ht].
  { destruct (eq x y) as [[]|]; [exists true|exists false|exists true]; discriminate. }
  destruct (Hx t Ht) as (x' & y' & ? & ? & _). by exists (x' :: l1'), (y' :: l2').
Qed.

Lemma all_equal_open_true l1 l2 u : pairs_open l1 l2 -> length l1 = length l2 -> all_equal eq l1 l2 u = None ->
  exists l1' l2', all2 R l1 l1' /\ all2 R l2 l2' /\ all_equal eq l1' l2' false = Some true.
Proof.
  revert l2 u. induction l1 as [|x l1 IH]; intros [|y l2] u H Hlen Hu; try discriminate Hlen; [by exists [], []|].
  apply pairs_open_cons in H as [Hx H]. injection Hlen as Hlen. simpl in Hu.
  destruct (Hx true) as (x' & y' & ? & ? & E); [by intros E; rewrite E in Hu|].
  destruct (IH l2 (if eq x y then u else true) H Hlen) as (l1' & l2' & ? & ? & E').
  { by destruct (eq x y) as [[]|]. }
  exists (x' :: l1'), (y' :: l2'). simpl. by rewrite E.
Qed.

Lemma all_equal_open_false l1 l2 : pairs_open l1 l2 -> length l1 = length l2 -> all_equal eq l1 l2 false = None ->
  exists l1' l2', all2 R l1 l1' /\ all2 R l2 l2' /\ all_equal eq l1' l2' false = Some false.
Proof.
  revert l2. induction l1 as [|x l1 IH]; intros [|y l2] H Hlen Hu; try discriminate Hlen; [done|].
  apply pairs_open_cons in H as [Hx H]. injection Hlen as Hlen. simpl in Hu.
  destruct (eq x y) as [[]|] eqn:Exy; [|done|].
  - destruct (Hx true) as (x' & y' & ? & ? & E); [done|].
    destruct (IH l2 H Hlen Hu) as (l1' & l2' & ? & ? & E').
    exists (x' :: l1'), (y' :: l2'). simpl. by rewrite E.
  - destruct (Hx false) as (x' & y' & ? & ? & E); [done|].
    destruct (all_equal_complete l1 l2 H Hlen) as (l1' & l2' & ? & ?).
    exists (x' :: l1'), (y' :: l2'). simpl. by rewrite E.
Qed.

Lemma all_equal_open l1 l2 t : pairs_open l1 l2 -> length l1 = length l2 -> all_equal eq l1 l2 false = None ->
  open (all2 R) (fun l1 l2 => all_equal eq l1 l2 false) l1 l2 t.
Proof. destruct t; [apply all_equal_open_true|apply all_equal_open_false]. Qed.
End Open.

(** A null side can be completed to match a definite value, or not to. *)
Lemma null_open w t : null_free w -> nan_free w ->
  exists v, null_free v /\ nan_free v /\ equals v w = Some t.
Proof.
  intros Hw Hn. destruct t.
  - exists w. split_and!; [done..|]. apply equals_total; [done..|]. apply cmp_refl.
  - exists (match w with Boolean _ => Integer 0 | _ => Boolean true end).
    unfold null_free, nan_free in *.
    destruct w; split_and!; try (by repeat constructor); try reflexivity.
    apply Forall_inv in Hw. by destruct (Hw eq_refl).
Qed.

Lemma completion_list l l' : all2 completion l l' <-> completion (List l) (List l').
Proof.
  unfold completion, null_free, nan_free. rewrite !scalars_list. cbn [completes].
  revert l'. induction l as [|x l IH]; intros [|y l']; cbn [all2];
    [by split; [intros _; split_and!|]|by split; [|intros [[] _]]..|].
  rewrite !Forall_cons, IH. tauto.
Qed.

Definition entry_completion (e e' : bytes * Value) : Prop := e.1 = e'.1 /\ completion e.2 e'.2.

Lemma completion_map m m' : all2 entry_completion m m' <-> completion (Map m) (Map m').
Proof.
  unfold entry_completion, completion, null_free, nan_free. rewrite !scalars_map. cbn [completes].
  revert m'. induction m as [|x m IH]; intros [|y m']; cbn [all2];
    [by split; [intros _; split_and!|]|by split; [|intros [[] _]]..|].
  rewrite !Forall_cons, IH. tauto.
Qed.

Definition value_open (a b : Value) : Prop :=
  forall t, equals a b <> Some (negb t) -> open completion equals a b t.

Lemma value_open_none a b : nan_free a -> nan_free b ->
  (equals a b = None -> forall t, open completion equals a b t) -> value_open a b.
Proof.
  intros Ha Hb H t Ht. destruct (equals a b) as [u|] eqn:E; [|by apply H].
  assert (u = t) as -> by (destruct u, t; try done; by destruct Ht).
  pose proof (fill_completion a Ha) as Ca. pose proof (fill_completion b Hb) as Cb.
  exists (fill a), (fill b). split_and!; [done..|].
  apply (equals_mono a b); [apply Ca|apply Cb|done].
Qed.

Lemma value_open_null b : nan_free b -> value_open Null b.
Proof.
  intros Hb. apply value_open_none; [repeat constructor|done|]. intros _ t.
  pose proof (fill_completion b Hb) as (Hc & Hf & Hn).
  destruct (null_open (fill b) t Hf Hn) as (v & Vf & Vn & E). by exists v, (fill b).
Qed.

Lemma value_open_sym a b : value_open a b -> value_open b a.
Proof.
  intros H t Ht. rewrite equals_sym in Ht. destruct (H t Ht) as (a' & b' & ? & ? & E).
  exists b', a'. by rewrite equals_sym.
Qed.

Lemma equals_open a : nan_free a -> forall b, nan_free b -> value_open a b.
Proof.
  induction a as [a Hs|l IH|m IH] using value_ind'; intros Ha b Hb;
    (assert (b = Null \/ b <> Null) as [->|Hnull] by (destruct b; auto); [by apply value_open_sym, value_open_null|]).
  - destruct a; try (by destruct Hs); [by apply value_open_null|..];
      (apply value_open_none; [done..|]; destruct b; try done).
  - apply value_open_none; [done..|]. intros E t. destruct b as [| | | | |k| | |]; try done.
    rewrite equals_lists in E. destruct (Nat.eqb_spec (length l) (length k)) as [Hlen|]; [|done].
    apply scalars_list in Ha as Ha', Hb as Hb'.
    destruct (all_equal_open completion equals l k t) as (l' & k' & Cl & Ck & Et); [|done..|].
    { apply Forall_forall. rewrite Forall_forall in IH, Ha', Hb'. intros x Hx y Hy. apply (IH x Hx); [by apply Ha'|by apply Hb']. }
    exists (List l'), (List k'). split_and!; [by apply completion_list..|].
    rewrite equals_lists, Et. rewrite <- (all2_length _ _ _ Cl), <- (all2_length _ _ _ Ck).
    by rewrite (proj2 (Nat.eqb_eq _ _) Hlen).
  - apply value_open_none; [done..|]. intros E t. destruct b as [| | | | | |k| |]; try done.
    rewrite equals_maps in E. case_bool_decide as Hkeys; [|done].
    apply scalars_map in Ha as Ha', Hb as Hb'.
    destruct (all_equal_open entry_completion entry_equals m k t) as (m' & k' & Cm & Ck & Et); [..|done|].
    { apply Forall_forall. rewrite Forall_forall in IH, Ha', Hb'. intros x Hx y Hy u Hu.
      destruct (IH x Hx (Ha' x Hx) y.2 (Hb' y Hy) u Hu) as (v & w & ? & ? & ?).
      by exists (x.1, v), (y.1, w). }
    { by rewrite <- (length_fmap fst m), Hkeys, length_fmap. }
    exists (Map m'), (Map k'). split_and!; [by apply completion_map..|].
    rewrite equals_maps, Et. unfold entry_completion in *.
    rewrite <- (all2_keys _ _ _ Cm), <- (all2_keys _ _ _ Ck). by rewrite bool_decide_true.
Qed.

Lemma all_equal_definite {A} (eq : A -> A -> option bool) l l' :
  Forall (fun x => forall y, y ∈ l' -> eq x y <> None) l -> all_equal eq l l' false <> None.
Proof.
  revert l'. induction l as [|x l IH]; intros [|y l'] H; simpl; try done.
  apply Forall_cons in H as [Hx H]. specialize (Hx y ltac:(left)). destruct (eq x y) as [[]|]; try done.
  apply IH. eapply Forall_impl; [exact H|]. intros z Hz w Hw. apply Hz. by right.
Qed.

Lemma equals_definite a : null_free a -> forall b, null_free b -> equals a b <> None.
Proof.
  induction a as [a Hs|l IH|m IH] using value_ind'; intros Ha b Hb.
  - destruct b as [|y|y|y|y|y|y|y|y]; [by apply Forall_inv in Hb|..];
      (destruct a as [|x|x|x|x|x|x|x|x]; try (by destruct Hs); try discriminate; by apply Forall_inv in Ha).
  - destruct b as [| | | | |k| | |]; try discriminate; [by apply Forall_inv in Hb|].
    rewrite equals_lists. destruct (Nat.eqb _ _); [|done]. apply scalars_list in Ha, Hb.
    apply all_equal_definite, Forall_forall. rewrite Forall_forall in IH, Ha, Hb.
    intros x Hx y Hy. apply (IH x Hx); [by apply Ha|by apply Hb].
  - destruct b as [| | | | | |k| |]; try discriminate; [by apply Forall_inv in Hb|].
    rewrite equals_maps. destruct (bool_decide _); [|done]. apply scalars_map in Ha, Hb.
    apply all_equal_definite, Forall_forall. rewrite Forall_forall in IH, Ha, Hb.
    intros x Hx y Hy. apply (IH x Hx); [by apply Ha|by apply Hb].
Qed.

(** Values that are equal hold no NaN. *)
Lemma equals_nan_free a : forall b, equals a b = Some true -> nan_free a.
Proof.
  induction a as [a Hs|l IH|m IH] using value_ind'; intros b H; unfold nan_free in *.
  - destruct a as [|x|x|x|x|x|x|x|x]; try (by destruct Hs); try (by repeat constructor). apply Forall_singleton. cbn [not_nan].
    rewrite f64_is_nan_eq. destruct b as [| |y|y| | | | |]; try done; cbn [equals] in H; apply some_true, bool_decide_eq_true in H;
      unfold number_cmp in H; cbn [number] in H; by destruct (Canonical.from_f64 x).
  - destruct b as [| | | | |k| | |]; try done. rewrite equals_lists in H. destruct (Nat.eqb_spec (length l) (length k)) as [E|]; [|done].
    apply all_equal_true in H; [|done]. apply scalars_list. clear E. induction H as [|x y l k Hx _ IHl]; constructor.
    + apply Forall_inv in IH. by apply (IH y).
    + apply IHl. by apply Forall_inv_tail in IH.
  - destruct b as [| | | | | |k| |]; try done. rewrite equals_maps in H. case_bool_decide as E; [|done].
    apply all_equal_true in H; [|by rewrite <- (length_fmap fst m), E, length_fmap]. apply scalars_map. clear E.
    induction H as [|x y m k Hx _ IHm]; constructor.
    + apply Forall_inv in IH. by apply (IH y.2).
    + apply IHm. by apply Forall_inv_tail in IH.
Qed.

(** On definite values: equal in the total order, where no NaN is held. *)
Lemma equals_definite_iff a b : null_free a -> null_free b ->
  (equals a b = Some true <-> total_cmp a b = Eq /\ nan_free a) /\ (equals a b = Some false <-> ~ (total_cmp a b = Eq /\ nan_free a)).
Proof.
  intros Fa Fb. assert (equals a b = Some true <-> total_cmp a b = Eq /\ nan_free a) as H.
  { split; [intros E; pose proof (equals_nan_free a b E); split; [by apply equals_total|done]|intros [E Hn]; by apply equals_total]. }
  split; [exact H|]. rewrite <- H. pose proof (equals_definite a Fa b Fb). by destruct (equals a b) as [[]|].
Qed.

(** [C33] Predicate equality is three-valued logic. On values without nulls it is definite: true exactly where the
    order of sorting and grouping has the two equal and neither holds a NaN (which is equal to nothing, itself
    included), and false otherwise. On any values a definite answer is the answer of every way of replacing their
    nulls, at any depth, by values without nulls; and where neither side holds a NaN the converse holds as well, so
    that null is returned exactly when the answer is still open. *)
Theorem equals_exact a b :
  (null_free a -> null_free b ->
    (equals a b = Some true <-> total_cmp a b = Eq /\ nan_free a) /\ (equals a b = Some false <-> ~ (total_cmp a b = Eq /\ nan_free a))) /\
  (forall t, equals a b = Some t ->
    forall a' b', completes a a' -> null_free a' -> completes b b' -> null_free b' -> equals a' b' = Some t) /\
  (nan_free a -> nan_free b -> forall t, equals a b = Some t <->
    forall a' b', completion a a' -> completion b b' -> equals a' b' = Some t).
Proof.
  split; [apply equals_definite_iff|]. split.
  - intros t E a' b' Ca _ Cb _. by apply (equals_mono a b).
  - intros Ha Hb t. split.
    + intros E a' b' (Ca & _) (Cb & _). by apply (equals_mono a b).
    + intros H. destruct (decide (equals a b = Some t)) as [|E]; [done|].
      destruct (equals_open a Ha b Hb (negb t)) as (a' & b' & Ca & Cb & E'); [by rewrite negb_involutive|].
      rewrite (H a' b') in E' by done. by destruct t.
Qed.

Definition sample_left : Value := List [Integer 1; Null; Map [([107], Float 0)]].
Definition sample_right : Value := List [Float 0x3FF0000000000000; Str [120]; Map [([107], Integer 0)]].

Lemma equals_exact_witness :
  (nan_free sample_left /\ nan_free sample_right) /\ equals sample_left sample_right = None /\
  ~ (forall a' b', completion sample_left a' -> completion sample_right b' -> equals a' b' = Some true) /\
  ~ (forall a' b', completion sample_left a' -> completion sample_right b' -> equals a' b' = Some false).
Proof.
  assert (nan_free sample_left) as Ha by (repeat constructor).
  assert (nan_free sample_right) as Hb by (repeat constructor).
  assert (equals sample_left sample_right = None) as E by (vm_compute; reflexivity).
  destruct (equals_exact sample_left sample_right) as (_ & _ & H). specialize (H Ha Hb).
  split; [by split|]. split; [done|].
  split; intros Hall; apply H in Hall; rewrite E in Hall; discriminate.
Defined.

End QueryEquals.
