(* ===== verification/QueryShape.v ===== *)
(** The structural limits of query values, [check_shape] of
    crates/planner/src/relational/value.rs, against the height, the item count
    and the longest list of a value. *)
From S2P Require Import Prelude Bytes ValueSemantics Property QueryValue.

Open Scope Z_scope.

Module QueryShape.
Export QueryValue.

Definition zsum : list Z -> Z := foldr Z.add 0.
Definition zmax : list Z -> Z := foldr Z.max 0.

(** Levels of nesting, scalars being one. *)
Fixpoint height (v : Value) : Z :=
  match v with
  | List l => 1 + zmax (map height l)
  | Map m => 1 + zmax (map (fun e => height e.2) m)
  | _ => 1
  end.

(** Values at any depth, compounds included. *)
Fixpoint items (v : Value) : Z :=
  match v with
  | List l => 1 + zsum (map items l)
  | Map m => 1 + zsum (map (fun e => items e.2) m)
  | _ => 1
  end.

Fixpoint longest (v : Value) : Z :=
  match v with
  | List l => Z.max (Z.of_nat (length l)) (zmax (map longest l))
  | Map m => zmax (map (fun e => longest e.2) m)
  | _ => 0
  end.

Lemma zmax_nonneg l : 0 <= zmax l.
Proof. induction l; simpl; lia. Qed.

Lemma zmax_le l n : 0 <= n -> zmax l <= n <-> Forall (fun x => x <= n) l.
Proof.
  intros Hn. induction l as [|x l IH]; simpl; [by split|]. rewrite Forall_cons, <- IH. lia.
Qed.

Lemma height_pos v : 1 <= height v.
Proof.
  assert (forall l, 0 <= zmax l) as H by (induction l; simpl; lia).
  destruct v; simpl; try lia;
    match goal with |- context [zmax ?l] => specialize (H l); lia end.
Qed.

Lemma items_pos v : 1 <= items v.
Proof.
  assert (forall {A} (f : A -> Z) l, Forall (fun x => 1 <= f x) l -> 0 <= zsum (map f l)) as H.
  { intros A f l. induction 1; simpl; lia. }
  induction v as [v Hs|l IH|m IH] using value_ind'; [by destruct v|..];
    apply H in IH; simpl; lia.
Qed.

(** The budget threads: everything fits, and what is left is the difference. *)
Definition shape_spec (depth max remaining : Z) (v : Value) (r : Z) : Prop :=
  depth + height v <= MAX_EXPRESSION_DEPTH /\ longest v <= max /\
  items v <= remaining /\ r = remaining - items v.

Definition shape_exact (v : Value) : Prop := forall depth max remaining r, 0 <= max -> 0 <= remaining ->
  check_shape v depth max remaining = Ok r <-> shape_spec depth max remaining v r.

Lemma try_each_shape {A} (p : A -> Value) l depth max remaining r :
  0 <= max -> 0 <= remaining -> 0 <= MAX_EXPRESSION_DEPTH - depth -> Forall (fun x => shape_exact (p x)) l ->
  try_each (fun x => check_shape (p x) depth max) l remaining = Ok r <->
  depth + zmax (map (fun x => height (p x)) l) <= MAX_EXPRESSION_DEPTH /\
  zmax (map (fun x => longest (p x)) l) <= max /\
  zsum (map (fun x => items (p x)) l) <= remaining /\
  r = remaining - zsum (map (fun x => items (p x)) l).
Proof.
  intros Hmax Hr Hd H. revert remaining Hr. induction H as [|x l Hx Hl IH]; intros remaining Hr; simpl.
  - split; [intros [= ->]; lia|]. intros (_ & _ & _ & ->). f_equal. lia.
  - assert (0 <= zsum (map (fun x => items (p x)) l)) as Hpos.
    { clear. induction l as [|y l IH]; simpl; [lia|]. pose proof (items_pos (p y)). lia. }
    pose proof (items_pos (p x)). specialize (Hx depth max remaining). unfold shape_spec in Hx.
    destruct (check_shape (p x) depth max remaining) as [r'|e] eqn:E; simpl.
    + destruct (proj1 (Hx r' Hmax Hr) eq_refl) as (? & ? & ? & ->). rewrite IH by lia. lia.
    + split; [done|]. intros (? & ? & ? & ->).
      specialize (Hx (remaining - items (p x)) Hmax Hr). destruct Hx as [_ Hx].
      discriminate Hx. lia.
Qed.

Lemma check_shape_exact v : shape_exact v.
Proof.
  induction v as [v Hs|l IH|m IH] using value_ind'; intros depth max remaining r Hmax Hr; unfold shape_spec.
  - assert (height v = 1 /\ items v = 1 /\ longest v = 0) as (-> & -> & ->) by (by destruct v).
    assert (check_shape v depth max remaining =
      if (MAX_EXPRESSION_DEPTH <=? depth) || (remaining =? 0) then Err Structure else Ok (remaining - 1)) as ->
      by (by destruct v).
    destruct (Z.leb_spec MAX_EXPRESSION_DEPTH depth), (Z.eqb_spec remaining 0); simpl; try (split; [done|lia]).
    split; [intros [= <-]; lia|]. intros (_ & _ & _ & ->). done.
  - pose proof (height_pos (List l)). pose proof (items_pos (List l)). cbn [check_shape].
    destruct (Z.leb_spec MAX_EXPRESSION_DEPTH depth), (Z.eqb_spec remaining 0); cbn [orb]; try (split; [done|lia]).
    cbn [height items longest]. destruct (Z.ltb_spec max (Z.of_nat (length l))); [split; [done|lia]|].
    rewrite (try_each_shape (fun v => v)) by (try done; lia).
    change (map (fun v => height v) l) with (map height l). change (map (fun v => longest v) l) with (map longest l).
    change (map (fun v => items v) l) with (map items l). lia.
  - pose proof (height_pos (Map m)). pose proof (items_pos (Map m)). cbn [check_shape].
    destruct (Z.leb_spec MAX_EXPRESSION_DEPTH depth), (Z.eqb_spec remaining 0); cbn [orb]; try (split; [done|lia]).
    cbn [height items longest].
    rewrite (try_each_shape (fun e : bytes * Value => e.2)) by (try done; lia). lia.
Qed.

Lemma shape_accepts v depth max remaining : 0 <= max ->
  depth + height v <= 48 -> longest v <= max -> items v <= remaining ->
  check_shape v depth max remaining = Ok (remaining - items v).
Proof.
  intros. pose proof (items_pos v). apply check_shape_exact; [done|lia|].
  unfold shape_spec, MAX_EXPRESSION_DEPTH. lia.
Qed.

(** A check that only asks whether the value fits. *)
Lemma shape_ok v depth max remaining : 0 <= max -> 0 <= remaining ->
  is_ok (check_shape v depth max remaining) = true <->
  depth + height v <= 48 /\ longest v <= max /\ items v <= remaining.
Proof.
  intros Hm Hr. split.
  - destruct (check_shape v depth max remaining) as [r|] eqn:E; [|done].
    intros _. apply check_shape_exact in E; [|done..]. unfold shape_spec, MAX_EXPRESSION_DEPTH in E. lia.
  - intros (? & ? & ?). by rewrite shape_accepts.
Qed.

Lemma check_columns_exact l remaining : 0 <= remaining -> Forall (fun v => longest v <= umax 64) l ->
  check_columns l remaining = true <-> Forall (fun v => height v <= 48) l /\ zsum (map items l) <= remaining.
Proof.
  intros Hr H. revert remaining Hr. induction H as [|v l Hv Hl IH]; intros remaining Hr; simpl; [split; [by split|done]|].
  rewrite Forall_cons. assert (0 <= zsum (map items l)) as Hpos.
  { clear. induction l as [|y l IH]; simpl; [lia|]. pose proof (items_pos y). lia. }
  pose proof (shape_ok v 0 (umax 64) remaining ltac:(done) Hr) as Hok.
  destruct (check_shape v 0 (umax 64) remaining) as [r|] eqn:E.
  - apply check_shape_exact in E as (? & _ & ? & ->); [|done..].
    rewrite IH by lia. unfold MAX_EXPRESSION_DEPTH in *. intuition lia.
  - split; [done|]. intros ((? & ?) & ?). apply Hok. lia.
Qed.

(** A validator succeeds when its check does. *)
Ltac case_shape :=
  match goal with
  | |- context [is_ok (check_shape ?v ?d ?m ?r)] =>
      pose proof (shape_ok v d m r ltac:(done) ltac:(lia)) as Hok;
      destruct (is_ok (check_shape v d m r));
      (split; [first [intros _; pose proof (proj1 Hok eq_refl)|discriminate]
              |intros ?; first [reflexivity|enough (false = true) by discriminate; apply Hok]])
  end.

(** No list is longer than the value has items. *)
Lemma zsum_bound l m : Forall2 (fun x y => x <= y) l m -> Forall (fun y => 1 <= y) m -> zmax l <= zsum m /\ Z.of_nat (length m) <= zsum m.
Proof.
  induction 1 as [|x y l m Hx _ IH]; [unfold zmax, zsum; cbn; lia|].
  intros [Hy Hm]%Forall_cons. apply IH in Hm. unfold zmax, zsum in *. cbn [foldr length] in *. lia.
Qed.

Lemma longest_items v : longest v <= items v.
Proof.
  induction v as [v Hs|l IH|m IH] using value_ind'.
  - pose proof (items_pos v). destruct v; try (by destruct Hs); cbn [longest]; lia.
  - cbn [longest items]. destruct (zsum_bound (map longest l) (map items l)) as [H1 H2]; [| |rewrite length_map in H2; lia].
    + induction IH as [|v l Hv _ IH]; by constructor.
    + apply Forall_map, Forall_forall. intros v _. apply items_pos.
  - cbn [longest items]. destruct (zsum_bound (map (fun e => longest e.2) m) (map (fun e => items e.2) m)) as [H1 H2]; [| |lia].
    + induction IH as [|v m Hv _ IH]; by constructor.
    + apply Forall_map, Forall_forall. intros v _. apply items_pos.
Qed.

Lemma validate_shape_iff v : validate_shape v = Ok tt <-> height v <= 48 /\ items v <= 200000.
Proof. pose proof (longest_items v). unfold validate_shape. case_shape; unfold umax in *; lia. Qed.

Lemma runtime_shape_iff v depth : validate_runtime_shape v depth 200000 = Ok tt <-> depth + height v <= 48 /\ items v <= 200000.
Proof. pose proof (longest_items v). unfold validate_runtime_shape. case_shape; unfold umax in *; lia. Qed.

(** The structural checks measure exactly what they name: with any nesting
    offset, list bound and item budget, [check_shape] succeeds precisely when
    the offset plus the height stays within 48 levels, every list within its
    bound and the items within the budget, and then returns what is left; so a
    literal is accepted precisely up to 48 levels and 200,000 items, a runtime
    value up to the remaining levels and the given items, and grouping columns
    share one budget of 199,999 items. *)
Theorem shape_limits_exact (v : Value) :
  (forall depth max remaining r, 0 <= max -> 0 <= remaining ->
    check_shape v depth max remaining = Ok r <->
    depth + height v <= MAX_EXPRESSION_DEPTH /\ longest v <= max /\
    items v <= remaining /\ r = remaining - items v) /\
  (longest v <= umax 64 ->
    (validate_shape v = Ok tt <-> height v <= 48 /\ items v <= 200000) /\
    (forall depth max_items, 0 <= max_items ->
      validate_runtime_shape v depth max_items = Ok tt <-> depth + height v <= 48 /\ items v <= max_items)) /\
  (items v <= umax 64 -> forall depth max_items, 0 <= max_items ->
    validate_collections v depth max_items = Ok tt <-> depth + height v <= 48 /\ longest v <= max_items) /\
  (forall l, Forall (fun v => longest v <= umax 64) l ->
    grouping_row l = Ok {| key_value := List l |} <->
    Forall (fun v => height v <= 48) l /\ zsum (map items l) <= 199999).
Proof.
  split; [intros; by apply check_shape_exact|]. split_and!.
  - intros Hl. split; intros; unfold validate_shape, validate_runtime_shape, validate_depth; case_shape; lia.
  - intros Hi depth max_items Hmax. unfold validate_collections.
    destruct (check_shape v depth max_items (umax 64)) as [r|[]] eqn:E.
    + apply check_shape_exact in E; [|done..]. unfold shape_spec, MAX_EXPRESSION_DEPTH in E. split; [lia|done].
    + split; [done|]. intros H. by rewrite (shape_accepts v depth max_items) in E by lia.
    + split; [done|]. intros H. by rewrite (shape_accepts v depth max_items) in E by lia.
  - intros l Hl. unfold grouping_row. rewrite <- check_columns_exact by done.
    change (200000 - 1) with 199999. by destruct (check_columns l 199999).
Qed.

(** Three levels: a list of a map of a list. *)
Definition sample_shape : Value := List [Integer 1; Map [([107], List [Null; Null])]].

Lemma shape_limits_exact_witness :
  (items sample_shape = 6 /\ validate_runtime_shape sample_shape 44 6 = Ok tt) /\
  validate_runtime_shape sample_shape 45 6 <> Ok tt /\ validate_runtime_shape sample_shape 44 5 <> Ok tt /\
  validate_collections sample_shape 44 1 <> Ok tt.
Proof.
  destruct (shape_limits_exact sample_shape) as (_ & Hshape & Hlists & _).
  destruct Hshape as [_ Hrun]; [vm_compute; discriminate|].
  split; [split; [reflexivity|apply Hrun; vm_compute; intuition discriminate]|].
  split; [rewrite Hrun by done; vm_compute; intuition discriminate|].
  split; [rewrite Hrun by done; vm_compute; intuition discriminate|].
  rewrite Hlists by (vm_compute; discriminate). vm_compute. intuition discriminate.
Defined.

End QueryShape.
