(* ===== verification/QueryDecimal.v ===== *)
(** Text to integer: crates/planner/src/relational/evaluation/integer.rs and the
    [toInteger] of strings in evaluation.rs.

    Decimal text, with a fraction and an exponent, is truncated toward zero
    without rounding and without building the expanded number. Strings are their
    UTF-8 bytes. *)
From S2P Require Import Prelude Bytes QueryValue.

Open Scope Z_scope.

Module QueryDecimal.
Export QueryValue.

(** ** White space

    [str::trim]: the UTF-8 encodings of the White_Space characters. *)

Definition white_space : list bytes :=
  [[0x09]; [0x0A]; [0x0B]; [0x0C]; [0x0D]; [0x20]; [0xC2; 0x85]; [0xC2; 0xA0];
   [0xE1; 0x9A; 0x80]; [0xE2; 0x80; 0xA8]; [0xE2; 0x80; 0xA9]; [0xE2; 0x80; 0xAF];
   [0xE2; 0x81; 0x9F]; [0xE3; 0x80; 0x80]] ++
  map (fun b => [0xE2; 0x80; 0x80 + Z.of_nat b]) (seq 0 11).

Fixpoint strip_any (ps : list bytes) (s : bytes) : option bytes :=
  match ps with
  | [] => None
  | p :: ps => match strip_prefix p s with
               | Some s' => Some s'
               | None => strip_any ps s
               end
  end.

Fixpoint trim_with (ps : list bytes) (fuel : nat) (s : bytes) : bytes :=
  match fuel with
  | O => s
  | S fuel => match strip_any ps s with
              | Some s' => trim_with ps fuel s'
              | None => s
              end
  end.

Definition trim_start (s : bytes) : bytes := trim_with white_space (length s) s.
Definition trim_end (s : bytes) : bytes :=
  reverse (trim_with (map reverse white_space) (length s) (reverse s)).
Definition trim (s : bytes) : bytes := trim_end (trim_start s).

(** ** Pieces of text *)

Definition is_digit (c : Z) : bool := between 48 57 c.

(** [str::split_once] at the first character the predicate holds of. *)
Fixpoint split_once (p : Z -> bool) (s : bytes) : option (bytes * bytes) :=
  match s with
  | [] => None
  | c :: s => if p c then Some ([], s)
              else '(l, r) ← split_once p s; Some (c :: l, r)
  end.

(** An optional sign: [(negative, rest)]. *)
Definition strip_sign (s : bytes) : bool * bytes :=
  match s with
  | [] => (false, s)
  | c :: digits => if c =? 45 then (true, digits) else if c =? 43 then (false, digits) else (false, s)
  end.

Definition i128_max : Z := 2 ^ 127 - 1.
Definition i128_clamp (z : Z) : Z := Z.max (- 2 ^ 127) (Z.min i128_max z).

(** [i128::saturating_mul] and [saturating_add] over the exponent's digits. *)
Definition exponent_magnitude (digits : bytes) : Z :=
  fold_left (fun n c => i128_clamp (i128_clamp (n * 10) + (c - 48))) digits 0.

Definition parse_exponent (unsigned : bytes) : option (bytes * Z) :=
  match split_once (fun c => (c =? 101) || (c =? 69)) unsigned with
  | None => Some (unsigned, 0)
  | Some (mantissa, exponent) =>
      let '(negative, digits) := strip_sign exponent in
      if bool_decide (digits = []) || negb (forallb is_digit digits) then None
      else
        let magnitude := exponent_magnitude digits in
        Some (mantissa, if negative then - magnitude else magnitude)
  end.

(** [Iterator::position] of the first digit that is not zero. *)
Fixpoint leading_zeroes_of (digits : bytes) : option nat :=
  match digits with
  | [] => None
  | c :: digits => if negb (c =? 48) then Some O else S <$> leading_zeroes_of digits
  end.

(** The loop over the integer digits: the magnitude and the digits left. *)
Fixpoint take_digits (k : nat) (significant : bytes) (magnitude : Z) : option (Z * bytes) :=
  match k with
  | O => Some (magnitude, significant)
  | S k =>
      let digit := default 48 (head significant) - 48 in
      scaled ← checked_mul 64 magnitude 10;
      magnitude ← checked_add 64 scaled digit;
      take_digits k (tail significant) magnitude
  end.

Definition i64_try_from (z : Z) : option Z := if bool_decide (in_i 64 z) then Some z else None.

Definition from_decimal (text : bytes) : option Z :=
  let text := trim text in
  let '(negative, unsigned) := strip_sign text in
  '(mantissa, exponent) ← parse_exponent unsigned;
  let '(whole, fraction) := default (mantissa, []) (split_once (fun c => c =? 46) mantissa) in
  let digits := whole ++ fraction in
  if bool_decide (whole = []) && bool_decide (fraction = []) || negb (forallb is_digit digits) then None
  else
    match leading_zeroes_of digits with
    | None => Some 0
    | Some leading_zeroes =>
        let integer_digits :=
          i128_clamp (i128_clamp (Z.of_nat (length whole) + exponent) - Z.of_nat leading_zeroes) in
        if integer_digits <=? 0 then Some 0
        else if 19 <? integer_digits then None
        else
          '(magnitude, significant) ← take_digits (Z.to_nat integer_digits) (drop leading_zeroes digits) 0;
          let limit := 2 ^ 63 - 1 + (if negative then 1 else 0) in
          if (limit <? magnitude) ||
             ((magnitude =? limit) && existsb (fun c => negb (c =? 48)) significant) then None
          else if negative then i64_try_from (- magnitude) else i64_try_from magnitude
    end.

(** [str::parse::<i64>]: an optional sign, then digits, within range. *)
Definition parse_i64 (s : bytes) : option Z :=
  let '(negative, digits) := strip_sign s in
  if bool_decide (digits = []) || negb (forallb is_digit digits) then None
  else
    let n := fold_left (fun n c => 10 * n + (c - 48)) digits 0 in
    i64_try_from (if negative then - n else n).

(** [toInteger] of a string. *)
Definition to_integer_text (s : bytes) : Value :=
  match match parse_i64 (trim s) with Some i => Some i | None => from_decimal s end with
  | Some i => Integer i
  | None => Null
  end.

(** ** What the text denotes

    A decimal is a sign, a digit string with an optional point, and an optional
    exponent; it denotes [digits * 10 ^ (exponent - fraction digits)]. *)

Definition digits_value (ds : bytes) : Z := fold_left (fun n c => 10 * n + (c - 48)) ds 0.
Definition digits (ds : bytes) : Prop := Forall (fun c => 48 <= c <= 57) ds.

Definition sign_text (sg : bytes) (negative : bool) : Prop :=
  match sg with
  | [] | [43] => negative = false
  | [45] => negative = true
  | _ => False
  end.

Definition mantissa_text (m whole fraction : bytes) : Prop :=
  digits whole /\ digits fraction /\ whole ++ fraction <> [] /\
  (m = whole /\ fraction = [] \/ m = whole ++ 46 :: fraction).

Definition exponent_text (ex : bytes) (x : Z) : Prop :=
  ex = [] /\ x = 0 \/
  exists c sg negative ds, (c = 101 \/ c = 69) /\ ex = c :: sg ++ ds /\ sign_text sg negative /\
    digits ds /\ ds <> [] /\ x = if negative then - digits_value ds else digits_value ds.

Definition decimal_text (t : bytes) (negative : bool) (whole fraction : bytes) (x : Z) : Prop :=
  exists sg m ex, t = sg ++ m ++ ex /\ sign_text sg negative /\
    mantissa_text m whole fraction /\ exponent_text ex x.

(** [n * 10 ^ e] truncated, and whether it is at most [limit] before that. *)
Definition truncated (n e : Z) : Z := if 0 <=? e then n * 10 ^ e else n / 10 ^ (- e).
Definition at_most (n e limit : Z) : Prop :=
  if 0 <=? e then n * 10 ^ e <= limit else n <= limit * 10 ^ (- e).

(** ** Digit strings *)

Lemma digits_acc ds acc : fold_left (fun n c => 10 * n + (c - 48)) ds acc = acc * 10 ^ Z.of_nat (length ds) + digits_value ds.
Proof.
  unfold digits_value. revert acc. induction ds as [|c ds IH]; intros acc; cbn [fold_left length]; [simpl; lia|].
  rewrite (IH (10 * acc + (c - 48))), (IH (10 * 0 + (c - 48))), Nat2Z.inj_succ, Z.pow_succ_r by lia. ring.
Qed.

Lemma digits_value_cons c ds : digits_value (c :: ds) = (c - 48) * 10 ^ Z.of_nat (length ds) + digits_value ds.
Proof. unfold digits_value at 1. cbn [fold_left]. rewrite digits_acc. ring. Qed.

Lemma digits_value_app a b : digits_value (a ++ b) = digits_value a * 10 ^ Z.of_nat (length b) + digits_value b.
Proof. unfold digits_value at 1. rewrite fold_left_app, digits_acc. reflexivity. Qed.

Lemma pow10_pos n : 0 <= n -> 1 <= 10 ^ n.
Proof. intros Hn. pose proof (Z.pow_pos_nonneg 10 n). lia. Qed.

Lemma digits_bound ds : digits ds -> 0 <= digits_value ds < 10 ^ Z.of_nat (length ds).
Proof.
  induction 1 as [|c ds Hc H IH]; [done|]. rewrite digits_value_cons. simpl length.
  rewrite Nat2Z.inj_succ, Z.pow_succ_r by lia. pose proof (pow10_pos (Z.of_nat (length ds))). nia.
Qed.

Lemma digits_lower c ds : digits (c :: ds) -> c <> 48 -> 10 ^ Z.of_nat (length ds) <= digits_value (c :: ds).
Proof.
  intros [Hc H]%Forall_cons Hn. rewrite digits_value_cons. pose proof (digits_bound ds H).
  pose proof (pow10_pos (Z.of_nat (length ds))). nia.
Qed.

Lemma forallb_digits ds : forallb is_digit ds = true <-> digits ds.
Proof.
  unfold digits. induction ds as [|c ds IH]; simpl; [by split|].
  rewrite andb_true_iff, IH, Forall_cons. unfold is_digit, between. rewrite andb_true_iff, !Z.leb_le. done.
Qed.

Lemma leading_some ds z : digits ds -> leading_zeroes_of ds = Some z ->
  exists c rest, drop z ds = c :: rest /\ c <> 48 /\ digits (c :: rest) /\
    digits_value ds = digits_value (c :: rest) /\ length ds = (z + S (length rest))%nat.
Proof.
  intros H; revert z. induction H as [|c ds Hc H IH]; intros z; simpl; [done|].
  destruct (Z.eqb_spec c 48) as [->|Hn]; simpl.
  - destruct (leading_zeroes_of ds) as [z'|]; [|done]. intros [= <-].
    destruct (IH z' eq_refl) as (c & rest & E & ? & ? & Hv & Hl). exists c, rest.
    rewrite digits_value_cons, Hv. split_and!; [done..|lia|lia].
  - intros [= <-]. exists c, ds. split_and!; [done|done|by constructor|done|done].
Qed.

Lemma leading_none ds : leading_zeroes_of ds = None -> digits_value ds = 0.
Proof.
  induction ds as [|c ds IH]; simpl; [done|]. destruct (Z.eqb_spec c 48) as [->|Hn]; simpl; [|done].
  destruct (leading_zeroes_of ds); [done|]. intros _. rewrite digits_value_cons, IH by done. lia.
Qed.

Lemma significant_zero ds : digits ds -> existsb (fun c => negb (c =? 48)) ds = negb (digits_value ds =? 0).
Proof.
  induction 1 as [|c ds Hc H IH]; [done|]. simpl. rewrite IH, digits_value_cons.
  pose proof (digits_bound ds H). pose proof (pow10_pos (Z.of_nat (length ds))).
  destruct (Z.eqb_spec c 48), (Z.eqb_spec (digits_value ds) 0); simpl; symmetry;
    rewrite ?negb_true_iff, ?negb_false_iff, ?Z.eqb_eq, ?Z.eqb_neq; nia.
Qed.

Lemma take_digits_some k : forall ds m, digits ds -> 0 <= m -> (m + 1) * 10 ^ Z.of_nat k <= 2 ^ 64 ->
  take_digits k ds m =
  Some (m * 10 ^ Z.of_nat k + digits_value (take k ds) * 10 ^ Z.of_nat (k - length ds), drop k ds).
Proof.
  induction k as [|k IH]; intros ds m Hd Hm Hb.
  - simpl. do 2 f_equal. unfold digits_value. simpl. lia.
  - rewrite Nat2Z.inj_succ, Z.pow_succ_r in * by lia. pose proof (pow10_pos (Z.of_nat k)).
    assert (48 <= default 48 (head ds) <= 57 /\ digits (tail ds)) as [Hc Ht].
    { destruct Hd; simpl; split; try done; try lia. constructor. }
    cbn [take_digits]. unfold checked_mul, checked_add, umax.
    rewrite (proj2 (Z.leb_le (m * 10) _)) by nia. cbn [mbind option_bind].
    rewrite (proj2 (Z.leb_le _ _)) by nia. cbn [mbind option_bind].
    rewrite IH by (try done; nia). destruct ds as [|c ds]; cbn [head tail default length take drop].
    + rewrite !take_nil, !drop_nil. unfold digits_value. simpl. f_equal. f_equal. ring.
    + rewrite digits_value_cons. f_equal. f_equal. rewrite Nat.sub_succ.
      assert (10 ^ Z.of_nat k = 10 ^ Z.of_nat (length (take k ds)) * 10 ^ Z.of_nat (k - length ds)) as ->; [|unfold id; ring].
      rewrite length_take, <- Z.pow_add_r by lia. f_equal. lia.
Qed.

(** ** The conversion of parsed pieces *)

Definition convert (negative : bool) (whole fraction : bytes) (exponent : Z) : option Z :=
  match leading_zeroes_of (whole ++ fraction) with
  | None => Some 0
  | Some leading_zeroes =>
      let integer_digits :=
        i128_clamp (i128_clamp (Z.of_nat (length whole) + exponent) - Z.of_nat leading_zeroes) in
      if integer_digits <=? 0 then Some 0
      else if 19 <? integer_digits then None
      else
        '(magnitude, significant) ← take_digits (Z.to_nat integer_digits) (drop leading_zeroes (whole ++ fraction)) 0;
        let limit := 2 ^ 63 - 1 + (if negative then 1 else 0) in
        if (limit <? magnitude) ||
           ((magnitude =? limit) && existsb (fun c => negb (c =? 48)) significant) then None
        else if negative then i64_try_from (- magnitude) else i64_try_from magnitude
  end.

(** The magnitude of [c :: rest] scaled, by the number of its integer digits. *)
Lemma scaled_small n S e limit : 0 <= n < 10 ^ S -> 0 <= S -> S + e <= 0 -> 1 <= limit ->
  truncated n e = 0 /\ at_most n e limit.
Proof.
  intros Hn HS He Hl. unfold truncated, at_most.
  destruct (Z.leb_spec 0 e) as [H|H].
  - assert (S = 0 /\ e = 0) as [-> ->] by lia. change (10 ^ 0) with 1 in *. lia.
  - assert (10 ^ S <= 10 ^ (- e)) by (apply Z.pow_le_mono_r; lia).
    split; [apply Z.div_small; lia|nia].
Qed.

Lemma scaled_large n S e limit : 10 ^ (S - 1) <= n -> 1 <= S -> 19 < S + e -> 0 <= limit < 10 ^ 19 ->
  ~ at_most n e limit.
Proof.
  intros Hn HS He Hl. unfold at_most. destruct (Z.leb_spec 0 e) as [H|H].
  - assert (10 ^ 19 <= 10 ^ (S - 1) * 10 ^ e).
    { rewrite <- Z.pow_add_r by lia. apply Z.pow_le_mono_r; lia. }
    pose proof (pow10_pos e H). nia.
  - assert (10 ^ 19 * 10 ^ (- e) <= 10 ^ (S - 1)).
    { rewrite <- Z.pow_add_r by lia. apply Z.pow_le_mono_r; lia. }
    pose proof (pow10_pos (- e)). nia.
Qed.

Definition i64_limit (negative : bool) : Z := 2 ^ 63 - 1 + (if negative then 1 else 0).
Definition with_sign (negative : bool) (z : Z) : Z := if negative then - z else z.

(** The digits read, compared with the limit. *)
Lemma scaled_digits (k : nat) sig e limit : digits sig -> Z.of_nat k = Z.of_nat (length sig) + e ->
  let m := digits_value (take k sig) * 10 ^ Z.of_nat (k - length sig) in
  truncated (digits_value sig) e = m /\ 0 <= m /\
  (at_most (digits_value sig) e limit <-> m < limit \/ m = limit /\ digits_value (drop k sig) = 0).
Proof.
  intros Hd Hk m. unfold truncated, at_most.
  pose proof (digits_bound (take k sig) ltac:(by apply Forall_take)) as Ht.
  pose proof (digits_bound (drop k sig) ltac:(by apply Forall_drop)) as Hr.
  destruct (Nat.le_gt_cases (length sig) k) as [H|H].
  - unfold m. clear m. rewrite take_ge, drop_ge in * by done.
    assert (Z.of_nat (k - length sig) = e) as -> by lia. rewrite (proj2 (Z.leb_le 0 e)) by lia.
    pose proof (pow10_pos e). change (digits_value []) with 0. split_and!; [done|nia|lia].
  - assert (m = digits_value (take k sig)) as ->.
    { unfold m. replace (k - length sig)%nat with 0%nat by lia. apply Z.mul_1_r. }
    rewrite (proj2 (Z.leb_gt 0 e)) by lia.
    pose proof (digits_value_app (take k sig) (drop k sig)) as E. rewrite take_drop in E.
    rewrite length_drop in *. assert (Z.of_nat (length sig - k) = - e) as Hl by lia. rewrite Hl in *.
    rewrite E. split_and!; [|lia|].
    + rewrite Z.div_add_l by lia. rewrite Z.div_small by lia. lia.
    + nia.
Qed.

Lemma convert_exact negative whole fraction x z :
  digits whole -> digits fraction -> Z.of_nat (length whole + length fraction) < 2 ^ 63 ->
  let n := digits_value (whole ++ fraction) in
  let e := x - Z.of_nat (length fraction) in
  convert negative whole fraction (Z.max (- i128_max) (Z.min i128_max x)) = Some z <->
  z = with_sign negative (truncated n e) /\ at_most n e (i64_limit negative).
Proof.
  intros Hw Hf Hlen n e. assert (digits (whole ++ fraction)) as Hd by (by apply Forall_app).
  assert (2 ^ 63 - 1 <= i64_limit negative <= 2 ^ 63) as Hlimit by (unfold i64_limit; destruct negative; lia).
  unfold convert. destruct (leading_zeroes_of (whole ++ fraction)) as [lz|] eqn:El.
  - destruct (leading_some _ _ Hd El) as (c & rest & Hdrop & Hc & Hsig & Hv & Hl).
    fold n in Hv. rewrite Hdrop. rewrite length_app in Hl.
    pose proof (digits_lower c rest Hsig Hc) as Hlow. pose proof (digits_bound (c :: rest) Hsig) as Hup.
    set (S := Z.of_nat (length (c :: rest))) in *.
    assert (Z.of_nat (length rest) = S - 1) as Hrest by (unfold S; simpl; lia). rewrite Hrest in Hlow.
    rewrite <- Hv in Hlow, Hup.
    set (k := i128_clamp (i128_clamp (Z.of_nat (length whole) + Z.max (- i128_max) (Z.min i128_max x)) - Z.of_nat lz)).
    assert ((k <= 0 <-> S + e <= 0) /\ (19 < k <-> 19 < S + e) /\ (0 < k <= 19 -> k = S + e)) as (K0 & K1 & K2).
    { unfold k, i128_clamp, i128_max, e. change (2 ^ 127) with 170141183460469231731687303715884105728.
      change (2 ^ 63) with 9223372036854775808 in *. lia. }
    clearbody k. cbv zeta. destruct (Z.leb_spec k 0) as [Hk|Hk].
    { destruct (scaled_small n S e (i64_limit negative)) as [-> ?]; try lia.
      split; [intros [= <-]; by destruct negative|]. intros [-> _]. by destruct negative. }
    destruct (Z.ltb_spec 19 k) as [Hk'|Hk'].
    { split; [done|]. intros [_ H]. exfalso.
      apply (scaled_large n S e (i64_limit negative)); try done; lia. }
    destruct (scaled_digits (Z.to_nat k) (c :: rest) e (i64_limit negative) Hsig) as (Ht & Hm & Hfits); [lia|].
    rewrite take_digits_some; [|done|done|].
    2: { rewrite Z2Nat.id by lia. assert (10 ^ k <= 10 ^ 19) by (apply Z.pow_le_mono_r; lia).
         change (10 ^ 19) with 10000000000000000000 in *. change (2 ^ 64) with 18446744073709551616. lia. }
    cbn [mbind option_bind]. rewrite Z.mul_0_l, Z.add_0_l, <- Ht, <- Hv in *.
    rewrite significant_zero by (by apply Forall_drop). fold (i64_limit negative).
    set (t := truncated n e) in *. clearbody t.
    destruct (Z.ltb_spec (i64_limit negative) t); cbn [orb].
    { split; [done|]. intros [_ H1%Hfits]. lia. }
    destruct (Z.eqb_spec t (i64_limit negative)) as [Hq|Hq], (Z.eqb_spec (digits_value (drop (Z.to_nat k) (c :: rest))) 0) as [Hz|Hz];
      cbn [andb negb].
    2: by split; [|intros [_ H1%Hfits]; lia].
    all: assert (at_most n e (i64_limit negative)) by (apply Hfits; lia).
    all: unfold i64_try_from, with_sign, i64_limit in *; destruct negative;
      rewrite bool_decide_true by (unfold in_i; simpl; lia);
      (split; [by intros [= <-]|by intros [-> _]]).
  - apply leading_none in El. fold n in El. rewrite El.
    assert (truncated 0 e = 0 /\ at_most 0 e (i64_limit negative)) as [-> ?].
    { unfold truncated, at_most. destruct (Z.leb_spec 0 e); [split; [done|lia]|].
      pose proof (pow10_pos (- e)). split; [apply Z.div_0_l; lia|nia]. }
    split; [intros [= <-]; by destruct negative|]. intros [-> _]. by destruct negative.
Qed.

(** ** The parser accepts exactly the grammar *)

Lemma split_once_some p s l r : split_once p s = Some (l, r) <->
  exists c, s = l ++ c :: r /\ p c = true /\ Forall (fun c => p c = false) l.
Proof.
  revert l. induction s as [|c s IH]; intros l; simpl.
  - split; [done|]. intros (c & E & _). by destruct l.
  - destruct (p c) eqn:Hp.
    + split; [intros [= <- <-]; by exists c|]. intros (d & E & Hd & Hl). destruct l as [|c' l]; [by injection E as <- <-|].
      injection E as <- ->. apply Forall_cons in Hl as [Hl _]. congruence.
    + destruct (split_once p s) as [[l' r']|]; simpl.
      * split.
        -- intros [= <- <-]. destruct (proj1 (IH l') eq_refl) as (d & -> & ? & ?). exists d. by repeat constructor.
        -- intros (d & E & Hd & Hl). destruct l as [|c' l]; [injection E as <- <-; congruence|].
           injection E as <- E. apply Forall_cons in Hl as [_ Hl].
           destruct (IH l) as [_ H]. assert (Some (l', r') = Some (l, r)) as [= -> ->] by (apply H; by exists d). done.
      * split; [done|]. intros (d & E & Hd & Hl). destruct l as [|c' l]; [injection E as <- <-; congruence|].
        injection E as <- E. apply Forall_cons in Hl as [_ Hl]. destruct (IH l) as [_ H]. discriminate H. by exists d.
Qed.

Lemma split_once_none p s : split_once p s = None <-> Forall (fun c => p c = false) s.
Proof.
  induction s as [|c s IH]; simpl; [by split|]. rewrite Forall_cons. destruct (p c); [by split; [|intros []]|].
  destruct (split_once p s) as [[]|]; simpl; [|by rewrite <- IH].
  split; [done|]. intros [_ H%IH]. done.
Qed.

Lemma strip_sign_some s negative r : strip_sign s = (negative, r) -> exists sg, s = sg ++ r /\ sign_text sg negative.
Proof.
  unfold strip_sign. destruct s as [|c s]; [intros [= <- <-]; by exists []|].
  destruct (Z.eqb_spec c 45) as [->|]; [intros [= <- <-]; by exists [45]|].
  destruct (Z.eqb_spec c 43) as [->|]; intros [= <- <-]; [by exists [43]|by exists []].
Qed.

Lemma sign_cases sg negative : sign_text sg negative ->
  sg = [] /\ negative = false \/ sg = [43] /\ negative = false \/ sg = [45] /\ negative = true.
Proof.
  destruct sg as [|c [|d sg]]; simpl; [auto|intros H|intros H; exfalso; by repeat case_match].
  destruct (decide (c = 45)) as [->|]; [auto|]. destruct (decide (c = 43)) as [->|]; [auto|].
  exfalso. by repeat case_match.
Qed.

Lemma strip_sign_text sg negative c r : sign_text sg negative -> c <> 45 -> c <> 43 ->
  strip_sign (sg ++ c :: r) = (negative, c :: r).
Proof.
  intros [(-> & ->)|[(-> & ->)|(-> & ->)]]%sign_cases H1 H2; try reflexivity. simpl.
  by rewrite (proj2 (Z.eqb_neq c 45) H1), (proj2 (Z.eqb_neq c 43) H2).
Qed.

Lemma exponent_magnitude_clamped ds : digits ds -> exponent_magnitude ds = Z.min i128_max (digits_value ds).
Proof.
  intros Hd. unfold exponent_magnitude, digits_value.
  assert (forall a, 0 <= a -> fold_left (fun n c => i128_clamp (i128_clamp (n * 10) + (c - 48))) ds (Z.min i128_max a) =
    Z.min i128_max (fold_left (fun n c => 10 * n + (c - 48)) ds a)) as H.
  { induction Hd as [|c ds Hc Hd IH]; intros a Ha; [done|]. cbn [fold_left]. rewrite <- IH by lia. f_equal.
    unfold i128_clamp, i128_max. change (2 ^ 127) with 170141183460469231731687303715884105728. lia. }
  apply (H 0). done.
Qed.

Definition clamp_exponent (x : Z) : Z := Z.max (- i128_max) (Z.min i128_max x).

Lemma digit_plain c : 48 <= c <= 57 -> c <> 45 /\ c <> 43.
Proof. lia. Qed.

Lemma parse_exponent_some u m x' : parse_exponent u = Some (m, x') <->
  exists ex x, u = m ++ ex /\ Forall (fun c => c <> 101 /\ c <> 69) m /\ exponent_text ex x /\ x' = clamp_exponent x.
Proof.
  unfold parse_exponent.
  assert (forall m, Forall (fun c => (c =? 101) || (c =? 69) = false) m <-> Forall (fun c => c <> 101 /\ c <> 69) m) as Hno.
  { intros l. apply Forall_iff. intros c. rewrite orb_false_iff, !Z.eqb_neq. done. }
  destruct (split_once _ u) as [[l ex]|] eqn:E.
  - apply split_once_some in E as (c & -> & Hc & Hl).
    assert (c = 101 \/ c = 69) as Hc' by (apply orb_true_iff in Hc as [?%Z.eqb_eq|?%Z.eqb_eq]; auto).
    destruct (strip_sign ex) as [negative ds] eqn:Es. split.
    + case_bool_decide as Hds; [done|]. destruct (forallb is_digit ds) eqn:Hd; [|done]. cbn [orb negb].
      apply forallb_digits in Hd. rewrite exponent_magnitude_clamped by done. intros [= <- <-].
      apply strip_sign_some in Es as (sg & -> & Hsg).
      exists (c :: sg ++ ds), (if negative then - digits_value ds else digits_value ds).
      split_and!; [done|by apply Hno|right; by exists c, sg, negative, ds|].
      pose proof (digits_bound ds Hd). unfold clamp_exponent, i128_max.
      change (2 ^ 127) with 170141183460469231731687303715884105728. destruct negative; lia.
    + intros (ex' & x & Eu & Hm & Hex & ->). apply Hno in Hm.
      assert (l = m /\ c :: ex = ex') as [<- <-].
      { destruct Hex as [[-> _]|(c' & sg & ng & ds' & Hc1 & -> & _)].
        - rewrite app_nil_r in Eu. exfalso. rewrite <- Eu in Hm. apply Forall_app in Hm as [_ Hm].
          apply Forall_cons in Hm as [Hm _]. congruence.
        - assert (split_once (fun c => (c =? 101) || (c =? 69)) (l ++ c :: ex) = Some (l, ex)) as E1
            by (apply split_once_some; by exists c).
          assert (split_once (fun c => (c =? 101) || (c =? 69)) (l ++ c :: ex) = Some (m, sg ++ ds')) as E2.
          { apply split_once_some. exists c'. split_and!; [done|by destruct Hc1 as [->| ->]|done]. }
          rewrite E1 in E2. injection E2 as -> ->. apply app_inv_head in Eu. by injection Eu as ->. }
      destruct Hex as [[? _]|(c' & sg & ng & ds' & _ & [= _ ->] & Hsg & Hd & Hne & ->)]; [done|].
      destruct ds' as [|d ds']; [done|]. pose proof (proj1 (Forall_cons _ _ _) Hd) as [Hd0 _].
      rewrite (strip_sign_text sg ng d ds') in Es by (done || lia). injection Es as <- <-.
      rewrite bool_decide_false by done. rewrite (proj2 (forallb_digits _) Hd). cbn [orb negb].
      rewrite exponent_magnitude_clamped by done. do 2 f_equal. pose proof (digits_bound _ Hd).
      unfold clamp_exponent, i128_max. change (2 ^ 127) with 170141183460469231731687303715884105728.
      destruct ng; lia.
  - apply split_once_none in E. split.
    + intros [= <- <-]. exists [], 0. split_and!; [by rewrite app_nil_r|by apply Hno|by left|done].
    + intros (ex & x & -> & Hm & Hex & ->). destruct Hex as [[-> ->]|(c & sg & ng & ds & Hc & -> & _)].
      * by rewrite app_nil_r.
      * exfalso. apply Forall_app in E as [_ E]. apply Forall_cons in E as [E _]. by destruct Hc as [-> | ->].
Qed.

Definition split_mantissa (m : bytes) : bytes * bytes := default (m, []) (split_once (fun c => c =? 46) m).

Lemma split_mantissa_some m whole fraction :
  mantissa_text m whole fraction <->
  split_mantissa m = (whole, fraction) /\ digits whole /\ digits fraction /\ whole ++ fraction <> [].
Proof.
  unfold mantissa_text, split_mantissa.
  assert (forall l, digits l -> Forall (fun c => (c =? 46) = false) l) as Hno.
  { intros l H. eapply Forall_impl; [exact H|]. intros c Hc. apply Z.eqb_neq. simpl in Hc. lia. }
  split.
  - intros (Hw & Hf & Hne & H). split_and!; try done. destruct H as [[-> ->]| ->].
    + by rewrite (proj2 (split_once_none _ _) (Hno _ Hw)).
    + assert (split_once (fun c => c =? 46) (whole ++ 46 :: fraction) = Some (whole, fraction)) as ->; [|done].
      apply split_once_some. exists 46. split_and!; [done|done|by apply Hno].
  - intros (E & Hw & Hf & Hne). split_and!; try done. destruct (split_once _ m) as [[l r]|] eqn:Es; simpl in E.
    + injection E as -> ->. apply split_once_some in Es as (c & -> & Hc & _). apply Z.eqb_eq in Hc as ->. by right.
    + injection E as -> <-. by left.
Qed.

Definition parse_pieces (t : bytes) : option (bool * bytes * bytes * Z) :=
  let '(negative, unsigned) := strip_sign t in
  '(mantissa, exponent) ← parse_exponent unsigned;
  let '(whole, fraction) := split_mantissa mantissa in
  if bool_decide (whole = []) && bool_decide (fraction = []) || negb (forallb is_digit (whole ++ fraction)) then None
  else Some (negative, whole, fraction, exponent).

Lemma from_decimal_pieces text : from_decimal text =
  '(negative, whole, fraction, exponent) ← parse_pieces (trim text); convert negative whole fraction exponent.
Proof.
  unfold from_decimal, parse_pieces, split_mantissa, convert. destruct (strip_sign (trim text)) as [negative unsigned].
  destruct (parse_exponent unsigned) as [[mantissa exponent]|]; [|done]. cbn [mbind option_bind].
  destruct (default (mantissa, []) (split_once (fun c => c =? 46) mantissa)) as [whole fraction].
  by destruct (_ || _).
Qed.

Lemma pieces_ok (whole fraction : bytes) :
  bool_decide (whole = []) && bool_decide (fraction = []) || negb (forallb is_digit (whole ++ fraction)) = false <->
  digits whole /\ digits fraction /\ whole ++ fraction <> [].
Proof.
  rewrite orb_false_iff, negb_false_iff, forallb_digits, andb_false_iff, !bool_decide_eq_false.
  unfold digits. rewrite Forall_app. destruct whole, fraction; simpl; naive_solver.
Qed.

(** The mantissa begins with a digit or the point. *)
Lemma mantissa_head m whole fraction : mantissa_text m whole fraction ->
  exists c m', m = c :: m' /\ c <> 45 /\ c <> 43 /\ Forall (fun c => c <> 101 /\ c <> 69) m.
Proof.
  intros (Hw & Hf & Hne & H).
  assert (forall l, digits l -> Forall (fun c => c <> 101 /\ c <> 69) l) as Hno.
  { intros l Hl. eapply Forall_impl; [exact Hl|]. simpl. lia. }
  destruct H as [[-> ->]| ->].
  - destruct Hw as [|c w Hc Hw]; [done|]. exists c, w. split_and!; [done|lia|lia|]. apply Hno. by constructor.
  - destruct Hw as [|c w Hc Hw].
    + exists 46, fraction. split_and!; [done..|]. constructor; [lia|by apply Hno].
    + exists c, (w ++ 46 :: fraction). split_and!; [done|lia|lia|].
      apply Forall_app. split; [apply Hno; by constructor|]. constructor; [lia|by apply Hno].
Qed.

Lemma parse_pieces_some t negative whole fraction x' : parse_pieces t = Some (negative, whole, fraction, x') <->
  exists x, decimal_text t negative whole fraction x /\ x' = clamp_exponent x.
Proof.
  unfold parse_pieces. destruct (strip_sign t) as [ng u] eqn:Es. split.
  - destruct (parse_exponent u) as [[m x1]|] eqn:Ex; [|done]. cbn [mbind option_bind].
    destruct (split_mantissa m) as [w f] eqn:Em.
    destruct (bool_decide (w = []) && _ || _) eqn:Ec; [done|]. intros [= <- <- <- <-].
    apply pieces_ok in Ec as (Hw & Hf & Hne).
    apply parse_exponent_some in Ex as (ex & x & -> & Hm & Hex & ->).
    apply strip_sign_some in Es as (sg & -> & Hsg). exists x. split; [|done].
    exists sg, m, ex. split_and!; try done. by apply split_mantissa_some.
  - intros (x & (sg & m & ex & -> & Hsg & Hm & Hex) & ->).
    destruct (mantissa_head _ _ _ Hm) as (c & m' & -> & H1 & H2 & Hno).
    rewrite <- app_comm_cons, (strip_sign_text sg negative c (m' ++ ex)) in Es by done. injection Es as <- <-. rewrite app_comm_cons.
    assert (parse_exponent ((c :: m') ++ ex) = Some (c :: m', clamp_exponent x)) as ->
      by (apply parse_exponent_some; by exists ex, x).
    cbn [mbind option_bind]. apply split_mantissa_some in Hm as (-> & Hm).
    by rewrite (proj2 (pieces_ok whole fraction) Hm).
Qed.

(** ** Trimming only shortens *)

Lemma strip_any_length ps s s' : strip_any ps s = Some s' -> (length s' <= length s)%nat.
Proof.
  induction ps as [|p ps IH]; simpl; [done|]. destruct (strip_prefix p s) as [r|] eqn:E; [|done].
  intros [= <-]. apply strip_prefix_some in E as ->. rewrite length_app. lia.
Qed.

Lemma trim_with_length ps fuel s : (length (trim_with ps fuel s) <= length s)%nat.
Proof.
  revert s. induction fuel as [|fuel IH]; intros s; simpl; [done|].
  destruct (strip_any ps s) as [s'|] eqn:E; [|done]. apply strip_any_length in E. specialize (IH s'). lia.
Qed.

Lemma trim_length s : (length (trim s) <= length s)%nat.
Proof.
  unfold trim, trim_end, trim_start. rewrite length_reverse.
  pose proof (trim_with_length (map reverse white_space) (length (trim_with white_space (length s) s))
    (reverse (trim_with white_space (length s) s))) as H.
  rewrite length_reverse in H. pose proof (trim_with_length white_space (length s) s). lia.
Qed.

Lemma decimal_length t negative whole fraction x : decimal_text t negative whole fraction x ->
  (length whole + length fraction <= length t)%nat.
Proof.
  intros (sg & m & ex & -> & _ & (_ & _ & _ & H) & _). rewrite !length_app.
  destruct H as [[-> ->]| ->]; [simpl; lia|]. rewrite length_app. simpl. lia.
Qed.

Lemma from_decimal_some text z : Z.of_nat (length text) < 2 ^ 63 ->
  from_decimal text = Some z <-> exists negative whole fraction x,
    decimal_text (trim text) negative whole fraction x /\
    z = with_sign negative (truncated (digits_value (whole ++ fraction)) (x - Z.of_nat (length fraction))) /\
    at_most (digits_value (whole ++ fraction)) (x - Z.of_nat (length fraction)) (i64_limit negative).
Proof.
  intros Hlen. rewrite from_decimal_pieces. pose proof (trim_length text) as Ht. split.
  - destruct (parse_pieces (trim text)) as [[[[negative whole] fraction] x']|] eqn:E; [|done].
    apply parse_pieces_some in E as (x & Hx & ->). pose proof (decimal_length _ _ _ _ _ Hx). intros Hc.
    assert (digits whole /\ digits fraction) as [? ?] by (destruct Hx as (? & ? & ? & _ & _ & (? & ? & _) & _); done).
    apply convert_exact in Hc; [|done|done|lia]. by exists negative, whole, fraction, x.
  - intros (negative & whole & fraction & x & Hx & Hz). pose proof (decimal_length _ _ _ _ _ Hx).
    rewrite (proj2 (parse_pieces_some _ _ _ _ _) (ex_intro _ x (conj Hx eq_refl))). cbn [mbind option_bind].
    assert (digits whole /\ digits fraction) as [? ?] by (destruct Hx as (? & ? & ? & _ & _ & (? & ? & _) & _); done).
    apply convert_exact; [done|done|lia|done].
Qed.

(** Text that parses as an integer is a decimal. *)
Lemma parse_i64_decimal text i : Z.of_nat (length text) < 2 ^ 63 ->
  parse_i64 (trim text) = Some i -> from_decimal text = Some i.
Proof.
  intros Hlen. unfold parse_i64. destruct (strip_sign (trim text)) as [negative ds] eqn:E.
  case_bool_decide as Hne; [done|]. destruct (forallb is_digit ds) eqn:Hd; [|done]. cbn [orb negb].
  apply forallb_digits in Hd. fold (digits_value ds). unfold i64_try_from. case_bool_decide as Hi; [|done].
  intros [= <-]. apply strip_sign_some in E as (sg & E & Hsg). apply from_decimal_some; [done|].
  exists negative, ds, [], 0. rewrite app_nil_r. change (0 - Z.of_nat (length [])) with 0.
  split_and!.
  - exists sg, ds, []. rewrite app_nil_r. split_and!; [done..| |by left].
    split_and!; [done|constructor|by rewrite app_nil_r|by left].
  - unfold truncated, with_sign. simpl. by rewrite Z.mul_1_r.
  - unfold at_most, i64_limit, in_i in *. simpl. simpl in Hi. destruct negative; lia.
Qed.

(** [toInteger] of text truncates exactly: it is an integer precisely when
    the trimmed text is a signed decimal, with any fraction and any exponent,
    whose unrounded value lies between the least and the greatest 64-bit integer
    (a fractional excess at either end is rejected), and then it is that value
    truncated toward zero; every other text gives null. No intermediate overflow
    occurs, whatever the length of the digits or the size of the exponent, and
    the integer parser tried first never changes the answer. *)
Theorem to_integer_exact (text : bytes) : Z.of_nat (length text) < 2 ^ 63 ->
  (forall z, to_integer_text text = Integer z <-> exists negative whole fraction x,
    decimal_text (trim text) negative whole fraction x /\
    let n := digits_value (whole ++ fraction) in
    let e := x - Z.of_nat (length fraction) in
    z = with_sign negative (truncated n e) /\ at_most n e (i64_limit negative)) /\
  ((exists z, to_integer_text text = Integer z) \/ to_integer_text text = Null).
Proof.
  intros Hlen.
  assert (to_integer_text text = match from_decimal text with Some i => Integer i | None => Null end) as ->.
  { unfold to_integer_text. destruct (parse_i64 (trim text)) as [i|] eqn:E; [|done].
    by rewrite (parse_i64_decimal text i Hlen E). }
  split; [|destruct (from_decimal text) as [z|]; [left; by exists z|by right]].
  intros z. cbv zeta. rewrite <- (from_decimal_some text z Hlen).
  destruct (from_decimal text); split; [by intros [= ->]|by intros [= ->]|done|done].
Qed.

(** [" -12.7e1 "] is -127. *)
Definition sample_text : bytes := [32; 45; 49; 50; 46; 55; 101; 49; 32].

Lemma to_integer_exact_witness :
  exists negative whole fraction x, decimal_text (trim sample_text) negative whole fraction x /\
    let n := digits_value (whole ++ fraction) in
    let e := x - Z.of_nat (length fraction) in
    -127 = with_sign negative (truncated n e) /\ at_most n e (i64_limit negative).
Proof.
  apply (proj1 (to_integer_exact sample_text ltac:(vm_compute; reflexivity))).
  vm_compute. reflexivity.
Defined.

End QueryDecimal.
