(* ===== verification/QueryRange.v ===== *)
(** Integer ranges, list positions and row windows:
    crates/planner/src/relational/evaluation.rs ([nonnegative], [position],
    [slice_position], [IntegerRange], the [range] function and list slicing)
    and window.rs. *)
From S2P Require Import Prelude Bytes QueryValue.

Open Scope Z_scope.

Module QueryRange.
Export QueryValue.

Definition type_error (message : string) : QueryError :=
  runtime_error "type_error" "invalid_argument_type" message.
Definition overflow : QueryError :=
  runtime_error "arithmetic_error" "number_out_of_range"
    "integer result is outside the signed 64-bit range".

(** [i64::checked_add], on 64-bit operands. *)
Definition i64_checked (z : Z) : option Z := if bool_decide (in_i 64 z) then Some z else None.

Definition nonnegative (value : Value) : result QueryError Z :=
  match value with
  | Integer i =>
      if 0 <=? i then Ok i
      else Err (runtime_error "syntax_error" "negative_integer_argument" "expected a nonnegative integer")
  | _ => Err (runtime_error "syntax_error" "invalid_argument_type" "expected an integer")
  end.

(** ** Positions *)

Definition position (index len : Z) : option Z :=
  let index := if index <? 0 then len + index else index in
  if (0 <=? index) && (index <? len) then Some index else None.

Definition slice_position (index len : Z) : Z :=
  let index := if index <? 0 then len + index else index in
  Z.max 0 (Z.min index len).


(** The selected element; [swap_remove] panics out of range ([None]). *)
Definition index_list (values : list Value) (index : Z) : option Value :=
  match position index (len values) with
  | Some i => values !! Z.to_nat i
  | None => Some Null
  end.

(** [truncate(end)], then [drain(..start)], which panics past the end. *)
Definition slice_list {A} (values : list A) (start end_ : Z) : option (list A) :=
  if end_ <=? start then Some []
  else
    let values := take (Z.to_nat end_) values in
    if start <=? len values then Some (drop (Z.to_nat start) values) else None.

(** ** Integer ranges *)

Record IntegerRange := { range_next : option Z; range_end : Z; range_step : Z }.

Definition range_new (arguments : list Value) : result QueryError IntegerRange :=
  let argument_error := runtime_error "argument_error" "invalid_argument_type" in
  match arguments with
  | Integer start :: Integer end_ :: rest =>
      let? step := match rest with
                   | [] => Ok 1
                   | [Integer step] => Ok step
                   | _ => Err (argument_error "range requires an integer step")
                   end in
      if step =? 0 then
        Err (runtime_error "argument_error" "number_out_of_range" "range step cannot be zero")
      else Ok {| range_next := Some start; range_end := end_; range_step := step |}
  | _ => Err (argument_error "range requires integer endpoints")
  end.

(** [Iterator::next]: the item and the iterator after it. *)
Definition iter_next (self : IntegerRange) : option Value * IntegerRange :=
  let with_next n := {| range_next := n; range_end := range_end self; range_step := range_step self |} in
  match range_next self with
  | None => (None, self)
  | Some value =>
      if (0 <? range_step self) && (range_end self <? value) ||
         (range_step self <? 0) && (value <? range_end self) then (None, with_next None)
      else (Some (Integer value), with_next (i64_checked (value + range_step self)))
  end.

(** The items an iterator yields within [fuel] calls, and whether it ended. *)
Fixpoint iterate (fuel : nat) (range : IntegerRange) : list Value * bool :=
  match fuel with
  | O => ([], false)
  | S fuel =>
      match iter_next range with
      | (None, _) => ([], true)
      | (Some value, range) => let '(values, ended) := iterate fuel range in (value :: values, ended)
      end
  end.

Definition range_count (start end_ step : Z) : Z :=
  let distance := (end_ - start) * Z.sgn step in
  if distance <? 0 then 0 else distance / Z.abs step + 1.

(** The loop that fills the admitted slots; its assertions panic ([None]). *)
Fixpoint fill_range (fuel : nat) (range : IntegerRange) (values : list Value) (count : Z)
    : option (list Value) :=
  match fuel with
  | O => None
  | S fuel =>
      match iter_next range with
      | (None, _) => if len values =? count then Some values else None
      | (Some value, range) =>
          if len values <? count then fill_range fuel range (values ++ [value]) count else None
      end
  end.

(** [range]: [admitted] is the outcome of the memory admission of [count + 1]
    values. [None] is a panic. *)
Definition range_function (fuel : nat) (args : list Value) (max_collection_items : Z)
    (admission : Z -> result QueryError unit) : option (result QueryError Value) :=
  match range_new args with
  | Err e => Some (Err e)
  | Ok range =>
      start ← range_next range;
      let count := range_count start (range_end range) (range_step range) in
      if max_collection_items <? count then
        Some (Err (runtime_error "resource_limit" "collection_limit" "range exceeds the collection budget"))
      else
        match admission (sat_add 64 count 1) with
        | Err e => Some (Err e)
        | Ok _ => values ← fill_range fuel range [] count; Some (Ok (List values))
        end
  end.

(** ** Windows (window.rs) *)

Record Window := { skip : Z; limit : Z }.

Section Window.
Context {Expression : Type} (evaluate : Expression -> result QueryError Value).

Definition window_bound (expression : option Expression) (missing : Z) : result QueryError Z :=
  match expression with
  | None => Ok missing
  | Some expression => let? value := evaluate expression in nonnegative value
  end.

Definition window_evaluate (skip limit : option Expression) : result QueryError Window :=
  let? skip := window_bound skip 0 in
  let? limit := window_bound limit (umax 64) in
  Ok {| skip := skip; limit := limit |}.
End Window.

Definition retained_rows (self : Window) : Z :=
  if limit self =? 0 then 0 else sat_add 64 (skip self) (limit self).

(** ** The items of a range *)

Definition start_at (start end_ step : Z) : IntegerRange :=
  {| range_next := Some start; range_end := end_; range_step := step |}.

Definition progression (start step : Z) (n : nat) : list Value :=
  map (fun k => Integer (start + Z.of_nat k * step)) (seq 0 n).

(** [z] has not passed [end_] in the direction of [step]. *)
Definition not_past (end_ step z : Z) : Prop := (0 < step -> z <= end_) /\ (step < 0 -> end_ <= z).

Lemma past_iff end_ step z :
  (0 <? step) && (end_ <? z) || (step <? 0) && (z <? end_) = false <-> not_past end_ step z.
Proof. unfold not_past. rewrite orb_false_iff, !andb_false_iff, !Z.ltb_ge. lia. Qed.

Lemma range_count_step start end_ step : step <> 0 ->
  0 <= range_count start end_ step /\
  (not_past end_ step start -> range_count start end_ step = 1 + range_count (start + step) end_ step) /\
  (~ not_past end_ step start -> range_count start end_ step = 0).
Proof.
  intros Hs. unfold range_count, not_past.
  assert ((end_ - (start + step)) * Z.sgn step = (end_ - start) * Z.sgn step - Z.abs step) as -> by lia.
  assert (not_past end_ step start <-> 0 <= (end_ - start) * Z.sgn step) as Hp by (unfold not_past; lia).
  unfold not_past in Hp. set (d := (end_ - start) * Z.sgn step) in *. clearbody d.
  assert (0 < Z.abs step) as Ha by lia. set (a := Z.abs step) in *. clearbody a.
  destruct (Z.ltb_spec d 0).
  - split_and!; [lia|lia|done].
  - pose proof (Z.div_pos d a). split_and!; [lia| |tauto]. intros _.
    destruct (Z.ltb_spec (d - a) 0); [rewrite Z.div_small by lia; lia|].
    assert (d / a = (d - a) / a + 1) as ->; [|lia].
    rewrite <- Z.div_add by lia. f_equal. lia.
Qed.

Lemma progression_cons start step n :
  progression start step (S n) = Integer start :: progression (start + step) step n.
Proof.
  unfold progression. cbn [seq map]. f_equal; [f_equal; lia|]. rewrite <- seq_shift, map_map.
  apply map_ext. intros k. f_equal. lia.
Qed.

Lemma iterate_exact fuel : forall start end_ step, in_i 64 start -> in_i 64 end_ -> in_i 64 step -> step <> 0 ->
  range_count start end_ step < Z.of_nat fuel ->
  iterate fuel (start_at start end_ step) =
  (progression start step (Z.to_nat (range_count start end_ step)), true).
Proof.
  induction fuel as [|fuel IH]; intros start end_ step Hstart Hend Hstep Hs Hfuel;
    destruct (range_count_step start end_ step Hs) as (Hpos & Hin & Hout); [lia|].
  cbn [iterate]. unfold start_at, iter_next. cbn [range_next range_end range_step].
  destruct ((0 <? step) && (end_ <? start) || (step <? 0) && (start <? end_)) eqn:Ep.
  - rewrite Hout; [done|]. rewrite <- past_iff, Ep. discriminate.
  - apply past_iff in Ep. rewrite (Hin Ep) in *.
    destruct (range_count_step (start + step) end_ step Hs) as (Hpos' & _ & Hout').
    rewrite Z.add_1_l, Z2Nat.inj_succ, progression_cons by done. unfold i64_checked. case_bool_decide as Hi.
    + fold (start_at (start + step) end_ step). rewrite IH by (done || lia). done.
    + assert (range_count (start + step) end_ step = 0) as E.
      { apply Hout'. unfold not_past, in_i in *. simpl in *. lia. }
      rewrite E in *. destruct fuel; [lia|]. done.
Qed.

Lemma fill_iterate fuel count : forall range acc values, iterate fuel range = (values, true) ->
  len acc + len values = count -> fill_range fuel range acc count = Some (acc ++ values).
Proof.
  induction fuel as [|fuel IH]; intros range acc values; cbn [iterate fill_range]; [done|].
  destruct (iter_next range) as [[v|] range'].
  - destruct (iterate fuel range') as [vs ended] eqn:E. intros [= <- ->] Hc. unfold len in *. simpl in Hc.
    rewrite (proj2 (Z.ltb_lt _ _)) by lia. rewrite (IH range' (acc ++ [v]) vs) by (done || (unfold len; rewrite length_app; simpl; lia)).
    by rewrite <- app_assoc.
  - intros [= <-] Hc. unfold len in *. simpl in Hc. rewrite (proj2 (Z.eqb_eq _ _)) by lia. by rewrite app_nil_r.
Qed.

Lemma in_progression start end_ step z : step <> 0 ->
  Integer z ∈ progression start step (Z.to_nat (range_count start end_ step)) <->
  not_past end_ step z /\ exists k, 0 <= k /\ z = start + k * step.
Proof.
  intros Hs. unfold progression. rewrite list_elem_of_In, in_map_iff.
  assert (forall n start, range_count start end_ step = Z.of_nat n -> forall k, 0 <= k ->
    k < Z.of_nat n <-> not_past end_ step (start + k * step)) as Hn.
  { clear start z. induction n as [|n IH]; intros start Hc k Hk;
      destruct (range_count_step start end_ step Hs) as (_ & Hin & Hout).
    - split; [lia|]. intros Hp. destruct (decide (not_past end_ step start)) as [Hq|Hq].
      + specialize (Hin Hq). destruct (range_count_step (start + step) end_ step Hs). lia.
      + exfalso. apply Hq. unfold not_past in *. nia.
    - destruct (decide (not_past end_ step start)) as [Hq|Hq]; [|specialize (Hout Hq); lia].
      specialize (Hin Hq). destruct (decide (k = 0)) as [->|Hk0].
      + rewrite Z.mul_0_l, Z.add_0_r. split; [done|lia].
      + assert (start + k * step = start + step + (k - 1) * step) as -> by lia.
        rewrite <- (IH (start + step)) by lia. lia. }
  destruct (range_count_step start end_ step Hs) as (Hpos & _). specialize (Hn (Z.to_nat (range_count start end_ step)) start).
  rewrite Z2Nat.id in Hn by done. specialize (Hn eq_refl). split.
  - intros (k & [= <-] & Hk%in_seq). specialize (Hn (Z.of_nat k) ltac:(lia)). split; [apply Hn; lia|].
    exists (Z.of_nat k). lia.
  - intros (Hp & k & Hk & ->). exists (Z.to_nat k). rewrite Z2Nat.id by done. split; [done|].
    apply in_seq. apply Hn in Hp; lia.
Qed.

(** [C34] Integer ranges are exact and safe at the ends of the 64-bit range: the
    generator ends after as many items as [range_count] says, its items are
    [start], [start + step], ... and are exactly the integers reachable from
    [start] by steps that do not pass [end], inclusively, in either direction;
    stepping past the representable integers ends the generator without an
    overflow. The [range] function fails exactly when the count exceeds the
    collection budget or memory is refused, its assertions never fail, and
    otherwise it returns precisely the generator's items. *)
Theorem range_exact start end_ step fuel :
  in_i 64 start -> in_i 64 end_ -> in_i 64 step -> step <> 0 ->
  range_count start end_ step < Z.of_nat fuel ->
  let count := range_count start end_ step in
  let values := progression start step (Z.to_nat count) in
  range_new [Integer start; Integer end_; Integer step] = Ok (start_at start end_ step) /\
  iterate fuel (start_at start end_ step) = (values, true) /\
  (forall z, Integer z ∈ values <-> not_past end_ step z /\ exists k, 0 <= k /\ z = start + k * step) /\
  (forall max admission, range_function fuel [Integer start; Integer end_; Integer step] max admission =
    Some (if max <? count then
            Err (runtime_error "resource_limit" "collection_limit" "range exceeds the collection budget")
          else let? _ := admission (sat_add 64 count 1) in Ok (List values))).
Proof.
  intros Hstart Hend Hstep Hs Hfuel count values.
  assert (range_new [Integer start; Integer end_; Integer step] = Ok (start_at start end_ step)) as Hnew.
  { simpl. by rewrite (proj2 (Z.eqb_neq step 0) Hs). }
  pose proof (iterate_exact fuel start end_ step Hstart Hend Hstep Hs Hfuel) as Hit.
  split_and!; [done|done|intros z; by apply in_progression|]. intros max admission.
  unfold range_function. rewrite Hnew. cbn [start_at range_next range_end range_step mbind option_bind].
  fold count. destruct (max <? count); [done|]. destruct (admission (sat_add 64 count 1)); [|done].
  cbn [result_bind]. rewrite (fill_iterate fuel count _ [] values); [done|exact Hit|].
  unfold values, progression, len. rewrite length_map, length_seq. destruct (range_count_step start end_ step Hs). simpl length. lia.
Qed.

(** Down to the least integer by steps that overflow. *)
Lemma range_exact_witness :
  range_function 5 [Integer (- 2 ^ 63 + 7); Integer (- 2 ^ 63); Integer (-3)] 10 (fun _ => Ok tt) =
  Some (Ok (List [Integer (- 2 ^ 63 + 7); Integer (- 2 ^ 63 + 4); Integer (- 2 ^ 63 + 1)])).
Proof.
  destruct (range_exact (- 2 ^ 63 + 7) (- 2 ^ 63) (-3) 5) as (_ & _ & _ & H);
    [by vm_compute..|].
  rewrite H. vm_compute. reflexivity.
Defined.

(** ** Positions and slices *)

(** Position [i] counted from the end when negative. *)
Definition from_end (i n : Z) : Z := if i <? 0 then n + i else i.

Lemma index_list_some (values : list Value) i : index_list values i = Some
  (if (0 <=? from_end i (len values)) && (from_end i (len values) <? len values)
   then default Null (values !! Z.to_nat (from_end i (len values))) else Null).
Proof.
  unfold index_list, position, from_end.
  set (p := if i <? 0 then len values + i else i). clearbody p.
  destruct ((0 <=? p) && (p <? len values)) eqn:E; [|done].
  apply andb_true_iff in E as [?%Z.leb_le ?%Z.ltb_lt]. unfold len in *.
  destruct (lookup_lt_is_Some_2 values (Z.to_nat p)) as [v ->]; [lia|done].
Qed.

Lemma slice_position_bounds i n : 0 <= n -> 0 <= slice_position i n <= n.
Proof. unfold slice_position. destruct (i <? 0); lia. Qed.

Lemma slice_list_some {A} (values : list A) s e : 0 <= s -> 0 <= e <= len values ->
  slice_list values s e = Some (if e <=? s then [] else drop (Z.to_nat s) (take (Z.to_nat e) values)).
Proof.
  intros Hs He. unfold slice_list. destruct (Z.leb_spec e s); [done|].
  assert (len (take (Z.to_nat e) values) = e) as -> by (unfold len in *; rewrite length_take; lia).
  by rewrite (proj2 (Z.leb_le s e)) by lia.
Qed.

(** List indexing and slicing never panic: an index selects the element at
    that position, counted from the end when negative, and null outside the
    list; a slice holds exactly the elements whose positions lie from the start
    bound up to, but not including, the end bound, after each bound is counted
    from the end when negative and clamped to the list. *)
Theorem positions_exact (values : list Value) :
  (forall i, index_list values i = Some
    (if (0 <=? from_end i (len values)) && (from_end i (len values) <? len values)
     then default Null (values !! Z.to_nat (from_end i (len values))) else Null)) /\
  (forall start end_, exists slice,
    slice_list values (slice_position start (len values)) (slice_position end_ (len values)) = Some slice /\
    forall j, slice !! j =
      let p := slice_position start (len values) + Z.of_nat j in
      if p <? slice_position end_ (len values) then values !! Z.to_nat p else None).
Proof.
  split.
  - apply index_list_some.
  - intros start end_. assert (0 <= len values) as Hn by (unfold len; lia).
    pose proof (slice_position_bounds start (len values) Hn). pose proof (slice_position_bounds end_ (len values) Hn).
    set (s := slice_position start (len values)) in *. set (e := slice_position end_ (len values)) in *. clearbody s e.
    rewrite slice_list_some by lia. eexists. split; [done|]. intros j. cbv zeta.
    destruct (Z.leb_spec e s); [simpl; by rewrite (proj2 (Z.ltb_ge _ _)) by lia|].
    rewrite lookup_drop. destruct (Z.ltb_spec (s + Z.of_nat j) e).
    + rewrite lookup_take_lt by lia. f_equal. lia.
    + apply lookup_take_ge. lia.
Qed.

(** ** Windows *)

Definition apply_window {A} (w : Window) (rows : list A) : list A :=
  take (Z.to_nat (limit w)) (drop (Z.to_nat (skip w)) rows).

Lemma take_retained {A} (rows : list A) s l :
  take l (drop s (take (s + l) rows)) = take l (drop s rows).
Proof. rewrite skipn_firstn_comm. replace (s + l - s)%nat with l by lia. rewrite take_take. f_equal. lia. Qed.

(** A row window needs no more than the rows it says it retains: keeping
    only the first [retained_rows] rows (none when LIMIT is 0) gives the same
    window as all of them, even where SKIP plus LIMIT saturates. Evaluating a
    window checks SKIP before LIMIT, whatever LIMIT is: it succeeds exactly when
    both are absent or nonnegative integers, fails with SKIP's error when that
    is invalid, and with LIMIT's otherwise. *)
Theorem window_exact :
  (forall A (rows : list A) w, 0 <= skip w -> 0 <= limit w -> len rows <= umax 64 ->
    apply_window w (take (Z.to_nat (retained_rows w)) rows) = apply_window w rows) /\
  (forall E (evaluate : E -> result QueryError Value) skip limit,
    match window_bound evaluate skip 0 with
    | Err e => window_evaluate evaluate skip limit = Err e
    | Ok s =>
        match window_bound evaluate limit (umax 64) with
        | Err e => window_evaluate evaluate skip limit = Err e
        | Ok l => window_evaluate evaluate skip limit = Ok {| skip := s; limit := l |} /\ 0 <= s /\ 0 <= l
        end
    end).
Proof.
  split.
  - intros A rows [s l] Hs Hl Hlen. unfold apply_window, retained_rows, sat_add, len in *. simpl in *.
    destruct (Z.eqb_spec l 0) as [->|]; [by rewrite !take_0|].
    destruct (Z.le_gt_cases (s + l) (umax 64)).
    + rewrite Z.min_l by done. rewrite Z2Nat.inj_add by done. apply take_retained.
    + rewrite Z.min_r by lia. by rewrite (take_ge rows) by lia.
  - intros E evaluate skip limit.
    assert (forall e missing z, 0 <= missing -> window_bound evaluate e missing = Ok z -> 0 <= z) as Hz.
    { intros e missing z Hm. destruct e as [e|]; simpl; [|by intros [= <-]].
      destruct (evaluate e) as [[]|]; try done. simpl. destruct (Z.leb_spec 0 z0); [by intros [= <-]|done]. }
    unfold window_evaluate. destruct (window_bound evaluate skip 0) as [s|] eqn:Es; [|done]. cbn [result_bind].
    destruct (window_bound evaluate limit (umax 64)) as [l|] eqn:El; [|done]. cbn [result_bind].
    split_and!; [done|by eapply Hz; [|exact Es]|by eapply Hz; [|exact El]].
Qed.

Lemma window_exact_witness :
  apply_window {| skip := 2; limit := 3 |} (take 5 [1; 2; 3; 4; 5; 6; 7]) = [3; 4; 5].
Proof.
  pose proof (proj1 window_exact Z [1; 2; 3; 4; 5; 6; 7] {| skip := 2; limit := 3 |}) as H.
  etransitivity; [apply H; [done..|vm_compute; discriminate]|reflexivity].
Defined.

End QueryRange.
