(* ===== verification/QueryOperators.v ===== *)
(** The operators of query expressions: [binary] and [predicate_order] of
    crates/planner/src/relational/evaluation.rs, and the [Unary] arms of its
    [eval].

    Floats are their bit patterns; their arithmetic is IEEE 754 binary64, computed
    by the Standard Library's [SpecFloat]. What the language leaves unspecified is
    a variable of the model: the bit pattern of a NaN that arithmetic produces,
    and the result of [powf]. *)
From Stdlib Require Import Floats.SpecFloat.
From S2P Require Import Prelude Bytes ValueSemantics Property QueryValue QueryEquals QueryRange.

Open Scope Z_scope.

Module QueryOperators.
Export QueryEquals QueryRange.

Inductive Binary :=
| Add | Subtract | Multiply | Divide | Modulo | Power | Equal | NotEqual
| Less | LessEqual | Greater | GreaterEqual | In | StartsWith | EndsWith | Contains.

Inductive Unary := Not | Negate | Positive | IsNull | IsNotNull.

#[global] Instance Binary_eq_dec : EqDecision Binary.
Proof. solve_decision. Defined.

(** ** binary64 *)

Definition decode_f64 (bits : Z) : spec_float :=
  let s := Z.testbit bits 63 in
  let e := (bits / 2 ^ 52) mod 2 ^ 11 in
  let f := bits mod 2 ^ 52 in
  if e =? 2047 then if f =? 0 then S754_infinity s else S754_nan
  else if e =? 0 then match f with Zpos m => S754_finite s m (-1074) | _ => S754_zero s end
  else match 2 ^ 52 + f with Zpos m => S754_finite s m (e - 1075) | _ => S754_nan end.

Section Float.
Context (nan : Z) (powf : Z -> Z -> Z).

Definition encode_f64 (f : spec_float) : Z :=
  let sign (s : bool) := if s then 2 ^ 63 else 0 in
  match f with
  | S754_zero s => sign s
  | S754_infinity s => sign s + 2047 * 2 ^ 52
  | S754_nan => nan
  | S754_finite s m e =>
      if Zpos m <? 2 ^ 52 then sign s + Zpos m
      else sign s + (e + 1075) * 2 ^ 52 + (Zpos m - 2 ^ 52)
  end.

(** [i as f64]. *)
Definition f64_of_i64 (i : Z) : Z := encode_f64 (binary_normalize 53 1024 i 0 false).

(** [a % b]: exact, with the sign of [a]. *)
Definition SFrem (a b : spec_float) : spec_float :=
  match a, b with
  | S754_nan, _ | _, S754_nan | S754_infinity _, _ | _, S754_zero _ => S754_nan
  | S754_zero _, _ | _, S754_infinity _ => a
  | S754_finite s m1 e1, S754_finite _ m2 e2 =>
      let e := Z.min e1 e2 in
      let r := (Zpos m1 * 2 ^ (e1 - e)) mod (Zpos m2 * 2 ^ (e2 - e)) in
      binary_normalize 53 1024 (if s then - r else r) e s
  end.

Definition float_op (op : spec_float -> spec_float -> spec_float) (a b : Z) : Z :=
  encode_f64 (op (decode_f64 a) (decode_f64 b)).

(** Unary minus flips the sign bit; it is exact on every bit pattern. *)
Definition f64_neg (bits : Z) : Z := Z.lxor bits (2 ^ 63).

(** ** Predicates *)

Definition truth (value : option bool) : Value :=
  match value with
  | Some b => Boolean b
  | None => Null
  end.

(** The loop over zipped elements: the first difference, unknown at an
    incomparable pair. *)
Fixpoint first_difference {A} (order : A -> A -> option comparison) (a b : list A) : option comparison :=
  match a, b with
  | x :: a, y :: b =>
      comparison ← order x y;
      match comparison with
      | Eq => first_difference order a b
      | c => Some c
      end
  | _, _ => Some Eq
  end.

Fixpoint predicate_order (a b : Value) {struct a} : option comparison :=
  match a, b with
  | (Integer _ | Float _), (Integer _ | Float _) => number_cmp a b
  | Str a, Str b => Some (bytes_cmp a b)
  | Boolean a, Boolean b => Some (Property.bool_cmp a b)
  | List a, List b =>
      comparison ← first_difference predicate_order a b;
      Some (match comparison with
            | Eq => Nat.compare (length a) (length b)
            | c => c
            end)
  | _, _ => None
  end.

Definition is_nan_value (v : Value) : bool :=
  match v with
  | Float f => f64_is_nan f
  | _ => false
  end.
Definition is_number (v : Value) : bool :=
  match v with
  | Integer _ | Float _ => true
  | _ => false
  end.
Definition is_null (v : Value) : bool :=
  match v with
  | Null => true
  | _ => false
  end.

(** [IN]: the loop over the list. *)
Fixpoint in_list (a : Value) (xs : list Value) (unknown : bool) : Value :=
  match xs with
  | [] => if unknown then Null else Boolean false
  | x :: xs =>
      match equals a x with
      | Some true => Boolean true
      | None => in_list a xs true
      | Some false => in_list a xs unknown
      end
  end.

Definition compare_op (op : Binary) : option (comparison -> bool) :=
  match op with
  | Less => Some (fun o => match o with Lt => true | _ => false end)
  | LessEqual => Some (fun o => match o with Gt => false | _ => true end)
  | Greater => Some (fun o => match o with Gt => true | _ => false end)
  | GreaterEqual => Some (fun o => match o with Lt => false | _ => true end)
  | _ => None
  end.

Definition starts_with (a b : bytes) : bool :=
  match strip_prefix b a with
  | Some _ => true
  | None => false
  end.
Definition ends_with (a b : bytes) : bool := starts_with (reverse a) (reverse b).
Fixpoint contains (a b : bytes) : bool :=
  starts_with a b ||
  match a with
  | [] => false
  | _ :: a => contains a b
  end.

Definition string_op (op : Binary) : option (bytes -> bytes -> bool) :=
  match op with
  | StartsWith => Some starts_with
  | EndsWith => Some ends_with
  | Contains => Some contains
  | _ => None
  end.

(** ** Arithmetic *)

Definition division_by_zero : QueryError :=
  runtime_error "arithmetic_error" "division_by_zero" "integer division by zero".

Definition is_division (op : Binary) : bool :=
  match op with
  | Divide | Modulo => true
  | _ => false
  end.

(** [checked_rem]: no remainder where the quotient overflows. *)
Definition i64_checked_rem (a b : Z) : option Z :=
  if (a =? - 2 ^ 63) && (b =? -1) then None else Some (Z.rem a b).

Definition integer_arithmetic (op : Binary) (a b : Z) : result QueryError Value :=
  if is_division op && (b =? 0) then Err division_by_zero
  else
    let checked value := let? v := ok_or value overflow in Ok (Integer v) in
    match op with
    | Add => checked (i64_checked (a + b))
    | Subtract => checked (i64_checked (a - b))
    | Multiply => checked (i64_checked (a * b))
    | Divide => checked (i64_checked (Z.quot a b))
    | Modulo => checked (i64_checked_rem a b)
    | Power => Ok (Float (powf (f64_of_i64 a) (f64_of_i64 b)))
    | _ => Err (type_error "invalid numeric operation")
    end.

Definition float (v : Value) : result QueryError Z :=
  match v with
  | Integer i => Ok (f64_of_i64 i)
  | Float f => Ok f
  | _ => Err (type_error "arithmetic requires numbers")
  end.

Definition float_arithmetic (op : Binary) (a b : Z) : result QueryError Value :=
  match op with
  | Add => Ok (Float (float_op (SFadd 53 1024) a b))
  | Subtract => Ok (Float (float_op (SFsub 53 1024) a b))
  | Multiply => Ok (Float (float_op (SFmul 53 1024) a b))
  | Divide => Ok (Float (float_op (SFdiv 53 1024) a b))
  | Modulo => Ok (Float (float_op SFrem a b))
  | Power => Ok (Float (powf a b))
  | _ => Err (type_error "invalid arithmetic operation")
  end.

Definition binary (op : Binary) (a b : Value) : result QueryError Value :=
  match op with
  | In =>
      match b with
      | Null => Ok Null
      | List xs => Ok (in_list a xs false)
      | _ => Err (type_error "IN requires a list")
      end
  | Equal => Ok (truth (equals a b))
  | NotEqual => Ok (truth (negb <$> equals a b))
  | _ =>
      if is_null a || is_null b then Ok Null
      else
        match compare_op op, string_op op with
        | Some test, _ =>
            if is_number a && is_number b && (is_nan_value a || is_nan_value b) then Ok (Boolean false)
            else Ok (truth (test <$> predicate_order a b))
        | None, Some test =>
            match a, b with
            | Str a, Str b => Ok (Boolean (test a b))
            | _, _ => Ok Null
            end
        | None, None =>
            match a, b with
            | Integer a, Integer b => integer_arithmetic op a b
            | _, _ => let? a := float a in let? b := float b in float_arithmetic op a b
            end
        end
  end.

(** The [Unary] arms of [Evaluation::eval]. *)
Definition unary (op : Unary) (x : Value) : result QueryError Value :=
  match op with
  | IsNull => Ok (Boolean (is_null x))
  | IsNotNull => Ok (Boolean (negb (is_null x)))
  | Not => let? t := truth_of x in Ok (truth (negb <$> t))
  | Positive =>
      match x with
      | Null | Integer _ | Float _ => Ok x
      | _ => Err (type_error "unary + requires a number")
      end
  | Negate =>
      match x with
      | Null => Ok Null
      | Integer i => let? i := ok_or (i64_checked (- i)) overflow in Ok (Integer i)
      | Float f => Ok (Float (f64_neg f))
      | _ => Err (type_error "unary - requires a number")
      end
  end.
End Float.

(** ** Order and equality agree *)

Lemma first_difference_spec l k :
  Forall (fun x => forall y o, predicate_order x y = Some o ->
    total_cmp x y = o /\ equals x y = Some (match o with Eq => true | _ => false end)) l ->
  forall c, first_difference predicate_order l k = Some c ->
    zip_cmp total_cmp l k = c /\
    (length l = length k -> forall u, all_equal equals l k u =
      match c with Eq => if u then None else Some true | _ => Some false end).
Proof.
  intros H; revert k. induction H as [|x l Hx _ IH]; intros [|y k] c; simpl; try (by intros [= <-]).
  destruct (predicate_order x y) as [o|] eqn:E; [|done]. cbn [mbind option_bind].
  destruct (Hx y o E) as [-> ->]. intros Hc. destruct o; simpl.
  - destruct (IH k c Hc) as [-> Hall]. split; [done|]. intros [= Hlen] u. by apply Hall.
  - injection Hc as <-. done.
  - injection Hc as <-. done.
Qed.

Lemma predicate_order_spec a : forall b o, predicate_order a b = Some o ->
  total_cmp a b = o /\ equals a b = Some (match o with Eq => true | _ => false end).
Proof.
  assert (forall a b o, is_number a = true -> is_number b = true -> number_cmp a b = Some o ->
    numeric_cmp a b = o /\ Some (bool_decide (number_cmp a b = Some Eq)) = Some (match o with Eq => true | _ => false end)) as Hnum.
  { intros a' b' o _ _ E. unfold numeric_cmp. rewrite E. split; [done|]. by destruct o. }
  induction a as [a Ha|l IH|m IH] using value_ind'; intros b o.
  - destruct a as [|x|x|x|x|x|x|x|x]; try (by destruct Ha); destruct b as [|y|y|y|y|y|y|y|y]; try discriminate;
      try (by apply Hnum); cbn [predicate_order]; intros [= <-]; simpl.
    + split; [done|]. by destruct x, y.
    + split; [done|]. destruct (bytes_cmp x y) eqn:E.
      * apply cmp_eq in E as ->. f_equal. by apply Property.bytes_eqb_eq.
      * f_equal. apply not_true_is_false. intros ->%Property.bytes_eqb_eq. by rewrite cmp_refl in E.
      * f_equal. apply not_true_is_false. intros ->%Property.bytes_eqb_eq. by rewrite cmp_refl in E.
  - destruct b as [| | | | |k| | |]; try discriminate. cbn [predicate_order].
    destruct (first_difference predicate_order l k) as [c|] eqn:E; [|done]. cbn [mbind option_bind]. intros [= <-].
    destruct (first_difference_spec l k IH c E) as [Hz Hall].
    change (total_cmp (List l) (List k)) with (compare_lists total_cmp l k).
    unfold compare_lists. rewrite Hz, equals_lists. split; [by destruct c|].
    destruct (Nat.eqb_spec (length l) (length k)) as [Hlen|Hlen].
    + rewrite Hall by done. rewrite Hlen, Nat.compare_refl. by destruct c.
    + destruct c; [|done..]. destruct (Nat.compare_spec (length l) (length k)); [done..].
  - by destruct b.
Qed.

Lemma first_difference_sym l k :
  Forall (fun x => forall y, predicate_order y x = CompOpp <$> predicate_order x y) l ->
  first_difference predicate_order k l = CompOpp <$> first_difference predicate_order l k.
Proof.
  intros H; revert k. induction H as [|x l Hx _ IH]; intros [|y k]; simpl; try done.
  rewrite Hx. destruct (predicate_order x y) as [[]|]; [|done..]. apply IH.
Qed.

Lemma predicate_order_sym a : forall b, predicate_order b a = CompOpp <$> predicate_order a b.
Proof.
  induction a as [a Ha|l IH|m IH] using value_ind'; intros b.
  - destruct a as [|x|x|x|x|x|x|x|x]; try (by destruct Ha); destruct b as [|y|y|y|y|y|y|y|y]; try reflexivity;
      try (apply number_cmp_sym); simpl; f_equal.
    + by destruct x, y.
    + apply cmp_sym.
  - destruct b as [| | | | |k| | |]; try reflexivity. cbn [predicate_order].
    rewrite (first_difference_sym l k IH). destruct (first_difference predicate_order l k) as [[]|]; try done.
    cbn. f_equal. apply cmp_sym.
  - by destruct b.
Qed.

(** Comparable values are neither null nor NaN. *)
Lemma predicate_order_plain a b o : predicate_order a b = Some o ->
  is_null a = false /\ is_null b = false /\ is_nan_value a = false /\ is_nan_value b = false.
Proof.
  destruct a as [|x|x|x|x|x|x|x|x], b as [|y|y|y|y|y|y|y|y]; try discriminate; try done;
    cbn [predicate_order is_null is_nan_value]; unfold number_cmp; cbn [number]; rewrite ?f64_is_nan_eq.
  - by destruct (Canonical.from_f64 y).
  - by destruct (Canonical.from_f64 x).
  - by destruct (Canonical.from_f64 x), (Canonical.from_f64 y).
Qed.

Lemma compare_op_binary nan powf op test a b : compare_op op = Some test ->
  binary nan powf op a b =
  Ok (if is_null a || is_null b then Null
      else if is_number a && is_number b && (is_nan_value a || is_nan_value b) then Boolean false
      else truth (test <$> predicate_order a b)).
Proof.
  destruct op; try discriminate; intros [= <-]; simpl; destruct (is_null a || is_null b); try done; by destruct (_ && _).
Qed.

(** Whether the special NaN case applies. *)
Definition nan_comparison (a b : Value) : bool :=
  is_number a && is_number b && (is_nan_value a || is_nan_value b).

(** The comparison operators are one order: where two values are comparable
    (numbers, strings, booleans, and lists of them), the four operators and [=]
    all answer from the same comparison, which is the one sorting and grouping
    use; elsewhere, nulls included, they answer null, except that a number
    compared with NaN is false. Swapping the operands swaps [<] with [>] and
    [<=] with [>=], on every input. *)
Theorem comparisons_exact nan powf (a b : Value) :
  (forall o, predicate_order a b = Some o ->
    total_cmp a b = o /\
    binary nan powf Equal a b = Ok (Boolean (match o with Eq => true | _ => false end)) /\
    forall op test, compare_op op = Some test -> binary nan powf op a b = Ok (Boolean (test o))) /\
  (predicate_order a b = None -> forall op test, compare_op op = Some test ->
    binary nan powf op a b = Ok (if nan_comparison a b then Boolean false else Null)) /\
  binary nan powf Less a b = binary nan powf Greater b a /\
  binary nan powf LessEqual a b = binary nan powf GreaterEqual b a.
Proof.
  split_and!.
  - intros o Ho. destruct (predicate_order_spec a b o Ho) as [Ht He].
    destruct (predicate_order_plain a b o Ho) as (Na & Nb & Fa & Fb).
    split_and!; [done|simpl; by rewrite He|]. intros op test Hop. rewrite (compare_op_binary _ _ op test) by done.
    by rewrite Na, Nb, Fa, Fb, andb_false_r, Ho.
  - intros Hn op test Hop. rewrite (compare_op_binary _ _ op test) by done. rewrite Hn. unfold nan_comparison.
    destruct (is_null a) eqn:Na; [by destruct a|]. destruct (is_null b) eqn:Nb; [destruct b; try done; by rewrite andb_false_r|].
    by destruct (_ && _).
  - rewrite (compare_op_binary _ _ Less _ a b eq_refl), (compare_op_binary _ _ Greater _ b a eq_refl).
    rewrite (predicate_order_sym a b), (orb_comm (is_null b)), (andb_comm (is_number b)), (orb_comm (is_nan_value b)).
    destruct (predicate_order a b) as [[]|]; reflexivity.
  - rewrite (compare_op_binary _ _ LessEqual _ a b eq_refl), (compare_op_binary _ _ GreaterEqual _ b a eq_refl).
    rewrite (predicate_order_sym a b), (orb_comm (is_null b)), (andb_comm (is_number b)), (orb_comm (is_nan_value b)).
    destruct (predicate_order a b) as [[]|]; reflexivity.
Qed.

(** [[1, "b"] < [1.0, "c", null]]. *)
Lemma comparisons_exact_witness :
  let a := List [Integer 1; Str [98]] in
  let b := List [Float 0x3FF0000000000000; Str [99]; Null] in
  (predicate_order a b = Some Lt /\ binary 0 (fun x _ => x) LessEqual a b = Ok (Boolean true)) /\
  binary 0 (fun x _ => x) Greater (Integer 1) (Str [98]) = Ok Null.
Proof.
  intros a b. assert (predicate_order a b = Some Lt) as E by (vm_compute; reflexivity).
  split; [split; [exact E|]|].
  - apply (proj2 (proj2 (proj1 (comparisons_exact 0 (fun x _ => x) a b) Lt E)) LessEqual _ eq_refl).
  - apply (proj1 (proj2 (comparisons_exact 0 (fun x _ => x) (Integer 1) (Str [98]))) eq_refl Greater _ eq_refl).
Defined.

(** ** Membership *)

Lemma in_list_spec a xs u :
  in_list a xs u =
  if existsb (fun x => bool_decide (equals a x = Some true)) xs then Boolean true
  else if u || existsb (fun x => bool_decide (equals a x = None)) xs then Null else Boolean false.
Proof.
  revert u. induction xs as [|x xs IH]; intros u; simpl; [by destruct u|].
  destruct (equals a x) as [[]|]; simpl; [done| |]; rewrite IH; by rewrite ?orb_true_r.
Qed.

(** [IN] is the three-valued disjunction of [=] over the list: true when
    some element equals the operand, else null when some comparison is null (a
    null list included), else false; a right operand that is neither a list nor
    null is a type error, and nothing else fails. *)
Theorem in_exact nan powf (a b : Value) :
  match b with
  | Null => binary nan powf In a b = Ok Null
  | List xs =>
      (binary nan powf In a b = Ok (Boolean true) <->
        Exists (fun x => binary nan powf Equal a x = Ok (Boolean true)) xs) /\
      (binary nan powf In a b = Ok (Boolean false) <->
        Forall (fun x => binary nan powf Equal a x = Ok (Boolean false)) xs) /\
      (binary nan powf In a b = Ok Null \/ exists t, binary nan powf In a b = Ok (Boolean t))
  | _ => binary nan powf In a b = Err (type_error "IN requires a list")
  end.
Proof.
  destruct b as [| | | | |xs| | |]; try reflexivity. unfold binary. rewrite in_list_spec, orb_false_l.
  assert (forall x t, Ok (E := QueryError) (truth (equals a x)) = Ok (Boolean t) <-> equals a x = Some t) as Ht.
  { intros x t. destruct (equals a x) as [t'|]; simpl; split; try discriminate; by intros [= ->]. }
  destruct (existsb (fun x => bool_decide (equals a x = Some true)) xs) eqn:E1.
  - apply existsb_exists in E1 as (x & Hx & E%bool_decide_eq_true). split_and!.
    + split; [intros _|done]. apply Exists_exists. exists x. split; [by apply list_elem_of_In|by apply Ht].
    + split; [done|]. intros H. rewrite Forall_forall in H. specialize (H x ltac:(by apply list_elem_of_In)).
      apply Ht in H. congruence.
    + right. by exists true.
  - assert (forall x, x ∈ xs -> equals a x <> Some true) as Hn.
    { intros x Hx E. assert (existsb (fun x => bool_decide (equals a x = Some true)) xs = true); [|congruence].
      apply existsb_exists. exists x. split; [by apply list_elem_of_In|]. by apply bool_decide_eq_true. }
    assert ((Exists (fun x => Ok (E := QueryError) (truth (equals a x)) = Ok (Boolean true)) xs) -> False) as Hne.
    { intros (x & Hx & E)%Exists_exists. by apply (Hn x Hx), Ht. }
    destruct (existsb (fun x => bool_decide (equals a x = None)) xs) eqn:E2.
    + apply existsb_exists in E2 as (x & Hx & E%bool_decide_eq_true). split_and!.
      * split; [done|]. by intros ?%Hne.
      * split; [done|]. intros H. rewrite Forall_forall in H. specialize (H x ltac:(by apply list_elem_of_In)).
        apply Ht in H. congruence.
      * by left.
    + split_and!.
      * split; [done|]. by intros ?%Hne.
      * split; [intros _|done]. apply Forall_forall. intros x Hx. apply Ht. specialize (Hn x Hx).
        destruct (equals a x) as [[]|] eqn:E; [done|done|]. exfalso.
        assert (existsb (fun x => bool_decide (equals a x = None)) xs = true); [|congruence].
        apply existsb_exists. exists x. split; [by apply list_elem_of_In|]. by apply bool_decide_eq_true.
      * right. by exists false.
Qed.

(** ** Integer arithmetic *)

Lemma i64_checked_spec z : let r := let? v := ok_or (i64_checked z) overflow in Ok (Integer v) in
  (in_i 64 z -> r = Ok (Integer z)) /\ (~ in_i 64 z -> r = Err overflow).
Proof. unfold i64_checked. case_bool_decide; by split. Qed.

(** Integer arithmetic never wraps: addition, subtraction and
    multiplication give the exact result or, exactly when that does not fit 64
    bits, the overflow error; division and remainder by zero are the
    division-by-zero error, and otherwise they are the quotient truncated toward
    zero and the remainder with the dividend's sign that belong together, except
    for the least integer over -1, where both report overflow even though the
    remainder there is 0. *)
Theorem integer_arithmetic_exact nan powf a b : in_i 64 a -> in_i 64 b ->
  let op o := binary nan powf o (Integer a) (Integer b) in
  Forall (fun '(o, z) => (in_i 64 z -> op o = Ok (Integer z)) /\ (~ in_i 64 z -> op o = Err overflow))
    [(Add, a + b); (Subtract, a - b); (Multiply, a * b)] /\
  (b = 0 -> op Divide = Err division_by_zero /\ op Modulo = Err division_by_zero) /\
  (a = - 2 ^ 63 -> b = -1 -> op Divide = Err overflow /\ op Modulo = Err overflow /\ Z.rem a b = 0) /\
  (b <> 0 -> ~ (a = - 2 ^ 63 /\ b = -1) -> exists q r,
    op Divide = Ok (Integer q) /\ op Modulo = Ok (Integer r) /\
    a = b * q + r /\ Z.abs r < Z.abs b /\ 0 <= r * a /\ in_i 64 q).
Proof.
  intros Ha Hb op. split_and!.
  - repeat constructor; apply i64_checked_spec.
  - intros ->. done.
  - intros -> ->. done.
  - intros Hb0 Hmin. exists (Z.quot a b), (Z.rem a b).
    assert (in_i 64 (Z.quot a b)) as Hq.
    { assert (Z.abs (Z.quot a b) * Z.abs b <= Z.abs a) as Hle.
      { rewrite <- Z.quot_abs by done. pose proof (Z.mul_quot_le (Z.abs a) (Z.abs b)). lia. }
      unfold in_i in *. simpl in *. destruct (decide (Z.abs b = 1)) as [Hb1|Hb1].
      - assert (b = 1 \/ b = -1) as [-> | ->] by lia.
        + rewrite Z.quot_1_r. lia.
        + change (-1) with (- (1)). rewrite Z.quot_opp_r, Z.quot_1_r by done. lia.
      - assert (Z.abs (Z.quot a b) * 2 <= Z.abs a) by nia. lia. }
    assert (op Divide = Ok (Integer (Z.quot a b))) as ->.
    { unfold op. simpl. unfold integer_arithmetic. rewrite (proj2 (Z.eqb_neq b 0) Hb0). cbn [is_division andb].
      by apply i64_checked_spec. }
    assert (op Modulo = Ok (Integer (Z.rem a b))) as ->.
    { unfold op. simpl. unfold integer_arithmetic. rewrite (proj2 (Z.eqb_neq b 0) Hb0). cbn [is_division andb].
      unfold i64_checked_rem. destruct (Z.eqb_spec a (- 2 ^ 63)), (Z.eqb_spec b (-1)); cbn [andb]; try done. tauto. }
    split_and!; [done|done|apply Z.quot_rem'|by apply Z.rem_bound_abs|by apply Z.rem_sign_mul|done].
Qed.

Lemma integer_arithmetic_exact_witness :
  (in_i 64 (- 2 ^ 63) /\ binary 0 (fun x _ => x) Modulo (Integer (- 2 ^ 63)) (Integer (-1)) = Err overflow) /\
  binary 0 (fun x _ => x) Add (Integer (2 ^ 63 - 1)) (Integer 1) = Err overflow.
Proof.
  assert (in_i 64 (- 2 ^ 63) /\ in_i 64 (-1) /\ in_i 64 (2 ^ 63 - 1) /\ in_i 64 1) as (H1 & H2 & H3 & H4)
    by (by vm_compute).
  split; [split; [exact H1|]|].
  - apply (integer_arithmetic_exact 0 (fun x _ => x) (- 2 ^ 63) (-1) H1 H2); reflexivity.
  - destruct (integer_arithmetic_exact 0 (fun x _ => x) (2 ^ 63 - 1) 1 H3 H4) as [H _].
    apply Forall_inv in H. apply H. unfold in_i. simpl. lia.
Defined.

End QueryOperators.
