(* ===== verification/QueryExpression.v ===== *)
(** Query expressions: crates/planner/src/relational/expression.rs.

    The expression tree of the Cypher profile, its structural validation, its
    visitors and its rewriting. A [Box] is its content, an [AtLeast] collection a
    list (its lower bound is part of [well_formed]), a name its UTF-8 bytes. *)
From S2P Require Import Prelude Bytes QueryValue QueryShape QueryOperators.

Open Scope Z_scope.

Module QueryExpression.
Export QueryShape QueryOperators.

Inductive Connective := And | Or | Xor.

Inductive Function :=
| FId | FType | FLabels | FProperties | FKeys | FSize | FLength | FNodes | FRelationships
| FHead | FLast | FCoalesce | FToString | FToInteger | FToFloat | FToBoolean | FExists
| FAbs | FRange | FReverse | FTrim | FLtrim | FRtrim | FToLower | FToUpper | FSubstring.

Inductive Aggregate := Count | Sum | Avg | Minimum | Maximum | Collect.

Inductive Expression :=
| ELiteral (v : Value)
| ESlot (slot : Z)
| EParameter (name : bytes)
| EProperty (value : Expression) (key : bytes)
| EIndex (value index : Expression)
| ESlice (value : Expression) (start end_ : option Expression)
| EUnary (op : Unary) (x : Expression)
| EBinary (op : Binary) (left right : Expression)
| EConnective (op : Connective) (operands : list Expression)
| EFunction (function : Function) (args : list Expression)
| EAggregate (function : Aggregate) (argument : option Expression) (distinct : bool)
| EList (xs : list Expression)
| EMap (xs : list (bytes * Expression))
| ECase (branches : list (Expression * Expression)) (otherwise : Expression)
| ESimpleCase (operand : Expression) (branches : list (Expression * Expression)) (otherwise : Expression)
| EHasLabel (slot : Z) (label : bytes).

#[global] Instance Function_eq_dec : EqDecision Function.
Proof. solve_decision. Defined.
#[global] Instance Aggregate_eq_dec : EqDecision Aggregate.
Proof. solve_decision. Defined.

Definition MAX_EXPRESSION_NODES : Z := 200000.

Definition opt {A} (o : option A) : list A :=
  match o with
  | Some a => [a]
  | None => []
  end.

Definition pair_list {A} (p : A * A) : list A := [p.1; p.2].

(** ** Structural validation *)

(** What [child] pushes, in order. *)
Definition pushed (e : Expression) : list Expression :=
  match e with
  | ELiteral _ | ESlot _ | EParameter _ | EHasLabel _ _ => []
  | EProperty x _ | EUnary _ x => [x]
  | EIndex a b | EBinary _ a b => [a; b]
  | ESlice value start end_ => value :: opt start ++ opt end_
  | EList xs | EConnective _ xs | EFunction _ xs => xs
  | EMap xs => xs.*2
  | ECase branches otherwise => otherwise :: flat_map pair_list branches
  | ESimpleCase operand branches otherwise => operand :: otherwise :: flat_map pair_list branches
  | EAggregate _ argument _ => opt argument
  end.

Definition arity_ok (function : Function) (args : nat) : bool :=
  match function with
  | FCoalesce => negb (Nat.eqb args 0)
  | FRange | FSubstring => Nat.leb 2 args && Nat.leb args 3
  | _ => Nat.eqb args 1
  end.

(** The checks of one node. *)
Definition check_node (e : Expression) : result QueryError unit :=
  match e with
  | ELiteral value => validate_shape value
  | EFunction function args =>
      if arity_ok function (length args) then Ok tt
      else Err (compile_error "internal_planner_error" "function_arity"
                  "resolved function has incompatible argument count")
  | EAggregate function argument distinct =>
      if bool_decide (argument = None) && (negb (bool_decide (function = Count)) || distinct)
      then Err (compile_error "internal_planner_error" "aggregate_arity"
                  "only count(*) permits no argument")
      else Ok tt
  | _ => Ok tt
  end.

(** The loop over the stack [pending], whose top is its head. *)
Fixpoint shape_loop (fuel : nat) (pending : list (Expression * Z)) (count : Z)
    : option (result QueryError unit) :=
  match fuel with
  | O => None
  | S fuel =>
      match pending with
      | [] => Some (Ok tt)
      | (expression, depth) :: pending =>
          let count := count + 1 in
          if (MAX_EXPRESSION_DEPTH <=? depth) || (MAX_EXPRESSION_NODES <? count) then
            Some (Err (compile_error "resource_limit" "expression_depth"
                         "expression exceeds validated structural limits"))
          else
            match check_node expression with
            | Err e => Some (Err e)
            | Ok _ =>
                shape_loop fuel (reverse (map (fun e => (e, depth + 1)) (pushed expression)) ++ pending) count
            end
      end
  end.

Definition validate_expression (fuel : nat) (self : Expression) : option (result QueryError unit) :=
  shape_loop fuel [(self, 0)] 0.

(** ** Visitors *)

Inductive TraversalControl := Descend | Prune.

Section Visit.
Context {S E : Type} (f : Expression -> S -> result E (TraversalControl * S)).

(** One visit after another, threading the visitor's state. *)
Definition visit_all {A} (visit : A -> S -> result E S) : list A -> S -> result E S :=
  fix go l s := match l with
                | [] => Ok s
                | x :: l => let? s := visit x s in go l s
                end.

Definition visit_opt {A} (visit : A -> S -> result E S) (o : option A) (s : S) : result E S :=
  match o with
  | Some x => visit x s
  | None => Ok s
  end.

Fixpoint try_visit_pruned (self : Expression) (s : S) : result E S :=
  let? (control, s) := f self s in
  match control with
  | Prune => Ok s
  | Descend =>
      match self with
      | EProperty x _ | EUnary _ x => try_visit_pruned x s
      | EIndex a b | EBinary _ a b => let? s := try_visit_pruned a s in try_visit_pruned b s
      | ESlice value start end_ =>
          let? s := try_visit_pruned value s in
          let? s := visit_opt try_visit_pruned start s in
          visit_opt try_visit_pruned end_ s
      | EFunction _ xs | EList xs | EConnective _ xs => visit_all try_visit_pruned xs s
      | EAggregate _ argument _ => visit_opt try_visit_pruned argument s
      | EMap xs => visit_all (fun e => try_visit_pruned e.2) xs s
      | ECase branches otherwise =>
          let? s := visit_all (fun p s => let? s := try_visit_pruned p.1 s in try_visit_pruned p.2 s) branches s in
          try_visit_pruned otherwise s
      | ESimpleCase operand branches otherwise =>
          let? s := try_visit_pruned operand s in
          let? s := visit_all (fun p s => let? s := try_visit_pruned p.1 s in try_visit_pruned p.2 s) branches s in
          try_visit_pruned otherwise s
      | ELiteral _ | ESlot _ | EParameter _ | EHasLabel _ _ => Ok s
      end
  end.
End Visit.

Definition try_visit {S E} (f : Expression -> S -> result E S) : Expression -> S -> result E S :=
  try_visit_pruned (fun e s => let? s := f e s in Ok (Descend, s)).

(** [visit]: an infallible visitor, whose [expect] cannot fail. *)
Definition visit {S} (f : Expression -> S -> S) (e : Expression) (s : S) : S :=
  match try_visit (E := Empty_set) (fun e s => Ok (f e s)) e s with
  | Ok s => s
  | Err absurd => match absurd with end
  end.

Definition slots (self : Expression) : gset Z :=
  visit (fun e slots =>
    match e with
    | ESlot s | EHasLabel s _ => {[ s ]} ∪ slots
    | _ => slots
    end) self ∅.

Definition has_aggregate (self : Expression) : bool :=
  visit (fun e found => found || match e with EAggregate _ _ _ => true | _ => false end) self false.

(** ** Rewriting *)

Section Rewrite.
Context (replace : Expression -> result QueryError (option Expression)).

Definition map_result {A B} (f : A -> result QueryError B) : list A -> result QueryError (list B) :=
  fix go l := match l with
              | [] => Ok []
              | x :: l => let? y := f x in let? ys := go l in Ok (y :: ys)
              end.

Definition map_opt {A B} (f : A -> result QueryError B) (o : option A) : result QueryError (option B) :=
  match o with
  | Some x => let? y := f x in Ok (Some y)
  | None => Ok None
  end.

Fixpoint rewrite (self : Expression) : result QueryError Expression :=
  let? replacement := replace self in
  match replacement with
  | Some value => Ok value
  | None =>
      let rewrite_pair p := let? a := rewrite p.1 in let? b := rewrite p.2 in Ok (a, b) in
      match self with
      | ELiteral _ | ESlot _ | EParameter _ | EHasLabel _ _ => Ok self
      | EProperty value key => let? value := rewrite value in Ok (EProperty value key)
      | EIndex a b => let? a := rewrite a in let? b := rewrite b in Ok (EIndex a b)
      | ESlice value start end_ =>
          let? value := rewrite value in
          let? start := map_opt rewrite start in
          let? end_ := map_opt rewrite end_ in
          Ok (ESlice value start end_)
      | EUnary op x => let? x := rewrite x in Ok (EUnary op x)
      | EBinary op a b => let? a := rewrite a in let? b := rewrite b in Ok (EBinary op a b)
      | EConnective op operands => let? operands := map_result rewrite operands in Ok (EConnective op operands)
      | EFunction f args => let? args := map_result rewrite args in Ok (EFunction f args)
      | EList xs => let? xs := map_result rewrite xs in Ok (EList xs)
      | EMap xs =>
          let? xs := map_result (fun e => let? v := rewrite e.2 in Ok (e.1, v)) xs in Ok (EMap xs)
      | ECase branches otherwise =>
          let? branches := map_result rewrite_pair branches in
          let? otherwise := rewrite otherwise in
          Ok (ECase branches otherwise)
      | ESimpleCase operand branches otherwise =>
          let? operand := rewrite operand in
          let? branches := map_result rewrite_pair branches in
          let? otherwise := rewrite otherwise in
          Ok (ESimpleCase operand branches otherwise)
      | EAggregate function argument distinct =>
          let? argument := map_opt rewrite argument in
          Ok (EAggregate function argument distinct)
      end
  end.
End Rewrite.

(** ** Induction and the nodes of an expression *)

(** The subexpressions in written order. *)
Definition children (e : Expression) : list Expression :=
  match e with
  | ECase branches otherwise => flat_map pair_list branches ++ [otherwise]
  | ESimpleCase operand branches otherwise => operand :: flat_map pair_list branches ++ [otherwise]
  | e => pushed e
  end.

Section Induction.
Context (P : Expression -> Prop) (H : forall e, Forall P (children e) -> P e).

Fixpoint expression_ind' (e : Expression) : P e.
Proof.
  apply H. destruct e as [| | |x ?|a b|v s t|? x|? a b|? xs|? xs|? o ?|xs|xs|bs x|o bs x|]; cbn [children pushed].
  - constructor.
  - constructor.
  - constructor.
  - by repeat constructor.
  - by repeat constructor.
  - constructor; [apply expression_ind'|]. destruct s, t; by repeat constructor.
  - by repeat constructor.
  - by repeat constructor.
  - exact ((fix go xs : Forall P xs := match xs with
      | [] => List.Forall_nil _ | x :: xs => List.Forall_cons _ _ _ (expression_ind' x) (go xs) end) xs).
  - exact ((fix go xs : Forall P xs := match xs with
      | [] => List.Forall_nil _ | x :: xs => List.Forall_cons _ _ _ (expression_ind' x) (go xs) end) xs).
  - destruct o; by repeat constructor.
  - exact ((fix go xs : Forall P xs := match xs with
      | [] => List.Forall_nil _ | x :: xs => List.Forall_cons _ _ _ (expression_ind' x) (go xs) end) xs).
  - exact ((fix go xs : Forall P xs.*2 := match xs with
      | [] => List.Forall_nil _ | x :: xs => List.Forall_cons _ _ _ (expression_ind' x.2) (go xs) end) xs).
  - apply Forall_app. split; [|by repeat constructor].
    exact ((fix go bs : Forall P (flat_map pair_list bs) := match bs with
      | [] => List.Forall_nil _
      | p :: bs => List.Forall_cons _ _ _ (expression_ind' p.1) (List.Forall_cons _ _ _ (expression_ind' p.2) (go bs)) end) bs).
  - constructor; [apply expression_ind'|]. apply Forall_app. split; [|by repeat constructor].
    exact ((fix go bs : Forall P (flat_map pair_list bs) := match bs with
      | [] => List.Forall_nil _
      | p :: bs => List.Forall_cons _ _ _ (expression_ind' p.1) (List.Forall_cons _ _ _ (expression_ind' p.2) (go bs)) end) bs).
  - constructor.
Defined.
End Induction.

(** The nodes in preorder. *)
Fixpoint nodes (e : Expression) : list Expression :=
  e :: match e with
       | ELiteral _ | ESlot _ | EParameter _ | EHasLabel _ _ => []
       | EProperty x _ | EUnary _ x => nodes x
       | EIndex a b | EBinary _ a b => nodes a ++ nodes b
       | ESlice value start end_ =>
           nodes value ++ match start with Some x => nodes x | None => [] end
                       ++ match end_ with Some x => nodes x | None => [] end
       | EFunction _ xs | EList xs | EConnective _ xs => flat_map nodes xs
       | EAggregate _ argument _ => match argument with Some x => nodes x | None => [] end
       | EMap xs => flat_map (fun x => nodes x.2) xs
       | ECase branches otherwise => flat_map (fun p => nodes p.1 ++ nodes p.2) branches ++ nodes otherwise
       | ESimpleCase operand branches otherwise =>
           nodes operand ++ flat_map (fun p => nodes p.1 ++ nodes p.2) branches ++ nodes otherwise
       end.

Lemma flat_map_pairs (bs : list (Expression * Expression)) :
  flat_map nodes (flat_map pair_list bs) = flat_map (fun p => nodes p.1 ++ nodes p.2) bs.
Proof. induction bs as [|p bs IH]; simpl; [done|]. by rewrite IH, app_assoc. Qed.

Lemma flat_map_snd {A} (xs : list (A * Expression)) : flat_map nodes xs.*2 = flat_map (fun x => nodes x.2) xs.
Proof. induction xs as [|x xs IH]; simpl; [done|]. by rewrite <- IH. Qed.

Lemma nodes_children e : nodes e = e :: flat_map nodes (children e).
Proof.
  destruct e; cbn [nodes children pushed flat_map]; rewrite ?flat_map_app, ?flat_map_pairs, ?flat_map_snd, ?app_nil_r;
    cbn [flat_map]; rewrite ?app_nil_r; try done.
  - destruct start, end_; simpl; by rewrite ?app_nil_r.
  - destruct argument; simpl; by rewrite ?app_nil_r.
Qed.

Lemma pushed_children e : pushed e ≡ₚ children e.
Proof.
  destruct e; cbn [pushed children]; try done.
  - apply Permutation_cons_append.
  - constructor. apply Permutation_cons_append.
Qed.

(** At most [n] levels of nesting. *)
Inductive nested : nat -> Expression -> Prop :=
| nested_node n e : Forall (nested n) (children e) -> nested (S n) e.

Lemma nested_at d e : nested (Z.to_nat (MAX_EXPRESSION_DEPTH - d)) e <->
  d < MAX_EXPRESSION_DEPTH /\ Forall (nested (Z.to_nat (MAX_EXPRESSION_DEPTH - (d + 1)))) (children e).
Proof.
  split.
  - destruct (Z.to_nat (MAX_EXPRESSION_DEPTH - d)) as [|n] eqn:E; [inversion 1|].
    intros H. inversion H; subst. split; [lia|]. by replace (Z.to_nat (MAX_EXPRESSION_DEPTH - (d + 1))) with n by lia.
  - intros [Hd H]. replace (Z.to_nat (MAX_EXPRESSION_DEPTH - d)) with (S (Z.to_nat (MAX_EXPRESSION_DEPTH - (d + 1)))) by lia.
    by constructor.
Qed.

Definition pending_nodes (pending : list (Expression * Z)) : list Expression :=
  flat_map (fun p => nodes p.1) pending.

Definition pending_ok (pending : list (Expression * Z)) : Prop :=
  Forall (fun p => nested (Z.to_nat (MAX_EXPRESSION_DEPTH - p.2)) p.1) pending.

Lemma flat_map_perm {A B} (f : A -> list B) l l' : l ≡ₚ l' -> flat_map f l ≡ₚ flat_map f l'.
Proof. apply Permutation_flat_map. Qed.

Lemma pending_push e d pending :
  pending_nodes (reverse (map (fun e => (e, d + 1)) (pushed e)) ++ pending) ≡ₚ
  flat_map nodes (children e) ++ pending_nodes pending.
Proof.
  unfold pending_nodes. rewrite flat_map_app. apply Permutation_app; [|done].
  rewrite (flat_map_perm _ _ _ (reverse_Permutation _)).
  rewrite <- (flat_map_perm nodes _ _ (pushed_children e)).
  induction (pushed e) as [|x l IH]; simpl; [done|]. by rewrite IH.
Qed.

Lemma pending_push_ok e d pending :
  pending_ok (reverse (map (fun e => (e, d + 1)) (pushed e)) ++ pending) <->
  Forall (nested (Z.to_nat (MAX_EXPRESSION_DEPTH - (d + 1)))) (children e) /\ pending_ok pending.
Proof.
  unfold pending_ok. rewrite Forall_app, Forall_reverse, Forall_map.
  assert (forall P : Expression -> Prop, Forall P (pushed e) <-> Forall P (children e)) as H.
  { intros P. split; apply Permutation_Forall; [|symmetry]; apply pushed_children. }
  by rewrite <- H.
Qed.

(** The numbers of arguments that a function takes. *)
Inductive takes : Function -> nat -> Prop :=
| takes_coalesce n : (0 < n)%nat -> takes FCoalesce n
| takes_range n : (n = 2 \/ n = 3)%nat -> takes FRange n
| takes_substring n : (n = 2 \/ n = 3)%nat -> takes FSubstring n
| takes_one f : f <> FCoalesce -> f <> FRange -> f <> FSubstring -> takes f 1.

(** What a valid expression holds at every node. *)
Inductive node_ok : Expression -> Prop :=
| literal_ok v : height v <= 48 -> items v <= 200000 -> node_ok (ELiteral v)
| function_ok f args : takes f (length args) -> node_ok (EFunction f args)
| aggregate_ok f argument distinct : node_ok (EAggregate f (Some argument) distinct)
| count_ok : node_ok (EAggregate Count None false)
| node_ok_other e : (forall v, e <> ELiteral v) -> (forall f args, e <> EFunction f args) ->
    (forall f argument distinct, e <> EAggregate f argument distinct) -> node_ok e.

Lemma takes_iff f n : takes f n <-> arity_ok f n = true.
Proof.
  split.
  - intros [m H|m H|m H|? ? ? ?]; cbn [arity_ok]; [by destruct m; [lia|]|by destruct H as [-> | ->]..|by destruct f0].
  - unfold arity_ok. destruct f; rewrite ?andb_true_iff, ?Nat.leb_le, ?negb_true_iff, ?Nat.eqb_eq, ?Nat.eqb_neq;
      first [intros ->; by apply takes_one|intros H; constructor; lia].
Qed.

Lemma node_check e : node_ok e <-> check_node e = Ok tt.
Proof.
  split.
  - intros [v Hh Hi|f args H|? ? ?| |? H1 H2 H3]; cbn [check_node]; try done; [by apply validate_shape_iff|by apply takes_iff in H as ->|].
    destruct e0; try done; [by destruct (H1 v)|by destruct (H2 function args)|by destruct (H3 function argument distinct)].
  - destruct e; cbn [check_node]; try (intros _; by apply node_ok_other).
    + intros [? ?]%validate_shape_iff. by constructor.
    + destruct (arity_ok _ _) eqn:E; [|done]. intros _. constructor. by apply takes_iff.
    + destruct argument as [x|]; [intros _; constructor|]. destruct function, distinct; try done. intros _. constructor.
Qed.

Lemma shape_loop_exact fuel : forall pending count, 0 <= count <= MAX_EXPRESSION_NODES ->
  (length (pending_nodes pending) < fuel)%nat ->
  exists r, shape_loop fuel pending count = Some r /\
    (r = Ok tt <-> pending_ok pending /\
      count + Z.of_nat (length (pending_nodes pending)) <= MAX_EXPRESSION_NODES /\
      Forall node_ok (pending_nodes pending)).
Proof.
  induction fuel as [|fuel IH]; intros pending count Hcount Hfuel; [lia|]. cbn [shape_loop].
  destruct pending as [|[e d] pending].
  { eexists. split; [done|]. split; [|done]. intros _. split_and!; [constructor|simpl; lia|constructor]. }
  assert (pending_nodes ((e, d) :: pending) = e :: flat_map nodes (children e) ++ pending_nodes pending) as En.
  { unfold pending_nodes. simpl. by rewrite nodes_children. }
  assert (pending_ok ((e, d) :: pending) <-> (d < MAX_EXPRESSION_DEPTH /\
    Forall (nested (Z.to_nat (MAX_EXPRESSION_DEPTH - (d + 1)))) (children e)) /\ pending_ok pending) as Eok.
  { unfold pending_ok at 1. rewrite Forall_cons. cbn [fst snd]. by rewrite nested_at. }
  rewrite En in *. cbn [length] in *.
  pose proof (pending_push e d pending) as Hperm. pose proof (Permutation_length Hperm) as Hlen.
  destruct (Z.leb_spec MAX_EXPRESSION_DEPTH d); cbn [orb].
  { eexists. split; [done|]. split; [done|]. rewrite Eok. lia. }
  destruct (Z.ltb_spec MAX_EXPRESSION_NODES (count + 1)).
  { eexists. split; [done|]. split; [done|]. lia. }
  destruct (check_node e) as [[]|err] eqn:Echeck.
  - destruct (IH (reverse (map (fun e => (e, d + 1)) (pushed e)) ++ pending) (count + 1)) as (r & Hr & Hiff); [lia|lia|].
    exists r. split; [done|]. rewrite Hiff, Eok, pending_push_ok, Hlen, Hperm, Forall_cons, (node_check e).
    split; intros; split_and!; try tauto; lia.
  - eexists. split; [done|]. split; [done|]. rewrite Forall_cons, (node_check e). rewrite Echeck. naive_solver.
Qed.

(** [C40] Expression validation always ends, within one step per node, and accepts
    exactly the expressions with at most 48 levels and 200,000 nodes in which
    every literal has at most 48 levels and 200,000 items, every function takes as
    many arguments as it has, and every aggregate has one but a plain [count]. *)
Theorem validate_expression_exact (e : Expression) (fuel : nat) :
  (length (nodes e) < fuel)%nat ->
  exists r, validate_expression fuel e = Some r /\
    (r = Ok tt <-> nested 48 e /\ Z.of_nat (length (nodes e)) <= 200000 /\ Forall node_ok (nodes e)).
Proof.
  intros Hfuel. unfold validate_expression.
  destruct (shape_loop_exact fuel [(e, 0)] 0) as (r & Hr & Hiff); [done|unfold pending_nodes; simpl; by rewrite app_nil_r|].
  exists r. split; [done|]. rewrite Hiff. unfold pending_ok, pending_nodes. cbn [flat_map fst].
  rewrite app_nil_r, Forall_singleton. done.
Qed.

(** [CASE $p WHEN 1 THEN range(0, count( * )) ELSE null END]. *)
Definition sample_expression : Expression :=
  ESimpleCase (EParameter [112])
    [(ELiteral (Integer 1), EFunction FRange [ELiteral (Integer 0); EAggregate Count None false])]
    (ELiteral Null).

Lemma validate_expression_exact_witness :
  (length (nodes sample_expression) < 8)%nat /\ nested 48 sample_expression /\
  validate_expression 3 (EFunction FRange [ELiteral Null]) <> Some (Ok tt).
Proof.
  assert (length (nodes sample_expression) < 8)%nat as H by (vm_compute; lia).
  destruct (validate_expression_exact sample_expression 8 H) as (r & Hr & Hiff).
  split; [exact H|]. split.
  - apply Hiff. vm_compute in Hr. by injection Hr as <-.
  - destruct (validate_expression_exact (EFunction FRange [ELiteral Null]) 3) as (r' & -> & Hiff'); [vm_compute; lia|].
    intros [= ->]. destruct (proj1 Hiff' eq_refl) as (_ & _ & Hn). apply Forall_inv in Hn. apply node_check in Hn. discriminate Hn.
Defined.

(** ** What the visitors see *)

Lemma visit_all_cons {S E A} (f : A -> S -> result E S) x l s :
  visit_all f (x :: l) s = let? s := f x s in visit_all f l s.
Proof. reflexivity. Qed.

Lemma visit_all_one {S E A} (f : A -> S -> result E S) x s : visit_all f [x] s = f x s.
Proof. simpl. by destruct (f x s). Qed.

Lemma visit_all_app {S E A} (f : A -> S -> result E S) l1 l2 s :
  visit_all f (l1 ++ l2) s = let? s := visit_all f l1 s in visit_all f l2 s.
Proof. revert s. induction l1 as [|x l1 IH]; intros s; simpl; [done|]. destruct (f x s); simpl; [apply IH|done]. Qed.

Lemma visit_all_flat {S E A B} (f : B -> S -> result E S) (g : A -> S -> result E S) (h : A -> list B) l s :
  Forall (fun x => forall s, g x s = visit_all f (h x) s) l ->
  visit_all g l s = visit_all f (flat_map h l) s.
Proof.
  intros H; revert s. induction H as [|x l Hx _ IH]; intros s; [done|]. cbn [flat_map].
  rewrite visit_all_app, <- Hx. change (visit_all g (x :: l) s) with (let? s := g x s in visit_all g l s).
  destruct (g x s); [apply IH|done].
Qed.

Lemma visit_all_pairs {S E} (v : Expression -> S -> result E S) xs s :
  visit_all (fun p s => let? s := v p.1 s in v p.2 s) xs s = visit_all v (flat_map pair_list xs) s.
Proof.
  revert s. induction xs as [|p xs IH]; intros s; simpl; [done|].
  destruct (v p.1 s) as [s'|]; simpl; [|done]. destruct (v p.2 s'); simpl; [apply IH|done].
Qed.

Lemma visit_all_snd {S E A} (v : Expression -> S -> result E S) (xs : list (A * Expression)) s :
  visit_all (fun e => v e.2) xs s = visit_all v xs.*2 s.
Proof. revert s. induction xs as [|p xs IH]; intros s; simpl; [done|]. destruct (v p.2 s); simpl; [apply IH|done]. Qed.

Lemma try_visit_step {S E} (f : Expression -> S -> result E S) e s :
  try_visit f e s = let? s := f e s in visit_all (try_visit f) (children e) s.
Proof.
  unfold try_visit. set (g := fun e s => let? s := f e s in Ok (Descend, s)).
  assert (try_visit_pruned g e s = let? s := f e s in
    match e with
    | ELiteral _ | ESlot _ | EParameter _ | EHasLabel _ _ => Ok s
    | _ => visit_all (try_visit_pruned g) (children e) s
    end) as ->; [|by destruct (f e s), e].
  destruct e; cbn [try_visit_pruned children pushed]; unfold g at 1; destruct (f _ s) as [s'|]; cbn [result_bind];
    try done; rewrite ?visit_all_snd, ?visit_all_pairs; try destruct start; try destruct end_; try destruct argument;
    cbn [opt app visit_opt]; rewrite ?visit_all_one, ?visit_all_app, ?visit_all_cons; try done;
    repeat match goal with
           | |- context [let? s := ?r in _] =>
               destruct r; cbn [result_bind]; rewrite ?visit_all_pairs, ?visit_all_one, ?visit_all_app, ?visit_all_cons; try done
           end.
Qed.

Lemma try_visit_nodes {S E} (f : Expression -> S -> result E S) e : forall s, try_visit f e s = visit_all f (nodes e) s.
Proof.
  induction e as [e IH] using expression_ind'. intros s. rewrite try_visit_step, nodes_children.
  change (visit_all f (e :: ?l) s) with (let? s := f e s in visit_all f l s).
  destruct (f e s); [|done]. cbn. by apply visit_all_flat.
Qed.

Lemma slots_spec e x : x ∈ slots e <->
  Exists (fun n => match n with ESlot s | EHasLabel s _ => s = x | _ => False end) (nodes e).
Proof.
  unfold slots, visit. rewrite try_visit_nodes.
  assert (forall l (s : gset Z), exists s', visit_all (E := Empty_set) (fun e s => Ok (match e with
    | ESlot s' | EHasLabel s' _ => {[ s' ]} ∪ s | _ => s end)) l s = Ok s' /\
    (x ∈ s' <-> x ∈ s \/ Exists (fun n => match n with ESlot s | EHasLabel s _ => s = x | _ => False end) l)) as H.
  { induction l as [|n l IH]; intros s; [exists s; split; [done|]; rewrite Exists_nil; tauto|].
    rewrite visit_all_cons. cbn [result_bind]. destruct (IH (match n with ESlot s' | EHasLabel s' _ => {[ s' ]} ∪ s | _ => s end)) as (s' & -> & Hs).
    exists s'. split; [done|]. rewrite Hs, Exists_cons. destruct n; set_solver. }
  destruct (H (nodes e) ∅) as (s' & -> & ->). set_solver.
Qed.

(** A node's slots are its own and its children's. *)
Lemma slots_child e c : c ∈ children e -> slots c ⊆ slots e.
Proof.
  intros Hc x. rewrite !slots_spec, (nodes_children e), Exists_cons. intros H. right.
  apply Exists_exists in H as (n & Hn & Hx). apply Exists_exists. exists n. split; [|done].
  apply list_elem_of_In, in_flat_map. exists c. by rewrite <- !list_elem_of_In.
Qed.

End QueryExpression.
