(* ===== verification/QueryMonad.v ===== *)
(** The effects of expression evaluation: a query error, a panic, and memory
    admission (crates/planner/src/relational/evaluation/memory.rs).

    Whether [Memory::remaining] admits an allocation depends on buffer capacities
    that values do not carry, so the model leaves each decision to its
    environment: a computation reads its decisions from a list, refusals being
    [false], and an exhausted list admits everything. [meets] then speaks of every
    sequence of decisions at once. *)
From S2P Require Import Prelude Bytes QueryValue.

Open Scope Z_scope.

Module QueryMonad.
Export QueryValue.

Definition Admissions := list bool.

(** [None] is a panic. *)
Definition M (A : Type) : Type := Admissions -> option (result QueryError A * Admissions).

Definition ret {A} (a : A) : M A := fun adm => Some (Ok a, adm).
Definition lift {A} (r : result QueryError A) : M A := fun adm => Some (r, adm).
Definition fail {A} (e : QueryError) : M A := lift (Err e).
Definition panic {A} : M A := fun _ => None.
Definition or_panic {A} (o : option A) : M A :=
  match o with
  | Some a => ret a
  | None => panic
  end.

Definition bind {A B} (m : M A) (k : A -> M B) : M B := fun adm =>
  match m adm with
  | None => None
  | Some (Err e, adm) => Some (Err e, adm)
  | Some (Ok a, adm) => k a adm
  end.

Notation "'do' x <- m ; k" := (bind m (fun x => k))
  (at level 80, x pattern, m at level 100, k at level 200, right associativity) : rust_scope.
Definition exhausted : QueryError :=
  runtime_error "resource_limit" "memory_limit" "expression temporaries exceed the query memory budget".

(** One admission decision; a refusal is the error [e]. *)
Definition allowed (e : QueryError) : M unit := fun adm =>
  match adm with
  | false :: adm => Some (Err e, adm)
  | true :: adm => Some (Ok tt, adm)
  | [] => Some (Ok tt, [])
  end.

(** [Evaluation::remaining]. *)
Definition remaining : M unit := allowed exhausted.

(** [for x in l], threading [s]. *)
Fixpoint for_each {A S} (l : list A) (s : S) (body : A -> S -> M S) : M S :=
  match l with
  | [] => ret s
  | x :: l => do s <- body x s; for_each l s body
  end.

(** ** Outcomes under every sequence of decisions *)

Definition memory_error (e : QueryError) : Prop :=
  error_category e = "resource_limit"%string /\ error_detail e = "memory_limit"%string.

(** With nothing refused [m] gives [r0], whose value satisfies [Q]; with any
    refusals it gives the same, or a memory error. It never panics. *)
Definition meets {A} (m : M A) (Q : A -> Prop) : Prop :=
  exists r0, m [] = Some (r0, []) /\ (forall a, r0 = Ok a -> Q a) /\
    forall adm, exists r adm', m adm = Some (r, adm') /\
      (r = r0 \/ exists e, r = Err e /\ memory_error e).

Lemma meets_lift {A} (r : result QueryError A) (Q : A -> Prop) : (forall a, r = Ok a -> Q a) -> meets (lift r) Q.
Proof. intros H. exists r. split_and!; [done|done|]. intros adm. exists r, adm. auto. Qed.

Lemma meets_ret {A} (a : A) (Q : A -> Prop) : Q a -> meets (ret a) Q.
Proof. intros H. apply (meets_lift (Ok a)). by intros b [= ->]. Qed.

Lemma meets_fail {A} e (Q : A -> Prop) : meets (fail e) Q.
Proof. by apply meets_lift. Qed.

Lemma meets_allowed e : memory_error e -> meets (allowed e) (fun _ => True).
Proof.
  intros He. exists (Ok tt). split_and!; [done|done|]. intros [|[] adm]; simpl.
  - exists (Ok tt), []. auto.
  - exists (Ok tt), adm. auto.
  - exists (Err e), adm. split; [done|]. right. by exists e.
Qed.

Lemma meets_remaining : meets remaining (fun _ => True).
Proof. by apply meets_allowed. Qed.

Lemma meets_bind {A B} (m : M A) (k : A -> M B) (P : A -> Prop) (Q : B -> Prop) :
  meets m P -> (forall a, P a -> meets (k a) Q) -> meets (bind m k) Q.
Proof.
  intros (r0 & E0 & HP & Hm) Hk. unfold meets, bind. rewrite E0. destruct r0 as [a|e].
  - destruct (Hk a (HP a eq_refl)) as (r1 & E1 & HQ & Hk'). exists r1. split_and!; [done|done|].
    intros adm. destruct (Hm adm) as (r & adm' & -> & [-> | (e & -> & He)]).
    + apply Hk'.
    + exists (Err e), adm'. split; [done|]. right. by exists e.
  - exists (Err e). split_and!; [done|done|].
    intros adm. destruct (Hm adm) as (r & adm' & -> & [-> | (e' & -> & He)]).
    + exists (Err e), adm'. auto.
    + exists (Err e'), adm'. split; [done|]. right. by exists e'.
Qed.

Lemma meets_weaken {A} (m : M A) (P Q : A -> Prop) : meets m P -> (forall a, P a -> Q a) -> meets m Q.
Proof. intros (r0 & E & HP & Hm) H. exists r0. split_and!; [done|intros a Ha; by apply H, HP|done]. Qed.

Lemma meets_for_each {A S} (l : list A) (I : S -> Prop) (body : A -> S -> M S) s :
  I s -> (forall x s, x ∈ l -> I s -> meets (body x s) I) -> meets (for_each l s body) I.
Proof.
  revert s. induction l as [|x l IH]; intros s Hs Hb; simpl; [by apply meets_ret|].
  eapply meets_bind; [apply Hb; [left|done]|]. intros s' Hs'. apply IH; [done|].
  intros y s'' Hy. apply Hb. by right.
Qed.

(** ** Runs with unlimited memory *)

(** With nothing refused, [m] ends with the outcome [r]. *)
Definition runs {A} (m : M A) (r : result QueryError A) : Prop := m [] = Some (r, []).

Lemma runs_bind {A B} (m : M A) (k : A -> M B) r : runs m r ->
  bind m k [] = match r with Ok a => k a [] | Err e => Some (Err e, []) end.
Proof. unfold runs, bind. intros ->. by destruct r. Qed.

Lemma runs_remaining {B} (k : M B) : (do _ <- remaining; k) [] = k [].
Proof. reflexivity. Qed.

Lemma runs_lift {A B} (r : result QueryError A) (k : A -> M B) :
  bind (lift r) k [] = match r with Ok a => k a [] | Err e => Some (Err e, []) end.
Proof. by destruct r. Qed.

Lemma bind_assoc {A B C} (m : M A) (k : A -> M B) (k' : B -> M C) adm :
  bind (bind m k) k' adm = bind m (fun a => bind (k a) k') adm.
Proof. unfold bind. by destruct (m adm) as [[[a|e] adm']|]. Qed.

Lemma for_each_app {A S} (l l' : list A) (s : S) body adm :
  for_each (l ++ l') s body adm = bind (for_each l s body) (fun s => for_each l' s body) adm.
Proof.
  revert s adm. induction l as [|x l IH]; intros s adm; [done|]. cbn [app for_each]. rewrite bind_assoc. unfold bind at 1 2.
  destruct (body x s adm) as [[[s'|e] adm']|]; [apply IH|done..].
Qed.

End QueryMonad.
