(* ===== verification/QueryAggregate.v ===== *)
(** Aggregation state: crates/planner/src/relational/aggregation.rs and
    aggregation/average.rs.

    Floats are bit patterns with the arithmetic of [QueryOperators]; the integer
    total of an average is an [i128]. A [HashSet] of grouping keys is the list of
    its members, looked up by key equality. *)
From Stdlib Require Import Floats.SpecFloat.
From S2P Require Import Prelude Bytes Property QueryValue QueryOperators QueryExpression QueryMonad.

Open Scope Z_scope.

Module QueryAggregate.
Export QueryExpression QueryMonad.

Section Aggregate.
Context (nan : Z) (powf : Z -> Z -> Z).

(** ** f64 operations of the average *)

Definition f64_of_int (i : Z) : Z := encode_f64 nan (binary_normalize 53 1024 i 0 false).
Definition f64_add := float_op nan (SFadd 53 1024).
Definition f64_sub := float_op nan (SFsub 53 1024).
Definition f64_mul := float_op nan (SFmul 53 1024).
Definition f64_div := float_op nan (SFdiv 53 1024).
Definition f64_abs (a : Z) : Z := Z.land a (2 ^ 63 - 1).
Definition f64_lt (a b : Z) : bool := SFltb (decode_f64 a) (decode_f64 b).
Definition f64_ge (a b : Z) : bool := SFleb (decode_f64 b) (decode_f64 a).
Definition f64_is_finite (a : Z) : bool := negb ((a / 2 ^ 52) mod 2 ^ 11 =? 2047).

(** [as i64] and [as i128]: truncation toward zero, saturating; NaN is 0. *)
Definition f64_as_int (w : Z) (a : Z) : Z :=
  let clamp z := Z.max (- 2 ^ (w - 1)) (Z.min (2 ^ (w - 1) - 1) z) in
  match decode_f64 a with
  | S754_zero _ | S754_nan => 0
  | S754_infinity s => if s then - 2 ^ (w - 1) else 2 ^ (w - 1) - 1
  | S754_finite s m e =>
      let t := if 0 <=? e then Zpos m * 2 ^ e else Zpos m / 2 ^ (- e) in
      clamp (if s then - t else t)
  end.

(** [mul_add]: [a * b + c] rounded once. *)
Definition f64_mul_add (a b c : Z) : Z :=
  match decode_f64 a, decode_f64 b, decode_f64 c with
  | S754_finite sa ma ea, S754_finite sb mb eb, S754_finite sc mc ec =>
      let e := Z.min (ea + eb) ec in
      let p := (if xorb sa sb then -1 else 1) * (Zpos ma * Zpos mb) * 2 ^ (ea + eb - e) in
      let q := (if sc then -1 else 1) * Zpos mc * 2 ^ (ec - e) in
      encode_f64 nan (binary_normalize 53 1024 (p + q) e (xorb sa sb && sc))
  | S754_finite sa ma ea, S754_finite sb mb eb, S754_zero _ =>
      encode_f64 nan (binary_normalize 53 1024
        ((if xorb sa sb then -1 else 1) * (Zpos ma * Zpos mb)) (ea + eb) (xorb sa sb))
  | _, _, _ => f64_add (f64_mul a b) c
  end.

Definition F64_MAX : Z := 0x7FEFFFFFFFFFFFFF.

(** [clamp(-f64::MAX, f64::MAX)]. *)
Definition f64_clamp (a : Z) : Z :=
  let a := if f64_lt a (f64_neg F64_MAX) then f64_neg F64_MAX else a in
  if f64_lt F64_MAX a then F64_MAX else a.

(** ** Averages (average.rs) *)

Record ScaledSum := { scale : Z; sum : Z; correction : Z }.

Definition scaled_default : ScaledSum := {| scale := 0; sum := 0; correction := 0 |}.

Definition scaled_push (self : ScaledSum) (value : Z) : ScaledSum :=
  match decode_f64 value with
  | S754_zero _ => self
  | _ =>
      let exponent := Z.land value (Z.shiftl 0x7FF 52) in
      let scale' := Z.max exponent (Z.shiftl 1 52) in
      let self :=
        if f64_lt (scale self) scale' then
          let factor := f64_div (scale self) scale' in
          {| scale := scale'; sum := f64_mul (sum self) factor;
             correction := f64_mul (correction self) factor |}
        else self in
      let term := f64_div value (scale self) in
      let sum' := f64_add (sum self) term in
      let lost :=
        if f64_ge (f64_abs (sum self)) (f64_abs term)
        then f64_add (f64_sub (sum self) sum') term
        else f64_add (f64_sub term sum') (sum self) in
      {| scale := scale self; sum := sum'; correction := f64_add (correction self) lost |}
  end.

Definition push_integer (self : ScaledSum) (value : Z) : ScaledSum :=
  let high := f64_of_int value in
  let low := f64_of_int (value - f64_as_int 128 high) in
  scaled_push (scaled_push self high) low.

Definition mean (self : ScaledSum) (count : Z) : Z :=
  let count := f64_of_int count in
  let quotient := f64_div (sum self) count in
  let residual := f64_add (f64_mul_add (f64_neg quotient) count (sum self)) (correction self) in
  f64_clamp (f64_mul (f64_add quotient (f64_div residual count)) (scale self)).

Inductive Total := TInteger (sum : Z) | TFinite (sum : ScaledSum) | TNonFinite (value : Z).

Record Average := { total : Total; average_count : Z }.

Definition average_new : Average := {| total := TInteger 0; average_count := 0 |}.

(** [Average::next]; [None] is the panic of the [i128] sum. *)
Definition average_next (self : Average) (value : Value) : option (result QueryError Average) :=
  match match value with
        | Integer value => Some (f64_of_int value)
        | Float value => Some value
        | _ => None
        end with
  | None => Some (Err (type_error "numeric aggregate requires numbers"))
  | Some number =>
      match i64_checked (average_count self + 1) with
      | None => Some (Err overflow)
      | Some count =>
          let next total := Some (Ok {| total := total; average_count := count |}) in
          match total self, value with
          | TInteger sum, Integer value =>
              if bool_decide (in_i 128 (sum + value)) then next (TInteger (sum + value)) else None
          | TNonFinite sum, _ => next (TNonFinite (f64_add sum number))
          | t, _ =>
              if negb (f64_is_finite number) then next (TNonFinite number)
              else match t, value with
                   | TFinite sum, Integer value => next (TFinite (push_integer sum value))
                   | TFinite sum, _ => next (TFinite (scaled_push sum number))
                   | TInteger sum, _ => next (TFinite (scaled_push (push_integer scaled_default sum) number))
                   | TNonFinite _, _ => None
                   end
          end
      end
  end.

Definition average_finish (self : Average) : Value :=
  if average_count self =? 0 then Null
  else Float match total self with
             | TInteger sum => mean (push_integer scaled_default sum) (average_count self)
             | TFinite sum => mean sum (average_count self)
             | TNonFinite value => value
             end.

(** ** Accumulators *)

Inductive State :=
| SCount (count : Z)
| SSum (value : Value)
| SAverage (average : Average)
| SMinimum (value : Value)
| SMaximum (value : Value)
| SCollect (values : list Value).

Inductive Deduplication := All | Distinct (seen : list GroupingKey).

Record Accumulator := { state : State; deduplication : Deduplication }.

Definition accumulator_new (function : Aggregate) (distinct : bool) : Accumulator :=
  {| state := match function with
              | Count => SCount 0
              | Sum => SSum (Integer 0)
              | Avg => SAverage average_new
              | Minimum => SMinimum Null
              | Maximum => SMaximum Null
              | Collect => SCollect []
              end;
     deduplication := if distinct then Distinct [] else All |}.

Definition memory_limit (message : string) : QueryError := runtime_error "resource_limit" "memory_limit" message.
Definition collection_limit (message : string) : QueryError :=
  runtime_error "resource_limit" "collection_limit" message.

(** The numeric transitions, computed before anything changes: the next state of
    a count, sum or average, and the unchanged state otherwise. *)
Definition numeric_transition (s : State) (value : Value) : M State :=
  match s with
  | SSum sum =>
      if is_number value then do v <- lift (binary nan powf Add sum value); ret (SSum v)
      else fail (type_error "numeric aggregate requires numbers")
  | SAverage average => do r <- or_panic (average_next average value); do a <- lift r; ret (SAverage a)
  | SCount count => do c <- lift (ok_or (i64_checked (count + 1)) overflow); ret (SCount c)
  | s => ret s
  end.

(** The final update of the states that keep values. *)
Definition retain (s : State) (value : Value) : State :=
  match s with
  | SMinimum current =>
      if is_null current || bool_decide (total_cmp value current = Lt) then SMinimum value else s
  | SMaximum current =>
      if is_null current || bool_decide (total_cmp value current = Gt) then SMaximum value else s
  | SCollect values => SCollect (values ++ [value])
  | s => s
  end.

Definition is_collect (s : State) : bool :=
  match s with
  | SCollect _ => true
  | _ => false
  end.

(** [push_with_admission]: [max_bytes] and the callback are admission decisions. *)
Definition push (self : Accumulator) (value : Value) (max_items : Z) : M Accumulator :=
  do _ <- lift (validate_runtime_shape value (if is_collect (state self) then 1 else 0) 200000);
  if is_null value then ret self
  else
    do duplicate <- match deduplication self with
                    | Distinct seen => do key <- lift (grouping_key value); ret (existsb (key_eq key) seen)
                    | All => ret false
                    end;
    if duplicate then ret self
    else
      do _ <- allowed (memory_limit "aggregation state exceeds the memory budget");
      do next <- numeric_transition (state self) value;
      do _ <- match state self with
              | SCollect values =>
                  if max_items <=? len values then fail (collection_limit "collect exceeds the collection budget")
                  else ret tt
              | _ => ret tt
              end;
      do _ <- match deduplication self with
              | Distinct seen =>
                  if max_items <=? len seen
                  then fail (collection_limit "distinct aggregation exceeds the collection budget")
                  else ret tt
              | All => ret tt
              end;
      do _ <- remaining;
      do deduplication <- match deduplication self with
                          | Distinct seen =>
                              do _ <- allowed (memory_limit "distinct aggregation allocation failed");
                              do key <- lift (grouping_key value);
                              ret (Distinct (key :: seen))
                          | All => ret All
                          end;
      ret {| state := retain next value; deduplication := deduplication |}.

Definition finish (self : Accumulator) : Value :=
  match state self with
  | SCount count => Integer count
  | SSum value | SMinimum value | SMaximum value => value
  | SAverage average => average_finish average
  | SCollect values => List values
  end.
End Aggregate.

End QueryAggregate.
