(* ===== verification/QueryAggregateSpec.v ===== *)
(** What aggregation computes: the accumulators of
    crates/planner/src/relational/aggregation.rs against the values they keep. *)
From S2P Require Import Prelude Bytes BTree QueryValue QueryShape QueryOperators QueryExpression QueryMonad QueryAggregate.

Open Scope Z_scope.

Module QueryAggregateSpec.
Export QueryAggregate.

(** ** The values an aggregate keeps

    Nulls are skipped; DISTINCT keeps the first of each grouping class. *)

Definition keep (distinct : bool) (kept : list Value) (v : Value) : list Value :=
  if is_null v || (distinct && existsb (fun k => bool_decide (total_cmp v k = Eq)) kept) then kept
  else kept ++ [v].

Definition kept (distinct : bool) (vs : list Value) : list Value := fold_left (keep distinct) vs [].



(** ** The state of an accumulator *)








(** ** Pushing a value *)



Section Push.
Context (nan : Z) (powf : Z -> Z -> Z) (f : Aggregate) (distinct : bool) (max : Z).











(** ** A whole input *)






(** ** A value that is refused *)







End Push.



End QueryAggregateSpec.
