(* ===== verification/QueryEval.v ===== *)
(** The evaluator of query expressions:
    crates/planner/src/relational/evaluation.rs, with its text formatting
    (evaluation/formatting.rs) and its graph boundary (graph_values.rs).

    Every admission of memory is a decision of [QueryMonad]; the order in which
    operands are evaluated, memory is admitted and errors are raised is the
    code's. The [Class] below stands for the tables of the standard library the
    code calls but that are no part of the language: the decimal formatting and
    parsing of floats and the Unicode case mappings. *)
From Stdlib Require Import Floats.SpecFloat.
From S2P Require Import Prelude Bytes BTree Property QueryValue QueryDecimal QueryOperators QueryExpression QueryMonad QueryAggregate.

Open Scope Z_scope.

Module QueryEval.
Export QueryDecimal QueryAggregate.

(** The standard library's text tables. *)
Class TextLibrary := {
  display_f64 : Z -> bytes;
  parse_f64 : bytes -> option Z;
  to_lowercase : bytes -> bytes;
  to_uppercase : bytes -> bytes;
}.

Definition text_of (s : bytes) : string :=
  String.string_of_list_ascii (map (fun c => Ascii.ascii_of_N (Z.to_N c)) s).
Definition lit (s : string) : bytes := map (fun c => Z.of_N (Ascii.N_of_ascii c)) (String.list_ascii_of_string s).

(** ** Strings *)

(** The characters of valid UTF-8: each begins at a byte that does not continue
    another. *)
Fixpoint chars (s : bytes) : list bytes :=
  match s with
  | [] => []
  | b :: s =>
      match chars s with
      | c :: cs => if cont (default 0 (head c)) then (b :: c) :: cs else [b] :: c :: cs
      | [] => [[b]]
      end
  end.

Definition is_ascii (s : bytes) : bool := forallb (fun b => b <? 128) s.
Definition ascii_lower (s : bytes) : bytes := map (fun b => if between 65 90 b then b + 32 else b) s.
Definition ascii_upper (s : bytes) : bytes := map (fun b => if between 97 122 b then b - 32 else b) s.

Definition take_z {A} (n : Z) (l : list A) : list A := take (Z.to_nat (Z.min n (len l))) l.
Definition drop_z {A} (n : Z) (l : list A) : list A := drop (Z.to_nat (Z.min n (len l))) l.

(** [usize as i64]. *)
Definition as_i64 (z : Z) : Z := (z + 2 ^ 63) mod 2 ^ 64 - 2 ^ 63.

(** [Substring]: character offsets resolved to a slice. *)
Definition substring (s : bytes) (start count : Z) : bytes := concat (take_z count (drop_z start (chars s))).

Section Text.
Context `{TextLibrary}.

(** [ScalarText]: the text a scalar is written as. *)
Definition scalar_text (value : Value) : result QueryError bytes :=
  match value with
  | Integer value => Ok (lit (fmt_dec value))
  | Float value =>
      let text := display_f64 value in
      Ok (if f64_is_finite value && negb (existsb (fun c => (c =? 46) || (c =? 101) || (c =? 69)) text)
          then text ++ lit ".0" else text)
  | Boolean value => Ok (lit (if value then "true" else "false"))
  | _ => Err (runtime_error "type_error" "invalid_argument_type" "value cannot be converted to a string")
  end.
End Text.

(** [integer::from_float]. *)
Definition from_float (value : Z) : option Z :=
  if f64_is_finite value && f64_ge value 0xC3E0000000000000 && f64_lt value 0x43E0000000000000
  then Some (f64_as_int 64 value) else None.

(** ** The graph boundary (graph_values.rs) *)

Definition GraphProperties := list (bytes * result QueryError Value).

Record GraphValues := {
  graph_properties : Entity -> result QueryError GraphProperties;
  graph_label : Entity -> result QueryError (option bytes);
}.

(** The trait's provided methods. *)
Definition graph_property (graph : GraphValues) (entity : Entity) (key : bytes) : result QueryError Value :=
  let? properties := graph_properties graph entity in
  match BTree.get bytes_cmp key properties with
  | Some value => value
  | None => Ok Null
  end.
Definition graph_keys (graph : GraphValues) (entity : Entity) : result QueryError (list bytes) :=
  let? properties := graph_properties graph entity in Ok properties.*1.

(** ** Evaluation *)

Definition Row := list Value.

Section Evaluation.
Context `{TextLibrary} (nan : Z) (powf : Z -> Z -> Z).
Context (graph : GraphValues) (parameters : list (bytes * Value)) (max_collection_items : Z).

Definition within_collections (depth : Z) (value : Value) : M unit :=
  lift (validate_collections value depth max_collection_items).

(** [Evaluation::collection]. *)
Definition collection (count : Z) : M unit :=
  if max_collection_items <? count
  then fail (runtime_error "resource_limit" "collection_limit" "expression exceeds collection budget")
  else ret tt.

(** A value read from the row, a parameter or the graph, and every result: its
    shape is checked and its copy is admitted. *)
Definition checked (value : Value) : M Value :=
  do _ <- within_collections 0 value; do _ <- remaining; ret value.

(** [Evaluation::arguments] and [eval_sequence], over the evaluations of the
    expressions in order. *)
Definition arguments (evaluations : list (M Value)) : M (list Value) :=
  do _ <- remaining;
  for_each evaluations [] (fun evaluation values =>
    do _ <- remaining; do value <- evaluation; do _ <- remaining; ret (values ++ [value])).

(** [Evaluation::connective]. *)
Definition connective_result (op : Connective) (left right : option bool) : option bool :=
  match op with
  | And => match left, right with
           | Some false, _ | _, Some false => Some false
           | Some true, Some true => Some true
           | _, _ => None
           end
  | Or => match left, right with
          | Some true, _ | _, Some true => Some true
          | Some false, Some false => Some false
          | _, _ => None
          end
  | Xor => match left, right with
           | Some a, Some b => Some (xorb a b)
           | _, _ => None
           end
  end.

Definition decided (op : Connective) (result : Value) : M bool :=
  match op with
  | And => do t <- lift (truth_of result); ret (bool_decide (t = Some false))
  | Or => do t <- lift (truth_of result); ret (bool_decide (t = Some true))
  | Xor => ret false
  end.

Fixpoint connective_loop (op : Connective) (result : Value) (operands : list (M Value)) : M Value :=
  match operands with
  | [] => ret result
  | operand :: operands =>
      do stop <- decided op result;
      if (stop : bool) then ret result
      else
        do _ <- remaining;
        do value <- operand;
        do _ <- remaining;
        do left_truth <- lift (truth_of result);
        do right_truth <- lift (truth_of value);
        connective_loop op (truth (connective_result op left_truth right_truth)) operands
  end.

Definition connective (op : Connective) (operands : list (M Value)) : M Value :=
  match operands with
  | [] => panic
  | first :: rest => do result <- first; connective_loop op result rest
  end.

(** [Evaluation::add]. *)
Definition grow_list (values : list Value) (additional : Z) : M unit :=
  do _ <- collection (sat_add 64 (len values) additional); remaining.

Definition add (left right : Value) : M Value :=
  match left, right with
  | Null, _ | _, Null => ret Null
  | List [], List b => ret (List b)
  | List a, List b => do _ <- grow_list a (len b); ret (List (a ++ b))
  | List values, value => do _ <- grow_list values 1; ret (List (values ++ [value]))
  | value, List values => do _ <- grow_list values 1; ret (List (value :: values))
  | Str [], Str b => ret (Str b)
  | Str a, Str b => do _ <- remaining; ret (Str (a ++ b))
  | Str text, (Integer _ | Float _) as number =>
      do formatted <- lift (scalar_text number); do _ <- remaining; ret (Str (text ++ formatted))
  | (Integer _ | Float _) as number, Str text =>
      do formatted <- lift (scalar_text number); do _ <- remaining; ret (Str (formatted ++ text))
  | _, _ => lift (binary nan powf Add left right)
  end.

(** [Evaluation::properties]. *)
Definition entity_properties (entity : Entity) : M (list (bytes * Value)) :=
  do properties <- lift (graph_properties graph entity);
  do _ <- remaining;
  for_each properties [] (fun entry values =>
    do value <- lift entry.2;
    do _ <- within_collections 1 value;
    do _ <- remaining;
    ret (values ++ [(entry.1, value)])).

Definition expected {A} (message : string) : M A := fail (type_error message).
(** The text a function trims. *)
Definition string_argument (first : Value) (k : bytes -> M Value) : M Value :=
  match first with
  | Str s => k s
  | _ => expected "string function requires a string"
  end.

(** [Evaluation::function], for the functions not handled before their arguments
    are evaluated. *)
Definition function (function : Function) (args : list Value) : M Value :=
  match args with
  | [] => expected "missing function argument"
  | first :: _ =>
      if bool_decide (function = FExists) then ret (Boolean (negb (is_null first)))
      else if is_null first then ret Null
      else
        match function with
        | FId =>
            match first with
            | EntityValue (Node id | Relationship id) =>
                if id <? 2 ^ 63 then ret (Integer id) else fail overflow
            | _ => expected "id requires a graph entity"
            end
        | FType =>
            match first with
            | EntityValue (Relationship _ as entity) =>
                do label <- lift (graph_label graph entity);
                do _ <- remaining; ret (Str (default [] label))
            | _ => expected "type requires a relationship"
            end
        | FLabels =>
            match first with
            | EntityValue (Node _ as entity) =>
                do label <- lift (graph_label graph entity);
                do _ <- collection (len (opt label));
                do _ <- remaining; ret (List (map Str (opt label)))
            | _ => expected "labels requires a node"
            end
        | FProperties =>
            match first with
            | Map _ => ret first
            | EntityValue entity => do m <- entity_properties entity; ret (Map m)
            | _ => expected "properties requires a map or graph entity"
            end
        | FKeys =>
            match first with
            | Map m =>
                do _ <- collection (len m); do _ <- remaining; ret (List (map Str m.*1))
            | EntityValue entity =>
                do keys <- lift (graph_keys graph entity);
                do _ <- collection (len keys); do _ <- remaining; ret (List (map Str keys))
            | _ => expected "keys requires a map or graph entity"
            end
        | FSize | FLength =>
            match first with
            | Str s => ret (Integer (as_i64 (len (chars s))))
            | List xs => ret (Integer (as_i64 (len xs)))
            | PathValue p => ret (Integer (as_i64 (len (path_relationships p))))
            | _ => expected "expected a string, list, or path"
            end
        | FNodes =>
            match first with
            | PathValue p =>
                do _ <- collection (len (path_nodes p)); do _ <- remaining;
                ret (List (map (fun id => EntityValue (Node id)) (path_nodes p)))
            | _ => expected "nodes requires a path"
            end
        | FRelationships =>
            match first with
            | PathValue p =>
                do _ <- collection (len (path_relationships p)); do _ <- remaining;
                ret (List (map (fun id => EntityValue (Relationship id)) (path_relationships p)))
            | _ => expected "relationships requires a path"
            end
        | FHead | FLast =>
            match first with
            | List xs => ret (default Null (if bool_decide (function = FHead) then head xs else last xs))
            | _ => expected "head and last require a list"
            end
        | FToString =>
            match first with
            | Str _ => ret first
            | _ => do formatted <- lift (scalar_text first); do _ <- remaining; ret (Str formatted)
            end
        | FToInteger =>
            match first with
            | Integer _ => ret first
            | Float f => ret (match from_float f with Some i => Integer i | None => Null end)
            | Str s => ret (to_integer_text s)
            | _ => expected "toInteger requires a string or number"
            end
        | FToFloat =>
            match first with
            | Float _ => ret first
            | Integer i => ret (Float (f64_of_i64 nan i))
            | Str s => ret (match parse_f64 (trim s) with Some f => Float f | None => Null end)
            | _ => expected "toFloat requires a string or number"
            end
        | FToBoolean =>
            match first with
            | Boolean _ => ret first
            | Str s =>
                let text := ascii_lower (trim s) in
                ret (if Property.bytes_eqb text (lit "true") then Boolean true
                     else if Property.bytes_eqb text (lit "false") then Boolean false else Null)
            | _ => expected "toBoolean requires a string or boolean"
            end
        | FAbs =>
            match first with
            | Integer i => do i <- lift (ok_or (i64_checked (Z.abs i)) overflow); ret (Integer i)
            | Float f => ret (Float (f64_abs f))
            | _ => expected "abs requires a number"
            end
        | FRange =>
            match range_new args with
            | Err e => fail e
            | Ok range =>
                do start <- or_panic (range_next range);
                let count := range_count start (range_end range) (range_step range) in
                if max_collection_items <? count
                then fail (collection_limit "range exceeds the collection budget")
                else
                  do _ <- remaining;
                  do values <- or_panic (fill_range (S (Z.to_nat count)) range [] count);
                  ret (List values)
            end
        | FReverse =>
            match first with
            | List xs => ret (List (reverse xs))
            | Str s => do _ <- remaining; ret (Str (concat (reverse (chars s))))
            | _ => expected "reverse requires a string or list"
            end
        | FTrim => string_argument first (fun s => do _ <- remaining; ret (Str (trim s)))
        | FLtrim => string_argument first (fun s => do _ <- remaining; ret (Str (trim_start s)))
        | FRtrim => string_argument first (fun s => do _ <- remaining; ret (Str (trim_end s)))
        | FToLower =>
            string_argument first (fun s =>
              if is_ascii s then ret (Str (ascii_lower s))
              else do _ <- remaining; do _ <- remaining; ret (Str (to_lowercase s)))
        | FToUpper =>
            string_argument first (fun s =>
              if is_ascii s then ret (Str (ascii_upper s))
              else do _ <- remaining; do _ <- remaining; ret (Str (to_uppercase s)))
        | FSubstring =>
            match first with
            | Str s =>
                do start <- match args !! 1%nat with
                            | Some v => lift (nonnegative v)
                            | None => expected "missing substring offset"
                            end;
                do count <- match args !! 2%nat with
                            | Some v => lift (nonnegative v)
                            | None => ret (umax 64)
                            end;
                do _ <- remaining; ret (Str (substring s start count))
            | _ => expected "substring requires a string"
            end
        | FCoalesce | FExists => panic
        end
  end.

(** [Evaluation::aggregate]: [argument] evaluates the expression in a row of the
    group, outside any group. *)
Definition aggregate (function : Aggregate) (argument : option (Row -> M Value)) (distinct : bool)
    (group : option (list Row)) : M Value :=
  match group with
  | None => expected "aggregate requires a grouped input"
  | Some group =>
      do accumulator <- for_each group (accumulator_new function distinct) (fun row accumulator =>
        do value <- match argument with
                    | None => ret (Integer 1)
                    | Some evaluation => do _ <- remaining; evaluation row
                    end;
        do _ <- remaining;
        push nan powf accumulator value max_collection_items);
      ret (finish nan accumulator)
  end.

(** A bound of a slice: [None] is null. *)
Definition slice_bound (bound : option (M Value)) (missing length : Z) : M (option Z) :=
  match bound with
  | None => ret (Some missing)
  | Some evaluation =>
      do value <- evaluation;
      match value with
      | Null => ret None
      | Integer i => ret (Some (slice_position i length))
      | _ => expected "slice bounds must be integers"
      end
  end.

(** The first argument that is not null is the result itself. *)
Fixpoint coalesce (args : list (M Value)) : M Value :=
  match args with
  | [] => checked Null
  | arg :: args => do v <- arg; if is_null v then coalesce args else ret v
  end.

(** The branches in order: the value of the first whose test succeeds, else the
    checked default. *)
Fixpoint first_branch (branches : list (M bool * M Value)) (otherwise : M Value) : M Value :=
  match branches with
  | [] => do value <- otherwise; checked value
  | (test, value) :: branches =>
      do found <- test; if (found : bool) then value else first_branch branches otherwise
  end.

(** [Evaluation::eval] in a row, and in a group when aggregates are allowed. *)
Fixpoint eval (expression : Expression) (row : Row) (group : option (list Row)) {struct expression} : M Value :=
  match expression with
  | ELiteral v => do v <- checked v; checked v
  | ESlot slot =>
      match row !! Z.to_nat slot with
      | None => fail (runtime_error "internal_planner_error" "invalid_slot"
                        "row schema does not contain a referenced slot")
      | Some value => do v <- checked value; checked v
      end
  | EParameter name =>
      match BTree.get bytes_cmp name parameters with
      | None => fail (runtime_error "parameter_missing" "missing_parameter"
                        ("missing parameter $" +:+ text_of name))
      | Some value => do v <- checked value; checked v
      end
  | EProperty value key =>
      do value <- eval value row group;
      match value with
      | Null => checked Null
      | Map m => checked (default Null (BTree.get bytes_cmp key m))
      | EntityValue entity =>
          do v <- lift (graph_property graph entity key); do v <- checked v; checked v
      | _ => expected "property access requires a map, node, or relationship"
      end
  | EIndex value index =>
      do value <- eval value row group;
      do _ <- remaining;
      do index <- eval index row group;
      match value, index with
      | Null, _ | _, Null => checked Null
      | List values, Integer index => do v <- or_panic (index_list values index); checked v
      | List _, _ => fail (runtime_error "type_error" "list_element_access_by_non_integer"
                             "list index must be an integer")
      | Map m, Str key => checked (default Null (BTree.get bytes_cmp key m))
      | EntityValue entity, Str key =>
          do v <- lift (graph_property graph entity key); do v <- checked v; checked v
      | (Map _ | EntityValue _), _ => fail (runtime_error "type_error" "map_element_access_by_non_string"
                                              "map index must be a string")
      | _, _ => expected "value is not indexable"
      end
  | ESlice value start end_ =>
      do value <- eval value row group;
      if is_null value then ret Null
      else
        do _ <- remaining;
        match value with
        | List values =>
            do start <- slice_bound ((fun e => eval e row group) <$> start) 0 (len values);
            do end_ <- slice_bound ((fun e => eval e row group) <$> end_) (len values) (len values);
            match start, end_ with
            | Some start, Some end_ => do values <- or_panic (slice_list values start end_); checked (List values)
            | _, _ => ret Null
            end
        | _ => expected "slicing requires a list"
        end
  | EUnary op x => do x <- eval x row group; do v <- lift (unary op x); checked v
  | EBinary op x y =>
      do a <- eval x row group;
      do _ <- remaining;
      do b <- eval y row group;
      do _ <- remaining;
      do v <- (if bool_decide (op = Add) then add a b else lift (binary nan powf op a b));
      checked v
  | EConnective op operands => do v <- connective op (map (fun e => eval e row group) operands); checked v
  | EList xs =>
      do _ <- collection (len xs);
      do values <- arguments (map (fun e => eval e row group) xs);
      checked (List values)
  | EMap xs =>
      do _ <- remaining;
      do values <- for_each (map (fun x => (x.1, eval x.2 row group)) xs) [] (fun entry values =>
        do _ <- remaining; do value <- entry.2; do _ <- remaining;
        ret (BTree.insert bytes_cmp entry.1 value values));
      checked (Map values)
  | EHasLabel slot label =>
      match row !! Z.to_nat slot with
      | Some Null => checked Null
      | Some (EntityValue (Node _ as entity)) =>
          do found <- lift (graph_label graph entity); checked (Boolean (bool_decide (found = Some label)))
      | _ => expected "label test requires a node"
      end
  | ECase branches otherwise =>
      first_branch
        (map (fun b => (do c <- eval b.1 row group; do t <- lift (truth_of c); ret (bool_decide (t = Some true)),
                        eval b.2 row group)) branches)
        (eval otherwise row group)
  | ESimpleCase operand branches otherwise =>
      do operand <- eval operand row group;
      do _ <- remaining;
      first_branch
        (map (fun b => (do c <- eval b.1 row group; ret (bool_decide (equals operand c = Some true)),
                        eval b.2 row group)) branches)
        (eval otherwise row group)
  | EFunction FCoalesce args => coalesce (map (fun e => eval e row group) args)
  | EFunction f args =>
      do args <- arguments (map (fun e => eval e row group) args);
      do _ <- remaining;
      do v <- function f args;
      checked v
  | EAggregate f argument distinct =>
      do v <- aggregate f ((fun e row => eval e row None) <$> argument) distinct group;
      checked v
  end.

(** [Evaluation::eval_sequence]. *)
Definition eval_sequence (expressions : list Expression) (row : Row) (group : option (list Row)) : M (list Value) :=
  match expressions with
  | [] => ret []
  | _ =>
      do _ <- remaining;
      for_each expressions [] (fun e values =>
        do value <- eval e row group; do _ <- remaining; ret (values ++ [value]))
  end.

(** [UnwindValues]: the list left, or the range generator. *)
Inductive UnwindSource := UnwindList (values : list Value) | UnwindRange (range : IntegerRange).

Definition unwind_next (self : UnwindSource) : option Value * UnwindSource :=
  match self with
  | UnwindList [] => (None, self)
  | UnwindList (v :: values) => (Some v, UnwindList values)
  | UnwindRange range => let '(v, range) := iter_next range in (v, UnwindRange range)
  end.

(** [Evaluation::unwind]. *)
Definition unwind (expression : Expression) (row : Row) (group : option (list Row)) : M UnwindSource :=
  match expression with
  | EFunction FRange arguments =>
      do _ <- remaining;
      do values <- for_each arguments [] (fun e values =>
        do value <- eval e row group; do _ <- remaining; ret (values ++ [value]));
      if bool_decide (is_null <$> head values = Some true) then ret (UnwindList [])
      else do range <- lift (range_new values); ret (UnwindRange range)
  | _ =>
      do value <- eval expression row group;
      ret (UnwindList (match value with
                       | Null => []
                       | List values => values
                       | value => [value]
                       end))
  end.
End Evaluation.

End QueryEval.
