(* ===== verification/QueryEvalSafe.v ===== *)
(** Expression evaluation never panics, keeps 64-bit integers and identities in
    range, bounds every result, and is transparent to memory admission. *)
From S2P Require Import Prelude Bytes BTree Property QueryValue QueryShape QueryDecimal QueryRange QueryOperators QueryExpression QueryMonad QueryAggregate QueryEval.

Open Scope Z_scope.

Module QueryEvalSafe.
Export QueryEval.

(** ** Well-formed values *)

Definition scalar_in_range (v : Value) : Prop :=
  match v with
  | Integer z => in_i 64 z
  | EntityValue (Node id | Relationship id) => in_u 64 id
  | PathValue p => Forall (in_u 64) (path_nodes p) /\ Forall (in_u 64) (path_relationships p)
  | _ => True
  end.

Definition in_range (v : Value) : Prop := Forall scalar_in_range (scalars v).

Lemma in_range_list l : in_range (List l) <-> Forall in_range l.
Proof. apply scalars_list. Qed.
Lemma in_range_map m : in_range (Map m) <-> Forall (fun e => in_range e.2) m.
Proof. apply scalars_map. Qed.
Lemma in_range_scalar v : match v with List _ | Map _ => False | _ => True end ->
  in_range v <-> scalar_in_range v.
Proof. unfold in_range. destruct v; simpl; try done; intros _; by rewrite Forall_singleton. Qed.

Lemma in_range_int z : in_i 64 z -> in_range (Integer z).
Proof. intros H. by rewrite in_range_scalar. Qed.
Lemma in_range_plain v : match v with Null | Boolean _ | Float _ | Str _ => True | _ => False end -> in_range v.
Proof. intros H. rewrite in_range_scalar; by destruct v. Qed.

Create HintDb range.
#[export] Hint Resolve in_range_int : range.
#[export] Hint Extern 1 (in_range _) => (apply in_range_plain; exact I) : range.

Lemma i64_checked_some z i : i64_checked z = Some i -> in_i 64 i.
Proof. unfold i64_checked. case_bool_decide; [by intros [= <-]|done]. Qed.

Lemma truth_in_range t : in_range (truth t).
Proof. destruct t; auto with range. Qed.

Lemma binary_in_range nan powf op a b v : in_range a -> in_range b -> binary nan powf op a b = Ok v -> in_range v.
Proof.
  intros Ha Hb.
  assert (forall op x y v, in_i 64 x -> in_i 64 y -> integer_arithmetic nan powf op x y = Ok v -> in_range v) as Hint.
  { clear. intros op x y v Hx Hy. unfold integer_arithmetic. destruct (_ && _); [done|].
    destruct op; try done; try (destruct (i64_checked _) as [i|] eqn:E; [|done]; intros [= <-]; by eapply in_range_int, i64_checked_some);
      [|intros [= <-]; auto with range].
    unfold i64_checked_rem. destruct (_ && _); [done|]. intros [= <-]. apply in_range_int.
    destruct (decide (y = 0)) as [->|Hy0]; [by rewrite Z.rem_0_r_ext|].
    pose proof (Z.rem_sign_mul x y Hy0). pose proof (Z.rem_le (Z.abs x) (Z.abs y) ltac:(lia) ltac:(lia)) as Hle.
    rewrite Z.rem_abs in Hle by done. unfold in_i in *. simpl in *. lia. }
  assert (forall r, (let? x := float nan a in let? y := float nan b in float_arithmetic nan powf op x y) = Ok r -> in_range r) as Hfloat.
  { intros r. destruct (float nan a), (float nan b); try done. simpl. destruct op; try done; intros [= <-]; auto with range. }
  unfold binary. destruct op; try (intros [= <-]; apply truth_in_range).
  all: try (destruct (is_null a || is_null b); [intros [= <-]; auto with range|]; cbn [compare_op string_op]).
  all: try (destruct (_ && _); intros [= <-]; auto using truth_in_range with range; fail).
  all: try (destruct a, b; try apply Hfloat; try (intros [= <-]; auto with range; fail);
    (apply Hint; [by rewrite in_range_scalar in Ha|by rewrite in_range_scalar in Hb]); fail).
  all: try (destruct a, b; intros [= <-]; auto with range; fail).
  destruct b; try done; intros [= <-]; [auto with range|].
  rewrite in_list_spec. destruct (existsb _ _); [|destruct (_ || _)]; auto with range.
Qed.

Lemma unary_in_range op x v : in_range x -> unary op x = Ok v -> in_range v.
Proof.
  intros Hx. destruct op; simpl.
  - destruct (truth_of x); [|done]. intros [= <-]. apply truth_in_range.
  - destruct x; try done; try (intros [= <-]; auto with range; fail).
    destruct (i64_checked (- z)) eqn:E; [|done]. intros [= <-]. by eapply in_range_int, i64_checked_some.
  - destruct x; try done; by intros [= <-].
  - intros [= <-]. auto with range.
  - intros [= <-]. auto with range.
Qed.

(** ** Bounded results *)

Section Safe.
Context `{TextLibrary} (nan : Z) (powf : Z -> Z -> Z).
Context (graph : GraphValues) (parameters : list (bytes * Value)) (max_collection_items : Z).
Context (Hmax : 0 <= max_collection_items).

Notation max := max_collection_items.

(** At most 48 levels of values, and no list longer than the budget. *)
Definition bounded (v : Value) : Prop := height v <= 48 /\ longest v <= max.
Definition good (v : Value) : Prop := in_range v /\ bounded v.

Lemma within_bounded depth v : validate_collections v depth max = Ok tt -> depth + height v <= 48 /\ longest v <= max.
Proof.
  unfold validate_collections. destruct (check_shape v depth max (umax 64)) as [r|[]] eqn:E; try done. intros _.
  apply check_shape_exact in E; [|done..]. unfold shape_spec, MAX_EXPRESSION_DEPTH in E. lia.
Qed.

Lemma meets_within depth v :
  meets (within_collections max depth v) (fun _ => depth + height v <= 48 /\ longest v <= max).
Proof. apply meets_lift. intros [] E. by apply within_bounded. Qed.

Lemma meets_checked v : in_range v -> meets (checked max v) (fun w => w = v /\ good v).
Proof.
  intros Hv. unfold checked. eapply meets_bind; [apply meets_within|]. intros u Hbound.
  eapply meets_bind; [apply meets_remaining|]. intros _ _. apply meets_ret. done.
Qed.

Lemma meets_result v : in_range v -> meets (checked max v) good.
Proof. intros Hv. eapply meets_weaken; [by apply meets_checked|]. by intros w [-> ?]. Qed.

(** A result computed from an outcome. *)
Lemma meets_lift_result (r : result QueryError Value) :
  (forall v, r = Ok v -> in_range v) -> meets (do v <- lift r; checked max v) good.
Proof.
  intros Hr. eapply meets_bind; [by apply (meets_lift r in_range)|]. intros v Hv. by apply meets_result.
Qed.

Lemma meets_collection n : meets (collection max n) (fun _ => n <= max).
Proof. unfold collection. destruct (Z.ltb_spec max n); [apply meets_fail|by apply meets_ret]. Qed.

Lemma meets_expected {A} message (Q : A -> Prop) : meets (expected message) Q.
Proof. apply meets_fail. Qed.

Lemma meets_then {A} (m : M A) (k : A -> M Value) (P : A -> Prop) Q :
  meets m P -> (forall a, P a -> meets (k a) Q) -> meets (bind m k) Q.
Proof. apply meets_bind. Qed.

(** One step of a computation whose outcome does not matter. *)
Ltac step := eapply meets_bind; [first [apply meets_remaining|apply meets_collection|apply meets_within]|intros ? ?]; cbn beta in *.

Lemma meets_arguments evaluations : Forall (fun m => meets m good) evaluations ->
  meets (arguments evaluations) (fun values => Forall good values /\ length values = length evaluations).
Proof.
  intros Hall. unfold arguments. step.
  assert (forall values, Forall good values -> meets (for_each evaluations values (fun evaluation values =>
    do _ <- remaining; do value <- evaluation; do _ <- remaining; ret (values ++ [value])))
    (fun values' => Forall good values' /\ length values' = (length values + length evaluations)%nat)) as Hgen.
  { induction Hall as [|m evaluations Hm Hall IH]; intros values Hv; simpl; [apply meets_ret; split; [done|lia]|].
    eapply (meets_bind _ _ (fun s => Forall good s /\ length s = S (length values))).
    - step. eapply meets_bind; [exact Hm|]. intros v Hgv. step. apply meets_ret.
      rewrite length_app. simpl. split; [|lia]. apply Forall_app_2; [done|by constructor].
    - intros s [Hs Hl]. eapply meets_weaken; [by apply IH|]. intros s' [? Hl']. split; [done|]. lia. }
  eapply meets_weaken; [by apply Hgen|]. by intros s [? ?].
Qed.

(** ** Connectives *)

Lemma meets_truth v : meets (lift (truth_of v)) (fun _ => True).
Proof. by apply meets_lift. Qed.

Lemma meets_connective op operands : operands <> [] -> Forall (fun m => meets m good) operands ->
  meets (connective op operands) in_range.
Proof.
  intros Hne Hall. destruct Hall as [|m operands Hm Hall]; [done|]. simpl.
  eapply meets_bind; [exact Hm|]. intros v [Hv _]. clear Hm Hne. revert v Hv.
  induction Hall as [|m' operands Hm Hall IH]; intros v Hv; simpl; [by apply meets_ret|].
  eapply (meets_bind _ _ (fun _ => True)).
  { destruct op; simpl; [..|by apply meets_ret]; (eapply meets_bind; [apply meets_truth|]; intros; by apply meets_ret). }
  intros stop _. destruct stop; [by apply meets_ret|]. step. eapply meets_bind; [exact Hm|]. intros w Hw. step.
  eapply meets_bind; [apply meets_truth|]. intros l _. eapply meets_bind; [apply meets_truth|]. intros r _.
  apply IH, truth_in_range.
Qed.

(** ** Addition *)

Lemma in_range_app a b : in_range (List a) -> in_range (List b) -> in_range (List (a ++ b)).
Proof. rewrite !in_range_list, Forall_app. done. Qed.

Lemma meets_grow values n : meets (grow_list max values n) (fun _ => True).
Proof. unfold grow_list. step. apply meets_remaining. Qed.

Lemma meets_add a b : in_range a -> in_range b -> meets (add nan powf max a b) in_range.
Proof.
  intros Ha Hb.
  assert (forall v w, in_range v -> in_range w -> meets (lift (binary nan powf Add v w)) in_range) as Hbin.
  { intros v w Hv Hw. apply meets_lift. intros u. by apply binary_in_range. }
  assert (forall values n v, in_range v -> meets (do _ <- grow_list max values n; ret v) in_range) as Hgrow.
  { intros values n v Hv. eapply meets_bind; [apply meets_grow|]. intros. by apply meets_ret. }
  assert (forall n (k : bytes -> bytes), meets (do formatted <- lift (scalar_text n); do _ <- remaining; ret (Str (k formatted))) in_range) as Htext.
  { intros n k. eapply meets_bind; [by apply (meets_lift _ (fun _ => True))|]. intros s _. step. apply meets_ret. auto with range. }
  assert (forall v, in_range v -> in_range (List [v])) as Hone by (intros v Hv; apply in_range_list; by constructor).
  destruct a as [|x|x|x|x|x|x|x|x]; try (by apply meets_ret); try (destruct x as [|z x]);
    destruct b as [|y|y|y|y|y|y|y|y]; try (by apply meets_ret; auto with range); try (by apply Hbin); cbn [add];
    try (apply Hgrow); try (by apply meets_ret);
    try (apply in_range_app; auto; fail); try (apply (in_range_app [_]); auto; fail);
    try (step; apply meets_ret; auto with range; fail); try apply (Htext _ (app _)); try apply (Htext _ (fun s => s ++ _)).
Qed.

(** ** Functions *)

Context (Hgraph : forall entity m, graph_properties graph entity = Ok m ->
  Forall (fun entry => forall v, entry.2 = Ok v -> in_range v) m).

Lemma in_range_strings l : in_range (List (map Str l)).
Proof. apply in_range_list, Forall_map, Forall_forall. intros s _. simpl. auto with range. Qed.

Lemma meets_entity_properties entity : meets (entity_properties graph max entity) (fun m => in_range (Map m)).
Proof.
  unfold entity_properties. eapply meets_bind; [apply (meets_lift _ (fun m => graph_properties graph entity = Ok m)); auto|].
  intros m Hm. apply Hgraph in Hm. step. apply meets_for_each; [by apply in_range_map|].
  intros e values He Hv. rewrite Forall_forall in Hm. eapply meets_bind; [by apply (meets_lift _ in_range), Hm|].
  intros v Hr. step. step. apply meets_ret. rewrite in_range_map in *. apply Forall_app_2; [done|by constructor].
Qed.

Lemma in_range_entities (f : Z -> Entity) l : (forall id, in_u 64 id -> in_range (EntityValue (f id))) ->
  Forall (in_u 64) l -> in_range (List (map (fun id => EntityValue (f id)) l)).
Proof.
  intros Hf Hl. rewrite in_range_list, Forall_map. eapply Forall_impl; [exact Hl|]. intros id. apply Hf.
Qed.

Lemma as_i64_range z : in_i 64 (as_i64 z).
Proof. unfold as_i64, in_i. pose proof (Z.mod_pos_bound (z + 2 ^ 63) (2 ^ 64)). simpl in *. lia. Qed.

Lemma progression_in_range start end_ step : in_i 64 start -> in_i 64 end_ -> step <> 0 ->
  in_range (List (progression start step (Z.to_nat (range_count start end_ step)))).
Proof.
  intros Hs He Hz. apply in_range_list, Forall_forall. intros v Hv.
  assert (exists z, v = Integer z) as [z ->].
  { unfold progression in Hv. apply list_elem_of_In, in_map_iff in Hv as (k & <- & _). eauto. }
  apply in_progression in Hv as ((? & ?) & k & Hk & ->); [|done]. apply in_range_int. unfold in_i in *.
  destruct (Z.lt_trichotomy 0 step) as [?|[?|?]]; [|lia|]; nia.
Qed.

Lemma range_new_ok args range : Forall in_range args -> range_new args = Ok range ->
  exists start end_ step, range = start_at start end_ step /\ in_i 64 start /\ in_i 64 end_ /\ in_i 64 step /\ step <> 0.
Proof.
  intros Hargs. unfold range_new. destruct args as [|[| |start| | | | | |] args]; try done.
  destruct args as [|[| |end_| | | | | |] args]; try done.
  apply Forall_cons in Hargs as [Hs Hargs]. apply Forall_cons in Hargs as [He Hargs].
  rewrite in_range_scalar in Hs by done. rewrite in_range_scalar in He by done.
  destruct args as [|[| |step| | | | | |] [|]]; try done; simpl.
  - intros [= <-]. exists start, end_, 1. split_and!; try done.
  - apply Forall_inv in Hargs. rewrite in_range_scalar in Hargs by done.
    destruct (Z.eqb_spec step 0); [done|]. intros [= <-]. exists start, end_, step. split_and!; done.
Qed.

Lemma meets_range args : Forall in_range args -> meets (function nan graph max FRange args) in_range.
Proof.
  intros Hargs. destruct args as [|first args]; [apply meets_expected|]. cbn [function].
  rewrite bool_decide_false by done. destruct (is_null first); [apply meets_ret; auto with range|].
  destruct (range_new (first :: args)) as [range|e] eqn:Er; [|apply meets_fail].
  apply range_new_ok in Er as (start & end_ & step & -> & Hs & He & Hst & Hz); [|done].
  cbn [start_at range_next range_end range_step or_panic].
  eapply meets_bind; [apply (meets_ret start (eq start)); done|]. intros ? <-.
  destruct (Z.ltb_spec max (range_count start end_ step)); [apply meets_fail|]. step.
  destruct (range_count_step start end_ step Hz) as (Hpos & _).
  pose proof (iterate_exact (S (Z.to_nat (range_count start end_ step))) start end_ step Hs He Hst Hz ltac:(lia)) as Hit.
  rewrite (fill_iterate _ (range_count start end_ step) _ [] _ Hit).
  2: { unfold progression, len. rewrite length_map, length_seq. simpl length. lia. }
  cbn [or_panic app]. eapply meets_bind; [by apply (meets_ret _ (fun l => in_range (List l))), progression_in_range|].
  intros l Hl.
  by apply meets_ret.
Qed.

Lemma i64_try_from_some z i : i64_try_from z = Some i -> in_i 64 i.
Proof. unfold i64_try_from. case_bool_decide; [by intros [= <-]|done]. Qed.

Lemma to_integer_in_range s : in_range (to_integer_text s).
Proof.
  unfold to_integer_text.
  assert (forall o : option Z, (forall i, o = Some i -> in_i 64 i) -> in_range (match o with Some i => Integer i | None => Null end)) as H'.
  { intros [i|] Hi; [apply in_range_int; by apply Hi|auto with range]. }
  apply H'. intros i. destruct (parse_i64 (trim s)) as [i'|] eqn:E.
  - intros [= <-]. unfold parse_i64 in E. destruct (strip_sign _). destruct (_ || _); [done|]. by eapply i64_try_from_some.
  - unfold from_decimal. destruct (strip_sign _) as [negative unsigned].
    destruct (parse_exponent unsigned) as [[mantissa x]|]; [|done]. cbn [mbind option_bind].
    destruct (default _ _) as [whole fraction]. destruct (_ || _); [done|].
    destruct (leading_zeroes_of _); [|by intros [= <-]].
    destruct (_ <=? 0); [by intros [= <-]|]. destruct (19 <? _); [done|].
    destruct (take_digits _ _ _) as [[? ?]|]; [|done]. cbn [mbind option_bind]. destruct (_ || _); [done|].
    destruct negative; apply i64_try_from_some.
Qed.

Lemma from_float_in_range f i : from_float f = Some i -> in_i 64 i.
Proof.
  unfold from_float. destruct (_ && _); [|done]. intros [= <-]. unfold f64_as_int, in_i.
  assert (0 < 2 ^ (64 - 1)) as Hc by done. set (c := 2 ^ (64 - 1)) in *. clearbody c.
  destruct (decode_f64 f) as [s|[]| |[] m e]; cbv zeta; lia.
Qed.

Lemma meets_function f args : f <> FCoalesce -> Forall in_range args ->
  meets (function nan graph max f args) in_range.
Proof.
  intros Hf Hargs. destruct (decide (f = FRange)) as [->|Hrange]; [by apply meets_range|].
  destruct args as [|first args]; [apply meets_expected|]. apply Forall_cons in Hargs as [Hfirst Hargs].
  cbn [function]. case_bool_decide; [apply meets_ret; auto with range|].
  destruct (is_null first); [apply meets_ret; auto with range|].
  assert (forall k : bytes -> M Value, (forall s, meets (k s) in_range) -> meets (string_argument first k) in_range) as Hstr.
  { intros k Hk. destruct first; try apply meets_expected. apply Hk. }
  assert (forall s, meets (do _ <- remaining; ret (Str s)) in_range) as Hcopy.
  { intros s. step. apply meets_ret. auto with range. }
  destruct f; try done; try (apply Hstr; intros s; try destruct (is_ascii s); try apply meets_ret; try step;
    auto with range; fail); destruct first as [|b|z|z|s|l|m|[id|id]|p]; try apply meets_expected;
    try (apply meets_ret; auto using as_i64_range with range; fail); try (by apply Hcopy).
  - (* id *) rewrite in_range_scalar in Hfirst by done. simpl in Hfirst.
    destruct (Z.ltb_spec id (2 ^ 63)); [|apply meets_fail]. apply meets_ret, in_range_int. unfold in_i, in_u in *. simpl in *. lia.
  - rewrite in_range_scalar in Hfirst by done. simpl in Hfirst.
    destruct (Z.ltb_spec id (2 ^ 63)); [|apply meets_fail]. apply meets_ret, in_range_int. unfold in_i, in_u in *. simpl in *. lia.
  - (* type *) eapply meets_bind; [by apply (meets_lift _ (fun _ => True))|]. intros o _. apply Hcopy.
  - (* labels *) eapply meets_bind; [by apply (meets_lift _ (fun _ => True))|]. intros o _. step. step.
    apply meets_ret, in_range_strings.
  - eapply meets_bind; [apply meets_entity_properties|]. intros m Hm. by apply meets_ret.
  - eapply meets_bind; [apply meets_entity_properties|]. intros m Hm. by apply meets_ret.
  - (* keys *) step. step. apply meets_ret, in_range_strings.
  - eapply meets_bind; [by apply (meets_lift _ (fun _ => True))|]. intros o _. step. step. apply meets_ret, in_range_strings.
  - eapply meets_bind; [by apply (meets_lift _ (fun _ => True))|]. intros o _. step. step. apply meets_ret, in_range_strings.
  - (* nodes *) step. step. apply meets_ret. rewrite in_range_scalar in Hfirst by done. destruct Hfirst as [Hn _].
    apply in_range_entities; [|done]. intros id Hid. by rewrite in_range_scalar.
  - (* relationships *) step. step. apply meets_ret. rewrite in_range_scalar in Hfirst by done. destruct Hfirst as [_ Hn].
    apply in_range_entities; [|done]. intros id Hid. by rewrite in_range_scalar.
  - (* head *) apply meets_ret. rewrite in_range_list in Hfirst. destruct Hfirst; simpl; auto with range.
  - (* last *) apply meets_ret. rewrite in_range_list in Hfirst. cbn. destruct (last l) as [v|] eqn:E; simpl; auto with range.
    apply last_Some in E as [l' ->]. apply Forall_app in Hfirst as [_ Hv]. by apply Forall_inv in Hv.
  - (* toInteger *) apply meets_ret. destruct (from_float z) eqn:E; [by eapply in_range_int, from_float_in_range|auto with range].
  - apply meets_ret, to_integer_in_range.
  - (* toFloat *) apply meets_ret. destruct (parse_f64 _); auto with range.
  - (* toBoolean *) apply meets_ret. repeat case_match; auto with range.
  - (* abs *) apply meets_bind with (P := in_i 64); [|intros i Hi; by apply meets_ret, in_range_int].
    apply meets_lift. intros i. destruct (i64_checked (Z.abs z)) eqn:E; [|done]. intros [= <-]. by eapply i64_checked_some.
  - (* reverse *) apply meets_ret. rewrite in_range_list in *. by apply Forall_reverse.
  - (* substring *) eapply (meets_bind _ _ (fun _ => True)); [destruct (_ !! _); [by apply meets_lift|apply meets_expected]|].
    intros start _. eapply (meets_bind _ _ (fun _ => True)); [destruct (_ !! _); [by apply meets_lift|by apply meets_ret]|].
    intros count _. apply Hcopy.
Qed.

(** ** Aggregates *)

(** The integer total stays below [2 ^ 126]. *)
Definition average_ok (a : Average) : Prop :=
  0 <= average_count a < 2 ^ 63 /\
  match total a with
  | TInteger sum => Z.abs sum <= average_count a * 2 ^ 63
  | _ => True
  end.

Definition state_ok (s : State) : Prop :=
  match s with
  | SCount count => in_i 64 count
  | SSum v | SMinimum v | SMaximum v => in_range v
  | SAverage a => average_ok a
  | SCollect values => Forall in_range values
  end.

Lemma average_next_ok a v : average_ok a -> in_range v ->
  exists r, average_next nan a v = Some r /\ forall a', r = Ok a' -> average_ok a'.
Proof.
  intros [Hc Ht] Hv. unfold average_next.
  destruct (match v with Integer value => Some (f64_of_int nan value) | Float value => Some value | _ => None end) as [number|];
    [|eexists; split; [done|]; done].
  destruct (i64_checked (average_count a + 1)) as [count|] eqn:E; [|eexists; split; [done|]; done].
  assert (count = average_count a + 1 /\ 0 <= count < 2 ^ 63) as [-> Hcount].
  { unfold i64_checked in E. case_bool_decide as Hi; [|done]. injection E as <-. unfold in_i in Hi. split; [done|]. simpl in *. lia. }
  assert (forall t, match t with TInteger sum => Z.abs sum <= (average_count a + 1) * 2 ^ 63 | _ => True end ->
    exists r, Some (Ok (E := QueryError) {| total := t; average_count := average_count a + 1 |}) = Some r /\
      forall a', r = Ok a' -> average_ok a') as Hnext.
  { intros t H'. eexists. split; [done|]. intros a' [= <-]. by split. }
  destruct (total a) as [sum|sum|value] eqn:Et.
  - destruct v as [| |z|z| | | | |]; try (destruct (negb _); by apply Hnext).
    rewrite in_range_scalar in Hv by done. simpl in Hv. unfold in_i in Hv.
    assert (Z.abs (sum + z) <= (average_count a + 1) * 2 ^ 63) by (simpl in *; lia).
    rewrite bool_decide_true; [by apply Hnext|]. unfold in_i. change (2 ^ (128 - 1)) with (2 ^ 64 * 2 ^ 63).
    simpl in *. lia.
  - destruct (negb _); [by apply Hnext|]. destruct v; by apply Hnext.
  - by apply Hnext.
Qed.

Lemma meets_numeric s v : state_ok s -> in_range v -> meets (numeric_transition nan powf s v) state_ok.
Proof.
  intros Hs Hv. destruct s; cbn [numeric_transition state_ok] in *; try by apply meets_ret.
  - unfold i64_checked. case_bool_decide; simpl; [|apply meets_fail].
    apply meets_bind with (P := in_i 64); [apply meets_lift; by intros ? [= <-]|]. intros c Hc. by apply meets_ret.
  - destruct (is_number v); [|apply meets_fail]. eapply meets_bind.
    + apply (meets_lift _ in_range). intros w. by apply binary_in_range.
    + intros w Hw. by apply meets_ret.
  - destruct (average_next_ok average v Hs Hv) as (r & -> & Hr). cbn [or_panic].
    eapply meets_bind; [apply (meets_ret r (eq r)); done|]. intros ? <-.
    eapply meets_bind; [apply (meets_lift r average_ok); done|]. intros a Ha. by apply meets_ret.
Qed.

Lemma retain_ok s v : state_ok s -> in_range v -> state_ok (retain s v).
Proof.
  intros Hs Hv. destruct s; simpl in *; try done; try (by destruct (_ || _)). apply Forall_app_2; [done|by constructor].
Qed.

Lemma meets_push acc v : state_ok (state acc) -> in_range v ->
  meets (push nan powf acc v max) (fun acc' => state_ok (state acc')).
Proof.
  intros Hs Hv. unfold push.
  assert (forall {A} (r : result QueryError A), meets (lift r) (fun _ => True)) as Hlift by (intros; by apply meets_lift).
  eapply meets_bind; [apply Hlift|]. intros _ _. destruct (is_null v); [by apply meets_ret|].
  eapply (meets_bind _ _ (fun _ => True)).
  { destruct (deduplication acc); [by apply meets_ret|]. eapply meets_bind; [apply Hlift|]. intros. by apply meets_ret. }
  intros duplicate _. destruct duplicate; [by apply meets_ret|].
  eapply meets_bind; [by apply meets_allowed|]. intros _ _.
  eapply meets_bind; [by apply meets_numeric|]. intros next Hnext.
  eapply (meets_bind _ _ (fun _ => True)).
  { destruct (state acc); try (by apply meets_ret). destruct (_ <=? _); [apply meets_fail|by apply meets_ret]. }
  intros _ _. eapply (meets_bind _ _ (fun _ => True)).
  { destruct (deduplication acc); [by apply meets_ret|]. destruct (_ <=? _); [apply meets_fail|by apply meets_ret]. }
  intros _ _. step. eapply (meets_bind _ _ (fun _ => True)).
  { destruct (deduplication acc); [by apply meets_ret|]. eapply meets_bind; [by apply meets_allowed|]. intros _ _.
    eapply meets_bind; [apply Hlift|]. intros. by apply meets_ret. }
  intros d _. apply meets_ret. simpl. by apply retain_ok.
Qed.

Lemma accumulator_new_ok f distinct : state_ok (state (accumulator_new f distinct)).
Proof.
  destruct f; cbn [accumulator_new state state_ok]; auto with range; [done|by apply in_range_int|].
  split; [done|]. simpl. lia.
Qed.

Lemma finish_in_range acc : state_ok (state acc) -> in_range (finish nan acc).
Proof.
  unfold finish. destruct (state acc); simpl; try done; [by apply in_range_int|intros _|by rewrite in_range_list].
  unfold average_finish. destruct (_ =? _); auto with range.
Qed.

Lemma meets_aggregate f argument distinct group :
  (forall rows, group = Some rows -> forall e, argument = Some e -> Forall (fun row => meets (e row) good) rows) ->
  meets (aggregate nan powf max f argument distinct group) in_range.
Proof.
  intros Harg. unfold aggregate. destruct group as [rows|]; [|apply meets_expected]. specialize (Harg rows eq_refl).
  eapply (meets_bind _ _ (fun acc => state_ok (state acc))).
  - apply meets_for_each; [apply accumulator_new_ok|]. intros row acc Hrow Hacc.
    eapply (meets_bind _ _ in_range).
    + destruct argument as [e|]; [|apply meets_ret; by apply in_range_int]. step.
      specialize (Harg e eq_refl). rewrite Forall_forall in Harg. eapply meets_weaken; [by apply Harg|]. by intros w [? _].
    + intros v Hv. step. by apply meets_push.
  - intros acc Hacc. by apply meets_ret, finish_in_range.
Qed.

(** ** Expressions *)

(** What validation and planning establish of an expression. *)
Definition node_in_range (e : Expression) : Prop :=
  match e with
  | ELiteral v => in_range v
  | EConnective _ operands => operands <> []
  | _ => True
  end.
Definition well_formed (e : Expression) : Prop := Forall node_in_range (nodes e).

Lemma well_formed_children e : well_formed e <-> node_in_range e /\ Forall well_formed (children e).
Proof. unfold well_formed. rewrite nodes_children, Forall_cons. by rewrite Forall_flat_map. Qed.

Lemma get_in_range k m : in_range (Map m) -> in_range (default Null (BTree.get bytes_cmp k m)).
Proof.
  intros Hm. destruct (BTree.get bytes_cmp k m) as [v|] eqn:E; simpl; [|auto with range].
  apply (BTree.get_in bytes_cmp) in E. rewrite in_range_map, Forall_forall in Hm. by apply (Hm (k, v)).
Qed.

Lemma insert_in_range k v m : in_range v -> in_range (Map m) -> in_range (Map (BTree.insert bytes_cmp k v m)).
Proof.
  rewrite !in_range_map. intros Hv. induction 1 as [|[k' v'] m Hv' Hm IH]; simpl; [by repeat constructor|].
  destruct (bytes_cmp k k'); by repeat constructor.
Qed.

Lemma meets_property entity key :
  meets (do v <- lift (graph_property graph entity key); do v <- checked max v; checked max v) good.
Proof.
  eapply meets_bind; [apply (meets_lift _ in_range)|].
  - intros v. unfold graph_property. destruct (graph_properties graph entity) as [m|] eqn:E; [|done]. apply Hgraph in E.
    simpl. destruct (BTree.get bytes_cmp key m) as [r|] eqn:Eg; [|intros [= <-]; auto with range].
    apply (BTree.get_in bytes_cmp) in Eg. rewrite Forall_forall in E. apply (E (key, r) Eg).
  - intros v Hv. eapply meets_bind; [by apply meets_checked|]. intros w [-> _]. by apply meets_result.
Qed.

Lemma meets_twice v : in_range v -> meets (do v <- checked max v; checked max v) good.
Proof. intros Hv. eapply meets_bind; [by apply meets_checked|]. intros w [-> _]. by apply meets_result. Qed.

Lemma good_null : good Null.
Proof. split; [auto with range|]. split; simpl; lia. Qed.

Lemma meets_slice_bound o missing n : (forall m, o = Some m -> meets m good) -> 0 <= n -> 0 <= missing <= n ->
  meets (slice_bound o missing n) (fun b => forall i, b = Some i -> 0 <= i <= n).
Proof.
  intros Ho Hn Hm. destruct o as [m|]; simpl; [|apply meets_ret; by intros ? [= <-]].
  eapply meets_bind; [by apply Ho|]. intros v _. destruct v; try apply meets_expected; apply meets_ret; [done|].
  intros ? [= <-]. by apply slice_position_bounds.
Qed.

Lemma meets_first_branch branches otherwise :
  Forall (fun b => meets b.1 (fun _ => True) /\ meets b.2 good) branches -> meets otherwise good ->
  meets (first_branch max branches otherwise) good.
Proof.
  intros Hb Ho. induction Hb as [|[test value] branches [Ht Hv] _ IH]; simpl in *.
  - eapply meets_bind; [exact Ho|]. intros v [Hv _]. by apply meets_result.
  - eapply meets_bind; [exact Ht|]. intros [] _; [exact Hv|exact IH].
Qed.

Lemma meets_coalesce args : Forall (fun m => meets m good) args -> meets (coalesce max args) good.
Proof.
  induction 1 as [|m args Hm _ IH]; simpl; [apply meets_result; auto with range|].
  eapply meets_bind; [exact Hm|]. intros v Hv. destruct (is_null v); [exact IH|by apply meets_ret].
Qed.

Context (Hparameters : in_range (Map parameters)).

Notation eval := (eval nan powf graph parameters max).

Definition row_ok (row : Row) : Prop := Forall in_range row.
Definition group_ok (group : option (list Row)) : Prop :=
  forall rows, group = Some rows -> Forall row_ok rows.

Definition eval_meets (e : Expression) : Prop := forall row group, row_ok row -> group_ok group ->
  meets (eval e row group) good.

Lemma evals_meet es row group : row_ok row -> group_ok group -> Forall eval_meets es ->
  Forall (fun m => meets m good) (map (fun e => eval e row group) es).
Proof. intros Hr Hg H'. apply Forall_map. eapply Forall_impl; [exact H'|]. intros e He. by apply He. Qed.

Lemma branches_meet (branches : list (Expression * Expression)) row group (test : Value -> M bool) :
  row_ok row -> group_ok group -> (forall v, meets (test v) (fun _ => True)) ->
  Forall eval_meets (flat_map pair_list branches) ->
  Forall (fun b => meets b.1 (fun _ => True) /\ meets b.2 good)
    (map (fun b => (do c <- eval b.1 row group; test c, eval b.2 row group)) branches).
Proof.
  intros Hr Hg Ht H'. apply Forall_map. rewrite Forall_flat_map in H'. eapply Forall_impl; [exact H'|].
  intros [x y] Hxy. apply Forall_cons in Hxy as [Hx Hy]. apply Forall_inv in Hy. simpl in *. split; [|by apply Hy].
  eapply meets_bind; [by apply Hx|]. intros v _. apply Ht.
Qed.

Lemma lookup_in_range row slot v : row_ok row -> row !! Z.to_nat slot = Some v -> in_range v.
Proof. intros Hr Hv. unfold row_ok in Hr. rewrite Forall_lookup in Hr. by eapply Hr. Qed.

Lemma index_in_range values i v : in_range (List values) -> index_list values i = Some v -> in_range v.
Proof.
  rewrite in_range_list, index_list_some. intros Hv [= <-]. destruct (_ && _); [|auto with range].
  destruct (values !! _) eqn:E; simpl; [|auto with range]. rewrite Forall_lookup in Hv. by eapply Hv.
Qed.

Lemma meets_eval e : well_formed e -> eval_meets e.
Proof.
  induction e as [e IH] using expression_ind'. intros [Hnode Hchildren]%well_formed_children.
  assert (Forall eval_meets (children e)) as Hall.
  { apply Forall_forall. intros c Hc. rewrite Forall_forall in IH, Hchildren. auto. }
  clear IH Hchildren. intros row group Hrow Hgroup.
  destruct e as [v|slot|name|x key|x y|x start end_|op x|op x y|op xs|f xs|f arg distinct|xs|xs|bs x|x bs y|slot label];
    cbn [children pushed] in Hall; cbn [QueryEval.eval].
  - by apply meets_twice.
  - destruct (row !! Z.to_nat slot) eqn:E; [|apply meets_fail]. apply meets_twice. by eapply lookup_in_range.
  - destruct (BTree.get bytes_cmp name parameters) eqn:E; [|apply meets_fail]. apply meets_twice.
    pose proof (get_in_range name parameters Hparameters) as Hg. by rewrite E in Hg.
  - apply Forall_inv in Hall. eapply meets_bind; [by apply Hall|]. intros v [Hv _].
    destruct v; try apply meets_expected; [apply meets_result; auto with range| |apply meets_property].
    by apply meets_result, get_in_range.
  - apply Forall_cons in Hall as [Hx Hy]. apply Forall_inv in Hy.
    eapply meets_bind; [by apply Hx|]. intros v [Hv _]. step. eapply meets_bind; [by apply Hy|]. intros w [Hw _].
    destruct v; try (destruct w; try apply meets_expected; apply meets_result; auto with range; fail).
    + destruct w; try apply meets_fail; [apply meets_result; auto with range|].
      destruct (index_list l z) as [u|] eqn:E; [|by rewrite index_list_some in E]. cbn [or_panic].
      eapply meets_bind; [apply (meets_ret u (eq u)); done|]. intros ? <-.
      apply meets_result. by eapply index_in_range.
    + destruct w; try apply meets_fail; apply meets_result; [auto with range|by apply get_in_range].
    + destruct w; try apply meets_fail; [apply meets_result; auto with range|apply meets_property].
  - apply Forall_cons in Hall as [Hx Hall]. apply Forall_app in Hall as [Hs He].
    eapply meets_bind; [by apply Hx|]. intros v [Hv _]. destruct (is_null v); [apply meets_ret, good_null|]. step.
    destruct v as [| | | | |values| | |]; try apply meets_expected.
    assert (0 <= len values) by (unfold len; lia).
    eapply meets_bind; [apply (meets_slice_bound _ 0 (len values)); [|lia..]|].
    { intros m E. destruct start as [s|]; [|done]. injection E as <-. apply Forall_inv in Hs. by apply Hs. }
    intros bs Hbs. eapply meets_bind; [apply (meets_slice_bound _ (len values) (len values)); [|lia..]|].
    { intros m E. destruct end_ as [s|]; [|done]. injection E as <-. apply Forall_inv in He. by apply He. }
    intros be Hbe. destruct bs as [s|], be as [e|]; try (apply meets_ret, good_null).
    specialize (Hbs s eq_refl). specialize (Hbe e eq_refl). rewrite slice_list_some by lia. cbn [or_panic].
    eapply meets_bind; [apply (meets_ret _ (fun l => in_range (List l)))|intros l Hl; by apply meets_result].
    rewrite in_range_list in *. destruct (_ <=? _); [constructor|]. by apply Forall_drop, Forall_take.
  - apply Forall_inv in Hall. eapply meets_bind; [by apply Hall|]. intros v [Hv _].
    apply meets_lift_result. intros w. by apply unary_in_range.
  - apply Forall_cons in Hall as [Hx Hy]. apply Forall_inv in Hy.
    eapply meets_bind; [by apply Hx|]. intros v [Hv _]. step. eapply meets_bind; [by apply Hy|]. intros w [Hw _]. step.
    eapply meets_bind; [|intros u Hu; by apply meets_result]. case_bool_decide; [by apply meets_add|].
    apply meets_lift. intros u. by apply binary_in_range.
  - eapply meets_bind; [apply meets_connective|intros u Hu; by apply meets_result].
    + intros E. apply map_eq_nil in E as ->. done.
    + by apply evals_meet.
  - assert (forall f, f <> FCoalesce -> meets (do args <- arguments (map (fun e => eval e row group) xs); do _ <- remaining;
      do v <- function nan graph max f args; checked max v) good) as Hf.
    { intros f' Hf'. eapply meets_bind; [apply meets_arguments; by apply evals_meet|]. intros args [Hargs _]. step.
      eapply meets_bind; [apply meets_function; [done|]|intros u Hu; by apply meets_result].
      eapply Forall_impl; [exact Hargs|]. by intros w [? _]. }
    destruct f; try (by apply Hf). apply meets_coalesce. by apply evals_meet.
  - eapply meets_bind; [apply meets_aggregate|intros u Hu; by apply meets_result].
    intros rows -> m E. destruct arg as [a|]; [|done]. injection E as <-. apply Forall_inv in Hall.
    eapply Forall_impl; [by apply Hgroup|]. intros r Hr. by apply Hall.
  - step. eapply meets_bind; [apply meets_arguments; by apply evals_meet|]. intros values [Hv _].
    apply meets_result, in_range_list. eapply Forall_impl; [exact Hv|]. by intros w [? _].
  - step. eapply meets_bind with (P := fun m => in_range (Map m)); [|intros m Hm; by apply meets_result].
    apply meets_for_each; [by apply in_range_map|]. intros [k m] values Hin Hvalues.
    apply list_elem_of_In, in_map_iff in Hin as ([k' e] & [= -> <-] & Hin). step.
    rewrite Forall_forall in Hall. eapply meets_bind.
    { apply Hall; [|done..]. apply list_elem_of_In, in_map_iff. exists (k, e). by split. }
    intros v [Hv _]. step. apply meets_ret. by apply insert_in_range.
  - apply Forall_app in Hall as [Hb Hx]. apply Forall_inv in Hx.
    apply meets_first_branch; [|by apply Hx]. apply (branches_meet bs row group (fun c => do t <- lift (truth_of c); ret (bool_decide (t = Some true)))); try done.
    intros v. eapply meets_bind; [apply meets_truth|]. intros. by apply meets_ret.
  - apply Forall_cons in Hall as [Hx Hall]. apply Forall_app in Hall as [Hb Hy]. apply Forall_inv in Hy.
    eapply meets_bind; [by apply Hx|]. intros v _. step.
    apply meets_first_branch; [|by apply Hy]. apply (branches_meet bs row group (fun c => ret (bool_decide (equals v c = Some true)))); try done.
    intros w. by apply meets_ret.
  - destruct (row !! Z.to_nat slot) as [v|]; [|apply meets_expected].
    destruct v as [| | | | | | |[id|id]|]; try apply meets_expected; [apply meets_result; auto with range|].
    eapply meets_bind; [by apply (meets_lift _ (fun _ => True))|]. intros o _. apply meets_result. auto with range.
Qed.
End Safe.

(** [C22] Evaluation is safe: on well-formed expressions, rows, parameters and
    graph values it never panics (no assertion fails, no index is out of bounds,
    no average overflows its 128-bit total); every value it returns holds only
    64-bit integers and identities, nests at most 48 levels, and has no list
    longer than the collection budget; and memory admission is transparent, in
    that whatever is refused the outcome is the one with unlimited memory or a
    memory-limit error. *)
Theorem eval_safe `{TextLibrary} nan powf graph parameters max_collection_items e row group :
  0 <= max_collection_items ->
  (forall entity m, graph_properties graph entity = Ok m ->
    Forall (fun entry => forall v, entry.2 = Ok v -> in_range v) m) ->
  in_range (Map parameters) -> well_formed e -> row_ok row -> group_ok group ->
  exists outcome,
    eval nan powf graph parameters max_collection_items e row group [] = Some (outcome, []) /\
    (forall v, outcome = Ok v -> in_range v /\ height v <= 48 /\ longest v <= max_collection_items) /\
    (forall admissions, exists outcome' rest,
      eval nan powf graph parameters max_collection_items e row group admissions = Some (outcome', rest) /\
      (outcome' = outcome \/ exists e, outcome' = Err e /\ memory_error e)).
Proof.
  intros Hmax Hgraph Hparams Hwf Hrow Hgroup.
  destruct (meets_eval nan powf graph parameters max_collection_items Hmax Hgraph Hparams e Hwf row group Hrow Hgroup)
    as (r0 & E & Hgood & Hadm).
  exists r0. split_and!; [done| |done]. intros v Hv. destruct (Hgood v Hv) as [? [? ?]]. done.
Qed.
End QueryEvalSafe.
