(* ===== verification/QueryRelocate.v ===== *)
(** Slot relocation: [RowLayout::expression] of
    crates/planner/src/relational/layout/remap.rs, and what the evaluator reads.

    An expression depends on its row only at its own slots, so moving those slots
    to other cells of another row changes nothing. *)
From Stdlib Require Import FunctionalExtensionality.
From S2P Require Import Prelude Bytes BTree QueryValue QueryExpression QueryMonad QueryAggregate QueryEval.

Open Scope Z_scope.

Module QueryRelocate.
Export QueryEval.

(** The callback of [RowLayout::expression], given the cell of each slot. *)
Definition relocation (slot : Z -> Z) (e : Expression) : result QueryError (option Expression) :=
  Ok (match e with
      | ESlot s => Some (ESlot (slot s))
      | EHasLabel s label => Some (EHasLabel (slot s) label)
      | _ => None
      end).

Definition relocate (slot : Z -> Z) (e : Expression) : result QueryError Expression :=
  rewrite (relocation slot) e.

(** ** Lists of results *)

Section Lists.
Context {A B : Type} (f : A -> result QueryError B) (R : A -> B -> Prop).

Lemma map_result_ok l : Forall (fun x => exists y, f x = Ok y /\ R x y) l ->
  exists l', map_result f l = Ok l' /\ Forall2 R l l'.
Proof.
  induction 1 as [|x l (y & Hy & Hxy) _ (l' & Hl & HR)]; [by exists []|].
  exists (y :: l'). simpl. rewrite Hy. simpl. rewrite Hl. split; [done|by constructor].
Qed.

Lemma map_opt_ok o : (forall x, o = Some x -> exists y, f x = Ok y /\ R x y) ->
  exists o', map_opt f o = Ok o' /\ option_Forall2 R o o'.
Proof.
  destruct o as [x|]; intros H; [|by exists None; repeat constructor].
  destruct (H x eq_refl) as (y & Hy & Hxy). exists (Some y). simpl. rewrite Hy. split; [done|by constructor].
Qed.
End Lists.

Lemma map_forall2 {A A' B} (R : A -> A' -> Prop) (f : A -> B) (g : A' -> B) l l' :
  (forall x y, R x y -> g y = f x) -> Forall2 R l l' -> map g l' = map f l.
Proof. intros HR. induction 1; simpl; [done|]. f_equal; auto. Qed.

Lemma for_each_forall2 {A A' S} (R : A -> A' -> Prop) (body : A -> S -> M S) (body' : A' -> S -> M S) l l' s :
  (forall x x' s, R x x' -> body' x' s = body x s) -> Forall2 R l l' -> for_each l' s body' = for_each l s body.
Proof.
  intros HR Hl. revert s. induction Hl as [|x x' l l' Hx _ IH]; intros s; simpl; [done|].
  rewrite (HR x x' s Hx). unfold bind. apply functional_extensionality. intros adm.
  destruct (body x s adm) as [[[s'|e] adm']|]; [|done..]. by rewrite IH.
Qed.

(** ** Agreement of rows *)

Section Relocate.
Context `{TextLibrary} (nan : Z) (powf : Z -> Z -> Z).
Context (graph : GraphValues) (parameters : list (bytes * Value)) (max_collection_items : Z).
Context (slot : Z -> Z).

Notation eval := (eval nan powf graph parameters max_collection_items).

(** The row holds at the relocated cells what the original holds at the slots. *)
Definition rows_agree (S : gset Z) (row row' : Row) : Prop :=
  forall s, s ∈ S -> row' !! Z.to_nat (slot s) = row !! Z.to_nat s.
Definition groups_agree (S : gset Z) : option (list Row) -> option (list Row) -> Prop :=
  option_Forall2 (Forall2 (rows_agree S)).

Definition same_evaluation (e e' : Expression) : Prop := forall row row' group group',
  rows_agree (slots e) row row' -> groups_agree (slots e) group group' ->
  eval e' row' group' = eval e row group.

Lemma rows_agree_child e c row row' : c ∈ children e -> rows_agree (slots e) row row' -> rows_agree (slots c) row row'.
Proof. intros Hc H' s Hs. by apply H', (slots_child e c Hc). Qed.

Lemma groups_agree_child e c g g' : c ∈ children e -> groups_agree (slots e) g g' -> groups_agree (slots c) g g'.
Proof.
  intros Hc [rows rows' H'|]; constructor. eapply Forall2_impl; [exact H'|]. intros row row'. by apply rows_agree_child.
Qed.

(** What the induction knows of the parts of [e]. *)
Definition part (e c c' : Expression) : Prop := forall row row' group group',
  rows_agree (slots e) row row' -> groups_agree (slots e) group group' ->
  eval c' row' group' = eval c row group.

Lemma child_part e c c' : c ∈ children e -> same_evaluation c c' -> part e c c'.
Proof.
  intros Hc H' row row' g g' Hr Hg. apply H'; [by eapply rows_agree_child|by eapply groups_agree_child].
Qed.

Definition relocates (e c : Expression) : Prop :=
  exists c', rewrite (relocation slot) c = Ok c' /\ part e c c'.

Definition pair_part (e : Expression) (p p' : Expression * Expression) : Prop :=
  part e p.1 p'.1 /\ part e p.2 p'.2.

Lemma relocate_list e xs : Forall (relocates e) xs ->
  exists xs', map_result (rewrite (relocation slot)) xs = Ok xs' /\ Forall2 (part e) xs xs'.
Proof. apply map_result_ok. Qed.

Lemma relocate_pairs e bs : Forall (relocates e) (flat_map pair_list bs) ->
  exists bs', map_result (fun p => let? a := rewrite (relocation slot) p.1 in
                                   let? b := rewrite (relocation slot) p.2 in Ok (a, b)) bs = Ok bs' /\
    Forall2 (pair_part e) bs bs'.
Proof.
  rewrite Forall_flat_map. intros H'. apply map_result_ok. eapply Forall_impl; [exact H'|]. intros [a b] Hab.
  apply Forall_cons in Hab as [(a' & Ha & Pa) Hb]. apply Forall_inv in Hb as (b' & Hb & Pb). simpl in *.
  exists (a', b'). rewrite Ha. simpl. rewrite Hb. done.
Qed.

Lemma relocate_option e o : Forall (relocates e) (opt o) ->
  exists o', map_opt (rewrite (relocation slot)) o = Ok o' /\ option_Forall2 (part e) o o'.
Proof. intros H'. apply map_opt_ok. intros x ->. by apply Forall_inv in H'. Qed.

Lemma same_option e o o' row row' group group' : option_Forall2 (part e) o o' ->
  rows_agree (slots e) row row' -> groups_agree (slots e) group group' ->
  (fun e => eval e row' group') <$> o' = (fun e => eval e row group) <$> o.
Proof. intros [x x' Hx|] Hr Hg; simpl; [|done]. by rewrite (Hx row row' group group'). Qed.

(** The branches of a CASE, whose tests read the same values. *)
Lemma same_branches e bs bs' row row' group group' (test : Value -> M bool) : Forall2 (pair_part e) bs bs' ->
  rows_agree (slots e) row row' -> groups_agree (slots e) group group' ->
  map (fun b => (do c <- eval b.1 row' group'; test c, eval b.2 row' group')) bs' =
  map (fun b => (do c <- eval b.1 row group; test c, eval b.2 row group)) bs.
Proof.
  intros Hb Hr Hg. eapply map_forall2; [|exact Hb]. intros p p' [Ha Hb'].
  by rewrite (Ha row row' group group'), (Hb' row row' group group').
Qed.

Lemma slots_head e x : match e with ESlot s | EHasLabel s _ => s = x | _ => False end -> x ∈ slots e.
Proof. intros H'. rewrite slots_spec, nodes_children, Exists_cons. by left. Qed.

Lemma relocate_same e : exists e', relocate slot e = Ok e' /\ same_evaluation e e'.
Proof.
  unfold relocate. induction e as [e IH] using expression_ind'.
  assert (Forall (relocates e) (children e)) as Hall.
  { apply Forall_forall. intros c Hc. rewrite Forall_forall in IH. destruct (IH c Hc) as (c' & Hc' & H').
    exists c'. split; [done|]. by apply child_part. }
  clear IH.
  destruct e as [v|s|name|x key|x y|x start end_|op x|op x y|op xs|f xs|f arg distinct|xs|xs|bs x|x bs y|s label];
    cbn [children pushed] in Hall; cbn [rewrite relocation result_bind].
  - exists (ELiteral v). by split.
  - exists (ESlot (slot s)). split; [done|]. intros row row' g g' Hr _. cbn [QueryEval.eval].
    by rewrite (Hr s (slots_head (ESlot s) s eq_refl)).
  - exists (EParameter name). by split.
  - apply Forall_inv in Hall as (x' & -> & Px). eexists. split; [done|]. intros row row' g g' Hr Hg. cbn [QueryEval.eval].
    by rewrite (Px row row' g g').
  - apply Forall_cons in Hall as [(x' & -> & Px) Hall]. apply Forall_inv in Hall as (y' & -> & Py).
    eexists. split; [done|]. intros row row' g g' Hr Hg. cbn [QueryEval.eval].
    by rewrite (Px row row' g g'), (Py row row' g g').
  - apply Forall_cons in Hall as [(x' & -> & Px) Hall]. apply Forall_app in Hall as [Hs He].
    apply relocate_option in Hs as (start' & -> & Ps), He as (end' & -> & Pe).
    eexists. split; [done|]. intros row row' g g' Hr Hg. cbn [QueryEval.eval].
    by rewrite (Px row row' g g'), (same_option (ESlice x start end_) start start' row row' g g'), (same_option (ESlice x start end_) end_ end' row row' g g').
  - apply Forall_inv in Hall as (x' & -> & Px). eexists. split; [done|]. intros row row' g g' Hr Hg. cbn [QueryEval.eval].
    by rewrite (Px row row' g g').
  - apply Forall_cons in Hall as [(x' & -> & Px) Hall]. apply Forall_inv in Hall as (y' & -> & Py).
    eexists. split; [done|]. intros row row' g g' Hr Hg. cbn [QueryEval.eval].
    by rewrite (Px row row' g g'), (Py row row' g g').
  - apply relocate_list in Hall as (xs' & -> & Pxs). eexists. split; [done|]. intros row row' g g' Hr Hg.
    cbn [QueryEval.eval]. erewrite map_forall2; [done| |exact Pxs]. intros c c' Hc. by apply Hc.
  - apply relocate_list in Hall as (xs' & -> & Pxs). eexists. split; [done|]. intros row row' g g' Hr Hg.
    assert (map (fun e => eval e row' g') xs' = map (fun e => eval e row g) xs) as E.
    { eapply map_forall2; [|exact Pxs]. intros c c' Hc. by apply Hc. }
    destruct f; cbn [QueryEval.eval]; by rewrite E.
  - apply relocate_option in Hall as (arg' & -> & Pa). eexists. split; [done|]. intros row row' g g' Hr Hg.
    cbn [QueryEval.eval]. unfold aggregate. destruct Hg as [rows rows' Hrows|]; [|done].
    f_equal. f_equal. eapply for_each_forall2; [|exact Hrows]. intros r r' acc Hrr.
    destruct Pa as [a a' Ha|]; simpl; [|done]. rewrite (Ha r r' None None Hrr); [done|constructor].
  - apply relocate_list in Hall as (xs' & -> & Pxs). eexists. split; [done|]. intros row row' g g' Hr Hg.
    cbn [QueryEval.eval]. erewrite map_forall2; [| |exact Pxs]; [|intros c c' Hc; by apply Hc].
    unfold len. by rewrite (Forall2_length _ _ _ Pxs).
  - assert (exists xs', map_result (fun e => let? v := rewrite (relocation slot) e.2 in Ok (e.1, v)) xs = Ok xs' /\
      Forall2 (fun a a' => a'.1 = a.1 /\ part (EMap xs) a.2 a'.2) xs xs') as (xs' & -> & Pxs).
    { apply map_result_ok. rewrite Forall_map in Hall. eapply Forall_impl; [exact Hall|]. intros [k c] (c' & Hc & Pc).
      exists (k, c'). simpl in *. by rewrite Hc. }
    eexists. split; [done|]. intros row row' g g' Hr Hg. cbn [QueryEval.eval].
    erewrite map_forall2; [done| |exact Pxs]. intros [k c] [k' c'] [Hk Hc]. simpl in *. subst. by rewrite (Hc row row' g g').
  - apply Forall_app in Hall as [Hb Hx]. apply relocate_pairs in Hb as (bs' & -> & Pb).
    apply Forall_inv in Hx as (x' & -> & Px). eexists. split; [done|]. intros row row' g g' Hr Hg. cbn [QueryEval.eval].
    rewrite (Px row row' g g') by done. f_equal.
    by apply (same_branches (ECase bs x) bs bs' row row' g g' (fun c => do t <- lift (truth_of c); ret (bool_decide (t = Some true)))).
  - apply Forall_cons in Hall as [(x' & -> & Px) Hall]. apply Forall_app in Hall as [Hb Hy].
    apply relocate_pairs in Hb as (bs' & -> & Pb).
    apply Forall_inv in Hy as (y' & -> & Py). eexists. split; [done|]. intros row row' g g' Hr Hg. cbn [QueryEval.eval].
    rewrite (Px row row' g g'), (Py row row' g g') by done. f_equal.
    apply functional_extensionality. intros v. f_equal. apply functional_extensionality. intros _. f_equal.
    by apply (same_branches (ESimpleCase x bs y) bs bs' row row' g g' (fun c => ret (bool_decide (equals v c = Some true)))).
  - exists (EHasLabel (slot s) label). split; [done|]. intros row row' g g' Hr _. cbn [QueryEval.eval].
    by rewrite (Hr s (slots_head (EHasLabel s label) s eq_refl)).
Qed.
End Relocate.

(** Relocating an expression's slots never fails and preserves its meaning:
    in any row that holds at the new cells what the original row holds at the
    expression's slots (and likewise in every row of the group), and under every
    sequence of memory decisions, the relocated expression gives the same value,
    error or panic. With cells equal to slots, this says that evaluation reads
    its row only at the slots the expression names. *)
Theorem relocate_exact `{TextLibrary} nan powf graph parameters max_collection_items slot e :
  exists e', relocate slot e = Ok e' /\
    forall row row' group group' admissions,
      rows_agree slot (slots e) row row' -> groups_agree slot (slots e) group group' ->
      eval nan powf graph parameters max_collection_items e' row' group' admissions =
      eval nan powf graph parameters max_collection_items e row group admissions.
Proof.
  destruct (relocate_same nan powf graph parameters max_collection_items slot e) as (e' & He & Hsame).
  exists e'. split; [done|]. intros row row' group group' admissions Hr Hg. by rewrite (Hsame row row' group group').
Qed.

(** Text tables for concrete evaluations. *)
#[global] Instance sample_text : TextLibrary := {|
  display_f64 _ := lit "1.5";
  parse_f64 _ := None;
  to_lowercase s := s;
  to_uppercase s := s;
|}.

Definition sample_graph : GraphValues :=
  {| graph_properties _ := Ok [(lit "name", Ok (Str (lit "n")))]; graph_label _ := Ok (Some (lit "Person")) |}.

(** [slot0 + slot2.name], with the slots swapped between cells 0 and 1. *)
Definition sample_sum : Expression := EBinary Add (ESlot 0) (EProperty (ESlot 2) (lit "name")).
Definition sample_slot (s : Z) : Z := if s =? 0 then 1 else 0.

Lemma relocate_exact_witness :
  exists e', relocate sample_slot sample_sum = Ok e' /\
    eval 0 (fun x _ => x) sample_graph [] 10 e' [EntityValue (Node 7); Str (lit "x")] None [] =
    Some (Ok (Str (lit "xn")), []).
Proof.
  destruct (relocate_exact 0 (fun x _ => x) sample_graph [] 10 sample_slot sample_sum) as (e' & He & Heval).
  exists e'. split; [exact He|].
  rewrite (Heval [Str (lit "x"); Null; EntityValue (Node 7)] _ None None []); [vm_compute; reflexivity| |constructor].
  intros s Hs. assert (s = 0 \/ s = 2) as [-> | ->]; [|reflexivity..].
  apply slots_spec in Hs. cbn [nodes sample_sum app] in Hs. rewrite !Exists_cons, Exists_nil in Hs. naive_solver.
Defined.

End QueryRelocate.
