(* ===== verification/QueryEvalLaws.v ===== *)
(** Laws of the evaluator that its comments promise: a flat chain of one
    connective means the left-associated binary chain, and UNWIND streams the
    items of the list that [range] would build. *)
From S2P Require Import Prelude Bytes BTree QueryValue QueryShape QueryRange QueryOperators QueryExpression QueryMonad QueryAggregate QueryEval QueryEvalSafe QueryRelocate.

Open Scope Z_scope.

Module QueryEvalLaws.
Export QueryEvalSafe QueryRelocate.

(** A null or a Boolean passes every check on results. *)
Lemma checked_truth max t : 0 <= max -> checked max (truth t) [] = Some (Ok (truth t), []).
Proof.
  intros Hmax. unfold checked, within_collections, validate_collections.
  rewrite (shape_accepts (truth t) 0 max (umax 64)); [done|done|by destruct t|by destruct t; simpl; lia|by destruct t].
Qed.

(** ** Connective chains *)

Definition is_truth (v : Value) : bool :=
  match v with
  | Null | Boolean _ => true
  | _ => false
  end.

Lemma is_truth_eq v : is_truth v = true -> exists t, v = truth t /\ truth_of v = Ok t.
Proof. destruct v as [|b| | | | | | |]; try done; intros _; [by exists None|by exists (Some b)]. Qed.

(** The result after one operand. *)
Definition connect (op : Connective) (v : Value) (operand : M Value) : M Value := connective_loop op v [operand].

Lemma decided_truth op t : exists b, forall adm, decided op (truth t) adm = Some (Ok b, adm).
Proof. destruct op, t as [[]|]; eexists; intros; reflexivity. Qed.

(** Once decided, a result stays decided; it is null or Boolean from the second
    operand on. *)
Lemma connect_step op v operand operands r : runs operand r ->
  match connect op v operand [] with
  | Some (Ok w, adm) =>
      adm = [] /\ is_truth w = true /\ connective_loop op v (operand :: operands) [] = connective_loop op w operands []
  | o => connective_loop op v (operand :: operands) [] = o
  end.
Proof.
  intros Hr. unfold connect. cbn [connective_loop].
  assert (exists d, runs (decided op v) d) as [d Hd].
  { destruct op; unfold runs, decided, bind, lift; simpl; [..|by eexists]; destruct (truth_of v); by eexists. }
  rewrite !(runs_bind _ _ _ Hd). destruct d as [stop|e]; [|done].
  destruct stop.
  - (* the result is decided, and so a Boolean *)
    unfold ret at 1. assert (is_truth v = true) as Hv.
    { unfold runs, decided in Hd. destruct op; [| |done]; destruct v; try done. }
    split_and!; [done|done|]. destruct operands as [|m operands]; [done|]. cbn [connective_loop].
    by rewrite (runs_bind _ _ _ Hd).
  - rewrite !runs_remaining, !(runs_bind _ _ _ Hr). destruct r as [w|e]; [|done].
    rewrite !runs_remaining, !runs_lift. destruct (truth_of v) as [l|e]; [|done].
    rewrite !runs_lift. destruct (truth_of w) as [r|e]; [|done]. unfold ret.
    split_and!; [done|by destruct (connective_result op l r)|done].
Qed.

Section Chain.
Context `{TextLibrary} (nan : Z) (powf : Z -> Z -> Z).
Context (graph : GraphValues) (parameters : list (bytes * Value)) (max_collection_items : Z).
Context (Hmax : 0 <= max_collection_items).
Context (Hgraph : forall entity m, graph_properties graph entity = Ok m ->
  Forall (fun entry => forall v, entry.2 = Ok v -> in_range v) m).
Context (Hparameters : in_range (Map parameters)).
Context (row : Row) (group : option (list Row)) (Hrow : row_ok row) (Hgroup : group_ok group).

Notation eval e := (eval nan powf graph parameters max_collection_items e row group).

Lemma eval_runs e : well_formed e -> exists r, runs (eval e) r.
Proof.
  intros He. destruct (meets_eval nan powf graph parameters max_collection_items Hmax Hgraph Hparameters e He row group Hrow Hgroup)
    as (r & E & _). by exists r.
Qed.

(** The left-associated chain. *)
Definition chain (op : Connective) (first : Expression) (rest : list Expression) : Expression :=
  fold_left (fun left operand => EConnective op [left; operand]) rest first.

Lemma chain_snoc op first rest e : chain op first (rest ++ [e]) = EConnective op [chain op first rest; e].
Proof. unfold chain. by rewrite fold_left_app. Qed.

Lemma loop_app op ms ms' v : Forall (fun m => exists r, runs m r) ms -> ms <> [] ->
  connective_loop op v (ms ++ ms') [] =
  match connective_loop op v ms [] with
  | Some (Ok w, adm) => connective_loop op w ms' []
  | o => o
  end /\ forall w adm, connective_loop op v ms [] = Some (Ok w, adm) -> adm = [] /\ is_truth w = true.
Proof.
  intros Hall. revert v. induction Hall as [|m ms [r Hr] Hall IH]; intros v Hne; [done|]. cbn [app].
  pose proof (connect_step op v m (ms ++ ms') r Hr) as H1. pose proof (connect_step op v m ms r Hr) as H2.
  destruct (connect op v m []) as [[[w|e] adm]|].
  - destruct H1 as (_ & Hw & ->), H2 as (-> & _ & ->). destruct ms as [|m' ms].
    + split; [done|]. by intros w' adm' [= <- <-].
    + by apply IH.
  - rewrite H1, H2. split; [done|discriminate].
  - rewrite H1, H2. split; [done|discriminate].
Qed.

Lemma eval_connective op xs : eval (EConnective op xs) =
  do v <- connective op (map (fun e => eval e) xs); checked max_collection_items v.
Proof. reflexivity. Qed.

(** Evaluating the chain is evaluating the flat connective. *)
Lemma chain_flat op first rest : well_formed first -> Forall well_formed rest -> rest <> [] ->
  eval (chain op first rest) [] = eval (EConnective op (first :: rest)) [] /\
  forall w adm, eval (EConnective op (first :: rest)) [] = Some (Ok w, adm) -> adm = [] /\ is_truth w = true.
Proof.
  intros Hfirst Hrest Hne. destruct (eval_runs first Hfirst) as [r0 Hr0].
  assert (Forall (fun m => exists r, runs m r) (map (fun e => eval e) rest)) as Hruns.
  { apply Forall_map. eapply Forall_impl; [exact Hrest|]. intros e. apply eval_runs. }
  assert (forall xs, eval (EConnective op (first :: xs)) [] =
    match r0 with
    | Ok v => (do w <- connective_loop op v (map (fun e => eval e) xs); checked max_collection_items w) []
    | Err e => Some (Err e, [])
    end) as Hflat.
  { intros xs. rewrite eval_connective. cbn [connective map]. rewrite bind_assoc, (runs_bind _ _ _ Hr0). done. }
  assert (forall v ms w adm, Forall (fun m => exists r, runs m r) ms -> ms <> [] ->
    (do w <- connective_loop op v ms; checked max_collection_items w) [] = Some (Ok w, adm) ->
    connective_loop op v ms [] = Some (Ok w, []) /\ adm = [] /\ is_truth w = true) as Hloop.
  { intros v ms w adm Hms Hne'. destruct (loop_app op ms [] v Hms Hne') as [_ Ht]. unfold bind.
    destruct (connective_loop op v ms []) as [[[w'|e] adm']|]; [|done..]. destruct (Ht w' adm' eq_refl) as [-> Hw].
    destruct (is_truth_eq w' Hw) as (t & -> & _). rewrite checked_truth by done. by intros [= <- <-]. }
  split.
  - clear -Hmax Hfirst Hrest Hruns Hne Hr0 Hflat Hloop Hgraph Hparameters Hrow Hgroup.
    induction rest as [|e rest IH] using rev_ind; [done|]. rewrite chain_snoc.
    apply Forall_app in Hrest as [Hrest He]. apply Forall_inv in He. rewrite map_app in Hruns.
    apply Forall_app in Hruns as [Hruns Hrunse].
    destruct rest as [|e0 rest0] eqn:Er; [done|]. rewrite <- Er in *.
    assert (rest <> []) as Hn by (by rewrite Er). specialize (IH Hrest Hn Hruns). clear Er.
    rewrite Hflat, map_app. rewrite Hflat in IH. destruct r0 as [v|err].
    2: { rewrite eval_connective. cbn [connective map]. rewrite bind_assoc. unfold bind at 1. by rewrite IH. }
    rewrite eval_connective. cbn [connective map]. rewrite bind_assoc.
    destruct (loop_app op (map (fun e => eval e) rest) (map (fun e => eval e) [e]) v Hruns) as [Happ Ht];
      [intros E; by apply map_eq_nil in E|].
    cbn [map] in Happ. unfold bind in *. rewrite IH, Happ.
    destruct (connective_loop op v (map (fun e => eval e) rest) []) as [[[w|err] adm]|]; [|done..].
    destruct (Ht w adm eq_refl) as [-> Hw]. destruct (is_truth_eq w Hw) as (t & -> & _).
    rewrite checked_truth by done. done.
  - intros w adm. rewrite Hflat. destruct r0 as [v|]; [|done]. intros E.
    apply Hloop in E as (_ & ? & ?); [done|done|]. intros E'. by apply map_eq_nil in E'.
Qed.

(** ** UNWIND *)

(** Evaluating arguments for a function and for UNWIND gives the same values. *)
Lemma arguments_unwind xs : Forall well_formed xs ->
  exists r, runs (for_each xs [] (fun e values => do value <- eval e; do _ <- remaining; ret (values ++ [value]))) r /\
    runs (arguments (map (fun e => eval e) xs)) r /\ forall vs, r = Ok vs -> Forall in_range vs.
Proof.
  intros Hxs. unfold runs at 2, arguments. rewrite runs_remaining.
  assert (forall acc, Forall in_range acc -> exists r,
    runs (for_each xs acc (fun e values => do value <- eval e; do _ <- remaining; ret (values ++ [value]))) r /\
    runs (for_each (map (fun e => eval e) xs) acc (fun evaluation values =>
      do _ <- remaining; do value <- evaluation; do _ <- remaining; ret (values ++ [value]))) r /\
    forall vs, r = Ok vs -> Forall in_range vs) as Hgen; [|by apply Hgen].
  induction Hxs as [|e xs He Hxs IH]; intros acc Hacc; [exists (Ok acc); split_and!; [done..|by intros ? [= <-]]|].
  destruct (meets_eval nan powf graph parameters max_collection_items Hmax Hgraph Hparameters e He row group Hrow Hgroup)
    as (r & Hr & Hgood & _). unfold runs. cbn [for_each map].
  destruct r as [v|err].
  2: { exists (Err err). by rewrite !bind_assoc, runs_remaining, !bind_assoc, !(runs_bind _ _ _ Hr). }
  destruct (IH (acc ++ [v])) as (r & Hr1 & Hr2 & Hr3).
  2: { exists r. rewrite !bind_assoc, runs_remaining, !bind_assoc, !(runs_bind _ _ _ Hr), !bind_assoc, !runs_remaining. done. }
  clear IH. apply Forall_app_2; [done|]. constructor; [|done]. by destruct (Hgood v eq_refl).
Qed.

(** The items a source yields within [fuel] calls, and whether it ended. *)
Fixpoint drain (fuel : nat) (source : UnwindSource) : list Value * bool :=
  match fuel with
  | O => ([], false)
  | S fuel =>
      match unwind_next source with
      | (None, _) => ([], true)
      | (Some v, source) => let '(vs, ended) := drain fuel source in (v :: vs, ended)
      end
  end.

Lemma drain_range fuel range : drain fuel (UnwindRange range) = iterate fuel range.
Proof.
  revert range. induction fuel as [|fuel IH]; intros range; [done|]. cbn [drain iterate unwind_next].
  destruct (iter_next range) as [[v|] range']; [|done]. by rewrite IH.
Qed.

Lemma checked_same v w adm : checked max_collection_items v [] = Some (Ok w, adm) -> w = v.
Proof.
  unfold checked, within_collections. rewrite runs_lift. destruct (validate_collections _ _ _); [|done]. rewrite runs_remaining.
  by intros [= <- <-].
Qed.

Lemma unwind_range args v : Forall well_formed args ->
  eval (EFunction FRange args) [] = Some (Ok v, []) ->
  exists source, unwind nan powf graph parameters max_collection_items (EFunction FRange args) row group [] = Some (Ok source, []) /\
    forall fuel, (length (match v with List values => values | _ => [] end) < fuel)%nat ->
      drain fuel source = (match v with List values => values | _ => [] end, true).
Proof.
  intros Hargs. destruct (arguments_unwind args Hargs) as (r & Hu & Ha & Hok). cbn [QueryEval.eval unwind].
  rewrite runs_remaining, (runs_bind _ _ _ Hu), (runs_bind _ _ _ Ha).
  destruct r as [values|e]; [|done]. specialize (Hok values eq_refl). rewrite runs_remaining.
  destruct values as [|first values]; [done|]. cbn [function]. rewrite bool_decide_false by done.
  change (is_null <$> head (first :: values)) with (Some (is_null first)). destruct (is_null first) eqn:Hnull.
  - unfold bind at 1, ret at 1. intros E%checked_same. subst v. rewrite bool_decide_true by done.
    eexists. split; [done|]. intros [|fuel]; [simpl; lia|done].
  - rewrite bool_decide_false by done. rewrite runs_lift.
    destruct (range_new (first :: values)) as [range|e] eqn:Er; [|done].
    apply range_new_ok in Er as (start & end_ & step & -> & Hs & He & Hst & Hz); [|done].
    intros E. exists (UnwindRange (start_at start end_ step)). split; [done|]. intros fuel. rewrite drain_range.
    cbn [start_at range_next range_end range_step or_panic] in E. unfold bind in E at 2. unfold ret in E at 1.
    destruct (range_count_step start end_ step Hz) as (Hpos & _).
    pose proof (iterate_exact (S (Z.to_nat (range_count start end_ step))) start end_ step Hs He Hst Hz ltac:(lia)) as Hit.
    destruct (max_collection_items <? range_count start end_ step); [done|].
    rewrite (fill_iterate _ (range_count start end_ step) _ [] _ Hit) in E.
    2: { unfold progression, len. rewrite length_map, length_seq. simpl length. lia. }
    assert (v = List (progression start step (Z.to_nat (range_count start end_ step)))) as ->.
    { by apply checked_same in E. }
    intros Hfuel. apply iterate_exact; try done. unfold progression in Hfuel. rewrite length_map, length_seq in Hfuel. lia.
Qed.
End Chain.

(** A flat chain of AND, OR or XOR means the left-associated chain of binary
    connectives over the same operands: with enough memory both give the same
    value or the same error, from the same operands, so the flat form adds no
    nesting and changes nothing. A chain of at least two operands gives null or
    a Boolean. *)
Theorem connective_chain `{TextLibrary} nan powf graph parameters max_collection_items op first rest row group :
  0 <= max_collection_items ->
  (forall entity m, graph_properties graph entity = Ok m ->
    Forall (fun entry => forall v, entry.2 = Ok v -> in_range v) m) ->
  in_range (Map parameters) -> row_ok row -> group_ok group ->
  well_formed first -> Forall well_formed rest -> rest <> [] ->
  let run e := eval nan powf graph parameters max_collection_items e row group [] in
  run (chain op first rest) = run (EConnective op (first :: rest)) /\
  forall w adm, run (EConnective op (first :: rest)) = Some (Ok w, adm) -> exists t, w = truth t.
Proof.
  intros Hmax Hgraph Hparams Hrow Hgroup Hfirst Hrest Hne.
  destruct (chain_flat nan powf graph parameters max_collection_items Hmax Hgraph Hparams row group Hrow Hgroup
    op first rest Hfirst Hrest Hne) as [Heq Ht].
  split; [exact Heq|]. intros w adm E. destruct (Ht w adm E) as [_ Hw].
  destruct (is_truth_eq w Hw) as (t & -> & _). by exists t.
Qed.

(** UNWIND over [range] streams exactly the list the function would build:
    whenever evaluating the function succeeds, the source UNWIND makes without
    allocating that list yields its items in order and then ends (nothing for a
    null start). *)
Theorem unwind_streams `{TextLibrary} nan powf graph parameters max_collection_items args v row group :
  0 <= max_collection_items ->
  (forall entity m, graph_properties graph entity = Ok m ->
    Forall (fun entry => forall v, entry.2 = Ok v -> in_range v) m) ->
  in_range (Map parameters) -> row_ok row -> group_ok group -> Forall well_formed args ->
  eval nan powf graph parameters max_collection_items (EFunction FRange args) row group [] = Some (Ok v, []) ->
  exists source,
    unwind nan powf graph parameters max_collection_items (EFunction FRange args) row group [] = Some (Ok source, []) /\
    forall fuel, (length (match v with List values => values | _ => [] end) < fuel)%nat ->
      drain fuel source = (match v with List values => values | _ => [] end, true).
Proof.
  intros Hmax Hgraph Hparams Hrow Hgroup Hargs Hv.
  apply (unwind_range nan powf graph parameters max_collection_items Hmax Hgraph Hparams row group Hrow Hgroup args v Hargs Hv).
Qed.

(** ** A concrete evaluation *)

Lemma sample_graph_ok entity m : graph_properties sample_graph entity = Ok m ->
  Forall (fun entry => forall v, entry.2 = Ok v -> in_range v) m.
Proof. intros [= <-]. constructor; [|constructor]. intros v [= <-]. by apply in_range_plain. Qed.

(** [slot0 + slot2.name] under every sequence of refusals. *)
Lemma eval_safe_witness :
  let run := eval 0 (fun x _ => x) sample_graph [] 10 sample_sum [Str (lit "x"); Null; EntityValue (Node 7)] None in
  run [] = Some (Ok (Str (lit "xn")), []) /\
  forall admissions, exists outcome rest, run admissions = Some (outcome, rest) /\
    (outcome = Ok (Str (lit "xn")) \/ exists e, outcome = Err e /\ memory_error e).
Proof.
  intros run. assert (run [] = Some (Ok (Str (lit "xn")), [])) as E by (vm_compute; reflexivity).
  split; [exact E|].
  pose proof (eval_safe 0 (fun x _ => x) sample_graph [] 10 sample_sum [Str (lit "x"); Null; EntityValue (Node 7)] None
    ltac:(lia) sample_graph_ok) as H.
  destruct H as (outcome & E' & _ & Hadm).
  - constructor.
  - repeat constructor.
  - repeat (constructor; [repeat constructor; vm_compute; intuition discriminate|]). constructor.
  - done.
  - assert (outcome = Ok (Str (lit "xn"))) as <- by (unfold run in E; rewrite E' in E; by injection E).
    exact Hadm.
Defined.

(** [null AND $0 AND false]. *)
Lemma connective_chain_witness :
  let run e := eval 0 (fun x _ => x) sample_graph [] 10 e [Boolean true] None [] in
  run (chain And (ELiteral Null) [ESlot 0; ELiteral (Boolean false)]) = Some (Ok (Boolean false), []).
Proof.
  intros run. transitivity (run (EConnective And [ELiteral Null; ESlot 0; ELiteral (Boolean false)])); [|vm_compute; reflexivity].
  refine (proj1 (connective_chain 0 (fun x _ => x) sample_graph [] 10 And (ELiteral Null)
    [ESlot 0; ELiteral (Boolean false)] [Boolean true] None _ sample_graph_ok _ _ _ _ _ _)).
  - lia.
  - constructor.
  - repeat constructor.
  - done.
  - repeat constructor.
  - repeat constructor.
  - done.
Defined.

(** [range(5, 1, -2)]. *)
Lemma unwind_streams_witness :
  exists source,
    unwind 0 (fun x _ => x) sample_graph [] 10 (EFunction FRange (map ELiteral [Integer 5; Integer 1; Integer (-2)])) [] None [] =
      Some (Ok source, []) /\
    drain 4 source = ([Integer 5; Integer 3; Integer 1], true).
Proof.
  pose proof (unwind_streams 0 (fun x _ => x) sample_graph [] 10 (map ELiteral [Integer 5; Integer 1; Integer (-2)])
    (List [Integer 5; Integer 3; Integer 1]) [] None ltac:(lia) sample_graph_ok) as H.
  destruct H as (source & E & Hdrain).
  - constructor.
  - constructor.
  - done.
  - repeat (constructor; [repeat constructor; vm_compute; intuition discriminate|]). constructor.
  - vm_compute. reflexivity.
  - exists source. split; [exact E|]. apply Hdrain. simpl. lia.
Defined.

End QueryEvalLaws.
