(* ===== verification/QuerySchema.v ===== *)
(** Row schemas: crates/planner/src/relational/contracts/schema.rs, with the
    binding catalog of query.rs and the value domains of types.rs.

    A scope is a set of binding slots, stored as nothing, one slot, a sorted array
    or one bit per catalog entry; a schema adds what optional matches changed of
    the catalog's nullability. The cached column map of a snapshot is what
    [schema_columns] computes. [None] is a panic. *)
From S2P Require Import Prelude Bytes BTree.

Open Scope Z_scope.

Module QuerySchema.

Inductive ValueType := TAny | TNull | TBoolean | TInteger | TFloat | TString | TList | TMap | TNode | TRelationship | TPath.

Inductive BindingType := BNode | BRelationship | BPath | BScalar.

Record Binding := { name : bytes; kind : BindingType; nullable : bool; value_type : ValueType }.

Record ColumnType := { column_type : ValueType; column_nullable : bool }.

#[global] Instance ValueType_eq_dec : EqDecision ValueType.
Proof. solve_decision. Defined.
#[global] Instance BindingType_eq_dec : EqDecision BindingType.
Proof. solve_decision. Defined.
#[global] Instance ColumnType_eq_dec : EqDecision ColumnType.
Proof. solve_decision. Defined.

(** ** Sets of slots *)

Definition WORD_BITS : Z := 64.

Inductive SlotSet :=
| Empty
| Single (slot : Z)
| Sparse (slots : list Z)
| Dense (words : list Z) (len : Z).

(** The order assertion on the next slot. *)
Definition in_order (previous : option Z) (slot : Z) : bool :=
  match previous with
  | None => true
  | Some previous => previous <? slot
  end.

Fixpoint collect_sparse (previous : option Z) (slots : list Z) : option (list Z) :=
  match slots with
  | [] => Some []
  | slot :: slots =>
      if in_order previous slot then rest ← collect_sparse (Some slot) slots; Some (slot :: rest) else None
  end.

Fixpoint set_bits (previous : option Z) (bits : list Z) (slots : list Z) : option (list Z) :=
  match slots with
  | [] => Some bits
  | slot :: slots =>
      if in_order previous slot then
        let i := Z.to_nat (slot / WORD_BITS) in
        word ← bits !! i;
        set_bits (Some slot) (<[i := Z.lor word (Z.shiftl 1 (slot mod WORD_BITS))]> bits) slots
      else None
  end.

Definition slotset_new (slots : list Z) : option SlotSet :=
  match last slots with
  | None => Some Empty
  | Some last =>
      if len slots =? 1 then Some (Single last)
      else
        let words := last / WORD_BITS + 1 in
        if len slots * 4 <? words * 8 then slots ← collect_sparse None slots; Some (Sparse slots)
        else bits ← set_bits None (replicate (Z.to_nat words) 0) slots; Some (Dense bits (len slots))
  end.

Definition slotset_len (self : SlotSet) : Z :=
  match self with
  | Empty => 0
  | Single _ => 1
  | Sparse slots => len slots
  | Dense _ len => len
  end.

(** [binary_search] of a sorted slice finds exactly its members. *)
Definition slotset_contains (self : SlotSet) (slot : Z) : bool :=
  match self with
  | Empty => false
  | Single member => member =? slot
  | Sparse slots => bool_decide (slot ∈ slots)
  | Dense words _ =>
      match words !! Z.to_nat (slot / WORD_BITS) with
      | Some word => negb (Z.land word (Z.shiftl 1 (slot mod WORD_BITS)) =? 0)
      | None => false
      end
  end.

(** [u64::trailing_zeros] of a nonzero word. *)
Fixpoint trailing_zeros_pos (p : positive) : Z :=
  match p with
  | xO p => 1 + trailing_zeros_pos p
  | _ => 0
  end.
Definition trailing_zeros (z : Z) : Z :=
  match z with
  | Zpos p => trailing_zeros_pos p
  | _ => 64
  end.

Inductive Slots :=
| ISingle (slot : option Z)
| ISparse (slots : list Z)
| IDense (words : list Z) (word pending remaining : Z).

Definition slotset_iter (self : SlotSet) : Slots :=
  match self with
  | Empty => ISingle None
  | Single slot => ISingle (Some slot)
  | Sparse slots => ISparse slots
  | Dense words len => IDense words 0 0 len
  end.

(** The loop of [Slots::next] over the words; [fuel] bounds the words left. *)
Fixpoint dense_next (fuel : nat) (words : list Z) (word pending remaining : Z) : option (option Z * Slots) :=
  if negb (pending =? 0) then
    let bit := trailing_zeros pending in
    remaining ← checked_sub remaining 1;
    Some (Some (wrap 32 ((word - 1) * WORD_BITS + bit)), IDense words word (Z.land pending (pending - 1)) remaining)
  else
    match words !! Z.to_nat word with
    | None => Some (None, IDense words word pending remaining)
    | Some bits =>
        match fuel with
        | O => None
        | S fuel => dense_next fuel words (word + 1) bits remaining
        end
    end.

Definition slots_next (self : Slots) : option (option Z * Slots) :=
  match self with
  | ISingle slot => Some (slot, ISingle None)
  | ISparse [] => Some (None, ISparse [])
  | ISparse (slot :: slots) => Some (Some slot, ISparse slots)
  | IDense words word pending remaining => dense_next (length words) words word pending remaining
  end.

(** [size_hint], whose two bounds are equal. *)
Definition slots_remaining (self : Slots) : Z :=
  match self with
  | ISingle slot => if slot then 1 else 0
  | ISparse slots => len slots
  | IDense _ _ _ remaining => remaining
  end.

(** Everything an iterator yields; its exact length bounds the calls. *)
Fixpoint drain (fuel : nat) (self : Slots) : option (list Z) :=
  match fuel with
  | O => None
  | S fuel =>
      '(slot, self) ← slots_next self;
      match slot with
      | None => Some []
      | Some slot => rest ← drain fuel self; Some (slot :: rest)
      end
  end.
Definition slotset_slots (self : SlotSet) : option (list Z) :=
  drain (S (Z.to_nat (slotset_len self))) (slotset_iter self).

(** ** Schemas *)

Record RowSchema := { catalog : list ColumnType; members : SlotSet; overrides : SlotSet }.

Definition schema_empty (bindings : list Binding) : RowSchema :=
  {| catalog := map (fun b => {| column_type := value_type b; column_nullable := nullable b |}) bindings;
     members := Empty; overrides := Empty |}.

Definition schema_len (self : RowSchema) : Z := slotset_len (members self).
Definition slot_iter (self : RowSchema) : option (list Z) := slotset_slots (members self).

(** The nullability a scope adds to the catalog's, for each of its slots. *)
Fixpoint nullable_slots (self : RowSchema) (output : list Z) (optional : bool) : option (list Z) :=
  match output with
  | [] => Some []
  | slot :: output =>
      column ← catalog self !! Z.to_nat slot;
      rest ← nullable_slots self output optional;
      Some (if negb (column_nullable column) &&
               (if slotset_contains (members self) slot then slotset_contains (overrides self) slot else optional)
            then slot :: rest else rest)
  end.

Definition schema_derive (self : RowSchema) (output : list Z) (optional : bool) : option RowSchema :=
  visible ← slot_iter self;
  if (len output =? schema_len self) && bool_decide (output = visible) then Some self
  else if match last output with Some slot => slot <? len (catalog self) | None => true end then
    members ← slotset_new output;
    slots ← nullable_slots self output optional;
    overrides ← slotset_new slots;
    Some {| catalog := catalog self; members := members; overrides := overrides |}
  else None.

Definition schema_get (self : RowSchema) (slot : Z) : option (option ColumnType) :=
  if slotset_contains (members self) slot then
    column ← catalog self !! Z.to_nat slot;
    Some (Some {| column_type := column_type column;
                  column_nullable := column_nullable column || slotset_contains (overrides self) slot |})
  else Some None.

(** [RowSchema::iter] and the map it collects to. *)
Fixpoint columns_of (self : RowSchema) (slots : list Z) : option (list (Z * ColumnType)) :=
  match slots with
  | [] => Some []
  | slot :: slots =>
      column ← schema_get self slot;
      column ← column;
      rest ← columns_of self slots;
      Some ((slot, column) :: rest)
  end.
Definition schema_columns (self : RowSchema) : option (list (Z * ColumnType)) :=
  slots ← slot_iter self; columns_of self slots.

(** [PartialEq] without the pointer shortcut, which only skips work. *)
Definition schema_eq (self other : RowSchema) : option bool :=
  if schema_len self =? schema_len other then
    a ← schema_columns self; b ← schema_columns other; Some (bool_decide (a = b))
  else Some false.

(** ** Bits of a word *)

Lemma trailing_zeros_nonneg p : 0 <= trailing_zeros_pos p.
Proof. induction p; simpl; lia. Qed.

(** The lowest set bit, which [w & (w - 1)] clears. *)
Lemma lowest_bit p :
  Z.testbit (Zpos p) (trailing_zeros_pos p) = true /\
  (forall i, 0 <= i < trailing_zeros_pos p -> Z.testbit (Zpos p) i = false) /\
  (forall i, 0 <= i -> Z.testbit (Z.land (Zpos p) (Zpos p - 1)) i = Z.testbit (Zpos p) i && negb (i =? trailing_zeros_pos p)).
Proof.
  induction p as [p IH|p IH|]; cbn [trailing_zeros_pos].
  - split_and!; [done|lia|]. intros i Hi. rewrite Z.land_spec. replace (Zpos p~1 - 1) with (2 * Zpos p) by lia.
    destruct (Z.eqb_spec i 0) as [->|Hne]; [by rewrite Z.testbit_even_0, andb_false_r|].
    replace i with (Z.succ (i - 1)) by lia. rewrite Pos2Z.inj_xI, Z.testbit_odd_succ, Z.testbit_even_succ by lia.
    by rewrite andb_diag, andb_true_r.
  - destruct IH as (H1 & H2 & H3). pose proof (trailing_zeros_nonneg p). rewrite Pos2Z.inj_xO. split_and!.
    + replace (1 + trailing_zeros_pos p) with (Z.succ (trailing_zeros_pos p)) by lia. by rewrite Z.testbit_even_succ by lia.
    + intros i Hi. destruct (Z.eqb_spec i 0) as [->|Hne]; [by rewrite Z.testbit_even_0|].
      replace i with (Z.succ (i - 1)) by lia. rewrite Z.testbit_even_succ by lia. apply H2. lia.
    + intros i Hi. rewrite Z.land_spec. replace (2 * Zpos p - 1) with (2 * (Zpos p - 1) + 1) by lia.
      destruct (Z.eqb_spec i 0) as [->|Hne]; [by rewrite Z.testbit_even_0|].
      replace i with (Z.succ (i - 1)) by lia. rewrite Z.testbit_even_succ, Z.testbit_odd_succ by lia.
      specialize (H3 (i - 1) ltac:(lia)). rewrite Z.land_spec in H3. rewrite H3. f_equal. f_equal.
      destruct (Z.eqb_spec (i - 1) (trailing_zeros_pos p)), (Z.eqb_spec (Z.succ (i - 1)) (1 + trailing_zeros_pos p)); lia.
  - split_and!; [done|lia|]. intros i Hi. simpl. rewrite Z.testbit_0_l. destruct (Z.eqb_spec i 0) as [->|Hne]; [done|].
    replace i with (Z.succ (i - 1)) by lia. replace 1 with (2 * 0 + 1) by lia. rewrite Z.testbit_odd_succ by lia.
    by rewrite Z.testbit_0_l.
Qed.

Lemma mask_bit w b : 0 <= b -> negb (Z.land w (Z.shiftl 1 b) =? 0) = Z.testbit w b.
Proof.
  intros Hb. destruct (Z.testbit w b) eqn:E.
  - apply negb_true_iff, Z.eqb_neq. intros H. apply (f_equal (fun z => Z.testbit z b)) in H.
    rewrite Z.land_spec, E, Z.shiftl_spec, Z.sub_diag, Z.testbit_0_l in H by lia. done.
  - apply negb_false_iff, Z.eqb_eq, Z.bits_inj'. intros i Hi. rewrite Z.land_spec, Z.testbit_0_l.
    destruct (Z.eqb_spec i b) as [->|Hne]; [by rewrite E|].
    rewrite Z.shiftl_spec by lia. replace (Z.testbit 1 (i - b)) with false; [by rewrite andb_false_r|].
    symmetry. destruct (Z.ltb_spec i b); [by apply Z.testbit_neg_r; lia|].
    apply (testbit_high 1 1); [lia|lia].
Qed.

(** The set bits of a 64-bit word, in order. *)
Definition bits (w : Z) : list Z := filter (fun i => Z.testbit w i = true) (seqZ 0 64).

Notation increasing := (BTree.sorted_set Z.compare).

Lemma lt_elim x y : BTree.lt Z.compare x y -> x < y.
Proof. done. Qed.

Lemma lt_intro x y : x < y -> BTree.lt Z.compare x y.
Proof. done. Qed.

Lemma in_bits w i : i ∈ bits w <-> 0 <= i < 64 /\ Z.testbit w i = true.
Proof. unfold bits. rewrite list_elem_of_filter, elem_of_seqZ. naive_solver lia. Qed.

Lemma seqZ_increasing m n : increasing (seqZ m n).
Proof.
  destruct (decide (0 <= n)); [|rewrite seqZ_nil by lia; constructor].
  rewrite <- (Z2Nat.id n) by lia. generalize (Z.to_nat n) as k. clear n l. intros k. revert m.
  induction k as [|k IH]; intros m; [constructor|].
  rewrite seqZ_cons by lia. replace (Z.pred (Z.of_nat (S k))) with (Z.of_nat k) by lia. constructor; [apply IH|].
  apply Forall_forall. intros x Hx%elem_of_seqZ. apply lt_intro. lia.
Qed.

Lemma bits_increasing w : increasing (bits w).
Proof. unfold bits. apply BTree.sorted_filter, seqZ_increasing. Qed.

Lemma bits_zero : bits 0 = [].
Proof. reflexivity. Qed.

Lemma bits_step w : 0 < w < 2 ^ 64 ->
  bits w = trailing_zeros w :: bits (Z.land w (w - 1)) /\ 0 <= trailing_zeros w < 64 /\
  0 <= Z.land w (w - 1) < 2 ^ 64.
Proof.
  intros Hw. destruct w as [|p|]; try lia. destruct (lowest_bit p) as (Hset & Hlow & Hclear).
  pose proof (trailing_zeros_nonneg p) as Hnn. simpl trailing_zeros.
  assert (trailing_zeros_pos p < 64) as Hlt.
  { apply Z.nle_gt. intros H. by rewrite (testbit_high (Zpos p) 64) in Hset by lia. }
  assert (forall i, i ∈ bits (Z.land (Zpos p) (Zpos p - 1)) <-> i ∈ bits (Zpos p) /\ i <> trailing_zeros_pos p) as Hin.
  { intros i. rewrite !in_bits. split.
    - intros [Hi Ht]. rewrite Hclear in Ht by lia. apply andb_true_iff in Ht as [? ?%negb_true_iff%Z.eqb_neq]. done.
    - intros [[Hi Ht] Hne]. split; [done|]. rewrite Hclear by lia. rewrite Ht. apply negb_true_iff. by apply Z.eqb_neq. }
  split; [|split; [done|]].
  - apply (BTree.sorted_set_ext Z.compare); [apply bits_increasing| |].
    + constructor; [apply bits_increasing|]. apply Forall_forall. intros i [Hi Hne]%Hin. apply in_bits in Hi as [Hi Ht].
      apply lt_intro. apply Z.nle_gt. intros Hle. by rewrite Hlow in Ht by lia.
    + intros i. rewrite elem_of_cons, Hin. destruct (decide (i = trailing_zeros_pos p)) as [->|]; [|naive_solver].
      split; [by left|]. intros _. by apply in_bits.
  - rewrite <- (Z.mod_small (Zpos p) (2 ^ 64)) at 1 3 by lia. rewrite <- Z.land_ones by lia.
    rewrite <- Z.land_assoc, (Z.land_comm (Z.ones 64)), Z.land_assoc, Z.land_ones by lia.
    apply Z.mod_pos_bound. lia.
Qed.

(** ** The iterator *)

(** The members of the words from index [k] on. *)
Fixpoint dense_from (k : Z) (words : list Z) : list Z :=
  match words with
  | [] => []
  | w :: words => map (fun b => k * 64 + b) (bits w) ++ dense_from (k + 1) words
  end.

(** What is left to yield. *)
Definition dense_rest (words : list Z) (word pending : Z) : list Z :=
  map (fun b => (word - 1) * 64 + b) (bits pending) ++ dense_from word (drop (Z.to_nat word) words).

Definition word_ok (w : Z) : Prop := 0 <= w < 2 ^ 64.

Lemma rest_end words word : (length words <= Z.to_nat word)%nat -> dense_rest words word 0 = [].
Proof. intros H. unfold dense_rest. by rewrite drop_ge by done. Qed.

Lemma rest_start words : dense_rest words 0 0 = dense_from 0 words.
Proof. reflexivity. Qed.

Lemma dense_next_spec fuel words word pending remaining :
  Forall word_ok words -> word_ok pending -> 0 <= word ->
  (length words <= fuel + Z.to_nat word)%nat ->
  Forall (in_u 32) (dense_rest words word pending) -> remaining = len (dense_rest words word pending) ->
  exists word' pending',
    dense_next fuel words word pending remaining =
      Some (head (dense_rest words word pending), IDense words word' pending' (Z.max 0 (remaining - 1))) /\
    dense_rest words word' pending' = tail (dense_rest words word pending) /\
    word_ok pending' /\ 0 <= word'.
Proof.
  intros Hwords. revert word pending. induction fuel as [|fuel IH]; intros word pending Hp Hw Hfuel Hu ->.
  all: cbn [dense_next]; destruct (Z.eqb_spec pending 0) as [->|Hne]; cbn [negb].
  all: try (destruct (bits_step pending) as (Hb & Htz & Hland); [unfold word_ok in Hp; lia|];
    unfold dense_rest in *; rewrite Hb in *; cbn [map app] in *; apply Forall_cons in Hu as [Hu _]; cbn [head tail];
    unfold len, checked_sub; cbn [length]; destruct (Z.leb_spec 1 (Z.of_nat (S (length
      (map (λ b : Z, (word - 1) * 64 + b) (bits (Z.land pending (pending - 1))) ++ dense_from word (drop (Z.to_nat word) words)))))); [|lia];
    cbn [mbind option_bind]; exists word, (Z.land pending (pending - 1)); split; [|by unfold word_ok];
    unfold wrap, WORD_BITS; rewrite Z.mod_small by (unfold in_u in Hu; lia); do 3 f_equal; lia).
  - rewrite lookup_ge_None_2 by lia. exists word, 0. by rewrite rest_end by lia.
  - destruct (words !! Z.to_nat word) as [w|] eqn:E.
    + assert (dense_rest words word 0 = dense_rest words (word + 1) w) as Hr.
      { unfold dense_rest. rewrite bits_zero. cbn [map app]. erewrite (drop_S words w (Z.to_nat word)) by done.
        cbn [dense_from]. replace (word + 1 - 1) with word by lia. by replace (Z.to_nat (word + 1)) with (S (Z.to_nat word)) by lia. }
      rewrite Hr in *. apply IH; try done; try lia. rewrite Forall_forall in Hwords. apply Hwords.
      by eapply list_elem_of_lookup_2.
    + apply lookup_ge_None in E. exists word, 0. by rewrite rest_end by lia.
Qed.

Lemma drain_dense fuel words word pending remaining :
  Forall word_ok words -> word_ok pending -> 0 <= word ->
  Forall (in_u 32) (dense_rest words word pending) -> remaining = len (dense_rest words word pending) ->
  (length (dense_rest words word pending) < fuel)%nat ->
  drain fuel (IDense words word pending remaining) = Some (dense_rest words word pending).
Proof.
  intros Hwords. revert word pending remaining. induction fuel as [|fuel IH]; intros word pending remaining Hp Hw Hu Hr Hfuel; [lia|].
  cbn [drain slots_next].
  destruct (dense_next_spec (length words) words word pending remaining) as (word' & pending' & -> & Ht & Hp' & Hw'); try done; [lia|].
  cbn [mbind option_bind]. destruct (dense_rest words word pending) as [|x rest] eqn:E; cbn [head tail] in *; [done|].
  apply Forall_cons in Hu as [_ Hu]. cbn [length] in *. rewrite IH, Ht; try done; rewrite Ht; try done; [|lia].
  subst remaining. unfold len. cbn [length]. lia.
Qed.

(** ** Building a set *)

(** Bit [x] of an array of words. *)
Definition test (words : list Z) (x : Z) : bool :=
  match words !! Z.to_nat (x / 64) with
  | Some w => Z.testbit w (x mod 64)
  | None => false
  end.

Definition after (previous : option Z) (l : list Z) : Prop :=
  match previous with
  | Some p => increasing (p :: l)
  | None => increasing l
  end.

Lemma after_cons previous x l : after previous (x :: l) <-> in_order previous x = true /\ after (Some x) l.
Proof.
  unfold after, in_order. destruct previous as [p|]; [|naive_solver]. rewrite Z.ltb_lt. split.
  - intros H. apply StronglySorted_inv in H as [H Hp]. apply Forall_inv, lt_elim in Hp. done.
  - intros [Hp H]. constructor; [done|]. constructor; [by apply lt_intro|].
    apply StronglySorted_inv in H as [_ H]. eapply Forall_impl; [exact H|]. intros y Hy%lt_elim.
    apply lt_intro. lia.
Qed.

Lemma after_nil previous : after previous [].
Proof. destruct previous; simpl; repeat constructor. Qed.

Lemma collect_sparse_spec previous l :
  match collect_sparse previous l with
  | Some l' => l' = l /\ after previous l
  | None => ~ after previous l
  end.
Proof.
  revert previous. induction l as [|x l IH]; intros previous; cbn [collect_sparse]; [split; [done|apply after_nil]|].
  pose proof (after_cons previous x l) as Ha. specialize (IH (Some x)). destruct (in_order previous x); [|naive_solver].
  destruct (collect_sparse (Some x) l); cbn [mbind option_bind]; [|naive_solver]. destruct IH as [-> ?]. naive_solver.
Qed.

Lemma slot_split x : 0 <= x -> 0 <= x / 64 /\ 0 <= x mod 64 < 64.
Proof. intros. split; [apply Z.div_pos; lia|apply Z.mod_pos_bound; lia]. Qed.

Lemma test_insert words i w x y : 0 <= x -> 0 <= y -> i = Z.to_nat (x / 64) -> words !! i = Some w ->
  test (<[i := Z.lor w (Z.shiftl 1 (x mod 64))]> words) y = test words y || (y =? x).
Proof.
  intros Hx Hy -> Hw. destruct (slot_split x Hx) as [Hx1 Hx2], (slot_split y Hy) as [Hy1 Hy2]. unfold test.
  destruct (decide (y / 64 = x / 64)) as [E|E].
  - rewrite E, list_lookup_insert_eq by (by eapply lookup_lt_Some). rewrite Hw, Z.lor_spec. f_equal.
    rewrite Z.shiftl_spec by lia. destruct (Z.eqb_spec y x) as [->|Hne]; [by rewrite Z.sub_diag|].
    assert (y mod 64 <> x mod 64) by (pose proof (Z.div_mod x 64 ltac:(lia)); pose proof (Z.div_mod y 64 ltac:(lia)); lia).
    destruct (Z.ltb_spec (y mod 64) (x mod 64)); [by apply Z.testbit_neg_r; lia|]. apply (testbit_high 1 1); lia.
  - rewrite list_lookup_insert_ne by (intros H; apply E; lia).
    destruct (Z.eqb_spec y x) as [->|]; [done|by rewrite orb_false_r].
Qed.

Lemma lor_bit_word w b : word_ok w -> 0 <= b < 64 -> word_ok (Z.lor w (Z.shiftl 1 b)).
Proof.
  unfold word_ok. intros Hw Hb. split; [apply Z.lor_nonneg; rewrite Z.shiftl_nonneg; lia|].
  destruct (Z.eq_dec (Z.lor w (Z.shiftl 1 b)) 0) as [->|Hne]; [done|].
  assert (0 <= Z.lor w (Z.shiftl 1 b)) by (apply Z.lor_nonneg; rewrite Z.shiftl_nonneg; lia).
  apply Z.log2_lt_pow2; [lia|]. rewrite Z.log2_lor by (try rewrite Z.shiftl_nonneg; lia).
  rewrite Z.log2_shiftl by lia. change (Z.log2 1) with 0.
  assert (Z.log2 w < 64); [|lia]. destruct (Z.eq_dec w 0) as [->|]; [done|]. apply Z.log2_lt_pow2; lia.
Qed.

Lemma set_bits_spec previous words l : Forall word_ok words -> Forall (fun x => 0 <= x < 64 * len words) l ->
  match set_bits previous words l with
  | Some words' =>
      after previous l /\ Forall word_ok words' /\ length words' = length words /\
      forall y, 0 <= y -> test words' y = test words y || bool_decide (y ∈ l)
  | None => ~ after previous l
  end.
Proof.
  revert previous words. induction l as [|x l IH]; intros previous words Hw Hl; cbn [set_bits].
  - split_and!; try done; [apply after_nil|]. intros y _. by rewrite orb_false_r.
  - apply Forall_cons in Hl as [Hx Hl]. destruct (slot_split x) as [Hx1 Hx2]; [lia|]. unfold WORD_BITS.
    pose proof (after_cons previous x l) as Hc. destruct (in_order previous x); [|naive_solver].
    assert (Z.to_nat (x / 64) < length words)%nat as Hi by (unfold len in Hx; pose proof (Z.div_mod x 64 ltac:(lia)); lia).
    destruct (lookup_lt_is_Some_2 words _ Hi) as [w E]. rewrite E. cbn [mbind option_bind].
    set (words' := <[_ := _]> words). assert (Forall word_ok words') as Hw'.
    { apply Forall_insert; [done|]. apply lor_bit_word; [|done]. rewrite Forall_forall in Hw. apply Hw.
      by eapply list_elem_of_lookup_2. }
    assert (length words' = length words) as Hlen by apply length_insert.
    specialize (IH (Some x) words' Hw'). unfold len in *. rewrite Hlen in IH. specialize (IH Hl).
    destruct (set_bits (Some x) words' l) as [words''|]; [|naive_solver].
    destruct IH as (Ha & Hok & -> & Ht). split_and!; try done; [naive_solver|]. intros y Hy. rewrite Ht by done.
    unfold words'. rewrite (test_insert words (Z.to_nat (x / 64)) w) by (done || lia). rewrite <- orb_assoc. f_equal.
    destruct (Z.eqb_spec y x), (bool_decide_reflect (y ∈ l)), (bool_decide_reflect (y ∈ x :: l)); set_solver.
Qed.

Lemma in_dense_from words k x : 0 <= k ->
  x ∈ dense_from k words <-> exists i, 0 <= i < len words /\ x / 64 = k + i /\ test words (x - 64 * k) = true.
Proof.
  revert k. induction words as [|w words IH]; intros k Hk; simpl.
  { split; [by intros ?%not_elem_of_nil|]. intros (i & Hi & _). unfold len in Hi. simpl in Hi. lia. }
  rewrite elem_of_app, IH, list_elem_of_fmap by lia.
  assert (forall z, test (w :: words) z = if z / 64 =? 0 then Z.testbit w (z mod 64) else if 0 <? z / 64 then test words (z - 64) else Z.testbit w (z mod 64)) as Htest.
  { intros z. unfold test. replace ((z - 64) / 64) with (z / 64 - 1) by (replace (z - 64) with (z + -1 * 64) by lia; rewrite Z.div_add by lia; lia).
    replace ((z - 64) mod 64) with (z mod 64) by (replace (z - 64) with (z + -1 * 64) by lia; by rewrite Z.mod_add by lia).
    destruct (Z.eqb_spec (z / 64) 0) as [->|]; [done|]. destruct (Z.ltb_spec 0 (z / 64)).
    - by replace (Z.to_nat (z / 64)) with (S (Z.to_nat (z / 64 - 1))) by lia.
    - by replace (Z.to_nat (z / 64)) with 0%nat by lia. }
  assert (forall z c, (z - 64 * c) / 64 = z / 64 - c /\ (z - 64 * c) mod 64 = z mod 64) as Hshift.
  { intros z c. replace (z - 64 * c) with (z + (- c) * 64) by lia. rewrite Z.div_add, Z.mod_add by lia. lia. }
  split.
  - intros [(b & -> & Hb%in_bits)|(i & Hi & Hx & Ht)].
    + exists 0. rewrite Htest. replace (k * 64 + b - 64 * k) with b by lia. destruct Hb as [Hb Hbt].
      rewrite (Z.div_small b), (Z.mod_small b) by lia. split; [unfold len; simpl; lia|]. split; [|done].
      rewrite Z.div_add_l, Z.div_small by lia. lia.
    + exists (i + 1). split; [unfold len in *; simpl; lia|]. split; [lia|]. rewrite Htest. destruct (Hshift x k) as [-> ->].
      destruct (Z.eqb_spec (x / 64 - k) 0); [lia|]. destruct (Z.ltb_spec 0 (x / 64 - k)); [|lia].
      by replace (x - 64 * k - 64) with (x - 64 * (k + 1)) by lia.
  - intros (i & Hi & Hx & Ht). rewrite Htest in Ht. destruct (Hshift x k) as [E1 E2]. rewrite E1, E2 in Ht.
    destruct (Z.eqb_spec (x / 64 - k) 0).
    + left. exists (x mod 64). pose proof (Z.div_mod x 64 ltac:(lia)). split; [lia|]. apply in_bits. split; [apply Z.mod_pos_bound; lia|done].
    + destruct (Z.ltb_spec 0 (x / 64 - k)); [|lia]. right. exists (i - 1). split; [unfold len in *; simpl in Hi; lia|].
      split; [lia|]. by replace (x - 64 * k - 64) with (x - 64 * (k + 1)) in Ht by lia.
Qed.

Lemma dense_from_increasing k words : 0 <= k -> increasing (dense_from k words).
Proof.
  revert k. induction words as [|w words IH]; intros k Hk; simpl; [constructor|].
  assert (forall l, increasing l -> increasing (map (fun b => k * 64 + b) l)) as Hmap.
  { intros l. induction 1 as [|b l _ IH' Hb]; simpl; constructor; [done|]. apply Forall_map. eapply Forall_impl; [exact Hb|].
    intros c Hc%lt_elim. apply lt_intro. lia. }
  apply StronglySorted_app_2; [|apply Hmap, bits_increasing|apply IH; lia].
  intros x y (b & -> & Hb%in_bits)%list_elem_of_fmap (i & Hi & Hy & _)%in_dense_from; [|lia].
  apply lt_intro. pose proof (Z.div_mod y 64 ltac:(lia)). pose proof (Z.mod_pos_bound y 64 ltac:(lia)). lia.
Qed.

Lemma set_bits_after previous words l words' : set_bits previous words l = Some words' -> after previous l.
Proof.
  revert previous words. induction l as [|x l IH]; intros previous words; cbn [set_bits]; [intros _; apply after_nil|].
  rewrite after_cons. destruct (in_order previous x); [|done]. destruct (words !! _); [|done]. cbn [mbind option_bind].
  intros H. split; [done|by eapply IH].
Qed.

Lemma increasing_last l m : increasing l -> last l = Some m -> Forall (fun x => x <= m) l.
Proof.
  intros Hl Hm. apply last_Some in Hm as [l' ->]. apply Forall_app_2; [|by constructor].
  apply Forall_forall. intros x Hx. apply Z.lt_le_incl, lt_elim.
  eapply (StronglySorted_app_1_elem_of _ l' [m]); [exact Hl|done|by left].
Qed.

(** What a set built from [l] answers. *)
Definition represents (s : SlotSet) (l : list Z) : Prop :=
  slotset_len s = len l /\ (forall x, 0 <= x -> slotset_contains s x = bool_decide (x ∈ l)) /\
  slotset_slots s = Some l /\ slots_remaining (slotset_iter s) = len l.

Lemma sparse_represents l : represents (Sparse l) l.
Proof.
  split_and!; try done. unfold slotset_slots. simpl. unfold len. rewrite Nat2Z.id.
  induction l as [|x l IH]; [done|]. cbn [drain slots_next length mbind option_bind]. by rewrite IH.
Qed.

Lemma dense_represents l words : Forall (in_u 32) l -> increasing l -> Forall word_ok words ->
  Forall (fun x => x < 64 * len words) l ->
  (forall y, 0 <= y -> test words y = bool_decide (y ∈ l)) -> represents (Dense words (len l)) l.
Proof.
  intros Hu Hl Hw Hb Ht.
  assert (dense_from 0 words = l) as Hd.
  { apply (BTree.sorted_set_ext Z.compare); [by apply dense_from_increasing|done|]. intros x. rewrite in_dense_from by lia.
    replace (x - 64 * 0) with x by lia. rewrite Forall_forall in Hu, Hb. split.
    - intros (i & Hi & Hx & Htx). rewrite Ht in Htx; [by apply bool_decide_eq_true in Htx|].
      pose proof (Z.div_mod x 64 ltac:(lia)). pose proof (Z.mod_pos_bound x 64 ltac:(lia)). lia.
    - intros Hx. specialize (Hu x Hx). specialize (Hb x Hx). unfold in_u in Hu. exists (x / 64).
      rewrite Ht by lia. pose proof (Z.div_mod x 64 ltac:(lia)). pose proof (Z.mod_pos_bound x 64 ltac:(lia)).
      split_and!; [lia|lia|lia|]. by apply bool_decide_eq_true. }
  split_and!; try done.
  - intros x Hx. cbn [slotset_contains]. rewrite <- (Ht x Hx). unfold test, WORD_BITS.
    destruct (words !! Z.to_nat (x / 64)) as [w|]; [|done]. apply mask_bit. by apply slot_split.
  - unfold slotset_slots. cbn [slotset_len slotset_iter]. rewrite drain_dense; rewrite ?rest_start, ?Hd; try done. unfold len. lia.
Qed.

Lemma slotset_new_spec l : Forall (in_u 32) l ->
  match slotset_new l with
  | Some s => increasing l /\ represents s l
  | None => ~ increasing l
  end.
Proof.
  intros Hu. unfold slotset_new. destruct (last l) as [m|] eqn:Em.
  2: { apply last_None in Em as ->. split; [constructor|]. split_and!; try done. }
  destruct (Z.eqb_spec (len l) 1) as [H1|H1].
  { destruct l as [|x [|y l]]; [done| |unfold len in H1; simpl in H1; lia]. injection Em as ->. split; [by repeat constructor|].
    split_and!; try done. intros x _. simpl. destruct (Z.eqb_spec m x), (bool_decide_reflect (x ∈ [m])); set_solver. }
  destruct (Z.ltb_spec (len l * 4) ((m / WORD_BITS + 1) * 8)).
  - pose proof (collect_sparse_spec None l) as H'. destruct (collect_sparse None l); [|done].
    destruct H' as [-> Hl]. split; [done|apply sparse_represents].
  - assert (increasing l -> Forall (fun x => 0 <= x < 64 * len (replicate (Z.to_nat (m / WORD_BITS + 1)) 0)) l) as Hbound.
    { intros Hl. pose proof (increasing_last l m Hl Em) as Hm. rewrite Forall_forall in Hu, Hm. apply Forall_forall.
      intros x Hx. specialize (Hu x Hx). specialize (Hm x Hx). unfold in_u in Hu. unfold len. rewrite length_replicate.
      unfold WORD_BITS. pose proof (Z.div_mod m 64 ltac:(lia)). pose proof (Z.mod_pos_bound m 64 ltac:(lia)). lia. }
    assert (Forall word_ok (replicate (Z.to_nat (m / WORD_BITS + 1)) 0)) as Hzero by (by apply Forall_replicate).
    pose proof (set_bits_spec None _ l Hzero) as Hspec.
    destruct (set_bits None _ l) as [words|] eqn:E; cbn [mbind option_bind]; [|naive_solver].
    apply set_bits_after in E as Hl. simpl in Hl. split; [done|]. destruct (Hspec (Hbound Hl)) as (_ & Hw & Hlen & Ht).
    apply dense_represents; try done.
    + eapply Forall_impl; [exact (Hbound Hl)|]. intros x. unfold len. rewrite Hlen. lia.
    + intros y Hy. rewrite Ht by done. unfold test. destruct (_ !! _) as [w|] eqn:Ew; [|done].
      apply lookup_replicate in Ew as [-> _]. by rewrite Z.testbit_0_l.
Qed.

(** A compact slot set is exactly the set it was built from: construction
    panics exactly when the slots are not strictly increasing, and otherwise the
    length, the membership test, the iterator (every member once, in order, its
    announced length exact) and its end all agree with the list, whether the set
    is stored inline, as a sorted array or as one bit per binding. *)
Theorem slot_set_exact l : Forall (in_u 32) l ->
  (slotset_new l = None <-> ~ BTree.sorted_set Z.compare l) /\
  forall s, slotset_new l = Some s ->
    slotset_len s = len l /\ slots_remaining (slotset_iter s) = len l /\ slotset_slots s = Some l /\
    forall x, 0 <= x -> slotset_contains s x = bool_decide (x ∈ l).
Proof.
  intros Hu. pose proof (slotset_new_spec l Hu) as H. destruct (slotset_new l) as [s|].
  - destruct H as (Hl & H1 & H2 & H3 & H4). split; [split; naive_solver|]. by intros ? [= <-].
  - by split.
Qed.

Lemma slot_set_exact_witness :
  exists s, slotset_new [3; 64; 70; 127] = Some s /\ slotset_slots s = Some [3; 64; 70; 127] /\
    slotset_contains s 70 = true /\ slotset_new [3; 3] = None.
Proof.
  exists (Dense [8; 2 ^ 63 + 2 ^ 6 + 1] 4). assert (Forall (in_u 32) [3; 64; 70; 127]) as Hu by (repeat constructor; vm_compute; intuition discriminate).
  destruct (slot_set_exact _ Hu) as [_ Hs]. destruct (Hs (Dense [8; 2 ^ 63 + 2 ^ 6 + 1] 4)) as (_ & _ & Hiter & Hin); [vm_compute; reflexivity|].
  split; [vm_compute; reflexivity|]. split; [exact Hiter|]. split; [rewrite Hin by lia; reflexivity|vm_compute; reflexivity].
Defined.

(** ** Schemas as maps *)

Section Schemas.
Context (bindings : list Binding).

Definition catalog_column (slot : Z) : ColumnType :=
  default {| column_type := TAny; column_nullable := false |} (catalog (schema_empty bindings) !! Z.to_nat slot).

(** A binding entering a scope, through an optional match or not. *)
Definition entering (optional : bool) (slot : Z) : ColumnType :=
  {| column_type := column_type (catalog_column slot);
     column_nullable := column_nullable (catalog_column slot) || optional |}.

(** The scope [output] after the scope [m]: kept columns keep their facts. *)
Definition derive_columns (m : list (Z * ColumnType)) (output : list Z) (optional : bool) : list (Z * ColumnType) :=
  map (fun slot => (slot, default (entering optional slot) (BTree.get Z.compare slot m))) output.

Definition scope_ok (output : list Z) : Prop :=
  increasing output /\ Forall (in_u 32) output /\ Forall (fun slot => slot < len bindings) output.

(** The schemas a query's scopes go through, with the columns they stand for. *)
Inductive reaches : RowSchema -> list (Z * ColumnType) -> Prop :=
| reaches_empty : reaches (schema_empty bindings) []
| reaches_derive self m output optional self' :
    reaches self m -> scope_ok output -> schema_derive self output optional = Some self' ->
    reaches self' (derive_columns m output optional).

Definition with_overrides (ns : list Z) (slot : Z) : ColumnType := entering (bool_decide (slot ∈ ns)) slot.

Definition schema_ok (self : RowSchema) (m : list (Z * ColumnType)) : Prop :=
  catalog self = catalog (schema_empty bindings) /\ scope_ok m.*1 /\ represents (members self) m.*1 /\
  exists ns, represents (overrides self) ns /\ m = map (fun slot => (slot, with_overrides ns slot)) m.*1.

Lemma get_map (f : Z -> ColumnType) ms slot :
  BTree.get Z.compare slot (map (fun s => (s, f s)) ms) = if decide (slot ∈ ms) then Some (f slot) else None.
Proof.
  induction ms as [|x ms IH]; cbn [map BTree.get]; [done|]. destruct (Z.compare_spec slot x) as [->|H|H].
  all: try rewrite IH; repeat case_decide; set_solver by lia.
Qed.

Lemma get_self ns m slot : m = map (fun slot => (slot, with_overrides ns slot)) m.*1 ->
  BTree.get Z.compare slot m = if decide (slot ∈ m.*1) then Some (with_overrides ns slot) else None.
Proof. intros Hm. rewrite <- get_map. by f_equal. Qed.

Lemma catalog_lookup slot : 0 <= slot < len bindings ->
  catalog (schema_empty bindings) !! Z.to_nat slot = Some (catalog_column slot).
Proof.
  intros H. unfold catalog_column. destruct (_ !! _) as [c|] eqn:E; [done|]. apply lookup_ge_None in E.
  simpl in E. rewrite length_map in E. unfold len in H. lia.
Qed.

Lemma schema_get_ok self m slot : schema_ok self m -> 0 <= slot ->
  schema_get self slot = Some (BTree.get Z.compare slot m).
Proof.
  intros (Hc & (_ & Hu & Hb) & (_ & Hin & _) & ns & (_ & Hns & _) & Hm) Hs. unfold schema_get. rewrite Hin by done.
  rewrite (get_self ns m slot Hm). rewrite Forall_forall in Hb. case_decide as H.
  - rewrite bool_decide_true by done. rewrite Hc, catalog_lookup by (specialize (Hb slot H); lia).
    cbn [mbind option_bind]. by rewrite Hns.
  - by rewrite bool_decide_false.
Qed.

Lemma schema_columns_ok self m : schema_ok self m -> schema_columns self = Some m.
Proof.
  intros H. pose proof H as (_ & (Hinc & Hu & _) & (_ & _ & Hiter & _) & ns & _ & Hm). unfold schema_columns, slot_iter.
  rewrite Hiter. cbn [mbind option_bind].
  assert (forall ms, ms ⊆ m.*1 -> columns_of self ms = Some (map (fun slot => (slot, with_overrides ns slot)) ms)) as Hcol.
  { intros ms. induction ms as [|x ms IH]; intros Hsub; [done|]. cbn [columns_of]. rewrite Forall_forall in Hu.
    assert (x ∈ m.*1) as Hx by set_solver. specialize (Hu x Hx). unfold in_u in Hu.
    rewrite (schema_get_ok self m), (get_self ns m x Hm) by (done || lia). case_decide; [|done]. cbn [mbind option_bind]. by rewrite IH by set_solver. }
  rewrite Hcol by done. by rewrite <- Hm.
Qed.

Lemma nullable_slots_ok self m output optional : schema_ok self m -> Forall (in_u 32) output ->
  Forall (fun slot => slot < len bindings) output ->
  nullable_slots self output optional =
  Some (filter (fun slot => negb (column_nullable (catalog_column slot)) &&
    (if decide (slot ∈ m.*1) then slotset_contains (overrides self) slot else optional) = true) output).
Proof.
  intros (Hc & _ & (_ & Hin & _) & _) Hu. induction Hu as [|x output Hx Hu IH]; intros Hb; [done|].
  apply Forall_cons in Hb as [Hx' Hb]. cbn [nullable_slots]. unfold in_u in Hx.
  rewrite Hc, catalog_lookup, IH by (done || lia). cbn [mbind option_bind]. rewrite filter_cons, Hin by lia. f_equal.
  assert ((if bool_decide (x ∈ m.*1) then slotset_contains (overrides self) x else optional) =
    (if decide (x ∈ m.*1) then slotset_contains (overrides self) x else optional)) as ->.
  { destruct (bool_decide_reflect (x ∈ m.*1)); by case_decide. }
  set (b := negb _ && _). destruct b; [by rewrite decide_True|by rewrite decide_False].
Qed.

Lemma schema_derive_ok self m output optional : schema_ok self m -> increasing output -> Forall (in_u 32) output ->
  match schema_derive self output optional with
  | Some self' => scope_ok output /\ schema_ok self' (derive_columns m output optional)
  | None => ~ Forall (fun slot => slot < len bindings) output
  end.
Proof.
  intros Hself Hinc Hu. pose proof Hself as (Hc & Hscope & (Hlen & Hin & Hiter & Hrem) & ns & (Hnlen & Hns & Hniter) & Hm).
  unfold schema_derive, slot_iter, schema_len. rewrite Hiter, Hlen. cbn [mbind option_bind].
  destruct (bool_decide_reflect (output = m.*1)) as [->|Hne].
  { rewrite Z.eqb_refl. cbn [andb]. split; [done|]. replace (derive_columns m m.*1 optional) with m; [done|].
    unfold derive_columns. rewrite Hm at 1. apply map_ext_in. intros x Hx%list_elem_of_In. f_equal.
    rewrite (get_self ns m x Hm). by rewrite decide_True. }
  rewrite andb_false_r.
  assert (match last output with Some slot => slot <? len (catalog self) | None => true end = true <->
    Forall (fun slot => slot < len bindings) output) as Hlast.
  { assert (len (catalog self) = len bindings) as -> by (rewrite Hc; unfold len; simpl; by rewrite length_map).
    destruct (last output) as [x|] eqn:E; [|apply last_None in E as ->; by split]. rewrite Z.ltb_lt. split; intros Hx.
    - eapply Forall_impl; [by eapply increasing_last|]. simpl. lia.
    - rewrite Forall_forall in Hx. apply Hx. apply last_Some in E as [l' ->]. set_solver. }
  destruct (match last output with Some slot => _ | None => true end); [|intros Hb; naive_solver].
  destruct Hlast as [Hb _]. specialize (Hb eq_refl).
  pose proof (slotset_new_spec output Hu) as Hset. destruct (slotset_new output) as [ms|]; [|done].
  destruct Hset as [_ Hset]. cbn [mbind option_bind]. rewrite (nullable_slots_ok self m) by done. cbn [mbind option_bind].
  set (ns' := filter _ output). assert (Forall (in_u 32) ns') as Hu'.
  { apply Forall_forall. intros x [_ Hx]%list_elem_of_filter. rewrite Forall_forall in Hu. auto. }
  pose proof (slotset_new_spec ns' Hu') as Hset'. destruct (slotset_new ns') as [os|]; cbn [mbind option_bind].
  2: { destruct Hset'. by apply BTree.sorted_filter. }
  assert ((derive_columns m output optional).*1 = output) as Hfst by (unfold derive_columns; rewrite map_map; apply map_id).
  split; [done|]. unfold schema_ok. cbn [catalog members overrides]. rewrite Hfst. split_and!; [done|done|by destruct Hset..|].
  exists ns'. split; [by destruct Hset'|]. unfold derive_columns. apply map_ext_in. intros x Hx%list_elem_of_In. f_equal.
  rewrite (get_self ns m x Hm). rewrite Forall_forall in Hu. specialize (Hu x Hx). unfold in_u in Hu.
  assert (bool_decide (x ∈ ns') = negb (column_nullable (catalog_column x)) &&
    (if decide (x ∈ m.*1) then bool_decide (x ∈ ns) else optional)) as E.
  { apply eq_true_iff_eq. rewrite bool_decide_eq_true. unfold ns'. rewrite list_elem_of_filter, Hns by lia. naive_solver. }
  unfold with_overrides. rewrite E. unfold entering. case_decide; simpl; f_equal; by destruct (column_nullable (catalog_column x)).
Qed.

Lemma reaches_ok self m : reaches self m -> schema_ok self m.
Proof.
  induction 1 as [|self m output optional self' _ IH [Hinc [Hu _]] Hd].
  - split_and!; [done|repeat constructor|done..|]. exists []. split; [|done]. by repeat split.
  - pose proof (schema_derive_ok self m output optional IH Hinc Hu) as H. rewrite Hd in H. by destruct H.
Qed.
End Schemas.

(** Row schemas implement the scope maps of a query: every schema reached
    from the empty scope by deriving scopes answers its columns, lookups, length
    and iteration exactly as the map of its visible bindings, in which a binding
    keeps its facts while it stays visible and enters nullable if its catalog
    entry or an optional match makes it so; deriving an increasing scope panics
    exactly when it leaves the catalog; and schemas are equal when their maps are. *)
Theorem schema_refines bindings self m : reaches bindings self m ->
  schema_columns self = Some m /\ slot_iter self = Some m.*1 /\ schema_len self = len m /\
  (forall slot, 0 <= slot -> schema_get self slot = Some (BTree.get Z.compare slot m)) /\
  (forall other m', reaches bindings other m' -> schema_eq self other = Some (bool_decide (m = m'))) /\
  forall output optional, BTree.sorted_set Z.compare output -> Forall (in_u 32) output ->
    (schema_derive self output optional = None <-> ~ Forall (fun slot => slot < len bindings) output) /\
    forall self', schema_derive self output optional = Some self' ->
      reaches bindings self' (derive_columns bindings m output optional).
Proof.
  intros Hr. pose proof (reaches_ok _ _ _ Hr) as Hok.
  assert (forall self m, schema_ok bindings self m -> schema_len self = len m) as Hlen.
  { intros s n (_ & _ & (Hl & _) & _). unfold schema_len. rewrite Hl. unfold len. by rewrite length_map. }
  split_and!.
  - by apply (schema_columns_ok bindings).
  - by destruct Hok as (_ & _ & (_ & _ & ? & _) & _).
  - by apply Hlen.
  - intros slot. by apply (schema_get_ok bindings).
  - intros other m' Hr'. apply reaches_ok in Hr'. unfold schema_eq. rewrite (Hlen _ _ Hok), (Hlen _ _ Hr').
    rewrite (schema_columns_ok bindings self m), (schema_columns_ok bindings other m') by done. cbn [mbind option_bind].
    destruct (Z.eqb_spec (len m) (len m')); [done|]. rewrite bool_decide_false; [done|]. by intros ->.
  - intros output optional Hinc Hu. pose proof (schema_derive_ok bindings self m output optional Hok Hinc Hu) as H.
    destruct (schema_derive self output optional) as [self'|] eqn:E.
    + destruct H as [Hs _]. split; [split; [done|]|].
      * intros Hn. by destruct Hn; destruct Hs as (_ & _ & ?).
      * intros ? [= <-]. by eapply reaches_derive.
    + by split.
Qed.

(** A node bound by a match, then an integer by an optional one. *)
Definition sample_bindings : list Binding :=
  [{| name := [110]; kind := BNode; nullable := false; value_type := TNode |};
   {| name := [105]; kind := BScalar; nullable := false; value_type := TInteger |}].
Definition sample_schema : RowSchema :=
  {| catalog := catalog (schema_empty sample_bindings); members := Dense [3] 2; overrides := Single 1 |}.

Lemma schema_refines_witness :
  schema_columns sample_schema =
    Some [(0, {| column_type := TNode; column_nullable := false |});
          (1, {| column_type := TInteger; column_nullable := true |})] /\
  schema_derive sample_schema [0; 2] false = None.
Proof.
  assert (reaches sample_bindings sample_schema
    (derive_columns sample_bindings (derive_columns sample_bindings [] [0] false) [0; 1] true)) as Hr.
  { eapply reaches_derive; [eapply reaches_derive; [apply reaches_empty| |vm_compute; reflexivity]| |vm_compute; reflexivity];
      repeat constructor; vm_compute; intuition discriminate. }
  destruct (schema_refines _ _ _ Hr) as (Hcols & _ & _ & _ & _ & Hderive).
  split; [rewrite Hcols; vm_compute; reflexivity|]. apply (Hderive [0; 2] false).
  - repeat constructor; vm_compute; intuition discriminate.
  - repeat constructor; vm_compute; intuition discriminate.
  - intros H. apply Forall_cons in H as [_ H]. apply Forall_inv in H. vm_compute in H. intuition discriminate.
Defined.

End QuerySchema.
