(* ===== verification/QueryTypes.v ===== *)
(** Static value domains: crates/planner/src/relational/types.rs, and their
    soundness for the evaluator.

    Inference has no effect but its error and the [unreachable!] of a connective
    with fewer than two operands; it is written in [M] and makes no admission. *)
From S2P Require Import Prelude Bytes BTree QueryValue QueryRange QueryDecimal QueryOperators QueryExpression QueryMonad QueryAggregate QueryEval QueryRelocate QuerySchema.

Open Scope Z_scope.

Module QueryTypes.
Export QueryRelocate QuerySchema.

Definition debug_type (t : ValueType) : string :=
  match t with
  | TAny => "Any" | TNull => "Null" | TBoolean => "Boolean" | TInteger => "Integer" | TFloat => "Float"
  | TString => "String" | TList => "List" | TMap => "Map" | TNode => "Node"
  | TRelationship => "Relationship" | TPath => "Path"
  end.

(** [{:?}] of a slice. *)
Definition debug_types (ts : list ValueType) : string :=
  "[" +:+ String.concat ", " (map debug_type ts) +:+ "]".

(** [require]: unknown and null operands are checked when they are evaluated. *)
Definition require (actual : ValueType) (accepted : list ValueType) (category : string) : M unit :=
  if bool_decide (actual = TAny) || bool_decide (actual = TNull) || bool_decide (actual ∈ accepted) then ret tt
  else fail (compile_error category "invalid_argument_type"
               ("expected " +:+ debug_types accepted +:+ ", received " +:+ debug_type actual)).

Definition literal_type (value : Value) : ValueType :=
  match value with
  | Null => TNull
  | Boolean _ => TBoolean
  | Integer _ => TInteger
  | Float _ => TFloat
  | Str _ => TString
  | List _ => TList
  | Map _ => TMap
  | EntityValue (Node _) => TNode
  | EntityValue (Relationship _) => TRelationship
  | PathValue _ => TPath
  end.

(** The type of a CASE after one more branch. *)
Definition join (result t : ValueType) : ValueType :=
  if bool_decide (result = TNull) then t
  else if negb (bool_decide (t = TNull)) && negb (bool_decide (t = result)) then TAny
  else result.

Definition binary_type (op : Binary) (a b : ValueType) : M ValueType :=
  let arithmetic :=
    do _ <- require a [TInteger; TFloat] "syntax_error";
    do _ <- require b [TInteger; TFloat] "syntax_error";
    ret (if bool_decide (a = TFloat) || bool_decide (b = TFloat) || bool_decide (op = Power) then TFloat
         else if bool_decide (a = TInteger) && bool_decide (b = TInteger) then TInteger
         else TAny) in
  match op with
  | In => do _ <- require b [TList] "syntax_error"; ret TBoolean
  | StartsWith | EndsWith | Contains => ret TBoolean
  | Equal | NotEqual | Less | LessEqual | Greater | GreaterEqual => ret TBoolean
  | Add =>
      if bool_decide (a = TList) || bool_decide (b = TList) then ret TList
      else if bool_decide (a = TString) || bool_decide (b = TString) then ret TString
      else arithmetic
  | Subtract | Multiply | Divide | Modulo | Power => arithmetic
  end.

Definition unary_type (op : Unary) (t : ValueType) : M ValueType :=
  match op with
  | Not => do _ <- require t [TBoolean] "syntax_error"; ret TBoolean
  | Negate | Positive => do _ <- require t [TInteger; TFloat] "syntax_error"; ret t
  | IsNull | IsNotNull => ret TBoolean
  end.

Definition function_type (function : Function) (first : ValueType) : M ValueType :=
  match function with
  | FId => do _ <- require first [TNode; TRelationship] "syntax_error"; ret TInteger
  | FType => do _ <- require first [TRelationship] "syntax_error"; ret TString
  | FLabels => do _ <- require first [TNode] "type_error"; ret TList
  | FProperties => do _ <- require first [TNode; TRelationship; TMap] "syntax_error"; ret TMap
  | FKeys => do _ <- require first [TNode; TRelationship; TMap] "syntax_error"; ret TList
  | FNodes | FRelationships => do _ <- require first [TPath] "syntax_error"; ret TList
  | FLength => do _ <- require first [TPath] "syntax_error"; ret TInteger
  | FSize => do _ <- require first [TList; TString] "syntax_error"; ret TInteger
  | FHead | FLast => do _ <- require first [TList] "syntax_error"; ret TAny
  | FCoalesce => ret TAny
  | FToString => ret TString
  | FToInteger => ret TInteger
  | FToFloat => ret TFloat
  | FToBoolean | FExists => ret TBoolean
  | FAbs => ret first
  | FRange => ret TList
  | FReverse => ret first
  | FTrim | FLtrim | FRtrim | FToLower | FToUpper | FSubstring => ret TString
  end.

Definition aggregate_type (function : Aggregate) : ValueType :=
  match function with
  | Count => TInteger
  | Avg => TFloat
  | Collect => TList
  | Sum | Minimum | Maximum => TAny
  end.

Section Inference.
Context (bindings : list Binding).

Definition slot_type (slot : Z) : M ValueType :=
  match bindings !! Z.to_nat slot with
  | Some binding => ret (QuerySchema.value_type binding)
  | None => fail (compile_error "internal_planner_error" "invalid_slot" "slot exceeds binding catalog")
  end.

(** Each inference in turn, its type checked by [check]. *)
Definition infer_all (inferences : list (M ValueType)) (check : ValueType -> M unit) : M unit :=
  for_each inferences tt (fun infer _ => do t <- infer; check t).

(** [Expression::value_type]. *)
Fixpoint value_type (self : Expression) : M ValueType :=
  match self with
  | ELiteral value => ret (literal_type value)
  | ESlot slot => slot_type slot
  | EParameter _ => ret TAny
  | EProperty value _ =>
      do t <- value_type value; do _ <- require t [TMap; TNode; TRelationship] "type_error"; ret TAny
  | EIndex value index =>
      do t <- value_type value;
      do _ <- require t [TList; TMap; TNode; TRelationship] "type_error";
      do _ <- value_type index; ret TAny
  | ESlice value start end_ =>
      do t <- value_type value;
      do _ <- require t [TList] "syntax_error";
      do _ <- infer_all (match start with Some e => [value_type e] | None => [] end ++
                         match end_ with Some e => [value_type e] | None => [] end)
                (fun t => require t [TInteger] "syntax_error");
      ret TList
  | EUnary op x => do t <- value_type x; unary_type op t
  | EBinary op a b => do a <- value_type a; do b <- value_type b; binary_type op a b
  | EConnective _ operands =>
      match map value_type operands with
      | first :: second :: rest =>
          do first <- first;
          do second <- second;
          do _ <- require first [TBoolean] "syntax_error";
          do _ <- require second [TBoolean] "syntax_error";
          do _ <- infer_all rest (fun t => require t [TBoolean] "syntax_error");
          ret TBoolean
      | _ => panic
      end
  | EList xs => do _ <- infer_all (map value_type xs) (fun _ => ret tt); ret TList
  | EMap xs => do _ <- infer_all (map (fun x => value_type x.2) xs) (fun _ => ret tt); ret TMap
  | EHasLabel slot _ => do t <- slot_type slot; do _ <- require t [TNode] "syntax_error"; ret TBoolean
  | ECase branches otherwise =>
      do result <- value_type otherwise;
      for_each (map (fun p => (value_type p.1, value_type p.2)) branches) result (fun branch result =>
        do p <- branch.1; do _ <- require p [TBoolean] "syntax_error";
        do t <- branch.2; ret (join result t))
  | ESimpleCase operand branches otherwise =>
      do _ <- value_type operand;
      do result <- value_type otherwise;
      for_each (map (fun p => (value_type p.1, value_type p.2)) branches) result (fun branch result =>
        do _ <- branch.1; do t <- branch.2; ret (join result t))
  | EAggregate function argument _ =>
      do _ <- match argument with Some e => value_type e | None => ret TAny end;
      ret (aggregate_type function)
  | EFunction function args =>
      do types <- for_each (map value_type args) [] (fun infer types => do t <- infer; ret (types ++ [t]));
      function_type function (default TAny (head types))
  end.
End Inference.

(** ** Inference is pure *)

(** [m] makes no admission decision. *)
Definition pure {A} (m : M A) (o : option (result QueryError A)) : Prop := forall adm, m adm = (fun r => (r, adm)) <$> o.

Lemma pure_unique {A} (m : M A) o o' : pure m o -> pure m o' -> o = o'.
Proof. intros H H'. specialize (H []). specialize (H' []). rewrite H in H'. destruct o, o'; simpl in *; congruence. Qed.

Definition is_pure {A} (m : M A) : Prop := exists o, pure m o.

Lemma pure_ret {A} (a : A) : is_pure (ret a).
Proof. by exists (Some (Ok a)). Qed.

Lemma pure_fail {A} e : is_pure (@fail A e).
Proof. by exists (Some (Err e)). Qed.

Lemma pure_panic {A} : is_pure (@panic A).
Proof. by exists None. Qed.

Lemma pure_bind {A B} (m : M A) (k : A -> M B) : is_pure m -> (forall a, is_pure (k a)) -> is_pure (bind m k).
Proof.
  intros [[[a|e]|] Hm] Hk.
  - destruct (Hk a) as [o Ho]. exists o. intros adm. unfold bind. rewrite Hm. apply Ho.
  - exists (Some (Err e)). intros adm. unfold bind. by rewrite Hm.
  - exists None. intros adm. unfold bind. by rewrite Hm.
Qed.

Lemma pure_for_each {A S} (l : list A) (s : S) body :
  Forall (fun x => forall s, is_pure (body x s)) l -> is_pure (for_each l s body).
Proof.
  intros Hl. revert s. induction Hl as [|x l Hx _ IH]; intros s; [apply pure_ret|]. by apply pure_bind.
Qed.

Create HintDb pure.
#[export] Hint Resolve pure_ret pure_fail pure_panic : pure.

Lemma pure_require t ts c : is_pure (require t ts c).
Proof. unfold require. destruct (_ || _); auto with pure. Qed.
#[export] Hint Resolve pure_require : pure.

Lemma pure_infer_all l check : Forall is_pure l -> (forall t, is_pure (check t)) -> is_pure (infer_all l check).
Proof.
  intros Hl Hc. apply pure_for_each. eapply Forall_impl; [exact Hl|]. intros m Hm _. by apply pure_bind.
Qed.

Ltac purely := repeat first [apply pure_bind; [|intros] | solve [eauto with pure]].

Section Pure.
Context (bindings : list Binding).

Lemma pure_slot slot : is_pure (slot_type bindings slot).
Proof. unfold slot_type. destruct (_ !! _); auto with pure. Qed.
Hint Resolve pure_slot : pure.

Lemma pure_types t : (forall op b, is_pure (binary_type op t b)) /\ (forall op, is_pure (unary_type op t)) /\
  (forall f, is_pure (function_type f t)).
Proof. split_and!; intros []; intros; simpl; repeat case_bool_decide; simpl; purely. Qed.

Lemma value_type_pure e : is_pure (value_type bindings e).
Proof.
  induction e as [e IH] using expression_ind'.
  assert (forall l, Forall (fun c => is_pure (value_type bindings c)) l -> Forall is_pure (map (value_type bindings) l)) as Hmap.
  { intros l. by rewrite Forall_map. }
  assert (forall bs, Forall (fun c => is_pure (value_type bindings c)) (flat_map pair_list bs) ->
    Forall (fun p => is_pure p.1 /\ is_pure p.2) (map (fun p => (value_type bindings p.1, value_type bindings p.2)) bs)) as Hpairs.
  { intros bs. rewrite Forall_flat_map, Forall_map. intros H. eapply Forall_impl; [exact H|]. intros [a b] Hp.
    apply Forall_cons in Hp as [Ha Hb%Forall_inv]. done. }
  destruct e as [v|s|name|x key|x y|x start end_|op x|op x y|op xs|f xs|f arg distinct|xs|xs|bs x|x bs y|s label];
    cbn [children pushed] in IH; cbn [value_type].
  - purely.
  - purely.
  - purely.
  - apply Forall_inv in IH. purely.
  - apply Forall_cons in IH as [Hx Hy%Forall_inv]. purely.
  - apply Forall_cons in IH as [Hx IH]. apply pure_bind; [done|intros]. apply pure_bind; [purely|intros].
    apply pure_bind; [|intros; purely]. apply pure_infer_all; [|intros; purely].
    apply Forall_app in IH as [Hs He]. apply Forall_app_2.
    + destruct start; [apply Forall_inv in Hs; by repeat constructor|constructor].
    + destruct end_; [apply Forall_inv in He; by repeat constructor|constructor].
  - apply Forall_inv in IH. apply pure_bind; [done|intros]. apply pure_types.
  - apply Forall_cons in IH as [Hx Hy%Forall_inv]. apply pure_bind; [done|intros]. apply pure_bind; [done|intros]. apply pure_types.
  - apply Hmap in IH. destruct (map _ xs) as [|m1 [|m2 rest]]; [purely..|]. apply Forall_cons in IH as [H1 IH].
    apply Forall_cons in IH as [H2 IH]. repeat (apply pure_bind; [by auto with pure|intros]).
    apply pure_bind; [|intros; purely]. apply pure_infer_all; [done|intros; purely].
  - apply Hmap in IH. apply pure_bind; [|intros; apply pure_types]. apply pure_for_each. eapply Forall_impl; [exact IH|].
    intros m Hm ts. purely.
  - destruct arg as [x|]; [apply Forall_inv in IH|]; purely.
  - apply pure_bind; [|intros; purely]. apply pure_infer_all; [by apply Hmap|intros; purely].
  - apply pure_bind; [|intros; purely]. apply pure_infer_all; [|intros; purely]. rewrite Forall_map in *. done.
  - apply Forall_app in IH as [Hb Hx%Forall_inv]. apply pure_bind; [done|intros]. apply pure_for_each.
    eapply Forall_impl; [by apply Hpairs|]. intros [m1 m2] [H1 H2] ?. simpl in *. purely.
  - apply Forall_cons in IH as [Hx IH]. apply Forall_app in IH as [Hb Hy%Forall_inv]. apply pure_bind; [done|intros].
    apply pure_bind; [done|intros]. apply pure_for_each.
    eapply Forall_impl; [by apply Hpairs|]. intros [m1 m2] [H1 H2] ?. simpl in *. purely.
  - purely.
Qed.

(** The outcome of inference. *)
Definition infer (e : Expression) : option (result QueryError ValueType) := fst <$> value_type bindings e [].

Lemma value_type_infer e adm : value_type bindings e adm = (fun r => (r, adm)) <$> infer e.
Proof.
  destruct (value_type_pure e) as [o Ho]. unfold infer. rewrite !Ho. by destruct o.
Qed.
End Pure.

(** ** The values of a type *)

Definition has_type (v : Value) (t : ValueType) : Prop := t = TAny \/ v = Null \/ literal_type v = t.

Lemma has_any v : has_type v TAny.
Proof. by left. Qed.
Lemma has_null t : has_type Null t.
Proof. by right; left. Qed.
Lemma has_literal v : has_type v (literal_type v).
Proof. by right; right. Qed.

(** Every value [m] returns satisfies [P]. *)
Definition yields {A} (m : M A) (P : A -> Prop) : Prop := forall adm a adm', m adm = Some (Ok a, adm') -> P a.

Lemma yields_ret {A} (a : A) (P : A -> Prop) : P a -> yields (ret a) P.
Proof. intros H adm a' adm' [= <- _]. done. Qed.
Lemma yields_lift {A} (r : result QueryError A) (P : A -> Prop) : (forall a, r = Ok a -> P a) -> yields (lift r) P.
Proof. intros H adm a adm' [= -> _]. auto. Qed.
Lemma yields_fail {A} e (P : A -> Prop) : yields (fail e) P.
Proof. by intros adm a adm' [=]. Qed.
Lemma yields_panic {A} (P : A -> Prop) : yields panic P.
Proof. by intros adm a adm' [=]. Qed.
Lemma yields_any {A} (m : M A) : yields m (fun _ => True).
Proof. done. Qed.

Lemma yields_bind {A B} (m : M A) (k : A -> M B) (P : A -> Prop) (Q : B -> Prop) :
  yields m P -> (forall a, P a -> yields (k a) Q) -> yields (bind m k) Q.
Proof.
  intros Hm Hk adm b adm' H. unfold bind in H. destruct (m adm) as [[[a|e] adm1]|] eqn:E; [|done..].
  eapply Hk; [by eapply Hm|done].
Qed.

Lemma yields_weaken {A} (m : M A) (P Q : A -> Prop) : yields m P -> (forall a, P a -> Q a) -> yields m Q.
Proof. intros Hm H adm a adm' E. by eapply H, Hm. Qed.

Lemma yields_for_each {A S} (l : list A) (I : S -> Prop) (body : A -> S -> M S) s :
  I s -> (forall x s, x ∈ l -> I s -> yields (body x s) I) -> yields (for_each l s body) I.
Proof.
  revert s. induction l as [|x l IH]; intros s Hs Hb; [by apply yields_ret|]. simpl.
  eapply yields_bind; [apply Hb; [by left|done]|]. intros s' Hs'. apply IH; [done|]. intros y s'' Hy. apply Hb. by right.
Qed.

(** Follows a computation whose intermediate values do not matter. *)
Ltac follow := repeat first
  [ apply yields_fail | apply yields_panic | progress (unfold expected, string_argument)
  | apply yields_ret | eapply yields_bind; [apply yields_any|intros ? _] | case_match ].

Section Kinds.
Context (nan : Z) (powf : Z -> Z -> Z).

(** The type of a result of [+] from the types of its operands' values. *)
Definition sum_type (a b : ValueType) : option ValueType :=
  match a, b with
  | TNull, _ | _, TNull => Some TNull
  | TList, _ | _, TList => Some TList
  | TString, (TString | TInteger | TFloat) => Some TString
  | (TInteger | TFloat), TString => Some TString
  | TInteger, TInteger => Some TInteger
  | TInteger, TFloat | TFloat, (TInteger | TFloat) => Some TFloat
  | _, _ => None
  end.

Lemma add_type `{TextLibrary} max a b :
  yields (add nan powf max a b) (fun v => sum_type (literal_type a) (literal_type b) = Some (literal_type v)).
Proof.
  destruct a as [| | | |[]|[]| |[]|], b as [| | | |[]|[]| |[]|]; simpl; unfold binary; simpl;
    try (apply yields_lift; intros v; simpl; unfold integer_arithmetic; simpl;
         try (destruct (i64_checked _)); by intros [= <-]);
    follow; done.
Qed.

Definition is_arithmetic (op : Binary) : bool :=
  match op with
  | Add | Subtract | Multiply | Divide | Modulo | Power => true
  | _ => false
  end.

Lemma in_list_kind a xs u : in_list a xs u = Null \/ literal_type (in_list a xs u) = TBoolean.
Proof. revert u. induction xs as [|x xs IH]; intros []; simpl; auto; destruct (equals a x) as [[]|]; auto. Qed.

(** The other operators: a Boolean, or a number from numbers. *)
Lemma binary_kind op a b v : op <> Add -> binary nan powf op a b = Ok v -> v = Null \/
  (is_arithmetic op = false /\ literal_type v = TBoolean) \/
  (is_arithmetic op = true /\ is_number a = true /\ is_number b = true /\
   literal_type v = if bool_decide (op = Power) || negb (bool_decide (literal_type a = TInteger)) ||
     negb (bool_decide (literal_type b = TInteger)) then TFloat else TInteger).
Proof.
  intros Hop. assert (forall t, truth t = Null \/ literal_type (truth t) = TBoolean) as Ht by (intros [[]|]; auto).
  destruct op; try done; unfold binary; cbn [is_arithmetic compare_op string_op].
  all: try (intros [= <-]; destruct (Ht (equals a b)); destruct (Ht (negb <$> equals a b)); naive_solver).
  all: try (destruct b; try done; intros [= <-]; [by left|];
    match goal with |- context [in_list ?x ?l _] => destruct (in_list_kind x l false) end; naive_solver).
  all: destruct (is_null a || is_null b); [intros [= <-]; by left|].
  all: try (destruct (is_number a && is_number b && (is_nan_value a || is_nan_value b)); intros [= <-]; [naive_solver|];
    match goal with |- context [truth ?t] => destruct (Ht t) end; naive_solver).
  all: try (destruct a, b; try (intros [= <-]; naive_solver)).
  all: unfold integer_arithmetic, float; simpl; intros H; right; right; split_and!; try done.
  all: repeat case_match; simplify_eq/=; try done.
  all: try (destruct (i64_checked _) || destruct (i64_checked_rem _ _)); by simplify_eq/=.
Qed.
End Kinds.

(** ** Soundness *)

(** Inference ignores that [+] concatenates whatever it is given: a string or a
    float plus an operand of unknown type is typed as the known one. *)
Definition uncertain (a b : ValueType) : bool :=
  (bool_decide (a = TAny) && (bool_decide (b = TString) || bool_decide (b = TFloat))) ||
  (bool_decide (b = TAny) && (bool_decide (a = TString) || bool_decide (a = TFloat))).

Definition addition_known (bindings : list Binding) (e : Expression) : bool :=
  match e with
  | EBinary Add a b =>
      match infer bindings a, infer bindings b with
      | Some (Ok ta), Some (Ok tb) => negb (uncertain ta tb)
      | _, _ => true
      end
  | _ => true
  end.

(** No such addition anywhere in the expression. *)
Definition definite (bindings : list Binding) (e : Expression) : bool := forallb (addition_known bindings) (nodes e).

(** A row whose cells hold values of their bindings' types. *)
Definition row_typed (bindings : list Binding) (row : Row) : Prop :=
  forall i b v, bindings !! i = Some b -> row !! i = Some v -> has_type v (QuerySchema.value_type b).

Lemma literal_null v : literal_type v = TNull -> v = Null.
Proof. by destruct v as [| | | | | | |[]|]. Qed.

Section Sound.
Context `{TextLibrary} (nan : Z) (powf : Z -> Z -> Z).
Context (graph : GraphValues) (parameters : list (bytes * Value)) (max : Z).

Lemma checked_yields v : yields (checked max v) (fun w => w = v).
Proof. unfold checked. repeat (eapply yields_bind; [apply yields_any|intros ? _]). by apply yields_ret. Qed.

Lemma checked_typed v t : has_type v t -> yields (checked max v) (fun w => has_type w t).
Proof. intros Hv. eapply yields_weaken; [apply checked_yields|]. by intros ? ->. Qed.

(** What [require] leaves possible. *)
Lemma require_yields t ts c : yields (require t ts c) (fun _ => t = TAny \/ t = TNull \/ t ∈ ts).
Proof.
  unfold require. destruct (bool_decide_reflect (t = TAny)), (bool_decide_reflect (t = TNull)), (bool_decide_reflect (t ∈ ts));
    simpl; try apply yields_fail; apply yields_ret; auto.
Qed.

Lemma unary_typed op x t t' adm adm' v : unary_type op t adm = Some (Ok t', adm') -> has_type x t ->
  unary op x = Ok v -> has_type v t'.
Proof.
  intros Ht Hx Hv. destruct op; simpl in *; unfold bind, require, ret, fail, lift in Ht; try (destruct (_ || _)); simplify_eq/=.
  - destruct (truth_of x) as [[[]|]|]; simplify_eq/=; [by right; right|by right; right|by right; left].
  - destruct x; simplify_eq/=; try done; try (destruct (i64_checked _); simplify_eq/=);
      (destruct Hx as [|[|]]; [by left|done|by right; right]).
  - by destruct x; simplify_eq/=.
  - by right; right.
  - by right; right.
Qed.

Lemma bind_ok {A B} (m : M A) (k : A -> M B) adm b adm' : bind m k adm = Some (Ok b, adm') ->
  exists a adm1, m adm = Some (Ok a, adm1) /\ k a adm1 = Some (Ok b, adm').
Proof. unfold bind. destruct (m adm) as [[[a|e] adm1]|]; [|done..]. intros E. by exists a, adm1. Qed.

(** The numeric types [+], [-], ... accept. *)
Definition numeric_type (t : ValueType) : Prop := t = TAny \/ t = TNull \/ t ∈ [TInteger; TFloat].

Lemma arithmetic_inv op a b adm t adm' : is_arithmetic op = true -> (op = Add -> a <> TList /\ b <> TList /\ a <> TString /\ b <> TString) ->
  binary_type op a b adm = Some (Ok t, adm') ->
  numeric_type a /\ numeric_type b /\
  t = if bool_decide (a = TFloat) || bool_decide (b = TFloat) || bool_decide (op = Power) then TFloat
      else if bool_decide (a = TInteger) && bool_decide (b = TInteger) then TInteger else TAny.
Proof.
  intros Hop Hadd H'.
  assert ((do _ <- require a [TInteger; TFloat] "syntax_error";
           do _ <- require b [TInteger; TFloat] "syntax_error";
           ret (if bool_decide (a = TFloat) || bool_decide (b = TFloat) || bool_decide (op = Power) then TFloat
                else if bool_decide (a = TInteger) && bool_decide (b = TInteger) then TInteger else TAny)) adm = Some (Ok t, adm')) as E.
  { destruct op; try done. destruct Hadd as (? & ? & ? & ?); [done|]. unfold binary_type in H'.
    by rewrite (bool_decide_false (a = TList)), (bool_decide_false (b = TList)), (bool_decide_false (a = TString)), (bool_decide_false (b = TString)) in H'. }
  apply bind_ok in E as (? & ? & Ha%require_yields & E). apply bind_ok in E as (? & ? & Hb%require_yields & E).
  unfold ret in E. by simplify_eq/=.
Qed.

Lemma binary_typed op a b ta tb t adm adm' v : op <> Add -> binary_type op ta tb adm = Some (Ok t, adm') ->
  has_type a ta -> has_type b tb -> binary nan powf op a b = Ok v -> has_type v t.
Proof.
  intros Hop Ht Ha Hb Hv. destruct (binary_kind nan powf op a b v Hop Hv) as [->|[[Hk Hv']|(Hk & Hna & Hnb & Hv')]]; [apply has_null|..].
  - assert (t = TBoolean) as ->; [|by right; right].
    destruct op; try done; simpl in Ht; unfold bind, require, ret, fail, lift in Ht; try (destruct (_ || _)); by simplify_eq/=.
  - apply arithmetic_inv in Ht as (_ & _ & ->); [|done|done].
    destruct a; try done; destruct b; try done; destruct Ha as [->|[?|<-]], Hb as [->|[?|<-]]; try done;
      destruct op; try done; first [by left|right; right; rewrite Hv'; done].
Qed.

(** The table of [+]: a non-null result has the inferred type. *)
Lemma sum_table x y z ta tb t adm adm' : sum_type x y = Some z -> z <> TNull ->
  ta = TAny \/ ta = x -> tb = TAny \/ tb = y -> uncertain ta tb = false ->
  binary_type Add ta tb adm = Some (Ok t, adm') -> t = TAny \/ z = t.
Proof.
  intros Hz Hne [->| ->] [->| ->] Hu Ht; destruct x, y; try discriminate Hz; try discriminate Hu; injection Hz as <-;
    try (by destruct Hne); cbv in Ht; injection Ht as <- _; auto.
Qed.

Lemma sum_typed ta tb a b t adm adm' v : binary_type Add ta tb adm = Some (Ok t, adm') -> uncertain ta tb = false ->
  has_type a ta -> has_type b tb -> sum_type (literal_type a) (literal_type b) = Some (literal_type v) -> has_type v t.
Proof.
  intros Ht Hu Ha Hb Hv. destruct (decide (literal_type v = TNull)) as [E|Hv0]; [rewrite (literal_null v E); apply has_null|].
  assert (a <> Null /\ b <> Null) as [Ha0 Hb0].
  { split; intros ->; destruct Hv0; simpl in Hv; [|destruct (literal_type a)]; simpl in Hv; congruence. }
  destruct (sum_table (literal_type a) (literal_type b) (literal_type v) ta tb t adm adm'); try done;
    unfold has_type in *; naive_solver.
Qed.

Lemma function_typed f v rest t0 t adm adm' : function_type f t0 adm = Some (Ok t, adm') -> has_type v t0 ->
  yields (function nan graph max f (v :: rest)) (fun w => has_type w t).
Proof.
  intros Ht Hv. unfold function. case_bool_decide as Hex.
  { subst f. simpl in Ht. unfold ret in Ht. simplify_eq/=. apply yields_ret. by right; right. }
  destruct (is_null v) eqn:En; [apply yields_ret, has_null|].
  assert (t0 = TAny \/ literal_type v = t0) as Hv' by (destruct Hv as [|[->|]]; auto; done).
  destruct f; try done; simpl in Ht; unfold bind, require, ret, fail, lift in Ht; try (destruct (_ || _)); simplify_eq/=.
  all: try solve [destruct v as [| | | | | | |[]|]; follow; unfold to_integer_text; repeat case_match; first [by right; right|by right; left]].
  all: try solve [eapply yields_weaken; [apply yields_any|by left]].
  - destruct v; follow. all: destruct Hv' as [->|<-]; [by left|by right; right].
  - destruct v; follow. all: destruct Hv' as [->|<-]; [by left|by right; right].
Qed.

(** ** Aggregates, connectives and branches *)

Definition state_of (f : Aggregate) (s : State) : Prop :=
  match f, s with
  | Count, SCount _ | Avg, SAverage _ | Collect, SCollect _ => True
  | (Sum | Minimum | Maximum), _ => True
  | _, _ => False
  end.

Lemma push_state f acc v items : state_of f (state acc) ->
  yields (push nan powf acc v items) (fun acc' => state_of f (state acc')).
Proof.
  intros Hs. unfold push. eapply yields_bind; [apply yields_any|intros _ _].
  destruct (is_null v); [by apply yields_ret|]. eapply yields_bind; [apply yields_any|intros [] _]; [by apply yields_ret|].
  eapply yields_bind; [apply yields_any|intros _ _].
  eapply (yields_bind _ _ (fun next => state_of f (retain next v))).
  - destruct (state acc) as [n|w|a|w|w|ws]; simpl.
    + eapply yields_bind; [apply yields_any|intros c _]. by apply yields_ret.
    + destruct (is_number v); [|apply yields_fail]. eapply yields_bind; [apply yields_any|intros c _]. by apply yields_ret.
    + eapply yields_bind; [apply yields_any|intros r _]. eapply yields_bind; [apply yields_any|intros c _]. by apply yields_ret.
    + apply yields_ret. simpl. by destruct (_ || _), f.
    + apply yields_ret. simpl. by destruct (_ || _), f.
    + by apply yields_ret.
  - intros next Hn. repeat (eapply yields_bind; [apply yields_any|intros ? _]). by apply yields_ret.
Qed.

Lemma finish_typed f acc : state_of f (state acc) -> has_type (finish nan acc) (aggregate_type f).
Proof.
  unfold finish. destruct f, (state acc) as [n|w|a|w|w|ws]; simpl; intros Hs; try done; try (by left); try (by right; right).
  unfold average_finish. destruct (_ =? _); [apply has_null|by right; right].
Qed.

Lemma aggregate_typed f argument distinct group :
  yields (aggregate nan powf max f argument distinct group) (fun v => has_type v (aggregate_type f)).
Proof.
  unfold aggregate. destruct group as [rows|]; [|apply yields_fail].
  eapply (yields_bind _ _ (fun acc => state_of f (state acc))).
  - apply yields_for_each; [by destruct f|]. intros row acc _ Hacc.
    eapply yields_bind; [apply yields_any|intros v _]. eapply yields_bind; [apply yields_any|intros _ _]. by apply push_state.
  - intros acc Hacc. by apply yields_ret, finish_typed.
Qed.

Lemma connective_loop_typed op r ms : ms = [] \/ yields (connective_loop op r ms) (fun v => has_type v TBoolean).
Proof.
  assert (forall r ms, has_type r TBoolean -> yields (connective_loop op r ms) (fun v => has_type v TBoolean)) as Hloop.
  { intros r' ms'. revert r'. induction ms' as [|m ms' IH]; intros r' Hr; simpl; [by apply yields_ret|].
    eapply yields_bind; [apply yields_any|intros [] _]; [by apply yields_ret|].
    repeat (eapply yields_bind; [apply yields_any|intros ? _]). apply IH.
    destruct (connective_result _ _ _); [by right; right|by right; left]. }
  destruct ms as [|m ms]; [by left|right]. simpl. intros adm v adm' E.
  apply bind_ok in E as (stop & adm1 & Hs & E). destruct stop.
  - unfold ret in E. simplify_eq/=. unfold decided, bind, lift, ret in Hs. destruct op; [| |done].
    all: destruct v; try discriminate Hs; first [apply has_null|by right; right].
  - revert E. set (body := bind remaining _). assert (yields body (fun v => has_type v TBoolean)) as Hbody; [|apply Hbody].
    unfold body. repeat (eapply yields_bind; [apply yields_any|intros ? _]). apply Hloop.
    destruct (connective_result _ _ _); [by right; right|by right; left].
Qed.

(** [s] has no more values than [t]. *)
Definition below (s t : ValueType) : Prop := forall v, has_type v s -> has_type v t.

Lemma below_refl t : below t t.
Proof. by intros v. Qed.

Lemma below_null t : below TNull t.
Proof. intros v [H0|[->|E]]; [done|apply has_null|rewrite (literal_null v E); apply has_null]. Qed.

Lemma join_below s t : below s (join s t) /\ below t (join s t).
Proof.
  unfold join. case_bool_decide as H1; [subst; auto using below_refl, below_null|].
  destruct (bool_decide_reflect (t = TNull)) as [->|H2]; simpl; [auto using below_refl, below_null|].
  case_bool_decide as H3; simpl; [subst; auto using below_refl|]. split; intros v _; apply has_any.
Qed.

Lemma case_types (body : M ValueType * M ValueType -> ValueType -> M ValueType) bs r adm t adm' :
  (forall b r adm r' adm', body b r adm = Some (Ok r', adm') ->
     exists u adm1 adm2, b.2 adm1 = Some (Ok u, adm2) /\ r' = join r u) ->
  for_each bs r body adm = Some (Ok t, adm') ->
  below r t /\ Forall (fun b => exists u adm1 adm2, b.2 adm1 = Some (Ok u, adm2) /\ below u t) bs.
Proof.
  intros Hbody. revert r adm. induction bs as [|b bs IH]; intros r adm E; simpl in E.
  - unfold ret in E. simplify_eq/=. split; [by intros v|constructor].
  - apply bind_ok in E as (r' & adm1 & Hb & E). apply Hbody in Hb as (u & a1 & a2 & Hu & ->).
    apply IH in E as [Hr Hbs]. destruct (join_below r u) as [J1 J2]. split; [intros v Hv; auto|].
    constructor; [|done]. exists u, a1, a2. split; [done|]. intros v Hv. auto.
Qed.

Lemma first_branch_typed bs otherwise t : yields otherwise (fun v => has_type v t) ->
  Forall (fun b => yields b.2 (fun v => has_type v t)) bs -> yields (first_branch max bs otherwise) (fun v => has_type v t).
Proof.
  intros Ho. induction 1 as [|[test value] bs Hb _ IH]; simpl.
  - eapply yields_bind; [exact Ho|]. intros v Hv. by apply checked_typed.
  - eapply yields_bind; [apply yields_any|intros [] _]; done.
Qed.

Lemma arguments_head m ms (P : Value -> Prop) : yields m P ->
  yields (arguments (m :: ms)) (fun vs => exists v rest, vs = v :: rest /\ P v).
Proof.
  intros Hm. unfold arguments. eapply yields_bind; [apply yields_any|intros _ _]. cbn [for_each].
  eapply (yields_bind _ _ (fun vs => exists v rest, vs = v :: rest /\ P v)).
  - eapply yields_bind; [apply yields_any|intros _ _]. eapply yields_bind; [exact Hm|intros v Hv].
    eapply yields_bind; [apply yields_any|intros _ _]. apply yields_ret. by exists v, [].
  - intros vs Hvs. apply yields_for_each; [done|]. intros x s _ (v & rest & -> & Hv).
    repeat (eapply yields_bind; [apply yields_any|intros ? _]). apply yields_ret. eexists _, _. split; [done|done].
Qed.

Lemma types_head (m : M ValueType) ms adm ts adm' :
  for_each (m :: ms) [] (fun infer types => do t <- infer; ret (types ++ [t])) adm = Some (Ok ts, adm') ->
  exists t adm1, m adm = Some (Ok t, adm1) /\ head ts = Some t.
Proof.
  intros E. cbn [for_each] in E. apply bind_ok in E as (ts0 & adm1 & E0 & E). apply bind_ok in E0 as (t & adm2 & Hm & E0).
  unfold ret in E0. simplify_eq/=. exists t, adm1. split; [done|].
  assert (forall ms (ts0 : list ValueType), head ts0 = Some t -> yields (for_each ms ts0 (fun (infer : M ValueType) types => do t <- infer; ret (types ++ [t])))
    (fun ts => head ts = Some t)) as Hl.
  { intros l ts0 Hts. apply yields_for_each; [done|]. intros x s _ Hs. eapply yields_bind; [apply yields_any|intros u _].
    apply yields_ret. by destruct s. }
  by eapply Hl in E.
Qed.

(** ** Every expression *)

Context (bindings : list Binding).

Notation eval := (eval nan powf graph parameters max).

Definition group_typed (group : option (list Row)) : Prop := forall rows, group = Some rows -> Forall (row_typed bindings) rows.

Definition typed (e : Expression) : Prop := forall t adm adm',
  value_type bindings e adm = Some (Ok t, adm') -> definite bindings e = true ->
  forall row group, row_typed bindings row -> group_typed group -> yields (eval e row group) (fun v => has_type v t).

Lemma definite_child e c : c ∈ children e -> definite bindings e = true -> definite bindings c = true.
Proof.
  unfold definite. rewrite (nodes_children e). simpl. intros Hc [_ He]%andb_true_iff.
  rewrite forallb_forall in He |- *. intros x Hx. apply He. apply in_flat_map. exists c. split; [by apply list_elem_of_In|done].
Qed.

Lemma pair_second (bs : list (Expression * Expression)) p : p ∈ bs -> p.2 ∈ flat_map pair_list bs.
Proof. intros Hp. apply list_elem_of_In, in_flat_map. exists p. split; [by apply list_elem_of_In|simpl; auto]. Qed.

(** A CASE whose branches' types are below [t]. *)
Lemma branches_typed e bs (tests : Expression * Expression -> M bool) t row group :
  (forall p, p ∈ bs -> p.2 ∈ children e) -> definite bindings e = true -> Forall typed (children e) ->
  row_typed bindings row -> group_typed group ->
  Forall (fun b => exists u adm1 adm2, b.2 adm1 = Some (Ok u, adm2) /\ below u t)
    (map (fun p => (value_type bindings p.1, value_type bindings p.2)) bs) ->
  Forall (fun b => yields b.2 (fun v => has_type v t)) (map (fun b => (tests b, eval b.2 row group)) bs).
Proof.
  intros Hin Hd Hall Hr Hg H'. rewrite Forall_map in H'. rewrite Forall_map.
  rewrite Forall_forall in H'. rewrite Forall_forall in Hall. apply Forall_forall. intros p Hp.
  destruct (H' p Hp) as (u & adm1 & adm2 & Hu & Hbelow). simpl in *.
  eapply yields_weaken; [eapply (Hall p.2); eauto; by eapply definite_child, Hd; auto|]. exact Hbelow.
Qed.

Lemma eval_typed e : typed e.
Proof.
  induction e as [e IH] using expression_ind'. intros t adm adm' Ht Hd row group Hr Hg.
  assert (forall c u a1 a2, c ∈ children e -> value_type bindings c a1 = Some (Ok u, a2) ->
    yields (eval c row group) (fun v => has_type v u)) as Hc.
  { intros c u a1 a2 Hin Hu. rewrite Forall_forall in IH. eapply IH; eauto. by eapply definite_child. }
  destruct e as [v|s|name|x key|x y|x start end_|op x|op x y|op xs|f xs|f arg distinct|xs|xs|bs x|x bs y|s label];
    cbn [value_type] in Ht; cbn [QueryEval.eval].
  - unfold ret in Ht. simplify_eq/=. eapply yields_bind; [apply checked_yields|]. intros w ->. apply checked_typed, has_literal.
  - unfold slot_type in Ht. destruct (bindings !! Z.to_nat s) as [b|] eqn:Eb; [|done]. unfold ret in Ht. simplify_eq/=.
    destruct (row !! Z.to_nat s) as [v|] eqn:Ev; [|apply yields_fail].
    eapply yields_bind; [apply checked_yields|]. intros w ->. apply checked_typed. by eapply Hr.
  - unfold ret in Ht. simplify_eq/=. eapply yields_weaken; [apply yields_any|]. intros; apply has_any.
  - repeat (apply bind_ok in Ht as (? & ? & _ & Ht)). unfold ret in Ht. simplify_eq/=.
    eapply yields_weaken; [apply yields_any|]. intros; apply has_any.
  - repeat (apply bind_ok in Ht as (? & ? & _ & Ht)). unfold ret in Ht. simplify_eq/=.
    eapply yields_weaken; [apply yields_any|]. intros; apply has_any.
  - repeat (apply bind_ok in Ht as (? & ? & _ & Ht)). unfold ret in Ht. simplify_eq/=.
    eapply yields_bind; [apply yields_any|intros v _]. destruct (is_null v); [apply yields_ret, has_null|].
    eapply yields_bind; [apply yields_any|intros _ _]. destruct v; follow.
    all: first [apply has_null|by right; right].
  - apply bind_ok in Ht as (u & a1 & Hx & Ht). eapply yields_bind; [eapply Hc; [|exact Hx]; cbn [children pushed]; set_solver|]. intros v Hv.
    eapply (yields_bind _ _ (fun w => has_type w t)); [apply yields_lift; intros w Hw; eapply unary_typed; [exact Ht|exact Hv|exact Hw]|].
    intros w. apply checked_typed.
  - apply bind_ok in Ht as (u & a1 & Hx & Ht). apply bind_ok in Ht as (u' & a2 & Hy & Ht).
    eapply yields_bind; [eapply Hc; [|exact Hx]; cbn [children pushed]; set_solver|]. intros v Hv. eapply yields_bind; [apply yields_any|intros _ _].
    eapply yields_bind; [eapply Hc; [|exact Hy]; cbn [children pushed]; set_solver|]. intros w Hw. eapply yields_bind; [apply yields_any|intros _ _].
    eapply (yields_bind _ _ (fun z => has_type z t)); [|intros z; apply checked_typed].
    case_bool_decide as Hop.
    + subst op. eapply yields_weaken; [apply add_type|]. intros z Hz. eapply sum_typed; [exact Ht| |exact Hv|exact Hw|exact Hz].
      unfold definite in Hd. cbn [nodes forallb addition_known] in Hd. apply andb_true_iff in Hd as [Hd _].
      rewrite value_type_infer in Hx, Hy. destruct (infer bindings x) as [[]|], (infer bindings y) as [[]|]; simplify_eq/=.
      by apply negb_true_iff.
    + apply yields_lift. intros z Hz. eapply binary_typed; [exact Hop|exact Ht|exact Hv|exact Hw|exact Hz].
  - destruct xs as [|x [|y rest]]; [done|done|]. cbn [map] in Ht. repeat (apply bind_ok in Ht as (? & ? & _ & Ht)).
    unfold ret in Ht. simplify_eq/=. cbn [connective].
    eapply (yields_bind _ _ (fun z => has_type z TBoolean)); [|intros z; apply checked_typed].
    eapply yields_bind; [apply yields_any|intros r _]. by destruct (connective_loop_typed op r (eval y row group :: map (fun e => eval e row group) rest)).
  - apply bind_ok in Ht as (ts & a1 & Hts & Ht). destruct (decide (f = FCoalesce)) as [->|Hf].
    { simpl in Ht. unfold ret in Ht. simplify_eq/=. eapply yields_weaken; [apply yields_any|]. intros; apply has_any. }
    assert (yields (do args <- arguments (map (fun e => eval e row group) xs); do _ <- remaining;
      do v <- function nan graph max f args; checked max v) (fun v => has_type v t)); [|by destruct f].
    destruct xs as [|x xs].
    + eapply (yields_bind _ _ (fun args => args = [])); [|intros args ->].
      * unfold arguments. eapply yields_bind; [apply yields_any|intros _ _]. by apply yields_ret.
      * eapply yields_bind; [apply yields_any|intros _ _]. eapply yields_bind; [apply yields_fail with (P := fun _ => False)|done].
    + apply types_head in Hts as (u & a2 & Hu & Eh). rewrite Eh in Ht. simpl in Ht.
      eapply yields_bind; [apply arguments_head; eapply Hc; [|exact Hu]; cbn [children pushed]; set_solver|]. intros vs (v & rest & -> & Hv).
      eapply yields_bind; [apply yields_any|intros _ _].
      eapply yields_bind; [eapply function_typed; [exact Ht|exact Hv]|]. intros w. apply checked_typed.
  - apply bind_ok in Ht as (? & ? & _ & Ht). unfold ret in Ht. simplify_eq/=.
    eapply yields_bind; [apply aggregate_typed|]. intros w. apply checked_typed.
  - apply bind_ok in Ht as (? & ? & _ & Ht). unfold ret in Ht. simplify_eq/=.
    eapply yields_bind; [apply yields_any|intros _ _]. eapply yields_bind; [apply yields_any|intros vs _].
    apply checked_typed. by right; right.
  - apply bind_ok in Ht as (? & ? & _ & Ht). unfold ret in Ht. simplify_eq/=.
    eapply yields_bind; [apply yields_any|intros _ _]. eapply yields_bind; [apply yields_any|intros vs _].
    apply checked_typed. by right; right.
  - apply bind_ok in Ht as (u & a1 & Hx & Ht). apply case_types in Ht as [Hu Hbs].
    2: { intros b r a r' a' E. apply bind_ok in E as (? & ? & _ & E). apply bind_ok in E as (? & ? & _ & E).
         apply bind_ok in E as (u' & ? & Hu' & E). unfold ret in E. simplify_eq/=. eauto 10. }
    apply first_branch_typed.
    + eapply yields_weaken; [eapply Hc; [|exact Hx]|exact Hu]. cbn [children]. set_solver.
    + eapply (branches_typed (ECase bs x)); try done. intros p Hp%pair_second. cbn [children]. set_solver.
  - apply bind_ok in Ht as (u0 & a0 & Hx & Ht). apply bind_ok in Ht as (u & a1 & Hy & Ht). apply case_types in Ht as [Hu Hbs].
    2: { intros b r a r' a' E. apply bind_ok in E as (? & ? & _ & E).
         apply bind_ok in E as (u' & ? & Hu' & E). unfold ret in E. simplify_eq/=. eauto 10. }
    eapply yields_bind; [apply yields_any|intros v _]. eapply yields_bind; [apply yields_any|intros _ _].
    apply first_branch_typed.
    + eapply yields_weaken; [eapply Hc; [|exact Hy]|exact Hu]. cbn [children]. set_solver.
    + eapply (branches_typed (ESimpleCase x bs y)); try done. intros p Hp%pair_second. cbn [children]. set_solver.
  - repeat (apply bind_ok in Ht as (? & ? & _ & Ht)). unfold ret in Ht. simplify_eq/=.
    follow. all: first [apply has_null|by right; right].
Qed.
End Sound.

(** [C28] Type inference is sound: where it gives an expression a type, every value
    the evaluator returns for it is null or of that type, in every row whose cells
    hold their bindings' types (and in every such group) and whatever memory is
    refused, provided no [+] joins a string or a float with an operand of unknown
    type. *)
Theorem types_sound `{TextLibrary} nan powf graph parameters max bindings e t row group admissions v rest :
  infer bindings e = Some (Ok t) -> definite bindings e = true ->
  row_typed bindings row -> group_typed bindings group ->
  eval nan powf graph parameters max e row group admissions = Some (Ok v, rest) -> has_type v t.
Proof.
  intros Ht Hd Hr Hg Hv. assert (value_type bindings e [] = Some (Ok t, [])) as Ht' by (by rewrite value_type_infer, Ht).
  by eapply (eval_typed nan powf graph parameters max bindings e t).
Qed.

(** [CASE WHEN i < 3 THEN 'n' + i ELSE 'big' END], a string in both branches. *)
Definition sample_case : Expression :=
  ECase [(EBinary Less (ESlot 1) (ELiteral (Integer 3)), EBinary Add (ELiteral (Str (lit "n"))) (ESlot 1))]
    (ELiteral (Str (lit "big"))).

Lemma types_sound_witness :
  eval 0 (fun x _ => x) sample_graph [] 10 sample_case [EntityValue (Node 7); Integer 2] None [] = Some (Ok (Str (lit "n2")), []) /\
  has_type (Str (lit "n2")) TString.
Proof.
  split; [vm_compute; reflexivity|].
  apply (types_sound 0 (fun x _ => x) sample_graph [] 10 sample_bindings sample_case TString
    [EntityValue (Node 7); Integer 2] None [] (Str (lit "n2")) []); [vm_compute; reflexivity..| | |vm_compute; reflexivity].
  - intros [|[|i]] b v; simpl; intros ? ?; simplify_eq/=; by right; right.
  - done.
Defined.

(** Without that proviso inference is wrong: a string plus a parameter is typed as
    a string, but a list parameter makes it a list. *)
Lemma addition_mistyped :
  let e := EBinary Add (ELiteral (Str (lit "x"))) (EParameter (lit "p")) in
  infer [] e = Some (Ok TString) /\
  eval 0 (fun x _ => x) sample_graph [(lit "p", List [Integer 1])] 10 e [] None [] =
    Some (Ok (List [Str (lit "x"); Integer 1]), []).
Proof. split; vm_compute; reflexivity. Qed.

End QueryTypes.
