(* ===== verification/QueryLayout.v ===== *)
(** Row layouts: [RowLayout::new] of crates/planner/src/relational/layout.rs.

    Each binding is live from the first operator that names it to the last; the
    layout gives every live binding a physical cell and reuses the cells whose
    bindings are dead. The [BinaryHeap] of reversed pairs is the list of its
    members in ascending order, whose head is what [peek] and [pop] see. [None] is
    a panic: an index out of bounds, or the assertion on free cells. *)
From S2P Require Import Prelude BTree.

Open Scope Z_scope.

Module QueryLayout.

(** The slots an operator names, in the order the scopes are scanned. *)
Notation Scope := (list Z) (only parsing).

Record RowLayout := { layout_cells : list (option Z); layout_width : Z }.

(** ** Lifetimes *)

Notation Lifetimes := (list (option (Z * Z))) (only parsing).

(** One slot of one operator. *)
Definition touch (lifetimes : Lifetimes) (operator slot : Z) : option Lifetimes :=
  lifetime ← lifetimes !! Z.to_nat slot;
  Some (<[Z.to_nat slot := Some (match lifetime with
                                 | None => (operator, operator)
                                 | Some (first, _) => (first, operator)
                                 end)]> lifetimes).

Fixpoint touch_all (lifetimes : Lifetimes) (operator : Z) (scope : Scope) : option Lifetimes :=
  match scope with
  | [] => Some lifetimes
  | slot :: scope => lifetimes ← touch lifetimes operator slot; touch_all lifetimes operator scope
  end.

Fixpoint scan (lifetimes : Lifetimes) (operator : Z) (scopes : list Scope) : option Lifetimes :=
  match scopes with
  | [] => Some lifetimes
  | scope :: scopes => lifetimes ← touch_all lifetimes operator scope; scan lifetimes (operator + 1) scopes
  end.

(** ** Intervals *)

(** First operator, slot and last operator of a binding. *)
Notation Interval := (Z * Z * Z)%type (only parsing).

Fixpoint intervals_from (slot : Z) (lifetimes : Lifetimes) : list Interval :=
  match lifetimes with
  | [] => []
  | Some (first, last) :: lifetimes => (first, slot, last) :: intervals_from (slot + 1) lifetimes
  | None :: lifetimes => intervals_from (slot + 1) lifetimes
  end.

Definition heap_cmp (a b : Z * Z) : comparison := then_with (a.1 ?= b.1) (a.2 ?= b.2).
Definition interval_cmp (a b : Interval) : comparison := then_with (heap_cmp a.1 b.1) (a.2 ?= b.2).

(** ** Assignment *)

(** The loop that frees the cells of intervals ending before [first]. *)
Fixpoint release (first : Z) (active : list (Z * Z)) (free : list Z) : option (list (Z * Z) * list Z) :=
  match active with
  | (end_, cell) :: rest =>
      if end_ <? first then
        if BTree.contains Z.compare cell free then None
        else release first rest (BTree.set_insert Z.compare cell free)
      else Some (active, free)
  | [] => Some ([], free)
  end.

Fixpoint assign (intervals : list Interval) (active : list (Z * Z)) (free : list Z)
    (cells : list (option Z)) (width : Z) : option RowLayout :=
  match intervals with
  | [] => Some {| layout_cells := cells; layout_width := width |}
  | (first, slot, last) :: intervals =>
      '(active, free) ← release first active free;
      let '(cell, free, width) :=
        match free with
        | cell :: free => (cell, free, width)
        | [] => (width, [], width + 1)
        end in
      _ ← cells !! Z.to_nat slot;
      assign intervals (BTree.sort_insert heap_cmp (last, cell) active) free
        (<[Z.to_nat slot := Some cell]> cells) width
  end.

(** [RowLayout::new] over the scopes of the contracts. *)
Definition layout_of (bindings : Z) (scopes : list Scope) : option RowLayout :=
  lifetimes ← scan (replicate (Z.to_nat bindings) None) 0 scopes;
  assign (BTree.sort_by interval_cmp (intervals_from 0 lifetimes)) [] [] (replicate (Z.to_nat bindings) None) 0.

(** [RowLayout::cell]. *)
Definition cell (self : RowLayout) (slot : Z) : option Z := mjoin (layout_cells self !! Z.to_nat slot).

(** ** What lifetimes are *)

Definition occurs (scopes : list Scope) (slot t : Z) : Prop :=
  0 <= t /\ exists scope, scopes !! Z.to_nat t = Some scope /\ slot ∈ scope.

(** Between its first and last occurrence. *)
Definition live (scopes : list Scope) (slot t : Z) : Prop :=
  exists t1 t2, occurs scopes slot t1 /\ occurs scopes slot t2 /\ t1 <= t <= t2.

(** The entry of a slot spans exactly the occurrences [occ]. *)
Definition spans (entry : option (Z * Z)) (occ : Z -> Prop) : Prop :=
  match entry with
  | None => forall t, ~ occ t
  | Some (first, last) => occ first /\ occ last /\ forall t, occ t -> first <= t <= last
  end.

Definition spans_all (bindings : Z) (lifetimes : Lifetimes) (occ : Z -> Z -> Prop) : Prop :=
  length lifetimes = Z.to_nat bindings /\
  forall slot, 0 <= slot < bindings -> exists entry, lifetimes !! Z.to_nat slot = Some entry /\ spans entry (occ slot).

Lemma touch_spans bindings lifetimes occ operator slot : spans_all bindings lifetimes occ ->
  (forall s t, occ s t -> t <= operator) -> 0 <= slot < bindings ->
  exists lifetimes', touch lifetimes operator slot = Some lifetimes' /\
    spans_all bindings lifetimes' (fun s t => occ s t \/ (s = slot /\ t = operator)).
Proof.
  intros [Hlen Hall] Hbound Hslot. unfold touch. destruct (Hall slot Hslot) as (entry & He & Hs). rewrite He.
  eexists. split; [done|]. split; [by rewrite length_insert|]. intros s Hr. destruct (decide (s = slot)) as [->|Hne].
  - rewrite list_lookup_insert_eq by (by eapply lookup_lt_Some). eexists. split; [done|].
    destruct entry as [[first last]|]; simpl in *.
    + destruct Hs as (H1 & H2 & H3). split_and!; [by left|by right|]. intros t [Ht|[_ ->]]; [|by specialize (Hbound _ _ H1)].
      specialize (H3 t Ht). specialize (Hbound _ _ Ht). lia.
    + split_and!; [by right|by right|]. intros t [Ht|[_ ->]]; [by destruct (Hs t)|lia].
  - rewrite list_lookup_insert_ne by lia. destruct (Hall s Hr) as (entry' & He' & Hs'). exists entry'. split; [done|].
    destruct entry' as [[first last]|]; simpl in *; naive_solver.
Qed.

Lemma spans_ext bindings lifetimes occ occ' : (forall s t, 0 <= s < bindings -> occ s t <-> occ' s t) ->
  spans_all bindings lifetimes occ -> spans_all bindings lifetimes occ'.
Proof.
  intros Hext [Hlen Hall]. split; [done|]. intros slot Hslot. destruct (Hall slot Hslot) as (entry & He & Hs).
  exists entry. split; [done|]. destruct entry as [[first last]|]; simpl in *; [|intros t Ht; by eapply Hs, Hext].
  destruct Hs as (H1 & H2 & H3). split_and!; [by apply Hext..|]. intros t Ht. by apply H3, Hext.
Qed.

Lemma touch_all_spans bindings lifetimes occ operator scope : spans_all bindings lifetimes occ ->
  (forall s t, occ s t -> t <= operator) -> Forall (fun slot => 0 <= slot < bindings) scope ->
  exists lifetimes', touch_all lifetimes operator scope = Some lifetimes' /\
    spans_all bindings lifetimes' (fun s t => occ s t \/ (s ∈ scope /\ t = operator)).
Proof.
  intros Hs Hb Hscope. revert lifetimes occ Hs Hb. induction Hscope as [|slot scope Hslot _ IH]; intros lifetimes occ Hs Hb.
  - exists lifetimes. split; [done|]. eapply spans_ext; [|done]. set_solver.
  - destruct (touch_spans bindings lifetimes occ operator slot Hs Hb Hslot) as (l1 & E1 & S1).
    destruct (IH l1 _ S1) as (l2 & E2 & S2); [naive_solver lia|]. exists l2. simpl. rewrite E1. split; [done|].
    eapply spans_ext; [|done]. set_solver.
Qed.

Lemma scan_spans bindings lifetimes occ operator scopes : spans_all bindings lifetimes occ -> 0 <= operator ->
  (forall s t, occ s t -> t < operator) -> Forall (Forall (fun slot => 0 <= slot < bindings)) scopes ->
  exists lifetimes', scan lifetimes operator scopes = Some lifetimes' /\
    spans_all bindings lifetimes' (fun s t => occ s t \/ (operator <= t /\ occurs scopes s (t - operator))).
Proof.
  intros Hs Ho Hb Hscopes. revert lifetimes occ operator Hs Ho Hb.
  induction Hscopes as [|scope scopes Hscope _ IH]; intros lifetimes occ operator Hs Ho Hb.
  - exists lifetimes. split; [done|]. eapply spans_ext; [|done]. intros s t _. split; [by left|].
    intros [?|(_ & _ & scope & Hsc & _)]; [done|]. by rewrite lookup_nil in Hsc.
  - destruct (touch_all_spans bindings lifetimes occ operator scope Hs) as (l1 & E1 & S1); [|done|].
    { intros s t Ht. specialize (Hb s t Ht). lia. }
    destruct (IH l1 _ (operator + 1) S1) as (l2 & E2 & S2); [lia| |].
    { intros s t [Ht|[_ ->]]; [specialize (Hb s t Ht); lia|lia]. }
    exists l2. simpl. rewrite E1. split; [done|]. eapply spans_ext; [|exact S2]. intros s t _. unfold occurs. split.
    + intros [[?|[Hin ->]]|(Ht & Ht' & sc & Hsc & Hin)]; [by left| |].
      * right. split_and!; [lia..|]. exists scope. by rewrite Z.sub_diag.
      * right. split_and!; [lia..|]. exists sc. split; [|done].
        by replace (Z.to_nat (t - operator)) with (S (Z.to_nat (t - (operator + 1)))) by lia.
    + intros [?|(Ht & Ht' & sc & Hsc & Hin)]; [by left; left|].
      destruct (decide (t = operator)) as [->|Hne].
      * rewrite Z.sub_diag in Hsc. simpl in Hsc. simplify_eq/=. left. by right.
      * right. split_and!; [lia..|]. exists sc. split; [|done].
        by replace (Z.to_nat (t - operator)) with (S (Z.to_nat (t - (operator + 1)))) in Hsc by lia.
Qed.

(** The intervals are the live bindings, once each. *)
Lemma in_intervals slot lifetimes f s l : (f, s, l) ∈ intervals_from slot lifetimes <->
  slot <= s /\ lifetimes !! Z.to_nat (s - slot) = Some (Some (f, l)).
Proof.
  revert slot. induction lifetimes as [|entry lifetimes IH]; intros slot.
  { simpl. split; [by intros ?%not_elem_of_nil|]. intros [_ H]. by rewrite lookup_nil in H. }
  assert ((slot + 1 <= s /\ lifetimes !! Z.to_nat (s - (slot + 1)) = Some (Some (f, l))) <->
    slot < s /\ (entry :: lifetimes) !! Z.to_nat (s - slot) = Some (Some (f, l))) as Hnext.
  { split; intros [Hs H]; (split; [lia|]).
    - by replace (Z.to_nat (s - slot)) with (S (Z.to_nat (s - (slot + 1)))) by lia.
    - by replace (Z.to_nat (s - slot)) with (S (Z.to_nat (s - (slot + 1)))) in H by lia. }
  assert (slot <= s /\ (entry :: lifetimes) !! Z.to_nat (s - slot) = Some (Some (f, l)) <->
    (s = slot /\ entry = Some (f, l)) \/ (slot < s /\ (entry :: lifetimes) !! Z.to_nat (s - slot) = Some (Some (f, l)))) as Hhere.
  { destruct (decide (s = slot)) as [->|]; [rewrite Z.sub_diag; simpl; naive_solver lia|naive_solver lia]. }
  rewrite Hhere, <- Hnext, <- IH. destruct entry as [[first last]|]; simpl; [rewrite elem_of_cons|]; naive_solver.
Qed.

Lemma intervals_nodup slot lifetimes : NoDup (map (fun i : Interval => i.1.2) (intervals_from slot lifetimes)).
Proof.
  revert slot. induction lifetimes as [|[[first last]|] lifetimes IH]; intros slot; simpl; [constructor| |done].
  constructor; [|done]. intros ([[f s] l] & E & Hin)%list_elem_of_fmap. simpl in E. subst s.
  apply in_intervals in Hin as [Hle _]. lia.
Qed.

#[global] Instance heap_cmp_lawful : LawfulCompare heap_cmp.
Proof. apply then_with_lawful; [apply (preimage_lawful fst), _ | apply (preimage_lawful snd), _]. Qed.
#[global] Instance interval_cmp_lawful : LawfulCompare interval_cmp.
Proof. apply then_with_lawful; [apply (preimage_lawful fst), _ | apply (preimage_lawful snd), _]. Qed.

(** ** Releasing cells *)

(** Ascending ends, as the heap yields them. *)
Definition heap_sorted (active : list (Z * Z)) : Prop := StronglySorted (BTree.le heap_cmp) active.

Lemma heap_le a b : BTree.le heap_cmp a b -> a.1 <= b.1.
Proof. unfold BTree.le, heap_cmp. destruct (Z.compare_spec a.1 b.1); simpl; [lia|lia|done]. Qed.

Lemma interval_le (a b : Interval) : BTree.le interval_cmp a b -> a.1.1 <= b.1.1.
Proof.
  unfold BTree.le, interval_cmp, heap_cmp. destruct (Z.compare_spec a.1.1 b.1.1); simpl; [lia|lia|done].
Qed.

(** Every cell is in use or free, once. *)
Definition cells_split (active : list (Z * Z)) (free : list Z) (width : Z) : Prop :=
  0 <= width /\ active.*2 ++ free ≡ₚ seqZ 0 width.

Lemma release_spec first active free width : heap_sorted active -> cells_split active free width ->
  exists gone active' free', release first active free = Some (active', free') /\ active = gone ++ active' /\
    Forall (fun e => e.1 < first) gone /\ Forall (fun e => first <= e.1) active' /\ cells_split active' free' width.
Proof.
  intros Hs. revert free. induction Hs as [|[e c] active Hs IH Hle]; intros free [Hw Hsplit].
  { exists [], [], free. by repeat split. }
  cbn [release]. destruct (Z.ltb_spec e first) as [He|He].
  - assert (c ∉ free) as Hc.
    { assert (NoDup (((e, c) :: active).*2 ++ free)) as Hnd by (rewrite Hsplit; apply NoDup_seqZ).
      simpl in Hnd. apply NoDup_cons in Hnd as [Hnd _]. set_solver. }
    destruct (BTree.contains Z.compare c free) eqn:Econ; [by destruct Hc; apply (BTree.contains_iff Z.compare)|].
    destruct (IH (BTree.set_insert Z.compare c free)) as (gone & active' & free' & E & -> & Hgone & Hstay & Hsplit').
    { split; [done|]. rewrite <- Hsplit, (BTree.set_insert_perm Z.compare) by done. simpl. by rewrite Permutation_middle. }
    exists ((e, c) :: gone), active', free'. rewrite E. split_and!; try done. by constructor.
  - exists [], ((e, c) :: active), free. split_and!; try done. constructor; [done|]. eapply Forall_impl; [exact Hle|].
    intros [e' c'] H%heap_le. simpl in *. lia.
Qed.

(** ** The assignment loop *)

Definition cell_of (cells : list (option Z)) (slot : Z) : option Z := mjoin (cells !! Z.to_nat slot).

(** The loop's state after the intervals [done], all starting by [now]. *)
Record assigned (bindings : Z) (done : list Interval) (now : Z) (active : list (Z * Z)) (free : list Z)
    (cells : list (option Z)) (width : Z) : Prop := {
  as_length : length cells = Z.to_nat bindings;
  as_split : cells_split active free width;
  as_sorted : heap_sorted active;
  as_range : forall f s l, (f, s, l) ∈ done -> 0 <= s < bindings;
  as_started : forall f s l, (f, s, l) ∈ done -> f <= now;
  as_active : forall e c, (e, c) ∈ active -> exists f s, (f, s, e) ∈ done /\ cell_of cells s = Some c;
  as_done : forall f s l, (f, s, l) ∈ done ->
    exists c, cell_of cells s = Some c /\ 0 <= c < width /\ ((l, c) ∈ active \/ l < now);
  as_only : forall s, 0 <= s < bindings -> cell_of cells s <> None -> exists f l, (f, s, l) ∈ done;
  as_apart : forall f s l f' s' l' c, (f, s, l) ∈ done -> (f', s', l') ∈ done ->
    cell_of cells s = Some c -> cell_of cells s' = Some c -> s = s' \/ l < f' \/ l' < f;
  (* the cells were all needed at once *)
  as_needed : width = 0 \/ exists t slots, NoDup slots /\ len slots = width /\
    Forall (fun s => exists f l, (f, s, l) ∈ done /\ f <= t <= l) slots;
}.

Lemma cell_of_insert cells slot c s : 0 <= slot < len cells -> 0 <= s ->
  cell_of (<[Z.to_nat slot := Some c]> cells) s = if decide (s = slot) then Some c else cell_of cells s.
Proof.
  intros Hslot Hs. unfold cell_of. case_decide as E.
  - subst. rewrite list_lookup_insert_eq by (unfold len in Hslot; lia). done.
  - by rewrite list_lookup_insert_ne by lia.
Qed.

(** One binding for each of some busy cells. *)
Lemma busy_slots bindings done now active free cells width l : assigned bindings done now active free cells width ->
  l ⊆ active -> NoDup l.*2 ->
  exists slots, NoDup slots /\ length slots = length l /\
    Forall (fun s => exists f e c, (f, s, e) ∈ done /\ (e, c) ∈ l /\ cell_of cells s = Some c) slots.
Proof.
  intros Ha. induction l as [|[e c] l IH]; intros Hsub Hn; [by exists []; repeat constructor|].
  simpl in Hn. apply NoDup_cons in Hn as [Hc Hn]. destruct IH as (slots & H1 & H2 & H3); [set_solver|done|].
  destruct (as_active _ _ _ _ _ _ _ Ha e c) as (f & s & Hd & Hcell); [set_solver|].
  exists (s :: slots). split_and!; [|simpl; lia|].
  - constructor; [|done]. intros Hin. rewrite Forall_forall in H3. destruct (H3 s Hin) as (f' & e' & c' & _ & Hin' & Hc').
    apply Hc. apply list_elem_of_fmap. exists (e', c'). split; [simpl; congruence|done].
  - constructor; [exists f, e, c; split_and!; [done|by left|done]|].
    eapply Forall_impl; [exact H3|]. intros s' (f' & e' & c' & ? & ? & ?). exists f', e', c'. split_and!; [done|by right|done].
Qed.

(** Giving a fresh interval a cell no live binding holds. *)
Lemma assign_step bindings done now active free cells width first slot last gone active' free' c free'' width' :
  assigned bindings done now active free cells width -> now <= first <= last -> 0 <= slot < bindings ->
  (forall f l, (f, slot, l) ∉ done) ->
  active = gone ++ active' -> Forall (fun e => e.1 < first) gone -> Forall (fun e => first <= e.1) active' ->
  cells_split active' free' width ->
  (free' = c :: free'' /\ width' = width) \/ (free' = [] /\ free'' = [] /\ c = width /\ width' = width + 1) ->
  assigned bindings (done ++ [(first, slot, last)]) first (BTree.sort_insert heap_cmp (last, c) active') free''
    (<[Z.to_nat slot := Some c]> cells) width'.
Proof.
  intros Ha Htime Hslot Hfresh -> Hgone Hstay [Hw Hsplit] Hc.
  assert (0 <= slot < len cells) as Hslot' by (unfold len; rewrite (as_length _ _ _ _ _ _ _ Ha); lia).
  assert (forall f s l, (f, s, l) ∈ done -> s <> slot) as Hne by (intros f s l Hin ->; by eapply Hfresh).
  assert (Permutation (BTree.sort_insert heap_cmp (last, c) active') ((last, c) :: active')) as Hperm by apply BTree.sort_insert_perm.
  assert (0 <= c < width' /\ width <= width') as Hcw.
  { destruct Hc as [[-> ->]|(-> & -> & -> & ->)]; [|lia]. assert (c ∈ seqZ 0 width) as Hin by (rewrite <- Hsplit; set_solver).
    apply elem_of_seqZ in Hin. lia. }
  assert (c ∉ active'.*2) as Hcfree.
  { destruct Hc as [[-> ->]|(-> & -> & -> & ->)].
    - assert (NoDup (active'.*2 ++ c :: free'')) as Hnd by (rewrite Hsplit; apply NoDup_seqZ).
      apply NoDup_app in Hnd as (_ & Hnd & _). intros H. apply (Hnd c H). by left.
    - intros H. assert (width ∈ seqZ 0 width) as Hin by (rewrite <- Hsplit; set_solver). apply elem_of_seqZ in Hin. lia. }
  (* a binding that held [c] is dead by now *)
  assert (forall f s l, (f, s, l) ∈ done -> exists d, cell_of cells s = Some d /\ 0 <= d < width /\ ((l, d) ∈ active' \/ l < first)) as Hdone.
  { intros f s l Hin. destruct (as_done _ _ _ _ _ _ _ Ha f s l Hin) as (d & Hd & Hdw & Hor). exists d. split_and!; [done|lia|lia|].
    destruct Hor as [[Hg|Hin']%elem_of_app|]; [|by left|right; lia].
    right. rewrite Forall_forall in Hgone. by specialize (Hgone _ Hg). }
  assert (forall f s l, (f, s, l) ∈ done -> cell_of cells s = Some c -> l < first) as Hdead.
  { intros f s l Hin Hcell. destruct (Hdone f s l Hin) as (d & Hd & Hdw & [Hact|]); [|done].
    rewrite Hcell in Hd. injection Hd as <-. destruct Hcfree. apply list_elem_of_fmap. by exists (l, c). }
  assert (forall f s l, (f, s, l) ∈ done -> cell_of (<[Z.to_nat slot := Some c]> cells) s = cell_of cells s) as Hkeep.
  { intros f s l Hin. pose proof (as_range _ _ _ _ _ _ _ Ha f s l Hin). rewrite cell_of_insert by lia.
    rewrite decide_False; [done|by eapply Hne]. }
  assert (cell_of (<[Z.to_nat slot := Some c]> cells) slot = Some c) as Hnew
    by (rewrite cell_of_insert by lia; by rewrite decide_True).
  split.
  - by rewrite length_insert, (as_length _ _ _ _ _ _ _ Ha).
  - split; [lia|]. rewrite Hperm. simpl. destruct Hc as [[-> ->]|(-> & -> & -> & ->)].
    + by rewrite <- Hsplit, Permutation_middle.
    + rewrite app_nil_r in *. rewrite Hsplit. rewrite seqZ_app by lia. rewrite (seqZ_cons (0 + width)) by lia.
      rewrite (seqZ_nil _ (Z.pred 1)) by lia. rewrite Z.add_0_l. apply Permutation_cons_append.
  - apply BTree.sort_insert_sorted; [apply _|]. pose proof (as_sorted _ _ _ _ _ _ _ Ha) as Hs.
    by apply StronglySorted_app in Hs as (_ & _ & Hs).
  - intros f s l [Hin|[= -> -> ->]%list_elem_of_singleton]%elem_of_app; [by eapply as_range|done].
  - intros f s l [Hin|[= -> -> ->]%list_elem_of_singleton]%elem_of_app; [|done].
    pose proof (as_started _ _ _ _ _ _ _ Ha f s l Hin). lia.
  - intros e d Hin. rewrite Hperm in Hin. apply elem_of_cons in Hin as [[= -> ->]|Hin].
    + exists first, slot. split; [set_solver|done].
    + destruct (as_active _ _ _ _ _ _ _ Ha e d) as (f & s & Hd & Hcell); [set_solver|]. exists f, s. split; [set_solver|].
      by rewrite (Hkeep f s e).
  - intros f s l [Hin|[= -> -> ->]%list_elem_of_singleton]%elem_of_app.
    + destruct (Hdone f s l Hin) as (d & Hd & Hdw & Hor). exists d. rewrite (Hkeep f s l Hin), Hperm. split_and!; [done|lia|lia|].
      destruct Hor as [|]; [left; by right|by right].
    + exists c. rewrite Hperm. split_and!; [done|lia|lia|]. left. by left.
  - intros s Hs Hcell. destruct (decide (s = slot)) as [->|E]; [exists first, last; set_solver|].
    rewrite cell_of_insert, decide_False in Hcell by (done || lia).
    destruct (as_only _ _ _ _ _ _ _ Ha s Hs Hcell) as (f & l & Hin). exists f, l. set_solver.
  - intros f s l f' s' l' d Hin Hin' Hd Hd'.
    apply elem_of_app in Hin as [Hin|[= -> -> ->]%list_elem_of_singleton], Hin' as [Hin'|[= -> -> ->]%list_elem_of_singleton].
    + rewrite (Hkeep f s l Hin) in Hd. rewrite (Hkeep f' s' l' Hin') in Hd'. by eapply (as_apart _ _ _ _ _ _ _ Ha).
    + rewrite Hnew in Hd'. injection Hd' as <-. rewrite (Hkeep f s l Hin) in Hd. right; left. by eapply Hdead.
    + rewrite Hnew in Hd. injection Hd as <-. rewrite (Hkeep f' s' l' Hin') in Hd'. right; right. by eapply Hdead.
    + by left.
  - destruct Hc as [[-> ->]|(-> & -> & -> & ->)].
    + destruct (as_needed _ _ _ _ _ _ _ Ha) as [|(t & slots & H1 & H2 & H3)]; [by left|]. right. exists t, slots.
      split_and!; [done|done|]. eapply Forall_impl; [exact H3|]. intros s (f & l & ? & ?). exists f, l. set_solver.
    + (* every cell is busy *)
      right. rewrite app_nil_r in Hsplit. assert (NoDup active'.*2) as Hnd by (rewrite Hsplit; apply NoDup_seqZ).
      destruct (busy_slots _ _ _ _ _ _ _ active' Ha) as (slots & H1 & H2 & H3); [set_solver|done|].
      exists first, (slot :: slots). split_and!.
      * constructor; [|done]. intros Hin. rewrite Forall_forall in H3. destruct (H3 slot Hin) as (f & e & d & Hd & _).
        by eapply Hfresh.
      * apply Permutation_length in Hsplit. rewrite length_map, length_seqZ in Hsplit. unfold len. simpl. lia.
      * constructor; [exists first, last; split; [set_solver|lia]|]. eapply Forall_impl; [exact H3|].
        intros s (f & e & d & Hd & Hact & _). exists f, e. split; [set_solver|].
        pose proof (as_started _ _ _ _ _ _ _ Ha f s e Hd). rewrite Forall_forall in Hstay. specialize (Hstay _ Hact). simpl in *. lia.
Qed.

Lemma assign_spec bindings intervals done now active free cells width :
  assigned bindings done now active free cells width ->
  StronglySorted (fun a b => a.1.1 <= b.1.1) intervals ->
  Forall (fun i : Interval => now <= i.1.1 <= i.2 /\ 0 <= i.1.2 < bindings) intervals ->
  NoDup (map (fun i : Interval => i.1.2) (done ++ intervals)) ->
  exists layout now' active' free', assign intervals active free cells width = Some layout /\
    assigned bindings (done ++ intervals) now' active' free' (layout_cells layout) (layout_width layout).
Proof.
  intros Ha Hs. revert done now active free cells width Ha. induction Hs as [|[[first slot] last] intervals Hs IH Hle];
    intros done now active free cells width Ha Hall Hnd.
  { eexists {| layout_cells := cells; layout_width := width |}, now, active, free. rewrite app_nil_r. by split. }
  apply Forall_cons in Hall as [[Htime Hslot] Hall]. simpl in Htime, Hslot.
  destruct (release_spec first active free width) as (gone & active' & free' & E & Hsplit & Hgone & Hstay & Hcells);
    [by apply Ha|by apply Ha|]. cbn [assign]. rewrite E. cbn [mbind option_bind].
  assert (is_Some (cells !! Z.to_nat slot)) as [old Hold] by (apply lookup_lt_is_Some; rewrite (as_length _ _ _ _ _ _ _ Ha); lia).
  rewrite cons_middle, app_assoc in Hnd |- *.
  assert (forall c free'' width', (free' = c :: free'' /\ width' = width) \/ (free' = [] /\ free'' = [] /\ c = width /\ width' = width + 1) ->
    exists layout now' active'' free3,
      assign intervals (BTree.sort_insert heap_cmp (last, c) active') free'' (<[Z.to_nat slot := Some c]> cells) width' = Some layout /\
      assigned bindings ((done ++ [(first, slot, last)]) ++ intervals) now' active'' free3 (layout_cells layout) (layout_width layout)) as Hgo.
  { intros c free'' width' Hc. apply (IH _ first).
    - eapply assign_step; try done. intros f l Hin. rewrite !map_app in Hnd. apply NoDup_app in Hnd as (Hnd & _ & _).
      apply NoDup_app in Hnd as (_ & Hnd & _). apply (Hnd slot); [|set_solver].
      apply list_elem_of_fmap. by exists (f, slot, l).
    - apply Forall_forall. intros i Hi. pose proof (proj1 (Forall_forall _ _) Hall i Hi).
      pose proof (proj1 (Forall_forall _ _) Hle i Hi). simpl in *. lia.
    - done. }
  destruct free' as [|c free'']; rewrite Hold; apply Hgo; [right|left]; done.
Qed.

Lemma sorted_firsts l : StronglySorted (BTree.le interval_cmp) l -> StronglySorted (fun a b : Interval => a.1.1 <= b.1.1) l.
Proof.
  induction 1 as [|i l _ IH Hi]; constructor; [done|]. eapply Forall_impl; [exact Hi|]. intros j. apply interval_le.
Qed.

(** The layout exists and its bindings' intervals are all assigned. *)
Lemma layout_assigned bindings scopes : Forall (Forall (fun slot => 0 <= slot < bindings)) scopes ->
  exists layout intervals now active free, layout_of bindings scopes = Some layout /\
    assigned bindings intervals now active free (layout_cells layout) (layout_width layout) /\
    (forall f s l, (f, s, l) ∈ intervals ->
      occurs scopes s f /\ occurs scopes s l /\ forall t, occurs scopes s t -> f <= t <= l) /\
    (forall s t, occurs scopes s t -> exists f l, (f, s, l) ∈ intervals).
Proof.
  intros Hscopes. destruct (scan_spans bindings (replicate (Z.to_nat bindings) None) (fun _ _ => False) 0 scopes)
    as (lifetimes & E & Hlen & Hspans); [|done|done|done|].
  { split; [by rewrite length_replicate|]. intros slot Hslot. exists None. split; [apply lookup_replicate_2; lia|]. by intros t []. }
  unfold layout_of. rewrite E. cbn [mbind option_bind]. set (sorted := BTree.sort_by interval_cmp (intervals_from 0 lifetimes)).
  assert (sorted ≡ₚ intervals_from 0 lifetimes) as Hperm by apply BTree.sort_by_perm.
  assert (forall f s l, (f, s, l) ∈ sorted <-> 0 <= s < bindings /\ lifetimes !! Z.to_nat s = Some (Some (f, l))) as Hin.
  { intros f s l. rewrite Hperm, in_intervals, Z.sub_0_r. split; [|tauto]. intros [Hs Hl]. split; [|done].
    apply lookup_lt_Some in Hl. rewrite Hlen in Hl. lia. }
  assert (forall s t, (False \/ (0 <= t /\ occurs scopes s (t - 0))) <-> occurs scopes s t) as Heq.
  { intros s t. rewrite Z.sub_0_r. split; [by intros [[]|[_ ?]]|]. intros Ht. right. split; [apply Ht|done]. }
  assert (forall f s l, (f, s, l) ∈ sorted ->
      occurs scopes s f /\ occurs scopes s l /\ forall t, occurs scopes s t -> f <= t <= l) as Hocc.
  { intros f s l [Hs Hl]%Hin. destruct (Hspans s Hs) as (entry & He & Hsp). rewrite Hl in He. injection He as <-.
    destruct Hsp as (H1 & H2 & H3). split_and!; [by apply Heq..|]. intros t Ht. by apply H3, Heq. }
  destruct (assign_spec bindings sorted [] 0 [] [] (replicate (Z.to_nat bindings) None) 0) as (layout & now & active & free & Ea & Ha).
  - split; try (intros *; by intros ?%not_elem_of_nil).
    + by rewrite length_replicate.
    + by split.
    + constructor.
    + intros s Hs. unfold cell_of. rewrite lookup_replicate_2 by lia. done.
    + by left.
  - apply sorted_firsts, BTree.sort_by_sorted; apply _.
  - apply Forall_forall. intros [[f s] l] Hi. simpl. pose proof (proj1 (Hin f s l) Hi) as [Hs _].
    apply Hocc in Hi as (H1 & H2 & H3). pose proof (proj1 H1). specialize (H3 l H2). lia.
  - simpl. rewrite Hperm. apply intervals_nodup.
  - exists layout, sorted, now, active, free. split_and!; [done..|]. intros s t Ht. assert (0 <= s < bindings) as Hs.
    { destruct Ht as (_ & scope & Hsc%list_elem_of_lookup_2 & Hin'). rewrite Forall_forall in Hscopes.
      specialize (Hscopes _ Hsc). rewrite Forall_forall in Hscopes. by apply Hscopes. }
    destruct (Hspans s Hs) as ([[f l]|] & He & Hsp); [exists f, l; by apply Hin|]. by destruct (Hsp t); apply Heq.
Qed.

(** Every live binding has a cell of its own, and the cells were all needed at once. *)
Record allocation (bindings : Z) (scopes : list Scope) (layout : RowLayout) : Prop := {
  al_cells : forall s, 0 <= s < bindings -> cell layout s <> None <-> exists t, occurs scopes s t;
  al_width : forall s c, 0 <= s < bindings -> cell layout s = Some c -> 0 <= c < layout_width layout;
  al_apart : forall s s' t c, live scopes s t -> live scopes s' t ->
    cell layout s = Some c -> cell layout s' = Some c -> s = s';
  al_needed : layout_width layout = 0 \/ exists t slots,
    NoDup slots /\ len slots = layout_width layout /\ Forall (fun s => live scopes s t) slots }.

Lemma layout_allocates bindings scopes : Forall (Forall (fun slot => 0 <= slot < bindings)) scopes ->
  exists layout, layout_of bindings scopes = Some layout /\ allocation bindings scopes layout.
Proof.
  intros Hscopes. destruct (layout_assigned bindings scopes Hscopes) as (layout & intervals & now & active & free & E & Ha & Hin & Hall).
  assert (forall s t, live scopes s t -> exists f l, (f, s, l) ∈ intervals /\ f <= t <= l) as Hlive.
  { intros s t (t1 & t2 & H1 & H2 & Ht). destruct (Hall s t1 H1) as (f & l & Hi). exists f, l. split; [done|].
    apply Hin in Hi as (_ & _ & Hspan). pose proof (Hspan _ H1). pose proof (Hspan _ H2). lia. }
  exists layout. split; [done|]. split.
  - intros s Hs. split.
    + intros Hc. destruct (as_only _ _ _ _ _ _ _ Ha s Hs Hc) as (f & l & Hi). apply Hin in Hi as (Hf & _). by exists f.
    + intros (t & Ht). destruct (Hlive s t) as (f & l & Hi & _); [by exists t, t; split_and!; try done; lia|].
      destruct (as_done _ _ _ _ _ _ _ Ha f s l Hi) as (c & Hc & _). unfold cell, cell_of in *. congruence.
  - intros s c Hs Hc. destruct (as_only _ _ _ _ _ _ _ Ha s Hs) as (f & l & Hi); [unfold cell, cell_of in *; congruence|].
    destruct (as_done _ _ _ _ _ _ _ Ha f s l Hi) as (c' & Hc' & Hw & _). unfold cell, cell_of in *. congruence.
  - intros s s' t c Hs Hs' Hc Hc'. destruct (Hlive s t Hs) as (f & l & Hi & Ht), (Hlive s' t Hs') as (f' & l' & Hi' & Ht').
    destruct (as_apart _ _ _ _ _ _ _ Ha f s l f' s' l' c Hi Hi' Hc Hc') as [|]; [done|lia].
  - destruct (as_needed _ _ _ _ _ _ _ Ha) as [|(t & slots & H1 & H2 & H3)]; [by left|]. right. exists t, slots.
    split_and!; [done|done|]. eapply Forall_impl; [exact H3|]. intros s (f & l & Hi & Ht). apply Hin in Hi as (Hf & Hl & _).
    by exists f, l.
Qed.

(** [C30] The row layout is a correct and minimal allocation: for any scopes within
    the catalog, construction never panics (no free cell is freed twice and every
    index is in bounds); exactly the bindings some operator names get a cell, below
    the width; two bindings live at the same operator never share a cell, where a
    binding is live from the first operator that names it to the last; and the
    width is no larger than it must be, since at some operator that many bindings
    are live at once. *)
Theorem layout_exact bindings scopes : Forall (Forall (fun slot => 0 <= slot < bindings)) scopes ->
  exists layout, layout_of bindings scopes = Some layout /\
    (forall s, 0 <= s < bindings -> cell layout s <> None <-> exists t, occurs scopes s t) /\
    (forall s c, 0 <= s < bindings -> cell layout s = Some c -> 0 <= c < layout_width layout) /\
    (forall s s' t c, live scopes s t -> live scopes s' t ->
       cell layout s = Some c -> cell layout s' = Some c -> s = s') /\
    (layout_width layout = 0 \/ exists t slots,
       NoDup slots /\ len slots = layout_width layout /\ Forall (fun s => live scopes s t) slots).
Proof.
  intros (layout & E & [H1 H2 H3 H4])%layout_allocates. by exists layout.
Qed.

Lemma layout_exact_witness : exists layout, layout_of 4 [[0]; [0; 1]; [1; 2]] = Some layout /\
  layout_cells layout = [Some 0; Some 1; Some 0; None] /\
  (layout_width layout = 0 \/ exists t slots,
     NoDup slots /\ len slots = layout_width layout /\ Forall (fun s => live [[0]; [0; 1]; [1; 2]] s t) slots).
Proof.
  destruct (layout_exact 4 [[0]; [0; 1]; [1; 2]]) as (layout & E & _ & _ & _ & Hw).
  - repeat constructor; lia.
  - exists layout. split; [done|]. split; [|done]. vm_compute in E. by injection E as <-.
Defined.

End QueryLayout.
