(* ===== verification/QueryPlan.v ===== *)
(** Validated queries: crates/planner/src/relational/query.rs with the programs of
    selection.rs and projection.rs and the contracts of contracts.rs.

    A [BTreeSet<Slot>] is the increasing list of its members. The outer option of
    [V] is a panic: an index out of bounds, a failed assertion of the schemas or
    layouts, or the [debug_assert] of [OperatorContract::derive]. *)
From S2P Require Import Prelude Bytes BTree QueryExpression QuerySchema QueryLayout.

Open Scope Z_scope.

Module QueryPlan.
Export QueryExpression QuerySchema.

(** ** Fallible code that may panic *)

Definition V (A : Type) : Type := option (result QueryError A).

Definition done {A} (a : A) : V A := Some (Ok a).
Definition failed {A} (e : QueryError) : V A := Some (Err e).
Definition vbind {A B} (m : V A) (k : A -> V B) : V B :=
  match m with
  | Some (Ok a) => k a
  | Some (Err e) => Some (Err e)
  | None => None
  end.
(** The value of an operation that panics or succeeds. *)
Definition total {A} (o : option A) : V A := Ok <$> o.
Notation "'chk' x <- m ; k" := (vbind m (fun x => k))
  (at level 60, x pattern, m at level 100, right associativity, k at level 200).

(** A loop that stops at its first error. *)
Fixpoint check_each {A} (f : A -> V unit) (l : list A) : V unit :=
  match l with
  | [] => done tt
  | x :: l => chk _ <- f x; check_each f l
  end.

(** [Iterator::any] of a predicate that may panic. *)
Fixpoint any_of {A} (f : A -> option bool) (l : list A) : option bool :=
  match l with
  | [] => Some false
  | x :: l => b ← f x; if b : bool then Some true else any_of f l
  end.

(** Sets of slots. *)
Definition set_extend (s l : list Z) : list Z := fold_left (fun s x => BTree.set_insert Z.compare x s) l s.
Definition slot_set (l : list Z) : list Z := set_extend [] l.
Definition holds (s : list Z) (x : Z) : bool := BTree.contains Z.compare x s.
Definition is_subset (s t : list Z) : bool := forallb (holds t) s.

Definition internal (detail message : string) : QueryError := compile_error "internal_planner_error" detail message.

(** [Expression::validate_shape], whose loop takes one step per node. *)
Definition validate (e : Expression) : V unit := validate_expression (S (length (nodes e))) e.
(** [Expression::slots], in order. *)
Definition references (e : Expression) : list Z := slot_set (elements (slots e)).

(** ** Selection and projection programs *)

Record SelectionProgram := { selection_expression : Expression; selection_references : list Z }.

Definition selection_new (expression : Expression) : V SelectionProgram :=
  chk _ <- validate expression;
  done {| selection_expression := expression; selection_references := references expression |}.

Definition selection_validate_input (self : SelectionProgram) (input : list Z) : V unit :=
  if negb (is_subset (selection_references self) input) then
    failed (internal "unbound_slot" "selection references an undefined incoming row slot")
  else done tt.

Record Projection := { projection_slot : Z; projection_expression : Expression }.
Record ProjectionProgram := { items : list Projection; projection_references : list Z; projection_outputs : list Z }.

Fixpoint projection_loop (rest : list Projection) (outputs refs : list Z) : V (list Z * list Z) :=
  match rest with
  | [] => done (outputs, refs)
  | item :: rest =>
      if holds outputs (projection_slot item) then
        failed (internal "invalid_schema" "projection output slots must be unique")
      else
        let outputs := BTree.set_insert Z.compare (projection_slot item) outputs in
        chk _ <- validate (projection_expression item);
        projection_loop rest outputs (set_extend refs (references (projection_expression item)))
  end.

Definition projection_new (items : list Projection) : V ProjectionProgram :=
  chk (outputs, refs) <- projection_loop items [] [];
  done {| items := items; projection_references := refs; projection_outputs := outputs |}.

Definition projection_validate_input (self : ProjectionProgram) (input : list Z) : V unit :=
  if negb (is_subset (projection_references self) input) then
    failed (internal "unbound_slot" "projection references an undefined incoming row slot")
  else done tt.

(** ** Operators *)

Inductive Direction := Outgoing | Incoming | Undirected.

Record NodePattern := { node_slot : Z; node_label : option bytes; node_properties : list (bytes * Expression) }.
Record RelationshipPattern := {
  rel_slot : Z; rel_from : Z; rel_to : Z; rel_direction : Direction; rel_types : list bytes;
  rel_properties : list (bytes * Expression) }.
Record PathPattern := { path_slot : Z; path_nodes : list Z; path_relationships : list Z }.
Record Pattern := {
  pattern_nodes : list NodePattern; pattern_relationships : list RelationshipPattern; pattern_paths : list PathPattern }.
Record Ordering := { order_expression : Expression; descending : bool }.

Inductive PropertyMutation :=
| MSet (entity : Z) (key : bytes) (value : Expression)
| MRemove (entity : Z) (key : bytes)
| MReplace (entity : Z) (properties : Expression)
| MExtend (entity : Z) (properties : Expression).

Inductive Operator :=
| OMatch (pattern : Pattern) (optional : bool) (predicate : option SelectionProgram)
| OFilter (predicate : SelectionProgram)
| OUnwind (expression : Expression) (slot : Z)
| OProject (items : ProjectionProgram) (distinct : bool) (ordering : list Ordering)
    (predicate : option SelectionProgram) (skip limit : option Expression)
| OCreate (pattern : Pattern)
| OUpdate (updates : list PropertyMutation)
| ODelete (entities : list Expression) (detach : bool).

Inductive Effect := Read | Write.

(** A node-only pattern that can resume one binding. *)
Definition single_node (self : Pattern) : option Z :=
  first ← head (pattern_nodes self);
  if bool_decide (pattern_relationships self = []) && forallb (fun node => node_slot node =? node_slot first) (pattern_nodes self)
  then Some (node_slot first) else None.

Definition pattern_slots (self : Pattern) : list Z :=
  slot_set (map node_slot (pattern_nodes self) ++ map rel_slot (pattern_relationships self) ++ map path_slot (pattern_paths self)).

Definition pattern_expressions (self : Pattern) : list Expression :=
  map snd (flat_map node_properties (pattern_nodes self) ++ flat_map rel_properties (pattern_relationships self)).

Definition mutation_entity (m : PropertyMutation) : Z :=
  match m with MSet entity _ _ | MRemove entity _ | MReplace entity _ | MExtend entity _ => entity end.
Definition mutation_value (m : PropertyMutation) : option Expression :=
  match m with MSet _ _ value => Some value | MRemove _ _ => None | MReplace _ e | MExtend _ e => Some e end.

Definition expressions (self : Operator) : list Expression :=
  match self with
  | OMatch pattern _ predicate => pattern_expressions pattern ++ map selection_expression (opt predicate)
  | OCreate pattern => pattern_expressions pattern
  | OFilter predicate => [selection_expression predicate]
  | OUnwind expression _ => [expression]
  | OProject program _ ordering predicate skip limit =>
      map projection_expression (items program) ++ map order_expression ordering ++
      map selection_expression (opt predicate) ++ opt skip ++ opt limit
  | OUpdate updates => omap mutation_value updates
  | ODelete entities _ => entities
  end.

(** ** Contracts *)

Inductive Multiplicity := PreservesRows | MayReduceRows | MayMultiplyRows | GroupsRows.
Inductive Boundary := BOptionalMatch | BMutation | BAggregate | BDistinct | BOrdering | BWindow.
(** [Bound] holds an [AtLeast<Slot, 1>]. *)
Inductive Correlation := Independent | Bound (slots : list Z).

Record OperatorContract := {
  input : RowSchema; output : RowSchema; contract_references : list Z; correlation : Correlation;
  contract_effect : Effect; multiplicity : Multiplicity; boundaries : list Boundary; total_projection : bool }.

(** The slots a schema already shows. *)
Fixpoint visible (schema : RowSchema) (slots : list Z) : option (list Z) :=
  match slots with
  | [] => Some []
  | slot :: slots =>
      column ← schema_get schema slot;
      rest ← visible schema slots;
      Some (match column with Some _ => slot :: rest | None => rest end)
  end.

Definition is_plain (e : Expression) : bool :=
  match e with ESlot _ | ELiteral _ | EParameter _ => true | _ => false end.

Definition when {A} (b : bool) (x : A) : list A := if b then [x] else [].
Definition present {A} (o : option A) : bool := match o with Some _ => true | None => false end.

(** The catalog facts the assertion compares an input column with. *)
Definition column_checked (bindings : list Binding) (column : Z * ColumnType) : option bool :=
  binding ← bindings !! Z.to_nat column.1;
  Some (bool_decide (column_type column.2 = value_type binding) && (negb (nullable binding) || column_nullable column.2)).

Definition derive (operator : Operator) (input_schema : RowSchema) (output : list Z) (bindings : list Binding)
    : option OperatorContract :=
  columns ← schema_columns input_schema;
  broken ← any_of (fun column => negb <$> column_checked bindings column) columns;
  if broken : bool then None else
  let refs := slot_set (flat_map references (expressions operator)) in
  '(refs, effect, multiplicity, boundaries, total_projection) ←
    match operator with
    | OMatch pattern optional _ =>
        bound ← visible input_schema (pattern_slots pattern);
        Some (set_extend refs bound, Read, MayMultiplyRows, when optional BOptionalMatch, false)
    | OUnwind _ _ => Some (refs, Read, MayMultiplyRows, [], false)
    | OFilter _ => Some (refs, Read, MayReduceRows, [], false)
    | OProject program distinct ordering predicate skip limit =>
        let aggregate := existsb (fun item => has_aggregate (projection_expression item)) (items program) in
        let ordered := negb (bool_decide (length ordering = 0%nat)) in
        Some (refs, Read,
          (if aggregate then GroupsRows
           else if distinct || present predicate || present skip || present limit then MayReduceRows else PreservesRows),
          when aggregate BAggregate ++ when distinct BDistinct ++ when ordered BOrdering ++
          when (present skip || present limit) BWindow,
          negb aggregate && negb distinct && negb ordered && negb (present predicate) &&
          forallb (fun item => is_plain (projection_expression item)) (items program))
    | OCreate pattern =>
        bound ← visible input_schema (pattern_slots pattern);
        Some (set_extend refs bound, Write, PreservesRows, [BMutation], false)
    | OUpdate updates => Some (set_extend refs (map mutation_entity updates), Write, PreservesRows, [BMutation], false)
    | ODelete _ _ => Some (refs, Write, PreservesRows, [BMutation], false)
    end;
  correlation ←
    match operator with
    | OMatch _ _ _ => bound ← visible input_schema refs; Some (match bound with [] => Independent | _ => Bound bound end)
    | _ => Some Independent
    end;
  output_schema ← schema_derive input_schema output (match operator with OMatch _ optional _ => optional | _ => false end);
  Some {| input := input_schema; output := output_schema; contract_references := refs; correlation := correlation;
          contract_effect := effect; multiplicity := multiplicity; boundaries := boundaries;
          total_projection := total_projection |}.

(** ** Construction of a query *)

Record Query := {
  bindings : list Binding; operators : list Operator; returns : list (bytes * Z); effect : Effect;
  contracts : list OperatorContract; layout : QueryLayout.RowLayout }.

(** An expression against a scope. *)
Definition check (defined : list Z) (expression : Expression) : V unit :=
  chk _ <- validate expression;
  if existsb (fun s => negb (holds defined s)) (references expression) then
    failed (internal "unbound_slot" "expression references an undefined row slot")
  else done tt.

Definition untyped (b : Binding) : bool := bool_decide (value_type b = TAny) || bool_decide (value_type b = TNull).
(** Neither of this kind nor of a data-dependent domain. *)
Definition mistyped (k : BindingType) (b : Binding) : bool := negb (bool_decide (kind b = k)) && negb (untyped b).
(** [bindings.get(slot).is_none_or(..)]. *)
Definition not_a (bindings : list Binding) (k : BindingType) (slot : Z) : bool :=
  match bindings !! Z.to_nat slot with
  | Some b => mistyped k b
  | None => true
  end.
Definition in_nodes (pattern : Pattern) (slot : Z) : bool := existsb (fun node => node_slot node =? slot) (pattern_nodes pattern).

Definition check_node_pattern (bindings : list Binding) (defined : list Z) (node : NodePattern) : V unit :=
  if bool_decide (node_label node = Some []) then
    failed (internal "empty_label" "resolved node labels must be nonempty")
  else if not_a bindings BNode (node_slot node) then
    failed (internal "invalid_node_slot" "node pattern must bind a node")
  else check_each (fun p => check defined p.2) (node_properties node).

Definition check_relationship (bindings : list Binding) (pattern : Pattern) (defined : list Z) (rel : RelationshipPattern) : V unit :=
  if existsb (fun t => bool_decide (t = [])) (rel_types rel) ||
     existsb (fun slot => negb (in_nodes pattern slot)) [rel_from rel; rel_to rel] then
    failed (internal "invalid_relationship_pattern"
      "relationship endpoints must be node pattern slots and types must be nonempty")
  else if not_a bindings BRelationship (rel_slot rel) || negb (holds defined (rel_from rel)) || negb (holds defined (rel_to rel)) then
    failed (internal "invalid_relationship_slot" "relationship pattern has invalid endpoints or binding")
  else check_each (fun p => check defined p.2) (rel_properties rel).

(** [bindings[s]] read by a path member's test. *)
Definition member_mistyped (bindings : list Binding) (k : BindingType) (s : Z) : option bool :=
  b ← bindings !! Z.to_nat s; Some (mistyped k b).

Definition path_members_bad (bindings : list Binding) (pattern : Pattern) (defined : list Z) (path : PathPattern) : option bool :=
  b ← bindings !! Z.to_nat (path_slot path);
  if negb (bool_decide (kind b = BPath)) || in_nodes pattern (path_slot path) ||
     existsb (fun rel => rel_slot rel =? path_slot path) (pattern_relationships pattern) then Some true
  else
    bad ← any_of (fun s => if negb (holds defined s) || negb (in_nodes pattern s) then Some true
                           else member_mistyped bindings BNode s) (path_nodes path);
    if bad : bool then Some true
    else any_of (fun s => if negb (holds defined s) then Some true else member_mistyped bindings BRelationship s)
           (path_relationships path).

(** [x == path.nodes[index] && y == path.nodes[index + 1]]. *)
Definition joins (path : PathPattern) (index : nat) (x y : Z) : option bool :=
  a ← path_nodes path !! index;
  if x =? a then b ← path_nodes path !! S index; Some (y =? b) else Some false.

Definition connects (pattern : Pattern) (path : PathPattern) (index : nat) (slot : Z) : option bool :=
  any_of (fun rel =>
    if negb (rel_slot rel =? slot) then Some false
    else
      forward ← joins path index (rel_from rel) (rel_to rel);
      if forward : bool then Some true else joins path index (rel_to rel) (rel_from rel)) (pattern_relationships pattern).

Fixpoint check_connected (pattern : Pattern) (path : PathPattern) (index : nat) (rels : list Z) : V unit :=
  match rels with
  | [] => done tt
  | slot :: rels =>
      chk connected <- total (connects pattern path index slot);
      if negb connected then failed (internal "invalid_path" "path relationship does not connect its adjacent nodes")
      else check_connected pattern path (S index) rels
  end.

(** No vector reaches the length at which [saturating_add] saturates. *)
Definition check_path (bindings : list Binding) (pattern : Pattern) (defined : list Z) (path : PathPattern) : V unit :=
  chk bad <- total (path_members_bad bindings pattern defined path);
  if bad : bool then
    failed (internal "invalid_path"
      "path members must belong to their pattern and have compatible types; the path output must be separate")
  else if negb (Nat.eqb (length (path_nodes path)) (length (path_relationships path) + 1)) then
    failed (internal "invalid_path" "path must alternate nodes and relationships")
  else check_connected pattern path 0 (path_relationships path).

Definition outputs (operator : Operator) : list Z :=
  match operator with
  | OMatch pattern _ _ | OCreate pattern => pattern_slots pattern
  | OUnwind _ slot => [slot]
  | OProject program _ _ _ _ _ => slot_set (map projection_slot (items program))
  | OFilter _ | OUpdate _ | ODelete _ _ => []
  end.

Definition check_pattern (bindings : list Binding) (pattern : Pattern) (defined : list Z) : V unit :=
  chk _ <- check_each (check_node_pattern bindings defined) (pattern_nodes pattern);
  chk _ <- check_each (check_relationship bindings pattern defined) (pattern_relationships pattern);
  check_each (check_path bindings pattern defined) (pattern_paths pattern).

Definition check_mutation (defined : list Z) (item : PropertyMutation) : V unit :=
  chk _ <- check defined (ESlot (mutation_entity item));
  match mutation_value item with
  | Some e => check defined e
  | None => done tt
  end.

(** The scope and the effect after an operator, whose outputs are in the catalog. *)
Definition check_operator (bindings : list Binding) (operator : Operator) (defined : list Z) (effect : Effect)
    : V (list Z * Effect) :=
  match operator with
  | OMatch pattern _ predicate =>
      let defined := set_extend defined (outputs operator) in
      chk _ <- check_pattern bindings pattern defined;
      chk _ <- check_each (fun p => selection_validate_input p defined) (opt predicate);
      done (defined, effect)
  | OCreate pattern =>
      let defined := set_extend defined (outputs operator) in
      chk _ <- check_pattern bindings pattern defined;
      done (defined, Write)
  | OFilter e => chk _ <- selection_validate_input e defined; done (defined, effect)
  | OUnwind expression slot =>
      chk _ <- check defined expression;
      done (BTree.set_insert Z.compare slot defined, effect)
  | OProject program _ ordering predicate skip limit =>
      chk _ <- projection_validate_input program defined;
      let order_scope := set_extend defined (map projection_slot (items program)) in
      chk _ <- check_each (fun order => check order_scope (order_expression order)) ordering;
      chk _ <- check_each (fun p => selection_validate_input p order_scope) (opt predicate);
      chk _ <- check_each (check []) (opt skip ++ opt limit);
      done (slot_set (map projection_slot (items program)), effect)
  | OUpdate updates => chk _ <- check_each (check_mutation defined) updates; done (defined, Write)
  | ODelete entities _ => chk _ <- check_each (check defined) entities; done (defined, Write)
  end.

(** The loop over the operators, with the schema of the current scope. *)
Fixpoint check_operators (bindings : list Binding) (operators : list Operator) (defined : list Z) (effect : Effect)
    (row_schema : RowSchema) : V (list Z * Effect * list OperatorContract) :=
  match operators with
  | [] => done (defined, effect, [])
  | operator :: operators =>
      if existsb (fun s => len bindings <=? s) (outputs operator) then
        failed (internal "invalid_schema" "operator output is outside the binding catalog")
      else
        chk (defined, effect) <- check_operator bindings operator defined effect;
        chk contract <- total (derive operator row_schema defined bindings);
        chk (defined, effect, contracts) <- check_operators bindings operators defined effect (output contract);
        done (defined, effect, contract :: contracts)
  end.

(** What [RowLayout::new] reads of a contract. *)
Definition contract_scope (contract : OperatorContract) : option (list Z) :=
  before ← slot_iter (input contract);
  after ← slot_iter (output contract);
  Some (before ++ after ++ contract_references contract).

Definition query_layout (bindings : list Binding) (contracts : list OperatorContract) : option QueryLayout.RowLayout :=
  scopes ← mapM contract_scope contracts;
  QueryLayout.layout_of (len bindings) scopes.

(** [Query::new]. *)
Definition query_new (bindings : list Binding) (operators : list Operator) (returns : list (bytes * Z)) : V Query :=
  if (4096 <? len bindings) || (4096 <? len operators) then
    failed (compile_error "resource_limit" "plan_size" "query exceeds the binding or operator budget")
  else
    chk (defined, effect, contracts) <- check_operators bindings operators [] Read (schema_empty bindings);
    if existsb (fun s => len bindings <=? s) defined || existsb (fun r => negb (holds defined r.2)) returns then
      failed (internal "invalid_schema" "query output does not match the binding catalog")
    else
      chk layout <- total (query_layout bindings contracts);
      done {| bindings := bindings; operators := operators; returns := returns; effect := effect;
              contracts := contracts; layout := layout |}.

(** [Query::parameters]: the names of the parameters, in order. *)
Definition parameters (self : Query) : list bytes :=
  fold_left (fun names expression =>
    visit (fun e names => match e with EParameter name => BTree.set_insert bytes_cmp name names | _ => names end)
      expression names) (flat_map expressions (operators self)) [].

End QueryPlan.
