(* ===== verification/QueryPlanSpec.v ===== *)
(** What query validation accepts: [Query::new] never panics and accepts exactly
    the operator sequences that are well scoped and well typed by the rules below. *)
From S2P Require Import Prelude Bytes BTree QueryExpression QuerySchema QueryLayout QueryPlan.

Open Scope Z_scope.

Module QueryPlanSpec.
Export QueryPlan.

(** ** The rules *)

Definition well_formed (e : Expression) : Prop :=
  nested 48 e /\ Z.of_nat (length (nodes e)) <= MAX_EXPRESSION_NODES /\ Forall node_ok (nodes e).

(** Well formed, over the slots of the scope. *)
Definition expression_in (scope : list Z) (e : Expression) : Prop :=
  well_formed e /\ forall s, s ∈ slots e -> s ∈ scope.

(** A binding of this kind, or of a domain only known from data. *)
Definition binds (bindings : list Binding) (k : BindingType) (slot : Z) : Prop :=
  exists b, bindings !! Z.to_nat slot = Some b /\ (kind b = k \/ value_type b = TAny \/ value_type b = TNull).

Definition node_slots (p : Pattern) : list Z := map node_slot (pattern_nodes p).

Record node_valid (bindings : list Binding) (scope : list Z) (n : NodePattern) : Prop := {
  nv_label : node_label n <> Some [];
  nv_binds : binds bindings BNode (node_slot n);
  nv_properties : Forall (fun p => expression_in scope p.2) (node_properties n) }.

Record relationship_valid (bindings : list Binding) (p : Pattern) (scope : list Z) (r : RelationshipPattern) : Prop := {
  rv_types : Forall (fun t => t <> []) (rel_types r);
  rv_from : rel_from r ∈ node_slots p;
  rv_to : rel_to r ∈ node_slots p;
  rv_binds : binds bindings BRelationship (rel_slot r);
  rv_properties : Forall (fun q => expression_in scope q.2) (rel_properties r) }.

(** A walk of the pattern: each relationship joins the nodes around it, either way. *)
Record path_valid (bindings : list Binding) (p : Pattern) (path : PathPattern) : Prop := {
  pv_kind : exists b, bindings !! Z.to_nat (path_slot path) = Some b /\ kind b = BPath;
  pv_node : path_slot path ∉ node_slots p;
  pv_rel : path_slot path ∉ map rel_slot (pattern_relationships p);
  pv_nodes : Forall (fun s => s ∈ node_slots p) (path_nodes path);
  pv_length : length (path_nodes path) = S (length (path_relationships path));
  pv_joins : forall i s, path_relationships path !! i = Some s -> exists rel a b,
    rel ∈ pattern_relationships p /\ rel_slot rel = s /\
    path_nodes path !! i = Some a /\ path_nodes path !! S i = Some b /\
    ((rel_from rel = a /\ rel_to rel = b) \/ (rel_to rel = a /\ rel_from rel = b)) }.

Record pattern_valid (bindings : list Binding) (scope : list Z) (p : Pattern) : Prop := {
  ptv_nodes : Forall (node_valid bindings scope) (pattern_nodes p);
  ptv_relationships : Forall (relationship_valid bindings p scope) (pattern_relationships p);
  ptv_paths : Forall (path_valid bindings p) (pattern_paths p) }.

(** The scope an operator leaves. *)
Definition scope_after (scope : list Z) (op : Operator) : list Z :=
  match op with
  | OMatch _ _ _ | OCreate _ | OUnwind _ _ => set_extend scope (outputs op)
  | OProject _ _ _ _ _ _ => outputs op
  | OFilter _ | OUpdate _ | ODelete _ _ => scope
  end.

Definition mutation_valid (scope : list Z) (m : PropertyMutation) : Prop :=
  mutation_entity m ∈ scope /\ Forall (expression_in scope) (opt (mutation_value m)).

Definition operator_valid (bindings : list Binding) (scope : list Z) (op : Operator) : Prop :=
  Forall (fun s => s < len bindings) (outputs op) /\
  match op with
  | OMatch p _ predicate =>
      pattern_valid bindings (scope_after scope op) p /\
      Forall (fun f => expression_in (scope_after scope op) (selection_expression f)) (opt predicate)
  | OCreate p => pattern_valid bindings (scope_after scope op) p
  | OFilter f => expression_in scope (selection_expression f)
  | OUnwind e _ => expression_in scope e
  | OProject program _ ordering predicate skip limit =>
      let both := set_extend scope (map projection_slot (items program)) in
      Forall (fun item => expression_in scope (projection_expression item)) (items program) /\
      Forall (fun o => expression_in both (order_expression o)) ordering /\
      Forall (fun f => expression_in both (selection_expression f)) (opt predicate) /\
      Forall (expression_in []) (opt skip ++ opt limit)
  | OUpdate updates => Forall (mutation_valid scope) updates
  | ODelete entities _ => Forall (expression_in scope) entities
  end.

Fixpoint operators_valid (bindings : list Binding) (scope : list Z) (ops : list Operator) : Prop :=
  match ops with
  | [] => True
  | op :: ops => operator_valid bindings scope op /\ operators_valid bindings (scope_after scope op) ops
  end.

Definition is_write (op : Operator) : bool :=
  match op with OCreate _ | OUpdate _ | ODelete _ _ => true | _ => false end.

(** What the types of the code ensure: slots are [u32]s, and programs come from
    their constructors. *)
Definition operator_typed (op : Operator) : Prop :=
  Forall (in_u 32) (outputs op) /\
  match op with
  | OMatch _ _ predicate => Forall (fun f => selection_new (selection_expression f) = done f) (opt predicate)
  | OFilter f => selection_new (selection_expression f) = done f
  | OProject program _ _ predicate _ _ =>
      projection_new (items program) = done program /\
      Forall (fun f => selection_new (selection_expression f) = done f) (opt predicate)
  | _ => True
  end.

(** ** Sets of slots *)

Lemma in_set_extend s l x : x ∈ set_extend s l <-> x ∈ s \/ x ∈ l.
Proof.
  unfold set_extend. revert s. induction l as [|y l IH]; intros s; simpl; [set_solver|].
  rewrite IH, (BTree.in_set_insert Z.compare). set_solver.
Qed.

Lemma in_slot_set l x : x ∈ slot_set l <-> x ∈ l.
Proof. unfold slot_set. rewrite in_set_extend. set_solver. Qed.

Lemma set_extend_sorted s l : BTree.sorted_set Z.compare s -> BTree.sorted_set Z.compare (set_extend s l).
Proof.
  unfold set_extend. revert s. induction l as [|y l IH]; intros s Hs; simpl; [done|].
  apply IH. by apply BTree.set_insert_sorted; [apply _|].
Qed.

Lemma in_references e x : x ∈ references e <-> x ∈ slots e.
Proof. unfold references. by rewrite in_slot_set, elem_of_elements. Qed.

Lemma holds_iff s x : holds s x = true <-> x ∈ s.
Proof. apply (BTree.contains_iff Z.compare). Qed.

Lemma not_holds_iff s x : negb (holds s x) = false <-> x ∈ s.
Proof. by rewrite negb_false_iff, holds_iff. Qed.

Lemma existsb_false {A} (f : A -> bool) l : existsb f l = false <-> Forall (fun x => f x = false) l.
Proof.
  induction l as [|x l IH]; simpl; [done|]. by rewrite orb_false_iff, IH, Forall_cons.
Qed.

Lemma is_subset_iff s t : is_subset s t = true <-> forall x, x ∈ s -> x ∈ t.
Proof.
  unfold is_subset. rewrite forallb_forall. setoid_rewrite <- list_elem_of_In. by setoid_rewrite holds_iff.
Qed.

(** ** Checks and what they check *)

(** The check neither panics nor passes when it should not. *)
Definition passes (m : V unit) (P : Prop) : Prop := exists r, m = Some r /\ (r = Ok tt <-> P).

Lemma passes_done : passes (done tt) True.
Proof. by exists (Ok tt). Qed.

Lemma passes_iff m P Q : passes m P -> (P <-> Q) -> passes m Q.
Proof. intros (r & -> & Hr) H. exists r. by rewrite Hr. Qed.

Lemma passes_bind m (k : unit -> V unit) P Q : passes m P -> (P -> passes (k tt) Q) -> passes (vbind m k) (P /\ Q).
Proof.
  intros (r & -> & Hr) Hk. destruct r as [[]|e]; cbn [vbind].
  - assert P as HP by by apply Hr. destruct (Hk HP) as (r & -> & Hr'). exists r. split; [done|tauto].
  - exists (Err e). split; [done|]. split; [done|]. intros [HP _]. by apply Hr in HP.
Qed.

Lemma passes_unless (b : bool) e m P Q : (b = false <-> P) -> (P -> passes m Q) ->
  passes (if b then failed e else m) (P /\ Q).
Proof.
  intros Hb Hm. destruct b.
  - exists (Err e). split; [done|]. split; [done|]. intros [HP _]. by apply Hb in HP.
  - assert P as HP by by apply Hb. destruct (Hm HP) as (r & -> & Hr). exists r. split; [done|tauto].
Qed.

Lemma passes_each {A} (f : A -> V unit) (P : A -> Prop) l : (forall x, x ∈ l -> passes (f x) (P x)) ->
  passes (check_each f l) (Forall P l).
Proof.
  induction l as [|x l IH]; intros H; [exists (Ok tt); split; [done|]; split; [intros _; constructor|done]|]. cbn [check_each].
  eapply passes_iff; [|by rewrite Forall_cons]. apply passes_bind; [apply H; by left|]. intros _. apply IH. set_solver.
Qed.

Lemma any_of_exists {A} (f : A -> option bool) (P : A -> Prop) l :
  (forall x, x ∈ l -> exists b, f x = Some b /\ (b = true <-> P x)) ->
  exists b, any_of f l = Some b /\ (b = true <-> Exists P l).
Proof.
  induction l as [|x l IH]; intros H; [exists false; split; [done|]; by rewrite Exists_nil|]. cbn [any_of].
  destruct (H x) as (b & -> & Hb); [by left|]. cbn [mbind option_bind]. destruct b.
  - exists true. rewrite Exists_cons. split; [done|tauto].
  - destruct IH as (b & -> & Hb'); [set_solver|]. exists b. split; [done|]. rewrite Hb', Exists_cons.
    split; [by right|]. intros [HP|]; [by apply Hb in HP|done].
Qed.

(** ** Expressions and programs *)

Lemma validate_passes e : passes (validate e) (well_formed e).
Proof.
  unfold validate, validate_expression, well_formed.
  destruct (shape_loop_exact (S (length (nodes e))) [(e, 0)] 0) as (r & -> & Hiff).
  - done.
  - unfold pending_nodes. simpl. rewrite app_nil_r. lia.
  - exists r. split; [done|]. rewrite Hiff. unfold pending_ok, pending_nodes. cbn [flat_map fst].
    by rewrite app_nil_r, Forall_singleton.
Qed.

Lemma check_passes scope e : passes (check scope e) (expression_in scope e).
Proof.
  unfold check, expression_in. apply passes_bind; [apply validate_passes|]. intros _.
  eapply passes_iff; [apply (passes_unless _ _ _ (forall s, s ∈ slots e -> s ∈ scope) True)|tauto].
  - rewrite existsb_false, Forall_forall. setoid_rewrite in_references. by setoid_rewrite not_holds_iff.
  - intros _. apply passes_done.
Qed.

Lemma check_properties scope (l : list (bytes * Expression)) :
  passes (check_each (fun p => check scope p.2) l) (Forall (fun p => expression_in scope p.2) l).
Proof. apply passes_each. intros p _. apply check_passes. Qed.

Lemma selection_built f : selection_new (selection_expression f) = done f ->
  well_formed (selection_expression f) /\ selection_references f = references (selection_expression f).
Proof.
  unfold selection_new. destruct (validate_passes (selection_expression f)) as ([[]|e] & -> & Hr); [|done]. cbn [vbind].
  intros [= H]. split; [by apply Hr|]. by rewrite <- H.
Qed.

Lemma selection_passes f scope : selection_new (selection_expression f) = done f ->
  passes (selection_validate_input f scope) (expression_in scope (selection_expression f)).
Proof.
  intros [Hw Hf]%selection_built. unfold selection_validate_input.
  eapply passes_iff; [apply (passes_unless _ _ _ (forall s, s ∈ slots (selection_expression f) -> s ∈ scope) True)|].
  - rewrite negb_false_iff, is_subset_iff, Hf. by setoid_rewrite in_references.
  - intros _. apply passes_done.
  - unfold expression_in. tauto.
Qed.

Lemma projection_loop_spec rest outs refs :
  exists r, projection_loop rest outs refs = Some r /\
    forall outs' refs', r = Ok (outs', refs') ->
      Forall (fun item => well_formed (projection_expression item)) rest /\
      NoDup (map projection_slot rest) /\ (forall item, item ∈ rest -> projection_slot item ∉ outs) /\
      (forall x, x ∈ refs' <-> x ∈ refs \/ exists item, item ∈ rest /\ x ∈ slots (projection_expression item)).
Proof.
  revert outs refs. induction rest as [|item rest IH]; intros outs refs.
  { exists (Ok (outs, refs)). split; [done|]. intros ? ? [= <- <-]. split_and!; [constructor|constructor|set_solver|set_solver]. }
  cbn [projection_loop]. destruct (holds outs (projection_slot item)) eqn:Eh; [by eexists|].
  destruct (validate_passes (projection_expression item)) as ([[]|e] & -> & Hr); cbn [vbind]; [|by eexists].
  destruct (IH (BTree.set_insert Z.compare (projection_slot item) outs) (set_extend refs (references (projection_expression item))))
    as (r & -> & H). exists r. split; [done|]. intros outs' refs' ->. destruct (H _ _ eq_refl) as (H1 & H2 & H3 & H4).
  assert (projection_slot item ∉ outs) as Hout by (intros Hin%holds_iff; congruence).
  split_and!.
  - constructor; [by apply Hr|done].
  - constructor; [|done]. intros (item' & E & Hin)%list_elem_of_fmap. apply (H3 item' Hin).
    rewrite <- E. apply (BTree.in_set_insert Z.compare). by left.
  - intros item' [->|Hin]%elem_of_cons; [done|]. intros Hbad. apply (H3 item' Hin). apply (BTree.in_set_insert Z.compare). by right.
  - intros x. rewrite H4, in_set_extend, in_references. split; [set_solver|].
    intros [?|(item' & [->|Hin]%elem_of_cons & Hx)]; [by left; left|by left; right|right; by exists item'].
Qed.

Lemma projection_built p : projection_new (items p) = done p ->
  Forall (fun item => well_formed (projection_expression item)) (items p) /\ NoDup (map projection_slot (items p)) /\
  forall x, x ∈ projection_references p <-> exists item, item ∈ items p /\ x ∈ slots (projection_expression item).
Proof.
  unfold projection_new. destruct (projection_loop_spec (items p) [] []) as ([[outs refs]|e] & -> & H); [|done].
  cbn [vbind]. intros [= Hp]. destruct (H _ _ eq_refl) as (H1 & H2 & _ & H4). split_and!; [done|done|].
  intros x. rewrite <- Hp at 1. cbn [projection_references]. rewrite H4. set_solver.
Qed.

Lemma projection_passes p scope : projection_new (items p) = done p ->
  passes (projection_validate_input p scope) (Forall (fun item => expression_in scope (projection_expression item)) (items p)).
Proof.
  intros (Hw & _ & Hrefs)%projection_built. unfold projection_validate_input.
  eapply passes_iff; [apply (passes_unless _ _ _ (forall x, x ∈ projection_references p -> x ∈ scope) True)|].
  - by rewrite negb_false_iff, is_subset_iff.
  - intros _. apply passes_done.
  - pose proof (proj1 (Forall_forall _ _) Hw) as Hw'. split.
    + intros [H _]. apply Forall_forall. intros item Hi. split; [by apply Hw'|]. intros s Hs. apply H, Hrefs. by exists item.
    + intros H. split; [|done]. intros x (item & Hi & Hx)%Hrefs. rewrite Forall_forall in H. by apply (H item Hi).
Qed.

(** ** Patterns *)

Definition in_catalog (bindings : list Binding) (s : Z) : Prop := 0 <= s < len bindings.

Lemma catalog_binding bindings s : in_catalog bindings s -> exists b, bindings !! Z.to_nat s = Some b.
Proof. intros H. apply lookup_lt_is_Some. unfold in_catalog, len in H. lia. Qed.

Lemma mistyped_iff k b : mistyped k b = false <-> kind b = k \/ value_type b = TAny \/ value_type b = TNull.
Proof.
  unfold mistyped, untyped. rewrite andb_false_iff, !negb_false_iff, orb_true_iff, !bool_decide_eq_true. done.
Qed.

Lemma not_a_iff bindings k s : not_a bindings k s = false <-> binds bindings k s.
Proof.
  unfold not_a, binds. destruct (bindings !! Z.to_nat s) as [b|]; [|naive_solver]. rewrite mistyped_iff. naive_solver.
Qed.

Lemma in_nodes_iff p s : in_nodes p s = true <-> s ∈ node_slots p.
Proof.
  unfold in_nodes, node_slots. rewrite existsb_exists. setoid_rewrite <- list_elem_of_In. rewrite list_elem_of_fmap.
  split; intros (n & H1 & H2); exists n; [apply Z.eqb_eq in H2|rewrite Z.eqb_eq]; done.
Qed.

Lemma rel_slot_iff p s : existsb (fun rel => rel_slot rel =? s) (pattern_relationships p) = true <->
  s ∈ map rel_slot (pattern_relationships p).
Proof.
  rewrite existsb_exists. setoid_rewrite <- list_elem_of_In. rewrite list_elem_of_fmap.
  split; intros (n & H1 & H2); exists n; [apply Z.eqb_eq in H2|rewrite Z.eqb_eq]; done.
Qed.

Lemma node_slots_in_slots p s : s ∈ node_slots p -> s ∈ pattern_slots p.
Proof. intros H. unfold pattern_slots. rewrite in_slot_set, !elem_of_app. by left. Qed.

Lemma node_passes bindings scope n : passes (check_node_pattern bindings scope n) (node_valid bindings scope n).
Proof.
  unfold check_node_pattern.
  apply (passes_iff _ (node_label n <> Some [] /\ binds bindings BNode (node_slot n) /\
    Forall (fun p => expression_in scope p.2) (node_properties n))); [|split; [intros (?&?&?); by split|by intros []]].
  apply passes_unless; [apply bool_decide_eq_false|]. intros _.
  apply passes_unless; [apply not_a_iff|]. intros _. apply check_properties.
Qed.

Lemma relationship_passes bindings p scope r : (forall s, s ∈ node_slots p -> s ∈ scope) ->
  passes (check_relationship bindings p scope r) (relationship_valid bindings p scope r).
Proof.
  intros Hsub. unfold check_relationship.
  apply (passes_iff _ ((Forall (fun t => t <> []) (rel_types r) /\ rel_from r ∈ node_slots p /\ rel_to r ∈ node_slots p) /\
    binds bindings BRelationship (rel_slot r) /\ Forall (fun q => expression_in scope q.2) (rel_properties r)));
    [|split; [intros ((?&?&?)&?&?); by split|by intros []]].
  apply passes_unless; [|intros (_ & Hf & Ht); apply passes_unless; [|intros _; apply check_properties]].
  - rewrite orb_false_iff, !existsb_false, !Forall_cons, !negb_false_iff, !in_nodes_iff.
    setoid_rewrite bool_decide_eq_false. split; [naive_solver|]. intros (? & ? & ?). by repeat constructor.
  - rewrite !orb_false_iff, not_a_iff, !not_holds_iff. split; [tauto|]. auto.
Qed.

Lemma joins_spec path i x y : (S i < length (path_nodes path))%nat ->
  exists b, joins path i x y = Some b /\
    (b = true <-> path_nodes path !! i = Some x /\ path_nodes path !! S i = Some y).
Proof.
  intros Hi. unfold joins. destruct (lookup_lt_is_Some_2 (path_nodes path) i) as [a Ha]; [lia|].
  destruct (lookup_lt_is_Some_2 (path_nodes path) (S i)) as [b Hb]; [done|]. rewrite Ha, Hb. cbn [mbind option_bind].
  destruct (Z.eqb_spec x a) as [->|]; [exists (y =? b); rewrite Z.eqb_eq|exists false]; naive_solver.
Qed.

Definition joined (p : Pattern) (path : PathPattern) (i : nat) (s : Z) : Prop := exists rel a b,
  rel ∈ pattern_relationships p /\ rel_slot rel = s /\
  path_nodes path !! i = Some a /\ path_nodes path !! S i = Some b /\
  ((rel_from rel = a /\ rel_to rel = b) \/ (rel_to rel = a /\ rel_from rel = b)).

Lemma connects_spec p path i s : (S i < length (path_nodes path))%nat ->
  exists b, connects p path i s = Some b /\ (b = true <-> joined p path i s).
Proof.
  intros Hi. unfold connects.
  match goal with |- context [any_of ?f ?l] => destruct (any_of_exists f (fun rel => rel_slot rel = s /\
    ((path_nodes path !! i = Some (rel_from rel) /\ path_nodes path !! S i = Some (rel_to rel)) \/
     (path_nodes path !! i = Some (rel_to rel) /\ path_nodes path !! S i = Some (rel_from rel)))) l) as (b & E & Hb) end.
  - intros rel _. destruct (Z.eqb_spec (rel_slot rel) s) as [Hs|Hs]; cbn [negb]; [|exists false; naive_solver].
    destruct (joins_spec path i (rel_from rel) (rel_to rel) Hi) as (b1 & -> & H1). cbn [mbind option_bind].
    destruct (joins_spec path i (rel_to rel) (rel_from rel) Hi) as (b2 & -> & H2).
    destruct b1; [exists true|exists b2]; naive_solver.
  - exists b. split; [done|]. rewrite Hb, Exists_exists. unfold joined. naive_solver.
Qed.

Lemma connected_passes p path rels i : (i + length rels < length (path_nodes path))%nat ->
  passes (check_connected p path i rels) (forall j s, rels !! j = Some s -> joined p path (i + j) s).
Proof.
  revert i. induction rels as [|r rels IH]; intros i Hi; simpl in Hi.
  { exists (Ok tt). split; [done|]. split; [by intros _ j s|done]. }
  cbn [check_connected]. destruct (connects_spec p path i r) as (b & E & Hb); [lia|]. rewrite E. cbn [total fmap option_fmap option_map vbind].
  apply (passes_iff _ (joined p path i r /\ forall j s, rels !! j = Some s -> joined p path (S i + j) s)).
  - apply passes_unless; [by rewrite negb_false_iff|]. intros _. apply IH. lia.
  - split.
    + intros [H1 H2] [|j] s Hj; simpl in Hj; [injection Hj as <-; by rewrite Nat.add_0_r|].
      replace (i + S j)%nat with (S i + j)%nat by lia. by apply H2.
    + intros H. split; [specialize (H 0%nat r eq_refl); by rewrite Nat.add_0_r in H|].
      intros j s Hj. replace (S i + j)%nat with (i + S j)%nat by lia. by apply H.
Qed.

Section Path.
Context (bindings : list Binding) (p : Pattern) (scope : list Z).
Context (Hnodes : Forall (node_valid bindings scope) (pattern_nodes p)).
Context (Hrels : Forall (relationship_valid bindings p scope) (pattern_relationships p)).
Context (Hsub : forall s, s ∈ pattern_slots p -> s ∈ scope) (Hcat : Forall (in_catalog bindings) scope).

Lemma path_node_bad s :
  exists b, (if negb (holds scope s) || negb (in_nodes p s) then Some true else member_mistyped bindings BNode s) = Some b /\
    (b = true <-> s ∉ node_slots p).
Proof.
  destruct (negb (holds scope s) || negb (in_nodes p s)) eqn:E.
  - exists true. split; [done|]. split; [|done]. intros _ Hin.
    apply orb_true_iff in E as [E|E]; apply negb_true_iff, not_true_iff_false in E; apply E.
    + apply holds_iff, Hsub, node_slots_in_slots, Hin.
    + by apply in_nodes_iff.
  - apply orb_false_iff in E as [_ E]. apply negb_false_iff, in_nodes_iff in E.
    pose proof E as (n & -> & Hn)%list_elem_of_fmap. rewrite Forall_forall in Hnodes.
    destruct (nv_binds _ _ _ (Hnodes n Hn)) as (b & Hb & Hk). unfold member_mistyped. rewrite Hb.
    exists (mistyped BNode b). split; [done|]. apply mistyped_iff in Hk. rewrite Hk. split; [done|]. intros H. by destruct H.
Qed.

Lemma path_rel_bad s :
  exists b, (if negb (holds scope s) then Some true else member_mistyped bindings BRelationship s) = Some b /\
    (b = true -> s ∉ map rel_slot (pattern_relationships p)).
Proof.
  destruct (holds scope s) eqn:E; cbn [negb].
  - apply holds_iff in E. rewrite Forall_forall in Hcat. destruct (catalog_binding bindings s (Hcat s E)) as [b Hb].
    unfold member_mistyped. rewrite Hb. exists (mistyped BRelationship b). split; [done|].
    intros Hm (r & -> & Hr)%list_elem_of_fmap. rewrite Forall_forall in Hrels.
    destruct (rv_binds _ _ _ _ (Hrels r Hr)) as (b' & Hb' & Hk%mistyped_iff). congruence.
  - exists true. split; [done|]. intros _ Hin. apply not_true_iff_false in E. apply E, holds_iff, Hsub.
    unfold pattern_slots. rewrite in_slot_set, !elem_of_app. by right; left.
Qed.

Lemma path_members_spec path : path ∈ pattern_paths p ->
  exists bad, path_members_bad bindings p scope path = Some bad /\
    (path_valid bindings p path -> bad = false) /\
    (bad = false -> (exists b, bindings !! Z.to_nat (path_slot path) = Some b /\ kind b = BPath) /\
      path_slot path ∉ node_slots p /\ path_slot path ∉ map rel_slot (pattern_relationships p) /\
      Forall (fun s => s ∈ node_slots p) (path_nodes path)).
Proof.
  intros Hpath. unfold path_members_bad.
  destruct (catalog_binding bindings (path_slot path)) as [b Hb].
  { rewrite Forall_forall in Hcat. apply Hcat, Hsub. unfold pattern_slots. rewrite in_slot_set, !elem_of_app. right; right.
    apply list_elem_of_fmap. by exists path. }
  rewrite Hb. cbn [mbind option_bind].
  destruct (negb (bool_decide (kind b = BPath)) || in_nodes p (path_slot path) ||
    existsb (fun rel => rel_slot rel =? path_slot path) (pattern_relationships p)) eqn:Ehead.
  { exists true. split; [done|]. split; [|done]. intros [(b' & Hb' & Hk) Hn Hr _ _ _]. exfalso.
    apply orb_true_iff in Ehead as [[Ek|En]%orb_true_iff|Er].
    - apply negb_true_iff, bool_decide_eq_false in Ek. rewrite Hb in Hb'. congruence.
    - by apply Hn, in_nodes_iff.
    - by apply Hr, rel_slot_iff. }
  apply orb_false_iff in Ehead as [[Ek En]%orb_false_iff Er]. apply negb_false_iff, bool_decide_eq_true in Ek.
  apply not_true_iff_false in En, Er. rewrite in_nodes_iff in En. rewrite rel_slot_iff in Er.
  destruct (any_of_exists _ (fun s => s ∉ node_slots p) (path_nodes path) (fun s _ => path_node_bad s)) as (bad & -> & Hbad).
  cbn [mbind option_bind]. destruct bad.
  { exists true. split; [done|]. split; [|done]. intros [_ _ _ Hn _ _]. exfalso.
    pose proof (proj1 Hbad eq_refl) as (s & Hs & H)%Exists_exists. rewrite Forall_forall in Hn. by apply H, Hn. }
  assert (Forall (fun s => s ∈ node_slots p) (path_nodes path)) as Hn.
  { apply Forall_forall. intros s Hs. apply dec_stable. intros Hno. by assert (false = true) by (apply Hbad, Exists_exists; eauto). }
  assert (forall s, s ∈ path_relationships path -> exists b, (if negb (holds scope s) then Some true else member_mistyped bindings BRelationship s) = Some b /\
    (b = true <-> (if negb (holds scope s) then Some true else member_mistyped bindings BRelationship s) = Some true)) as Hany.
  { intros s _. destruct (path_rel_bad s) as (b1 & -> & _). exists b1. split; [done|]. naive_solver. }
  destruct (any_of_exists _ _ _ Hany) as (bad & -> & Hbad'). exists bad. split; [done|]. split; [|naive_solver].
  intros [_ _ _ _ _ Hj]. destruct bad; [|done]. exfalso.
  pose proof (proj1 Hbad' eq_refl) as (s & Hs & Hb1)%Exists_exists. destruct (path_rel_bad s) as (b1 & E1 & Hno).
  rewrite E1 in Hb1. apply list_elem_of_lookup in Hs as [i Hi]. destruct (Hj i s Hi) as (rel & _ & _ & Hrel & <- & _).
  apply Hno; [by injection Hb1|]. apply list_elem_of_fmap. by exists rel.
Qed.

Lemma path_passes path : path ∈ pattern_paths p ->
  passes (check_path bindings p scope path) (path_valid bindings p path).
Proof.
  intros Hpath. unfold check_path. destruct (path_members_spec path Hpath) as (bad & -> & Hvalid & Hok).
  cbn [total fmap option_fmap option_map vbind]. destruct bad.
  { eexists. split; [done|]. split; [done|]. intros Hv. by apply Hvalid in Hv. }
  destruct (Hok eq_refl) as (Hk & Hn & Hr & Hns).
  apply (passes_iff _ (length (path_nodes path) = S (length (path_relationships path)) /\
    forall j s, path_relationships path !! j = Some s -> joined p path (0 + j) s)).
  - apply passes_unless; [rewrite negb_false_iff, Nat.eqb_eq; lia|]. intros Hlen. apply connected_passes. lia.
  - split; [intros [Hlen Hj]; by split|]. intros [_ _ _ _ Hlen Hj]. done.
Qed.

Lemma paths_pass : passes (check_each (check_path bindings p scope) (pattern_paths p)) (Forall (path_valid bindings p) (pattern_paths p)).
Proof. apply passes_each. apply path_passes. Qed.
End Path.

Lemma pattern_passes bindings p scope : (forall s, s ∈ pattern_slots p -> s ∈ scope) -> Forall (in_catalog bindings) scope ->
  passes (check_pattern bindings p scope) (pattern_valid bindings scope p).
Proof.
  intros Hsub Hcat. unfold check_pattern.
  apply (passes_iff _ (Forall (node_valid bindings scope) (pattern_nodes p) /\
    Forall (relationship_valid bindings p scope) (pattern_relationships p) /\
    Forall (path_valid bindings p) (pattern_paths p))); [|split; [intros (?&?&?); by split|by intros []]].
  apply passes_bind; [apply passes_each; intros n _; apply node_passes|]. intros Hn.
  apply passes_bind; [|intros Hr; by apply paths_pass].
  apply passes_each. intros r _. apply relationship_passes. intros s Hs. by apply Hsub, node_slots_in_slots.
Qed.

(** ** Operators *)

(** The scope [scope_after] and the effect, when the operator is valid. *)
Definition gives (m : V (list Z * Effect)) (P : Prop) (r : list Z * Effect) : Prop :=
  exists x, m = Some x /\ (x = Ok r \/ is_ok x = false) /\ (x = Ok r <-> P).

Lemma gives_done r : gives (done r) True r.
Proof. exists (Ok r). split; [done|]. split; [by left|done]. Qed.

Lemma gives_bind m (k : unit -> V (list Z * Effect)) P Q r : passes m P -> (P -> gives (k tt) Q r) ->
  gives (vbind m k) (P /\ Q) r.
Proof.
  intros (x & -> & Hx) Hk. destruct x as [[]|e]; cbn [vbind].
  - assert P as HP by by apply Hx. destruct (Hk HP) as (y & -> & Hy & Hiff). exists y. split; [done|]. split; [done|tauto].
  - exists (Err e). split; [done|]. split; [by right|]. split; [done|]. intros [HP _]. by apply Hx in HP.
Qed.

Lemma gives_iff m P Q r : gives m P r -> (P <-> Q) -> gives m Q r.
Proof. intros (x & -> & H & Hx) E. exists x. split; [done|]. split; [done|]. by rewrite Hx, E. Qed.

Lemma selection_each (o : option SelectionProgram) scope :
  Forall (fun f => selection_new (selection_expression f) = done f) (opt o) ->
  passes (check_each (fun f => selection_validate_input f scope) (opt o))
    (Forall (fun f => expression_in scope (selection_expression f)) (opt o)).
Proof. intros Ho. rewrite Forall_forall in Ho. apply passes_each. intros f Hf. apply selection_passes. by apply Ho. Qed.

Lemma mutation_passes scope m : passes (check_mutation scope m) (mutation_valid scope m).
Proof.
  unfold check_mutation, mutation_valid.
  apply (passes_iff _ (expression_in scope (ESlot (mutation_entity m)) /\ Forall (expression_in scope) (opt (mutation_value m)))).
  - apply passes_bind; [apply check_passes|]. intros _. destruct (mutation_value m) as [e|]; cbn [opt].
    + eapply passes_iff; [apply check_passes|]. by rewrite Forall_singleton.
    + eapply passes_iff; [apply passes_done|]. split; [constructor|done].
  - assert (forall s, s ∈ slots (ESlot (mutation_entity m)) <-> s = mutation_entity m) as Hs.
    { intros s. rewrite slots_spec. cbn [nodes]. rewrite Exists_cons, Exists_nil. naive_solver. }
    unfold expression_in at 1. setoid_rewrite Hs.
    assert (well_formed (ESlot (mutation_entity m))) as Hw.
    { destruct (validate_passes (ESlot (mutation_entity m))) as (r & Hr & Hiff). apply Hiff. vm_compute in Hr. by injection Hr as <-. }
    naive_solver.
Qed.

(** What the rules ask of an operator beyond its outputs. *)
Lemma operator_passes bindings scope op effect : operator_typed op -> Forall (in_catalog bindings) scope ->
  Forall (fun s => s < len bindings) (outputs op) ->
  gives (check_operator bindings op scope effect) (operator_valid bindings scope op)
    (scope_after scope op, if is_write op then Write else effect).
Proof.
  intros [Hu Ht] Hcat Hout.
  assert (forall P r m, gives m P r -> gives m (Forall (fun s => s < len bindings) (outputs op) /\ P) r) as Hdrop.
  { intros P r m H. eapply gives_iff; [exact H|]. tauto. }
  assert (forall m P r, gives m (P /\ True) r -> gives m P r) as Htrue.
  { intros m P r H. eapply gives_iff; [exact H|]. tauto. }
  assert (forall s, s ∈ outputs op -> s ∈ set_extend scope (outputs op)) as Hsub by (intros s Hs; rewrite in_set_extend; by right).
  assert (Forall (in_catalog bindings) (set_extend scope (outputs op))) as Hcat'.
  { rewrite Forall_forall in Hcat, Hu, Hout. apply Forall_forall. intros s [Hs|Hs]%in_set_extend; [by apply Hcat|].
    specialize (Hu s Hs). specialize (Hout s Hs). unfold in_u, in_catalog in *. lia. }
  unfold operator_valid.
  destruct op as [p optional predicate|f|e slot|program distinct ordering predicate skip limit|p|updates|entities detach];
    apply Hdrop; cbn [check_operator is_write] in *.
  - apply gives_bind; [by apply pattern_passes|]. intros _. apply Htrue.
    apply gives_bind; [by apply selection_each|]. intros _. apply gives_done.
  - apply Htrue, gives_bind; [by apply selection_passes|]. intros _. apply gives_done.
  - apply Htrue, gives_bind; [apply check_passes|]. intros _. apply gives_done.
  - destruct Ht as [Hp Ht]. apply gives_bind; [by apply projection_passes|]. intros _.
    apply gives_bind; [apply passes_each; intros o _; apply check_passes|]. intros _.
    apply gives_bind; [by apply selection_each|]. intros _. apply Htrue.
    apply gives_bind; [apply passes_each; intros e _; apply check_passes|]. intros _. apply gives_done.
  - apply Htrue, gives_bind; [by apply pattern_passes|]. intros _. apply gives_done.
  - apply Htrue, gives_bind; [apply passes_each; intros m _; apply mutation_passes|]. intros _. apply gives_done.
  - apply Htrue, gives_bind; [apply passes_each; intros e _; apply check_passes|]. intros _. apply gives_done.
Qed.

(** Scopes stay increasing and in the catalog. *)
Definition scope_good (bindings : list Binding) (scope : list Z) : Prop :=
  BTree.sorted_set Z.compare scope /\ Forall (in_catalog bindings) scope.

Lemma in_scope_after scope op s : s ∈ scope_after scope op -> s ∈ scope \/ s ∈ outputs op.
Proof. destruct op; cbn [scope_after]; rewrite ?in_set_extend; tauto. Qed.

Lemma scope_after_good bindings scope op : operator_typed op -> Forall (fun s => s < len bindings) (outputs op) ->
  scope_good bindings scope -> scope_good bindings (scope_after scope op).
Proof.
  intros [Hu _] Hout [Hs Hcat]. split.
  - destruct op; cbn [scope_after outputs]; try done; try (by apply set_extend_sorted). apply set_extend_sorted. constructor.
  - apply Forall_forall. intros s [H|H]%in_scope_after; rewrite Forall_forall in Hcat, Hu, Hout; [by apply Hcat|].
    specialize (Hu s H). specialize (Hout s H). unfold in_u, in_catalog in *. lia.
Qed.

(** Every slot an operator's expressions read, or that it names, is in scope before or after it. *)
Lemma expression_scope bindings scope op e s : operator_valid bindings scope op -> e ∈ expressions op -> s ∈ slots e ->
  s ∈ scope \/ s ∈ scope_after scope op.
Proof.
  intros [_ Hv] He Hs.
  assert (forall sc p, pattern_valid bindings sc p -> e ∈ pattern_expressions p -> s ∈ sc) as Hpat.
  { intros sc p [Hn Hr _] ([k e'] & -> & Hin)%list_elem_of_fmap. rewrite Forall_forall in Hn; rewrite Forall_forall in Hr.
    apply elem_of_app in Hin as [Hin|Hin]; apply list_elem_of_In, in_flat_map in Hin as (x & Hx & Hin);
      rewrite <- list_elem_of_In in Hx; rewrite <- list_elem_of_In in Hin.
    - pose proof (nv_properties _ _ _ (Hn x Hx)) as Hp. rewrite Forall_forall in Hp. by apply (Hp _ Hin).
    - pose proof (rv_properties _ _ _ _ (Hr x Hx)) as Hp. rewrite Forall_forall in Hp. by apply (Hp _ Hin). }
  assert (forall sc (o : option SelectionProgram), Forall (fun f => expression_in sc (selection_expression f)) (opt o) ->
    e ∈ map selection_expression (opt o) -> s ∈ sc) as Hsel.
  { intros sc o Ho (f & -> & Hf)%list_elem_of_fmap. rewrite Forall_forall in Ho. by apply (Ho f Hf). }
  destruct op as [p optional predicate|f|e' slot|program distinct ordering predicate skip limit|p|updates|entities detach];
    cbn [expressions scope_after outputs] in *.
  - right. destruct Hv as [Hp Hf]. apply elem_of_app in He as [He|He]; [by eapply Hpat|by eapply Hsel].
  - left. apply list_elem_of_singleton in He as ->. by apply Hv.
  - left. apply list_elem_of_singleton in He as ->. by apply Hv.
  - destruct Hv as (Hi & Ho & Hf & Hw). rewrite in_slot_set.
    assert (s ∈ set_extend scope (map projection_slot (items program)) -> s ∈ scope \/ s ∈ map projection_slot (items program)) as Hboth
      by by rewrite in_set_extend.
    rewrite !elem_of_app in He. destruct He as [He|[He|[He|He]]].
    + left. apply list_elem_of_fmap in He as (i & -> & Hin). rewrite Forall_forall in Hi. by apply (Hi i Hin).
    + apply Hboth. apply list_elem_of_fmap in He as (o & -> & Hin). rewrite Forall_forall in Ho. by apply (Ho o Hin).
    + apply Hboth. by eapply Hsel.
    + rewrite Forall_forall in Hw. destruct (Hw e) as [_ H]; [by rewrite elem_of_app|]. by apply H, elem_of_nil in Hs.
  - right. by eapply Hpat.
  - left. apply list_elem_of_omap in He as (m & Hm & Hv'). rewrite Forall_forall in Hv. destruct (Hv m Hm) as [_ Hx].
    rewrite Hv' in Hx. apply Forall_inv in Hx. by apply Hx.
  - left. rewrite Forall_forall in Hv. by apply (Hv e He).
Qed.

End QueryPlanSpec.
