(* ===== verification/QueryContracts.v ===== *)
(** The contracts of validated queries: what [OperatorContract::derive] records of
    every operator, and that the loop of [Query::new] never panics. *)
From S2P Require Import Prelude Bytes BTree QueryExpression QuerySchema QueryLayout QueryPlan QueryPlanSpec.

Open Scope Z_scope.

Module QueryContracts.
Export QueryPlanSpec.

(** ** What a contract says *)

(** The slots an operator reads: those of its expressions, the pattern slots that
    are already bound, the entities it updates. *)
Definition reads (scope : list Z) (op : Operator) (s : Z) : Prop :=
  (exists e, e ∈ expressions op /\ s ∈ slots e) \/
  match op with
  | OMatch p _ _ | OCreate p => s ∈ pattern_slots p /\ s ∈ scope
  | OUpdate updates => s ∈ map mutation_entity updates
  | _ => False
  end.

Definition is_optional (op : Operator) : bool :=
  match op with OMatch _ optional _ => optional | _ => false end.

(** The columns an operator leaves. *)
Definition columns_after (bindings : list Binding) (m : list (Z * ColumnType)) (op : Operator) : list (Z * ColumnType) :=
  derive_columns bindings m (scope_after m.*1 op) (is_optional op).

(** Joined to the rows before it through these slots. *)
Definition correlated (scope : list Z) (op : Operator) (refs : list Z) : Correlation :=
  match op with
  | OMatch _ _ _ =>
      match filter (fun s => s ∈ scope) refs with
      | [] => Independent
      | l => Bound l
      end
  | _ => Independent
  end.

Record contract_exact (bindings : list Binding) (schema : RowSchema) (m : list (Z * ColumnType)) (op : Operator)
    (c : OperatorContract) : Prop := {
  ce_input : input c = schema;
  ce_output : reaches bindings (output c) (columns_after bindings m op);
  ce_sorted : BTree.sorted_set Z.compare (contract_references c);
  ce_references : forall s, s ∈ contract_references c <-> reads m.*1 op s;
  ce_correlation : correlation c = correlated m.*1 op (contract_references c);
  ce_effect : contract_effect c = if is_write op then Write else Read }.

(** One contract per operator, each starting from the columns the last one left. *)
Fixpoint contracts_exact (bindings : list Binding) (schema : RowSchema) (m : list (Z * ColumnType)) (ops : list Operator)
    (cs : list OperatorContract) : Prop :=
  match ops, cs with
  | [], [] => True
  | op :: ops, c :: cs =>
      contract_exact bindings schema m op c /\ contracts_exact bindings (output c) (columns_after bindings m op) ops cs
  | _, _ => False
  end.

(** ** Deriving *)

Lemma columns_after_fst bindings m op : (columns_after bindings m op).*1 = scope_after m.*1 op.
Proof. unfold columns_after, derive_columns. rewrite map_map. apply map_id. Qed.

Section Derive.
Context (bindings : list Binding) (schema : RowSchema) (m : list (Z * ColumnType)) (Hr : reaches bindings schema m).

Lemma get_visible s : match BTree.get Z.compare s m with Some _ => s ∈ m.*1 | None => s ∉ m.*1 end.
Proof.
  destruct (BTree.get Z.compare s m) as [c|] eqn:E.
  - apply (BTree.get_in Z.compare) in E. apply list_elem_of_fmap. by exists (s, c).
  - by apply (BTree.get_none Z.compare) in E.
Qed.

Lemma visible_spec l : Forall (fun s => 0 <= s) l -> visible schema l = Some (filter (fun s => s ∈ m.*1) l).
Proof.
  induction 1 as [|s l Hs _ IH]; [done|]. cbn [visible]. rewrite (schema_get_ok bindings schema m) by (done || by apply reaches_ok).
  cbn [mbind option_bind]. rewrite IH. cbn [mbind option_bind]. rewrite filter_cons. pose proof (get_visible s) as H.
  destruct (BTree.get Z.compare s m); case_decide; done.
Qed.

Lemma column_ok ns s : in_catalog bindings s -> column_checked bindings (s, with_overrides bindings ns s) = Some true.
Proof.
  intros Hs. destruct (catalog_binding bindings s Hs) as [b Hb]. unfold column_checked, with_overrides, entering, catalog_column, schema_empty.
  cbn [fst snd catalog]. rewrite list_lookup_fmap, Hb. cbn. rewrite bool_decide_true by done. by destruct (nullable b).
Qed.

(** The assertion of [derive]. *)
Lemma columns_checked : any_of (fun column => negb <$> column_checked bindings column) m = Some false.
Proof.
  pose proof (reaches_ok _ _ _ Hr) as (_ & (_ & Hu & Hb) & _ & ns & _ & Hm). rewrite Hm.
  assert (Forall (fun s => in_catalog bindings s) m.*1) as Hall.
  { rewrite Forall_forall in Hu; rewrite Forall_forall in Hb. apply Forall_forall. intros s Hs. specialize (Hu s Hs).
    specialize (Hb s Hs). unfold in_u, in_catalog in *. lia. }
  clear Hm Hu Hb. induction Hall as [|s l Hs _ IH]; [done|]. cbn [map any_of]. by rewrite column_ok, IH.
Qed.

Lemma in_flat_references (l : list Expression) s : s ∈ flat_map references l <-> exists e, e ∈ l /\ s ∈ slots e.
Proof.
  rewrite list_elem_of_In, in_flat_map. setoid_rewrite <- list_elem_of_In. by setoid_rewrite in_references.
Qed.

Lemma derive_exact op : operator_typed op -> operator_valid bindings m.*1 op -> scope_good bindings m.*1 ->
  exists c, derive op schema (scope_after m.*1 op) bindings = Some c /\ contract_exact bindings schema m op c.
Proof.
  intros Ht Hv Hgood. pose proof (reaches_ok _ _ _ Hr) as Hok. pose proof (scope_after_good bindings m.*1 op Ht (proj1 Hv) Hgood) as [Hs' Hc'].
  assert (forall s, s ∈ flat_map references (expressions op) -> 0 <= s) as Hnn.
  { intros s (e & He & Hs)%in_flat_references. destruct Hgood as [_ Hc]. rewrite Forall_forall in Hc; rewrite Forall_forall in Hc'.
    destruct (expression_scope _ _ _ _ _ Hv He Hs) as [H|H]; [by apply Hc|by apply Hc']. }
  assert (Forall (fun s => 0 <= s) (outputs op)) as Hon by (eapply Forall_impl; [apply Ht|]; by intros s []).
  assert (forall refs, (forall s, s ∈ refs -> 0 <= s) -> visible schema refs = Some (filter (fun s => s ∈ m.*1) refs)) as Hvis.
  { intros refs H. by apply visible_spec, Forall_forall. }
  assert (exists out, schema_derive schema (scope_after m.*1 op) (is_optional op) = Some out /\
    reaches bindings out (columns_after bindings m op)) as (out & Eout & Hout).
  { assert (Forall (in_u 32) (scope_after m.*1 op)) as Hu.
    { destruct Hok as (_ & (_ & Hu & _) & _), Ht as [Hou _]. rewrite Forall_forall in Hu; rewrite Forall_forall in Hou.
      apply Forall_forall. intros s [H|H]%in_scope_after; auto. }
    pose proof (schema_derive_ok bindings schema m _ (is_optional op) Hok Hs' Hu) as H.
    assert (Forall (fun s => s < len bindings) (scope_after m.*1 op)) as Hlt by (eapply Forall_impl; [exact Hc'|]; by intros s []).
    destruct (schema_derive schema (scope_after m.*1 op) (is_optional op)) as [out|] eqn:E; [|done].
    exists out. split; [done|]. eapply reaches_derive; [done| |done]. by split_and!. }
  unfold derive. rewrite (schema_columns_ok bindings schema m) by done. cbn [mbind option_bind]. rewrite columns_checked. cbn [mbind option_bind].
  fold (is_optional op). set (refs := slot_set (flat_map references (expressions op))).
  assert (forall s, s ∈ refs -> 0 <= s) as Hrn by (intros s H; apply Hnn; by apply in_slot_set).
  assert (forall s, s ∈ refs <-> exists e, e ∈ expressions op /\ s ∈ slots e) as Hrefs.
  { intros s. unfold refs. by rewrite in_slot_set, in_flat_references. }
  assert (BTree.sorted_set Z.compare refs) as Hrs by (apply set_extend_sorted; constructor).
  assert (forall p, outputs op = pattern_slots p -> visible schema (pattern_slots p) = Some (filter (fun s => s ∈ m.*1) (pattern_slots p))) as Hpat.
  { intros p Hp. apply visible_spec. by rewrite <- Hp. }
  assert (forall p s, s ∈ set_extend refs (filter (fun s => s ∈ m.*1) (pattern_slots p)) <->
    s ∈ refs \/ (s ∈ pattern_slots p /\ s ∈ m.*1)) as Hext.
  { intros p s. rewrite in_set_extend, list_elem_of_filter. tauto. }
  destruct op as [p optional predicate|f|e slot|program distinct ordering predicate skip limit|p|updates|entities detach];
    cbn [is_optional] in *; rewrite ?Hpat by done; cbn [mbind option_bind]; rewrite ?Hvis; cbn [mbind option_bind];
    try (rewrite Eout; cbn [mbind option_bind]; eexists; split; [reflexivity|]; split; cbn [input output contract_references correlation contract_effect];
      try done; try (by apply set_extend_sorted); try (unfold correlated; by destruct (filter _ _)); intros s; unfold reads; rewrite ?Hext, ?in_set_extend, ?Hrefs; tauto).
  intros s [H|[H _]]%Hext; [by apply Hrn|]. rewrite Forall_forall in Hon. by apply Hon.
Qed.
End Derive.

(** ** The loop over the operators *)

Definition final_scope (scope : list Z) (ops : list Operator) : list Z := fold_left scope_after ops scope.
Definition effect_of (effect : Effect) (ops : list Operator) : Effect := if existsb is_write ops then Write else effect.

(** [c] accepts exactly under [P], and then its result satisfies [Q]. *)
Definition accepts {A} (c : V A) (P : Prop) (Q : A -> Prop) : Prop :=
  exists r, c = Some r /\ (is_ok r = true <-> P) /\ forall a, r = Ok a -> Q a.

Lemma gives_accepts m P r : gives m P r -> accepts m P (fun a => a = r).
Proof.
  intros (x & -> & Hx & HP). exists x. split; [done|]. split.
  - rewrite <- HP. destruct Hx as [->|Hx]; [done|]. rewrite Hx. destruct x; naive_solver.
  - intros a ->. destruct Hx as [[= ->]|]; [done|]. naive_solver.
Qed.

Lemma accepts_bind {A B} (m : V A) (k : A -> V B) P Q P' Q' : accepts m P Q ->
  (forall a, P -> Q a -> accepts (k a) P' Q') -> accepts (vbind m k) (P /\ P') Q'.
Proof.
  intros (r & -> & HP & HQ) Hk. destruct r as [a|e]; cbn [vbind].
  - assert P as Hp by by apply HP. destruct (Hk a Hp (HQ a eq_refl)) as (r & -> & HP' & HQ'). exists r. split_and!; [done|tauto|done].
  - exists (Err e). split_and!; [done| |done]. split; [done|]. intros [Hp _]. by apply HP in Hp.
Qed.

Lemma accepts_total {A} (o : option A) (Q : A -> Prop) : (exists a, o = Some a /\ Q a) -> accepts (total o) True Q.
Proof. intros (a & -> & HQ). exists (Ok a). split_and!; [done|done|]. by intros ? [= <-]. Qed.

Lemma accepts_done {A} (a : A) (Q : A -> Prop) : Q a -> accepts (done a) True Q.
Proof. exists (Ok a). split_and!; [done|done|]. by intros ? [= <-]. Qed.

Lemma accepts_unless {A} (b : bool) e (m : V A) P P' Q : (b = false <-> P) -> (P -> accepts m P' Q) ->
  accepts (if b then failed e else m) (P /\ P') Q.
Proof.
  intros Hb Hm. destruct b.
  - exists (Err e). split_and!; [done| |done]. split; [done|]. intros [Hp _]. by apply Hb in Hp.
  - assert P as Hp by by apply Hb. destruct (Hm Hp) as (r & -> & HP' & HQ). exists r. split_and!; [done|tauto|done].
Qed.

Lemma accepts_iff {A} (m : V A) P P' Q : accepts m P Q -> (P <-> P') -> accepts m P' Q.
Proof. intros (r & -> & HP & HQ) E. exists r. split_and!; [done|by rewrite HP, E|done]. Qed.

Lemma outputs_in bindings l : existsb (fun s => len bindings <=? s) l = false <-> Forall (fun s => s < len (bindings : list Binding)) l.
Proof. rewrite existsb_false, !Forall_forall. setoid_rewrite Z.leb_gt. done. Qed.

Lemma check_operators_spec bindings ops : Forall operator_typed ops -> forall schema m effect,
  reaches bindings schema m -> scope_good bindings m.*1 ->
  accepts (check_operators bindings ops m.*1 effect schema) (operators_valid bindings m.*1 ops)
    (fun '(defined, e, cs) => defined = final_scope m.*1 ops /\ e = effect_of effect ops /\
       contracts_exact bindings schema m ops cs).
Proof.
  induction 1 as [|op ops Ht _ IH]; intros schema m effect Hr Hgood; [by apply accepts_done|]. cbn [check_operators operators_valid].
  apply (accepts_iff _ (Forall (fun s => s < len bindings) (outputs op) /\ operator_valid bindings m.*1 op /\ True /\
    operators_valid bindings (scope_after m.*1 op) ops /\ True)); [|unfold operator_valid; tauto].
  apply accepts_unless; [apply outputs_in|]. intros Hout.
  eapply accepts_bind; [apply gives_accepts, operator_passes; [done|apply Hgood|done]|]. intros a Hv ->.
  eapply accepts_bind; [apply accepts_total, (derive_exact bindings schema m Hr op Ht Hv Hgood)|]. intros c _ Hc.
  pose proof (scope_after_good bindings m.*1 op Ht Hout Hgood) as Hgood'. rewrite <- (columns_after_fst bindings) in Hgood' |- *.
  eapply accepts_bind; [apply IH; [apply (ce_output _ _ _ _ _ Hc)|done]|]. intros [[d e] cs] _ (-> & -> & Hcs).
  apply accepts_done. rewrite columns_after_fst. split_and!; [done| |done].
  unfold effect_of. cbn [existsb]. by destruct (is_write op), (existsb is_write ops).
Qed.

(** ** Layouts of contracts *)

(** The scope of an operator's contract: what is visible before and after it, and what it reads. *)
Definition spanned (m : list (Z * ColumnType)) (op : Operator) (s : Z) : Prop :=
  s ∈ m.*1 \/ s ∈ scope_after m.*1 op \/ reads m.*1 op s.

Lemma reads_spanned bindings (m : list (Z * ColumnType)) op s : operator_valid bindings m.*1 op -> reads m.*1 op s -> s ∈ m.*1 \/ s ∈ scope_after m.*1 op.
Proof.
  intros Hv [(e & He & Hs)|Hr]; [by eapply expression_scope|].
  destruct op as [p optional predicate|f|e slot|program distinct ordering predicate skip limit|p|updates|entities detach]; try done.
  - left. apply Hr.
  - left. apply Hr.
  - left. destruct Hv as [_ Hv]. apply list_elem_of_fmap in Hr as (u & -> & Hu). rewrite Forall_forall in Hv. by apply (Hv u Hu).
Qed.

Lemma contract_scope_ok bindings schema m op c : reaches bindings schema m -> contract_exact bindings schema m op c ->
  exists scope, contract_scope c = Some scope /\ forall s, s ∈ scope <-> spanned m op s.
Proof.
  intros Hr Hc. pose proof (reaches_ok _ _ _ Hr) as (_ & _ & (_ & _ & Hin & _) & _).
  pose proof (reaches_ok _ _ _ (ce_output _ _ _ _ _ Hc)) as (_ & _ & (_ & _ & Hout & _) & _).
  unfold contract_scope, slot_iter. rewrite (ce_input _ _ _ _ _ Hc), Hin, Hout. cbn [mbind option_bind].
  eexists. split; [done|]. intros s. rewrite !elem_of_app, (ce_references _ _ _ _ _ Hc), columns_after_fst. done.
Qed.

(** The scopes of the operators, in order. *)
Fixpoint spans_of (bindings : list Binding) (m : list (Z * ColumnType)) (ops : list Operator) (scopes : list (list Z)) : Prop :=
  match ops, scopes with
  | [], [] => True
  | op :: ops, scope :: scopes =>
      (forall s, s ∈ scope <-> spanned m op s) /\ spans_of bindings (columns_after bindings m op) ops scopes
  | _, _ => False
  end.

Lemma contract_scopes bindings ops : Forall operator_typed ops -> forall schema m cs,
  reaches bindings schema m -> scope_good bindings m.*1 ->
  operators_valid bindings m.*1 ops -> contracts_exact bindings schema m ops cs ->
  exists scopes, mapM contract_scope cs = Some scopes /\ spans_of bindings m ops scopes /\
    Forall (Forall (in_catalog bindings)) scopes.
Proof.
  induction 1 as [|op ops Ht _ IH]; intros schema m [|c cs] Hr Hgood Hv Hcs; try done; [by exists []; repeat constructor|].
  destruct Hv as [Hv Hvs], Hcs as [Hc Hcs]. destruct (contract_scope_ok _ _ _ _ _ Hr Hc) as (scope & E & Hscope).
  pose proof (scope_after_good bindings m.*1 op Ht (proj1 Hv) Hgood) as Hgood'.
  destruct (IH (output c) (columns_after bindings m op) cs) as (scopes & E' & Hs & Hall); rewrite ?columns_after_fst; try done.
  { apply (ce_output _ _ _ _ _ Hc). }
  exists (scope :: scopes). cbn [mapM]. rewrite E. cbn [mbind option_bind]. rewrite E'. split_and!; [done|done|].
  constructor; [|done]. apply Forall_forall. intros s Hs'%Hscope.
  assert (s ∈ m.*1 \/ s ∈ scope_after m.*1 op) as Hin.
  { destruct Hs' as [|[|]]; [by left|by right|by eapply reads_spanned]. }
  destruct Hgood as [_ Hg], Hgood' as [_ Hg']. rewrite Forall_forall in Hg; rewrite Forall_forall in Hg'.
  destruct Hin; [by apply Hg|by apply Hg'].
Qed.

(** ** Queries *)

Record valid_query (bindings : list Binding) (ops : list Operator) (returns : list (bytes * Z)) : Prop := {
  vq_bindings : len bindings <= 4096;
  vq_operators : len ops <= 4096;
  vq_rules : operators_valid bindings [] ops;
  vq_returns : Forall (fun r => r.2 ∈ final_scope [] ops) returns }.

(** What a query derives from its input. *)
Record query_exact (bs : list Binding) (ops : list Operator) (rs : list (bytes * Z)) (q : Query) : Prop := {
  qe_bindings : bindings q = bs;
  qe_operators : operators q = ops;
  qe_returns : returns q = rs;
  qe_effect : effect q = if existsb is_write ops then Write else Read;
  qe_contracts : contracts_exact bs (schema_empty bs) [] ops (contracts q);
  qe_layout : exists scopes, spans_of bs [] ops scopes /\ Forall (Forall (in_catalog bs)) scopes /\ QueryLayout.allocation (len bs) scopes (layout q) }.

Lemma query_new_accepts bs ops rs : Forall operator_typed ops ->
  accepts (query_new bs ops rs) (valid_query bs ops rs) (query_exact bs ops rs).
Proof.
  intros Ht. unfold query_new.
  assert (scope_good bs (@nil (Z * ColumnType)).*1) as Hgood by (split; constructor).
  assert (reaches bs (schema_empty bs) []) as Hr by constructor.
  apply (accepts_iff _ ((len bs <= 4096 /\ len ops <= 4096) /\ operators_valid bs [] ops /\
    Forall (fun r => r.2 ∈ final_scope [] ops) rs /\ True /\ True)); [|split; [intros ((?&?)&?&?&_); by split|by intros []]].
  apply accepts_unless; [rewrite orb_false_iff, !Z.ltb_ge; done|]. intros Hlen.
  eapply accepts_bind; [apply (check_operators_spec bs ops Ht _ [] Read Hr Hgood)|].
  intros [[d e] cs] Hv (-> & -> & Hcs).
  assert (Forall (fun s => s < len bs) (final_scope [] ops)) as Hfinal.
  { assert (scope_good bs (final_scope [] ops)) as [_ Hc]; [|eapply Forall_impl; [exact Hc|]; by intros s []].
    clear Hcs Hr Hlen rs. revert Hgood Hv. cbn [map fmap list_fmap]. unfold final_scope. generalize (@nil Z).
    induction Ht as [|op ops' Hop _ IH]; intros scope Hg Hv; [done|]. destruct Hv as [Hv Hvs]. apply IH; [|done].
    apply scope_after_good; [done|apply Hv|done]. }
  apply accepts_unless.
  { rewrite orb_false_iff, outputs_in, existsb_false. setoid_rewrite not_holds_iff. cbn [map fmap list_fmap]. tauto. }
  intros Hrs. destruct (contract_scopes bs ops Ht _ [] cs Hr Hgood Hv Hcs) as (scopes & Escopes & Hspans & Hall).
  eapply accepts_bind.
  { apply accepts_total. unfold query_layout. rewrite Escopes. cbn [mbind option_bind].
    apply (QueryLayout.layout_allocates (len bs) scopes). eapply Forall_impl; [exact Hall|]. by intros scope. }
  intros l _ Hl. apply accepts_done. split; try done. by exists scopes.
Qed.

(** [C27] Query validation never panics and is exact: whatever the operators, the
    call returns a query or a compile error (no slot is read outside the binding
    catalog, the schemas, the contract assertion and the layout included), and it
    returns a query exactly when the sizes are within 4,096 and every operator is
    valid in the scope left by the ones before it, by the declarative rules of
    QueryPlanSpec, with every returned slot in the last scope. *)
Theorem query_new_exact bs ops rs : Forall operator_typed ops ->
  exists r, query_new bs ops rs = Some r /\ (is_ok r = true <-> valid_query bs ops rs).
Proof. intros (r & E & H & _)%(query_new_accepts bs ops rs). by exists r. Qed.

(** [MATCH p = (a:P {k: $x})-[r]->(b) WITH a.k AS n], over five bindings. *)
Definition sample_catalog : list Binding :=
  [{| name := [97]; kind := BNode; nullable := false; value_type := TNode |};
   {| name := [98]; kind := BNode; nullable := false; value_type := TNode |};
   {| name := [114]; kind := BRelationship; nullable := false; value_type := TRelationship |};
   {| name := [112]; kind := BPath; nullable := false; value_type := TPath |};
   {| name := [110]; kind := BScalar; nullable := false; value_type := TAny |}].
Definition sample_pattern : Pattern := {|
  pattern_nodes := [{| node_slot := 0; node_label := Some [80]; node_properties := [([107], EParameter [120])] |};
                    {| node_slot := 1; node_label := None; node_properties := [] |}];
  pattern_relationships := [{| rel_slot := 2; rel_from := 0; rel_to := 1; rel_direction := Outgoing; rel_types := []; rel_properties := [] |}];
  pattern_paths := [{| path_slot := 3; path_nodes := [0; 1]; path_relationships := [2] |}] |}.
Definition sample_projection : ProjectionProgram := {|
  items := [{| projection_slot := 4; projection_expression := EProperty (ESlot 0) [107] |}];
  projection_references := [0]; projection_outputs := [4] |}.
Definition sample_operators : list Operator :=
  [OMatch sample_pattern false None; OProject sample_projection false [] None None None].

Lemma sample_typed : Forall operator_typed sample_operators.
Proof.
  assert (Forall (in_u 32) [0; 1; 2; 3; 4]) as H by (repeat constructor; vm_compute; congruence).
  repeat constructor; vm_compute; congruence.
Defined.

Lemma query_new_exact_witness : Forall operator_typed sample_operators /\
  valid_query sample_catalog sample_operators [([110], 4)] /\ ~ valid_query sample_catalog sample_operators [([97], 0)].
Proof.
  split; [exact sample_typed|].
  destruct (query_new_exact sample_catalog sample_operators [([110], 4)] sample_typed) as (r & E & H).
  destruct (query_new_exact sample_catalog sample_operators [([97], 0)] sample_typed) as (r' & E' & H'). split.
  - apply H. vm_compute in E. by injection E as <-.
  - intros Hv. apply H' in Hv. vm_compute in E'. injection E' as <-. discriminate Hv.
Defined.

(** [C29] A validated query's derived facts are those of its operators: its effect
    is a write exactly when some operator creates, updates or deletes; there is one
    contract per operator, whose input columns are the output columns of the one
    before (from the empty row), whose output columns are the operator's scope with
    the nullability an optional match adds, whose references are exactly the slots
    the operator reads and whose correlation is the part of them already bound; and
    its layout keeps apart whatever two slots an operator sees or reads. *)
Theorem contracts_derived bs ops rs q : Forall operator_typed ops -> query_new bs ops rs = done q ->
  operators q = ops /\ effect q = (if existsb is_write ops then Write else Read) /\
  contracts_exact bs (schema_empty bs) [] ops (contracts q) /\
  exists scopes, spans_of bs [] ops scopes /\
    forall t scope s s' c, scopes !! t = Some scope -> s ∈ scope -> s' ∈ scope ->
      QueryLayout.cell (layout q) s = Some c -> QueryLayout.cell (layout q) s' = Some c -> s = s'.
Proof.
  intros Ht Hq. destruct (query_new_accepts bs ops rs Ht) as (r & E & _ & H). rewrite Hq in E. injection E as <-.
  destruct (H q eq_refl) as [_ Hops _ Heff Hcs (scopes & Hspans & _ & Hl)]. split_and!; [done|done|done|].
  exists scopes. split; [done|]. intros t scope s s' c Hsc Hs Hs' Hc Hc'.
  assert (forall x, x ∈ scope -> QueryLayout.live scopes x (Z.of_nat t)) as Hlive.
  { intros x Hx. assert (QueryLayout.occurs scopes x (Z.of_nat t)); [|by exists (Z.of_nat t), (Z.of_nat t); split_and!; try done; lia].
    split; [lia|]. exists scope. by rewrite Nat2Z.id. }
  eapply (QueryLayout.al_apart _ _ _ Hl); [by apply Hlive..|done|done].
Qed.

Lemma contracts_derived_witness : exists q, query_new sample_catalog sample_operators [([110], 4)] = done q /\
  effect q = Read /\ map contract_references (contracts q) = [[]; [0]] /\ QueryLayout.layout_width (layout q) = 5.
Proof.
  assert (exists q, query_new sample_catalog sample_operators [([110], 4)] = done q /\
    map contract_references (contracts q) = [[]; [0]] /\ QueryLayout.layout_width (layout q) = 5) as (q & E & H1 & H2).
  { eexists. split; [vm_compute; reflexivity|]. split; vm_compute; reflexivity. }
  destruct (contracts_derived sample_catalog sample_operators [([110], 4)] q sample_typed E) as (_ & Heff & _).
  exists q. split; [exact E|]. split; [rewrite Heff; reflexivity|]. split; [exact H1|exact H2].
Defined.

End QueryContracts.
