(* ===== verification/QueryRewrite.v ===== *)
(** What slot relocation does to the structure of an expression: [RowLayout::expression]
    of crates/planner/src/relational/layout/remap.rs with its panics, and that
    moving slots keeps an expression well formed. *)
From S2P Require Import Prelude Bytes QueryValue QueryExpression QueryMonad QueryAggregate QueryEval QueryRelocate.

Open Scope Z_scope.

Module QueryRewrite.
Export QueryRelocate.

(** ** Rewriting where a slot may have no cell *)

(** A panic of the callback stops the rewriting as an error would. *)
Definition panicked : QueryError := compile_error "" "panic" "".

Definition relocation_or_panic (slot : Z -> option Z) (e : Expression) : result QueryError (option Expression) :=
  match e with
  | ESlot s => match slot s with Some c => Ok (Some (ESlot c)) | None => Err panicked end
  | EHasLabel s label => match slot s with Some c => Ok (Some (EHasLabel c label)) | None => Err panicked end
  | _ => Ok None
  end.

(** [RowLayout::expression]: [None] is a panic, of the callback or of [expect]. *)
Definition expression (slot : Z -> option Z) (e : Expression) : option Expression :=
  match rewrite (relocation_or_panic slot) e with
  | Ok e => Some e
  | Err _ => None
  end.

(** ** The same expression over other slots *)

Fixpoint shift (c : Z -> Z) (e : Expression) : Expression :=
  match e with
  | ELiteral v => ELiteral v
  | ESlot s => ESlot (c s)
  | EParameter p => EParameter p
  | EProperty x key => EProperty (shift c x) key
  | EIndex a b => EIndex (shift c a) (shift c b)
  | ESlice x start end_ => ESlice (shift c x) (option_map (shift c) start) (option_map (shift c) end_)
  | EUnary op x => EUnary op (shift c x)
  | EBinary op a b => EBinary op (shift c a) (shift c b)
  | EConnective op xs => EConnective op (map (shift c) xs)
  | EFunction f xs => EFunction f (map (shift c) xs)
  | EAggregate f x distinct => EAggregate f (option_map (shift c) x) distinct
  | EList xs => EList (map (shift c) xs)
  | EMap xs => EMap (map (fun p => (p.1, shift c p.2)) xs)
  | ECase branches x => ECase (map (fun p => (shift c p.1, shift c p.2)) branches) (shift c x)
  | ESimpleCase x branches y => ESimpleCase (shift c x) (map (fun p => (shift c p.1, shift c p.2)) branches) (shift c y)
  | EHasLabel s label => EHasLabel (c s) label
  end.

Lemma map_result_map {A B} (f : A -> result QueryError B) (g : A -> B) l : Forall (fun x => f x = Ok (g x)) l ->
  map_result f l = Ok (map g l).
Proof. induction 1 as [|x l Hx _ IH]; [done|]. simpl. by rewrite Hx, IH. Qed.

Lemma map_opt_map {A B} (f : A -> result QueryError B) (g : A -> B) o : Forall (fun x => f x = Ok (g x)) (opt o) ->
  map_opt f o = Ok (option_map g o).
Proof. destruct o; [|done]. intros H%Forall_inv. simpl. by rewrite H. Qed.

Lemma nodes_child e c n : c ∈ children e -> n ∈ nodes c -> n ∈ nodes e.
Proof.
  intros Hc Hn. rewrite (nodes_children e). right. apply list_elem_of_In, in_flat_map. exists c. by rewrite <- !list_elem_of_In.
Qed.

Lemma nodes_self e : e ∈ nodes e.
Proof. rewrite nodes_children. by left. Qed.

(** A rewriting that moves every slot it meets gives the moved expression. *)
Lemma rewrite_shift replace c e : (forall n, n ∈ nodes e -> replace n = relocation c n) -> rewrite replace e = Ok (shift c e).
Proof.
  induction e as [e IH] using expression_ind'. intros H.
  assert (Forall (fun x => rewrite replace x = Ok (shift c x)) (children e)) as Hall.
  { apply Forall_forall. intros x Hx. rewrite Forall_forall in IH. apply IH; [done|]. intros n Hn. apply H. by eapply nodes_child. }
  clear IH. assert (replace e = relocation c e) as He by (apply H, nodes_self). clear H.
  assert (forall bs, Forall (fun x => rewrite replace x = Ok (shift c x)) (flat_map pair_list bs) ->
    map_result (fun p => let? a := rewrite replace p.1 in let? b := rewrite replace p.2 in Ok (a, b)) bs =
    Ok (map (fun p => (shift c p.1, shift c p.2)) bs)) as Hpairs.
  { intros bs Hbs. rewrite Forall_flat_map in Hbs. apply map_result_map. eapply Forall_impl; [exact Hbs|].
    intros [a b] Hab. apply Forall_cons in Hab as [Ha Hb%Forall_inv]. cbn [fst snd] in *. by rewrite Ha, Hb. }
  destruct e as [v|s|name|x key|x y|x start end_|op x|op x y|op xs|f xs|f arg distinct|xs|xs|bs x|x bs y|s label];
    cbn [children pushed] in Hall; cbn [rewrite shift]; rewrite He; cbn [relocation result_bind]; try done.
  - by rewrite (Forall_inv Hall).
  - apply Forall_cons in Hall as [-> Hall%Forall_inv]. cbn. by rewrite Hall.
  - apply Forall_cons in Hall as [-> [Hs He']%Forall_app]. cbn. by rewrite (map_opt_map _ _ _ Hs), (map_opt_map _ _ _ He').
  - by rewrite (Forall_inv Hall).
  - apply Forall_cons in Hall as [-> Hall%Forall_inv]. cbn. by rewrite Hall.
  - by rewrite (map_result_map _ _ _ Hall).
  - by rewrite (map_result_map _ _ _ Hall).
  - by rewrite (map_opt_map _ _ _ Hall).
  - by rewrite (map_result_map _ _ _ Hall).
  - erewrite map_result_map; [done|]. rewrite Forall_map in Hall. eapply Forall_impl; [exact Hall|]. intros [k x] Hx.
    simpl in *. by rewrite Hx.
  - apply Forall_app in Hall as [Hbs Hx%Forall_inv]. by rewrite (Hpairs bs Hbs), Hx.
  - apply Forall_cons in Hall as [Hx [Hbs Hy%Forall_inv]%Forall_app]. by rewrite Hx, (Hpairs bs Hbs), Hy.
Qed.

Lemma relocate_shift c e : relocate c e = Ok (shift c e).
Proof. by apply rewrite_shift. Qed.

(** Relocation panics only at a slot that has no cell. *)
Lemma expression_shift slot c e : (forall s, s ∈ slots e -> slot s = Some (c s)) -> expression slot e = Some (shift c e).
Proof.
  intros H. unfold expression. rewrite (rewrite_shift _ c); [done|]. intros n Hn.
  assert (forall s, match n with ESlot s' | EHasLabel s' _ => s' = s | _ => False end -> slot s = Some (c s)) as Hs.
  { intros s Hs. apply H, slots_spec, Exists_exists. by exists n. }
  unfold relocation_or_panic, relocation. destruct n; try done; by rewrite (Hs _ eq_refl).
Qed.

(** ** Shape is kept *)

Lemma children_shift c e : children (shift c e) = map (shift c) (children e).
Proof.
  assert (forall bs, flat_map pair_list (map (fun p => (shift c p.1, shift c p.2)) bs) = map (shift c) (flat_map pair_list bs)) as Hp.
  { induction bs as [|p bs IH]; [done|]. simpl. by rewrite IH. }
  destruct e as [v|s|name|x key|x y|x start end_|op x|op x y|op xs|f xs|f arg distinct|xs|xs|bs x|x bs y|s label]; cbn; try done.
  - by destruct start, end_.
  - by destruct arg.
  - rewrite !map_map. done.
  - by rewrite Hp, map_app.
  - by rewrite Hp, map_app.
Qed.

Lemma nodes_shift c e : nodes (shift c e) = map (shift c) (nodes e).
Proof.
  induction e as [e IH] using expression_ind'. rewrite (nodes_children e), (nodes_children (shift c e)), children_shift. cbn [map].
  f_equal. induction IH as [|x l Hx _ IH']; [done|]. cbn [map flat_map]. by rewrite map_app, Hx, IH'.
Qed.

Lemma check_node_shift c e : check_node (shift c e) = check_node e.
Proof. destruct e; cbn [check_node shift]; try done; [by rewrite length_map|by destruct argument]. Qed.

Lemma nested_shift c d e : nested d e -> nested d (shift c e).
Proof.
  revert d. induction e as [e IH] using expression_ind'. intros d Hd. inversion Hd as [d' e' Hc]; subst. constructor.
  rewrite children_shift. apply Forall_map. rewrite Forall_forall in IH; rewrite Forall_forall in Hc. apply Forall_forall.
  intros x Hx. simpl. auto.
Qed.

Lemma slots_shift c e s : s ∈ slots (shift c e) <-> exists s', s' ∈ slots e /\ s = c s'.
Proof.
  rewrite slots_spec, nodes_shift, Exists_exists. setoid_rewrite slots_spec. setoid_rewrite Exists_exists. split.
  - intros (n & (n' & -> & Hn)%list_elem_of_fmap & Hs). destruct n'; cbn [shift] in Hs; try done; subst; (eexists; split; [|reflexivity]; eexists; split; [exact Hn|reflexivity]).
  - intros (s' & (n & Hn & Hs) & ->). exists (shift c n). split; [by apply list_elem_of_fmap; exists n|]. destruct n; by subst.
Qed.

End QueryRewrite.
