(* ===== verification/QueryProgram.v ===== *)
(** Row programs: crates/planner/src/relational/layout/remap.rs and
    layout/program.rs, over the matching steps of planning.rs and graph_order.rs.

    A validated query is moved to the physical cells of its layout: every slot of
    every operator, match step and returned column is replaced by its cell. [None]
    is a panic of an [expect]. An executable access plan and the index part of a
    lookup are carried along unread: they are type parameters. *)
From S2P Require Import Prelude Bytes BTree QueryExpression QueryEval QueryRelocate QueryRewrite QuerySchema QueryLayout QueryPlan QueryPlanSpec QueryContracts.

Open Scope Z_scope.

Module QueryProgram.
Export QueryRewrite QueryContracts.

(** ** Relocation of the parts of a plan *)

(** [u32::try_from] of the cell. *)
Definition slot (self : QueryLayout.RowLayout) (s : Z) : option Z :=
  c ← QueryLayout.cell self s; if c <=? umax 32 then Some c else None.

Section Remap.
Context (self : QueryLayout.RowLayout).

Definition expression (e : Expression) : option Expression := QueryRewrite.expression (slot self) e.

(** [expect] of a result. *)
Definition expected {A} (r : V A) : option A :=
  match r with
  | Some (Ok a) => Some a
  | _ => None
  end.

Definition predicate (p : SelectionProgram) : option SelectionProgram :=
  e ← expression (selection_expression p); expected (selection_new e).

Definition property (p : bytes * Expression) : option (bytes * Expression) := value ← expression p.2; Some (p.1, value).

Definition optionally {A B} (f : A -> option B) (o : option A) : option (option B) :=
  match o with
  | Some a => b ← f a; Some (Some b)
  | None => Some None
  end.

Definition node (n : NodePattern) : option NodePattern :=
  s ← slot self (node_slot n);
  properties ← mapM property (node_properties n);
  Some {| node_slot := s; node_label := node_label n; node_properties := properties |}.

Definition relationship (edge : RelationshipPattern) : option RelationshipPattern :=
  s ← slot self (rel_slot edge);
  from ← slot self (rel_from edge);
  to ← slot self (rel_to edge);
  properties ← mapM property (rel_properties edge);
  Some {| rel_slot := s; rel_from := from; rel_to := to; rel_direction := rel_direction edge;
          rel_types := rel_types edge; rel_properties := properties |}.

Definition path (p : PathPattern) : option PathPattern :=
  s ← slot self (path_slot p);
  nodes ← mapM (slot self) (path_nodes p);
  relationships ← mapM (slot self) (path_relationships p);
  Some {| path_slot := s; path_nodes := nodes; path_relationships := relationships |}.

Definition pattern (p : Pattern) : option Pattern :=
  nodes ← mapM node (pattern_nodes p);
  relationships ← mapM relationship (pattern_relationships p);
  paths ← mapM path (pattern_paths p);
  Some {| pattern_nodes := nodes; pattern_relationships := relationships; pattern_paths := paths |}.

Definition projection (item : Projection) : option Projection :=
  s ← slot self (projection_slot item);
  e ← expression (projection_expression item);
  Some {| projection_slot := s; projection_expression := e |}.

Definition order (o : Ordering) : option Ordering :=
  e ← expression (order_expression o); Some {| order_expression := e; descending := descending o |}.

Definition mutation (m : PropertyMutation) : option PropertyMutation :=
  match m with
  | MSet entity key value => s ← slot self entity; e ← expression value; Some (MSet s key e)
  | MRemove entity key => s ← slot self entity; Some (MRemove s key)
  | MReplace entity properties => s ← slot self entity; e ← expression properties; Some (MReplace s e)
  | MExtend entity properties => s ← slot self entity; e ← expression properties; Some (MExtend s e)
  end.

(** [RowLayout::operator]. *)
Definition operator (op : Operator) : option Operator :=
  match op with
  | OMatch p optional f =>
      p ← pattern p; f ← optionally predicate f; Some (OMatch p optional f)
  | OCreate p => p ← pattern p; Some (OCreate p)
  | OFilter f => f ← predicate f; Some (OFilter f)
  | OUnwind e s => e ← expression e; s ← slot self s; Some (OUnwind e s)
  | OProject program distinct ordering f skip limit =>
      moved ← mapM projection (items program);
      program ← expected (projection_new moved);
      ordering ← mapM order ordering;
      f ← optionally predicate f;
      skip ← optionally expression skip;
      limit ← optionally expression limit;
      Some (OProject program distinct ordering f skip limit)
  | OUpdate updates => updates ← mapM mutation updates; Some (OUpdate updates)
  | ODelete entities detach => entities ← mapM expression entities; Some (ODelete entities detach)
  end.
End Remap.

(** ** Match plans *)

Section Matches.
Context {Access Index : Type}.

Record PlannedNode := { planned_slot : Z; planned_access : Access; planned_rows : Z }.
Record PatternLookup := { lookup_slot : Z; lookup_probe : Z; lookup_index : Index }.

Inductive MatchStep :=
| Scan (slot : Z)
| IndexLookup (lookup : PatternLookup)
| Expand (relationship : Z) (from to : Z) (reverse : bool)
| ScanRelationship (relationship : Z)
| HashJoin (slot : Z) (property : bytes) (probe : Z) (probe_property : bytes).

Record MatchPlan := {
  sources : list PlannedNode; steps : list MatchStep; cartesian_products : Z; estimated_rows : Z; incoming : list Z }.

Definition planned_node (self : QueryLayout.RowLayout) (source : PlannedNode) : option PlannedNode :=
  s ← slot self (planned_slot source);
  Some {| planned_slot := s; planned_access := planned_access source; planned_rows := planned_rows source |}.

Definition match_step (self : QueryLayout.RowLayout) (step : MatchStep) : option MatchStep :=
  match step with
  | Scan s => s ← slot self s; Some (Scan s)
  | IndexLookup lookup =>
      s ← slot self (lookup_slot lookup);
      probe ← slot self (lookup_probe lookup);
      Some (IndexLookup {| lookup_slot := s; lookup_probe := probe; lookup_index := lookup_index lookup |})
  | Expand relationship from to reverse =>
      from ← slot self from; to ← slot self to; Some (Expand relationship from to reverse)
  | ScanRelationship relationship => Some (ScanRelationship relationship)
  | HashJoin s property probe probe_property =>
      s ← slot self s; probe ← slot self probe; Some (HashJoin s property probe probe_property)
  end.

(** [RowLayout::match_plan]; the moved slots are collected into a set. *)
Definition match_plan (self : QueryLayout.RowLayout) (plan : MatchPlan) : option MatchPlan :=
  sources ← mapM (planned_node self) (sources plan);
  steps ← mapM (match_step self) (steps plan);
  incoming ← mapM (slot self) (incoming plan);
  Some {| sources := sources; steps := steps; cartesian_products := cartesian_products plan;
          estimated_rows := estimated_rows plan; incoming := slot_set incoming |}.
End Matches.

(** ** Row programs *)

Inductive RowLayoutMode := Compact | Identity.

(** The operators and returns of [RowProgramQuery]; without a mapping, those of the source. *)
Record MappedQuery := { mapped_operators : list Operator; mapped_returns : list (bytes * Z) }.

Definition is_identity (layout : QueryLayout.RowLayout) (bindings : Z) : bool :=
  (QueryLayout.layout_width layout =? bindings) &&
  forallb (fun s => bool_decide (QueryLayout.cell layout s = Some s)) (seqZ 0 bindings).

Definition return_column (layout : QueryLayout.RowLayout) (r : bytes * Z) : option (bytes * Z) :=
  s ← slot layout r.2; Some (r.1, s).

(** The query part of [RowProgram::new]: [None] when the layout is the identity. *)
Definition row_program (source : Query) (mode : RowLayoutMode) : option (option MappedQuery) :=
  match mode with
  | Identity => Some None
  | Compact =>
      if is_identity (layout source) (len (bindings source)) then Some None
      else
        operators ← mapM (operator (layout source)) (operators source);
        returns ← mapM (return_column (layout source)) (returns source);
        Some (Some {| mapped_operators := operators; mapped_returns := returns |})
  end.

Definition program_width (source : Query) (mapped : option MappedQuery) : Z :=
  match mapped with
  | Some _ => QueryLayout.layout_width (layout source)
  | None => len (bindings source)
  end.
Definition program_operators (source : Query) (mapped : option MappedQuery) : list Operator :=
  match mapped with Some m => mapped_operators m | None => operators source end.
Definition program_returns (source : Query) (mapped : option MappedQuery) : list (bytes * Z) :=
  match mapped with Some m => mapped_returns m | None => returns source end.

(** ** The same operator over other slots *)

Section Rename.
Context (c : Z -> Z).

Definition rename_properties (l : list (bytes * Expression)) : list (bytes * Expression) := map (fun p => (p.1, shift c p.2)) l.
Definition rename_selection (f : SelectionProgram) : SelectionProgram :=
  {| selection_expression := shift c (selection_expression f); selection_references := slot_set (map c (selection_references f)) |}.
Definition rename_pattern (p : Pattern) : Pattern := {|
  pattern_nodes := map (fun n => {| node_slot := c (node_slot n); node_label := node_label n;
    node_properties := rename_properties (node_properties n) |}) (pattern_nodes p);
  pattern_relationships := map (fun r => {| rel_slot := c (rel_slot r); rel_from := c (rel_from r); rel_to := c (rel_to r);
    rel_direction := rel_direction r; rel_types := rel_types r; rel_properties := rename_properties (rel_properties r) |})
    (pattern_relationships p);
  pattern_paths := map (fun q => {| path_slot := c (path_slot q); path_nodes := map c (path_nodes q);
    path_relationships := map c (path_relationships q) |}) (pattern_paths p) |}.
Definition rename_program (p : ProjectionProgram) : ProjectionProgram := {|
  items := map (fun i => {| projection_slot := c (projection_slot i); projection_expression := shift c (projection_expression i) |}) (items p);
  projection_references := slot_set (map c (projection_references p)); projection_outputs := slot_set (map c (projection_outputs p)) |}.
Definition rename_mutation (m : PropertyMutation) : PropertyMutation :=
  match m with
  | MSet entity key value => MSet (c entity) key (shift c value)
  | MRemove entity key => MRemove (c entity) key
  | MReplace entity e => MReplace (c entity) (shift c e)
  | MExtend entity e => MExtend (c entity) (shift c e)
  end.
Definition rename (op : Operator) : Operator :=
  match op with
  | OMatch p optional f => OMatch (rename_pattern p) optional (rename_selection <$> f)
  | OFilter f => OFilter (rename_selection f)
  | OUnwind e s => OUnwind (shift c e) (c s)
  | OProject program distinct ordering f skip limit =>
      OProject (rename_program program) distinct
        (map (fun o => {| order_expression := shift c (order_expression o); descending := descending o |}) ordering)
        (rename_selection <$> f) (shift c <$> skip) (shift c <$> limit)
  | OCreate p => OCreate (rename_pattern p)
  | OUpdate updates => OUpdate (map rename_mutation updates)
  | ODelete entities detach => ODelete (map (shift c) entities) detach
  end.
End Rename.

End QueryProgram.
