(* ===== verification/QueryProgramSpec.v ===== *)
(** Compact row programs run as the logical query does: relocation of a validated
    query never panics, gives the same operators over the cells, and every
    expression evaluates in the physical row as in the logical one. *)
From S2P Require Import Prelude Bytes BTree QueryExpression QueryMonad QueryEval QueryRelocate QueryRewrite QuerySchema QueryLayout QueryPlan QueryPlanSpec QueryContracts QueryProgram.

Open Scope Z_scope.

Module QueryProgramSpec.
Export QueryProgram.

(** ** The slots of an operator *)

(** Those it names outside its expressions. *)
Definition pattern_names (p : Pattern) : list Z :=
  flat_map (fun n => [node_slot n]) (pattern_nodes p) ++
  flat_map (fun r => [rel_slot r; rel_from r; rel_to r]) (pattern_relationships p) ++
  flat_map (fun q => path_slot q :: path_nodes q ++ path_relationships q) (pattern_paths p).

Definition names (op : Operator) : list Z :=
  match op with
  | OMatch p _ _ | OCreate p => pattern_names p
  | OUnwind _ s => [s]
  | OProject program _ _ _ _ _ => map projection_slot (items program)
  | OUpdate updates => map mutation_entity updates
  | OFilter _ | ODelete _ _ => []
  end.

Definition mentions (op : Operator) (s : Z) : Prop := s ∈ names op \/ exists e, e ∈ expressions op /\ s ∈ slots e.

Lemma in_flat_map_elem {A B} (f : A -> list B) l y : y ∈ flat_map f l <-> exists x, x ∈ l /\ y ∈ f x.
Proof. rewrite list_elem_of_In, in_flat_map. by setoid_rewrite <- list_elem_of_In. Qed.

Lemma in_pattern_names p s : s ∈ pattern_names p <->
  (exists n, n ∈ pattern_nodes p /\ s = node_slot n) \/
  (exists r, r ∈ pattern_relationships p /\ (s = rel_slot r \/ s = rel_from r \/ s = rel_to r)) \/
  (exists q, q ∈ pattern_paths p /\ (s = path_slot q \/ s ∈ path_nodes q \/ s ∈ path_relationships q)).
Proof.
  unfold pattern_names. rewrite !elem_of_app, !in_flat_map_elem. setoid_rewrite elem_of_cons. setoid_rewrite elem_of_app.
  setoid_rewrite elem_of_cons. setoid_rewrite elem_of_cons. setoid_rewrite elem_of_nil. naive_solver.
Qed.

(** A valid operator mentions only slots its contract spans. *)
Lemma mentions_spanned bindings (m : list (Z * ColumnType)) op s : operator_valid bindings m.*1 op -> mentions op s -> spanned m op s.
Proof.
  intros Hv [Hs|(e & He & Hs)]; [|destruct (expression_scope _ _ _ _ _ Hv He Hs); [by left|by right; left]].
  assert (forall sc p, pattern_valid bindings sc p -> s ∈ pattern_names p -> s ∈ pattern_slots p) as Hpat.
  { intros sc p [Hn Hr Hp] Hin. rewrite Forall_forall in Hr; rewrite Forall_forall in Hp.
    assert (forall x, x ∈ node_slots p -> x ∈ pattern_slots p) as Hns by apply node_slots_in_slots.
    assert (forall r, r ∈ pattern_relationships p -> rel_slot r ∈ pattern_slots p) as Hrs.
    { intros r Hr'. unfold pattern_slots. rewrite in_slot_set, !elem_of_app. right; left. apply list_elem_of_fmap. by exists r. }
    apply in_pattern_names in Hin as [(n & Hn' & ->)|[(r & Hr' & Hin)|(q & Hq & Hin)]].
    - apply Hns, list_elem_of_fmap. by exists n.
    - destruct Hin as [->|[->| ->]]; [by apply Hrs|apply Hns, Hr, Hr'|apply Hns, (rv_to _ _ _ _ (Hr r Hr'))].
    - destruct Hin as [->|[Hin|Hin]].
      + unfold pattern_slots. rewrite in_slot_set, !elem_of_app. right; right. apply list_elem_of_fmap. by exists q.
      + pose proof (pv_nodes _ _ _ (Hp q Hq)) as Hall. rewrite Forall_forall in Hall. by apply Hns, Hall.
      + apply list_elem_of_lookup in Hin as [i Hi]. destruct (pv_joins _ _ _ (Hp q Hq) i s Hi) as (r & _ & _ & Hr' & <- & _). by apply Hrs. }
  destruct Hv as [_ Hv]. right; left.
  destruct op as [p optional predicate|f|e slot|program distinct ordering predicate skip limit|p|updates|entities detach];
    cbn [names scope_after outputs] in *; rewrite ?in_set_extend.
  - right. by eapply Hpat; [apply Hv|].
  - by apply elem_of_nil in Hs.
  - by right.
  - by apply in_slot_set.
  - right. by eapply Hpat.
  - apply list_elem_of_fmap in Hs as (u & -> & Hu). rewrite Forall_forall in Hv. by apply (Hv u Hu).
  - by apply elem_of_nil in Hs.
Qed.

(** ** Relocation gives the renamed operator *)

Lemma mapM_map {A B} (f : A -> option B) (g : A -> B) l : (forall x, x ∈ l -> f x = Some (g x)) -> mapM f l = Some (map g l).
Proof.
  induction l as [|x l IH]; intros H; [done|]. cbn [mapM]. rewrite H by (by left). cbn [mbind option_bind].
  rewrite IH; [done|]. intros y Hy. apply H. by right.
Qed.

Lemma sorted_slot_set l : BTree.sorted_set Z.compare (slot_set l).
Proof. apply set_extend_sorted. constructor. Qed.

Lemma slot_set_ext l l' : (forall x, x ∈ l <-> x ∈ l') -> slot_set l = slot_set l'.
Proof.
  intros H. apply (BTree.sorted_set_ext Z.compare); [apply sorted_slot_set..|]. intros x. by rewrite !in_slot_set.
Qed.

Lemma references_shift c e : references (shift c e) = slot_set (map c (references e)).
Proof.
  apply slot_set_ext. intros x. rewrite elem_of_elements, slots_shift, list_elem_of_fmap. setoid_rewrite in_references. naive_solver.
Qed.

Lemma well_formed_shift c e : well_formed e -> well_formed (shift c e).
Proof.
  intros (Hn & Hl & Hf). split_and!; [by apply nested_shift|by rewrite nodes_shift, length_map|].
  rewrite nodes_shift. apply Forall_map. eapply Forall_impl; [exact Hf|]. intros n. rewrite !node_check. simpl. by rewrite check_node_shift.
Qed.

Lemma validate_ok e : well_formed e -> validate e = done tt.
Proof. intros Hw. destruct (validate_passes e) as (r & -> & Hr). apply Hr in Hw as ->. done. Qed.

Lemma selection_shift c f : selection_new (selection_expression f) = done f ->
  selection_new (shift c (selection_expression f)) = done (rename_selection c f).
Proof.
  intros [Hw Hf]%selection_built. unfold selection_new. rewrite validate_ok by by apply well_formed_shift. cbn [vbind].
  unfold rename_selection. by rewrite Hf, references_shift.
Qed.

Lemma set_extend_app s l l' : set_extend s (l ++ l') = set_extend (set_extend s l) l'.
Proof. apply fold_left_app. Qed.

Lemma projection_loop_ok rest outs refs : Forall (fun i => well_formed (projection_expression i)) rest ->
  NoDup (map projection_slot rest) -> (forall i, i ∈ rest -> projection_slot i ∉ outs) ->
  projection_loop rest outs refs =
    done (set_extend outs (map projection_slot rest), set_extend refs (flat_map (fun i => references (projection_expression i)) rest)).
Proof.
  revert outs refs. induction rest as [|i rest IH]; intros outs refs Hw Hn Ho; [done|]. cbn [projection_loop].
  apply Forall_cons in Hw as [Hi Hw]. apply NoDup_cons in Hn as [Hni Hn].
  destruct (holds outs (projection_slot i)) eqn:E; [apply holds_iff in E; by destruct (Ho i); [left|]|].
  rewrite validate_ok by done. cbn [vbind]. rewrite IH; [| done..|].
  - cbn [map flat_map]. by rewrite set_extend_app.
  - intros j Hj. rewrite (BTree.in_set_insert Z.compare). intros [E'|Hin]; [|by apply (Ho j); [right|]].
    apply Hni. rewrite <- E'. apply list_elem_of_fmap. by exists j.
Qed.

Lemma projection_new_ok l : Forall (fun i => well_formed (projection_expression i)) l -> NoDup (map projection_slot l) ->
  projection_new l = done {| items := l; projection_references := slot_set (flat_map (fun i => references (projection_expression i)) l);
    projection_outputs := slot_set (map projection_slot l) |}.
Proof.
  intros Hw Hn. unfold projection_new. rewrite projection_loop_ok by (done || (intros i _; apply not_elem_of_nil)). done.
Qed.

Lemma projection_shift c p : projection_new (items p) = done p ->
  (forall i j, i ∈ items p -> j ∈ items p -> c (projection_slot i) = c (projection_slot j) -> projection_slot i = projection_slot j) ->
  projection_new (items (rename_program c p)) = done (rename_program c p).
Proof.
  intros Hp Hinj. pose proof (projection_built p Hp) as (Hw & Hn & _).
  rewrite (projection_new_ok _ Hw Hn) in Hp. injection Hp as Hp.
  pose proof (f_equal projection_references Hp) as Hrefs. pose proof (f_equal projection_outputs Hp) as Houts. cbn in Hrefs, Houts.
  assert (NoDup (map projection_slot (items (rename_program c p)))) as Hn'.
  { cbn [items rename_program]. rewrite map_map. cbn. rewrite <- (map_map projection_slot c).
    apply (NoDup_fmap_2_strong c); [|done]. intros x y (i & -> & Hi)%list_elem_of_fmap (j & -> & Hj)%list_elem_of_fmap. by apply Hinj. }
  rewrite projection_new_ok; [|cbn [items rename_program]; apply Forall_map; eapply Forall_impl; [exact Hw|]; intros i Hi; by apply well_formed_shift|done].
  unfold rename_program at 4. rewrite <- Hrefs, <- Houts. unfold done. do 2 f_equal. cbn [items rename_program].
  f_equal; apply slot_set_ext; intros x; setoid_rewrite list_elem_of_fmap; setoid_rewrite in_slot_set.
  - setoid_rewrite in_flat_map_elem. split.
    + intros (i & (j & -> & Hj)%list_elem_of_fmap & Hx). cbn in Hx. rewrite references_shift, in_slot_set in Hx.
      apply list_elem_of_fmap in Hx as (s & -> & Hs). exists s. split; [done|]. by exists j.
    + intros (s & -> & j & Hj & Hs). eexists. split; [by apply list_elem_of_fmap; exists j|]. cbn. rewrite references_shift, in_slot_set.
      apply list_elem_of_fmap. by exists s.
  - setoid_rewrite list_elem_of_fmap. cbn. naive_solver.
Qed.

Section Operators.
Context (self : QueryLayout.RowLayout) (c : Z -> Z).

Definition moves (s : Z) : Prop := slot self s = Some (c s).

Lemma expression_moved e : (forall s, s ∈ slots e -> moves s) -> expression self e = Some (shift c e).
Proof. apply expression_shift. Qed.

Lemma predicate_moved f : selection_new (selection_expression f) = done f ->
  (forall s, s ∈ slots (selection_expression f) -> moves s) -> predicate self f = Some (rename_selection c f).
Proof. intros Hf Hs. unfold predicate. rewrite expression_moved by done. cbn [mbind option_bind]. by rewrite selection_shift. Qed.

Lemma optionally_moved {A B} (f : A -> option B) (g : A -> B) o : (forall x, x ∈ opt o -> f x = Some (g x)) ->
  optionally f o = Some (g <$> o).
Proof. destruct o as [x|]; intros H; [|done]. cbn. by rewrite H by (by left). Qed.

Lemma properties_moved (l : list (bytes * Expression)) : (forall p s, p ∈ l -> s ∈ slots p.2 -> moves s) ->
  mapM (property self) l = Some (rename_properties c l).
Proof.
  intros H. apply mapM_map. intros p Hp. unfold property. rewrite expression_moved; [done|]. intros s. by apply H.
Qed.

Lemma slots_moved l : (forall s, s ∈ l -> moves s) -> mapM (slot self) l = Some (map c l).
Proof. apply mapM_map. Qed.

Lemma pattern_moved p : (forall s, s ∈ pattern_names p -> moves s) ->
  (forall e s, e ∈ pattern_expressions p -> s ∈ slots e -> moves s) -> pattern self p = Some (rename_pattern c p).
Proof.
  intros Hn He. setoid_rewrite in_pattern_names in Hn.
  assert (forall q s, q ∈ flat_map node_properties (pattern_nodes p) \/ q ∈ flat_map rel_properties (pattern_relationships p) ->
    s ∈ slots q.2 -> moves s) as Hq.
  { intros q s Hq. apply (He q.2). apply list_elem_of_fmap. exists q. by rewrite elem_of_app. }
  setoid_rewrite in_flat_map_elem in Hq. unfold pattern.
  rewrite (mapM_map (node self) (fun n => {| node_slot := c (node_slot n); node_label := node_label n;
    node_properties := rename_properties c (node_properties n) |})).
  2: { intros n Hin. unfold node. rewrite (Hn (node_slot n)) by (left; by exists n). cbn [mbind option_bind].
    rewrite properties_moved; [done|]. intros q s Hq' Hs. eapply Hq; [left; by exists n|done]. }
  cbn [mbind option_bind].
  rewrite (mapM_map (relationship self) (fun r => {| rel_slot := c (rel_slot r); rel_from := c (rel_from r); rel_to := c (rel_to r);
    rel_direction := rel_direction r; rel_types := rel_types r; rel_properties := rename_properties c (rel_properties r) |})).
  2: { intros r Hin. unfold relationship. rewrite (Hn (rel_slot r)), (Hn (rel_from r)), (Hn (rel_to r)) by (right; left; exists r; naive_solver).
    cbn [mbind option_bind]. rewrite properties_moved; [done|]. intros q s Hq' Hs. eapply Hq; [right; by exists r|done]. }
  cbn [mbind option_bind].
  rewrite (mapM_map (path self) (fun q => {| path_slot := c (path_slot q); path_nodes := map c (path_nodes q);
    path_relationships := map c (path_relationships q) |})); [done|].
  intros q Hin. unfold path. rewrite (Hn (path_slot q)) by (right; right; exists q; naive_solver). cbn [mbind option_bind].
  rewrite !slots_moved; [done|intros s Hs; apply Hn; right; right; exists q; naive_solver..].
Qed.

Lemma operator_moved op : operator_typed op -> (forall s, mentions op s -> moves s) ->
  (forall s s', s ∈ names op -> s' ∈ names op -> c s = c s' -> s = s') -> operator self op = Some (rename c op).
Proof.
  intros [_ Ht] Hm Hinj. assert (forall s, s ∈ names op -> moves s) as Hn by (intros s Hs; apply Hm; by left).
  assert (forall e s, e ∈ expressions op -> s ∈ slots e -> moves s) as He by (intros e s He Hs; apply Hm; right; by exists e).
  clear Hm.
  destruct op as [p optional f|f|e s|program distinct ordering f skip limit|p|updates|entities detach]; cbn [names expressions operator rename] in *.
  - rewrite pattern_moved; [|done|intros e s He' Hs; eapply He; [rewrite elem_of_app; by left|done]]. cbn [mbind option_bind].
    rewrite (optionally_moved _ (rename_selection c)); [done|]. intros x Hx. rewrite Forall_forall in Ht.
    apply predicate_moved; [by apply Ht|]. intros s. apply He. rewrite elem_of_app. right. apply list_elem_of_fmap. by exists x.
  - rewrite predicate_moved; [done|done|]. intros s. apply He. by left.
  - rewrite expression_moved by (intros x; apply He; by left). cbn [mbind option_bind]. by rewrite (Hn s) by (by left).
  - destruct Ht as [Hp Ht]. rewrite Forall_forall in Ht.
    rewrite (mapM_map (projection self) (fun i => {| projection_slot := c (projection_slot i); projection_expression := shift c (projection_expression i) |})).
    2: { intros i Hi. unfold projection. rewrite (Hn (projection_slot i)) by (apply list_elem_of_fmap; by exists i). cbn [mbind option_bind].
      rewrite expression_moved; [done|]. intros s. apply He. rewrite elem_of_app. left. apply list_elem_of_fmap. by exists i. }
    cbn [mbind option_bind]. change (map _ (items program)) with (items (rename_program c program)) at 1.
    rewrite projection_shift; [|done|intros i j Hi Hj; apply Hinj; apply list_elem_of_fmap; eauto]. cbn [expected mbind option_bind].
    rewrite (mapM_map (order self) (fun o => {| order_expression := shift c (order_expression o); descending := descending o |})).
    2: { intros o Ho. unfold order. rewrite expression_moved; [done|]. intros s. apply He. rewrite !elem_of_app. right; left.
      apply list_elem_of_fmap. by exists o. }
    cbn [mbind option_bind]. rewrite (optionally_moved _ (rename_selection c)).
    2: { intros x Hx. apply predicate_moved; [by apply Ht|]. intros s. apply He. rewrite !elem_of_app. right; right; left.
      apply list_elem_of_fmap. by exists x. }
    cbn [mbind option_bind]. rewrite (optionally_moved _ (shift c) skip).
    2: { intros x Hx. apply expression_moved. intros s. apply He. rewrite !elem_of_app. by do 3 right; left. }
    cbn [mbind option_bind]. rewrite (optionally_moved _ (shift c) limit); [done|].
    intros x Hx. apply expression_moved. intros s. apply He. rewrite !elem_of_app. by do 4 right.
  - by rewrite pattern_moved.
  - rewrite (mapM_map (mutation self) (rename_mutation c)); [done|]. intros u Hu.
    pose proof (Hn (mutation_entity u) ltac:(apply list_elem_of_fmap; by exists u)) as Hs.
    assert (forall e, mutation_value u = Some e -> expression self e = Some (shift c e)) as Hv.
    { intros e Hv. apply expression_moved. intros s. apply He. apply list_elem_of_omap. by exists u. }
    destruct u as [entity key value|entity key|entity value|entity value]; cbn [mutation mutation_entity mutation_value] in *;
      rewrite Hs; cbn [mbind option_bind]; rewrite ?Hv by done; done.
  - rewrite (mapM_map (expression self) (shift c)); [done|]. intros e Hin. apply expression_moved. intros s. by apply He.
Qed.
End Operators.

(** ** Match plans *)

Section Plans.
Context {Access Index : Type} (self : QueryLayout.RowLayout) (c : Z -> Z).

Definition step_slots (step : MatchStep (Index := Index)) : list Z :=
  match step with
  | Scan s => [s]
  | IndexLookup lookup => [lookup_slot lookup; lookup_probe lookup]
  | Expand _ from to _ => [from; to]
  | ScanRelationship _ => []
  | HashJoin s _ probe _ => [s; probe]
  end.
Definition rename_step (step : MatchStep (Index := Index)) : MatchStep :=
  match step with
  | Scan s => Scan (c s)
  | IndexLookup l => IndexLookup {| lookup_slot := c (lookup_slot l); lookup_probe := c (lookup_probe l); lookup_index := lookup_index l |}
  | Expand r from to reverse => Expand r (c from) (c to) reverse
  | ScanRelationship r => ScanRelationship r
  | HashJoin s p probe pp => HashJoin (c s) p (c probe) pp
  end.

(** A match plan over slots that have cells moves to them, its access programs,
    relationship ordinals and estimates unchanged. *)
Lemma match_plan_moved (plan : MatchPlan (Access := Access) (Index := Index)) :
  (forall s, s ∈ map planned_slot (sources plan) \/ s ∈ flat_map step_slots (steps plan) \/ s ∈ incoming plan -> moves self c s) ->
  match_plan self plan = Some {|
    sources := map (fun n => {| planned_slot := c (planned_slot n); planned_access := planned_access n; planned_rows := planned_rows n |}) (sources plan);
    steps := map rename_step (steps plan); cartesian_products := cartesian_products plan;
    estimated_rows := estimated_rows plan; incoming := slot_set (map c (incoming plan)) |}.
Proof.
  intros H. unfold match_plan.
  rewrite (mapM_map (planned_node self) (fun n => {| planned_slot := c (planned_slot n); planned_access := planned_access n; planned_rows := planned_rows n |})).
  2: { intros n Hn. unfold planned_node. rewrite (H (planned_slot n)); [reflexivity|]. left. apply list_elem_of_fmap. by exists n. }
  cbn [mbind option_bind]. rewrite (mapM_map (match_step self) rename_step).
  2: { intros step Hin.
    assert (forall s, s ∈ step_slots step -> moves self c s) as Hs by (intros s Hs; apply H; right; left; apply in_flat_map_elem; by exists step).
    destruct step; cbn [match_step step_slots rename_step] in *; try done; repeat (rewrite Hs by set_solver; cbn [mbind option_bind]); done. }
  cbn [mbind option_bind]. rewrite (slots_moved self c); [done|]. intros s Hs. apply H. by right; right.
Qed.
End Plans.

(** ** Layouts of queries *)

(** The cell of each slot. *)
Definition cell_of (q : Query) (s : Z) : Z := default 0 (QueryLayout.cell (layout q) s).

Lemma in_scope_live (scopes : list (list Z)) t scope s : scopes !! t = Some scope -> s ∈ scope -> QueryLayout.live scopes s (Z.of_nat t).
Proof.
  intros Hsc Hs. assert (QueryLayout.occurs scopes s (Z.of_nat t)); [|by exists (Z.of_nat t), (Z.of_nat t); split_and!; try done; lia].
  split; [lia|]. exists scope. by rewrite Nat2Z.id.
Qed.

Lemma distinct_below n l : NoDup l -> Forall (fun s => 0 <= s < n) l -> len l <= Z.max 0 n.
Proof.
  intros Hn Hl. assert (l ⊆+ seqZ 0 n) as H.
  { apply NoDup_submseteq; [done|]. intros x Hx. rewrite Forall_forall in Hl. apply elem_of_seqZ. specialize (Hl x Hx). lia. }
  apply submseteq_length in H. rewrite length_seqZ in H. unfold len. lia.
Qed.

(** In a small catalog every slot in scope has a 32-bit cell below the width. *)
Lemma layout_cells_ok bindings scopes l t scope s : QueryLayout.allocation bindings scopes l -> bindings <= 4096 ->
  Forall (Forall (fun s => 0 <= s < bindings)) scopes -> scopes !! t = Some scope -> s ∈ scope ->
  exists x, QueryLayout.cell l s = Some x /\ 0 <= x < QueryLayout.layout_width l /\ slot l s = Some x.
Proof.
  intros Hl Hb Hall Hsc Hs. assert (forall scope x, scope ∈ scopes -> x ∈ scope -> 0 <= x < bindings) as Hin.
  { intros sc x Hsc' Hx. rewrite Forall_forall in Hall. specialize (Hall sc Hsc'). rewrite Forall_forall in Hall. by apply Hall. }
  assert (0 <= s < bindings) as Hr by (eapply Hin; [by eapply list_elem_of_lookup_2|done]).
  destruct (QueryLayout.cell l s) as [x|] eqn:E.
  2: { exfalso. apply (QueryLayout.al_cells _ _ _ Hl s Hr); [|done]. exists (Z.of_nat t). split; [lia|]. exists scope. by rewrite Nat2Z.id. }
  pose proof (QueryLayout.al_width _ _ _ Hl s x Hr E) as Hw. exists x. split; [done|]. split; [done|].
  assert (QueryLayout.layout_width l <= 4096) as Hwidth.
  { destruct (QueryLayout.al_needed _ _ _ Hl) as [->|(u & live & Hn & <- & Hlive)]; [lia|].
    transitivity (Z.max 0 bindings); [|lia]. apply distinct_below; [done|]. eapply Forall_impl; [exact Hlive|].
    intros y (t1 & _ & (_ & sc & Hsc' & Hy) & _). eapply Hin; [by eapply list_elem_of_lookup_2|done]. }
  unfold slot. rewrite E. cbn [mbind option_bind]. rewrite (proj2 (Z.leb_le _ _)); [done|]. unfold umax. lia.
Qed.

(** ** The program of a query *)

Lemma spans_lookup bindings ops : forall (m : list (Z * ColumnType)) scopes, spans_of bindings m ops scopes ->
  operators_valid bindings m.*1 ops -> forall t op, ops !! t = Some op ->
  exists scope, scopes !! t = Some scope /\ forall s, mentions op s -> s ∈ scope.
Proof.
  induction ops as [|op' ops IH]; intros m [|scope scopes] Hs Hv t op Ht; try done.
  destruct Hs as [Hscope Hs], Hv as [Hv Hvs]. destruct t as [|t]; simpl in Ht.
  - injection Ht as ->. exists scope. split; [done|]. intros s Hm. by apply Hscope, (mentions_spanned bindings).
  - simpl. eapply IH; [exact Hs|by rewrite columns_after_fst|done].
Qed.

(** What is visible at the end is visible after some operator. *)
Lemma final_seen bindings ops : forall (m : list (Z * ColumnType)) scopes, spans_of bindings m ops scopes -> forall s,
  s ∈ final_scope m.*1 ops -> s ∈ m.*1 \/ exists t scope, scopes !! t = Some scope /\ s ∈ scope.
Proof.
  induction ops as [|op ops IH]; intros m [|scope scopes] Hs s Hin; try done; [by left|]. right.
  destruct Hs as [Hscope Hs]. cbn [final_scope fold_left] in Hin. rewrite <- (columns_after_fst bindings) in Hin.
  destruct (IH _ _ Hs s Hin) as [H|(t & scope' & Ht & H)].
  - exists 0%nat, scope. split; [done|]. apply Hscope. right; left. by rewrite <- (columns_after_fst bindings).
  - exists (S t), scope'. done.
Qed.

Lemma expressions_rename c op : expressions (rename c op) = map (shift c) (expressions op).
Proof.
  assert (forall l, map snd (rename_properties c l) = map (shift c) (map snd l)) as Hprop.
  { intros l. unfold rename_properties. by rewrite !map_map. }
  assert (forall p, pattern_expressions (rename_pattern c p) = map (shift c) (pattern_expressions p)) as Hpat.
  { intros p. unfold pattern_expressions. rewrite <- Hprop. cbn [rename_pattern pattern_nodes pattern_relationships]. f_equal.
    unfold rename_properties. rewrite map_app. f_equal.
    - induction (pattern_nodes p) as [|n l IH]; [done|]. simpl. by rewrite IH, map_app.
    - induction (pattern_relationships p) as [|n l IH]; [done|]. simpl. by rewrite IH, map_app. }
  destruct op as [p optional f|f|e s|program distinct ordering f skip limit|p|updates|entities detach]; cbn [expressions rename].
  - rewrite Hpat, map_app. f_equal. by destruct f.
  - done.
  - done.
  - cbn [rename_program items]. rewrite !map_app, !map_map. do 2 f_equal. f_equal; [by destruct f|]. by destruct skip, limit.
  - apply Hpat.
  - induction updates as [|u l IH]; [done|]. cbn [map omap list_omap]. by destruct u; cbn; rewrite IH.
  - done.
Qed.

(** The physical row shows at the cells what the logical one shows at the slots. *)
Definition row_at (c : Z -> Z) (scope : list Z) (row row' : Row) : Prop :=
  forall s, s ∈ scope -> row' !! Z.to_nat (c s) = row !! Z.to_nat s.
Definition group_at (c : Z -> Z) (scope : list Z) : option (list Row) -> option (list Row) -> Prop :=
  option_Forall2 (Forall2 (row_at c scope)).

(** The program of a valid query in cells: which operators, which returns, and how
    operator [t] sees the row through its scope. *)
Record program_exact `{TextLibrary} (ops : list Operator) (rs : list (bytes * Z)) (q : Query) (m : MappedQuery)
    (scopes : list (list Z)) : Prop := {
  pe_operators : mapped_operators m = map (rename (cell_of q)) ops;
  pe_returns : mapped_returns m = map (fun r => (r.1, cell_of q r.2)) rs;
  pe_mentions : forall t op, ops !! t = Some op -> exists scope, scopes !! t = Some scope /\ forall s, mentions op s -> s ∈ scope;
  pe_width : forall t scope s, scopes !! t = Some scope -> s ∈ scope -> 0 <= cell_of q s < program_width q (Some m);
  pe_apart : forall t scope s s', scopes !! t = Some scope -> s ∈ scope -> s' ∈ scope -> cell_of q s = cell_of q s' -> s = s';
  pe_eval : forall t op scope i e, ops !! t = Some op -> scopes !! t = Some scope -> expressions op !! i = Some e ->
    expressions (rename (cell_of q) op) !! i = Some (shift (cell_of q) e) /\
    forall nan powf graph parameters max row row' group group' admissions,
      row_at (cell_of q) scope row row' -> group_at (cell_of q) scope group group' ->
      eval nan powf graph parameters max (shift (cell_of q) e) row' group' admissions =
      eval nan powf graph parameters max e row group admissions }.

(** [C26] Running a validated query in physical cells changes nothing: building its
    row program never panics (every slot has a cell, every moved predicate and
    projection is valid again, cells fit 32 bits); the compact program is the
    logical one with every slot replaced by its cell; all slots an operator
    mentions are in its scope, on which the cells are distinct and below the
    program's width, so that no binding it sees is overwritten by another; and
    every expression of every operator gives in the physical row the value, error
    or panic it gives in the logical one. *)
Theorem row_program_exact `{TextLibrary} bs ops rs q mode : Forall operator_typed ops -> query_new bs ops rs = done q ->
  exists mapped, row_program q mode = Some mapped /\
    (mapped = None -> program_operators q mapped = ops /\ program_returns q mapped = rs /\
      (mode = Identity \/ forall s, 0 <= s < len bs -> cell_of q s = s)) /\
    forall m, mapped = Some m -> exists scopes, spans_of bs [] ops scopes /\ program_exact ops rs q m scopes.
Proof.
  intros Ht Hq. destruct (query_new_accepts bs ops rs Ht) as (r & E & Hvalid & Hexact). rewrite Hq in E. injection E as <-.
  pose proof (proj1 Hvalid eq_refl) as [Hlen _ Hrules Hrets].
  destruct (Hexact q eq_refl) as [Hbs Hops Hrs _ _ (scopes & Hspans & Hall & Hl)].
  assert (forall t scope s, scopes !! t = Some scope -> s ∈ scope -> 0 <= cell_of q s < QueryLayout.layout_width (layout q) /\
    QueryLayout.cell (layout q) s = Some (cell_of q s) /\ slot (layout q) s = Some (cell_of q s)) as Hcell.
  { intros t scope s Hsc Hs. destruct (layout_cells_ok _ _ _ _ _ _ Hl Hlen Hall Hsc Hs) as (x & Hx & Hw & Hu).
    unfold cell_of. rewrite Hx. done. }
  assert (forall t scope s s', scopes !! t = Some scope -> s ∈ scope -> s' ∈ scope -> cell_of q s = cell_of q s' -> s = s') as Hapart.
  { intros t scope s s' Hsc Hs Hs' Heq. destruct (Hcell t scope s Hsc Hs) as (_ & C & _), (Hcell t scope s' Hsc Hs') as (_ & C' & _).
    eapply (QueryLayout.al_apart _ _ _ Hl); [by eapply in_scope_live|by eapply in_scope_live|exact C|by rewrite Heq]. }
  pose proof (spans_lookup bs ops [] scopes Hspans Hrules) as Hment.
  destruct mode; [|exists None; split; [done|]; split; [intros _; split_and!; [done|done|by left]|done]].
  unfold row_program. destruct (is_identity (layout q) (len (bindings q))) eqn:Eid.
  { exists None. split; [done|]. split; [|done]. intros _. split_and!; [done|done|]. right. intros s Hs.
    apply andb_true_iff in Eid as [_ Eid]. rewrite forallb_forall in Eid. specialize (Eid s).
    rewrite Hbs, <- list_elem_of_In, elem_of_seqZ, bool_decide_eq_true in Eid. unfold cell_of. by rewrite Eid by lia. }
  rewrite Hops, Hrs. rewrite (mapM_map _ (rename (cell_of q))).
  2: { intros op [t Hop]%list_elem_of_lookup. destruct (Hment t op Hop) as (scope & Hsc & Hin).
    apply operator_moved; [rewrite Forall_forall in Ht; apply Ht; by eapply list_elem_of_lookup_2| |].
    - intros s Hs. by eapply Hcell; [|apply Hin].
    - intros s s' Hs Hs'. apply (Hapart t scope); [done|apply Hin; by left..]. }
  cbn [mbind option_bind]. rewrite (mapM_map _ (fun r => (r.1, cell_of q r.2))).
  2: { intros [name s] Hr. rewrite Forall_forall in Hrets. specialize (Hrets _ Hr). cbn [snd fst] in *.
    destruct (final_seen bs ops [] scopes Hspans s Hrets) as [H0%elem_of_nil|(t & scope & Hsc & Hs)]; [done|].
    unfold return_column. cbn [snd fst]. by rewrite (proj2 (proj2 (Hcell t scope s Hsc Hs))). }
  cbn [mbind option_bind]. eexists. split; [done|]. split; [done|]. intros m [= <-]. exists scopes. split; [done|]. split; try done.
  - intros t scope s Hsc Hs. cbn [program_width]. by apply (Hcell t scope s Hsc Hs).
  - intros t op scope i e Hop Hsc He. split; [by rewrite expressions_rename, list_lookup_fmap, He|].
    intros nan powf graph parameters max row row' group group' adm Hrow Hgroup.
    destruct (Hment t op Hop) as (scope' & Hsc' & Hin). rewrite Hsc in Hsc'. injection Hsc' as <-.
    assert (forall s, s ∈ slots e -> s ∈ scope) as Hsub.
    { intros s Hs. apply Hin. right. exists e. split; [by eapply list_elem_of_lookup_2|done]. }
    destruct (relocate_same nan powf graph parameters max (cell_of q) e) as (e' & He' & Hsame).
    rewrite relocate_shift in He'. injection He' as <-. rewrite (Hsame row row' group group'); [done| |].
    + intros s Hs. by apply Hrow, Hsub.
    + destruct Hgroup as [g g' Hg|]; constructor. eapply Forall2_impl; [exact Hg|]. intros r r' Hr s Hs. by apply Hr, Hsub.
Qed.

(** The sample query with a last [RETURN n AS m], whose column reuses the cell of the node. *)
Definition long_catalog : list Binding :=
  sample_catalog ++ [{| name := [109]; kind := BScalar; nullable := false; value_type := TAny |}].
Definition long_operators : list Operator :=
  sample_operators ++ [OProject {| items := [{| projection_slot := 5; projection_expression := ESlot 4 |}];
    projection_references := [4]; projection_outputs := [5] |} false [] None None None].

Lemma long_typed : Forall operator_typed long_operators.
Proof.
  assert (Forall (in_u 32) [0; 1; 2; 3; 4; 5]) as H by (repeat constructor; vm_compute; congruence).
  repeat constructor; vm_compute; congruence.
Defined.

Lemma row_program_exact_witness : exists q m, query_new long_catalog long_operators [([109], 5)] = done q /\
  row_program q Compact = Some (Some m) /\ program_width q (Some m) = 5 /\ mapped_returns m = [([109], 0)] /\
  mapped_operators m = map (rename (cell_of q)) long_operators.
Proof.
  assert (exists q, query_new long_catalog long_operators [([109], 5)] = done q /\ QueryLayout.layout_width (layout q) = 5 /\
    cell_of q 5 = 0 /\ is_identity (layout q) 6 = false /\ len (bindings q) = 6) as (q & E & Hw & Hc & Hid & Hlen).
  { eexists. split; [vm_compute; reflexivity|]. split_and!; vm_compute; reflexivity. }
  destruct (row_program_exact long_catalog long_operators [([109], 5)] q Compact long_typed E) as (mapped & Em & _ & Hm).
  destruct mapped as [m|].
  - destruct (Hm m eq_refl) as (scopes & _ & [Hops Hrets _ _ _ _]). exists q, m.
    split; [exact E|]. split; [exact Em|]. split; [exact Hw|]. split; [rewrite Hrets; cbn; by rewrite Hc|exact Hops].
  - exfalso. unfold row_program in Em. rewrite Hlen, Hid in Em.
    destruct (mapM (operator (layout q)) (operators q)) as [os|]; [|discriminate Em]. cbn [mbind option_bind] in Em.
    destruct (mapM (return_column (layout q)) (returns q)) as [rs|]; discriminate Em.
Defined.

End QueryProgramSpec.
