(* ===== verification/QueryStored.v ===== *)
(** Stored property values in queries: crates/db/src/execution/interpreter/rows/
    property_conversion.rs, which reads them, and [to_property] and [properties] of
    graph.rs beside it, which write them.

    The byte count of the preflight reads buffer capacities and is not modelled:
    what is left of it is whether, and why, a value is rejected. [None] is the
    [unreachable!] of [convert]. *)
From S2P Require Import Prelude Bytes BTree ValueSemantics Property QueryValue QueryShape.

Open Scope Z_scope.

Module QueryStored.
Export QueryShape.

Notation P := Property.PropertyValue.

(** ** Reading *)

Inductive Rejection := StoredType | Nesting.

Definition description (r : Rejection) : QueryError :=
  match r with
  | StoredType => runtime_error "unsupported_feature" "stored_value_type"
      "temporal and binary stored values are outside the MVP profile"
  | Nesting => runtime_error "resource_limit" "stored_value_nesting_limit"
      "stored property value exceeds the query value nesting limit"
  end.

(** [try_fold] of a check. *)
Definition try_all {A E} (f : A -> result E unit) : list A -> result E unit :=
  fix go l := match l with
              | [] => Ok tt
              | x :: l => let? _ := f x in go l
              end.

Definition array_bytes (depth len : Z) : result Rejection unit :=
  if (0 <? len) && (MAX_EXPRESSION_DEPTH <=? depth + 1) then Err Nesting else Ok tt.

(** [owned_bytes], but for the bytes. *)
Fixpoint owned_bytes (value : P) (depth : Z) : result Rejection unit :=
  if MAX_EXPRESSION_DEPTH <=? depth then Err Nesting
  else
    match value with
    | Property.Null | Property.Bool _ | Property.I64 _ | Property.F64 _ | Property.F32 _ | Property.Str _ => Ok tt
    | Property.I64Array values | Property.F64Array values | Property.F32Array values => array_bytes depth (len values)
    | Property.StringArray values => array_bytes depth (len values)
    | Property.Array values => try_all (fun v => owned_bytes v (depth + 1)) values
    | Property.Object values => try_all (fun e => owned_bytes e.2 (depth + 1)) values
    | Property.DateTime _ | Property.Bytes _ => Err StoredType
    end.

(** [f64::from(f32)]: exact; the payload of a NaN is left open. *)
Definition f64_from_f32 (nan bits : Z) : Z :=
  let sign := if Z.testbit bits 31 then 2 ^ 63 else 0 in
  let exponent := (bits / 2 ^ 23) mod 2 ^ 8 in
  let fraction := bits mod 2 ^ 23 in
  if exponent =? 255 then if fraction =? 0 then sign + 2047 * 2 ^ 52 else nan
  else if exponent =? 0 then
    if fraction =? 0 then sign
    else
      let l := Z.log2 fraction in
      sign + (l - 149 + 1023) * 2 ^ 52 + (fraction - 2 ^ l) * 2 ^ (52 - l)
  else sign + (exponent - 127 + 1023) * 2 ^ 52 + fraction * 2 ^ 29.

Section Convert.
Context (nan : Z).

Definition map_option {A B} (f : A -> option B) : list A -> option (list B) :=
  fix go l := match l with
              | [] => Some []
              | x :: l => y ← f x; ys ← go l; Some (y :: ys)
              end.

Fixpoint convert (value : P) : option Value :=
  match value with
  | Property.Null => Some Null
  | Property.Bool value => Some (Boolean value)
  | Property.I64 value => Some (Integer value)
  | Property.F64 value | Property.F32 value => Some (Float value)
  | Property.Str value => Some (Str value)
  | Property.Array values => values ← map_option convert values; Some (List values)
  | Property.Object values =>
      entries ← map_option (fun e => v ← convert e.2; Some (e.1, v)) values;
      Some (Map (BTree.from_iter bytes_cmp entries))
  | Property.I64Array values => Some (List (map Integer values))
  | Property.F64Array values => Some (List (map Float values))
  | Property.F32Array values => Some (List (map (fun v => Float (f64_from_f32 nan v)) values))
  | Property.StringArray values => Some (List (map Str values))
  | Property.DateTime _ | Property.Bytes _ => None
  end.

(** [Conversion::new] and [finish]. *)
Definition finish (value : P) : option (result QueryError Value) :=
  match owned_bytes value 0 with
  | Err rejection => Some (Err (description rejection))
  | Ok _ => Ok <$> convert value
  end.
End Convert.

(** ** Writing *)

Definition property_type : QueryError :=
  runtime_error "type_error" "invalid_property_type" "stored properties must be scalars or homogeneous scalar lists".

(** [std::mem::discriminant]. *)
Definition discriminant (v : Value) : Z :=
  match v with
  | Null => 0 | Boolean _ => 1 | Integer _ => 2 | Float _ => 3 | Str _ => 4 | List _ => 5 | Map _ => 6
  | EntityValue _ => 7 | PathValue _ => 8
  end.

Definition not_scalar (v : Value) : bool :=
  match v with Null | List _ | Map _ | EntityValue _ | PathValue _ => true | _ => false end.

(** [windows(2).any(..)] *)
Fixpoint any_window {A} (f : A -> A -> bool) (l : list A) : bool :=
  match l with
  | x :: (y :: _) as rest => f x y || any_window f rest
  | _ => false
  end.

(** The outer option is the [unreachable!] of the typed collections. *)
Definition to_property (value : Value) : option (result QueryError P) :=
  match value with
  | Null => Some (Ok Property.Null)
  | Boolean b => Some (Ok (Property.Bool b))
  | Integer i => Some (Ok (Property.I64 i))
  | Float f => Some (Ok (Property.F64 f))
  | Str s => Some (Ok (Property.Str s))
  | List xs =>
      if existsb not_scalar xs then Some (Err property_type)
      else if any_window (fun a b => negb (discriminant a =? discriminant b)) xs then Some (Err property_type)
      else
        match head xs with
        | None => Some (Ok (Property.I64Array []))
        | Some (Integer _) => Ok ∘ Property.I64Array <$> map_option (fun v => match v with Integer v => Some v | _ => None end) xs
        | Some (Float _) => Ok ∘ Property.F64Array <$> map_option (fun v => match v with Float v => Some v | _ => None end) xs
        | Some (Str _) => Ok ∘ Property.StringArray <$> map_option (fun v => match v with Str v => Some v | _ => None end) xs
        | Some (Boolean _) => Ok ∘ Property.Array <$> map_option (fun v => match v with Boolean v => Some (Property.Bool v) | _ => None end) xs
        | Some _ => None
        end
  | Map _ | EntityValue _ | PathValue _ => Some (Err property_type)
  end.

Definition bad_name (name : bytes) : QueryError :=
  runtime_error "unsupported_feature" (if bool_decide (name = []) then "empty_property_name" else "reserved_property_name")
    "property names must be nonempty and outside the reserved metadata namespace".

(** The closure of [properties]: nothing, an error or a stored property. *)
Definition stored (entry : bytes * Value) : option (option (result QueryError (bytes * P))) :=
  let '(name, value) := entry in
  if bool_decide (head name = Some 36) || bool_decide (name = []) then Some (Some (Err (bad_name name)))
  else if bool_decide (discriminant value = 0) then Some None
  else
    r ← to_property value;
    Some (Some (let? p := r in Ok (name, p))).

(** [properties]: [filter_map] collected into a result, up to the first error. *)
Fixpoint properties (values : list (bytes * Value)) : option (result QueryError (list (bytes * P))) :=
  match values with
  | [] => Some (Ok [])
  | entry :: values =>
      r ← stored entry;
      match r with
      | Some (Err e) => Some (Err e)
      | Some (Ok p) => rest ← properties values; Some (let? rest := rest in Ok (p :: rest))
      | None => properties values
      end
  end.

(** ** What can be read *)

(** The height of the value a stored one converts to. *)
Fixpoint stored_height (p : P) : Z :=
  match p with
  | Property.I64Array l | Property.F64Array l | Property.F32Array l => if 0 <? len l then 2 else 1
  | Property.StringArray l => if 0 <? len l then 2 else 1
  | Property.Array l => 1 + zmax (map stored_height l)
  | Property.Object l => 1 + zmax (map (fun e => stored_height e.2) l)
  | _ => 1
  end.

(** No temporal or binary part. *)
Fixpoint readable (p : P) : bool :=
  match p with
  | Property.DateTime _ | Property.Bytes _ => false
  | Property.Array l => forallb readable l
  | Property.Object l => forallb (fun e => readable e.2) l
  | _ => true
  end.

Lemma try_all_ok {A E} (f : A -> result E unit) (Q : A -> Prop) l : Forall (fun x => f x = Ok tt <-> Q x) l ->
  try_all f l = Ok tt <-> Forall Q l.
Proof.
  induction 1 as [|x l Hx _ IH]; [done|]. cbn [try_all]. rewrite Forall_cons, <- Hx, <- IH.
  destruct (f x) as [[]|e]; cbn [result_bind]; naive_solver.
Qed.

Lemma array_bytes_ok depth n : depth < 48 -> array_bytes depth n = Ok tt <-> depth + (if 0 <? n then 2 else 1) <= 48.
Proof.
  intros Hd. unfold array_bytes, MAX_EXPRESSION_DEPTH. destruct (0 <? n); cbn [andb]; [|split; [lia|done]].
  destruct (Z.leb_spec 48 (depth + 1)); split; (done || lia).
Qed.

Lemma readable_elements {A} (g : A -> P) (l : list A) depth :
  Forall (fun x => forall depth, owned_bytes (g x) depth = Ok tt <-> readable (g x) = true /\ depth + stored_height (g x) <= 48) l ->
  depth < 48 ->
  (try_all (fun x => owned_bytes (g x) (depth + 1)) l = Ok tt <->
   forallb (fun x => readable (g x)) l = true /\ depth + (1 + zmax (map (fun x => stored_height (g x)) l)) <= 48).
Proof.
  intros IH Hd. rewrite (try_all_ok _ (fun x => readable (g x) = true /\ depth + 1 + stored_height (g x) <= 48)).
  2: { eapply Forall_impl; [exact IH|]. intros x Hx. apply Hx. }
  rewrite Forall_and, forallb_forall. rewrite Forall_forall. setoid_rewrite list_elem_of_In.
  enough (Forall (fun x => depth + 1 + stored_height (g x) <= 48) l <-> depth + (1 + zmax (map (fun x => stored_height (g x)) l)) <= 48) by tauto.
  transitivity (zmax (map (fun x => stored_height (g x)) l) <= 48 - depth - 1); [|lia]. rewrite zmax_le, Forall_map by lia.
  split; intros H; (eapply Forall_impl; [exact H|]); intros x; simpl; lia.
Qed.

Lemma stored_height_pos p : 1 <= stored_height p.
Proof.
  destruct p; cbn [stored_height]; try lia; try (destruct (0 <? len _); lia);
    match goal with |- context [zmax ?l] => pose proof (zmax_nonneg l); lia end.
Qed.

Lemma owned_bytes_exact p depth : owned_bytes p depth = Ok tt <-> readable p = true /\ depth + stored_height p <= 48.
Proof.
  revert depth. induction p as [p Hp|l IH|l IH] using Property.value_ind'; intros depth; (destruct (decide (48 <= depth)) as [Hd|Hd];
    [match goal with |- context [owned_bytes ?p] => pose proof (stored_height_pos p) end|]).
  1, 3, 5: split; [|lia]; [try destruct p; cbn [owned_bytes]; change MAX_EXPRESSION_DEPTH with 48; by rewrite (proj2 (Z.leb_le 48 depth))..].
  - destruct p; try done; cbn [owned_bytes readable stored_height]; change MAX_EXPRESSION_DEPTH with 48;
      rewrite (proj2 (Z.leb_gt 48 depth)) by lia; try (rewrite array_bytes_ok by lia; naive_solver); naive_solver lia.
  - cbn [owned_bytes]. change MAX_EXPRESSION_DEPTH with 48. rewrite (proj2 (Z.leb_gt 48 depth)) by lia.
    apply (readable_elements (fun x => x)); [done|lia].
  - cbn [owned_bytes]. change MAX_EXPRESSION_DEPTH with 48. rewrite (proj2 (Z.leb_gt 48 depth)) by lia.
    apply (readable_elements snd); [done|lia].
Qed.

(** ** Conversion *)

Lemma map_option_some {A B} (f : A -> option B) (R : A -> B -> Prop) l : Forall (fun x => exists y, f x = Some y /\ R x y) l ->
  exists ys, map_option f l = Some ys /\ Forall2 R l ys.
Proof.
  induction 1 as [|x l (y & Hy & HR) _ (ys & Hys & Hall)]; [by exists []|]. exists (y :: ys). cbn [map_option].
  rewrite Hy. cbn [mbind option_bind]. rewrite Hys. split; [done|by constructor].
Qed.

Lemma in_from_iter {V} (l : list (bytes * V)) e : e ∈ BTree.from_iter bytes_cmp l -> e ∈ l.
Proof.
  unfold BTree.from_iter, BTree.extend.
  enough (forall m, BTree.sorted_map bytes_cmp m -> BTree.sorted_map bytes_cmp (fold_left (fun m e => BTree.insert bytes_cmp e.1 e.2 m) l m) /\
    (e ∈ fold_left (fun m e => BTree.insert bytes_cmp e.1 e.2 m) l m -> e ∈ m \/ e ∈ l)) as H.
  { intros He. destruct (H [] ltac:(constructor)) as [_ H']. destruct (H' He) as [?%elem_of_nil|]; done. }
  induction l as [|[k v] l IH]; intros m Hm; simpl; [split; [done|by left]|].
  destruct (IH (BTree.insert bytes_cmp k v m)) as [Hs Hin]; [by apply BTree.insert_sorted; [apply _|]|]. split; [done|].
  intros He. destruct (Hin He) as [Hi|]; [|right; by right]. apply (BTree.in_insert bytes_cmp) in Hi as [->|[? _]]; [right; by left|by left|done].
Qed.

Lemma convert_height nan p : readable p = true -> exists v, convert nan p = Some v /\ height v <= stored_height p.
Proof.
  induction p as [p Hp|l IH|l IH] using Property.value_ind'; intros Hr.
  - assert (forall {A} (g : A -> Value) (a : list A), (forall x, height (g x) = 1) -> height (List (map g a)) <= if 0 <? len a then 2 else 1) as Harr.
    { intros A g a Hg. cbn [height]. destruct a as [|x a]; [done|]. rewrite map_map.
      assert (zmax (map (fun x => height (g x)) (x :: a)) <= 1); [|cbn [len]; destruct (Z.ltb_spec 0 (len (x :: a))); unfold len in *; simpl in *; lia].
      apply zmax_le; [lia|]. apply Forall_map, Forall_forall. intros y _. simpl. rewrite Hg. lia. }
    destruct p; try done; cbn [convert stored_height]; eexists; (split; [done|]); try (simpl; lia); by apply Harr.
  - cbn [convert readable stored_height] in *. rewrite forallb_forall in Hr. setoid_rewrite <- list_elem_of_In in Hr. rewrite Forall_forall in IH.
    destruct (map_option_some (convert nan) (fun p v => height v <= stored_height p) l) as (vs & -> & Hvs).
    { apply Forall_forall. intros x Hx. by apply IH, Hr. }
    eexists. split; [done|]. cbn [height]. enough (zmax (map height vs) <= zmax (map stored_height l)) by lia.
    clear -Hvs. induction Hvs; simpl; lia.
  - cbn [convert readable stored_height] in *. rewrite forallb_forall in Hr. setoid_rewrite <- list_elem_of_In in Hr. rewrite Forall_forall in IH.
    destruct (map_option_some (fun e => v ← convert nan e.2; Some (e.1, v)) (fun p v => height v.2 <= stored_height p.2) l) as (vs & -> & Hvs).
    { apply Forall_forall. intros x Hx. destruct (IH x Hx (Hr x Hx)) as (v & -> & Hv). by exists (x.1, v). }
    eexists. split; [done|]. cbn [height].
    enough (zmax (map (fun e => height e.2) (BTree.from_iter bytes_cmp vs)) <= zmax (map (fun e => stored_height e.2) l)) by lia.
    apply zmax_le; [apply zmax_nonneg|]. apply Forall_map, Forall_forall. intros e He%in_from_iter. simpl.
    clear -Hvs He. induction Hvs; [by apply elem_of_nil in He|]. simpl. apply elem_of_cons in He as [->|He]; [lia|].
    specialize (IHHvs He). lia.
Qed.

(** ** Round trip *)

Lemma window_same (f : Value -> Z) x l : any_window (fun a b => negb (f a =? f b)) (x :: l) = false -> Forall (fun y => f y = f x) (x :: l).
Proof.
  revert x. induction l as [|y l IH]; intros x H; [by repeat constructor|]. cbn [any_window] in H.
  apply orb_false_iff in H as [Hxy%negb_false_iff%Z.eqb_eq H]. constructor; [done|]. rewrite Hxy. by apply IH.
Qed.

Lemma map_option_map {A B C} (f : A -> option B) (g : B -> C) (k : A -> C) l : (forall x, x ∈ l -> exists y, f x = Some y /\ g y = k x) ->
  exists ys, map_option f l = Some ys /\ map g ys = map k l /\ length ys = length l.
Proof.
  induction l as [|x l IH]; intros H; [by exists []|]. destruct (H x) as (y & Hy & Hg); [by left|].
  destruct IH as (ys & Hys & Hm & Hl); [intros z Hz; apply H; by right|]. exists (y :: ys). cbn [map_option].
  rewrite Hy. cbn [mbind option_bind]. rewrite Hys. simpl. by rewrite Hg, Hm, Hl.
Qed.

(** A scalar, or a list of scalars of one kind. *)
Definition storable (v : Value) : Prop :=
  match v with
  | Null | Boolean _ | Integer _ | Float _ | Str _ => True
  | List xs => Forall (fun x => not_scalar x = false) xs /\ forall x y, x ∈ xs -> y ∈ xs -> discriminant x = discriminant y
  | Map _ | EntityValue _ | PathValue _ => False
  end.

Lemma finish_reads nan p v : readable p = true -> stored_height p <= 2 -> convert nan p = Some v -> finish nan p = Some (Ok v).
Proof.
  intros Hr Hh Hv. unfold finish. rewrite (proj2 (owned_bytes_exact p 0)) by (split; [done|lia]). by rewrite Hv.
Qed.

(** Collecting a homogeneous list into a typed array, which reads back as the list. *)
Lemma collect_roundtrip {B} (f : Value -> option B) (g : B -> Value) (wrap : list B -> P) xs :
  (forall l, readable (wrap l) = true) -> (forall l, stored_height (wrap l) <= 2) ->
  (forall nan l, convert nan (wrap l) = Some (List (map g l))) ->
  (forall x, x ∈ xs -> exists y, f x = Some y /\ g y = x) ->
  exists p, Ok ∘ wrap <$> map_option f xs = Some (Ok (E := QueryError) p) /\ forall nan, finish nan p = Some (Ok (List xs)).
Proof.
  intros Hr Hh Hc Hx. destruct (map_option_map f g (fun x => x) xs Hx) as (ys & -> & Hm & _). rewrite map_id in Hm.
  eexists. split; [done|]. intros nan. apply finish_reads; [done|done|]. by rewrite Hc, Hm.
Qed.

Lemma to_property_roundtrip v : exists r, to_property v = Some r /\ (is_ok r = true <-> storable v) /\
  forall p, r = Ok p -> forall nan, finish nan p = Some (Ok v).
Proof.
  assert (forall p, (forall nan, finish nan p = Some (Ok v)) -> to_property v = Some (Ok p) -> storable v ->
    exists r, to_property v = Some r /\ (is_ok r = true <-> storable v) /\ forall p, r = Ok p -> forall nan, finish nan p = Some (Ok v)) as Hok.
  { intros p Hp Hv Hs. exists (Ok p). split; [done|]. split; [done|]. by intros ? [= <-]. }
  destruct v as [|b|i|f|s|xs|m|e|p]; try (eapply Hok; [|reflexivity|exact I]; intros nan; by apply finish_reads); try (eexists; split; [done|]; by split).
  cbn [to_property]. destruct (existsb not_scalar xs) eqn:Es.
  { eexists. split; [done|]. split; [|done]. split; [done|]. intros [Hall _]. apply existsb_exists in Es as (x & Hx & Hn).
    rewrite Forall_forall in Hall. rewrite <- list_elem_of_In in Hx. specialize (Hall x Hx). congruence. }
  assert (Forall (fun x => not_scalar x = false) xs) as Hscalar.
  { apply Forall_forall. intros x Hx. destruct (not_scalar x) eqn:E; [|done]. rewrite <- Es. symmetry. apply existsb_exists.
    exists x. by rewrite <- list_elem_of_In. }
  destruct (any_window (fun a b => negb (discriminant a =? discriminant b)) xs) eqn:Ew.
  { eexists. split; [done|]. split; [|done]. split; [done|]. intros [_ Hsame]. exfalso. clear -Ew Hsame.
    induction xs as [|x [|y xs] IH]; try done. cbn [any_window] in Ew. apply orb_true_iff in Ew as [Ew|Ew].
    - rewrite (Hsame x y), Z.eqb_refl in Ew; [done|by left|by right; left].
    - apply IH; [done|]. intros a b Ha Hb. apply Hsame; by right. }
  destruct xs as [|x xs]; [eapply Hok; [|reflexivity|split; [constructor|by intros ? ? ?%elem_of_nil]]; intros nan; by apply finish_reads|].
  apply (window_same discriminant) in Ew. cbn [head]. rewrite Forall_forall in Ew; rewrite Forall_forall in Hscalar.
  assert (storable (List (x :: xs))) as Hst.
  { split; [by apply Forall_forall|]. intros a b Ha Hb. by rewrite (Ew a Ha), (Ew b Hb). }
  pose proof (Hscalar x ltac:(by left)) as Hx.
  assert (forall o, (exists p, o = Some (Ok (E := QueryError) p) /\ forall nan, finish nan p = Some (Ok (List (x :: xs)))) ->
    exists r, o = Some r /\ (is_ok r = true <-> storable (List (x :: xs))) /\
      forall p, r = Ok p -> forall nan, finish nan p = Some (Ok (List (x :: xs)))) as Hfin.
  { intros o (p & -> & Hp). exists (Ok p). split; [done|]. split; [done|]. by intros ? [= <-]. }
  destruct x; try done; apply Hfin.
  - destruct (map_option_map (fun v => match v with Boolean v => Some (Property.Bool v) | _ => None end) (fun p => p) 
      (fun v => match v with Boolean v => Property.Bool v | _ => Property.Null end) (Boolean b :: xs)) as (ys & Hys & Hm & _).
    { intros y Hy. specialize (Ew y Hy). destruct y; try done. by eexists. }
    rewrite map_id in Hm. rewrite Hys. eexists. split; [done|]. intros nan. subst ys.
    assert (forall l, (forall y, y ∈ l -> discriminant y = 1) ->
      let q := map (fun v => match v with Boolean v => Property.Bool v | _ => Property.Null end) l in
      forallb readable q = true /\ zmax (map stored_height q) <= 1 /\ map_option (convert nan) q = Some l) as H.
    { induction l as [|y l IH]; intros Hl; [done|]. destruct IH as (H1 & H2 & H3); [intros z Hz; apply Hl; by right|].
      pose proof (Hl y ltac:(by left)) as Hy. destruct y; try done. cbn [map forallb zmax foldr map_option convert].
      rewrite H3. split_and!; [done|simpl in *; lia|done]. }
    destruct (H (Boolean b :: xs)) as (H1 & H2 & H3); [intros y Hy; by rewrite (Ew y Hy)|].
    apply finish_reads; [done|cbn [stored_height]; lia|]. cbn [convert]. by rewrite H3.
  - apply (collect_roundtrip _ Integer); try done; [intros l; cbn [stored_height]; by destruct (0 <? len l)|].
    intros y Hy. specialize (Ew y Hy). destruct y; try done. by eexists.
  - apply (collect_roundtrip _ Float); try done; [intros l; cbn [stored_height]; by destruct (0 <? len l)|].
    intros y Hy. specialize (Ew y Hy). destruct y; try done. by eexists.
  - apply (collect_roundtrip _ Str); try done; [intros l; cbn [stored_height]; by destruct (0 <? len l)|].
    intros y Hy. specialize (Ew y Hy). destruct y; try done. by eexists.
Qed.

(** ** What the conversions promise *)

(** Reading a stored property never panics: it gives a value exactly when no
    part of the property is temporal or binary and its nesting is within the
    language's 48 levels, and every value it gives is within the evaluator's 48 levels too. *)
Theorem stored_read_exact nan p : exists r, finish nan p = Some r /\
  (is_ok r = true <-> readable p = true /\ stored_height p <= MAX_EXPRESSION_DEPTH) /\
  forall v, r = Ok v -> height v <= MAX_EXPRESSION_DEPTH.
Proof.
  unfold finish. destruct (owned_bytes p 0) as [[]|e] eqn:E.
  - apply owned_bytes_exact in E as [Hr Hh]. destruct (convert_height nan p Hr) as (v & -> & Hv).
    exists (Ok v). split; [done|]. split; [done|]. intros ? [= <-].
    change MAX_EXPRESSION_DEPTH with 48. lia.
  - exists (Err (description e)). split; [done|]. split; [|done]. split; [done|]. intros H.
    assert (owned_bytes p 0 = Ok tt) by (apply owned_bytes_exact; split; [apply H|destruct H; unfold MAX_EXPRESSION_DEPTH in *; lia]). congruence.
Qed.

(** The names of user properties. *)
Definition name_ok (name : bytes) : Prop := name <> [] /\ head name <> Some 36.

(** [C35] Stored properties round-trip: writing a map of values never panics, and
    succeeds exactly when every name is nonempty and outside the reserved [$]
    namespace and every value is null, a scalar or a list of scalars of one kind;
    what it stores is, in order, one property for every value that is not null,
    and reading each back gives exactly the value written. *)
Theorem stored_roundtrip m : exists r, properties m = Some r /\
  (is_ok r = true <-> Forall (fun e => name_ok e.1 /\ storable e.2) m) /\
  forall l, r = Ok l ->
    Forall2 (fun e s => s.1 = e.1 /\ forall nan, finish nan s.2 = Some (Ok e.2)) (filter (fun e => discriminant e.2 <> 0) m) l.
Proof.
  induction m as [|[name v] m (r & Hr & Hok & Hl)].
  { exists (Ok []). split; [done|]. split; [by split|]. intros ? [= <-]. constructor. }
  cbn [properties stored]. setoid_rewrite Forall_cons. cbn [fst snd].
  destruct (bool_decide (head name = Some 36) || bool_decide (name = [])) eqn:En.
  { eexists. split; [done|]. split; [|done]. split; [done|]. intros [[[H1 H2] _] _]. exfalso.
    apply orb_true_iff in En as [En|En]; by apply bool_decide_eq_true in En. }
  apply orb_false_iff in En as [E1%bool_decide_eq_false E2%bool_decide_eq_false]. assert (name_ok name) as Hname by done.
  rewrite filter_cons. cbn [snd]. destruct (bool_decide_reflect (discriminant v = 0)) as [Hd|Hd].
  - cbn [mbind option_bind]. rewrite Hr. exists r. split; [done|]. destruct v; try done. rewrite Hok. simpl. split; [tauto|done].
  - destruct (to_property_roundtrip v) as (rv & -> & Hv & Hback). cbn [mbind option_bind]. destruct rv as [p|e]; cbn [result_bind].
    + rewrite Hr. cbn [mbind option_bind]. eexists. split; [done|]. destruct r as [l|e]; cbn [result_bind is_ok] in *.
      * split; [tauto|]. intros ? [= <-]. rewrite decide_True by done. constructor; [|by apply Hl]. split; [done|]. by apply Hback.
      * split; [split; [done|]; tauto|done].
    + exists (Err e). split; [done|]. split; [|done]. cbn [is_ok] in *. split; [done|]. tauto.
Qed.

End QueryStored.
