(* ===== verification/QueryParameters.v ===== *)
(** Query parameters: crates/db/src/cypher/parameters.rs and [parameter_value] of
    cypher.rs, over the parameter values of ast/src/query.rs and the planner's
    literals of ast/src/value.rs.

    A request's parameters become planning literals and run-time values at once.
    Byte footprints read buffer capacities: whether they fit is a decision of the
    environment, [memory]. [None] is a panic of an [expect]. *)
From S2P Require Import Prelude Bytes BTree QueryValue QueryEquals QueryShape QueryStored.

Open Scope Z_scope.

Module QueryParameters.
Export QueryShape.
Import QueryEquals(all2).

(** [QueryValue] of ast/src/query.rs. *)
Inductive QueryValue :=
| QNull
| QBool (b : bool)
| QI64 (z : Z)
| QF64 (bits : Z)
| QF32 (bits : Z)
| QString (s : bytes)
| QArray (values : list QueryValue)
| QObject (values : list (bytes * QueryValue)).

(** [PropertyValue] of ast/src/value.rs. *)
Inductive PropertyValue :=
| ANull
| ABool (b : bool)
| AI64 (z : Z)
| ADateTime (millis : Z)
| AF64 (bits : Z)
| AF32 (bits : Z)
| AString (s : bytes)
| ABytes (s : bytes)
| AI64Array (values : list Z)
| AF64Array (values : list Z)
| AF32Array (values : list Z)
| AStringArray (values : list bytes)
| AArray (values : list PropertyValue)
| AObject (values : list (bytes * PropertyValue)).

(** [PropertyValue::from]. *)
Fixpoint property_from (value : QueryValue) : PropertyValue :=
  match value with
  | QNull => ANull
  | QBool value => ABool value
  | QI64 value => AI64 value
  | QF64 value => AF64 value
  | QF32 value => AF32 value
  | QString value => AString value
  | QArray values => AArray (map property_from values)
  | QObject values => AObject (map (fun e => (e.1, property_from e.2)) values)
  end.

Section Induction.
Context (P : QueryValue -> Prop).
Context (Hscalar : forall v, match v with QArray _ | QObject _ => False | _ => True end -> P v).
Context (Harray : forall l, Forall P l -> P (QArray l)) (Hobject : forall l, Forall (fun e => P e.2) l -> P (QObject l)).

Fixpoint query_value_ind' (v : QueryValue) : P v :=
  match v with
  | QArray l => Harray l ((fix go l : Forall P l :=
      match l with [] => List.Forall_nil _ | x :: l => List.Forall_cons _ _ _ (query_value_ind' x) (go l) end) l)
  | QObject l => Hobject l ((fix go l : Forall (fun e => P e.2) l :=
      match l with [] => List.Forall_nil _ | x :: l => List.Forall_cons _ _ _ (query_value_ind' x.2) (go l) end) l)
  | v => Hscalar v I
  end.
End Induction.

Section Parameters.
Context (nan : Z).

Fixpoint parameter_value (value : QueryValue) : Value :=
  match value with
  | QNull => Null
  | QBool b => Boolean b
  | QI64 i => Integer i
  | QF64 f => Float f
  | QF32 f => Float (QueryStored.f64_from_f32 nan f)
  | QString s => Str s
  | QArray xs => List (map parameter_value xs)
  | QObject xs => Map (map (fun e => (e.1, parameter_value e.2)) xs)
  end.

(** ** Admission *)

(** [payload], but for the bytes: the count of values, within the limits. *)
Fixpoint payload (value : QueryValue) (depth count : Z) : result QueryError Z :=
  let count := sat_add 64 count 1 in
  if (MAX_EXPRESSION_DEPTH <=? depth) || (200000 <? count) then
    Err (compile_error "resource_limit" "value_depth" "parameter exceeds structural limits")
  else
    match value with
    | QArray values => try_each (fun v => payload v (depth + 1)) values count
    | QObject values => try_each (fun e => payload e.2 (depth + 1)) values count
    | _ => Ok count
    end.

Fixpoint preflight (input : list (bytes * QueryValue)) : result QueryError unit :=
  match input with
  | [] => Ok tt
  | (name, value) :: input =>
      if bool_decide (name = []) then
        Err (compile_error "syntax_error" "invalid_parameter" "parameter name cannot be empty")
      else let? _ := payload value 0 0 in preflight input
  end.

Record Prepared := {
  prepared_values : list (bytes * PropertyValue);
  prepared_query_values : list (bytes * QueryValue);
  run_values : list (bytes * Value) }.

(** The loop over the parameters; [NonEmptyString::new] refuses an empty name. *)
Fixpoint prepare_loop (input : list (bytes * QueryValue)) (prepared : Prepared) : option Prepared :=
  match input with
  | [] => Some prepared
  | (name, value) :: input =>
      if bool_decide (name = []) then None
      else prepare_loop input {|
        prepared_values := BTree.insert bytes_cmp name (property_from value) (prepared_values prepared);
        prepared_query_values := BTree.insert bytes_cmp name value (prepared_query_values prepared);
        run_values := BTree.insert bytes_cmp name (parameter_value value) (run_values prepared) |}
  end.

Definition prepare (input : list (bytes * QueryValue)) (memory : bool) : option (result QueryError Prepared) :=
  match preflight input with
  | Err e => Some (Err e)
  | Ok _ =>
      if memory then Ok <$> prepare_loop input {| prepared_values := []; prepared_query_values := []; run_values := [] |}
      else Some (Err (runtime_error "resource_limit" "memory_limit" "parameter representations exceed the query memory budget"))
  end.

(** ** The limits *)

Lemma payload_children {A} (g : A -> QueryValue) l depth count r :
  Forall (fun x => forall depth count r, 0 <= count -> payload (g x) depth count = Ok r <->
    depth + height (parameter_value (g x)) <= 48 /\ count + items (parameter_value (g x)) <= 200000 /\
    r = count + items (parameter_value (g x))) l ->
  depth < 48 -> 0 <= count <= 200000 ->
  (try_each (fun x => payload (g x) (depth + 1)) l count = Ok r <->
   depth + 1 + zmax (map (fun x => height (parameter_value (g x))) l) <= 48 /\
   count + zsum (map (fun x => items (parameter_value (g x))) l) <= 200000 /\
   r = count + zsum (map (fun x => items (parameter_value (g x))) l)).
Proof.
  intros Hall Hd. revert count. induction Hall as [|x l Hx Hall IH]; intros count Hc; simpl.
  { split; [intros [= ->]; lia|]. intros (_ & _ & ->). f_equal. lia. }
  pose proof (items_pos (parameter_value (g x))). pose proof (zmax_nonneg (map (fun x => height (parameter_value (g x))) l)).
  assert (0 <= zsum (map (fun x => items (parameter_value (g x))) l)) as Hpos.
  { clear. induction l as [|y l IH]; simpl; [lia|]. pose proof (items_pos (parameter_value (g y))). lia. }
  destruct (payload (g x) (depth + 1) count) as [c|e] eqn:E; cbn [result_bind].
  - apply Hx in E as (H1 & H2 & ->); [|lia]. rewrite IH by lia. lia.
  - split; [done|]. intros (H1 & H2 & ->).
    assert (payload (g x) (depth + 1) count = Ok (count + items (parameter_value (g x)))) by (apply Hx; lia). congruence.
Qed.

Lemma payload_exact q depth count r : 0 <= count -> payload q depth count = Ok r <->
  depth + height (parameter_value q) <= 48 /\ count + items (parameter_value q) <= 200000 /\ r = count + items (parameter_value q).
Proof.
  revert depth count r. induction q as [q Hq|l IH|l IH] using query_value_ind'; intros depth count r Hc.
  all: match goal with |- payload ?q _ _ = _ <-> _ => pose proof (height_pos (parameter_value q)); pose proof (items_pos (parameter_value q));
    assert (payload q depth count = if (48 <=? depth) || (200000 <? sat_add 64 count 1) then
      Err (compile_error "resource_limit" "value_depth" "parameter exceeds structural limits")
      else match q with
        | QArray values => try_each (fun v => payload v (depth + 1)) values (sat_add 64 count 1)
        | QObject values => try_each (fun e => payload e.2 (depth + 1)) values (sat_add 64 count 1)
        | _ => Ok (sat_add 64 count 1) end) as -> by (reflexivity || (destruct q; reflexivity)) end.
  all: destruct (Z.leb_spec 48 depth); cbn [orb]; [split; [done|lia]|].
  all: destruct (Z.ltb_spec 200000 (sat_add 64 count 1)) as [Hs|Hs]; [split; [done|]; unfold sat_add, umax in Hs; lia|].
  all: assert (sat_add 64 count 1 = count + 1) as E by (unfold sat_add, umax in *; lia); rewrite E in *.
  - destruct q; try done; simpl; split; try (intros [= <-]; lia); intros (_ & _ & ->); done.
  - rewrite (payload_children (fun x => x)) by (done || lia). simpl. rewrite !map_map. lia.
  - rewrite (payload_children snd) by (done || lia). simpl. rewrite !map_map. simpl. lia.
Qed.

(** The levels and the values of a parameter. *)
Fixpoint levels (q : QueryValue) : Z :=
  match q with
  | QArray l => 1 + zmax (map levels l)
  | QObject m => 1 + zmax (map (fun e => levels e.2) m)
  | _ => 1
  end.
Fixpoint size (q : QueryValue) : Z :=
  match q with
  | QArray l => 1 + zsum (map size l)
  | QObject m => 1 + zsum (map (fun e => size e.2) m)
  | _ => 1
  end.

Lemma levels_height q : levels q = height (parameter_value q).
Proof.
  induction q as [q Hq|l IH|m IH] using query_value_ind'; [by destruct q|..]; cbn [levels parameter_value height]; rewrite map_map; do 2 f_equal;
    apply map_ext_Forall, IH.
Qed.

Lemma size_items q : size q = items (parameter_value q).
Proof.
  induction q as [q Hq|l IH|m IH] using query_value_ind'; [by destruct q|..]; cbn [size parameter_value items]; rewrite map_map; do 2 f_equal;
    apply map_ext_Forall, IH.
Qed.

(** A parameter the preflight admits. *)
Definition parameter_ok (e : bytes * QueryValue) : Prop := e.1 <> [] /\ levels e.2 <= 48 /\ size e.2 <= 200000.

Lemma preflight_exact input : is_ok (preflight input) = true <-> Forall parameter_ok input.
Proof.
  induction input as [|[name q] input IH]; [done|]. cbn [preflight]. rewrite Forall_cons.
  destruct (bool_decide_reflect (name = [])) as [->|Hn]; [split; [done|]; intros [[? _] _]; done|].
  destruct (payload q 0 0) as [c|e] eqn:E; cbn [result_bind].
  - apply payload_exact in E as (H1 & H2 & _); [|lia]. rewrite IH. unfold parameter_ok at 2. rewrite levels_height, size_items. simpl. intuition lia.
  - split; [done|]. intros [(_ & H1 & H2) _]. rewrite levels_height in H1. rewrite size_items in H2. simpl in *.
    assert (payload q 0 0 = Ok (0 + items (parameter_value q))) by (apply payload_exact; lia). congruence.
Qed.

Lemma prepare_loop_exact input prepared : Forall (fun e => e.1 <> []) input -> NoDup input.*1 ->
  BTree.sorted_map bytes_cmp (prepared_values prepared) -> BTree.sorted_map bytes_cmp (prepared_query_values prepared) ->
  BTree.sorted_map bytes_cmp (run_values prepared) ->
  exists p, prepare_loop input prepared = Some p /\ forall name,
    (BTree.get bytes_cmp name (prepared_values p) = match BTree.get bytes_cmp name input with
       Some q => Some (property_from q) | None => BTree.get bytes_cmp name (prepared_values prepared) end) /\
    (BTree.get bytes_cmp name (prepared_query_values p) = match BTree.get bytes_cmp name input with
       Some q => Some q | None => BTree.get bytes_cmp name (prepared_query_values prepared) end) /\
    (BTree.get bytes_cmp name (run_values p) = match BTree.get bytes_cmp name input with
       Some q => Some (parameter_value q) | None => BTree.get bytes_cmp name (run_values prepared) end).
Proof.
  revert prepared. induction input as [|[name q] input IH]; intros prepared Hne Hnd S1 S2 S3; [by exists prepared|].
  apply Forall_cons in Hne as [Hn Hne]. apply NoDup_cons in Hnd as [Hnin Hnd]. cbn [prepare_loop fst] in *.
  rewrite bool_decide_false by done.
  destruct (IH {| prepared_values := BTree.insert bytes_cmp name (property_from q) (prepared_values prepared);
        prepared_query_values := BTree.insert bytes_cmp name q (prepared_query_values prepared);
        run_values := BTree.insert bytes_cmp name (parameter_value q) (run_values prepared) |}) as (p & E & Hp);
    [done|done|apply BTree.insert_sorted; [apply _|done]..|].
  exists p. split; [done|]. intros k. destruct (Hp k) as (H1 & H2 & H3). cbn [prepared_values prepared_query_values run_values] in *.
  rewrite (BTree.get_insert bytes_cmp) in H1 by done. rewrite (BTree.get_insert bytes_cmp) in H2 by done.
  rewrite (BTree.get_insert bytes_cmp) in H3 by done. cbn [BTree.get].
  destruct (bytes_cmp k name) eqn:Ek; [|done..].
  apply (cmp_eq (cmp := bytes_cmp)) in Ek as ->.
  assert (BTree.get bytes_cmp name input = None) as Hg by (by apply (BTree.get_none bytes_cmp)). by rewrite Hg in H1, H2, H3.
Qed.
End Parameters.

(** ** What the representations hold *)

(** A planning literal that holds the parameter, and a run-time value that does: the same variant, with the same
    content; a 32-bit float is a 32-bit literal, and widened at run time. *)
Fixpoint literal_of (q : QueryValue) (literal : PropertyValue) : Prop :=
  match q, literal with
  | QNull, ANull => True
  | QBool b, ABool b' => b' = b
  | QI64 z, AI64 z' => z' = z
  | QF64 x, AF64 x' | QF32 x, AF32 x' => x' = x
  | QString s, AString s' => s' = s
  | QArray l, AArray l' => all2 literal_of l l'
  | QObject m, AObject m' => all2 (fun e e' => e'.1 = e.1 /\ literal_of e.2 e'.2) m m'
  | _, _ => False
  end.
Fixpoint value_of (nan : Z) (q : QueryValue) (v : Value) : Prop :=
  match q, v with
  | QNull, Null => True
  | QBool b, Boolean b' => b' = b
  | QI64 z, Integer z' => z' = z
  | QF64 x, Float x' => x' = x
  | QF32 x, Float x' => x' = QueryStored.f64_from_f32 nan x
  | QString s, Str s' => s' = s
  | QArray l, List l' => all2 (value_of nan) l l'
  | QObject m, Map m' => all2 (fun e e' => e'.1 = e.1 /\ value_of nan e.2 e'.2) m m'
  | _, _ => False
  end.

Lemma all2_map {A B} (R : A -> B -> Prop) f l : Forall (fun x => R x (f x)) l -> all2 R l (map f l).
Proof. induction 1; by split. Qed.

Lemma property_from_literal q : literal_of q (property_from q).
Proof.
  induction q as [q Hq|l IH|m IH] using query_value_ind'; [by destruct q|by apply all2_map|].
  apply (all2_map (fun e e' => e'.1 = e.1 /\ literal_of e.2 e'.2)). by eapply Forall_impl.
Qed.

Lemma parameter_value_of nan q : value_of nan q (parameter_value nan q).
Proof.
  induction q as [q Hq|l IH|m IH] using query_value_ind'; [by destruct q|by apply all2_map|].
  apply (all2_map (fun e e' => e'.1 = e.1 /\ value_of nan e.2 e'.2)). by eapply Forall_impl.
Qed.

Lemma prepare_correct nan input memory : BTree.sorted_map bytes_cmp input ->
  exists r, prepare nan input memory = Some r /\
    (is_ok r = true <-> Forall parameter_ok input /\ memory = true) /\
    forall p, r = Ok p -> forall name,
      BTree.get bytes_cmp name (prepared_values p) = property_from <$> BTree.get bytes_cmp name input /\
      BTree.get bytes_cmp name (prepared_query_values p) = BTree.get bytes_cmp name input /\
      BTree.get bytes_cmp name (run_values p) = parameter_value nan <$> BTree.get bytes_cmp name input.
Proof.
  intros Hs. unfold prepare. pose proof (preflight_exact nan input) as Hpre. destruct (preflight input) as [[]|e].
  - assert (Forall parameter_ok input) as Hok by by apply Hpre.
    destruct memory; [|eexists; split; [done|]; split; [|done]; split; [done|]; by intros []].
    destruct (prepare_loop_exact nan input {| prepared_values := []; prepared_query_values := []; run_values := [] |}) as (p & -> & Hp).
    + eapply Forall_impl; [exact Hok|]. by intros e [].
    + apply (BTree.sorted_set_nodup bytes_cmp), (BTree.sorted_map_fst bytes_cmp), Hs.
    + constructor.
    + constructor.
    + constructor.
    + exists (Ok p). split; [done|]. split; [done|]. intros ? [= <-] name. destruct (Hp name) as (-> & -> & ->).
      by destruct (BTree.get bytes_cmp name input).
  - exists (Err e). split; [done|]. split; [|done]. split; [done|]. intros [H _]. by apply Hpre in H.
Qed.

(** [C37] Parameter preparation never panics, succeeds exactly when every name is
    nonempty, every value within 48 levels and 200,000 items, and the memory budget
    admits it; and then the retained parameters are the request's, and the planner's
    literals and the evaluator's values hold under each name of the request, and no
    other, the same variant with the same content at every depth ([literal_of],
    [value_of]; a 32-bit float is widened for evaluation). *)
Theorem prepare_exact nan input memory : BTree.sorted_map bytes_cmp input ->
  exists r, prepare nan input memory = Some r /\
    (is_ok r = true <-> Forall parameter_ok input /\ memory = true) /\
    forall p, r = Ok p -> forall name,
      match BTree.get bytes_cmp name input with
      | None => BTree.get bytes_cmp name (prepared_values p) = None /\ BTree.get bytes_cmp name (prepared_query_values p) = None /\
          BTree.get bytes_cmp name (run_values p) = None
      | Some q => BTree.get bytes_cmp name (prepared_query_values p) = Some q /\
          (exists literal, BTree.get bytes_cmp name (prepared_values p) = Some literal /\ literal_of q literal) /\
          (exists v, BTree.get bytes_cmp name (run_values p) = Some v /\ value_of nan q v)
      end.
Proof.
  intros Hs. destruct (prepare_correct nan input memory Hs) as (r & E & Hok & H). exists r. split_and!; [done|done|].
  intros p Hp name. destruct (H p Hp name) as (H1 & H2 & H3). rewrite H1, H2, H3.
  destruct (BTree.get bytes_cmp name input) as [q|]; [|done]. split_and!; [done|..]; eexists; (split; [reflexivity|]);
    [apply property_from_literal|apply parameter_value_of].
Qed.

Definition sample_input : list (bytes * QueryValue) := [([97], QArray [QI64 1; QNull]); ([98], QF32 1069547520)].

Lemma prepare_exact_witness : exists p, prepare 0 sample_input true = Some (Ok p) /\
  BTree.get bytes_cmp [98] (prepared_values p) = Some (AF32 1069547520) /\
  BTree.get bytes_cmp [98] (run_values p) = Some (Float 4609434218613702656).
Proof.
  destruct (prepare_exact 0 sample_input true) as (r & E & _ & H).
  - repeat constructor.
  - vm_compute in E. injection E as <-. eexists. split; [vm_compute; reflexivity|].
    destruct (H _ eq_refl [98]) as (_ & (literal & H1 & L) & (v & H3 & V)). rewrite H1, H3. by destruct literal; cbn in L; subst; destruct v; cbn in V; subst.
Defined.

End QueryParameters.
