(* ===== verification/QueryTotality.v ===== *)
(** Total predicates: [bound_value] and [Totality] of
    crates/planner/src/relational/planning.rs.

    The planner may skip rows that a predicate rejects only when the predicate
    cannot fail on them. [None] is a panic: a slot outside the catalog, or the
    empty name of a parameter. *)
From S2P Require Import Prelude Bytes BTree QueryValue QueryShape QueryRange QueryOperators QueryExpression QueryMonad QueryEval QueryTypes QuerySchema QueryPlan QueryParameters.

Open Scope Z_scope.

Module QueryTotality.
Export QueryTypes QueryPlan QueryParameters.

(** ** Parameters known to the planner *)

(** [ParamBindings] of context/params.rs. *)
Record ParamBindings := { values : list (bytes * PropertyValue); query_values : list (bytes * QueryValue) }.

Inductive Parameters := BoundParameters (params : ParamBindings) | Validated.

(** The closure [entry] of [bound_value]. *)
Definition entry (value : PropertyValue) (key : bytes) : option PropertyValue :=
  match value with
  | AObject map => Some (default ANull (BTree.get bytes_cmp key map))
  | ANull => Some ANull
  | _ => None
  end.

(** A negative index counts from the end. *)
Definition element {A} (index : Z) (values : list A) : option A :=
  let position := if index <? 0 then len values + index else index in
  if (0 <=? position) && (position <? len values) then values !! Z.to_nat position else None.

Definition elements (index : Z) (value : PropertyValue) : option PropertyValue :=
  match value with
  | AArray values => Some (default ANull (element index values))
  | AI64Array values => Some (default ANull (AI64 <$> element index values))
  | AF64Array values => Some (default ANull (AF64 <$> element index values))
  | AF32Array values => Some (default ANull (AF32 <$> element index values))
  | AStringArray values => Some (default ANull (AString <$> element index values))
  | ANull => Some ANull
  | _ => None
  end.

Definition is_anull (value : PropertyValue) : bool := match value with ANull => true | _ => false end.

Fixpoint bound_value (params : ParamBindings) (expression : Expression) : option (option PropertyValue) :=
  match expression with
  | EParameter name => if bool_decide (name = []) then None else Some (BTree.get bytes_cmp name (values params))
  | EProperty value key =>
      value ← bound_value params value;
      Some (value ← value; entry value key)
  | EIndex value index =>
      value ← bound_value params value;
      Some (value ← value;
            match index with
            | ELiteral (Str key) => entry value key
            | ELiteral (Integer index) => elements index value
            | ELiteral Null => if is_anull value then Some ANull else None
            | _ => None
            end)
  | _ => Some None
  end.

(** ** Totality *)

(** [Iterator::all] of a predicate that may panic. *)
Definition all_of {A} (f : A -> option bool) : list A -> option bool :=
  fix go l := match l with
              | [] => Some true
              | x :: l => b ← f x; if b : bool then go l else Some false
              end.

Definition or_else (a b : option bool) : option bool := x ← a; if x : bool then Some true else b.
Definition and_then (a b : option bool) : option bool := x ← a; if x : bool then b else Some false.

Section Totality.
Context (pattern : Pattern) (bindings : list Binding) (params : Parameters).

Definition is_node (slot : Z) : bool := existsb (fun node => node_slot node =? slot) (pattern_nodes pattern).
Definition is_relationship (slot : Z) : bool := existsb (fun rel => rel_slot rel =? slot) (pattern_relationships pattern).
(** [matches!(self.bindings[slot].value_type, ..)] *)
Definition slot_is (slot : Z) (types : list ValueType) : option bool :=
  b ← bindings !! Z.to_nat slot; Some (bool_decide (value_type b ∈ types)).

Definition has_properties (slot : Z) : option bool :=
  if is_node slot || is_relationship slot then Some true else slot_is slot [TNode; TRelationship; TMap; TNull].

(** A parameter access whose bound value passes the test. *)
Definition bound_is (test : PropertyValue -> bool) (e : Expression) : option bool :=
  match params with
  | BoundParameters params => value ← bound_value params e; Some (match value with Some value => test value | None => false end)
  | Validated => Some false
  end.

Fixpoint operand (e : Expression) : option bool :=
  match e with
  | ELiteral _ | ESlot _ => Some true
  | EList items => all_of operand items
  | EMap entries => all_of (fun entry => operand entry.2) entries
  | EParameter name =>
      match params with
      | BoundParameters params =>
          if bool_decide (name = []) then None
          else Some (present (BTree.get bytes_cmp name (values params)) || present (BTree.get bytes_cmp name (query_values params)))
      | Validated => Some true
      end
  | EProperty value _ =>
      or_else (match value with ESlot slot => has_properties slot | _ => Some false end) (bound_is (fun _ => true) e)
  | EIndex _ _ => bound_is (fun _ => true) e
  | EFunction FId [ESlot slot] =>
      if is_node slot || is_relationship slot then Some true else slot_is slot [TNode; TRelationship; TNull]
  | _ => Some false
  end.

(** The right operand of IN. *)
Definition list_operand (list : Expression) : option bool :=
  match list with
  | ELiteral (List _ | Null) => Some true
  | ESlot slot => slot_is slot [TList; TNull]
  | EList items =>
      all_of (fun item => match item with
                          | ELiteral _ | EParameter _ => operand item
                          | item => bound_is (fun _ => true) item
                          end) items
  | EParameter _ | EProperty _ _ | EIndex _ _ =>
      bound_is (fun value => match value with AArray _ | ANull => true | _ => false end) list
  | _ => Some false
  end.

Fixpoint predicate (expression : Expression) : option bool :=
  match expression with
  | ELiteral (Boolean _ | Null) => Some true
  | ESlot slot => slot_is slot [TBoolean; TNull]
  | EParameter _ | EProperty _ _ | EIndex _ _ =>
      bound_is (fun value => match value with ABool _ | ANull => true | _ => false end) expression
  | EConnective _ operands => all_of predicate operands
  | EUnary Not negated => predicate negated
  | EUnary (IsNull | IsNotNull) value => operand value
  | EHasLabel slot _ => if is_node slot then Some true else slot_is slot [TNode; TNull]
  | EBinary In value list => and_then (operand value) (list_operand list)
  | EBinary (Equal | NotEqual | Less | LessEqual | Greater | GreaterEqual | StartsWith | EndsWith | Contains) a b =>
      and_then (operand a) (operand b)
  | _ => Some false
  end.
End Totality.

(** ** Outcomes *)

(** Whatever is admitted, [m] gives a value in [Q], or an error in [E]; it never panics. *)
Section Sure.
Context (E : QueryError -> Prop) (HE : forall e, error_category e = "resource_limit"%string -> E e).

Definition sure {A} (m : M A) (Q : A -> Prop) : Prop := forall adm, exists r rest, m adm = Some (r, rest) /\
  match r with Ok a => Q a | Err e => E e end.

Lemma sure_ret {A} (a : A) (Q : A -> Prop) : Q a -> sure (ret a) Q.
Proof. intros H adm. by exists (Ok a), adm. Qed.

Lemma sure_fail {A} e (Q : A -> Prop) : E e -> sure (fail e) Q.
Proof. intros H adm. by exists (Err e), adm. Qed.

Lemma sure_lift {A} (r : result QueryError A) (Q : A -> Prop) : match r with Ok a => Q a | Err e => E e end -> sure (lift r) Q.
Proof. intros H adm. by exists r, adm. Qed.

Lemma sure_bind {A B} (m : M A) (k : A -> M B) (P : A -> Prop) (Q : B -> Prop) :
  sure m P -> (forall a, P a -> sure (k a) Q) -> sure (bind m k) Q.
Proof.
  intros Hm Hk adm. destruct (Hm adm) as ([a|e] & rest & E' & H); unfold bind; rewrite E'; [by apply Hk|by exists (Err e), rest].
Qed.

Lemma sure_weaken {A} (m : M A) (P Q : A -> Prop) : sure m P -> (forall a, P a -> Q a) -> sure m Q.
Proof. intros Hm H adm. destruct (Hm adm) as ([a|e] & rest & E' & Hr); [exists (Ok a)|exists (Err e)]; exists rest; auto. Qed.

Lemma sure_remaining : sure remaining (fun _ => True).
Proof. intros [|[|] adm]; [by exists (Ok tt), []|by exists (Ok tt), adm|by exists (Err exhausted), adm; split; [|apply HE]]. Qed.

Lemma sure_checked max v : sure (checked max v) (fun w => w = v).
Proof.
  unfold checked, within_collections. eapply (sure_bind _ _ (fun _ => True)).
  - apply sure_lift. unfold validate_collections. destruct (check_shape _ _ _ _) as [|[|]]; [done|by apply HE..].
  - intros _ _. eapply sure_bind; [apply sure_remaining|]. intros _ _. by apply sure_ret.
Qed.

Lemma sure_twice max v : sure (do v <- checked max v; checked max v) (fun w => w = v).
Proof. eapply sure_bind; [apply sure_checked|]. intros ? ->. apply sure_checked. Qed.

Lemma sure_for_each {A S} (l : list A) (I : S -> Prop) (body : A -> S -> M S) s :
  I s -> (forall x s, x ∈ l -> I s -> sure (body x s) I) -> sure (for_each l s body) I.
Proof.
  revert s. induction l as [|x l IH]; intros s Hs H; [by apply sure_ret|]. cbn [for_each].
  eapply sure_bind; [apply H; [by left|done]|]. intros s' Hs'. apply IH; [done|]. intros y t Hy. apply H. by right.
Qed.

Lemma sure_arguments ms : Forall (fun m => sure m (fun _ => True)) ms -> sure (arguments ms) (fun _ => True).
Proof.
  intros Hms. unfold arguments. eapply sure_bind; [apply sure_remaining|]. intros _ _. apply sure_for_each; [done|].
  intros m vs Hm _. rewrite Forall_forall in Hms. eapply sure_bind; [apply sure_remaining|]. intros _ _.
  eapply sure_bind; [by apply Hms|]. intros v _. eapply sure_bind; [apply sure_remaining|]. intros _ _. by apply sure_ret.
Qed.
End Sure.

End QueryTotality.
