(* ===== verification/QueryTotalitySpec.v ===== *)
(** Total predicates cannot fail: a predicate [Totality] admits evaluates to a
    boolean or null on every well-typed row, but for resource limits and the
    dormant errors of stored values outside the language; and the literals the
    planner reads from bound parameters are what the evaluator computes. *)
From S2P Require Import Prelude Bytes BTree QueryValue QueryShape QueryRange QueryOperators QueryExpression QueryMonad QueryEval QueryRelocate QueryRewrite QueryTypes QuerySchema QueryPlan QueryPlanSpec QueryParameters QueryTotality.

Open Scope Z_scope.

Module QueryTotalitySpec.
Export QueryTotality.

(** ** Reading constants *)

Lemma get_map_values {A B} (f : A -> B) key (m : list (bytes * A)) :
  BTree.get bytes_cmp key (map (fun e => (e.1, f e.2)) m) = f <$> BTree.get bytes_cmp key m.
Proof. induction m as [|[k v] m IH]; [done|]. cbn [map BTree.get fst snd]. by destruct (bytes_cmp key k). Qed.

Lemma lookup_default {A B} (f : A -> B) (d : A) l i : f (default d (l !! i)) = default (f d) (map f l !! i).
Proof. rewrite list_lookup_fmap. by destruct (l !! i). Qed.

(** The planner and the evaluator select the same element. *)
Lemma element_agrees nan index (l : list QueryParameters.QueryValue) :
  exists q, default ANull (element index (map property_from l)) = property_from q /\
    index_list (map (parameter_value nan) l) index = Some (parameter_value nan q).
Proof.
  rewrite index_list_some. unfold element, from_end, len. rewrite !length_map.
  set (p := if index <? 0 then Z.of_nat (length l) + index else index).
  destruct ((0 <=? p) && (p <? Z.of_nat (length l))); [|by exists QNull].
  exists (default QNull (l !! Z.to_nat p)). rewrite (lookup_default property_from), (lookup_default (parameter_value nan)). done.
Qed.

(** ** Soundness *)

Section Sound.
Context `{TextLibrary} (nan : Z) (powf : Z -> Z -> Z) (graph : GraphValues) (max : Z).
Context (input : list (bytes * QueryParameters.QueryValue)) (parameters : list (bytes * Value)).
Context (pattern : Pattern) (bindings : list Binding) (params : Parameters).
Context (row : Row) (group : option (list Row)).

Notation eval := (eval nan powf graph parameters max).

(** The evaluator and the planner hold the request's parameters. *)
Definition parameters_agree : Prop :=
  (forall name, BTree.get bytes_cmp name parameters = parameter_value nan <$> BTree.get bytes_cmp name input) /\
  match params with
  | BoundParameters b => forall name,
      BTree.get bytes_cmp name (values b) = property_from <$> BTree.get bytes_cmp name input /\
      BTree.get bytes_cmp name (query_values b) = BTree.get bytes_cmp name input
  | Validated => True
  end.

(** The row a MATCH tests: every binding of its type, pattern slots holding
    entities (or null, after an optional match) with identifiers the language can
    show, and the graph prepared. *)
Record row_matches : Prop := {
  rm_typed : forall s b, bindings !! s = Some b -> exists v, row !! s = Some v /\ has_type v (value_type b);
  rm_node : forall s, is_node pattern s = true -> exists v, row !! Z.to_nat s = Some v /\ (v = Null \/ exists id, v = EntityValue (Node id));
  rm_relationship : forall s, is_relationship pattern s = true ->
    exists v, row !! Z.to_nat s = Some v /\ (v = Null \/ exists id, v = EntityValue (Relationship id));
  rm_ids : forall s id, row !! s = Some (EntityValue (Node id)) \/ row !! s = Some (EntityValue (Relationship id)) -> id < 2 ^ 63;
  rm_properties : forall entity, exists m, graph_properties graph entity = Ok m;
  rm_label : forall entity, exists l, graph_label graph entity = Ok l }.

(** Over the catalog, with every parameter present and no empty connective. *)
Definition node_fits (n : Expression) : Prop :=
  match n with
  | EParameter name => name <> [] /\ BTree.get bytes_cmp name input <> None
  | ESlot s | EHasLabel s _ => QueryPlanSpec.in_catalog bindings s
  | EConnective _ operands => operands <> []
  | _ => True
  end.
Definition fits (e : Expression) : Prop := Forall node_fits (nodes e).

(** An error of a stored value that the language cannot represent. *)
Definition dormant (e : QueryError) : Prop := exists entity m key, graph_properties graph entity = Ok m /\ (key, Err e) ∈ m.
Definition tolerated (e : QueryError) : Prop := error_category e = "resource_limit"%string \/ dormant e.

Context (Hparams : parameters_agree) (Hrow : row_matches).

Notation sure := (sure tolerated).

Lemma tolerated_limit e : error_category e = "resource_limit"%string -> tolerated e.
Proof. by left. Qed.
Notation twice := (sure_twice tolerated tolerated_limit).
Notation checks := (sure_checked tolerated tolerated_limit).
Notation remains := (sure_remaining tolerated tolerated_limit).

Lemma fits_child e c : c ∈ children e -> fits e -> fits c.
Proof.
  intros Hc He. unfold fits in *. rewrite Forall_forall in He. apply Forall_forall. intros n Hn. apply He. by eapply QueryRewrite.nodes_child.
Qed.

Lemma fits_self e : fits e -> node_fits e.
Proof. intros He. unfold fits in He. rewrite Forall_forall in He. apply He, QueryRewrite.nodes_self. Qed.

Lemma eval_slot s v : row !! Z.to_nat s = Some v -> sure (eval (ESlot s) row group) (fun w => w = v).
Proof. intros Hv. cbn [QueryEval.eval]. rewrite Hv. apply twice. Qed.

Lemma eval_parameter name q : BTree.get bytes_cmp name input = Some q ->
  sure (eval (EParameter name) row group) (fun w => w = parameter_value nan q).
Proof. intros Hq. cbn [QueryEval.eval]. rewrite (proj1 Hparams), Hq. apply twice. Qed.

Lemma eval_property x key (P : Value -> Prop) : sure (eval x row group) P ->
  (forall v, P v -> match v with Null | Map _ | EntityValue _ => True | _ => False end) ->
  sure (eval (EProperty x key) row group) (fun _ => True).
Proof.
  intros Hx HP. cbn [QueryEval.eval]. eapply sure_bind; [exact Hx|]. intros v Hv. specialize (HP v Hv).
  destruct v; try done; try (eapply sure_weaken; [apply checks|done]).
  eapply (sure_bind _ _ _ (fun _ => True)).
  - apply sure_lift. unfold graph_property. destruct (rm_properties Hrow e) as [m Hm]. rewrite Hm. cbn [result_bind].
    destruct (BTree.get bytes_cmp key m) as [[w|err]|] eqn:Eg; [done| |done]. right. exists e, m, key. split; [done|].
    by apply (BTree.get_in bytes_cmp).
  - intros w _. eapply sure_weaken; [apply twice|done].
Qed.

(** What [bound_value] returns is what the expression evaluates to. *)
Lemma bound_value_ok b e : params = BoundParameters b -> fits e -> exists o, bound_value b e = Some o /\
  forall v, o = Some v -> exists q, v = property_from q /\ sure (eval e row group) (fun w => w = parameter_value nan q).
Proof.
  intros Hb. pose proof (proj2 Hparams) as Hvals. rewrite Hb in Hvals.
  assert (forall q key v x, entry (property_from q) key = Some v -> sure (eval x row group) (fun w => w = parameter_value nan q) ->
    exists q', v = property_from q' /\ sure (eval (EProperty x key) row group) (fun w => w = parameter_value nan q') /\
      sure (eval (EIndex x (ELiteral (Str key))) row group) (fun w => w = parameter_value nan q')) as Hentry.
  { intros q key v x Hv Hx. destruct q as [| | | | | | |m]; try done; cbn [property_from entry] in Hv.
    - injection Hv as <-. exists QNull. split; [done|]. split; cbn [QueryEval.eval]; (eapply sure_bind; [exact Hx|]); intros ? ->; [apply checks|].
      eapply sure_bind; [apply remains|]. intros _ _. eapply sure_bind; [apply twice|]. intros ? ->. apply checks.
    - rewrite get_map_values in Hv. injection Hv as <-. exists (default QNull (BTree.get bytes_cmp key m)).
      assert (parameter_value nan (default QNull (BTree.get bytes_cmp key m)) =
        default Null (BTree.get bytes_cmp key (map (fun e => (e.1, parameter_value nan e.2)) m))) as ->
        by (rewrite get_map_values; by destruct (BTree.get bytes_cmp key m)).
      split; [by destruct (BTree.get bytes_cmp key m)|].
      split; cbn [QueryEval.eval]; (eapply sure_bind; [exact Hx|]); intros ? ->; cbn [parameter_value]; [apply checks|].
      eapply sure_bind; [apply remains|]. intros _ _. eapply sure_bind; [apply twice|]. intros ? ->. apply checks. }
  induction e as [e IH] using expression_ind'. intros He. pose proof (fits_self e He) as Hself.
  destruct e as [v|s|name|x key|x y|x start end_|op x|op x y|op xs|f xs|f arg distinct|xs|xs|bs x|x bs y|s label];
    cbn [bound_value children pushed] in *; try (by exists None).
  - destruct Hself as [Hn Hp]. rewrite bool_decide_false by done. eexists. split; [done|]. rewrite (proj1 (Hvals name)).
    destruct (BTree.get bytes_cmp name input) as [q|] eqn:Eq; [|done]. intros v [= <-]. exists q. split; [done|]. by apply eval_parameter.
  - apply Forall_inv in IH. destruct (IH (fits_child (EProperty x key) x ltac:(by left) He)) as (o & -> & Ho). cbn [mbind option_bind].
    eexists. split; [done|]. intros v Hv. destruct o as [w|]; [|done]. destruct (Ho w eq_refl) as (q & -> & Hq). cbn [mbind option_bind] in Hv.
    destruct (Hentry q key v x Hv Hq) as (q' & -> & Hq' & _). by exists q'.
  - apply Forall_inv in IH. destruct (IH (fits_child (EIndex x y) x ltac:(by left) He)) as (o & -> & Ho). cbn [mbind option_bind].
    eexists. split; [done|]. intros v Hv. destruct o as [w|]; [|done]. destruct (Ho w eq_refl) as (q & -> & Hq). cbn [mbind option_bind] in Hv.
    destruct y as [[| |index| |key| | | |]| | | | | | | | | | | | | | |]; try done.
    + destruct (is_anull (property_from q)) eqn:En; [|done]. injection Hv as <-. destruct q; try done. exists QNull. split; [done|].
      cbn [QueryEval.eval]. eapply sure_bind; [exact Hq|]. intros ? ->. eapply sure_bind; [apply remains|]. intros _ _.
      eapply sure_bind; [apply twice|]. intros ? ->. apply checks.
    + destruct q as [| | | | | |l|]; try done; cbn [property_from elements] in Hv.
      * injection Hv as <-. exists QNull. split; [done|]. cbn [QueryEval.eval]. eapply sure_bind; [exact Hq|]. intros ? ->.
        eapply sure_bind; [apply remains|]. intros _ _. eapply sure_bind; [apply twice|]. intros ? ->. apply checks.
      * injection Hv as <-. destruct (element_agrees nan index l) as (q & -> & Hl). exists q. split; [done|].
        cbn [QueryEval.eval]. eapply sure_bind; [exact Hq|]. intros ? ->. eapply sure_bind; [apply remains|]. intros _ _.
        eapply sure_bind; [apply twice|]. intros ? ->. cbn [parameter_value]. rewrite Hl. cbn [or_panic].
        eapply (sure_bind _ _ _ (fun w => w = parameter_value nan q)); [by apply sure_ret|]. intros ? ->. apply checks.
    + destruct (Hentry q key v x Hv Hq) as (q' & -> & _ & Hq'). by exists q'.
Qed.

(** ** Slots and bound values *)

Definition truth_value (v : Value) : Prop := v = Null \/ exists b, v = Boolean b.

Lemma truth_truth_value t : truth_value (truth t).
Proof. destruct t as [[]|]; [right; by eexists..|by left]. Qed.

Lemma slot_is_ok s (types : list ValueType) : QueryPlanSpec.in_catalog bindings s -> TAny ∉ types -> exists t, slot_is bindings s types = Some t /\
  (t = true -> exists v, row !! Z.to_nat s = Some v /\ (v = Null \/ literal_type v ∈ types)).
Proof.
  intros Hs Hany. destruct (QueryPlanSpec.catalog_binding _ _ Hs) as [b Hb]. unfold slot_is. rewrite Hb. cbn [mbind option_bind].
  eexists. split; [done|]. intros Ht%bool_decide_eq_true. destruct (rm_typed Hrow _ _ Hb) as (v & Hv & [E|[->|E]]).
  - by rewrite E in Ht.
  - exists Null. auto.
  - exists v. rewrite E. auto.
Qed.

(** A slot of the pattern, or of one of the types. *)
Lemma pattern_slot_ok s (pat : bool) (types : list ValueType) : QueryPlanSpec.in_catalog bindings s -> TAny ∉ types ->
  (pat = true -> exists v, row !! Z.to_nat s = Some v /\ (v = Null \/ literal_type v ∈ types)) ->
  exists t, (if pat then Some true else slot_is bindings s types) = Some t /\
  (t = true -> exists v, row !! Z.to_nat s = Some v /\ (v = Null \/ literal_type v ∈ types)).
Proof. intros Hs Hany Hpat. destruct pat; [exists true; auto|]. by apply slot_is_ok. Qed.

Lemma entity_slot s (types : list ValueType) : TNode ∈ types -> TRelationship ∈ types -> is_node pattern s || is_relationship pattern s = true ->
  exists v, row !! Z.to_nat s = Some v /\ (v = Null \/ literal_type v ∈ types).
Proof.
  intros H1 H2 [E|E]%orb_prop.
  - destruct (rm_node Hrow s E) as (v & Hv & [->|[id ->]]); eauto.
  - destruct (rm_relationship Hrow s E) as (v & Hv & [->|[id ->]]); eauto.
Qed.

Lemma bound_is_ok test e : fits e -> exists t, bound_is params test e = Some t /\
  (t = true -> exists q, test (property_from q) = true /\ sure (eval e row group) (fun w => w = parameter_value nan q)).
Proof.
  intros He. unfold bound_is. destruct params as [b|] eqn:E; [|by exists false].
  destruct (bound_value_ok b e E He) as (o & -> & Ho). cbn [mbind option_bind]. eexists. split; [done|].
  destruct o as [v|]; [|done]. intros Ht. destruct (Ho v eq_refl) as (q & -> & Hq). by exists q.
Qed.

Lemma all_of_ok {A} (f : A -> option bool) (P : A -> Prop) l :
  Forall (fun x => exists t, f x = Some t /\ (t = true -> P x)) l ->
  exists t, all_of f l = Some t /\ (t = true -> Forall P l).
Proof.
  induction 1 as [|x l (t & Ht & HP) Hl IH]; [by exists true|]. destruct IH as (u & Hu & HPs).
  cbn [all_of]. rewrite Ht. cbn [mbind option_bind]. destruct t; [|by exists false]. exists u. split; [done|].
  intros Hut. constructor; auto.
Qed.

(** ** Operands *)

Lemma argument_sure m (P : Value -> Prop) : sure m P -> sure (arguments [m]) (fun vs => exists v, vs = [v] /\ P v).
Proof.
  intros Hm. unfold arguments. eapply sure_bind; [apply remains|]. intros _ _. cbn [for_each].
  eapply (sure_bind _ _ _ (fun vs => exists v, vs = [v] /\ P v)); [|intros vs Hvs; by apply sure_ret].
  eapply sure_bind; [apply remains|]. intros _ _. eapply sure_bind; [exact Hm|]. intros v Hv.
  eapply sure_bind; [apply remains|]. intros _ _. apply sure_ret. by exists v.
Qed.

Lemma eval_id s : QueryPlanSpec.in_catalog bindings s ->
  (exists v, row !! Z.to_nat s = Some v /\ (v = Null \/ literal_type v ∈ [TNode; TRelationship; TNull])) ->
  sure (eval (EFunction FId [ESlot s]) row group) (fun _ => True).
Proof.
  intros Hs (v & Hv & Hk). cbn [QueryEval.eval map]. eapply sure_bind; [by apply argument_sure, eval_slot|].
  intros vs (w & -> & ->). eapply sure_bind; [apply remains|]. intros _ _.
  eapply (sure_bind _ _ _ (fun _ => True)); [|intros r _; eapply sure_weaken; [apply checks|done]].
  unfold function. rewrite bool_decide_false by done.
  destruct v as [| | | | | | |[id|id]|p]; cbn [is_null literal_type] in *;
    try (destruct Hk as [Hk|Hk]; [done|]; exfalso; set_solver).
  - by apply sure_ret.
  - pose proof (rm_ids Hrow _ id (or_introl Hv)) as Hid. rewrite (proj2 (Z.ltb_lt _ _) Hid). by apply sure_ret.
  - pose proof (rm_ids Hrow _ id (or_intror Hv)) as Hid. rewrite (proj2 (Z.ltb_lt _ _) Hid). by apply sure_ret.
Qed.

Lemma property_slot s key : QueryPlanSpec.in_catalog bindings s -> exists t, has_properties pattern bindings s = Some t /\
  (t = true -> sure (eval (EProperty (ESlot s) key) row group) (fun _ => True)).
Proof.
  intros Hs. destruct (pattern_slot_ok s (is_node pattern s || is_relationship pattern s) [TNode; TRelationship; TMap; TNull] Hs)
    as (t & Ht & H1); [set_solver|apply entity_slot; set_solver|].
  unfold has_properties. exists t. split; [done|]. intros Htrue. destruct (H1 Htrue) as (v & Hv & Hk).
  eapply eval_property; [by apply eval_slot|]. intros ? ->.
  destruct v as [| | | | | | |[id|id]|p]; try done; destruct Hk as [Hk|Hk]; try done; exfalso; cbn [literal_type] in Hk; set_solver.
Qed.

Notation operand_spec e := (exists t, operand pattern bindings params e = Some t /\
  (t = true -> sure (eval e row group) (fun _ => True))).

Lemma bound_operand e : fits e -> exists t, bound_is params (fun _ => true) e = Some t /\
  (t = true -> sure (eval e row group) (fun _ => True)).
Proof.
  intros He. destruct (bound_is_ok (fun _ => true) e He) as (t & Ht & H1). exists t. split; [done|].
  intros Htrue. destruct (H1 Htrue) as (q & _ & Hq). by eapply sure_weaken.
Qed.

Lemma parameter_operand name : fits (EParameter name) -> operand_spec (EParameter name).
Proof.
  intros He. destruct (fits_self _ He) as [Hn Hp]. cbn [operand].
  assert (sure (eval (EParameter name) row group) (fun _ => True)) as Hsure.
  { destruct (BTree.get bytes_cmp name input) as [q|] eqn:Eq; [|done]. eapply sure_weaken; [by apply eval_parameter|done]. }
  destruct params; [rewrite bool_decide_false by done|]; eexists; (split; [done|]); auto.
Qed.

Lemma sure_collection n : sure (collection max n) (fun _ => True).
Proof. unfold collection. case_match; [by apply sure_fail, tolerated_limit|by apply sure_ret]. Qed.

Lemma eval_list xs : Forall (fun x => sure (eval x row group) (fun _ => True)) xs ->
  sure (eval (EList xs) row group) (fun v => exists l, v = List l).
Proof.
  intros Hxs. cbn [QueryEval.eval]. eapply sure_bind; [apply sure_collection|]. intros _ _.
  eapply sure_bind; [apply sure_arguments; [apply tolerated_limit|by apply Forall_map]|]. intros vs _.
  eapply sure_weaken; [apply checks|]. intros w ->. by exists vs.
Qed.

Lemma eval_map (xs : list (bytes * Expression)) : Forall (fun x => sure (eval x.2 row group) (fun _ => True)) xs ->
  sure (eval (EMap xs) row group) (fun _ => True).
Proof.
  intros Hxs. cbn [QueryEval.eval]. eapply sure_bind; [apply remains|]. intros _ _.
  eapply (sure_bind _ _ _ (fun _ => True)); [|intros m _; eapply sure_weaken; [apply checks|done]].
  apply sure_for_each; [done|]. intros x vs Hx _. apply list_elem_of_fmap in Hx as (y & -> & Hy). cbn [fst snd].
  eapply sure_bind; [apply remains|]. intros _ _. rewrite Forall_forall in Hxs.
  eapply sure_bind; [by apply Hxs|]. intros v _. eapply sure_bind; [apply remains|]. intros _ _. by apply sure_ret.
Qed.

(** An operand the planner calls total evaluates. *)
Lemma operand_ok e : fits e -> operand_spec e.
Proof.
  induction e as [e IH] using expression_ind'. intros He. pose proof (fits_self e He) as Hself.
  assert (Forall (fun c => operand_spec c) (children e)) as Hc.
  { rewrite Forall_forall in IH. apply Forall_forall. intros c Hin. apply IH; [done|]. by eapply fits_child. }
  clear IH. destruct e as [v|s|name|x key|x y|x start end_|op x|op x y|op xs|f xs|f arg distinct|xs|xs|bs x|x bs y|s label];
    cbn [operand children pushed] in *; try (by exists false).
  - exists true. split; [done|]. intros _. cbn [QueryEval.eval]. eapply sure_weaken; [apply twice|done].
  - exists true. split; [done|]. intros _. destruct (QueryPlanSpec.catalog_binding _ _ Hself) as [b Hb].
    destruct (rm_typed Hrow _ _ Hb) as (v & Hv & _). eapply sure_weaken; [by apply eval_slot|done].
  - by apply parameter_operand.
  - destruct (bound_operand _ He) as (t & Ht & H1). rewrite Ht.
    destruct x as [|s| | | | | | | | | | | | | |]; cbn [or_else mbind option_bind]; try (by exists t).
    destruct (property_slot s key) as (u & -> & H2).
    { apply (fits_self (ESlot s)), (fits_child (EProperty (ESlot s) key)); [by left|done]. }
    destruct u; cbn [mbind option_bind]; [exists true|exists t]; auto.
  - by apply bound_operand.
  - destruct f; try (by exists false). destruct xs as [|[|s| | | | | | | | | | | | | |] [|]]; try (by exists false).
    assert (QueryPlanSpec.in_catalog bindings s) as Hs.
    { apply (fits_self (ESlot s)), (fits_child (EFunction FId [ESlot s])); [by left|done]. }
    destruct (pattern_slot_ok s (is_node pattern s || is_relationship pattern s) [TNode; TRelationship; TNull] Hs)
      as (t & Ht & H1); [set_solver|apply entity_slot; set_solver|]. exists t. split; [done|]. intros Htrue. by apply eval_id, H1.
  - destruct (all_of_ok _ (fun c => sure (eval c row group) (fun _ => True)) _ Hc) as (t & -> & H1).
    exists t. split; [done|]. intros Htrue. eapply sure_weaken; [by apply eval_list, H1|done].
  - rewrite Forall_map in Hc. destruct (all_of_ok (fun x => operand pattern bindings params x.2) (fun c => sure (eval c.2 row group) (fun _ => True)) _ Hc)
      as (t & -> & H1). exists t. split; [done|]. intros Htrue. by apply eval_map, H1.
Qed.

(** ** Predicates *)

Definition is_comparison (op : Binary) : bool :=
  match op with Equal | NotEqual | Less | LessEqual | Greater | GreaterEqual | StartsWith | EndsWith | Contains => true | _ => false end.

Lemma comparison_total op a b : is_comparison op = true -> exists v, binary nan powf op a b = Ok v /\ truth_value v.
Proof.
  intros Hop. destruct op; try done; unfold binary; try (eexists; split; [done|apply truth_truth_value]);
    (destruct (is_null a || is_null b); [exists Null; split; [done|by left]|]); cbn [compare_op string_op];
    try (destruct (is_number a && is_number b && _);
      [eexists; split; [done|]; right; by eexists|eexists; split; [done|apply truth_truth_value]]);
    (destruct a, b; eexists; (split; [done|]); first [by left|right; by eexists]).
Qed.

Lemma eval_comparison op x y (P : Value -> Prop) : op <> Add -> sure (eval x row group) (fun _ => True) -> sure (eval y row group) P ->
  (forall a b, P b -> exists v, binary nan powf op a b = Ok v /\ truth_value v) ->
  sure (eval (EBinary op x y) row group) truth_value.
Proof.
  intros Hop Hx Hy Hbin. cbn [QueryEval.eval]. eapply sure_bind; [exact Hx|]. intros a _. eapply sure_bind; [apply remains|]. intros _ _.
  eapply sure_bind; [exact Hy|]. intros b Hb. eapply sure_bind; [apply remains|]. intros _ _.
  rewrite bool_decide_false by done. destruct (Hbin a b Hb) as (v & -> & Hv).
  eapply (sure_bind _ _ _ (fun w => w = v)); [by apply sure_lift|]. intros ? ->. eapply sure_weaken; [apply checks|]. by intros ? ->.
Qed.

Lemma truth_of_value v : truth_value v -> exists t, truth_of v = Ok t.
Proof. intros [->|[b ->]]; by eexists. Qed.

Lemma sure_loop op r ms : truth_value r -> Forall (fun m => sure m truth_value) ms -> sure (connective_loop op r ms) truth_value.
Proof.
  intros Hr Hms. revert r Hr. induction Hms as [|m ms Hm Hms IH]; intros r Hr; [by apply sure_ret|]. cbn [connective_loop].
  destruct (truth_of_value r Hr) as [t Ht].
  eapply (sure_bind _ _ _ (fun _ => True)).
  { unfold decided. rewrite Ht. destruct op; [..|by apply sure_ret]; (eapply (sure_bind _ _ _ (fun _ => True)); [by apply sure_lift|]);
      intros; by apply sure_ret. }
  intros [] _; [by apply sure_ret|]. eapply sure_bind; [apply remains|]. intros _ _. eapply sure_bind; [exact Hm|]. intros v Hv.
  destruct (truth_of_value v Hv) as [u Hu]. eapply sure_bind; [apply remains|]. intros _ _. rewrite Ht, Hu.
  eapply (sure_bind _ _ _ (fun _ => True)); [by apply sure_lift|]. intros a _.
  eapply (sure_bind _ _ _ (fun _ => True)); [by apply sure_lift|]. intros b _. apply IH, truth_truth_value.
Qed.

Lemma eval_connection op xs : xs <> [] -> Forall (fun x => sure (eval x row group) truth_value) xs ->
  sure (eval (EConnective op xs) row group) truth_value.
Proof.
  intros Hne Hxs. cbn [QueryEval.eval]. destruct Hxs as [|x xs Hx Hxs]; [done|]. cbn [map connective].
  eapply (sure_bind _ _ _ truth_value).
  - eapply sure_bind; [exact Hx|]. intros r Hr. apply sure_loop; [done|]. by apply Forall_map.
  - intros v Hv. eapply sure_weaken; [apply checks|]. by intros ? ->.
Qed.

Lemma eval_unary op x (P : Value -> Prop) : sure (eval x row group) P ->
  (forall a, P a -> exists v, unary op a = Ok v /\ truth_value v) -> sure (eval (EUnary op x) row group) truth_value.
Proof.
  intros Hx Hop. cbn [QueryEval.eval]. eapply sure_bind; [exact Hx|]. intros a Ha. destruct (Hop a Ha) as (v & -> & Hv).
  eapply (sure_bind _ _ _ (fun w => w = v)); [by apply sure_lift|]. intros ? ->. eapply sure_weaken; [apply checks|]. by intros ? ->.
Qed.

Lemma eval_label s label v : row !! Z.to_nat s = Some v -> v = Null \/ literal_type v = TNode ->
  sure (eval (EHasLabel s label) row group) truth_value.
Proof.
  intros Hv Hk. cbn [QueryEval.eval]. rewrite Hv. destruct v as [| | | | | | |[id|id]|p]; try (by destruct Hk).
  - eapply sure_weaken; [apply checks|]. intros ? ->. by left.
  - destruct (rm_label Hrow (Node id)) as [l ->]. eapply (sure_bind _ _ _ (fun _ => True)); [by apply sure_lift|].
    intros found _. eapply sure_weaken; [apply checks|]. intros ? ->. right. by eexists.
Qed.

Definition null_or_list (v : Value) : Prop := v = Null \/ exists l, v = List l.

Lemma list_operand_ok e : fits e -> exists t, list_operand pattern bindings params e = Some t /\
  (t = true -> sure (eval e row group) null_or_list).
Proof.
  intros He. pose proof (fits_self e He) as Hself. set (test v := match v with AArray _ | ANull => true | _ => false end).
  assert (exists t, bound_is params test e = Some t /\ (t = true -> sure (eval e row group) null_or_list)) as Hbound.
  { destruct (bound_is_ok test e He) as (t & Ht & H1). exists t. split; [done|]. intros Htrue. destruct (H1 Htrue) as (q & Hq & Hs).
    eapply sure_weaken; [exact Hs|]. intros ? ->. destruct q; try done; [by left|right; by eexists]. }
  destruct e as [v|s|name|x key|x y|x start end_|op x|op x y|op xs|f xs|f arg distinct|xs|xs|bs x|x bs y|s label];
    cbn [list_operand]; try (by exists false); try done.
  - assert (null_or_list v -> exists t, Some true = Some t /\ (t = true -> sure (eval (ELiteral v) row group) null_or_list)) as Hlit.
    { intros Hv. exists true. split; [done|]. intros _. cbn [QueryEval.eval]. eapply sure_weaken; [apply twice|]. by intros ? ->. }
    destruct v; try (by exists false); apply Hlit; [by left|right; by eexists].
  - destruct (slot_is_ok s [TList; TNull] Hself) as (t & Ht & H1); [set_solver|]. exists t. split; [done|].
    intros Htrue. destruct (H1 Htrue) as (v & Hv & Hk). eapply sure_weaken; [by apply eval_slot|]. intros ? ->.
    destruct Hk as [Hk|Hk]; [by left|]. destruct v as [| | | | | | |[id|id]|p]; cbn [literal_type] in Hk; try (exfalso; set_solver).
    + by left.
    + right. by eexists.
  - match goal with |- exists t, all_of ?f xs = _ /\ _ =>
      destruct (all_of_ok f (fun c => sure (eval c row group) (fun _ => True)) xs) as (t & -> & H1) end.
    + apply Forall_forall. intros x Hx. pose proof (fits_child (EList xs) x Hx He) as Hfx.
      pose proof (operand_ok x Hfx) as Ho. pose proof (bound_operand x Hfx) as Hb. by destruct x.
    + exists t. split; [done|]. intros Htrue. eapply sure_weaken; [by apply eval_list, H1|]. intros v [l ->]. right. by eexists.
Qed.

Notation predicate_spec e := (exists t, predicate pattern bindings params e = Some t /\
  (t = true -> sure (eval e row group) truth_value)).

Lemma and_then_ok a b (P Q : Prop) : (exists t, a = Some t /\ (t = true -> P)) -> (exists t, b = Some t /\ (t = true -> Q)) ->
  exists t, and_then a b = Some t /\ (t = true -> P /\ Q).
Proof.
  intros (t & -> & HP) (u & -> & HQ). cbn [and_then mbind option_bind]. destruct t; [exists u|exists false]; split; auto; done.
Qed.

Lemma bound_predicate e : fits e -> exists t,
  bound_is params (fun value => match value with ABool _ | ANull => true | _ => false end) e = Some t /\
  (t = true -> sure (eval e row group) truth_value).
Proof.
  intros He. edestruct (bound_is_ok (fun value => match value with ABool _ | ANull => true | _ => false end) e He) as (t & Ht & H1).
  exists t. split; [done|]. intros Htrue. destruct (H1 Htrue) as (q & Hq & Hs).
  eapply sure_weaken; [exact Hs|]. intros ? ->. destruct q; try done; [by left|right; by eexists].
Qed.

Lemma predicate_ok e : fits e -> predicate_spec e.
Proof.
  induction e as [e IH] using expression_ind'. intros He. pose proof (fits_self e He) as Hself.
  assert (forall c, c ∈ children e -> fits c) as Hfit by (intros c Hc; by eapply fits_child).
  assert (Forall (fun c => predicate_spec c) (children e)) as Hc.
  { rewrite Forall_forall in IH. apply Forall_forall. intros c Hin. auto. }
  clear IH. destruct e as [v|s|name|x key|x y|x start end_|op x|op x y|op xs|f xs|f arg distinct|xs|xs|bs x|x bs y|s label];
    cbn [predicate children pushed] in *; try (by exists false); try (by apply bound_predicate).
  - destruct v; try (by exists false); exists true; (split; [done|]); intros _; cbn [QueryEval.eval];
      (eapply sure_weaken; [apply twice|]); intros ? ->; [by left|right; by eexists].
  - destruct (slot_is_ok s [TBoolean; TNull] Hself) as (t & Ht & H1); [set_solver|]. exists t. split; [done|].
    intros Htrue. destruct (H1 Htrue) as (v & Hv & Hk). eapply sure_weaken; [by apply eval_slot|]. intros ? ->.
    destruct Hk as [Hk|Hk]; [by left|]. destruct v as [| | | | | | |[id|id]|p]; cbn [literal_type] in Hk; try (exfalso; set_solver).
    + by left.
    + right. by eexists.
  - apply Forall_inv in Hc as (t & Ht & H1). destruct (operand_ok x (Hfit x ltac:(by left))) as (u & Hu & H2).
    destruct op; try (by exists false).
    + exists t. split; [done|]. intros Htrue. eapply eval_unary; [by apply H1|]. intros a (r & Hr)%truth_of_value.
      cbn [unary]. rewrite Hr. cbn [result_bind]. eexists. split; [done|]. apply truth_truth_value.
    + exists u. split; [done|]. intros Htrue. eapply eval_unary; [by apply H2|]. intros a _. eexists. split; [done|]. right. by eexists.
    + exists u. split; [done|]. intros Htrue. eapply eval_unary; [by apply H2|]. intros a _. eexists. split; [done|]. right. by eexists.
  - pose proof (operand_ok x (Hfit x ltac:(by left))) as Hx. pose proof (operand_ok y (Hfit y ltac:(by right; left))) as Hy.
    pose proof (list_operand_ok y (Hfit y ltac:(by right; left))) as Hl.
    destruct (and_then_ok _ _ _ _ Hx Hy) as (t & Ht & H1). destruct (and_then_ok _ _ _ _ Hx Hl) as (u & Hu & H2).
    assert (is_comparison op = true -> exists t, and_then (operand pattern bindings params x) (operand pattern bindings params y) = Some t /\
      (t = true -> sure (eval (EBinary op x y) row group) truth_value)) as Hcmp.
    { intros Hop. exists t. split; [done|]. intros Htrue. destruct (H1 Htrue). eapply eval_comparison; [by destruct op|done..|].
      intros a b _. by apply comparison_total. }
    destruct op; try (by exists false); try (by apply Hcmp).
    exists u. split; [done|]. intros Htrue. destruct (H2 Htrue). eapply eval_comparison; [done..|].
    intros a b [->|[l ->]]; (eexists; split; [done|]); [by left|].
    destruct (in_list_kind a l false) as [->|Hk]; [by left|]. destruct (in_list a l false) as [| | | | | | |[]|]; try done. right. by eexists.
  - destruct (all_of_ok _ (fun c => sure (eval c row group) truth_value) _ Hc) as (t & -> & H1).
    exists t. split; [done|]. intros Htrue. apply eval_connection; [exact Hself|by apply H1].
  - destruct (pattern_slot_ok s (is_node pattern s) [TNode; TNull] Hself) as (t & Ht & H1); [set_solver| |].
    { intros E. destruct (rm_node Hrow s E) as (v & Hv & [->|[id ->]]); eexists; (split; [done|]); [by left|right; set_solver]. }
    exists t. split; [done|]. intros Htrue. destruct (H1 Htrue) as (v & Hv & Hk). eapply eval_label; [done|].
    destruct Hk as [Hk|Hk]; [by left|]. destruct v as [| | | | | | |[id|id]|p]; cbn [literal_type] in Hk; try (exfalso; set_solver); auto.
Qed.

End Sound.

(** The parameters [prepare] hands to the planner. *)
Definition planner_parameters (prepared : Prepared) : Parameters :=
  BoundParameters {| values := prepared_values prepared; query_values := prepared_query_values prepared |}.

Lemma prepared_agree nan input prepared params : BTree.sorted_map bytes_cmp input -> prepare nan input true = Some (Ok prepared) ->
  params = Validated \/ params = planner_parameters prepared -> parameters_agree nan input (run_values prepared) params.
Proof.
  intros Hs Hp Hparams. destruct (prepare_correct nan input true Hs) as (r & E & _ & H). rewrite Hp in E. injection E as <-.
  specialize (H prepared eq_refl). split; [intros name; apply H|]. destruct Hparams as [->| ->]; [done|]. intros name. by split; apply H.
Qed.

(** [C36] Total predicates are total: on the rows a MATCH tests, over the catalog
    and with every parameter present, [Totality::predicate] never panics, and a
    predicate it accepts, whether the parameters are bound or only validated,
    evaluates to a boolean or null under every admission outcome, unless a resource
    limit is hit or a stored value that the language cannot represent is read. *)
Theorem total_predicate_sound `{TextLibrary} nan powf graph max input prepared pattern bindings params row group e :
  BTree.sorted_map bytes_cmp input -> prepare nan input true = Some (Ok prepared) ->
  params = Validated \/ params = planner_parameters prepared ->
  row_matches graph pattern bindings row -> fits input bindings e ->
  exists total, predicate pattern bindings params e = Some total /\
    (total = true -> forall admissions, exists r rest,
      eval nan powf graph (run_values prepared) max e row group admissions = Some (r, rest) /\
      match r with Ok v => truth_value v | Err err => tolerated graph err end).
Proof.
  intros Hs Hp Hparams Hrow He.
  exact (predicate_ok nan powf graph max input (run_values prepared) pattern bindings params row group
    (prepared_agree _ _ _ _ Hs Hp Hparams) Hrow e He).
Qed.

(** ** A sample: [slot0.name IN $list AND slot0:L] *)

Definition total_graph : GraphValues := {| graph_properties _ := Ok [([110], Ok (Integer 3))]; graph_label _ := Ok (Some [76]) |}.
Definition total_pattern : Pattern := {|
  pattern_nodes := [{| node_slot := 0; node_label := None; node_properties := [] |}]; pattern_relationships := []; pattern_paths := [] |}.
Definition total_bindings : list Binding := [{| name := [118]; kind := BNode; nullable := false; value_type := TNode |}].
Definition total_input : list (bytes * QueryParameters.QueryValue) := [([97], QArray [QI64 3])].
Definition total_sample : Expression :=
  EConnective And [EBinary In (EProperty (ESlot 0) [110]) (EParameter [97]); EHasLabel 0 [76]].

Lemma total_row : row_matches total_graph total_pattern total_bindings [EntityValue (Node 5)].
Proof.
  assert (forall s v, [EntityValue (Node 5)] !! s = Some v -> v = EntityValue (Node 5)) as Hv.
  { intros [|s] v E; [by injection E|by destruct s]. }
  constructor.
  - intros [|s] b E; [injection E as <-|by destruct s]. exists (EntityValue (Node 5)). split; [done|]. by right; right.
  - intros s [<-%Z.eqb_eq|]%orb_prop; [|done]. eexists. split; [done|]. right. by eexists.
  - done.
  - intros s id [E|E]; apply Hv in E; [injection E as ->; lia|done].
  - by eexists.
  - by eexists.
Qed.

Lemma total_predicate_sound_witness : exists prepared, prepare 0 total_input true = Some (Ok prepared) /\
  predicate total_pattern total_bindings Validated total_sample = Some false /\
  predicate total_pattern total_bindings (planner_parameters prepared) total_sample = Some true /\
  forall admissions, exists r rest,
    eval 0 (fun x _ => x) total_graph (run_values prepared) 10 total_sample [EntityValue (Node 5)] None admissions = Some (r, rest) /\
    match r with Ok v => truth_value v | Err err => tolerated total_graph err end.
Proof.
  eexists. split; [vm_compute; reflexivity|]. split; [vm_compute; reflexivity|]. split; [vm_compute; reflexivity|].
  destruct (total_predicate_sound 0 (fun x _ => x) total_graph 10 total_input _ total_pattern total_bindings _
    [EntityValue (Node 5)] None total_sample ltac:(repeat constructor) ltac:(vm_compute; reflexivity) (or_intror eq_refl) total_row)
    as (total & E & H).
  - repeat (constructor; [first [exact I|discriminate|split; [lia|reflexivity]|split; discriminate]|]). constructor.
  - vm_compute in E. injection E as <-. exact (H eq_refl).
Defined.

End QueryTotalitySpec.
