(* ===== verification/RowMonad.v ===== *)
(** The effects of the row operators (crates/db/src/execution/interpreter/rows):
    the query and storage errors of [cypher::Error], and the environment.

    Admission into the request's memory budget reads the decisions of expression
    evaluation; every call that storage or the deadline can fail reads a decision
    of its own, [Some e] being the failure [e]. An exhausted list grants
    everything, and [None] is a panic. [refines] relates an operator to the pure
    function it computes, under every environment at once. *)
From S2P Require Import Prelude Bytes QueryValue QueryMonad.

Open Scope Z_scope.

Module RowMonad.
Export QueryMonad.

(** [cypher::Error]; the JSON errors are those of encoding a response. *)
Inductive Failure (StorageError : Type) :=
| QueryFailed (e : QueryError)
| StorageFailed (e : StorageError).
Arguments QueryFailed {StorageError} e.
Arguments StorageFailed {StorageError} e.

Section Monad.
Context {StorageError : Type}.

Record Env := { admissions : Admissions; storage : list (option StorageError) }.

Definition R (A : Type) : Type := Env -> option (result (Failure StorageError) A * Env).

Definition give {A} (a : A) : R A := fun env => Some (Ok a, env).
Definition abort {A} (e : Failure StorageError) : R A := fun env => Some (Err e, env).
Definition crash {A} : R A := fun _ => None.
Definition unwrap {A} (o : option A) : R A := match o with Some a => give a | None => crash end.

Definition andthen {A B} (m : R A) (k : A -> R B) : R B := fun env =>
  match m env with
  | None => None
  | Some (Err e, env) => Some (Err e, env)
  | Some (Ok a, env) => k a env
  end.

(** Evaluation inside an operator; [?] converts its error. *)
Definition query {A} (m : M A) : R A := fun env =>
  match m (admissions env) with
  | None => None
  | Some (Ok a, adm) => Some (Ok a, {| admissions := adm; storage := storage env |})
  | Some (Err e, adm) => Some (Err (QueryFailed e), {| admissions := adm; storage := storage env |})
  end.

(** A call that storage, or the deadline, can fail. *)
Definition attempt : R unit := fun env =>
  match storage env with
  | Some e :: rest => Some (Err (StorageFailed e), {| admissions := admissions env; storage := rest |})
  | None :: rest => Some (Ok tt, {| admissions := admissions env; storage := rest |})
  | [] => Some (Ok tt, env)
  end.

(** [for x in l], threading [s]. *)
Fixpoint each {A S} (l : list A) (s : S) (body : A -> S -> R S) : R S :=
  match l with
  | [] => give s
  | x :: l => andthen (body x s) (fun s => each l s body)
  end.
End Monad.
Arguments Env StorageError : clear implicits.
Arguments R StorageError A : clear implicits.

Notation "'let*' x <- m ; k" := (andthen m (fun x => k))
  (at level 80, x pattern, m at level 100, k at level 200, right associativity) : rust_scope.

(** [From<HelixDbError>] of a refused reservation. *)
Definition live_buffers : QueryError :=
  runtime_error "resource_limit" "memory_limit" "query live buffers exceed the memory budget".
(** [Budget::reserve] and [Reservation::resize]. *)
Definition reserve {StorageError} : R StorageError unit := query (allowed live_buffers).
(** [resource(detail::MEMORY_LIMIT, message)] when an allocation or a limit refuses. *)
Definition admitted {StorageError} (message : string) : R StorageError unit :=
  query (allowed (runtime_error "resource_limit" "memory_limit" message)).
Definition check_execution_deadline {StorageError} : R StorageError unit := attempt.
(** The deadline checked once [m] has ended, before its error is propagated. *)
Definition then_check {StorageError A} (m : R StorageError A) : R StorageError A := fun env =>
  match m env with
  | None => None
  | Some (r, env) =>
      match check_execution_deadline env with
      | None => None
      | Some (Err e, env) => Some (Err e, env)
      | Some (Ok _, env) => Some (r, env)
      end
  end.

(** ** What an operator computes *)

(** The loop of [each], over pure steps. *)
Fixpoint ofold {A S} (f : A -> S -> option S) (l : list A) (s : S) : option S :=
  match l with
  | [] => Some s
  | x :: l => s ← f x s; ofold f l s
  end.

Lemma ofold_app {A S} (f : A -> S -> option S) l l' s : ofold f (l ++ l') s = ofold f l s ≫= ofold f l'.
Proof. revert s. induction l as [|x l IH]; intros s; [done|]. simpl. destruct (f x s); simpl; auto. Qed.

(** Appending what each element gives is mapping. *)
Lemma ofold_snoc {A B} (f : A -> option B) l s :
  ofold (fun x s => y ← f x; Some (s ++ [y])) l s = (fun ys => s ++ ys) <$> mapM f l.
Proof.
  revert s. induction l as [|x l IH]; intros s; simpl; [by rewrite app_nil_r|]. destruct (f x) as [y|]; simpl; [|done].
  rewrite IH. destruct (mapM f l); simpl; [|done]. by rewrite <- app_assoc.
Qed.

(** What an evaluation gives when nothing is refused. *)
Definition value_of {A} (m : M A) : option A :=
  match m [] with
  | Some (Ok a, _) => Some a
  | _ => None
  end.

Lemma value_of_bind {A B} (m : M A) (k : A -> M B) Q : meets m Q -> value_of (bind m k) = value_of m ≫= fun a => value_of (k a).
Proof. intros (r & E & _). unfold value_of, bind. rewrite E. by destruct r. Qed.

Lemma value_of_meets {A} (m : M A) (Q : A -> Prop) a : meets m Q -> value_of m = Some a -> Q a.
Proof. intros (r & E & HQ & _). unfold value_of. rewrite E. destruct r; [|done]. intros [= <-]. by apply HQ. Qed.

(** An evaluation loop, over the values of its steps. *)
Lemma for_each_value {A S} (l : list A) (I : S -> Prop) (s : S) body :
  I s -> (forall x s, x ∈ l -> I s -> meets (body x s) I) -> value_of (for_each l s body) = ofold (fun x s => value_of (body x s)) l s.
Proof.
  revert s. induction l as [|x l IH]; intros s Hs H; [done|]. cbn [for_each ofold].
  rewrite (value_of_bind _ _ I) by (apply H; [by left|done]). destruct (value_of (body x s)) as [t|] eqn:E; [|done].
  apply IH; [|intros y u Hy; apply H; by right]. eapply value_of_meets; [apply (H x s ltac:(by left) Hs)|done].
Qed.

Section Refines.
Context {StorageError : Type}.
Notation R := (R StorageError).

Definition quiet : Env StorageError := {| admissions := []; storage := [] |}.

(** [m] never panics; in a quiet environment it succeeds exactly when [o] is a
    value, with a result that shows it; in any environment it fails or gives such
    a result. *)
Definition refines {A B} (P : A -> B -> Prop) (m : R A) (o : option B) : Prop :=
  (exists r, m quiet = Some (r, quiet) /\ match r, o with Ok a, Some b => P a b | Err _, None => True | _, _ => False end) /\
  forall env, exists r env', m env = Some (r, env') /\ forall a, r = Ok a -> exists b, o = Some b /\ P a b.
Definition computes {A} : R A -> option A -> Prop := refines eq.

Lemma refines_give {A B} (P : A -> B -> Prop) a b : P a b -> refines P (give a) (Some b).
Proof. intros H. split; [by exists (Ok a)|]. intros env. exists (Ok a), env. split; [done|]. intros ? [= <-]. eauto. Qed.

Lemma refines_unwrap {A B} (P : A -> B -> Prop) (o : option A) a b : o = Some a -> P a b -> refines P (unwrap o) (Some b).
Proof. intros ->. apply refines_give. Qed.

Lemma refines_andthen {A B A' B'} (P : A -> B -> Prop) (Q : A' -> B' -> Prop) (m : R A) (k : A -> R A') o f :
  refines P m o -> (forall a b, o = Some b -> P a b -> refines Q (k a) (f b)) -> refines Q (andthen m k) (o ≫= f).
Proof.
  intros [(r & E & Ho) Hm] Hk. split.
  - unfold andthen. rewrite E. destruct r as [a|e], o as [b|]; try done; [apply (Hk a b eq_refl Ho)|by exists (Err e)].
  - intros env. destruct (Hm env) as (r' & env' & E' & H'). unfold andthen. rewrite E'. destruct r' as [a|e].
    + destruct (H' a eq_refl) as (b & -> & Hab). apply (Hk a b eq_refl Hab).
    + exists (Err e), env'. split; [done|]. by intros ? [=].
Qed.

Lemma refines_weaken {A B} (P Q : A -> B -> Prop) (m : R A) o : refines P m o -> (forall a b, o = Some b -> P a b -> Q a b) -> refines Q m o.
Proof.
  intros [(r & E & Ho) Hm] H. split; [exists r; split; [done|]; destruct r, o; try done; by apply H|].
  intros env. destruct (Hm env) as (r' & env' & E' & H'). exists r', env'. split; [done|].
  intros a Ha. destruct (H' a Ha) as (b & -> & Hab). eauto.
Qed.

Lemma refines_query {A} (m : M A) Q : meets m Q -> refines (fun a b => a = b /\ Q a) (query m) (value_of m).
Proof.
  intros (r0 & E & HQ & Hadm). unfold value_of, query. split.
  - simpl. rewrite E. destruct r0 as [a|e]; [exists (Ok a); auto|by exists (Err (QueryFailed e))].
  - intros env. destruct (Hadm (admissions env)) as (r & adm & -> & Hr). rewrite E. destruct r as [a|e].
    + destruct Hr as [<-|(? & [=] & _)]. do 2 eexists. split; [done|]. intros ? [= <-]. eauto.
    + do 2 eexists. split; [done|]. by intros ? [=].
Qed.

Lemma computes_attempt : computes attempt (Some tt).
Proof.
  split; [by exists (Ok tt)|]. intros [adm [|[e|] st]]; do 2 eexists; (split; [done|]); intros [] ?; eauto; done.
Qed.

Lemma computes_allowed e : memory_error e -> computes (query (allowed e)) (Some tt).
Proof.
  intros He. eapply refines_weaken; [by apply (refines_query (allowed e) (fun _ => True)), meets_allowed|].
  by intros a b _ [-> _].
Qed.

Lemma computes_reserve : computes reserve (Some tt).
Proof. by apply computes_allowed. Qed.

Lemma computes_admitted message : computes (admitted message) (Some tt).
Proof. by apply computes_allowed. Qed.

Lemma refines_checked {A B} (P : A -> B -> Prop) (m : R A) o : refines P m o -> refines P (then_check m) o.
Proof.
  destruct computes_attempt as [_ Hc]. intros [(r & E & Ho) Hm]. split.
  - exists r. split; [|done]. unfold then_check. by rewrite E.
  - intros env. destruct (Hm env) as (r' & env' & E' & H'). unfold then_check, check_execution_deadline. rewrite E'.
    destruct (Hc env') as (c & env'' & -> & _). destruct c as [[]|e]; do 2 eexists; (split; [done|]); [done|by intros ? [=]].
Qed.

(** A step that only the environment can stop. *)
Lemma refines_then {A B} (P : A -> B -> Prop) (m : R unit) (k : R A) o :
  computes m (Some tt) -> refines P k o -> refines P (let* _ <- m; k) o.
Proof. intros Hm Hk. by apply (refines_andthen eq P m _ (Some tt) (fun _ => o)). Qed.

(** A step whose result only has to satisfy [P]. *)
Lemma refines_seq {A A' B'} (P : A -> Prop) (Q : A' -> B' -> Prop) (m : R A) (k : A -> R A') o :
  refines (fun a (_ : unit) => P a) m (Some tt) -> (forall a, P a -> refines Q (k a) o) -> refines Q (andthen m k) o.
Proof. intros Hm Hk. apply (refines_andthen (fun a (_ : unit) => P a) Q m k (Some tt) (fun _ => o)); [done|]. intros a [] _. apply Hk. Qed.

Lemma refines_give_seq {A A' B'} (Q : A' -> B' -> Prop) (a : A) (k : A -> R A') o : refines Q (k a) o -> refines Q (andthen (give a) k) o.
Proof. intros Hk. apply (refines_seq (eq a)); [by apply refines_give|]. by intros ? <-. Qed.

(** The simulation of a loop: related elements keep the states related. *)
Lemma refines_each {A A' S T} (P : S -> T -> Prop) (E : A -> A' -> Prop) l l' s t body f :
  Forall2 E l l' -> P s t -> (forall x y s t, x ∈ l -> y ∈ l' -> E x y -> P s t -> refines P (body x s) (f y t)) ->
  refines P (each l s body) (ofold f l' t).
Proof.
  intros Hl. revert s t. induction Hl as [|x y l l' Hxy Hl IH]; intros s t Hst H; [by apply refines_give|]. simpl.
  eapply refines_andthen; [apply H; [by left|by left|done|done]|]. intros s' t' _ Hst'. apply IH; [done|].
  intros x' y' ? ? Hx Hy. apply H; by right.
Qed.

Lemma refines_each_same {A S T} (P : S -> T -> Prop) (l : list A) s t body f :
  P s t -> (forall x s t, x ∈ l -> P s t -> refines P (body x s) (f x t)) -> refines P (each l s body) (ofold f l t).
Proof.
  intros Hst H. apply (refines_each P eq); [by induction l; constructor|done|]. intros x y s' t' Hx _ <-. by apply H.
Qed.

(** A step that always gives what shows [b]. *)
Lemma refines_shown {A B} (P : A -> Prop) (Q : A -> B -> Prop) (m : R A) b :
  refines (fun a (_ : unit) => P a) m (Some tt) -> (forall a, P a -> Q a b) -> refines Q m (Some b).
Proof.
  intros [(r & E & Ho) Hm] H. split; [exists r; split; [done|]; destruct r; [by apply H|done]|].
  intros env. destruct (Hm env) as (r' & env' & E' & H'). exists r', env'. split; [done|].
  intros a Ha. destruct (H' a Ha) as ([] & _ & HP). eauto.
Qed.

Lemma refines_ext {A B} (P : A -> B -> Prop) (m : R A) o o' : o = o' -> refines P m o -> refines P m o'.
Proof. by intros ->. Qed.
End Refines.
Arguments quiet {StorageError}.
#[global] Opaque refines andthen.

Create HintDb rows.
#[export] Hint Resolve computes_reserve computes_admitted computes_attempt : rows.

(** Passes the admissions and storage calls at the head of an operator. *)
Ltac granted := repeat (apply refines_then; [solve [auto with rows]|]).

End RowMonad.
