(* ===== verification/RowSort.v ===== *)
(** Ordered collections of the row operators: stable sorts one element at a time,
    their bounded prefixes, and the runs of a sorted list.

    [slice::sort_by] is [BTree.sort_by]. [slice::dedup_by] and [chunk_by] work on
    neighbours. A [BinaryHeap] whose elements are never equal, and a [BTreeSet],
    are the increasing lists of their elements. *)
From S2P Require Import Prelude BTree.

Module RowSort.

Section Sort.
Context {A : Type} (cmp : A -> A -> comparison).

(** [x] after the elements it does not precede. *)
Fixpoint place (x : A) (l : list A) : list A :=
  match l with
  | [] => [x]
  | y :: l' => match cmp x y with Lt => x :: l | _ => y :: place x l' end
  end.

(** [slice::dedup_by]: [same x previous] drops [x]. *)
Fixpoint dedup_from (same : A -> A -> bool) (previous : A) (l : list A) : list A :=
  match l with
  | [] => []
  | x :: l => if same x previous then dedup_from same previous l else x :: dedup_from same x l
  end.
Definition dedup_by (same : A -> A -> bool) (l : list A) : list A :=
  match l with
  | [] => []
  | x :: l => x :: dedup_from same x l
  end.

(** [slice::chunk_by]: the maximal runs whose neighbours are the same. *)
Fixpoint chunk_by (same : A -> A -> bool) (l : list A) : list (list A) :=
  match l with
  | [] => []
  | x :: l =>
      match chunk_by same l with
      | (y :: ys) :: rest => if same x y then (x :: y :: ys) :: rest else [x] :: (y :: ys) :: rest
      | chunks => [x] :: chunks
      end
  end.

Definition is_eq (c : comparison) : bool := match c with Eq => true | _ => false end.
Definition same (x y : A) : bool := is_eq (cmp x y).
(** [BTreeSet::insert] of the first of its class. *)
Definition add (x : A) (s : list A) : list A := if existsb (same x) s then s else place x s.
End Sort.

(** [BTreeSet::insert] and [BinaryHeap::push] order by [cmp] alone. *)
Lemma sort_insert_place {A} (cmp cmp' : A -> A -> comparison) x l :
  (forall y, y ∈ l -> cmp' x y = match cmp x y with Lt => Lt | _ => Gt end) -> BTree.sort_insert cmp' x l = place cmp x l.
Proof.
  induction l as [|y l IH]; intros H; [done|]. cbn [BTree.sort_insert place]. rewrite (H y ltac:(by left)).
  rewrite IH by (intros z Hz; apply H; by right). by destruct (cmp x y).
Qed.

Section Lawful.
Context {A : Type} (cmp : A -> A -> comparison) `{!LawfulCompare cmp}.
Notation le := (BTree.le cmp).

Lemma opp x y : cmp y x = CompOpp (cmp x y).
Proof. apply cmp_sym. Qed.

Lemma not_lt_le x y : cmp x y <> Lt <-> le y x.
Proof. unfold BTree.le. rewrite (opp x y). by destruct (cmp x y). Qed.

Lemma sort_insert_commute x y s : BTree.sort_insert cmp y (place cmp x s) = place cmp x (BTree.sort_insert cmp y s).
Proof.
  induction s as [|z s IH]; simpl.
  { rewrite (opp y x). by destruct (cmp y x). }
  assert (cmp x z = Lt -> cmp y z = Gt -> cmp y x = Gt) as H1.
  { intros Ex Ey. apply (cmp_trans (cmp:=cmp) y z x); [done|]. by rewrite (opp x z), Ex. }
  assert (cmp x z <> Lt -> cmp y z <> Gt -> cmp y x <> Gt) as H2.
  { intros Ex%not_lt_le Ey. by apply (BTree.le_trans cmp y z x). }
  pose proof (opp y x) as Hsym.
  destruct (cmp x z) eqn:Ex, (cmp y z) eqn:Ey; cbn [BTree.sort_insert place]; rewrite ?Ex, ?Ey, ?IH; try done;
    destruct (cmp y x) eqn:E; cbn [CompOpp] in Hsym; rewrite ?Hsym; cbn [BTree.sort_insert place]; rewrite ?Ex, ?Ey, ?IH; try done;
    exfalso; try (by apply H2); by discriminate H1.
Qed.

(** Sorting one more element. *)
Lemma sort_snoc l x : BTree.sort_by cmp (l ++ [x]) = place cmp x (BTree.sort_by cmp l).
Proof. unfold BTree.sort_by. induction l as [|y l IH]; [done|]. cbn [app foldr]. by rewrite IH, sort_insert_commute. Qed.

Lemma place_perm x l : place cmp x l ≡ₚ x :: l.
Proof. induction l as [|y l IH]; simpl; [done|]. destruct (cmp x y); [|done|]; rewrite IH; constructor. Qed.

(** ** The smallest elements *)

Lemma take_place k x l : take k (place cmp x l) = take k (place cmp x (take k l)).
Proof.
  revert k. induction l as [|y l IH]; intros [|k]; [done..|]. simpl. destruct (cmp x y); simpl; rewrite ?IH; try done.
  f_equal. destruct k; [done|]. simpl. by rewrite take_take, Nat.min_l by lia.
Qed.

Lemma place_end x l : Forall (fun y => cmp x y <> Lt) l -> place cmp x l = l ++ [x].
Proof. induction 1 as [|y l Hy _ IH]; [done|]. simpl. rewrite IH. by destruct (cmp x y). Qed.

Lemma sorted_last l w : StronglySorted le l -> last l = Some w -> Forall (fun y => le y w) l.
Proof.
  induction 1 as [|y l Hl IH Hy]; [done|]. destruct l as [|z l].
  - intros [= ->]. repeat constructor. unfold BTree.le. by rewrite cmp_refl.
  - intros Hlast. constructor; [|by apply IH]. rewrite Forall_forall in Hy. apply Hy. by eapply last_Some_elem_of.
Qed.

(** A full prefix keeps its elements when the new one does not precede the last. *)
Lemma place_full x l w : StronglySorted le l -> last l = Some w -> cmp x w <> Lt -> take (length l) (place cmp x l) = l.
Proof.
  intros Hs Hw Hx. rewrite place_end, take_app_length; [done|]. eapply Forall_impl; [by apply sorted_last|].
  intros y Hy. apply not_lt_le. apply not_lt_le in Hx. by apply (BTree.le_trans cmp y w x).
Qed.

(** Otherwise it loses its last. *)
Lemma place_before x l w : cmp x w = Lt -> place cmp x (l ++ [w]) = place cmp x l ++ [w].
Proof. intros Hx. induction l as [|y l IH]; simpl; [by rewrite Hx|]. rewrite IH. by destruct (cmp x y). Qed.

(** ** The first of each class *)

Lemma same_sym x y : same cmp x y = same cmp y x.
Proof. unfold same. rewrite (opp y x). by destruct (cmp y x). Qed.

Lemma dedup_from_in y previous l : y ∈ dedup_from (same cmp) previous l -> y ∈ l.
Proof.
  revert previous. induction l as [|x l IH]; intros previous; [done|]. simpl. destruct (same cmp x previous).
  - intros H%IH. by right.
  - intros [->|H%IH]%elem_of_cons; [by left|by right].
Qed.

Lemma existsb_same_above x l : Forall (fun y => cmp x y = Lt) l -> existsb (same cmp x) l = false.
Proof. induction 1 as [|y l Hy _ IH]; [done|]. simpl. rewrite IH. unfold same. by rewrite Hy. Qed.

Lemma lt_le_trans x y z : cmp x y = Lt -> le y z -> cmp x z = Lt.
Proof.
  unfold BTree.le. intros H1 H2. destruct (cmp y z) eqn:E; [|by apply (cmp_trans (cmp:=cmp) x y z)|done].
  destruct (cmp_trans_cases cmp x y z) as [_ T]. by rewrite T.
Qed.

Lemma dedup_from_place x previous l : StronglySorted le (previous :: l) -> le previous x ->
  dedup_from (same cmp) previous (place cmp x l) =
    if same cmp x previous || existsb (same cmp x) (dedup_from (same cmp) previous l)
    then dedup_from (same cmp) previous l else place cmp x (dedup_from (same cmp) previous l).
Proof.
  revert previous. induction l as [|y l IH]; intros previous Hs Hp.
  { simpl. by destruct (same cmp x previous). }
  apply StronglySorted_inv in Hs as [Hs Hle]. apply Forall_cons in Hle as [Hpy Hpl]. cbn [place].
  destruct (cmp x y) eqn:Exy.
  2: { assert (Forall (fun z => cmp x z = Lt) (y :: dedup_from (same cmp) y l)) as Habove.
    { constructor; [done|]. apply Forall_forall. intros z Hz%dedup_from_in. apply StronglySorted_inv in Hs as [_ Hy].
      rewrite Forall_forall in Hy. eapply lt_le_trans; [exact Exy|auto]. }
    cbn [dedup_from]. assert (same cmp y x = false) as -> by (rewrite same_sym; unfold same; by rewrite Exy).
    destruct (same cmp x previous) eqn:Exp; [done|].
    assert (same cmp y previous = false) as ->.
    { assert (cmp previous x = Lt) as Hlt.
      { destruct (cmp previous x) eqn:E; [|done|by destruct (Hp E)]. unfold same in Exp. by rewrite (opp previous x), E in Exp. }
      unfold same. rewrite (opp previous y), (cmp_trans (cmp:=cmp) previous x y Lt) by done. done. }
    rewrite (existsb_same_above x) by done. cbn [orb place]. by rewrite Exy. }
  all: cbn [dedup_from]; destruct (same cmp y previous) eqn:Eyp;
    [apply IH; [|done]; apply StronglySorted_inv in Hs as [Hs _]; by constructor|].
  all: assert (le y x) as Hyx by (apply not_lt_le; by rewrite Exy).
  all: rewrite (IH y) by done; cbn [existsb].
  all: assert (same cmp x previous = false) as ->
    by (destruct (same cmp x previous) eqn:E; [|done]; unfold same, is_eq in E, Eyp; destruct (cmp x previous) eqn:E'; try done;
        destruct (cmp_trans_cases cmp y x previous) as [_ T]; rewrite T in Eyp by done; rewrite (opp x y), Exy in Eyp;
        try done; pose proof (not_lt_le previous y) as Hc; exfalso;
        assert (le x previous) as Hxp by (unfold BTree.le; by rewrite E');
        pose proof (BTree.le_trans cmp y x previous Hyx Hxp) as Hyp; unfold BTree.le in Hyp, Hpy;
        rewrite (opp y previous), T in Hpy by done; rewrite (opp x y), Exy in Hpy; done).
  all: cbn [orb]; destruct (same cmp x y || _) eqn:Eor; [done|]; cbn [place]; by rewrite Exy.
Qed.

Lemma dedup_add x l : StronglySorted le l -> dedup_by (same cmp) (place cmp x l) = add cmp x (dedup_by (same cmp) l).
Proof.
  destruct l as [|y l]; intros Hs; [done|]. cbn [place]. unfold add. cbn [dedup_by existsb].
  destruct (cmp x y) eqn:E.
  - assert (same cmp x y = true) as -> by (unfold same; by rewrite E). cbn [orb dedup_by].
    rewrite dedup_from_place by (done || (apply not_lt_le; by rewrite E)). by replace (same cmp x y) with true by (unfold same; by rewrite E).
  - cbn [dedup_by dedup_from]. assert (same cmp y x = false) as -> by (rewrite same_sym; unfold same; by rewrite E).
    assert (Forall (fun z => cmp x z = Lt) (dedup_from (same cmp) y l)) as Habove.
    { apply Forall_forall. intros z Hz%dedup_from_in. apply StronglySorted_inv in Hs as [_ Hy].
      rewrite Forall_forall in Hy. eapply lt_le_trans; [exact E|auto]. }
    rewrite (existsb_same_above x) by done. unfold same. rewrite E. cbn [is_eq orb place]. by rewrite E.
  - cbn [dedup_by]. rewrite dedup_from_place by (done || (apply not_lt_le; by rewrite E)).
    destruct (same cmp x y || _); [done|]. cbn [place]. by rewrite E.
Qed.

(** The first of each class, one element at a time. *)
Lemma dedup_sort_snoc l x : dedup_by (same cmp) (BTree.sort_by cmp (l ++ [x])) = add cmp x (dedup_by (same cmp) (BTree.sort_by cmp l)).
Proof. rewrite sort_snoc, dedup_add; [done|]. apply (BTree.sort_by_sorted cmp). Qed.

End Lawful.
(** ** Related lists sort alike *)

Section Related.
Context {A B : Type} (P : A -> B -> Prop) (cmp : A -> A -> comparison) (cmp' : B -> B -> comparison).
Context (Hcmp : forall x x' y y', P x x' -> P y y' -> cmp x y = cmp' x' y').

Lemma sort_insert_forall2 x x' l l' : P x x' -> Forall2 P l l' -> Forall2 P (BTree.sort_insert cmp x l) (BTree.sort_insert cmp' x' l').
Proof.
  intros Hx. induction 1 as [|y y' l l' Hy Hl IH]; simpl; [by repeat constructor|].
  rewrite <- (Hcmp x x' y y') by done. destruct (cmp x y); repeat (constructor; [done|]); done.
Qed.

Lemma sort_by_forall2 l l' : Forall2 P l l' -> Forall2 P (BTree.sort_by cmp l) (BTree.sort_by cmp' l').
Proof. induction 1 as [|x x' l l' Hx Hl IH]; [constructor|]. by apply sort_insert_forall2. Qed.

Lemma dedup_from_forall2 x x' l l' : P x x' -> Forall2 P l l' -> Forall2 P (dedup_from (same cmp) x l) (dedup_from (same cmp') x' l').
Proof.
  intros Hx Hl. revert x x' Hx. induction Hl as [|y y' l l' Hy Hl IH]; intros x x' Hx; [constructor|]. simpl.
  assert (same cmp y x = same cmp' y' x') as -> by (unfold same; by rewrite (Hcmp y y' x x')).
  destruct (same cmp' y' x'); [by apply IH|]. constructor; [done|by apply IH].
Qed.

Lemma dedup_by_forall2 l l' : Forall2 P l l' -> Forall2 P (dedup_by (same cmp) l) (dedup_by (same cmp') l').
Proof. intros [|x x' k k' Hx Hk]; [constructor|]. constructor; [done|]. by apply dedup_from_forall2. Qed.
End Related.

Lemma sort_by_ext {A} (cmp cmp' : A -> A -> comparison) l : (forall x y, x ∈ l -> y ∈ l -> cmp x y = cmp' x y) ->
  BTree.sort_by cmp l = BTree.sort_by cmp' l.
Proof.
  intros H. assert (Forall2 (fun a b => a = b /\ a ∈ l) l l) as Hl.
  { clear H. assert (forall k, (forall x, x ∈ k -> x ∈ l) -> Forall2 (fun a b => a = b /\ a ∈ l) k k) as Hk; [|by apply Hk].
    induction k as [|x k IH]; intros Hk; constructor; [split; [done|apply Hk; by left]|]. apply IH. intros y Hy. apply Hk. by right. }
  apply (sort_by_forall2 _ cmp cmp') in Hl.
  - induction Hl as [|x y k k' [-> _] _ IH]; [done|]. by rewrite IH.
  - intros x x' y y' [-> Hx] [-> Hy]. by apply H.
Qed.

(** ** Selection *)

(** What [slice::select_nth_unstable_by] documents, of an order that is total on the elements: the element at the
    index is in its final place, none before it is greater and none after it less. *)
Definition select_contract (select : forall A, (A -> A -> comparison) -> nat -> list A -> list A) : Prop :=
  forall A (cmp order : A -> A -> comparison) k l, LawfulCompare order -> (forall x y, x ∈ l -> y ∈ l -> cmp x y = order x y) ->
  (k < length l)%nat -> select A cmp k l ≡ₚ l /\ exists pivot, select A cmp k l !! k = Some pivot /\
    Forall (fun x => cmp x pivot <> Gt) (take k (select A cmp k l)) /\ Forall (fun x => cmp pivot x <> Gt) (drop k (select A cmp k l)).

(** Sorting is a selection. *)
Lemma sort_selects : select_contract (fun A cmp _ l => BTree.sort_by cmp l).
Proof.
  intros A cmp order k l Ho Hl Hk. rewrite (sort_by_ext cmp order l) by done.
  pose proof (BTree.sort_by_sorted order l) as Hs. pose proof (BTree.sort_by_perm order l) as Hp. split; [done|].
  assert (forall x y, x ∈ BTree.sort_by order l -> y ∈ BTree.sort_by order l -> cmp x y = order x y) as Hc.
  { intros x y. rewrite Hp. apply Hl. }
  destruct (lookup_lt_is_Some_2 (BTree.sort_by order l) k) as [pivot E]; [by rewrite Hp|]. exists pivot. split; [done|].
  assert (pivot ∈ BTree.sort_by order l) as Hin by by eapply list_elem_of_lookup_2.
  rewrite <- (take_drop_middle _ _ _ E) in Hs. split; apply Forall_forall; intros x Hx.
  - assert (x ∈ BTree.sort_by order l) as Hx' by (eapply elem_of_take in Hx as (i & Hi & _); by eapply list_elem_of_lookup_2).
    rewrite Hc by done. apply (StronglySorted_app_1_elem_of (BTree.le order) _ _ x pivot Hs Hx). by left.
  - assert (x ∈ BTree.sort_by order l) as Hx' by (rewrite <- (take_drop k (BTree.sort_by order l)); apply elem_of_app; by right).
    rewrite Hc by done. rewrite (drop_S _ _ _ E) in Hx. apply elem_of_cons in Hx as [->|Hx]; [by rewrite cmp_refl|].
    apply StronglySorted_app_1_r, StronglySorted_inv in Hs as [_ Hs]. rewrite Forall_forall in Hs. by apply Hs.
Qed.

(** The selected prefix, sorted, is the prefix of a sorted permutation. *)
Lemma select_sorted select {A} (cmp order : A -> A -> comparison) k l : select_contract select -> LawfulCompare order ->
  (forall x y, x ∈ l -> y ∈ l -> cmp x y = order x y) -> (k < length l)%nat ->
  exists s, s ≡ₚ l /\ StronglySorted (fun x y => cmp x y <> Gt) s /\ BTree.sort_by cmp (take k (select A cmp k l)) = take k s.
Proof.
  intros Hsel Ho Hl Hk. destruct (Hsel A cmp order k l Ho Hl Hk) as (Hp & pivot & E & Hbefore & Hafter).
  set (m := select A cmp k l) in *. assert (forall x, x ∈ m -> x ∈ l) as Hin by (intros x; by rewrite Hp).
  assert (forall x, x ∈ take k m -> x ∈ m) as Ht by (intros x Hx; rewrite <- (take_drop k m); apply elem_of_app; by left).
  assert (forall x, x ∈ drop k m -> x ∈ m) as Hd by (intros x Hx; rewrite <- (take_drop k m); apply elem_of_app; by right).
  exists (BTree.sort_by order (take k m) ++ BTree.sort_by order (drop k m)). split_and!.
  - by rewrite !(BTree.sort_by_perm order), take_drop.
  - assert (StronglySorted (BTree.le order) (BTree.sort_by order (take k m) ++ BTree.sort_by order (drop k m))) as Hs.
    { apply StronglySorted_app_2; [|apply (BTree.sort_by_sorted order)..]. intros x y. rewrite !(BTree.sort_by_perm order). intros Hx Hy.
      rewrite Forall_forall in Hbefore, Hafter. assert (pivot ∈ m) as Hpm by by eapply list_elem_of_lookup_2.
      apply (BTree.le_trans order x pivot y); unfold BTree.le; rewrite <- Hl by auto; auto. }
    assert (forall x, x ∈ BTree.sort_by order (take k m) ++ BTree.sort_by order (drop k m) -> x ∈ l) as Hel.
    { intros x. rewrite elem_of_app, !(BTree.sort_by_perm order). intros [Hx|Hx]; auto. }
    revert Hs Hel. generalize (BTree.sort_by order (take k m) ++ BTree.sort_by order (drop k m)). intros s Hs Hel.
    induction Hs as [|x s Hs IH Hx]; constructor; [apply IH; intros y Hy; apply Hel; by right|].
    rewrite Forall_forall in Hx |- *. intros y Hy. rewrite Hl; [by apply Hx|apply Hel; by left|apply Hel; by right].
  - assert (length (take k m) = k) as Elen by (rewrite length_take; pose proof (Permutation_length Hp); lia).
    assert (length (BTree.sort_by order (take k m)) = k) as El by (by rewrite (BTree.sort_by_perm order)).
    rewrite take_app_le, (take_ge (BTree.sort_by order _)) by lia. apply sort_by_ext. auto.
Qed.

(** ** A bounded prefix, one element at a time *)

Section Bounded.
Context {A : Type} (cmp : A -> A -> comparison) `{!LawfulCompare cmp}.

Lemma sorted_take (P : A -> A -> Prop) k l : StronglySorted P l -> StronglySorted P (take k l).
Proof.
  intros H. revert k. induction H as [|x l Hl IH Hx]; intros [|k]; simpl; constructor; [apply IH|]. by apply Forall_take.
Qed.

(** [x] in a prefix of at most [k] elements. *)
Definition bounded_place (k : nat) (x : A) (h : list A) : list A :=
  if (k =? 0)%nat then []
  else match last h with
       | Some w => if (k <=? length h)%nat then match cmp x w with Lt => place cmp x (removelast h) | _ => h end else place cmp x h
       | None => place cmp x h
       end.

Lemma bounded_place_take k x h : StronglySorted (BTree.le cmp) h -> (length h <= k)%nat -> take k (place cmp x h) = bounded_place k x h.
Proof.
  intros Hs Hlen. unfold bounded_place. destruct (Nat.eqb_spec k 0) as [->|Hk]; [done|].
  assert (forall w l, length (place cmp w l) = S (length l)) as Hpl by (intros w l; by rewrite (place_perm cmp w l)).
  destruct (last h) as [w|] eqn:Ew.
  - destruct (Nat.leb_spec k (length h)) as [Hle|Hlt]; [|apply take_ge; rewrite Hpl; lia].
    assert (k = length h) as -> by lia. destruct (cmp x w) eqn:Ex; [by apply (place_full cmp x h w); [..|by rewrite Ex]| |by apply (place_full cmp x h w); [..|by rewrite Ex]].
    apply last_Some in Ew as [h' ->]. rewrite removelast_last, place_before by done.
    rewrite length_app, take_app_le by (rewrite Hpl; simpl; lia). apply take_ge. rewrite Hpl. simpl. lia.
  - apply last_None in Ew as ->. apply take_ge. simpl. lia.
Qed.

(** What a bounded heap does with one more element. *)
Lemma take_sort_snoc k l x :
  take k (BTree.sort_by cmp (l ++ [x])) = bounded_place k x (take k (BTree.sort_by cmp l)).
Proof.
  rewrite sort_snoc, take_place by done. apply bounded_place_take; [apply sorted_take, (BTree.sort_by_sorted cmp)|].
  rewrite length_take. lia.
Qed.

Lemma dedup_from_sorted x l : StronglySorted (BTree.le cmp) (x :: l) -> StronglySorted (BTree.lt cmp) (x :: dedup_from (same cmp) x l).
Proof.
  revert x. induction l as [|y l IH]; intros x Hs; [repeat constructor|]. apply StronglySorted_inv in Hs as [Hs Hx].
  apply Forall_cons in Hx as [Hxy Hx]. cbn [dedup_from]. destruct (same cmp y x) eqn:E.
  - apply IH. constructor; [by apply StronglySorted_inv in Hs as []|done].
  - assert (cmp x y = Lt) as Hlt.
    { unfold same in E. rewrite (cmp_sym (cmp:=cmp) x y) in E. unfold BTree.le in Hxy. by destruct (cmp x y). }
    constructor; [by apply IH|]. constructor; [done|]. apply Forall_forall. intros z Hz%dedup_from_in.
    apply StronglySorted_inv in Hs as [_ Hy]. rewrite Forall_forall in Hy. eapply lt_le_trans; [done|exact Hlt|auto].
Qed.

Lemma dedup_sorted l : StronglySorted (BTree.lt cmp) (dedup_by (same cmp) (BTree.sort_by cmp l)).
Proof.
  pose proof (BTree.sort_by_sorted cmp l) as Hs. destruct (BTree.sort_by cmp l) as [|x k]; [constructor|]. by apply dedup_from_sorted.
Qed.

Lemma lt_sorted_le l : StronglySorted (BTree.lt cmp) l -> StronglySorted (BTree.le cmp) l.
Proof.
  induction 1 as [|x l Hl IH Hx]; constructor; [done|]. eapply Forall_impl; [exact Hx|]. intros y Hy. unfold BTree.le. by rewrite Hy.
Qed.

(** What a bounded ordered set does with one more element. *)
Lemma take_dedup_snoc k l x :
  let d l := dedup_by (same cmp) (BTree.sort_by cmp l) in
  take k (d (l ++ [x])) = if existsb (same cmp x) (take k (d l)) then take k (d l) else bounded_place k x (take k (d l)).
Proof.
  intros d. unfold d at 1. rewrite dedup_sort_snoc by done. fold (d l). pose proof (dedup_sorted l) as Hs. fold (d l) in Hs.
  set (s := d l) in *. unfold add. assert (length (take k s) <= k)%nat as Hlen by (rewrite length_take; lia).
  destruct (existsb (same cmp x) (take k s)) eqn:Ee.
  { assert (existsb (same cmp x) s = true) as ->; [|done]. rewrite <- (take_drop k s), existsb_app, Ee. done. }
  destruct (existsb (same cmp x) s) eqn:Es.
  - rewrite <- (take_drop k s), existsb_app, Ee in Es. cbn [orb] in Es. apply existsb_exists in Es as (y & Hy%list_elem_of_In & Exy).
    assert (length (take k s) = k) as Hk.
    { rewrite length_take. destruct (decide (length s <= k)%nat); [|lia]. rewrite drop_ge in Hy by lia. by apply elem_of_nil in Hy. }
    unfold bounded_place. destruct (Nat.eqb_spec k 0) as [->|Hk0]; [done|].
    destruct (last (take k s)) as [w|] eqn:Ew; [|apply last_None in Ew; rewrite Ew in Hk; simpl in Hk; lia].
    rewrite Hk, Nat.leb_refl. assert (cmp w y = Lt) as Hwy.
    { assert (w ∈ take k s) as Hw by by apply last_Some_elem_of.
      rewrite <- (take_drop k s) in Hs. by apply (StronglySorted_app_1_elem_of (BTree.lt cmp) (take k s) (drop k s)). }
    unfold same in Exy. destruct (cmp x y) eqn:E; try done. destruct (cmp_trans_cases cmp w x y) as [_ T].
    rewrite T in Hwy by done. rewrite (cmp_sym (cmp:=cmp) w x), Hwy. done.
  - rewrite take_place by done. apply bounded_place_take; [by apply sorted_take, lt_sorted_le|done].
Qed.
End Bounded.
End RowSort.
