(* ===== verification/Rows.v ===== *)
(** Row operators: projection.rs, top_k.rs, distinct.rs and aggregation.rs of
    crates/db/src/execution/interpreter/rows, over the row buffers of mod.rs.

    Reservations are decisions of the environment ([RowMonad]); the capacities they
    count are not modelled, and a buffer that grows may be refused at every push.
    Hydrated batches show the properties an expression reads: fetching one is a
    call storage can fail, and evaluation reads the request's view [graph]. *)
From S2P Require Import Prelude Bytes BTree QueryValue QueryRange QueryOperators QueryExpression QueryMonad QueryAggregate QueryEval QueryPlan RowMonad RowSort.

Open Scope Z_scope.

Module Rows.
Export QueryPlan QueryEval QueryAggregate RowMonad RowSort.

(** [Limits] of cypher.rs, but for the byte limits. *)
Record Limits := { batch_rows : Z; collection_items : Z }.

(** [Projection] of rows/projection.rs. *)
Record RowProjection := {
  program : ProjectionProgram; distinct : bool; ordering : list Ordering; predicate : option SelectionProgram;
  row_skip : option Expression; row_limit : option Expression }.

Inductive ProjectionInputs := Discard | Keep (slots : list bool).

(** [Termination] of pipeline.rs. *)
Inductive Termination := Drain | BeforeInput | AfterFirstBatch.
Definition may_stop (self : Termination) (input_started : bool) : bool :=
  match self with
  | Drain => false
  | BeforeInput => true
  | AfterFirstBatch => input_started
  end.

(** [values[i] = x], which panics out of bounds. *)
Definition assign {A} (i : Z) (x : A) (values : list A) : option (list A) :=
  if (Z.to_nat i <? length values)%nat then Some (<[Z.to_nat i := x]> values) else None.

Fixpoint chunks_from {A} (fuel n : nat) (l : list A) : list (list A) :=
  match fuel, l with
  | S fuel, _ :: _ => take n l :: chunks_from fuel n (drop n l)
  | _, _ => []
  end.
(** [slice::chunks], which panics on zero. *)
Definition chunks {A} (n : Z) (l : list A) : option (list (list A)) :=
  if n =? 0 then None else Some (chunks_from (length l) (Z.to_nat n) l).

Section Rows.
Context `{TextLibrary} (nan : Z) (powf : Z -> Z -> Z).
Context (graph : GraphValues) (parameters : list (bytes * Value)) (limits : Limits) {StorageError : Type}.
(** [slice::select_nth_unstable_by]. *)
Context (select_nth_unstable_by : forall A, (A -> A -> comparison) -> nat -> list A -> list A).

Notation R := (R StorageError).
Notation eval := (eval nan powf graph parameters (collection_items limits)).
Notation eval_sequence := (eval_sequence nan powf graph parameters (collection_items limits)).

(** ** Buffers (mod.rs) *)

(** [RowBuffer::new]: an empty [Rows] is reserved, then refreshed. *)
Definition buffer_new : R (list Row) := let* _ <- reserve; let* _ <- reserve; give [].
Definition push_with (buffer : list Row) (row : Row) : R (list Row) :=
  let* _ <- reserve; let* _ <- admitted "row allocation failed"; give (buffer ++ [row]).

(** [expression_graph_batch]: hydration, reserved and then read. *)
Definition expression_graph_batch : R unit := let* _ <- check_execution_deadline; let* _ <- reserve; attempt.

Definition keeps (self : ProjectionInputs) (slot : Z) : option bool :=
  match self with
  | Discard => Some false
  | Keep slots => slots !! Z.to_nat slot
  end.

Fixpoint install (assignments : list (Z * Value)) (row : Row) : option Row :=
  match assignments with
  | [] => Some row
  | (slot, value) :: rest => row ← assign slot value row; install rest row
  end.

Definition null_row (width : Z) : Row := replicate (Z.to_nat width) Null.

(** The row [push_projection] builds. *)
Definition projected_row (input : Row) (p : ProjectionProgram) (values : list Value) (inputs : ProjectionInputs) : option Row :=
  base ← mapM (fun e : Z * Value =>
    k ← keeps inputs e.1; Some (if k && negb (holds (projection_outputs p) e.1) then e.2 else Null))
    (imap (fun i v => (Z.of_nat i, v)) input);
  install (zip (map projection_slot (QueryPlan.items p)) values) base.

Definition push_projection (buffer : list Row) (input : Row) (p : ProjectionProgram) (values : list Value)
    (inputs : ProjectionInputs) : R (list Row) :=
  if negb (Nat.eqb (length (QueryPlan.items p)) (length values)) then crash
  else
    let* _ <- reserve;
    let* row <- unwrap (projected_row input p values inputs);
    push_with buffer row.

(** ** Projections *)

(** [ProjectionProgram::evaluate] with the [ProjectionEvaluator] of evaluation.rs. *)
Definition evaluate (p : ProjectionProgram) (row : Row) (group : option (list Row)) : M (list Value) :=
  do _ <- remaining;
  for_each (QueryPlan.items p) [] (fun item values =>
    do value <- eval (projection_expression item) row group; do _ <- remaining; ret (values ++ [value])).

(** [Window::evaluate], over the empty row. *)
Definition window_offset (expression : option Expression) (missing : Z) : M Z :=
  match expression with
  | None => ret missing
  | Some expression => do value <- eval expression [] None; lift (nonnegative value)
  end.
Definition evaluate_window (skip limit : option Expression) : M Window :=
  do skip <- window_offset skip 0;
  do limit <- window_offset limit (umax 64);
  ret {| QueryRange.skip := skip; QueryRange.limit := limit |}.

Definition include (width : Z) (inputs : ProjectionInputs) (expression : Expression) : R ProjectionInputs :=
  each (nodes expression) inputs (fun node inputs =>
    match node with
    | ESlot slot | EHasLabel slot _ =>
        let* slots <- match inputs with
                      | Discard => let* _ <- reserve; give (replicate (Z.to_nat width) false)
                      | Keep slots => give slots
                      end;
        let* slots <- unwrap (assign slot true slots);
        give (Keep slots)
    | _ => give inputs
    end).

Definition include_references (width : Z) (inputs : ProjectionInputs) (expressions : list Expression) : R ProjectionInputs :=
  let* inputs <- each expressions inputs (fun expression inputs =>
    let* _ <- check_execution_deadline; include width inputs expression);
  let* _ <- check_execution_deadline; give inputs.

(** The expressions evaluated over projected rows. *)
Definition later (self : RowProjection) : list Expression :=
  map order_expression (ordering self) ++ map selection_expression (opt (predicate self)).

Definition input_slots (self : RowProjection) (width : Z) : R ProjectionInputs :=
  let* _ <- check_execution_deadline;
  if bool_decide (ordering self = []) && negb (present (predicate self)) then give Discard
  else include_references width Discard (later self).

(** The rows of a batch, projected onto a buffer. *)
Definition project_batch (p : ProjectionProgram) (inputs : ProjectionInputs) (batch buffer : list Row) : R (list Row) :=
  each batch buffer (fun row buffer =>
    let* _ <- check_execution_deadline;
    let* values <- query (evaluate p row None);
    push_projection buffer row p values inputs).

(** [RowSelection::evaluate]. *)
Definition selects (predicate : SelectionProgram) (row : Row) : M bool :=
  do value <- eval (selection_expression predicate) row None;
  do t <- lift (truth_of value); ret (bool_decide (t = Some true)).

(** [filter_relation] of projection_chain.rs, its batches as chunks. *)
Definition filter_relation (rows : list Row) (predicate : SelectionProgram) : R (list Row) :=
  let* buffer <- buffer_new;
  let* batches <- (if bool_decide (rows = []) then give [] else unwrap (chunks (batch_rows limits) rows));
  each batches buffer (fun batch buffer =>
    let* _ <- check_execution_deadline;
    let* _ <- expression_graph_batch;
    let* _ <- reserve;
    each batch buffer (fun row buffer =>
      let* _ <- check_execution_deadline;
      let* keep <- query (selects predicate row);
      if (keep : bool) then push_with buffer row else give buffer)).

(** Sort keys with their rows. *)
Record KeyedRow := { keys : list Value; keyed_row : Row }.
Definition keyed_push (entries : list KeyedRow) (keys : list Value) (row : Row) : R (list KeyedRow) :=
  let* _ <- reserve; let* _ <- admitted "sort buffer allocation failed";
  give (entries ++ [{| keys := keys; keyed_row := row |}]).

(** The first difference between keys, each in its direction. *)
Definition order_keys (ordering : list Ordering) (a b : list Value) : comparison :=
  let fix go ordering pairs :=
    match ordering, pairs with
    | order :: ordering, (x, y) :: pairs =>
        let c := total_cmp x y in
        then_with (if descending order then CompOpp c else c) (go ordering pairs)
    | _, _ => Eq
    end in
  go ordering (zip a b).

(** Every column but the outputs is cleared. *)
Definition clear (p : ProjectionProgram) (row : Row) : Row :=
  imap (fun i v => if holds (projection_outputs p) (Z.of_nat i) then v else Null) row.

Definition row_column (row : Row) (slot : Z) : Value := default Null (row !! Z.to_nat slot).
(** The order of DISTINCT: the first difference between output columns. *)
Fixpoint order_columns (slots : list Z) (a b : Row) : comparison :=
  match slots with
  | [] => Eq
  | slot :: slots => then_with (total_cmp (row_column a slot) (row_column b slot)) (order_columns slots a b)
  end.
Definition output_slots (p : ProjectionProgram) : list Z := map projection_slot (QueryPlan.items p).

(** ** Top-k (top_k.rs) *)

Record RankedRow := { rank_keys : list Value; rank_row : Row; ordinal : Z }.

Definition ranked_cmp (ordering : list Ordering) (a b : RankedRow) : comparison :=
  then_with (order_keys ordering (rank_keys a) (rank_keys b)) (ordinal a ?= ordinal b).

(** [TopK]: the heap in increasing order, its root last. *)
Record TopK := { heap : list RankedRow; keep : Z }.

Definition topk_push (ordering : list Ordering) (self : TopK) (candidate : RankedRow) : R TopK :=
  if (keep self =? 0) ||
     (match last (heap self) with
      | Some worst => (keep self <=? len (heap self)) && negb (bool_decide (ranked_cmp ordering candidate worst = Lt))
      | None => false
      end)
  then give self
  else
    let* retained <- (if len (heap self) =? keep self
                      then match heap self with [] => crash | _ => give (removelast (heap self)) end
                      else give (heap self));
    let* _ <- reserve;
    let* _ <- admitted "top-k allocation failed";
    give {| heap := BTree.sort_insert (ranked_cmp ordering) candidate retained; keep := keep self |}.

Definition top_k_batches (batches : list (R (list Row))) (width : Z) (p : RowProjection) : R (list Row) :=
  let* window <- query (evaluate_window (row_skip p) (row_limit p));
  let* inputs <- input_slots p width;
  let* _ <- reserve;
  let* state <- each batches ({| heap := []; keep := retained_rows window |}, 0) (fun batch state =>
    let* batch <- batch;
    let* _ <- check_execution_deadline;
    let* _ <- expression_graph_batch;
    let* buffer <- buffer_new;
    let* projected <- project_batch (program p) inputs batch buffer;
    let* _ <- expression_graph_batch;
    each projected state (fun row '(top_k, ordinal) =>
      let* pass <- match predicate p with
                   | Some predicate => query (selects predicate row)
                   | None => give true
                   end;
      if (pass : bool) then
        let* keys <- query (eval_sequence (map order_expression (ordering p)) row None);
        let* top_k <- topk_push (ordering p) top_k {| rank_keys := keys; rank_row := clear (program p) row; ordinal := ordinal |};
        give (top_k, sat_add 64 ordinal 1)
      else give (top_k, ordinal)));
  give (map rank_row (drop (Z.to_nat (QueryRange.skip window)) (heap state.1))).
(** ** Direct aggregation (aggregation.rs, aggregation/groups.rs) *)

Definition Specification : Type := Aggregate * option Expression * bool.

Record Group := { base : Row; accumulators : list Accumulator }.
(** [GroupBuffer]: a [HashMap] of grouping keys is the list of its entries. *)
Record GroupBuffer := { by_key : list (GroupingKey * Z); groups : list Group }.

Definition grouping_expressions (p : ProjectionProgram) : list Expression :=
  filter (fun e => has_aggregate e = false) (map projection_expression (QueryPlan.items p)).
Definition specification (e : Expression) : option Specification :=
  match e with EAggregate function argument distinct => Some (function, argument, distinct) | _ => None end.
Definition specifications (p : ProjectionProgram) : list Specification :=
  omap specification (map projection_expression (QueryPlan.items p)).
(** Every aggregate is an item of its own. *)
Definition direct (p : ProjectionProgram) : bool :=
  forallb (fun item => negb (has_aggregate (projection_expression item)) || present (specification (projection_expression item))) (QueryPlan.items p).

Definition group_index (self : GroupBuffer) (key : GroupingKey) : option Z :=
  snd <$> find (fun e => key_eq e.1 key) (by_key self).

Definition kept_base (row : option Row) (width : Z) (inputs : ProjectionInputs) : option Row :=
  match row with
  | None => Some (null_row width)
  | Some row => mapM (fun e : Z * Value => k ← keeps inputs e.1; Some (if k : bool then e.2 else Null)) (imap (fun i v => (Z.of_nat i, v)) row)
  end.

Definition group_insert (self : GroupBuffer) (key : GroupingKey) (row : option Row) (width : Z) (inputs : ProjectionInputs)
    (specs : list Specification) : R (GroupBuffer * Z) :=
  if match row with Some row => negb (len row =? width) | None => false end then crash
  else
    let* base <- unwrap (kept_base row width inputs);
    let* _ <- reserve;
    let* _ <- admitted "aggregate group allocation failed";
    let* _ <- admitted "aggregate key table allocation failed";
    let index := len (groups self) in
    give ({| by_key := by_key self ++ [(key, index)];
             groups := groups self ++ [{| base := base; accumulators := map (fun '(f, _, distinct) => accumulator_new f distinct) specs |}] |},
          index).

Definition group_push (self : GroupBuffer) (group : Z) (aggregate : nat) (value : Value) : R GroupBuffer :=
  let* _ <- reserve;
  let* g <- unwrap (groups self !! Z.to_nat group);
  let* accumulator <- unwrap (accumulators g !! aggregate);
  let* accumulator <- query (push nan powf accumulator value (collection_items limits));
  give {| by_key := by_key self;
          groups := <[Z.to_nat group := {| base := base g; accumulators := <[aggregate := accumulator]> (accumulators g) |}]> (groups self) |}.

(** The grouping values move into their columns. *)
Definition into_drain (self : GroupBuffer) (p : ProjectionProgram) : R (list Group) :=
  let destinations := map projection_slot (filter (fun item => has_aggregate (projection_expression item) = false) (QueryPlan.items p)) in
  each (by_key self) (groups self) (fun entry groups =>
    let* _ <- check_execution_deadline;
    let* values <- match key_value entry.1 with List values => give values | _ => crash end;
    if negb (Nat.eqb (length values) (length destinations)) then crash
    else
      let* group <- unwrap (groups !! Z.to_nat entry.2);
      let* row <- unwrap (install (zip destinations values) (base group));
      give (<[Z.to_nat entry.2 := {| base := row; accumulators := accumulators group |}]> groups)).

Definition aggregate_slots (p : ProjectionProgram) : list Z :=
  map projection_slot (filter (fun item => present (specification (projection_expression item)) = true) (QueryPlan.items p)).

Definition clear_slots (slots : list Z) (inputs : ProjectionInputs) : R ProjectionInputs :=
  match inputs with
  | Discard => give Discard
  | Keep mask => let* mask <- each slots mask (fun slot mask => unwrap (assign slot false mask)); give (Keep mask)
  end.

(** One row goes into its group, new or found. *)
Definition aggregate_row (exprs : list Expression) (specs : list Specification) (width : Z) (inputs : ProjectionInputs)
    (row : Row) (buffer : GroupBuffer) : R GroupBuffer :=
  let* _ <- check_execution_deadline;
  let* values <- query (eval_sequence exprs row None);
  let* key <- query (lift (grouping_row values));
  let* _ <- reserve;
  let* (buffer, index) <- match group_index buffer key with
                          | Some index => give (buffer, index)
                          | None => group_insert buffer key (Some row) width inputs specs
                          end;
  each (imap pair specs) buffer (fun '(aggregate, (_, argument, _)) buffer =>
    let* value <- match argument with
                  | Some argument => query (eval argument row None)
                  | None => give (Integer 1)
                  end;
    group_push buffer index aggregate value).

Definition aggregate_batches (batches : list (R (list Row))) (width : Z) (p : RowProjection) : R (list Row) :=
  let* _ <- check_execution_deadline;
  if negb (direct (program p)) || bool_decide (specifications (program p) = []) then crash
  else
    let exprs := grouping_expressions (program p) in
    let specs := specifications (program p) in
    let* _ <- reserve;
    let* inputs <- input_slots p width;
    let* inputs <- clear_slots (projection_outputs (program p)) inputs;
    let* _ <- reserve;
    let* buffer <- each batches {| by_key := []; groups := [] |} (fun batch buffer =>
      let* batch <- batch;
      let* _ <- check_execution_deadline;
      let* _ <- reserve;
      let* _ <- expression_graph_batch;
      each batch buffer (aggregate_row exprs specs width inputs));
    let* buffer <- (if bool_decide (groups buffer = []) && bool_decide (exprs = []) then
        let* key <- query (lift (grouping_row []));
        let* _ <- reserve;
        let* (buffer, _) <- group_insert buffer key None width inputs specs;
        give buffer
      else give buffer);
    let* drained <- into_drain buffer (program p);
    let* output <- buffer_new;
    each drained output (fun group output =>
      let* _ <- check_execution_deadline;
      if negb (Nat.eqb (length (aggregate_slots (program p))) (length (accumulators group))) then crash
      else
        let* row <- unwrap (install (zip (aggregate_slots (program p)) (map (finish nan) (accumulators group))) (base group));
        push_with output row).

Definition aggregate_rows (rows : list Row) (width : Z) (p : RowProjection) : R (list Row) :=
  let* batches <- unwrap (chunks (batch_rows limits) rows);
  aggregate_batches (map give batches) width p.

(** ** Materialized projection (projection.rs) *)

(** [compare]. *)
Definition compare_keys (a b : list Value) : comparison := compare_lists total_cmp a b.

(** Groups by sorting, for items with aggregates inside expressions. *)
Definition group_by_sorting (rows : list Row) (width : Z) (p : RowProjection) (buffer : list Row) : R (list Row) :=
  let exprs := grouping_expressions (program p) in
  let* inputs <- input_slots p width;
  let* _ <- reserve;
  let* _ <- reserve;
  let* batches <- unwrap (chunks (batch_rows limits) rows);
  let* entries <- each batches [] (fun batch entries =>
    let* _ <- expression_graph_batch;
    each batch entries (fun row entries =>
      let* key <- query (eval_sequence exprs row None);
      keyed_push entries key row));
  let entries := BTree.sort_by (fun a b => compare_keys (keys a) (keys b)) entries in
  let runs := map (map keyed_row) (chunk_by (fun a b => is_eq (compare_keys (keys a) (keys b))) entries) in
  let runs := if bool_decide (entries = []) && bool_decide (exprs = []) then runs ++ [[]] else runs in
  each runs buffer (fun group buffer =>
    let* _ <- expression_graph_batch;
    let* _ <- (if bool_decide (group = []) then reserve else give tt);
    let base := default (null_row width) (head group) in
    let* values <- query (evaluate (program p) base (Some group));
    push_projection buffer base (program p) values inputs).

Definition project_rows (rows : list Row) (width : Z) (p : RowProjection) : R (list Row) :=
  let* window <- query (evaluate_window (row_skip p) (row_limit p));
  let skip := QueryRange.skip window in
  let limit := QueryRange.limit window in
  let program := program p in
  let aggregated := existsb (fun item => has_aggregate (projection_expression item)) (QueryPlan.items program) in
  if negb aggregated && negb (distinct p) && negb (bool_decide (ordering p = [])) && negb (limit =? umax 64) then
    let* batches <- unwrap (chunks (batch_rows limits) rows);
    top_k_batches (map give batches) width p
  else
    let* buffer <- buffer_new;
    let* projected <-
      (if aggregated && direct program then aggregate_rows rows width p
       else if aggregated then group_by_sorting rows width p buffer
       else
         let* inputs <- input_slots p width;
         let* batches <- unwrap (chunks (batch_rows limits) rows);
         each batches buffer (fun batch buffer =>
           let* _ <- expression_graph_batch; project_batch program inputs batch buffer));
    let* projected <- match predicate p with
                      | Some predicate => let* _ <- reserve; filter_relation projected predicate
                      | None => give projected
                      end;
    let* projected <-
      (if distinct p then
         let* _ <- reserve;
         let sorted := BTree.sort_by (order_columns (output_slots program)) projected in
         let* _ <- reserve;
         give (dedup_by (fun a b => is_eq (order_columns (output_slots program) a b)) sorted)
       else give projected);
    let* projected <-
      (if bool_decide (ordering p = []) then give projected
       else
         let* _ <- reserve;
         let* batches <- unwrap (chunks (batch_rows limits) projected);
         let* entries <- each batches [] (fun batch entries =>
           let* _ <- expression_graph_batch;
           each batch entries (fun row entries =>
             let* keys <- query (eval_sequence (map order_expression (ordering p)) row None);
             keyed_push entries keys row));
         let order a b := order_keys (ordering p) (keys a) (keys b) in
         let keep := sat_add 64 skip limit in
         let entries := if keep <? len entries
                        then take (Z.to_nat keep) (select_nth_unstable_by _ order (Z.to_nat keep) entries) else entries in
         give (map keyed_row (BTree.sort_by order entries)));
    let* _ <- admitted "query exceeds its memory budget";
    let projected := drop (Z.to_nat skip) (take (Z.to_nat (sat_add 64 skip limit)) projected) in
    let* _ <- reserve;
    give (map (clear program) projected).

(** The projection of one batch: no order, no window. *)
Definition unordered (p : RowProjection) : RowProjection :=
  {| program := program p; distinct := false; ordering := []; predicate := predicate p; row_skip := None; row_limit := None |}.

Definition aggregates (p : RowProjection) : bool := existsb (fun item => has_aggregate (projection_expression item)) (QueryPlan.items (program p)).

Record Windowed := { to_skip : Z; output : list Row }.

(** [project_batches]: an early stop is asked for before each batch. *)
Fixpoint project_each (batches : list (R (list Row))) (width : Z) (p : RowProjection) (termination : Termination) (limit : Z)
    (input_started : bool) (state : Windowed) : R Windowed :=
  if may_stop termination input_started && (limit <=? len (output state)) then give state
  else
    match batches with
    | [] => give state
    | batch :: batches =>
        let* batch <- batch;
        let* projected <- project_rows batch width (unordered p);
        let* state <- each projected state (fun row state =>
          if 0 <? to_skip state then give {| to_skip := to_skip state - 1; output := output state |}
          else if len (output state) <? limit then
            let* rows <- push_with (output state) row; give {| to_skip := to_skip state; output := rows |}
          else give state);
        project_each batches width p termination limit true state
    end.

Definition project_batches (batches : list (R (list Row))) (width : Z) (p : RowProjection) (termination : Termination) : R (list Row) :=
  if distinct p || negb (bool_decide (ordering p = [])) || aggregates p then crash
  else
    let* window <- query (evaluate_window (row_skip p) (row_limit p));
    let* buffer <- buffer_new;
    let* state <- project_each batches width p termination (QueryRange.limit window) false
      {| to_skip := QueryRange.skip window; output := buffer |};
    give (output state).

(** ** Incremental DISTINCT (distinct.rs) *)

Definition distinct_insert (slots : list Z) (keep : Z) (row : Row) (entries : list Row) : R (list Row) :=
  let order := order_columns slots in
  if (keep =? 0) ||
     ((len entries =? keep) && match last entries with Some last => negb (bool_decide (order row last = Lt)) | None => false end) ||
     existsb (fun entry => is_eq (order row entry)) entries
  then give entries
  else
    let* retained <- (if len entries =? keep
                      then match entries with [] => crash | _ => give (removelast entries) end
                      else give entries);
    let* _ <- reserve;
    give (BTree.sort_insert order row retained).

Definition distinct_batches (batches : list (R (list Row))) (width : Z) (p : RowProjection) : R (list Row) :=
  if negb (distinct p) || negb (bool_decide (ordering p = [])) || aggregates p then crash
  else
    let* window <- query (evaluate_window (row_skip p) (row_limit p));
    let keep := retained_rows window in
    let* _ <- reserve;
    let* entries <- each batches [] (fun batch entries =>
      let* batch <- then_check batch;
      let* projected <- project_rows batch width (unordered p);
      each projected entries (fun row entries =>
        let* _ <- check_execution_deadline;
        distinct_insert (output_slots (program p)) keep row entries));
    let* output <- buffer_new;
    each (imap pair entries) output (fun '(index, entry) output =>
      let* _ <- check_execution_deadline;
      if (Z.of_nat index <? QueryRange.skip window) || (QueryRange.limit window <=? len output) then give output
      else push_with output entry).
End Rows.
End Rows.
