(* ===== verification/RowSpec.v ===== *)
(** What the row operators compute: the reference meaning of a projection, and the
    simulation of the operators that evaluate, filter and sort rows.

    A row of the reference keeps every incoming value; an operator's row [shows] it
    where later expressions and the output columns look. *)
From S2P Require Import Prelude Bytes BTree QueryValue QueryRange QueryOperators QueryExpression QueryMonad QueryAggregate QueryEval QueryEvalSafe QueryRelocate QueryPlan QueryPlanSpec RowMonad RowSort Rows.

Open Scope Z_scope.

Module RowSpec.
Export QueryEvalSafe Rows.

(** [filter] by a test that may fail. *)
Fixpoint ofilter {A} (f : A -> option bool) (l : list A) : option (list A) :=
  match l with
  | [] => Some []
  | x :: l => b ← f x; rest ← ofilter f l; Some (if b : bool then x :: rest else rest)
  end.

Section Reference.
Context `{TextLibrary} (nan : Z) (powf : Z -> Z -> Z).
Context (graph : GraphValues) (parameters : list (bytes * Value)) (limits : Limits).
Notation eval := (eval nan powf graph parameters (collection_items limits)).

Definition value (e : Expression) (row : Row) : option Value := value_of (eval e row None).

(** The columns are computed at once, over the incoming row. *)
Definition project_row (p : ProjectionProgram) (row : Row) : option Row :=
  values ← mapM (fun item => value (projection_expression item) row) (QueryPlan.items p);
  install (zip (output_slots p) values) row.

Definition passes (predicate : option SelectionProgram) (row : Row) : option bool :=
  match predicate with
  | None => Some true
  | Some f => v ← value (selection_expression f) row;
              match truth_of v with Ok t => Some (bool_decide (t = Some true)) | Err _ => None end
  end.

Definition sort_keys (ordering : list Ordering) (row : Row) : option (list Value) :=
  mapM (fun e => value e row) (map order_expression ordering).

Definition keyed (ordering : list Ordering) (row : Row) : option KeyedRow :=
  ks ← sort_keys ordering row; Some {| keys := ks; keyed_row := row |}.

Definition order_rows (ordering : list Ordering) (a b : KeyedRow) : comparison := order_keys ordering (keys a) (keys b).

(** A stable sort by the keys. *)
Definition ordered (ordering : list Ordering) (rows : list Row) : option (list Row) :=
  if bool_decide (ordering = []) then Some rows
  else entries ← mapM (keyed ordering) rows; Some (map keyed_row (BTree.sort_by (order_rows ordering) entries)).

(** The first row of each class, in the order of the columns. *)
Definition deduplicated (p : RowProjection) (rows : list Row) : list Row :=
  if distinct p then dedup_by (same (order_columns (output_slots (program p)))) (BTree.sort_by (order_columns (output_slots (program p))) rows)
  else rows.

Definition window (p : RowProjection) : option Window :=
  value_of (evaluate_window nan powf graph parameters limits (row_skip p) (row_limit p)).

(** WITH and RETURN without aggregates: project, filter, deduplicate, sort, window. *)
Definition reference (p : RowProjection) (rows : list Row) : option (list Row) :=
  w ← window p;
  projected ← mapM (project_row (program p)) rows;
  kept ← ofilter (passes (predicate p)) projected;
  sorted ← ordered (ordering p) (deduplicated p kept);
  Some (map (clear (program p)) (apply_window w sorted)).

(** The rows kept for sorting, with their keys, and the window. *)
Definition candidates (p : RowProjection) (rows : list Row) : option (Window * list KeyedRow) :=
  w ← window p;
  projected ← mapM (project_row (program p)) rows;
  kept ← ofilter (passes (predicate p)) projected;
  entries ← mapM (keyed (ordering p)) (deduplicated p kept);
  Some (w, entries).

(** The window of the rows in an order by their keys, rows of equal keys in any order. *)
Definition answers (p : RowProjection) (out : list Row) (c : Window * list KeyedRow) : Prop :=
  exists order, order ≡ₚ c.2 /\ StronglySorted (fun a b => order_rows (ordering p) a b <> Gt) order /\
    out = map (clear (program p)) (map keyed_row (apply_window c.1 order)).
End Reference.

(** ** Lists of options *)

Lemma mapM_app {A B} (f : A -> option B) l l' :
  mapM f (l ++ l') = x ← mapM f l; y ← mapM f l'; Some (x ++ y).
Proof.
  induction l as [|a l IH]; simpl; [by destruct (mapM f l')|]. destruct (f a) as [b|]; simpl; [|done].
  rewrite IH. destruct (mapM f l) as [x|]; simpl; [|done]. by destruct (mapM f l').
Qed.

Lemma mapM_same {A B} (f g : A -> option B) l : (forall x, x ∈ l -> f x = g x) -> mapM f l = mapM g l.
Proof.
  induction l as [|x l IH]; intros H; [done|]. simpl. rewrite (H x) by by left. destruct (g x); simpl; [|done].
  rewrite IH; [done|]. intros y Hy. apply H. by right.
Qed.

Lemma ofilter_app {A} (f : A -> option bool) l l' :
  ofilter f (l ++ l') = x ← ofilter f l; y ← ofilter f l'; Some (x ++ y).
Proof.
  induction l as [|a l IH]; simpl; [by destruct (ofilter f l')|]. destruct (f a) as [[]|]; simpl; [..|done];
    rewrite IH; destruct (ofilter f l) as [x|]; simpl; try done; by destruct (ofilter f l').
Qed.

Lemma ofold_filter {A} (f : A -> option bool) l s :
  ofold (fun x s => b ← f x; Some (if b : bool then s ++ [x] else s)) l s = (fun xs => s ++ xs) <$> ofilter f l.
Proof.
  revert s. induction l as [|x l IH]; intros s; simpl; [by rewrite app_nil_r|]. destruct (f x) as [[]|]; simpl; [..|done];
    rewrite IH; destruct (ofilter f l); simpl; try done. by rewrite <- app_assoc.
Qed.

Lemma ofold_concat {A S} (f : A -> S -> option S) ls s : ofold (fun l s => ofold f l s) ls s = ofold f (concat ls) s.
Proof.
  revert s. induction ls as [|l ls IH]; intros s; [done|]. simpl. rewrite ofold_app. destruct (ofold f l s); simpl; auto.
Qed.

Lemma chunks_concat {A} n (l : list A) : 0 < n -> exists bs, chunks n l = Some bs /\ concat bs = l.
Proof.
  intros Hn. unfold chunks. rewrite (proj2 (Z.eqb_neq n 0)) by lia. eexists. split; [done|].
  assert (forall fuel (l : list A), (length l <= fuel)%nat -> concat (chunks_from fuel (Z.to_nat n) l) = l) as H; [|by apply H].
  induction fuel as [|fuel IH]; intros [|x k] Hl; simpl in *; try done; [lia|].
  rewrite IH, take_drop; [done|]. rewrite length_drop. simpl. lia.
Qed.
(** ** Orders of rows *)

(** [order_keys] over keys of the length of the ordering, without [zip]. *)
Fixpoint order_padded (ordering : list Ordering) (a b : list Value) : comparison :=
  match ordering with
  | [] => Eq
  | o :: ordering =>
      let c := total_cmp (default Null (head a)) (default Null (head b)) in
      then_with (if descending o then CompOpp c else c) (order_padded ordering (tail a) (tail b))
  end.

Lemma order_keys_padded ordering a b : length a = length ordering -> length b = length ordering ->
  order_keys ordering a b = order_padded ordering a b.
Proof.
  revert a b. induction ordering as [|o ordering IH]; intros [|x a] [|y b]; try done. simpl. intros [= Ha] [= Hb].
  unfold order_keys in *. simpl. f_equal. by apply IH.
Qed.

Lemma opp_lawful {A} (c : A -> A -> comparison) : LawfulCompare c -> LawfulCompare (fun a b => CompOpp (c a b)).
Proof.
  intros [R1 R2 R3]. constructor.
  - intros x. by rewrite R1.
  - intros x y. by rewrite R2.
  - intros x y z o Hx Hy. rewrite (R3 x y z (CompOpp o)); [by destruct o|by rewrite <- Hx, CompOpp_involutive|by rewrite <- Hy, CompOpp_involutive].
Qed.

#[export] Instance order_padded_lawful ordering : LawfulCompare (order_padded ordering).
Proof.
  induction ordering as [|o ordering IH]; [by constructor|]. simpl.
  apply then_with_lawful; [|by apply (preimage_lawful tail (order_padded ordering))].
  pose proof (preimage_lawful (fun l => default Null (head l)) total_cmp) as Hc.
  destruct (descending o); [by apply opp_lawful, Hc; apply _|by apply Hc; apply _].
Qed.

#[export] Instance order_columns_lawful slots : LawfulCompare (order_columns slots).
Proof.
  induction slots as [|s slots IH]; [by constructor|]. simpl.
  apply then_with_lawful; [|done]. apply (preimage_lawful (fun row => row_column row s) total_cmp). apply _.
Qed.

(** ** Rows *)

Section Simulation.
Context `{TextLibrary} (nan : Z) (powf : Z -> Z -> Z).
Context (graph : GraphValues) (parameters : list (bytes * Value)) (limits : Limits) {StorageError : Type}.
Context (Hmax : 0 <= collection_items limits) (Hbatch : 0 < batch_rows limits).
Context (Hgraph : forall entity m, graph_properties graph entity = Ok m ->
  Forall (fun entry => forall v, entry.2 = Ok v -> in_range v) m).
Context (Hparams : in_range (Map parameters)).

Notation eval := (eval nan powf graph parameters (collection_items limits)).
Notation value := (value nan powf graph parameters limits).
Notation meets_eval := (meets_eval nan powf graph parameters (collection_items limits) Hmax Hgraph Hparams).

Lemma eval_agrees e row row' : (forall s, s ∈ slots e -> row !! Z.to_nat s = row' !! Z.to_nat s) ->
  eval e row None = eval e row' None.
Proof.
  intros Ha. destruct (QueryRelocate.relocate_same nan powf graph parameters (collection_items limits) (fun s => s) e) as (e' & _ & Hs).
  unfold QueryRelocate.same_evaluation, QueryRelocate.rows_agree in Hs.
  rewrite <- (Hs row' row None None) by (constructor || (intros s Hin; by apply Ha)).
  rewrite <- (Hs row row None None) by (constructor || done). done.
Qed.

Lemma value_agrees e row row' : (forall s, s ∈ slots e -> row !! Z.to_nat s = row' !! Z.to_nat s) -> value e row = value e row'.
Proof. intros Ha. unfold RowSpec.value. by rewrite (eval_agrees e row row'). Qed.

Lemma eval_meets_none e row : QueryEvalSafe.well_formed e -> row_ok row -> meets (eval e row None) in_range.
Proof.
  intros He Hr. eapply meets_weaken; [apply (meets_eval e He row None Hr)|].
  - by intros rows [=].
  - by intros v [? _].
Qed.

Lemma eval_refines e row : QueryEvalSafe.well_formed e -> row_ok row ->
  refines (StorageError:=StorageError) (fun a b => a = b /\ in_range a) (query (eval e row None)) (value e row).
Proof. intros He Hr. by apply refines_query, eval_meets_none. Qed.

(** Evaluating expressions in turn. *)
Lemma each_value {A} (f : A -> Expression) l row : Forall (fun x => QueryEvalSafe.well_formed (f x)) l -> row_ok row ->
  let m := for_each l [] (fun x values => do v <- eval (f x) row None; do _ <- remaining; ret (values ++ [v])) in
  meets m row_ok /\ value_of m = mapM (fun x => value (f x) row) l.
Proof.
  intros Hf Hr m. rewrite Forall_forall in Hf.
  assert (forall x s, x ∈ l -> row_ok s -> meets (do v <- eval (f x) row None; do _ <- remaining; ret (s ++ [v])) row_ok) as Hstep.
  { intros x s Hx Hs. eapply meets_bind; [by apply eval_meets_none; [apply Hf|]|]. intros v Hv.
    eapply meets_bind; [apply meets_remaining|]. intros _ _. apply meets_ret. apply Forall_app. split; [done|]. by repeat constructor. }
  split; [apply meets_for_each; [constructor|done]|].
  unfold m. rewrite (for_each_value l row_ok) by (done || constructor).
  assert (forall s, row_ok s -> ofold (fun x s => value_of (do v <- eval (f x) row None; do _ <- remaining; ret (s ++ [v]))) l s =
    ofold (fun x s => v ← value (f x) row; Some (s ++ [v])) l s) as ->.
  { clear Hstep m. induction l as [|x l IH]; intros s Hs; [done|]. cbn [ofold].
    rewrite (value_of_bind _ _ in_range) by (apply eval_meets_none; [apply Hf; by left|done]).
    change (value_of (eval (f x) row None)) with (value (f x) row). destruct (value (f x) row) as [v|] eqn:E; [|done]. cbn [mbind option_bind].
    rewrite (value_of_bind _ _ _ meets_remaining). cbn [mbind option_bind]. apply IH; [intros y Hy; apply Hf; by right|].
    apply Forall_app. split; [done|]. constructor; [|done].
    eapply value_of_meets; [apply (eval_meets_none (f x) row); [apply Hf; by left|done]|done]. }
  - rewrite (ofold_snoc (fun x => value (f x) row)). by destruct (mapM _ l).
  - constructor.
Qed.

Lemma sequence_refines es row : Forall QueryEvalSafe.well_formed es -> row_ok row ->
  refines (StorageError:=StorageError) (fun a b => a = b /\ row_ok a)
    (query (eval_sequence nan powf graph parameters (collection_items limits) es row None)) (mapM (fun e => value e row) es).
Proof.
  intros He Hr. destruct (each_value (fun e => e) es row He Hr) as [Hm Hv].
  assert (meets (eval_sequence nan powf graph parameters (collection_items limits) es row None) row_ok) as Hmeets.
  { destruct es; [apply meets_ret; constructor|]. cbn [eval_sequence]. eapply meets_bind; [apply meets_remaining|]. by intros _ _. }
  apply (refines_ext _ _ (value_of (eval_sequence nan powf graph parameters (collection_items limits) es row None))).
  - destruct es as [|e es]; [done|]. rewrite <- Hv. cbn [eval_sequence]. by rewrite (value_of_bind _ _ _ meets_remaining).
  - by apply refines_query.
Qed.

Lemma evaluate_refines (q : ProjectionProgram) row :
  Forall (fun item => QueryEvalSafe.well_formed (projection_expression item)) (QueryPlan.items q) -> row_ok row ->
  refines (StorageError:=StorageError) (fun a b => a = b /\ row_ok a)
    (query (evaluate nan powf graph parameters limits q row None)) (mapM (fun item => value (projection_expression item) row) (QueryPlan.items q)).
Proof.
  intros Hq Hr. destruct (each_value projection_expression (QueryPlan.items q) row Hq Hr) as [Hm Hv].
  assert (meets (evaluate nan powf graph parameters limits q row None) row_ok) as Hmeets.
  { eapply meets_bind; [apply meets_remaining|]. by intros _ _. }
  apply (refines_ext _ _ (value_of (evaluate nan powf graph parameters limits q row None))); [|by apply refines_query].
  rewrite <- Hv. unfold evaluate. by rewrite (value_of_bind _ _ _ meets_remaining).
Qed.

Lemma meets_selects f row : QueryEvalSafe.well_formed (selection_expression f) -> row_ok row ->
  meets (selects nan powf graph parameters limits f row) (fun _ => True).
Proof.
  intros Hf Hr. eapply meets_bind; [by apply eval_meets_none|]. intros v _.
  eapply (meets_bind _ _ (fun _ => True)); [by apply meets_lift|]. intros t _. by apply meets_ret.
Qed.

Lemma selects_refines f row : QueryEvalSafe.well_formed (selection_expression f) -> row_ok row ->
  refines (StorageError:=StorageError) eq (query (selects nan powf graph parameters limits f row))
    (passes nan powf graph parameters limits (Some f) row).
Proof.
  intros Hf Hr. apply (refines_ext _ _ (value_of (selects nan powf graph parameters limits f row))).
  - unfold selects. rewrite (value_of_bind _ _ in_range) by by apply eval_meets_none. cbn [passes].
    unfold RowSpec.value. destruct (value_of (eval (selection_expression f) row None)) as [v|]; [|done]. cbn [mbind option_bind].
    rewrite (value_of_bind _ _ (fun _ => True)) by by apply meets_lift. by destruct (truth_of v).
  - eapply refines_weaken; [by apply refines_query, meets_selects|]. by intros a b _ [-> _].
Qed.

(** ** Windows *)

Lemma meets_offset e missing : Forall QueryEvalSafe.well_formed (opt e) -> 0 <= missing ->
  meets (window_offset nan powf graph parameters limits e missing) (fun z => 0 <= z).
Proof.
  intros He Hm. destruct e as [e|]; [|by apply meets_ret]. apply Forall_inv in He. cbn [window_offset].
  eapply meets_bind; [apply eval_meets_none; [done|constructor]|]. intros v _. apply meets_lift.
  intros z. unfold nonnegative. destruct v as [| |i| | | | | |]; try done. destruct (Z.leb_spec 0 i); [|done]. by intros [= <-].
Qed.

Lemma window_refines skip limit : Forall QueryEvalSafe.well_formed (opt skip ++ opt limit) ->
  refines (StorageError:=StorageError) (fun a b => a = b /\ 0 <= QueryRange.skip a /\ 0 <= QueryRange.limit a)
    (query (evaluate_window nan powf graph parameters limits skip limit))
    (value_of (evaluate_window nan powf graph parameters limits skip limit)).
Proof.
  intros [Hs Hl]%Forall_app. apply refines_query. eapply meets_bind; [by apply meets_offset|]. intros s Hs'.
  eapply meets_bind; [apply meets_offset; [done|by vm_compute]|]. intros l Hl'. by apply meets_ret.
Qed.

(** ** Incoming values kept for later *)

Context (width : Z) (Hwidth : 0 <= width).

(** The mask of a set of slots. *)
Definition mask_of (inputs : ProjectionInputs) (P : Z -> Prop) : Prop :=
  forall s, 0 <= s < width -> exists b, keeps inputs s = Some b /\ (b = true <-> P s).

Lemma mask_weaken inputs (P Q : Z -> Prop) : mask_of inputs P -> (forall s, P s <-> Q s) -> mask_of inputs Q.
Proof. intros HP H' s Hs. destruct (HP s Hs) as (b & Hb & Hiff). exists b. split; [done|]. by rewrite Hiff. Qed.

Lemma assign_some {A} i (x : A) l : 0 <= i < len l -> assign i x l = Some (<[Z.to_nat i := x]> l).
Proof. intros Hi. unfold assign, len in *. by rewrite (proj2 (Nat.ltb_lt _ _)) by lia. Qed.

Definition slot_of (node : Expression) (s : Z) : Prop :=
  match node with ESlot s' | EHasLabel s' _ => s' = s | _ => False end.

Definition mask_rel (P : Z -> Prop) (inputs : ProjectionInputs) (_ : unit) : Prop :=
  mask_of inputs P /\ match inputs with Keep mask => len mask = width | Discard => True end.

Lemma include_node node inputs P : mask_rel P inputs tt -> (forall s, slot_of node s -> 0 <= s < width) ->
  refines (StorageError:=StorageError) (mask_rel (fun s => P s \/ slot_of node s))
    (match node with
     | ESlot slot | EHasLabel slot _ =>
         let* slots <- match inputs with
                       | Discard => let* _ <- reserve; give (replicate (Z.to_nat width) false)
                       | Keep slots => give slots
                       end;
         let* slots <- unwrap (assign slot true slots);
         give (Keep slots)
     | _ => give inputs
     end) (Some tt).
Proof.
  intros [Hmask Hlen] Hslots.
  assert (forall slot, (forall s, slot_of node s <-> slot = s) -> refines (StorageError:=StorageError) (mask_rel (fun s => P s \/ slot_of node s))
    (let* slots <- match inputs with
                   | Discard => let* _ <- reserve; give (replicate (Z.to_nat width) false)
                   | Keep slots => give slots
                   end; let* slots <- unwrap (assign slot true slots); give (Keep slots)) (Some tt)) as Hset.
  { intros slot Hslot. assert (0 <= slot < width) as Hr by (apply Hslots, Hslot; done).
    apply (refines_andthen (fun mask (_ : unit) => len mask = width /\ forall s, 0 <= s < width -> exists b, mask !! Z.to_nat s = Some b /\ (b = true <-> P s))
      _ _ _ (Some tt) (fun _ => Some tt)).
    - destruct inputs as [|mask]; [granted|]; apply refines_give; [|by split].
      split; [unfold len; rewrite length_replicate; lia|]. intros s Hs. exists false.
      rewrite lookup_replicate. split; [split; [done|lia]|]. destruct (Hmask s Hs) as (b & [= <-] & Hb). done.
    - intros mask [] _ [Hl HP]. rewrite (assign_some slot true mask) by lia. cbn [unwrap].
      apply (refines_andthen eq _ _ _ (Some (<[Z.to_nat slot := true]> mask)) (fun _ => Some tt)); [by apply refines_give|].
      intros ? ? [= <-] ->. apply refines_give. unfold len in Hl. split; [|unfold len; by rewrite length_insert].
      intros s Hs. cbn [keeps]. destruct (decide (slot = s)) as [->|Hne].
      + exists true. rewrite list_lookup_insert_eq by lia. split; [done|]. split; [|done]. intros _. right. by apply Hslot.
      + rewrite list_lookup_insert_ne by lia. destruct (HP s Hs) as (b & Hb & Hiff). exists b. split; [done|]. rewrite Hiff, Hslot. tauto. }
  destruct node; try (apply refines_give; split; [eapply mask_weaken; [exact Hmask|]; cbn [slot_of]; tauto|done]);
    apply Hset; intros s'; cbn [slot_of]; done.
Qed.

Lemma slot_of_slots e s : s ∈ slots e <-> exists node, node ∈ nodes e /\ slot_of node s.
Proof.
  rewrite slots_spec, Exists_exists. split; intros (n & Hn & H'); exists n; (split; [done|]); by destruct n.
Qed.

Lemma include_refines e inputs P : mask_rel P inputs tt -> (forall s, s ∈ slots e -> 0 <= s < width) ->
  refines (StorageError:=StorageError) (mask_rel (fun s => P s \/ s ∈ slots e)) (include width inputs e) (Some tt).
Proof.
  intros Hin Hs.
  assert (forall ns inputs P, mask_rel P inputs tt -> (forall n s, n ∈ ns -> slot_of n s -> 0 <= s < width) ->
    refines (StorageError:=StorageError) (mask_rel (fun s => P s \/ exists n, n ∈ ns /\ slot_of n s))
      (each ns inputs (fun node inputs => match node with
         | ESlot slot | EHasLabel slot _ =>
             let* slots <- match inputs with Discard => let* _ <- reserve; give (replicate (Z.to_nat width) false) | Keep slots => give slots end;
             let* slots <- unwrap (assign slot true slots); give (Keep slots)
         | _ => give inputs end)) (Some tt)) as Hall.
  { induction ns as [|n ns IH]; intros inputs' P' Hin' Hs'; cbn [each].
    - apply refines_give. destruct Hin' as [H1 H2]. split; [|done]. eapply mask_weaken; [exact H1|]. set_solver.
    - apply (refines_andthen (mask_rel (fun s => P' s \/ slot_of n s)) _ _ _ (Some tt) (fun _ => Some tt)).
      + apply include_node; [done|]. intros s. apply Hs'. by left.
      + intros inputs'' [] _ H''. eapply refines_weaken; [apply IH; [exact H''|]|].
        * intros m s Hm. apply Hs'. by right.
        * intros a [] _ [H1 H2]. split; [|done]. eapply mask_weaken; [exact H1|]. intros s. cbn beta. set_solver. }
  eapply refines_weaken; [apply (Hall (nodes e) inputs P Hin)|].
  - intros n s Hn Hsl. apply Hs, slot_of_slots. eauto.
  - intros a [] _ [H1 H2]. split; [|done]. eapply mask_weaken; [exact H1|]. intros s. cbn beta. by rewrite slot_of_slots.
Qed.

(** ** A valid projection, and the rows it shows *)

Context (p : RowProjection).

Record projection_ok : Prop := {
  po_items : Forall (fun item => QueryEvalSafe.well_formed (projection_expression item)) (QueryPlan.items (program p));
  po_later : Forall QueryEvalSafe.well_formed (later p);
  po_window : Forall QueryEvalSafe.well_formed (opt (row_skip p) ++ opt (row_limit p));
  po_outputs : forall s, s ∈ projection_outputs (program p) <-> s ∈ output_slots (program p);
  po_columns : forall s, s ∈ output_slots (program p) -> 0 <= s < width;
  po_reads : forall e s, e ∈ later p -> s ∈ slots e -> 0 <= s < width }.
Context (Hok : projection_ok).

Definition read_later (s : Z) : Prop := exists e, e ∈ later p /\ s ∈ slots e.
Definition visible (s : Z) : Prop := s ∈ output_slots (program p) \/ read_later s.

Definition fits_row (row : Row) : Prop := len row = width /\ row_ok row.
(** The operator's row shows the reference row. *)
Record shows (row row' : Row) : Prop := {
  sh_row : fits_row row;
  sh_row' : fits_row row';
  sh_same : forall s, visible s -> row !! Z.to_nat s = row' !! Z.to_nat s }.

Lemma holds_outputs s : holds (projection_outputs (program p)) s = true <-> s ∈ output_slots (program p).
Proof. rewrite QueryPlanSpec.holds_iff. apply (po_outputs Hok). Qed.

Lemma inputs_refine : refines (StorageError:=StorageError) (mask_rel read_later) (input_slots p width) (Some tt).
Proof.
  unfold input_slots. granted. destruct (bool_decide (ordering p = []) && negb (present (predicate p))) eqn:E.
  - apply refines_give. split; [|done]. intros s Hs. exists false. split; [done|]. split; [done|].
    intros (e & He & _). unfold later in He. apply andb_prop in E as [Eo%bool_decide_eq_true Ep]. rewrite Eo in He.
    destruct (predicate p); [done|]. by apply elem_of_nil in He.
  - unfold include_references.
    assert (forall es inputs P, mask_rel P inputs tt -> (forall e s, e ∈ es -> s ∈ slots e -> 0 <= s < width) ->
      refines (StorageError:=StorageError) (mask_rel (fun s => P s \/ exists e, e ∈ es /\ s ∈ slots e))
        (each es inputs (fun expression inputs => let* _ <- check_execution_deadline; include width inputs expression)) (Some tt)) as Hall.
    { induction es as [|e es IH]; intros inputs P Hin Hes; cbn [each].
      - apply refines_give. destruct Hin as [H1 H2]. split; [|done]. eapply mask_weaken; [exact H1|]. set_solver.
      - apply (refines_andthen (mask_rel (fun s => P s \/ s ∈ slots e)) _ _ _ (Some tt) (fun _ => Some tt)).
        + granted. apply include_refines; [done|]. intros s. apply Hes. by left.
        + intros inputs' [] _ H''. eapply refines_weaken; [apply IH; [exact H''|]|].
          * intros e' s He'. apply Hes. by right.
          * intros a [] _ [H1 H2]. split; [|done]. eapply mask_weaken; [exact H1|]. intros s. cbn beta. set_solver. }
    apply (refines_andthen (mask_rel read_later) _ _ _ (Some tt) (fun _ => Some tt)).
    + eapply refines_weaken; [apply (Hall (later p) Discard (fun _ => False))|].
      * split; [|done]. intros s Hs. exists false. by split.
      * apply (po_reads Hok).
      * intros a [] _ [H1 H2]. split; [|done]. eapply mask_weaken; [exact H1|]. intros s. unfold read_later. tauto.
    + intros inputs [] _ Hin. granted. by apply refines_give.
Qed.

(** Installing columns in rows that agree on [P]. *)
Lemma install_shows assignments row row' (P : Z -> Prop) : len row = width -> len row' = width -> row_ok row -> row_ok row' ->
  Forall (fun e => 0 <= e.1 < width /\ in_range e.2) assignments -> (forall s, P s -> row !! Z.to_nat s = row' !! Z.to_nat s) ->
  exists q q', install assignments row = Some q /\ install assignments row' = Some q' /\
    fits_row q /\ fits_row q' /\ forall s, P s \/ s ∈ assignments.*1 -> q !! Z.to_nat s = q' !! Z.to_nat s.
Proof.
  revert row row' P. induction assignments as [|[slot v] rest IH]; intros row row' P Hl Hl' Hr Hr' Ha HP.
  { exists row, row'. split_and!; try done. intros s [?|?%elem_of_nil]; [by apply HP|done]. }
  apply Forall_cons in Ha as [[Hs Hv] Ha]. cbn [install fst snd] in *. rewrite !assign_some by lia. cbn [mbind option_bind].
  destruct (IH (<[Z.to_nat slot := v]> row) (<[Z.to_nat slot := v]> row') (fun s => P s \/ s = slot)) as (q & q' & E & E' & Hq & Hq' & Hsame).
  1, 2: unfold len in *; by rewrite length_insert.
  1, 2: by apply Forall_insert.
  - done.
  - unfold len in *. intros s Hs'. destruct (decide (Z.to_nat s = Z.to_nat slot)) as [->|Hne]; [by rewrite !list_lookup_insert_eq by lia|].
    rewrite !list_lookup_insert_ne by done. destruct Hs' as [?| ->]; [by apply HP|done].
  - exists q, q'. split_and!; try done. intros s Hin. apply Hsame. rewrite fmap_cons, elem_of_cons in Hin. cbn [fst] in Hin. tauto.
Qed.

Lemma mapM_kept inputs (row : Row) (start : Z) : 0 <= start -> start + len row <= width -> mask_of inputs read_later ->
  exists base, mapM (fun e : Z * Value =>
      k ← keeps inputs e.1; Some (if k && negb (holds (projection_outputs (program p)) e.1) then e.2 else Null))
    (imap (fun i v => (start + Z.of_nat i, v)) row) = Some base /\ length base = length row /\
    (forall i v, base !! i = Some v -> v = Null \/ row !! i = Some v) /\
    forall i, read_later (start + Z.of_nat i) -> start + Z.of_nat i ∉ output_slots (program p) -> base !! i = row !! i.
Proof.
  intros Hstart Hrow Hmask. revert start Hstart Hrow. induction row as [|v row IH]; intros start Hstart Hrow.
  { exists []. split_and!; [done|done|done|]. intros i _ _. by rewrite !lookup_nil. }
  unfold len in Hrow. cbn [length] in Hrow. destruct (IH (start + 1)) as (base & E & Hl & Hv & Hb); [lia|unfold len; lia|].
  cbn [imap mapM fst snd]. rewrite Z.add_0_r. destruct (Hmask start ltac:(lia)) as (k & -> & Hk). cbn [mbind option_bind].
  rewrite (imap_ext _ (fun i v => (start + 1 + Z.of_nat i, v)) row) by (intros; unfold compose; f_equal; lia).
  rewrite E. cbn [mbind option_bind].
  eexists. split; [done|]. split_and!; [simpl; by rewrite Hl| |].
  - intros [|i] w Hw; cbn in Hw |- *; [|by apply Hv]. injection Hw as <-. destruct (k && _); auto.
  - intros [|i] Hread Hout; cbn; [|apply Hb; by replace (start + 1 + Z.of_nat i) with (start + Z.of_nat (S i)) by lia].
    rewrite Z.add_0_r in *. replace (start + Z.of_nat 0) with start in * by lia.
    assert (k = true) as -> by by apply Hk.
    destruct (holds (projection_outputs (program p)) start) eqn:Eh; [|done]. by apply holds_outputs in Eh.
Qed.

(** What [push_projection] builds shows the reference row. *)
Lemma projected_shows inputs row values : fits_row row -> mask_of inputs read_later -> row_ok values ->
  length values = length (QueryPlan.items (program p)) ->
  exists q q', projected_row row (program p) values inputs = Some q /\
    install (zip (output_slots (program p)) values) row = Some q' /\ shows q q'.
Proof.
  intros [Hl Hr] Hmask Hv Hlen. destruct (mapM_kept inputs row 0 ltac:(lia) ltac:(lia) Hmask) as (base & E & Hbl & Hbv & Hbs).
  assert (len base = width) as Hbw by (unfold len in *; by rewrite Hbl).
  assert ((zip (output_slots (program p)) values).*1 = output_slots (program p)) as Hfst
    by (apply fst_zip; unfold output_slots; rewrite length_map; lia).
  destruct (install_shows (zip (output_slots (program p)) values) base row
    (fun s => 0 <= s /\ read_later s /\ s ∉ output_slots (program p)) Hbw Hl) as (q & q' & Eq & Eq' & Hq & Hq' & Hs).
  - apply Forall_lookup. intros i v Hi. apply Hbv in Hi as [->|Hi]; [by apply in_range_plain|]. by eapply Forall_lookup in Hr.
  - done.
  - apply Forall_forall. intros [s v] Hin. split; cbn [fst snd].
    + apply elem_of_zip_l in Hin. by apply (po_columns Hok).
    + apply elem_of_zip_r in Hin. unfold row_ok in Hv. rewrite Forall_forall in Hv. by apply Hv.
  - intros s (Hs0 & Hread & Hout). apply Hbs; rewrite Z.add_0_l, Z2Nat.id by lia; done.
  - exists q, q'. split_and!.
    + unfold projected_row. assert (imap (fun i v => (Z.of_nat i, v)) row = imap (fun i v => (0 + Z.of_nat i, v)) row) as -> by done. by rewrite E.
    + done.
    + split; [done|done|]. intros s Hvis. apply Hs. rewrite Hfst.
      destruct (decide (s ∈ output_slots (program p))); [by right|]. left. destruct Hvis as [?|Hread]; [done|].
      split; [|done]. destruct Hread as (e & He & Hse). apply (po_reads Hok e s) in Hse; [lia|done].
Qed.

(** ** The steps of a projection *)

Lemma forall2_concat {A B} (E : A -> B -> Prop) ls l' : Forall2 E (concat ls) l' -> exists ls', concat ls' = l' /\ Forall2 (Forall2 E) ls ls'.
Proof.
  revert l'. induction ls as [|l ls IH]; intros l' H'; simpl in H'.
  - apply Forall2_nil_inv_l in H' as ->. exists []. by split.
  - apply Forall2_app_inv_l in H' as (a & b & Ha & Hb & ->). destruct (IH b Hb) as (ls' & <- & Hls). exists (a :: ls'). by split; [|constructor].
Qed.

(** Chunks are processed as one list. *)
Lemma refines_chunks {A B S T} (E : A -> B -> Prop) (P : S -> T -> Prop) rows rows' (body : list A -> S -> R StorageError S) f s t :
  Forall2 E rows rows' -> P s t ->
  (forall batch batch' s t, Forall2 E batch batch' -> P s t -> refines P (body batch s) (ofold f batch' t)) ->
  refines P (let* bs <- unwrap (chunks (batch_rows limits) rows); each bs s body) (ofold f rows' t).
Proof.
  intros Hrows Hst Hbody. destruct (chunks_concat (batch_rows limits) rows Hbatch) as (bs & -> & <-).
  destruct (forall2_concat E bs rows' Hrows) as (bs' & <- & Hbs). rewrite <- ofold_concat.
  apply refines_give_seq, (refines_each P (Forall2 E)); [done|done|]. intros batch batch' s' t' _ _ Hb. by apply Hbody.
Qed.

Lemma push_refines {A} (buffer : list Row) (row : Row) (P : list Row -> A -> Prop) b : P (buffer ++ [row]) b ->
  refines P (push_with (StorageError:=StorageError) buffer row) (Some b).
Proof. intros HP. unfold push_with. granted. by apply refines_give. Qed.

Lemma buffer_refines : refines (StorageError:=StorageError) (fun a (_ : unit) => [] = a) buffer_new (Some tt).
Proof. unfold buffer_new. granted. by apply refines_give. Qed.

Lemma fetch_computes : computes (StorageError:=StorageError) expression_graph_batch (Some tt).
Proof. unfold expression_graph_batch. granted. apply computes_attempt. Qed.
Hint Resolve fetch_computes : rows.

Lemma fits_fits rows : Forall fits_row rows -> Forall2 (fun a b => a = b /\ fits_row a) rows rows.
Proof. induction 1; by constructor. Qed.

Lemma project_refines inputs batch batch' buffer buffer' : Forall2 (fun a b => a = b /\ fits_row a) batch batch' ->
  mask_of inputs read_later -> Forall2 shows buffer buffer' ->
  refines (Forall2 shows) (project_batch (StorageError:=StorageError) nan powf graph parameters limits (program p) inputs batch buffer)
    (ofold (fun row s => y ← project_row nan powf graph parameters limits (program p) row; Some (s ++ [y])) batch' buffer').
Proof.
  intros Hb Hmask Hbuf. apply (refines_each (Forall2 shows) (fun a b => a = b /\ fits_row a)); [done|done|]. clear buffer buffer' Hbuf.
  intros row ? buffer buffer' _ _ [<- Hrow] Hbuf. granted. unfold project_row. rewrite option_bind_assoc.
  eapply refines_andthen; [by apply evaluate_refines; [apply (po_items Hok)|apply Hrow]|].
  intros ? values Hvalues [-> Hv]. cbn beta. apply length_mapM in Hvalues. unfold push_projection.
  rewrite Hvalues, Nat.eqb_refl. cbn [negb].
  destruct (projected_shows inputs row values Hrow Hmask Hv (eq_sym Hvalues)) as (q & q' & -> & Eq' & Hq). unfold compose. rewrite Eq'. cbn [mbind option_bind].
  granted. apply refines_give_seq, push_refines, Forall2_app; [done|]. by constructor.
Qed.

Lemma shows_value e row row' : e ∈ later p -> shows row row' -> value e row = value e row'.
Proof. intros He Hs. apply value_agrees. intros s Hse. apply (sh_same _ _ Hs). right. by exists e. Qed.

Lemma later_predicate f : predicate p = Some f -> selection_expression f ∈ later p.
Proof. intros E. unfold later. rewrite E. apply elem_of_app. right. by left. Qed.

Lemma later_ordering o : o ∈ ordering p -> order_expression o ∈ later p.
Proof. intros Ho. unfold later. apply elem_of_app. left. by apply list_elem_of_fmap_2. Qed.

Lemma later_well_formed e : e ∈ later p -> QueryEvalSafe.well_formed e.
Proof. intros He. pose proof (po_later Hok) as Hw. rewrite Forall_forall in Hw. by apply Hw. Qed.

Lemma passes_shows row row' : shows row row' ->
  passes nan powf graph parameters limits (predicate p) row = passes nan powf graph parameters limits (predicate p) row'.
Proof.
  intros Hs. unfold passes. destruct (predicate p) as [f|] eqn:E; [|done].
  by rewrite (shows_value _ row row' (later_predicate f E) Hs).
Qed.

Lemma filter_refines f rows rows' : predicate p = Some f -> Forall2 shows rows rows' ->
  refines (Forall2 shows) (filter_relation (StorageError:=StorageError) nan powf graph parameters limits rows f)
    (ofilter (passes nan powf graph parameters limits (predicate p)) rows').
Proof.
  intros Hf Hrows. unfold filter_relation.
  assert (ofilter (passes nan powf graph parameters limits (predicate p)) rows' =
    ofold (fun x s => b ← passes nan powf graph parameters limits (predicate p) x; Some (if b : bool then s ++ [x] else s)) rows' []) as ->
    by (rewrite ofold_filter; by destruct (ofilter _ rows')).
  apply (refines_seq (eq [])); [apply buffer_refines|]. intros ? <-. case_bool_decide as Enil.
  { subst rows. apply Forall2_nil_inv_l in Hrows as ->. apply refines_give_seq. by apply refines_give. }
  apply (refines_chunks shows); [done|constructor|]. intros batch batch' s t Hb Hst. granted.
  apply (refines_each (Forall2 shows) shows); [done|done|]. intros row row' buffer buffer' _ _ Hrow Hbuf. granted.
  rewrite <- (passes_shows row row' Hrow), Hf.
  eapply refines_andthen; [apply selects_refines; [by apply later_well_formed, later_predicate|apply (sh_row _ _ Hrow)]|].
  intros ? keep _ ->. destruct keep; [apply push_refines|apply refines_give; done].
  apply Forall2_app; [done|]. by constructor.
Qed.

(** ** Top-k *)

Lemma clear_shows row row' : shows row row' -> clear (program p) row = clear (program p) row'.
Proof.
  intros [[Hl _] [Hl' _] Hs]. unfold Row in *. apply list_eq. intros i. unfold clear. rewrite !list_lookup_imap.
  destruct (decide (Z.of_nat i ∈ output_slots (program p))) as [Hin|Hout].
  - specialize (Hs (Z.of_nat i) (or_introl Hin)). rewrite Nat2Z.id in Hs. by rewrite Hs.
  - assert (holds (projection_outputs (program p)) (Z.of_nat i) = false) as Eh
      by (destruct (holds _ _) eqn:E; [|done]; by apply holds_outputs in E).
    destruct (row !! i) eqn:E, (row' !! i) eqn:E'; simpl; rewrite ?Eh; try done; exfalso;
      apply lookup_lt_Some in E || apply lookup_lt_Some in E'; apply lookup_ge_None in E' || apply lookup_ge_None in E; unfold len in *; lia.
Qed.

Definition keyed_ok (e : KeyedRow) : Prop := length (keys e) = length (ordering p).

Definition rank (i : nat) (e : KeyedRow) : RankedRow :=
  {| rank_keys := keys e; rank_row := clear (program p) (keyed_row e); ordinal := Z.of_nat i |}.
Definition by_keys (a b : RankedRow) : comparison := order_padded (ordering p) (rank_keys a) (rank_keys b).

#[local] Instance by_keys_lawful : LawfulCompare by_keys.
Proof. apply (preimage_lawful rank_keys (order_padded (ordering p))). apply _. Qed.

Lemma rank_bound entries y : Forall keyed_ok entries -> y ∈ imap rank entries ->
  ordinal y < len entries /\ length (rank_keys y) = length (ordering p).
Proof.
  intros Hk Hy. apply list_elem_of_lookup in Hy as [i Hi]. rewrite list_lookup_imap in Hi.
  destruct (entries !! i) as [e|] eqn:E; [|done]. injection Hi as <-. split.
  - apply lookup_lt_Some in E. simpl. unfold len. lia.
  - rewrite Forall_lookup in Hk. by apply (Hk i).
Qed.

(** A later row never precedes an equal one. *)
Lemma ranked_later entries x y : Forall keyed_ok entries -> y ∈ imap rank entries -> ordinal x = len entries ->
  length (rank_keys x) = length (ordering p) ->
  ranked_cmp (ordering p) x y = match by_keys x y with Lt => Lt | _ => Gt end.
Proof.
  intros Hk Hy Ho Hx. destruct (rank_bound entries y Hk Hy) as [Hlt Hl]. unfold ranked_cmp, by_keys.
  rewrite order_keys_padded by done. assert ((ordinal x ?= ordinal y) = Gt) as -> by (apply Z.compare_gt_iff; lia).
  by destruct (order_padded _ _ _).
Qed.

Definition topk_rel (k : Z) (state : TopK * Z) (entries : list KeyedRow) : Prop :=
  keep state.1 = k /\ Forall keyed_ok entries /\
  (len entries <= umax 64 -> state.2 = len entries /\
    heap state.1 = take (Z.to_nat k) (BTree.sort_by by_keys (imap rank entries))).

Lemma topk_push_refines k state entries ks row : 0 <= k -> topk_rel k state entries -> length ks = length (ordering p) ->
  refines (StorageError:=StorageError) (fun t (_ : unit) => topk_rel k (t, sat_add 64 state.2 1) (entries ++ [{| keys := ks; keyed_row := row |}]))
    (topk_push (ordering p) state.1 {| rank_keys := ks; rank_row := clear (program p) row; ordinal := state.2 |}) (Some tt).
Proof.
  intros Hk (Hkeep & Hkeys & Hrel) Hks. set (x := {| rank_keys := ks; rank_row := clear (program p) row; ordinal := state.2 |}).
  set (e := {| keys := ks; keyed_row := row |}).
  assert (Forall keyed_ok (entries ++ [e])) as Hkeys' by (apply Forall_app; split; [done|]; by constructor).
  assert (forall h, (len entries <= umax 64 -> heap state.1 = take (Z.to_nat k) (BTree.sort_by by_keys (imap rank entries)) ->
      ordinal x = len entries -> bounded_place by_keys (Z.to_nat k) x (heap state.1) = h) ->
    topk_rel k ({| heap := h; keep := k |}, sat_add 64 state.2 1) (entries ++ [e])) as Hnext.
  { intros h Hh. split; [done|]. split; [done|]. unfold len in *. rewrite length_app. cbn [length]. intros Hlen.
    destruct Hrel as [Ho Hheap]; [lia|]. cbn [fst snd]. split; [rewrite Ho; unfold sat_add; lia|].
    rewrite imap_app. cbn [imap]. rewrite (take_sort_snoc by_keys), <- Hheap. rewrite <- Hh; [|lia|done|done]. f_equal.
    unfold x, rank, compose. rewrite Nat.add_0_r. by rewrite Ho. }
  assert (forall y, y ∈ heap state.1 -> len entries <= umax 64 -> ranked_cmp (ordering p) x y = match by_keys x y with Lt => Lt | _ => Gt end) as Hranked.
  { intros y Hy Hlen. destruct (Hrel Hlen) as [Ho Hheap]. apply (ranked_later entries); [done| |done|done].
    rewrite Hheap in Hy. apply (subseteq_take (Z.to_nat k)) in Hy. by rewrite (BTree.sort_by_perm by_keys) in Hy. }
  unfold topk_push. rewrite Hkeep. destruct (Z.eqb_spec k 0) as [Hk0|Hk0]; cbn [orb].
  { apply refines_give. replace state.1 with {| heap := heap state.1; keep := k |} by (rewrite <- Hkeep; by destruct state.1).
    apply Hnext. intros _ Hheap _. rewrite Hheap, Hk0. done. }
  destruct (last (heap state.1)) as [w|] eqn:Ew.
  - assert (w ∈ heap state.1) as Hw by by apply last_Some_elem_of.
    destruct ((k <=? len (heap state.1)) && negb (bool_decide (ranked_cmp (ordering p) x w = Lt))) eqn:Etest.
    + apply refines_give. replace state.1 with {| heap := heap state.1; keep := k |} by (rewrite <- Hkeep; by destruct state.1).
      apply Hnext. intros Hlen Hheap _. apply andb_prop in Etest as [Hle%Z.leb_le Hne%negb_true_iff%bool_decide_eq_false].
      unfold bounded_place. rewrite (proj2 (Nat.eqb_neq _ 0)), Ew, (proj2 (Nat.leb_le _ _)) by (unfold len in Hle; lia).
      rewrite (Hranked w Hw Hlen) in Hne. by destruct (by_keys x w).
    + set (retained := if len (heap state.1) =? k then removelast (heap state.1) else heap state.1).
      apply (refines_seq (eq retained)).
      { unfold retained. destruct (len (heap state.1) =? k); [|by apply refines_give].
        destruct (heap state.1); [done|]. by apply refines_give. }
      intros ? <-. granted. apply refines_give, Hnext. intros Hlen Hheap Ho.
      assert (length (heap state.1) <= Z.to_nat k)%nat as Hhl by (rewrite Hheap, length_take; lia).
      rewrite (sort_insert_place by_keys).
      2: { intros y Hy. apply Hranked; [|done]. unfold retained in Hy. destruct (len (heap state.1) =? k); [|done].
        apply last_Some in Ew as [h Eh]. rewrite Eh, removelast_last in Hy. rewrite Eh. apply elem_of_app. by left. }
      unfold bounded_place. rewrite (proj2 (Nat.eqb_neq _ 0)), Ew by lia. unfold retained.
      destruct (Z.eqb_spec (len (heap state.1)) k) as [El|El].
      * rewrite (proj2 (Nat.leb_le _ _)) by (unfold len in El; lia). rewrite (proj2 (Z.leb_le _ _)) in Etest by lia.
        cbn [andb] in Etest. apply negb_false_iff, bool_decide_eq_true in Etest. rewrite (Hranked w Hw Hlen) in Etest.
        by destruct (by_keys x w).
      * rewrite (proj2 (Nat.leb_gt _ _)) by (unfold len in El; lia). done.
  - apply last_None in Ew. rewrite Ew. destruct (Z.eqb_spec (len (@nil RankedRow)) k) as [E0|_]; [unfold len in E0; simpl in E0; lia|].
    apply refines_give_seq. granted. apply refines_give, Hnext. intros _ _ _. unfold bounded_place.
    rewrite (proj2 (Nat.eqb_neq _ 0)) by lia. by rewrite Ew.
Qed.

Notation project_row := (project_row nan powf graph parameters limits (program p)).
Notation passes := (passes nan powf graph parameters limits (predicate p)).
Notation keyed := (keyed nan powf graph parameters limits (ordering p)).
Notation reference := (reference nan powf graph parameters limits p).

(** A row that passes gives a keyed entry. *)
Definition rank_step (row : Row) (entries : list KeyedRow) : option (list KeyedRow) :=
  b ← passes row; if b : bool then e ← keyed row; Some (entries ++ [e]) else Some entries.

Lemma rank_fold rows entries : ofold rank_step rows entries = (fun es => entries ++ es) <$> (ofilter passes rows ≫= mapM keyed).
Proof.
  revert entries. induction rows as [|row rows IH]; intros entries; [cbn; by rewrite app_nil_r|]. cbn [ofold ofilter].
  assert (rank_step row entries = (b ← passes row; if b : bool then e ← keyed row; Some (entries ++ [e]) else Some entries)) as -> by done.
  destruct (passes row) as [[]|]; simpl; [..|done].
  - destruct (keyed row) as [e|] eqn:Ee; simpl.
    + rewrite IH. destruct (ofilter passes rows) as [kept|]; simpl; [|done]. rewrite Ee. simpl.
      destruct (mapM keyed kept); simpl; [|done]. by rewrite <- app_assoc.
    + destruct (ofilter passes rows) as [kept|]; simpl; [|done]. by rewrite Ee.
  - rewrite IH. by destruct (ofilter passes rows).
Qed.

(** Projecting batch by batch, before or after the entries of earlier batches. *)
Lemma batch_fold {S} (step : Row -> S -> option S) bs s :
  ofold (fun batch s => ys ← mapM project_row batch; ofold step ys s) bs s =
  ys ← mapM project_row (concat bs); ofold step ys s.
Proof.
  revert s. induction bs as [|b bs IH]; intros s; [done|]. cbn [ofold concat]. rewrite mapM_app.
  destruct (mapM project_row b) as [ys|]; simpl; [|done].
  destruct (ofold step ys s) as [t|] eqn:E; simpl.
  - rewrite IH. destruct (mapM project_row (concat bs)) as [zs|]; simpl; [|done]. by rewrite ofold_app, E.
  - destruct (mapM project_row (concat bs)) as [zs|]; simpl; [|done]. by rewrite ofold_app, E.
Qed.

Lemma ofilter_length {A} (f : A -> option bool) l k : ofilter f l = Some k -> (length k <= length l)%nat.
Proof.
  revert k. induction l as [|x l IH]; intros k; simpl; [by intros [= <-]|]. destruct (f x) as [[]|]; simpl; [..|done];
    destruct (ofilter f l) as [r|] eqn:E; simpl; try done; intros [= <-]; specialize (IH r eq_refl); simpl; lia.
Qed.

Lemma window_rest {A} (w : Window) (rows : list A) : 0 <= QueryRange.skip w -> 0 <= QueryRange.limit w -> len rows <= umax 64 ->
  drop (Z.to_nat (QueryRange.skip w)) (take (Z.to_nat (sat_add 64 (QueryRange.skip w) (QueryRange.limit w))) rows) = apply_window w rows.
Proof.
  destruct w as [s l]. unfold apply_window, sat_add, len. cbn [QueryRange.skip QueryRange.limit]. intros Hs Hl Hlen.
  destruct (Z.le_gt_cases (s + l) (umax 64)).
  - rewrite Z.min_l, Z2Nat.inj_add by lia. by rewrite take_drop_commute.
  - rewrite Z.min_r by lia. rewrite (take_ge rows) by lia. rewrite take_ge; [done|]. rewrite length_drop. lia.
Qed.

Lemma window_kept {A} (w : Window) (rows : list A) : 0 <= QueryRange.skip w -> 0 <= QueryRange.limit w -> len rows <= umax 64 ->
  drop (Z.to_nat (QueryRange.skip w)) (take (Z.to_nat (retained_rows w)) rows) = apply_window w rows.
Proof.
  intros Hs Hl Hlen. unfold retained_rows. destruct (Z.eqb_spec (QueryRange.limit w) 0) as [E|E]; [|by apply window_rest].
  unfold apply_window. rewrite E. change (Z.to_nat 0) with 0%nat. by rewrite !take_0, drop_nil.
Qed.

(** The ranked rows in order are the sorted rows, cleared. *)
Lemma ranks_sorted entries : Forall keyed_ok entries ->
  map rank_row (BTree.sort_by by_keys (imap rank entries)) =
  map (clear (program p)) (map keyed_row (BTree.sort_by (order_rows (ordering p)) entries)).
Proof.
  intros Hk. set (P r e := rank_keys r = keys e /\ rank_row r = clear (program p) (keyed_row e) /\ keyed_ok e).
  assert (Forall2 P (imap rank entries) entries) as HP.
  { apply Forall2_same_length_lookup_2; [apply length_imap|]. intros i r e Hr He. rewrite list_lookup_imap, He in Hr.
    injection Hr as <-. split_and!; [done|done|]. rewrite Forall_lookup in Hk. by apply (Hk i). }
  apply (sort_by_forall2 P by_keys (order_rows (ordering p))) in HP.
  - rewrite map_map. induction HP as [|r e rs es (_ & Hr & _) _ IH]; [done|]. simpl. by rewrite Hr, IH.
  - intros r e r' e' (Hr & _ & He) (Hr' & _ & He'). unfold by_keys, order_rows. rewrite Hr, Hr'. by rewrite order_keys_padded.
Qed.

Lemma keyed_length row e : keyed row = Some e -> keyed_ok e.
Proof.
  unfold RowSpec.keyed, sort_keys. destruct (mapM _ _) as [ks|] eqn:E; [|done]. intros [= <-]. unfold keyed_ok. simpl.
  apply length_mapM in E. by rewrite <- E, length_map.
Qed.

Lemma top_k_refines bs : distinct p = false -> ordering p <> [] -> Forall fits_row (concat bs) -> len (concat bs) <= umax 64 ->
  refines eq (top_k_batches (StorageError:=StorageError) nan powf graph parameters limits (map give bs) width p) (reference (concat bs)).
Proof.
  intros Hd Ho Hrows Hlen. unfold top_k_batches, RowSpec.reference.
  eapply refines_andthen; [apply window_refines, (po_window Hok)|]. intros ? w _ [-> [Hs Hl]].
  set (f := ys ← mapM project_row (concat bs); ofold rank_step ys []).
  assert ((projected ← mapM project_row (concat bs); kept ← ofilter passes projected;
     sorted ← ordered nan powf graph parameters limits (ordering p) (deduplicated p kept);
     Some (map (clear (program p)) (apply_window w sorted))) =
    entries ← f; Some (map (clear (program p)) (apply_window w (map keyed_row (BTree.sort_by (order_rows (ordering p)) entries))))) as ->.
  { unfold f. destruct (mapM project_row (concat bs)) as [ys|]; simpl; [|done]. rewrite rank_fold.
    destruct (ofilter passes ys) as [kept|]; simpl; [|done]. unfold deduplicated, ordered. rewrite Hd, bool_decide_false by done.
    by destruct (mapM keyed kept). }
  apply (refines_seq (fun inputs => mask_rel read_later inputs tt)); [eapply refines_weaken; [apply inputs_refine|by intros ? [] _]|].
  intros inputs [Hmask _]. granted.
  apply (refines_andthen (topk_rel (retained_rows w))).
  - unfold f. rewrite <- batch_fold. apply (refines_each _ (fun m batch => m = give batch /\ Forall fits_row batch)).
    { clear -Hrows. induction bs as [|b bs IH]; constructor; [split; [done|]|]; apply Forall_app in Hrows as [? ?]; auto. }
    { split; [done|]. split; [constructor|]. intros _. split; [done|]. cbn. by rewrite take_nil. }
    intros m batch state entries _ _ [-> Hbatch'] Hrel.
    apply refines_give_seq. granted. apply (refines_seq (eq [])); [apply buffer_refines|]. intros ? <-. eapply (refines_andthen (Forall2 shows)).
    { eapply refines_ext; [|apply project_refines; [by apply fits_fits|done|constructor]].
      rewrite (ofold_snoc project_row). by destruct (mapM project_row batch). }
    intros projected ys _ Hys.
    granted. apply (refines_each (topk_rel (retained_rows w)) shows); [done|done|].
    clear state entries Hrel. intros row row' [top_k ordinal] entries _ _ Hrow Hrel. unfold rank_step.
    apply (refines_andthen eq).
    { rewrite <- (passes_shows row row' Hrow). destruct (predicate p) as [g|] eqn:Eg; [|by apply refines_give].
      apply selects_refines; [by apply later_well_formed, later_predicate|apply (sh_row _ _ Hrow)]. }
    intros ? pass _ ->. destruct pass; [|by apply refines_give]. unfold RowSpec.keyed. rewrite option_bind_assoc.
    eapply (refines_andthen (fun a b => a = b /\ row_ok a)).
    { eapply refines_ext; [|apply sequence_refines; [|apply (sh_row _ _ Hrow)]].
      - unfold sort_keys. apply mapM_same. intros e (o & -> & Hin)%list_elem_of_fmap. by apply shows_value; [apply later_ordering|].
      - apply Forall_forall. intros e (o & -> & Hin)%list_elem_of_fmap. by apply later_well_formed, later_ordering. }
    intros ? ks Hks [-> _]. unfold compose. cbn [mbind option_bind]. rewrite (clear_shows row row' Hrow).
    eapply refines_seq; [|intros t Ht; apply refines_give; exact Ht].
    apply (topk_push_refines (retained_rows w) (top_k, ordinal)); [|done|].
    + unfold retained_rows. destruct (_ =? 0); [done|]. unfold sat_add, umax. lia.
    + unfold sort_keys in Hks. apply length_mapM in Hks. by rewrite <- Hks, length_map.
  - intros state entries Hf (_ & Hk & Hrel). apply refines_give.
    assert (len entries <= umax 64) as Hle.
    { unfold f in Hf. destruct (mapM project_row (concat bs)) as [ys|] eqn:Ey; [|done]. cbn [mbind option_bind] in Hf. rewrite rank_fold in Hf.
      destruct (ofilter passes ys) as [kept|] eqn:Ek; [|done]. cbn in Hf. destruct (mapM keyed kept) as [es|] eqn:Ee; [|done]. injection Hf as <-.
      apply length_mapM in Ey, Ee. apply ofilter_length in Ek. unfold len in *. lia. }
    destruct (Hrel Hle) as [_ ->]. rewrite <- skipn_map, <- firstn_map, ranks_sorted by done.
    rewrite window_kept; [|done|done|]. 2: { unfold len. rewrite !length_map, (BTree.sort_by_perm (order_rows _)). exact Hle. }
    unfold apply_window. by rewrite <- firstn_map, <- skipn_map.
Qed.

(** ** Materialized projection *)

Definition keyed_shows (a b : KeyedRow) : Prop := keys a = keys b /\ shows (keyed_row a) (keyed_row b).

Lemma columns_shows x x' y y' : shows x x' -> shows y y' ->
  order_columns (output_slots (program p)) x y = order_columns (output_slots (program p)) x' y'.
Proof.
  intros Hx Hy. assert (forall cols, (forall s, s ∈ cols -> s ∈ output_slots (program p)) -> order_columns cols x y = order_columns cols x' y') as H';
    [|by apply H'].
  induction cols as [|s cols IH]; intros Hs; [done|]. simpl. rewrite IH by (intros t Ht; apply Hs; by right).
  assert (visible s) as Hv by (left; apply Hs; by left). unfold row_column. by rewrite (sh_same _ _ Hx s Hv), (sh_same _ _ Hy s Hv).
Qed.

Lemma deduplicated_shows rows rows' : Forall2 shows rows rows' ->
  Forall2 shows (if distinct p then dedup_by (same (order_columns (output_slots (program p)))) (BTree.sort_by (order_columns (output_slots (program p))) rows) else rows)
    (deduplicated p rows').
Proof.
  intros Hr. unfold deduplicated. destruct (distinct p); [|done].
  apply (dedup_by_forall2 shows), (sort_by_forall2 shows); [..|done]; intros; by apply columns_shows.
Qed.

Lemma dedup_by_length {A} (same : A -> A -> bool) l : (length (dedup_by same l) <= length l)%nat.
Proof.
  assert (forall x l, length (dedup_from same x l) <= length l)%nat as H'.
  { intros x k. revert x. induction k as [|y k IH]; intros x; simpl; [done|]. destruct (same y x); [specialize (IH x)|specialize (IH y); simpl]; lia. }
  destruct l as [|x l]; [done|]. simpl. specialize (H' x l). lia.
Qed.

Lemma deduplicated_length rows : (length (deduplicated p rows) <= length rows)%nat.
Proof. unfold deduplicated. destruct (distinct p); [|done]. etransitivity; [apply dedup_by_length|]. by rewrite (BTree.sort_by_perm _ rows). Qed.

Lemma ordered_length rows sorted : ordered nan powf graph parameters limits (ordering p) rows = Some sorted -> length sorted = length rows.
Proof.
  unfold ordered. case_bool_decide; [by intros [= <-]|]. destruct (mapM keyed rows) as [es|] eqn:E; [|done]. intros [= <-].
  apply length_mapM in E. by rewrite length_map, (BTree.sort_by_perm _ es).
Qed.

Lemma filter_none rows : predicate p = None -> ofilter passes rows = Some rows.
Proof. intros E. unfold RowSpec.passes. rewrite E. induction rows as [|row rows IH]; [done|]. simpl. by rewrite IH. Qed.

Lemma unlimited w : row_limit p = None -> window nan powf graph parameters limits p = Some w -> QueryRange.limit w = umax 64.
Proof.
  intros E. pose proof (po_window Hok) as Hw. apply Forall_app in Hw as [Hs _]. unfold window, evaluate_window. rewrite E.
  rewrite (value_of_bind _ _ (fun z => 0 <= z)) by by apply meets_offset.
  destruct (value_of (window_offset _ _ _ _ _ _ _)) as [s|]; [|done]. cbn. by intros [= <-].
Qed.

(** Sorting by keys computed row by row. *)
Lemma keyed_refines bs rows' : Forall2 shows (concat bs) rows' ->
  refines (Forall2 keyed_shows)
    (each bs [] (fun batch entries =>
       let* _ <- expression_graph_batch;
       each batch entries (fun row entries =>
         let* keys <- query (eval_sequence nan powf graph parameters (collection_items limits) (map order_expression (ordering p)) row None);
         keyed_push (StorageError:=StorageError) entries keys row)))
    (mapM keyed rows').
Proof.
  intros Hrows. apply (refines_ext _ _ (ofold (fun row s => y ← keyed row; Some (s ++ [y])) rows' []));
    [rewrite ofold_snoc; by destruct (mapM keyed rows')|].
  destruct (forall2_concat shows bs rows' Hrows) as (bs' & <- & Hbs). rewrite <- ofold_concat.
  apply (refines_each (Forall2 keyed_shows) (Forall2 shows)); [done|constructor|]. intros batch batch' s t _ _ Hb Hst. granted.
  apply (refines_each (Forall2 keyed_shows) shows); [done|done|]. intros row row' s' t' _ _ Hrow Hst'.
  unfold RowSpec.keyed. rewrite !option_bind_assoc. eapply (refines_andthen (fun a b => a = b /\ row_ok a)).
  - eapply refines_ext; [|apply sequence_refines; [|apply (sh_row _ _ Hrow)]].
    + unfold sort_keys. apply mapM_same. intros e (o & -> & Hin)%list_elem_of_fmap. by apply shows_value; [apply later_ordering|].
    + apply Forall_forall. intros e (o & -> & Hin)%list_elem_of_fmap. by apply later_well_formed, later_ordering.
  - intros ? ks _ [-> _]. unfold compose, keyed_push. granted. apply refines_give. apply Forall2_app; [done|].
    constructor; [by split|constructor].
Qed.

Lemma keyed_all rows es : mapM keyed rows = Some es -> Forall keyed_ok es.
Proof.
  intros E%mapM_Some. induction E as [|row e rows es He _ IH]; constructor; [|done]. by apply (keyed_length row).
Qed.

Lemma sorted_shows entries es : Forall2 keyed_shows entries es ->
  Forall2 shows (map keyed_row (BTree.sort_by (order_rows (ordering p)) entries)) (map keyed_row (BTree.sort_by (order_rows (ordering p)) es)).
Proof.
  intros Hes. apply (sort_by_forall2 keyed_shows (order_rows (ordering p)) (order_rows (ordering p))) in Hes.
  - apply Forall2_fmap_2. eapply Forall2_impl; [exact Hes|]. by intros a b [_ ?].
  - intros x x' y y' [Hx _] [Hy _]. unfold order_rows. by rewrite Hx, Hy.
Qed.

(** The sort of [project_rows], when every row stays within the window's reach. *)
Lemma sort_refines (select : forall A, (A -> A -> comparison) -> nat -> list A -> list A) keep rows rows' : Forall2 shows rows rows' -> (ordering p = [] \/ len rows <= keep) ->
  refines (Forall2 shows)
    (if bool_decide (ordering p = []) then give rows
     else
       let* _ <- reserve;
       let* batches <- unwrap (chunks (batch_rows limits) rows);
       let* entries <- each batches [] (fun batch entries =>
         let* _ <- expression_graph_batch;
         each batch entries (fun row entries =>
           let* keys <- query (eval_sequence nan powf graph parameters (collection_items limits) (map order_expression (ordering p)) row None);
           keyed_push (StorageError:=StorageError) entries keys row));
       let order a b := order_keys (ordering p) (keys a) (keys b) in
       let entries := if keep <? len entries then take (Z.to_nat keep) (select KeyedRow order (Z.to_nat keep) entries) else entries in
       give (map keyed_row (BTree.sort_by order entries)))
    (ordered nan powf graph parameters limits (ordering p) rows').
Proof.
  intros Hrows Hkeep. unfold ordered. case_bool_decide as Eo; [by apply refines_give|]. destruct Hkeep as [?|Hkeep]; [done|]. granted.
  destruct (chunks_concat (batch_rows limits) rows Hbatch) as (bs & -> & <-). apply refines_give_seq.
  eapply refines_andthen; [by apply keyed_refines|]. intros entries es Hes Hshow. cbv zeta. apply refines_give.
  assert (len entries <= keep) as Hle.
  { apply length_mapM in Hes. apply Forall2_length in Hshow, Hrows. unfold len in *. lia. }
  rewrite (proj2 (Z.ltb_ge _ _)) by done. by apply sorted_shows.
Qed.

Lemma clear_all rows rows' : Forall2 shows rows rows' -> map (clear (program p)) rows = map (clear (program p)) rows'.
Proof. induction 1 as [|row row' rows rows' Hrow _ IH]; [done|]. simpl. by rewrite (clear_shows row row' Hrow), IH. Qed.

(** The end of [project_rows]: order, window and clear. *)
Definition arranged (select : forall A, (A -> A -> comparison) -> nat -> list A -> list A) (w : Window) (projected : list Row) : R StorageError (list Row) :=
  let* projected <-
    (if bool_decide (ordering p = []) then give projected
     else
       let* _ <- reserve;
       let* batches <- unwrap (chunks (batch_rows limits) projected);
       let* entries <- each batches [] (fun batch entries =>
         let* _ <- expression_graph_batch;
         each batch entries (fun row entries =>
           let* keys <- query (eval_sequence nan powf graph parameters (collection_items limits) (map order_expression (ordering p)) row None);
           keyed_push entries keys row));
       let order a b := order_keys (ordering p) (keys a) (keys b) in
       let keep := sat_add 64 (QueryRange.skip w) (QueryRange.limit w) in
       let entries := if keep <? len entries then take (Z.to_nat keep) (select _ order (Z.to_nat keep) entries) else entries in
       give (map keyed_row (BTree.sort_by order entries)));
  let* _ <- admitted "query exceeds its memory budget";
  let projected := drop (Z.to_nat (QueryRange.skip w)) (take (Z.to_nat (sat_add 64 (QueryRange.skip w) (QueryRange.limit w))) projected) in
  let* _ <- reserve;
  give (map (clear (program p)) projected).

(** The rows that [project_rows] keeps, however it arranges them. *)
Lemma project_rows_kept {B} (Q : list Row -> B -> Prop) (finish : Window -> list Row -> option B) select rows : aggregates p = false ->
  (forall w, window nan powf graph parameters limits p = Some w -> distinct p = true \/ ordering p = [] \/ QueryRange.limit w = umax 64) ->
  (forall w projected kept, window nan powf graph parameters limits p = Some w -> 0 <= QueryRange.skip w -> 0 <= QueryRange.limit w ->
    Forall2 shows projected kept -> len kept <= umax 64 -> refines Q (arranged select w projected) (finish w kept)) ->
  Forall fits_row rows -> len rows <= umax 64 ->
  refines Q (project_rows (StorageError:=StorageError) nan powf graph parameters limits select rows width p)
    (w ← window nan powf graph parameters limits p; projected ← mapM project_row rows; kept ← ofilter passes projected;
     finish w (deduplicated p kept)).
Proof.
  intros Hagg Htop Hfinish Hrows Hlen. unfold project_rows. unfold aggregates in Hagg. rewrite Hagg. cbn [negb andb].
  eapply refines_andthen; [apply window_refines, (po_window Hok)|]. intros ? w Hw [-> [Hs Hl]]. cbv zeta.
  assert (negb (distinct p) && negb (bool_decide (ordering p = [])) && negb (QueryRange.limit w =? umax 64) = false) as ->.
  { destruct (Htop w Hw) as [-> |[-> | ->]]; [done| |by rewrite Z.eqb_refl, andb_false_r]. by rewrite bool_decide_eq_true_2, andb_false_r. }
  apply (refines_seq (eq [])); [apply buffer_refines|]. intros ? <-.
  eapply (refines_andthen (Forall2 shows)).
  { apply (refines_seq (fun inputs => mask_rel read_later inputs tt)); [eapply refines_weaken; [apply inputs_refine|by intros ? [] _]|].
    intros inputs [Hmask _]. apply (refines_ext _ _ (ofold (fun row s => y ← project_row row; Some (s ++ [y])) rows []));
      [rewrite ofold_snoc; by destruct (mapM project_row rows)|].
    apply (refines_chunks (fun a b => a = b /\ fits_row a)); [by apply fits_fits|constructor|]. intros batch batch' s t Hb Hst. granted.
    by apply project_refines. }
  intros projected ys Hys Hshow. eapply (refines_andthen (Forall2 shows)).
  { destruct (predicate p) as [f|] eqn:Ef; [granted; rewrite <- Ef; by apply filter_refines|].
    rewrite <- Ef, filter_none by done. by apply refines_give. }
  clear projected Hshow. intros projected kept Hkept Hshow.
  apply (refines_seq (fun a => Forall2 shows a (deduplicated p kept))).
  { pose proof (deduplicated_shows _ _ Hshow) as Hd. destruct (distinct p); [granted|]; by apply refines_give. }
  clear projected Hshow. intros projected Hshow. apply (Hfinish w projected (deduplicated p kept) Hw Hs Hl Hshow).
  apply length_mapM in Hys. apply ofilter_length in Hkept. pose proof (deduplicated_length kept). unfold len in *. lia.
Qed.

(** Whether [project_rows] keeps only the best rows of the batches. *)
Lemma bounded_or_not :
  (distinct p = false /\ ordering p <> [] /\ exists w, window nan powf graph parameters limits p = Some w /\ QueryRange.limit w <> umax 64) \/
  (forall w, window nan powf graph parameters limits p = Some w -> distinct p = true \/ ordering p = [] \/ QueryRange.limit w = umax 64).
Proof.
  destruct (distinct p); [right; by left|]. destruct (ordering p) as [|o os]; [right; by right; left|].
  destruct (window nan powf graph parameters limits p) as [w|]; [|by right].
  destruct (decide (QueryRange.limit w = umax 64)); [right; intros ? [= <-]; by right; right|left; split_and!; [done|done|by exists w]].
Qed.

Lemma project_rows_refines select rows : aggregates p = false -> distinct p = false \/ ordering p = [] \/ row_limit p = None ->
  Forall fits_row rows -> len rows <= umax 64 ->
  refines eq (project_rows (StorageError:=StorageError) nan powf graph parameters limits select rows width p) (reference rows).
Proof.
  intros Hagg Hplain Hrows Hlen.
  destruct bounded_or_not as [(Hd & Ho & w & Hw & Hl)|Hall].
  - unfold project_rows. unfold aggregates in Hagg. rewrite Hagg. cbn [negb andb]. unfold RowSpec.reference.
    eapply refines_andthen; [apply window_refines, (po_window Hok)|]. intros ? w' Hw' [-> [Hs Hl']]. cbv zeta.
    change (value_of _ = Some w') with (window nan powf graph parameters limits p = Some w') in Hw'. rewrite Hw in Hw'. injection Hw' as <-.
    rewrite Hd, bool_decide_false, (proj2 (Z.eqb_neq _ _) Hl) by done. cbn [negb andb].
    destruct (chunks_concat (batch_rows limits) rows Hbatch) as (bs & -> & <-). apply refines_give_seq.
    eapply refines_ext; [|by apply top_k_refines]. unfold RowSpec.reference. by rewrite Hw.
  - apply (project_rows_kept eq (fun w kept => sorted ← ordered nan powf graph parameters limits (ordering p) kept;
      Some (map (clear (program p)) (apply_window w sorted)))); try done.
    intros w projected kept Hw Hs Hl Hshow Hkl. unfold arranged. eapply (refines_andthen (Forall2 shows)).
    { apply (sort_refines select); [done|]. destruct (decide (ordering p = [])) as [|Eo]; [by left|right].
      apply Forall2_length in Hshow as El. unfold len in *. rewrite El.
      assert (QueryRange.limit w = umax 64) as ->; [|unfold sat_add; lia].
      destruct Hplain as [Hd|[?|Hnone]]; [|done|by apply unlimited]. destruct (Hall w Hw) as [?|[?|?]]; congruence. }
    intros final sorted Hsorted Hfinal. granted. apply refines_give.
    apply ordered_length in Hsorted. apply Forall2_length in Hfinal as El.
    rewrite window_rest by (done || unfold len in *; lia). apply clear_all. unfold apply_window. by apply Forall2_take, Forall2_drop.
Qed.

(** The code's order of keyed rows is total on rows with a key for each column. *)
Lemma order_rows_padded entries x y : Forall keyed_ok entries -> x ∈ entries -> y ∈ entries ->
  order_rows (ordering p) x y = order_padded (ordering p) (keys x) (keys y).
Proof. rewrite Forall_forall. intros Hk Hx Hy. apply order_keys_padded; by apply Hk. Qed.

(** Any sorted permutation of what the rows show shows such a permutation. *)
Lemma shown_order entries es order : Forall2 keyed_shows entries es -> order ≡ₚ entries ->
  StronglySorted (fun a b => order_rows (ordering p) a b <> Gt) order ->
  exists order', order' ≡ₚ es /\ StronglySorted (fun a b => order_rows (ordering p) a b <> Gt) order' /\ Forall2 keyed_shows order order'.
Proof.
  intros Hes Hp Hs. destruct (Permutation_Forall2 (symmetry Hp) Hes) as (order' & Hp' & Ho). exists order'. split_and!; [done| |done].
  clear -Hs Ho. induction Ho as [|x y order order' [Hk _] Ho IH]; constructor; apply StronglySorted_inv in Hs as [Hs Hx]; [by apply IH|].
  clear -Hk Hx Ho. induction Ho as [|a b l l' [Ha _] _ IH]; constructor; apply Forall_cons in Hx as [Hxa Hx]; [|by apply IH].
  unfold order_rows in *. by rewrite <- Hk, <- Ha.
Qed.

(** Sorting after any selection. *)
Lemma arranged_order select w entries : select_contract select -> 0 <= QueryRange.skip w -> 0 <= QueryRange.limit w ->
  Forall keyed_ok entries -> len entries <= umax 64 ->
  let keep := sat_add 64 (QueryRange.skip w) (QueryRange.limit w) in
  exists order, order ≡ₚ entries /\ StronglySorted (fun a b => order_rows (ordering p) a b <> Gt) order /\
    take (Z.to_nat keep) (BTree.sort_by (order_rows (ordering p))
      (if keep <? len entries then take (Z.to_nat keep) (select KeyedRow (order_rows (ordering p)) (Z.to_nat keep) entries) else entries)) =
    take (Z.to_nat keep) order.
Proof.
  intros Hsel Hs Hl Hk Hlen keep.
  pose proof (preimage_lawful keys (order_padded (ordering p))) as Hlaw.
  set (padded := fun x y : KeyedRow => order_padded (ordering p) (keys x) (keys y)) in *.
  assert (forall x y, x ∈ entries -> y ∈ entries -> order_rows (ordering p) x y = padded x y) as Hc by (intros x y; by apply order_rows_padded).
  destruct (Z.ltb_spec keep (len entries)) as [Hlt|Hge].
  - destruct (select_sorted select (order_rows (ordering p)) padded (Z.to_nat keep) entries) as (s & Hp & Hss & E);
      [done|by apply Hlaw, _|done|unfold len in *; unfold keep, sat_add, umax in *; lia|].
    exists s. split_and!; [done|done|]. rewrite E. by rewrite take_take, Nat.min_id.
  - exists (BTree.sort_by (order_rows (ordering p)) entries). split_and!; [apply BTree.sort_by_perm| |done].
    rewrite (sort_by_ext _ padded) by done. assert (LawfulCompare padded) by (apply Hlaw, _).
    pose proof (BTree.sort_by_sorted padded entries) as Hss. pose proof (BTree.sort_by_perm padded entries) as Hp.
    assert (forall x, x ∈ BTree.sort_by padded entries -> x ∈ entries) as Hin by (intros x; by rewrite Hp).
    clear Hp. induction Hss as [|x s Hss IH Hx]; constructor; [apply IH; intros y Hy; apply Hin; by right|].
    rewrite Forall_forall in Hx |- *. intros y Hy. rewrite Hc; [by apply Hx|apply Hin; by left|apply Hin; by right].
Qed.

(** DISTINCT before ORDER BY with a limit selects before it sorts: rows of equal keys come in some order. *)
Lemma project_rows_answers select rows : select_contract select -> aggregates p = false -> distinct p = true -> ordering p <> [] ->
  Forall fits_row rows -> len rows <= umax 64 ->
  refines (answers p) (project_rows (StorageError:=StorageError) nan powf graph parameters limits select rows width p)
    (candidates nan powf graph parameters limits p rows).
Proof.
  intros Hsel Hagg Hd Ho Hrows Hlen.
  apply (project_rows_kept (answers p) (fun w kept => entries ← mapM keyed kept; Some (w, entries))); try done; [by left|].
  intros w projected kept Hw Hs Hl Hshow Hkl. unfold arranged. rewrite bool_decide_false by done.
  set (keep := sat_add 64 (QueryRange.skip w) (QueryRange.limit w)).
  apply (refines_ext _ _ (c ← (entries ← mapM keyed kept; Some (w, entries)); Some c)); [by destruct (mapM keyed kept)|].
  apply (refines_andthen (fun sorted c => exists order, order ≡ₚ c.2 /\ StronglySorted (fun a b => order_rows (ordering p) a b <> Gt) order /\
    c.1 = w /\ len c.2 <= umax 64 /\ Forall2 shows (take (Z.to_nat keep) sorted) (map keyed_row (take (Z.to_nat keep) order)))).
  - granted. destruct (chunks_concat (batch_rows limits) projected Hbatch) as (bs & -> & <-). apply refines_give_seq.
    eapply refines_andthen; [by apply keyed_refines|]. intros entries es Hes Hshows. cbv zeta. apply refines_give.
    assert (len es <= umax 64) as Hel by (apply length_mapM in Hes; unfold len in *; lia).
    assert (len entries = len es) as Hle by (apply Forall2_length in Hshows; unfold len; lia).
    assert (Forall keyed_ok entries) as Hk.
    { apply keyed_all in Hes. clear -Hes Hshows. induction Hshows as [|a b l l' [Hab _] _ IH]; constructor; apply Forall_cons in Hes as [Hb Hes]; [|by apply IH].
      unfold keyed_ok. by rewrite Hab. }
    destruct (arranged_order select w entries) as (order & Hp & Hso & E); [done..|by rewrite Hle|].
    destruct (shown_order entries es order Hshows Hp Hso) as (order' & Hp' & Hso' & Hoo). exists order'. split_and!; try done.
    fold keep in E. unfold order_rows in E. rewrite firstn_map, E. clear -Hoo.
    apply Forall2_fmap_2, Forall2_take. eapply Forall2_impl; [exact Hoo|]. by intros a b [_ ?].
  - intros sorted [w' es] _ (order & Hp & Hso & Ew & Hel & Hshows). cbn [fst snd] in *. subst w'. granted. apply refines_give.
    exists order. split_and!; [done|done|]. fold keep. cbn [fst].
    apply (Forall2_drop _ _ _ (Z.to_nat (QueryRange.skip w))) in Hshows. rewrite (clear_all _ _ Hshows). do 2 f_equal.
    rewrite skipn_map. f_equal. apply window_rest; [done|done|]. unfold len in *. by rewrite Hp.
Qed.
End Simulation.
End RowSpec.
