(* ===== verification/RowBatches.v ===== *)
(** The batch-at-a-time row operators: DISTINCT and windowed projection over input
    that arrives in batches, against the reference of the rows all at once. *)
From S2P Require Import Prelude Bytes BTree QueryValue QueryRange QueryOperators QueryExpression QueryMonad QueryAggregate QueryEval QueryEvalSafe QueryRelocate QueryPlan QueryPlanSpec RowMonad RowSort Rows RowSpec.

Open Scope Z_scope.

Module RowBatches.
Export RowSpec.
Import QueryRelocate.

(** ** Windows over growing input *)

(** The state after the rows [seen]. *)
Definition windowed (w : Window) (seen : list Row) (st : Windowed) : Prop :=
  to_skip st = Z.max 0 (skip w - len seen) /\ output st = apply_window w seen.

Lemma apply_window_snoc {A} (w : Window) (seen : list A) x : 0 <= skip w -> 0 <= limit w ->
  apply_window w (seen ++ [x]) =
    if (skip w <=? len seen) && (len (apply_window w seen) <? limit w) then apply_window w seen ++ [x] else apply_window w seen.
Proof.
  intros Hs Hl. unfold apply_window, len. rewrite length_take, length_drop. destruct (Z.leb_spec (skip w) (Z.of_nat (length seen))); cbn [andb].
  - rewrite drop_app_le by lia. destruct (Z.ltb_spec (Z.of_nat (Z.to_nat (limit w) `min` (length seen - Z.to_nat (skip w)))) (limit w)).
    + rewrite !take_ge; [done|..]; rewrite ?length_app, length_drop; simpl; lia.
    + rewrite take_app_le; [done|]. rewrite length_drop. lia.
  - rewrite !drop_ge; [by rewrite take_nil|..]; rewrite ?length_app; simpl; lia.
Qed.

(** A full window does not change. *)
Lemma apply_window_full {A} (w : Window) (seen rest : list A) : 0 <= limit w -> limit w <= len (apply_window w seen) ->
  apply_window w (seen ++ rest) = apply_window w seen.
Proof.
  intros Hl. unfold apply_window, len. rewrite length_take, length_drop. intros Hfull.
  destruct (decide (Z.to_nat (limit w) = 0%nat)) as [->|Hne]; [done|].
  rewrite drop_app_le by lia. rewrite take_app_le; [done|]. rewrite length_drop. lia.
Qed.

Lemma window_step {StorageError} w seen st row : 0 <= skip w -> 0 <= limit w -> windowed w seen st ->
  refines (StorageError:=StorageError) (fun st (_ : unit) => windowed w (seen ++ [row]) st)
    (if 0 <? to_skip st then give {| to_skip := to_skip st - 1; output := output st |}
     else if len (output st) <? limit w then
       let* rows <- push_with (output st) row; give {| to_skip := to_skip st; output := rows |}
     else give st) (Some tt).
Proof.
  intros Hs Hl [Hskip Hout]. unfold windowed. rewrite apply_window_snoc, <- Hout by done.
  assert (len (seen ++ [row]) = len seen + 1) as -> by (unfold len; rewrite length_app; simpl; lia).
  destruct (Z.ltb_spec 0 (to_skip st)).
  - apply refines_give. rewrite (proj2 (Z.leb_gt _ _)) by lia. split; [simpl; lia|done].
  - rewrite (proj2 (Z.leb_le (skip w) (len seen))) by lia. cbn [andb]. destruct (len (output st) <? limit w).
    + apply (refines_seq (eq (output st ++ [row]))); [by apply push_refines|]. intros ? <-. apply refines_give. split; [simpl; lia|done].
    + apply refines_give. split; [simpl; lia|done].
Qed.

Lemma window_steps {StorageError} w rows seen st : 0 <= skip w -> 0 <= limit w -> windowed w seen st ->
  refines (StorageError:=StorageError) (fun st (_ : unit) => windowed w (seen ++ rows) st)
    (each rows st (fun row state =>
       if 0 <? to_skip state then give {| to_skip := to_skip state - 1; output := output state |}
       else if len (output state) <? limit w then
         let* rows <- push_with (output state) row; give {| to_skip := to_skip state; output := rows |}
       else give state)) (Some tt).
Proof.
  intros Hs Hl. revert seen st. induction rows as [|row rows IH]; intros seen st Hst; cbn [each].
  { apply refines_give. by rewrite app_nil_r. }
  eapply refines_seq; [by apply window_step|]. intros st' Hst'.
  eapply refines_weaken; [by apply IH|]. intros a [] _. by rewrite <- app_assoc.
Qed.

(** ** A sorted set of at most [keep] rows *)

Section Distinct.
Context (slots : list Z).
Notation cmp := (order_columns slots).
Definition first_distinct (rows : list Row) : list Row := dedup_by (same cmp) (BTree.sort_by cmp rows).

Lemma distinct_insert_refines {StorageError} keep row entries seen : 0 <= keep ->
  entries = take (Z.to_nat keep) (first_distinct seen) ->
  refines (StorageError:=StorageError) (fun es (_ : unit) => es = take (Z.to_nat keep) (first_distinct (seen ++ [row])))
    (distinct_insert slots keep row entries) (Some tt).
Proof.
  intros Hk He. unfold first_distinct. rewrite (take_dedup_snoc cmp). fold (first_distinct seen). rewrite <- He.
  assert (length entries <= Z.to_nat keep)%nat as Hlen by (rewrite He, length_take; lia).
  unfold distinct_insert. fold (same cmp row). change (fun entry => is_eq (cmp row entry)) with (same cmp row).
  destruct (existsb (same cmp row) entries) eqn:Ein.
  { rewrite !orb_true_r. by apply refines_give. }
  rewrite orb_false_r. unfold bounded_place. destruct (Z.eqb_spec keep 0) as [Hk0|Hk0]; cbn [orb].
  { apply refines_give. rewrite Hk0. simpl. destruct entries; [done|]. simpl in Hlen. lia. }
  rewrite (proj2 (Nat.eqb_neq _ 0)) by lia.
  assert (forall l, (forall y, y ∈ l -> y ∈ entries) -> BTree.sort_insert cmp row l = place cmp row l) as Hplace.
  { intros l Hl. apply sort_insert_place. intros y Hy%Hl. destruct (cmp row y) eqn:E; try done. exfalso.
    assert (existsb (same cmp row) entries = true) as Ht; [|by rewrite Ein in Ht]. apply existsb_exists. exists y.
    split; [by apply list_elem_of_In|]. unfold same. by rewrite E. }
  destruct (last entries) as [w|] eqn:Ew.
  - apply last_Some in Ew as [h ->]. rewrite removelast_last. unfold len in *. rewrite length_app in *. cbn [length] in *.
    destruct (Z.eqb_spec (Z.of_nat (length h + 1)) keep) as [El|El]; cbn [andb].
    + rewrite (proj2 (Nat.leb_le _ _)) by lia. case_bool_decide as Ec; cbn [negb].
      * rewrite Ec. apply (refines_seq (eq h)); [destruct h; by apply refines_give|]. intros ? <-. granted. apply refines_give, Hplace.
        intros y Hy. apply elem_of_app. by left.
      * apply refines_give. by destruct (cmp row w).
    + rewrite (proj2 (Nat.leb_gt _ _)) by lia. apply refines_give_seq. granted. by apply refines_give, Hplace.
  - apply last_None in Ew. rewrite andb_false_r. rewrite Ew in *. unfold len. cbn [length].
    rewrite (proj2 (Z.eqb_neq (Z.of_nat 0) keep)) by lia. apply refines_give_seq. granted. by apply refines_give, Hplace.
Qed.

Lemma distinct_inserts {StorageError} keep rows entries seen : 0 <= keep ->
  entries = take (Z.to_nat keep) (first_distinct seen) ->
  refines (StorageError:=StorageError) (fun es (_ : unit) => es = take (Z.to_nat keep) (first_distinct (seen ++ rows)))
    (each rows entries (fun row entries => let* _ <- check_execution_deadline; distinct_insert slots keep row entries)) (Some tt).
Proof.
  intros Hk. revert entries seen. induction rows as [|row rows IH]; intros entries seen He; cbn [each].
  { apply refines_give. by rewrite app_nil_r. }
  eapply refines_seq; [granted; by apply distinct_insert_refines|]. intros es Hes.
  eapply refines_weaken; [exact (IH es (seen ++ [row]) Hes)|]. intros a [] _. by rewrite <- app_assoc.
Qed.
End Distinct.

(** The rows of a window, copied from numbered entries. *)
Lemma window_copy {StorageError} (w : Window) (entries : list Row) : 0 <= skip w -> 0 <= limit w ->
  refines (StorageError:=StorageError) (fun out (_ : unit) => out = apply_window w entries)
    (each (imap pair entries) [] (fun '(index, entry) output =>
       let* _ <- check_execution_deadline;
       if (Z.of_nat index <? skip w) || (limit w <=? len output) then give output else push_with output entry)) (Some tt).
Proof.
  intros Hs Hl. assert (forall rest seen, refines (StorageError:=StorageError) (fun out (_ : unit) => out = apply_window w (seen ++ rest))
    (each (imap (fun i e => (length seen + i, e)%nat) rest) (apply_window w seen) (fun '(index, entry) output =>
       let* _ <- check_execution_deadline;
       if (Z.of_nat index <? skip w) || (limit w <=? len output) then give output else push_with output entry)) (Some tt)) as Hall.
  { induction rest as [|x rest IH]; intros seen; cbn [imap each]; [apply refines_give; by rewrite app_nil_r|].
    apply (refines_seq (eq (apply_window w (seen ++ [x])))).
    - granted. rewrite Nat.add_0_r, apply_window_snoc by done. fold (len seen).
      rewrite (Z.ltb_antisym (skip w)), (Z.leb_antisym (len (apply_window w seen))), <- negb_andb. destruct (_ && _); [|by apply refines_give]. by apply push_refines.
    - intros ? <-. rewrite cons_middle, app_assoc.
      replace (imap _ rest) with (imap (fun i e => (length (seen ++ [x]) + i, e)%nat) rest); [apply IH|].
      apply imap_ext. intros i e _. unfold compose. rewrite length_app. simpl. f_equal. lia. }
  specialize (Hall entries []). unfold apply_window at 2 in Hall. rewrite drop_nil, take_nil in Hall. exact Hall.
Qed.
(** ** Batches of a projection *)

Section Batches.
Context `{TextLibrary} (nan : Z) (powf : Z -> Z -> Z).
Context (graph : GraphValues) (parameters : list (bytes * Value)) (limits : Limits) {StorageError : Type}.
Context (select : forall A, (A -> A -> comparison) -> nat -> list A -> list A).
Context (Hmax : 0 <= collection_items limits) (Hbatch : 0 < batch_rows limits).
Context (Hgraph : forall entity m, graph_properties graph entity = Ok m ->
  Forall (fun entry => forall v, entry.2 = Ok v -> in_range v) m).
Context (Hparams : in_range (Map parameters)).
Context (width : Z) (Hwidth : 0 <= width) (p : RowProjection) (Hok : projection_ok width p) (Hplain : aggregates p = false).

Notation reference := (reference nan powf graph parameters limits).
Notation project_row := (project_row nan powf graph parameters limits (program p)).
Notation passes := (passes nan powf graph parameters limits (predicate p)).
Notation columns := (output_slots (program p)).

(** The rows a batch gives. *)
Definition batch_rows_of (rows : list Row) : option (list Row) :=
  projected ← mapM project_row rows; kept ← ofilter passes projected; Some (map (clear (program p)) kept).

Lemma batch_rows_app rows rows' :
  batch_rows_of (rows ++ rows') = a ← batch_rows_of rows; b ← batch_rows_of rows'; Some (a ++ b).
Proof.
  unfold batch_rows_of. rewrite mapM_app. destruct (mapM project_row rows) as [a|]; simpl; [|done].
  destruct (mapM project_row rows') as [b|]; simpl; [rewrite ofilter_app|]; destruct (ofilter passes a) as [a'|]; simpl; try done.
  destruct (ofilter passes b) as [b'|]; simpl; [|done]. by rewrite map_app.
Qed.

Lemma batch_rows_length rows out : batch_rows_of rows = Some out -> (length out <= length rows)%nat.
Proof.
  unfold batch_rows_of. destruct (mapM project_row rows) as [a|] eqn:E; simpl; [|done].
  destruct (ofilter passes a) as [b|] eqn:E'; simpl; [|done]. intros [= <-]. rewrite length_map.
  apply length_mapM in E. apply ofilter_length in E'. lia.
Qed.

(** Window and order aside, the reference filters the projected rows. *)
Lemma reference_rows rows : ordering p = [] ->
  reference p rows = w ← window nan powf graph parameters limits p; kept ← batch_rows_of rows;
    Some (apply_window w (if distinct p then first_distinct columns kept else kept)).
Proof.
  intros Ho. unfold RowSpec.reference, batch_rows_of. destruct (window _ _ _ _ _ p) as [w|]; simpl; [|done].
  destruct (mapM project_row rows) as [a|]; simpl; [|done]. destruct (ofilter passes a) as [b|]; simpl; [|done].
  unfold ordered. rewrite bool_decide_true by done. simpl. unfold apply_window. f_equal. rewrite <- firstn_map, <- skipn_map. do 2 f_equal.
  unfold deduplicated. destruct (distinct p); [|done]. unfold first_distinct.
  set (P (a c : Row) := c = clear (program p) a).
  assert (Forall2 P b (map (clear (program p)) b)) as HP by (induction b; by constructor).
  assert (forall x x' y y', P x x' -> P y y' -> order_columns columns x y = order_columns columns x' y') as Hcmp.
  { intros x x' y y' -> ->. assert (forall row s, s ∈ columns -> row_column (clear (program p) row) s = row_column row s) as Hc.
    { intros row s Hin. pose proof (po_columns width p Hok s Hin). apply (holds_outputs width p Hok) in Hin.
      unfold row_column, clear. unfold Row. rewrite list_lookup_imap, Z2Nat.id, Hin by lia. unfold Row in row. by destruct (_ !! _). }
    induction columns as [|s cols IH]; [done|]. simpl. rewrite IH by (intros; apply Hc; by right). by rewrite !Hc by by left. }
  apply (sort_by_forall2 P _ _ Hcmp), (dedup_by_forall2 P _ _ Hcmp) in HP.
  induction HP as [|x y k k' Hy _ IH]; [done|]. simpl. by rewrite IH, Hy.
Qed.

Lemma unordered_ok : projection_ok width (unordered p).
Proof.
  destruct Hok as [H1 H2 H3 H4 H5 H6]. constructor; [done| |constructor|done|done|].
  - apply Forall_app in H2 as [_ H2]. done.
  - intros e s He. apply H6. apply elem_of_app. by right.
Qed.

(** A batch, projected by itself, gives its rows. *)
Lemma batch_refines rows : Forall (fits_row width) rows -> len rows <= umax 64 ->
  refines eq (project_rows (StorageError:=StorageError) nan powf graph parameters limits select rows width (unordered p)) (batch_rows_of rows).
Proof.
  intros Hrows Hlen. eapply refines_ext; [|apply project_rows_refines; try done; [apply unordered_ok|by left]].
  unfold RowSpec.reference, batch_rows_of.
  assert (window nan powf graph parameters limits (unordered p) = Some {| skip := 0; limit := umax 64 |}) as -> by done.
  cbn [mbind option_bind program predicate unordered].
  destruct (mapM project_row rows) as [a|] eqn:Ea; cbn [mbind option_bind]; [|done].
  destruct (ofilter passes a) as [b|] eqn:Eb; cbn [mbind option_bind]; [|done].
  unfold apply_window, deduplicated. cbn [ordering distinct unordered ordered skip limit mbind option_bind].
  unfold ordered. rewrite bool_decide_true by done. cbn [mbind option_bind]. rewrite take_ge; [done|]. apply length_mapM in Ea. apply ofilter_length in Eb.
  rewrite drop_0. unfold len in Hlen. lia.
Qed.

(** The projection of several batches, kept in a state that shows the rows so far. *)
Lemma batches_fold bs seen :
  ofold (fun batch seen => xs ← batch_rows_of batch; Some (seen ++ xs)) bs seen = xs ← batch_rows_of (concat bs); Some (seen ++ xs).
Proof.
  revert seen. induction bs as [|b bs IH]; intros seen; [simpl; by rewrite app_nil_r|]. cbn [ofold concat]. rewrite batch_rows_app.
  destruct (batch_rows_of b) as [x|]; simpl; [|done]. rewrite IH. destruct (batch_rows_of (concat bs)) as [y|]; simpl; [|done].
  by rewrite <- app_assoc.
Qed.

Definition fitting (m : R StorageError (list Row)) (batch : list Row) : Prop :=
  m = give batch /\ Forall (fits_row width) batch /\ len batch <= umax 64.

Lemma fitting_batches bs : Forall (fits_row width) (concat bs) -> len (concat bs) <= umax 64 -> Forall2 fitting (map give bs) bs.
Proof.
  unfold len. induction bs as [|b bs IH]; simpl; [constructor|]. intros [Hb Hbs]%Forall_app. rewrite length_app. intros Hlen.
  constructor; [by split_and!; [..|unfold len; lia]|]. apply IH; [done|lia].
Qed.

Lemma retained_nonneg w : 0 <= skip w -> 0 <= limit w -> 0 <= retained_rows w.
Proof. intros Hs Hl. unfold retained_rows, sat_add, umax. destruct (_ =? 0); lia. Qed.

Lemma retained_window (w : Window) (rows : list Row) : 0 <= skip w -> 0 <= limit w -> len rows <= umax 64 ->
  apply_window w (take (Z.to_nat (retained_rows w)) rows) = apply_window w rows.
Proof.
  intros Hs Hl Hlen. unfold apply_window at 1. rewrite window_kept by done. unfold apply_window. by rewrite take_take, Nat.min_id.
Qed.

Lemma distinct_refines bs : distinct p = true -> ordering p = [] -> Forall (fits_row width) (concat bs) -> len (concat bs) <= umax 64 ->
  refines eq (distinct_batches (StorageError:=StorageError) nan powf graph parameters limits select (map give bs) width p)
    (reference p (concat bs)).
Proof.
  intros Hd Ho Hrows Hlen. rewrite reference_rows by done. unfold distinct_batches. rewrite Hd, Hplain, bool_decide_true by done. cbn [negb orb].
  eapply refines_andthen; [by apply window_refines, (po_window width p Hok)|]. intros ? w _ [-> [Hs Hl]]. granted.
  pose proof (retained_nonneg w Hs Hl) as Hkeep.
  apply (refines_andthen (fun es seen => es = take (Z.to_nat (retained_rows w)) (first_distinct columns seen))).
  - apply (refines_ext _ _ (ofold (fun batch seen => xs ← batch_rows_of batch; Some (seen ++ xs)) bs []));
      [rewrite batches_fold; by destruct (batch_rows_of (concat bs))|].
    eapply refines_each; [by apply fitting_batches|cbn; by rewrite take_nil|].
    intros m batch es seen _ _ (-> & Hb & Hbl) Hes.
    apply (refines_seq (eq batch)); [by apply refines_checked, refines_give|]. intros ? <-.
    eapply refines_andthen; [by apply batch_refines|]. intros ? xs _ ->.
    eapply refines_shown; [by apply distinct_inserts|done].
  - intros es seen Hseen ->. apply (refines_seq (eq [])); [apply buffer_refines|]. intros ? <-.
    eapply refines_shown; [by apply window_copy|]. intros out ->. apply retained_window; [done..|].
    apply batch_rows_length in Hseen. pose proof (dedup_by_length (same (order_columns columns)) (BTree.sort_by (order_columns columns) seen)) as Hd'.
    rewrite (Permutation_length (BTree.sort_by_perm (order_columns columns) seen)) in Hd'. unfold first_distinct, len in *. lia.
Qed.

(** An input whose rows are all read, or whose unread rows would have given rows too. *)
Lemma project_each_refines w termination bs started seen st : 0 <= skip w -> 0 <= limit w -> Forall2 fitting (map give bs) bs ->
  (termination = Drain \/ exists rest, batch_rows_of (concat bs) = Some rest) -> windowed w seen st ->
  refines (fun st all => output st = apply_window w all)
    (project_each (StorageError:=StorageError) nan powf graph parameters limits select (map give bs) width p termination (limit w) started st)
    (rest ← batch_rows_of (concat bs); Some (seen ++ rest)).
Proof.
  intros Hs Hl. revert started seen st. induction bs as [|b bs IH]; intros started seen st Hbs Hend Hst; cbn [map project_each].
  - cbn. rewrite app_nil_r. destruct (may_stop _ _ && _); by apply refines_give, Hst.
  - inversion_clear Hbs as [|? ? ? ? (_ & Hb & Hbl) Hbs']. destruct (may_stop termination started && (limit w <=? len (output st))) eqn:Estop.
    { apply andb_prop in Estop as [Est Hfull%Z.leb_le]. destruct Hend as [->|[rest ->]]; [done|]. apply refines_give.
      destruct Hst as [_ Hout]. rewrite Hout in Hfull |- *. by rewrite apply_window_full. }
    apply refines_give_seq. cbn [concat] in *. rewrite batch_rows_app in *. rewrite option_bind_assoc.
    eapply refines_andthen; [by apply batch_refines|]. intros ? xs Hxs ->. unfold compose. rewrite option_bind_assoc.
    eapply refines_seq; [by apply window_steps|]. intros st' Hst'.
    eapply refines_ext; [|apply (IH true (seen ++ xs)); [done| |done]].
    + destruct (batch_rows_of (concat bs)); simpl; [|done]. by rewrite app_assoc.
    + destruct Hend as [->|[rest E]]; [by left|right]. rewrite Hxs in E. destruct (batch_rows_of (concat bs)) as [y|]; [by exists y|done].
Qed.

Lemma project_batches_refines termination bs : distinct p = false -> ordering p = [] -> Forall (fits_row width) (concat bs) ->
  len (concat bs) <= umax 64 -> (termination = Drain \/ exists out, reference p (concat bs) = Some out) ->
  refines eq (project_batches (StorageError:=StorageError) nan powf graph parameters limits select (map give bs) width p termination)
    (reference p (concat bs)).
Proof.
  intros Hd Ho Hrows Hlen Hend. rewrite reference_rows in * by done. unfold project_batches. rewrite Hd, Hplain, bool_decide_true in * by done.
  cbn [negb orb] in *. eapply refines_andthen; [by apply window_refines, (po_window width p Hok)|]. intros ? w Hw [-> [Hs Hl]].
  apply (refines_seq (eq [])); [apply buffer_refines|]. intros ? <-.
  apply (refines_ext _ _ (all ← (rest ← batch_rows_of (concat bs); Some ([] ++ rest)); Some (apply_window w all)));
    [by destruct (batch_rows_of (concat bs))|].
  eapply refines_andthen; [apply project_each_refines; [done|done|by apply fitting_batches| |]|].
  - destruct Hend as [->|[out E]]; [by left|right]. rewrite Hw in E. cbn [mbind option_bind] in E.
    destruct (batch_rows_of (concat bs)) as [y|]; [by exists y|done].
  - split; [unfold len; cbn [to_skip length]; lia|]. cbn [output]. unfold apply_window. by rewrite drop_nil, take_nil.
  - intros st all _ Hall. by apply refines_give.
Qed.
End Batches.

(** ** What the operators compute *)

Section Properties.
Context `{TextLibrary} (nan : Z) (powf : Z -> Z -> Z).
Context (graph : GraphValues) (parameters : list (bytes * Value)) (limits : Limits) {StorageError : Type}.
Context (select : forall A, (A -> A -> comparison) -> nat -> list A -> list A).
Context (width : Z) (p : RowProjection).
Notation refines := (refines (StorageError:=StorageError)).
Notation reference := (reference nan powf graph parameters limits p).

(** What a request's limits, parameters and view, a valid projection and its input rows satisfy. *)
Record request_ok (rows : list Row) : Prop := {
  ro_items : 0 <= collection_items limits;
  ro_batch : 0 < batch_rows limits;
  ro_graph : forall entity m, graph_properties graph entity = Ok m -> Forall (fun entry => forall v, entry.2 = Ok v -> in_range v) m;
  ro_parameters : in_range (Map parameters);
  ro_width : 0 <= width;
  ro_projection : projection_ok width p;
  ro_rows : Forall (fits_row width) rows;
  ro_length : len rows <= umax 64 }.

(** [C23] WITH and RETURN without aggregates, on materialized rows, give the reference
    meaning of the clause (project, filter, deduplicate, stable sort, window), whether
    they keep every row or only the best [skip + limit]: with nothing refused they succeed
    exactly when the reference has a value, with that value; under any refusals or storage
    failures they fail or give it, and they never panic. DISTINCT before ORDER BY selects
    the rows within a limit before it sorts them, by a selection of which only the
    documented contract is known: there the value is the window of the deduplicated rows
    in an order by their keys, in which rows of equal keys come in any order. *)
Theorem project_rows_exact rows : request_ok rows -> aggregates p = false ->
  (distinct p = false \/ ordering p = [] \/ row_limit p = None ->
    refines eq (project_rows nan powf graph parameters limits select rows width p) (reference rows)) /\
  (select_contract select -> distinct p = true -> ordering p <> [] ->
    refines (answers p) (project_rows nan powf graph parameters limits select rows width p)
      (candidates nan powf graph parameters limits p rows)).
Proof. intros [] ?. split; intros; [by apply project_rows_refines|by apply project_rows_answers]. Qed.

(** [C24] ORDER BY with a limit over batches keeps a heap of the best [skip + limit] rows
    seen, ties in order of arrival, and returns the window of the full stable sort. *)
Theorem top_k_exact bs : request_ok (concat bs) -> distinct p = false -> ordering p <> [] ->
  refines eq (top_k_batches nan powf graph parameters limits (map give bs) width p) (reference (concat bs)).
Proof. intros [] ??. by apply top_k_refines. Qed.

(** [C25] DISTINCT over batches keeps the first [skip + limit] classes of the sorted rows
    seen so far and returns the window of deduplicating all rows at once. *)
Theorem distinct_exact bs : request_ok (concat bs) -> aggregates p = false -> distinct p = true -> ordering p = [] ->
  refines eq (distinct_batches nan powf graph parameters limits select (map give bs) width p) (reference (concat bs)).
Proof. intros [] ???. by apply distinct_refines. Qed.

(** A projection streamed batch by batch gives the window of projecting all rows,
    under every termination: when it stops at a full window, the unread batches could only
    have failed. *)
Theorem project_batches_exact termination bs : request_ok (concat bs) -> aggregates p = false -> distinct p = false -> ordering p = [] ->
  (termination = Drain \/ exists out, reference (concat bs) = Some out) ->
  refines eq (project_batches nan powf graph parameters limits select (map give bs) width p termination) (reference (concat bs)).
Proof. intros [] ????. by apply project_batches_refines. Qed.
End Properties.

(** ** A concrete projection *)

Definition parity : Expression := EBinary Modulo (ESlot 0) (ELiteral (Integer 3)).
(** [RETURN n % 3 AS m ... SKIP 1 LIMIT 2]. *)
Definition sample_row_projection (distinct : bool) (ordering : list Ordering) : RowProjection :=
  {| program := {| QueryPlan.items := [{| projection_slot := 1; projection_expression := parity |}];
                   projection_references := [0]; projection_outputs := [1] |};
     distinct := distinct; ordering := ordering; predicate := None;
     row_skip := Some (ELiteral (Integer 1)); row_limit := Some (ELiteral (Integer 2)) |}.
Definition by_parity : list Ordering := [{| order_expression := ESlot 1; descending := true |}; {| order_expression := ESlot 0; descending := false |}].
Definition sample_limits : Limits := {| batch_rows := 2; collection_items := 10 |}.
Definition sample_batches : list (list Row) := [[[Integer 5; Null]; [Integer 3; Null]]; [[Integer 2; Null]; [Integer 4; Null]; [Integer 8; Null]]].
Definition no_select (A : Type) (_ : A -> A -> comparison) (_ : nat) (l : list A) : list A := l.

Lemma sample_request distinct ordering : ordering = [] \/ ordering = by_parity ->
  request_ok sample_graph [] sample_limits 2 (sample_row_projection distinct ordering) (concat sample_batches).
Proof.
  intros Hord. constructor; [done|done| |constructor|done| | |done].
  - intros entity m [= <-]. constructor; [|constructor]. intros v [= <-]. by apply in_range_plain.
  - constructor.
    + repeat constructor; vm_compute; intuition discriminate.
    + destruct Hord as [-> | ->]; repeat constructor; vm_compute; intuition discriminate.
    + repeat constructor; vm_compute; intuition discriminate.
    + done.
    + intros s ->%list_elem_of_singleton. done.
    + intros e s. destruct Hord as [-> | ->]; [by intros ?%elem_of_nil|]. intros He Hs. apply slots_spec in Hs. cbn in He.
      repeat (apply elem_of_cons in He as [-> |He]; [cbn in Hs; rewrite Exists_cons, Exists_nil in Hs; destruct Hs as [<-|[]]; done|]). by apply elem_of_nil in He.
  - repeat constructor; vm_compute; intuition discriminate.
Qed.

(** What a quiet run gives, and what any run that succeeds gives. *)
Definition gives {A} (m : R unit A) (out : A) : Prop :=
  m quiet = Some (Ok out, quiet) /\ forall env, exists r env', m env = Some (r, env') /\ forall a, r = Ok a -> a = out.

Lemma refines_gives {A} (m : R unit A) (o : option A) out : refines eq m o -> o = Some out -> gives m out.
Proof.
  intros [(r & E & Hr) Hall] ->. split; [destruct r; [by subst|done]|]. intros env. destruct (Hall env) as (r' & env' & E' & H').
  exists r', env'. split; [done|]. intros a Ha. destruct (H' a Ha) as (b & [= <-] & ->). done.
Qed.

(** What a run gives that may answer in several ways. *)
Lemma refines_some {A B} (P : A -> B -> Prop) (m : R unit A) o b : refines P m o -> o = Some b ->
  exists out, m quiet = Some (Ok out, quiet) /\ P out b.
Proof. intros [(r & E & Hr) _] ->. destruct r as [out|]; [by exists out|done]. Qed.

Lemma project_rows_exact_witness :
  gives (project_rows 0 (fun x _ => x) sample_graph [] sample_limits no_select (concat sample_batches) 2 (sample_row_projection false []))
    [[Null; Integer 0]; [Null; Integer 2]] /\
  exists out, project_rows (StorageError := unit) 0 (fun x _ => x) sample_graph [] sample_limits (fun A cmp _ l => BTree.sort_by cmp l) (concat sample_batches) 2
      (sample_row_projection true by_parity) quiet = Some (Ok out, quiet) /\
    exists c, candidates 0 (fun x _ => x) sample_graph [] sample_limits (sample_row_projection true by_parity) (concat sample_batches) = Some c /\
      answers (sample_row_projection true by_parity) out c.
Proof.
  split.
  - destruct (project_rows_exact (StorageError := unit) 0 (fun x _ => x) sample_graph [] sample_limits no_select 2 (sample_row_projection false [])
      _ (sample_request false [] (or_introl eq_refl)) eq_refl) as [H _].
    refine (refines_gives _ _ _ (H (or_introl eq_refl)) _). vm_compute. reflexivity.
  - destruct (project_rows_exact (StorageError := unit) 0 (fun x _ => x) sample_graph [] sample_limits (fun A cmp _ l => BTree.sort_by cmp l) 2
      (sample_row_projection true by_parity) _ (sample_request true by_parity (or_intror eq_refl)) eq_refl) as [_ H].
    destruct (refines_some _ _ _ _ (H sort_selects eq_refl ltac:(discriminate)) eq_refl) as (out & E & Ho).
    exists out. split; [exact E|]. eexists. split; [|exact Ho]. vm_compute. reflexivity.
Defined.

Lemma top_k_exact_witness :
  gives (top_k_batches 0 (fun x _ => x) sample_graph [] sample_limits (map give sample_batches) 2 (sample_row_projection false by_parity))
    [[Null; Integer 2]; [Null; Integer 2]].
Proof.
  refine (refines_gives _ _ _ (top_k_exact 0 (fun x _ => x) sample_graph [] sample_limits 2 (sample_row_projection false by_parity)
    sample_batches (sample_request false by_parity (or_intror eq_refl)) eq_refl _) _); [discriminate|].
  vm_compute. reflexivity.
Defined.

Lemma distinct_exact_witness :
  gives (distinct_batches 0 (fun x _ => x) sample_graph [] sample_limits no_select (map give sample_batches) 2 (sample_row_projection true []))
    [[Null; Integer 1]; [Null; Integer 2]].
Proof.
  refine (refines_gives _ _ _ (distinct_exact 0 (fun x _ => x) sample_graph [] sample_limits no_select 2 (sample_row_projection true [])
    sample_batches (sample_request true [] (or_introl eq_refl)) eq_refl eq_refl eq_refl) _).
  vm_compute. reflexivity.
Defined.

Lemma project_batches_exact_witness :
  gives (project_batches 0 (fun x _ => x) sample_graph [] sample_limits no_select (map give sample_batches) 2 (sample_row_projection false []) BeforeInput)
    [[Null; Integer 0]; [Null; Integer 2]].
Proof.
  refine (refines_gives _ _ _ (project_batches_exact 0 (fun x _ => x) sample_graph [] sample_limits no_select 2 (sample_row_projection false [])
    BeforeInput sample_batches (sample_request false [] (or_introl eq_refl)) eq_refl eq_refl eq_refl (or_intror _)) _).
  - eexists. vm_compute. reflexivity.
  - vm_compute. reflexivity.
Defined.
End RowBatches.
