(* ===== verification/Cycles.v ===== *)
(** Components and simple cycles: crates/graph-algorithms/src/algorithms/cycles.rs.

    [None] is a panic (indexing out of range, [expect]) or fuel that ran out; the
    theorems show neither happens. The recursive functions take fuel for the depth of
    their recursion; indices and lengths are [nat] ([usize]). *)
From S2P Require Import Prelude Bytes BTree ExternalId Graph GraphSearch Traversal TraversalSpec.

Open Scope nat_scope.

Module Cycles.
Export Traversal.

(** [values[i] = x] and [values[i]], which panic out of range. *)
Definition assign {A} (values : list A) (i : nat) (x : A) : option (list A) :=
  if i <? length values then Some (<[i := x]> values) else None.

Section Cycles.
Context {JN : JsonNumber}.

Record CycleOptions := { length_bound : nat; max_cycles : option nat }.
Record Cycle := { cycle_node_ids : list ExternalId; cycle_edge_ids : list EdgeId }.
Record CycleResult := { result_cycles : list Cycle; truncated : bool }.

Definition ids_cmp : list ExternalId -> list ExternalId -> comparison := lex_compare id_cmp.
Definition edge_ids_cmp : list EdgeId -> list EdgeId -> comparison := lex_compare edge_id_cmp.
(** The derived [Ord] of the pairs [rotations] returns. *)
Definition candidate_cmp (a b : list ExternalId * list EdgeId) : comparison :=
  then_with (ids_cmp a.1 b.1) (edge_ids_cmp a.2 b.2).

(** [index.cmp] of two nodes by identity. *)
Definition by_id (self : GraphInner) (left right : nat) : option comparison :=
  left ← node_id self left; right ← node_id self right; Some (id_cmp left right).

(** ** Canonical cycles *)

(** [l[offset..]] and [l[..offset]] panic beyond the end. *)
Definition rotate {A} (l : list A) (offset : nat) : option (list A) :=
  if offset <=? length l then Some (drop offset l ++ take offset l) else None.

Definition rotations (nodes : list ExternalId) (edges : list EdgeId) : option (list (list ExternalId * list EdgeId)) :=
  mapM (fun offset => n ← rotate nodes offset; e ← rotate edges offset; Some (n, e)) (seq 0 (length nodes)).

(** [Iterator::min], the first of the least. *)
Definition minimum {A} (cmp : A -> A -> comparison) (l : list A) : option A :=
  match l with
  | [] => None
  | x :: l => Some (fold_left (fun best y => match cmp y best with Lt => y | _ => best end) l x)
  end.

Definition canonical_cycle (self : GraphInner) (path_nodes path_edges : list nat) : option (list ExternalId * list EdgeId) :=
  nodes ← mapM (node_id self) path_nodes;
  edges ← mapM (fun edge => edge_id <$> edge_at self edge) path_edges;
  candidates ← rotations nodes edges;
  candidates ←
    (if negb (is_directed (kind self)) then
       let edge_count := length edges in
       reverse_edges ← mapM (fun index => edges !! ((edge_count + edge_count - 2 - index) mod edge_count)) (seq 0 edge_count);
       reversed ← rotations (reverse nodes) reverse_edges;
       Some (candidates ++ reversed)
     else Some candidates);
  minimum candidate_cmp candidates.

(** ** Enumeration *)

Definition Canonical : Type := list (list ExternalId * list EdgeId).

(** The buffers every call of [enumerate_cycles_from] shares. *)
Record SearchState := { in_path : list bool; path_nodes : list nat; path_edges : list nat; canonical : Canonical }.

Definition set_canonical (st : SearchState) (c : Canonical) : SearchState :=
  {| in_path := in_path st; path_nodes := path_nodes st; path_edges := path_edges st; canonical := c |}.

(** A closed cycle is recorded, or stops the search when the cap is full. *)
Definition record_cycle (options : CycleOptions) (nodes : list ExternalId) (edges : list EdgeId) (found : Canonical) : bool * Canonical :=
  match BTree.get ids_cmp nodes found with
  | Some existing =>
      match edge_ids_cmp edges existing with
      | Lt => (false, BTree.insert ids_cmp nodes edges found)
      | _ => (false, found)
      end
  | None =>
      if match max_cycles options with Some limit => limit <=? length found | None => false end then (true, found)
      else (false, BTree.insert ids_cmp nodes edges found)
  end.

(** The loop over the arcs of [current]; [visit] is the recursive call. *)
Fixpoint enumerate_arcs (visit : nat -> SearchState -> option (bool * SearchState)) (self : GraphInner) (start : nat)
    (component : list nat) (options : CycleOptions) (arcs : list ArcRef) (st : SearchState) : option (bool * SearchState) :=
  match arcs with
  | [] => Some (false, st)
  | arc :: arcs =>
      if negb (BTree.contains Nat.compare (neighbor arc) component) || bool_decide (arc_edge arc ∈ path_edges st) then
        enumerate_arcs visit self start component options arcs st
      else if neighbor arc =? start then
        let cycle_len := length (path_edges st) + 1 in
        if cycle_len <=? length_bound options then
          found ← canonical_cycle self (path_nodes st) (path_edges st ++ [arc_edge arc]);
          let recorded := record_cycle options found.1 found.2 (canonical st) in
          if recorded.1 then Some (true, set_canonical st recorded.2)
          else enumerate_arcs visit self start component options arcs (set_canonical st recorded.2)
        else enumerate_arcs visit self start component options arcs st
      else
        seen ← in_path st !! neighbor arc;
        if seen || (length_bound options <=? length (path_edges st) + 1) then
          enumerate_arcs visit self start component options arcs st
        else
          entered ← assign (in_path st) (neighbor arc) true;
          visited ← visit (neighbor arc)
            {| in_path := entered; path_nodes := path_nodes st ++ [neighbor arc];
               path_edges := path_edges st ++ [arc_edge arc]; canonical := canonical st |};
          let '(stop, st) := visited in
          left_ ← assign (in_path st) (neighbor arc) false;
          let st := {| in_path := left_; path_nodes := removelast (path_nodes st);
                       path_edges := removelast (path_edges st); canonical := canonical st |} in
          if stop : bool then Some (true, st) else enumerate_arcs visit self start component options arcs st
  end.

Fixpoint enumerate_cycles_from (fuel : nat) (self : GraphInner) (start : nat) (component : list nat)
    (options : CycleOptions) (current : nat) (st : SearchState) : option (bool * SearchState) :=
  match fuel with
  | O => None
  | S fuel =>
      arcs ← arcs self current (if is_directed (kind self) then Out else Both);
      enumerate_arcs (enumerate_cycles_from fuel self start component options) self start component options arcs st
  end.

(** ** Connected components *)

Fixpoint component_arcs (arcs : list ArcRef) (visited : list bool) (queue : list nat) : option (list bool * list nat) :=
  match arcs with
  | [] => Some (visited, queue)
  | arc :: arcs =>
      seen ← visited !! neighbor arc;
      if seen : bool then component_arcs arcs visited queue
      else visited ← assign visited (neighbor arc) true; component_arcs arcs visited (queue ++ [neighbor arc])
  end.

Fixpoint component_loop (fuel : nat) (self : GraphInner) (visited : list bool) (queue component : list nat)
    : option (list bool * list nat) :=
  match queue with
  | [] => Some (visited, component)
  | node :: queue =>
      match fuel with
      | O => None
      | S fuel =>
          arcs ← arcs self node Both;
          next ← component_arcs arcs visited queue;
          component_loop fuel self next.1 next.2 (component ++ [node])
      end
  end.

Fixpoint components_from (self : GraphInner) (starts : list nat) (visited : list bool) (components : list (list nat))
    : option (list (list nat)) :=
  match starts with
  | [] => Some components
  | start :: starts =>
      seen ← visited !! start;
      if seen : bool then components_from self starts visited components
      else
        visited ← assign visited start true;
        found ← component_loop (node_count self) self visited [start] [];
        components_from self starts found.1 (components ++ [found.2])
  end.

(** Every node is queued once, which bounds the fuel. *)
Definition connected_components (self : GraphInner) : option (list (list nat)) :=
  components_from self (seq 0 (node_count self)) (replicate (node_count self) false) [].

(** ** Strongly connected components *)

(** [Tarjan]; the head of [stack] is its top. *)
Record Tarjan := {
  next_index : nat; indexes : list (option nat); lowlinks : list nat; stack : list nat; on_stack : list bool;
  components : list (list nat) }.

Definition lower (state : Tarjan) (node value : nat) : option Tarjan :=
  low ← lowlinks state !! node;
  Some {| next_index := next_index state; indexes := indexes state; lowlinks := <[node := low `min` value]> (lowlinks state);
          stack := stack state; on_stack := on_stack state; components := components state |}.

(** The loop over the arcs of [node]; [visit] is the recursive call. *)
Fixpoint visit_arcs (visit : nat -> Tarjan -> option Tarjan) (node : nat) (arcs : list ArcRef) (state : Tarjan) : option Tarjan :=
  match arcs with
  | [] => Some state
  | arc :: arcs =>
      index ← indexes state !! neighbor arc;
      match index with
      | None =>
          state ← visit (neighbor arc) state;
          low ← lowlinks state !! neighbor arc;
          state ← lower state node low;
          visit_arcs visit node arcs state
      | Some index =>
          on ← on_stack state !! neighbor arc;
          if on : bool then state ← lower state node index; visit_arcs visit node arcs state
          else visit_arcs visit node arcs state
      end
  end.

(** The loop that pops a component, on the stack that remains. *)
Fixpoint pop_component (node : nat) (stack : list nat) (on_stack : list bool) (component : list nat)
    : option (list nat * list bool * list nat) :=
  match stack with
  | [] => None
  | member :: stack =>
      on_stack ← assign on_stack member false;
      let component := component ++ [member] in
      if member =? node then Some (stack, on_stack, component) else pop_component node stack on_stack component
  end.

Fixpoint visit (fuel : nat) (graph : GraphInner) (node : nat) (state : Tarjan) : option Tarjan :=
  match fuel with
  | O => None
  | S fuel =>
      let node_index := next_index state in
      indexes_ ← assign (indexes state) node (Some node_index);
      lowlinks_ ← assign (lowlinks state) node node_index;
      on_stack_ ← assign (on_stack state) node true;
      arcs ← arcs graph node Out;
      state ← visit_arcs (visit fuel graph) node arcs
        {| next_index := S node_index; indexes := indexes_; lowlinks := lowlinks_; stack := node :: stack state;
           on_stack := on_stack_; components := components state |};
      low ← lowlinks state !! node;
      if low =? node_index then
        popped ← pop_component node (stack state) (on_stack state) [];
        let '(stack, on_stack, component) := popped in
        component ← BTree.sort_by_opt (by_id graph) component;
        Some {| next_index := next_index state; indexes := indexes state; lowlinks := lowlinks state; stack := stack;
                on_stack := on_stack; components := components state ++ [component] |}
      else Some state
  end.

Fixpoint visit_all (graph : GraphInner) (nodes : list nat) (state : Tarjan) : option Tarjan :=
  match nodes with
  | [] => Some state
  | node :: nodes =>
      index ← indexes state !! node;
      state ← match index with Some _ => Some state | None => visit (node_count graph) graph node state end;
      visit_all graph nodes state
  end.

(** Components by their first members. *)
Definition by_first (self : GraphInner) (left right : list nat) : option comparison :=
  left ← head left; right ← head right; by_id self left right.

(** Every call of [visit] indexes a node, which bounds the fuel. *)
Definition strongly_connected_components (self : GraphInner) : option (list (list nat)) :=
  state ← visit_all self (seq 0 (node_count self))
    {| next_index := 0; indexes := replicate (node_count self) None; lowlinks := replicate (node_count self) 0; stack := [];
       on_stack := replicate (node_count self) false; components := [] |};
  BTree.sort_by_opt (by_first self) (components state).

(** ** All cycles *)

(** The cycles through each start of a component; the flag is the early [break]. *)
Fixpoint cycles_from (self : GraphInner) (options : CycleOptions) (component : list nat) (starts : list nat) (found : Canonical)
    : option (bool * Canonical) :=
  match starts with
  | [] => Some (false, found)
  | start :: starts =>
      in_path ← assign (replicate (node_count self) false) start true;
      result ← enumerate_cycles_from (S (node_count self)) self start component options start
        {| in_path := in_path; path_nodes := [start]; path_edges := []; canonical := found |};
      if (result.1 : bool) then Some (true, canonical result.2)
      else cycles_from self options component starts (canonical result.2)
  end.

(** A component of one node without a self-loop has no cycle. *)
Definition skipped (self : GraphInner) (component : list nat) : option bool :=
  match component with
  | [node] => arcs ← arcs self node Out; Some (negb (existsb (fun arc => neighbor arc =? node) arcs))
  | _ => Some false
  end.

Fixpoint cycles_in (self : GraphInner) (options : CycleOptions) (components : list (list nat)) (found : Canonical)
    : option (bool * Canonical) :=
  match components with
  | [] => Some (false, found)
  | component :: components =>
      skip ← skipped self component;
      if skip : bool then cycles_in self options components found
      else
        result ← cycles_from self options (BTree.set_from_iter Nat.compare component) component found;
        if (result.1 : bool) then Some (true, result.2) else cycles_in self options components result.2
  end.

Definition simple_cycles (self : GraphInner) (options : CycleOptions) : option CycleResult :=
  components ← (if is_directed (kind self) then strongly_connected_components self else connected_components self);
  result ← cycles_in self options components [];
  Some {| result_cycles := map (fun entry => {| cycle_node_ids := entry.1; cycle_edge_ids := entry.2 |}) result.2;
          truncated := result.1 |}.
End Cycles.

Lemma assign_in_range {A} (l : list A) i x : i < length l -> assign l i x = Some (<[i := x]> l).
Proof. intros Hi. unfold assign. by rewrite (proj2 (Nat.ltb_lt _ _)). Qed.
End Cycles.
