(* ===== verification/CyclesTarjan.v ===== *)
(** Tarjan's algorithm is exact: the components of
    [Graph::strongly_connected_components] (cycles.rs) are the classes of nodes that
    reach each other.

    The invariant keeps, for the nodes being visited ([gray]), that each reaches every
    node stacked after it, and that every stacked node reaches one of them. *)
From S2P Require Import Prelude Bytes BTree ExternalId Graph GraphSearch Traversal TraversalSpec Cycles.

Open Scope nat_scope.

Module CyclesTarjan.
Export TraversalSpec Cycles.

(** ** Lists *)

Lemma filter_length_mono {A} (P Q : A -> Prop) `{!forall x, Decision (P x)} `{!forall x, Decision (Q x)} l :
  (forall x, P x -> Q x) -> length (filter P l) <= length (filter Q l).
Proof.
  intros HPQ. induction l as [|x l IH]; [done|]. rewrite !filter_cons. destruct (decide (P x)), (decide (Q x)); simpl; try lia.
  exfalso. auto.
Qed.

Lemma filter_length_less {A} (P Q : A -> Prop) `{!forall x, Decision (P x)} `{!forall x, Decision (Q x)} l y :
  (forall x, P x -> Q x) -> y ∈ l -> Q y -> ~ P y -> length (filter P l) < length (filter Q l).
Proof.
  intros HPQ Hy HQ HP. apply list_elem_of_split in Hy as (l1 & l2 & ->). rewrite !filter_app, !length_app.
  pose proof (filter_length_mono P Q l1 HPQ). pose proof (filter_length_mono P Q l2 HPQ).
  rewrite (filter_cons_False P), (filter_cons_True Q) by done. simpl. lia.
Qed.

Section Tarjan.
Context {JN : JsonNumber}.
Context (g : GraphInner) (Hg : graph_ok g).
Notation N := (node_count g).

(** An arc out of [u] leads to [v]. *)
Definition edge_to (u v : nat) : Prop := u < N /\ exists a, a ∈ adj g Out u /\ neighbor a = v.
Notation reaches := (rtc edge_to).

Lemma edge_to_range u v : edge_to u v -> u < N /\ v < N.
Proof. intros [Hu (a & Ha & <-)]. split; [done|]. by apply (adj_range g Hg Out u). Qed.

Definition num (st : Tarjan) (v : nat) : nat := default 0 (mjoin (indexes st !! v)).
Definition assigned (st : Tarjan) (v : nat) : Prop := exists i, indexes st !! v = Some (Some i).
Definition white (st : Tarjan) (v : nat) : Prop := indexes st !! v = Some None.
#[local] Instance white_dec st v : Decision (white st v).
Proof. unfold white. apply _. Defined.
Definition completed (st : Tarjan) (v : nat) : Prop := v ∈ concat (components st).
Definition whites (st : Tarjan) : nat := length (filter (fun v => white st v) (seq 0 N)).

Definition id_order (u v : nat) : comparison := id_cmp (id_of g u) (id_of g v).

#[local] Instance id_order_lawful : LawfulCompare id_order.
Proof. apply (preimage_lawful (id_of g) id_cmp). apply _. Qed.

(** A class of nodes that reach each other, by identity. *)
Definition strong (c : list nat) : Prop :=
  c <> [] /\ NoDup c /\ (forall u, u ∈ c -> forall v, v ∈ c <-> reaches u v /\ reaches v u) /\
  StronglySorted (BTree.le id_order) c.

Record wf (gray : list nat) (st : Tarjan) : Prop := {
  wf_indexes : length (indexes st) = N;
  wf_lowlinks : length (lowlinks st) = N;
  wf_on_length : length (on_stack st) = N;
  wf_next : forall v i, indexes st !! v = Some (Some i) -> i < next_index st;
  wf_stack : StronglySorted (fun x y => num st y < num st x) (stack st);
  wf_on : forall v, v < N -> on_stack st !! v = Some (bool_decide (v ∈ stack st));
  wf_assigned : forall v, assigned st v <-> v ∈ stack st \/ completed st v;
  wf_disjoint : forall v, v ∈ stack st -> completed st v -> False;
  wf_strong : Forall strong (components st);
  wf_closed : forall u v, completed st u -> edge_to u v -> completed st v;
  wf_gray : forall v, v ∈ gray -> v ∈ stack st;
  wf_black : forall u v, assigned st u -> u ∉ gray -> edge_to u v -> assigned st v;
  wf_to_gray : forall y, y ∈ stack st -> exists x, x ∈ gray /\ num st x <= num st y /\ reaches y x;
  wf_from_gray : forall x y, x ∈ gray -> y ∈ stack st -> num st x <= num st y -> reaches x y;
  wf_apart : NoDup (concat (components st)) }.

(** What a call adds. *)
Record extends (st st' : Tarjan) : Prop := {
  ex_length : length (indexes st') = length (indexes st);
  ex_indexes : forall v i, indexes st !! v = Some (Some i) -> indexes st' !! v = Some (Some i);
  ex_lowlinks : forall v, assigned st v -> lowlinks st' !! v = lowlinks st !! v;
  ex_next : next_index st <= next_index st';
  ex_new : forall v, white st v -> assigned st' v -> next_index st <= num st' v;
  ex_completed : forall v, completed st v -> completed st' v }.

Lemma num_eq st v i : indexes st !! v = Some (Some i) -> num st v = i.
Proof. intros E. unfold num. by rewrite E. Qed.

Lemma assigned_num st v : assigned st v -> indexes st !! v = Some (Some (num st v)).
Proof. intros [i E]. by rewrite (num_eq st v i). Qed.

Lemma extends_num st st' v : extends st st' -> assigned st v -> assigned st' v /\ num st' v = num st v.
Proof.
  intros He [i E]. apply (ex_indexes st st' He) in E as E'. split; [by exists i|]. by rewrite (num_eq st v i), (num_eq st' v i).
Qed.

Lemma white_or_assigned st v : length (indexes st) = N -> v < N -> white st v \/ assigned st v.
Proof.
  intros Hl Hv. unfold white, assigned. destruct (lookup_lt_is_Some_2 (indexes st) v) as [[i|] E]; [lia|right; by exists i|by left].
Qed.

Lemma assigned_range st v : length (indexes st) = N -> assigned st v -> v < N.
Proof. intros Hl [i E]. apply lookup_lt_Some in E. lia. Qed.

Lemma white_not_assigned st v : white st v -> assigned st v -> False.
Proof. intros E [i E']. unfold white in E. by rewrite E' in E. Qed.

Lemma extends_refl st : extends st st.
Proof. constructor; try done. intros v Hw Ha. by destruct (white_not_assigned st v). Qed.

Lemma extends_trans st st' st'' : length (indexes st) = N -> extends st st' -> extends st' st'' -> extends st st''.
Proof.
  intros Hl H1 H2. pose proof (ex_length st st' H1) as Hl'. destruct H1, H2. constructor; [congruence|auto| |lia| |auto].
  - intros v Ha. rewrite ex_lowlinks1; [auto|]. destruct Ha as [i E]. exists i. auto.
  - intros v Hw Ha. assert (v < N) as Hv by (rewrite <- Hl; by eapply lookup_lt_Some).
    destruct (white_or_assigned st' v) as [Hw'|Ha']; [lia|done|specialize (ex_new1 v Hw' Ha); lia|].
    pose proof (ex_new0 v Hw Ha'). destruct Ha' as [i E]. rewrite (num_eq st'' v i), <- (num_eq st' v i); auto.
Qed.

Lemma extends_white st st' v : extends st st' -> white st' v -> white st v.
Proof.
  intros He Hw. pose proof (lookup_lt_Some _ _ _ Hw) as Hv. rewrite (ex_length st st' He) in Hv.
  unfold white in *. destruct (lookup_lt_is_Some_2 (indexes st) v Hv) as [[i|] E]; [|done].
  apply (ex_indexes st st' He) in E. by rewrite E in Hw.
Qed.

Lemma extends_whites st st' : extends st st' -> whites st' <= whites st.
Proof. intros He. apply filter_length_mono. intros v. by apply extends_white. Qed.

(** ** Starting a call *)

(** The state in which the arcs of [node] are visited. *)
Definition start (node : nat) (st : Tarjan) : Tarjan :=
  {| next_index := S (next_index st); indexes := <[node := Some (next_index st)]> (indexes st);
     lowlinks := <[node := next_index st]> (lowlinks st); stack := node :: stack st;
     on_stack := <[node := true]> (on_stack st); components := components st |}.

Lemma start_extends node st : length (indexes st) = N -> white st node -> extends st (start node st).
Proof.
  intros Hl Hw. constructor; simpl.
  - apply length_insert.
  - intros v i E. rewrite list_lookup_insert_ne; [done|]. intros ->. unfold white in Hw. by rewrite E in Hw.
  - intros v Ha. apply list_lookup_insert_ne. intros ->. by destruct (white_not_assigned st v).
  - lia.
  - intros v Hv Ha. destruct (decide (v = node)) as [->|Hne].
    + rewrite (num_eq _ _ (next_index st)); [done|]. apply list_lookup_insert_eq. by eapply lookup_lt_Some.
    + exfalso. apply (white_not_assigned st v Hv). destruct Ha as [i E]. exists i. simpl in E. by rewrite list_lookup_insert_ne in E.
  - done.
Qed.

Lemma start_num node st : white st node -> num (start node st) node = next_index st.
Proof. intros Hw. apply num_eq, list_lookup_insert_eq. by eapply lookup_lt_Some. Qed.

Lemma start_num_other node st v : assigned st v -> white st node -> num (start node st) v = num st v.
Proof. intros Ha Hw. unfold num. simpl. rewrite list_lookup_insert_ne; [done|]. intros <-. by destruct (white_not_assigned st node). Qed.

Lemma start_assigned node st v : white st node -> assigned (start node st) v <-> v = node \/ assigned st v.
Proof.
  intros Hw. unfold assigned. simpl. destruct (decide (v = node)) as [->|Hne].
  - split; [by left|]. intros _. eexists. apply list_lookup_insert_eq. by eapply lookup_lt_Some.
  - rewrite list_lookup_insert_ne by done. tauto.
Qed.

Lemma start_whites node st : length (indexes st) = N -> white st node -> whites (start node st) < whites st.
Proof.
  intros Hl Hw. apply (filter_length_less _ _ _ node).
  - intros v. by apply extends_white, start_extends.
  - apply elem_of_seq. apply lookup_lt_Some in Hw. lia.
  - done.
  - intros Hs. apply (white_not_assigned _ _ Hs), start_assigned; auto.
Qed.

Lemma stack_assigned gray st v : wf gray st -> v ∈ stack st -> assigned st v.
Proof. intros Hwf Hv. apply (wf_assigned gray st Hwf). by left. Qed.

Lemma stack_below gray st v : wf gray st -> assigned st v -> num st v < next_index st.
Proof. intros Hwf Ha. by apply (wf_next gray st Hwf v), assigned_num. Qed.

Lemma start_wf gray node st : wf gray st -> white st node -> (forall x, x ∈ gray -> reaches x node) -> wf (node :: gray) (start node st).
Proof.
  intros Hwf Hw Haccess. pose proof (wf_indexes gray st Hwf) as Hl.
  assert (node < N) as Hn by (apply lookup_lt_Some in Hw; lia).
  assert (forall v, v ∈ stack st -> num (start node st) v = num st v) as Hnum
    by (intros v Hv; apply start_num_other; [by eapply stack_assigned|done]).
  constructor; simpl.
  - by rewrite length_insert.
  - rewrite length_insert. apply Hwf.
  - rewrite length_insert. apply Hwf.
  - intros v i E. destruct (decide (v = node)) as [->|Hne].
    + rewrite list_lookup_insert_eq in E by lia. injection E as <-. lia.
    + rewrite list_lookup_insert_ne in E by done. apply (wf_next gray st Hwf) in E. lia.
  - constructor.
    + pose proof (wf_stack gray st Hwf) as Hs. pose proof Hnum as Hnum'. revert Hs Hnum'. generalize (stack st) as l.
      induction l as [|x l IH]; intros Hs Hnum'; constructor; apply StronglySorted_inv in Hs as [Hs Hx].
      * apply IH; [done|]. intros v Hv. apply Hnum'. by right.
      * rewrite Forall_forall in *. intros y Hy. rewrite !Hnum' by (by left || by right). auto.
    + apply Forall_forall. intros y Hy. rewrite start_num, Hnum by done. eapply stack_below; [done|]. by eapply stack_assigned.
  - intros v Hv. destruct (decide (v = node)) as [->|Hne].
    + rewrite list_lookup_insert_eq by (rewrite (wf_on_length gray st Hwf); done). f_equal. symmetry. apply bool_decide_eq_true. by left.
    + rewrite list_lookup_insert_ne, (wf_on gray st Hwf) by done. f_equal. apply bool_decide_ext. rewrite elem_of_cons. tauto.
  - intros v. rewrite start_assigned, elem_of_cons, (wf_assigned gray st Hwf) by done. unfold completed. simpl. tauto.
  - intros v [->|Hv]%elem_of_cons Hc; [|by apply (wf_disjoint gray st Hwf v)].
    apply (white_not_assigned st node Hw), (wf_assigned gray st Hwf). by right.
  - apply Hwf.
  - apply (wf_closed gray st Hwf).
  - intros v [->|Hv]%elem_of_cons; [by left|right; by apply (wf_gray gray st Hwf)].
  - intros u v. rewrite !start_assigned by done. rewrite not_elem_of_cons. intros [->|Ha] [Hne Hng] Huv; [done|].
    right. by apply (wf_black gray st Hwf u).
  - intros y [->|Hy]%elem_of_cons.
    + exists node. split_and!; [by left|done|constructor].
    + destruct (wf_to_gray gray st Hwf y Hy) as (x & Hx & Hle & Hr). exists x. rewrite !Hnum by (done || by apply (wf_gray gray st Hwf)).
      split_and!; [by right|done|done].
  - intros x y Hx Hy. apply elem_of_cons in Hy as [->|Hy].
    + intros _. apply elem_of_cons in Hx as [->|Hx]; [constructor|by apply Haccess].
    + apply elem_of_cons in Hx as [->|Hx].
      * rewrite start_num, Hnum by done. intros Hle. pose proof (stack_below gray st y Hwf (stack_assigned gray st y Hwf Hy)). lia.
      * rewrite !Hnum by (done || by apply (wf_gray gray st Hwf)). by apply (wf_from_gray gray st Hwf).
  - apply Hwf.
Qed.

(** ** Lowlinks *)

Definition lowered (st : Tarjan) (node low : nat) : Tarjan :=
  {| next_index := next_index st; indexes := indexes st; lowlinks := <[node := low]> (lowlinks st); stack := stack st;
     on_stack := on_stack st; components := components st |}.

Lemma lower_some st node low value : lowlinks st !! node = Some low -> lower st node value = Some (lowered st node (low `min` value)).
Proof. intros E. unfold lower. by rewrite E. Qed.

Lemma lowered_wf gray st node low : wf gray st -> wf gray (lowered st node low).
Proof. intros []. constructor; try done. simpl. by rewrite length_insert. Qed.

Lemma lowered_extends st0 st node low : extends st0 st -> white st0 node -> extends st0 (lowered st node low).
Proof.
  intros [] Hw. constructor; try done. intros v Ha. simpl. rewrite list_lookup_insert_ne; [auto|].
  intros ->. by destruct (white_not_assigned st0 v).
Qed.

(** ** The arcs of a node *)

(** [low] bounds the stacked nodes that edges from [top] and the nodes [seen] reach. *)
Record low_ok (st : Tarjan) (node low : nat) (top base seen : list nat) : Prop := {
  lo_value : lowlinks st !! node = Some low;
  lo_self : low <= num st node;
  lo_reach : exists y, y ∈ stack st /\ num st y = low /\ reaches node y;
  lo_top : forall u y, u ∈ top -> y ∈ base -> edge_to u y -> low <= num st y;
  lo_seen : forall v, v ∈ seen -> v ∈ base -> low <= num st v }.

Record visiting (gray : list nat) (node : nat) (st0 : Tarjan) (top seen : list nat) (st : Tarjan) : Prop := {
  vi_wf : wf (node :: gray) st;
  vi_extends : extends st0 st;
  vi_stack : stack st = top ++ node :: stack st0;
  vi_index : indexes st !! node = Some (Some (next_index st0));
  vi_low : exists low, low_ok st node low top (stack st0) seen;
  vi_seen : forall v, v ∈ seen -> assigned st v }.

(** What a call promises. *)
Record visited (gray : list nat) (node : nat) (st st' : Tarjan) : Prop := {
  vd_wf : wf gray st';
  vd_extends : extends st st';
  vd_assigned : assigned st' node;
  vd_low : exists top low, stack st' = top ++ stack st /\ lowlinks st' !! node = Some low /\ low <= num st' node /\
    (low = num st' node \/ exists y, y ∈ stack st' /\ num st' y = low /\ reaches node y) /\
    forall u y, u ∈ top -> y ∈ stack st -> edge_to u y -> low <= num st' y }.

Definition visits_ok (call : nat -> Tarjan -> option Tarjan) (fuel : nat) : Prop :=
  forall gray node st, wf gray st -> white st node -> (forall x, x ∈ gray -> reaches x node) -> whites st <= fuel ->
    exists st', call node st = Some st' /\ visited gray node st st'.

Lemma visiting_num gray node st0 top seen st v : visiting gray node st0 top seen st -> wf gray st0 -> v ∈ stack st0 ->
  num st v = num st0 v.
Proof. intros Hv Hwf Hin. apply (extends_num st0 st v (vi_extends _ _ _ _ _ _ Hv)). by apply (stack_assigned gray). Qed.

Lemma visiting_node gray node st0 top seen st : visiting gray node st0 top seen st -> assigned st node.
Proof. intros Hv. apply (stack_assigned (node :: gray) st node (vi_wf _ _ _ _ _ _ Hv)), (wf_gray _ _ (vi_wf _ _ _ _ _ _ Hv)). by left. Qed.

(** An arc to a node of the stack, or to a completed one. *)
Lemma visit_known gray node st0 top seen st w (on : bool) : visiting gray node st0 top seen st -> wf gray st0 -> white st0 node ->
  edge_to node w -> assigned st w -> on = bool_decide (w ∈ stack st) ->
  exists low, lowlinks st !! node = Some low /\
    visiting gray node st0 top (w :: seen) (if on then lowered st node (low `min` num st w) else st).
Proof.
  intros [Hwf' Hext Hst Hidx [low [Hlow Hself Hreach Htop Hseen]] Hasg] Hwf Hw Hedge Ha ->. exists low. split; [done|]. case_bool_decide as Hin.
  - constructor; [by apply lowered_wf|by apply lowered_extends|done|done| |].
    + exists (low `min` num st w). constructor.
      * simpl. apply list_lookup_insert_eq. by eapply lookup_lt_Some.
      * change (num (lowered st node (low `min` num st w)) node) with (num st node). lia.
      * destruct (Nat.min_spec low (num st w)) as [[_ ->]|[_ ->]]; [done|]. exists w. split_and!; [done|done|]. by apply rtc_once.
      * intros u y Hu Hy He. specialize (Htop u y Hu Hy He). change (num (lowered _ _ _) y) with (num st y). lia.
      * intros v [->|Hv]%elem_of_cons Hb; [change (num (lowered _ _ _) w) with (num st w); lia|].
        specialize (Hseen v Hv Hb). change (num (lowered _ _ _) v) with (num st v). lia.
    + intros v [->|Hv]%elem_of_cons; [done|by apply Hasg].
  - constructor; [done|done|done|done| |].
    + exists low. constructor; [done|done|done|done|]. intros v [->|Hv]%elem_of_cons Hb; [|by apply Hseen].
      exfalso. apply Hin. rewrite Hst. apply elem_of_app. right. by right.
    + intros v [->|Hv]%elem_of_cons; [done|by apply Hasg].
Qed.

(** An arc to a node the call visits. *)
Lemma visit_new call fuel gray node st0 top seen st w : visits_ok call fuel -> visiting gray node st0 top seen st -> wf gray st0 ->
  (forall x, x ∈ gray -> reaches x node) -> white st0 node -> edge_to node w -> white st w -> whites st <= fuel ->
  exists st' low' low top', call w st = Some st' /\ lowlinks st' !! w = Some low' /\ lowlinks st' !! node = Some low /\
    whites st' <= whites st /\ visiting gray node st0 (top' ++ top) (w :: seen) (lowered st' node (low `min` low')).
Proof.
  intros Hcall Hv Hwf Haccess Hw Hedge Hww Hfuel. pose proof (visiting_node _ _ _ _ _ _ Hv) as Hna.
  destruct Hv as [Hwf' Hext Hst Hidx [low [Hlow Hself Hreach Htop Hseen]] Hasg].
  destruct (Hcall (node :: gray) w st) as (st' & E & [Vwf Vext Vasg (top' & low' & Vst & Vlow & Vself & Vreach & Vtop)]); [done|done| |done|].
  { intros x [->|Hx]%elem_of_cons; [by apply rtc_once|]. eapply rtc_r; [by apply Haccess|done]. }
  assert (forall v, assigned st v -> num st' v = num st v) as Hnum by (intros v Ha; by apply (extends_num st st' v Vext)).
  assert (forall v, v ∈ stack st0 -> assigned st v) as Hbase
    by (intros v Hv; apply (extends_num st0 st v Hext), (stack_assigned gray st0 v Hwf Hv)).
  exists st', low', low, top'. split; [done|]. split; [done|]. rewrite (ex_lowlinks st st' Vext) by done.
  split; [done|]. split; [by apply extends_whites|]. constructor.
  - by apply lowered_wf.
  - apply lowered_extends; [|done]. apply (extends_trans st0 st st'); [apply Hwf|done|done].
  - simpl. by rewrite Vst, Hst, app_assoc.
  - by apply (ex_indexes st st' Vext).
  - exists (low `min` low'). constructor; unfold num; simpl; fold (num st' node).
    + apply list_lookup_insert_eq. rewrite (wf_lowlinks _ _ Vwf). apply (assigned_range st'); [apply Vwf|].
      by apply (extends_num st st' node Vext).
    + rewrite Hnum by done. lia.
    + assert (low <= num st' w -> low `min` low' <> low -> exists y, y ∈ stack st' /\ num st' y = low' /\ reaches w y) as Hy.
      { intros Hle Hne. destruct Vreach as [->|?]; [lia|done]. }
      assert (low <= num st' w) as Hle.
      { pose proof (ex_new st st' Vext w Hww Vasg). pose proof (stack_below (node :: gray) st node Hwf' Hna). lia. }
      destruct (decide (low `min` low' = low)) as [->|Hne].
      * destruct Hreach as (y & Hy1 & Hy2 & Hy3). exists y. rewrite Vst. split_and!; [apply elem_of_app; by right| |done].
        fold (num st' y). rewrite Hnum; [done|]. by eapply stack_assigned.
      * destruct (Hy Hle Hne) as (y & Hy1 & Hy2 & Hy3). exists y. fold (num st' y). split_and!; [done|lia|].
        eapply rtc_l; [exact Hedge|done].
    + intros u y Hu Hy He. fold (num st' y). apply elem_of_app in Hu as [Hu|Hu].
      * specialize (Vtop u y Hu ltac:(rewrite Hst; apply elem_of_app; right; by right) He). lia.
      * rewrite Hnum by auto. specialize (Htop u y Hu Hy He). lia.
    + intros v Hvs Hb. fold (num st' v). apply elem_of_cons in Hvs as [->|Hvs].
      * exfalso. by apply (white_not_assigned st w Hww), Hbase.
      * rewrite Hnum by auto. specialize (Hseen v Hvs Hb). lia.
  - intros v [->|Hvs]%elem_of_cons; [done|]. apply (extends_num st st' v Vext). auto.
Qed.

Lemma visit_arcs_ok call fuel gray node st0 arcs top seen st : visits_ok call fuel -> visiting gray node st0 top seen st -> wf gray st0 ->
  (forall x, x ∈ gray -> reaches x node) -> white st0 node -> (forall a, a ∈ arcs -> edge_to node (neighbor a)) -> whites st <= fuel ->
  exists st' top', visit_arcs call node arcs st = Some st' /\ visiting gray node st0 top' (rev (map neighbor arcs) ++ seen) st'.
Proof.
  intros Hcall Hv Hwf Haccess Hw. revert top seen st Hv. induction arcs as [|a arcs IH]; intros top seen st Hv Harcs Hfuel.
  { exists st, top. by split. }
  assert (edge_to node (neighbor a)) as Hedge by (apply Harcs; by left).
  pose proof (edge_to_range _ _ Hedge) as [_ Hrange]. pose proof (vi_wf _ _ _ _ _ _ Hv) as Hwf'.
  assert (forall a, a ∈ arcs -> edge_to node (neighbor a)) as Harcs' by (intros; apply Harcs; by right).
  assert (rev (map neighbor (a :: arcs)) ++ seen = rev (map neighbor arcs) ++ neighbor a :: seen) as -> by (simpl; by rewrite <- app_assoc).
  cbn [visit_arcs]. destruct (white_or_assigned st (neighbor a) (wf_indexes _ _ Hwf') Hrange) as [Hww|Ha].
  - rewrite Hww. cbn [mbind option_bind].
    destruct (visit_new call fuel gray node st0 top seen st (neighbor a)) as (st' & low' & low & top' & E & Elow' & Elow & Hwh & Hv'); try done.
    rewrite E. cbn [mbind option_bind]. rewrite Elow'. cbn [mbind option_bind]. rewrite (lower_some _ _ low) by done. cbn [mbind option_bind].
    apply (IH (top' ++ top)); [done|done|]. change (whites (lowered _ _ _)) with (whites st'). lia.
  - rewrite (assigned_num st _ Ha). cbn [mbind option_bind]. rewrite (wf_on _ _ Hwf') by done. cbn [mbind option_bind].
    destruct (visit_known gray node st0 top seen st (neighbor a) _ Hv Hwf Hw Hedge Ha eq_refl) as (low & Elow & Hv').
    case_bool_decide.
    + rewrite (lower_some _ _ low) by done. cbn [mbind option_bind]. by apply (IH top).
    + by apply (IH top).
Qed.

(** ** Completing a component *)

Lemma by_id_some u v : u < N -> v < N -> by_id g u v = Some (id_order u v).
Proof. intros Hu Hv. unfold by_id. by rewrite !(node_id_of g). Qed.

Lemma sort_component c : Forall (fun v => v < N) c -> exists c', BTree.sort_by_opt (by_id g) c = Some c' /\ c' ≡ₚ c /\ StronglySorted (BTree.le id_order) c'.
Proof.
  intros Hc. rewrite Forall_forall in Hc. exists (BTree.sort_by id_order c). split; [|split; [apply (BTree.sort_by_perm id_order)|apply (BTree.sort_by_sorted id_order)]].
  apply BTree.sort_by_opt_some. intros u v Hu Hv. by apply by_id_some; apply Hc.
Qed.

Lemma pop_component_some node top base on acc : node ∉ top -> Forall (fun v => v < length on) (top ++ [node]) ->
  exists on', pop_component node (top ++ node :: base) on acc = Some (base, on', acc ++ top ++ [node]) /\
    length on' = length on /\ forall v, on' !! v = if decide (v ∈ top ++ [node]) then Some false else on !! v.
Proof.
  revert on acc. induction top as [|x top IH]; intros on acc Hn Hr; simpl.
  - apply Forall_inv in Hr. rewrite assign_in_range by done. simpl. rewrite Nat.eqb_refl. eexists. split; [done|].
    split; [apply length_insert|]. intros v. destruct (decide (v ∈ [node])) as [->%list_elem_of_singleton|Hv].
    + by apply list_lookup_insert_eq.
    + apply list_lookup_insert_ne. intros ->. apply Hv. by left.
  - apply not_elem_of_cons in Hn as [Hne Hn]. apply Forall_cons in Hr as [Hx Hr]. rewrite assign_in_range by done. simpl.
    rewrite (proj2 (Nat.eqb_neq x node)) by done. destruct (IH (<[x:=false]> on) (acc ++ [x])) as (on' & E & El & Hl); [done| |].
    { eapply Forall_impl; [exact Hr|]. intros v. by rewrite length_insert. }
    exists on'. rewrite E, <- app_assoc. split; [done|]. split; [by rewrite El, length_insert|]. intros v. rewrite Hl.
    destruct (decide (v ∈ top ++ [node])), (decide (v ∈ x :: top ++ [node])) as [Hin|Hin]; try done.
    + exfalso. apply Hin. by right.
    + apply elem_of_cons in Hin as [->|?]; [|done]. by apply list_lookup_insert_eq.
    + apply list_lookup_insert_ne. intros ->. apply Hin. by left.
Qed.

Section Complete.
Context (gray : list nat) (node : nat) (st0 : Tarjan) (top seen : list nat) (st : Tarjan).
Context (Hwf0 : wf gray st0) (Hv : visiting gray node st0 top seen st).
Context (Hall : forall v, edge_to node v -> v ∈ seen).
Context (low : nat) (Hlow : low_ok st node low top (stack st0) seen).

Notation base := (stack st0).

Lemma visiting_wf : wf (node :: gray) st.
Proof. apply Hv. Qed.

Lemma visiting_sorted : StronglySorted (fun x y => num st y < num st x) (top ++ node :: base).
Proof. rewrite <- (vi_stack _ _ _ _ _ _ Hv). apply visiting_wf. Qed.

Lemma top_above v : v ∈ top -> num st node < num st v.
Proof.
  intros Hin. apply (StronglySorted_app_1_elem_of (fun x y => num st y < num st x) top (node :: base)); [apply visiting_sorted|done|by left].
Qed.

Lemma base_below v : v ∈ base -> num st v < num st node.
Proof.
  intros Hin. pose proof (StronglySorted_app_1_r _ _ _ visiting_sorted) as Hs. apply StronglySorted_inv in Hs as [_ Hf].
  rewrite Forall_forall in Hf. by apply Hf.
Qed.

Lemma on_stack_cases v : v ∈ stack st <-> v ∈ top ++ [node] \/ v ∈ base.
Proof. rewrite (vi_stack _ _ _ _ _ _ Hv), !elem_of_app, elem_of_cons, list_elem_of_singleton. tauto. Qed.

Lemma top_not_base v : v ∈ top ++ [node] -> v ∈ base -> False.
Proof.
  intros [Ht| ->%list_elem_of_singleton]%elem_of_app Hb; pose proof (base_below _ Hb); [|lia]. pose proof (top_above v Ht). lia.
Qed.

Lemma gray_base x : x ∈ gray -> x ∈ base.
Proof. apply (wf_gray _ _ Hwf0). Qed.

Lemma succ_assigned u v : u ∈ top ++ [node] -> edge_to u v -> assigned st v.
Proof.
  intros Hu He. apply elem_of_app in Hu as [Hu| ->%list_elem_of_singleton]; [|by apply (vi_seen _ _ _ _ _ _ Hv), Hall].
  apply (wf_black _ _ visiting_wf u); [|intros [-> |Hg']%elem_of_cons|done].
  - apply (stack_assigned _ _ _ visiting_wf), on_stack_cases. left. apply elem_of_app. by left.
  - pose proof (top_above node Hu). lia.
  - apply (top_not_base u); [apply elem_of_app; by left|by apply gray_base].
Qed.

(** Nothing on the new part of the stack leads below a node that keeps its index. *)
Lemma succ_inside u v : low = num st node -> u ∈ top ++ [node] -> edge_to u v -> v ∈ top ++ [node] \/ completed st v.
Proof.
  intros El Hu He. pose proof (succ_assigned u v Hu He) as Ha. apply (wf_assigned _ _ visiting_wf) in Ha as [Hs|Hc]; [|by right].
  apply on_stack_cases in Hs as [?|Hb]; [by left|]. exfalso. pose proof (base_below v Hb).
  apply elem_of_app in Hu as [Hu| ->%list_elem_of_singleton].
  - pose proof (lo_top _ _ _ _ _ _ Hlow u v Hu Hb He). lia.
  - pose proof (lo_seen _ _ _ _ _ _ Hlow v (Hall v He) Hb). lia.
Qed.

Lemma reach_inside u v : low = num st node -> reaches u v -> u ∈ top ++ [node] \/ completed st u -> v ∈ top ++ [node] \/ completed st v.
Proof.
  intros El. induction 1 as [u|u w v He _ IH]; [done|]. intros [Hu|Hu]; apply IH; [by apply succ_inside with u|].
  right. by apply (wf_closed _ _ visiting_wf u).
Qed.

Lemma completed_closed u v : reaches u v -> completed st u -> completed st v.
Proof. induction 1 as [u|u w v He _ IH]; [done|]. intros Hu. by apply IH, (wf_closed _ _ visiting_wf u). Qed.

Lemma node_reaches v : v ∈ top ++ [node] -> reaches node v.
Proof.
  intros Hin. apply (wf_from_gray _ _ visiting_wf); [by left|apply on_stack_cases; by left|].
  apply elem_of_app in Hin as [Hin| ->%list_elem_of_singleton]; [|done]. pose proof (top_above v Hin). lia.
Qed.

Lemma reaches_node v : low = num st node -> v ∈ top ++ [node] -> reaches v node.
Proof.
  intros El Hin. destruct (wf_to_gray _ _ visiting_wf v) as (x & Hx & _ & Hr); [apply on_stack_cases; by left|].
  apply elem_of_cons in Hx as [->|Hx]; [done|]. exfalso. apply gray_base in Hx.
  destruct (reach_inside v x El Hr (or_introl Hin)) as [Ht|Hc]; [by apply (top_not_base x)|].
  apply (wf_disjoint _ _ visiting_wf x); [apply on_stack_cases; by right|done].
Qed.

Lemma component_strong c : low = num st node -> c ≡ₚ top ++ [node] -> StronglySorted (BTree.le id_order) c -> strong c.
Proof.
  intros El Hc Hord. split; [intros ->; apply Permutation_nil_l in Hc; by destruct top|]. split_and!; [| |done].
  - rewrite Hc. pose proof visiting_sorted as Hs. apply NoDup_app. split_and!.
    + apply StronglySorted_app_1_l in Hs. clear -Hs. induction Hs as [|x l _ IH Hx]; constructor; [|done].
      intros Hin. rewrite Forall_forall in Hx. specialize (Hx x Hin). lia.
    + intros v Hin ->%list_elem_of_singleton. pose proof (top_above node Hin). lia.
    + apply NoDup_singleton.
  - intros u Hu v. rewrite Hc in *. split.
    + intros Hv'. split; (etransitivity; [by apply reaches_node|by apply node_reaches]).
    + intros [Huv Hvu]. destruct (reach_inside u v El Huv (or_introl Hu)) as [?|Hc']; [done|]. exfalso.
      apply (wf_disjoint _ _ visiting_wf u); [apply on_stack_cases; by left|]. by apply (completed_closed v).
Qed.

Definition popped (on : list bool) (c : list nat) : Tarjan :=
  {| next_index := next_index st; indexes := indexes st; lowlinks := lowlinks st; stack := base; on_stack := on;
     components := components st ++ [c] |}.

Lemma popped_completed on c v : c ≡ₚ top ++ [node] -> completed (popped on c) v <-> completed st v \/ v ∈ top ++ [node].
Proof. intros Hc. unfold completed. simpl. rewrite concat_app, elem_of_app. simpl. by rewrite app_nil_r, Hc. Qed.

Lemma popped_wf on c : low = num st node -> c ≡ₚ top ++ [node] -> StronglySorted (BTree.le id_order) c -> length on = N ->
  (forall v, v < N -> on !! v = Some (bool_decide (v ∈ base))) -> wf gray (popped on c).
Proof.
  intros El Hc Hord Hlen Hon. pose proof visiting_wf as Hwf. constructor; simpl; try apply Hwf; try done.
  - pose proof (StronglySorted_app_1_r _ _ _ visiting_sorted) as Hs. by apply StronglySorted_inv in Hs as [Hs _].
  - intros v. rewrite popped_completed by done. change (assigned (popped on c) v) with (assigned st v). rewrite (wf_assigned _ _ Hwf), on_stack_cases. tauto.
  - intros v Hb. rewrite popped_completed by done. intros [Hcm|Ht]; [|by apply (top_not_base v)].
    apply (wf_disjoint _ _ Hwf v); [apply on_stack_cases; by right|done].
  - apply Forall_app. split; [apply Hwf|]. constructor; [|done]. by apply component_strong.
  - intros u v. rewrite !popped_completed by done. intros [Hu|Hu] He; [left; by apply (wf_closed _ _ Hwf u)|].
    destruct (succ_inside u v El Hu He); [by right|by left].
  - apply gray_base.
  - intros u v Ha Hng He. destruct (decide (u = node)) as [->|Hne].
    + apply (succ_assigned node v); [apply elem_of_app; right; by left|done].
    + apply (wf_black _ _ Hwf u); [done| |done]. by apply not_elem_of_cons.
  - intros y Hy. destruct (wf_to_gray _ _ Hwf y) as (x & Hx & Hle & Hr); [apply on_stack_cases; by right|].
    apply elem_of_cons in Hx as [->|Hx]; [pose proof (base_below y Hy); lia|]. by exists x.
  - intros x y Hx Hy. apply (wf_from_gray _ _ Hwf); [by right|apply on_stack_cases; by right].
  - rewrite concat_app. simpl. rewrite app_nil_r, Hc. apply NoDup_app. split_and!.
    + apply Hwf.
    + intros v Hcm Ht. apply (wf_disjoint _ _ Hwf v); [apply on_stack_cases; by left|done].
    + rewrite <- Hc. by apply component_strong.
Qed.

Lemma popped_visited on c : low = num st node -> c ≡ₚ top ++ [node] -> StronglySorted (BTree.le id_order) c -> length on = N ->
  (forall v, v < N -> on !! v = Some (bool_decide (v ∈ base))) -> visited gray node st0 (popped on c).
Proof.
  intros El Hc Hord Hlen Hon. constructor.
  - by apply popped_wf.
  - destruct (vi_extends _ _ _ _ _ _ Hv). constructor; try done. intros v Hcm. apply popped_completed; auto.
  - apply (visiting_node _ _ _ _ _ _ Hv).
  - exists [], low. change (num (popped on c) node) with (num st node). split_and!; [done|apply Hlow|lia|by left|].
    intros u y Hu. by apply elem_of_nil in Hu.
Qed.

(** A node with a path below itself stays stacked. *)
Lemma kept_visited : low <> num st node -> visited gray node st0 st.
Proof.
  intros El. pose proof visiting_wf as Hwf. pose proof (lo_self _ _ _ _ _ _ Hlow) as Hself. constructor.
  - constructor; try apply Hwf.
    + intros v Hg'. apply (wf_gray _ _ Hwf). by right.
    + intros u v Ha Hng He. destruct (decide (u = node)) as [->|Hne].
      * apply (succ_assigned node v); [apply elem_of_app; right; by left|done].
      * apply (wf_black _ _ Hwf u); [done| |done]. by apply not_elem_of_cons.
    + intros y Hy. destruct (wf_to_gray _ _ Hwf y Hy) as (x & Hx & Hle & Hr). apply elem_of_cons in Hx as [->|Hx]; [|by exists x].
      destruct (lo_reach _ _ _ _ _ _ Hlow) as (z & Hz & Ez & Hrz). destruct (wf_to_gray _ _ Hwf z Hz) as (x & Hx & Hle' & Hr').
      apply elem_of_cons in Hx as [->|Hx]; [lia|]. exists x. split_and!; [done|lia|].
      etransitivity; [exact Hr|]. by etransitivity.
    + intros x y Hx. apply (wf_from_gray _ _ Hwf). by right.
  - apply Hv.
  - apply (visiting_node _ _ _ _ _ _ Hv).
  - exists (top ++ [node]), low. split_and!; [rewrite <- app_assoc; apply Hv|apply Hlow|done|right; apply Hlow|].
    intros u y Hu Hy He. apply elem_of_app in Hu as [Hu| ->%list_elem_of_singleton]; [by apply (lo_top _ _ _ _ _ _ Hlow u)|].
    by apply (lo_seen _ _ _ _ _ _ Hlow), Hy; apply Hall.
Qed.
End Complete.

Lemma visit_ok fuel : visits_ok (visit fuel g) fuel.
Proof.
  induction fuel as [|fuel IH]; intros gray node st Hwf Hw Haccess Hfuel.
  { exfalso. pose proof (wf_indexes _ _ Hwf) as Hl. pose proof (start_whites node st Hl Hw). lia. }
  pose proof (wf_indexes _ _ Hwf) as Hl. assert (node < N) as Hn by (apply lookup_lt_Some in Hw; lia).
  pose proof (start_whites node st Hl Hw) as Hless. pose proof (start_wf gray node st Hwf Hw Haccess) as Hwf'.
  cbn [visit]. rewrite !assign_in_range by (rewrite ?(wf_indexes _ _ Hwf), ?(wf_lowlinks _ _ Hwf), ?(wf_on_length _ _ Hwf); done).
  cbn [mbind option_bind]. rewrite (adj_arcs g Hg Out node Hn). cbn [mbind option_bind]. fold (start node st).
  destruct (visit_arcs_ok (visit fuel g) fuel gray node st (adj g Out node) [] [] (start node st)) as (st' & top & E & Hv).
  - exact IH.
  - constructor; [done|by apply start_extends|done| | |by intros v ?%elem_of_nil].
    { simpl. apply list_lookup_insert_eq. lia. }
    exists (next_index st). constructor.
    + simpl. apply list_lookup_insert_eq. rewrite (wf_lowlinks _ _ Hwf). done.
    + rewrite start_num by done. done.
    + exists node. rewrite start_num by done. split_and!; [by left|done|constructor].
    + by intros u y ?%elem_of_nil.
    + by intros v ?%elem_of_nil.
  - done.
  - done.
  - done.
  - intros a Ha. split; [done|]. by exists a.
  - lia.
  - rewrite E. cbn [mbind option_bind]. destruct (vi_low _ _ _ _ _ _ Hv) as [low Hlow]. rewrite (lo_value _ _ _ _ _ _ Hlow).
    cbn [mbind option_bind].
    assert (forall v, edge_to node v -> v ∈ rev (map neighbor (adj g Out node)) ++ []) as Hall.
    { intros v [_ (a & Ha & <-)]. rewrite app_nil_r, <- elem_of_reverse. unfold reverse. rewrite rev_append_rev, app_nil_r, rev_involutive.
      by apply list_elem_of_fmap_2. }
    assert (num st' node = next_index st) as Hnum by (apply num_eq, (vi_index _ _ _ _ _ _ Hv)).
    rewrite <- Hnum. destruct (Nat.eqb_spec low (num st' node)) as [El|El].
    + rewrite (vi_stack _ _ _ _ _ _ Hv). pose proof (vi_wf _ _ _ _ _ _ Hv) as Hwf''.
      assert (forall v, v ∈ top ++ [node] -> v < N) as Hr.
      { intros v Hin. apply (assigned_range st'), (stack_assigned _ _ _ Hwf''); [apply Hwf''|].
        rewrite (vi_stack _ _ _ _ _ _ Hv). rewrite cons_middle, app_assoc. apply elem_of_app. by left. }
      destruct (pop_component_some node top (stack st) (on_stack st') []) as (on & -> & Hlen & Hon).
      * intros Hin. pose proof (top_above gray node st top _ st' Hv node Hin). lia.
      * apply Forall_forall. intros v Hin. rewrite (wf_on_length _ _ Hwf''). auto.
      * cbn [mbind option_bind app]. destruct (sort_component (top ++ [node])) as (c & -> & Hc & Hord); [by apply Forall_forall|].
        cbn [mbind option_bind]. eexists. split; [done|]. apply (popped_visited gray node st top _ st' Hwf Hv Hall low Hlow on c El Hc Hord).
        -- rewrite Hlen. apply Hwf''.
        -- intros v Hvn. rewrite Hon. destruct (decide (v ∈ top ++ [node])) as [Hin|Hin].
           ++ f_equal. symmetry. apply bool_decide_eq_false. intros Hb. by apply (top_not_base gray node st top _ st' Hv v).
           ++ rewrite (wf_on _ _ Hwf'') by done. f_equal. apply bool_decide_ext. rewrite (on_stack_cases _ _ _ _ _ _ Hv). tauto.
    + exists st'. split; [done|]. by apply (kept_visited gray node st top _ st' Hwf Hv Hall low).
Qed.

(** ** The whole graph *)

Lemma visit_all_ok nodes st : wf [] st -> Forall (fun v => v < N) nodes -> whites st <= N ->
  exists st', visit_all g nodes st = Some st' /\ wf [] st' /\ extends st st' /\ forall v, v ∈ nodes -> assigned st' v.
Proof.
  revert st. induction nodes as [|v nodes IH]; intros st Hwf Hr Hw.
  { exists st. split_and!; [done|done|apply extends_refl|]. by intros v ?%elem_of_nil. }
  apply Forall_cons in Hr as [Hv Hr]. cbn [visit_all]. pose proof (wf_indexes _ _ Hwf) as Hl.
  assert (exists st', (match indexes st !! v with Some (Some _) => Some st | Some None => visit N g v st | None => None end) = Some st' /\
    wf [] st' /\ extends st st' /\ assigned st' v) as (st' & E & Hwf' & Hext & Ha).
  { destruct (white_or_assigned st v Hl Hv) as [Hwh|[i Ei]].
    - rewrite Hwh. destruct (visit_ok N [] v st Hwf Hwh) as (st' & E & []); [by intros x ?%elem_of_nil|done|]. eauto.
    - rewrite Ei. exists st. split_and!; [done|done|apply extends_refl|by exists i]. }
  destruct (IH st' Hwf' Hr) as (st'' & E' & Hwf'' & Hext' & Ha').
  { pose proof (extends_whites st st' Hext). lia. }
  exists st''. split_and!; [|done|by apply (extends_trans st st')|].
  - destruct (indexes st !! v) as [[i|]|]; cbn [mbind option_bind]; [injection E as <-; done| |done]. by rewrite E.
  - intros w [->|Hw']%elem_of_cons; [by apply (extends_num st' st'')|auto].
Qed.

Definition first_order (a b : list nat) : comparison := id_order (default 0 (head a)) (default 0 (head b)).

#[local] Instance first_order_lawful : LawfulCompare first_order.
Proof. apply (preimage_lawful (fun l => default 0 (head l)) id_order). apply _. Qed.

Lemma by_first_some a b : strong a -> strong b -> Forall (fun v => v < N) a -> Forall (fun v => v < N) b -> by_first g a b = Some (first_order a b).
Proof.
  intros [Ha _] [Hb _] Hra Hrb. destruct a as [|x a], b as [|y b]; try done.
  apply Forall_inv in Hra, Hrb. unfold by_first, first_order. simpl. by apply by_id_some.
Qed.

Lemma initial_wf : wf [] {| next_index := 0; indexes := replicate N None; lowlinks := replicate N 0; stack := [];
    on_stack := replicate N false; components := [] |}.
Proof.
  assert (forall v i, replicate N (@None nat) !! v <> Some (Some i)) as Hnone by (intros v i [[=] _]%lookup_replicate_1).
  constructor; simpl; try apply length_replicate; try (by intros v ?%elem_of_nil); try (by constructor).
  - by intros v i E%Hnone.
  - intros v Hv. by rewrite lookup_replicate_2.
  - intros v. unfold assigned, completed. simpl. rewrite !elem_of_nil. split; [by intros [i E%Hnone]|tauto].
  - intros u v Hc. by apply elem_of_nil in Hc.
  - by intros u v [i E%Hnone].
  - by intros x y ?%elem_of_nil.
Qed.

Lemma components_exact : exists cs, strongly_connected_components g = Some cs /\ Forall strong cs /\ concat cs ≡ₚ seq 0 N /\
  StronglySorted (BTree.le first_order) cs.
Proof.
  unfold strongly_connected_components.
  destruct (visit_all_ok (seq 0 N) _ initial_wf) as (st & -> & Hwf & _ & Ha).
  { apply Forall_forall. intros v Hv%elem_of_seq. lia. }
  { etransitivity; [apply length_filter|]. by rewrite length_seq. }
  cbn [mbind option_bind].
  assert (forall v, v < N <-> completed st v) as Hc.
  { intros v. split.
    - intros Hv. specialize (Ha v ltac:(apply elem_of_seq; lia)). apply (wf_assigned _ _ Hwf) in Ha as [Hs|?]; [|done].
      destruct (wf_to_gray _ _ Hwf v Hs) as (x & Hx & _). by apply elem_of_nil in Hx.
    - intros Hv. apply (assigned_range st); [apply Hwf|]. apply (wf_assigned _ _ Hwf). by right. }
  assert (concat (components st) ≡ₚ seq 0 N) as Hperm.
  { apply NoDup_Permutation; [apply Hwf|apply NoDup_seq|]. intros v. rewrite <- (Hc v), elem_of_seq. lia. }
  pose proof (wf_strong _ _ Hwf) as Hst. pose proof Hst as Hst'. rewrite Forall_forall in Hst'.
  rewrite (BTree.sort_by_opt_some first_order).
  - exists (BTree.sort_by first_order (components st)). pose proof (BTree.sort_by_perm first_order (components st)) as Hp. split_and!; [done| | |].
    + by rewrite Hp.
    + by rewrite Hp.
    + apply (BTree.sort_by_sorted first_order).
  - assert (forall a, a ∈ components st -> Forall (fun v => v < N) a) as Hr.
    { intros a Hin. apply Forall_forall. intros v Hv. apply Hc. apply list_elem_of_In, in_concat. exists a. by rewrite <- !list_elem_of_In. }
    intros a b Hina Hinb. apply by_first_some; auto.
Qed.
End Tarjan.
End CyclesTarjan.
