(* ===== verification/CyclesConnected.v ===== *)
(** Connected components are exact: [Graph::connected_components] (cycles.rs), whose
    searches visit each node once. *)
From S2P Require Import Prelude Bytes BTree ExternalId Graph GraphSearch Traversal TraversalSpec Cycles.

Open Scope nat_scope.

Module CyclesConnected.
Export TraversalSpec Cycles.

Section Connected.
Context {JN : JsonNumber}.
Context (g : GraphInner) (Hg : graph_ok g).
Notation N := (node_count g).

(** An edge joins [u] and [v]. *)
Definition joined (u v : nat) : Prop := u < N /\ exists a, a ∈ adj g Both u /\ neighbor a = v.
Notation connected := (rtc joined).

Lemma joined_range u v : joined u v -> u < N /\ v < N.
Proof. intros [Hu (a & Ha & <-)]. split; [done|]. by apply (adj_range g Hg Both u). Qed.

Lemma joined_sym u v : joined u v -> joined v u.
Proof.
  intros [Hu (a & Ha & <-)]. pose proof (adj_range g Hg Both u a Hu Ha) as Hv. split; [done|].
  apply (in_adj g Hg) in Ha; [|done]. exists {| neighbor := u; arc_edge := arc_edge a |}. split; [|done]. apply (in_adj g Hg); [done|].
  unfold incident in *. assert ((if is_directed (kind g) then Both else Both) = Both) as E by by destruct (is_directed _).
  rewrite E in *. destruct Ha as [(e & H1 & H2 & H3)|(e & H1 & H2 & H3)]; [right|left]; exists e; by split_and!.
Qed.

Lemma connected_sym u v : connected u v -> connected v u.
Proof. induction 1 as [u|u w v Huw _ IH]; [constructor|]. eapply rtc_r; [exact IH|]. by apply joined_sym. Qed.

Lemma component_arcs_ok arcs seen visited queue : marks g seen visited -> (forall a, a ∈ arcs -> neighbor a < N) ->
  exists visited' new, component_arcs arcs visited queue = Some (visited', queue ++ new) /\ marks g (seen ++ new) visited' /\
    NoDup new /\ (forall v, v ∈ new -> v ∉ seen /\ exists a, a ∈ arcs /\ neighbor a = v) /\
    forall a, a ∈ arcs -> neighbor a ∈ seen ++ new.
Proof.
  revert seen visited queue. induction arcs as [|a arcs IH]; intros seen visited queue Hm Hr; cbn [component_arcs].
  { exists visited, []. rewrite !app_nil_r. split_and!; [done|done|constructor|by intros v ?%elem_of_nil|by intros a ?%elem_of_nil]. }
  assert (neighbor a < N) as Ha by (apply Hr; by left). rewrite (proj2 Hm _ Ha). cbn [mbind option_bind].
  assert (forall b, b ∈ arcs -> neighbor b < N) as Hr' by (intros; apply Hr; by right).
  case_bool_decide as Hin.
  - destruct (IH seen visited queue Hm Hr') as (v' & new & E & M & Hnd & Hnew & Hall). exists v', new. split_and!; try done.
    + intros v Hv. destruct (Hnew v Hv) as [? (b & ? & ?)]. split; [done|]. exists b. split; [by right|done].
    + intros b [->|Hb]%elem_of_cons; [apply elem_of_app; by left|auto].
  - destruct (mark_some g seen visited (neighbor a) Hm Ha) as (visited1 & E1 & M1). unfold assign. unfold mark in E1. rewrite E1.
    cbn [mbind option_bind]. destruct (IH (neighbor a :: seen) visited1 (queue ++ [neighbor a]) M1 Hr') as (v' & new & E & M & Hnd & Hnew & Hall).
    exists v', (neighbor a :: new). rewrite E, <- app_assoc. split_and!; [done| | | |].
    + eapply marks_ext; [|exact M]. intros v. rewrite !elem_of_app, !elem_of_cons, ?elem_of_app. tauto.
    + constructor; [|done]. intros Hc. destruct (Hnew _ Hc) as [Hne _]. apply Hne. by left.
    + intros v [->|Hv]%elem_of_cons; [split; [done|]; exists a; split; [by left|done]|].
      destruct (Hnew v Hv) as [Hne (b & ? & ?)]. split; [intros ?; apply Hne; by right|]. exists b. split; [by right|done].
    + intros b [->|Hb]%elem_of_cons; [apply elem_of_app; right; by left|]. specialize (Hall b Hb). apply elem_of_app in Hall as [[->|?]%elem_of_cons|?]; apply elem_of_app; [right; by left|by left|right; by right].
Qed.

(** The search of one component, after the components [before]. *)
Record searching (before : list nat) (start : nat) (visited : list bool) (queue component : list nat) : Prop := {
  se_marks : marks g (before ++ component ++ queue) visited;
  se_nodup : NoDup (before ++ component ++ queue);
  se_range : forall v, v ∈ component ++ queue -> v < N;
  se_start : start ∈ component ++ queue;
  se_connected : forall v, v ∈ component ++ queue -> connected start v;
  se_closed : forall u v, u ∈ component -> joined u v -> v ∈ before ++ component ++ queue }.

Lemma component_step before start visited node queue component : searching before start visited (node :: queue) component ->
  exists visited' new, component_arcs (adj g Both node) visited queue = Some (visited', queue ++ new) /\
    searching before start visited' (queue ++ new) (component ++ [node]).
Proof.
  intros [Hm Hnd Hr Hs Hc Hcl]. assert (node < N) as Hn by (apply Hr, elem_of_app; right; by left).
  destruct (component_arcs_ok (adj g Both node) _ visited queue Hm) as (v' & new & E & M & Hndn & Hnew & Hall).
  { intros a Ha. by apply (adj_range g Hg Both node). }
  exists v', new. split; [done|].
  assert ((component ++ [node]) ++ queue ++ new = (component ++ node :: queue) ++ new) as E1 by (by rewrite <- !app_assoc).
  assert (before ++ (component ++ [node]) ++ queue ++ new = (before ++ component ++ node :: queue) ++ new) as E2 by (by rewrite <- !app_assoc).
  assert (forall v, v ∈ new -> joined node v) as Hj.
  { intros v Hv. destruct (Hnew v Hv) as [_ (a & Ha & <-)]. split; [done|]. by exists a. }
  constructor; rewrite ?E2, ?E1.
  - done.
  - apply NoDup_app. split_and!; [done| |done]. intros v Hv Hvn. by destruct (Hnew v Hvn).
  - intros v [Hv|Hv]%elem_of_app; [auto|]. by apply (joined_range node), Hj.
  - apply elem_of_app. by left.
  - intros v [Hv|Hv]%elem_of_app; [auto|]. eapply rtc_r; [|by apply Hj]. apply Hc, elem_of_app. right. by left.
  - intros u v [Hu|Hu]%elem_of_app Hjo.
    + apply elem_of_app. left. by apply (Hcl u).
    + apply list_elem_of_singleton in Hu as ->. destruct Hjo as [_ (a & Ha & <-)]. by apply Hall.
Qed.

Lemma nodup_range (l : list nat) : NoDup l -> (forall v, v ∈ l -> v < N) -> length l <= N.
Proof.
  intros Hnd Hr. rewrite <- (length_seq N 0). apply (NoDup_incl_length).
  - by apply NoDup_ListNoDup.
  - intros v Hv%list_elem_of_In. apply in_seq. specialize (Hr v Hv). lia.
Qed.

Lemma component_loop_ok fuel before start visited queue component : searching before start visited queue component ->
  N <= fuel + length component ->
  exists visited' component', component_loop fuel g visited queue component = Some (visited', component') /\
    searching before start visited' [] component'.
Proof.
  revert visited queue component. induction fuel as [|fuel IH]; intros visited queue component Hs Hf.
  - destruct queue as [|node queue]; [exists visited, component; by split|]. exfalso.
    pose proof (nodup_range (component ++ node :: queue)) as Hl. rewrite length_app in Hl. simpl in Hl.
    assert (length component + S (length queue) <= N); [|lia]. apply Hl; [|apply Hs].
    pose proof (se_nodup _ _ _ _ _ Hs) as Hnd. by apply NoDup_app in Hnd as (_ & _ & ?).
  - destruct queue as [|node queue]; [exists visited, component; by split|]. cbn [component_loop].
    rewrite (adj_arcs g Hg Both node) by (apply (se_range _ _ _ _ _ Hs), elem_of_app; right; by left). cbn [mbind option_bind].
    destruct (component_step _ _ _ _ _ _ Hs) as (v' & new & E & Hs'). rewrite E. cbn [mbind option_bind fst snd].
    apply IH; [done|]. rewrite length_app. simpl. lia.
Qed.

(** A class of connected nodes. *)
Definition whole (c : list nat) : Prop := c <> [] /\ NoDup c /\ forall u, u ∈ c -> forall v, v ∈ c <-> connected u v.

Lemma searched_whole before start visited component : searching before start visited [] component ->
  (forall u v, u ∈ before -> joined u v -> v ∈ before) -> whole component.
Proof.
  intros [Hm Hnd Hr Hs Hc Hcl] Hb. rewrite !app_nil_r in *.
  assert (forall u v, u ∈ component -> joined u v -> v ∈ component) as Hstep.
  { intros u v Hu Hj. destruct (elem_of_app before component v) as [Hin _]. destruct (Hin (Hcl u v Hu Hj)) as [Hv|?]; [|done].
    exfalso. apply NoDup_app in Hnd as (_ & Hd & _). apply (Hd u); [|done]. apply (Hb v); [done|by apply joined_sym]. }
  split; [by intros ->; apply elem_of_nil in Hs|]. split; [by apply NoDup_app in Hnd as (_ & _ & ?)|]. intros u Hu v. split.
  - intros Hv. etransitivity; [apply connected_sym, Hc, Hu|by apply Hc].
  - intros Huv. revert Hu. induction Huv as [u|u w v Hj _ IH]; [done|]. intros Hu. by apply IH, (Hstep u).
Qed.

Lemma components_from_ok starts visited cs : marks g (concat cs) visited -> NoDup (concat cs) -> Forall whole cs ->
  (forall v, v ∈ concat cs -> v < N) -> (forall v, v ∈ starts -> v < N) ->
  exists cs', components_from g starts visited cs = Some cs' /\ Forall whole cs' /\ NoDup (concat cs') /\
    (forall v, v ∈ concat cs' -> v < N) /\ forall v, v ∈ starts \/ v ∈ concat cs -> v ∈ concat cs'.
Proof.
  revert visited cs. induction starts as [|start starts IH]; intros visited cs Hm Hnd Hw Hr Hst.
  { exists cs. split_and!; try done. intros v [?%elem_of_nil|?]; done. }
  assert (start < N) as Hs by (apply Hst; by left). cbn [components_from]. rewrite (proj2 Hm start Hs). cbn [mbind option_bind].
  assert (forall v, v ∈ starts -> v < N) as Hst' by (intros; apply Hst; by right). case_bool_decide as Hin.
  - destruct (IH visited cs) as (cs' & E & ? & ? & ? & Hall); [done..|]. exists cs'. split_and!; try done.
    intros v [[->|Hv]%elem_of_cons|Hv]; apply Hall; auto.
  - destruct (mark_some g (concat cs) visited start Hm Hs) as (visited1 & E1 & M1). unfold assign. unfold mark in E1. rewrite E1.
    cbn [mbind option_bind].
    destruct (component_loop_ok N (concat cs) start visited1 [start] []) as (visited2 & c & E & Hs2).
    { constructor; simpl.
      - eapply marks_ext; [|exact M1]. intros v. rewrite elem_of_app, elem_of_cons, list_elem_of_singleton. tauto.
      - apply NoDup_app. split_and!; [done|by intros v Hv ->%list_elem_of_singleton|apply NoDup_singleton].
      - by intros v ->%list_elem_of_singleton.
      - by left.
      - intros v ->%list_elem_of_singleton. constructor.
      - by intros u v ?%elem_of_nil. }
    { lia. }
    rewrite E. cbn [mbind option_bind fst snd].
    assert (concat (cs ++ [c]) = concat cs ++ c) as Ec by (rewrite concat_app; simpl; by rewrite app_nil_r).
    assert (whole c) as Hc.
    { apply (searched_whole (concat cs) start visited2 c Hs2). intros u v Hu Hj.
      apply list_elem_of_In, in_concat in Hu as (d & Hd & Hud). rewrite <- !list_elem_of_In in *. rewrite Forall_forall in Hw.
      destruct (Hw d Hd) as (_ & _ & Hd'). apply list_elem_of_In, in_concat. exists d. rewrite <- !list_elem_of_In. split; [done|].
      apply (Hd' u); [done|]. by apply rtc_once. }
    destruct Hs2 as [M2 Hnd2 Hr2 Hst2 _ _]. rewrite !app_nil_r in *.
    destruct (IH visited2 (cs ++ [c])) as (cs' & E' & ? & ? & ? & Hall); rewrite ?Ec; try done.
    { apply Forall_app. split; [done|]. by constructor. }
    { intros v [?|?]%elem_of_app; auto. }
    exists cs'. split_and!; try done. rewrite Ec in Hall. intros v Hv. apply Hall. rewrite elem_of_app.
    destruct Hv as [[->|Hv]%elem_of_cons|Hv]; auto.
Qed.

Lemma connected_exact : exists cs, connected_components g = Some cs /\ Forall whole cs /\ concat cs ≡ₚ seq 0 N.
Proof.
  destruct (components_from_ok (seq 0 N) (replicate N false) []) as (cs & E & Hw & Hnd & Hr & Hall).
  - apply marks_nil.
  - constructor.
  - constructor.
  - by intros v ?%elem_of_nil.
  - intros v ?%elem_of_seq. lia.
  - exists cs. split_and!; [done|done|]. apply NoDup_Permutation; [done|apply NoDup_seq|]. intros v. split.
    + intros Hv. apply elem_of_seq. specialize (Hr v Hv). lia.
    + intros Hv. apply Hall. by left.
Qed.
End Connected.
End CyclesConnected.
