(* ===== verification/CyclesCanonical.v ===== *)
(** Canonical cycles: [canonical_cycle] and [rotations] of cycles.rs pick the least
    rotation of a cycle, in either direction when edges have none; and the map that
    keeps, for each node sequence, its least edge sequence. *)
From S2P Require Import Prelude Bytes BTree ExternalId Graph GraphSearch Traversal TraversalSpec Cycles.

Open Scope nat_scope.

Module CyclesCanonical.
Export TraversalSpec Cycles.

(** ** Rotations *)

Definition rotated {A} (l l' : list A) : Prop := exists a b, l = a ++ b /\ l' = b ++ a.
Definition rot {A} (o : nat) (l : list A) : list A := drop o l ++ take o l.

Lemma rotated_rot {A} (l : list A) o : rotated l (rot o l).
Proof. exists (take o l), (drop o l). by rewrite take_drop. Qed.

Lemma rotated_sym {A} (l l' : list A) : rotated l l' -> rotated l' l.
Proof. intros (a & b & -> & ->). by exists b, a. Qed.

Lemma rotated_trans {A} (l l' l'' : list A) : rotated l l' -> rotated l' l'' -> rotated l l''.
Proof.
  intros (a & b & -> & ->) (c & d & E & ->). apply app_eq_app in E as [k [[-> ->]|[-> ->]]].
  - exists (a ++ c), k. by rewrite <- !app_assoc.
  - exists k, (d ++ b). by rewrite <- !app_assoc.
Qed.

Lemma rotated_rev {A} (l l' : list A) : rotated l l' -> rotated (reverse l) (reverse l').
Proof. intros (a & b & -> & ->). exists (reverse b), (reverse a). by rewrite !reverse_app. Qed.

Lemma rotated_length {A} (l l' : list A) : rotated l l' -> length l' = length l.
Proof. intros (a & b & -> & ->). rewrite !length_app. lia. Qed.

Lemma rotated_offset {A} (l l' : list A) : l <> [] -> rotated l l' -> exists o, o < length l /\ l' = rot o l.
Proof.
  intros Hl (a & b & -> & ->). destruct b as [|x b].
  - exists 0. rewrite app_nil_r in *. split; [destruct a; [done|simpl; lia]|]. unfold rot. simpl. by rewrite app_nil_r.
  - exists (length a). rewrite length_app. split; [simpl; lia|]. unfold rot. by rewrite drop_app_length, take_app_length.
Qed.

Lemma rot_map {A B} (f : A -> B) o l : rot o (map f l) = map f (rot o l).
Proof. unfold rot. by rewrite map_app, <- skipn_map, <- firstn_map. Qed.

Section Canonical.
Context {JN : JsonNumber}.

Lemma rotate_some {A} (l : list A) o : o <= length l -> rotate l o = Some (rot o l).
Proof. intros Ho. unfold rotate. by rewrite (proj2 (Nat.leb_le _ _)). Qed.

Definition rots {A B} (nodes : list A) (edges : list B) : list (list A * list B) :=
  map (fun o => (rot o nodes, rot o edges)) (seq 0 (length nodes)).

Lemma rotations_some nodes edges : length edges = length nodes -> rotations nodes edges = Some (rots nodes edges).
Proof.
  intros Hl. unfold rotations, rots. assert (forall k n, k + n <= length nodes ->
    mapM (fun offset => x ← rotate nodes offset; y ← rotate edges offset; Some (x, y)) (seq k n) =
    Some (map (fun o => (rot o nodes, rot o edges)) (seq k n))) as H; [|by apply H].
  intros k n. revert k. induction n as [|n IH]; intros k Hk; [done|]. cbn [seq mapM map].
  rewrite !rotate_some by lia. cbn [mbind option_bind]. by rewrite IH by lia.
Qed.

Lemma in_rots {A B} (nodes : list A) (edges : list B) c : c ∈ rots nodes edges <->
  exists o, o < length nodes /\ c = (rot o nodes, rot o edges).
Proof.
  unfold rots. rewrite list_elem_of_fmap. split.
  - intros (o & -> & Ho%elem_of_seq). exists o. split; [lia|done].
  - intros (o & Ho & ->). exists o. split; [done|]. apply elem_of_seq. lia.
Qed.

(** The edges of the reversed node sequence: all but the last, reversed. *)
Definition rev_edges {A} (edges : list A) : list A :=
  match reverse edges with
  | [] => []
  | x :: r => r ++ [x]
  end.

Lemma rev_edges_snoc {A} (l : list A) x : rev_edges (l ++ [x]) = reverse l ++ [x].
Proof. unfold rev_edges. by rewrite reverse_snoc. Qed.

Lemma rev_edges_map {A B} (f : A -> B) l : rev_edges (map f l) = map f (rev_edges l).
Proof.
  destruct l as [|x l _] using rev_ind; [done|]. rewrite map_app. simpl. rewrite !rev_edges_snoc, map_app. f_equal. symmetry. apply fmap_reverse.
Qed.

Lemma mapM_lookup {A B} (f : A -> option B) l k : length l = length k ->
  (forall i x, l !! i = Some x -> f x = k !! i) -> mapM f l = Some k.
Proof.
  revert k. induction l as [|x l IH]; intros [|y k] Hl H; try done. cbn [mapM].
  rewrite (H 0 x eq_refl). simpl. rewrite (IH k); [done|by injection Hl|]. intros i z Hz. by apply (H (S i)).
Qed.

Lemma reversed_edges {A} (edges : list A) :
  mapM (fun index => edges !! ((length edges + length edges - 2 - index) mod length edges)) (seq 0 (length edges)) = Some (rev_edges edges).
Proof.
  destruct edges as [|x l _] using rev_ind; [done|]. rewrite rev_edges_snoc, length_app. cbn [length].
  apply mapM_lookup; [by rewrite length_seq, length_app, length_reverse|]. intros i j Hj. apply lookup_seq in Hj as [-> Hi]. cbn [Nat.add].
  destruct (decide (i = length l)) as [->|Hne].
  - replace ((length l + 1 + (length l + 1) - 2 - length l) mod (length l + 1)) with (length l)
      by (rewrite Nat.mod_small; lia).
    rewrite !lookup_app_r by (rewrite ?length_reverse; lia). by rewrite length_reverse, Nat.sub_diag.
  - replace ((length l + 1 + (length l + 1) - 2 - i) mod (length l + 1)) with (length l - S i).
    + rewrite !lookup_app_l by (rewrite ?length_reverse; lia). by rewrite reverse_lookup by lia.
    + replace (length l + 1 + (length l + 1) - 2 - i) with (length l - S i + 1 * (length l + 1)) by lia.
      rewrite Nat.Div0.mod_add, Nat.mod_small; lia.
Qed.

(** ** The least candidate *)

#[export] Instance ids_cmp_strict : StrictCompare ids_cmp := lex_strict id_cmp.
#[export] Instance edge_ids_cmp_strict : StrictCompare edge_ids_cmp := lex_strict edge_id_cmp.

#[export] Instance candidate_cmp_strict : StrictCompare candidate_cmp.
Proof.
  split.
  - apply then_with_lawful; [apply (preimage_lawful fst ids_cmp)|apply (preimage_lawful snd edge_ids_cmp)]; apply _.
  - intros [a b] [c d]. unfold candidate_cmp. simpl. destruct (ids_cmp a c) eqn:E; try done. simpl. intros E'.
    apply (cmp_eq (cmp := ids_cmp)) in E as ->. by apply (cmp_eq (cmp := edge_ids_cmp)) in E' as ->.
Qed.

Lemma minimum_least {A} (cmp : A -> A -> comparison) `{!LawfulCompare cmp} l : l <> [] ->
  exists m, minimum cmp l = Some m /\ m ∈ l /\ forall x, x ∈ l -> BTree.le cmp m x.
Proof.
  destruct l as [|x l]; [done|]. intros _. simpl. eexists. split; [done|].
  assert (forall seen best, best ∈ seen -> (forall y, y ∈ seen -> BTree.le cmp best y) ->
    let m := fold_left (fun best y => match cmp y best with Lt => y | _ => best end) l best in
    m ∈ seen ++ l /\ forall y, y ∈ seen ++ l -> BTree.le cmp m y) as H.
  { induction l as [|y l IH]; intros seen best Hb Hle; simpl; [by rewrite app_nil_r|].
    rewrite cons_middle, app_assoc. apply IH.
    - destruct (cmp y best); apply elem_of_app; [by left|right; by left|by left].
    - assert (forall z, BTree.le cmp z best -> forall u, u ∈ seen -> BTree.le cmp z u) as Htr
        by (intros z Hz u Hu; eapply BTree.le_trans; [done|exact Hz|auto]).
      intros u [Hu| ->%list_elem_of_singleton]%elem_of_app.
      + destruct (cmp y best) eqn:E; auto. apply Htr; [|done]. unfold BTree.le. by rewrite E.
      + unfold BTree.le. destruct (cmp y best) eqn:E; rewrite ?(cmp_refl (cmp := cmp)); try done.
        * by rewrite (cmp_sym (cmp := cmp) y best), E.
        * by rewrite (cmp_sym (cmp := cmp) y best), E. }
  apply (H [x] x); [by left|]. intros y ->%list_elem_of_singleton. unfold BTree.le. by rewrite (cmp_refl (cmp := cmp)).
Qed.

(** ** Simple cycles *)

Section Graph.
Context (g : GraphInner) (Hg : graph_ok g).
Notation N := (node_count g).

Definition dir : TraversalDirection := if is_directed (kind g) then Out else Both.

(** The edge [e] leads from [u] to [v]; without direction, it joins them. *)
Definition joins (u e v : nat) : Prop := incident g u dir {| neighbor := v; arc_edge := e |}.

(** Each edge leads from its node to the next, the last one to [last]. *)
Fixpoint chain (nodes edges : list nat) (last : nat) : Prop :=
  match nodes, edges with
  | u :: nodes, e :: edges => joins u e (default last (head nodes)) /\ chain nodes edges last
  | [], [] => True
  | _, _ => False
  end.

(** A simple cycle: distinct nodes and distinct edges, closed at the first node. *)
Record cycle (nodes edges : list nat) : Prop := {
  cy_nonempty : nodes <> [];
  cy_nodes : NoDup nodes;
  cy_edges : NoDup edges;
  cy_chain : chain nodes edges (default 0 (head nodes)) }.

Lemma chain_length nodes edges last : chain nodes edges last -> length edges = length nodes.
Proof. revert edges. induction nodes as [|u nodes IH]; intros [|e edges]; simpl; try done. intros [_ H]. f_equal. by apply IH. Qed.

Lemma chain_app n1 e1 n2 e2 last : length e1 = length n1 ->
  chain (n1 ++ n2) (e1 ++ e2) last <-> chain n1 e1 (default last (head n2)) /\ chain n2 e2 last.
Proof.
  revert e1. induction n1 as [|u n1 IH]; intros [|e e1]; try done; simpl; [tauto|]. intros [= Hl]. rewrite IH by done.
  assert (default last (head (n1 ++ n2)) = default (default last (head n2)) (head n1)) as -> by by destruct n1. tauto.
Qed.

Lemma chain_range nodes edges last : chain nodes edges last -> Forall (fun u => u < N) nodes /\
  Forall (fun e => exists x, edge_at g e = Some x) edges.
Proof.
  revert edges. induction nodes as [|u nodes IH]; intros [|e edges]; simpl; try done. intros [Hj Hc].
  apply incident_range in Hj as (Hu & _ & He). destruct (IH edges Hc). by split; constructor.
Qed.

Lemma cycle_rot o nodes edges : cycle nodes edges -> cycle (rot o nodes) (rot o edges).
Proof.
  intros [Hne Hn He Hc]. pose proof (chain_length _ _ _ Hc) as Hl. pose proof (rotated_rot nodes o) as Hr.
  assert (rot o nodes <> []) as Hne' by (intros E; apply rotated_length in Hr; rewrite E in Hr; by destruct nodes).
  constructor; [done| | |].
  - unfold rot. rewrite Permutation_app_comm. by rewrite take_drop.
  - unfold rot. rewrite Permutation_app_comm. by rewrite take_drop.
  - rewrite <- (take_drop o nodes), <- (take_drop o edges) in Hc. apply chain_app in Hc as [H1 H2]; [|rewrite !length_take; lia].
    unfold rot. apply chain_app; [rewrite !length_drop; lia|].
    unfold rot in Hne'.
    destruct (take o nodes) as [|x l] eqn:E1, (drop o nodes) as [|y k] eqn:E2; simpl in *; try done.
Qed.

Lemma undirected_sym : is_directed (kind g) = false -> forall u e v, joins u e v -> joins v e u.
Proof.
  intros Hd u e v. unfold joins, incident. rewrite Hd. unfold out_arc, in_arc. cbn [neighbor arc_edge].
  intros [(x & H1 & H2 & H3)|(x & H1 & H2 & H3)]; [right|left]; eauto.
Qed.

Lemma chain_rev u nodes edges last : is_directed (kind g) = false -> chain (u :: nodes) edges last ->
  chain (last :: reverse nodes) (reverse edges) u.
Proof.
  intros Hd. revert u edges. induction nodes as [|v nodes IH]; intros u [|e edges]; try done; intros [Hj Hc].
  - destruct edges; [|done]. simpl in *. split; [by apply undirected_sym|done].
  - apply IH in Hc. rewrite !reverse_cons. change (last :: reverse nodes ++ [v]) with ((last :: reverse nodes) ++ [v]).
    apply chain_app; [by apply chain_length in Hc|]. simpl. split; [done|]. split; [by apply undirected_sym|done].
Qed.

Lemma cycle_rev nodes edges : is_directed (kind g) = false -> cycle nodes edges -> cycle (reverse nodes) (rev_edges edges).
Proof.
  intros Hd [Hne Hn He Hc]. destruct nodes as [|u nodes]; [done|]. pose proof (chain_rev _ _ _ _ Hd Hc) as Hr. simpl in Hr.
  assert (cycle (u :: reverse nodes) (reverse edges)) as Hcy.
  { constructor; [done| | |done].
    - rewrite reverse_Permutation. done.
    - by rewrite reverse_Permutation. }
  apply (cycle_rot 1) in Hcy. unfold rot in Hcy. simpl in Hcy. rewrite reverse_cons. unfold rev_edges.
  destruct (reverse edges) as [|x r] eqn:E; [done|]. simpl in Hcy. by rewrite drop_0 in Hcy.
Qed.

Definition node_ids : list nat -> option (list ExternalId) := mapM (node_id g).
Definition edge_ids : list nat -> option (list EdgeId) := mapM (fun e => edge_id <$> edge_at g e).

(** A simple cycle, by identities. *)
Definition id_cycle (nodes : list ExternalId) (edges : list EdgeId) : Prop :=
  exists ns es, cycle ns es /\ node_ids ns = Some nodes /\ edge_ids es = Some edges.

Lemma mapM_rot {A B} (f : A -> option B) o l k : mapM f l = Some k -> mapM f (rot o l) = Some (rot o k).
Proof. rewrite !mapM_Some. intros H. unfold rot. apply Forall2_app; [by apply Forall2_drop|by apply Forall2_take]. Qed.

Lemma mapM_reverse {A B} (f : A -> option B) l k : mapM f l = Some k -> mapM f (reverse l) = Some (reverse k).
Proof. rewrite !mapM_Some. apply Forall2_reverse. Qed.

Lemma mapM_rev_edges {A B} (f : A -> option B) l k : mapM f l = Some k -> mapM f (rev_edges l) = Some (rev_edges k).
Proof.
  intros H. apply mapM_reverse in H. unfold rev_edges. rewrite !mapM_Some in *.
  destruct H as [|x y r r' Hx Hr]; [constructor|]. apply Forall2_app; [done|]. by constructor.
Qed.

Lemma cycle_ids ns es : cycle ns es -> exists nodes edges, node_ids ns = Some nodes /\ edge_ids es = Some edges /\ id_cycle nodes edges.
Proof.
  intros Hc. destruct (chain_range _ _ _ (cy_chain _ _ Hc)) as [Hn He].
  assert (is_Some (node_ids ns)) as [nodes En].
  { apply mapM_is_Some. eapply Forall_impl; [exact Hn|]. intros u Hu. change (is_Some (node_id g u)). rewrite (node_id_of g) by done. by eexists. }
  assert (is_Some (edge_ids es)) as [edges Ee].
  { apply mapM_is_Some. eapply Forall_impl; [exact He|]. intros e [x Ex]. change (is_Some (edge_id <$> edge_at g e)). rewrite Ex. by eexists. }
  exists nodes, edges. split_and!; [done|done|]. by exists ns, es.
Qed.

Lemma id_cycle_length nodes edges : id_cycle nodes edges -> length edges = length nodes /\ nodes <> [].
Proof.
  intros (ns & es & Hc & Hn%length_mapM & He%length_mapM). pose proof (chain_length _ _ _ (cy_chain _ _ Hc)).
  split; [lia|]. intros ->. simpl in Hn. apply (cy_nonempty _ _ Hc). by destruct ns.
Qed.

(** Rotations and, without direction, reversals present the same cycle. *)
Definition same_nodes (a b : list ExternalId) : Prop := rotated a b \/ is_directed (kind g) = false /\ rotated (reverse a) b.
Definition least (nodes : list ExternalId) : Prop := forall other, same_nodes nodes other -> BTree.le ids_cmp nodes other.

Lemma same_nodes_trans a b c : same_nodes a b -> same_nodes b c -> same_nodes a c.
Proof.
  intros [Hab|[Hd Hab]] [Hbc|[Hd' Hbc]].
  - left. by eapply rotated_trans.
  - right. split; [done|]. eapply rotated_trans; [by apply rotated_rev|done].
  - right. split; [done|]. by eapply rotated_trans.
  - left. apply rotated_rev in Hab. rewrite reverse_involutive in Hab. by eapply rotated_trans.
Qed.

Definition candidates (nodes : list ExternalId) (edges : list EdgeId) : list (list ExternalId * list EdgeId) :=
  rots nodes edges ++ if negb (is_directed (kind g)) then rots (reverse nodes) (rev_edges edges) else [].

Lemma candidate_cycle nodes edges c : id_cycle nodes edges -> c ∈ candidates nodes edges -> id_cycle c.1 c.2 /\ same_nodes nodes c.1.
Proof.
  intros (ns & es & Hc & Hn & He). unfold candidates. rewrite elem_of_app. intros [Hin|Hin].
  - apply in_rots in Hin as (o & _ & ->). split; [|left; apply rotated_rot].
    exists (rot o ns), (rot o es). split_and!; [by apply cycle_rot|by apply mapM_rot|by apply mapM_rot].
  - destruct (is_directed (kind g)) eqn:Hd; [by apply elem_of_nil in Hin|]. apply in_rots in Hin as (o & _ & ->).
    split; [|right; split; [done|apply rotated_rot]].
    exists (rot o (reverse ns)), (rot o (rev_edges es)). split_and!; [by apply cycle_rot, cycle_rev|..].
    + by apply mapM_rot, mapM_reverse.
    + by apply mapM_rot, mapM_rev_edges.
Qed.

Lemma candidate_nodes nodes edges other : nodes <> [] -> same_nodes nodes other -> exists e, (other, e) ∈ candidates nodes edges.
Proof.
  intros Hne [Hr|[Hd Hr]]; unfold candidates; setoid_rewrite elem_of_app.
  - apply rotated_offset in Hr as (o & Ho & ->); [|done]. exists (rot o edges). left. apply in_rots. by exists o.
  - rewrite Hd. apply rotated_offset in Hr as (o & Ho & ->).
    + exists (rot o (rev_edges edges)). right. apply in_rots. by exists o.
    + intros E. apply Hne. by rewrite <- (reverse_involutive nodes), E.
Qed.

Lemma same_nodes_refl a : same_nodes a a.
Proof. left. exists [], a. by rewrite app_nil_r. Qed.

(** What [canonical_cycle] returns. *)
Lemma canonical_ok ns es nodes edges : cycle ns es -> node_ids ns = Some nodes -> edge_ids es = Some edges ->
  exists n e, canonical_cycle g ns es = Some (n, e) /\ id_cycle n e /\ same_nodes nodes n /\ least n /\
    (least nodes -> n = nodes /\ BTree.le edge_ids_cmp e edges).
Proof.
  intros Hc Hn He. assert (id_cycle nodes edges) as Hid by by exists ns, es.
  destruct (id_cycle_length _ _ Hid) as [Hl Hne].
  destruct (minimum_least candidate_cmp (candidates nodes edges)) as ([n e] & Em & Hin & Hmin).
  { unfold candidates, rots. by destruct nodes. }
  destruct (candidate_cycle _ _ _ Hid Hin) as [Hid' Hsame]. cbn [fst snd] in *.
  exists n, e. split_and!; [|done|done| |].
  - unfold canonical_cycle. unfold node_ids, edge_ids in Hn, He. rewrite Hn, He. cbn [mbind option_bind].
    rewrite rotations_some by done. cbn [mbind option_bind]. unfold candidates in Em.
    destruct (is_directed (kind g)); cbn [negb mbind option_bind] in *; [by rewrite app_nil_r in Em|].
    rewrite reversed_edges. cbn [mbind option_bind]. rewrite rotations_some; [done|].
    rewrite length_reverse, <- Hl. unfold rev_edges. rewrite <- (length_reverse edges). destruct (reverse edges); [done|].
    rewrite length_app. simpl. lia.
  - intros other Ho. destruct (candidate_nodes nodes edges other Hne) as [e' Hin']; [by eapply same_nodes_trans|].
    specialize (Hmin _ Hin'). unfold BTree.le, candidate_cmp in *. simpl in Hmin. by destruct (ids_cmp n other).
  - intros Hleast. assert ((nodes, edges) ∈ candidates nodes edges) as Hself.
    { unfold candidates. apply elem_of_app. left. apply in_rots. exists 0. split; [destruct nodes; [done|simpl; lia]|].
      unfold rot. rewrite !drop_0. simpl. by rewrite !app_nil_r. }
    specialize (Hmin _ Hself). specialize (Hleast n Hsame). unfold BTree.le, candidate_cmp in *. simpl in Hmin.
    rewrite (cmp_sym (cmp := ids_cmp) n nodes) in Hleast.
    destruct (ids_cmp n nodes) eqn:E; try done. apply (cmp_eq (cmp := ids_cmp)) in E. by split.
Qed.
End Graph.
End Canonical.
End CyclesCanonical.
