(* ===== verification/CyclesSearch.v ===== *)
(** The search of [enumerate_cycles_from] (cycles.rs): it closes every simple cycle of
    its component through its start, within the length bound, and no other; each is
    recorded in the order it is closed. *)
From S2P Require Import Prelude Bytes BTree ExternalId Graph GraphSearch Traversal TraversalSpec Cycles CyclesCanonical.

Open Scope nat_scope.

Module CyclesSearch.
Export CyclesCanonical.

Section Search.
Context {JN : JsonNumber}.
Context (g : GraphInner) (Hg : graph_ok g).
Notation N := (node_count g).
Notation dir := (dir g).
Notation chain := (chain g).
Notation cycle := (cycle g).
Notation joins := (joins g).

(** Records cycles in order until one is refused. *)
Fixpoint records (options : CycleOptions) (cycles : list (list ExternalId * list EdgeId)) (found : Canonical) : bool * Canonical :=
  match cycles with
  | [] => (false, found)
  | c :: cycles =>
      let r := record_cycle options c.1 c.2 found in
      if r.1 then (true, r.2) else records options cycles r.2
  end.

Lemma records_app options l l' found :
  records options (l ++ l') found = if (records options l found).1 then (true, (records options l found).2) else records options l' (records options l found).2.
Proof.
  revert found. induction l as [|c l IH]; intros found; [done|]. simpl. destruct (record_cycle options c.1 c.2 found) as [[] f]; simpl; [done|apply IH].
Qed.

(** The canonical form of a cycle. *)
Definition canon (c : list nat * list nat) : list ExternalId * list EdgeId := default ([], []) (canonical_cycle g c.1 c.2).

Lemma canon_some ns es : cycle ns es -> canonical_cycle g ns es = Some (canon (ns, es)).
Proof.
  intros Hc. destruct (cycle_ids g ns es Hc) as (nodes & edges & Hn & He & _).
  destruct (canonical_ok g ns es nodes edges Hc Hn He) as (n & e & E & _). unfold canon. simpl. by rewrite E.
Qed.

Section From.
Context (start bound : nat) (component : list nat).

(** What one arc closes; [continue] are the cycles of the longer path. *)
Definition close_arc (continue : nat -> list nat -> list nat -> list (list nat * list nat)) (pn pe : list nat) (a : ArcRef)
    : list (list nat * list nat) :=
  if negb (bool_decide (neighbor a ∈ component)) || bool_decide (arc_edge a ∈ pe) then []
  else if neighbor a =? start then (if length pe + 1 <=? bound then [(pn, pe ++ [arc_edge a])] else [])
  else if bool_decide (neighbor a ∈ pn) || (bound <=? length pe + 1) then []
  else continue (neighbor a) (pn ++ [neighbor a]) (pe ++ [arc_edge a]).

(** The cycles closed from a path, in order. *)
Fixpoint search (fuel current : nat) (pn pe : list nat) : list (list nat * list nat) :=
  match fuel with
  | O => []
  | S fuel => flat_map (close_arc (search fuel) pn pe) (adj g dir current)
  end.

(** A path from the start to [current]. *)
Record path (current : nat) (pn pe : list nat) : Prop := {
  pa_nodes : NoDup pn;
  pa_edges : NoDup pe;
  pa_head : head pn = Some start;
  pa_component : forall v, v ∈ pn -> v ∈ component;
  pa_chain : exists qn, pn = qn ++ [current] /\ chain qn pe current }.

Lemma path_length current pn pe : path current pn pe -> length pn = S (length pe).
Proof. intros [_ _ _ _ (qn & -> & Hc)]. apply chain_length in Hc. rewrite length_app. simpl. lia. Qed.

Lemma path_closes current pn pe a : path current pn pe -> current < N -> a ∈ adj g dir current -> neighbor a = start ->
  arc_edge a ∉ pe -> cycle pn (pe ++ [arc_edge a]).
Proof.
  intros [Hn He Hh Hcomp (qn & -> & Hc)] Hcur Ha Hs Hne. apply (in_adj g Hg) in Ha; [|done]. constructor.
  - by destruct qn.
  - done.
  - apply NoDup_app. split_and!; [done| |apply NoDup_singleton]. by intros e Hin ->%list_elem_of_singleton.
  - rewrite Hh. apply chain_app; [by apply chain_length in Hc|]. simpl. split_and!; [done| |done].
    unfold CyclesCanonical.joins. rewrite <- Hs. by destruct a.
Qed.

Lemma path_extends current pn pe a : path current pn pe -> current < N -> a ∈ adj g dir current -> arc_edge a ∉ pe ->
  neighbor a ∈ component -> neighbor a ∉ pn -> path (neighbor a) (pn ++ [neighbor a]) (pe ++ [arc_edge a]).
Proof.
  intros [Hn He Hh Hcomp (qn & -> & Hc)] Hcur Ha Hne Hin Hout. apply (in_adj g Hg) in Ha; [|done]. constructor.
  - apply NoDup_app. split_and!; [done| |apply NoDup_singleton]. by intros e Hin' ->%list_elem_of_singleton.
  - apply NoDup_app. split_and!; [done| |apply NoDup_singleton]. by intros e Hin' ->%list_elem_of_singleton.
  - by destruct qn.
  - intros v [Hv| ->%list_elem_of_singleton]%elem_of_app; auto.
  - exists (qn ++ [current]). split; [done|]. apply chain_app; [by apply chain_length in Hc|]. simpl.
    split_and!; [done| |done]. unfold CyclesCanonical.joins. by destruct a.
Qed.

(** ** The code runs the search *)

Context (options : CycleOptions) (Hbound : length_bound options = bound).
Context (Hcomponent : forall v, v ∈ component -> v < N).

Notation set := (BTree.set_from_iter Nat.compare component).

Definition closed (fuel current : nat) (st : SearchState) : bool * SearchState :=
  let r := records options (map canon (search fuel current (path_nodes st) (path_edges st))) (canonical st) in
  (r.1, set_canonical st r.2).

Lemma contains_component v : BTree.contains Nat.compare v set = bool_decide (v ∈ component).
Proof.
  apply eq_true_iff_eq. rewrite bool_decide_eq_true, (BTree.contains_iff Nat.compare). apply (BTree.in_set_from_iter Nat.compare).
Qed.

Definition ready (current : nat) (st : SearchState) : Prop :=
  path current (path_nodes st) (path_edges st) /\ marks g (path_nodes st) (in_path st).

Lemma enumerate_arcs_search fuel current arcs st : current < N ->
  (forall v st, ready v st -> v < N -> N < fuel + length (path_nodes st) -> enumerate_cycles_from fuel g start set options v st = Some (closed fuel v st)) ->
  (forall a, a ∈ arcs -> a ∈ adj g dir current) -> ready current st -> N < S fuel + length (path_nodes st) ->
  enumerate_arcs (enumerate_cycles_from fuel g start set options) g start set options arcs st =
  let r := records options (map canon (flat_map (close_arc (search fuel) (path_nodes st) (path_edges st)) arcs)) (canonical st) in Some (r.1, set_canonical st r.2).
Proof.
  intros Hcur Hcall Harcs. revert st. induction arcs as [|a arcs IH]; intros st Hready Hfuel; [by destruct st|].
  assert (a ∈ adj g dir current) as Ha by (apply Harcs; by left).
  specialize (IH ltac:(intros; apply Harcs; by right)). destruct Hready as [Hpath Hmarks]. pose proof (path_length _ _ _ Hpath) as Hlen.
  assert (neighbor a < N) as Hnb by by apply (adj_range g Hg dir current).
  cbn [enumerate_arcs flat_map]. set (rest := flat_map _ arcs) in *. unfold close_arc. rewrite contains_component, Hbound.
  destruct (negb (bool_decide (neighbor a ∈ component)) || bool_decide (arc_edge a ∈ path_edges st)) eqn:Eskip; [by apply IH|].
  apply orb_false_elim in Eskip as [Hin%negb_false_iff%bool_decide_eq_true Hne%bool_decide_eq_false].
  destruct (Nat.eqb_spec (neighbor a) start) as [Hs|Hs].
  - destruct (length (path_edges st) + 1 <=? bound); [|by apply IH].
    rewrite (canon_some (path_nodes st) (path_edges st ++ [arc_edge a])) by by apply (path_closes current).
    cbn [mbind option_bind map app records]. destruct (record_cycle options _ _ (canonical st)) as [[] c]; cbn [fst snd]; [done|].
    by rewrite IH.
  - rewrite (proj2 Hmarks _ Hnb). cbn [mbind option_bind].
    destruct (bool_decide (neighbor a ∈ path_nodes st) || (bound <=? length (path_edges st) + 1)) eqn:Estop; [by apply IH|].
    apply orb_false_elim in Estop as [Hout%bool_decide_eq_false _].
    destruct Hmarks as [Hml Hm]. rewrite assign_in_range by lia. cbn [mbind option_bind].
    rewrite Hcall; [| |done|cbn [path_nodes]; rewrite length_app; simpl; lia].
    2: { split; cbn; [by apply (path_extends current)|]. destruct (mark_some g (path_nodes st) (in_path st) (neighbor a)) as (v & Ev & Mv); [done|done|].
      unfold mark in Ev. rewrite (proj2 (Nat.ltb_lt _ _)) in Ev by lia. injection Ev as <-. eapply marks_ext; [|exact Mv].
      intros v. rewrite elem_of_cons, elem_of_app, list_elem_of_singleton. tauto. }
    unfold closed. cbn [mbind option_bind in_path path_nodes path_edges canonical set_canonical].
    rewrite assign_in_range by (rewrite length_insert; lia). cbn [mbind option_bind].
    rewrite list_insert_insert_eq, list_insert_id by (rewrite Hm by done; f_equal; by apply bool_decide_eq_false).
    rewrite !removelast_last, map_app, records_app.
    destruct (records options (map canon (search fuel (neighbor a) _ _)) (canonical st)) as [[] c]; cbn [fst snd];
      destruct st; cbn in *; [done|]. by rewrite IH.
Qed.

Lemma enumerate_search fuel current st : ready current st -> current < N -> N < fuel + length (path_nodes st) ->
  enumerate_cycles_from fuel g start set options current st = Some (closed fuel current st).
Proof.
  revert current st. induction fuel as [|fuel IH]; intros current st Hready Hcur Hfuel.
  - exfalso. destruct Hready as [[Hn _ _ Hin _] _]. assert (length (path_nodes st) <= N); [|lia].
    rewrite <- (length_seq N 0). apply NoDup_incl_length; [by apply NoDup_ListNoDup|].
    intros v Hv%list_elem_of_In. apply in_seq. specialize (Hcomponent v (Hin v Hv)). lia.
  - cbn [enumerate_cycles_from]. rewrite (adj_arcs g Hg _ current Hcur). cbn [mbind option_bind].
    by apply (enumerate_arcs_search fuel current).
Qed.

(** ** The search is exact *)

Lemma search_sound fuel current pn pe c : path current pn pe -> current < N -> c ∈ search fuel current pn pe ->
  cycle c.1 c.2 /\ length c.1 <= bound /\ (forall v, v ∈ c.1 -> v ∈ component).
Proof.
  revert current pn pe. induction fuel as [|fuel IH]; intros current pn pe Hpath Hcur Hin; [by apply elem_of_nil in Hin|].
  cbn [search] in Hin. apply list_elem_of_In, in_flat_map in Hin as (a & Ha%list_elem_of_In & Hin%list_elem_of_In).
  unfold close_arc in Hin. destruct (negb _ || _) eqn:Eskip; [by apply elem_of_nil in Hin|].
  apply orb_false_elim in Eskip as [Hcomp%negb_false_iff%bool_decide_eq_true Hne%bool_decide_eq_false].
  destruct (Nat.eqb_spec (neighbor a) start) as [Hs|Hs].
  - destruct (Nat.leb_spec (length pe + 1) bound); [|by apply elem_of_nil in Hin]. apply list_elem_of_singleton in Hin as ->.
    cbn [fst snd]. split_and!; [by apply (path_closes current)| |apply Hpath]. rewrite (path_length _ _ _ Hpath). lia.
  - destruct (bool_decide (neighbor a ∈ pn) || _) eqn:Estop; [by apply elem_of_nil in Hin|].
    apply orb_false_elim in Estop as [Hout%bool_decide_eq_false _].
    eapply IH; [|by apply (adj_range g Hg dir current)|exact Hin]. by apply (path_extends current).
Qed.

Lemma search_complete fuel current pn pe rest erest : path current pn pe -> current < N -> cycle (pn ++ rest) (pe ++ erest) ->
  length (pn ++ rest) <= bound -> (forall v, v ∈ rest -> v ∈ component) -> length rest < fuel ->
  (pn ++ rest, pe ++ erest) ∈ search fuel current pn pe.
Proof.
  revert current pn pe rest erest. induction fuel as [|fuel IH]; intros current pn pe rest erest Hpath Hcur Hc Hlen Hcomp Hfuel; [lia|].
  pose proof (path_length _ _ _ Hpath) as Hpl. pose proof (chain_length _ _ _ _ (cy_chain _ _ _ Hc)) as Hcl. rewrite !length_app in *.
  destruct erest as [|e erest]; [simpl in Hcl; lia|].
  assert (head (pn ++ rest) = Some start) as Hhead by (pose proof (pa_head _ _ _ Hpath); by destruct pn).
  pose proof (pa_chain _ _ _ Hpath) as (qn & Eq & Hq). pose proof (chain_length _ _ _ _ Hq) as Hql.
  assert (joins current e (default start (head rest))) as Hj.
  { pose proof (cy_chain _ _ _ Hc) as Hch. rewrite Hhead, Eq, <- app_assoc in Hch.
    apply chain_app in Hch as [_ Hch]; [|done]. simpl in Hch. apply Hch. }
  assert (e ∉ pe) as Hne.
  { intros Hin. pose proof (cy_edges _ _ _ Hc) as He. apply NoDup_app in He as (_ & Hd & _). apply (Hd e Hin). by left. }
  cbn [search]. apply list_elem_of_In, in_flat_map. exists {| neighbor := default start (head rest); arc_edge := e |}.
  rewrite <- !list_elem_of_In. split; [by apply (in_adj g Hg)|]. unfold close_arc. cbn [neighbor arc_edge].
  assert (start ∈ component) as Hstart.
  { apply (pa_component _ _ _ Hpath). pose proof (pa_head _ _ _ Hpath). destruct pn; [done|]. simplify_eq/=. by left. }
  rewrite (bool_decide_eq_true_2 (_ ∈ component)) by (destruct rest; [done|apply Hcomp; by left]).
  rewrite (bool_decide_eq_false_2 (e ∈ pe)) by done. cbn [negb orb]. destruct rest as [|v rest]; cbn [default head].
  - simpl in Hcl. assert (erest = []) as -> by (destruct erest; [done|simpl in Hcl; lia]). rewrite app_nil_r in *.
    change (default start None) with start. rewrite Nat.eqb_refl. rewrite (proj2 (Nat.leb_le _ _)) by (simpl in Hlen; lia). by left.
  - change (default start (Some v)) with v. pose proof (cy_nodes _ _ _ Hc) as Hnd. apply NoDup_app in Hnd as (_ & Hd & _).
    assert (v ∉ pn) as Hv by (intros Hin; apply (Hd v Hin); by left).
    assert (v <> start) as Hvs by (intros ->; apply Hv; pose proof (pa_head _ _ _ Hpath); destruct pn; [done|]; simplify_eq/=; by left).
    rewrite (proj2 (Nat.eqb_neq _ _)) by done. rewrite (bool_decide_eq_false_2 (v ∈ pn)) by done.
    simpl in Hlen, Hfuel. rewrite (proj2 (Nat.leb_gt _ _)) by lia. cbn [orb].
    rewrite (cons_middle v), (cons_middle e), !app_assoc. apply IH.
    + apply (path_extends current _ _ {| neighbor := v; arc_edge := e |}); try done; [by apply (in_adj g Hg)|]. apply Hcomp. by left.
    + apply (incident_range g) in Hj as (_ & ? & _). done.
    + by rewrite <- !app_assoc.
    + rewrite !length_app. simpl. lia.
    + intros w Hw. apply Hcomp. by right.
    + lia.
Qed.
End From.
End Search.
End CyclesSearch.
