(* ===== verification/CyclesExact.v ===== *)
(** [Graph::simple_cycles] (cycles.rs) enumerates exactly the bounded simple cycles,
    each once, under its least node sequence and with its least edge sequence; a cap
    that cuts some off is reported. *)
From S2P Require Import Prelude Bytes BTree ExternalId Graph GraphSearch Traversal TraversalSpec Cycles CyclesTarjan CyclesConnected CyclesCanonical CyclesSearch.

Open Scope nat_scope.

Module CyclesExact.
Export CyclesSearch.

Section Exact.
Context {JN : JsonNumber}.
Context (g : GraphInner) (Hg : graph_ok g).
Notation N := (node_count g).
Notation Pair := (list ExternalId * list EdgeId)%type.

(** ** Recording keeps the least edges of each node sequence *)

Definition best (l : list Pair) (n : list ExternalId) (e : list EdgeId) : Prop :=
  (n, e) ∈ l /\ forall e', (n, e') ∈ l -> BTree.le edge_ids_cmp e e'.

Lemma best_exists l n e : (n, e) ∈ l -> exists e', best l n e'.
Proof.
  revert e. induction l as [|[n0 e0] l IH]; intros e Hin; [by apply elem_of_nil in Hin|].
  destruct (decide (n0 = n)) as [->|Hne].
  - destruct (decide (n ∈ l.*1)) as [([n1 e1] & -> & H1)%list_elem_of_fmap|Hno].
    + destruct (IH e1 H1) as (e2 & Hin2 & Hle). destruct (edge_ids_cmp e0 e2) eqn:E.
      * exists e0. split; [by left|]. apply (cmp_eq (cmp := edge_ids_cmp)) in E as ->. intros e' [[= ->]|H']%elem_of_cons; [|auto].
        unfold BTree.le. by rewrite (cmp_refl (cmp := edge_ids_cmp)).
      * exists e0. split; [by left|]. intros e' [[= ->]|H']%elem_of_cons; [unfold BTree.le; by rewrite (cmp_refl (cmp := edge_ids_cmp))|].
        eapply (BTree.le_trans edge_ids_cmp); [|by apply Hle]. unfold BTree.le. by rewrite E.
      * exists e2. split; [by right|]. intros e' [[= ->]|H']%elem_of_cons; [|auto].
        unfold BTree.le. by rewrite (cmp_sym (cmp := edge_ids_cmp) e0 e2), E.
    + exists e0. split; [by left|]. intros e' [[= ->]|H']%elem_of_cons; [unfold BTree.le; by rewrite (cmp_refl (cmp := edge_ids_cmp))|].
      exfalso. apply Hno. by apply (list_elem_of_fmap_2 fst _ (n, e')).
  - apply elem_of_cons in Hin as [[= -> ->]|Hin]; [done|]. destruct (IH e Hin) as (e' & Hin' & Hle). exists e'. split; [by right|].
    intros e1 [[= -> ->]|H1]%elem_of_cons; [done|auto].
Qed.

Lemma best_unique l n e e' : best l n e -> best l n e' -> e = e'.
Proof.
  intros [H1 H2] [H3 H4]. specialize (H2 e' H3). specialize (H4 e H1). unfold BTree.le in *.
  rewrite (cmp_sym (cmp := edge_ids_cmp) e e') in H4. destruct (edge_ids_cmp e e') eqn:E; try done.
  by apply (cmp_eq (cmp := edge_ids_cmp)).
Qed.

Lemma best_other l n e n' e' : n <> n' -> best (l ++ [(n, e)]) n' e' <-> best l n' e'.
Proof.
  intros Hne. unfold best. setoid_rewrite elem_of_app. setoid_rewrite list_elem_of_singleton. naive_solver.
Qed.

(** The map after the cycles [seen]. *)
Record kept (options : CycleOptions) (seen : list Pair) (found : Canonical) : Prop := {
  ke_sorted : BTree.sorted_map ids_cmp found;
  ke_best : forall n e, (n, e) ∈ found <-> best seen n e;
  ke_cap : forall k, max_cycles options = Some k -> length found <= k }.

Lemma kept_keys options seen found n : kept options seen found -> n ∈ found.*1 <-> n ∈ seen.*1.
Proof.
  intros Hk. split; intros ([n' e] & -> & Hin)%list_elem_of_fmap.
  - apply (ke_best _ _ _ Hk) in Hin as [Hin _]. by apply (list_elem_of_fmap_2 fst _ (n', e)).
  - destruct (best_exists _ _ _ Hin) as (e' & He). by apply (list_elem_of_fmap_2 fst _ (n', e')), (ke_best _ _ _ Hk).
Qed.

Lemma kept_get options seen found n : kept options seen found -> BTree.get ids_cmp n found = None <-> n ∉ seen.*1.
Proof. intros Hk. by rewrite (BTree.get_none ids_cmp), (kept_keys _ _ _ _ Hk). Qed.

Lemma keys_nodup options seen found : kept options seen found -> NoDup found.*1.
Proof. intros Hk. apply (BTree.sorted_set_nodup ids_cmp), (BTree.sorted_map_fst ids_cmp), Hk. Qed.

(** The cycles recorded determine the map, whatever the cap. *)
Lemma kept_unique o o' seen found found' : kept o seen found -> kept o' seen found' -> found = found'.
Proof.
  intros Hk Hk'. apply (StronglySorted_unique_strong (BTree.lt_key ids_cmp)); [|apply Hk|apply Hk'|].
  - intros c1 c2 _ _ H1 H2. unfold BTree.lt_key in *. rewrite (cmp_sym (cmp := ids_cmp)), H2 in H1. done.
  - apply NoDup_Permutation; [by eapply (NoDup_fmap_1 fst), keys_nodup|by eapply (NoDup_fmap_1 fst), keys_nodup|].
    intros [n e]. by rewrite (ke_best _ _ _ Hk), (ke_best _ _ _ Hk').
Qed.

(** A cut-off list misses a key. *)
Lemma kept_cut o o' before l found full n : kept o before found -> kept o' l full -> (forall c, c ∈ before -> c ∈ l) ->
  n ∈ l.*1 -> n ∉ before.*1 -> length found < length full.
Proof.
  intros Hk Hfull Hsub Hn Hout. rewrite <- (length_map fst found), <- (length_map fst full).
  apply (NoDup_incl_length (l := n :: found.*1)).
  - apply NoDup_ListNoDup, NoDup_cons. split; [|by eapply keys_nodup]. by rewrite (kept_keys _ _ _ _ Hk).
  - intros n' Hn'%list_elem_of_In. apply list_elem_of_In, (kept_keys _ _ _ _ Hfull).
    apply elem_of_cons in Hn' as [->|Hn']; [done|]. apply (kept_keys _ _ _ _ Hk) in Hn' as (c & -> & Hc)%list_elem_of_fmap.
    by apply list_elem_of_fmap_2, Hsub.
Qed.

Lemma insert_length {V} (n : list ExternalId) (v v' : V) m : BTree.sorted_map ids_cmp m -> BTree.get ids_cmp n m = Some v' ->
  length (BTree.insert ids_cmp n v m) = length m.
Proof.
  intros Hs. induction Hs as [|[k w] m Hm IH Hx]; [done|]. simpl. destruct (ids_cmp n k) eqn:E; simpl; try done.
  - intros Hg'. apply (BTree.get_in ids_cmp) in Hg'. exfalso. rewrite Forall_forall in Hx. specialize (Hx _ Hg'). simpl in Hx.
    rewrite (cmp_sym (cmp := ids_cmp) n k), E in Hx. done.
  - intros Hg'. by rewrite IH.
Qed.

Lemma record_kept options seen found n e : kept options seen found ->
  let r := record_cycle options n e found in
  if r.1 then r.2 = found /\ n ∉ seen.*1 /\ max_cycles options = Some (length found)
  else kept options (seen ++ [(n, e)]) r.2.
Proof.
  intros Hk. pose proof Hk as [Hs Hb Hc]. unfold record_cycle. destruct (BTree.get ids_cmp n found) as [ex|] eqn:Eg.
  - pose proof Eg as Hex. apply (BTree.get_some ids_cmp) in Hex; [|done]. apply Hb in Hex.
    assert (BTree.le edge_ids_cmp ex e -> best (seen ++ [(n, e)]) n ex) as Hold.
    { intros Hle. destruct Hex as [Hin Hmin]. split; [apply elem_of_app; by left|].
      intros e' [H'|[= ->]%list_elem_of_singleton]%elem_of_app; auto. }
    assert (BTree.le edge_ids_cmp ex e -> kept options (seen ++ [(n, e)]) found) as Hsame.
    { intros Hle. constructor; [done| |done]. intros n' e'. rewrite Hb. destruct (decide (n = n')) as [<-|Hne]; [|by rewrite best_other].
      split; intros H'; [rewrite <- (best_unique _ _ _ _ Hex H'); auto|]. by rewrite (best_unique _ _ _ _ H' (Hold Hle)). }
    destruct (edge_ids_cmp e ex) eqn:Ee; cbn [fst snd].
    + apply Hsame. unfold BTree.le. by rewrite (cmp_sym (cmp := edge_ids_cmp) e ex), Ee.
    + constructor.
      * by apply (BTree.insert_sorted ids_cmp).
      * intros n' e'. rewrite (BTree.in_insert ids_cmp), Hb by done. destruct (decide (n = n')) as [<-|Hne].
        -- assert (best (seen ++ [(n, e)]) n e) as Hnew.
           { split; [apply elem_of_app; right; by left|]. intros e1 [H'|[= ->]%list_elem_of_singleton]%elem_of_app.
             - eapply (BTree.le_trans edge_ids_cmp); [|by apply Hex]. unfold BTree.le. by rewrite Ee.
             - unfold BTree.le. by rewrite (cmp_refl (cmp := edge_ids_cmp)). }
           split; [intros [[= ->]|[_ ?]]; done|]. intros H'. left. by rewrite (best_unique _ _ _ _ H' Hnew).
        -- rewrite best_other by done. simpl. naive_solver.
      * intros k Hk'. rewrite (insert_length _ _ ex) by done. auto.
    + apply Hsame. unfold BTree.le. by rewrite (cmp_sym (cmp := edge_ids_cmp) e ex), Ee.
  - pose proof Eg as Hn. apply (kept_get options seen) in Hn; [|done].
    assert (forall k, max_cycles options = Some k -> (k <=? length found) = false ->
      length (BTree.insert ids_cmp n e found) <= k) as Hlen.
    { intros k Hk' Hlt%Nat.leb_gt. rewrite (BTree.insert_perm ids_cmp) by done. simpl. lia. }
    assert ((forall k, max_cycles options = Some k -> length (BTree.insert ids_cmp n e found) <= k) ->
      kept options (seen ++ [(n, e)]) (BTree.insert ids_cmp n e found)) as Hins.
    { intros Hcap. constructor; [by apply (BTree.insert_sorted ids_cmp)| |done].
      intros n' e'. rewrite (BTree.in_insert ids_cmp), Hb by done. destruct (decide (n = n')) as [<-|Hne].
      - assert (forall e1, (n, e1) ∉ seen) as Hno by (intros e1 H'; apply Hn; by apply (list_elem_of_fmap_2 fst _ (n, e1))).
        split.
        + intros [[= ->]|[_ ?]]; [|done]. split; [apply elem_of_app; right; by left|].
          intros e1 [H'|[= ->]%list_elem_of_singleton]%elem_of_app; [by apply Hno in H'|]. unfold BTree.le. by rewrite (cmp_refl (cmp := edge_ids_cmp)).
        + intros [[H'|[= ->]%list_elem_of_singleton]%elem_of_app _]; [by apply Hno in H'|by left].
      - rewrite best_other by done. simpl. naive_solver. }
    destruct (max_cycles options) as [k|] eqn:Emax; cbn [fst snd].
    + destruct (k <=? length found) eqn:Ek; cbn [fst snd].
      * split_and!; [done|done|]. f_equal. apply Nat.leb_le in Ek. specialize (Hc k eq_refl). lia.
      * apply Hins. intros k' [= <-]. by apply Hlen.
    + by apply Hins.
Qed.

Lemma records_kept options l seen found : kept options seen found ->
  let r := records options l found in
  if r.1 then exists before n, kept options (seen ++ before) r.2 /\ (forall c, c ∈ before -> c ∈ l) /\
    n ∈ l.*1 /\ n ∉ (seen ++ before).*1 /\ max_cycles options = Some (length r.2)
  else kept options (seen ++ l) r.2.
Proof.
  revert seen found. induction l as [|[n e] l IH]; intros seen found Hk; [simpl; by rewrite app_nil_r|]. cbn [records fst snd].
  pose proof (record_kept options seen found n e Hk) as Hr. cbv zeta in Hr. destruct (record_cycle options n e found) as [[] found'] eqn:E; cbn [fst snd] in *.
  - destruct Hr as (-> & Hn & Hmax). exists [], n. rewrite app_nil_r. split_and!; try done; [by intros c ?%elem_of_nil|by left].
  - specialize (IH _ _ Hr). cbv zeta in IH. destruct (records options l found') as [[] found'']; cbn [fst snd] in *.
    + destruct IH as (before & n' & Hk' & Hsub & Hin & Hout & Hmax). exists ((n, e) :: before), n'. rewrite <- app_assoc in *.
      split_and!; try done; [|by right]. intros c [->|Hc]%elem_of_cons; [by left|right; auto].
    + by rewrite <- app_assoc in IH.
Qed.

(** ** The cycles of all components *)

Section Components.
Context (options : CycleOptions) (cs : list (list nat)).
Context (Hrange : forall c v, c ∈ cs -> v ∈ c -> v < N).
Context (Hcover : forall ns es, cycle g ns es -> exists c, c ∈ cs /\ forall v, v ∈ ns -> v ∈ c).

Notation bound := (length_bound options).
Notation set c := (BTree.set_from_iter Nat.compare c).

Definition through (c : list nat) (start : nat) : list (list nat * list nat) := search g start bound c (S N) start [start] [].
Definition no_loop (v : nat) : bool := negb (existsb (fun arc => neighbor arc =? v) (adj g Out v)).
Definition skips (c : list nat) : bool := match c with [v] => no_loop v | _ => false end.
Definition within (c : list nat) : list (list nat * list nat) := if skips c then [] else flat_map (through c) c.

Lemma path_start c start : start ∈ c -> path g start c start [start] [].
Proof.
  intros Hs. constructor; [apply NoDup_singleton|constructor|done|by intros v ->%list_elem_of_singleton|]. by exists [].
Qed.

Lemma cycles_from_records c starts found : c ∈ cs -> (forall v, v ∈ starts -> v ∈ c) ->
  cycles_from g options (set c) starts found = Some (records options (map (canon g) (flat_map (through c) starts)) found).
Proof.
  intros Hc. revert found. induction starts as [|start starts IH]; intros found Hs; [done|]. cbn [cycles_from flat_map].
  assert (start ∈ c) as Hstart by (apply Hs; by left). assert (start < N) as Hn by by apply (Hrange c).
  destruct (mark_some g [] (replicate N false) start (marks_nil g) Hn) as (v & Ev & Mv). unfold mark in Ev. unfold assign. rewrite Ev.
  cbn [mbind option_bind]. rewrite (enumerate_search g Hg start bound c options eq_refl (fun v => Hrange c v Hc)); [| |done|simpl; lia].
  2: { split; [by apply path_start|done]. }
  cbn [mbind option_bind fst snd closed canonical path_nodes path_edges set_canonical]. rewrite map_app, records_app. fold (through c start).
  unfold closed. cbn [path_nodes path_edges canonical fst snd set_canonical]. fold (through c start).
  destruct (records options (map (canon g) (through c start)) found) as [[] f]; cbn [fst snd]; [done|].
  apply IH. intros w Hw. apply Hs. by right.
Qed.

Lemma skipped_some c : c ∈ cs -> skipped g c = Some (skips c).
Proof.
  intros Hc. destruct c as [|v [|w c]]; try done. cbn [skipped]. rewrite (adj_arcs g Hg Out v) by (apply (Hrange [v]); [done|by left]). done.
Qed.

Lemma cycles_in_records found l : (forall c, c ∈ l -> c ∈ cs) ->
  cycles_in g options l found = Some (records options (map (canon g) (flat_map within l)) found).
Proof.
  revert found. induction l as [|c l IH]; intros found Hl; [done|]. cbn [cycles_in flat_map].
  assert (c ∈ cs) as Hc by (apply Hl; by left). assert (forall c, c ∈ l -> c ∈ cs) as Hl' by (intros; apply Hl; by right).
  assert (within c = if skips c then [] else flat_map (through c) c) as Ew by done.
  rewrite skipped_some by done. cbn [mbind option_bind]. rewrite map_app, records_app, Ew.
  destruct (skips c); [by apply IH|]. rewrite cycles_from_records by done. cbn [mbind option_bind].
  destruct (records options (map (canon g) (flat_map (through c) c)) found) as [[] f]; cbn [fst snd]; [done|by apply IH].
Qed.

Lemma out_dir v : adj g Out v = adj g (dir g) v.
Proof. unfold adj, arcs, arc_iter, dir. by destruct (is_directed (kind g)). Qed.

Lemma through_all ns es : (ns, es) ∈ flat_map within cs <-> cycle g ns es /\ length ns <= bound.
Proof.
  split.
  - intros Hin. apply list_elem_of_In, in_flat_map in Hin as (c' & Hc%list_elem_of_In & Hin%list_elem_of_In). unfold within in Hin.
    destruct (skips c'); [by apply elem_of_nil in Hin|].
    apply list_elem_of_In, in_flat_map in Hin as (start & Hs%list_elem_of_In & Hin%list_elem_of_In).
    apply (search_sound g Hg start bound c' options eq_refl) in Hin as (H1 & H2 & _); [done|by apply path_start|by apply (Hrange c')].
  - intros [Hcy Hlen]. destruct (Hcover ns es Hcy) as (c' & Hc & Hin). apply list_elem_of_In, in_flat_map. exists c'.
    rewrite <- !list_elem_of_In. split; [done|]. destruct ns as [|start rest]; [by destruct (cy_nonempty _ _ _ Hcy)|].
    assert (start ∈ c') as Hs by (apply Hin; by left). assert (start < N) as Hn by by apply (Hrange c').
    unfold within. destruct (skips c') eqn:Eskip.
    + exfalso. destruct c' as [|v [|w c']]; try done. apply list_elem_of_singleton in Hs as ->. cbn [skips no_loop] in Eskip.
      assert (rest = []) as ->.
      { pose proof (cy_nodes _ _ _ Hcy) as Hnd. apply NoDup_cons in Hnd as [Hni _]. destruct rest as [|w rest]; [done|].
        assert (w ∈ [v]) as ->%list_elem_of_singleton by (apply Hin; right; by left). exfalso. apply Hni. by left. }
      pose proof (cy_chain _ _ _ Hcy) as Hch. destruct es as [|e es]; [done|]. destruct Hch as [Hj _]. simpl in Hj.
      apply negb_true_iff in Eskip. assert (existsb (fun arc => neighbor arc =? v) (adj g Out v) = true) as Ht; [|by rewrite Eskip in Ht].
      apply existsb_exists. exists {| neighbor := v; arc_edge := e |}. rewrite <- list_elem_of_In. split; [|apply Nat.eqb_refl].
      rewrite out_dir. by apply (in_adj g Hg).
    + apply list_elem_of_In, in_flat_map. exists start. rewrite <- !list_elem_of_In. split; [done|]. unfold through.
      assert (length (start :: rest) <= N) as HN.
      { rewrite <- (length_seq N 0). apply NoDup_incl_length; [apply NoDup_ListNoDup, Hcy|].
        intros v Hv%list_elem_of_In. apply in_seq. pose proof (Hrange c' v Hc (Hin v Hv)). lia. }
      apply (search_complete g Hg start bound c' options eq_refl (S N) start [start] [] rest es); [by apply path_start|done|done|done| |simpl in HN; lia].
      intros v Hv. apply Hin. by right.
Qed.
End Components.

(** ** Components cover cycles *)

Lemma chain_to_last step ns es last : (forall u e v, joins g u e v -> step u v) -> chain g ns es last ->
  forall u, u ∈ ns -> rtc step u last.
Proof.
  intros Hstep. revert es. induction ns as [|x ns IH]; intros [|e es]; try done; [by intros _ u ?%elem_of_nil|].
  intros [Hj Hc] u Hu. specialize (IH es Hc). apply elem_of_cons in Hu as [->|Hu]; [|by apply IH].
  destruct ns as [|y ns]; simpl in Hj; [by apply rtc_once, (Hstep _ e)|].
  eapply rtc_l; [by apply (Hstep _ e)|]. apply IH. by left.
Qed.

Lemma chain_from_head step x ns es last : (forall u e v, joins g u e v -> step u v) -> chain g (x :: ns) es last ->
  forall u, u ∈ x :: ns -> rtc step x u.
Proof.
  intros Hstep. revert x es. induction ns as [|y ns IH]; intros x [|e es]; try done; intros [Hj Hc] u Hu.
  - by apply list_elem_of_singleton in Hu as ->.
  - apply elem_of_cons in Hu as [->|Hu]; [constructor|]. eapply rtc_l; [by apply (Hstep _ e)|]. by apply (IH y es).
Qed.

(** All nodes of a cycle reach each other. *)
Lemma cycle_mutual step ns es : (forall u e v, joins g u e v -> step u v) -> cycle g ns es ->
  forall u v, u ∈ ns -> v ∈ ns -> rtc step u v.
Proof.
  intros Hstep Hc u v Hu Hv. pose proof (cy_chain _ _ _ Hc) as Hch. destruct ns as [|x ns]; [by apply elem_of_nil in Hu|].
  etransitivity; [by apply (chain_to_last step _ _ _ Hstep Hch)|]. by apply (chain_from_head step _ _ _ _ Hstep Hch).
Qed.

Lemma joins_step u e v : joins g u e v -> u < N /\ exists a, a ∈ adj g (dir g) u /\ neighbor a = v.
Proof.
  intros Hj. pose proof (incident_range g _ _ _ Hj) as (Hu & _). split; [done|].
  exists {| neighbor := v; arc_edge := e |}. split; [|done]. by apply (in_adj g Hg).
Qed.

Lemma components_cover : exists cs,
  (if is_directed (kind g) then strongly_connected_components g else connected_components g) = Some cs /\
  (forall c v, c ∈ cs -> v ∈ c -> v < N) /\ forall ns es, cycle g ns es -> exists c, c ∈ cs /\ forall v, v ∈ ns -> v ∈ c.
Proof.
  assert (forall (step : nat -> nat -> Prop) cs, concat cs ≡ₚ seq 0 N -> (forall u e v, joins g u e v -> step u v) ->
    (forall c u v, c ∈ cs -> u ∈ c -> rtc step u v -> rtc step v u -> v ∈ c) ->
    (forall c v, c ∈ cs -> v ∈ c -> v < N) /\ forall ns es, cycle g ns es -> exists c, c ∈ cs /\ forall v, v ∈ ns -> v ∈ c) as Hcover.
  { intros step cs Hp Hstep Hc. assert (forall v, v < N <-> exists c, c ∈ cs /\ v ∈ c) as Hin.
    { intros v. assert (v ∈ concat cs <-> v ∈ seq 0 N) as E by (by rewrite Hp). rewrite elem_of_seq in E.
      rewrite list_elem_of_In, in_concat in E. setoid_rewrite list_elem_of_In. rewrite E. lia. }
    split; [intros c v H1 H2; apply Hin; eauto|]. intros ns es Hcy. destruct ns as [|x ns]; [by destruct (cy_nonempty _ _ _ Hcy)|].
    assert (x < N) as Hx.
    { pose proof (proj1 (chain_range _ _ _ _ (cy_chain _ _ _ Hcy))) as Hr. by apply Forall_inv in Hr. }
    apply Hin in Hx as (c & Hcs & Hxc). exists c. split; [done|]. intros v Hv.
    apply (Hc c x); [done|done|by apply (cycle_mutual step _ _ Hstep Hcy); [left|]|by apply (cycle_mutual step _ _ Hstep Hcy); [|left]]. }
  pose proof joins_step as Hj. unfold dir in Hj. destruct (is_directed (kind g)).
  - destruct (CyclesTarjan.components_exact g Hg) as (cs & E & Hs & Hp & _). exists cs. split; [done|].
    apply (Hcover (CyclesTarjan.edge_to g)); [done|by apply Hj|]. intros c u v Hc Hu Huv Hvu. rewrite Forall_forall in Hs.
    destruct (Hs c Hc) as (_ & _ & Hiff & _). by apply (Hiff u).
  - destruct (CyclesConnected.connected_exact g Hg) as (cs & E & Hs & Hp). exists cs. split; [done|].
    apply (Hcover (CyclesConnected.joined g)); [done|by apply Hj|]. intros c u v Hc Hu Huv _. rewrite Forall_forall in Hs.
    destruct (Hs c Hc) as (_ & _ & Hiff). by apply (Hiff u).
Qed.

(** ** Simple cycles *)

(** The cycle the result lists for a node sequence. *)
Record entry (bound : nat) (n : list ExternalId) (e : list EdgeId) : Prop := {
  en_cycle : id_cycle g n e;
  en_bound : length n <= bound;
  en_least : least g n;
  en_edges : forall e', id_cycle g n e' -> BTree.le edge_ids_cmp e e' }.

Lemma canon_of ns es : cycle g ns es -> exists n e, canon g (ns, es) = (n, e) /\ id_cycle g n e /\ least g n /\ length n = length ns.
Proof.
  intros Hc. destruct (cycle_ids g ns es Hc) as (nodes & edges & Hn & He & _).
  destruct (canonical_ok g ns es nodes edges Hc Hn He) as (n & e & E & Hid & Hsame & Hl & _). exists n, e.
  unfold canon. simpl. rewrite E. split_and!; [done|done|done|]. apply length_mapM in Hn.
  destruct Hsame as [Hr|[_ Hr]]; apply rotated_length in Hr; rewrite ?length_reverse in Hr; lia.
Qed.

Lemma canon_least n e : id_cycle g n e -> least g n -> exists ns es e', cycle g ns es /\ canon g (ns, es) = (n, e') /\
  BTree.le edge_ids_cmp e' e /\ length ns = length n.
Proof.
  intros (ns & es & Hc & Hn & He) Hl. destruct (canonical_ok g ns es n e Hc Hn He) as (n' & e' & E & _ & _ & _ & Hsame).
  destruct (Hsame Hl) as [-> Hle]. exists ns, es, e'. unfold canon. simpl. rewrite E. apply length_mapM in Hn. by split_and!.
Qed.

Lemma best_entry (cycles : list (list nat * list nat)) bound :
  (forall ns es, (ns, es) ∈ cycles <-> cycle g ns es /\ length ns <= bound) ->
  forall n e, best (map (canon g) cycles) n e <-> entry bound n e.
Proof.
  intros Hall n e.
  assert (forall n e, (n, e) ∈ map (canon g) cycles -> id_cycle g n e /\ least g n /\ length n <= bound) as Hin.
  { intros n' e' ([ns es] & Ec & Hc)%list_elem_of_fmap. apply Hall in Hc as [Hc Hlen].
    destruct (canon_of ns es Hc) as (n1 & e1 & E & ? & ? & ?). rewrite E in Ec. injection Ec as -> ->. split_and!; [done|done|lia]. }
  assert (forall n e, id_cycle g n e -> least g n -> length n <= bound -> exists e', (n, e') ∈ map (canon g) cycles /\ BTree.le edge_ids_cmp e' e) as Hout.
  { intros n' e' Hid Hl Hlen. destruct (canon_least n' e' Hid Hl) as (ns & es & e1 & Hc & E & Hle & Hlen'). exists e1. split; [|done].
    rewrite <- E. apply list_elem_of_fmap_2. apply Hall. split; [done|lia]. }
  split.
  - intros [Hb Hmin]. destruct (Hin n e Hb) as (Hid & Hl & Hlen). constructor; try done. intros e' Hid'.
    destruct (Hout n e' Hid' Hl Hlen) as (e1 & H1 & Hle). eapply (BTree.le_trans edge_ids_cmp); [by apply Hmin|done].
  - intros [Hid Hlen Hl Hmin]. destruct (Hout n e Hid Hl Hlen) as (e1 & H1 & Hle). destruct (Hin n e1 H1) as (Hid1 & _ & _).
    assert (e = e1) as <-.
    { specialize (Hmin e1 Hid1). unfold BTree.le in *. rewrite (cmp_sym (cmp := edge_ids_cmp) e e1) in Hle.
      destruct (edge_ids_cmp e e1) eqn:E; try done. by apply (cmp_eq (cmp := edge_ids_cmp)). }
    split; [done|]. intros e' H'. apply Hmin. by apply (Hin n e').
Qed.

Definition listed (found : Canonical) : list Cycle := map (fun c => {| cycle_node_ids := c.1; cycle_edge_ids := c.2 |}) found.

Lemma uncapped o l found : max_cycles o = None -> (records o l found).1 = false.
Proof.
  intros Ho. revert found. induction l as [|c l IH]; intros found; [done|]. cbn [records]. unfold record_cycle. rewrite Ho.
  destruct (BTree.get ids_cmp c.1 found) as [ex|]; [destruct (edge_ids_cmp c.2 ex)|]; apply IH.
Qed.

Lemma kept_empty o : kept o [] [].
Proof.
  constructor; [constructor|by intros n e; split; [intros ?%elem_of_nil|intros [?%elem_of_nil _]]|]. simpl. lia.
Qed.

End Exact.

(** [C6] Simple cycles are exact. On every constructed graph [simple_cycles] returns
    without panicking. Let [full] be the sorted map of the simple cycles within the
    length bound: its keys are the node sequences that are least among their rotations
    (and reversals, without direction), and each has the least edge sequence that
    closes it. Without a cap, or when the cap is large enough, the result is all of
    [full], in order, and is not marked truncated; with a smaller cap it holds exactly
    the cap's number of distinct cycles of [full], each closed by real edges, and is
    marked truncated. *)
Theorem simple_cycles_exact {JN : JsonNumber} (g : GraphInner) (o : CycleOptions) : graph_ok g ->
  exists full r, BTree.sorted_map ids_cmp full /\
  (forall n e, (n, e) ∈ full <-> entry g (length_bound o) n e) /\ simple_cycles g o = Some r /\
  match max_cycles o with
  | Some limit =>
      if limit <? length full then
        truncated r = true /\ length (result_cycles r) = limit /\
        exists found, result_cycles r = listed found /\ BTree.sorted_map ids_cmp found /\
          forall n e, (n, e) ∈ found -> n ∈ full.*1 /\ id_cycle g n e
      else r = {| result_cycles := listed full; truncated := false |}
  | None => r = {| result_cycles := listed full; truncated := false |}
  end.
Proof.
  intros Hg.
  destruct (components_cover g Hg) as (cs & Ecs & Hrange & Hcover).
  pose proof (through_all g Hg o cs Hrange Hcover) as Hall. set (cycles := flat_map (within g o) cs) in *.
  pose proof (best_entry g cycles (length_bound o) Hall) as Hbest.
  set (free := {| length_bound := length_bound o; max_cycles := None |}).
  pose proof (records_kept free (map (canon g) cycles) [] [] (kept_empty free)) as Hfull. cbv zeta in Hfull.
  rewrite uncapped in Hfull by done. set (full := (records free (map (canon g) cycles) []).2) in *. simpl in Hfull.
  exists full, {| result_cycles := listed (records o (map (canon g) cycles) []).2; truncated := (records o (map (canon g) cycles) []).1 |}.
  split_and!; [apply Hfull|intros n e; by rewrite (ke_best _ _ _ Hfull), Hbest| |].
  { unfold simple_cycles. rewrite Ecs. cbn [mbind option_bind]. by rewrite (cycles_in_records g Hg o cs Hrange [] cs). }
  pose proof (records_kept o (map (canon g) cycles) [] [] (kept_empty o)) as Ho. cbv zeta in Ho. simpl in Ho.
  destruct (records o (map (canon g) cycles) []) as [[] found]; cbn [fst snd] in *.
  - destruct Ho as (before & n & Hk & Hsub & Hn & Hout & Hmax). rewrite Hmax.
    rewrite (proj2 (Nat.ltb_lt _ _)) by by eapply (kept_cut o free before _ found full n).
    split_and!; [done|by apply length_map|]. exists found. split_and!; [done|apply Hk|]. intros n' e' Hin.
    apply (ke_best _ _ _ Hk) in Hin as [Hin%Hsub _]. split; [by apply (kept_keys _ _ _ _ Hfull), (list_elem_of_fmap_2 fst _ (n', e'))|].
    apply list_elem_of_fmap in Hin as ([ns es] & Ec & [Hc _]%Hall). destruct (canon_of g ns es Hc) as (n1 & e1 & E & Hid & _).
    rewrite E in Ec. by injection Ec as -> ->.
  - rewrite (kept_unique o free _ found full Ho Hfull) in Ho |- *. destruct (max_cycles o) as [k|] eqn:Ek; [|done].
    by rewrite (proj2 (Nat.ltb_ge _ _)) by apply (ke_cap _ _ _ Ho k Ek).
Qed.

(** [C7] Tarjan's algorithm finds the strongly connected components: on every
    constructed graph [strongly_connected_components] returns without panicking lists
    of nodes that partition the graph, each the class of the nodes that reach one
    another along directed edges, sorted by identity, the lists by their first nodes. *)
Theorem strongly_connected_exact {JN : JsonNumber} (g : GraphInner) : graph_ok g ->
  exists cs, strongly_connected_components g = Some cs /\
    concat cs ≡ₚ seq 0 (node_count g) /\
    (forall c, c ∈ cs -> c <> [] /\ StronglySorted (BTree.le (CyclesTarjan.id_order g)) c /\
      forall u v, u ∈ c -> v ∈ c <-> rtc (CyclesTarjan.edge_to g) u v /\ rtc (CyclesTarjan.edge_to g) v u) /\
    StronglySorted (BTree.le (CyclesTarjan.first_order g)) cs.
Proof.
  intros Hg. destruct (CyclesTarjan.components_exact g Hg) as (cs & E & Hs & Hp & Hsort). exists cs. split_and!; try done.
  intros c Hc. rewrite Forall_forall in Hs. destruct (Hs c Hc) as (Hne & _ & Hiff & Hsc). split_and!; [done|done|].
  intros u v Hu. by apply Hiff.
Qed.

Lemma simple_cycles_exact_witness :
  let _ := Json.number in let o := {| length_bound := 3; max_cycles := Some 1 |} in
  graph_ok Sample.graph /\ exists r, simple_cycles Sample.graph o = Some r /\ truncated r = true /\ length (result_cycles r) = 1.
Proof.
  cbv zeta. split; [exact Sample.graph_ok|].
  destruct (@simple_cycles_exact Json.number Sample.graph {| length_bound := 3; max_cycles := Some 1 |} Sample.graph_ok)
    as (full & r & _ & _ & Hr & _).
  exists r. split; [exact Hr|]. vm_compute in Hr. injection Hr as <-. split; reflexivity.
Defined.

Lemma strongly_connected_exact_witness :
  let _ := Json.number in
  graph_ok Sample.graph /\ exists cs, strongly_connected_components Sample.graph = Some cs /\ map length cs = [3; 1].
Proof.
  cbv zeta. split; [exact Sample.graph_ok|].
  destruct (@strongly_connected_exact Json.number Sample.graph Sample.graph_ok) as (cs & E & _).
  exists cs. split; [exact E|]. vm_compute in E. injection E as <-. reflexivity.
Defined.
End CyclesExact.
