(* ===== verification/EqualityValue.v ===== *)
(** Exact equality-index values:
    crates/db/src/encoding/v2/values/property/equality_index_value/mod.rs and
    prepare.rs.

    [prepare_equality_value] classifies a property value and computes the length of
    its canonical bytes; [encode] writes them; [try_from_parts] validates bytes read
    back. Two values share canonical bytes exactly when they are equal: the digest in
    front of them is only a scan accelerator.

    [None] is a panic: an [expect], or the assertion that the bytes written have the
    length computed before. The assertion on the capacity of the buffer, which a value
    does not carry, is left out. SHA-256 is third-party code. *)
From S2P Require Import Prelude Bytes ValueSemantics Property.

Open Scope Z_scope.

(** [sha2::Sha256::digest]. *)
Class Sha256 := {
  sha256 : bytes -> bytes;
  sha256_length : forall b, length (sha256 b) = 32%nat;
  sha256_ok : forall b, bytes_ok (sha256 b) }.

Module EqualityValue.
Import Property.

Definition EQUALITY_DIGEST_LEN : Z := 8.
Definition MAX_EQUALITY_CANONICAL_LEN : Z := 1024 * 1024 - 64.

Definition BOOL_TAG : Z := 0x01.
Definition NUMBER_TAG : Z := 0x02.
Definition DATETIME_TAG : Z := 0x03.
Definition STRING_TAG : Z := 0x04.
Definition BYTES_TAG : Z := 0x05.
Definition I64_ARRAY_TAG : Z := 0x06.
Definition F64_ARRAY_TAG : Z := 0x07.
Definition F32_ARRAY_TAG : Z := 0x08.
Definition STRING_ARRAY_TAG : Z := 0x09.

Definition NEGATIVE_INFINITY_TAG : Z := 0x01.
Definition NEGATIVE_FINITE_TAG : Z := 0x02.
Definition ZERO_TAG : Z := 0x03.
Definition POSITIVE_FINITE_TAG : Z := 0x04.
Definition POSITIVE_INFINITY_TAG : Z := 0x05.

Record CanonicalEqualityValue := { digest : bytes; canonical : bytes }.

#[global] Instance CanonicalEqualityValue_eq_dec : EqDecision CanonicalEqualityValue.
Proof. solve_decision. Defined.

Inductive EqualityValueProjection (T : Type) :=
| Indexed (value : T)
| AuthoritativeNull
| NonReflexive
| Unsupported (kind : string)
| Oversized (encoded_len maximum : Z).
Arguments Indexed {T} value.
Arguments AuthoritativeNull {T}.
Arguments NonReflexive {T}.
Arguments Unsupported {T} kind.
Arguments Oversized {T} encoded_len maximum.

(** [map_indexed]; [map] may panic. *)
Definition map_indexed {T U} (self : EqualityValueProjection T) (map : T -> option U) : option (EqualityValueProjection U) :=
  match self with
  | Indexed value => Indexed <$> map value
  | AuthoritativeNull => Some AuthoritativeNull
  | NonReflexive => Some NonReflexive
  | Unsupported kind => Some (Unsupported kind)
  | Oversized encoded_len maximum => Some (Oversized encoded_len maximum)
  end.

(** ** Writing *)

Definition put_count (count : Z) : option bytes := if count <=? umax 32 then Some (to_be 4 count) else None.

Definition put_length_delimited (value : bytes) : option bytes :=
  count ← put_count (blen value); Some (count ++ value).

Definition put_number (value : Canonical.CanonicalNumber) : bytes :=
  match value with
  | Canonical.NegativeInfinity => [NEGATIVE_INFINITY_TAG]
  | Canonical.NegativeFinite value =>
      NEGATIVE_FINITE_TAG :: to_be 2 (wrap 16 (Canonical.exponent value)) ++ to_be 8 (Canonical.odd_significand value)
  | Canonical.Zero => [ZERO_TAG]
  | Canonical.PositiveFinite value =>
      POSITIVE_FINITE_TAG :: to_be 2 (wrap 16 (Canonical.exponent value)) ++ to_be 8 (Canonical.odd_significand value)
  | Canonical.PositiveInfinity => [POSITIVE_INFINITY_TAG]
  end.

Inductive Kind :=
| KBool (value : bool)
| KNumber (value : Canonical.CanonicalNumber)
| KDateTime (value : Z)
| KString (value : bytes)
| KBytes (value : bytes)
| KIntegers (values : list Z)
| KDoubles (values : list Z)
| KFloats (values : list Z)
| KStrings (values : list bytes).

Record PreparedEqualityValue := { kind : Kind; encoded_len : Z }.

(** The members of a float array; [expect] panics on NaN. *)
Definition put_numbers (decode : Z -> option Canonical.CanonicalNumber) (values : list Z) : option bytes :=
  members ← mapM (fun value => put_number <$> decode value) values; Some (concat members).

(** The match of [encode]. *)
Definition put_kind (k : Kind) : option bytes :=
  match k with
  | KBool value => Some [BOOL_TAG; if value then 1 else 0]
  | KNumber value => Some (NUMBER_TAG :: put_number value)
  | KDateTime value => Some (DATETIME_TAG :: to_be 8 (wrap 64 value))
  | KString value => rest ← put_length_delimited value; Some (STRING_TAG :: rest)
  | KBytes value => rest ← put_length_delimited value; Some (BYTES_TAG :: rest)
  | KIntegers values =>
      count ← put_count (len values);
      Some (I64_ARRAY_TAG :: count ++ concat (map (fun value => to_be 8 (wrap 64 value)) values))
  | KDoubles values =>
      count ← put_count (len values); members ← put_numbers Canonical.from_f64 values;
      Some (F64_ARRAY_TAG :: count ++ members)
  | KFloats values =>
      count ← put_count (len values); members ← put_numbers Canonical.from_f32 values;
      Some (F32_ARRAY_TAG :: count ++ members)
  | KStrings values =>
      count ← put_count (len values); members ← mapM put_length_delimited values;
      Some (STRING_ARRAY_TAG :: count ++ concat members)
  end.

Section Digest.
Context {SH : Sha256}.

(** [hash[..8]] panics on a shorter hash. *)
Definition equality_digest (canonical : bytes) : option bytes :=
  let hash := sha256 canonical in
  if EQUALITY_DIGEST_LEN <=? blen hash then Some (take 8 hash) else None.

(** [CanonicalEqualityValue::new]. *)
Definition new (canonical : bytes) : option CanonicalEqualityValue :=
  digest ← equality_digest canonical; Some {| digest := digest; canonical := canonical |}.

Definition encode (self : PreparedEqualityValue) : option CanonicalEqualityValue :=
  bytes ← put_kind (kind self);
  if blen bytes =? encoded_len self then new bytes else None.

(** ** Classification *)

Definition oversized {T} (encoded_len : Z) : EqualityValueProjection T := Oversized encoded_len MAX_EQUALITY_CANONICAL_LEN.

Definition number_len (number : Canonical.CanonicalNumber) : Z :=
  match number with
  | Canonical.NegativeFinite _ | Canonical.PositiveFinite _ => 1 + 2 + 8
  | _ => 1
  end.

(** The [try_fold] over the members of a float array. *)
Fixpoint numbers_len (decode : Z -> option Canonical.CanonicalNumber) (length : Z) (values : list Z) : option Z :=
  match values with
  | [] => Some length
  | value :: values => number ← decode value; numbers_len decode (sat_add 64 length (number_len number)) values
  end.

(** The loop over the members of a string array, or the early return. *)
Fixpoint strings_len (length : Z) (values : list bytes) : EqualityValueProjection PreparedEqualityValue + Z :=
  match values with
  | [] => inr length
  | value :: values =>
      if umax 32 <? blen value then inl (oversized (blen value))
      else strings_len (sat_add 64 (sat_add 64 length 4) (blen value)) values
  end.

(** The match of [prepare_equality_value]: a kind and its length, or the early
    return. *)
Definition prepare_kind (value : PropertyValue) : EqualityValueProjection PreparedEqualityValue + (Kind * Z) :=
  match value with
  | Null => inl AuthoritativeNull
  | Array _ => inl (Unsupported "Array")
  | Object _ => inl (Unsupported "Object")
  | Bool value => inr (KBool value, 1 + 1)
  | I64 _ | F64 _ | F32 _ =>
      match from_property value with
      | None => inl NonReflexive
      | Some number => inr (KNumber number, 1 + number_len number)
      end
  | DateTime value => inr (KDateTime value, 1 + 8)
  | Str value => if umax 32 <? blen value then inl (oversized 1) else inr (KString value, 1 + 4 + blen value)
  | Property.Bytes value => if umax 32 <? blen value then inl (oversized 1) else inr (KBytes value, 1 + 4 + blen value)
  | I64Array values =>
      if umax 32 <? len values then inl (oversized 1)
      else inr (KIntegers values, sat_add 64 (sat_mul 64 (len values) 8) (1 + 4))
  | F64Array values =>
      if umax 32 <? len values then inl (oversized (len values))
      else
        match numbers_len Canonical.from_f64 (1 + 4) values with
        | None => inl NonReflexive
        | Some length => inr (KDoubles values, length)
        end
  | F32Array values =>
      if umax 32 <? len values then inl (oversized (len values))
      else
        match numbers_len Canonical.from_f32 (1 + 4) values with
        | None => inl NonReflexive
        | Some length => inr (KFloats values, length)
        end
  | StringArray values =>
      if umax 32 <? len values then inl (oversized (len values))
      else
        match strings_len (1 + 4) values with
        | inl early => inl early
        | inr length => inr (KStrings values, length)
        end
  end.

Definition prepare_equality_value (value : PropertyValue) : EqualityValueProjection PreparedEqualityValue :=
  match prepare_kind value with
  | inl early => early
  | inr (kind, encoded_len) =>
      if MAX_EQUALITY_CANONICAL_LEN <? encoded_len then oversized encoded_len
      else Indexed {| kind := kind; encoded_len := encoded_len |}
  end.

Definition project_equality_value (value : PropertyValue) : option (EqualityValueProjection CanonicalEqualityValue) :=
  map_indexed (prepare_equality_value value) encode.

(** ** Reading

    A [CanonicalDecoder] is the bytes that remain. *)

Definition take_raw (len : Z) (remaining : bytes) : result EncodingError (bytes * bytes) :=
  if blen remaining <? len then Err (BufferTooShort len (blen remaining))
  else Ok (take (Z.to_nat len) remaining, drop (Z.to_nat len) remaining).

Definition take_u8 (remaining : bytes) : result EncodingError (Z * bytes) :=
  let? (value, remaining) := take_raw 1 remaining in Ok (hd 0 value, remaining).

Definition take_u32 (remaining : bytes) : result EncodingError (Z * bytes) :=
  let? (value, remaining) := take_raw 4 remaining in Ok (of_be value, remaining).

Definition take_length_delimited (remaining : bytes) : result EncodingError (bytes * bytes) :=
  let? (len, remaining) := take_u32 remaining in take_raw len remaining.

Definition take_number (remaining : bytes) : result EncodingError bytes :=
  let? (tag, remaining) := take_u8 remaining in
  if (tag =? NEGATIVE_INFINITY_TAG) || (tag =? ZERO_TAG) || (tag =? POSITIVE_INFINITY_TAG) then Ok remaining
  else if (tag =? NEGATIVE_FINITE_TAG) || (tag =? POSITIVE_FINITE_TAG) then
    let? (_, remaining) := take_raw 2 remaining in
    let? (significand, remaining) := take_raw 8 remaining in
    let significand := of_be significand in
    if (significand =? 0) || Z.even significand then
      Err (InvalidKey "canonical finite significand must be nonzero and odd")
    else Ok remaining
  else Err (InvalidKey ("unknown canonical number tag " +:+ fmt_hex tag)).

(** [for _ in 0..count]. *)
Fixpoint repeat_take (count : nat) (take : bytes -> result EncodingError bytes) (remaining : bytes) : result EncodingError bytes :=
  match count with
  | O => Ok remaining
  | S count => let? remaining := take remaining in repeat_take count take remaining
  end.

Definition take_str (remaining : bytes) : result EncodingError bytes :=
  let? (value, remaining) := take_length_delimited remaining in
  let? _ := from_utf8 value in Ok remaining.

Definition finish (remaining : bytes) : result EncodingError unit :=
  if blen remaining =? 0 then Ok tt
  else Err (InvalidKey ("canonical equality value has " +:+ fmt_dec (blen remaining) +:+ " trailing bytes")).

(** The match of [validate_canonical] on the tag. A count below 2^32 times eight
    never overflows [usize]. *)
Definition take_tagged (tag : Z) (remaining : bytes) : result EncodingError bytes :=
  if tag =? BOOL_TAG then
    let? (value, remaining) := take_u8 remaining in
    if (value =? 0x00) || (value =? 0x01) then Ok remaining
    else Err (InvalidKey ("noncanonical equality boolean " +:+ fmt_hex value))
  else if tag =? NUMBER_TAG then take_number remaining
  else if tag =? DATETIME_TAG then let? (_, remaining) := take_raw 8 remaining in Ok remaining
  else if tag =? STRING_TAG then take_str remaining
  else if tag =? BYTES_TAG then let? (_, remaining) := take_length_delimited remaining in Ok remaining
  else if tag =? I64_ARRAY_TAG then
    let? (count, remaining) := take_u32 remaining in
    let? length := ok_or (checked_mul 64 count 8) (InvalidKey "equality i64 array length overflowed") in
    let? (_, remaining) := take_raw length remaining in Ok remaining
  else if (tag =? F64_ARRAY_TAG) || (tag =? F32_ARRAY_TAG) then
    let? (count, remaining) := take_u32 remaining in repeat_take (Z.to_nat count) take_number remaining
  else if tag =? STRING_ARRAY_TAG then
    let? (count, remaining) := take_u32 remaining in repeat_take (Z.to_nat count) take_str remaining
  else Err (InvalidKey ("unknown canonical equality tag " +:+ fmt_hex tag)).

Definition validate_canonical (canonical : bytes) : result EncodingError unit :=
  if MAX_EQUALITY_CANONICAL_LEN <? blen canonical then
    Err (InvalidKey ("canonical equality value exceeds " +:+ fmt_dec MAX_EQUALITY_CANONICAL_LEN +:+ " bytes"))
  else
    let? (tag, remaining) := take_u8 canonical in
    let? remaining := take_tagged tag remaining in
    finish remaining.

(** [CanonicalEqualityValue::try_from_parts]. *)
Definition try_from_parts (digest canonical : bytes) : option (result EncodingError CanonicalEqualityValue) :=
  match validate_canonical canonical with
  | Err e => Some (Err e)
  | Ok _ =>
      expected ← equality_digest canonical;
      Some (if bool_decide (digest = expected) then Ok {| digest := digest; canonical := canonical |}
            else Err CanonicalEqualityDigestMismatch)
  end.
End Digest.
End EqualityValue.
