(* ===== verification/EqualityValueSpec.v ===== *)
(** The equality projection against its byte format: which values are indexed, that
    what is written is accepted back, and that two values have the same canonical
    bytes exactly when they are equal. *)
From S2P Require Import Prelude Bytes ValueSemantics Property Cursor EqualityValue.

Open Scope Z_scope.

Module EqualityValueSpec.
Export EqualityValue.
Import Property.

(** ** The format *)

Definition framed (value : bytes) : bytes := to_be 4 (blen value) ++ value.
Definition numbers (decode : Z -> option Canonical.CanonicalNumber) (values : list Z) : list Canonical.CanonicalNumber :=
  map (fun value => default Canonical.Zero (decode value)) values.

Definition members {A} (put : A -> bytes) (values : list A) : bytes := to_be 4 (len values) ++ concat (map put values).

(** The canonical bytes of a value, whatever their length. *)
Definition canonical_bytes (value : PropertyValue) : bytes :=
  match value with
  | Null | Array _ | Object _ => []
  | Bool value => [BOOL_TAG; if value then 1 else 0]
  | I64 _ | F64 _ | F32 _ => NUMBER_TAG :: put_number (default Canonical.Zero (from_property value))
  | DateTime value => DATETIME_TAG :: to_be 8 (wrap 64 value)
  | Str value => STRING_TAG :: framed value
  | Property.Bytes value => BYTES_TAG :: framed value
  | I64Array values => I64_ARRAY_TAG :: members (fun value => to_be 8 (wrap 64 value)) values
  | F64Array values => F64_ARRAY_TAG :: members put_number (numbers Canonical.from_f64 values)
  | F32Array values => F32_ARRAY_TAG :: members put_number (numbers Canonical.from_f32 values)
  | StringArray values => STRING_ARRAY_TAG :: members framed values
  end.

(** Values as the code's types hold them. *)
Definition value_ok (value : PropertyValue) : Prop :=
  match value with
  | I64 z | DateTime z => in_i 64 z
  | F64 bits | F32 bits => in_u 64 bits
  | Str s => str_ok s
  | Property.Bytes b => bytes_ok b
  | I64Array a => Forall (in_i 64) a
  | F64Array a => Forall (in_u 64) a
  | F32Array a => Forall (in_u 32) a
  | StringArray a => Forall str_ok a
  | _ => True
  end.

Lemma numbers_cons decode x values : numbers decode (x :: values) = default Canonical.Zero (decode x) :: numbers decode values.
Proof. done. Qed.

(** ** Numbers *)

Lemma from_f64_ok bits n : in_u 64 bits -> Canonical.from_f64 bits = Some n -> Canonical.number_ok n.
Proof. intros Hb E. pose proof (Canonical.canonical_spec (Canonical.F64 bits) Hb) as H.
  cbn [Canonical.canonical] in H. rewrite E in H. exact (proj1 H).
Qed.

Lemma from_f32_ok bits n : in_u 32 bits -> Canonical.from_f32 bits = Some n -> Canonical.number_ok n.
Proof. intros Hb E. pose proof (Canonical.canonical_spec (Canonical.F32 bits) Hb) as H.
  cbn [Canonical.canonical] in H. rewrite E in H. exact (proj1 H).
Qed.

Lemma property_number_ok v n : value_ok v -> from_property v = Some n -> Canonical.number_ok n.
Proof. intros Hv. by destruct v; try done; apply from_property_ok. Qed.

Lemma default_number_ok v : value_ok v -> Canonical.number_ok (default Canonical.Zero (from_property v)).
Proof. intros Hv. destruct (from_property v) as [n|] eqn:E; [by apply (property_number_ok v)|done]. Qed.

Lemma exponent_bound f : Canonical.finite_ok f -> -1074 <= Canonical.exponent f <= 1023.
Proof.
  intros [_ Hr He Hf Ht _]. assert (0 <= Z.log2 (Canonical.odd_significand f)) by apply Z.log2_nonneg. lia.
Qed.

Lemma finite_ext f g : Canonical.finite_ok f -> Canonical.finite_ok g -> Canonical.exponent f = Canonical.exponent g ->
  Canonical.odd_significand f = Canonical.odd_significand g -> f = g.
Proof.
  intros [_ _ _ Hf _ Hn] [_ _ _ Hf' _ Hn'] He Hs. destruct f, g. simpl in *. subst. done.
Qed.

Lemma wrap16_inj a b : -1074 <= a <= 1023 -> -1074 <= b <= 1023 -> wrap 16 a = wrap 16 b -> a = b.
Proof. unfold wrap. change (2 ^ 16) with 65536. intros Ha Hb H. Z.to_euclidean_division_equations. lia. Qed.

Lemma wrap64_inj a b : in_i 64 a -> in_i 64 b -> wrap 64 a = wrap 64 b -> a = b.
Proof.
  unfold in_i, wrap. change (2 ^ 64) with 18446744073709551616. change (2 ^ (64 - 1)) with 9223372036854775808.
  intros Ha Hb H. Z.to_euclidean_division_equations. lia.
Qed.

Lemma wrap_bound w z : 0 <= w -> 0 <= wrap w z < 2 ^ w.
Proof. intros Hw. apply Z.mod_pos_bound, Z.pow_pos_nonneg; lia. Qed.

(** A field of fixed width ends where the next begins. *)
Lemma field_inj n a b u v : 0 <= a < 256 ^ Z.of_nat n -> 0 <= b < 256 ^ Z.of_nat n ->
  to_be n a ++ u = to_be n b ++ v -> a = b /\ u = v.
Proof.
  intros Ha Hb H. apply app_inj_1 in H as [H ->]; [|by rewrite !length_to_be]. by apply to_be_inj in H.
Qed.

(** ** Encodings that end where they say *)

Definition prefix_free {A} (ok : A -> Prop) (put : A -> bytes) : Prop :=
  forall x y u v, ok x -> ok y -> put x ++ u = put y ++ v -> x = y /\ u = v.

Lemma finite_prefix f g u v : Canonical.finite_ok f -> Canonical.finite_ok g ->
  to_be 2 (wrap 16 (Canonical.exponent f)) ++ to_be 8 (Canonical.odd_significand f) ++ u =
  to_be 2 (wrap 16 (Canonical.exponent g)) ++ to_be 8 (Canonical.odd_significand g) ++ v -> f = g /\ u = v.
Proof.
  intros Hf Hg H. apply field_inj in H as [He H]; [|by apply wrap_bound..].
  apply field_inj in H as [Hs ->]; [|split; [apply Z.lt_le_incl|]; by apply Canonical.fo_range..].
  split; [|done]. apply finite_ext; [done..| |done]. by apply wrap16_inj; [apply exponent_bound..|].
Qed.

Lemma put_number_prefix : prefix_free Canonical.number_ok put_number.
Proof.
  intros x y u v Hx Hy H. destruct x, y; cbn [put_number app] in H; try (by inversion H);
    apply (f_equal tail) in H; cbn [tail] in H; rewrite <- !app_assoc in H; by apply finite_prefix in H as [-> ->].
Qed.

Lemma framed_prefix : prefix_free (fun s => blen s <= umax 32) framed.
Proof.
  intros x y u v Hx Hy H. unfold framed in H. rewrite <- !app_assoc in H. unfold umax in *.
  apply field_inj in H as [Hl H]; [|change (256 ^ Z.of_nat 4) with (2 ^ 32); pose proof (blen_nonneg x); pose proof (blen_nonneg y); lia..].
  apply app_inj_1 in H; [done|]. unfold blen in Hl. lia.
Qed.

Lemma i64_prefix : prefix_free (in_i 64) (fun z => to_be 8 (wrap 64 z)).
Proof.
  intros x y u v Hx Hy H. apply field_inj in H as [H ->]; [|by apply wrap_bound..]. split; [|done]. by apply wrap64_inj.
Qed.

Lemma members_prefix {A} (ok : A -> Prop) (put : A -> bytes) : prefix_free ok put ->
  prefix_free (fun l => Forall ok l /\ len l <= umax 32) (members put).
Proof.
  intros Hput x y u v [Hx Hlx] [Hy Hly] H. unfold members in H. rewrite <- !app_assoc in H. unfold umax in *.
  apply field_inj in H as [Hl H]; [|change (256 ^ Z.of_nat 4) with (2 ^ 32); unfold len in *; lia..].
  assert (length x = length y) as Hlen by (unfold len in Hl; lia). clear Hl Hlx Hly.
  revert y Hy Hlen H. induction Hx as [|a x Ha Hx IH]; intros [|b y] Hy Hlen H; simpl in *; try done.
  rewrite <- !app_assoc in H. inversion Hy as [|? ? Hb Hy']; subst. apply Hput in H as [-> H]; [|done..].
  injection Hlen as Hlen. by apply IH in H as [-> ->].
Qed.

Lemma prefix_free_inj {A} (ok : A -> Prop) (put : A -> bytes) x y : prefix_free ok put -> ok x -> ok y -> put x = put y -> x = y.
Proof. intros Hp Hx Hy H. by apply (Hp x y [] [] Hx Hy); rewrite !app_nil_r. Qed.

(** ** Lengths *)

Lemma number_len_put n : blen (put_number n) = number_len n.
Proof. by destruct n; cbn [put_number number_len]; autorewrite with bytes_len. Qed.

Lemma blen_framed s : blen (framed s) = 4 + blen s.
Proof. unfold framed. by autorewrite with bytes_len. Qed.

Lemma blen_concat {A} (put : A -> bytes) l : (forall x, x ∈ l -> 1 <= blen (put x)) -> len l <= blen (concat (map put l)).
Proof.
  induction l as [|x l IH]; intros Hput; [done|]. cbn [map concat]. rewrite blen_app.
  specialize (Hput x ltac:(by left)) as Hx. specialize (IH ltac:(intros; apply Hput; by right)). unfold len in *. cbn [length]. lia.
Qed.

Lemma len_members {A} (put : A -> bytes) l : (forall x, x ∈ l -> 1 <= blen (put x)) -> 4 + len l <= blen (members put l).
Proof. intros Hput. unfold members. autorewrite with bytes_len. pose proof (blen_concat put l Hput). lia. Qed.

Lemma len_numbers decode values : len (numbers decode values) = len values.
Proof. unfold numbers, len. by rewrite length_map. Qed.

(** ** The classification computes the lengths it writes *)

Definition decodes (decode : Z -> option Canonical.CanonicalNumber) (values : list Z) : Prop := Forall (fun value => is_Some (decode value)) values.

Lemma numbers_len_spec decode acc values : 0 <= acc <= umax 64 ->
  match numbers_len decode acc values with
  | None => ~ decodes decode values
  | Some n => decodes decode values /\ n = Z.min (acc + blen (concat (map put_number (numbers decode values)))) (umax 64)
  end.
Proof.
  revert acc. induction values as [|x values IH]; intros acc Ha; cbn [numbers_len].
  - split; [constructor|]. change (blen _) with 0. lia.
  - destruct (decode x) as [n|] eqn:E; cbn [mbind option_bind].
    + assert (0 <= sat_add 64 acc (number_len n) <= umax 64) as Hs by (unfold sat_add, umax; destruct n; cbn [number_len]; lia).
      specialize (IH _ Hs). destruct (numbers_len _ _ values) as [m|].
      * destruct IH as [Hd ->]. split; [constructor; [by rewrite E|done]|]. rewrite numbers_cons, E. cbn [map concat].
        change (default Canonical.Zero (Some n)) with n. rewrite blen_app, number_len_put. unfold sat_add.
        pose proof (blen_nonneg (concat (map put_number (numbers decode values)))). lia.
      * intros Hd. by inversion Hd.
    + intros Hd. inversion Hd as [|? ? [? Hx]]. congruence.
Qed.

Lemma strings_len_spec acc values : 0 <= acc <= umax 64 ->
  match strings_len acc values with
  | inl early => exists n, early = oversized n /\ exists s, s ∈ values /\ umax 32 < blen s
  | inr n => Forall (fun s => blen s <= umax 32) values /\ n = Z.min (acc + blen (concat (map framed values))) (umax 64)
  end.
Proof.
  revert acc. induction values as [|x values IH]; intros acc Ha; cbn [strings_len].
  - split; [constructor|]. change (blen _) with 0. lia.
  - destruct (Z.ltb_spec (umax 32) (blen x)) as [Hx|Hx].
    + eexists. split; [done|]. exists x. split; [by left|done].
    + pose proof (blen_nonneg x).
      assert (0 <= sat_add 64 (sat_add 64 acc 4) (blen x) <= umax 64) as Hs by (unfold sat_add, umax in *; lia).
      specialize (IH _ Hs). destruct (strings_len _ values) as [early|n].
      * destruct IH as (n & -> & s & Hin & Hs'). exists n. split; [done|]. exists s. split; [by right|done].
      * destruct IH as [Hd ->]. split; [by constructor|]. cbn [map concat]. rewrite blen_app, blen_framed. unfold sat_add.
        pose proof (blen_nonneg (concat (map framed values))). lia.
Qed.

Lemma put_numbers_some decode values : decodes decode values ->
  put_numbers decode values = Some (concat (map put_number (numbers decode values))).
Proof.
  intros Hd. unfold put_numbers. assert (mapM (fun value => put_number <$> decode value) values = Some (map put_number (numbers decode values))) as ->; [|done].
  induction Hd as [|x values [n E] _ IH]; [done|]. cbn [mapM]. rewrite numbers_cons, E. cbn [fmap option_fmap option_map mbind option_bind].
  by rewrite IH.
Qed.

Lemma put_framed_some s : blen s <= umax 32 -> put_length_delimited s = Some (framed s).
Proof. intros Hs. unfold put_length_delimited, put_count. by rewrite (proj2 (Z.leb_le _ _)). Qed.

Lemma put_strings_some values : Forall (fun s => blen s <= umax 32) values -> mapM put_length_delimited values = Some (map framed values).
Proof.
  induction 1 as [|s values Hs _ IH]; [done|]. cbn [mapM map]. rewrite put_framed_some by done. cbn [mbind option_bind]. by rewrite IH.
Qed.

(** ** Equality of float arrays *)

Definition decoded_equal (decode : Z -> option Canonical.CanonicalNumber) : list Z -> list Z -> bool :=
  slices_equal (fun l r => canonical_eq (decode l) (decode r)).

Lemma canonical_eq_self d : canonical_eq d d = true <-> is_Some d.
Proof. destruct d as [n|]; simpl; [by rewrite bool_decide_eq_true|]. split; [done|by intros [? ?]]. Qed.

Lemma decoded_self decode l : decoded_equal decode l l = true <-> decodes decode l.
Proof.
  induction l as [|x l IH]; [by split; [constructor|]|]. unfold decoded_equal, decodes in *. cbn [slices_equal].
  by rewrite andb_true_iff, IH, canonical_eq_self, Forall_cons.
Qed.

Lemma decoded_numbers decode l r : decodes decode l -> decodes decode r -> decoded_equal decode l r = true <-> numbers decode l = numbers decode r.
Proof.
  intros Hl. revert r. induction Hl as [|x l [m Em] _ IH]; intros r Hr; (destruct Hr as [|y r [n En] Hr]; [done|]); try done.
  unfold decoded_equal in *. cbn [slices_equal]. rewrite !numbers_cons, Em, En, andb_true_iff, IH by done.
  cbn [canonical_eq]. rewrite bool_decide_eq_true. simpl.
  split; [by intros [-> ->]|by intros [= -> ->]].
Qed.

(** ** Preparation *)

Definition indexable (value : PropertyValue) : Prop :=
  match value with Null | Array _ | Object _ => False | _ => True end.

Lemma number_put_pos n : 1 <= blen (put_number n).
Proof. rewrite number_len_put. destruct n; simpl; lia. Qed.
Lemma framed_pos s : 1 <= blen (framed s).
Proof. rewrite blen_framed. pose proof (blen_nonneg s). lia. Qed.
Lemma i64_pos z : 1 <= blen (to_be 8 (wrap 64 z)).
Proof. autorewrite with bytes_len. lia. Qed.

Lemma blen_concat_fixed {A} (put : A -> bytes) k l : (forall x, blen (put x) = k) -> blen (concat (map put l)) = k * len l.
Proof.
  intros Hput. induction l as [|x l IH]; [unfold len; simpl; change (blen []) with 0; lia|]. cbn [map concat]. rewrite blen_app, Hput, IH. unfold len. cbn [length]. lia.
Qed.

Lemma blen_string s values : s ∈ values -> blen s <= blen (concat (map framed values)).
Proof.
  induction values as [|x values IH]; intros Hin; [by apply elem_of_nil in Hin|]. cbn [map concat]. rewrite blen_app, blen_framed.
  pose proof (blen_nonneg (concat (map framed values))). pose proof (blen_nonneg x).
  apply elem_of_cons in Hin as [->|Hin]; [lia|]. specialize (IH Hin). lia.
Qed.

(** The length computed is the length written, saturated at the width of [usize]. *)
Definition prepared (value : PropertyValue) (k : Kind) (n : Z) : Prop :=
  indexable value /\ eq_value value value = true /\ put_kind k = Some (canonical_bytes value) /\
  n = Z.min (blen (canonical_bytes value)) (umax 64).

Lemma prepare_number value : rank value = 2 ->
  match from_property value with
  | None => eq_value value value = false
  | Some n => prepared value (KNumber n) (1 + number_len n)
  end.
Proof.
  intros Hr.
  assert (indexable value /\ eq_value value value = canonical_eq (from_property value) (from_property value) /\
    canonical_bytes value = NUMBER_TAG :: put_number (default Canonical.Zero (from_property value))) as (Hi & He & Hc).
  { by destruct value. }
  destruct (from_property value) as [n|]; [|by rewrite He].
  split; [done|]. rewrite He, Hc, canonical_eq_self. split_and!; [done|done|].
  change (default _ _) with n. rewrite blen_cons, number_len_put. unfold umax. destruct n; cbn [number_len]; lia.
Qed.

Lemma prepare_string s (tag : Z) (k : Kind) value : canonical_bytes value = tag :: framed s ->
  indexable value -> eq_value value value = true -> put_kind k = (rest ← put_length_delimited s; Some (tag :: rest)) ->
  if umax 32 <? blen s then MAX_EQUALITY_CANONICAL_LEN < blen (canonical_bytes value) else prepared value k (1 + 4 + blen s).
Proof.
  intros Hc Hi He Hk. rewrite Hc, blen_cons, blen_framed. unfold prepared. rewrite Hc, blen_cons, blen_framed, Hk.
  destruct (Z.ltb_spec (umax 32) (blen s)) as [Hs|Hs].
  - unfold umax, MAX_EQUALITY_CANONICAL_LEN in *. lia.
  - rewrite put_framed_some by done. split_and!; [done..|]. unfold umax in *. pose proof (blen_nonneg s). lia.
Qed.

Lemma prepare_members {A} (put : A -> bytes) (l : list A) tag k value body :
  canonical_bytes value = tag :: members put l -> indexable value -> eq_value value value = true ->
  put_kind k = (count ← put_count (len l); body ← body; Some (tag :: count ++ body)) -> body = Some (concat (map put l)) ->
  len l <= umax 32 -> prepared value k (Z.min (1 + 4 + blen (concat (map put l))) (umax 64)).
Proof.
  intros Hc Hi He Hk -> Hl. unfold prepared. rewrite Hc, Hk. unfold put_count. rewrite (proj2 (Z.leb_le _ _)) by done.
  split_and!; [done..|]. unfold members. by autorewrite with bytes_len; rewrite Z.add_assoc.
Qed.

Lemma oversized_members {A} (put : A -> bytes) (l : list A) tag : (forall x, 1 <= blen (put x)) -> umax 32 < len l ->
  MAX_EQUALITY_CANONICAL_LEN < blen (tag :: members put l).
Proof.
  intros Hp Hl. rewrite blen_cons. pose proof (len_members put l ltac:(auto)). unfold umax, MAX_EQUALITY_CANONICAL_LEN in *. lia.
Qed.

(** The float arrays. *)
Lemma prepare_floats decode tag values value (mk : list Z -> Kind) : canonical_bytes value = tag :: members put_number (numbers decode values) ->
  indexable value -> eq_value value value = decoded_equal decode values values ->
  put_kind (mk values) = (count ← put_count (len values); body ← put_numbers decode values; Some (tag :: count ++ body)) ->
  if umax 32 <? len values then MAX_EQUALITY_CANONICAL_LEN < blen (canonical_bytes value)
  else match numbers_len decode (1 + 4) values with
       | None => eq_value value value = false
       | Some n => prepared value (mk values) n
       end.
Proof.
  intros Hc Hi He Hk. destruct (Z.ltb_spec (umax 32) (len values)) as [Hs|Hs].
  - rewrite Hc. apply oversized_members; [apply number_put_pos|by rewrite len_numbers].
  - pose proof (numbers_len_spec decode (1 + 4) values ltac:(unfold umax; lia)) as Hn. rewrite He.
    destruct (numbers_len decode (1 + 4) values) as [n|].
    + destruct Hn as [Hd ->]. rewrite <- (len_numbers decode values) in *.
      apply (prepare_members put_number (numbers decode values) tag (mk values) value (put_numbers decode values)); try done;
        [by rewrite He, decoded_self|by apply put_numbers_some].
    + apply not_true_iff_false. by rewrite decoded_self.
Qed.

Lemma eq_self_slices {A} (eq : A -> A -> bool) l : (forall x, eq x x = true) -> slices_equal eq l l = true.
Proof. intros He. induction l as [|x l IH]; [done|]. cbn [slices_equal]. by rewrite He, IH. Qed.

Lemma prepare_spec value :
  match prepare_kind value with
  | inl AuthoritativeNull => value = Null
  | inl NonReflexive => eq_value value value = false
  | inl (Unsupported _) => ~ indexable value /\ value <> Null
  | inl (Oversized _ m) => m = MAX_EQUALITY_CANONICAL_LEN /\ m < blen (canonical_bytes value)
  | inl (Indexed _) => False
  | inr (k, n) => prepared value k n
  end.
Proof.
  destruct value as [|b|z|z|z|z|s|s|a|a|a|a|a|o]; cbn [prepare_kind].
  - done.
  - split; [done|]. split_and!; [by destruct b|done|]. unfold umax. destruct b; vm_compute; done.
  - pose proof (prepare_number (I64 z) eq_refl) as H. by destruct (from_property (I64 z)).
  - split; [done|]. split_and!; [apply Z.eqb_refl|done|]. cbn [canonical_bytes]. autorewrite with bytes_len. unfold umax. lia.
  - pose proof (prepare_number (F64 z) eq_refl) as H. by destruct (from_property (F64 z)).
  - pose proof (prepare_number (F32 z) eq_refl) as H. by destruct (from_property (F32 z)).
  - pose proof (prepare_string s STRING_TAG (KString s) (Str s) eq_refl I ltac:(by apply bytes_eqb_eq) eq_refl) as H.
    by destruct (umax 32 <? blen s).
  - pose proof (prepare_string s BYTES_TAG (KBytes s) (Property.Bytes s) eq_refl I ltac:(by apply bytes_eqb_eq) eq_refl) as H.
    by destruct (umax 32 <? blen s).
  - destruct (Z.ltb_spec (umax 32) (len a)) as [Hs|Hs].
    + split; [done|]. apply (oversized_members (fun z => to_be 8 (wrap 64 z))); [apply i64_pos|done].
    + assert (sat_add 64 (sat_mul 64 (len a) 8) (1 + 4) = Z.min (1 + 4 + blen (concat (map (fun z => to_be 8 (wrap 64 z)) a))) (umax 64)) as ->.
      { rewrite (blen_concat_fixed _ 8) by (intros; by rewrite blen_to_be). unfold sat_add, sat_mul, umax, len in *. lia. }
      apply (prepare_members _ _ I64_ARRAY_TAG _ _ (Some (concat (map (fun z => to_be 8 (wrap 64 z)) a)))); try done.
      apply eq_self_slices, Z.eqb_refl.
  - pose proof (prepare_floats Canonical.from_f64 F64_ARRAY_TAG a (F64Array a) KDoubles eq_refl I eq_refl eq_refl) as H.
    destruct (umax 32 <? len a); [done|]. by destruct (numbers_len Canonical.from_f64 (1 + 4) a).
  - pose proof (prepare_floats Canonical.from_f32 F32_ARRAY_TAG a (F32Array a) KFloats eq_refl I eq_refl eq_refl) as H.
    destruct (umax 32 <? len a); [done|]. by destruct (numbers_len Canonical.from_f32 (1 + 4) a).
  - destruct (Z.ltb_spec (umax 32) (len a)) as [Hs|Hs].
    + split; [done|]. apply (oversized_members framed); [apply framed_pos|done].
    + pose proof (strings_len_spec (1 + 4) a ltac:(unfold umax; lia)) as H. destruct (strings_len (1 + 4) a) as [early|n].
      * destruct H as (n & -> & s & Hin & Hbig). split; [done|]. cbn [canonical_bytes]. unfold members. autorewrite with bytes_len.
        pose proof (blen_string s a Hin). unfold umax, MAX_EQUALITY_CANONICAL_LEN in *. lia.
      * destruct H as [Hd ->].
        apply (prepare_members framed a STRING_ARRAY_TAG (KStrings a) _ (body ← mapM put_length_delimited a; Some (concat body))); try done.
        -- apply eq_self_slices. intros x. by apply bytes_eqb_eq.
        -- cbn [put_kind]. destruct (put_count (len a)); [|done]. cbn [mbind option_bind]. by destruct (mapM put_length_delimited a).
        -- by rewrite put_strings_some.
  - split; [intros []|discriminate].
  - split; [intros []|discriminate].
Qed.

(** ** What is written is accepted *)

Lemma take_field n l c : blen l = n -> take_raw n (l ++ c) = Ok (l, c).
Proof. intros <-. exact (Cursor.take_raw_app l c). Qed.

Lemma take_first_byte tag c : take_u8 (tag :: c) = Ok (tag, c).
Proof. exact (Cursor.take_u8_cons tag c). Qed.

Lemma take_count n c : 0 <= n <= umax 32 -> take_u32 (to_be 4 n ++ c) = Ok (n, c).
Proof.
  intros Hn. unfold take_u32. rewrite (take_field 4) by (by rewrite blen_to_be). bind_simpl. rewrite of_to_be; [done|].
  unfold umax in Hn. change (256 ^ Z.of_nat 4) with (2 ^ 32). lia.
Qed.

Lemma take_framed s c : blen s <= umax 32 -> take_length_delimited (framed s ++ c) = Ok (s, c).
Proof.
  intros Hs. unfold take_length_delimited, framed. rewrite <- app_assoc, take_count by (split; [apply blen_nonneg|done]). bind_simpl. by rewrite take_field.
Qed.

Lemma take_finite f c : Canonical.finite_ok f ->
  (let? (_, remaining) := take_raw 2 (to_be 2 (wrap 16 (Canonical.exponent f)) ++ to_be 8 (Canonical.odd_significand f) ++ c) in
   let? (significand, remaining) := take_raw 8 remaining in
   let significand := of_be significand in
   if (significand =? 0) || Z.even significand then
     Err (InvalidKey "canonical finite significand must be nonzero and odd")
   else Ok remaining) = Ok c.
Proof.
  intros [Ho Hr _ _ _ _]. rewrite take_field by (by rewrite blen_to_be). bind_simpl. rewrite take_field by (by rewrite blen_to_be). bind_simpl.
  rewrite of_to_be by (split; [lia|apply Hr]). rewrite (proj2 (Z.eqb_neq _ _)) by lia. by rewrite <- Z.negb_odd, Ho.
Qed.

Lemma take_put_number n c : Canonical.number_ok n -> take_number (put_number n ++ c) = Ok c.
Proof.
  intros Hn. unfold take_number. destruct n; cbn [put_number app]; rewrite take_first_byte; bind_simpl; try done;
    rewrite <- app_assoc; exact (take_finite f c Hn).
Qed.

Lemma repeat_take_concat {A} (ok : A -> Prop) (put : A -> bytes) take l c :
  (forall x c, ok x -> take (put x ++ c) = Ok c) -> Forall ok l -> repeat_take (length l) take (concat (map put l) ++ c) = Ok c.
Proof.
  intros Htake Hl. induction Hl as [|x l Hx _ IH]; [done|]. cbn [length repeat_take map concat]. rewrite <- app_assoc, Htake by done. done.
Qed.

Lemma take_members {A} (ok : A -> Prop) (put : A -> bytes) take l c :
  (forall x c, ok x -> take (put x ++ c) = Ok c) -> Forall ok l -> len l <= umax 32 ->
  (let? (count, remaining) := take_u32 (members put l ++ c) in repeat_take (Z.to_nat count) take remaining) = Ok c.
Proof.
  intros Htake Hl Hlen. unfold members. rewrite <- app_assoc, take_count by (unfold len in *; lia). bind_simpl.
  unfold len. rewrite Nat2Z.id. by apply (repeat_take_concat ok).
Qed.

Lemma numbers_ok decode values : (forall x n, x ∈ values -> decode x = Some n -> Canonical.number_ok n) -> Forall Canonical.number_ok (numbers decode values).
Proof.
  intros Hd. apply Forall_forall. intros n (x & -> & Hx)%list_elem_of_fmap. destruct (decode x) as [n|] eqn:E; [by apply (Hd x)|done].
Qed.

Lemma f64_numbers_ok a : Forall (in_u 64) a -> Forall Canonical.number_ok (numbers Canonical.from_f64 a).
Proof. intros Ha. apply numbers_ok. intros x n Hx. apply from_f64_ok. rewrite Forall_forall in Ha. auto. Qed.
Lemma f32_numbers_ok a : Forall (in_u 32) a -> Forall Canonical.number_ok (numbers Canonical.from_f32 a).
Proof. intros Ha. apply numbers_ok. intros x n Hx. apply from_f32_ok. rewrite Forall_forall in Ha. auto. Qed.

(** The lengths a canonical encoding within its bound implies. *)
Lemma bounded_members {A} tag (put : A -> bytes) l : (forall x, 1 <= blen (put x)) -> blen (tag :: members put l) <= MAX_EQUALITY_CANONICAL_LEN ->
  len l <= umax 32.
Proof. intros Hp Hl. destruct (Z.le_gt_cases (len l) (umax 32)) as [|Hb]; [done|]. pose proof (oversized_members put l tag Hp ltac:(lia)). lia. Qed.

Lemma bounded_string tag s : blen (tag :: framed s) <= MAX_EQUALITY_CANONICAL_LEN -> blen s <= umax 32.
Proof. rewrite blen_cons, blen_framed. unfold umax, MAX_EQUALITY_CANONICAL_LEN. lia. Qed.

Lemma bounded_strings tag a : blen (tag :: members framed a) <= MAX_EQUALITY_CANONICAL_LEN -> Forall (fun s => blen s <= umax 32) a.
Proof.
  intros Hl. apply Forall_forall. intros s Hs. pose proof (blen_string s a Hs). revert Hl. unfold members. autorewrite with bytes_len.
  unfold umax, MAX_EQUALITY_CANONICAL_LEN. lia.
Qed.

Lemma take_framed_str s c : str_ok s -> blen s <= umax 32 -> take_str (framed s ++ c) = Ok c.
Proof. intros [_ Hs] Hl. unfold take_str. rewrite take_framed by done. bind_simpl. unfold from_utf8. by rewrite Hs. Qed.

Lemma take_canonical value c : value_ok value -> indexable value -> eq_value value value = true ->
  blen (canonical_bytes value) <= MAX_EQUALITY_CANONICAL_LEN ->
  exists tag rest, canonical_bytes value = tag :: rest /\ take_tagged tag (rest ++ c) = Ok c.
Proof.
  intros Hv Hi He Hl. destruct value as [|b|z|z|z|z|s|s|a|a|a|a|a|o]; try done; cbn [canonical_bytes] in *; eexists _, _; (split; [reflexivity|]).
  - unfold take_tagged. cbn [app Z.eqb BOOL_TAG Pos.eqb]. rewrite take_first_byte. by destruct b.
  - by apply take_put_number, (default_number_ok (I64 z)).
  - unfold take_tagged. cbn. by rewrite take_field by (by rewrite blen_to_be).
  - by apply take_put_number, (default_number_ok (F64 z)).
  - by apply take_put_number, (default_number_ok (F32 z)).
  - apply take_framed_str; [done|by eapply bounded_string].
  - unfold take_tagged. cbn. by rewrite take_framed by by eapply bounded_string.
  - apply bounded_members in Hl; [|apply i64_pos]. unfold take_tagged, members. cbn. rewrite <- app_assoc.
    rewrite take_count by (unfold len in *; lia). bind_simpl. unfold checked_mul. rewrite (proj2 (Z.leb_le _ _)) by (unfold umax, len in *; lia).
    cbn. rewrite take_field; [done|]. rewrite (blen_concat_fixed _ 8) by (intros; by rewrite blen_to_be). lia.
  - apply bounded_members in Hl; [|apply number_put_pos]. apply (take_members Canonical.number_ok); [by intros; apply take_put_number|by apply f64_numbers_ok|done].
  - apply bounded_members in Hl; [|apply number_put_pos]. apply (take_members Canonical.number_ok); [by intros; apply take_put_number|by apply f32_numbers_ok|done].
  - pose proof (bounded_strings _ _ Hl) as Hs. apply bounded_members in Hl; [|apply framed_pos].
    apply (take_members (fun s => str_ok s /\ blen s <= umax 32)); [by intros x c' []; apply take_framed_str|by apply Forall_and|done].
Qed.

Lemma canonical_valid value : value_ok value -> indexable value -> eq_value value value = true ->
  blen (canonical_bytes value) <= MAX_EQUALITY_CANONICAL_LEN -> validate_canonical (canonical_bytes value) = Ok tt.
Proof.
  intros Hv Hi He Hl. unfold validate_canonical. rewrite (proj2 (Z.ltb_ge _ _)) by done.
  destruct (take_canonical value [] Hv Hi He Hl) as (tag & rest & -> & Ht). rewrite take_first_byte. bind_simpl.
  rewrite app_nil_r in Ht. by rewrite Ht.
Qed.

(** ** Equal bytes are equal values *)

Lemma number_bytes_eq v w : rank v = 2 -> rank w = 2 -> value_ok v -> value_ok w ->
  eq_value v v = true -> eq_value w w = true -> canonical_bytes v = canonical_bytes w <-> eq_value v w = true.
Proof.
  intros Rv Rw Hv Hw Ev Ew.
  assert (forall x, rank x = 2 -> eq_value x x = canonical_eq (from_property x) (from_property x) /\
    canonical_bytes x = NUMBER_TAG :: put_number (default Canonical.Zero (from_property x))) as Hx by (intros []; done).
  assert (eq_value v w = canonical_eq (from_property v) (from_property w)) as -> by (destruct v; try done; by destruct w).
  destruct (Hx v Rv) as [E1 ->], (Hx w Rw) as [E2 ->]. rewrite E1 in Ev. rewrite E2 in Ew.
  apply canonical_eq_self in Ev as [m Em], Ew as [n En]. rewrite Em, En. cbn [canonical_eq default].
  rewrite bool_decide_eq_true. unfold id. split; [|by intros ->]. intros H. apply (f_equal tail) in H.
  apply (prefix_free_inj _ _ _ _ put_number_prefix) in H; [done|by apply (property_number_ok v)|by apply (property_number_ok w)].
Qed.

Lemma members_eq {A} (ok : A -> Prop) put tag (a b : list A) : prefix_free ok put -> (forall x, 1 <= blen (put x)) -> Forall ok a -> Forall ok b ->
  blen (tag :: members put a) <= MAX_EQUALITY_CANONICAL_LEN -> blen (tag :: members put b) <= MAX_EQUALITY_CANONICAL_LEN ->
  tag :: members put a = tag :: members put b <-> a = b.
Proof.
  intros Hp Hpos Ha Hb La Lb. split; [|by intros ->]. intros H. apply (f_equal tail) in H.
  apply bounded_members in La, Lb; [|done..]. by apply (prefix_free_inj _ _ _ _ (members_prefix _ _ Hp)) in H.
Qed.

Lemma framed_eq tag s t : blen (tag :: framed s) <= MAX_EQUALITY_CANONICAL_LEN -> blen (tag :: framed t) <= MAX_EQUALITY_CANONICAL_LEN ->
  tag :: framed s = tag :: framed t <-> s = t.
Proof.
  intros Hs Ht. split; [|by intros ->]. intros H. apply (f_equal tail) in H. apply bounded_string in Hs, Ht.
  by apply (prefix_free_inj _ _ _ _ framed_prefix) in H.
Qed.

Lemma numbers_eq decode tag a b : decoded_equal decode a a = true -> decoded_equal decode b b = true ->
  Forall Canonical.number_ok (numbers decode a) -> Forall Canonical.number_ok (numbers decode b) ->
  blen (tag :: members put_number (numbers decode a)) <= MAX_EQUALITY_CANONICAL_LEN ->
  blen (tag :: members put_number (numbers decode b)) <= MAX_EQUALITY_CANONICAL_LEN ->
  tag :: members put_number (numbers decode a) = tag :: members put_number (numbers decode b) <-> decoded_equal decode a b = true.
Proof.
  intros Da%decoded_self Db%decoded_self Ha Hb La Lb. rewrite decoded_numbers by done.
  by apply (members_eq Canonical.number_ok); [apply put_number_prefix|apply number_put_pos|..].
Qed.

Lemma canonical_bytes_eq v w : value_ok v -> value_ok w -> indexable v -> indexable w ->
  eq_value v v = true -> eq_value w w = true ->
  blen (canonical_bytes v) <= MAX_EQUALITY_CANONICAL_LEN -> blen (canonical_bytes w) <= MAX_EQUALITY_CANONICAL_LEN ->
  canonical_bytes v = canonical_bytes w <-> eq_value v w = true.
Proof.
  intros Hv Hw Iv Iw Ev Ew Lv Lw. destruct (decide (rank v = rank w)) as [Hr|Hr].
  2: { split.
    - intros H. exfalso. apply Hr. destruct v; try done; destruct w; try done; discriminate (f_equal (hd 0) H).
    - destruct v; try done; destruct w; try done; by destruct Hr. }
  destruct (decide (rank v = 2)) as [R|R]; [apply number_bytes_eq; congruence|].
  destruct v as [|b|z|z|z|z|s|s|a|a|a|a|a|o], w as [|b'|z'|z'|z'|z'|s'|s'|a'|a'|a'|a'|a'|o']; try done; cbn [canonical_bytes eq_value] in *.
  - by destruct b, b'.
  - rewrite Z.eqb_eq. split; [|by intros ->]. intros H. apply (f_equal tail) in H. by apply (prefix_free_inj _ _ _ _ i64_prefix) in H.
  - rewrite framed_eq by done. symmetry. apply bytes_eqb_eq.
  - rewrite framed_eq by done. symmetry. apply bytes_eqb_eq.
  - rewrite (members_eq (in_i 64)) by (done || apply i64_prefix || apply i64_pos). symmetry. apply slices_Zeqb.
  - apply numbers_eq; try done; by apply f64_numbers_ok.
  - apply numbers_eq; try done; by apply f32_numbers_ok.
  - rewrite (members_eq (fun s => blen s <= umax 32)) by (apply framed_prefix || apply framed_pos || done || by eapply bounded_strings).
    symmetry. apply slices_bytes_eqb.
Qed.

(** ** Projection *)

Section Digest.
Context {SH : Sha256}.

Lemma digest_some canonical : equality_digest canonical = Some (take 8 (sha256 canonical)).
Proof. unfold equality_digest. rewrite (proj2 (Z.leb_le _ _)); [done|]. unfold blen. by rewrite sha256_length. Qed.

Definition indexed (value : PropertyValue) : CanonicalEqualityValue :=
  {| digest := take 8 (sha256 (canonical_bytes value)); canonical := canonical_bytes value |}.

Lemma project_spec value : exists p, project_equality_value value = Some p /\
  match p with
  | Indexed c => c = indexed value /\ indexable value /\ eq_value value value = true /\ blen (canonical c) <= MAX_EQUALITY_CANONICAL_LEN
  | AuthoritativeNull => value = Null
  | NonReflexive => eq_value value value = false
  | Unsupported _ => ~ indexable value /\ value <> Null
  | Oversized _ m => m = MAX_EQUALITY_CANONICAL_LEN /\ m < blen (canonical_bytes value)
  end.
Proof.
  pose proof (prepare_spec value) as H. unfold project_equality_value, prepare_equality_value.
  destruct (prepare_kind value) as [[p| | | |]|[k n]]; try (eexists; split; [reflexivity|exact H]); try done.
  destruct H as (Hi & He & Hk & ->).
  destruct (Z.ltb_spec MAX_EQUALITY_CANONICAL_LEN (Z.min (blen (canonical_bytes value)) (umax 64))) as [Hl|Hl].
  - eexists. split; [reflexivity|]. split; [done|]. lia.
  - assert (blen (canonical_bytes value) <= MAX_EQUALITY_CANONICAL_LEN) as Hle by (unfold umax, MAX_EQUALITY_CANONICAL_LEN in *; lia).
    rewrite Z.min_l in * by (unfold umax, MAX_EQUALITY_CANONICAL_LEN in *; lia).
    exists (Indexed (indexed value)). split; [|done]. cbn [map_indexed]. unfold encode. cbn [kind encoded_len].
    rewrite Hk. cbn [mbind option_bind]. rewrite Z.eqb_refl. unfold new. by rewrite digest_some.
Qed.
End Digest.

(** The equality index classifies every value without panicking: a value it
    indexes is within the size limit, equals itself, and its digest and bytes are
    accepted when read back; null is authoritative; what it calls non-reflexive does
    not equal itself (it holds NaN); only arrays and objects are unsupported; and what
    it calls oversized has canonical bytes beyond the limit. *)
Theorem equality_projection_exact {SH : Sha256} (value : PropertyValue) : value_ok value ->
  exists p, project_equality_value value = Some p /\
  match p with
  | Indexed c => blen (canonical c) <= MAX_EQUALITY_CANONICAL_LEN /\ eq_value value value = true /\
      try_from_parts (digest c) (canonical c) = Some (Ok c)
  | AuthoritativeNull => value = Null
  | NonReflexive => eq_value value value = false
  | Unsupported _ => (exists a, value = Array a) \/ exists o, value = Object o
  | Oversized _ m => m = MAX_EQUALITY_CANONICAL_LEN /\ m < blen (canonical_bytes value)
  end.
Proof.
  intros Hv. destruct (project_spec value) as (p & Hp & H). exists p. split; [done|].
  destruct p as [c| | |k|n m]; try done.
  - destruct H as (-> & Hi & He & Hl). split_and!; [done|done|]. unfold try_from_parts. cbn [canonical indexed] in *.
    rewrite canonical_valid by done. rewrite digest_some. cbn [mbind option_bind]. by rewrite bool_decide_eq_true_2.
  - destruct H as [Hi Hn]. destruct value; try done; [left|right]; by eexists.
Qed.

(** [C9] Equality lookups are exact: two indexed values have the same canonical
    bytes, and the same key bytes, exactly when [PropertyValue::eq_value] holds of
    them. Integers and floats of one number share an entry; values of different types,
    or arrays of different element types, never do. *)
Theorem equality_index_exact {SH : Sha256} (v w : PropertyValue) (c d : CanonicalEqualityValue) : value_ok v -> value_ok w ->
  project_equality_value v = Some (Indexed c) -> project_equality_value w = Some (Indexed d) ->
  (canonical c = canonical d <-> eq_value v w = true) /\ (c = d <-> eq_value v w = true).
Proof.
  intros Hv Hw Hc Hd.
  destruct (project_spec v) as (p & Hp & H1), (project_spec w) as (q & Hq & H2). rewrite Hc in Hp. rewrite Hd in Hq. simplify_eq.
  destruct H1 as (-> & Hi & He & Hl), H2 as (-> & Hi' & He' & Hl'). cbn [canonical indexed] in *.
  pose proof (canonical_bytes_eq v w Hv Hw Hi Hi' He He' Hl Hl') as Heq. split; [done|]. rewrite <- Heq.
  split; [by intros [= _ ->]|]. unfold indexed. by intros ->.
Qed.

(** A digest, for the samples. *)
#[local] Instance sample_sha : Sha256.
Proof.
  refine {| sha256 := fun b => replicate 32 (blen b mod 256) |}.
  - intros b. apply length_replicate.
  - intros b. apply Forall_replicate, byte_ok_mod.
Defined.

Lemma equality_projection_exact_witness :
  value_ok (F64Array [0x7FF8000000000000]) /\
  project_equality_value (F64Array [0x7FF8000000000000]) = Some NonReflexive /\
  eq_value (F64Array [0x7FF8000000000000]) (F64Array [0x7FF8000000000000]) = false.
Proof.
  assert (value_ok (F64Array [0x7FF8000000000000])) as Hv by (repeat constructor; discriminate).
  destruct (equality_projection_exact (F64Array [0x7FF8000000000000]) Hv) as (p & Hp & H).
  split; [exact Hv|]. vm_compute in Hp. injection Hp as <-. split; [vm_compute; reflexivity|exact H].
Defined.

(** The integer 1 and the float 1.0. *)
Lemma equality_index_exact_witness :
  exists c d, project_equality_value (I64 1) = Some (Indexed c) /\ project_equality_value (F64 0x3FF0000000000000) = Some (Indexed d) /\ c = d.
Proof.
  eexists _, _. split; [vm_compute; reflexivity|]. split; [vm_compute; reflexivity|].
  refine (proj2 (proj2 (equality_index_exact (I64 1) (F64 0x3FF0000000000000) _ _ _ _ _ _)) _);
    [split; [discriminate|reflexivity]|split; [discriminate|reflexivity]|vm_compute; reflexivity..].
Defined.
End EqualityValueSpec.
