(* ===== verification/IndexIdentity.v ===== *)
(** Identifiers and identities of lifecycle-managed indexes:
    the validated types of crates/db/src/index_lifecycle/model.rs.

    A non-zero [u64] wrapper is a [Z], a UUID its sixteen bytes, a component the UTF-8
    bytes of its string; the constructors check what the wrappers hold. *)
From S2P Require Import Prelude Bytes Cursor.

Open Scope Z_scope.

Module IndexIdentity.
Export Cursor.

Definition INDEX_COMPONENT_MAX_LEN : Z := umax 16.

Inductive IndexV2ModelError :=
| EmptyComponent (kind : string)
| OversizedComponent (kind : string) (actual maximum : Z)
| ZeroIdentifier (kind : string)
| IdentifierExhausted (kind : string)
| NilUuid (kind : string)
| InvalidVectorSetting (field reason : string)
| VectorSettingOverflow (field : string)
| IdentityDefinitionMismatch
| PhysicalDefinitionMismatch
| VectorDescriptorMismatch
| VectorLayoutMismatch
| IllegalStateTransition (from transition : string).

(** [Display] of the error. *)
Definition model_error_to_string (e : IndexV2ModelError) : string :=
  match e with
  | EmptyComponent kind => "index " +:+ kind +:+ " must not be empty"
  | OversizedComponent kind actual maximum =>
      "index " +:+ kind +:+ " is " +:+ fmt_dec actual +:+ " bytes; maximum is " +:+ fmt_dec maximum
  | ZeroIdentifier kind => kind +:+ " must be non-zero"
  | IdentifierExhausted kind => kind +:+ " is exhausted"
  | NilUuid kind => kind +:+ " must be a non-nil UUID"
  | InvalidVectorSetting field reason => "invalid V2 vector setting " +:+ field +:+ ": " +:+ reason
  | VectorSettingOverflow field => "V2 vector setting " +:+ field +:+ " exceeds u32"
  | IdentityDefinitionMismatch => "index identity does not match its validated definition"
  | PhysicalDefinitionMismatch => "physical generation family does not match the index definition"
  | VectorDescriptorMismatch => "vector physical descriptor does not match its validated definition"
  | VectorLayoutMismatch => "vector physical layout does not match its validated definition"
  | IllegalStateTransition from transition =>
      "illegal index state transition from " +:+ from +:+ " using " +:+ transition
  end.

(** [IndexComponent::try_new]. *)
Definition component_try_new (kind : string) (value : bytes) : result IndexV2ModelError bytes :=
  if blen value =? 0 then Err (EmptyComponent kind)
  else if INDEX_COMPONENT_MAX_LEN <? blen value then Err (OversizedComponent kind (blen value) INDEX_COMPONENT_MAX_LEN)
  else Ok value.

(** The types of [non_zero_u64_type!], by the name in their errors. *)
Definition INDEX_ID : string := "index ID".
Definition INDEX_REVISION : string := "index revision".
Definition GENERATION_ID : string := "index generation ID".
Definition VECTOR_PHYSICAL_ID : string := "vector physical index ID".

Definition id_new (kind : string) (value : Z) : result IndexV2ModelError Z :=
  if value =? 0 then Err (ZeroIdentifier kind) else Ok value.
Definition id_initial : Z := 1.
Definition id_checked_next (kind : string) (self : Z) : result IndexV2ModelError Z :=
  match checked_add 64 self 1 with
  | None => Err (IdentifierExhausted kind)
  | Some next => id_new kind next
  end.

(** The types of [non_nil_uuid_type!]. *)
Definition OPERATION_ID : string := "index operation ID".
Definition uuid_from_bytes (kind : string) (value : bytes) : result IndexV2ModelError bytes :=
  if bool_decide (value = replicate 16 0) then Err (NilUuid kind) else Ok value.

Inductive IndexIdentityFamily := SecondaryEquality | SecondaryRange | Vector | Text.
Definition family_u8 (family : IndexIdentityFamily) : Z :=
  match family with
  | SecondaryEquality => 0x01
  | SecondaryRange => 0x02
  | Vector => 0x03
  | Text => 0x04
  end.

Record IndexIdentity := { family : IndexIdentityFamily; element_kind : IndexElementKind; label : bytes; property : bytes }.

#[global] Instance IndexIdentityFamily_eq_dec : EqDecision IndexIdentityFamily.
Proof. solve_decision. Defined.
#[global] Instance IndexIdentity_eq_dec : EqDecision IndexIdentity.
Proof. solve_decision. Defined.

(** ** What the types hold *)

Definition id_ok (value : Z) : Prop := 0 < value < 2 ^ 64.
Definition uuid_ok (value : bytes) : Prop := bytes_ok value /\ length value = 16%nat /\ value <> replicate 16 0.
Definition component_ok (value : bytes) : Prop := str_ok value /\ 0 < blen value <= INDEX_COMPONENT_MAX_LEN.
Definition identity_ok (identity : IndexIdentity) : Prop := component_ok (label identity) /\ component_ok (property identity).

Lemma id_new_ok kind v w : id_new kind v = Ok w <-> v <> 0 /\ w = v.
Proof. unfold id_new. destruct (Z.eqb_spec v 0); split; try (by intros [= <-]); by intros [? ->]. Qed.

Lemma id_next_ok kind v w : id_ok v -> id_checked_next kind v = Ok w <-> v < umax 64 /\ w = v + 1.
Proof.
  intros Hv. unfold id_checked_next, checked_add, id_ok in *. destruct (Z.leb_spec (v + 1) (umax 64)).
  - rewrite id_new_ok. split; intros [? ->]; split; lia || done.
  - split; [done|]. lia.
Qed.

Lemma component_new_ok kind v w : component_try_new kind v = Ok w <-> 0 < blen v <= INDEX_COMPONENT_MAX_LEN /\ w = v.
Proof.
  unfold component_try_new. pose proof (blen_nonneg v). destruct (Z.eqb_spec (blen v) 0); [split; [done|lia]|].
  destruct (Z.ltb_spec INDEX_COMPONENT_MAX_LEN (blen v)); [split; [done|lia]|]. split; [intros [= <-]|intros [_ ->]]; [split; [lia|done]|done].
Qed.

Lemma uuid_new_ok kind v w : uuid_from_bytes kind v = Ok w <-> v <> replicate 16 0 /\ w = v.
Proof. unfold uuid_from_bytes. case_bool_decide; split; try (by intros [= <-]); by intros [? ->]. Qed.
End IndexIdentity.
