(* ===== verification/ManagedKeys.v ===== *)
(** Keys of the lifecycle-managed index records:
    crates/db/src/encoding/v2/keys/managed_index.rs, global.rs, scope.rs, lifecycle.rs,
    indexes/mod.rs, indexes/secondary.rs, indexes/text.rs and [exclusive_prefix_end_bound]
    of indexes/prefix.rs.

    A writer returns the bytes it appends, [None] where it panics; a [KeyDecoder] is the
    bytes that remain. *)
From S2P Require Import Prelude Bytes ValueSemantics Property RangeValue EqualityValue IndexIdentity.

Open Scope Z_scope.

Module ManagedKeys.
Export IndexIdentity.
Import RangeValue.
Import EqualityValue(CanonicalEqualityValue, digest, canonical, EQUALITY_DIGEST_LEN).

Definition PREFIX_LEN : Z := 1.
Definition KIND_LEN : Z := 1.
Definition U32_LEN : Z := 4.
Definition U64_LEN : Z := 8.
Definition UUID_LEN : Z := 16.
Definition HASH_LEN : Z := 32.
Definition KEY_MAX_LEN : Z := 1024 * 1024.
Definition DATA_PREFIX : Z := 0x06.

Definition invalid {A} (message : string) : result EncodingError A := Err (InvalidKey message).

(** ** Scopes *)

Definition TENANT_KEY_PREFIX : Z := 0xFD.
Definition TENANT_ID_LEN : Z := 16.
Definition TENANT_ENVELOPE_LEN : Z := 1 + TENANT_ID_LEN.

Inductive DataScope := LegacyUnscoped | Tenant (tenant_id : Z).

#[global] Instance DataScope_eq_dec : EqDecision DataScope.
Proof. solve_decision. Defined.

Definition decode_crockford_base32 (byte : Z) : option Z :=
  if byte =? 48 then Some 0
  else if existsb (Z.eqb byte) [49; 73; 105; 76; 108] then Some 1
  else if (50 <=? byte) && (byte <=? 57) then Some (byte - 48)
  else
    let upper := if (97 <=? byte) && (byte <=? 122) then byte - 32 else byte in
    if (65 <=? upper) && (upper <=? 72) then Some (upper - 65 + 10)
    else if (74 <=? upper) && (upper <=? 75) then Some (upper - 74 + 18)
    else if (77 <=? upper) && (upper <=? 78) then Some (upper - 77 + 20)
    else if (80 <=? upper) && (upper <=? 84) then Some (upper - 80 + 22)
    else if (86 <=? upper) && (upper <=? 90) then Some (upper - 86 + 27)
    else None.

(** [char::from] of a byte, in UTF-8. *)
Definition char_from (byte : Z) : string :=
  let ascii z := Ascii.ascii_of_nat (Z.to_nat z) in
  if byte <? 128 then String (ascii byte) EmptyString
  else String (ascii (192 + byte / 64)) (String (ascii (128 + byte mod 64)) EmptyString).

(** The loop over the bytes; [(decoded << 5) | part] is on a [u128]. *)
Fixpoint ulid_loop (index decoded : Z) (value : bytes) : result EncodingError Z :=
  match value with
  | [] => Ok decoded
  | byte :: value =>
      match decode_crockford_base32 byte with
      | None =>
          Err (InvalidTenantId ("invalid ULID character `" +:+ char_from byte +:+ "` at byte offset " +:+ fmt_dec index))
      | Some part =>
          if index =? 0 then
            if 0x07 <? part then Err (InvalidTenantId "ULID overflows 128 bits") else ulid_loop (index + 1) part value
          else ulid_loop (index + 1) (Z.lor (wrap 128 (Z.shiftl decoded 5)) part) value
      end
  end.

(** [TenantId::from_ulid_str]. *)
Definition from_ulid_str (value : bytes) : result EncodingError Z :=
  if negb (blen value =? 26) then
    Err (InvalidTenantId ("expected " +:+ fmt_dec 26 +:+ " ULID characters, got " +:+ fmt_dec (blen value)))
  else ulid_loop 0 0 value.

Definition scope_encoded_len (self : DataScope) : Z :=
  match self with
  | LegacyUnscoped => 0
  | Tenant _ => TENANT_ENVELOPE_LEN
  end.

Definition encode_key_prefix (self : DataScope) : bytes :=
  match self with
  | LegacyUnscoped => []
  | Tenant tenant_id => TENANT_KEY_PREFIX :: to_be 16 tenant_id
  end.

Definition strip_tenant_envelope (key : bytes) : option (Z * bytes) :=
  if (blen key <? TENANT_ENVELOPE_LEN) || negb (hd 0 key =? TENANT_KEY_PREFIX) then None
  else Some (of_be (take 16 (drop 1 key)), drop 17 key).

Definition strip_key (self : DataScope) (key : bytes) : option bytes :=
  match self with
  | LegacyUnscoped => Some key
  | Tenant tenant_id =>
      match strip_tenant_envelope key with
      | None => None
      | Some (encoded_tenant, logical) => if encoded_tenant =? tenant_id then Some logical else None
      end
  end.

(** ** Decoding *)

Definition take_bytes (len : Z) (remaining : bytes) : result EncodingError (bytes * bytes) :=
  if blen remaining <? len then Err (BufferTooShort len (blen remaining))
  else Ok (take (Z.to_nat len) remaining, drop (Z.to_nat len) remaining).

Definition take_u8 (remaining : bytes) : result EncodingError (Z * bytes) :=
  let? (value, remaining) := take_bytes KIND_LEN remaining in Ok (hd 0 value, remaining).
Definition take_u32 (remaining : bytes) : result EncodingError (Z * bytes) :=
  let? (value, remaining) := take_bytes U32_LEN remaining in Ok (of_be value, remaining).
Definition take_u64 (remaining : bytes) : result EncodingError (Z * bytes) :=
  let? (value, remaining) := take_bytes U64_LEN remaining in Ok (of_be value, remaining).

Definition model_key_error (error : IndexV2ModelError) : EncodingError := InvalidKey (model_error_to_string error).
(** [map_err(model_key_error)]. *)
Definition model_key {A} (r : result IndexV2ModelError A) : result EncodingError A :=
  match r with
  | Ok a => Ok a
  | Err e => Err (model_key_error e)
  end.

Definition take_component (kind : string) (remaining : bytes) : result EncodingError (bytes * bytes) :=
  let? (len, remaining) := take_u32 remaining in
  let? (bytes, remaining) := take_bytes len remaining in
  let? value := from_utf8 bytes in
  let? component := model_key (component_try_new kind value) in
  Ok (component, remaining).

Definition finish (remaining : bytes) : result EncodingError unit :=
  if negb (blen remaining =? 0) then invalid ("V2 key has " +:+ fmt_dec (blen remaining) +:+ " trailing bytes")
  else Ok tt.

(** ** Identities and identifiers *)

(** [put_component]; the length is converted by [expect]. *)
Definition put_component (component : bytes) : option bytes :=
  if blen component <=? umax 32 then Some (to_be 4 (blen component) ++ component) else None.

Definition encode_identity (identity : IndexIdentity) : option bytes :=
  l ← put_component (label identity);
  p ← put_component (property identity);
  Some (family_u8 (family identity) :: element_kind_u8 (element_kind identity) :: l ++ p).

Definition identity_encoded_len (identity : IndexIdentity) : Z :=
  KIND_LEN + KIND_LEN + U32_LEN + blen (label identity) + U32_LEN + blen (property identity).

Definition decode_element_kind (value : Z) : result EncodingError IndexElementKind :=
  if value =? 0x01 then Ok Node
  else if value =? 0x02 then Ok Edge
  else invalid ("unknown V2 element kind " +:+ fmt_hex value).

Definition decode_family (value : Z) : result EncodingError IndexIdentityFamily :=
  if value =? 0x01 then Ok SecondaryEquality
  else if value =? 0x02 then Ok SecondaryRange
  else if value =? 0x03 then Ok Vector
  else if value =? 0x04 then Ok Text
  else invalid ("unknown V2 identity family " +:+ fmt_hex value).

Definition decode_identity (decoder : bytes) : result EncodingError (IndexIdentity * bytes) :=
  let? (tag, decoder) := take_u8 decoder in
  let? family := decode_family tag in
  let? (tag, decoder) := take_u8 decoder in
  let? element_kind := decode_element_kind tag in
  let? (label, decoder) := take_component "label" decoder in
  let? (property, decoder) := take_component "property" decoder in
  Ok ({| family := family; element_kind := element_kind; label := label; property := property |}, decoder).

(** [decode_index_id] and [decode_generation]. *)
Definition decode_id (kind : string) (decoder : bytes) : result EncodingError (Z * bytes) :=
  let? (value, decoder) := take_u64 decoder in
  let? id := model_key (id_new kind value) in
  Ok (id, decoder).
Definition decode_index_id : bytes -> result EncodingError (Z * bytes) := decode_id INDEX_ID.
Definition decode_generation : bytes -> result EncodingError (Z * bytes) := decode_id GENERATION_ID.

Definition decode_operation_id (decoder : bytes) : result EncodingError (bytes * bytes) :=
  let? (value, decoder) := take_bytes UUID_LEN decoder in
  let? id := model_key (uuid_from_bytes OPERATION_ID value) in
  Ok (id, decoder).

Definition put_entity (entity : IndexEntity) : bytes := element_kind_u8 (kind entity) :: to_be 8 (entity_id entity).

Definition decode_entity (decoder : bytes) : result EncodingError (IndexEntity * bytes) :=
  let? (tag, decoder) := take_u8 decoder in
  let? kind := decode_element_kind tag in
  let? (id, decoder) := take_u64 decoder in
  Ok ({| kind := kind; entity_id := id |}, decoder).

(** ** Secondary entries *)

Inductive SecondaryEntryLane :=
| NodeEquality | NodeUniqueEquality | NodeRangeAscending | NodeRangeDescending
| EdgeEquality | EdgeRangeAscending | EdgeRangeDescending.

#[global] Instance SecondaryEntryLane_eq_dec : EqDecision SecondaryEntryLane.
Proof. solve_decision. Defined.

Definition lane_u8 (lane : SecondaryEntryLane) : Z :=
  match lane with
  | NodeEquality => 0x01
  | NodeUniqueEquality => 0x02
  | NodeRangeAscending => 0x03
  | NodeRangeDescending => 0x04
  | EdgeEquality => 0x05
  | EdgeRangeAscending => 0x06
  | EdgeRangeDescending => 0x07
  end.

Definition lane_try_from_u8 (value : Z) : result EncodingError SecondaryEntryLane :=
  if value =? 0x01 then Ok NodeEquality
  else if value =? 0x02 then Ok NodeUniqueEquality
  else if value =? 0x03 then Ok NodeRangeAscending
  else if value =? 0x04 then Ok NodeRangeDescending
  else if value =? 0x05 then Ok EdgeEquality
  else if value =? 0x06 then Ok EdgeRangeAscending
  else if value =? 0x07 then Ok EdgeRangeDescending
  else invalid ("unknown V2 secondary lane " +:+ fmt_hex value).

Definition is_unique (lane : SecondaryEntryLane) : bool :=
  match lane with NodeUniqueEquality => true | _ => false end.
Definition is_equality (lane : SecondaryEntryLane) : bool :=
  match lane with NodeEquality | NodeUniqueEquality | EdgeEquality => true | _ => false end.
Definition range_direction (lane : SecondaryEntryLane) : option RangeIndexDirection :=
  match lane with
  | NodeRangeAscending | EdgeRangeAscending => Some Asc
  | NodeRangeDescending | EdgeRangeDescending => Some Desc
  | _ => None
  end.

Record SecondaryEqualityEntryKey := {
  se_index_id : Z; se_generation : Z; se_lane : SecondaryEntryLane;
  se_value : CanonicalEqualityValue; se_entity_id : option Z }.
Record SecondaryEqualityBitmapKey := {
  sb_index_id : Z; sb_generation : Z; sb_element_kind : IndexElementKind; sb_value : CanonicalEqualityValue }.
Record SecondaryRangeEntryKey := {
  sr_index_id : Z; sr_generation : Z; sr_lane : SecondaryEntryLane; sr_value : CanonicalRangeValue; sr_entity_id : Z }.

Inductive CanonicalSecondaryValue :=
| EqualitySecondary (value : CanonicalEqualityValue)
| RangeSecondary (value : CanonicalRangeValue).
Inductive SecondaryEntryKey :=
| EqualityEntry (key : SecondaryEqualityEntryKey)
| RangeEntry (key : SecondaryRangeEntryKey).

Definition entity_len (entity_id : option Z) : Z := match entity_id with Some _ => U64_LEN | None => 0 end.

Definition equality_entry_try_new (index_id generation : Z) (lane : SecondaryEntryLane) (value : CanonicalEqualityValue) (entity_id : option Z)
    : result EncodingError SecondaryEqualityEntryKey :=
  if negb (is_equality lane) || negb (Bool.eqb (is_unique lane) (match entity_id with None => true | Some _ => false end)) then
    invalid "secondary equality lane/entity shape mismatch"
  else
    let encoded_len := PREFIX_LEN + KIND_LEN + U64_LEN + U64_LEN + KIND_LEN + EQUALITY_DIGEST_LEN + U32_LEN
      + blen (canonical value) + entity_len entity_id in
    if KEY_MAX_LEN <? encoded_len then invalid "secondary equality key exceeds 1 MiB"
    else Ok {| se_index_id := index_id; se_generation := generation; se_lane := lane; se_value := value; se_entity_id := entity_id |}.

Definition bitmap_try_new (index_id generation : Z) (element_kind : IndexElementKind) (value : CanonicalEqualityValue)
    : result EncodingError SecondaryEqualityBitmapKey :=
  let encoded_len := PREFIX_LEN + KIND_LEN + U64_LEN + U64_LEN + KIND_LEN + EQUALITY_DIGEST_LEN + U32_LEN + blen (canonical value) in
  if KEY_MAX_LEN <? encoded_len then invalid "secondary equality bitmap key exceeds 1 MiB"
  else Ok {| sb_index_id := index_id; sb_generation := generation; sb_element_kind := element_kind; sb_value := value |}.

Definition range_entry_try_new (index_id generation : Z) (lane : SecondaryEntryLane) (value : CanonicalRangeValue) (entity_id : Z)
    : result EncodingError SecondaryRangeEntryKey :=
  match range_direction lane with
  | None => invalid "secondary range key requires a range lane"
  | Some dir =>
      if negb (bool_decide (dir = direction value)) then invalid "secondary range lane/value direction mismatch"
      else
        let encoded_len := PREFIX_LEN + KIND_LEN + U64_LEN + U64_LEN + KIND_LEN + blen (encoded value) + U64_LEN in
        if KEY_MAX_LEN <? encoded_len then invalid "secondary range key exceeds 1 MiB"
        else Ok {| sr_index_id := index_id; sr_generation := generation; sr_lane := lane; sr_value := value; sr_entity_id := entity_id |}
  end.

(** [SecondaryEntryKey::try_new]. *)
Definition secondary_entry_try_new (index_id generation : Z) (lane : SecondaryEntryLane) (value : CanonicalSecondaryValue) (entity_id : option Z)
    : result EncodingError SecondaryEntryKey :=
  match value with
  | EqualitySecondary value =>
      let? key := equality_entry_try_new index_id generation lane value entity_id in Ok (EqualityEntry key)
  | RangeSecondary value =>
      match entity_id with
      | None => invalid "secondary range entry requires an entity ID"
      | Some entity_id => let? key := range_entry_try_new index_id generation lane value entity_id in Ok (RangeEntry key)
      end
  end.

(** The digest and the framed canonical bytes; the length is converted by [expect]. *)
Definition put_equality_value (value : CanonicalEqualityValue) : option bytes :=
  if blen (canonical value) <=? umax 32 then Some (digest value ++ to_be 4 (blen (canonical value)) ++ canonical value) else None.

Definition equality_entry_suffix (self : SecondaryEqualityEntryKey) : option bytes :=
  value ← put_equality_value (se_value self);
  Some (to_be 8 (se_index_id self) ++ to_be 8 (se_generation self) ++ lane_u8 (se_lane self) :: value
    ++ match se_entity_id self with Some entity_id => to_be 8 entity_id | None => [] end).
Definition equality_entry_suffix_len (self : SecondaryEqualityEntryKey) : Z :=
  U64_LEN + U64_LEN + KIND_LEN + EQUALITY_DIGEST_LEN + U32_LEN + blen (canonical (se_value self)) + entity_len (se_entity_id self).

Definition bitmap_suffix (self : SecondaryEqualityBitmapKey) : option bytes :=
  value ← put_equality_value (sb_value self);
  Some (to_be 8 (sb_index_id self) ++ to_be 8 (sb_generation self) ++ element_kind_u8 (sb_element_kind self) :: value).
Definition bitmap_suffix_len (self : SecondaryEqualityBitmapKey) : Z :=
  U64_LEN + U64_LEN + KIND_LEN + EQUALITY_DIGEST_LEN + U32_LEN + blen (canonical (sb_value self)).

Definition range_entry_suffix (self : SecondaryRangeEntryKey) : bytes :=
  to_be 8 (sr_index_id self) ++ to_be 8 (sr_generation self) ++ lane_u8 (sr_lane self) :: encoded (sr_value self) ++ to_be 8 (sr_entity_id self).
Definition range_entry_suffix_len (self : SecondaryRangeEntryKey) : Z :=
  U64_LEN + U64_LEN + KIND_LEN + blen (encoded (sr_value self)) + U64_LEN.

Definition encode_suffix (self : SecondaryEntryKey) : option bytes :=
  match self with
  | EqualityEntry key => equality_entry_suffix key
  | RangeEntry key => Some (range_entry_suffix key)
  end.
Definition encoded_suffix_len (self : SecondaryEntryKey) : Z :=
  match self with
  | EqualityEntry key => equality_entry_suffix_len key
  | RangeEntry key => range_entry_suffix_len key
  end.

(** ** Text, vector and lifecycle records *)

Record TextManifestRootKey := { tr_index_id : Z; tr_generation : Z; tr_partition : bytes }.
Record TextManifestPageKey := { tp_root : TextManifestRootKey; tp_page : Z }.
Record TextBuildArtifactKey := { ta_root : TextManifestRootKey; ta_ordinal : Z }.
Record TextEntityStateKey := { te_root : TextManifestRootKey; te_entity : IndexEntity }.
Record VectorPartitionMappingKey := { vp_index_id : Z; vp_generation : Z; vp_partition : bytes }.
Record TextCorpusStatisticsKey := { tc_index_id : Z; tc_generation : Z; tc_partition : bytes }.
Record TextTermStatisticsKey := { tt_corpus : TextCorpusStatisticsKey; tt_term : bytes }.
Record TextStatisticsEntityKey := { ts_index_id : Z; ts_generation : Z; ts_entity : IndexEntity }.
Record IndexEntityStateKey := { es_index_id : Z; es_generation : Z; es_entity : IndexEntity }.
Record IndexOperationQueueKey := { oq_index_id : Z; oq_generation : Z }.
Record IndexOperationRowKey := { ow_index_id : Z; ow_generation : Z; ow_sequence : Z }.

Definition encode_text_root (key : TextManifestRootKey) : bytes := to_be 8 (tr_index_id key) ++ to_be 8 (tr_generation key) ++ tr_partition key.
Definition encode_text_corpus_statistics (key : TextCorpusStatisticsKey) : bytes :=
  to_be 8 (tc_index_id key) ++ to_be 8 (tc_generation key) ++ tc_partition key.
Definition encode_entity_state_key (key : IndexEntityStateKey) : bytes :=
  to_be 8 (es_index_id key) ++ to_be 8 (es_generation key) ++ put_entity (es_entity key).

Definition decode_text_root (decoder : bytes) : result EncodingError (TextManifestRootKey * bytes) :=
  let? (index_id, decoder) := decode_index_id decoder in
  let? (generation, decoder) := decode_generation decoder in
  let? (partition, decoder) := take_bytes HASH_LEN decoder in
  Ok ({| tr_index_id := index_id; tr_generation := generation; tr_partition := partition |}, decoder).

Definition decode_text_corpus_statistics (decoder : bytes) : result EncodingError (TextCorpusStatisticsKey * bytes) :=
  let? (index_id, decoder) := decode_index_id decoder in
  let? (generation, decoder) := decode_generation decoder in
  let? (partition, decoder) := take_bytes HASH_LEN decoder in
  Ok ({| tc_index_id := index_id; tc_generation := generation; tc_partition := partition |}, decoder).

Definition decode_entity_state_key (decoder : bytes) : result EncodingError (IndexEntityStateKey * bytes) :=
  let? (index_id, decoder) := decode_index_id decoder in
  let? (generation, decoder) := decode_generation decoder in
  let? (entity, decoder) := decode_entity decoder in
  Ok ({| es_index_id := index_id; es_generation := generation; es_entity := entity |}, decoder).

Inductive RecordKind :=
| KIndexRecord | KOperation | KBuildDelta | KAppliedState | KSecondaryEntry | KTextManifestRoot | KTextManifestPage
| KTextBuildArtifact | KTextEntityState | KVectorPartitionMapping | KTextCorpusStatistics | KTextTermStatistics
| KTextStatisticsEntity | KSecondaryEqualityBitmap | KIndexOperationQueue | KIndexOperationRow.

#[global] Instance RecordKind_eq_dec : EqDecision RecordKind.
Proof. solve_decision. Defined.

Definition record_kind_u8 (kind : RecordKind) : Z :=
  match kind with
  | KIndexRecord => 0x01
  | KOperation => 0x02
  | KBuildDelta => 0x03
  | KAppliedState => 0x04
  | KSecondaryEntry => 0x05
  | KTextManifestRoot => 0x06
  | KTextManifestPage => 0x07
  | KTextBuildArtifact => 0x09
  | KTextEntityState => 0x0C
  | KVectorPartitionMapping => 0x0F
  | KTextCorpusStatistics => 0x10
  | KTextTermStatistics => 0x11
  | KTextStatisticsEntity => 0x12
  | KSecondaryEqualityBitmap => 0x13
  | KIndexOperationQueue => 0x14
  | KIndexOperationRow => 0x15
  end.

Definition record_kind_try_from_u8 (value : Z) : result EncodingError RecordKind :=
  match value with
  | 0x01 => Ok KIndexRecord
  | 0x02 => Ok KOperation
  | 0x03 => Ok KBuildDelta
  | 0x04 => Ok KAppliedState
  | 0x05 => Ok KSecondaryEntry
  | 0x06 => Ok KTextManifestRoot
  | 0x07 => Ok KTextManifestPage
  | 0x09 => Ok KTextBuildArtifact
  | 0x0C => Ok KTextEntityState
  | 0x0F => Ok KVectorPartitionMapping
  | 0x10 => Ok KTextCorpusStatistics
  | 0x11 => Ok KTextTermStatistics
  | 0x12 => Ok KTextStatisticsEntity
  | 0x13 => Ok KSecondaryEqualityBitmap
  | 0x14 => Ok KIndexOperationQueue
  | 0x15 => Ok KIndexOperationRow
  | unknown => invalid ("unknown V2 index record kind " +:+ fmt_hex unknown)
  end.

Inductive ScopedKey :=
| IndexRecord (identity : IndexIdentity)
| Operation (operation_id : bytes)
| BuildDelta (key : IndexEntityStateKey)
| AppliedState (key : IndexEntityStateKey)
| SecondaryEntry (key : SecondaryEntryKey)
| SecondaryEqualityBitmap (key : SecondaryEqualityBitmapKey)
| TextManifestRoot (key : TextManifestRootKey)
| TextManifestPage (key : TextManifestPageKey)
| TextBuildArtifact (key : TextBuildArtifactKey)
| TextEntityState (key : TextEntityStateKey)
| VectorPartitionMapping (key : VectorPartitionMappingKey)
| TextCorpusStatistics (key : TextCorpusStatisticsKey)
| TextTermStatistics (key : TextTermStatisticsKey)
| TextStatisticsEntity (key : TextStatisticsEntityKey)
| IndexOperationQueue (key : IndexOperationQueueKey)
| IndexOperationRow (key : IndexOperationRowKey).

Definition record_kind (self : ScopedKey) : RecordKind :=
  match self with
  | IndexRecord _ => KIndexRecord
  | Operation _ => KOperation
  | BuildDelta _ => KBuildDelta
  | AppliedState _ => KAppliedState
  | SecondaryEntry _ => KSecondaryEntry
  | SecondaryEqualityBitmap _ => KSecondaryEqualityBitmap
  | TextManifestRoot _ => KTextManifestRoot
  | TextManifestPage _ => KTextManifestPage
  | TextBuildArtifact _ => KTextBuildArtifact
  | TextEntityState _ => KTextEntityState
  | VectorPartitionMapping _ => KVectorPartitionMapping
  | TextCorpusStatistics _ => KTextCorpusStatistics
  | TextTermStatistics _ => KTextTermStatistics
  | TextStatisticsEntity _ => KTextStatisticsEntity
  | IndexOperationQueue _ => KIndexOperationQueue
  | IndexOperationRow _ => KIndexOperationRow
  end.

Definition logical_prefix (kind : RecordKind) : bytes := [DATA_PREFIX; record_kind_u8 kind].
Definition generation_prefix (kind : RecordKind) (index_id generation : Z) : bytes :=
  DATA_PREFIX :: record_kind_u8 kind :: to_be 8 index_id ++ to_be 8 generation.
Definition secondary_lane_prefix (index_id generation : Z) (lane : SecondaryEntryLane) : bytes :=
  generation_prefix KSecondaryEntry index_id generation ++ [lane_u8 lane].
Definition secondary_equality_bitmap_prefix (index_id generation : Z) (element_kind : IndexElementKind) : bytes :=
  generation_prefix KSecondaryEqualityBitmap index_id generation ++ [element_kind_u8 element_kind].

(** The match of [ScopedKey::encode_into]. *)
Definition scoped_suffix (self : ScopedKey) : option bytes :=
  match self with
  | IndexRecord identity => encode_identity identity
  | Operation operation_id => Some operation_id
  | BuildDelta key | AppliedState key => Some (encode_entity_state_key key)
  | SecondaryEntry key => encode_suffix key
  | SecondaryEqualityBitmap key => bitmap_suffix key
  | TextManifestRoot key => Some (encode_text_root key)
  | TextManifestPage key => Some (encode_text_root (tp_root key) ++ to_be 4 (tp_page key))
  | TextBuildArtifact key => Some (encode_text_root (ta_root key) ++ to_be 4 (ta_ordinal key))
  | TextEntityState key => Some (encode_text_root (te_root key) ++ put_entity (te_entity key))
  | VectorPartitionMapping key => Some (to_be 8 (vp_index_id key) ++ to_be 8 (vp_generation key) ++ vp_partition key)
  | TextCorpusStatistics key => Some (encode_text_corpus_statistics key)
  | TextTermStatistics key => Some (encode_text_corpus_statistics (tt_corpus key) ++ tt_term key)
  | TextStatisticsEntity key => Some (to_be 8 (ts_index_id key) ++ to_be 8 (ts_generation key) ++ put_entity (ts_entity key))
  | IndexOperationQueue key => Some (to_be 8 (oq_index_id key) ++ to_be 8 (oq_generation key))
  | IndexOperationRow key => Some (to_be 8 (ow_index_id key) ++ to_be 8 (ow_generation key) ++ to_be 8 (ow_sequence key))
  end.

Definition scoped_encode (self : ScopedKey) : option bytes :=
  suffix ← scoped_suffix self;
  Some (DATA_PREFIX :: record_kind_u8 (record_kind self) :: suffix).

Definition scoped_key_encoded_len (self : ScopedKey) : Z :=
  let suffix :=
    match self with
    | IndexRecord identity => identity_encoded_len identity
    | Operation _ => UUID_LEN
    | BuildDelta _ | AppliedState _ => U64_LEN + U64_LEN + KIND_LEN + U64_LEN
    | SecondaryEntry key => encoded_suffix_len key
    | SecondaryEqualityBitmap key => bitmap_suffix_len key
    | TextManifestRoot _ => U64_LEN + U64_LEN + HASH_LEN
    | TextManifestPage _ | TextBuildArtifact _ => U64_LEN + U64_LEN + HASH_LEN + U32_LEN
    | TextEntityState _ => U64_LEN + U64_LEN + HASH_LEN + KIND_LEN + U64_LEN
    | VectorPartitionMapping _ | TextCorpusStatistics _ => U64_LEN + U64_LEN + HASH_LEN
    | TextTermStatistics _ => U64_LEN + U64_LEN + HASH_LEN + HASH_LEN
    | TextStatisticsEntity _ => U64_LEN + U64_LEN + KIND_LEN + U64_LEN
    | IndexOperationQueue _ => U64_LEN + U64_LEN
    | IndexOperationRow _ => U64_LEN + U64_LEN + U64_LEN
    end in
  PREFIX_LEN + KIND_LEN + suffix.

Section Digest.
Context {SH : Sha256}.

(** [None] is a panic; none of SHA-256's digests is too short. *)
Notation reading A := (option (result EncodingError (A * bytes))).

(** The framed equality value, validated against its digest. *)
Definition decode_equality_value (decoder : bytes) : reading CanonicalEqualityValue :=
  let fields :=
    let? (digest, decoder) := take_bytes EQUALITY_DIGEST_LEN decoder in
    let? (canonical_len, decoder) := take_u32 decoder in
    let? (canonical, decoder) := take_bytes canonical_len decoder in
    Ok (digest, canonical, decoder) in
  match fields with
  | Err e => Some (Err e)
  | Ok (digest, canonical, decoder) =>
      value ← EqualityValue.try_from_parts digest canonical;
      Some (let? value := value in Ok (value, decoder))
  end.

Definition decode_secondary_equality_bitmap (decoder : bytes) : reading SecondaryEqualityBitmapKey :=
  let head :=
    let? (index_id, decoder) := decode_index_id decoder in
    let? (generation, decoder) := decode_generation decoder in
    let? (tag, decoder) := take_u8 decoder in
    let? element_kind := decode_element_kind tag in
    Ok (index_id, generation, element_kind, decoder) in
  match head with
  | Err e => Some (Err e)
  | Ok (index_id, generation, element_kind, decoder) =>
      value ← decode_equality_value decoder;
      Some (let? (value, decoder) := value in
        let? key := bitmap_try_new index_id generation element_kind value in
        Ok (key, decoder))
  end.

(** The value and the owner of an equality lane. *)
Definition decode_equality_lane (lane : SecondaryEntryLane) (decoder : bytes) : reading (CanonicalSecondaryValue * option Z) :=
  value ← decode_equality_value decoder;
  Some (let? (value, decoder) := value in
    if is_unique lane then Ok ((EqualitySecondary value, None), decoder)
    else
      let? (entity_id, decoder) := take_u64 decoder in
      Ok ((EqualitySecondary value, Some entity_id), decoder)).

(** The value and the owner of a range lane: all but the last eight bytes. *)
Definition decode_range_lane (lane : SecondaryEntryLane) (decoder : bytes)
    : result EncodingError ((CanonicalSecondaryValue * option Z) * bytes) :=
  if blen decoder <? U64_LEN then Err (BufferTooShort U64_LEN (blen decoder))
  else
    let range_len := blen decoder - U64_LEN in
    let? (range, decoder) := take_bytes range_len decoder in
    match range_direction lane with
    | None => invalid "non-equality secondary lane has no range direction"
    | Some direction =>
        let? value := RangeValue.try_from_encoded direction range in
        let? (entity_id, decoder) := take_u64 decoder in
        Ok ((RangeSecondary value, Some entity_id), decoder)
    end.

Definition decode_secondary_entry (decoder : bytes) : reading SecondaryEntryKey :=
  let head :=
    let? (index_id, decoder) := decode_index_id decoder in
    let? (generation, decoder) := decode_generation decoder in
    let? (tag, decoder) := take_u8 decoder in
    let? lane := lane_try_from_u8 tag in
    Ok (index_id, generation, lane, decoder) in
  match head with
  | Err e => Some (Err e)
  | Ok (index_id, generation, lane, decoder) =>
      value ← (if is_equality lane then decode_equality_lane lane decoder else Some (decode_range_lane lane decoder));
      Some (let? (value, decoder) := value in
        let? key := secondary_entry_try_new index_id generation lane value.1 value.2 in
        Ok (key, decoder))
  end.

(** The match of [ScopedKey::parse_from_slice] on the kind. *)
Definition decode_scoped (kind : RecordKind) (decoder : bytes) : reading ScopedKey :=
  match kind with
  | KIndexRecord => Some (let? (identity, decoder) := decode_identity decoder in Ok (IndexRecord identity, decoder))
  | KOperation => Some (let? (id, decoder) := decode_operation_id decoder in Ok (Operation id, decoder))
  | KBuildDelta => Some (let? (state, decoder) := decode_entity_state_key decoder in Ok (BuildDelta state, decoder))
  | KAppliedState => Some (let? (state, decoder) := decode_entity_state_key decoder in Ok (AppliedState state, decoder))
  | KSecondaryEntry =>
      key ← decode_secondary_entry decoder; Some (let? (key, decoder) := key in Ok (SecondaryEntry key, decoder))
  | KSecondaryEqualityBitmap =>
      key ← decode_secondary_equality_bitmap decoder; Some (let? (key, decoder) := key in Ok (SecondaryEqualityBitmap key, decoder))
  | KTextManifestRoot => Some (let? (root, decoder) := decode_text_root decoder in Ok (TextManifestRoot root, decoder))
  | KTextManifestPage =>
      Some (let? (root, decoder) := decode_text_root decoder in
        let? (page, decoder) := take_u32 decoder in
        Ok (TextManifestPage {| tp_root := root; tp_page := page |}, decoder))
  | KTextBuildArtifact =>
      Some (let? (root, decoder) := decode_text_root decoder in
        let? (ordinal, decoder) := take_u32 decoder in
        Ok (TextBuildArtifact {| ta_root := root; ta_ordinal := ordinal |}, decoder))
  | KTextEntityState =>
      Some (let? (root, decoder) := decode_text_root decoder in
        let? (entity, decoder) := decode_entity decoder in
        Ok (TextEntityState {| te_root := root; te_entity := entity |}, decoder))
  | KVectorPartitionMapping =>
      Some (let? (index_id, decoder) := decode_index_id decoder in
        let? (generation, decoder) := decode_generation decoder in
        let? (partition, decoder) := take_bytes HASH_LEN decoder in
        Ok (VectorPartitionMapping {| vp_index_id := index_id; vp_generation := generation; vp_partition := partition |}, decoder))
  | KTextCorpusStatistics =>
      Some (let? (corpus, decoder) := decode_text_corpus_statistics decoder in Ok (TextCorpusStatistics corpus, decoder))
  | KTextTermStatistics =>
      Some (let? (corpus, decoder) := decode_text_corpus_statistics decoder in
        let? (term, decoder) := take_bytes HASH_LEN decoder in
        Ok (TextTermStatistics {| tt_corpus := corpus; tt_term := term |}, decoder))
  | KTextStatisticsEntity =>
      Some (let? (index_id, decoder) := decode_index_id decoder in
        let? (generation, decoder) := decode_generation decoder in
        let? (entity, decoder) := decode_entity decoder in
        Ok (TextStatisticsEntity {| ts_index_id := index_id; ts_generation := generation; ts_entity := entity |}, decoder))
  | KIndexOperationQueue =>
      Some (let? (index_id, decoder) := decode_index_id decoder in
        let? (generation, decoder) := decode_generation decoder in
        Ok (IndexOperationQueue {| oq_index_id := index_id; oq_generation := generation |}, decoder))
  | KIndexOperationRow =>
      Some (let? (index_id, decoder) := decode_index_id decoder in
        let? (generation, decoder) := decode_generation decoder in
        let? (sequence, decoder) := take_u64 decoder in
        Ok (IndexOperationRow {| ow_index_id := index_id; ow_generation := generation; ow_sequence := sequence |}, decoder))
  end.

(** The reader's value, once nothing remains. *)
Definition finished {A} (r : result EncodingError (A * bytes)) : result EncodingError A :=
  let? (value, decoder) := r in
  let? _ := finish decoder in
  Ok value.

(** [ScopedKey::parse_from_slice]. *)
Definition scoped_parse (slice : bytes) : option (result EncodingError ScopedKey) :=
  match slice with
  | prefix :: tag :: suffix =>
      if negb (prefix =? DATA_PREFIX) then Some (Err (InvalidKeyPrefix prefix))
      else
        match record_kind_try_from_u8 tag with
        | Err e => Some (Err e)
        | Ok kind => finished <$> decode_scoped kind suffix
        end
  | _ => Some (Err (BufferTooShort (PREFIX_LEN + KIND_LEN) (blen slice)))
  end.

(** ** Database-global keys *)

Definition GLOBAL_SENTINEL_LEN : Z := TENANT_ID_LEN + 1.
Definition GLOBAL_SENTINEL : bytes := replicate 17 0xFE.

Record TextCompactionTarget := {
  ct_scope : DataScope; ct_identity : IndexIdentity; ct_index_id : Z; ct_generation : Z; ct_partition : bytes; ct_page : Z }.

(** [TextCompactionTarget::try_new]. *)
Definition compaction_try_new (scope : DataScope) (identity : IndexIdentity) (index_id generation : Z) (partition : bytes) (page : Z)
    : result EncodingError TextCompactionTarget :=
  if negb (bool_decide (family identity = Text)) then invalid "text compaction target requires a text identity"
  else Ok {| ct_scope := scope; ct_identity := identity; ct_index_id := index_id; ct_generation := generation;
             ct_partition := partition; ct_page := page |}.

Inductive GlobalKind :=
| GStorageVersion | GLogicalIndexIdWatermark | GVectorPhysicalIdWatermark | GOperationPointer
| GLegacyVectorPhysicalReservation | GTextCompactionPointer.

Definition global_kind_u8 (kind : GlobalKind) : Z :=
  match kind with
  | GStorageVersion => 0x01
  | GLogicalIndexIdWatermark => 0x02
  | GVectorPhysicalIdWatermark => 0x03
  | GOperationPointer => 0x04
  | GLegacyVectorPhysicalReservation => 0x0A
  | GTextCompactionPointer => 0x0B
  end.

Definition global_kind_try_from_u8 (value : Z) : result EncodingError GlobalKind :=
  if value =? 0x01 then Ok GStorageVersion
  else if value =? 0x02 then Ok GLogicalIndexIdWatermark
  else if value =? 0x03 then Ok GVectorPhysicalIdWatermark
  else if value =? 0x04 then Ok GOperationPointer
  else if value =? 0x0A then Ok GLegacyVectorPhysicalReservation
  else if value =? 0x0B then Ok GTextCompactionPointer
  else invalid ("unknown global V2 key kind " +:+ fmt_hex value).

Inductive GlobalKey :=
| StorageVersion
| LogicalIndexIdWatermark
| VectorPhysicalIdWatermark
| OperationPointer (id : bytes)
| LegacyVectorPhysicalReservation (physical_index_id : Z)
| TextCompactionPointer (target : TextCompactionTarget).

Definition global_kind (self : GlobalKey) : GlobalKind :=
  match self with
  | StorageVersion => GStorageVersion
  | LogicalIndexIdWatermark => GLogicalIndexIdWatermark
  | VectorPhysicalIdWatermark => GVectorPhysicalIdWatermark
  | OperationPointer _ => GOperationPointer
  | LegacyVectorPhysicalReservation _ => GLegacyVectorPhysicalReservation
  | TextCompactionPointer _ => GTextCompactionPointer
  end.

Definition global_key_encoded_len (self : GlobalKey) : Z :=
  let suffix :=
    match self with
    | StorageVersion | LogicalIndexIdWatermark | VectorPhysicalIdWatermark => 0
    | OperationPointer _ => UUID_LEN
    | LegacyVectorPhysicalReservation _ => U64_LEN
    | TextCompactionPointer target =>
        KIND_LEN + scope_encoded_len (ct_scope target) + identity_encoded_len (ct_identity target) + U64_LEN + U64_LEN + HASH_LEN + U32_LEN
    end in
  GLOBAL_SENTINEL_LEN + KIND_LEN + suffix.

(** The scope of a compaction target, tagged. *)
Definition put_target_scope (scope : DataScope) : bytes :=
  match scope with
  | LegacyUnscoped => [0x00]
  | Tenant tenant_id => 0x01 :: to_be 16 tenant_id
  end.

Definition global_suffix (self : GlobalKey) : option bytes :=
  match self with
  | StorageVersion | LogicalIndexIdWatermark | VectorPhysicalIdWatermark => Some []
  | OperationPointer id => Some id
  | LegacyVectorPhysicalReservation physical_index_id => Some (to_be 8 physical_index_id)
  | TextCompactionPointer target =>
      identity ← encode_identity (ct_identity target);
      Some (put_target_scope (ct_scope target) ++ identity ++ to_be 8 (ct_index_id target) ++ to_be 8 (ct_generation target)
        ++ ct_partition target ++ to_be 4 (ct_page target))
  end.

(** [GlobalKey::encode_into]. *)
Definition global_encode (self : GlobalKey) : option bytes :=
  suffix ← global_suffix self;
  Some (GLOBAL_SENTINEL ++ global_kind_u8 (global_kind self) :: suffix).

Definition decode_target_scope (decoder : bytes) : result EncodingError (DataScope * bytes) :=
  let? (tag, decoder) := take_u8 decoder in
  if tag =? 0x00 then Ok (LegacyUnscoped, decoder)
  else if tag =? 0x01 then let? (tenant, decoder) := take_bytes TENANT_ID_LEN decoder in Ok (Tenant (of_be tenant), decoder)
  else invalid ("unknown text compaction scope " +:+ fmt_hex tag).

Definition decode_global (kind : GlobalKind) (decoder : bytes) : result EncodingError (GlobalKey * bytes) :=
  match kind with
  | GStorageVersion => Ok (StorageVersion, decoder)
  | GLogicalIndexIdWatermark => Ok (LogicalIndexIdWatermark, decoder)
  | GVectorPhysicalIdWatermark => Ok (VectorPhysicalIdWatermark, decoder)
  | GOperationPointer => let? (id, decoder) := decode_operation_id decoder in Ok (OperationPointer id, decoder)
  | GLegacyVectorPhysicalReservation =>
      let? (id, decoder) := decode_id VECTOR_PHYSICAL_ID decoder in Ok (LegacyVectorPhysicalReservation id, decoder)
  | GTextCompactionPointer =>
      let? (scope, decoder) := decode_target_scope decoder in
      let? (identity, decoder) := decode_identity decoder in
      let? (index_id, decoder) := decode_index_id decoder in
      let? (generation, decoder) := decode_generation decoder in
      let? (partition, decoder) := take_bytes HASH_LEN decoder in
      let? (page, decoder) := take_u32 decoder in
      let? target := compaction_try_new scope identity index_id generation partition page in
      Ok (TextCompactionPointer target, decoder)
  end.

(** [GlobalKey::parse_from_slice]. *)
Definition global_parse (slice : bytes) : result EncodingError GlobalKey :=
  if blen slice <? GLOBAL_SENTINEL_LEN + KIND_LEN then Err (BufferTooShort (GLOBAL_SENTINEL_LEN + KIND_LEN) (blen slice))
  else if negb (bool_decide (take 17 slice = GLOBAL_SENTINEL)) then invalid "global V2 sentinel mismatch"
  else
    let? kind := global_kind_try_from_u8 (hd 0 (drop 17 slice)) in
    finished (decode_global kind (drop 18 slice)).

(** ** Physical keys *)

Inductive ManagedIndexKey :=
| Global (kind : GlobalKey)
| Data (scope : DataScope) (kind : ScopedKey).

(** [ManagedIndexKey::data_prefix]. *)
Definition data_prefix (scope : DataScope) (logical_prefix : bytes) : bytes :=
  match scope with
  | LegacyUnscoped => logical_prefix
  | Tenant _ => encode_key_prefix scope ++ logical_prefix
  end.

Definition key_encoded_len (self : ManagedIndexKey) : Z :=
  match self with
  | Global kind => global_key_encoded_len kind
  | Data scope kind => scope_encoded_len scope + scoped_key_encoded_len kind
  end.

Definition to_bytes (self : ManagedIndexKey) : option bytes :=
  match self with
  | Global kind => global_encode kind
  | Data scope kind => logical ← scoped_encode kind; Some (encode_key_prefix scope ++ logical)
  end.

(** [ManagedIndexKey::parse_from_slice]. *)
Definition parse_from_slice (scope : DataScope) (slice : bytes) : option (result EncodingError ManagedIndexKey) :=
  match strip_key scope slice with
  | None => Some (invalid "physical key does not match index data scope")
  | Some logical => kind ← scoped_parse logical; Some (let? kind := kind in Ok (Data scope kind))
  end.

(** [logical[0]] panics on an empty suffix. *)
Definition parse_data_from_slice (slice : bytes) : option (result EncodingError ManagedIndexKey) :=
  match slice with
  | [] => Some (Err (BufferTooShort PREFIX_LEN 0))
  | prefix :: _ =>
      if prefix =? TENANT_KEY_PREFIX then
        if blen slice <? TENANT_ENVELOPE_LEN + PREFIX_LEN + KIND_LEN then
          Some (Err (BufferTooShort (TENANT_ENVELOPE_LEN + PREFIX_LEN + KIND_LEN) (blen slice)))
        else
          match strip_tenant_envelope slice with
          | None => Some (Err (InvalidKeyPrefix prefix))
          | Some (tenant, logical) =>
              first ← head logical;
              if negb (first =? DATA_PREFIX) then Some (Err (InvalidKeyPrefix first))
              else parse_from_slice (Tenant tenant) slice
          end
      else if prefix =? DATA_PREFIX then parse_from_slice LegacyUnscoped slice
      else Some (Err (InvalidKeyPrefix prefix))
  end.

(** ** Prepared equality prefixes *)

Record PreparedEqualityPrefix := {
  pe_index_id : Z; pe_generation : Z; pe_lane : SecondaryEntryLane; pe_value : CanonicalEqualityValue; pe_encoded_len : Z }.

Definition secondary_equality_entry_value_prefix (index_id generation : Z) (lane : SecondaryEntryLane) (value : CanonicalEqualityValue)
    : result EncodingError PreparedEqualityPrefix :=
  if negb (is_equality lane) || is_unique lane then invalid "V3 equality value prefix requires a non-unique equality lane"
  else
    let encoded_len := PREFIX_LEN + KIND_LEN + U64_LEN + U64_LEN + KIND_LEN + EQUALITY_DIGEST_LEN + U32_LEN + blen (canonical value) in
    if KEY_MAX_LEN <? encoded_len + U64_LEN then invalid "V3 equality value prefix exceeds the complete 1 MiB key limit"
    else Ok {| pe_index_id := index_id; pe_generation := generation; pe_lane := lane; pe_value := value; pe_encoded_len := encoded_len |}.

(** [PreparedEqualityPrefix::to_bytes], with its assertion. *)
Definition prepared_to_bytes (self : PreparedEqualityPrefix) : option bytes :=
  value ← put_equality_value (pe_value self);
  let bytes := DATA_PREFIX :: record_kind_u8 KSecondaryEntry :: to_be 8 (pe_index_id self) ++ to_be 8 (pe_generation self)
    ++ lane_u8 (pe_lane self) :: value in
  if blen bytes =? pe_encoded_len self then Some bytes else None.

(** [a()? != x || ...]: the next field is read only when this one agrees. *)
Definition expect {A} `{EqDecision A} (field : bytes -> result EncodingError (A * bytes)) (wanted : A) (decoder : bytes) : result EncodingError bytes :=
  let? (value, decoder) := field decoder in
  if bool_decide (value = wanted) then Ok decoder else invalid "entry differs from its prepared equality prefix".

Definition parse_owner (self : PreparedEqualityPrefix) (scope : DataScope) (physical : bytes) : result EncodingError Z :=
  match strip_key scope physical with
  | None => invalid "physical key does not match index data scope"
  | Some decoder =>
      let? decoder := expect take_u8 DATA_PREFIX decoder in
      let? decoder := expect take_u8 (record_kind_u8 KSecondaryEntry) decoder in
      let? decoder := expect take_u64 (pe_index_id self) decoder in
      let? decoder := expect take_u64 (pe_generation self) decoder in
      let? decoder := expect take_u8 (lane_u8 (pe_lane self)) decoder in
      let? decoder := expect (take_bytes EQUALITY_DIGEST_LEN) (digest (pe_value self)) decoder in
      let? (length, decoder) := take_u32 decoder in
      let mismatch := invalid "entry differs from its prepared canonical equality value" in
      if negb (length =? blen (canonical (pe_value self))) then mismatch
      else
        let? (value, decoder) := take_bytes length decoder in
        if negb (bool_decide (value = canonical (pe_value self))) then mismatch
        else
          let? (owner, decoder) := take_u64 decoder in
          let? _ := finish decoder in
          Ok owner
  end.
End Digest.

(** ** Prefix scans *)

(** [Iterator::rposition]. *)
Fixpoint rposition {A} (predicate : A -> bool) (l : list A) : option nat :=
  match l with
  | [] => None
  | x :: l =>
      match rposition predicate l with
      | Some offset => Some (S offset)
      | None => if predicate x then Some O else None
      end
  end.

Definition exclusive_prefix_end_bound (prefix : bytes) : option bytes :=
  offset ← rposition (fun byte => negb (byte =? umax 8)) prefix;
  byte ← prefix !! offset;
  Some (take (offset + 1) (<[offset := byte + 1]> prefix)).
End ManagedKeys.
