(* ===== verification/ManagedKeysSpec.v ===== *)
(** Keys are parsed back from the bytes they are written as, and from no others; and a
    prefix scan returns exactly the keys it names. *)
From S2P Require Import Prelude Bytes ValueSemantics Property RangeValue Cursor EqualityValue EqualityValueSpec IndexIdentity ManagedKeys.

Open Scope Z_scope.

(** A reader and a writer of one format, which ends where the value says. *)
Class Wire {A} (ok : A -> Prop) (put : A -> bytes) (get : bytes -> result EncodingError (A * bytes)) : Prop := {
  wire_get : forall a c, ok a -> get (put a ++ c) = Ok (a, c);
  wire_put : forall b a c, bytes_ok b -> get b = Ok (a, c) -> ok a /\ b = put a ++ c;
  wire_ok : forall a, ok a -> bytes_ok (put a) }.

Module ManagedKeysSpec.
Export ManagedKeys.
Import EqualityValue(CanonicalEqualityValue, digest, canonical).

(** ** Fields *)

Lemma take_bytes_ok n b a c : 0 <= n -> take_bytes n b = Ok (a, c) -> b = a ++ c /\ blen a = n.
Proof. intros Hn H. exact (Cursor.take_raw_ok n b a c Hn H). Qed.

Lemma take_bytes_app n a c : blen a = n -> take_bytes n (a ++ c) = Ok (a, c).
Proof. intros <-. exact (Cursor.take_raw_app a c). Qed.

#[global] Instance u8_wire : Wire byte_ok (fun z => [z]) take_u8.
Proof.
  split.
  - intros a c _. exact (Cursor.take_u8_cons a c).
  - intros b a c Hb H. apply Cursor.take_u8_ok in H as ->. by inversion Hb.
  - intros a Ha. by constructor.
Qed.

Lemma int_wire n get : (forall b, get b = let? (value, remaining) := take_bytes (Z.of_nat n) b in Ok (of_be value, remaining)) ->
  Wire (fun z => 0 <= z < 256 ^ Z.of_nat n) (to_be n) get.
Proof.
  intros Hget. split.
  - intros a c Ha. rewrite Hget, take_bytes_app by apply blen_to_be. bind_simpl. by rewrite of_to_be.
  - intros b a c Hb H. rewrite Hget in H. apply result_bind_ok in H as ([v r] & E & [= <- <-]).
    apply take_bytes_ok in E as [-> Hl]; [|lia]. apply Forall_app in Hb as [Hv _].
    assert (n = length v) as -> by (unfold blen in Hl; lia). split; [by apply of_be_bound|]. by rewrite to_of_be.
  - intros a _. apply to_be_ok.
Qed.

#[global] Instance u32_wire : Wire (in_u 32) (to_be 4) take_u32.
Proof. by apply (int_wire 4). Qed.
#[global] Instance u64_wire : Wire (in_u 64) (to_be 8) take_u64.
Proof. by apply (int_wire 8). Qed.

Definition array_ok (n : Z) (a : bytes) : Prop := bytes_ok a /\ blen a = n.

Lemma array_wire n : 0 <= n -> Wire (array_ok n) (fun a => a) (take_bytes n).
Proof.
  intros Hn. split.
  - intros a c [_ Ha]. by apply take_bytes_app.
  - intros b a c Hb H. apply take_bytes_ok in H as [-> Hl]; [|done]. apply Forall_app in Hb as [Ha _]. by split.
  - by intros a [Ha _].
Qed.
#[global] Instance hash_wire : Wire (array_ok HASH_LEN) (fun a => a) (take_bytes HASH_LEN).
Proof. by apply array_wire. Qed.
#[global] Instance uuid_wire : Wire (array_ok UUID_LEN) (fun a => a) (take_bytes UUID_LEN).
Proof. by apply array_wire. Qed.
#[global] Instance digest_wire : Wire (array_ok EqualityValue.EQUALITY_DIGEST_LEN) (fun a => a) (take_bytes EqualityValue.EQUALITY_DIGEST_LEN).
Proof. by apply array_wire. Qed.

(** A field that is checked, or converted, after it is read. *)
Lemma map_wire {A B} (okA : A -> Prop) (okB : B -> Prop) putA getA (f : A -> result EncodingError B) (g : B -> A) :
  Wire okA putA getA -> (forall a b, okA a -> f a = Ok b -> okB b /\ a = g b) -> (forall b, okB b -> okA (g b) /\ f (g b) = Ok b) ->
  Wire okB (fun b => putA (g b)) (fun d => let? (a, d) := getA d in let? b := f a in Ok (b, d)).
Proof.
  intros HW Hf Hg. split.
  - intros b c Hb. destruct (Hg b Hb) as [Ha E]. rewrite wire_get by done. bind_simpl. by rewrite E.
  - intros d b c Hd H. apply result_bind_ok in H as ([a r] & E & H). apply result_bind_ok in H as (b' & E' & [= <- <-]).
    apply wire_put in E as [Ha ->]; [|done]. by destruct (Hf a b' Ha E') as [Hb ->].
  - intros b Hb. apply wire_ok, Hg, Hb.
Qed.

(** ** Identifiers, identities and entities *)

Lemma id_wire kind : Wire id_ok (to_be 8) (decode_id kind).
Proof.
  apply (map_wire (in_u 64) id_ok (to_be 8) take_u64 (fun v => model_key (id_new kind v)) (fun v => v)); [apply _|..].
  - intros a b Ha H. destruct (id_new kind a) as [w|e] eqn:E; [|done]. injection H as ->. apply id_new_ok in E as [Hn ->].
    unfold in_u, id_ok in *. split; [lia|done].
  - intros b Hb. unfold id_ok, in_u in *. split; [lia|]. by rewrite (proj2 (id_new_ok kind b b)) by (split; [lia|done]).
Qed.
#[global] Instance index_id_wire : Wire id_ok (to_be 8) decode_index_id := id_wire INDEX_ID.
#[global] Instance generation_wire : Wire id_ok (to_be 8) decode_generation := id_wire GENERATION_ID.

#[global] Instance operation_id_wire : Wire uuid_ok (fun a => a) decode_operation_id.
Proof.
  apply (map_wire (array_ok UUID_LEN) uuid_ok (fun a => a) (take_bytes UUID_LEN) (fun v => model_key (uuid_from_bytes OPERATION_ID v)) (fun v => v)); [apply _|..].
  - intros a b [Ha Hl] H. destruct (uuid_from_bytes OPERATION_ID a) as [w|e] eqn:E; [|done]. injection H as ->. apply uuid_new_ok in E as [Hn ->].
    split; [|done]. split_and!; [done| |done]. unfold blen, UUID_LEN in Hl. lia.
  - intros b (Hb & Hl & Hn). split; [split; [done|]; unfold blen, UUID_LEN; lia|]. by rewrite (proj2 (uuid_new_ok OPERATION_ID b b)).
Qed.

Definition framed_component (component : bytes) : bytes := to_be 4 (blen component) ++ component.

Lemma put_component_some c : component_ok c -> put_component c = Some (framed_component c).
Proof.
  intros [_ Hc]. unfold put_component. unfold INDEX_COMPONENT_MAX_LEN, umax in *. by rewrite (proj2 (Z.leb_le _ _)) by lia.
Qed.

#[global] Instance component_wire kind : Wire component_ok framed_component (take_component kind).
Proof.
  split.
  - intros a c [[Ha Hu] Hl]. unfold take_component, framed_component. rewrite <- app_assoc.
    rewrite wire_get by (unfold in_u, INDEX_COMPONENT_MAX_LEN, umax in *; lia). bind_simpl. rewrite take_bytes_app by done. bind_simpl.
    unfold from_utf8. rewrite Hu. bind_simpl. by rewrite (proj2 (component_new_ok kind a a)).
  - intros b a c Hb H. unfold take_component in H. apply result_bind_ok in H as ([n r] & E & H).
    apply wire_put in E as [Hn ->]; [|done]. apply Forall_app in Hb as [_ Hb].
    apply result_bind_ok in H as ([v r'] & E & H). apply take_bytes_ok in E as [-> Hl]; [|apply Hn]. apply Forall_app in Hb as [Hv _].
    unfold from_utf8 in H. destruct (utf8_valid v) eqn:Eu; [|done]. cbn [result_bind] in H.
    destruct (component_try_new kind v) as [w|e] eqn:Ec; [|done]. injection H as <- <-. apply component_new_ok in Ec as [Hc ->].
    split; [by split|]. unfold framed_component. by rewrite Hl, <- app_assoc.
  - intros a [[Ha _] _]. apply Forall_app. split; [apply to_be_ok|done].
Qed.

Lemma take_tag z c : take_u8 (z :: c) = Ok (z, c).
Proof. exact (Cursor.take_u8_cons z c). Qed.

Lemma element_kind_iff v k : decode_element_kind v = Ok k <-> v = element_kind_u8 k.
Proof.
  unfold decode_element_kind. destruct (Z.eqb_spec v 1) as [->|]; [by destruct k|]. destruct (Z.eqb_spec v 2) as [->|]; [by destruct k|].
  split; [done|]. intros ->. by destruct k.
Qed.
Lemma element_kind_read k : decode_element_kind (element_kind_u8 k) = Ok k.
Proof. by apply element_kind_iff. Qed.

Lemma family_iff v f : decode_family v = Ok f <-> v = family_u8 f.
Proof.
  unfold decode_family. repeat (case_match; to_prop; [subst; by destruct f|]). split; [done|]. intros ->. by destruct f.
Qed.
Lemma family_read f : decode_family (family_u8 f) = Ok f.
Proof. by apply family_iff. Qed.

Lemma lane_iff v l : lane_try_from_u8 v = Ok l <-> v = lane_u8 l.
Proof.
  unfold lane_try_from_u8. repeat (case_match; to_prop; [subst; by destruct l|]). split; [done|]. intros ->. by destruct l.
Qed.
Lemma lane_read l : lane_try_from_u8 (lane_u8 l) = Ok l.
Proof. by apply lane_iff. Qed.

Lemma small_u8 k f l : byte_ok (element_kind_u8 k) /\ byte_ok (family_u8 f) /\ byte_ok (lane_u8 l).
Proof. split_and!; [by destruct k|by destruct f|by destruct l]. Qed.

Lemma array_read n a c : array_ok n a -> take_bytes n (a ++ c) = Ok (a, c).
Proof. intros [_ Ha]. by apply take_bytes_app. Qed.

Lemma operation_id_read a c : uuid_ok a -> decode_operation_id (a ++ c) = Ok (a, c).
Proof. exact (wire_get (get := decode_operation_id) a c). Qed.

(** Undoes one bind or one read; [Hb] says that what is read from are bytes. *)
Ltac wire_step Hb :=
  match goal with
  | H : result_bind _ _ = Ok _ |- _ => apply result_bind_ok in H as (? & ? & H)
  | H : Ok _ = Ok _ |- _ => injection H; clear H; intros; subst
  | x : (_ * bytes)%type |- _ => destruct x
  | H : decode_element_kind _ = Ok _ |- _ => apply element_kind_iff in H as ->
  | H : decode_family _ = Ok _ |- _ => apply family_iff in H as ->
  | H : lane_try_from_u8 _ = Ok _ |- _ => apply lane_iff in H as ->
  | H : _ ?b = Ok (_, _) |- _ =>
      lazymatch type of Hb with Forall _ b => idtac end;
      apply wire_put in H as [? ->]; [|exact Hb]; apply Forall_app in Hb as [_ Hb]
  end.

(** Reads one field a writer wrote. *)
Ltac wire_read :=
  first [rewrite take_tag | rewrite array_read by assumption | rewrite operation_id_read by assumption | rewrite element_kind_read | rewrite family_read | rewrite lane_read | erewrite wire_get by eassumption];
  cbn [result_bind].

Definition entity_ok (entity : IndexEntity) : Prop := in_u 64 (entity_id entity).

#[global] Instance entity_wire : Wire entity_ok put_entity decode_entity.
Proof.
  split.
  - intros [k i] c Hi. unfold decode_entity, put_entity, entity_ok in *. cbn [kind entity_id app] in *. by repeat wire_read.
  - intros b a c Hb H. unfold decode_entity in H. repeat wire_step Hb. done.
  - intros [k i] _. constructor; [apply (small_u8 k Text NodeEquality)|apply to_be_ok].
Qed.

Definition put_identity (identity : IndexIdentity) : bytes :=
  family_u8 (family identity) :: element_kind_u8 (element_kind identity) :: framed_component (label identity) ++ framed_component (property identity).

Lemma encode_identity_some i : identity_ok i -> encode_identity i = Some (put_identity i).
Proof. intros [Hl Hp]. unfold encode_identity. by rewrite !put_component_some. Qed.

#[global] Instance identity_wire : Wire identity_ok put_identity decode_identity.
Proof.
  split.
  - intros [f k l p] c [Hl Hp]. unfold decode_identity, put_identity. cbn [family element_kind label property app] in *. rewrite <- app_assoc. by repeat wire_read.
  - intros b a c Hb H. unfold decode_identity in H. repeat wire_step Hb. split; [done|].
    unfold put_identity. cbn [family element_kind label property app]. by rewrite <- app_assoc.
  - intros [f k l p] [Hl Hp]. destruct (small_u8 k f NodeEquality) as (Hk & Hf & _). unfold put_identity. cbn [family element_kind label property].
    apply Forall_cons. split; [done|]. apply Forall_cons. split; [done|]. apply Forall_app. split; by apply (wire_ok (get := take_component "label")).
Qed.

Lemma identity_len i : blen (put_identity i) = identity_encoded_len i.
Proof. unfold put_identity, identity_encoded_len, framed_component. autorewrite with bytes_len. unfold KIND_LEN, U32_LEN. lia. Qed.

(** ** Records of fields *)

Definition root_ok (key : TextManifestRootKey) : Prop :=
  id_ok (tr_index_id key) /\ id_ok (tr_generation key) /\ array_ok HASH_LEN (tr_partition key).
Definition corpus_ok (key : TextCorpusStatisticsKey) : Prop :=
  id_ok (tc_index_id key) /\ id_ok (tc_generation key) /\ array_ok HASH_LEN (tc_partition key).
Definition entity_state_ok (key : IndexEntityStateKey) : Prop :=
  id_ok (es_index_id key) /\ id_ok (es_generation key) /\ entity_ok (es_entity key).

Ltac project :=
  cbn [tr_index_id tr_generation tr_partition tc_index_id tc_generation tc_partition es_index_id es_generation es_entity
    tp_root tp_page ta_root ta_ordinal te_root te_entity vp_index_id vp_generation vp_partition tt_corpus tt_term
    ts_index_id ts_generation ts_entity oq_index_id oq_generation ow_index_id ow_generation ow_sequence
    se_index_id se_generation se_lane se_value se_entity_id sb_index_id sb_generation sb_element_kind sb_value
    sr_index_id sr_generation sr_lane sr_value sr_entity_id
    ct_scope ct_identity ct_index_id ct_generation ct_partition ct_page] in *.

(** The three obligations of a record whose fields have formats. *)
Ltac wire_fields :=
  split;
  [ intros [] ? (? & ? & ?); project; rewrite <- ?app_assoc; by repeat wire_read
  | intros b a c Hb H; repeat wire_step Hb; split; [done|]; project; by rewrite <- ?app_assoc
  | intros [] (? & ? & ?); project; rewrite !Forall_app; split_and!; first [apply to_be_ok | eapply wire_ok; eassumption | by match goal with H : array_ok _ _ |- _ => apply H end]].

#[global] Instance text_root_wire : Wire root_ok encode_text_root decode_text_root.
Proof. unfold root_ok, encode_text_root, decode_text_root. wire_fields. Qed.
#[global] Instance corpus_wire : Wire corpus_ok encode_text_corpus_statistics decode_text_corpus_statistics.
Proof. unfold corpus_ok, encode_text_corpus_statistics, decode_text_corpus_statistics. wire_fields. Qed.
#[global] Instance entity_state_wire : Wire entity_state_ok encode_entity_state_key decode_entity_state_key.
Proof. unfold entity_state_ok, encode_entity_state_key, decode_entity_state_key. wire_fields. Qed.

(** ** Secondary entries *)

Definition range_value_ok (value : RangeValue.CanonicalRangeValue) : Prop :=
  bytes_ok (RangeValue.encoded value) /\
  RangeValue.validate_encoded (RangeValue.direction value) (RangeValue.encoded value) = Ok tt.

Lemma try_from_encoded_iff dir b v : RangeValue.try_from_encoded dir b = Ok v <->
  RangeValue.validate_encoded dir b = Ok tt /\ v = {| RangeValue.direction := dir; RangeValue.encoded := b |}.
Proof.
  unfold RangeValue.try_from_encoded. destruct (RangeValue.validate_encoded dir b) as [[]|e]; cbn [result_bind]; [|split; [done|by intros [? _]]].
  split; [by intros [= <-]|by intros [_ ->]].
Qed.

Lemma range_value_len value : range_value_ok value -> blen (RangeValue.encoded value) <= RangeValue.MAX_RANGE_ENCODED_LEN.
Proof.
  intros [_ H]. unfold RangeValue.validate_encoded in H. destruct (RangeValue.encoded value); [done|].
  destruct (Z.ltb_spec RangeValue.MAX_RANGE_ENCODED_LEN (blen (z :: l))); [done|lia].
Qed.

Lemma range_direction_not_equality lane dir : range_direction lane = Some dir -> is_equality lane = false.
Proof. by destruct lane. Qed.
Lemma not_equality_range lane : is_equality lane = false -> exists dir, range_direction lane = Some dir.
Proof. by destruct lane; try done; intros _; eexists. Qed.

Lemma wire_end {A} (ok : A -> Prop) put get `{!Wire ok put get} a : ok a -> get (put a) = Ok (a, []).
Proof. intros Ha. rewrite <- (app_nil_r (put a)). by apply wire_get. Qed.
Lemma array_end n a : array_ok n a -> take_bytes n a = Ok (a, []).
Proof. intros Ha. rewrite <- (app_nil_r a) at 1. by apply array_read. Qed.
Lemma operation_id_end a : uuid_ok a -> decode_operation_id a = Ok (a, []).
Proof. exact (wire_end uuid_ok (fun a => a) decode_operation_id a). Qed.

(** Reads the last field. *)
Ltac wire_last :=
  first [rewrite array_end by assumption | rewrite operation_id_end by assumption | rewrite (wire_end _ _ take_u32) by assumption
    | rewrite (wire_end _ _ take_u64) by assumption | rewrite (wire_end _ _ decode_generation) by assumption
    | rewrite (wire_end _ _ decode_identity) by assumption | rewrite (wire_end _ _ decode_entity) by assumption
    | rewrite (wire_end _ _ decode_entity_state_key) by assumption | rewrite (wire_end _ _ decode_text_root) by assumption
    | rewrite (wire_end _ _ decode_text_corpus_statistics) by assumption]; cbn [result_bind].

Ltac bytes_ok_fields :=
  rewrite ?Forall_app; split_and?;
  first [apply to_be_ok | assumption | match goal with H : array_ok _ _ |- _ => apply H | H : uuid_ok _ |- _ => apply H end
    | eapply (wire_ok (get := decode_entity)); eassumption | eapply (wire_ok (get := decode_text_root)); eassumption
    | eapply (wire_ok (get := decode_text_corpus_statistics)); eassumption | eapply (wire_ok (get := decode_identity)); eassumption
    | eapply (wire_ok (get := decode_entity_state_key)); eassumption].

Section Digest.
Context {SH : Sha256}.

Definition equality_value_ok (value : CanonicalEqualityValue) : Prop :=
  bytes_ok (canonical value) /\ EqualityValue.validate_canonical (canonical value) = Ok tt /\ digest value = take 8 (sha256 (canonical value)).

Lemma equality_value_len value : equality_value_ok value ->
  array_ok EqualityValue.EQUALITY_DIGEST_LEN (digest value) /\ blen (canonical value) <= EqualityValue.MAX_EQUALITY_CANONICAL_LEN.
Proof.
  intros (_ & Hv & ->). split.
  - split; [apply Forall_take, sha256_ok|]. unfold blen. by rewrite length_take, sha256_length.
  - unfold EqualityValue.validate_canonical in Hv. by destruct (Z.ltb_spec EqualityValue.MAX_EQUALITY_CANONICAL_LEN (blen (canonical value))).
Qed.

Lemma try_from_parts_spec d c : exists r, EqualityValue.try_from_parts d c = Some r /\
  forall v, r = Ok v <-> EqualityValue.validate_canonical c = Ok tt /\ d = take 8 (sha256 c) /\ v = {| EqualityValue.digest := d; EqualityValue.canonical := c |}.
Proof.
  unfold EqualityValue.try_from_parts. destruct (EqualityValue.validate_canonical c) as [[]|e].
  - rewrite EqualityValueSpec.digest_some. cbn [mbind option_bind]. eexists. split; [reflexivity|]. intros v.
    case_bool_decide; split; try done; [by intros [= <-]|by intros (_ & _ & ->)|by intros (_ & ? & _)].
  - eexists. split; [reflexivity|]. intros v. split; [done|by intros [? _]].
Qed.

Definition put_value (value : CanonicalEqualityValue) : bytes := digest value ++ to_be 4 (blen (canonical value)) ++ canonical value.

Lemma put_value_some v : equality_value_ok v -> put_equality_value v = Some (put_value v).
Proof.
  intros [_ Hl]%equality_value_len. unfold put_equality_value. unfold EqualityValue.MAX_EQUALITY_CANONICAL_LEN, umax in *.
  by rewrite (proj2 (Z.leb_le _ _)) by lia.
Qed.

Lemma put_equality_bytes v : equality_value_ok v -> bytes_ok (put_value v).
Proof. intros Hv. pose proof (equality_value_len v Hv) as [[Hd _] _]. apply Forall_app. split; [done|]. apply Forall_app. split; [apply to_be_ok|apply Hv]. Qed.

Lemma put_value_len v : equality_value_ok v -> blen (put_value v) = EqualityValue.EQUALITY_DIGEST_LEN + U32_LEN + blen (canonical v).
Proof. intros [[_ Hd] _]%equality_value_len. unfold put_value. autorewrite with bytes_len. rewrite Hd. unfold U32_LEN. lia. Qed.

Lemma decode_value_read v c : equality_value_ok v -> decode_equality_value (put_value v ++ c) = Some (Ok (v, c)).
Proof.
  intros Hv. pose proof (equality_value_len v Hv) as [Hd Hl]. unfold decode_equality_value, put_value. rewrite <- !app_assoc.
  rewrite array_read by done. cbn [result_bind].
  rewrite wire_get by (unfold in_u, EqualityValue.MAX_EQUALITY_CANONICAL_LEN in *; pose proof (blen_nonneg (canonical v)); lia). cbn [result_bind].
  rewrite take_bytes_app by done. cbn [result_bind].
  destruct (try_from_parts_spec (digest v) (canonical v)) as (r & -> & Hr). cbn [mbind option_bind].
  destruct Hv as (_ & Hv & Hdig). by rewrite (proj2 (Hr v)) by by destruct v.
Qed.

Lemma decode_value_total b : exists r, decode_equality_value b = Some r.
Proof.
  unfold decode_equality_value. destruct (result_bind _ _) as [[[d c] r]|e]; [|by eexists].
  destruct (try_from_parts_spec d c) as (x & -> & _). by eexists.
Qed.

Lemma decode_value_inv b v c : bytes_ok b -> decode_equality_value b = Some (Ok (v, c)) -> equality_value_ok v /\ b = put_value v ++ c.
Proof.
  intros Hb H. unfold decode_equality_value in H. destruct (result_bind _ _) as [[[d k] r]|e] eqn:E; [|done].
  apply result_bind_ok in E as ([d' r1] & E1 & E). apply wire_put in E1 as [Hd ->]; [|done]. apply Forall_app in Hb as [_ Hb].
  apply result_bind_ok in E as ([n r2] & E1 & E). apply wire_put in E1 as [Hn ->]; [|done]. apply Forall_app in Hb as [_ Hb].
  apply result_bind_ok in E as ([k' r3] & E1 & [= -> -> ->]). apply take_bytes_ok in E1 as [-> Hk]; [|apply Hn]. apply Forall_app in Hb as [Hk' _].
  destruct (try_from_parts_spec d k) as (x & E & Hx). rewrite E in H. cbn [mbind option_bind] in H. injection H as H.
  apply result_bind_ok in H as (v' & -> & [= <- <-]). destruct (proj1 (Hx v') eq_refl) as (H1 & H2 & ->).
  split; [by split_and!|]. unfold put_value. cbn. by rewrite Hk, <- !app_assoc.
Qed.

Definition bitmap_ok (key : SecondaryEqualityBitmapKey) : Prop :=
  id_ok (sb_index_id key) /\ id_ok (sb_generation key) /\ equality_value_ok (sb_value key).

Definition entry_ok (key : SecondaryEntryKey) : Prop :=
  match key with
  | EqualityEntry key =>
      id_ok (se_index_id key) /\ id_ok (se_generation key) /\ equality_value_ok (se_value key) /\ is_equality (se_lane key) = true /\
      match se_entity_id key with Some entity_id => is_unique (se_lane key) = false /\ in_u 64 entity_id | None => is_unique (se_lane key) = true end
  | RangeEntry key =>
      id_ok (sr_index_id key) /\ id_ok (sr_generation key) /\ range_value_ok (sr_value key) /\
      range_direction (sr_lane key) = Some (RangeValue.direction (sr_value key)) /\ in_u 64 (sr_entity_id key)
  end.

(** The size checks of the constructors never reject a validated value. *)
Lemma bitmap_new_ok i g k v : equality_value_ok v ->
  bitmap_try_new i g k v = Ok {| sb_index_id := i; sb_generation := g; sb_element_kind := k; sb_value := v |}.
Proof. intros [_ Hl]%equality_value_len. unfold bitmap_try_new. by rewrite (proj2 (Z.ltb_ge _ _)) by (revert Hl; cbv -[Z.le Z.add blen canonical]; lia). Qed.

Lemma equality_new_ok i g l v e : equality_value_ok v -> is_equality l = true ->
  is_unique l = (match e with None => true | Some _ => false end) ->
  equality_entry_try_new i g l v e = Ok {| se_index_id := i; se_generation := g; se_lane := l; se_value := v; se_entity_id := e |}.
Proof.
  intros [_ Hl]%equality_value_len He Hu. unfold equality_entry_try_new. rewrite He, Hu, eqb_reflx. cbn [negb orb].
  assert (0 <= entity_len e <= 8) by (destruct e; cbv; by split).
  by rewrite (proj2 (Z.ltb_ge _ _)) by (revert Hl; cbv -[Z.le Z.add blen canonical entity_len]; lia).
Qed.

Lemma range_entry_new_ok i g l v e : range_value_ok v -> range_direction l = Some (RangeValue.direction v) ->
  range_entry_try_new i g l v e = Ok {| sr_index_id := i; sr_generation := g; sr_lane := l; sr_value := v; sr_entity_id := e |}.
Proof.
  intros Hl%range_value_len Hd. unfold range_entry_try_new. rewrite Hd, bool_decide_eq_true_2 by done. cbn [negb].
  by rewrite (proj2 (Z.ltb_ge _ _)) by (revert Hl; cbv -[Z.le Z.add blen RangeValue.encoded]; lia).
Qed.

(** What a reader and a writer of a whole key owe each other. *)
Record key_format {A} (ok : A -> Prop) (put : A -> option bytes) (len : A -> Z) (get : bytes -> option (result EncodingError (A * bytes))) : Prop := {
  kf_get : forall a, ok a -> exists b, put a = Some b /\ bytes_ok b /\ blen b = len a /\ get b = Some (Ok (a, []));
  kf_put : forall b a, bytes_ok b -> get b = Some (Ok (a, [])) -> ok a /\ put a = Some b;
  kf_total : forall b, exists r, get b = Some r }.

(** A format without panics. *)
Lemma wire_format {A} (ok : A -> Prop) put get len : Wire ok put get -> (forall a, ok a -> blen (put a) = len a) ->
  key_format ok (fun a => Some (put a)) len (fun b => Some (get b)).
Proof.
  intros HW Hlen. split.
  - intros a Ha. exists (put a). split_and!; [done|by apply wire_ok|by apply Hlen|]. f_equal. rewrite <- (app_nil_r (put a)) at 1. by apply wire_get.
  - intros b a Hb [= H]. apply wire_put in H as [Ha ->]; [|done]. by rewrite app_nil_r.
  - intros b. by eexists.
Qed.

Lemma bitmap_format : key_format bitmap_ok bitmap_suffix bitmap_suffix_len decode_secondary_equality_bitmap.
Proof.
  split.
  - intros [i g k v] (Hi & Hg & Hv). unfold bitmap_suffix. project. rewrite put_value_some by done. cbn [mbind option_bind].
    eexists. split; [reflexivity|]. destruct (small_u8 k Text NodeEquality) as (Hk & _). split_and!.
    + rewrite !Forall_app, Forall_cons. split_and!; [apply to_be_ok..|done|by apply put_equality_bytes].
    + unfold bitmap_suffix_len. project. autorewrite with bytes_len. rewrite put_value_len by done. cbv -[Z.add blen canonical]. lia.
    + unfold decode_secondary_equality_bitmap. repeat wire_read.
      rewrite <- (app_nil_r (put_value v)), decode_value_read by done. cbn [mbind option_bind result_bind]. by rewrite bitmap_new_ok.
  - intros b a Hb H. unfold decode_secondary_equality_bitmap in H. destruct (result_bind _ _) as [[[[i g] k] r]|e] eqn:E; [|done].
    repeat wire_step Hb.
    destruct (decode_value_total r) as [x Hr]. rewrite Hr in H. cbn [mbind option_bind] in H. injection H as H.
    apply result_bind_ok in H as ([v r'] & -> & H). apply decode_value_inv in Hr as [Hv ->]; [|done].
    rewrite bitmap_new_ok in H by done. cbn [result_bind] in H. injection H as <- ->. split; [by split_and!|].
    unfold bitmap_suffix. project. rewrite put_value_some by done. cbn [mbind option_bind]. by rewrite app_nil_r.
  - intros b. unfold decode_secondary_equality_bitmap. destruct (result_bind _ _) as [[[[i g] k] r]|e]; [|by eexists].
    destruct (decode_value_total r) as [x ->]. by eexists.
Qed.

(** ** The value and owner of a lane *)

Definition owner_bytes (entity_id : option Z) : bytes := match entity_id with Some entity_id => to_be 8 entity_id | None => [] end.

Lemma owner_len e : blen (owner_bytes e) = entity_len e.
Proof. destruct e; [apply blen_to_be|done]. Qed.

Lemma equality_lane_read l v e : equality_value_ok v ->
  match e with Some entity_id => is_unique l = false /\ in_u 64 entity_id | None => is_unique l = true end ->
  decode_equality_lane l (put_value v ++ owner_bytes e) = Some (Ok ((EqualitySecondary v, e), [])).
Proof.
  intros Hv He. unfold decode_equality_lane. rewrite decode_value_read by done. cbn [mbind option_bind result_bind].
  destruct e as [e|]; [destruct He as [-> He]|by rewrite He]. cbn [owner_bytes]. rewrite <- (app_nil_r (to_be 8 e)). by wire_read.
Qed.

Lemma equality_lane_inv l b x : bytes_ok b -> decode_equality_lane l b = Some (Ok (x, [])) ->
  exists v e, x = (EqualitySecondary v, e) /\ equality_value_ok v /\ b = put_value v ++ owner_bytes e /\
    match e with Some entity_id => is_unique l = false /\ in_u 64 entity_id | None => is_unique l = true end.
Proof.
  intros Hb H. unfold decode_equality_lane in H. destruct (decode_value_total b) as [r Hr]. rewrite Hr in H.
  cbn [mbind option_bind] in H. injection H as H. apply result_bind_ok in H as ([v d] & -> & H).
  apply decode_value_inv in Hr as [Hv ->]; [|done]. apply Forall_app in Hb as [_ Hb]. destruct (is_unique l) eqn:Eu.
  - injection H as <- ->. exists v, None. by split_and!.
  - repeat wire_step Hb. exists v, (Some z). by split_and!.
Qed.

Lemma range_lane_read l v e : range_value_ok v -> range_direction l = Some (RangeValue.direction v) -> in_u 64 e ->
  decode_range_lane l (RangeValue.encoded v ++ to_be 8 e) = Ok ((RangeSecondary v, Some e), []).
Proof.
  intros Hv Hl He. unfold decode_range_lane. autorewrite with bytes_len. change (Z.of_nat 8) with 8.
  rewrite (proj2 (Z.ltb_ge _ _)) by (unfold U64_LEN; pose proof (blen_nonneg (RangeValue.encoded v)); lia).
  rewrite take_bytes_app by (unfold U64_LEN; lia). cbn [result_bind]. rewrite Hl.
  rewrite (proj2 (try_from_encoded_iff _ _ v)) by (split; [apply Hv|by destruct v]). cbn [result_bind].
  rewrite <- (app_nil_r (to_be 8 e)). by wire_read.
Qed.

Lemma range_lane_inv l b x : bytes_ok b -> decode_range_lane l b = Ok (x, []) ->
  exists v e, x = (RangeSecondary v, Some e) /\ range_value_ok v /\ range_direction l = Some (RangeValue.direction v) /\
    in_u 64 e /\ b = RangeValue.encoded v ++ to_be 8 e.
Proof.
  intros Hb H. unfold decode_range_lane in H. destruct (Z.ltb_spec (blen b) U64_LEN); [done|].
  apply result_bind_ok in H as ([v d] & E & H). apply take_bytes_ok in E as [-> _]; [|lia]. apply Forall_app in Hb as [Hv Hb].
  destruct (range_direction l) as [dir|]; [|done]. apply result_bind_ok in H as (v' & E%try_from_encoded_iff & H). destruct E as [Hval ->].
  repeat wire_step Hb. exists {| RangeValue.direction := dir; RangeValue.encoded := v |}, z. rewrite app_nil_r. by split_and!.
Qed.

Lemma entry_format : key_format entry_ok encode_suffix encoded_suffix_len decode_secondary_entry.
Proof.
  split.
  - intros [[i g l v e]|[i g l v e]].
    + intros (Hi & Hg & Hv & Hl & He). unfold encode_suffix, equality_entry_suffix. project. rewrite put_value_some by done. cbn [mbind option_bind].
      eexists. split; [reflexivity|]. fold (owner_bytes e). destruct (small_u8 Node Text l) as (_ & _ & Hb). split_and!.
      * rewrite !Forall_app, Forall_cons, Forall_app. split_and!; [apply to_be_ok..|done|by apply put_equality_bytes|destruct e; [apply to_be_ok|constructor]].
      * unfold encoded_suffix_len, equality_entry_suffix_len. project. autorewrite with bytes_len. rewrite put_value_len, owner_len by done.
        cbv -[Z.add blen canonical entity_len]. lia.
      * unfold decode_secondary_entry. repeat wire_read. rewrite Hl, equality_lane_read by done. cbn [mbind option_bind result_bind fst snd secondary_entry_try_new].
        rewrite equality_new_ok; [done|done|done|]. destruct e; [by destruct He|done].
    + intros (Hi & Hg & Hv & Hl & He). unfold encode_suffix, range_entry_suffix. project. eexists. split; [reflexivity|].
      destruct (small_u8 Node Text l) as (_ & _ & Hb). split_and!.
      * rewrite !Forall_app, Forall_cons, Forall_app. split_and!; [apply to_be_ok..|done|apply Hv|apply to_be_ok].
      * unfold encoded_suffix_len, range_entry_suffix_len. project. autorewrite with bytes_len. cbv -[Z.add blen RangeValue.encoded]. lia.
      * unfold decode_secondary_entry. repeat wire_read. rewrite (range_direction_not_equality _ _ Hl), range_lane_read by done.
        cbn [mbind option_bind result_bind fst snd secondary_entry_try_new]. by rewrite range_entry_new_ok.
  - intros b a Hb H. unfold decode_secondary_entry in H. destruct (result_bind _ _) as [[[[i g] l] r]|e] eqn:E; [|done].
    repeat wire_step Hb. destruct (is_equality l) eqn:El.
    + destruct (decode_equality_lane l r) as [x|] eqn:Ex; [|done]. cbn [mbind option_bind] in H. injection H as H.
      apply result_bind_ok in H as ([x' d] & -> & H). apply result_bind_ok in H as (key & Hkey & [= -> ->]).
      apply equality_lane_inv in Ex as (v & e & -> & Hv & -> & He); [|done]. cbn [fst snd secondary_entry_try_new] in Hkey.
      rewrite equality_new_ok in Hkey; [|done|done|destruct e; [by destruct He|done]]. cbn [result_bind] in Hkey. injection Hkey as <-.
      split; [by split_and!|]. unfold encode_suffix, equality_entry_suffix. project. by rewrite put_value_some.
    + cbn [mbind option_bind] in H. injection H as H. apply result_bind_ok in H as ([x d] & Ex & H).
      apply result_bind_ok in H as (key & Hkey & [= -> ->]).
      apply range_lane_inv in Ex as (v & e & -> & Hv & Hd & He & ->); [|done]. cbn [fst snd secondary_entry_try_new] in Hkey.
      rewrite range_entry_new_ok in Hkey by done. cbn [result_bind] in Hkey. injection Hkey as <-. split; [by split_and!|done].
  - intros b. unfold decode_secondary_entry. destruct (result_bind _ _) as [[[[i g] l] r]|e]; [|by eexists].
    destruct (is_equality l); [|by eexists]. unfold decode_equality_lane. destruct (decode_value_total r) as [x ->]. by eexists.
Qed.

(** ** Scoped keys *)

Definition mapping_ok (key : VectorPartitionMappingKey) : Prop :=
  id_ok (vp_index_id key) /\ id_ok (vp_generation key) /\ array_ok HASH_LEN (vp_partition key).
Definition statistics_entity_ok (key : TextStatisticsEntityKey) : Prop :=
  id_ok (ts_index_id key) /\ id_ok (ts_generation key) /\ entity_ok (ts_entity key).

Definition scoped_ok (key : ScopedKey) : Prop :=
  match key with
  | IndexRecord identity => identity_ok identity
  | Operation operation_id => uuid_ok operation_id
  | BuildDelta key | AppliedState key => entity_state_ok key
  | SecondaryEntry key => entry_ok key
  | SecondaryEqualityBitmap key => bitmap_ok key
  | TextManifestRoot key => root_ok key
  | TextManifestPage key => root_ok (tp_root key) /\ in_u 32 (tp_page key)
  | TextBuildArtifact key => root_ok (ta_root key) /\ in_u 32 (ta_ordinal key)
  | TextEntityState key => root_ok (te_root key) /\ entity_ok (te_entity key)
  | VectorPartitionMapping key => mapping_ok key
  | TextCorpusStatistics key => corpus_ok key
  | TextTermStatistics key => corpus_ok (tt_corpus key) /\ array_ok HASH_LEN (tt_term key)
  | TextStatisticsEntity key => statistics_entity_ok key
  | IndexOperationQueue key => id_ok (oq_index_id key) /\ id_ok (oq_generation key)
  | IndexOperationRow key => id_ok (ow_index_id key) /\ id_ok (ow_generation key) /\ in_u 64 (ow_sequence key)
  end.

Lemma root_len r : root_ok r -> blen (encode_text_root r) = U64_LEN + U64_LEN + HASH_LEN.
Proof. intros (_ & _ & _ & Hp). unfold encode_text_root. autorewrite with bytes_len. rewrite Hp. done. Qed.
Lemma corpus_len c : corpus_ok c -> blen (encode_text_corpus_statistics c) = U64_LEN + U64_LEN + HASH_LEN.
Proof. intros (_ & _ & _ & Hp). unfold encode_text_corpus_statistics. autorewrite with bytes_len. rewrite Hp. done. Qed.
Lemma entity_len_put e : blen (put_entity e) = KIND_LEN + U64_LEN.
Proof. unfold put_entity. by autorewrite with bytes_len. Qed.

Lemma scoped_read key : scoped_ok key -> exists s, scoped_suffix key = Some s /\ bytes_ok s /\
  PREFIX_LEN + KIND_LEN + blen s = scoped_key_encoded_len key /\ decode_scoped (record_kind key) s = Some (Ok (key, [])).
Proof.
  assert (forall (s : bytes) n, blen s = n -> PREFIX_LEN + KIND_LEN + blen s = PREFIX_LEN + KIND_LEN + n) as Hlen by (intros; lia).
  destruct key as [i|o|k|k|k|k|k|[r p]|[r p]|[r e]|[i g p]|k|[k t]|[i g e]|[i g]|[i g n]]; intros Hk; cbn [scoped_ok] in Hk; project;
    cbn [scoped_suffix scoped_key_encoded_len record_kind decode_scoped]; project.
  - exists (put_identity i). split_and!; [by apply encode_identity_some|bytes_ok_fields|apply Hlen, identity_len|by wire_last].
  - eexists. split_and!; [done|bytes_ok_fields|apply Hlen; destruct Hk as (_ & Hl & _); unfold blen; by rewrite Hl|by wire_last].
  - eexists. split_and!; [done|bytes_ok_fields|apply Hlen; unfold encode_entity_state_key; autorewrite with bytes_len; by rewrite entity_len_put|by wire_last].
  - eexists. split_and!; [done|bytes_ok_fields|apply Hlen; unfold encode_entity_state_key; autorewrite with bytes_len; by rewrite entity_len_put|by wire_last].
  - destruct (kf_get _ _ _ _ entry_format k Hk) as (s & E & Hs & Hl & E'). exists s. rewrite E'. split_and!; [done|done|by apply Hlen|done].
  - destruct (kf_get _ _ _ _ bitmap_format k Hk) as (s & E & Hs & Hl & E'). exists s. rewrite E'. split_and!; [done|done|by apply Hlen|done].
  - eexists. split_and!; [done|bytes_ok_fields|by apply Hlen, root_len|by wire_last].
  - destruct Hk as [Hr Hp]. eexists. split_and!; [done|bytes_ok_fields|apply Hlen; autorewrite with bytes_len; by rewrite root_len|wire_read; by wire_last].
  - destruct Hk as [Hr Hp]. eexists. split_and!; [done|bytes_ok_fields|apply Hlen; autorewrite with bytes_len; by rewrite root_len|wire_read; by wire_last].
  - destruct Hk as [Hr Hp]. eexists. split_and!; [done|bytes_ok_fields|apply Hlen; autorewrite with bytes_len; by rewrite root_len, entity_len_put|wire_read; by wire_last].
  - destruct Hk as (Hi & Hg & Hp). project. eexists. split_and!; [done|bytes_ok_fields|apply Hlen; autorewrite with bytes_len; by rewrite (proj2 Hp)|do 2 wire_read; by wire_last].
  - eexists. split_and!; [done|bytes_ok_fields|by apply Hlen, corpus_len|by wire_last].
  - destruct Hk as [Hr Hp]. eexists. split_and!; [done|bytes_ok_fields|apply Hlen; autorewrite with bytes_len; by rewrite corpus_len, (proj2 Hp)|wire_read; by wire_last].
  - destruct Hk as (Hi & Hg & Hp). project. eexists. split_and!; [done|bytes_ok_fields|apply Hlen; autorewrite with bytes_len; by rewrite entity_len_put|do 2 wire_read; by wire_last].
  - destruct Hk as (Hi & Hg). eexists. split_and!; [done|bytes_ok_fields|apply Hlen; by autorewrite with bytes_len|wire_read; by wire_last].
  - destruct Hk as (Hi & Hg & Hp). eexists. split_and!; [done|bytes_ok_fields|apply Hlen; by autorewrite with bytes_len|do 2 wire_read; by wire_last].
Qed.

Lemma scoped_inv kind b key : bytes_ok b -> decode_scoped kind b = Some (Ok (key, [])) ->
  scoped_ok key /\ record_kind key = kind /\ scoped_suffix key = Some b.
Proof.
  intros Hb H. destruct kind; cbn [decode_scoped] in H.
  5: { destruct (decode_secondary_entry b) as [x|] eqn:E; [|done]. cbn [mbind option_bind] in H. injection H as H.
       apply result_bind_ok in H as ([k d] & -> & [= <- ->]). by apply (kf_put _ _ _ _ entry_format) in E as [? ?]. }
  13: { destruct (decode_secondary_equality_bitmap b) as [x|] eqn:E; [|done]. cbn [mbind option_bind] in H. injection H as H.
        apply result_bind_ok in H as ([k d] & -> & [= <- ->]). by apply (kf_put _ _ _ _ bitmap_format) in E as [? ?]. }
  all: injection H as H; repeat wire_step Hb; rewrite ?app_nil_r; (split; [cbn [scoped_ok]; by project|]); (split; [done|]); cbn [scoped_suffix]; project;
    rewrite ?encode_identity_some by done; by rewrite ?app_nil_r.
Qed.

Lemma decode_scoped_total kind b : exists r, decode_scoped kind b = Some r.
Proof.
  destruct kind; cbn [decode_scoped]; try by eexists.
  - destruct (kf_total _ _ _ _ entry_format b) as [r ->]. by eexists.
  - destruct (kf_total _ _ _ _ bitmap_format b) as [r ->]. by eexists.
Qed.

Lemma record_kind_iff v k : record_kind_try_from_u8 v = Ok k <-> v = record_kind_u8 k.
Proof.
  split; [|intros ->; by destruct k]. unfold record_kind_try_from_u8.
  repeat match goal with |- context [match ?x with _ => _ end] => is_var x; destruct x; try done end; by intros [= <-].
Qed.

Lemma finish_iff d : finish d = Ok tt <-> d = [].
Proof.
  unfold finish. destruct (Z.eqb_spec (blen d) 0) as [H|H]; cbn [negb].
  - destruct d; [done|]. rewrite blen_cons in H. pose proof (blen_nonneg d). lia.
  - split; [done|]. by intros ->.
Qed.

Lemma finished_iff {A} (r : result EncodingError (A * bytes)) v : finished r = Ok v <-> r = Ok (v, []).
Proof.
  unfold finished. split; [|by intros ->]. intros H. apply result_bind_ok in H as ([x d] & -> & H).
  apply result_bind_ok in H as ([] & E%finish_iff & [= ->]). by rewrite E.
Qed.

(** ** Scoped keys, whole *)

Lemma scoped_encode_read key : scoped_ok key -> exists b, scoped_encode key = Some b /\ bytes_ok b /\
  blen b = scoped_key_encoded_len key /\ scoped_parse b = Some (Ok key) /\ head b = Some DATA_PREFIX.
Proof.
  intros Hk. destruct (scoped_read key Hk) as (s & E & Hs & Hl & Hd). unfold scoped_encode. rewrite E. cbn [mbind option_bind].
  eexists. split; [reflexivity|]. split_and!.
  - apply Forall_cons. split; [done|]. apply Forall_cons. split; [by destruct key|done].
  - rewrite !blen_cons, <- Hl. unfold PREFIX_LEN, KIND_LEN. lia.
  - cbn [scoped_parse]. rewrite Z.eqb_refl. cbn [negb]. rewrite (proj2 (record_kind_iff _ (record_kind key))) by done. rewrite Hd. done.
  - done.
Qed.

Lemma scoped_parse_inv b key : bytes_ok b -> scoped_parse b = Some (Ok key) -> scoped_ok key /\ scoped_encode key = Some b.
Proof.
  intros Hb H. destruct b as [|p [|t s]]; try done. cbn [scoped_parse] in H. destruct (Z.eqb_spec p DATA_PREFIX) as [->|]; [|done].
  cbn [negb] in H. destruct (record_kind_try_from_u8 t) as [kind|e] eqn:Et; [|done]. apply record_kind_iff in Et as ->.
  destruct (decode_scoped kind s) as [r|] eqn:E; [|done]. injection H as H. apply finished_iff in H as ->.
  inversion Hb as [|? ? _ Hb']; inversion Hb' as [|? ? _ Hs]; subst.
  apply scoped_inv in E as (Hk & <- & E); [|done]. split; [done|]. unfold scoped_encode. by rewrite E.
Qed.

Lemma scoped_parse_total b : exists r, scoped_parse b = Some r.
Proof.
  destruct b as [|p [|t s]]; try by eexists. cbn [scoped_parse]. destruct (negb _); [by eexists|]. destruct (record_kind_try_from_u8 t) as [kind|e]; [|by eexists].
  destruct (decode_scoped_total kind s) as [r ->]. by eexists.
Qed.
End Digest.

(** ** Scopes *)

Definition scope_ok (scope : DataScope) : Prop := match scope with LegacyUnscoped => True | Tenant tenant_id => in_u 128 tenant_id end.

Lemma scope_prefix_ok scope : bytes_ok (encode_key_prefix scope).
Proof. destruct scope; [constructor|]. apply Forall_cons. split; [done|apply to_be_ok]. Qed.

Lemma scope_prefix_len scope : blen (encode_key_prefix scope) = scope_encoded_len scope.
Proof. destruct scope; [done|]. cbn [encode_key_prefix]. by autorewrite with bytes_len. Qed.

Lemma strip_envelope_iff key t l : bytes_ok key -> strip_tenant_envelope key = Some (t, l) <-> in_u 128 t /\ key = encode_key_prefix (Tenant t) ++ l.
Proof.
  intros Hb. unfold strip_tenant_envelope. split.
  - destruct (Z.ltb_spec (blen key) TENANT_ENVELOPE_LEN) as [|Hl]; [done|]. destruct key as [|p key]; [done|]. cbn [orb hd].
    destruct (Z.eqb_spec p TENANT_KEY_PREFIX) as [->|]; [|done]. cbn [negb]. intros [= <- <-]. apply Forall_cons in Hb as [_ Hb].
    rewrite blen_cons in Hl. unfold TENANT_ENVELOPE_LEN, TENANT_ID_LEN, blen in Hl.
    assert (length (take 16 key) = 16%nat) as E by (rewrite length_take; lia). change (drop 1 (TENANT_KEY_PREFIX :: key)) with key. split.
    + pose proof (of_be_bound (take 16 key) ltac:(by apply Forall_take)) as Hx. rewrite E in Hx. exact Hx.
    + cbn [encode_key_prefix app]. f_equal. rewrite <- E at 1. rewrite to_of_be by (by apply Forall_take). cbn [drop]. by rewrite take_drop.
  - intros [Ht ->]. cbn [encode_key_prefix app]. rewrite blen_cons, blen_app, blen_to_be.
    rewrite (proj2 (Z.ltb_ge _ _)) by (unfold TENANT_ENVELOPE_LEN, TENANT_ID_LEN; pose proof (blen_nonneg l); lia). cbn [hd orb]. rewrite Z.eqb_refl. cbn [negb].
    change (drop 1 (TENANT_KEY_PREFIX :: ?x)) with x. cbn [drop].
    rewrite (take_app_length' (to_be 16 t) l 16), of_to_be by done. by rewrite (drop_app_length' (to_be 16 t) l 16).
Qed.

Lemma strip_key_iff scope key l : scope_ok scope -> bytes_ok key -> strip_key scope key = Some l <-> key = encode_key_prefix scope ++ l.
Proof.
  intros Hs Hb. destruct scope as [|t]; cbn [strip_key]; [by split; [intros [= ->]|intros ->]|].
  destruct (strip_tenant_envelope key) as [[t' l']|] eqn:E.
  - apply strip_envelope_iff in E as [Ht' ->]; [|done]. destruct (Z.eqb_spec t' t) as [->|Hne].
    + split; [by intros [= ->]|]. intros H. apply app_inv_head in H. by subst.
    + split; [done|]. intros H. exfalso. apply Hne. apply (f_equal tail) in H. cbn in H. by apply EqualityValueSpec.field_inj in H as [-> _].
  - split; [done|]. intros ->. assert (strip_tenant_envelope (encode_key_prefix (Tenant t) ++ l) = Some (t, l)) as E' by by apply strip_envelope_iff.
    by rewrite E' in E.
Qed.

(** ** Global keys *)

#[global] Instance target_scope_wire : Wire scope_ok put_target_scope decode_target_scope.
Proof.
  split.
  - intros [|t] c Ht; unfold decode_target_scope, put_target_scope; cbn [app]; rewrite take_tag; cbn [result_bind]; [done|].
    cbn [Z.eqb Pos.eqb]. rewrite take_bytes_app by apply blen_to_be. cbn [result_bind]. by rewrite of_to_be.
  - intros b a c Hb H. unfold decode_target_scope in H. apply result_bind_ok in H as ([tag r] & E & H). apply wire_put in E as [_ ->]; [|done].
    apply Forall_app in Hb as [_ Hb]. destruct (Z.eqb_spec tag 0) as [->|]; [by injection H as <- <-|].
    destruct (Z.eqb_spec tag 1) as [->|]; [|done]. apply result_bind_ok in H as ([v r'] & E & [= <- <-]).
    apply take_bytes_ok in E as [-> Hl]; [|done]. apply Forall_app in Hb as [Hv _]. assert (16%nat = length v) as E by (unfold blen, TENANT_ID_LEN in Hl; lia).
    split; [cbn; pose proof (of_be_bound v Hv) as Hx; rewrite <- E in Hx; exact Hx|]. cbn [put_target_scope app]. rewrite E, to_of_be by done. done.
  - intros [|t] _; (apply Forall_cons; split; [done|]); [constructor|apply to_be_ok].
Qed.

Definition target_ok (t : TextCompactionTarget) : Prop :=
  scope_ok (ct_scope t) /\ identity_ok (ct_identity t) /\ family (ct_identity t) = Text /\ id_ok (ct_index_id t) /\ id_ok (ct_generation t) /\
  array_ok HASH_LEN (ct_partition t) /\ in_u 32 (ct_page t).

Definition global_ok (key : GlobalKey) : Prop :=
  match key with
  | StorageVersion | LogicalIndexIdWatermark | VectorPhysicalIdWatermark => True
  | OperationPointer id => uuid_ok id
  | LegacyVectorPhysicalReservation id => id_ok id
  | TextCompactionPointer target => target_ok target
  end.

(** The length announced for a compaction pointer of a tenant counts its tag twice. *)
Definition overcount (key : GlobalKey) : Z :=
  match key with
  | TextCompactionPointer target => match ct_scope target with Tenant _ => 1 | LegacyUnscoped => 0 end
  | _ => 0
  end.

Lemma global_kind_iff v k : global_kind_try_from_u8 v = Ok k <-> v = global_kind_u8 k.
Proof.
  unfold global_kind_try_from_u8. repeat (case_match; to_prop; [subst; by destruct k|]). split; [done|]. intros ->. by destruct k.
Qed.

Lemma compaction_new_ok s i n g p q t : compaction_try_new s i n g p q = Ok t <-> family i = Text /\
  t = {| ct_scope := s; ct_identity := i; ct_index_id := n; ct_generation := g; ct_partition := p; ct_page := q |}.
Proof. unfold compaction_try_new. case_bool_decide; cbn [negb]; split; try (by intros [= <-]); by intros [? ->]. Qed.

Lemma global_read key : global_ok key -> exists s, global_suffix key = Some s /\ bytes_ok s /\
  GLOBAL_SENTINEL_LEN + KIND_LEN + blen s + overcount key = global_key_encoded_len key /\ decode_global (global_kind key) s = Ok (key, []).
Proof.
  destruct key as [| | |id|id|[s i n g p q]]; intros Hk; cbn [global_ok global_suffix global_key_encoded_len global_kind decode_global overcount] in *.
  1-3: by exists [].
  - eexists. split_and!; [done|bytes_ok_fields| |by wire_last]. destruct Hk as (_ & Hl & _). unfold blen. by rewrite Hl.
  - eexists. split_and!; [done|bytes_ok_fields|by rewrite blen_to_be|]. by rewrite (wire_end id_ok (to_be 8) _ (Wire0 := id_wire VECTOR_PHYSICAL_ID)).
  - destruct Hk as (Hs & Hi & Ht & Hn & Hg & Hp & Hq). project. rewrite encode_identity_some by done. cbn [mbind option_bind].
    eexists. split; [reflexivity|]. split_and!.
    + rewrite !Forall_app. split_and!; [by apply (wire_ok (get := decode_target_scope))|by apply (wire_ok (get := decode_identity))|apply to_be_ok..|apply Hp|apply to_be_ok].
    + autorewrite with bytes_len. rewrite identity_len, (proj2 Hp). destruct s; cbn [put_target_scope scope_encoded_len]; autorewrite with bytes_len;
        cbv -[Z.add identity_encoded_len]; lia.
    + do 4 wire_read. rewrite array_read by done. cbn [result_bind]. wire_last. by rewrite (proj2 (compaction_new_ok s i n g p q _)) by done.
Qed.

Lemma global_inv kind b key : bytes_ok b -> decode_global kind b = Ok (key, []) -> global_ok key /\ global_kind key = kind /\ global_suffix key = Some b.
Proof.
  intros Hb H. destruct kind; cbn [decode_global] in H.
  1-3: by injection H as <- ->.
  - repeat wire_step Hb. rewrite app_nil_r. done.
  - apply result_bind_ok in H as ([id r] & E & [= <- ->]). apply (wire_put (Wire := id_wire VECTOR_PHYSICAL_ID)) in E as [Hid ->]; [|done].
    rewrite app_nil_r. done.
  - repeat wire_step Hb. match goal with E : compaction_try_new _ _ _ _ _ _ = Ok _ |- _ => apply compaction_new_ok in E as [? ->] end.
    split; [by split_and!|]. split; [done|]. cbn [global_suffix]. project. rewrite encode_identity_some by done. cbn [mbind option_bind]. by rewrite app_nil_r.
Qed.

Lemma sentinel_ok : bytes_ok GLOBAL_SENTINEL.
Proof. by apply Forall_replicate. Qed.

Lemma global_encode_read key : global_ok key -> exists b, global_encode key = Some b /\ bytes_ok b /\
  blen b + overcount key = global_key_encoded_len key /\ global_parse b = Ok key.
Proof.
  intros Hk. destruct (global_read key Hk) as (s & E & Hs & Hl & Hd). unfold global_encode. rewrite E. cbn [mbind option_bind].
  eexists. split; [reflexivity|]. assert (blen GLOBAL_SENTINEL = GLOBAL_SENTINEL_LEN) as HS by done. split_and!.
  - apply Forall_app. split; [apply sentinel_ok|]. apply Forall_cons. split; [by destruct key|done].
  - autorewrite with bytes_len. rewrite HS, <- Hl. unfold KIND_LEN. lia.
  - unfold global_parse. autorewrite with bytes_len. rewrite HS, (proj2 (Z.ltb_ge _ _)) by (unfold KIND_LEN; pose proof (blen_nonneg s); lia).
    change 18%nat with (17 + 1)%nat. rewrite <- drop_drop, take_app_length', drop_app_length' by done. rewrite bool_decide_eq_true_2 by done. cbn [negb hd drop].
    rewrite (proj2 (global_kind_iff _ (global_kind key))) by done. cbn [result_bind]. by apply finished_iff.
Qed.

Lemma global_parse_inv b key : bytes_ok b -> global_parse b = Ok key -> global_ok key /\ global_encode key = Some b.
Proof.
  intros Hb H. unfold global_parse in H. destruct (Z.ltb_spec (blen b) (GLOBAL_SENTINEL_LEN + KIND_LEN)) as [|Hl]; [done|].
  destruct (bool_decide_reflect (take 17 b = GLOBAL_SENTINEL)) as [E|]; [|done]. cbn [negb] in H.
  assert (b = GLOBAL_SENTINEL ++ drop 17 b) as Eb by (by rewrite <- E, take_drop).
  assert (exists t s, drop 17 b = t :: s) as (t & s & Ed).
  { destruct (drop 17 b) as [|t s] eqn:Ed; [|by eexists _, _]. exfalso. rewrite Eb, ?Ed, app_nil_r in Hl. vm_compute in Hl. by destruct Hl. }
  rewrite Ed in *. change 18%nat with (17 + 1)%nat in H. rewrite <- drop_drop, Ed in H. cbn [hd drop] in H. rewrite drop_0 in H.
  apply result_bind_ok in H as (kind & ->%global_kind_iff & H). apply finished_iff in H.
  assert (bytes_ok s) as Hs by (rewrite Eb in Hb; apply Forall_app in Hb as [_ Hb]; by apply Forall_cons in Hb as [_ Hb]).
  apply global_inv in H as (Hk & <- & Es); [|done]. split; [done|]. unfold global_encode. rewrite Es. cbn [mbind option_bind]. by rewrite Eb.
Qed.

(** ** Physical keys *)

Section Digest.
Context {SH : Sha256}.

Definition key_ok (key : ManagedIndexKey) : Prop :=
  match key with
  | Global kind => global_ok kind
  | Data scope kind => scope_ok scope /\ scoped_ok kind
  end.

Definition key_overcount (key : ManagedIndexKey) : Z := match key with Global kind => overcount kind | Data _ _ => 0 end.

Lemma to_bytes_some key : key_ok key -> exists b, to_bytes key = Some b /\ bytes_ok b /\ blen b + key_overcount key = key_encoded_len key.
Proof.
  destruct key as [kind|scope kind]; cbn [key_ok to_bytes key_encoded_len key_overcount].
  - intros Hk. destruct (global_encode_read kind Hk) as (b & E & Hb & Hl & _). by exists b.
  - intros [Hs Hk]. destruct (scoped_encode_read kind Hk) as (b & E & Hb & Hl & _). rewrite E. cbn [mbind option_bind]. eexists. split; [reflexivity|].
    split; [apply Forall_app; split; [apply scope_prefix_ok|done]|]. rewrite blen_app, scope_prefix_len, Hl. lia.
Qed.

Lemma parse_from_slice_iff scope b key : scope_ok scope -> bytes_ok b ->
  parse_from_slice scope b = Some (Ok key) <-> exists kind, key = Data scope kind /\ scoped_ok kind /\ to_bytes key = Some b.
Proof.
  intros Hs Hb. unfold parse_from_slice. split.
  - destruct (strip_key scope b) as [l|] eqn:E; [|done]. apply strip_key_iff in E as ->; [|done..]. apply Forall_app in Hb as [_ Hl].
    destruct (scoped_parse l) as [r|] eqn:Er; [|done]. cbn [mbind option_bind]. intros [= H]. apply result_bind_ok in H as (kind & -> & [= <-]).
    apply scoped_parse_inv in Er as [Hk E]; [|done]. exists kind. split_and!; [done|done|]. cbn [to_bytes]. by rewrite E.
  - intros (kind & -> & Hk & H). cbn [to_bytes] in H. destruct (scoped_encode_read kind Hk) as (l & E & Hl & _ & Hp & _). rewrite E in H.
    cbn [mbind option_bind] in H. injection H as <-. rewrite (proj2 (strip_key_iff scope _ l Hs Hb)) by done. by rewrite Hp.
Qed.

Lemma parse_from_slice_total scope b : exists r, parse_from_slice scope b = Some r.
Proof.
  unfold parse_from_slice. destruct (strip_key scope b) as [l|]; [|by eexists]. destruct (scoped_parse_total l) as [r ->]. by eexists.
Qed.

Lemma parse_data_iff b key : bytes_ok b ->
  parse_data_from_slice b = Some (Ok key) <-> exists scope kind, key = Data scope kind /\ scope_ok scope /\ scoped_ok kind /\ to_bytes key = Some b.
Proof.
  intros Hb. unfold parse_data_from_slice. split.
  - destruct b as [|p b]; [done|]. destruct (Z.eqb_spec p TENANT_KEY_PREFIX) as [->|Ht].
    + destruct (Z.ltb_spec (blen (TENANT_KEY_PREFIX :: b)) (TENANT_ENVELOPE_LEN + PREFIX_LEN + KIND_LEN)); [done|].
      destruct (strip_tenant_envelope _) as [[t l]|] eqn:E; [|done]. apply strip_envelope_iff in E as [Hti _]; [|done].
      destruct (head l) as [f|]; [|done]. cbn [mbind option_bind]. destruct (negb (f =? DATA_PREFIX)); [done|].
      intros (kind & -> & Hk & H')%parse_from_slice_iff; [|done..]. by exists (Tenant t), kind.
    + destruct (Z.eqb_spec p DATA_PREFIX) as [->|]; [|done]. intros (kind & -> & Hk & H)%parse_from_slice_iff; [|done..]. by exists LegacyUnscoped, kind.
  - intros (scope & kind & -> & Hs & Hk & H). pose proof H as Hto. cbn [to_bytes] in H.
    destruct (scoped_encode_read kind Hk) as (l & E & Hl & Hlen & Hp & Hh). rewrite E in H. cbn [mbind option_bind] in H. injection H as H.
    assert (parse_from_slice scope b = Some (Ok (Data scope kind))) as Hparse by (apply parse_from_slice_iff; [done|done|by exists kind]).
    destruct scope as [|t]; cbn [encode_key_prefix app] in H; subst b.
    + destruct l as [|f l]; [done|]. injection Hh as ->. exact Hparse.
    + cbn [Z.eqb Pos.eqb TENANT_KEY_PREFIX]. rewrite (proj2 (Z.ltb_ge _ _)).
      2: { autorewrite with bytes_len. unfold TENANT_ENVELOPE_LEN, TENANT_ID_LEN, PREFIX_LEN, KIND_LEN.
           destruct l as [|f [|g l]]; [done|discriminate Hp|]. rewrite !blen_cons. pose proof (blen_nonneg l). lia. }
      change (0xFD :: to_be 16 t ++ l) with (encode_key_prefix (Tenant t) ++ l) in *.
      rewrite (proj2 (strip_envelope_iff _ t l Hb)) by done. rewrite Hh. cbn [mbind option_bind]. rewrite Z.eqb_refl. exact Hparse.
Qed.

Lemma parse_data_total b : exists r, parse_data_from_slice b = Some r.
Proof.
  unfold parse_data_from_slice. destruct b as [|p b]; [by eexists|]. destruct (p =? TENANT_KEY_PREFIX).
  - destruct (Z.ltb_spec (blen (p :: b)) (TENANT_ENVELOPE_LEN + PREFIX_LEN + KIND_LEN)) as [|Hl]; [by eexists|].
    destruct (strip_tenant_envelope (p :: b)) as [[t l]|] eqn:E; [|by eexists]. unfold strip_tenant_envelope in E. destruct (_ || _); [done|].
    injection E as _ E. assert (exists f r, l = f :: r) as (f & r & ->).
    { destruct l as [|f r]; [|by eexists _, _]. exfalso. apply (f_equal length) in E. rewrite length_drop in E. cbn [length] in E.
      unfold blen, TENANT_ENVELOPE_LEN, TENANT_ID_LEN, PREFIX_LEN, KIND_LEN in Hl. cbn [length] in Hl. lia. }
    cbn [head mbind option_bind]. destruct (negb _); [by eexists|]. apply parse_from_slice_total.
  - destruct (p =? DATA_PREFIX); [apply parse_from_slice_total|by eexists].
Qed.
End Digest.
End ManagedKeysSpec.
