(* ===== verification/ManagedScans.v ===== *)
(** What the keys of the managed indexes guarantee their readers: parsing inverts
    writing, scans of a prefix return exactly the keys it names, and entries are
    recognised by their prepared prefix. *)
From S2P Require Import Prelude Bytes ValueSemantics Property RangeValue Cursor EqualityValue EqualityValueSpec IndexIdentity ManagedKeys ManagedKeysSpec.

Open Scope Z_scope.

Module ManagedScans.
Export ManagedKeysSpec.
Import EqualityValue(CanonicalEqualityValue, digest, canonical).

(** ** Ranges of a prefix *)

Lemma rposition_none l : rposition (fun byte => negb (byte =? umax 8)) l = None <-> Forall (fun byte => byte = umax 8) l.
Proof.
  induction l as [|x l IH]; [done|]. cbn [rposition]. rewrite Forall_cons, <- IH.
  destruct (rposition _ l); [split; [done|by intros []]|]. destruct (Z.eqb_spec x (umax 8)); cbn [negb]; split; try done; by intros [].
Qed.

Lemma rposition_lookup {A} (f : A -> bool) l o : rposition f l = Some o -> is_Some (l !! o).
Proof.
  revert o. induction l as [|y l IH]; intros o E; [done|]. cbn [rposition] in E. destruct (rposition f l) as [o'|].
  - injection E as <-. by apply IH.
  - destruct (f y); [|done]. injection E as <-. by eexists.
Qed.

(** There is no end bound only of a string of 255s. *)
Lemma end_bound_none l : exclusive_prefix_end_bound l = None <-> Forall (fun byte => byte = umax 8) l.
Proof.
  rewrite <- rposition_none. unfold exclusive_prefix_end_bound. destruct (rposition _ l) as [o|] eqn:E; [|done].
  apply rposition_lookup in E as [b Eb]. cbn [mbind option_bind]. by rewrite Eb.
Qed.

Lemma end_bound_cons x l : exclusive_prefix_end_bound (x :: l) =
  match exclusive_prefix_end_bound l with Some e => Some (x :: e) | None => if x =? umax 8 then None else Some [x + 1] end.
Proof.
  unfold exclusive_prefix_end_bound. cbn [rposition]. destruct (rposition _ l) as [o|] eqn:E; cbn [mbind option_bind].
  - change ((x :: l) !! S o) with (l !! o). apply rposition_lookup in E as [b ->]. done.
  - by destruct (x =? umax 8).
Qed.

Lemma cmp_cons_eq x y a b : bytes_cmp (x :: a) (y :: b) = then_with (x ?= y) (bytes_cmp a b).
Proof. done. Qed.

(** Nothing above a string of 255s but its extensions. *)
Lemma max_prefix p k : Forall (fun byte => byte = umax 8) p -> bytes_ok k -> bytes_cmp p k <> Gt -> exists r, k = p ++ r.
Proof.
  intros Hp. revert k. induction Hp as [|x p -> _ IH]; intros k Hk Hc; [by exists k|]. destruct k as [|y k]; [done|].
  apply Forall_cons in Hk as [Hy Hk]. rewrite cmp_cons_eq in Hc. unfold byte_ok, umax in *.
  destruct (Z.compare_spec (2 ^ 8 - 1) y) as [E|E|E]; [|lia|done]. destruct (IH k Hk Hc) as [r ->]. exists r. by rewrite <- E.
Qed.

Lemma prefix_below p r : bytes_cmp p (p ++ r) <> Gt.
Proof. rewrite <- (app_nil_r p) at 1. rewrite bytes_cmp_app_same. by destruct r. Qed.

(** The keys between a prefix and its end bound are those that start with it. *)
Lemma end_bound_exact p e k : bytes_ok p -> bytes_ok k -> exclusive_prefix_end_bound p = Some e ->
  (bytes_cmp p k <> Gt /\ bytes_cmp k e = Lt <-> exists r, k = p ++ r).
Proof.
  revert e k. induction p as [|x p IH]; intros e k Hp Hk He; [done|]. apply Forall_cons in Hp as [Hx Hp]. rewrite end_bound_cons in He.
  destruct k as [|y k]; [split; [by intros []|by intros [? ?]]|]. apply Forall_cons in Hk as [Hy Hk].
  destruct (exclusive_prefix_end_bound p) as [e'|] eqn:Ep.
  - injection He as <-. rewrite !cmp_cons_eq. split.
    + intros [H1 H2]. destruct (Z.compare_spec x y) as [->|Hlt|Hgt]; [|by rewrite (proj2 (Z.compare_gt_iff y x)) in H2|done].
      rewrite Z.compare_refl in H2. destruct (proj1 (IH e' k Hp Hk eq_refl) (conj H1 H2)) as [r ->]. by exists r.
    + intros [r [= -> ->]]. rewrite Z.compare_refl. apply (IH e'); [done|done|done|by exists r].
  - destruct (Z.eqb_spec x (umax 8)); [done|]. injection He as <-. rewrite !cmp_cons_eq.
    apply end_bound_none in Ep as Hmax.
    split.
    + intros [H1 H2]. destruct (Z.compare_spec x y) as [->|Hlt|Hgt]; [|exfalso|done].
      * destruct (max_prefix p k Hmax Hk H1) as [r ->]. by exists r.
      * destruct (Z.compare_spec y (x + 1)) as [->|?|?]; [by destruct k|lia|done].
    + intros [r [= -> ->]]. rewrite Z.compare_refl. split; [apply prefix_below|]. by rewrite (proj2 (Z.compare_lt_iff _ _)) by lia.
Qed.

(** ** Generations *)

(** The index and the generation a key belongs to. *)
Definition key_generation (key : ScopedKey) : option (Z * Z) :=
  match key with
  | IndexRecord _ | Operation _ => None
  | BuildDelta key | AppliedState key => Some (es_index_id key, es_generation key)
  | SecondaryEntry (EqualityEntry key) => Some (se_index_id key, se_generation key)
  | SecondaryEntry (RangeEntry key) => Some (sr_index_id key, sr_generation key)
  | SecondaryEqualityBitmap key => Some (sb_index_id key, sb_generation key)
  | TextManifestRoot key => Some (tr_index_id key, tr_generation key)
  | TextManifestPage key => Some (tr_index_id (tp_root key), tr_generation (tp_root key))
  | TextBuildArtifact key => Some (tr_index_id (ta_root key), tr_generation (ta_root key))
  | TextEntityState key => Some (tr_index_id (te_root key), tr_generation (te_root key))
  | VectorPartitionMapping key => Some (vp_index_id key, vp_generation key)
  | TextCorpusStatistics key => Some (tc_index_id key, tc_generation key)
  | TextTermStatistics key => Some (tc_index_id (tt_corpus key), tc_generation (tt_corpus key))
  | TextStatisticsEntity key => Some (ts_index_id key, ts_generation key)
  | IndexOperationQueue key => Some (oq_index_id key, oq_generation key)
  | IndexOperationRow key => Some (ow_index_id key, ow_generation key)
  end.

Definition generational (kind : RecordKind) : Prop := kind <> KIndexRecord /\ kind <> KOperation.

Lemma id_field z : id_ok z -> 0 <= z < 256 ^ Z.of_nat 8.
Proof. unfold id_ok. change (256 ^ Z.of_nat 8) with (2 ^ 64). lia. Qed.

(** A written key starts with the prefix of its generation. *)
Lemma generation_prefixed key b : scoped_encode key = Some b -> generational (record_kind key) ->
  exists i g rest, key_generation key = Some (i, g) /\ b = generation_prefix (record_kind key) i g ++ rest.
Proof.
  intros E [Hr Ho]. unfold scoped_encode in E. destruct (scoped_suffix key) as [s|] eqn:Es; [|done]. cbn [mbind option_bind] in E. injection E as <-.
  unfold generation_prefix. cut (exists i g rest, key_generation key = Some (i, g) /\ s = to_be 8 i ++ to_be 8 g ++ rest).
  { intros (i & g & rest & Hk & ->). exists i, g, rest. split; [done|]. cbn [app]. by rewrite <- app_assoc. }
  destruct key as [i|o|k|k|[k|k]|k|k|k|k|k|k|k|k|k|k|k]; try done; cbn [scoped_suffix key_generation encode_suffix] in *; eexists _, _.
  3: { unfold equality_entry_suffix in Es. destruct (put_equality_value (se_value k)); [|done]. apply (inj Some) in Es as <-. eexists. split; reflexivity. }
  4: { unfold bitmap_suffix in Es. destruct (put_equality_value (sb_value k)); [|done]. apply (inj Some) in Es as <-. eexists. split; reflexivity. }
  all: apply (inj Some) in Es as <-; eexists; split; [reflexivity|];
    unfold encode_entity_state_key, range_entry_suffix, encode_text_root, encode_text_corpus_statistics; rewrite <- ?app_assoc;
    first [reflexivity | by rewrite <- (app_nil_r (to_be 8 (oq_generation k)))].
Qed.

Lemma scope_prefix_inj scope scope' x y : scope_ok scope -> scope_ok scope' -> head x = Some DATA_PREFIX -> head y = Some DATA_PREFIX ->
  encode_key_prefix scope ++ x = encode_key_prefix scope' ++ y -> scope = scope' /\ x = y.
Proof.
  intros Hs Hs' Hx Hy H. destruct scope as [|t], scope' as [|t']; cbn [encode_key_prefix app] in H.
  - done.
  - rewrite H in Hx. discriminate Hx.
  - rewrite <- H in Hy. discriminate Hy.
  - apply (f_equal tail) in H. cbn [tail] in H. by apply EqualityValueSpec.field_inj in H as [-> ->].
Qed.

Lemma generation_prefix_inj k i g k' i' g' u v : id_ok i -> id_ok g -> id_ok i' -> id_ok g' ->
  generation_prefix k i g ++ u = generation_prefix k' i' g' ++ v -> k = k' /\ i = i' /\ g = g' /\ u = v.
Proof.
  intros Hi Hg Hi' Hg' H. unfold generation_prefix in H. cbn [app] in H.
  pose proof (f_equal (fun l => hd 0 (tail l)) H) as Hk. cbn [hd tail] in Hk. apply (f_equal (fun l => tail (tail l))) in H. cbn [tail] in H.
  rewrite <- !app_assoc in H. apply EqualityValueSpec.field_inj in H as [-> H]; [|by apply id_field..].
  apply EqualityValueSpec.field_inj in H as [-> ->]; [|by apply id_field..]. split_and!; try done. destruct k, k'; (done || discriminate Hk).
Qed.

Lemma data_prefix_eq scope l : data_prefix scope l = encode_key_prefix scope ++ l.
Proof. by destruct scope. Qed.

Section Digest.
Context {SH : Sha256}.

Lemma key_generation_ok key i g : scoped_ok key -> key_generation key = Some (i, g) -> id_ok i /\ id_ok g.
Proof.
  destruct key as [x|o|k|k|[k|k]|k|k|k|k|k|k|k|k|k|k|k]; intros Hk [= <- <-]; cbn [scoped_ok entry_ok] in Hk;
    unfold entity_state_ok, bitmap_ok, root_ok, mapping_ok, corpus_ok, statistics_entity_ok in Hk; split; tauto.
Qed.

(** The prefix of a generation is a prefix of exactly the keys of that generation. *)
Lemma generation_prefix_iff scope kind i g key b : scope_ok scope -> generational kind -> id_ok i -> id_ok g -> key_ok key -> to_bytes key = Some b ->
  (exists r, b = data_prefix scope (generation_prefix kind i g) ++ r) <->
  exists k, key = Data scope k /\ record_kind k = kind /\ key_generation k = Some (i, g).
Proof.
  intros Hs Hkind Hi Hg Hk Hb. rewrite data_prefix_eq. destruct key as [gk|scope' k]; cbn [to_bytes key_ok] in Hb, Hk.
  - split; [|by intros (k & [=] & _)]. intros [r ->]. exfalso. unfold global_encode in Hb. destruct (global_suffix gk); [|done].
    apply (inj Some) in Hb. by destruct scope; apply (f_equal (hd 0)) in Hb.
  - destruct Hk as [Hs' Hk]. destruct (scoped_encode_read k Hk) as (l & E & _ & _ & _ & Hh). rewrite E in Hb. cbn [mbind option_bind] in Hb.
    apply (inj Some) in Hb as <-. split.
    + intros [r H]. rewrite <- app_assoc in H. apply scope_prefix_inj in H as [-> ->]; [|done..].
      assert (record_kind k = kind) as Hr.
      { unfold scoped_encode in E. destruct (scoped_suffix k); [|done]. apply (inj Some) in E. apply (f_equal (fun l => hd 0 (tail l))) in E.
        cbn in E. by destruct (record_kind k), kind. }
      destruct (generation_prefixed k _ E) as (i' & g' & rest & Hkg & H); [by rewrite Hr|].
      destruct (key_generation_ok k i' g' Hk Hkg) as [Hi' Hg']. apply generation_prefix_inj in H as (_ & -> & -> & _); [|done..].
      exists k. by split_and!.
    + intros (k' & [= -> <-] & Hr & Hkg). destruct (generation_prefixed k l E) as (i' & g' & rest & Hkg' & ->); [by rewrite Hr|].
      rewrite Hkg in Hkg'. injection Hkg' as <- <-. exists rest. by rewrite Hr, <- app_assoc.
Qed.

(** ** Prepared prefixes *)

Lemma expect_iff {A} `{EqDecision A} (ok : A -> Prop) put get `{!Wire ok put get} w d r : bytes_ok d ->
  expect get w d = Ok r <-> ok w /\ d = put w ++ r.
Proof.
  intros Hd. unfold expect. split.
  - intros E. apply result_bind_ok in E as ([v d'] & E & E'). apply wire_put in E as [Hv ->]; [|done]. by case_bool_decide; simplify_eq.
  - intros [Hw ->]. rewrite wire_get by done. cbn [result_bind]. by rewrite bool_decide_eq_true_2.
Qed.

Definition owned (p : PreparedEqualityPrefix) (owner : Z) : SecondaryEqualityEntryKey :=
  {| se_index_id := pe_index_id p; se_generation := pe_generation p; se_lane := pe_lane p; se_value := pe_value p; se_entity_id := Some owner |}.

(** The bytes of a prepared prefix. *)
Definition prepared_bytes (p : PreparedEqualityPrefix) : bytes :=
  generation_prefix KSecondaryEntry (pe_index_id p) (pe_generation p) ++ lane_u8 (pe_lane p) :: put_value (pe_value p).

Record prepared (p : PreparedEqualityPrefix) : Prop := {
  pr_index : id_ok (pe_index_id p);
  pr_generation : id_ok (pe_generation p);
  pr_value : equality_value_ok (pe_value p);
  pr_lane : is_equality (pe_lane p) = true /\ is_unique (pe_lane p) = false;
  pr_len : pe_encoded_len p = PREFIX_LEN + KIND_LEN + U64_LEN + U64_LEN + KIND_LEN + EqualityValue.EQUALITY_DIGEST_LEN + U32_LEN + blen (canonical (pe_value p)) }.

Lemma prepare_ok i g l v p : id_ok i -> id_ok g -> equality_value_ok v ->
  secondary_equality_entry_value_prefix i g l v = Ok p -> prepared p /\ pe_index_id p = i /\ pe_generation p = g /\ pe_lane p = l /\ pe_value p = v.
Proof.
  intros Hi Hg Hv H. unfold secondary_equality_entry_value_prefix in H. destruct (is_equality l) eqn:El, (is_unique l) eqn:Eu; try done.
  cbn [negb orb] in H. destruct (KEY_MAX_LEN <? _); [done|]. apply (f_equal (fun r => match r with Ok p => p | Err _ => p end)) in H. subst p. by split_and!.
Qed.

Lemma prepared_written p : prepared p -> prepared_to_bytes p = Some (prepared_bytes p).
Proof.
  intros [_ _ Hv _ Hl]. unfold prepared_to_bytes. rewrite put_value_some by done. cbn [mbind option_bind]. rewrite Hl.
  assert (forall a b : bytes, a = b -> blen b = pe_encoded_len p -> (if blen a =? pe_encoded_len p then Some a else None) = Some b) as Hx
    by (intros a b -> Hb; by rewrite (proj2 (Z.eqb_eq _ _))).
  rewrite <- Hl. apply Hx.
  - unfold prepared_bytes, generation_prefix. cbn [app]. rewrite <- ?app_assoc. reflexivity.
  - rewrite Hl. unfold prepared_bytes, generation_prefix. autorewrite with bytes_len. rewrite put_value_len by done. cbv -[Z.add blen canonical pe_value]. lia.
Qed.

Lemma owned_bytes p owner scope : prepared p -> in_u 64 owner ->
  to_bytes (Data scope (SecondaryEntry (EqualityEntry (owned p owner)))) = Some (encode_key_prefix scope ++ prepared_bytes p ++ to_be 8 owner).
Proof.
  intros [_ _ Hv _ _] Ho. cbn [to_bytes]. unfold scoped_encode, scoped_suffix, encode_suffix, equality_entry_suffix, owned. project.
  rewrite put_value_some by done. cbn [mbind option_bind record_kind]. reflexivity.
Qed.

Lemma expect_bind {A B} `{EqDecision A} (ok : A -> Prop) put get `{!Wire ok put get} w d (f : bytes -> result EncodingError B) r : bytes_ok d ->
  result_bind (expect get w d) f = Ok r -> exists d', d = put w ++ d' /\ f d' = Ok r /\ bytes_ok d'.
Proof.
  intros Hd H. apply result_bind_ok in H as (d' & E & H). apply (expect_iff ok put get) in E as [_ ->]; [|done].
  apply Forall_app in Hd as [_ Hd]. by exists d'.
Qed.

Lemma expect_read {A} `{EqDecision A} (ok : A -> Prop) put get `{!Wire ok put get} w r : ok w -> expect get w (put w ++ r) = Ok r.
Proof. intros Hw. unfold expect. rewrite wire_get by done. cbn [result_bind]. by rewrite bool_decide_eq_true_2. Qed.

Lemma id_in_u z : id_ok z -> in_u 64 z.
Proof. unfold id_ok, in_u. lia. Qed.

Lemma expect_tag z r : expect take_u8 z (z :: r) = Ok r.
Proof. unfold expect. rewrite take_tag. cbn [result_bind]. by rewrite bool_decide_eq_true_2. Qed.

Lemma parse_owner_iff p scope physical owner : prepared p -> scope_ok scope -> bytes_ok physical ->
  parse_owner p scope physical = Ok owner <-> in_u 64 owner /\ physical = encode_key_prefix scope ++ prepared_bytes p ++ to_be 8 owner.
Proof.
  intros [Hi Hg Hv Hl _] Hs Hb. pose proof (equality_value_len _ Hv) as [Hd Hlen].
  assert (in_u 32 (blen (canonical (pe_value p)))) as Hlen'.
  { unfold in_u, EqualityValue.MAX_EQUALITY_CANONICAL_LEN in *. pose proof (blen_nonneg (canonical (pe_value p))). lia. }
  unfold parse_owner, prepared_bytes, generation_prefix, put_value. split.
  - destruct (strip_key scope physical) as [d|] eqn:E; [|done]. rewrite strip_key_iff in E by done. subst physical.
    apply Forall_app in Hb as [_ Hb]. intros H.
    apply (expect_bind byte_ok (fun z => [z])) in H as (d1 & -> & H & Hb1); [|apply _|done].
    apply (expect_bind byte_ok (fun z => [z])) in H as (d2 & -> & H & Hb2); [|apply _|done].
    apply (expect_bind (in_u 64) (to_be 8)) in H as (d3 & -> & H & Hb3); [|apply _|done].
    apply (expect_bind (in_u 64) (to_be 8)) in H as (d4 & -> & H & Hb4); [|apply _|done].
    apply (expect_bind byte_ok (fun z => [z])) in H as (d5 & -> & H & Hb5); [|apply _|done].
    apply (expect_bind (array_ok EqualityValue.EQUALITY_DIGEST_LEN) (fun a => a)) in H as (d6 & -> & H & Hb6); [|apply _|done].
    apply result_bind_ok in H as ([n d7] & E & H). apply wire_put in E as [Hn ->]; [|done]. apply Forall_app in Hb6 as [_ Hb7].
    destruct (Z.eqb_spec n (blen (canonical (pe_value p)))) as [->|]; [|done]. cbn [negb] in H.
    apply result_bind_ok in H as ([c d8] & E & H). apply take_bytes_ok in E as [-> Hc]; [|apply Hlen']. apply Forall_app in Hb7 as [_ Hb8].
    case_bool_decide as Ec; [|done]. cbn [negb] in H. apply result_bind_ok in H as ([o d9] & E & H). apply wire_put in E as [Ho ->]; [|done].
    apply result_bind_ok in H as ([] & ->%finish_iff & [= <-]). split; [done|]. subst c. rewrite app_nil_r. cbn [app].
    rewrite <- ?app_assoc. cbn [app]. by rewrite <- ?app_assoc.
  - intros [Ho E]. rewrite <- strip_key_iff in E by done. rewrite E. cbn [app]. rewrite <- ?app_assoc. cbn [app]. rewrite <- ?app_assoc.
    rewrite !expect_tag. cbn [result_bind]. rewrite expect_tag. cbn [result_bind]. rewrite (expect_read (in_u 64) (to_be 8) take_u64) by (by apply id_in_u).
    cbn [result_bind]. rewrite (expect_read (in_u 64) (to_be 8) take_u64) by (by apply id_in_u). cbn [result_bind]. rewrite expect_tag. cbn [result_bind].
    rewrite (expect_read (array_ok EqualityValue.EQUALITY_DIGEST_LEN) (fun a => a) (take_bytes EqualityValue.EQUALITY_DIGEST_LEN)) by done. cbn [result_bind].
    rewrite wire_get by done. cbn [result_bind]. rewrite Z.eqb_refl. cbn [negb]. rewrite take_bytes_app by done. cbn [result_bind].
    rewrite bool_decide_eq_true_2 by done. cbn [negb]. by rewrite (wire_end (in_u 64) (to_be 8) take_u64).
Qed.

(** ** The keys *)

Lemma key_read key b : bytes_ok b ->
  parse_data_from_slice b = Some (Ok key) <-> (exists scope kind, key = Data scope kind) /\ key_ok key /\ to_bytes key = Some b.
Proof.
  intros Hb. rewrite parse_data_iff by done. split.
  - intros (scope & kind & -> & Hs & Hk & E). split_and!; [by eexists _, _|done..].
  - intros [(scope & kind & ->) [[Hs Hk] E]]. by exists scope, kind.
Qed.

Lemma global_read_iff key b : bytes_ok b -> global_parse b = Ok key <-> global_ok key /\ global_encode key = Some b.
Proof.
  intros Hb. split; [by apply global_parse_inv|]. intros [Hk E]. destruct (global_encode_read key Hk) as (b' & E' & _ & _ & H).
  rewrite E in E'. by injection E' as <-.
Qed.

Lemma global_head key b : global_encode key = Some b -> head b = Some 0xFE.
Proof. unfold global_encode. destruct (global_suffix key); [|done]. by intros [= <-]. Qed.

Lemma data_head scope kind b : scoped_ok kind -> to_bytes (Data scope kind) = Some b -> head b = Some DATA_PREFIX \/ head b = Some TENANT_KEY_PREFIX.
Proof.
  intros Hk H. destruct (scoped_encode_read kind Hk) as (l & E & _ & _ & _ & Hh). cbn [to_bytes] in H. rewrite E in H.
  cbn [mbind option_bind] in H. apply (inj Some) in H as <-. destruct scope; [by left|by right].
Qed.

Lemma to_bytes_inj key key' b : key_ok key -> key_ok key' -> to_bytes key = Some b -> to_bytes key' = Some b -> key = key'.
Proof.
  intros Hk Hk' E E'. destruct (to_bytes_some key Hk) as (b' & Eb & Hb & _). rewrite E in Eb. injection Eb as <-.
  destruct key as [g|scope kind], key' as [g'|scope' kind'].
  - assert (@Ok EncodingError GlobalKey g = Ok g') as [= ->]; [|done]. transitivity (global_parse b); [symmetry|]; by apply global_read_iff.
  - apply global_head in E. apply data_head in E' as [E'|E']; [| |apply Hk']; by rewrite E in E'.
  - apply global_head in E'. apply data_head in E as [E|E]; [| |apply Hk]; by rewrite E in E'.
  - assert (Some (@Ok EncodingError ManagedIndexKey (Data scope kind)) = Some (Ok (Data scope' kind'))) as [= -> ->]; [|done].
    transitivity (parse_data_from_slice b); [symmetry|]; apply key_read; (done || split_and!; by try eexists _, _).
Qed.

(** [C10] Parsing never panics, and inverts writing: a physical key parses, alone or within its scope, to exactly
    the valid data key that is written so, and a global one to the valid global key that is written so. *)
Theorem managed_keys_parse (b : bytes) : bytes_ok b ->
  (exists r, parse_data_from_slice b = Some r) /\
  (forall key, parse_data_from_slice b = Some (Ok key) <-> (exists scope kind, key = Data scope kind) /\ key_ok key /\ to_bytes key = Some b) /\
  (forall scope, scope_ok scope -> (exists r, parse_from_slice scope b = Some r) /\
    forall key, parse_from_slice scope b = Some (Ok key) <-> (exists kind, key = Data scope kind) /\ key_ok key /\ to_bytes key = Some b) /\
  (forall kind, global_parse b = Ok kind <-> key_ok (Global kind) /\ to_bytes (Global kind) = Some b).
Proof.
  intros Hb. split_and!.
  - apply parse_data_total.
  - intros key. by apply key_read.
  - intros scope Hs. split; [apply parse_from_slice_total|]. intros key. rewrite parse_from_slice_iff by done. split.
    + intros (kind & -> & Hk & E). split_and!; [by eexists|done..].
    + intros [(kind & ->) [[_ Hk] E]]. by exists kind.
  - intros kind. by apply global_read_iff.
Qed.

(** Every valid key is written, to bytes that no other valid key has, and as long as announced; only the
    announcement of a tenant's text compaction pointer counts one byte too many. *)
Theorem managed_keys_written (key : ManagedIndexKey) : key_ok key ->
  exists b, to_bytes key = Some b /\ bytes_ok b /\
    key_encoded_len key = blen b +
      match key with Global (TextCompactionPointer target) => (match ct_scope target with Tenant _ => 1 | LegacyUnscoped => 0 end) | _ => 0 end /\
    (forall key', key_ok key' -> to_bytes key' = Some b -> key' = key).
Proof.
  intros Hk. destruct (to_bytes_some key Hk) as (b & E & Hb & Hl). exists b. split_and!; [done|done| |].
  - rewrite <- Hl. f_equal.
  - intros key' Hk' E'. by apply (to_bytes_inj key' key b).
Qed.

(** [C11] The range scanned for a generation of an index, from its prefix to the bound past it, holds exactly the
    keys of that kind, index, generation and data scope. *)
Theorem generation_scan_exact (scope : DataScope) (kind : RecordKind) (i g : Z) : scope_ok scope -> generational kind -> id_ok i -> id_ok g ->
  exists e, exclusive_prefix_end_bound (data_prefix scope (generation_prefix kind i g)) = Some e /\
    forall key b, key_ok key -> to_bytes key = Some b ->
      (bytes_cmp (data_prefix scope (generation_prefix kind i g)) b <> Gt /\ bytes_cmp b e = Lt <->
       exists k, key = Data scope k /\ record_kind k = kind /\ key_generation k = Some (i, g)).
Proof.
  intros Hs Hkind Hi Hg. assert (bytes_ok (data_prefix scope (generation_prefix kind i g))) as Hp.
  { rewrite data_prefix_eq. apply Forall_app. split; [apply scope_prefix_ok|]. unfold generation_prefix.
    do 2 (apply Forall_cons; split; [by destruct kind|]). apply Forall_app. split; apply to_be_ok. }
  destruct (exclusive_prefix_end_bound _) as [e|] eqn:E.
  - exists e. split; [done|]. intros key b Hk Hb. destruct (to_bytes_some key Hk) as (b' & Eb & Hbb & _). rewrite Hb in Eb. injection Eb as <-.
    rewrite <- (generation_prefix_iff scope kind i g key b) by done. by apply end_bound_exact.
  - exfalso. apply end_bound_none in E. destruct scope; by apply Forall_cons in E as [? _].
Qed.

(** A prepared equality prefix is written without panicking, and recognises exactly the entries of its lane and
    value: of one it returns the owner. *)
Theorem parse_owner_exact (i g : Z) (l : SecondaryEntryLane) (v : CanonicalEqualityValue) (p : PreparedEqualityPrefix) (scope : DataScope)
    (physical : bytes) (owner : Z) :
  id_ok i -> id_ok g -> equality_value_ok v -> scope_ok scope -> bytes_ok physical -> secondary_equality_entry_value_prefix i g l v = Ok p ->
  (exists b, prepared_to_bytes p = Some b) /\
  (parse_owner p scope physical = Ok owner <-> in_u 64 owner /\
   to_bytes (Data scope (SecondaryEntry (EqualityEntry
     {| se_index_id := i; se_generation := g; se_lane := l; se_value := v; se_entity_id := Some owner |}))) = Some physical).
Proof.
  intros Hi Hg Hv Hs Hb E. apply prepare_ok in E as (Hp & <- & <- & <- & <-); [|done..]. split; [eexists; by apply prepared_written|].
  rewrite parse_owner_iff by done. split; intros [Ho H]; (split; [done|]); pose proof (owned_bytes p owner scope Hp Ho) as E; unfold owned in E.
  - by rewrite E, H.
  - rewrite E in H. by injection H as <-.
Qed.
End Digest.

(** ** Samples *)

(** A digest, for the samples. *)
#[local] Instance scan_sha : Sha256.
Proof.
  refine {| sha256 := fun b => replicate 32 (blen b mod 256) |}.
  - intros b. apply length_replicate.
  - intros b. apply Forall_replicate, byte_ok_mod.
Defined.

(** The queue of generation 2 of index 1, of tenant 7. *)
Lemma managed_keys_parse_witness :
  let b := 0xFD :: to_be 16 7 ++ 0x06 :: 0x14 :: to_be 8 1 ++ to_be 8 2 in
  bytes_ok b /\ to_bytes (Data (Tenant 7) (IndexOperationQueue {| oq_index_id := 1; oq_generation := 2 |})) = Some b.
Proof.
  intros b. assert (bytes_ok b) as Hb by (subst b; vm_compute; repeat constructor; discriminate).
  split; [exact Hb|]. destruct (managed_keys_parse b Hb) as (_ & H & _). apply H. vm_compute. reflexivity.
Defined.

(** The pointer to the first page of a text index of tenant 7. *)
Lemma managed_keys_written_witness :
  let key := Global (TextCompactionPointer {| ct_scope := Tenant 7;
    ct_identity := {| family := Text; element_kind := Node; label := [97]; property := [98] |};
    ct_index_id := 1; ct_generation := 2; ct_partition := replicate 32 0; ct_page := 0 |}) in
  key_ok key /\ exists b, to_bytes key = Some b /\ key_encoded_len key = blen b + 1.
Proof.
  intros key. assert (forall c, c = 97 \/ c = 98 -> component_ok [c]) as Hc.
  { intros c [-> | ->]; (split; [split; [by repeat constructor|reflexivity]|done]). }
  assert (key_ok key) as Hk.
  { subst key. cbn [key_ok global_ok]. unfold target_ok. project. split_and!; try done.
    - split; apply Hc; tauto.
    - split; [by repeat constructor|reflexivity]. }
  split; [exact Hk|]. destruct (managed_keys_written key Hk) as (b & E & _ & Hl & _). exists b. split; [exact E|exact Hl].
Defined.

Lemma generation_scan_exact_witness :
  exists e, exclusive_prefix_end_bound (data_prefix (Tenant 7) (generation_prefix KIndexOperationQueue 1 255)) = Some e /\ last e = Some 1.
Proof.
  destruct (generation_scan_exact (Tenant 7) KIndexOperationQueue 1 255) as (e & E & _); [done|done|done|done|].
  exists e. split; [exact E|]. vm_compute in E. injection E as <-. reflexivity.
Defined.

(** The entry of node 9 under the value [true]. *)
Lemma parse_owner_exact_witness :
  let v := {| digest := take 8 (sha256 [1; 1]); canonical := [1; 1] |} in
  exists p physical, secondary_equality_entry_value_prefix 1 2 NodeEquality v = Ok p /\
    to_bytes (Data LegacyUnscoped (SecondaryEntry (EqualityEntry
      {| se_index_id := 1; se_generation := 2; se_lane := NodeEquality; se_value := v; se_entity_id := Some 9 |}))) = Some physical /\
    parse_owner p LegacyUnscoped physical = Ok 9.
Proof.
  intros v. assert (equality_value_ok v) as Hv by (split; [by repeat constructor|split; reflexivity]).
  destruct (secondary_equality_entry_value_prefix 1 2 NodeEquality v) as [p|] eqn:Ep; [|vm_compute in Ep; discriminate Ep].
  destruct (to_bytes (Data LegacyUnscoped (SecondaryEntry (EqualityEntry
      {| se_index_id := 1; se_generation := 2; se_lane := NodeEquality; se_value := v; se_entity_id := Some 9 |})))) as [b|] eqn:Eb;
    [|vm_compute in Eb; discriminate Eb].
  exists p, b. split; [done|]. split; [done|].
  assert (bytes_ok b) as Hb by (vm_compute in Eb; injection Eb as <-; repeat constructor; discriminate).
  assert (in_u 64 9) as Ho by done.
  exact (proj2 (proj2 (parse_owner_exact 1 2 NodeEquality v p LegacyUnscoped b 9 (conj eq_refl eq_refl) (conj eq_refl eq_refl) Hv I Hb Ep))
    (conj Ho Eb)).
Defined.
End ManagedScans.
