(* ===== verification/IndexRecord.v ===== *)
(** Index definitions, physical generations and the lifecycle of index records:
    crates/db/src/index_lifecycle/model.rs.

    A [NonZeroU32] is the [Z] it holds, an [f32] its bit pattern. The runtime
    definitions of the configuration, and the conversions from and to them, are not
    modelled. *)
From S2P Require Import Prelude Bytes RangeValue Cursor IndexIdentity.

Open Scope Z_scope.

Module IndexRecord.
Export IndexIdentity.
Export RangeValue(RangeIndexDirection, Asc, Desc).

(** ** Floats *)

Definition f32_is_finite (bits : Z) : bool := negb (Z.land (Z.shiftr bits 23) 0xFF =? 0xFF).
(** The place of a float that is not NaN among such floats; the zeros share one. *)
Definition f32_place (bits : Z) : Z :=
  let magnitude := Z.land bits 0x7FFFFFFF in if Z.testbit bits 31 then - magnitude else magnitude.
Definition f32_le (a b : Z) : bool := f32_place a <=? f32_place b.
(** The literals [0.0], [1.0], [1e-6] and [0.999_999]. *)
Definition F32_ZERO : Z := 0x00000000.
Definition F32_ONE : Z := 0x3F800000.
Definition F32_1E_6 : Z := 0x358637BD.
Definition F32_0_999_999 : Z := 0x3F7FFFEF.
(** [(low..=high).contains(&value)]. *)
Definition f32_contains (low high value : Z) : bool := f32_le low value && f32_le value high.

(** ** Definitions *)

Inductive ValidatedSecondaryIndexDefinition :=
| NodeEquality (label property : bytes) (unique : bool)
| NodeRange (label property : bytes) (direction : RangeIndexDirection)
| EdgeEquality (label property : bytes)
| EdgeRange (label property : bytes) (direction : RangeIndexDirection).

Definition secondary_identity (self : ValidatedSecondaryIndexDefinition) : IndexIdentity :=
  let '(family, element_kind, label, property) :=
    match self with
    | NodeEquality label property _ => (SecondaryEquality, Node, label, property)
    | NodeRange label property _ => (SecondaryRange, Node, label, property)
    | EdgeEquality label property => (SecondaryEquality, Edge, label, property)
    | EdgeRange label property _ => (SecondaryRange, Edge, label, property)
    end in
  {| family := family; element_kind := element_kind; label := label; property := property |}.

(** [VectorDistanceMetric] of crates/db/src/search/vector, [SIMHASH_BITS] of its simhash. *)
Inductive VectorDistanceMetric := Cosine | Euclidean | Manhattan.
Definition SIMHASH_BITS : Z := 64.

Inductive ActiveVectorCodecV2 := F32V1.
Inductive VectorScoreSemanticV2 := CosineHalfF32V1 | SquaredEuclideanF32V1 | ManhattanF32V1.
Inductive CosineNormPolicyV2 := NotApplicable | RejectZeroScaledL2V1.
Inductive VectorRoutingLayoutV2 := LegacyHnsw | SimHashDirectoryV1.

#[global] Instance VectorDistanceMetric_eq_dec : EqDecision VectorDistanceMetric.
Proof. solve_decision. Defined.
#[global] Instance ActiveVectorCodecV2_eq_dec : EqDecision ActiveVectorCodecV2.
Proof. solve_decision. Defined.
#[global] Instance VectorScoreSemanticV2_eq_dec : EqDecision VectorScoreSemanticV2.
Proof. solve_decision. Defined.
#[global] Instance CosineNormPolicyV2_eq_dec : EqDecision CosineNormPolicyV2.
Proof. solve_decision. Defined.
#[global] Instance VectorRoutingLayoutV2_eq_dec : EqDecision VectorRoutingLayoutV2.
Proof. solve_decision. Defined.

Record ValidatedVectorIndexDefinition := {
  vd_element_kind : IndexElementKind; vd_label : bytes; vd_property : bytes; vd_tenant_property : option bytes;
  vd_dimension : Z; vd_metric : VectorDistanceMetric; vd_codec : ActiveVectorCodecV2; vd_m : Z; vd_m0 : Z;
  vd_ef_construction : Z; vd_ml : Z; vd_simhash_threshold : Z; vd_sampling_ratio : Z; vd_adaptive_enabled : bool;
  vd_adaptive_failure_probability : Z }.

(** [NonZeroU32::new(value).ok_or(...)]. *)
Definition non_zero (field : string) (value : Z) : result IndexV2ModelError Z :=
  if value =? 0 then Err (InvalidVectorSetting field "must be non-zero") else Ok value.

(** The optional tenant property of a definition, transposed. *)
Definition tenant_try_new (tenant_property : option bytes) : result IndexV2ModelError (option bytes) :=
  match tenant_property with
  | None => Ok None
  | Some property => let? property := component_try_new "tenant property" property in Ok (Some property)
  end.

(** [ValidatedVectorIndexDefinition::try_new]. *)
Definition vector_try_new (element_kind : IndexElementKind) (label property : bytes) (tenant_property : option bytes) (dimension : Z)
    (metric : VectorDistanceMetric) (m m0 ef_construction ml simhash_threshold sampling_ratio : Z) (adaptive_enabled : bool)
    (adaptive_failure_probability : Z) : result IndexV2ModelError ValidatedVectorIndexDefinition :=
  let? dimension := non_zero "dimension" dimension in
  let? m := non_zero "m" m in
  let? m0 := non_zero "m0" m0 in
  let? ef_construction := non_zero "ef_construction" ef_construction in
  if negb (f32_is_finite ml) || f32_le ml F32_ZERO then Err (InvalidVectorSetting "ml" "must be finite and positive")
  else if SIMHASH_BITS <? simhash_threshold then Err (InvalidVectorSetting "simhash_threshold" "exceeds SimHash bit width")
  else if negb (f32_is_finite sampling_ratio) || negb (f32_contains F32_ZERO F32_ONE sampling_ratio) then
    Err (InvalidVectorSetting "sampling_ratio" "must be finite and within [0, 1]")
  else if negb (f32_is_finite adaptive_failure_probability)
          || negb (f32_contains F32_1E_6 F32_0_999_999 adaptive_failure_probability) then
    Err (InvalidVectorSetting "adaptive_failure_probability" "must be finite and within [1e-6, 0.999999]")
  else
    let? label := component_try_new "label" label in
    let? property := component_try_new "property" property in
    let? tenant_property := tenant_try_new tenant_property in
    Ok {| vd_element_kind := element_kind; vd_label := label; vd_property := property; vd_tenant_property := tenant_property;
          vd_dimension := dimension; vd_metric := metric; vd_codec := F32V1; vd_m := m; vd_m0 := m0;
          vd_ef_construction := ef_construction; vd_ml := ml; vd_simhash_threshold := simhash_threshold;
          vd_sampling_ratio := sampling_ratio; vd_adaptive_enabled := adaptive_enabled;
          vd_adaptive_failure_probability := adaptive_failure_probability |}.

Definition vector_identity (self : ValidatedVectorIndexDefinition) : IndexIdentity :=
  {| family := Vector; element_kind := vd_element_kind self; label := vd_label self; property := vd_property self |}.

Inductive TextAnalyzerKind := Standard | StandardStemEn | WhitespaceLowercase.

Record ValidatedTextIndexDefinition := {
  td_element_kind : IndexElementKind; td_label : bytes; td_property : bytes; td_tenant_property : option bytes;
  td_analyzer : TextAnalyzerKind; td_positions_enabled : bool }.

(** [ValidatedTextIndexDefinition::try_new]. *)
Definition text_try_new (element_kind : IndexElementKind) (label property : bytes) (tenant_property : option bytes)
    (analyzer : TextAnalyzerKind) (positions_enabled : bool) : result IndexV2ModelError ValidatedTextIndexDefinition :=
  let? label := component_try_new "label" label in
  let? property := component_try_new "property" property in
  let? tenant_property := tenant_try_new tenant_property in
  Ok {| td_element_kind := element_kind; td_label := label; td_property := property; td_tenant_property := tenant_property;
        td_analyzer := analyzer; td_positions_enabled := positions_enabled |}.

Definition text_identity (self : ValidatedTextIndexDefinition) : IndexIdentity :=
  {| family := Text; element_kind := td_element_kind self; label := td_label self; property := td_property self |}.

Inductive ValidatedDynamicIndexDefinition :=
| SecondaryDefinition (definition : ValidatedSecondaryIndexDefinition)
| VectorDefinition (definition : ValidatedVectorIndexDefinition)
| TextDefinition (definition : ValidatedTextIndexDefinition).

(** [ValidatedDynamicIndexDefinition::identity]. *)
Definition definition_identity (self : ValidatedDynamicIndexDefinition) : IndexIdentity :=
  match self with
  | SecondaryDefinition definition => secondary_identity definition
  | VectorDefinition definition => vector_identity definition
  | TextDefinition definition => text_identity definition
  end.

Inductive IndexDefinitionFamily := SecondaryFamily | VectorFamily | TextFamily.

#[global] Instance IndexDefinitionFamily_eq_dec : EqDecision IndexDefinitionFamily.
Proof. solve_decision. Defined.

Definition definition_family (self : ValidatedDynamicIndexDefinition) : IndexDefinitionFamily :=
  match self with
  | SecondaryDefinition _ => SecondaryFamily
  | VectorDefinition _ => VectorFamily
  | TextDefinition _ => TextFamily
  end.

(** ** Physical generations *)

Record VectorGenerationDescriptor := {
  gd_dimension : Z; gd_metric : VectorDistanceMetric; gd_codec : ActiveVectorCodecV2; gd_score_semantic : VectorScoreSemanticV2;
  gd_cosine_norm_policy : CosineNormPolicyV2; gd_routing_layout : VectorRoutingLayoutV2 }.

Definition for_definition (definition : ValidatedVectorIndexDefinition) : VectorGenerationDescriptor :=
  let '(score_semantic, cosine_norm_policy) :=
    match vd_metric definition with
    | Cosine => (CosineHalfF32V1, RejectZeroScaledL2V1)
    | Euclidean => (SquaredEuclideanF32V1, NotApplicable)
    | Manhattan => (ManhattanF32V1, NotApplicable)
    end in
  {| gd_dimension := vd_dimension definition; gd_metric := vd_metric definition; gd_codec := vd_codec definition;
     gd_score_semantic := score_semantic; gd_cosine_norm_policy := cosine_norm_policy; gd_routing_layout := SimHashDirectoryV1 |}.

Definition legacy_for_definition (definition : ValidatedVectorIndexDefinition) : VectorGenerationDescriptor :=
  let base := for_definition definition in
  {| gd_dimension := gd_dimension base; gd_metric := gd_metric base; gd_codec := gd_codec base;
     gd_score_semantic := gd_score_semantic base; gd_cosine_norm_policy := gd_cosine_norm_policy base;
     gd_routing_layout := LegacyHnsw |}.

(** The metric, score and norm policy of a descriptor agree. *)
Definition legal_semantics (metric : VectorDistanceMetric) (score_semantic : VectorScoreSemanticV2) (cosine_norm_policy : CosineNormPolicyV2) : bool :=
  match metric, score_semantic, cosine_norm_policy with
  | Cosine, CosineHalfF32V1, RejectZeroScaledL2V1
  | Euclidean, SquaredEuclideanF32V1, NotApplicable
  | Manhattan, ManhattanF32V1, NotApplicable => true
  | _, _, _ => false
  end.

(** [VectorGenerationDescriptor::try_new_with_routing]. *)
Definition descriptor_try_new (dimension : Z) (metric : VectorDistanceMetric) (codec : ActiveVectorCodecV2)
    (score_semantic : VectorScoreSemanticV2) (cosine_norm_policy : CosineNormPolicyV2) (routing_layout : VectorRoutingLayoutV2)
    : result IndexV2ModelError VectorGenerationDescriptor :=
  let? dimension := non_zero "descriptor dimension" dimension in
  if negb (legal_semantics metric score_semantic cosine_norm_policy) then Err VectorDescriptorMismatch
  else Ok {| gd_dimension := dimension; gd_metric := metric; gd_codec := codec; gd_score_semantic := score_semantic;
             gd_cosine_norm_policy := cosine_norm_policy; gd_routing_layout := routing_layout |}.

Definition matches_definition (self : VectorGenerationDescriptor) (definition : ValidatedVectorIndexDefinition) : bool :=
  let current := for_definition definition in
  (gd_dimension self =? gd_dimension current) && bool_decide (gd_metric self = gd_metric current)
  && bool_decide (gd_codec self = gd_codec current) && bool_decide (gd_score_semantic self = gd_score_semantic current)
  && bool_decide (gd_cosine_norm_policy self = gd_cosine_norm_policy current).

Inductive VectorPhysicalLayout := UnpartitionedLayout (physical_index_id : Z) | PartitionedLayout.

Inductive PhysicalGeneration :=
| SecondaryGeneration (generation : Z)
| VectorGeneration (generation : Z) (layout : VectorPhysicalLayout) (descriptor : VectorGenerationDescriptor)
| TextGeneration (generation : Z).

(** [PhysicalGeneration::generation] and [family]. *)
Definition physical_generation (self : PhysicalGeneration) : Z :=
  match self with
  | SecondaryGeneration generation | VectorGeneration generation _ _ | TextGeneration generation => generation
  end.
Definition physical_family (self : PhysicalGeneration) : IndexDefinitionFamily :=
  match self with
  | SecondaryGeneration _ => SecondaryFamily
  | VectorGeneration _ _ _ => VectorFamily
  | TextGeneration _ => TextFamily
  end.

(** ** States *)

Inductive IndexStateV2 :=
| Building (physical : PhysicalGeneration) (build_operation_id : bytes)
| Active (physical : PhysicalGeneration) (completed_build_operation_id : bytes)
| Aborting (physical : PhysicalGeneration) (build_operation_id : bytes)
| Dropping (physical : PhysicalGeneration) (drop_operation_id : bytes)
| Dropped (last_generation : Z) (completed_operation_id : bytes).

Definition state_name (self : IndexStateV2) : string :=
  match self with
  | Building _ _ => "building"
  | Active _ _ => "active"
  | Aborting _ _ => "aborting"
  | Dropping _ _ => "dropping"
  | Dropped _ _ => "dropped"
  end.

(** [IndexStateV2::generation] and [physical]. *)
Definition state_generation (self : IndexStateV2) : Z :=
  match self with
  | Building physical _ | Active physical _ | Aborting physical _ | Dropping physical _ => physical_generation physical
  | Dropped last_generation _ => last_generation
  end.
Definition state_physical (self : IndexStateV2) : option PhysicalGeneration :=
  match self with
  | Building physical _ | Active physical _ | Aborting physical _ | Dropping physical _ => Some physical
  | Dropped _ _ => None
  end.

Inductive IndexStateTransition :=
| Activate
| PublishSimHashDirectoryV1
| BeginAbort
| CompleteAbort
| BeginDrop (drop_operation_id : bytes)
| CompleteDrop
| Recreate (physical : PhysicalGeneration) (build_operation_id : bytes).

Definition transition_name (self : IndexStateTransition) : string :=
  match self with
  | Activate => "activate"
  | PublishSimHashDirectoryV1 => "publish_simhash_directory_v1"
  | BeginAbort => "begin_abort"
  | CompleteAbort => "complete_abort"
  | BeginDrop _ => "begin_drop"
  | CompleteDrop => "complete_drop"
  | Recreate _ _ => "recreate"
  end.

(** ** Records *)

Record IndexRecordV2 := {
  index_id : Z; identity : IndexIdentity; definition : ValidatedDynamicIndexDefinition; revision : Z; state : IndexStateV2 }.

(** The layout is the one the tenant property asks for. *)
Definition layout_matches (tenant_property : option bytes) (layout : VectorPhysicalLayout) : bool :=
  match tenant_property, layout with
  | None, UnpartitionedLayout _ | Some _, PartitionedLayout => true
  | _, _ => false
  end.

(** [IndexRecordV2::try_new]. *)
Definition record_try_new (index_id : Z) (identity : IndexIdentity) (definition : ValidatedDynamicIndexDefinition) (revision : Z)
    (state : IndexStateV2) : result IndexV2ModelError IndexRecordV2 :=
  let record := {| index_id := index_id; identity := identity; definition := definition; revision := revision; state := state |} in
  if negb (bool_decide (identity = definition_identity definition)) then Err IdentityDefinitionMismatch
  else
    match state_physical state with
    | None => Ok record
    | Some physical =>
        if negb (bool_decide (physical_family physical = definition_family definition)) then Err PhysicalDefinitionMismatch
        else
          match definition, physical with
          | VectorDefinition vector_definition, VectorGeneration _ layout descriptor =>
              if negb (layout_matches (vd_tenant_property vector_definition) layout) then Err VectorLayoutMismatch
              else if negb (matches_definition descriptor vector_definition) then Err VectorDescriptorMismatch
              else Ok record
          | _, _ => Ok record
          end
    end.

(** [IndexRecordV2::building]. *)
Definition building (index_id : Z) (definition : ValidatedDynamicIndexDefinition) (revision : Z) (physical : PhysicalGeneration)
    (build_operation_id : bytes) : result IndexV2ModelError IndexRecordV2 :=
  record_try_new index_id (definition_identity definition) definition revision (Building physical build_operation_id).

(** The match of [transition] on the state and the request. *)
Definition next_state (self : IndexRecordV2) (transition : IndexStateTransition) : result IndexV2ModelError IndexStateV2 :=
  let illegal := Err (IllegalStateTransition (state_name (state self)) (transition_name transition)) in
  match state self, transition with
  | Building physical build_operation_id, Activate => Ok (Active physical build_operation_id)
  | Active (VectorGeneration generation (UnpartitionedLayout physical_index_id) descriptor) completed_build_operation_id,
    PublishSimHashDirectoryV1 =>
      if bool_decide (gd_routing_layout descriptor = LegacyHnsw) then
        match definition self with
        | VectorDefinition definition =>
            Ok (Active (VectorGeneration generation (UnpartitionedLayout physical_index_id) (for_definition definition))
                  completed_build_operation_id)
        | _ => Err PhysicalDefinitionMismatch
        end
      else illegal
  | Building physical build_operation_id, BeginAbort => Ok (Aborting physical build_operation_id)
  | Aborting physical build_operation_id, CompleteAbort => Ok (Dropped (physical_generation physical) build_operation_id)
  | Active physical _, BeginDrop drop_operation_id => Ok (Dropping physical drop_operation_id)
  | Dropping physical drop_operation_id, CompleteDrop => Ok (Dropped (physical_generation physical) drop_operation_id)
  | Dropped last_generation _, Recreate physical build_operation_id =>
      let? next := id_checked_next GENERATION_ID last_generation in
      if physical_generation physical =? next then Ok (Building physical build_operation_id) else illegal
  | _, _ => illegal
  end.

(** [IndexRecordV2::transition]. *)
Definition transition (self : IndexRecordV2) (request : IndexStateTransition) : result IndexV2ModelError IndexRecordV2 :=
  let? next := next_state self request in
  let? revision := id_checked_next INDEX_REVISION (revision self) in
  record_try_new (index_id self) (identity self) (definition self) revision next.
End IndexRecord.
