(* ===== verification/IndexRecordSpec.v ===== *)
(** What index records keep: the transitions that are accepted, the error every other
    request gets, and what no history of transitions can change.

    [step] and [refuses] are relations of their own: when rows describe a definition,
    which rows replace others, the names and the errors are stated here again, not
    taken from the code. *)
From S2P Require Import Prelude Bytes RangeValue Cursor IndexIdentity IndexRecord.

Open Scope Z_scope.

Module IndexRecordSpec.
Export IndexRecord.

(** ** What the types hold *)

Definition u32_ok (value : Z) : Prop := 0 < value < 2 ^ 32.
Definition float_ok (bits : Z) : Prop := in_u 32 bits /\ f32_is_finite bits = true.
Definition tenant_ok (tenant_property : option bytes) : Prop := match tenant_property with Some property => component_ok property | None => True end.

Definition secondary_ok (definition : ValidatedSecondaryIndexDefinition) : Prop := identity_ok (secondary_identity definition).

Record vector_ok (definition : ValidatedVectorIndexDefinition) : Prop := {
  vo_identity : identity_ok (vector_identity definition);
  vo_tenant : tenant_ok (vd_tenant_property definition);
  vo_dimension : u32_ok (vd_dimension definition);
  vo_m : u32_ok (vd_m definition);
  vo_m0 : u32_ok (vd_m0 definition);
  vo_ef : u32_ok (vd_ef_construction definition);
  vo_ml : float_ok (vd_ml definition) /\ f32_le (vd_ml definition) F32_ZERO = false;
  vo_simhash : 0 <= vd_simhash_threshold definition <= SIMHASH_BITS;
  vo_sampling : float_ok (vd_sampling_ratio definition) /\ f32_contains F32_ZERO F32_ONE (vd_sampling_ratio definition) = true;
  vo_adaptive : float_ok (vd_adaptive_failure_probability definition) /\
    f32_contains F32_1E_6 F32_0_999_999 (vd_adaptive_failure_probability definition) = true }.

Definition text_ok (definition : ValidatedTextIndexDefinition) : Prop :=
  identity_ok (text_identity definition) /\ tenant_ok (td_tenant_property definition).

Definition definition_ok (definition : ValidatedDynamicIndexDefinition) : Prop :=
  match definition with
  | SecondaryDefinition definition => secondary_ok definition
  | VectorDefinition definition => vector_ok definition
  | TextDefinition definition => text_ok definition
  end.

(** The score and the norm policy each metric has. *)
Inductive scores : VectorDistanceMetric -> VectorScoreSemanticV2 -> CosineNormPolicyV2 -> Prop :=
| scores_cosine : scores Cosine CosineHalfF32V1 RejectZeroScaledL2V1
| scores_euclidean : scores Euclidean SquaredEuclideanF32V1 NotApplicable
| scores_manhattan : scores Manhattan ManhattanF32V1 NotApplicable.

Definition descriptor_ok (descriptor : VectorGenerationDescriptor) : Prop :=
  u32_ok (gd_dimension descriptor) /\
  scores (gd_metric descriptor) (gd_score_semantic descriptor) (gd_cosine_norm_policy descriptor).

(** The descriptor is one of the definition, whatever its routing. *)
Definition describes (definition : ValidatedVectorIndexDefinition) (descriptor : VectorGenerationDescriptor) : Prop :=
  gd_dimension descriptor = vd_dimension definition /\ gd_metric descriptor = vd_metric definition /\
  gd_codec descriptor = vd_codec definition /\
  scores (vd_metric definition) (gd_score_semantic descriptor) (gd_cosine_norm_policy descriptor).

Definition layout_ok (layout : VectorPhysicalLayout) : Prop :=
  match layout with UnpartitionedLayout physical_index_id => id_ok physical_index_id | PartitionedLayout => True end.

Definition physical_ok (physical : PhysicalGeneration) : Prop :=
  id_ok (physical_generation physical) /\
  match physical with VectorGeneration _ layout descriptor => layout_ok layout /\ descriptor_ok descriptor | _ => True end.

(** The operation a state retains. *)
Definition state_operation (state : IndexStateV2) : bytes :=
  match state with Building _ id | Active _ id | Aborting _ id | Dropping _ id | Dropped _ id => id end.

Definition state_ok (state : IndexStateV2) : Prop :=
  id_ok (state_generation state) /\ uuid_ok (state_operation state) /\
  match state_physical state with Some physical => physical_ok physical | None => True end.

(** The physical rows are those the definition asks for. *)
Definition fits (definition : ValidatedDynamicIndexDefinition) (physical : PhysicalGeneration) : Prop :=
  match definition, physical with
  | SecondaryDefinition _, SecondaryGeneration _ | TextDefinition _, TextGeneration _ => True
  | VectorDefinition definition, VectorGeneration _ layout descriptor =>
      (vd_tenant_property definition = None <-> layout <> PartitionedLayout) /\
      describes definition descriptor
  | _, _ => False
  end.

Record record_ok (record : IndexRecordV2) : Prop := {
  ro_id : id_ok (index_id record);
  ro_definition : definition_ok (definition record);
  ro_revision : id_ok (revision record);
  ro_state : state_ok (state record);
  ro_identity : identity record = definition_identity (definition record);
  ro_fits : forall physical, state_physical (state record) = Some physical -> fits (definition record) physical }.

(** ** Construction *)

Lemma scores_iff metric score norm : legal_semantics metric score norm = true <-> scores metric score norm.
Proof. split; [by destruct metric, score, norm; intros H; try done; constructor|by intros []]. Qed.

Lemma for_definition_describes d : describes d (for_definition d) /\ gd_routing_layout (for_definition d) = SimHashDirectoryV1.
Proof. unfold describes, for_definition. destruct (vd_metric d); cbn; split_and!; try done; constructor. Qed.

(** The routing is all that a definition leaves open. *)
Lemma describes_det d x y : describes d x -> describes d y -> gd_routing_layout x = gd_routing_layout y -> x = y.
Proof.
  destruct x, y. intros (? & ? & ? & Hx) (? & ? & ? & Hy) ?. cbn in *. subst. destruct Hx; by inversion Hy.
Qed.

Lemma matches_iff descriptor definition : matches_definition descriptor definition = true <-> describes definition descriptor.
Proof.
  destruct (for_definition_describes definition) as [(Hd & Hm & Hc & Hs) _]. unfold matches_definition, describes.
  rewrite !andb_true_iff, Z.eqb_eq, !bool_decide_eq_true, Hd, Hm, Hc. split.
  - intros ((((-> & ->) & ->) & ->) & ->). by split_and!.
  - intros (-> & -> & -> & Hs'). destruct Hs; by inversion Hs'.
Qed.

Lemma layout_iff tenant layout : layout_matches tenant layout = true <-> (tenant = None <-> layout <> PartitionedLayout).
Proof.
  destruct tenant, layout; cbn [layout_matches]; (split; [|try done]).
  - done.
  - intros [_ H]. by specialize (H ltac:(done)).
  - intros _. split; [done|]. intros H. by destruct H.
  - by split.
  - done.
  - intros [H _]. by destruct (H eq_refl).
Qed.

(** [try_new] accepts exactly coherent records. *)
Lemma record_try_new_iff i ident def rev st record :
  record_try_new i ident def rev st = Ok record <->
  record = {| index_id := i; identity := ident; definition := def; revision := rev; state := st |} /\ ident = definition_identity def /\
  forall physical, state_physical st = Some physical -> fits def physical.
Proof.
  unfold record_try_new. case_bool_decide as Ei; cbn [negb]; [|by split; [|intros (_ & ? & _)]].
  destruct (state_physical st) as [physical|] eqn:Es; [|by split; [intros [= <-]|intros (-> & _ & _)]].
  enough ((forall p, Some physical = Some p -> fits def p) <-> fits def physical) as Hf.
  2: { split; [intros H; by apply H|by intros ? ? [= <-]]. }
  rewrite Hf. clear Hf. unfold fits. case_bool_decide as Ef; cbn [negb].
  - destruct def as [d|d|d], physical as [g|g layout descriptor|g]; try done; try (split; [by intros [= <-]|by intros (-> & _ & _)]).
    rewrite <- layout_iff, <- matches_iff. destruct (layout_matches _ _); [|by split; [|intros (_ & _ & ? & _)]].
    destruct (matches_definition _ _); [|by split; [|intros (_ & _ & _ & ?)]]. split; [by intros [= <-]|by intros (-> & _ & _)].
  - split; [done|]. intros (_ & _ & H). by destruct def, physical.
Qed.

(** ** Transitions *)

Definition transition_ok (request : IndexStateTransition) : Prop :=
  match request with
  | BeginDrop id => uuid_ok id
  | Recreate physical id => physical_ok physical /\ uuid_ok id
  | _ => True
  end.

(** The generation that rows belong to. *)
Inductive numbered : PhysicalGeneration -> Z -> Prop :=
| numbered_secondary g : numbered (SecondaryGeneration g) g
| numbered_vector g layout descriptor : numbered (VectorGeneration g layout descriptor) g
| numbered_text g : numbered (TextGeneration g) g.

(** A legacy descriptor of the definition, and the one with a SimHash directory. *)
Definition publishes (d : ValidatedVectorIndexDefinition) (x y : VectorGenerationDescriptor) : Prop :=
  describes d x /\ gd_routing_layout x = LegacyHnsw /\ describes d y /\ gd_routing_layout y = SimHashDirectoryV1.

(** The state machine: how a record's state may change. *)
Inductive step (def : ValidatedDynamicIndexDefinition) : IndexStateV2 -> IndexStateTransition -> IndexStateV2 -> Prop :=
| step_activate physical id : step def (Building physical id) Activate (Active physical id)
| step_publish d g n id x y : def = VectorDefinition d -> publishes d x y ->
    step def (Active (VectorGeneration g (UnpartitionedLayout n) x) id) PublishSimHashDirectoryV1
      (Active (VectorGeneration g (UnpartitionedLayout n) y) id)
| step_begin_abort physical id : step def (Building physical id) BeginAbort (Aborting physical id)
| step_complete_abort physical id g : numbered physical g -> step def (Aborting physical id) CompleteAbort (Dropped g id)
| step_begin_drop physical id drop : step def (Active physical id) (BeginDrop drop) (Dropping physical drop)
| step_complete_drop physical id g : numbered physical g -> step def (Dropping physical id) CompleteDrop (Dropped g id)
| step_recreate g id physical build : numbered physical (g + 1) -> fits def physical ->
    step def (Dropped g id) (Recreate physical build) (Building physical build).

Definition is_recreate (request : IndexStateTransition) : bool := match request with Recreate _ _ => true | _ => false end.

(** The names of states and requests in errors. *)
Inductive state_called : IndexStateV2 -> string -> Prop :=
| called_building physical id : state_called (Building physical id) "building"
| called_active physical id : state_called (Active physical id) "active"
| called_aborting physical id : state_called (Aborting physical id) "aborting"
| called_dropping physical id : state_called (Dropping physical id) "dropping"
| called_dropped g id : state_called (Dropped g id) "dropped".
Inductive request_called : IndexStateTransition -> string -> Prop :=
| called_activate : request_called Activate "activate"
| called_publish : request_called PublishSimHashDirectoryV1 "publish_simhash_directory_v1"
| called_begin_abort : request_called BeginAbort "begin_abort"
| called_complete_abort : request_called CompleteAbort "complete_abort"
| called_begin_drop id : request_called (BeginDrop id) "begin_drop"
| called_complete_drop : request_called CompleteDrop "complete_drop"
| called_recreate physical id : request_called (Recreate physical id) "recreate".

(** The rows are of the definition's family, and then of its layout. *)
Inductive same_family : ValidatedDynamicIndexDefinition -> PhysicalGeneration -> Prop :=
| same_secondary d g : same_family (SecondaryDefinition d) (SecondaryGeneration g)
| same_vector d g layout descriptor : same_family (VectorDefinition d) (VectorGeneration g layout descriptor)
| same_text d g : same_family (TextDefinition d) (TextGeneration g).
Inductive same_layout : ValidatedVectorIndexDefinition -> VectorPhysicalLayout -> Prop :=
| same_unpartitioned d n : vd_tenant_property d = None -> same_layout d (UnpartitionedLayout n)
| same_partitioned d property : vd_tenant_property d = Some property -> same_layout d PartitionedLayout.

(** What is wrong with the rows of another generation. *)
Inductive misfit : ValidatedDynamicIndexDefinition -> PhysicalGeneration -> IndexV2ModelError -> Prop :=
| misfit_family def physical : ~ same_family def physical -> misfit def physical PhysicalDefinitionMismatch
| misfit_layout d g layout x : ~ same_layout d layout -> misfit (VectorDefinition d) (VectorGeneration g layout x) VectorLayoutMismatch
| misfit_descriptor d g layout x : same_layout d layout -> ~ describes d x ->
    misfit (VectorDefinition d) (VectorGeneration g layout x) VectorDescriptorMismatch.

(** The error of every request that is refused. *)
Inductive refuses (r : IndexRecordV2) : IndexStateTransition -> IndexV2ModelError -> Prop :=
| refuses_request q from name : (forall physical id, q <> Recreate physical id) -> (forall st, ~ step (definition r) (state r) q st) ->
    state_called (state r) from -> request_called q name -> refuses r q (IllegalStateTransition from name)
| refuses_present physical build from : (forall g id, state r <> Dropped g id) -> state_called (state r) from ->
    refuses r (Recreate physical build) (IllegalStateTransition from "recreate")
| refuses_last_generation g id physical build : state r = Dropped g id -> g = umax 64 ->
    refuses r (Recreate physical build) (IdentifierExhausted "index generation ID")
| refuses_other_generation g id physical n build : state r = Dropped g id -> g < umax 64 -> numbered physical n -> n <> g + 1 ->
    refuses r (Recreate physical build) (IllegalStateTransition "dropped" "recreate")
| refuses_last_revision q st : step (definition r) (state r) q st -> revision r = umax 64 ->
    refuses r q (IdentifierExhausted "index revision")
| refuses_last_recreation g id physical build : state r = Dropped g id -> numbered physical (g + 1) -> revision r = umax 64 ->
    refuses r (Recreate physical build) (IdentifierExhausted "index revision")
| refuses_rows g id physical build e : state r = Dropped g id -> numbered physical (g + 1) -> revision r < umax 64 ->
    misfit (definition r) physical e -> refuses r (Recreate physical build) e.

Lemma numbered_iff physical g : numbered physical g <-> physical_generation physical = g.
Proof. split; [by intros []|intros <-; destruct physical; constructor]. Qed.

Lemma state_called_iff st name : state_called st name <-> state_name st = name.
Proof. split; [by intros []|intros <-; destruct st; constructor]. Qed.

Lemma request_called_iff q name : request_called q name <-> transition_name q = name.
Proof. split; [by intros []|intros <-; destruct q; constructor]. Qed.

Lemma same_family_iff def physical : same_family def physical <-> physical_family physical = definition_family def.
Proof. split; [by intros []|destruct def, physical; try done; constructor]. Qed.

Lemma same_layout_iff d layout : same_layout d layout <-> layout_matches (vd_tenant_property d) layout = true.
Proof.
  split; [by intros [? ? E|? ? E]; rewrite E|]. destruct layout; destruct (vd_tenant_property d) as [property|] eqn:E; try done; intros _; [by constructor|].
  by apply (same_partitioned d property).
Qed.

Lemma publishes_legacy d x : describes d x -> gd_routing_layout x = LegacyHnsw -> publishes d x (for_definition d).
Proof. intros Hx Er. by destruct (for_definition_describes d). Qed.

Lemma publishes_current d x y : publishes d x y -> y = for_definition d.
Proof. intros (_ & _ & Hy & Er). destruct (for_definition_describes d) as [Hd Ed]. apply (describes_det d); congruence. Qed.

(** But for a recreation, the code and the state machine agree on any valid record. *)
Lemma next_state_iff record request next : record_ok record -> is_recreate request = false ->
  next_state record request = Ok next <-> step (definition record) (state record) request next.
Proof.
  intros Hr Hq. pose proof (ro_fits _ Hr) as Hf. unfold next_state. split.
  - intros H. destruct (state record) as [p id|p id|p id|p id|g id], request as [| | | |drop| |p' id']; try done;
      try (injection H as <-; by constructor); try (injection H as <-; constructor; by apply numbered_iff);
      try (destruct p as [?|? [|] ?|?]; try done; injection H as <-; by constructor).
    destruct p as [?|g [n|] descriptor|?]; try done. case_bool_decide as Er; [|done].
    destruct (definition record) as [?|d|?] eqn:Ed; try done. injection H as <-. destruct (Hf _ eq_refl) as [_ Hd].
    apply (step_publish _ d); [done|by apply publishes_legacy].
  - destruct record as [i ident def rev st]. cbn [definition state] in *. clear Hr. intros H.
    destruct H as [p id|d g n id x y -> Hp|p id|p id g Hn|p id drop|p id g Hn|]; try done.
    + rewrite bool_decide_eq_true_2 by apply Hp. by rewrite (publishes_current d x y Hp).
    + by apply numbered_iff in Hn as ->.
    + by destruct p as [?|? [|] ?|?].
    + by apply numbered_iff in Hn as ->.
Qed.

(** A recreation needs a removed generation, and the number after it. *)
Lemma next_recreated record g id physical build : state record = Dropped g id -> id_ok g -> physical_ok physical ->
  next_state record (Recreate physical build) =
    if umax 64 <=? g then Err (IdentifierExhausted "index generation ID")
    else if physical_generation physical =? g + 1 then Ok (Building physical build)
    else Err (IllegalStateTransition "dropped" "recreate").
Proof.
  intros Es Hg [Hp _]. unfold next_state. rewrite Es. unfold id_checked_next, checked_add, id_new. unfold id_ok in *.
  destruct (Z.leb_spec (g + 1) (umax 64)), (Z.leb_spec (umax 64) g); try lia; [|done]. by rewrite (proj2 (Z.eqb_neq (g + 1) 0)) by lia.
Qed.

Lemma step_recreate_iff def g id physical build st :
  step def (Dropped g id) (Recreate physical build) st <->
  st = Building physical build /\ physical_generation physical = g + 1 /\ fits def physical.
Proof. rewrite <- numbered_iff. split; [intros H; inversion H; subst; by split_and!|intros (-> & ? & ?); by constructor]. Qed.

Lemma step_ok def st request st' : definition_ok def -> (forall physical, state_physical st = Some physical -> fits def physical) ->
  state_ok st -> transition_ok request -> step def st request st' ->
  state_ok st' /\ (forall physical, state_physical st' = Some physical -> fits def physical).
Proof.
  intros Hd Hf (Hg & Ho & Hp) Hq H. revert Hf Hg Ho Hp Hq.
  destruct H as [p id|d g n id x y -> Hpub|p id|p id g Hn%numbered_iff|p id drop|p id g Hn%numbered_iff|g id p build Eg Hfit];
    intros Hf Hg Ho Hp Hq; cbn in Hg, Ho, Hp; split; try (intros ? [= <-]; by apply Hf); try done; try (by subst).
  - assert (descriptor_ok y) as Hy by (destruct Hpub as (_ & _ & (E1 & E2 & _ & E4) & _); split; [rewrite E1; apply (vo_dimension _ Hd)|by rewrite E2]).
    destruct Hp as (Hp1 & Hp2 & _). by split_and!.
  - intros ? [= <-]. destruct (Hf _ eq_refl) as [Hl _]. split; [done|apply Hpub].
  - destruct Hq as [Hq1 Hq2]. split; [apply Hq1|by split].
  - by intros ? [= <-].
Qed.

Lemma next_fits record request next : record_ok record -> transition_ok request ->
  step (definition record) (state record) request next -> forall physical, state_physical next = Some physical -> fits (definition record) physical.
Proof.
  intros Hr Hq Hs. by eapply (step_ok _ _ _ _ (ro_definition _ Hr) (ro_fits _ Hr) (ro_state _ Hr) Hq).
Qed.

Lemma next_state_step record request next : record_ok record -> transition_ok request ->
  step (definition record) (state record) request next -> next_state record request = Ok next.
Proof.
  intros Hr Hq Hs. destruct (is_recreate request) eqn:E; [|by apply next_state_iff]. destruct request as [| | | | | |p build]; try done.
  destruct (ro_state _ Hr) as [Hg _]. destruct (state record) as [| | | |g id] eqn:Es; try by inversion Hs.
  apply step_recreate_iff in Hs as (-> & Hp & _). rewrite (next_recreated record g id) by (done || apply Hq).
  destruct Hq as [[Hpg _] _]. rewrite Hp in *. unfold id_ok in Hpg. rewrite Z.eqb_refl. destruct (Z.leb_spec (umax 64) g); [unfold umax in *; lia|done].
Qed.

Lemma step_next_state record request next : record_ok record -> transition_ok request -> next_state record request = Ok next ->
  (forall physical, state_physical next = Some physical -> fits (definition record) physical) ->
  step (definition record) (state record) request next.
Proof.
  intros Hr Hq H Hn. destruct (is_recreate request) eqn:E; [|by apply next_state_iff]. destruct request as [| | | | | |p build]; try done.
  destruct (ro_state _ Hr) as [Hg _]. destruct (state record) as [?|?|?|?|g id] eqn:Es; try (unfold next_state in H; rewrite Es in H; try done; by repeat case_match).
  rewrite (next_recreated record g id) in H by (done || apply Hq). destruct (_ <=? _); [done|].
  destruct (Z.eqb_spec (physical_generation p) (g + 1)); [|done]. injection H as <-. apply step_recreate_iff. split_and!; try done. by apply Hn.
Qed.

(** A request is accepted exactly when the state machine allows it and a revision is left. *)
Lemma transition_iff record request record' : record_ok record -> transition_ok request ->
  transition record request = Ok record' <->
  exists st', step (definition record) (state record) request st' /\ revision record < umax 64 /\
    record' = {| index_id := index_id record; identity := identity record; definition := definition record;
                 revision := revision record + 1; state := st' |}.
Proof.
  intros Hr Hq. unfold transition. split.
  - intros H. apply result_bind_ok in H as (next & En & H). apply result_bind_ok in H as (rev & Er & H).
    apply id_next_ok in Er as [Hlt ->]; [|apply (ro_revision _ Hr)]. apply record_try_new_iff in H as (-> & _ & Hf).
    exists next. split_and!; [by apply step_next_state|done|done].
  - intros (next & Hs & Hlt & ->). rewrite (next_state_step record request next) by done. cbn [result_bind].
    rewrite (proj2 (id_next_ok INDEX_REVISION _ (revision record + 1) (ro_revision _ Hr))) by done. cbn [result_bind].
    apply record_try_new_iff. split_and!; [done|apply (ro_identity _ Hr)|by apply (next_fits record request next)].
Qed.

Lemma transition_keeps record request record' : record_ok record -> transition_ok request -> transition record request = Ok record' -> record_ok record'.
Proof.
  intros Hr Hq (next & Hs & Hlt & ->)%transition_iff; [|done..].
  apply (step_ok _ _ _ _ (ro_definition _ Hr) (ro_fits _ Hr) (ro_state _ Hr) Hq) in Hs as [Hst Hf].
  split; cbn; try done; try apply Hr. destruct (ro_revision _ Hr). unfold id_ok, umax in *. lia.
Qed.

(** ** Histories *)

(** The requests applied in turn. *)
Fixpoint history (record : IndexRecordV2) (requests : list IndexStateTransition) : result IndexV2ModelError IndexRecordV2 :=
  match requests with
  | [] => Ok record
  | request :: requests => let? record := transition record request in history record requests
  end.

Definition recreations (requests : list IndexStateTransition) : Z := len (List.filter is_recreate requests).

(** How far a state is in the life of its generation. *)
Definition phase (state : IndexStateV2) : Z :=
  match state with Building _ _ => 0 | Active _ _ | Aborting _ _ => 1 | Dropping _ _ => 2 | Dropped _ _ => 3 end.

Lemma step_generation def st request st' : step def st request st' ->
  state_generation st' = state_generation st + (if is_recreate request then 1 else 0).
Proof. intros H. destruct H; repeat match goal with E : numbered _ _ |- _ => apply numbered_iff in E end; cbn; lia. Qed.

Lemma step_phase def st request st' : step def st request st' ->
  is_recreate request = true \/ phase st < phase st' \/
  exists d g n id x y, def = VectorDefinition d /\ request = PublishSimHashDirectoryV1 /\ publishes d x y /\
    st = Active (VectorGeneration g (UnpartitionedLayout n) x) id /\ st' = Active (VectorGeneration g (UnpartitionedLayout n) y) id.
Proof. intros H. destruct H; cbn; auto with lia. right. right. by do 6 eexists. Qed.

Lemma history_step record request requests last : record_ok record -> Forall transition_ok (request :: requests) ->
  history record (request :: requests) = Ok last ->
  exists record', step (definition record) (state record) request (state record') /\ record_ok record' /\
    Forall transition_ok requests /\ history record' requests = Ok last /\
    index_id record' = index_id record /\ identity record' = identity record /\ definition record' = definition record /\
    revision record' = revision record + 1.
Proof.
  intros Hr Hq H. inversion Hq as [|? ? Hq1 Hqs]; subst. cbn [history] in H. apply result_bind_ok in H as (record' & E & H).
  pose proof (transition_keeps _ _ _ Hr Hq1 E) as Hr'. apply transition_iff in E as (st' & Hs & _ & ->); [|done..].
  eexists {| state := st' |}. split; [exact Hs|]. split; [exact Hr'|]. by split_and!.
Qed.

Lemma history_generation record requests last : record_ok record -> Forall transition_ok requests -> history record requests = Ok last ->
  state_generation (state last) = state_generation (state record) + recreations requests.
Proof.
  revert record. induction requests as [|q qs IH]; intros record Hr Hq H.
  - injection H as <-. change (recreations []) with 0. lia.
  - apply history_step in H as (r' & Hs & Hr' & Hqs & H & _); [|done..]. rewrite (IH r' Hr' Hqs H). apply step_generation in Hs. rewrite Hs.
    unfold recreations, len. cbn [List.filter]. destruct (is_recreate q); cbn [length]; lia.
Qed.

Lemma recreations_nonneg requests : 0 <= recreations requests.
Proof. unfold recreations, len. lia. Qed.

(** Once past building, a generation that is not active never is again. *)
Lemma history_phase record requests last : record_ok record -> Forall transition_ok requests -> history record requests = Ok last ->
  state_generation (state last) = state_generation (state record) -> phase (state record) <= phase (state last).
Proof.
  revert record. induction requests as [|q qs IH]; intros record Hr Hq H Hg.
  - injection H as <-. lia.
  - apply history_step in H as (r' & Hs & Hr' & Hqs & H & _); [|done..].
    pose proof (history_generation r' qs last Hr' Hqs H) as Hg'. pose proof (recreations_nonneg qs) as Hn.
    pose proof (step_generation _ _ _ _ Hs) as Hsg. apply step_phase in Hs as [Hq'|Hs].
    + rewrite Hq' in Hsg. lia.
    + assert (state_generation (state r') = state_generation (state record)) as Hsame by (destruct (is_recreate q); lia).
      specialize (IH r' Hr' Hqs H ltac:(lia)). destruct Hs as [Hs|(d & g & n & id & x & y & _ & _ & _ & Es & Es')]; [lia|]. rewrite Es, Es' in *. cbn in *. lia.
Qed.

(** The only change a visible generation may see. *)
Definition republished (def : ValidatedDynamicIndexDefinition) (p p' : PhysicalGeneration) : Prop :=
  exists d g n x y, def = VectorDefinition d /\ publishes d x y /\ p = VectorGeneration g (UnpartitionedLayout n) x /\
    p' = VectorGeneration g (UnpartitionedLayout n) y.

(** What may follow a state past building if the same generation is visible in the end. *)
Lemma visible_after record request requests last p' id' : record_ok record -> Forall transition_ok (request :: requests) ->
  history record (request :: requests) = Ok last -> state last = Active p' id' ->
  state_generation (state last) = state_generation (state record) -> 1 <= phase (state record) ->
  exists p id record' pub, state record = Active p id /\ request = PublishSimHashDirectoryV1 /\ state record' = Active pub id /\
    republished (definition record) p pub /\ record_ok record' /\ Forall transition_ok requests /\ history record' requests = Ok last /\
    definition record' = definition record /\ state_generation (state record') = state_generation (state record).
Proof.
  intros Hr Hq H El Hg Hp. apply history_step in H as (r' & Hs & Hr' & Hqs & H & _ & _ & Ed & _); [|done..].
  pose proof (history_generation r' requests last Hr' Hqs H) as Hg'. pose proof (recreations_nonneg requests) as Hn.
  pose proof (step_generation _ _ _ _ Hs) as Hsg. apply step_phase in Hs as [Hq'|[Hs|(d & g & n & id & x & y & Edef & -> & Hpub & Es & Es')]].
  - rewrite Hq' in Hsg. lia.
  - exfalso. assert (state_generation (state last) = state_generation (state r')) as Hsame by (destruct (is_recreate request); lia).
    pose proof (history_phase r' requests last Hr' Hqs H Hsame) as Hph. rewrite El in Hph. cbn [phase] in Hph. lia.
  - exists (VectorGeneration g (UnpartitionedLayout n) x), id, r', (VectorGeneration g (UnpartitionedLayout n) y).
    split_and!; try done; [by exists d, g, n, x, y|]. cbn [is_recreate] in Hsg. lia.
Qed.

Lemma visible_iff record requests last p' id' : record_ok record -> Forall transition_ok requests -> history record requests = Ok last ->
  state last = Active p' id' -> state_generation (state last) = state_generation (state record) ->
  match state record with
  | Building _ _ => True
  | Active p id => id' = id /\ (requests = [] /\ p' = p \/ requests = [PublishSimHashDirectoryV1] /\ republished (definition record) p p')
  | Aborting _ _ | Dropping _ _ | Dropped _ _ => False
  end.
Proof.
  intros Hr Hq H El Hg. destruct (Z.leb_spec 1 (phase (state record))) as [Hp|Hp]; [|by destruct (state record)].
  destruct requests as [|q qs].
  - injection H as <-. rewrite El. split; [done|by left].
  - destruct (visible_after record q qs last p' id') as (p & id & r' & pub & Es & -> & Es' & Hpub & Hr' & Hqs & H' & Ed & Hg'); [done..|].
    rewrite Es. destruct qs as [|q' qs].
    + injection H' as <-. rewrite El in Es'. injection Es' as -> ->. split; [done|by right].
    + destruct (visible_after r' q' qs last p' id') as (p2 & id2 & _ & pub2 & Es2 & _ & _ & Hpub2 & _); [done..|by rewrite Hg, Hg'|by rewrite Es'|].
      rewrite Es' in Es2. injection Es2 as <- <-. destruct Hpub as (d & g & n & x & y & Ed1 & (_ & _ & _ & Ey) & _ & ->), Hpub2 as (d2 & g2 & n2 & x2 & y2 & Ed2 & (_ & Ex & _) & Ep & _).
      injection Ep as _ _ Ep. by rewrite <- Ep, Ey in Ex.
Qed.

(** ** Refusals *)

Lemma fits_or_misfit def physical : fits def physical \/ exists e, misfit def physical e.
Proof.
  destruct (decide (physical_family physical = definition_family def)) as [E|E].
  2: { right. eexists. apply misfit_family. by rewrite same_family_iff. }
  destruct def as [d|d|d], physical as [g|g layout x|g]; try done; try by left.
  destruct (layout_matches (vd_tenant_property d) layout) eqn:El.
  2: { right. eexists. apply misfit_layout. rewrite same_layout_iff. congruence. }
  destruct (matches_definition x d) eqn:Ex.
  - left. split; [by apply layout_iff|by apply matches_iff].
  - right. eexists. apply misfit_descriptor; [by apply same_layout_iff|]. rewrite <- matches_iff. congruence.
Qed.

Lemma misfit_refused i def rev physical build e : misfit def physical e ->
  record_try_new i (definition_identity def) def rev (Building physical build) = Err e.
Proof.
  unfold record_try_new. rewrite bool_decide_eq_true_2 by done. cbn [negb state_physical].
  intros [? ? H|? ? ? ? H|? ? ? ? Hl H]; cbn [physical_family definition_family].
  - by rewrite same_family_iff in H; rewrite bool_decide_eq_false_2.
  - rewrite same_layout_iff in H. by destruct (layout_matches _ _).
  - rewrite same_layout_iff in Hl. rewrite <- matches_iff in H. rewrite Hl. by destruct (matches_definition _ _).
Qed.

Lemma transition_last record request next : next_state record request = Ok next -> revision record = umax 64 ->
  transition record request = Err (IdentifierExhausted "index revision").
Proof. intros E Hr. unfold transition. rewrite E. cbn [result_bind]. by rewrite Hr. Qed.

(** The only error of the match on state and request, but for recreations. *)
Lemma next_state_illegal record request e : record_ok record -> is_recreate request = false -> next_state record request = Err e ->
  e = IllegalStateTransition (state_name (state record)) (transition_name request).
Proof.
  intros Hr Hq H. unfold next_state in H. pose proof (ro_fits _ Hr) as Hf.
  destruct (state record) as [p id|p id|p id|p id|g id], request; try done; try (by injection H as <-).
  all: destruct p as [?|g [n|] descriptor|?]; try done; try (by injection H as <-).
  case_bool_decide; [|by injection H as <-]. specialize (Hf _ eq_refl). by destruct (definition record) as [?|d|?].
Qed.

Lemma refuses_sound record request e : record_ok record -> transition_ok request -> refuses record request e -> transition record request = Err e.
Proof.
  intros Hr Hq H. destruct (ro_state _ Hr) as [Hg _].
  destruct H as [q from name Hnot Hno <-%state_called_iff <-%request_called_iff|p b from Hs <-%state_called_iff|g id p b Es ->|g id p n b Es Hlt <-%numbered_iff Hn
    |q st Hs Hv|g id p b Es Hn%numbered_iff Hv|g id p b e Es Hn%numbered_iff Hv Hm].
  - assert (is_recreate q = false) as Eq by (destruct q; try done; by edestruct Hnot).
    destruct (next_state record q) as [next|e] eqn:E; [by apply next_state_iff, Hno in E|].
    unfold transition. rewrite E. cbn [result_bind]. f_equal. by apply next_state_illegal.
  - unfold transition, next_state. destruct (state record) as [?|[?|? [|] ?|?]|?|?|g id]; try done. by destruct (Hs g id).
  - unfold transition. rewrite Es in Hg. rewrite (next_recreated record _ id) by (done || apply Hq). by rewrite Z.leb_refl.
  - unfold transition. rewrite Es in Hg. rewrite (next_recreated record g id) by (done || apply Hq).
    by rewrite (proj2 (Z.leb_gt _ _)), (proj2 (Z.eqb_neq _ _)) by lia.
  - apply (transition_last _ _ st); [by apply next_state_step|done].
  - rewrite Es in Hg. apply (transition_last _ _ (Building p b)); [|done]. rewrite (next_recreated record g id), Hn, Z.eqb_refl by (done || apply Hq).
    destruct Hq as [[Hpg _] _]. rewrite Hn in Hpg. unfold id_ok in Hpg. destruct (Z.leb_spec (umax 64) g); [unfold umax in *; lia|done].
  - rewrite Es in Hg. unfold transition. rewrite (next_recreated record g id), Hn, Z.eqb_refl by (done || apply Hq).
    destruct Hq as [[Hpg _] _]. rewrite Hn in Hpg. unfold id_ok in Hpg. destruct (Z.leb_spec (umax 64) g); [unfold umax in *; lia|]. cbn [result_bind].
    rewrite (proj2 (id_next_ok INDEX_REVISION _ (revision record + 1) (ro_revision _ Hr))) by done. cbn [result_bind].
    rewrite (ro_identity _ Hr). by apply misfit_refused.
Qed.

(** Every request is accepted or refused. *)
Lemma accepted_or_refused record request : record_ok record -> transition_ok request ->
  (exists record', transition record request = Ok record') \/ exists e, refuses record request e.
Proof.
  intros Hr Hq. pose proof (ro_revision _ Hr) as Hv. unfold id_ok in Hv.
  assert (revision record < umax 64 \/ revision record = umax 64) as Hrev by (unfold umax; lia).
  assert (forall st, step (definition record) (state record) request st ->
    (exists record', transition record request = Ok record') \/ exists e, refuses record request e) as Hstep.
  { intros st Hs. destruct Hrev as [Hlt|E]; [left; eexists; apply transition_iff; [done|done|by exists st]|].
    right. eexists. by apply (refuses_last_revision _ _ st). }
  destruct (is_recreate request) eqn:Eq.
  - destruct request as [| | | | | |p b]; try done. destruct Hq as [[Hp Hp'] Hb]. unfold id_ok in Hp.
    destruct (state record) as [?|?|?|?|g id] eqn:Es; try (right; eexists; apply refuses_present; [by rewrite Es|by apply state_called_iff]).
    destruct (ro_state _ Hr) as [Hg _]. rewrite Es in Hg. unfold id_ok in Hg. cbn in Hg.
    destruct (decide (g = umax 64)) as [E|E]; [right; eexists; by eapply refuses_last_generation|].
    destruct (decide (physical_generation p = g + 1)) as [En|En].
    2: { right. eexists. eapply refuses_other_generation; [done| |by apply numbered_iff|done]. unfold umax in *. lia. }
    destruct (fits_or_misfit (definition record) p) as [Hf|[e He]].
    + apply (Hstep (Building p b)). constructor; [by apply numbered_iff|done].
    + right. apply numbered_iff in En. destruct Hrev as [Hlt|Ev]; eexists; [by eapply refuses_rows|by eapply refuses_last_recreation].
  - destruct (next_state record request) as [st|e] eqn:E.
    + apply (Hstep st). by apply next_state_iff.
    + right. eexists. eapply refuses_request; [|intros st Hs; apply next_state_iff in Hs; [congruence|done..]|by apply state_called_iff|by apply request_called_iff].
      by intros p b ->.
Qed.

(** [C12] A transition is accepted exactly when the state machine has the step and a revision is left; it then changes
    nothing but the state and the revision, and keeps the record valid. Every other request is refused, recreations and
    exhausted identifiers included, with exactly the error [refuses] gives it: the names of state and request where
    the machine has no such step, the identifier that is exhausted, or what is wrong with the recreated rows. *)
Theorem index_record_transitions (record : IndexRecordV2) (request : IndexStateTransition) : record_ok record -> transition_ok request ->
  (forall record', transition record request = Ok record' <->
    exists st', step (definition record) (state record) request st' /\ revision record < umax 64 /\
      record' = {| index_id := index_id record; identity := identity record; definition := definition record;
                   revision := revision record + 1; state := st' |}) /\
  (forall record', transition record request = Ok record' -> record_ok record') /\
  (forall e, transition record request = Err e <-> refuses record request e).
Proof.
  intros Hr Hq. split; [|split].
  - intros record'. by apply transition_iff.
  - intros record'. by apply transition_keeps.
  - intros e. split; [|by apply refuses_sound]. intros E.
    destruct (accepted_or_refused record request Hr Hq) as [[record' E']|[e' He]]; [by rewrite E in E'|].
    pose proof (refuses_sound record request e' Hr Hq He) as E'. rewrite E in E'. by injection E' as ->.
Qed.

Lemma history_keeps record requests last : record_ok record -> Forall transition_ok requests -> history record requests = Ok last ->
  record_ok last /\ index_id last = index_id record /\ identity last = identity record /\ definition last = definition record /\
  revision last = revision record + len requests.
Proof.
  intros Hr Hq. revert record Hr. induction requests as [|q qs IH]; intros record Hr H.
  - injection H as <-. unfold len. cbn. split_and!; (done || lia).
  - apply history_step in H as (r' & _ & Hr' & Hqs & H & Ei & Eid & Ed & Er); [|done..].
    destruct (IH Hqs r' Hr' H) as (? & Hi' & Hid' & Hd' & Hrev). unfold len in *. cbn [length]. split_and!; try congruence. lia.
Qed.

Lemma advance record request st : record_ok record -> transition_ok request -> step (definition record) (state record) request st ->
  revision record < umax 64 ->
  exists next, transition record request = Ok next /\ record_ok next /\ state next = st /\ revision next = revision record + 1 /\
    definition next = definition record.
Proof.
  intros Hr Hq Hs Hlt. eexists. assert (transition record request = Ok {| index_id := index_id record; identity := identity record;
    definition := definition record; revision := revision record + 1; state := st |}) as E by (apply transition_iff; [done|done|by eexists]).
  split; [exact E|]. split; [by apply (transition_keeps _ _ _ Hr Hq E)|done].
Qed.

Lemma advance_last record request g id : record_ok record -> transition_ok request ->
  step (definition record) (state record) request (Dropped g id) -> revision record < umax 64 ->
  exists last, history record [request] = Ok last /\ state last = Dropped g id.
Proof.
  intros Hr Hq Hs Hlt. destruct (advance record request _ Hr Hq Hs Hlt) as (next & E & _ & Es & _). exists next.
  cbn [history]. by rewrite E.
Qed.

(** Requests that remove the index. *)
Definition removal (record : IndexRecordV2) (drop : bytes) : list IndexStateTransition :=
  match state record with
  | Building _ _ => [BeginAbort; CompleteAbort]
  | Active _ _ => [BeginDrop drop; CompleteDrop]
  | Aborting _ _ => [CompleteAbort]
  | Dropping _ _ => [CompleteDrop]
  | Dropped _ _ => []
  end.

Lemma removal_ok record drop : uuid_ok drop -> Forall transition_ok (removal record drop) /\ len (removal record drop) <= 2.
Proof. intros Hd. unfold removal. destruct (state record); split; try done; by repeat (apply Forall_cons; split). Qed.

Lemma removed record drop : record_ok record -> uuid_ok drop -> revision record + 2 <= umax 64 ->
  exists last id, history record (removal record drop) = Ok last /\ state last = Dropped (state_generation (state record)) id.
Proof.
  intros Hr Hd Hrev. unfold removal. destruct (state record) as [p id|p id|p id|p id|g id] eqn:Es.
  - destruct (advance record BeginAbort (Aborting p id)) as (r & E & Hr' & Es' & Ev & _); [done|done|rewrite Es; by constructor; try apply numbered_iff|lia|].
    destruct (advance_last r CompleteAbort (physical_generation p) id) as (last & E' & El); [done|done|rewrite Es'; by constructor; try apply numbered_iff|lia|].
    exists last, id. split; [|done]. cbn [history]. rewrite E. exact E'.
  - destruct (advance record (BeginDrop drop) (Dropping p drop)) as (r & E & Hr' & Es' & Ev & _); [done|done|rewrite Es; by constructor; try apply numbered_iff|lia|].
    destruct (advance_last r CompleteDrop (physical_generation p) drop) as (last & E' & El); [done|done|rewrite Es'; by constructor; try apply numbered_iff|lia|].
    exists last, drop. split; [|done]. cbn [history]. rewrite E. exact E'.
  - destruct (advance_last record CompleteAbort (physical_generation p) id) as (last & E' & El); [done|done|rewrite Es; by constructor; try apply numbered_iff|lia|].
    by exists last, id.
  - destruct (advance_last record CompleteDrop (physical_generation p) id) as (last & E' & El); [done|done|rewrite Es; by constructor; try apply numbered_iff|lia|].
    by exists last, id.
  - by exists record, id.
Qed.

(** [C13] No history of transitions changes what an index is: the record stays valid, its identifier, identity and
    definition stay the same, each transition takes one revision and each recreation one generation; and a generation
    is published once: where it is visible in the end it was being built, or visible all along under the same build,
    with nothing changed but the routing of a legacy vector generation. *)
Theorem index_record_history (record last : IndexRecordV2) (requests : list IndexStateTransition) :
  record_ok record -> Forall transition_ok requests -> history record requests = Ok last ->
  record_ok last /\ index_id last = index_id record /\ identity last = identity record /\ definition last = definition record /\
  revision last = revision record + len requests /\
  state_generation (state last) = state_generation (state record) + recreations requests /\
  forall p' id', state last = Active p' id' -> state_generation (state last) = state_generation (state record) ->
    match state record with
    | Building _ _ => True
    | Active p id => id' = id /\ (requests = [] /\ p' = p \/ requests = [PublishSimHashDirectoryV1] /\ republished (definition record) p p')
    | Aborting _ _ | Dropping _ _ | Dropped _ _ => False
    end.
Proof.
  intros Hr Hq H. destruct (history_keeps record requests last Hr Hq H) as (H1 & H2 & H3 & H4 & H5).
  split_and!; try done; [by apply history_generation|]. intros p' id' El Hg. by apply (visible_iff record requests last).
Qed.

(** No record is stuck: from every valid one with revisions left, at most two transitions lead to its removal,
    and one more to the building of the next generation, if there is one. *)
Theorem index_record_removable (record : IndexRecordV2) (drop : bytes) : record_ok record -> uuid_ok drop -> revision record + 3 <= umax 64 ->
  exists requests last id, Forall transition_ok requests /\ len requests <= 2 /\ history record requests = Ok last /\
    state last = Dropped (state_generation (state record)) id /\
    forall physical build, physical_ok physical -> uuid_ok build -> fits (definition record) physical ->
      physical_generation physical = state_generation (state record) + 1 ->
      exists next, transition last (Recreate physical build) = Ok next /\ state next = Building physical build.
Proof.
  intros Hr Hd Hrev. destruct (removal_ok record drop Hd) as [Hq Hl]. destruct (removed record drop Hr Hd) as (last & id & H & El); [lia|].
  exists (removal record drop), last, id. split_and!; try done. intros physical build Hp Hb Hf Hg.
  destruct (history_keeps record _ last Hr Hq H) as (Hok & _ & _ & Ed & Hv).
  destruct (advance last (Recreate physical build) (Building physical build)) as (next & E & _ & Es & _); [done|by split| |lia|by exists next].
  rewrite El, Ed. constructor; [by apply numbered_iff|done].
Qed.

(** ** Samples *)

Definition sample_operation : bytes := replicate 16 1.

(** The index of the vectors [p] of the nodes [d], of three dimensions, active with rows of the older layout. *)
Definition sample_vector : ValidatedVectorIndexDefinition :=
  {| vd_element_kind := Node; vd_label := [100]; vd_property := [112]; vd_tenant_property := None; vd_dimension := 3; vd_metric := Cosine;
     vd_codec := F32V1; vd_m := 16; vd_m0 := 32; vd_ef_construction := 64; vd_ml := 0x3F000000; vd_simhash_threshold := 4;
     vd_sampling_ratio := 0x3F000000; vd_adaptive_enabled := false; vd_adaptive_failure_probability := 0x3F000000 |}.

Definition sample_record : IndexRecordV2 :=
  {| index_id := 1; identity := vector_identity sample_vector; definition := VectorDefinition sample_vector; revision := 1;
     state := Active (VectorGeneration 1 (UnpartitionedLayout 9) (legacy_for_definition sample_vector)) sample_operation |}.

Lemma sample_operation_uuid : uuid_ok sample_operation.
Proof. split_and!; [by repeat constructor|done|done]. Qed.

Lemma sample_record_ok : record_ok sample_record.
Proof.
  assert (forall c, c = 100 \/ c = 112 -> component_ok [c]) as Hc.
  { intros c [-> | ->]; (split; [split; [by repeat constructor|reflexivity]|done]). }
  split; try done.
  - split; try done; try (split; apply Hc; tauto); try (split; [split; done|reflexivity]).
  - split_and!; [done|apply sample_operation_uuid|split; [done|split; [done|split; [done|constructor]]]].
  - intros p [= <-]. split; [done|]. split_and!; try done. constructor.
Qed.

Lemma index_record_transitions_witness :
  record_ok sample_record /\ exists record', transition sample_record PublishSimHashDirectoryV1 = Ok record' /\ record_ok record' /\
    transition sample_record Activate = Err (IllegalStateTransition "active" "activate") /\
    transition sample_record (Recreate (SecondaryGeneration 2) sample_operation) = Err (IllegalStateTransition "active" "recreate").
Proof.
  split; [exact sample_record_ok|].
  destruct (index_record_transitions sample_record PublishSimHashDirectoryV1 sample_record_ok I) as (_ & Hk & _).
  destruct (index_record_transitions sample_record Activate sample_record_ok I) as (_ & _ & He).
  destruct (index_record_transitions sample_record (Recreate (SecondaryGeneration 2) sample_operation) sample_record_ok) as (_ & _ & Hc);
    [split; [by split|exact sample_operation_uuid]|].
  eexists. split; [reflexivity|]. split; [by apply Hk|]. split.
  - apply He. apply refuses_request; [done|intros st' H; inversion H|constructor|constructor].
  - apply Hc. apply refuses_present; [done|constructor].
Defined.

Lemma index_record_history_witness :
  exists last, history sample_record [PublishSimHashDirectoryV1; BeginDrop sample_operation; CompleteDrop] = Ok last /\
    record_ok last /\ revision last = 4.
Proof.
  eexists. split; [reflexivity|].
  refine ((fun H => conj (proj1 H) (proj1 (proj2 (proj2 (proj2 (proj2 H))))))
    (index_record_history sample_record _ [PublishSimHashDirectoryV1; BeginDrop sample_operation; CompleteDrop] sample_record_ok _ eq_refl)).
  apply Forall_cons. split; [exact I|]. apply Forall_cons. split; [exact sample_operation_uuid|]. by apply Forall_cons.
Defined.

Lemma index_record_removable_witness :
  exists requests last id, history sample_record requests = Ok last /\ state last = Dropped 1 id.
Proof.
  destruct (index_record_removable sample_record sample_operation sample_record_ok sample_operation_uuid) as (requests & last & id & _ & _ & H & E & _).
  - vm_compute. discriminate.
  - exists requests, last, id. split; [exact H|exact E].
Defined.
End IndexRecordSpec.
