(* ===== verification/LifecycleValues.v ===== *)
(** Stored values of the index lifecycle: crates/db/src/encoding/v2/values/codec.rs, its
    lifecycle/index_record.rs, lifecycle/entity_state.rs and global.rs, with the values of
    crates/db/src/index_lifecycle/metadata.rs.

    A writer returns the bytes it appends, a reader the value and what remains. [None] is
    a panic: a length that is not a [u32], a float that is not finite. *)
From S2P Require Import Prelude Bytes RangeValue Cursor EqualityValue IndexIdentity ManagedKeys IndexRecord.

Open Scope Z_scope.

Module LifecycleValues.
Export IndexRecord.
Export ManagedKeys(DataScope, LegacyUnscoped, Tenant, CanonicalSecondaryValue, EqualitySecondary, RangeSecondary).
Import EqualityValue(digest, canonical, EQUALITY_DIGEST_LEN).
Import RangeValue(encoded).

(** ** Frames and fields *)

Definition INDEX_V2_VALUE_VERSION : Z := 0x01.
Definition UUID_LEN : Z := 16.
Definition MAX_LENGTH_DELIMITED_FIELD : Z := 16 * 1024 * 1024.

(** [ValueEncoder::with_header]. *)
Definition with_header (kind : Z) : bytes := [INDEX_V2_VALUE_VERSION; kind].

Definition put_f32 (value : Z) : option bytes := if f32_is_finite value then Some (to_be 4 value) else None.
Definition put_bool (value : bool) : bytes := [if value then 1 else 0].
Definition put_bytes (value : bytes) : option bytes := if blen value <=? umax 32 then Some (to_be 4 (blen value) ++ value) else None.
Definition put_option {A} (value : option A) (encode : A -> option bytes) : option bytes :=
  match value with
  | Some value => rest ← encode value; Some (0x01 :: rest)
  | None => Some [0x00]
  end.

(** [ValueDecoder::new]: the kind, and what follows the header. *)
Definition decoder_new (value : bytes) : result EncodingError (Z * bytes) :=
  match value with
  | version :: kind :: remaining =>
      if negb (version =? INDEX_V2_VALUE_VERSION) then Err (Custom ("unsupported V2 value version " +:+ fmt_hex version))
      else Ok (kind, remaining)
  | _ => Err (BufferTooShort 2 (blen value))
  end.

Definition take_raw (len : Z) (remaining : bytes) : result EncodingError (bytes * bytes) :=
  if blen remaining <? len then Err (BufferTooShort len (blen remaining))
  else Ok (take (Z.to_nat len) remaining, drop (Z.to_nat len) remaining).
Definition take_u8 (remaining : bytes) : result EncodingError (Z * bytes) :=
  let? (value, remaining) := take_raw 1 remaining in Ok (hd 0 value, remaining).
Definition take_u16 (remaining : bytes) : result EncodingError (Z * bytes) :=
  let? (value, remaining) := take_raw 2 remaining in Ok (of_be value, remaining).
Definition take_u32 (remaining : bytes) : result EncodingError (Z * bytes) :=
  let? (value, remaining) := take_raw 4 remaining in Ok (of_be value, remaining).
Definition take_u64 (remaining : bytes) : result EncodingError (Z * bytes) :=
  let? (value, remaining) := take_raw 8 remaining in Ok (of_be value, remaining).
Definition take_f32 (remaining : bytes) : result EncodingError (Z * bytes) :=
  let? (value, remaining) := take_u32 remaining in
  if negb (f32_is_finite value) then Err (Custom "V2 float must be finite") else Ok (value, remaining).
Definition take_bool (remaining : bytes) : result EncodingError (bool * bytes) :=
  let? (value, remaining) := take_u8 remaining in
  if value =? 0x00 then Ok (false, remaining)
  else if value =? 0x01 then Ok (true, remaining)
  else Err (Custom ("noncanonical V2 boolean " +:+ fmt_hex value)).
Definition take_bytes (maximum : Z) (remaining : bytes) : result EncodingError (bytes * bytes) :=
  let? (len, remaining) := take_u32 remaining in
  if maximum <? len then Err (Custom ("V2 field length " +:+ fmt_dec len +:+ " exceeds maximum " +:+ fmt_dec maximum))
  else take_raw len remaining.
Definition take_string (maximum : Z) (remaining : bytes) : result EncodingError (bytes * bytes) :=
  let? (bytes, remaining) := take_bytes maximum remaining in
  let? value := from_utf8 bytes in
  Ok (value, remaining).
Definition take_option {A} (decode : bytes -> result EncodingError (A * bytes)) (remaining : bytes) : result EncodingError (option A * bytes) :=
  let? (tag, remaining) := take_u8 remaining in
  if tag =? 0x00 then Ok (None, remaining)
  else if tag =? 0x01 then let? (value, remaining) := decode remaining in Ok (Some value, remaining)
  else Err (Custom ("noncanonical V2 option tag " +:+ fmt_hex tag)).
Definition is_finished (remaining : bytes) : bool := match remaining with [] => true | _ => false end.
Definition finish (remaining : bytes) : result EncodingError unit :=
  if negb (is_finished remaining) then Err (Custom ("V2 value has " +:+ fmt_dec (blen remaining) +:+ " trailing bytes"))
  else Ok tt.

Definition unknown_discriminant {A} (kind : string) (value : Z) : result EncodingError A :=
  Err (Custom ("unknown V2 " +:+ kind +:+ " discriminant " +:+ fmt_hex value)).
(** [map_err(model_error)]. *)
Definition model {A} (r : result IndexV2ModelError A) : result EncodingError A :=
  match r with
  | Ok a => Ok a
  | Err e => Err (Custom (model_error_to_string e))
  end.
(** [map_err(work_model_error)]. *)
Definition work_model {A} (r : result IndexWorkModelError A) : result EncodingError A :=
  match r with
  | Ok a => Ok a
  | Err e => Err (Custom (work_error_to_string e))
  end.

(** ** Identifiers, kinds and components *)

Definition OPERATION_REVISION : string := "index operation revision".
Definition TEXT_MANIFEST_REVISION : string := "text manifest revision".
Definition TEXT_LOGICAL_VERSION : string := "text logical version".

(** [take_index_id], [take_generation], [take_revision], [take_operation_revision],
    [take_logical_version]: a non-zero [u64] of some kind. *)
Definition take_id (kind : string) (decoder : bytes) : result EncodingError (Z * bytes) :=
  let? (value, decoder) := take_u64 decoder in
  let? id := model (id_new kind value) in
  Ok (id, decoder).
Definition take_operation_id (decoder : bytes) : result EncodingError (bytes * bytes) :=
  let? (value, decoder) := take_raw UUID_LEN decoder in
  let? id := model (uuid_from_bytes OPERATION_ID value) in
  Ok (id, decoder).

Definition take_element_kind (decoder : bytes) : result EncodingError (IndexElementKind * bytes) :=
  let? (value, decoder) := take_u8 decoder in
  if value =? 0x01 then Ok (Node, decoder)
  else if value =? 0x02 then Ok (Edge, decoder)
  else unknown_discriminant "element kind" value.

Definition direction_u8 (direction : RangeIndexDirection) : Z := match direction with Asc => 0x01 | Desc => 0x02 end.
Definition take_range_direction (decoder : bytes) : result EncodingError (RangeIndexDirection * bytes) :=
  let? (value, decoder) := take_u8 decoder in
  if value =? 0x01 then Ok (Asc, decoder)
  else if value =? 0x02 then Ok (Desc, decoder)
  else unknown_discriminant "range direction" value.

Definition metric_u8 (metric : VectorDistanceMetric) : Z := match metric with Cosine => 0x01 | Euclidean => 0x02 | Manhattan => 0x03 end.
Definition take_metric (decoder : bytes) : result EncodingError (VectorDistanceMetric * bytes) :=
  let? (value, decoder) := take_u8 decoder in
  if value =? 0x01 then Ok (Cosine, decoder)
  else if value =? 0x02 then Ok (Euclidean, decoder)
  else if value =? 0x03 then Ok (Manhattan, decoder)
  else unknown_discriminant "vector metric" value.

Definition take_component (kind : string) (decoder : bytes) : result EncodingError (bytes * bytes) :=
  let? (value, decoder) := take_string INDEX_COMPONENT_MAX_LEN decoder in
  let? component := model (component_try_new kind value) in
  Ok (component, decoder).

Definition put_identity (identity : IndexIdentity) : option bytes :=
  label ← put_bytes (label identity);
  property ← put_bytes (property identity);
  Some (family_u8 (family identity) :: element_kind_u8 (element_kind identity) :: label ++ property).

(** The match of [take_identity] on the family. *)
Definition take_family (decoder : bytes) : result EncodingError (IndexIdentityFamily * bytes) :=
  let? (value, decoder) := take_u8 decoder in
  if value =? 0x01 then Ok (SecondaryEquality, decoder)
  else if value =? 0x02 then Ok (SecondaryRange, decoder)
  else if value =? 0x03 then Ok (Vector, decoder)
  else if value =? 0x04 then Ok (Text, decoder)
  else unknown_discriminant "identity family" value.
Definition take_identity (decoder : bytes) : result EncodingError (IndexIdentity * bytes) :=
  let? (family, decoder) := take_family decoder in
  let? (element_kind, decoder) := take_element_kind decoder in
  let? (label, decoder) := take_component "label" decoder in
  let? (property, decoder) := take_component "property" decoder in
  Ok ({| family := family; element_kind := element_kind; label := label; property := property |}, decoder).

(** ** Definitions *)

(** A label and a property, then the rest. *)
Definition put_names (label property : bytes) (rest : option bytes) : option bytes :=
  label ← put_bytes label; property ← put_bytes property; rest ← rest; Some (label ++ property ++ rest).

Definition put_secondary_definition (definition : ValidatedSecondaryIndexDefinition) : option bytes :=
  match definition with
  | NodeEquality label property unique => rest ← put_names label property (Some (put_bool unique)); Some (0x01 :: rest)
  | NodeRange label property direction => rest ← put_names label property (Some [direction_u8 direction]); Some (0x02 :: rest)
  | EdgeEquality label property => rest ← put_names label property (Some []); Some (0x03 :: rest)
  | EdgeRange label property direction => rest ← put_names label property (Some [direction_u8 direction]); Some (0x04 :: rest)
  end.

Definition codec_u8 (codec : ActiveVectorCodecV2) : Z := match codec with F32V1 => 0x01 end.

Definition put_vector_definition (definition : ValidatedVectorIndexDefinition) : option bytes :=
  tenant_property ← put_option (vd_tenant_property definition) put_bytes;
  ml ← put_f32 (vd_ml definition);
  sampling_ratio ← put_f32 (vd_sampling_ratio definition);
  adaptive_failure_probability ← put_f32 (vd_adaptive_failure_probability definition);
  rest ← put_names (vd_label definition) (vd_property definition)
    (Some (tenant_property ++ to_be 4 (vd_dimension definition) ++ metric_u8 (vd_metric definition) :: codec_u8 (vd_codec definition)
      :: to_be 4 (vd_m definition) ++ to_be 4 (vd_m0 definition) ++ to_be 4 (vd_ef_construction definition) ++ ml
      ++ to_be 4 (vd_simhash_threshold definition) ++ sampling_ratio ++ put_bool (vd_adaptive_enabled definition)
      ++ adaptive_failure_probability));
  Some (element_kind_u8 (vd_element_kind definition) :: rest).

Definition analyzer_u8 (analyzer : TextAnalyzerKind) : Z :=
  match analyzer with Standard => 0x01 | StandardStemEn => 0x02 | WhitespaceLowercase => 0x03 end.

Definition put_text_definition (definition : ValidatedTextIndexDefinition) : option bytes :=
  tenant_property ← put_option (td_tenant_property definition) put_bytes;
  rest ← put_names (td_label definition) (td_property definition)
    (Some (tenant_property ++ analyzer_u8 (td_analyzer definition) :: put_bool (td_positions_enabled definition)));
  Some (element_kind_u8 (td_element_kind definition) :: rest).

Definition put_definition (definition : ValidatedDynamicIndexDefinition) : option bytes :=
  match definition with
  | SecondaryDefinition definition => rest ← put_secondary_definition definition; Some (0x01 :: rest)
  | VectorDefinition definition => rest ← put_vector_definition definition; Some (0x02 :: rest)
  | TextDefinition definition => rest ← put_text_definition definition; Some (0x03 :: rest)
  end.

Definition take_secondary_definition (decoder : bytes) : result EncodingError (ValidatedSecondaryIndexDefinition * bytes) :=
  let? (tag, decoder) := take_u8 decoder in
  if tag =? 0x01 then
    let? (label, decoder) := take_component "label" decoder in
    let? (property, decoder) := take_component "property" decoder in
    let? (unique, decoder) := take_bool decoder in
    Ok (NodeEquality label property unique, decoder)
  else if tag =? 0x02 then
    let? (label, decoder) := take_component "label" decoder in
    let? (property, decoder) := take_component "property" decoder in
    let? (direction, decoder) := take_range_direction decoder in
    Ok (NodeRange label property direction, decoder)
  else if tag =? 0x03 then
    let? (label, decoder) := take_component "label" decoder in
    let? (property, decoder) := take_component "property" decoder in
    Ok (EdgeEquality label property, decoder)
  else if tag =? 0x04 then
    let? (label, decoder) := take_component "label" decoder in
    let? (property, decoder) := take_component "property" decoder in
    let? (direction, decoder) := take_range_direction decoder in
    Ok (EdgeRange label property direction, decoder)
  else unknown_discriminant "secondary definition" tag.

Definition take_vector_definition (decoder : bytes) : result EncodingError (ValidatedVectorIndexDefinition * bytes) :=
  let? (element_kind, decoder) := take_element_kind decoder in
  let? (label, decoder) := take_string INDEX_COMPONENT_MAX_LEN decoder in
  let? (property, decoder) := take_string INDEX_COMPONENT_MAX_LEN decoder in
  let? (tenant_property, decoder) := take_option (take_string INDEX_COMPONENT_MAX_LEN) decoder in
  let? (dimension, decoder) := take_u32 decoder in
  let? (metric, decoder) := take_metric decoder in
  let? (codec, decoder) := take_u8 decoder in
  if negb (codec =? codec_u8 F32V1) then Err (Custom "unsupported V2 production vector codec")
  else
    let? (m, decoder) := take_u32 decoder in
    let? (m0, decoder) := take_u32 decoder in
    let? (ef_construction, decoder) := take_u32 decoder in
    let? (ml, decoder) := take_f32 decoder in
    let? (simhash_threshold, decoder) := take_u32 decoder in
    let? (sampling_ratio, decoder) := take_f32 decoder in
    let? (adaptive_enabled, decoder) := take_bool decoder in
    let? (adaptive_failure_probability, decoder) := take_f32 decoder in
    let? definition := model (vector_try_new element_kind label property tenant_property dimension metric m m0 ef_construction ml
      simhash_threshold sampling_ratio adaptive_enabled adaptive_failure_probability) in
    Ok (definition, decoder).

Definition take_analyzer (decoder : bytes) : result EncodingError (TextAnalyzerKind * bytes) :=
  let? (value, decoder) := take_u8 decoder in
  if value =? 0x01 then Ok (Standard, decoder)
  else if value =? 0x02 then Ok (StandardStemEn, decoder)
  else if value =? 0x03 then Ok (WhitespaceLowercase, decoder)
  else unknown_discriminant "text analyzer" value.

Definition take_text_definition (decoder : bytes) : result EncodingError (ValidatedTextIndexDefinition * bytes) :=
  let? (element_kind, decoder) := take_element_kind decoder in
  let? (label, decoder) := take_string INDEX_COMPONENT_MAX_LEN decoder in
  let? (property, decoder) := take_string INDEX_COMPONENT_MAX_LEN decoder in
  let? (tenant_property, decoder) := take_option (take_string INDEX_COMPONENT_MAX_LEN) decoder in
  let? (analyzer, decoder) := take_analyzer decoder in
  let? (positions_enabled, decoder) := take_bool decoder in
  let? definition := model (text_try_new element_kind label property tenant_property analyzer positions_enabled) in
  Ok (definition, decoder).

Definition take_definition (decoder : bytes) : result EncodingError (ValidatedDynamicIndexDefinition * bytes) :=
  let? (tag, decoder) := take_u8 decoder in
  if tag =? 0x01 then let? (definition, decoder) := take_secondary_definition decoder in Ok (SecondaryDefinition definition, decoder)
  else if tag =? 0x02 then let? (definition, decoder) := take_vector_definition decoder in Ok (VectorDefinition definition, decoder)
  else if tag =? 0x03 then let? (definition, decoder) := take_text_definition decoder in Ok (TextDefinition definition, decoder)
  else unknown_discriminant "definition" tag.

(** ** Physical generations *)

Definition score_u8 (score : VectorScoreSemanticV2) : Z :=
  match score with CosineHalfF32V1 => 0x01 | SquaredEuclideanF32V1 => 0x02 | ManhattanF32V1 => 0x03 end.
Definition norm_u8 (norm : CosineNormPolicyV2) : Z := match norm with NotApplicable => 0x00 | RejectZeroScaledL2V1 => 0x01 end.

Definition put_vector_descriptor_semantics (descriptor : VectorGenerationDescriptor) : bytes :=
  to_be 4 (gd_dimension descriptor) ++ [metric_u8 (gd_metric descriptor); codec_u8 (gd_codec descriptor);
    score_u8 (gd_score_semantic descriptor); norm_u8 (gd_cosine_norm_policy descriptor)].

Definition routing_u8 (routing : VectorRoutingLayoutV2) : Z := match routing with LegacyHnsw => 0x02 | SimHashDirectoryV1 => 0x04 end.

Definition put_layout (layout : VectorPhysicalLayout) : bytes :=
  match layout with
  | UnpartitionedLayout physical_index_id => 0x01 :: to_be 8 physical_index_id
  | PartitionedLayout => [0x02]
  end.

Definition put_physical_generation (physical : PhysicalGeneration) : bytes :=
  match physical with
  | SecondaryGeneration generation => 0x01 :: to_be 8 generation
  | VectorGeneration generation layout descriptor =>
      routing_u8 (gd_routing_layout descriptor) :: to_be 8 generation ++ put_layout layout ++ put_vector_descriptor_semantics descriptor
  | TextGeneration generation => 0x03 :: to_be 8 generation
  end.

Definition take_score (decoder : bytes) : result EncodingError (VectorScoreSemanticV2 * bytes) :=
  let? (value, decoder) := take_u8 decoder in
  if value =? 0x01 then Ok (CosineHalfF32V1, decoder)
  else if value =? 0x02 then Ok (SquaredEuclideanF32V1, decoder)
  else if value =? 0x03 then Ok (ManhattanF32V1, decoder)
  else unknown_discriminant "vector score semantic" value.
Definition take_norm (decoder : bytes) : result EncodingError (CosineNormPolicyV2 * bytes) :=
  let? (value, decoder) := take_u8 decoder in
  if value =? 0x00 then Ok (NotApplicable, decoder)
  else if value =? 0x01 then Ok (RejectZeroScaledL2V1, decoder)
  else unknown_discriminant "cosine norm policy" value.
Definition take_codec (decoder : bytes) : result EncodingError (ActiveVectorCodecV2 * bytes) :=
  let? (value, decoder) := take_u8 decoder in
  if value =? 0x01 then Ok (F32V1, decoder) else unknown_discriminant "active vector codec" value.

Definition take_vector_descriptor (routing_layout : VectorRoutingLayoutV2) (decoder : bytes)
    : result EncodingError (VectorGenerationDescriptor * bytes) :=
  let? (dimension, decoder) := take_u32 decoder in
  let? (metric, decoder) := take_metric decoder in
  let? (codec, decoder) := take_codec decoder in
  let? (score, decoder) := take_score decoder in
  let? (norm, decoder) := take_norm decoder in
  let? descriptor := model (descriptor_try_new dimension metric codec score norm routing_layout) in
  Ok (descriptor, decoder).

Definition take_layout (decoder : bytes) : result EncodingError (VectorPhysicalLayout * bytes) :=
  let? (value, decoder) := take_u8 decoder in
  if value =? 0x01 then
    let? (physical_index_id, decoder) := take_id VECTOR_PHYSICAL_ID decoder in
    Ok (UnpartitionedLayout physical_index_id, decoder)
  else if value =? 0x02 then Ok (PartitionedLayout, decoder)
  else unknown_discriminant "vector physical layout" value.

Definition take_physical_generation (decoder : bytes) : result EncodingError (PhysicalGeneration * bytes) :=
  let? (kind, decoder) := take_u8 decoder in
  if kind =? 0x01 then let? (generation, decoder) := take_id GENERATION_ID decoder in Ok (SecondaryGeneration generation, decoder)
  else if (kind =? 0x02) || (kind =? 0x04) then
    let? (generation, decoder) := take_id GENERATION_ID decoder in
    let? (layout, decoder) := take_layout decoder in
    let? (descriptor, decoder) := take_vector_descriptor (if kind =? 0x02 then LegacyHnsw else SimHashDirectoryV1) decoder in
    Ok (VectorGeneration generation layout descriptor, decoder)
  else if kind =? 0x03 then let? (generation, decoder) := take_id GENERATION_ID decoder in Ok (TextGeneration generation, decoder)
  else unknown_discriminant "physical generation" kind.

(** ** Index records *)

Definition INDEX_RECORD_KIND : Z := 0x01.

Definition put_index_state (state : IndexStateV2) : bytes :=
  match state with
  | Building physical build_operation_id => 0x01 :: put_physical_generation physical ++ build_operation_id
  | Active physical completed_build_operation_id => 0x02 :: put_physical_generation physical ++ completed_build_operation_id
  | Aborting physical build_operation_id => 0x03 :: put_physical_generation physical ++ build_operation_id
  | Dropping physical drop_operation_id => 0x04 :: put_physical_generation physical ++ drop_operation_id
  | Dropped last_generation completed_operation_id => 0x05 :: to_be 8 last_generation ++ completed_operation_id
  end.

(** A state that keeps its physical generation. *)
Definition take_physical_state (make : PhysicalGeneration -> bytes -> IndexStateV2) (decoder : bytes) : result EncodingError (IndexStateV2 * bytes) :=
  let? (physical, decoder) := take_physical_generation decoder in
  let? (operation_id, decoder) := take_operation_id decoder in
  Ok (make physical operation_id, decoder).

Definition take_index_state (decoder : bytes) : result EncodingError (IndexStateV2 * bytes) :=
  let? (tag, decoder) := take_u8 decoder in
  if tag =? 0x01 then take_physical_state Building decoder
  else if tag =? 0x02 then take_physical_state Active decoder
  else if tag =? 0x03 then take_physical_state Aborting decoder
  else if tag =? 0x04 then take_physical_state Dropping decoder
  else if tag =? 0x05 then
    let? (last_generation, decoder) := take_id GENERATION_ID decoder in
    let? (completed_operation_id, decoder) := take_operation_id decoder in
    Ok (Dropped last_generation completed_operation_id, decoder)
  else unknown_discriminant "index state" tag.

Definition encode_index_record (record : IndexRecordV2) : option bytes :=
  identity ← put_identity (identity record);
  definition ← put_definition (definition record);
  Some (with_header INDEX_RECORD_KIND ++ to_be 8 (index_id record) ++ identity ++ definition ++ to_be 8 (revision record)
    ++ put_index_state (state record)).

(** A value of the kind its key names: the header, the body, nothing more. *)
Definition decode_value {A} (expected : Z) (body : bytes -> result EncodingError (A * bytes)) (value : bytes) : result EncodingError A :=
  let? (kind, decoder) := decoder_new value in
  if negb (kind =? expected) then Err (UnexpectedValueKind expected kind)
  else
    let? (decoded, decoder) := body decoder in
    let? _ := finish decoder in
    Ok decoded.

Definition take_record_parts (decoder : bytes) : result EncodingError ((Z * IndexIdentity * ValidatedDynamicIndexDefinition * Z * IndexStateV2) * bytes) :=
  let? (index_id, decoder) := take_id INDEX_ID decoder in
  let? (identity, decoder) := take_identity decoder in
  let? (definition, decoder) := take_definition decoder in
  let? (revision, decoder) := take_id INDEX_REVISION decoder in
  let? (state, decoder) := take_index_state decoder in
  Ok ((index_id, identity, definition, revision, state), decoder).

Definition decode_index_record (value : bytes) : result EncodingError IndexRecordV2 :=
  let? parts := decode_value INDEX_RECORD_KIND take_record_parts value in
  let '(index_id, identity, definition, revision, state) := parts in
  model (record_try_new index_id identity definition revision state).

(** ** Control values *)

(** [IndexStorageVersion::new]. *)
Definition version_new (value : Z) : result EncodingError Z :=
  if value =? 0 then Err (Custom "index storage version must be non-zero") else Ok value.

Inductive LegacyVectorPhysicalReservation :=
| LegacySource
| AdoptionBuilding (index_id generation : Z) (operation_id : bytes)
| AdoptedActive (index_id generation : Z)
| RetiringSource (index_id generation : Z).

Definition begin_adoption (self : LegacyVectorPhysicalReservation) (index_id generation : Z) (operation_id : bytes) : option LegacyVectorPhysicalReservation :=
  match self with LegacySource => Some (AdoptionBuilding index_id generation operation_id) | _ => None end.
Definition begin_retirement (self : LegacyVectorPhysicalReservation) (index_id generation : Z) : option LegacyVectorPhysicalReservation :=
  match self with LegacySource => Some (RetiringSource index_id generation) | _ => None end.
Definition activate (self : LegacyVectorPhysicalReservation) (index_id generation : Z) (operation_id : bytes) : option LegacyVectorPhysicalReservation :=
  match self with
  | AdoptionBuilding owner owner_generation owner_operation =>
      if (owner =? index_id) && (owner_generation =? generation) && bool_decide (owner_operation = operation_id) then
        Some (AdoptedActive index_id generation)
      else None
  | _ => None
  end.
Definition abort (self : LegacyVectorPhysicalReservation) (index_id generation : Z) (operation_id : bytes) : option LegacyVectorPhysicalReservation :=
  match self with
  | AdoptionBuilding owner owner_generation owner_operation =>
      if (owner =? index_id) && (owner_generation =? generation) && bool_decide (owner_operation = operation_id) then Some LegacySource
      else None
  | _ => None
  end.
Definition is_owned_by (self : LegacyVectorPhysicalReservation) (index_id generation : Z) : bool :=
  match self with
  | AdoptedActive owner owner_generation => (owner =? index_id) && (owner_generation =? generation)
  | _ => false
  end.

(** [VectorPhysicalIdWatermark::eligible_legacy_source]. *)
Definition eligible_legacy_source (next_id raw_physical_id : Z) : option Z :=
  match id_new VECTOR_PHYSICAL_ID raw_physical_id with
  | Ok physical_index_id => if next_id <=? physical_index_id then Some physical_index_id else None
  | Err _ => None
  end.

Record OperationQueuePointerValue := { qp_scope : DataScope; qp_index_id : Z; qp_generation : Z; qp_record_revision : Z }.

Inductive IndexV2MetadataValue :=
| StorageVersion (version : Z)
| LogicalIndexIdWatermark (next_id : Z)
| VectorPhysicalIdWatermark (next_id : Z)
| OperationQueuePointer (pointer : OperationQueuePointerValue)
| LegacyVectorReservation (reservation : LegacyVectorPhysicalReservation)
| TextCompactionPointer (revision : Z).

Definition put_scope (scope : DataScope) : bytes :=
  match scope with
  | LegacyUnscoped => [0x00]
  | Tenant tenant_id => 0x01 :: to_be 16 tenant_id
  end.
Definition take_scope (decoder : bytes) : result EncodingError (DataScope * bytes) :=
  let? (value, decoder) := take_u8 decoder in
  if value =? 0x00 then Ok (LegacyUnscoped, decoder)
  else if value =? 0x01 then let? (tenant_id, decoder) := take_raw 16 decoder in Ok (Tenant (of_be tenant_id), decoder)
  else unknown_discriminant "scope" value.

Definition metadata_kind (value : IndexV2MetadataValue) : Z :=
  match value with
  | StorageVersion _ => 0x01
  | LogicalIndexIdWatermark _ => 0x02
  | VectorPhysicalIdWatermark _ => 0x03
  | OperationQueuePointer _ => 0x04
  | LegacyVectorReservation _ => 0x06
  | TextCompactionPointer _ => 0x07
  end.

Definition put_reservation (reservation : LegacyVectorPhysicalReservation) : bytes :=
  match reservation with
  | LegacySource => [0x01]
  | AdoptionBuilding index_id generation operation_id => 0x02 :: to_be 8 index_id ++ to_be 8 generation ++ operation_id
  | AdoptedActive index_id generation => 0x03 :: to_be 8 index_id ++ to_be 8 generation
  | RetiringSource index_id generation => 0x04 :: to_be 8 index_id ++ to_be 8 generation
  end.

Definition put_pointer (pointer : OperationQueuePointerValue) : bytes :=
  put_scope (qp_scope pointer) ++ to_be 8 (qp_index_id pointer) ++ to_be 8 (qp_generation pointer) ++ to_be 8 (qp_record_revision pointer).

Definition put_metadata (value : IndexV2MetadataValue) : bytes :=
  match value with
  | StorageVersion version => to_be 2 version
  | LogicalIndexIdWatermark next_id => to_be 8 next_id
  | VectorPhysicalIdWatermark next_id => to_be 8 next_id
  | OperationQueuePointer pointer => put_pointer pointer
  | LegacyVectorReservation reservation => put_reservation reservation
  | TextCompactionPointer revision => to_be 8 revision
  end.

Definition encode_metadata_value (value : IndexV2MetadataValue) : bytes := with_header (metadata_kind value) ++ put_metadata value.

Definition take_reservation (decoder : bytes) : result EncodingError (LegacyVectorPhysicalReservation * bytes) :=
  let? (tag, decoder) := take_u8 decoder in
  if tag =? 0x01 then Ok (LegacySource, decoder)
  else if tag =? 0x02 then
    let? (index_id, decoder) := take_id INDEX_ID decoder in
    let? (generation, decoder) := take_id GENERATION_ID decoder in
    let? (operation_id, decoder) := take_operation_id decoder in
    Ok (AdoptionBuilding index_id generation operation_id, decoder)
  else if tag =? 0x03 then
    let? (index_id, decoder) := take_id INDEX_ID decoder in
    let? (generation, decoder) := take_id GENERATION_ID decoder in
    Ok (AdoptedActive index_id generation, decoder)
  else if tag =? 0x04 then
    let? (index_id, decoder) := take_id INDEX_ID decoder in
    let? (generation, decoder) := take_id GENERATION_ID decoder in
    Ok (RetiringSource index_id generation, decoder)
  else unknown_discriminant "legacy vector physical reservation" tag.

Definition take_version (decoder : bytes) : result EncodingError (Z * bytes) :=
  let? (value, decoder) := take_u16 decoder in
  let? version := version_new value in
  Ok (version, decoder).

Definition take_pointer (decoder : bytes) : result EncodingError (OperationQueuePointerValue * bytes) :=
  let? (scope, decoder) := take_scope decoder in
  let? (index_id, decoder) := take_id INDEX_ID decoder in
  let? (generation, decoder) := take_id GENERATION_ID decoder in
  let? (record_revision, decoder) := take_id OPERATION_REVISION decoder in
  Ok ({| qp_scope := scope; qp_index_id := index_id; qp_generation := generation; qp_record_revision := record_revision |}, decoder).

(** The match of [decode_metadata_value] on the kind; 0x08 is retired. *)
Definition take_metadata (kind : Z) (decoder : bytes) : result EncodingError (IndexV2MetadataValue * bytes) :=
  if kind =? 0x01 then let? (version, decoder) := take_version decoder in Ok (StorageVersion version, decoder)
  else if kind =? 0x02 then let? (next_id, decoder) := take_id INDEX_ID decoder in Ok (LogicalIndexIdWatermark next_id, decoder)
  else if kind =? 0x03 then let? (next_id, decoder) := take_id VECTOR_PHYSICAL_ID decoder in Ok (VectorPhysicalIdWatermark next_id, decoder)
  else if kind =? 0x04 then let? (pointer, decoder) := take_pointer decoder in Ok (OperationQueuePointer pointer, decoder)
  else if kind =? 0x06 then let? (reservation, decoder) := take_reservation decoder in Ok (LegacyVectorReservation reservation, decoder)
  else if kind =? 0x07 then let? (revision, decoder) := take_id TEXT_MANIFEST_REVISION decoder in Ok (TextCompactionPointer revision, decoder)
  else unknown_discriminant "metadata value" kind.

Definition decode_metadata_value (value : bytes) : result EncodingError IndexV2MetadataValue :=
  let? (kind, decoder) := decoder_new value in
  let? (decoded, decoder) := take_metadata kind decoder in
  let? _ := finish decoder in
  Ok decoded.

(** ** Entity states *)

Definition BUILD_DELTA_KIND : Z := 0x03.
Definition APPLIED_STATE_KIND : Z := 0x04.

Inductive CoalescedBuildDeltaState :=
| Marker
| SecondaryBefore (previous : option CanonicalSecondaryValue)
| VectorBefore (previous : option TextPartition).

Inductive AppliedFamilyState :=
| AppliedSecondary (state : option CanonicalSecondaryValue)
| AppliedVector (state : option TextPartition)
| AppliedText (state : option (TextPartition * Z)).

(** [CoalescedBuildDeltaValue] and [AppliedEntityStateValue]: an entity of a
    generation, and its state. *)
Record EntityStateValue (S : Type) := { ev_index_id : Z; ev_generation : Z; ev_entity : IndexEntity; ev_state : S }.
Arguments Build_EntityStateValue {S}.
Arguments ev_index_id {S}.
Arguments ev_generation {S}.
Arguments ev_entity {S}.
Arguments ev_state {S}.
Definition CoalescedBuildDeltaValue : Type := EntityStateValue CoalescedBuildDeltaState.
Definition AppliedEntityStateValue : Type := EntityStateValue AppliedFamilyState.

Definition put_partition (partition : TextPartition) : option bytes :=
  match partition with
  | Unpartitioned => Some [0x01]
  | TenantValue value => rest ← put_bytes value; Some (0x02 :: rest)
  end.
Definition take_partition (decoder : bytes) : result EncodingError (TextPartition * bytes) :=
  let? (tag, decoder) := take_u8 decoder in
  if tag =? 0x01 then Ok (Unpartitioned, decoder)
  else if tag =? 0x02 then
    let? (value, decoder) := take_bytes MAX_LENGTH_DELIMITED_FIELD decoder in
    let? partition := work_model (try_tenant_value value) in
    Ok (partition, decoder)
  else unknown_discriminant "partition" tag.

Definition put_secondary_value (value : CanonicalSecondaryValue) : option bytes :=
  match value with
  | EqualitySecondary value => rest ← put_bytes (canonical value); Some (0x01 :: digest value ++ rest)
  | RangeSecondary value => rest ← put_bytes (encoded value); Some (0x02 :: direction_u8 (RangeValue.direction value) :: rest)
  end.

(** The direction of a stored range value. *)
Definition take_value_direction (decoder : bytes) : result EncodingError (RangeIndexDirection * bytes) :=
  let? (value, decoder) := take_u8 decoder in
  if value =? 0x01 then Ok (Asc, decoder)
  else if value =? 0x02 then Ok (Desc, decoder)
  else unknown_discriminant "range value direction" value.

Definition take_text_state (decoder : bytes) : result EncodingError ((TextPartition * Z) * bytes) :=
  let? (partition, decoder) := take_partition decoder in
  let? (version, decoder) := take_id TEXT_LOGICAL_VERSION decoder in
  Ok ((partition, version), decoder).

Definition take_entity (decoder : bytes) : result EncodingError (IndexEntity * bytes) :=
  let? (kind, decoder) := take_element_kind decoder in
  let? (entity_id, decoder) := take_u64 decoder in
  Ok ({| kind := kind; entity_id := entity_id |}, decoder).

Definition put_entity_state {S} (put : S -> option bytes) (value : EntityStateValue S) : option bytes :=
  rest ← put (ev_state value);
  Some (to_be 8 (ev_index_id value) ++ to_be 8 (ev_generation value) ++ element_kind_u8 (kind (ev_entity value))
    :: to_be 8 (entity_id (ev_entity value)) ++ rest).
Definition take_entity_state {S} (take : bytes -> result EncodingError (S * bytes)) (decoder : bytes) : result EncodingError (EntityStateValue S * bytes) :=
  let? (index_id, decoder) := take_id INDEX_ID decoder in
  let? (generation, decoder) := take_id GENERATION_ID decoder in
  let? (entity, decoder) := take_entity decoder in
  let? (state, decoder) := take decoder in
  Ok ({| ev_index_id := index_id; ev_generation := generation; ev_entity := entity; ev_state := state |}, decoder).

Definition put_delta_state (state : CoalescedBuildDeltaState) : option bytes :=
  match state with
  | Marker => Some []
  | SecondaryBefore previous => rest ← put_option previous put_secondary_value; Some (0x01 :: rest)
  | VectorBefore previous => rest ← put_option previous put_partition; Some (0x02 :: rest)
  end.
Definition put_applied_state (state : AppliedFamilyState) : option bytes :=
  match state with
  | AppliedSecondary state => rest ← put_option state put_secondary_value; Some (0x01 :: rest)
  | AppliedVector state => rest ← put_option state put_partition; Some (0x02 :: rest)
  | AppliedText state =>
      rest ← put_option state (fun state => partition ← put_partition state.1; Some (partition ++ to_be 8 state.2)); Some (0x03 :: rest)
  end.

Definition encode_build_delta (value : CoalescedBuildDeltaValue) : option bytes :=
  body ← put_entity_state put_delta_state value; Some (with_header BUILD_DELTA_KIND ++ body).
Definition encode_applied_state (value : AppliedEntityStateValue) : option bytes :=
  body ← put_entity_state put_applied_state value; Some (with_header APPLIED_STATE_KIND ++ body).

Section Digest.
Context {SH : Sha256}.

(** [CanonicalEqualityValue::try_from_parts], whose slice of the hash is in range (see
    [LifecycleSpec.equality_from_parts_some]). *)
Definition equality_from_parts (digest canonical : bytes) : result EncodingError EqualityValue.CanonicalEqualityValue :=
  let? _ := EqualityValue.validate_canonical canonical in
  if bool_decide (digest = take 8 (sha256 canonical)) then Ok {| EqualityValue.digest := digest; EqualityValue.canonical := canonical |}
  else Err CanonicalEqualityDigestMismatch.

Definition take_secondary_value (decoder : bytes) : result EncodingError (CanonicalSecondaryValue * bytes) :=
  let? (tag, decoder) := take_u8 decoder in
  if tag =? 0x01 then
    let? (digest, decoder) := take_raw EQUALITY_DIGEST_LEN decoder in
    let? (canonical, decoder) := take_bytes MAX_LENGTH_DELIMITED_FIELD decoder in
    let? value := equality_from_parts digest canonical in
    Ok (EqualitySecondary value, decoder)
  else if tag =? 0x02 then
    let? (direction, decoder) := take_value_direction decoder in
    let? (encoded, decoder) := take_bytes MAX_LENGTH_DELIMITED_FIELD decoder in
    let? value := RangeValue.try_from_encoded direction encoded in
    Ok (RangeSecondary value, decoder)
  else unknown_discriminant "canonical secondary value" tag.

Definition take_delta_state (decoder : bytes) : result EncodingError (CoalescedBuildDeltaState * bytes) :=
  if is_finished decoder then Ok (Marker, decoder)
  else
    let? (tag, decoder) := take_u8 decoder in
    if tag =? 0x01 then let? (previous, decoder) := take_option take_secondary_value decoder in Ok (SecondaryBefore previous, decoder)
    else if tag =? 0x02 then let? (previous, decoder) := take_option take_partition decoder in Ok (VectorBefore previous, decoder)
    else unknown_discriminant "build-delta family state" tag.

Definition take_applied_state (decoder : bytes) : result EncodingError (AppliedFamilyState * bytes) :=
  let? (tag, decoder) := take_u8 decoder in
  if tag =? 0x01 then let? (state, decoder) := take_option take_secondary_value decoder in Ok (AppliedSecondary state, decoder)
  else if tag =? 0x02 then let? (state, decoder) := take_option take_partition decoder in Ok (AppliedVector state, decoder)
  else if tag =? 0x03 then let? (state, decoder) := take_option take_text_state decoder in Ok (AppliedText state, decoder)
  else unknown_discriminant "applied-state family" tag.

Definition decode_build_delta : bytes -> result EncodingError CoalescedBuildDeltaValue :=
  decode_value BUILD_DELTA_KIND (take_entity_state take_delta_state).
Definition decode_applied_state : bytes -> result EncodingError AppliedEntityStateValue :=
  decode_value APPLIED_STATE_KIND (take_entity_state take_applied_state).
End Digest.
End LifecycleValues.
