(* ===== verification/LifecycleSpec.v ===== *)
(** The stored values of the index lifecycle are read back from the bytes they are
    written as, and from no others. *)
From S2P Require Import Prelude Bytes ValueSemantics Property RangeValue Cursor EqualityValue EqualityValueSpec IndexIdentity ManagedKeys ManagedKeysSpec IndexRecord IndexRecordSpec LifecycleValues.

Open Scope Z_scope.

(** A reader and a writer that may panic on what is not valid. *)
Class Wired {A} (ok : A -> Prop) (put : A -> option bytes) (get : bytes -> result EncodingError (A * bytes)) : Prop := {
  wired_put : forall a, ok a -> exists p, put a = Some p /\ bytes_ok p /\ forall c, get (p ++ c) = Ok (a, c);
  wired_get : forall b a c, bytes_ok b -> get b = Ok (a, c) -> ok a /\ exists p, put a = Some p /\ b = p ++ c }.

Module LifecycleSpec.
Export IndexRecordSpec.
Export LifecycleValues.

(** ** Fields *)

Lemma take_byte z c : take_u8 (z :: c) = Ok (z, c).
Proof. exact (Cursor.take_u8_cons z c). Qed.
Lemma take_byte_ok b v c : take_u8 b = Ok (v, c) -> b = v :: c.
Proof. exact (Cursor.take_u8_ok b v c). Qed.

#[global] Instance raw_u8_wire : Wire byte_ok (fun z => [z]) take_u8.
Proof. exact ManagedKeysSpec.u8_wire. Qed.
#[global] Instance raw_u16_wire : Wire (in_u 16) (to_be 2) take_u16.
Proof. by apply (ManagedKeysSpec.int_wire 2). Qed.
#[global] Instance raw_u32_wire : Wire (in_u 32) (to_be 4) take_u32.
Proof. exact ManagedKeysSpec.u32_wire. Qed.
#[global] Instance raw_u64_wire : Wire (in_u 64) (to_be 8) take_u64.
Proof. exact ManagedKeysSpec.u64_wire. Qed.

Lemma take_all a c : take_raw (blen a) (a ++ c) = Ok (a, c).
Proof. exact (Cursor.take_raw_app a c). Qed.
Lemma take_raw_inv n b a c : 0 <= n -> take_raw n b = Ok (a, c) -> b = a ++ c /\ blen a = n.
Proof. exact (Cursor.take_raw_ok n b a c). Qed.

(** One byte that stands for a constructor. *)
Ltac wire_enum :=
  split;
  [ intros [] c _; match goal with |- ?get _ = _ => unfold get end; cbv beta; cbn [app]; by rewrite take_byte
  | intros b a c _ H; apply result_bind_ok in H as ([v r] & E & H); apply take_byte_ok in E as ->;
    repeat (match type of H with context [v =? ?k] => destruct (Z.eqb_spec v k) as [->|]; [first [by injection H as <- <- | by destruct a; injection H as <-]|] end); done
  | intros [] _; apply Forall_cons; by split ].

Definition any {A} (_ : A) : Prop := True.

#[global] Instance bool_wire : Wire any put_bool take_bool.
Proof. unfold put_bool. wire_enum. Qed.
#[global] Instance raw_element_kind_wire : Wire any (fun k => [element_kind_u8 k]) take_element_kind.
Proof. wire_enum. Qed.
#[global] Instance direction_wire : Wire any (fun d => [direction_u8 d]) take_range_direction.
Proof. wire_enum. Qed.
#[global] Instance value_direction_wire : Wire any (fun d => [direction_u8 d]) take_value_direction.
Proof. wire_enum. Qed.
#[global] Instance metric_wire : Wire any (fun m => [metric_u8 m]) take_metric.
Proof. wire_enum. Qed.
#[global] Instance family_wire : Wire any (fun f => [family_u8 f]) take_family.
Proof. wire_enum. Qed.
#[global] Instance analyzer_wire : Wire any (fun a => [analyzer_u8 a]) take_analyzer.
Proof. wire_enum. Qed.
#[global] Instance score_wire : Wire any (fun s => [score_u8 s]) take_score.
Proof. wire_enum. Qed.
#[global] Instance norm_wire : Wire any (fun n => [norm_u8 n]) take_norm.
Proof. wire_enum. Qed.
#[global] Instance codec_wire : Wire any (fun c => [codec_u8 c]) take_codec.
Proof. wire_enum. Qed.

#[global] Instance raw_id_wire kind : Wire id_ok (to_be 8) (take_id kind).
Proof.
  apply (ManagedKeysSpec.map_wire (in_u 64) id_ok (to_be 8) take_u64 (fun v => model (id_new kind v)) (fun v => v)); [apply _|..].
  - intros a b Ha H. destruct (id_new kind a) as [w|e] eqn:E; [|done]. injection H as ->. apply id_new_ok in E as [Hn ->].
    unfold in_u, id_ok in *. split; [lia|done].
  - intros b Hb. unfold id_ok, in_u in *. split; [lia|]. by rewrite (proj2 (id_new_ok kind b b)) by (split; [lia|done]).
Qed.

(** A UUID that is not nil, named by its kind in errors. *)
Lemma uuid_wire kind :
  Wire uuid_ok (fun a => a) (fun decoder => let? (value, decoder) := take_raw UUID_LEN decoder in let? id := model (uuid_from_bytes kind value) in Ok (id, decoder)).
Proof.
  split.
  - intros a c (Ha & Hl & Hn). replace UUID_LEN with (blen a) by (unfold blen, UUID_LEN; lia). rewrite take_all. cbn [result_bind].
    by rewrite (proj2 (uuid_new_ok kind a a)).
  - intros b a c Hb H. apply result_bind_ok in H as ([v r] & E & H). apply take_raw_inv in E as [-> Hl]; [|done]. apply Forall_app in Hb as [Hv _].
    destruct (uuid_from_bytes kind v) as [w|e] eqn:E; [|done]. injection H as <- <-. apply uuid_new_ok in E as [Hn ->].
    split; [|done]. split_and!; [done| |done]. unfold blen, UUID_LEN in Hl. lia.
  - by intros a [Ha _].
Qed.

#[global] Instance raw_operation_id_wire : Wire uuid_ok (fun a => a) take_operation_id.
Proof. exact (uuid_wire OPERATION_ID). Qed.

(** ** Fields that may panic *)

#[global] Instance float_wired : Wired float_ok put_f32 take_f32.
Proof.
  split.
  - intros a [Ha Hf]. exists (to_be 4 a). unfold put_f32, take_f32. rewrite Hf. split_and!; [done|apply to_be_ok|].
    intros c. rewrite wire_get by done. cbn [result_bind]. by rewrite Hf.
  - intros b a c Hb H. apply result_bind_ok in H as ([v r] & E & H). apply wire_put in E as [Hv ->]; [|done].
    destruct (f32_is_finite v) eqn:Ef; [|done]. injection H as <- <-. split; [done|]. exists (to_be 4 v). unfold put_f32. by rewrite Ef.
Qed.

Definition field_ok (maximum : Z) (value : bytes) : Prop := bytes_ok value /\ blen value <= maximum.

Lemma put_bytes_some maximum v : maximum <= umax 32 -> blen v <= maximum -> put_bytes v = Some (to_be 4 (blen v) ++ v).
Proof. intros Hm Hv. unfold put_bytes. by rewrite (proj2 (Z.leb_le _ _)) by lia. Qed.

Lemma bytes_wired maximum : maximum <= umax 32 -> Wired (field_ok maximum) put_bytes (take_bytes maximum).
Proof.
  intros Hm. split.
  - intros a [Ha Hl]. exists (to_be 4 (blen a) ++ a). split_and!; [by apply (put_bytes_some maximum)|apply Forall_app; split; [apply to_be_ok|done]|].
    intros c. unfold take_bytes. rewrite <- app_assoc. rewrite wire_get by (unfold in_u, umax in *; pose proof (blen_nonneg a); lia). cbn [result_bind].
    rewrite (proj2 (Z.ltb_ge _ _)) by done. apply take_all.
  - intros b a c Hb H. apply result_bind_ok in H as ([n r] & E & H). apply wire_put in E as [Hn ->]; [|done]. apply Forall_app in Hb as [_ Hb].
    destruct (Z.ltb_spec maximum n); [done|]. apply take_raw_inv in H as [-> Hl]; [|apply Hn]. apply Forall_app in Hb as [Ha _].
    split; [split; [done|lia]|]. exists (to_be 4 (blen a) ++ a). split; [apply (put_bytes_some maximum); lia|]. by rewrite Hl, <- app_assoc.
Qed.

#[global] Instance partition_value_wired : Wired (field_ok MAX_LENGTH_DELIMITED_FIELD) put_bytes (take_bytes MAX_LENGTH_DELIMITED_FIELD).
Proof. by apply bytes_wired. Qed.

Definition name_ok (value : bytes) : Prop := str_ok value /\ blen value <= INDEX_COMPONENT_MAX_LEN.

#[global] Instance name_wired : Wired name_ok put_bytes (take_string INDEX_COMPONENT_MAX_LEN).
Proof.
  assert (Wired (field_ok INDEX_COMPONENT_MAX_LEN) put_bytes (take_bytes INDEX_COMPONENT_MAX_LEN)) as W by by apply bytes_wired.
  split.
  - intros a [[Ha Hu] Hl]. destruct (wired_put (Wired := W) a) as (p & E & Hp & Hg); [by split|]. exists p. split_and!; [done|done|].
    intros c. unfold take_string. rewrite Hg. cbn [result_bind]. unfold from_utf8. by rewrite Hu.
  - intros b a c Hb H. apply result_bind_ok in H as ([v r] & E & H). apply (wired_get (Wired := W)) in E as ([Hv Hl] & p & E & ->); [|done].
    unfold from_utf8 in H. destruct (utf8_valid v) eqn:Eu; [|done]. injection H as <- <-. split; [by split|]. by exists p.
Qed.

#[global] Instance component_wired kind : Wired component_ok put_bytes (take_component kind).
Proof.
  split.
  - intros a [Hs Hl]. destruct (wired_put (Wired := name_wired) a) as (p & E & Hp & Hg); [split; [done|lia]|]. exists p. split_and!; [done|done|].
    intros c. unfold take_component. rewrite Hg. cbn [result_bind]. by rewrite (proj2 (component_new_ok kind a a)).
  - intros b a c Hb H. apply result_bind_ok in H as ([v r] & E & H). apply wired_get in E as ([Hs Hl] & p & E & ->); [|done].
    destruct (component_try_new kind v) as [w|e] eqn:Ec; [|done]. injection H as <- <-. apply component_new_ok in Ec as [Hc ->].
    split; [by split|]. by exists p.
Qed.

Definition option_ok {A} (ok : A -> Prop) (value : option A) : Prop := match value with Some value => ok value | None => True end.

#[global] Instance option_wired {A} (ok : A -> Prop) put get `{!Wired ok put get} : Wired (option_ok ok) (fun value => put_option value put) (take_option get).
Proof.
  split.
  - intros [a|] Ha.
    + destruct (wired_put a Ha) as (p & E & Hp & Hg). exists (1 :: p). cbn [put_option]. rewrite E. split_and!; [done|by apply Forall_cons|].
      intros c. unfold take_option. cbn [app]. rewrite take_byte. cbn [result_bind Z.eqb Pos.eqb]. by rewrite Hg.
    + exists [0]. split_and!; [done|by apply Forall_cons|]. intros c. unfold take_option. cbn [app]. by rewrite take_byte.
  - intros b a c Hb H. apply result_bind_ok in H as ([v r] & E & H). apply take_byte_ok in E as ->. apply Forall_cons in Hb as [_ Hb].
    destruct (Z.eqb_spec v 0) as [->|]; [injection H as <- <-; split; [done|by exists [0]]|].
    destruct (Z.eqb_spec v 1) as [->|]; [|done]. apply result_bind_ok in H as ([w r'] & E & [= <- <-]).
    apply wired_get in E as (Hw & p & E & ->); [|done]. split; [done|]. exists (1 :: p). cbn [put_option]. by rewrite E.
Qed.

(** ** Records and sums of fields *)

Lemma cons_get {A} {put1 : A -> Z} get `{!Wire any (fun a => [put1 a]) get} a c : get (put1 a :: c) = Ok (a, c).
Proof. exact (wire_get a c I). Qed.

(** Undoes one bind, one read or one comparison of a tag. *)
Ltac wired_step Hb :=
  match goal with
  | H : result_bind _ _ = Ok _ |- _ => apply result_bind_ok in H as (? & ? & H)
  | H : Ok _ = Ok _ |- _ => injection H; clear H; intros; subst
  | x : (_ * bytes)%type |- _ => destruct x
  | H : (if ?v =? ?k then _ else _) = Ok _ |- _ => destruct (Z.eqb_spec v k) as [->|]
  | H : unknown_discriminant _ _ = Ok _ |- _ => discriminate H
  | H : ?get ?b = Ok (_, _) |- _ =>
      lazymatch type of Hb with Forall _ b => idtac end;
      first [apply (wire_put (get := get)) in H as [? ->]; [|exact Hb] | apply (wired_get (get := get)) in H as (? & ? & ? & ->); [|exact Hb]];
      apply Forall_app in Hb as [_ Hb]
  end.

(** Uses what the writers of the fields wrote. *)
Ltac written := repeat match goal with E : ?put = Some _ |- context [?put] => rewrite E end; cbn [mbind option_bind].

(** What was read is what the writer would have written. *)
Ltac rewritten := eexists; split; [written; reflexivity|]; cbn [app]; rewrite <- ?app_assoc; cbn [app]; by rewrite <- ?app_assoc.

Lemma operation_read a c : uuid_ok a -> take_operation_id (a ++ c) = Ok (a, c).
Proof. exact (wire_get (get := take_operation_id) a c). Qed.

(** Reads one field a writer wrote. *)
Ltac read_field :=
  first
    [ rewrite take_byte
    | rewrite operation_read by assumption
    | match goal with |- context [?get (_ :: _)] => rewrite (cons_get get) end
    | match goal with Hg : forall c, ?get (?p ++ c) = _ |- context [?get (?p ++ _)] => rewrite Hg end
    | match goal with |- context [?get (_ ++ _)] => erewrite (wire_get (get := get)) by first [eassumption | exact I] end ];
  cbn [result_bind Z.eqb Pos.eqb].

Ltac read_fields := cbn [app]; rewrite <- ?app_assoc; cbn [app]; rewrite <- ?app_assoc; repeat read_field.

(** The bytes of fields. *)
Ltac fields_ok :=
  repeat first [assumption | apply to_be_ok | apply Forall_nil; exact I | apply (wire_ok (get := take_bool)); exact I
    | (apply Forall_cons; split; [first [done | match goal with |- byte_ok (_ ?x) => by destruct x end]|]) | (apply Forall_app; split) ].

Lemma byte_enum {A} {put1 : A -> Z} get `{!Wire any (fun a => [put1 a]) get} a : byte_ok (put1 a).
Proof. pose proof (wire_ok (get := get) a I) as H. cbv beta in H. apply Forall_cons in H. apply H. Qed.

#[global] Instance raw_identity_wired : Wired identity_ok put_identity take_identity.
Proof.
  split.
  - intros [f k l p] [Hl Hp]. cbn [label property] in *.
    destruct (wired_put (get := take_component "label") l Hl) as (pl & El & Hbl & Hgl).
    destruct (wired_put (get := take_component "property") p Hp) as (pp & Ep & Hbp & Hgp).
    eexists. split; [unfold put_identity; cbn [label property family element_kind]; written; reflexivity|]. split.
    + apply Forall_cons. split; [apply (byte_enum take_family)|]. apply Forall_cons. split; [apply (byte_enum take_element_kind)|]. by apply Forall_app.
    + intros c. unfold take_identity. by read_fields.
  - intros b a c Hb H. unfold take_identity in H. repeat wired_step Hb. split; [by split|]. unfold put_identity. cbn [label property family element_kind]. rewritten.
Qed.

(** ** Definitions *)

#[global] Instance secondary_wired : Wired secondary_ok put_secondary_definition take_secondary_definition.
Proof.
  split.
  - intros d Hd. assert (exists l p, component_ok l /\ component_ok p /\ label (secondary_identity d) = l /\ property (secondary_identity d) = p)
      as (l & p & Hl & Hp & El & Ep) by (destruct Hd; by exists (label (secondary_identity d)), (property (secondary_identity d))).
    destruct (wired_put (get := take_component "label") l Hl) as (pl & El' & Hbl & Hgl).
    destruct (wired_put (get := take_component "property") p Hp) as (pp & Ep' & Hbp & Hgp).
    destruct d as [l' p' u|l' p' dir|l' p'|l' p' dir]; cbn in El, Ep; subst l' p';
      (eexists; split; [unfold put_secondary_definition, put_names; written; reflexivity|]; split; [fields_ok|]; intros c;
       unfold take_secondary_definition; by read_fields).
  - intros b a c Hb H. unfold take_secondary_definition in H. repeat wired_step Hb; (split; [by split|]); unfold put_secondary_definition, put_names; rewritten.
Qed.

Lemma tenant_new_iff tenant tenant' : option_ok name_ok tenant -> tenant_try_new tenant = Ok tenant' <-> tenant_ok tenant /\ tenant' = tenant.
Proof.
  intros Ht. destruct tenant as [p|]; cbn [tenant_try_new tenant_ok]; [|by split; [intros [= <-]|intros [_ ->]]].
  destruct Ht as [Hs _]. split.
  - intros H. apply result_bind_ok in H as (w & E & [= <-]). apply component_new_ok in E as [Hc ->]. split; [by split|done].
  - intros [[_ Hc] ->]. by rewrite (proj2 (component_new_ok "tenant property" p p)).
Qed.

Lemma non_zero_iff field v w : in_u 32 v -> non_zero field v = Ok w <-> u32_ok v /\ w = v.
Proof.
  intros Hv. unfold non_zero, u32_ok, in_u in *. destruct (Z.eqb_spec v 0); split; try done; [lia|by intros [= <-]; split; [lia|]|by intros [_ ->]].
Qed.

(** The strict validation of a vector definition. *)
Lemma vector_new_iff d def :
  name_ok (vd_label d) -> name_ok (vd_property d) -> option_ok name_ok (vd_tenant_property d) -> in_u 32 (vd_dimension d) -> in_u 32 (vd_m d) ->
  in_u 32 (vd_m0 d) -> in_u 32 (vd_ef_construction d) -> float_ok (vd_ml d) -> in_u 32 (vd_simhash_threshold d) -> float_ok (vd_sampling_ratio d) ->
  float_ok (vd_adaptive_failure_probability d) ->
  vector_try_new (vd_element_kind d) (vd_label d) (vd_property d) (vd_tenant_property d) (vd_dimension d) (vd_metric d) (vd_m d) (vd_m0 d)
    (vd_ef_construction d) (vd_ml d) (vd_simhash_threshold d) (vd_sampling_ratio d) (vd_adaptive_enabled d) (vd_adaptive_failure_probability d) = Ok def
  <-> vector_ok d /\ def = d.
Proof.
  intros Hl Hp Ht Hd Hm Hm0 He [Hml Fml] Hs [Hr Fr] [Hf Ff]. unfold vector_try_new. rewrite Fml, Fr, Ff. cbn [negb orb]. split.
  - intros H. repeat (apply result_bind_ok in H as (? & ?E & H); apply non_zero_iff in E as [? ->]; [|done]).
    destruct (f32_le (vd_ml d) F32_ZERO) eqn:E1; [done|]. destruct (Z.ltb_spec SIMHASH_BITS (vd_simhash_threshold d)); [done|].
    destruct (f32_contains F32_ZERO F32_ONE (vd_sampling_ratio d)) eqn:E2; [|done].
    destruct (f32_contains F32_1E_6 F32_0_999_999 (vd_adaptive_failure_probability d)) eqn:E3; [|done]. cbn [negb] in H.
    apply result_bind_ok in H as (l & El & H). apply component_new_ok in El as [Hcl ->].
    apply result_bind_ok in H as (p & Ep & H). apply component_new_ok in Ep as [Hcp ->].
    apply result_bind_ok in H as (t & Et & [= <-]). apply tenant_new_iff in Et as [Hct ->]; [|done].
    split; [|by destruct d as [? ? ? ? ? ? [] ? ? ? ? ? ? ? ?]].
    split; try done; [split; (split; [by apply Hl || apply Hp|done])|unfold in_u in Hs; lia].
  - intros [[[Hcl Hcp] Hct Hvd Hvm Hvm0 Hve [_ E1] Hvs [_ E2] [_ E3]] ->].
    rewrite (proj2 (non_zero_iff "dimension" _ _ Hd) (conj Hvd eq_refl)), (proj2 (non_zero_iff "m" _ _ Hm) (conj Hvm eq_refl)),
      (proj2 (non_zero_iff "m0" _ _ Hm0) (conj Hvm0 eq_refl)), (proj2 (non_zero_iff "ef_construction" _ _ He) (conj Hve eq_refl)).
    cbn [result_bind]. rewrite E1, E2, E3, (proj2 (Z.ltb_ge _ _)) by apply Hvs. cbn [negb orb].
    rewrite (proj2 (component_new_ok "label" _ _)) by (split; [apply Hcl|reflexivity]). cbn [result_bind].
    rewrite (proj2 (component_new_ok "property" _ _)) by (split; [apply Hcp|reflexivity]). cbn [result_bind].
    rewrite (proj2 (tenant_new_iff _ _ Ht)) by done. cbn [result_bind]. by destruct d as [? ? ? ? ? ? [] ? ? ? ? ? ? ? ?].
Qed.

Lemma model_ok {A} (r : result IndexV2ModelError A) a : model r = Ok a <-> r = Ok a.
Proof. destruct r; cbn; split; (done || by intros [= ->]). Qed.

Lemma component_name c : component_ok c -> name_ok c.
Proof. intros [Hs Hc]. split; [done|lia]. Qed.

Lemma tenant_names t : tenant_ok t -> option_ok name_ok t.
Proof. destruct t; [apply component_name|done]. Qed.

Lemma u32_in v : u32_ok v -> in_u 32 v.
Proof. unfold u32_ok, in_u. lia. Qed.

#[global] Instance vector_wired : Wired vector_ok put_vector_definition take_vector_definition.
Proof.
  split.
  - intros d Hd. pose proof Hd as [[Hl Hp] Ht Hdi Hm Hm0 He [Hml _] Hs [Hr _] [Hf _]]. cbn [label property vector_identity] in Hl, Hp.
    assert (in_u 32 (vd_simhash_threshold d)) as Hs' by (unfold SIMHASH_BITS, in_u in *; lia).
    apply component_name in Hl, Hp. apply tenant_names in Ht. apply u32_in in Hdi, Hm, Hm0, He.
    destruct (wired_put (get := take_string INDEX_COMPONENT_MAX_LEN) _ Hl) as (pl & El & Hbl & Hgl).
    destruct (wired_put (get := take_string INDEX_COMPONENT_MAX_LEN) _ Hp) as (pp & Ep & Hbp & Hgp).
    destruct (wired_put (get := take_option (take_string INDEX_COMPONENT_MAX_LEN)) _ Ht) as (pt & Et & Hbt & Hgt). cbv beta in Et.
    destruct (wired_put (get := take_f32) _ Hml) as (pml & Eml & Hbml & Hgml).
    destruct (wired_put (get := take_f32) _ Hr) as (pr & Er & Hbr & Hgr). destruct (wired_put (get := take_f32) _ Hf) as (pf & Ef & Hbf & Hgf).
    eexists. split; [unfold put_vector_definition, put_names; written; reflexivity|]. split; [fields_ok|].
    intros c. unfold take_vector_definition. read_fields.
    replace (codec_u8 (vd_codec d) =? codec_u8 F32V1) with true by by destruct (vd_codec d). cbn [negb].
    rewrite (proj2 (model_ok _ d)); [done|]. by apply vector_new_iff.
  - intros b a c Hb H. unfold take_vector_definition in H. repeat wired_step Hb.
    match type of H with (if negb (?v =? ?k) then _ else _) = _ => destruct (Z.eqb_spec v k) as [->|]; [|done] end. cbn [negb] in H.
    repeat wired_step Hb.
    match goal with E : model (vector_try_new ?e ?l ?p ?t ?di ?me ?m ?m0 ?ef ?ml ?si ?sa ?ad ?fp) = Ok _ |- _ =>
      apply model_ok in E;
      apply (vector_new_iff {| vd_element_kind := e; vd_label := l; vd_property := p; vd_tenant_property := t; vd_dimension := di; vd_metric := me;
        vd_codec := F32V1; vd_m := m; vd_m0 := m0; vd_ef_construction := ef; vd_ml := ml; vd_simhash_threshold := si; vd_sampling_ratio := sa;
        vd_adaptive_enabled := ad; vd_adaptive_failure_probability := fp |}) in E as [Hok ->]; [|done..] end.
    split; [exact Hok|]. unfold put_vector_definition, put_names.
    cbn [vd_element_kind vd_label vd_property vd_tenant_property vd_dimension vd_metric vd_codec vd_m vd_m0 vd_ef_construction vd_ml
      vd_simhash_threshold vd_sampling_ratio vd_adaptive_enabled vd_adaptive_failure_probability]. rewritten.
Qed.

Lemma text_new_iff k l p t an po def : name_ok l -> name_ok p -> option_ok name_ok t ->
  text_try_new k l p t an po = Ok def <->
  text_ok def /\ def = {| td_element_kind := k; td_label := l; td_property := p; td_tenant_property := t; td_analyzer := an; td_positions_enabled := po |}.
Proof.
  intros Hl Hp Ht. unfold text_try_new. split.
  - intros H. apply result_bind_ok in H as (l' & El & H). apply component_new_ok in El as [Hcl ->].
    apply result_bind_ok in H as (p' & Ep & H). apply component_new_ok in Ep as [Hcp ->].
    apply result_bind_ok in H as (t' & Et & [= <-]). apply tenant_new_iff in Et as [Hct ->]; [|done].
    split; [|done]. split; [split; (split; [by apply Hl || apply Hp|done])|done].
  - intros [[[Hcl Hcp] Hct] ->]. cbn [text_identity label property td_label td_property td_element_kind td_tenant_property] in *.
    rewrite (proj2 (component_new_ok "label" l l)) by (split; [apply Hcl|reflexivity]). cbn [result_bind].
    rewrite (proj2 (component_new_ok "property" p p)) by (split; [apply Hcp|reflexivity]). cbn [result_bind].
    by rewrite (proj2 (tenant_new_iff t t Ht) (conj Hct eq_refl)).
Qed.

#[global] Instance text_wired : Wired text_ok put_text_definition take_text_definition.
Proof.
  split.
  - intros [k l p t an po] Hd. pose proof Hd as [[Hl Hp] Ht]. cbn [label property text_identity td_label td_property td_element_kind td_tenant_property] in Hl, Hp, Ht.
    apply component_name in Hl, Hp. apply tenant_names in Ht.
    destruct (wired_put (get := take_string INDEX_COMPONENT_MAX_LEN) _ Hl) as (pl & El & Hbl & Hgl).
    destruct (wired_put (get := take_string INDEX_COMPONENT_MAX_LEN) _ Hp) as (pp & Ep & Hbp & Hgp).
    destruct (wired_put (get := take_option (take_string INDEX_COMPONENT_MAX_LEN)) _ Ht) as (pt & Et & Hbt & Hgt). cbv beta in Et.
    eexists. split; [unfold put_text_definition, put_names; cbn [td_label td_property td_element_kind td_tenant_property]; written; reflexivity|].
    cbn [td_element_kind td_analyzer td_positions_enabled]. split; [fields_ok|].
    intros c. unfold take_text_definition. read_fields. assert (text_try_new k l p t an po = Ok {| td_element_kind := k; td_label := l; td_property := p; td_tenant_property := t;
      td_analyzer := an; td_positions_enabled := po |}) as E by by apply text_new_iff. by rewrite E.
  - intros b a c Hb H. unfold take_text_definition in H. repeat wired_step Hb.
    match goal with E : model _ = Ok _ |- _ => apply model_ok, text_new_iff in E as [Hok ->]; [|done..] end.
    split; [exact Hok|]. unfold put_text_definition, put_names. cbn [td_label td_property td_element_kind td_tenant_property td_analyzer td_positions_enabled]. rewritten.
Qed.

#[global] Instance definition_wired : Wired definition_ok put_definition take_definition.
Proof.
  split.
  - intros [d|d|d] Hd; cbn [definition_ok] in Hd;
      [destruct (wired_put (get := take_secondary_definition) d Hd) as (p & E & Hp & Hg)
      |destruct (wired_put (get := take_vector_definition) d Hd) as (p & E & Hp & Hg)
      |destruct (wired_put (get := take_text_definition) d Hd) as (p & E & Hp & Hg)];
      (eexists; split; [unfold put_definition; written; reflexivity|]; split; [fields_ok|]; intros c; unfold take_definition; by read_fields).
  - intros b a c Hb H. unfold take_definition in H. repeat wired_step Hb; (split; [done|]); unfold put_definition; rewritten.
Qed.

(** ** Physical generations and states *)

Lemma descriptor_new_iff dim me co sc no ro d : in_u 32 dim ->
  descriptor_try_new dim me co sc no ro = Ok d <->
  descriptor_ok d /\ d = {| gd_dimension := dim; gd_metric := me; gd_codec := co; gd_score_semantic := sc; gd_cosine_norm_policy := no; gd_routing_layout := ro |}.
Proof.
  intros Hd. unfold descriptor_try_new. split.
  - intros H. apply result_bind_ok in H as (? & E & H). apply non_zero_iff in E as [? ->]; [|done].
    destruct (legal_semantics me sc no) eqn:El; [|done]. apply scores_iff in El. injection H as <-. by split.
  - intros [[Hdim Hl] ->]. cbn [gd_dimension gd_metric gd_score_semantic gd_cosine_norm_policy] in *.
    rewrite (proj2 (non_zero_iff _ _ _ Hd) (conj Hdim eq_refl)). cbn [result_bind]. by rewrite (proj2 (scores_iff _ _ _) Hl).
Qed.

#[global] Instance descriptor_wire routing :
  Wire (fun d => descriptor_ok d /\ gd_routing_layout d = routing) put_vector_descriptor_semantics (take_vector_descriptor routing).
Proof.
  split.
  - intros [dim me co sc no ro] c [Hd <-]. pose proof Hd as [Hdim _]. cbn [gd_dimension gd_routing_layout] in *. apply u32_in in Hdim.
    assert (descriptor_try_new dim me co sc no ro = Ok {| gd_dimension := dim; gd_metric := me; gd_codec := co; gd_score_semantic := sc;
      gd_cosine_norm_policy := no; gd_routing_layout := ro |}) as E by by apply descriptor_new_iff.
    unfold take_vector_descriptor, put_vector_descriptor_semantics. cbn [gd_dimension gd_metric gd_codec gd_score_semantic gd_cosine_norm_policy].
    read_fields. by rewrite E.
  - intros b a c Hb H. unfold take_vector_descriptor in H. repeat wired_step Hb.
    match goal with E : model _ = Ok _ |- _ => apply model_ok, descriptor_new_iff in E as [Hok ->]; [|done] end.
    split; [by split|]. unfold put_vector_descriptor_semantics. cbn [gd_dimension gd_metric gd_codec gd_score_semantic gd_cosine_norm_policy app].
    by rewrite <- app_assoc.
  - intros [dim me co sc no ro] _. unfold put_vector_descriptor_semantics. fields_ok.
Qed.

#[global] Instance layout_wire : Wire layout_ok put_layout take_layout.
Proof.
  split.
  - intros [n|] c Hl; unfold take_layout, put_layout; cbn [layout_ok] in Hl; by read_fields.
  - intros b a c Hb H. unfold take_layout in H. repeat wired_step Hb; by split.
  - intros [n|] _; unfold put_layout; fields_ok.
Qed.

#[global] Instance physical_wire : Wire physical_ok put_physical_generation take_physical_generation.
Proof.
  split.
  - intros [g|g l d|g] c [Hg Hp]; unfold take_physical_generation, put_physical_generation; cbn [physical_generation] in Hg; [by read_fields| |by read_fields].
    destruct Hp as [Hl Hd]. destruct (gd_routing_layout d) eqn:Er; cbn [routing_u8]; read_fields; cbn [orb];
      read_fields; (erewrite (wire_get (Wire := descriptor_wire _)) by (by split)); done.
  - intros b a c Hb H. unfold take_physical_generation in H. apply result_bind_ok in H as ([k r] & E & H).
    apply take_byte_ok in E as ->. apply Forall_cons in Hb as [_ Hb].
    destruct (Z.eqb_spec k 1) as [->|]; [repeat wired_step Hb; by split|].
    destruct (Z.eqb_spec k 2) as [->|]; cbn [orb] in H.
    { repeat wired_step Hb. match goal with Hd : _ /\ gd_routing_layout _ = _ |- _ => destruct Hd as [Hd Er] end.
      split; [by split|]. unfold put_physical_generation. rewrite Er. cbn [app routing_u8]. by rewrite <- !app_assoc. }
    destruct (Z.eqb_spec k 4) as [->|].
    { repeat wired_step Hb. match goal with Hd : _ /\ gd_routing_layout _ = _ |- _ => destruct Hd as [Hd Er] end.
      split; [by split|]. unfold put_physical_generation. rewrite Er. cbn [app routing_u8]. by rewrite <- !app_assoc. }
    destruct (Z.eqb_spec k 3) as [->|]; [|done]. repeat wired_step Hb. by split.
  - intros [g|g l d|g] [_ Hp]; unfold put_physical_generation; fields_ok.
    + apply (wire_ok (get := take_layout)), Hp.
Qed.

#[global] Instance state_wire : Wire state_ok put_index_state take_index_state.
Proof.
  split.
  - intros [p id|p id|p id|p id|g id] c (Hg & Ho & Hp); cbn [state_generation state_operation state_physical] in *;
      unfold take_index_state, put_index_state, take_physical_state; by read_fields.
  - intros b a c Hb H. unfold take_index_state, take_physical_state in H. repeat wired_step Hb;
      (split; [|unfold put_index_state; cbn [app]; by rewrite <- ?app_assoc]);
      (split_and!; cbn; try done; match goal with Hp : physical_ok _ |- _ => apply Hp end).
  - intros [p id|p id|p id|p id|g id] (Hg & Ho & Hp); cbn [state_generation state_operation state_physical] in *; unfold put_index_state;
      (apply Forall_cons; split; [done|]); (apply Forall_app; split; [|apply Ho]); (apply to_be_ok || by apply (wire_ok (get := take_physical_generation))).
Qed.

(** ** Whole values *)

(** A reader that leaves nothing of exactly what the writer writes. *)
Definition whole {A} (ok : A -> Prop) (put : A -> option bytes) (get : bytes -> result EncodingError (A * bytes)) : Prop :=
  forall b a, bytes_ok b -> get b = Ok (a, []) <-> ok a /\ put a = Some b.

Lemma wired_whole {A} (ok : A -> Prop) put get `{!Wired ok put get} : whole ok put get.
Proof.
  intros b a Hb. split.
  - intros H. apply wired_get in H as (Ha & p & E & ->); [|done]. by rewrite app_nil_r.
  - intros [Ha E]. destruct (wired_put a Ha) as (p & E' & _ & Hg). rewrite E in E'. injection E' as <-. rewrite <- (app_nil_r b). apply Hg.
Qed.

Lemma value_finish_iff r : finish r = Ok tt <-> r = [].
Proof. by destruct r. Qed.

Lemma header_iff b k r : decoder_new b = Ok (k, r) <-> b = with_header k ++ r.
Proof.
  destruct b as [|v [|k' r']]; cbn [decoder_new]; [done|done|]. destruct (Z.eqb_spec v INDEX_V2_VALUE_VERSION) as [->|Hv]; cbn [negb].
  - split; [by intros [= <- <-]|by intros [= <- <-]].
  - split; [done|]. by intros [= -> _ _].
Qed.

Lemma finished_whole {A} (ok : A -> Prop) put get b a : whole ok put get -> bytes_ok b ->
  (let? (decoded, decoder) := get b in let? _ := finish decoder in Ok decoded) = Ok a <-> ok a /\ put a = Some b.
Proof.
  intros W Hb. rewrite <- (W b a Hb). split.
  - intros H. apply result_bind_ok in H as ([v r] & E & H). apply result_bind_ok in H as ([] & Hf & [= <-]).
    destruct r; [exact E|discriminate Hf].
  - intros ->. done.
Qed.

Lemma decode_value_iff {A} kind (ok : A -> Prop) put get b a : whole ok put get -> bytes_ok b ->
  decode_value kind get b = Ok a <-> ok a /\ exists p, put a = Some p /\ b = with_header kind ++ p.
Proof.
  intros W Hb. unfold decode_value. destruct (decoder_new b) as [[k r]|e] eqn:Eh; cbn [result_bind].
  - apply header_iff in Eh as ->. apply Forall_app in Hb as [_ Hr]. destruct (Z.eqb_spec k kind) as [->|Hk]; cbn [negb].
    + rewrite (finished_whole ok put get r a W Hr). split; [intros [Ha E]; split; [done|]; by exists r|].
      intros (Ha & p & E & H). apply app_inv_head in H as ->. done.
    + split; [done|]. intros (_ & p & _ & H). by injection H as ->.
  - split; [done|]. intros (_ & p & _ & H). apply header_iff in H. by rewrite Eh in H.
Qed.

Lemma framed_iff {A} kind (ok : A -> Prop) (put : A -> option bytes) a b :
  (ok a /\ exists p, put a = Some p /\ b = with_header kind ++ p) <-> ok a /\ (body ← put a; Some (with_header kind ++ body)) = Some b.
Proof.
  destruct (put a) as [p|]; cbn [mbind option_bind]; split; intros [Ha H]; (split; [done|]).
  - by destruct H as (q & [= ->] & ->).
  - apply (inj Some) in H as <-. by exists p.
  - by destruct H as (q & ? & _).
  - done.
Qed.

(** ** Index records *)

Definition put_parts (parts : Z * IndexIdentity * ValidatedDynamicIndexDefinition * Z * IndexStateV2) : option bytes :=
  let '(index_id, identity, definition, revision, state) := parts in
  identity ← put_identity identity;
  definition ← put_definition definition;
  Some (to_be 8 index_id ++ identity ++ definition ++ to_be 8 revision ++ put_index_state state).

Definition parts_ok (parts : Z * IndexIdentity * ValidatedDynamicIndexDefinition * Z * IndexStateV2) : Prop :=
  let '(index_id, identity, definition, revision, state) := parts in
  id_ok index_id /\ identity_ok identity /\ definition_ok definition /\ id_ok revision /\ state_ok state.

#[global] Instance parts_wired : Wired parts_ok put_parts take_record_parts.
Proof.
  split.
  - intros [[[[i ident] def] rev] st] (Hi & Hid & Hd & Hr & Hs).
    destruct (wired_put (get := take_identity) ident Hid) as (pi & Ei & Hbi & Hgi).
    destruct (wired_put (get := take_definition) def Hd) as (pd & Ed & Hbd & Hgd).
    eexists. split; [cbn [put_parts]; written; reflexivity|]. split.
    + repeat (apply Forall_app; split); try apply to_be_ok; try done. by apply (wire_ok (get := take_index_state)).
    + intros c. unfold take_record_parts. by read_fields.
  - intros b a c Hb H. unfold take_record_parts in H. repeat wired_step Hb. split; [by split_and!|]. cbn [put_parts]. rewritten.
Qed.

Lemma definition_identity_ok def : definition_ok def -> identity_ok (definition_identity def).
Proof. destruct def as [d|d|d]; intros H; apply H. Qed.

Lemma encode_record_eq r : encode_index_record r =
  body ← put_parts (index_id r, identity r, definition r, revision r, state r); Some (with_header INDEX_RECORD_KIND ++ body).
Proof. unfold encode_index_record, put_parts. destruct (put_identity _); [|done]. cbn [mbind option_bind]. by destruct (put_definition _). Qed.

(** [C16] Every valid index record is written without panicking, and the reader accepts exactly the bytes that some
    valid record is written as, and returns that record. *)
Theorem index_record_roundtrip (b : bytes) (record : IndexRecordV2) : bytes_ok b ->
  (record_ok record -> exists b', encode_index_record record = Some b' /\ bytes_ok b') /\
  (decode_index_record b = Ok record <-> record_ok record /\ encode_index_record record = Some b).
Proof.
  intros Hb. set (parts := (index_id record, identity record, definition record, revision record, state record)).
  assert (record_ok record -> parts_ok parts) as Hparts.
  { intros Hr. pose proof (definition_identity_ok _ (ro_definition _ Hr)) as Hi. rewrite <- (ro_identity _ Hr) in Hi. split_and!; (done || apply Hr). }
  split.
  - intros Hr. destruct (wired_put (get := take_record_parts) parts (Hparts Hr)) as (p & E & Hp & _). rewrite encode_record_eq. fold parts. rewrite E.
    eexists. split; [reflexivity|]. by do 2 (apply Forall_cons; split; [done|]).
  - rewrite encode_record_eq. fold parts. unfold decode_index_record. split.
    + intros H. apply result_bind_ok in H as ([[[[i ident] def] rev] st] & E & H).
      apply (decode_value_iff _ _ _ _ _ _ (wired_whole _ _ _) Hb) in E as (Hok & p & E & ->). apply model_ok in H.
      apply record_try_new_iff in H as (-> & Hid & Hf). subst parts. cbn [index_id identity definition revision state] in *. rewrite E. split; [|done].
      destruct Hok as (? & ? & ? & ? & ?). by split.
    + intros [Hr E]. destruct (put_parts parts) as [p|] eqn:Ep; [|done]. injection E as <-.
      rewrite (proj2 (decode_value_iff _ _ _ _ _ parts (wired_whole _ _ _) Hb)) by (split; [by apply Hparts|by exists p]).
      cbn [result_bind]. unfold parts. apply model_ok, record_try_new_iff. split; [by destruct record|]. split; [apply (ro_identity _ Hr)|apply (ro_fits _ Hr)].
Qed.

(** ** Control values *)

Definition version_ok (version : Z) : Prop := 0 < version < 2 ^ 16.
Definition reservation_ok (reservation : LegacyVectorPhysicalReservation) : Prop :=
  match reservation with
  | LegacySource => True
  | AdoptionBuilding index_id generation operation_id => id_ok index_id /\ id_ok generation /\ uuid_ok operation_id
  | AdoptedActive index_id generation | RetiringSource index_id generation => id_ok index_id /\ id_ok generation
  end.
Definition pointer_ok (pointer : OperationQueuePointerValue) : Prop :=
  ManagedKeysSpec.scope_ok (qp_scope pointer) /\ id_ok (qp_index_id pointer) /\ id_ok (qp_generation pointer) /\ id_ok (qp_record_revision pointer).
Definition metadata_ok (value : IndexV2MetadataValue) : Prop :=
  match value with
  | StorageVersion version => version_ok version
  | LogicalIndexIdWatermark id | VectorPhysicalIdWatermark id | TextCompactionPointer id => id_ok id
  | OperationQueuePointer pointer => pointer_ok pointer
  | LegacyVectorReservation reservation => reservation_ok reservation
  end.

#[global] Instance version_wire : Wire version_ok (to_be 2) take_version.
Proof.
  apply (ManagedKeysSpec.map_wire (in_u 16) version_ok (to_be 2) take_u16 version_new (fun v => v)); [apply _|..].
  - intros a b Ha H. unfold version_new in H. destruct (Z.eqb_spec a 0); [done|]. injection H as <-. unfold in_u, version_ok in *. split; [lia|done].
  - intros b Hb. unfold version_ok, in_u, version_new in *. split; [lia|]. by destruct (Z.eqb_spec b 0); [lia|].
Qed.

#[global] Instance scope_wire : Wire ManagedKeysSpec.scope_ok put_scope take_scope.
Proof.
  split.
  - intros [|t] c Ht; unfold take_scope, put_scope; [by read_fields|]. cbn [app]. rewrite take_byte. cbn [result_bind Z.eqb Pos.eqb].
    assert (take_raw 16 (to_be 16 t ++ c) = Ok (to_be 16 t, c)) as -> by apply (ManagedKeysSpec.take_bytes_app 16), blen_to_be.
    cbn [result_bind]. by rewrite of_to_be.
  - intros b a c Hb H. unfold take_scope in H. apply result_bind_ok in H as ([v r] & E & H). apply take_byte_ok in E as ->. apply Forall_cons in Hb as [_ Hb].
    destruct (Z.eqb_spec v 0) as [->|]; [by injection H as <- <-|]. destruct (Z.eqb_spec v 1) as [->|]; [|done].
    apply result_bind_ok in H as ([t r'] & E & [= <- <-]). apply take_raw_inv in E as [-> Hl]; [|done]. apply Forall_app in Hb as [Hv _].
    assert (16%nat = length t) as E by (unfold blen in Hl; lia). pose proof (of_be_bound t Hv) as Hx. rewrite <- E in Hx.
    split; [exact Hx|]. unfold put_scope. by rewrite E, to_of_be.
  - intros [|t] _; unfold put_scope; fields_ok.
Qed.

#[global] Instance reservation_wire : Wire reservation_ok put_reservation take_reservation.
Proof.
  split.
  - intros [|i g o|i g|i g] c H; unfold take_reservation, put_reservation; cbn [reservation_ok] in H;
      [|destruct H as (Hi & Hg & Ho)|destruct H as [Hi Hg]..]; by read_fields.
  - intros b a c Hb H. unfold take_reservation in H. repeat wired_step Hb; (split; [by cbn|]); unfold put_reservation; cbn [app]; by rewrite <- ?app_assoc.
  - intros [|i g o|i g|i g] H; unfold put_reservation; cbn [reservation_ok] in H; fields_ok. apply H.
Qed.

#[global] Instance pointer_wire : Wire pointer_ok put_pointer take_pointer.
Proof.
  split.
  - intros [sc i g r] c (Hs & Hi & Hg & Hr). unfold take_pointer, put_pointer. cbn [qp_scope qp_index_id qp_generation qp_record_revision] in *. by read_fields.
  - intros b a c Hb H. unfold take_pointer in H. repeat wired_step Hb. split; [by split_and!|]. unfold put_pointer. by rewrite <- ?app_assoc.
  - intros [sc i g r] (Hs & _). unfold put_pointer. cbn [qp_scope qp_index_id qp_generation qp_record_revision] in *.
    apply Forall_app. split; [by apply (wire_ok (get := take_scope))|fields_ok].
Qed.

#[global] Instance metadata_wire kind : Wire (fun v => metadata_ok v /\ metadata_kind v = kind) put_metadata (take_metadata kind).
Proof.
  split.
  - intros [v|v|v|v|v|v] c [Hv <-]; unfold take_metadata, put_metadata; cbn [metadata_ok metadata_kind Z.eqb Pos.eqb] in *;
      try (rewrite (wire_get (get := take_pointer)) by done); by read_fields.
  - intros b a c Hb H. unfold take_metadata in H. repeat wired_step Hb; by split_and!.
  - intros [v|v|v|v|v|v] [Hv _]; cbn [metadata_ok put_metadata] in *; try apply to_be_ok;
      [by apply (wire_ok (get := take_pointer))|by apply (wire_ok (get := take_reservation))].
Qed.

Lemma metadata_iff b value : bytes_ok b ->
  decode_metadata_value b = Ok value <-> metadata_ok value /\ encode_metadata_value value = b.
Proof.
  intros Hb. unfold decode_metadata_value. destruct (decoder_new b) as [[k r]|e] eqn:Eh; cbn [result_bind].
  - apply header_iff in Eh as ->. apply Forall_app in Hb as [_ Hr]. unfold encode_metadata_value. split.
    + intros H. apply result_bind_ok in H as ([v r'] & E & H). apply result_bind_ok in H as ([] & Hf & [= <-]). apply value_finish_iff in Hf as ->.
      apply wire_put in E as [[Hv <-] ->]; [|done]. by rewrite app_nil_r.
    + intros [Hv E]. injection E as <- E. rewrite <- E, <- (app_nil_r (put_metadata value)). by rewrite wire_get.
  - split; [done|]. intros [_ <-]. unfold encode_metadata_value in Eh.
    by rewrite (proj2 (header_iff _ (metadata_kind value) (put_metadata value)) eq_refl) in Eh.
Qed.

(** ** Entity states *)

Definition partition_ok (partition : TextPartition) : Prop :=
  match partition with
  | Unpartitioned => True
  | TenantValue value => bytes_ok value /\ 0 < blen value <= MAX_LENGTH_DELIMITED_FIELD
  end.

Lemma tenant_value_iff v p : try_tenant_value v = Ok p <-> 0 < blen v <= MAX_LENGTH_DELIMITED_FIELD /\ p = TenantValue v.
Proof.
  unfold try_tenant_value. change Cursor.MAX_LENGTH_DELIMITED_FIELD with MAX_LENGTH_DELIMITED_FIELD. pose proof (blen_nonneg v).
  destruct (Z.eqb_spec (blen v) 0); [split; [done|lia]|].
  destruct (Z.ltb_spec MAX_LENGTH_DELIMITED_FIELD (blen v)); [split; [done|lia]|]. split; [by intros [= <-]; split; [lia|]|by intros [_ ->]].
Qed.

#[global] Instance partition_wired : Wired partition_ok put_partition take_partition.
Proof.
  split.
  - intros [|v] Hv; [exists [1]; split_and!; [done|fields_ok|]; intros c; unfold take_partition; by read_fields|].
    destruct Hv as [Hb Hl]. destruct (wired_put (get := take_bytes MAX_LENGTH_DELIMITED_FIELD) v) as (p & E & Hp & Hg); [split; [done|lia]|].
    exists (2 :: p). cbn [put_partition]. rewrite E. split_and!; [done|fields_ok|]. intros c. unfold take_partition. read_fields.
    by rewrite (proj2 (tenant_value_iff v (TenantValue v))).
  - intros b a c Hb H. unfold take_partition in H. repeat wired_step Hb; [by split; [|exists [1]]|].
    match goal with E : work_model (try_tenant_value ?v) = Ok _ |- _ => destruct (try_tenant_value v) as [w|] eqn:Et; [|done]; injection E as -> end.
    apply tenant_value_iff in Et as [Hl ->]. match goal with Hf : field_ok _ _ |- _ => destruct Hf as [Hf _] end.
    split; [by split|]. cbn [put_partition]. rewritten.
Qed.

Definition applied_text_ok (state : TextPartition * Z) : Prop := partition_ok state.1 /\ id_ok state.2.

#[global] Instance applied_text_wired :
  Wired applied_text_ok (fun state => partition ← put_partition state.1; Some (partition ++ to_be 8 state.2)) take_text_state.
Proof.
  split.
  - intros [p v] [Hp Hv]. cbn [fst snd] in *. destruct (wired_put (get := take_partition) p Hp) as (pp & E & Hb & Hg).
    eexists. split; [written; reflexivity|]. split; [fields_ok|]. intros c. unfold take_text_state. by read_fields.
  - intros b a c Hb H. unfold take_text_state in H. repeat wired_step Hb. split; [by split|]. cbn [fst snd]. rewritten.
Qed.

#[global] Instance raw_entity_wire : Wire ManagedKeysSpec.entity_ok (fun e => element_kind_u8 (kind e) :: to_be 8 (entity_id e)) take_entity.
Proof.
  split.
  - intros [k i] c Hi. unfold ManagedKeysSpec.entity_ok in Hi. cbn [kind entity_id] in *. unfold take_entity. by read_fields.
  - intros b a c Hb H. unfold take_entity in H. repeat wired_step Hb. by split.
  - intros [k i] _. cbn [kind entity_id]. fields_ok.
Qed.

Definition entity_value_ok {S} (ok : S -> Prop) (value : EntityStateValue S) : Prop :=
  id_ok (ev_index_id value) /\ id_ok (ev_generation value) /\ ManagedKeysSpec.entity_ok (ev_entity value) /\ ok (ev_state value).

Lemma entity_state_whole {S} (ok : S -> Prop) put get : whole ok put get -> whole (entity_value_ok ok) (put_entity_state put) (take_entity_state get).
Proof.
  intros W b a Hb. split.
  - intros H. unfold take_entity_state in H. apply result_bind_ok in H as ([i r1] & E & H). apply wire_put in E as [Hi ->]; [|done].
    apply Forall_app in Hb as [_ Hb]. apply result_bind_ok in H as ([g r2] & E & H). apply wire_put in E as [Hg ->]; [|done].
    apply Forall_app in Hb as [_ Hb]. apply result_bind_ok in H as ([e r3] & E & H). apply wire_put in E as [He ->]; [|done].
    apply Forall_app in Hb as [_ Hb]. apply result_bind_ok in H as ([st r4] & E & [= <- ->]). apply W in E as [Hs E]; [|done].
    split; [by split_and!|]. unfold put_entity_state. cbn [ev_index_id ev_generation ev_entity ev_state]. by rewrite E.
  - intros [(Hi & Hg & He & Hs) E]. destruct a as [i g e st]. unfold put_entity_state in E. cbn [ev_index_id ev_generation ev_entity ev_state] in *.
    destruct (put st) as [p|] eqn:Ep; [|done]. cbn [mbind option_bind] in E. apply (inj Some) in E as <-. unfold take_entity_state.
    do 2 (apply Forall_app in Hb as [_ Hb]). apply Forall_cons in Hb as [_ Hb]. apply Forall_app in Hb as [_ Hb].
    rewrite wire_get by done. cbn [result_bind]. rewrite wire_get by done. cbn [result_bind].
    pose proof (wire_get (Wire := raw_entity_wire) e p He) as Ee. cbv beta in Ee. cbn [app] in Ee. rewrite Ee. cbn [result_bind].
    by rewrite (proj2 (W p st Hb) (conj Hs Ep)).
Qed.

Section Digest.
Context {SH : Sha256}.

Lemma equality_from_parts_some d c : EqualityValue.try_from_parts d c = Some (equality_from_parts d c).
Proof.
  unfold EqualityValue.try_from_parts, equality_from_parts. destruct (EqualityValue.validate_canonical c); [|done].
  by rewrite EqualityValueSpec.digest_some.
Qed.

Lemma equality_from_parts_iff d c v : bytes_ok c -> equality_from_parts d c = Ok v <->
  ManagedKeysSpec.equality_value_ok v /\ v = {| EqualityValue.digest := d; EqualityValue.canonical := c |}.
Proof.
  intros Hc. destruct (ManagedKeysSpec.try_from_parts_spec d c) as (r & E & H). rewrite equality_from_parts_some in E. injection E as ->.
  rewrite H. unfold ManagedKeysSpec.equality_value_ok. split.
  - intros (Hv & Hd & ->). by split_and!.
  - intros [(_ & Hv & Hd) ->]. by split_and!.
Qed.

Definition secondary_value_ok (value : CanonicalSecondaryValue) : Prop :=
  match value with
  | EqualitySecondary value => ManagedKeysSpec.equality_value_ok value
  | RangeSecondary value => ManagedKeysSpec.range_value_ok value
  end.

#[global] Instance secondary_value_wired : Wired secondary_value_ok put_secondary_value take_secondary_value.
Proof.
  split.
  - intros [v|v] Hv; cbn [secondary_value_ok] in Hv.
    + destruct (ManagedKeysSpec.equality_value_len v Hv) as [[Hbd Hld] Hlc]. pose proof Hv as (Hbc & _ & _).
      destruct (wired_put (get := take_bytes MAX_LENGTH_DELIMITED_FIELD) (EqualityValue.canonical v)) as (p & E & Hp & Hg);
        [split; [done|unfold EqualityValue.MAX_EQUALITY_CANONICAL_LEN, MAX_LENGTH_DELIMITED_FIELD in *; lia]|].
      eexists. split; [unfold put_secondary_value; written; reflexivity|]. split; [fields_ok|]. intros c. unfold take_secondary_value. read_fields.
      rewrite <- Hld, take_all. cbn [result_bind]. rewrite Hg. cbn [result_bind].
      rewrite (proj2 (equality_from_parts_iff _ _ v Hbc)) by (split; [done|by destruct v]). done.
    + pose proof (ManagedKeysSpec.range_value_len v Hv) as Hl. destruct Hv as [Hbe Hve].
      destruct (wired_put (get := take_bytes MAX_LENGTH_DELIMITED_FIELD) (RangeValue.encoded v)) as (p & E & Hp & Hg);
        [split; [done|unfold RangeValue.MAX_RANGE_ENCODED_LEN, MAX_LENGTH_DELIMITED_FIELD in *; lia]|].
      eexists. split; [unfold put_secondary_value; written; reflexivity|]. split; [fields_ok|]. intros c. unfold take_secondary_value. read_fields.
      rewrite (proj2 (ManagedKeysSpec.try_from_encoded_iff (RangeValue.direction v) (RangeValue.encoded v) v)) by (split; [done|by destruct v]). done.
  - intros b a c Hb H. unfold take_secondary_value in H. apply result_bind_ok in H as ([tag r] & E & H). apply take_byte_ok in E as ->.
    apply Forall_cons in Hb as [_ Hb]. destruct (Z.eqb_spec tag 1) as [->|]; [|destruct (Z.eqb_spec tag 2) as [->|]; [|done]].
    + apply result_bind_ok in H as ([d r1] & E & H). apply take_raw_inv in E as [-> Hl]; [|done]. apply Forall_app in Hb as [Hd Hb].
      apply result_bind_ok in H as ([v r2] & E & H). apply (wired_get (get := take_bytes MAX_LENGTH_DELIMITED_FIELD)) in E as ([Hv _] & p & E & ->); [|done].
      apply result_bind_ok in H as (w & Ew & [= <- <-]). apply equality_from_parts_iff in Ew as [Hok ->]; [|done]. split; [done|].
      unfold put_secondary_value. cbn [EqualityValue.canonical EqualityValue.digest]. rewritten.
    + repeat wired_step Hb. match goal with Hf : field_ok _ _ |- _ => destruct Hf as [Hf _] end.
      match goal with Ew : RangeValue.try_from_encoded _ _ = Ok _ |- _ => apply ManagedKeysSpec.try_from_encoded_iff in Ew as [Hok ->] end.
      split; [by split|]. unfold put_secondary_value. cbn [RangeValue.encoded RangeValue.direction]. rewritten.
Qed.

Definition delta_state_ok (state : CoalescedBuildDeltaState) : Prop :=
  match state with
  | Marker => True
  | SecondaryBefore previous => option_ok secondary_value_ok previous
  | VectorBefore previous => option_ok partition_ok previous
  end.
Definition applied_state_ok (state : AppliedFamilyState) : Prop :=
  match state with
  | AppliedSecondary state => option_ok secondary_value_ok state
  | AppliedVector state => option_ok partition_ok state
  | AppliedText state => option_ok applied_text_ok state
  end.

Lemma delta_state_whole : whole delta_state_ok put_delta_state take_delta_state.
Proof.
  intros b a Hb. unfold take_delta_state. destruct b as [|t b]; cbn [is_finished].
  - split; [by intros [= <-]|]. intros [_ E]. destruct a as [|a|a]; [done|unfold put_delta_state in E..].
    + by destruct (put_option a put_secondary_value).
    + by destruct (put_option a put_partition).
  - apply Forall_cons in Hb as [_ Hb]. rewrite take_byte. cbn [result_bind]. split.
    + intros H. destruct (Z.eqb_spec t 1) as [->|]; [|destruct (Z.eqb_spec t 2) as [->|]; [|done]];
        repeat wired_step Hb; (split; [done|]); unfold put_delta_state; written; by rewrite app_nil_r.
    + intros [Ha E]. destruct a as [|a|a]; [done|..]; cbn [delta_state_ok put_delta_state] in *.
      * destruct (wired_put (get := take_option take_secondary_value) a Ha) as (p & Ep & _ & Hg). cbv beta in Ep. rewrite Ep in E. injection E as <- <-.
        cbn [Z.eqb Pos.eqb]. rewrite <- (app_nil_r p), Hg. done.
      * destruct (wired_put (get := take_option take_partition) a Ha) as (p & Ep & _ & Hg). cbv beta in Ep. rewrite Ep in E. injection E as <- <-.
        cbn [Z.eqb Pos.eqb]. rewrite <- (app_nil_r p), Hg. done.
Qed.

#[global] Instance applied_state_wired : Wired applied_state_ok put_applied_state take_applied_state.
Proof.
  split.
  - intros [v|v|v] Hv; cbn [applied_state_ok] in Hv;
      [destruct (wired_put (get := take_option take_secondary_value) v Hv) as (p & E & Hp & Hg)
      |destruct (wired_put (get := take_option take_partition) v Hv) as (p & E & Hp & Hg)
      |destruct (wired_put (get := take_option take_text_state) v Hv) as (p & E & Hp & Hg)]; cbv beta in E;
      (eexists; split; [unfold put_applied_state; written; reflexivity|]; split; [fields_ok|]; intros c; unfold take_applied_state; by read_fields).
  - intros b a c Hb H. unfold take_applied_state in H. repeat wired_step Hb; (split; [done|]); unfold put_applied_state; rewritten.
Qed.

Lemma build_delta_iff b delta : bytes_ok b ->
  decode_build_delta b = Ok delta <-> entity_value_ok delta_state_ok delta /\ encode_build_delta delta = Some b.
Proof.
  intros Hb. unfold decode_build_delta. rewrite (decode_value_iff _ _ _ _ _ _ (entity_state_whole _ _ _ delta_state_whole) Hb).
  unfold encode_build_delta. apply framed_iff.
Qed.

Lemma applied_state_iff b applied : bytes_ok b ->
  decode_applied_state b = Ok applied <-> entity_value_ok applied_state_ok applied /\ encode_applied_state applied = Some b.
Proof.
  intros Hb. unfold decode_applied_state.
  rewrite (decode_value_iff _ _ _ _ _ _ (entity_state_whole _ _ _ (wired_whole applied_state_ok put_applied_state take_applied_state)) Hb).
  unfold encode_applied_state. apply framed_iff.
Qed.

Lemma delta_state_some state : delta_state_ok state -> is_Some (put_delta_state state).
Proof.
  destruct state as [|v|v]; intros Hv; [by eexists|..]; cbn [delta_state_ok put_delta_state] in *.
  - destruct (wired_put (get := take_option take_secondary_value) v Hv) as (p & E & _). cbv beta in E. rewrite E. by eexists.
  - destruct (wired_put (get := take_option take_partition) v Hv) as (p & E & _). cbv beta in E. rewrite E. by eexists.
Qed.

(** [C38] Control values, build deltas and applied states: valid ones are written without panicking, and the readers
    accept exactly the bytes some valid value is written as, with that value. *)
Theorem lifecycle_values_roundtrip (b : bytes) : bytes_ok b ->
  (forall value, decode_metadata_value b = Ok value <-> metadata_ok value /\ encode_metadata_value value = b) /\
  (forall delta, decode_build_delta b = Ok delta <-> entity_value_ok delta_state_ok delta /\ encode_build_delta delta = Some b) /\
  (forall applied, decode_applied_state b = Ok applied <-> entity_value_ok applied_state_ok applied /\ encode_applied_state applied = Some b) /\
  (forall delta, entity_value_ok delta_state_ok delta -> is_Some (encode_build_delta delta)) /\
  (forall applied, entity_value_ok applied_state_ok applied -> is_Some (encode_applied_state applied)).
Proof.
  intros Hb. split_and!.
  - intros value. by apply metadata_iff.
  - intros delta. by apply build_delta_iff.
  - intros applied. by apply applied_state_iff.
  - intros delta (_ & _ & _ & Hs). apply delta_state_some in Hs as [p E]. unfold encode_build_delta, put_entity_state. rewrite E. by eexists.
  - intros applied (_ & _ & _ & Hs). destruct (wired_put (get := take_applied_state) _ Hs) as (p & E & _).
    unfold encode_applied_state, put_entity_state. rewrite E. by eexists.
Qed.
End Digest.

(** ** Reservations of legacy vector namespaces *)

(** Only the exact operation that adopts a namespace ends its adoption, and a namespace is owned by the generation
    that adopted it. *)
Lemma reservation_exclusive r i g o r' : begin_adoption r i g o = Some r' ->
  r = LegacySource /\ abort r' i g o = Some LegacySource /\ activate r' i g o = Some (AdoptedActive i g) /\
  forall i' g' o' r'', (abort r' i' g' o' = Some r'' \/ activate r' i' g' o' = Some r'') -> i' = i /\ g' = g /\ o' = o.
Proof.
  intros H. destruct r; try done. injection H as <-. cbn [abort activate]. rewrite !Z.eqb_refl, bool_decide_eq_true_2 by done. split_and!; try done.
  intros i' g' o' r''. destruct (Z.eqb_spec i i'), (Z.eqb_spec g g'), (bool_decide_reflect (o = o')); cbn [andb]; intros [?|?]; by subst.
Qed.

(** ** Samples *)

(** A digest, for the samples. *)
#[local] Instance lifecycle_sha : Sha256.
Proof.
  refine {| sha256 := fun b => replicate 32 (blen b mod 256) |}.
  - intros b. apply length_replicate.
  - intros b. apply Forall_replicate, byte_ok_mod.
Defined.

Lemma index_record_roundtrip_witness :
  exists b, encode_index_record sample_record = Some b /\ bytes_ok b /\ decode_index_record b = Ok sample_record.
Proof.
  destruct (encode_index_record sample_record) as [b|] eqn:E; [|vm_compute in E; discriminate E]. exists b. split; [done|].
  assert (bytes_ok b) as Hb by (vm_compute in E; injection E as <-; repeat constructor; discriminate).
  split; [done|]. destruct (index_record_roundtrip b sample_record Hb) as [_ H]. apply H. split; [exact sample_record_ok|exact E].
Defined.

Lemma lifecycle_values_roundtrip_witness :
  let b := with_header BUILD_DELTA_KIND ++ to_be 8 1 ++ to_be 8 2 ++ 0x01 :: to_be 8 9 in
  bytes_ok b /\ encode_build_delta {| ev_index_id := 1; ev_generation := 2; ev_entity := {| kind := Node; entity_id := 9 |}; ev_state := Marker |} = Some b.
Proof.
  intros b. assert (bytes_ok b) as Hb by (subst b; vm_compute; repeat constructor; discriminate). split; [exact Hb|].
  destruct (lifecycle_values_roundtrip b Hb) as (_ & H & _). apply H. vm_compute. reflexivity.
Defined.
End LifecycleSpec.
