(* ===== verification/OperationRecord.v ===== *)
(** Operation records of index builds and drops: progress, claims, blockers, queue
    schedules and the transitions between them, crates/db/src/index_lifecycle/operation.rs.

    A cursor is its bytes, a claim sequence the [Z] it holds. The predicates and maps
    that visit cursors are pure functions, as those of the callers are. *)
From S2P Require Import Prelude Bytes Cursor IndexIdentity.

Open Scope Z_scope.

Module OperationRecord.
Export IndexIdentity.

Definition INDEX_CURSOR_MAX_LEN : Z := 1024 * 1024.

Inductive IndexOperationModelError :=
| OversizedCursor (actual maximum : Z)
| ZeroClaimSequence
| ProgressFamilyMismatch
| ProgressKindMismatch
| CompletionKindMismatch
| CompletionProgressMismatch
| IdentityFamilyMismatch
| InvalidBlocker (reason : string)
| InvalidQueueSchedule (reason : string)
| InvalidTextManifestValidationProgress (reason : string)
| IllegalExecutionTransition (from transition : string).

(** [Display] of the error. *)
Definition operation_error_to_string (e : IndexOperationModelError) : string :=
  match e with
  | OversizedCursor actual maximum => "operation cursor is " +:+ fmt_dec actual +:+ " bytes; maximum is " +:+ fmt_dec maximum
  | ZeroClaimSequence => "operation claim sequence must be non-zero"
  | ProgressFamilyMismatch => "operation progress family does not match operation family"
  | ProgressKindMismatch => "operation progress does not match operation kind"
  | CompletionKindMismatch => "operation completion outcome does not match operation kind"
  | CompletionProgressMismatch => "operation completion outcome does not match build progress mode"
  | IdentityFamilyMismatch => "operation identity does not match operation family"
  | InvalidBlocker reason => "invalid blocker payload: " +:+ reason
  | InvalidQueueSchedule reason => "invalid operation queue schedule: " +:+ reason
  | InvalidTextManifestValidationProgress reason => "invalid text manifest validation progress: " +:+ reason
  | IllegalExecutionTransition from transition => "illegal operation transition from " +:+ from +:+ " using " +:+ transition
  end.

(** [?] on an [IndexV2ModelError], by its [From] instance. *)
Definition nested {A} (r : result IndexV2ModelError A) : result IndexOperationModelError A :=
  match r with
  | Ok a => Ok a
  | Err _ => Err (InvalidBlocker "nested V2 model validation failed")
  end.

(** [IndexCursor::try_new]. *)
Definition cursor_try_new (value : bytes) : result IndexOperationModelError bytes :=
  if INDEX_CURSOR_MAX_LEN <? blen value then Err (OversizedCursor (blen value) INDEX_CURSOR_MAX_LEN) else Ok value.

(** ** Progress *)

Record OperationCounters := { entities : Z; input_bytes : Z; output_operations : Z; output_bytes : Z }.
Definition counters_default : OperationCounters := {| entities := 0; input_bytes := 0; output_operations := 0; output_bytes := 0 |}.

Record SourceScanProgress := { sc_inclusive_upper_bound : bytes; sc_cursor : option bytes; sc_counters : OperationCounters }.
Record PrefixScanProgress := { ps_cursor : option bytes; ps_counters : OperationCounters }.
Record NoCursorProgress := { nc_counters : OperationCounters }.

Record TextManifestPartitionValidation := {
  pv_partition_fingerprint : bytes; pv_root_revision : Z; pv_page_count : Z; pv_split_count : Z; pv_next_page : Z;
  pv_observed_split_count : Z }.

(** [NonZero::new(value)], or the error of a manifest checkpoint. *)
Definition manifest_non_zero (reason : string) (value : Z) : result IndexOperationModelError Z :=
  if value =? 0 then Err (InvalidTextManifestValidationProgress reason) else Ok value.

(** [TextManifestPartitionValidation::try_new]. *)
Definition partition_validation_try_new (partition_fingerprint : bytes) (root_revision page_count split_count next_page observed_split_count : Z)
    : result IndexOperationModelError TextManifestPartitionValidation :=
  let? page_count := manifest_non_zero "partition page count must be non-zero" page_count in
  let? split_count := manifest_non_zero "partition split count must be non-zero" split_count in
  let? next_page := manifest_non_zero "incomplete partition must have consumed at least page zero" next_page in
  let? observed_split_count := manifest_non_zero "an observed non-empty page must contribute a split" observed_split_count in
  let minimum_root_revision := page_count + 1 in
  match checked_sub page_count next_page with
  | None => Err (InvalidTextManifestValidationProgress "next page exceeds the root page count")
  | Some remaining_pages =>
      if (remaining_pages =? 0) || (observed_split_count <? next_page) || (split_count <? observed_split_count)
         || (split_count <? sat_add 64 observed_split_count remaining_pages) || (root_revision <? minimum_root_revision) then
        Err (InvalidTextManifestValidationProgress "partition counts, next page, split total, or minimum root revision disagree")
      else
        Ok {| pv_partition_fingerprint := partition_fingerprint; pv_root_revision := root_revision; pv_page_count := page_count;
              pv_split_count := split_count; pv_next_page := next_page; pv_observed_split_count := observed_split_count |}
  end.

Record TextManifestPageValidationProgress := {
  tp_cursor : option bytes; tp_partition : option TextManifestPartitionValidation; tp_counters : OperationCounters }.

(** [TextManifestPageValidationProgress::try_new]. *)
Definition page_validation_try_new (cursor : option bytes) (partition : option TextManifestPartitionValidation) (counters : OperationCounters)
    : result IndexOperationModelError TextManifestPageValidationProgress :=
  match partition, cursor with
  | Some _, None => Err (InvalidTextManifestValidationProgress "an incomplete partition requires its last complete page cursor")
  | _, _ => Ok {| tp_cursor := cursor; tp_partition := partition; tp_counters := counters |}
  end.

Inductive TextManifestValidationProgress :=
| Pages (progress : TextManifestPageValidationProgress)
| Roots (progress : PrefixScanProgress)
| EntityStates (progress : PrefixScanProgress).

Inductive LegacyVectorValidationLane := Core | Hot | Layer0.

(** [LegacyVectorValidationLane::next]. *)
Definition lane_next (self : LegacyVectorValidationLane) : option LegacyVectorValidationLane :=
  match self with
  | Core => Some Hot
  | Hot => Some Layer0
  | Layer0 => None
  end.

Record LegacyVectorValidationProgress := { lv_lane : LegacyVectorValidationLane; lv_cursor : option bytes; lv_counters : OperationCounters }.
Record LegacyVectorDirectoryValidationProgress := {
  ld_cursor : option bytes; ld_expected_markers : Z; ld_verified_markers : Z; ld_counters : OperationCounters }.

Inductive SecondaryBuildStage :=
| SecondaryScan (progress : SourceScanProgress)
| SecondaryCatchUp (progress : PrefixScanProgress)
| SecondaryValidate (progress : PrefixScanProgress)
| SecondaryActivate (progress : NoCursorProgress).

Inductive VectorBuildStage :=
| AdoptLegacy (progress : LegacyVectorValidationProgress)
| ValidateAdoptedDirectory (progress : LegacyVectorDirectoryValidationProgress)
| VectorScan (progress : SourceScanProgress)
| VectorCatchUp (progress : PrefixScanProgress)
| ValidateDescriptor (progress : PrefixScanProgress)
| VectorActivate (progress : NoCursorProgress).

Inductive TextBuildStage :=
| ScanSource (progress : SourceScanProgress)
| ScanPartitions (progress : SourceScanProgress)
| TextCatchUp (progress : PrefixScanProgress)
| Compact (progress : PrefixScanProgress)
| PrepareManifests (progress : PrefixScanProgress)
| ValidateManifests (progress : TextManifestValidationProgress)
| TextActivate (progress : NoCursorProgress).

Inductive SecondaryCleanupProgress :=
| DeleteEntries (progress : PrefixScanProgress)
| SecondaryDeleteDeltas (progress : PrefixScanProgress)
| SecondaryFinalize (progress : NoCursorProgress).

Inductive VectorCleanupProgress :=
| RetireCache (progress : NoCursorProgress)
| DeletePhysical (progress : PrefixScanProgress)
| VectorDeleteDeltas (progress : PrefixScanProgress)
| VectorFinalize (progress : NoCursorProgress).

Inductive TextCleanupProgress :=
| DeleteMetadata (progress : PrefixScanProgress)
| TextFinalize (progress : NoCursorProgress).

Inductive SecondaryBuildProgress := SecondaryConstructing (stage : SecondaryBuildStage) | SecondaryAborting (progress : SecondaryCleanupProgress).
Inductive VectorBuildProgress := VectorConstructing (stage : VectorBuildStage) | VectorAborting (progress : VectorCleanupProgress).
Inductive TextBuildProgress := TextConstructing (stage : TextBuildStage) | TextAborting (progress : TextCleanupProgress).

Inductive IndexOperationProgress :=
| SecondaryBuild (progress : SecondaryBuildProgress)
| VectorBuild (progress : VectorBuildProgress)
| TextBuild (progress : TextBuildProgress)
| SecondaryCleanup (progress : SecondaryCleanupProgress)
| VectorCleanup (progress : VectorCleanupProgress)
| TextCleanup (progress : TextCleanupProgress).

Inductive IndexOperationKind := Build | Drop.
Inductive IndexOperationFamily := SecondaryOperation | VectorOperation | TextOperation.

#[global] Instance IndexOperationKind_eq_dec : EqDecision IndexOperationKind.
Proof. solve_decision. Defined.
#[global] Instance IndexOperationFamily_eq_dec : EqDecision IndexOperationFamily.
Proof. solve_decision. Defined.

(** [IndexOperationProgress::family] and [kind]. *)
Definition progress_family (self : IndexOperationProgress) : IndexOperationFamily :=
  match self with
  | SecondaryBuild _ | SecondaryCleanup _ => SecondaryOperation
  | VectorBuild _ | VectorCleanup _ => VectorOperation
  | TextBuild _ | TextCleanup _ => TextOperation
  end.
Definition progress_kind (self : IndexOperationProgress) : IndexOperationKind :=
  match self with
  | SecondaryBuild _ | VectorBuild _ | TextBuild _ => Build
  | SecondaryCleanup _ | VectorCleanup _ | TextCleanup _ => Drop
  end.

Definition is_constructing_build (self : IndexOperationProgress) : bool :=
  match self with
  | SecondaryBuild (SecondaryConstructing _) | VectorBuild (VectorConstructing _) | TextBuild (TextConstructing _) => true
  | _ => false
  end.
Definition is_aborting_build (self : IndexOperationProgress) : bool :=
  match self with
  | SecondaryBuild (SecondaryAborting _) | VectorBuild (VectorAborting _) | TextBuild (TextAborting _) => true
  | _ => false
  end.

(** ** Cursors *)

(** [cursor.is_none_or(validate)]. *)
Definition is_none_or (cursor : option bytes) (validate : bytes -> bool) : bool :=
  match cursor with None => true | Some cursor => validate cursor end.

Section Validate.
Context (validate : bytes -> bool).

Definition source_is_valid (progress : SourceScanProgress) : bool :=
  validate (sc_inclusive_upper_bound progress) && is_none_or (sc_cursor progress) validate.
Definition prefix_is_valid (progress : PrefixScanProgress) : bool := is_none_or (ps_cursor progress) validate.

(** The cleanup arms of [cursors_are_valid]. *)
Definition secondary_cleanup_is_valid (progress : SecondaryCleanupProgress) : bool :=
  match progress with
  | DeleteEntries progress | SecondaryDeleteDeltas progress => prefix_is_valid progress
  | SecondaryFinalize _ => true
  end.
Definition vector_cleanup_is_valid (progress : VectorCleanupProgress) : bool :=
  match progress with
  | DeletePhysical progress | VectorDeleteDeltas progress => prefix_is_valid progress
  | RetireCache _ | VectorFinalize _ => true
  end.
Definition text_cleanup_is_valid (progress : TextCleanupProgress) : bool :=
  match progress with
  | DeleteMetadata progress => prefix_is_valid progress
  | TextFinalize _ => true
  end.

(** [IndexOperationProgress::cursors_are_valid]. *)
Definition cursors_are_valid (self : IndexOperationProgress) : bool :=
  match self with
  | SecondaryBuild (SecondaryConstructing stage) =>
      match stage with
      | SecondaryScan progress => source_is_valid progress
      | SecondaryCatchUp progress | SecondaryValidate progress => prefix_is_valid progress
      | SecondaryActivate _ => true
      end
  | SecondaryBuild (SecondaryAborting progress) | SecondaryCleanup progress => secondary_cleanup_is_valid progress
  | VectorBuild (VectorConstructing stage) =>
      match stage with
      | AdoptLegacy progress => is_none_or (lv_cursor progress) validate
      | ValidateAdoptedDirectory progress =>
          is_none_or (ld_cursor progress) validate && (ld_verified_markers progress <=? ld_expected_markers progress)
      | VectorScan progress => source_is_valid progress
      | VectorCatchUp progress | ValidateDescriptor progress => prefix_is_valid progress
      | VectorActivate _ => true
      end
  | VectorBuild (VectorAborting progress) | VectorCleanup progress => vector_cleanup_is_valid progress
  | TextBuild (TextConstructing stage) =>
      match stage with
      | ScanSource progress | ScanPartitions progress => source_is_valid progress
      | TextCatchUp progress | Compact progress | PrepareManifests progress => prefix_is_valid progress
      | ValidateManifests (Pages progress) => is_none_or (tp_cursor progress) validate
      | ValidateManifests (Roots progress) | ValidateManifests (EntityStates progress) => prefix_is_valid progress
      | TextActivate _ => true
      end
  | TextBuild (TextAborting progress) | TextCleanup progress => text_cleanup_is_valid progress
  end.
End Validate.

Section Map.
Context {E : Type} (map : bytes -> result E bytes).

Definition map_optional (cursor : option bytes) : result E (option bytes) :=
  match cursor with
  | None => Ok None
  | Some current => let? mapped := map current in Ok (Some mapped)
  end.
Definition map_source (progress : SourceScanProgress) : result E SourceScanProgress :=
  let? bound := map (sc_inclusive_upper_bound progress) in
  let? cursor := map_optional (sc_cursor progress) in
  Ok {| sc_inclusive_upper_bound := bound; sc_cursor := cursor; sc_counters := sc_counters progress |}.
Definition map_prefix (progress : PrefixScanProgress) : result E PrefixScanProgress :=
  let? cursor := map_optional (ps_cursor progress) in Ok {| ps_cursor := cursor; ps_counters := ps_counters progress |}.

(** A mapped part, in its constructor. *)
Definition within {A B : Type} (make : A -> B) (r : result E A) : result E B := let? a := r in Ok (make a).

Definition map_secondary_cleanup (progress : SecondaryCleanupProgress) : result E SecondaryCleanupProgress :=
  match progress with
  | DeleteEntries progress => within DeleteEntries (map_prefix progress)
  | SecondaryDeleteDeltas progress => within SecondaryDeleteDeltas (map_prefix progress)
  | SecondaryFinalize _ => Ok progress
  end.
Definition map_vector_cleanup (progress : VectorCleanupProgress) : result E VectorCleanupProgress :=
  match progress with
  | DeletePhysical progress => within DeletePhysical (map_prefix progress)
  | VectorDeleteDeltas progress => within VectorDeleteDeltas (map_prefix progress)
  | RetireCache _ | VectorFinalize _ => Ok progress
  end.
Definition map_text_cleanup (progress : TextCleanupProgress) : result E TextCleanupProgress :=
  match progress with
  | DeleteMetadata progress => within DeleteMetadata (map_prefix progress)
  | TextFinalize _ => Ok progress
  end.

Definition map_secondary_stage (stage : SecondaryBuildStage) : result E SecondaryBuildStage :=
  match stage with
  | SecondaryScan progress => within SecondaryScan (map_source progress)
  | SecondaryCatchUp progress => within SecondaryCatchUp (map_prefix progress)
  | SecondaryValidate progress => within SecondaryValidate (map_prefix progress)
  | SecondaryActivate _ => Ok stage
  end.
Definition map_vector_stage (stage : VectorBuildStage) : result E VectorBuildStage :=
  match stage with
  | AdoptLegacy progress =>
      let? cursor := map_optional (lv_cursor progress) in
      Ok (AdoptLegacy {| lv_lane := lv_lane progress; lv_cursor := cursor; lv_counters := lv_counters progress |})
  | ValidateAdoptedDirectory progress =>
      let? cursor := map_optional (ld_cursor progress) in
      Ok (ValidateAdoptedDirectory {| ld_cursor := cursor; ld_expected_markers := ld_expected_markers progress;
        ld_verified_markers := ld_verified_markers progress; ld_counters := ld_counters progress |})
  | VectorScan progress => within VectorScan (map_source progress)
  | VectorCatchUp progress => within VectorCatchUp (map_prefix progress)
  | ValidateDescriptor progress => within ValidateDescriptor (map_prefix progress)
  | VectorActivate _ => Ok stage
  end.
Definition map_manifests (progress : TextManifestValidationProgress) : result E TextManifestValidationProgress :=
  match progress with
  | Pages progress =>
      let? cursor := map_optional (tp_cursor progress) in
      Ok (Pages {| tp_cursor := cursor; tp_partition := tp_partition progress; tp_counters := tp_counters progress |})
  | Roots progress => within Roots (map_prefix progress)
  | EntityStates progress => within EntityStates (map_prefix progress)
  end.
Definition map_text_stage (stage : TextBuildStage) : result E TextBuildStage :=
  match stage with
  | ScanSource progress => within ScanSource (map_source progress)
  | ScanPartitions progress => within ScanPartitions (map_source progress)
  | TextCatchUp progress => within TextCatchUp (map_prefix progress)
  | Compact progress => within Compact (map_prefix progress)
  | PrepareManifests progress => within PrepareManifests (map_prefix progress)
  | ValidateManifests progress => within ValidateManifests (map_manifests progress)
  | TextActivate _ => Ok stage
  end.

(** [IndexOperationProgress::try_map_cursors]: the progress it leaves. *)
Definition progress_map_cursors (self : IndexOperationProgress) : result E IndexOperationProgress :=
  match self with
  | SecondaryBuild (SecondaryConstructing stage) => within (SecondaryBuild ∘ SecondaryConstructing) (map_secondary_stage stage)
  | SecondaryBuild (SecondaryAborting progress) => within (SecondaryBuild ∘ SecondaryAborting) (map_secondary_cleanup progress)
  | SecondaryCleanup progress => within SecondaryCleanup (map_secondary_cleanup progress)
  | VectorBuild (VectorConstructing stage) => within (VectorBuild ∘ VectorConstructing) (map_vector_stage stage)
  | VectorBuild (VectorAborting progress) => within (VectorBuild ∘ VectorAborting) (map_vector_cleanup progress)
  | VectorCleanup progress => within VectorCleanup (map_vector_cleanup progress)
  | TextBuild (TextConstructing stage) => within (TextBuild ∘ TextConstructing) (map_text_stage stage)
  | TextBuild (TextAborting progress) => within (TextBuild ∘ TextAborting) (map_text_cleanup progress)
  | TextCleanup progress => within TextCleanup (map_text_cleanup progress)
  end.
End Map.

(** ** Claims, blockers, outcomes and execution states *)

(** [IndexOperationFamily::owns_identity]. *)
Definition owns_identity (self : IndexOperationFamily) (identity : IndexIdentity) : bool :=
  match self, family identity with
  | SecondaryOperation, SecondaryEquality | SecondaryOperation, SecondaryRange | VectorOperation, Vector | TextOperation, Text => true
  | _, _ => false
  end.

(** [ClaimSequence::new]. *)
Definition claim_sequence_new (value : Z) : result IndexOperationModelError Z := if value =? 0 then Err ZeroClaimSequence else Ok value.

Record OperationClaim := { writer_epoch : bytes; sequence : Z }.

Inductive IndexOperationBlocker :=
| InvalidSourceData (entity_kind : IndexElementKind) (entity_id : Z)
| UniquenessViolation (first_entity_id second_entity_id : Z)
| OversizedEntity (entity_kind : IndexElementKind) (entity_id observed limit : Z)
| ManifestLimit (partition : TextPartition) (observed limit : Z)
| ObjectStoreConfigurationUnavailable
| InvariantViolation
| InvalidLegacyPhysical.

(** [IndexOperationBlocker::validate]. *)
Definition blocker_validate (self : IndexOperationBlocker) : result IndexOperationModelError unit :=
  match self with
  | OversizedEntity _ _ observed limit | ManifestLimit _ observed limit =>
      if observed <=? limit then Err (InvalidBlocker "observed size must exceed limit") else Ok tt
  | _ => Ok tt
  end.

Inductive BuildOperationOutcome := Succeeded | Aborted.
Inductive IndexOperationOutcome := BuildOutcome (outcome : BuildOperationOutcome) | DropSucceeded.

(** [IndexOperationOutcome::kind]. *)
Definition outcome_kind (self : IndexOperationOutcome) : IndexOperationKind :=
  match self with
  | BuildOutcome _ => Build
  | DropSucceeded => Drop
  end.

Inductive IndexOperationExecutionState :=
| Queued (not_before_unix_millis : option Z)
| Claimed (claim : OperationClaim)
| Blocked (blocker : IndexOperationBlocker)
| Completed (outcome : IndexOperationOutcome).

(** [IndexOperationExecutionState::name]. *)
Definition execution_name (self : IndexOperationExecutionState) : string :=
  match self with
  | Queued _ => "queued"
  | Claimed _ => "claimed"
  | Blocked _ => "blocked"
  | Completed _ => "completed"
  end.

Inductive IndexOperationQueueSchedule :=
| Immediate
| DelayedAfterProgress (not_before_unix_millis : Z)
| DelayedAfterTransientFailure (not_before_unix_millis : Z) (failed_writer_epoch : bytes).

Definition not_before_unix_millis (self : IndexOperationQueueSchedule) : option Z :=
  match self with
  | Immediate => None
  | DelayedAfterProgress not_before | DelayedAfterTransientFailure not_before _ => Some not_before
  end.
Definition transient_failure_from (self : IndexOperationQueueSchedule) (writer_epoch : bytes) : bool :=
  match self with
  | DelayedAfterTransientFailure _ failed_writer_epoch => bool_decide (failed_writer_epoch = writer_epoch)
  | _ => false
  end.
Definition is_eligible_for (self : IndexOperationQueueSchedule) (writer_epoch : bytes) (now_unix_millis : Z) : bool :=
  match self with
  | Immediate => true
  | DelayedAfterProgress not_before => not_before <=? now_unix_millis
  | DelayedAfterTransientFailure not_before failed_writer_epoch =>
      negb (bool_decide (failed_writer_epoch = writer_epoch)) || (not_before <=? now_unix_millis)
  end.

(** ** Records *)

Record IndexOperationRecord := {
  op_operation_id : bytes; op_index_id : Z; op_identity : IndexIdentity; op_generation : Z; op_index_record_revision : Z;
  op_operation_revision : Z; op_kind : IndexOperationKind; op_family : IndexOperationFamily; op_progress : IndexOperationProgress;
  op_attempt : Z; op_execution_state : IndexOperationExecutionState; op_queue_schedule : option IndexOperationQueueSchedule }.

(** The progress that an outcome ends. *)
Definition progress_matches (outcome : IndexOperationOutcome) (progress : IndexOperationProgress) : bool :=
  match outcome with
  | BuildOutcome Succeeded => is_constructing_build progress
  | BuildOutcome Aborted => is_aborting_build progress
  | DropSucceeded => match progress with SecondaryCleanup _ | VectorCleanup _ | TextCleanup _ => true | _ => false end
  end.

(** The checks of [try_new_with_queue_schedule] on the execution state alone. *)
Definition validate_completion (kind : IndexOperationKind) (progress : IndexOperationProgress) (execution_state : IndexOperationExecutionState)
    : result IndexOperationModelError unit :=
  match execution_state with
  | Completed outcome =>
      if negb (bool_decide (outcome_kind outcome = kind)) then Err CompletionKindMismatch
      else if negb (progress_matches outcome progress) then Err CompletionProgressMismatch
      else Ok tt
  | _ => Ok tt
  end.
Definition validate_blocked (execution_state : IndexOperationExecutionState) : result IndexOperationModelError unit :=
  match execution_state with
  | Blocked blocker => blocker_validate blocker
  | _ => Ok tt
  end.
Definition validate_schedule (execution_state : IndexOperationExecutionState) (queue_schedule : option IndexOperationQueueSchedule)
    : result IndexOperationModelError unit :=
  match execution_state, queue_schedule with
  | Queued not_before, Some schedule =>
      if bool_decide (not_before = not_before_unix_millis schedule) then Ok tt
      else Err (InvalidQueueSchedule "queued deadline disagrees with schedule")
  | Queued _, None => Err (InvalidQueueSchedule "queued operation has no schedule")
  | _, None => Ok tt
  | _, Some _ => Err (InvalidQueueSchedule "non-queued operation has a schedule")
  end.

Definition try_new_with_queue_schedule (operation_id : bytes) (index_id : Z) (identity : IndexIdentity)
    (generation index_record_revision operation_revision : Z) (kind : IndexOperationKind) (family : IndexOperationFamily)
    (progress : IndexOperationProgress) (attempt : Z) (execution_state : IndexOperationExecutionState)
    (queue_schedule : option IndexOperationQueueSchedule) : result IndexOperationModelError IndexOperationRecord :=
  if negb (bool_decide (progress_family progress = family)) then Err ProgressFamilyMismatch
  else if negb (bool_decide (progress_kind progress = kind)) then Err ProgressKindMismatch
  else if negb (owns_identity family identity) then Err IdentityFamilyMismatch
  else
    let? _ := validate_completion kind progress execution_state in
    let? _ := validate_blocked execution_state in
    let? _ := validate_schedule execution_state queue_schedule in
    Ok {| op_operation_id := operation_id; op_index_id := index_id; op_identity := identity; op_generation := generation;
          op_index_record_revision := index_record_revision; op_operation_revision := operation_revision; op_kind := kind;
          op_family := family; op_progress := progress; op_attempt := attempt; op_execution_state := execution_state;
          op_queue_schedule := queue_schedule |}.

(** [IndexOperationRecord::try_new]. *)
Definition operation_try_new (operation_id : bytes) (index_id : Z) (identity : IndexIdentity)
    (generation index_record_revision operation_revision : Z) (kind : IndexOperationKind) (family : IndexOperationFamily)
    (progress : IndexOperationProgress) (attempt : Z) (execution_state : IndexOperationExecutionState)
    : result IndexOperationModelError IndexOperationRecord :=
  let queue_schedule :=
    match execution_state with
    | Queued None => Some Immediate
    | Queued (Some not_before) => Some (DelayedAfterProgress not_before)
    | Claimed _ | Blocked _ | Completed _ => None
    end in
  try_new_with_queue_schedule operation_id index_id identity generation index_record_revision operation_revision kind family progress
    attempt execution_state queue_schedule.

(** [IndexOperationRecord::try_map_cursors]. *)
Definition try_map_cursors {E} (map : bytes -> result E bytes) (self : IndexOperationRecord) : result E IndexOperationRecord :=
  let? progress := progress_map_cursors map (op_progress self) in
  Ok {| op_operation_id := op_operation_id self; op_index_id := op_index_id self; op_identity := op_identity self;
        op_generation := op_generation self; op_index_record_revision := op_index_record_revision self;
        op_operation_revision := op_operation_revision self; op_kind := op_kind self; op_family := op_family self; op_progress := progress;
        op_attempt := op_attempt self; op_execution_state := op_execution_state self; op_queue_schedule := op_queue_schedule self |}.

(** ** Transitions *)

Definition next_with_queue_schedule (self : IndexOperationRecord) (index_record_revision : Z) (progress : IndexOperationProgress) (attempt : Z)
    (execution_state : IndexOperationExecutionState) (queue_schedule : option IndexOperationQueueSchedule)
    : result IndexOperationModelError IndexOperationRecord :=
  let? operation_revision := nested (id_checked_next "index operation revision" (op_operation_revision self)) in
  try_new_with_queue_schedule (op_operation_id self) (op_index_id self) (op_identity self) (op_generation self) index_record_revision
    operation_revision (op_kind self) (op_family self) progress attempt execution_state queue_schedule.

Definition next (self : IndexOperationRecord) (index_record_revision : Z) (progress : IndexOperationProgress) (attempt : Z)
    (execution_state : IndexOperationExecutionState) : result IndexOperationModelError IndexOperationRecord :=
  let? queue_schedule :=
    match execution_state with
    | Queued None => Ok (Some Immediate)
    | Queued (Some _) => Err (InvalidQueueSchedule "a delayed requeue must name its schedule")
    | Claimed _ | Blocked _ | Completed _ => Ok None
    end in
  next_with_queue_schedule self index_record_revision progress attempt execution_state queue_schedule.

Definition illegal {A} (self : IndexOperationRecord) (transition : string) : result IndexOperationModelError A :=
  Err (IllegalExecutionTransition (execution_name (op_execution_state self)) transition).

Definition claim (self : IndexOperationRecord) (claim : OperationClaim) : result IndexOperationModelError IndexOperationRecord :=
  match op_execution_state self with
  | Queued _ | Claimed _ =>
      next self (op_index_record_revision self) (op_progress self) (sat_add 32 (op_attempt self) 1) (Claimed claim)
  | _ => illegal self "claim"
  end.

Definition progressed (self : IndexOperationRecord) (progress : IndexOperationProgress) : result IndexOperationModelError IndexOperationRecord :=
  match op_execution_state self with
  | Claimed _ => next self (op_index_record_revision self) progress (op_attempt self) (Queued None)
  | _ => illegal self "progress"
  end.

Definition transient_failure (self : IndexOperationRecord) (not_before : Z) : result IndexOperationModelError IndexOperationRecord :=
  match op_execution_state self with
  | Claimed claim =>
      next_with_queue_schedule self (op_index_record_revision self) (op_progress self) (op_attempt self) (Queued (Some not_before))
        (Some (DelayedAfterTransientFailure not_before (writer_epoch claim)))
  | _ => illegal self "transient_failure"
  end.

Definition block (self : IndexOperationRecord) (blocker : IndexOperationBlocker) : result IndexOperationModelError IndexOperationRecord :=
  match op_execution_state self with
  | Claimed _ => next self (op_index_record_revision self) (op_progress self) (op_attempt self) (Blocked blocker)
  | _ => illegal self "block"
  end.

Definition complete (self : IndexOperationRecord) (outcome : IndexOperationOutcome) (index_record_revision : Z)
    : result IndexOperationModelError IndexOperationRecord :=
  match op_execution_state self with
  | Claimed _ => next self index_record_revision (op_progress self) (op_attempt self) (Completed outcome)
  | _ => illegal self "complete"
  end.

Definition rebind_completed_index_revision (self : IndexOperationRecord) (index_record_revision : Z)
    : result IndexOperationModelError IndexOperationRecord :=
  match op_kind self, op_family self, op_execution_state self with
  | Build, VectorOperation, Completed (BuildOutcome Succeeded) =>
      next self index_record_revision (op_progress self) (op_attempt self) (op_execution_state self)
  | _, _, _ => illegal self "rebind_completed_index_revision"
  end.

Definition retry (self : IndexOperationRecord) : result IndexOperationModelError IndexOperationRecord :=
  match op_execution_state self with
  | Blocked _ => next self (op_index_record_revision self) (op_progress self) (op_attempt self) (Queued None)
  | _ => illegal self "retry"
  end.

(** The cleanup a constructing build is converted to. *)
Definition initial_cleanup (progress : IndexOperationProgress) : option IndexOperationProgress :=
  match progress with
  | SecondaryBuild (SecondaryConstructing _) =>
      Some (SecondaryBuild (SecondaryAborting (DeleteEntries {| ps_cursor := None; ps_counters := counters_default |})))
  | VectorBuild (VectorConstructing _) => Some (VectorBuild (VectorAborting (RetireCache {| nc_counters := counters_default |})))
  | TextBuild (TextConstructing _) =>
      Some (TextBuild (TextAborting (DeleteMetadata {| ps_cursor := None; ps_counters := counters_default |})))
  | _ => None
  end.

Definition begin_abort (self : IndexOperationRecord) (index_record_revision : Z) : result IndexOperationModelError IndexOperationRecord :=
  match initial_cleanup (op_progress self) with
  | None => illegal self "begin_abort"
  | Some progress =>
      match op_execution_state self with
      | Completed _ => illegal self "begin_abort"
      | _ => next self index_record_revision progress (op_attempt self) (Queued None)
      end
  end.
End OperationRecord.
