(* ===== verification/OperationRecordSpec.v ===== *)
(** What operation records keep: the transitions that are accepted, the error every other
    request gets, what no history of transitions can change, and that every operation
    can be finished.

    [step] and [refuses] are relations of their own: which progress an abort starts,
    which outcome ends which progress, what a blocker may hold, the names and the errors
    are stated here again, not taken from the code. *)
From S2P Require Import Prelude Bytes Cursor IndexIdentity ManagedKeysSpec LifecycleSpec OperationRecord.

Open Scope Z_scope.

Module OperationRecordSpec.
Export OperationRecord.

(** ** What the types hold *)

Definition counters_ok (c : OperationCounters) : Prop :=
  in_u 64 (entities c) /\ in_u 64 (input_bytes c) /\ in_u 64 (output_operations c) /\ in_u 64 (output_bytes c).
Definition cursor_ok (cursor : bytes) : Prop := bytes_ok cursor /\ blen cursor <= INDEX_CURSOR_MAX_LEN.
Definition resume_ok (cursor : option bytes) : Prop := match cursor with Some cursor => cursor_ok cursor | None => True end.

Definition source_ok (p : SourceScanProgress) : Prop :=
  cursor_ok (sc_inclusive_upper_bound p) /\ resume_ok (sc_cursor p) /\ counters_ok (sc_counters p).
Definition prefix_ok (p : PrefixScanProgress) : Prop := resume_ok (ps_cursor p) /\ counters_ok (ps_counters p).
Definition no_cursor_ok (p : NoCursorProgress) : Prop := counters_ok (nc_counters p).

(** An incomplete proof: some pages are left, and a split for each of them, up to the saturation of the sum. *)
Record validation_ok (v : TextManifestPartitionValidation) : Prop := {
  va_fingerprint : bytes_ok (pv_partition_fingerprint v) /\ blen (pv_partition_fingerprint v) = 32;
  va_revision : id_ok (pv_root_revision v) /\ pv_page_count v < pv_root_revision v;
  va_pages : 0 < pv_next_page v < pv_page_count v /\ pv_page_count v < 2 ^ 32;
  va_splits : pv_next_page v <= pv_observed_split_count v <= pv_split_count v /\ pv_split_count v < 2 ^ 64 /\
    Z.min (pv_observed_split_count v + (pv_page_count v - pv_next_page v)) (umax 64) <= pv_split_count v }.

Definition pages_ok (p : TextManifestPageValidationProgress) : Prop :=
  resume_ok (tp_cursor p) /\ counters_ok (tp_counters p) /\
  match tp_partition p with Some v => validation_ok v /\ tp_cursor p <> None | None => True end.
Definition manifests_ok (p : TextManifestValidationProgress) : Prop :=
  match p with Pages p => pages_ok p | Roots p | EntityStates p => prefix_ok p end.
Definition adoption_ok (p : LegacyVectorValidationProgress) : Prop := resume_ok (lv_cursor p) /\ counters_ok (lv_counters p).
Definition directory_ok (p : LegacyVectorDirectoryValidationProgress) : Prop :=
  resume_ok (ld_cursor p) /\ in_u 64 (ld_expected_markers p) /\ in_u 64 (ld_verified_markers p) /\
  ld_verified_markers p <= ld_expected_markers p /\ counters_ok (ld_counters p).

Definition secondary_stage_ok (stage : SecondaryBuildStage) : Prop :=
  match stage with
  | SecondaryScan p => source_ok p
  | SecondaryCatchUp p | SecondaryValidate p => prefix_ok p
  | SecondaryActivate p => no_cursor_ok p
  end.
Definition vector_stage_ok (stage : VectorBuildStage) : Prop :=
  match stage with
  | AdoptLegacy p => adoption_ok p
  | ValidateAdoptedDirectory p => directory_ok p
  | VectorScan p => source_ok p
  | VectorCatchUp p | ValidateDescriptor p => prefix_ok p
  | VectorActivate p => no_cursor_ok p
  end.
Definition text_stage_ok (stage : TextBuildStage) : Prop :=
  match stage with
  | ScanSource p | ScanPartitions p => source_ok p
  | TextCatchUp p | Compact p | PrepareManifests p => prefix_ok p
  | ValidateManifests p => manifests_ok p
  | TextActivate p => no_cursor_ok p
  end.
Definition secondary_cleanup_ok (p : SecondaryCleanupProgress) : Prop :=
  match p with DeleteEntries p | SecondaryDeleteDeltas p => prefix_ok p | SecondaryFinalize p => no_cursor_ok p end.
Definition vector_cleanup_ok (p : VectorCleanupProgress) : Prop :=
  match p with DeletePhysical p | VectorDeleteDeltas p => prefix_ok p | RetireCache p | VectorFinalize p => no_cursor_ok p end.
Definition text_cleanup_ok (p : TextCleanupProgress) : Prop :=
  match p with DeleteMetadata p => prefix_ok p | TextFinalize p => no_cursor_ok p end.

Definition progress_ok (progress : IndexOperationProgress) : Prop :=
  match progress with
  | SecondaryBuild (SecondaryConstructing stage) => secondary_stage_ok stage
  | VectorBuild (VectorConstructing stage) => vector_stage_ok stage
  | TextBuild (TextConstructing stage) => text_stage_ok stage
  | SecondaryBuild (SecondaryAborting p) | SecondaryCleanup p => secondary_cleanup_ok p
  | VectorBuild (VectorAborting p) | VectorCleanup p => vector_cleanup_ok p
  | TextBuild (TextAborting p) | TextCleanup p => text_cleanup_ok p
  end.

Definition claim_ok (claim : OperationClaim) : Prop := uuid_ok (writer_epoch claim) /\ id_ok (sequence claim).

Definition blocker_ok (blocker : IndexOperationBlocker) : Prop :=
  match blocker with
  | InvalidSourceData _ entity_id => in_u 64 entity_id
  | UniquenessViolation first second => in_u 64 first /\ in_u 64 second
  | OversizedEntity _ entity_id observed limit => in_u 64 entity_id /\ in_u 64 observed /\ in_u 64 limit /\ limit < observed
  | ManifestLimit partition observed limit => LifecycleSpec.partition_ok partition /\ in_u 64 observed /\ in_u 64 limit /\ limit < observed
  | ObjectStoreConfigurationUnavailable | InvariantViolation | InvalidLegacyPhysical => True
  end.

(** The size that a blocker reports is over the limit it names. *)
Definition exceeds (blocker : IndexOperationBlocker) : Prop :=
  match blocker with OversizedEntity _ _ observed limit | ManifestLimit _ observed limit => limit < observed | _ => True end.

(** A blocker of the widths of its type. *)
Definition blocker_fits (blocker : IndexOperationBlocker) : Prop :=
  match blocker with
  | InvalidSourceData _ entity_id => in_u 64 entity_id
  | UniquenessViolation first second => in_u 64 first /\ in_u 64 second
  | OversizedEntity _ entity_id observed limit => in_u 64 entity_id /\ in_u 64 observed /\ in_u 64 limit
  | ManifestLimit partition observed limit => LifecycleSpec.partition_ok partition /\ in_u 64 observed /\ in_u 64 limit
  | ObjectStoreConfigurationUnavailable | InvariantViolation | InvalidLegacyPhysical => True
  end.

Definition execution_ok (state : IndexOperationExecutionState) : Prop :=
  match state with
  | Queued (Some not_before) => in_u 64 not_before
  | Queued None | Completed _ => True
  | Claimed claim => claim_ok claim
  | Blocked blocker => blocker_ok blocker
  end.

Definition schedule_ok (schedule : option IndexOperationQueueSchedule) : Prop :=
  match schedule with
  | Some (DelayedAfterTransientFailure not_before epoch) => in_u 64 not_before /\ uuid_ok epoch
  | Some (DelayedAfterProgress not_before) => in_u 64 not_before
  | _ => True
  end.

(** The family and the kind of a progress, and the identities of a family. *)
Inductive belongs : IndexOperationProgress -> IndexOperationFamily -> IndexOperationKind -> Prop :=
| belongs_secondary_build p : belongs (SecondaryBuild p) SecondaryOperation Build
| belongs_vector_build p : belongs (VectorBuild p) VectorOperation Build
| belongs_text_build p : belongs (TextBuild p) TextOperation Build
| belongs_secondary_drop p : belongs (SecondaryCleanup p) SecondaryOperation Drop
| belongs_vector_drop p : belongs (VectorCleanup p) VectorOperation Drop
| belongs_text_drop p : belongs (TextCleanup p) TextOperation Drop.
Inductive owned : IndexOperationFamily -> IndexIdentityFamily -> Prop :=
| owned_equality : owned SecondaryOperation SecondaryEquality
| owned_range : owned SecondaryOperation SecondaryRange
| owned_vector : owned VectorOperation Vector
| owned_text : owned TextOperation Text.

(** The outcome that a progress ends in. *)
Inductive ends : IndexOperationProgress -> IndexOperationOutcome -> Prop :=
| ends_secondary_build stage : ends (SecondaryBuild (SecondaryConstructing stage)) (BuildOutcome Succeeded)
| ends_vector_build stage : ends (VectorBuild (VectorConstructing stage)) (BuildOutcome Succeeded)
| ends_text_build stage : ends (TextBuild (TextConstructing stage)) (BuildOutcome Succeeded)
| ends_secondary_abort p : ends (SecondaryBuild (SecondaryAborting p)) (BuildOutcome Aborted)
| ends_vector_abort p : ends (VectorBuild (VectorAborting p)) (BuildOutcome Aborted)
| ends_text_abort p : ends (TextBuild (TextAborting p)) (BuildOutcome Aborted)
| ends_secondary_drop p : ends (SecondaryCleanup p) DropSucceeded
| ends_vector_drop p : ends (VectorCleanup p) DropSucceeded
| ends_text_drop p : ends (TextCleanup p) DropSucceeded.

(** The time before which a queued operation is not due. *)
Inductive due : IndexOperationQueueSchedule -> option Z -> Prop :=
| due_immediate : due Immediate None
| due_progress t : due (DelayedAfterProgress t) (Some t)
| due_failure t epoch : due (DelayedAfterTransientFailure t epoch) (Some t).

(** The parts of a record agree. *)
Definition coherent (kind : IndexOperationKind) (family : IndexOperationFamily) (identity : IndexIdentity) (progress : IndexOperationProgress)
    (state : IndexOperationExecutionState) (schedule : option IndexOperationQueueSchedule) : Prop :=
  belongs progress family kind /\ owned family (IndexIdentity.family identity) /\
  match state with
  | Queued not_before => exists s, schedule = Some s /\ due s not_before
  | Claimed _ => schedule = None
  | Blocked blocker => schedule = None /\ exceeds blocker
  | Completed outcome => schedule = None /\ ends progress outcome
  end.

Record operation_ok (r : IndexOperationRecord) : Prop := {
  oo_id : uuid_ok (op_operation_id r);
  oo_index : id_ok (op_index_id r);
  oo_identity : identity_ok (op_identity r);
  oo_generation : id_ok (op_generation r);
  oo_index_revision : id_ok (op_index_record_revision r);
  oo_revision : id_ok (op_operation_revision r);
  oo_progress : progress_ok (op_progress r);
  oo_attempt : in_u 32 (op_attempt r);
  oo_execution : execution_ok (op_execution_state r);
  oo_schedule : schedule_ok (op_queue_schedule r);
  oo_coherent : coherent (op_kind r) (op_family r) (op_identity r) (op_progress r) (op_execution_state r) (op_queue_schedule r) }.

(** ** Construction *)

(** [coherent] by the functions of the code. *)
Definition agrees (kind : IndexOperationKind) (family : IndexOperationFamily) (identity : IndexIdentity) (progress : IndexOperationProgress)
    (state : IndexOperationExecutionState) (schedule : option IndexOperationQueueSchedule) : Prop :=
  progress_family progress = family /\ progress_kind progress = kind /\ owns_identity family identity = true /\
  match state with
  | Queued not_before => exists s, schedule = Some s /\ not_before_unix_millis s = not_before
  | Claimed _ => schedule = None
  | Blocked blocker => schedule = None /\ blocker_validate blocker = Ok tt
  | Completed outcome => schedule = None /\ progress_matches outcome progress = true
  end.

Lemma belongs_iff p f k : belongs p f k <-> progress_family p = f /\ progress_kind p = k.
Proof. split; [by intros []|intros [<- <-]; destruct p; constructor]. Qed.

Lemma owned_iff f identity : owned f (family identity) <-> owns_identity f identity = true.
Proof. unfold owns_identity. split; [by intros []|destruct f, (family identity); try done; constructor]. Qed.

Lemma ends_iff p o : ends p o <-> progress_matches o p = true.
Proof. split; [by intros []|destruct o as [[|]|], p as [[?|?]|[?|?]|[?|?]|?|?|?]; try done; constructor]. Qed.

Lemma due_iff s t : due s t <-> not_before_unix_millis s = t.
Proof. split; [by intros []|intros <-; destruct s; constructor]. Qed.

Lemma exceeds_iff b : exceeds b <-> blocker_validate b = Ok tt.
Proof. destruct b; cbn; try done; destruct (Z.leb_spec observed limit); (split; [lia || done|lia || done]). Qed.

Lemma agrees_iff k f identity p st sch : coherent k f identity p st sch <-> agrees k f identity p st sch.
Proof.
  unfold coherent, agrees. rewrite belongs_iff, owned_iff.
  destruct st; [setoid_rewrite due_iff|idtac|rewrite exceeds_iff|rewrite ends_iff]; tauto.
Qed.

Lemma oo_agrees r : operation_ok r ->
  agrees (op_kind r) (op_family r) (op_identity r) (op_progress r) (op_execution_state r) (op_queue_schedule r).
Proof. intros Hr. apply agrees_iff, Hr. Qed.

Lemma blocker_ok_iff blocker : blocker_ok blocker <-> blocker_fits blocker /\ exceeds blocker.
Proof. destruct blocker; cbn; tauto. Qed.

Lemma blocker_exceeds blocker : blocker_ok blocker -> blocker_validate blocker = Ok tt.
Proof. rewrite blocker_ok_iff. intros [_ H]. by apply exceeds_iff. Qed.

Lemma outcome_matches outcome progress : progress_matches outcome progress = true -> outcome_kind outcome = progress_kind progress.
Proof. destruct outcome as [[|]|], progress as [[?|?]|[?|?]|[?|?]|?|?|?]; done. Qed.

Lemma completion_iff kind progress state : progress_kind progress = kind ->
  validate_completion kind progress state = Ok tt <-> match state with Completed outcome => progress_matches outcome progress = true | _ => True end.
Proof.
  intros <-. destruct state as [?|?|?|o]; try done. cbn [validate_completion]. destruct (progress_matches o progress) eqn:E.
  - by rewrite bool_decide_eq_true_2 by by apply outcome_matches.
  - by case_bool_decide.
Qed.

Lemma schedule_iff state schedule :
  validate_schedule state schedule = Ok tt <->
  match state with Queued not_before => exists s, schedule = Some s /\ not_before_unix_millis s = not_before | _ => schedule = None end.
Proof.
  destruct state as [t|?|?|?], schedule as [s|]; cbn [validate_schedule]; try done.
  - case_bool_decide as E; [split; [by exists s|done]|]. split; [done|]. by intros (? & [= <-] & <-).
  - split; [done|]. by intros (? & ? & _).
Qed.

Lemma unit_bind {E A} (r : result E unit) (k : result E A) a : (let? _ := r in k) = Ok a <-> r = Ok tt /\ k = Ok a.
Proof. destruct r as [[]|e]; cbn; [tauto|]. by split; [|intros [? _]]. Qed.

(** [try_new_with_queue_schedule] accepts exactly coherent parts. *)
Lemma operation_new_iff i ix ident g rev orev k f p a st sch r :
  try_new_with_queue_schedule i ix ident g rev orev k f p a st sch = Ok r <->
  agrees k f ident p st sch /\
  r = {| op_operation_id := i; op_index_id := ix; op_identity := ident; op_generation := g; op_index_record_revision := rev;
         op_operation_revision := orev; op_kind := k; op_family := f; op_progress := p; op_attempt := a; op_execution_state := st;
         op_queue_schedule := sch |}.
Proof.
  unfold try_new_with_queue_schedule, agrees. case_bool_decide as Ef; cbn [negb]; [|by split; [|intros [[? _] _]]].
  case_bool_decide as Ek; cbn [negb]; [|by split; [|intros [(_ & ? & _) _]]].
  destruct (owns_identity f ident); cbn [negb]; [|by split; [|intros [(_ & _ & ? & _) _]]].
  rewrite !unit_bind, completion_iff, schedule_iff by done. split.
  - intros (Hc & Hb & Hs & [= <-]). split; [|done]. split_and!; try done. by destruct st.
  - intros [(_ & _ & _ & H) ->]. by destruct st as [?|?|?|?]; cbn [validate_blocked]; split_and!; try tauto; destruct H.
Qed.

(** ** Transitions *)

(** What a transition may change, but for the revision of the operation. *)
Record moment := M {
  mo_index_record_revision : Z; mo_progress : IndexOperationProgress; mo_attempt : Z; mo_state : IndexOperationExecutionState;
  mo_schedule : option IndexOperationQueueSchedule }.

Definition now (r : IndexOperationRecord) : moment :=
  M (op_index_record_revision r) (op_progress r) (op_attempt r) (op_execution_state r) (op_queue_schedule r).
Definition after (r : IndexOperationRecord) (m : moment) : IndexOperationRecord :=
  {| op_operation_id := op_operation_id r; op_index_id := op_index_id r; op_identity := op_identity r; op_generation := op_generation r;
     op_index_record_revision := mo_index_record_revision m; op_operation_revision := op_operation_revision r + 1; op_kind := op_kind r;
     op_family := op_family r; op_progress := mo_progress m; op_attempt := mo_attempt m; op_execution_state := mo_state m;
     op_queue_schedule := mo_schedule m |}.

Inductive request :=
| Claim (claim : OperationClaim)
| Progress (progress : IndexOperationProgress)
| Fail (not_before : Z)
| Block (blocker : IndexOperationBlocker)
| Complete (outcome : IndexOperationOutcome) (index_record_revision : Z)
| Rebind (index_record_revision : Z)
| Retry
| BeginAbort (index_record_revision : Z).

Definition apply (r : IndexOperationRecord) (q : request) : result IndexOperationModelError IndexOperationRecord :=
  match q with
  | Claim c => claim r c
  | Progress p => progressed r p
  | Fail not_before => transient_failure r not_before
  | Block b => block r b
  | Complete o rev => complete r o rev
  | Rebind rev => rebind_completed_index_revision r rev
  | Retry => retry r
  | BeginAbort rev => begin_abort r rev
  end.

Definition request_name (q : request) : string :=
  match q with
  | Claim _ => "claim"
  | Progress _ => "progress"
  | Fail _ => "transient_failure"
  | Block _ => "block"
  | Complete _ _ => "complete"
  | Rebind _ => "rebind_completed_index_revision"
  | Retry => "retry"
  | BeginAbort _ => "begin_abort"
  end.

Definition request_ok (q : request) : Prop :=
  match q with
  | Claim c => claim_ok c
  | Progress p => progress_ok p
  | Fail not_before => in_u 64 not_before
  | Block b => blocker_fits b
  | Complete _ rev | Rebind rev | BeginAbort rev => id_ok rev
  | Retry => True
  end.

(** The cleanup that a constructing build starts to abort with. *)
Definition nothing_done : OperationCounters := {| entities := 0; input_bytes := 0; output_operations := 0; output_bytes := 0 |}.
Inductive aborts : IndexOperationProgress -> IndexOperationProgress -> Prop :=
| aborts_secondary stage : aborts (SecondaryBuild (SecondaryConstructing stage))
    (SecondaryBuild (SecondaryAborting (DeleteEntries {| ps_cursor := None; ps_counters := nothing_done |})))
| aborts_vector stage : aborts (VectorBuild (VectorConstructing stage))
    (VectorBuild (VectorAborting (RetireCache {| nc_counters := nothing_done |})))
| aborts_text stage : aborts (TextBuild (TextConstructing stage))
    (TextBuild (TextAborting (DeleteMetadata {| ps_cursor := None; ps_counters := nothing_done |}))).

(** The state machine. *)
Inductive step : moment -> request -> moment -> Prop :=
| step_claim_queued rev p a t sch c : step (M rev p a (Queued t) sch) (Claim c) (M rev p (Z.min (a + 1) (umax 32)) (Claimed c) None)
| step_claim_claimed rev p a c' sch c : step (M rev p a (Claimed c') sch) (Claim c) (M rev p (Z.min (a + 1) (umax 32)) (Claimed c) None)
| step_progress rev p a c sch p' f k : belongs p f k -> belongs p' f k ->
    step (M rev p a (Claimed c) sch) (Progress p') (M rev p' a (Queued None) (Some Immediate))
| step_fail rev p a c sch t :
    step (M rev p a (Claimed c) sch) (Fail t) (M rev p a (Queued (Some t)) (Some (DelayedAfterTransientFailure t (writer_epoch c))))
| step_block rev p a c sch b : exceeds b -> step (M rev p a (Claimed c) sch) (Block b) (M rev p a (Blocked b) None)
| step_complete rev p a c sch o rev' : ends p o ->
    step (M rev p a (Claimed c) sch) (Complete o rev') (M rev' p a (Completed o) None)
| step_rebind rev stage a sch rev' :
    step (M rev (VectorBuild (VectorConstructing stage)) a (Completed (BuildOutcome Succeeded)) sch) (Rebind rev')
      (M rev' (VectorBuild (VectorConstructing stage)) a (Completed (BuildOutcome Succeeded)) None)
| step_retry rev p a b sch : step (M rev p a (Blocked b) sch) Retry (M rev p a (Queued None) (Some Immediate))
| step_abort rev p a st sch rev' p' : aborts p p' -> (forall o, st <> Completed o) ->
    step (M rev p a st sch) (BeginAbort rev') (M rev' p' a (Queued None) (Some Immediate)).

(** The requests that an operation is open to, whether or not their arguments suit it. *)
Inductive opens : IndexOperationProgress -> IndexOperationExecutionState -> request -> Prop :=
| opens_queued p t c : opens p (Queued t) (Claim c)
| opens_claimed p c' c : opens p (Claimed c') (Claim c)
| opens_progress p c p' : opens p (Claimed c) (Progress p')
| opens_fail p c t : opens p (Claimed c) (Fail t)
| opens_block p c b : opens p (Claimed c) (Block b)
| opens_complete p c o rev : opens p (Claimed c) (Complete o rev)
| opens_rebind stage rev : opens (VectorBuild (VectorConstructing stage)) (Completed (BuildOutcome Succeeded)) (Rebind rev)
| opens_retry p b : opens p (Blocked b) Retry
| opens_abort p p' st rev : aborts p p' -> (forall o, st <> Completed o) -> opens p st (BeginAbort rev).

(** The names of states and requests in errors. *)
Inductive state_called : IndexOperationExecutionState -> string -> Prop :=
| called_queued t : state_called (Queued t) "queued"
| called_claimed c : state_called (Claimed c) "claimed"
| called_blocked b : state_called (Blocked b) "blocked"
| called_completed o : state_called (Completed o) "completed".

(** What is wrong with another progress, and with an outcome. *)
Inductive mismatched (p : IndexOperationProgress) : IndexOperationProgress -> IndexOperationModelError -> Prop :=
| mismatched_family p' f k f' k' : belongs p f k -> belongs p' f' k' -> f' <> f -> mismatched p p' ProgressFamilyMismatch
| mismatched_kind p' f k k' : belongs p f k -> belongs p' f k' -> k' <> k -> mismatched p p' ProgressKindMismatch.
Inductive outcome_of : IndexOperationOutcome -> IndexOperationKind -> Prop :=
| outcome_of_build o : outcome_of (BuildOutcome o) Build
| outcome_of_drop : outcome_of DropSucceeded Drop.
Inductive unsuited (p : IndexOperationProgress) : IndexOperationOutcome -> IndexOperationModelError -> Prop :=
| unsuited_kind o f k k' : belongs p f k -> outcome_of o k' -> k' <> k -> unsuited p o CompletionKindMismatch
| unsuited_progress o f k : belongs p f k -> outcome_of o k -> ~ ends p o -> unsuited p o CompletionProgressMismatch.

(** The error of every request that is refused. *)
Inductive refuses (r : IndexOperationRecord) : request -> IndexOperationModelError -> Prop :=
| refuses_closed q from : ~ opens (op_progress r) (op_execution_state r) q -> state_called (op_execution_state r) from ->
    refuses r q (IllegalExecutionTransition from (request_name q))
| refuses_last_revision q : opens (op_progress r) (op_execution_state r) q -> op_operation_revision r = umax 64 ->
    refuses r q (InvalidBlocker "nested V2 model validation failed")
| refuses_progress c p' e : op_execution_state r = Claimed c -> op_operation_revision r < umax 64 -> mismatched (op_progress r) p' e ->
    refuses r (Progress p') e
| refuses_blocker c b : op_execution_state r = Claimed c -> op_operation_revision r < umax 64 -> ~ exceeds b ->
    refuses r (Block b) (InvalidBlocker "observed size must exceed limit")
| refuses_outcome c o rev e : op_execution_state r = Claimed c -> op_operation_revision r < umax 64 -> unsuited (op_progress r) o e ->
    refuses r (Complete o rev) e.

Lemma aborts_iff p p' : aborts p p' <-> initial_cleanup p = Some p'.
Proof. split; [by intros []|]. destruct p as [[?|?]|[?|?]|[?|?]|?|?|?]; try done; intros [= <-]; constructor. Qed.

Lemma execution_called_iff st name : state_called st name <-> execution_name st = name.
Proof. split; [by intros []|intros <-; destruct st; constructor]. Qed.

Lemma belongs_same p f k p' : belongs p f k -> belongs p' f k <-> progress_family p' = progress_family p /\ progress_kind p' = progress_kind p.
Proof. rewrite !belongs_iff. by intros [<- <-]. Qed.

Lemma next_scheduled_iff r rev p a st sch r' : id_ok (op_operation_revision r) ->
  next_with_queue_schedule r rev p a st sch = Ok r' <->
  agrees (op_kind r) (op_family r) (op_identity r) p st sch /\ op_operation_revision r < umax 64 /\ r' = after r (M rev p a st sch).
Proof.
  intros Hr. unfold next_with_queue_schedule. destruct (id_checked_next _ _) as [n|e] eqn:E; cbn [nested result_bind].
  - apply id_next_ok in E as [Hlt ->]; [|done]. rewrite operation_new_iff. tauto.
  - split; [done|]. intros (_ & Hlt & _). by rewrite (proj2 (id_next_ok _ _ (op_operation_revision r + 1) Hr)) in E.
Qed.

Lemma cleanup_coherent p p' : initial_cleanup p = Some p' -> progress_family p' = progress_family p /\ progress_kind p' = progress_kind p /\ progress_ok p'.
Proof.
  assert (counters_ok counters_default) as Hc by by split_and!.
  destruct p as [[?|?]|[?|?]|[?|?]|?|?|?]; try done; intros [= <-]; by split_and!.
Qed.

Lemma next_iff r rev p a st r' : id_ok (op_operation_revision r) -> (forall t, st <> Queued (Some t)) ->
  next r rev p a st = Ok r' <->
  agrees (op_kind r) (op_family r) (op_identity r) p st (match st with Queued _ => Some Immediate | _ => None end) /\
  op_operation_revision r < umax 64 /\ r' = after r (M rev p a st (match st with Queued _ => Some Immediate | _ => None end)).
Proof.
  intros Hr Hst. destruct st as [[t|]|?|?|?]; [by destruct (Hst t)|..]; unfold next; cbn [result_bind]; by apply next_scheduled_iff.
Qed.

(** A step whose record agrees. *)
Ltac machine_step Hc Hf Hk :=
  let Hf' := fresh in let Hk' := fresh in let H := fresh in destruct Hc as (Hf' & Hk' & _ & H);
  first [ apply (step_progress _ _ _ _ _ _ _ _ (proj2 (belongs_iff _ _ _) (conj Hf Hk))); by apply belongs_iff
        | constructor; first [apply ends_iff, H | apply exceeds_iff, H] ].

(** The facts of a step, by the functions of the code. *)
Ltac code_facts :=
  repeat match goal with
  | H : belongs _ _ _ |- _ => apply belongs_iff in H as [? ?]
  | H : ends _ _ |- _ => apply ends_iff in H
  | H : exceeds _ |- _ => apply exceeds_iff in H
  | H : aborts _ _ |- _ => apply aborts_iff in H
  end.

Lemma apply_step r q r' : operation_ok r -> apply r q = Ok r' ->
  exists m', step (now r) q m' /\ op_operation_revision r < umax 64 /\ r' = after r m'.
Proof.
  intros Hr H. pose proof (oo_revision _ Hr) as Hv. pose proof (oo_agrees _ Hr) as (Hf & Hk & Hid & Hst).
  destruct q as [c|p'|t|b|o rev'|rev'| |rev']; cbn [apply] in H;
    unfold claim, progressed, transient_failure, block, complete, rebind_completed_index_revision, retry, begin_abort in H;
    unfold now; destruct (op_execution_state r) as [t0|c0|b0|o0] eqn:Es; try done;
    try (apply next_scheduled_iff in H as (Hc & Hlt & ->); [|done]; eexists; split; [by constructor|by split]);
    try (apply next_iff in H as (Hc & Hlt & ->); [|done..]; eexists; split; [by constructor|by split]);
    try (apply next_iff in H as (Hc & Hlt & ->); [|done..]; eexists; split; [machine_step Hc Hf Hk|by split]);
    try (destruct (op_kind r), (op_family r); done);
    try (destruct (initial_cleanup _) as [p'|] eqn:E; [|done]; apply next_iff in H as (Hc & Hlt & ->); [|done..]; eexists;
         split; [constructor; [by apply aborts_iff|done]|by split]).
  - destruct (op_kind r), (op_family r); try done. destruct o0 as [[|]|]; try done.
    destruct Hst as [_ Hst]. destruct (op_progress r) as [?|[stage|?]|?|?|?|?]; try done.
    apply next_iff in H as (Hc & Hlt & ->); [|done..]. eexists. split; [constructor|by split].
  - by destruct (initial_cleanup _).
Qed.

Lemma step_apply r q m' : operation_ok r -> step (now r) q m' -> op_operation_revision r < umax 64 -> apply r q = Ok (after r m').
Proof.
  intros Hr Hs Hlt. pose proof (oo_revision _ Hr) as Hv. pose proof (oo_agrees _ Hr) as (Hf & Hk & Hid & Hst).
  destruct r as [i ix ident g rev orev k f p a st sch]. cbn in Hf, Hk, Hid, Hst, Hlt, Hv.
  unfold now in Hs. cbn in Hs. inversion Hs; subst; code_facts; cbn [apply claim progressed transient_failure block complete rebind_completed_index_revision
    retry begin_abort op_execution_state op_progress op_kind op_family progress_kind progress_family];
    try (apply next_iff; [done|done|]; split; [|by split]; cbn [op_kind op_family op_identity]; split_and!; try done; try congruence; by exists Immediate).
  - apply next_scheduled_iff; [done|]. split; [|by split]. split_and!; try done. by eexists.
  - match goal with E : initial_cleanup _ = Some _, Hn : forall o, _ <> Completed o |- _ => rename E into Ec; rename Hn into Hopen end.
    unfold begin_abort. cbn [op_progress op_execution_state]. rewrite Ec. apply cleanup_coherent in Ec as (Ef & Ek & _).
    destruct st as [?|?|?|o]; [..|by destruct (Hopen o)]; (apply next_iff; [done|done|]; split; [|by split];
      cbn [op_kind op_family op_identity]; split_and!; try congruence; by exists Immediate).
Qed.

(** A request is accepted exactly when the state machine has the step, and a revision is left. *)
Lemma apply_iff r q r' : operation_ok r ->
  apply r q = Ok r' <-> exists m', step (now r) q m' /\ op_operation_revision r < umax 64 /\ r' = after r m'.
Proof. intros Hr. split; [by apply apply_step|]. intros (m' & Hs & Hlt & ->). by apply step_apply. Qed.

Lemma apply_coherent r q r' : id_ok (op_operation_revision r) -> apply r q = Ok r' ->
  agrees (op_kind r') (op_family r') (op_identity r') (op_progress r') (op_execution_state r') (op_queue_schedule r').
Proof.
  intros Hr H. assert (exists rev p a st sch, next_with_queue_schedule r rev p a st sch = Ok r') as (rev & p & a & st & sch & E).
  { assert (forall rev p a st, next r rev p a st = Ok r' -> exists rev p a st sch, next_with_queue_schedule r rev p a st sch = Ok r') as Hn.
    { intros rev p a st E. unfold next in E. apply result_bind_ok in E as (sch & _ & E). by exists rev, p, a, st, sch. }
    destruct q as [c|p'|t|b|o rev'|rev'| |rev']; cbn [apply] in H;
      unfold claim, progressed, transient_failure, block, complete, rebind_completed_index_revision, retry, begin_abort in H;
      repeat case_match; try done; try (by apply Hn in H). by do 5 eexists. }
  by apply next_scheduled_iff in E as (Hc & _ & ->).
Qed.

Lemma operation_step_ok r q m' : operation_ok r -> request_ok q -> step (now r) q m' -> op_operation_revision r < umax 64 -> operation_ok (after r m').
Proof.
  intros Hr Hq Hs Hlt. assert (coherent (op_kind r) (op_family r) (op_identity r) (mo_progress m') (mo_state m') (mo_schedule m')) as Hc.
  { apply agrees_iff. exact (apply_coherent r q (after r m') (oo_revision _ Hr) (step_apply r q m' Hr Hs Hlt)). }
  pose proof (oo_revision _ Hr) as Hv. pose proof (oo_attempt _ Hr) as Ha. pose proof (oo_progress _ Hr) as Hp.
  pose proof (oo_index_revision _ Hr) as Hi. pose proof (oo_execution _ Hr) as He.
  destruct r as [i ix ident g rev orev k f p a st sch]. unfold now in Hs. cbn [op_index_record_revision op_progress op_attempt op_execution_state
    op_queue_schedule] in Hs. inversion Hs; subst;
    try match goal with E : aborts _ _ |- _ => apply aborts_iff, cleanup_coherent in E as (_ & _ & Ec) end; cbn in *;
    (split; cbn; try apply Hr; try done; try (unfold id_ok, in_u, umax in *; lia)).
  - by destruct He.
  - by apply blocker_ok_iff.
Qed.

(** ** Refusals *)

Lemma completed_dec state : (exists o, state = Completed o) \/ (forall o, state <> Completed o).
Proof. destruct state as [?|?|?|o]; [by right..|left; by exists o]. Qed.

Lemma aborts_dec p : (exists p', aborts p p') \/ initial_cleanup p = None.
Proof. destruct (initial_cleanup p) as [p'|] eqn:E; [left; exists p'; by apply aborts_iff|by right]. Qed.

(** A request is open, or refused under the names of the state and of itself. *)
Lemma open_or_closed r q : operation_ok r -> opens (op_progress r) (op_execution_state r) q \/
  ~ opens (op_progress r) (op_execution_state r) q /\
  apply r q = Err (IllegalExecutionTransition (execution_name (op_execution_state r)) (request_name q)).
Proof.
  intros Hr. pose proof (oo_agrees _ Hr) as (Hf & Hk & _ & Hst).
  destruct q as [c|p'|t|b|o rev'|rev'| |rev']; cbn [apply request_name];
    unfold claim, progressed, transient_failure, block, complete, rebind_completed_index_revision, retry, begin_abort, illegal.
  1-5, 7: destruct (op_execution_state r); first [left; by constructor|right; split; [by inversion 1|done]].
  - rewrite <- Hf, <- Hk. destruct (op_execution_state r) as [?|?|?|[[|]|]];
      try (right; split; [by inversion 1|by destruct (op_progress r) as [[?|?]|[?|?]|[?|?]|?|?|?]]).
    destruct Hst as [_ Hm]. destruct (op_progress r) as [[?|?]|[?|?]|[?|?]|?|?|?]; try done; first [left; by constructor|right; split; [by inversion 1|done]].
  - destruct (completed_dec (op_execution_state r)) as [[o E]|Hn].
    { right. rewrite E. split; [intros H; inversion H as [| | | | | | | |? ? ? ? _ Hn]; by apply (Hn o)|]. by destruct (initial_cleanup _). }
    destruct (aborts_dec (op_progress r)) as [[p' Hp]|E]; [left; by apply (opens_abort _ p')|].
    right. rewrite E. split; [|done]. intros H. inversion H as [| | | | | | | |? p' ? ? Hp _]; subst. apply aborts_iff in Hp. by rewrite E in Hp.
Qed.

(** With no revision left, the only error of an open request. *)
Lemma exhausted r q : operation_ok r -> opens (op_progress r) (op_execution_state r) q -> op_operation_revision r = umax 64 ->
  apply r q = Err (InvalidBlocker "nested V2 model validation failed").
Proof.
  intros Hr Ho Hv. pose proof (oo_agrees _ Hr) as (Hf & Hk & _ & _).
  assert (forall rev p a st sch, next_with_queue_schedule r rev p a st sch = Err (InvalidBlocker "nested V2 model validation failed")) as Hnext.
  { intros. unfold next_with_queue_schedule. by rewrite Hv. }
  remember (op_progress r) as p eqn:Ep. remember (op_execution_state r) as st eqn:Es. cbn [progress_family progress_kind] in *.
  destruct Ho as [| | | | | | | |p p' st rev Hp Hn]; cbn [apply];
    unfold claim, progressed, transient_failure, block, complete, rebind_completed_index_revision, retry, begin_abort, next;
    rewrite <- ?Es, <- ?Ep; try (cbn [result_bind]; by rewrite Hnext).
  - rewrite <- Hf, <- Hk. cbn [progress_family progress_kind result_bind]. by rewrite Hnext.
  - apply aborts_iff in Hp as ->. destruct st; [..|by edestruct Hn]; cbn [result_bind]; by rewrite Hnext.
Qed.

(** The checks of the next record, while a revision is left. *)
Lemma next_checks r rev p a st sch : operation_ok r -> op_operation_revision r < umax 64 ->
  next_with_queue_schedule r rev p a st sch =
    try_new_with_queue_schedule (op_operation_id r) (op_index_id r) (op_identity r) (op_generation r) rev (op_operation_revision r + 1) (op_kind r)
      (op_family r) p a st sch.
Proof.
  intros Hr Hlt. unfold next_with_queue_schedule.
  by rewrite (proj2 (id_next_ok "index operation revision" _ (op_operation_revision r + 1) (oo_revision _ Hr))).
Qed.

Lemma mismatched_iff r p' e : operation_ok r -> mismatched (op_progress r) p' e <->
  (e = ProgressFamilyMismatch /\ progress_family p' <> op_family r) \/
  (e = ProgressKindMismatch /\ progress_family p' = op_family r /\ progress_kind p' <> op_kind r).
Proof.
  intros Hr. pose proof (oo_agrees _ Hr) as (<- & <- & _). split.
  - intros [? ? ? ? ? [<- <-]%belongs_iff [<- <-]%belongs_iff ?|? ? ? ? [<- <-]%belongs_iff [? <-]%belongs_iff ?]; auto.
  - assert (forall p, belongs p (progress_family p) (progress_kind p)) as Hb by (intros p; by apply belongs_iff).
    intros [[-> H]|(-> & E & H)]; [by apply (mismatched_family _ _ _ _ _ _ (Hb _) (Hb _))|].
    apply (mismatched_kind _ _ _ _ (progress_kind p') (Hb _)); [|done]. rewrite <- E. apply Hb.
Qed.

Lemma outcome_of_iff o k : outcome_of o k <-> outcome_kind o = k.
Proof. split; [by intros []|intros <-; destruct o; constructor]. Qed.

Lemma unsuited_iff r o e : operation_ok r -> unsuited (op_progress r) o e <->
  (e = CompletionKindMismatch /\ outcome_kind o <> op_kind r) \/
  (e = CompletionProgressMismatch /\ outcome_kind o = op_kind r /\ progress_matches o (op_progress r) = false).
Proof.
  intros Hr. pose proof (oo_agrees _ Hr) as (_ & <- & _). rewrite <- not_true_iff_false, <- ends_iff. split.
  - intros [? ? ? ? [_ <-]%belongs_iff <-%outcome_of_iff ?|? ? ? [_ <-]%belongs_iff <-%outcome_of_iff ?]; auto.
  - assert (belongs (op_progress r) (progress_family (op_progress r)) (progress_kind (op_progress r))) as Hb by by apply belongs_iff.
    assert (outcome_of o (outcome_kind o)) as Ho by by apply outcome_of_iff.
    intros [[-> H]|(-> & E & H)]; [by apply (unsuited_kind _ _ _ _ _ Hb Ho)|]. apply (unsuited_progress _ _ _ _ Hb); [by rewrite <- E|done].
Qed.

Lemma operation_refused r q e : operation_ok r -> refuses r q e -> apply r q = Err e.
Proof.
  intros Hr H. pose proof (oo_agrees _ Hr) as (Hf & Hk & Hid & _).
  destruct H as [q from Hno <-%execution_called_iff|q Ho Hv|c p' e Es Hlt He|c b Es Hlt Hb|c o rev e Es Hlt He]; cbn [apply].
  - by destruct (open_or_closed r q Hr) as [?|[_ ?]].
  - by apply exhausted.
  - unfold progressed, next. rewrite Es. cbn [result_bind]. rewrite next_checks by done. unfold try_new_with_queue_schedule.
    apply (mismatched_iff r) in He as [[-> H]|(-> & E & H)]; [by rewrite bool_decide_eq_false_2|..|done].
    by rewrite (bool_decide_eq_true_2 _ E), bool_decide_eq_false_2.
  - unfold block, next. rewrite Es. cbn [result_bind]. rewrite next_checks by done. unfold try_new_with_queue_schedule.
    rewrite !bool_decide_eq_true_2, Hid by done. cbn [negb validate_completion validate_blocked result_bind].
    destruct b as [? ?|? ?|? ? o l|? o l| | |]; try (by destruct Hb); cbn [exceeds blocker_validate] in *; by rewrite (proj2 (Z.leb_le o l)) by lia.
  - unfold complete, next. rewrite Es. cbn [result_bind]. rewrite next_checks by done. unfold try_new_with_queue_schedule.
    rewrite !(bool_decide_eq_true_2 _ Hf), !(bool_decide_eq_true_2 _ Hk), Hid. cbn [negb validate_completion].
    apply (unsuited_iff r) in He as [[-> H]|(-> & E & H)]; [by rewrite bool_decide_eq_false_2|..|done].
    by rewrite (bool_decide_eq_true_2 _ E), H.
Qed.

(** Every request is a step, or refused. *)
Lemma step_or_refused r q : operation_ok r -> (exists m', step (now r) q m' /\ op_operation_revision r < umax 64) \/ exists e, refuses r q e.
Proof.
  intros Hr. destruct (open_or_closed r q Hr) as [Ho|[Hno _]]; [|right; eexists; by apply refuses_closed; [|apply execution_called_iff]].
  pose proof (oo_revision _ Hr) as Hv. unfold id_ok in Hv.
  destruct (decide (op_operation_revision r = umax 64)) as [E|E]; [right; eexists; by apply refuses_last_revision|].
  assert (op_operation_revision r < umax 64) as Hlt by (unfold umax in *; lia).
  enough ((exists m', step (now r) q m') \/ exists e, refuses r q e) as [[m' Hs]|He]; [left; by exists m'|by right|].
  unfold now. remember (op_progress r) as p eqn:Ep. remember (op_execution_state r) as st eqn:Es. symmetry in Es.
  destruct Ho as [p t c|p c' c|p c p'|p c t|p c b|p c o rev|stage rev|p b|p p' st rev Hp Hn]; try (left; by eexists; constructor).
  - subst p. destruct (decide (progress_family p' = op_family r)) as [Ef|Ef].
    2: { right. eexists. apply (refuses_progress _ c); [done..|]. apply mismatched_iff; auto. }
    destruct (decide (progress_kind p' = op_kind r)) as [Ek|Ek].
    2: { right. eexists. apply (refuses_progress _ c); [done..|]. apply mismatched_iff; auto. }
    left. eexists. destruct (oo_coherent _ Hr) as [Hb _]. apply (step_progress _ _ _ _ _ _ _ _ Hb). by apply belongs_iff.
  - destruct (blocker_validate b) as [[]|e] eqn:Eb; [left; eexists; constructor; by apply exceeds_iff|].
    right. eexists. apply (refuses_blocker _ c); [done..|]. rewrite exceeds_iff. congruence.
  - subst p. destruct (decide (outcome_kind o = op_kind r)) as [Eo|Eo].
    2: { right. eexists. apply (refuses_outcome _ c); [done..|]. apply unsuited_iff; auto. }
    destruct (progress_matches o (op_progress r)) eqn:Em; [left; eexists; constructor; by apply ends_iff|].
    right. eexists. apply (refuses_outcome _ c); [done..|]. apply unsuited_iff; auto.
Qed.

(** [C14] A transition of an operation is accepted exactly when the state machine has the step and a revision is
    left; it advances the revision, keeps the record valid, and changes nothing but the progress, the attempts, the
    state, its schedule and the revision of the index it is bound to. Every other request is refused with exactly the
    error [refuses] gives it: under the names of both where the state is not open to it, and otherwise for an exhausted
    revision, another family or kind of progress, a blocker within its limit, or an outcome that does not suit. *)
Theorem operation_transitions (r : IndexOperationRecord) (q : request) : operation_ok r -> request_ok q ->
  (forall r', apply r q = Ok r' <-> exists m', step (now r) q m' /\ op_operation_revision r < umax 64 /\ r' = after r m') /\
  (forall r', apply r q = Ok r' -> operation_ok r') /\
  (forall e, apply r q = Err e <-> refuses r q e).
Proof.
  intros Hr Hq. split_and!.
  - intros r'. by apply apply_iff.
  - intros r' (m' & Hs & Hlt & ->)%apply_iff; [|done]. by apply (operation_step_ok r q m').
  - intros e. split; [|by apply operation_refused]. intros E.
    destruct (step_or_refused r q Hr) as [(m' & Hs & Hlt)|[e' He]]; [by rewrite (step_apply r q m') in E|].
    pose proof (operation_refused r q e' Hr He) as E'. rewrite E in E'. by injection E' as ->.
Qed.

(** ** Histories *)

Lemma step_det m q m1 m2 : step m q m1 -> step m q m2 -> m1 = m2.
Proof. intros H1 H2. destruct H1; inversion H2; code_facts; congruence. Qed.

(** The requests applied in turn. *)
Fixpoint history (r : IndexOperationRecord) (qs : list request) : result IndexOperationModelError IndexOperationRecord :=
  match qs with
  | [] => Ok r
  | q :: qs => let? r := apply r q in history r qs
  end.

Definition is_claim (q : request) : bool := match q with Claim _ => true | _ => false end.
Definition claims (qs : list request) : Z := len (List.filter is_claim qs).
Definition rebinds (qs : list request) : Prop := Forall (fun q => exists rev, q = Rebind rev) qs.

Lemma claims_nonneg qs : 0 <= claims qs.
Proof. unfold claims, len. lia. Qed.

Lemma operation_history_step r q qs last : operation_ok r -> Forall request_ok (q :: qs) -> history r (q :: qs) = Ok last ->
  exists m', step (now r) q m' /\ operation_ok (after r m') /\ Forall request_ok qs /\ history (after r m') qs = Ok last.
Proof.
  intros Hr Hq H. inversion Hq; subst. cbn [history] in H. apply result_bind_ok in H as (r' & E & H).
  apply apply_iff in E as (m' & Hs & Hlt & ->); [|done]. exists m'. split_and!; try done. by apply (operation_step_ok r q m').
Qed.

Lemma step_attempt m q m' : step m q m' -> mo_attempt m' = if is_claim q then Z.min (mo_attempt m + 1) (umax 32) else mo_attempt m.
Proof. intros H. by destruct H. Qed.

Lemma claims_cons q qs : claims (q :: qs) = (if is_claim q then 1 else 0) + claims qs.
Proof. unfold claims, len. cbn [List.filter]. destruct (is_claim q); cbn [length]; lia. Qed.

Lemma operation_history_keeps r qs last : operation_ok r -> Forall request_ok qs -> history r qs = Ok last ->
  operation_ok last /\ op_operation_id last = op_operation_id r /\ op_index_id last = op_index_id r /\ op_identity last = op_identity r /\
  op_generation last = op_generation r /\ op_kind last = op_kind r /\ op_family last = op_family r /\
  op_operation_revision last = op_operation_revision r + len qs /\ op_attempt last = Z.min (op_attempt r + claims qs) (umax 32).
Proof.
  revert r. induction qs as [|q qs IH]; intros r Hr Hq H.
  - injection H as <-. unfold claims, len. cbn. pose proof (oo_attempt _ Hr) as Ha. unfold in_u, umax in *. split_and!; (done || lia).
  - apply operation_history_step in H as (m' & Hs & Hr' & Hqs & H); [|done..].
    destruct (IH (after r m') Hr' Hqs H) as (? & E1 & E2 & E3 & E4 & E5 & E6 & Hv & Ha). cbn in E1, E2, E3, E4, E5, E6, Hv, Ha.
    split_and!; try done.
    + unfold len in *. cbn [length]. lia.
    + rewrite Ha, claims_cons, (step_attempt _ _ _ Hs). cbn [now mo_attempt]. pose proof (claims_nonneg qs). destruct (is_claim q); lia.
Qed.

Lemma completed_step m o q m' : step m q m' -> mo_state m = Completed o ->
  (exists rev, q = Rebind rev) /\ mo_state m' = Completed o /\ mo_progress m' = mo_progress m /\
  o = BuildOutcome Succeeded /\ progress_family (mo_progress m) = VectorOperation.
Proof. intros H E. destruct H; cbn in *; try done; [injection E as <-; split_and!; try done; by eexists|by edestruct H0]. Qed.

(** A completed operation stays as it is. *)
Lemma completed_stays r qs last o : operation_ok r -> Forall request_ok qs -> history r qs = Ok last -> op_execution_state r = Completed o ->
  rebinds qs /\ op_execution_state last = Completed o /\ op_progress last = op_progress r /\
  (qs = [] \/ o = BuildOutcome Succeeded /\ op_family r = VectorOperation).
Proof.
  revert r. induction qs as [|q qs IH]; intros r Hr Hq H E.
  - injection H as <-. split_and!; try done; [by constructor|by left].
  - apply operation_history_step in H as (m' & Hs & Hr' & Hqs & H); [|done..].
    destruct (completed_step _ o _ _ Hs E) as (Hq1 & Es & Ep & Eo & Ef). cbn [now mo_progress] in Ep, Ef.
    destruct (IH (after r m') Hr' Hqs H Es) as (Hrb & El & Epl & _). cbn [after op_progress] in Epl.
    split_and!; [by constructor|done|congruence|]. right. split; [done|]. rewrite <- Ef. symmetry. apply (oo_agrees _ Hr).
Qed.

Lemma completing_step m o q m' : step m q m' -> mo_state m' = Completed o -> (forall o, mo_state m <> Completed o) ->
  (exists rev, q = Complete o rev) /\ (exists c, mo_state m = Claimed c) /\ ends (mo_progress m) o /\
  mo_progress m' = mo_progress m.
Proof. intros H E Hn. destruct H; cbn in *; try done; [injection E as ->; split_and!; try done; by eexists|by edestruct Hn]. Qed.

(** An operation is completed once, by its claim. *)
Lemma completed_once r qs last o : operation_ok r -> Forall request_ok qs -> history r qs = Ok last ->
  (forall o, op_execution_state r <> Completed o) -> op_execution_state last = Completed o ->
  exists before rev rest mid c, qs = before ++ Complete o rev :: rest /\ rebinds rest /\ history r before = Ok mid /\
    op_execution_state mid = Claimed c /\ ends (op_progress mid) o /\ op_progress last = op_progress mid.
Proof.
  revert r. induction qs as [|q qs IH]; intros r Hr Hq H Hn El.
  - injection H as <-. by destruct (Hn o).
  - pose proof H as H0. apply operation_history_step in H as (m' & Hs & Hr' & Hqs & H); [|done..].
    destruct (completed_dec (mo_state m')) as [[o' Es]|Hn'].
    + destruct (completed_stays _ _ _ o' Hr' Hqs H Es) as (Hrb & El' & Ep & _). rewrite El in El'. injection El' as <-.
      destruct (completing_step _ o _ _ Hs Es Hn) as ([rev ->] & [c Ec] & Hm & Ep'). exists [], rev, qs, r, c. split_and!; try done.
      rewrite Ep. exact Ep'.
    + destruct (IH _ Hr' Hqs H Hn' El) as (before & rev & rest & mid & c & -> & Hrb & Hm & Hrest). exists (q :: before), rev, rest, mid, c.
      split_and!; try done; try apply Hrest. cbn [history] in *. destruct (apply r q) as [r1|e] eqn:E; [|done]. cbn [result_bind] in *.
      inversion Hq; subst. apply apply_iff in E as (m1 & Hs1 & _ & ->); [|done..]. by rewrite (step_det _ _ _ _ Hs1 Hs).
Qed.

(** [C15] No history changes what an operation is: the record stays valid, its identifier, index, generation, kind
    and family stay, each transition takes one revision and each claim one attempt, saturating. A completed operation
    stays as it is, but for the index revision that successful vector builds are rebound to; and one that ends
    completed was completed once, under a claim, with an outcome its progress ends in. *)
Theorem operation_history (r last : IndexOperationRecord) (qs : list request) :
  operation_ok r -> Forall request_ok qs -> history r qs = Ok last ->
  operation_ok last /\
  (op_operation_id last = op_operation_id r /\ op_index_id last = op_index_id r /\ op_identity last = op_identity r /\
   op_generation last = op_generation r /\ op_kind last = op_kind r /\ op_family last = op_family r) /\
  op_operation_revision last = op_operation_revision r + len qs /\ op_attempt last = Z.min (op_attempt r + claims qs) (umax 32) /\
  (forall o, op_execution_state r = Completed o ->
    rebinds qs /\ op_execution_state last = Completed o /\ op_progress last = op_progress r /\
      (qs = [] \/ o = BuildOutcome Succeeded /\ op_family r = VectorOperation)) /\
  (forall o, (forall o, op_execution_state r <> Completed o) -> op_execution_state last = Completed o ->
    exists before rev rest mid c, qs = before ++ Complete o rev :: rest /\ rebinds rest /\ history r before = Ok mid /\
      op_execution_state mid = Claimed c /\ ends (op_progress mid) o /\ op_progress last = op_progress mid).
Proof.
  intros Hr Hq H. destruct (operation_history_keeps r qs last Hr Hq H) as (? & ? & ? & ? & ? & ? & ? & ? & ?). split_and!; try done.
  - intros o E. by apply (completed_stays r qs last o).
  - intros o Hn El. by apply (completed_once r qs last o).
Qed.

(** ** Progress *)

(** The outcomes an operation may still have. *)
Definition attainable (progress : IndexOperationProgress) (o : IndexOperationOutcome) : Prop :=
  ends progress o \/ o = BuildOutcome Aborted /\ exists p', aborts progress p'.

Lemma operation_advance r q m' : operation_ok r -> request_ok q -> step (now r) q m' -> op_operation_revision r < umax 64 ->
  apply r q = Ok (after r m') /\ operation_ok (after r m').
Proof. intros Hr Hq Hs Hlt. split; [by apply step_apply|by apply (operation_step_ok r q m')]. Qed.

(** The claim of a writer and its completion, on what [before] leads to. *)
Definition finished_by (r : IndexOperationRecord) (before : list request) (o : IndexOperationOutcome) (c : OperationClaim) (rev : Z) : Prop :=
  exists mid last, history r (before ++ [Claim c]) = Ok mid /\ op_execution_state mid = Claimed c /\
    complete mid o rev = Ok last /\ op_execution_state last = Completed o /\ op_index_record_revision last = rev.

Lemma finish_claimable r c o rev : operation_ok r -> claim_ok c -> id_ok rev -> op_operation_revision r + 2 <= umax 64 ->
  ends (op_progress r) o -> ((exists t, op_execution_state r = Queued t) \/ (exists c, op_execution_state r = Claimed c)) ->
  finished_by r [] o c rev.
Proof.
  intros Hr Hc Hrev Hv Hm Hs. set (m1 := M (op_index_record_revision r) (op_progress r) (Z.min (op_attempt r + 1) (umax 32)) (Claimed c) None).
  assert (step (now r) (Claim c) m1) as Hs1 by (unfold now; destruct Hs as [[t ->]|[c' ->]]; constructor).
  destruct (operation_advance r (Claim c) m1 Hr Hc Hs1) as [E1 Hr1]; [lia|].
  destruct (operation_advance (after r m1) (Complete o rev) (M rev (op_progress r) (mo_attempt m1) (Completed o) None)) as [E2 Hr2]; [done|done|by constructor|cbn; lia|].
  eexists (after r m1), _. cbn [app history]. rewrite E1. split_and!; try done.
Qed.

Lemma finish_after r q m' c o rev : operation_ok r -> request_ok q -> step (now r) q m' -> claim_ok c -> id_ok rev -> op_operation_revision r + 3 <= umax 64 ->
  ends (mo_progress m') o -> mo_state m' = Queued None -> finished_by r [q] o c rev.
Proof.
  intros Hr Hq Hs Hc Hrev Hv Hm Es. destruct (operation_advance r q m' Hr Hq Hs) as [E Hr']; [lia|].
  destruct (finish_claimable (after r m') c o rev) as (mid & last & H & El); [done|done|done|cbn; lia|done|left; by exists None|].
  exists mid, last. split; [|done]. cbn [app history] in *. by rewrite E.
Qed.

Lemma eligible_iff s writer millis :
  is_eligible_for s writer millis = false <->
  exists t, not_before_unix_millis s = Some t /\ millis < t /\ (s = DelayedAfterProgress t \/ s = DelayedAfterTransientFailure t writer).
Proof.
  destruct s as [|t|t failed]; cbn [is_eligible_for not_before_unix_millis].
  - split; [done|]. by intros (? & ? & _).
  - rewrite Z.leb_gt. split; [intros ?; exists t; auto|]. by intros (? & [= <-] & ? & _).
  - rewrite orb_false_iff, negb_false_iff, bool_decide_eq_true, Z.leb_gt. split; [intros [-> ?]; exists t; auto|].
    by intros (? & [= <-] & ? & [?|[= ->]]).
Qed.

(** The shortest way to an outcome. *)
Lemma outcome_reached r o : operation_ok r -> op_operation_revision r + 3 <= umax 64 ->
  (forall o, op_execution_state r <> Completed o) -> attainable (op_progress r) o ->
  exists before, (before = [] \/ before = [Retry] \/ before = [BeginAbort (op_index_record_revision r)]) /\
    forall c rev, claim_ok c -> id_ok rev -> finished_by r before o c rev.
Proof.
  intros Hr Hv Hn [Hm|(-> & p' & Ep)].
  - destruct (op_execution_state r) as [t|c'|b|o'] eqn:Es; [..|by destruct (Hn o')].
    + exists []. split; [by left|]. intros c rev Hc Hrev. apply finish_claimable; [done|done|done|lia|done|left; by exists t].
    + exists []. split; [by left|]. intros c rev Hc Hrev. apply finish_claimable; [done|done|done|lia|done|right; by exists c'].
    + exists [Retry]. split; [by right; left|]. intros c rev Hc Hrev.
      apply (finish_after r Retry (M (op_index_record_revision r) (op_progress r) (op_attempt r) (Queued None) (Some Immediate))); try done.
      unfold now. rewrite Es. constructor.
  - exists [BeginAbort (op_index_record_revision r)]. split; [by right; right|]. intros c rev Hc Hrev.
    apply (finish_after r (BeginAbort (op_index_record_revision r)) (M (op_index_record_revision r) p' (op_attempt r) (Queued None) (Some Immediate)));
      try done; [apply (oo_index_revision _ Hr)|unfold now; by constructor|destruct Ep; constructor].
Qed.

(** [C39] No operation is stuck: with revisions left, there is at most one request (a retry or an abort) after which
    every writer's claim is granted and its completion accepted, at each outcome the progress leaves open, a
    constructing build at either; and a queued operation is kept from a writer only before its deadline, and if a
    failure set it only from the writer that failed. *)
Theorem operation_completable (r : IndexOperationRecord) (o : IndexOperationOutcome) :
  operation_ok r -> op_operation_revision r + 3 <= umax 64 ->
  (forall o, op_execution_state r <> Completed o) -> attainable (op_progress r) o ->
  (exists before, (before = [] \/ before = [Retry] \/ before = [BeginAbort (op_index_record_revision r)]) /\
    forall c rev, claim_ok c -> id_ok rev -> exists mid last,
      history r (before ++ [Claim c]) = Ok mid /\ op_execution_state mid = Claimed c /\
      complete mid o rev = Ok last /\ op_execution_state last = Completed o /\ op_index_record_revision last = rev) /\
  (forall s, op_queue_schedule r = Some s -> forall writer millis, is_eligible_for s writer millis = false <->
    exists t, op_execution_state r = Queued (Some t) /\ millis < t /\ (s = DelayedAfterProgress t \/ s = DelayedAfterTransientFailure t writer)).
Proof.
  intros Hr Hv Hn Ha. split; [by apply (outcome_reached r o)|]. intros s Hs writer millis. rewrite eligible_iff.
  destruct (oo_agrees _ Hr) as (_ & _ & _ & Hst). destruct (op_execution_state r) as [t|?|?|o']; [|by rewrite Hst in Hs|by rewrite (proj1 Hst) in Hs|by destruct (Hn o')].
  destruct Hst as (s' & E & Et). rewrite Hs in E. injection E as <-. rewrite Et. split; intros (t' & E & H); exists t'; (split; [congruence|exact H]).
Qed.

(** ** Cursors *)

(** The cursors whose images are valid. *)
Definition image {E} (map : bytes -> result E bytes) (validate : bytes -> bool) (cursor : bytes) : bool :=
  match map cursor with Ok mapped => validate mapped | Err _ => false end.

Lemma optional_mapped {E} (map : bytes -> result E bytes) validate cursor mapped : map_optional map cursor = Ok mapped ->
  is_none_or mapped validate = is_none_or cursor (image map validate).
Proof.
  destruct cursor as [cursor|]; cbn [map_optional]; [|by intros [= <-]]. intros H. apply result_bind_ok in H as (m & E1 & [= <-]).
  cbn [is_none_or]. unfold image. by rewrite E1.
Qed.

Lemma prefix_mapped {E} (map : bytes -> result E bytes) validate p p' : map_prefix map p = Ok p' ->
  prefix_is_valid validate p' = prefix_is_valid (image map validate) p.
Proof. intros H. apply result_bind_ok in H as (m & E1 & [= <-]). by apply (optional_mapped map). Qed.

Lemma source_mapped {E} (map : bytes -> result E bytes) validate p p' : map_source map p = Ok p' ->
  source_is_valid validate p' = source_is_valid (image map validate) p.
Proof.
  intros H. apply result_bind_ok in H as (b & Eb & H). apply result_bind_ok in H as (m & Em & [= <-]).
  unfold source_is_valid. cbn [sc_inclusive_upper_bound sc_cursor]. rewrite (optional_mapped map validate _ _ Em). unfold image. by rewrite Eb.
Qed.

(** Mapped cursors are valid exactly where their images are, and the stage stays what it is. *)
Lemma progress_mapped {E} (map : bytes -> result E bytes) validate p p' : progress_map_cursors map p = Ok p' ->
  cursors_are_valid validate p' = cursors_are_valid (image map validate) p /\ progress_family p' = progress_family p /\
  progress_kind p' = progress_kind p /\ is_constructing_build p' = is_constructing_build p /\ is_aborting_build p' = is_aborting_build p.
Proof.
  intros H. destruct p as [[stage|c]|[stage|c]|[stage|c]|c|c|c]; cbn [progress_map_cursors within] in H; unfold within in H;
    apply result_bind_ok in H as (x & Ex & [= <-]); (split; [|done]); cbn [compose cursors_are_valid];
    first [destruct stage as [p|p|p|p|p|p|p] | destruct stage as [p|p|p|p|p|p] | destruct stage as [p|p|p|p] | destruct c as [p|p|p|p] | destruct c as [p|p|p] | destruct c as [p|p]];
    unfold map_secondary_stage, map_vector_stage, map_text_stage, map_secondary_cleanup, map_vector_cleanup, map_text_cleanup, within in Ex;
    try (by injection Ex as <-); apply result_bind_ok in Ex as (y & Ey & [= <-]);
    cbn [cursors_are_valid secondary_cleanup_is_valid vector_cleanup_is_valid text_cleanup_is_valid lv_cursor ld_cursor ld_expected_markers ld_verified_markers];
    try (by apply (prefix_mapped map)); try (by apply (source_mapped map)); try (by rewrite (optional_mapped map validate _ _ Ey)).
  destruct p as [q|q|q]; unfold map_manifests, within in Ey; apply result_bind_ok in Ey as (z & Ez & [= <-]);
    [cbn [tp_cursor]; by apply (optional_mapped map)|by apply (prefix_mapped map)..].
Qed.

(** ** Samples *)

Definition sample_epoch : bytes := replicate 16 7.
Definition sample_claim : OperationClaim := {| writer_epoch := sample_epoch; sequence := 1 |}.
Definition sample_counters : OperationCounters := {| entities := 3; input_bytes := 40; output_operations := 2; output_bytes := 20 |}.

(** The build of the equality index of the properties [p] of the nodes [d], about to publish. *)
Definition sample_build : IndexOperationRecord :=
  {| op_operation_id := replicate 16 1; op_index_id := 1;
     op_identity := {| family := SecondaryEquality; element_kind := Node; label := [100]; property := [112] |}; op_generation := 2;
     op_index_record_revision := 3; op_operation_revision := 4; op_kind := Build; op_family := SecondaryOperation;
     op_progress := SecondaryBuild (SecondaryConstructing (SecondaryActivate {| nc_counters := sample_counters |})); op_attempt := 1;
     op_execution_state := Claimed sample_claim; op_queue_schedule := None |}.

Lemma sample_uuid b : byte_ok b -> b <> 0 -> uuid_ok (replicate 16 b).
Proof. intros Hb Hn. split_and!; [by apply Forall_replicate|apply length_replicate|]. cbn. congruence. Qed.

Lemma sample_claim_ok : claim_ok sample_claim.
Proof. split; [by apply sample_uuid|done]. Qed.

Lemma sample_build_ok : operation_ok sample_build.
Proof.
  assert (forall c, c = 100 \/ c = 112 -> component_ok [c]) as Hc.
  { intros c [-> | ->]; (split; [split; [by repeat constructor|reflexivity]|done]). }
  split; try done; try (by apply sample_uuid); try exact sample_claim_ok; try (by split; apply Hc; auto); try (by split_and!).
  split_and!; [constructor|constructor|done].
Qed.

Lemma operation_transitions_witness :
  operation_ok sample_build /\ exists r', apply sample_build (Fail 9) = Ok r' /\ operation_ok r' /\
    apply sample_build Retry = Err (IllegalExecutionTransition "claimed" "retry") /\
    apply sample_build (Complete DropSucceeded 4) = Err CompletionKindMismatch.
Proof.
  split; [exact sample_build_ok|].
  destruct (operation_transitions sample_build (Fail 9) sample_build_ok) as (_ & Hk & _); [by split|].
  destruct (operation_transitions sample_build Retry sample_build_ok I) as (_ & _ & He).
  destruct (operation_transitions sample_build (Complete DropSucceeded 4) sample_build_ok) as (_ & _ & Hc); [done|].
  eexists. split; [reflexivity|]. split_and!; [by apply Hk|apply He|apply Hc].
  - apply (refuses_closed sample_build Retry); [by inversion 1|constructor].
  - apply (refuses_outcome _ sample_claim); [done|done|]. apply (unsuited_kind _ _ SecondaryOperation Build Drop); [apply belongs_secondary_build|constructor|done].
Defined.

Lemma operation_history_witness :
  exists last, history sample_build [Fail 9; Claim sample_claim; Complete (BuildOutcome Succeeded) 4] = Ok last /\ operation_ok last /\ op_attempt last = 2.
Proof.
  eexists. split; [reflexivity|].
  refine ((fun H => conj (proj1 H) (proj1 (proj2 (proj2 (proj2 H)))))
    (operation_history sample_build _ [Fail 9; Claim sample_claim; Complete (BuildOutcome Succeeded) 4] sample_build_ok _ eq_refl)).
  apply Forall_cons. split; [by split|]. apply Forall_cons. split; [exact sample_claim_ok|]. by apply Forall_cons.
Defined.

Lemma operation_completable_witness :
  exists mid last, history sample_build [BeginAbort 3; Claim sample_claim] = Ok mid /\ complete mid (BuildOutcome Aborted) 4 = Ok last /\
    op_execution_state last = Completed (BuildOutcome Aborted).
Proof.
  destruct (operation_completable sample_build (BuildOutcome Aborted) sample_build_ok) as [(before & Hb & H) _];
    [vm_compute; discriminate|done|right; split; [done|eexists; constructor]|].
  destruct (H sample_claim 4 sample_claim_ok) as (mid & last & E & Ec & El & Es & _); [by split|].
  destruct Hb as [-> |[-> | ->]]; [exfalso|exfalso|by exists mid, last]; vm_compute in E; try done.
  injection E as <-. vm_compute in El. done.
Defined.
End OperationRecordSpec.
