(* ===== verification/OperationValues.v ===== *)
(** The stored operation record: crates/db/src/encoding/v2/values/lifecycle/operation_record.rs,
    with the cursors, counters, claims and blockers of values/codec.rs.

    As in LifecycleValues.v, a writer returns the bytes it appends, [None] where it
    panics, and a reader the value and what remains. Readers also accept what older
    releases wrote: cleanup stages with a drain epoch, and a retired blocker. *)
From S2P Require Import Prelude Bytes Cursor IndexIdentity LifecycleValues OperationRecord.

Open Scope Z_scope.

Module OperationValues.
Export OperationRecord.
Export LifecycleValues.

(** [map_err(operation_model_error)]. *)
Definition operation_model {A} (r : result IndexOperationModelError A) : result EncodingError A :=
  match r with
  | Ok a => Ok a
  | Err e => Err (Custom (operation_error_to_string e))
  end.

(** A discriminant before what follows it. *)
Definition tagged (tag : Z) (rest : option bytes) : option bytes := rest ← rest; Some (tag :: rest).

(** What is read, in its constructor. *)
Definition read_as {A B} (make : A -> B) (r : result EncodingError (A * bytes)) : result EncodingError (B * bytes) :=
  let? (a, decoder) := r in Ok (make a, decoder).

(** ** Cursors, counters, claims *)

Definition WRITER_EPOCH : string := "writer epoch".

Definition take_writer_epoch (decoder : bytes) : result EncodingError (bytes * bytes) :=
  let? (value, decoder) := take_raw UUID_LEN decoder in
  let? epoch := model (uuid_from_bytes WRITER_EPOCH value) in
  Ok (epoch, decoder).

Definition put_cursor (cursor : option bytes) : option bytes := put_option cursor put_bytes.

(** [IndexCursor::try_new(decoder.take_bytes(INDEX_CURSOR_MAX_LEN)?)]. *)
Definition take_index_cursor (decoder : bytes) : result EncodingError (bytes * bytes) :=
  let? (value, decoder) := take_bytes INDEX_CURSOR_MAX_LEN decoder in
  let? cursor := operation_model (cursor_try_new value) in
  Ok (cursor, decoder).
Definition take_cursor (decoder : bytes) : result EncodingError (option bytes * bytes) := take_option take_index_cursor decoder.

Definition put_counters (counters : OperationCounters) : bytes :=
  to_be 8 (entities counters) ++ to_be 8 (input_bytes counters) ++ to_be 8 (output_operations counters) ++ to_be 8 (output_bytes counters).
Definition take_counters (decoder : bytes) : result EncodingError (OperationCounters * bytes) :=
  let? (entities, decoder) := take_u64 decoder in
  let? (input_bytes, decoder) := take_u64 decoder in
  let? (output_operations, decoder) := take_u64 decoder in
  let? (output_bytes, decoder) := take_u64 decoder in
  Ok ({| entities := entities; input_bytes := input_bytes; output_operations := output_operations; output_bytes := output_bytes |}, decoder).

Definition put_claim (claim : OperationClaim) : bytes := writer_epoch claim ++ to_be 8 (sequence claim).
Definition take_claim (decoder : bytes) : result EncodingError (OperationClaim * bytes) :=
  let? (writer_epoch, decoder) := take_writer_epoch decoder in
  let? (value, decoder) := take_u64 decoder in
  let? sequence := operation_model (claim_sequence_new value) in
  Ok ({| writer_epoch := writer_epoch; sequence := sequence |}, decoder).

(** ** Blockers *)

Definition put_blocker (blocker : IndexOperationBlocker) : option bytes :=
  match blocker with
  | InvalidSourceData entity_kind entity_id => Some (0x01 :: element_kind_u8 entity_kind :: to_be 8 entity_id)
  | UniquenessViolation first_entity_id second_entity_id => Some (0x02 :: to_be 8 first_entity_id ++ to_be 8 second_entity_id)
  | OversizedEntity entity_kind entity_id observed limit =>
      Some (0x03 :: element_kind_u8 entity_kind :: to_be 8 entity_id ++ to_be 8 observed ++ to_be 8 limit)
  | ManifestLimit partition observed limit =>
      partition ← put_partition partition; Some (0x04 :: partition ++ to_be 8 observed ++ to_be 8 limit)
  | ObjectStoreConfigurationUnavailable => Some [0x06]
  | InvariantViolation => Some [0x07]
  | InvalidLegacyPhysical => Some [0x0A]
  end.

Inductive DecodedIndexOperationBlocker := Current (blocker : IndexOperationBlocker) | LegacyReaderCoordinationUnavailable.

(** The match of [take_blocker]. *)
Definition take_any_blocker (decoder : bytes) : result EncodingError (DecodedIndexOperationBlocker * bytes) :=
  let? (tag, decoder) := take_u8 decoder in
  if tag =? 0x01 then
    let? (entity_kind, decoder) := take_element_kind decoder in
    let? (entity_id, decoder) := take_u64 decoder in
    Ok (Current (InvalidSourceData entity_kind entity_id), decoder)
  else if tag =? 0x02 then
    let? (first_entity_id, decoder) := take_u64 decoder in
    let? (second_entity_id, decoder) := take_u64 decoder in
    Ok (Current (UniquenessViolation first_entity_id second_entity_id), decoder)
  else if tag =? 0x03 then
    let? (entity_kind, decoder) := take_element_kind decoder in
    let? (entity_id, decoder) := take_u64 decoder in
    let? (observed, decoder) := take_u64 decoder in
    let? (limit, decoder) := take_u64 decoder in
    Ok (Current (OversizedEntity entity_kind entity_id observed limit), decoder)
  else if tag =? 0x04 then
    let? (partition, decoder) := take_partition decoder in
    let? (observed, decoder) := take_u64 decoder in
    let? (limit, decoder) := take_u64 decoder in
    Ok (Current (ManifestLimit partition observed limit), decoder)
  else if tag =? 0x05 then Ok (LegacyReaderCoordinationUnavailable, decoder)
  else if tag =? 0x06 then Ok (Current ObjectStoreConfigurationUnavailable, decoder)
  else if tag =? 0x07 then Ok (Current InvariantViolation, decoder)
  else if tag =? 0x0A then Ok (Current InvalidLegacyPhysical, decoder)
  else unknown_discriminant "operation blocker" tag.

Definition take_blocker (decoder : bytes) : result EncodingError (DecodedIndexOperationBlocker * bytes) :=
  let? (blocker, decoder) := take_any_blocker decoder in
  match blocker with
  | Current current => let? _ := operation_model (blocker_validate current) in Ok (blocker, decoder)
  | LegacyReaderCoordinationUnavailable => Ok (blocker, decoder)
  end.

(** ** Scans *)

Definition put_source_scan (progress : SourceScanProgress) : option bytes :=
  bound ← put_bytes (sc_inclusive_upper_bound progress);
  cursor ← put_cursor (sc_cursor progress);
  Some (bound ++ cursor ++ put_counters (sc_counters progress)).
Definition take_source_scan (decoder : bytes) : result EncodingError (SourceScanProgress * bytes) :=
  let? (bound, decoder) := take_index_cursor decoder in
  let? (cursor, decoder) := take_cursor decoder in
  let? (counters, decoder) := take_counters decoder in
  Ok ({| sc_inclusive_upper_bound := bound; sc_cursor := cursor; sc_counters := counters |}, decoder).

Definition put_prefix_scan (progress : PrefixScanProgress) : option bytes :=
  cursor ← put_cursor (ps_cursor progress); Some (cursor ++ put_counters (ps_counters progress)).
Definition take_prefix_scan (decoder : bytes) : result EncodingError (PrefixScanProgress * bytes) :=
  let? (cursor, decoder) := take_cursor decoder in
  let? (counters, decoder) := take_counters decoder in
  Ok ({| ps_cursor := cursor; ps_counters := counters |}, decoder).

Definition put_no_cursor (progress : NoCursorProgress) : option bytes := Some (put_counters (nc_counters progress)).
Definition take_no_cursor (decoder : bytes) : result EncodingError (NoCursorProgress * bytes) :=
  let? (counters, decoder) := take_counters decoder in Ok ({| nc_counters := counters |}, decoder).

Definition lane_u8 (lane : LegacyVectorValidationLane) : Z := match lane with Core => 0x01 | Hot => 0x02 | Layer0 => 0x03 end.
Definition take_lane (decoder : bytes) : result EncodingError (LegacyVectorValidationLane * bytes) :=
  let? (value, decoder) := take_u8 decoder in
  if value =? 0x01 then Ok (Core, decoder)
  else if value =? 0x02 then Ok (Hot, decoder)
  else if value =? 0x03 then Ok (Layer0, decoder)
  else unknown_discriminant "legacy vector validation lane" value.

Definition put_legacy_vector_validation (progress : LegacyVectorValidationProgress) : option bytes :=
  cursor ← put_cursor (lv_cursor progress); Some (lane_u8 (lv_lane progress) :: cursor ++ put_counters (lv_counters progress)).
Definition take_legacy_vector_validation (decoder : bytes) : result EncodingError (LegacyVectorValidationProgress * bytes) :=
  let? (lane, decoder) := take_lane decoder in
  let? (cursor, decoder) := take_cursor decoder in
  let? (counters, decoder) := take_counters decoder in
  Ok ({| lv_lane := lane; lv_cursor := cursor; lv_counters := counters |}, decoder).

Definition put_legacy_vector_directory_validation (progress : LegacyVectorDirectoryValidationProgress) : option bytes :=
  cursor ← put_cursor (ld_cursor progress);
  Some (cursor ++ to_be 8 (ld_expected_markers progress) ++ to_be 8 (ld_verified_markers progress) ++ put_counters (ld_counters progress)).
Definition take_legacy_vector_directory_validation (decoder : bytes) : result EncodingError (LegacyVectorDirectoryValidationProgress * bytes) :=
  let? (cursor, decoder) := take_cursor decoder in
  let? (expected_markers, decoder) := take_u64 decoder in
  let? (verified_markers, decoder) := take_u64 decoder in
  let? (counters, decoder) := take_counters decoder in
  if expected_markers <? verified_markers then Err (Custom "verified legacy vector directory markers exceed the expected count")
  else
    Ok ({| ld_cursor := cursor; ld_expected_markers := expected_markers; ld_verified_markers := verified_markers; ld_counters := counters |},
        decoder).

(** ** Manifest validation *)

Definition put_partition_validation (partition : TextManifestPartitionValidation) : option bytes :=
  Some (pv_partition_fingerprint partition ++ to_be 8 (pv_root_revision partition) ++ to_be 4 (pv_page_count partition)
    ++ to_be 8 (pv_split_count partition) ++ to_be 4 (pv_next_page partition) ++ to_be 8 (pv_observed_split_count partition)).
Definition take_partition_validation (decoder : bytes) : result EncodingError (TextManifestPartitionValidation * bytes) :=
  let? (fingerprint, decoder) := take_raw 32 decoder in
  let? (root_revision, decoder) := take_id TEXT_MANIFEST_REVISION decoder in
  let? (page_count, decoder) := take_u32 decoder in
  let? (split_count, decoder) := take_u64 decoder in
  let? (next_page, decoder) := take_u32 decoder in
  let? (observed_split_count, decoder) := take_u64 decoder in
  let? partition := operation_model
    (partition_validation_try_new fingerprint root_revision page_count split_count next_page observed_split_count) in
  Ok (partition, decoder).

(** The page lane of a manifest validation. *)
Definition put_pages (progress : TextManifestPageValidationProgress) : option bytes :=
  cursor ← put_cursor (tp_cursor progress);
  partition ← put_option (tp_partition progress) put_partition_validation;
  Some (cursor ++ partition ++ put_counters (tp_counters progress)).
Definition take_pages (decoder : bytes) : result EncodingError (TextManifestPageValidationProgress * bytes) :=
  let? (cursor, decoder) := take_cursor decoder in
  let? (partition, decoder) := take_option take_partition_validation decoder in
  let? (counters, decoder) := take_counters decoder in
  let? progress := operation_model (page_validation_try_new cursor partition counters) in
  Ok (progress, decoder).

Definition put_text_manifest_validation (progress : TextManifestValidationProgress) : option bytes :=
  match progress with
  | Pages progress => tagged 0x01 (put_pages progress)
  | Roots progress => tagged 0x02 (put_prefix_scan progress)
  | EntityStates progress => tagged 0x03 (put_prefix_scan progress)
  end.
Definition take_text_manifest_validation (decoder : bytes) : result EncodingError (TextManifestValidationProgress * bytes) :=
  let? (tag, decoder) := take_u8 decoder in
  if tag =? 0x01 then read_as Pages (take_pages decoder)
  else if tag =? 0x02 then read_as Roots (take_prefix_scan decoder)
  else if tag =? 0x03 then read_as EntityStates (take_prefix_scan decoder)
  else unknown_discriminant "text manifest validation lane" tag.

(** ** Stages *)

Definition put_secondary_stage (stage : SecondaryBuildStage) : option bytes :=
  match stage with
  | SecondaryScan progress => tagged 0x01 (put_source_scan progress)
  | SecondaryCatchUp progress => tagged 0x02 (put_prefix_scan progress)
  | SecondaryValidate progress => tagged 0x03 (put_prefix_scan progress)
  | SecondaryActivate progress => tagged 0x04 (put_no_cursor progress)
  end.
Definition take_secondary_stage (decoder : bytes) : result EncodingError (SecondaryBuildStage * bytes) :=
  let? (tag, decoder) := take_u8 decoder in
  if tag =? 0x01 then read_as SecondaryScan (take_source_scan decoder)
  else if tag =? 0x02 then read_as SecondaryCatchUp (take_prefix_scan decoder)
  else if tag =? 0x03 then read_as SecondaryValidate (take_prefix_scan decoder)
  else if tag =? 0x04 then read_as SecondaryActivate (take_no_cursor decoder)
  else unknown_discriminant "secondary build stage" tag.

Definition put_vector_stage (stage : VectorBuildStage) : option bytes :=
  match stage with
  | AdoptLegacy progress => tagged 0x05 (put_legacy_vector_validation progress)
  | ValidateAdoptedDirectory progress => tagged 0x06 (put_legacy_vector_directory_validation progress)
  | VectorScan progress => tagged 0x01 (put_source_scan progress)
  | VectorCatchUp progress => tagged 0x02 (put_prefix_scan progress)
  | ValidateDescriptor progress => tagged 0x03 (put_prefix_scan progress)
  | VectorActivate progress => tagged 0x04 (put_no_cursor progress)
  end.
Definition take_vector_stage (decoder : bytes) : result EncodingError (VectorBuildStage * bytes) :=
  let? (tag, decoder) := take_u8 decoder in
  if tag =? 0x01 then read_as VectorScan (take_source_scan decoder)
  else if tag =? 0x02 then read_as VectorCatchUp (take_prefix_scan decoder)
  else if tag =? 0x03 then read_as ValidateDescriptor (take_prefix_scan decoder)
  else if tag =? 0x04 then read_as VectorActivate (take_no_cursor decoder)
  else if tag =? 0x05 then read_as AdoptLegacy (take_legacy_vector_validation decoder)
  else if tag =? 0x06 then read_as ValidateAdoptedDirectory (take_legacy_vector_directory_validation decoder)
  else unknown_discriminant "vector build stage" tag.

Definition put_text_stage (stage : TextBuildStage) : option bytes :=
  match stage with
  | ScanSource progress => tagged 0x01 (put_source_scan progress)
  | ScanPartitions progress => tagged 0x02 (put_source_scan progress)
  | TextCatchUp progress => tagged 0x03 (put_prefix_scan progress)
  | Compact progress => tagged 0x04 (put_prefix_scan progress)
  | PrepareManifests progress => tagged 0x05 (put_prefix_scan progress)
  | ValidateManifests progress => tagged 0x06 (put_text_manifest_validation progress)
  | TextActivate progress => tagged 0x07 (put_no_cursor progress)
  end.
Definition take_text_stage (decoder : bytes) : result EncodingError (TextBuildStage * bytes) :=
  let? (tag, decoder) := take_u8 decoder in
  if tag =? 0x01 then read_as ScanSource (take_source_scan decoder)
  else if tag =? 0x02 then read_as ScanPartitions (take_source_scan decoder)
  else if tag =? 0x03 then read_as TextCatchUp (take_prefix_scan decoder)
  else if tag =? 0x04 then read_as Compact (take_prefix_scan decoder)
  else if tag =? 0x05 then read_as PrepareManifests (take_prefix_scan decoder)
  else if tag =? 0x06 then read_as ValidateManifests (take_text_manifest_validation decoder)
  else if tag =? 0x07 then read_as TextActivate (take_no_cursor decoder)
  else unknown_discriminant "text build stage" tag.

(** The drain epoch of older cleanups is read and forgotten. *)
Definition take_legacy_drain_counters (decoder : bytes) : result EncodingError (OperationCounters * bytes) :=
  let? (_, decoder) := take_option take_u64 decoder in take_counters decoder.
Definition take_drained (decoder : bytes) : result EncodingError (NoCursorProgress * bytes) :=
  read_as (fun counters => {| nc_counters := counters |}) (take_legacy_drain_counters decoder).

Definition put_secondary_cleanup (progress : SecondaryCleanupProgress) : option bytes :=
  match progress with
  | DeleteEntries progress => tagged 0x02 (put_prefix_scan progress)
  | SecondaryDeleteDeltas progress => tagged 0x03 (put_prefix_scan progress)
  | SecondaryFinalize progress => tagged 0x05 (put_no_cursor progress)
  end.
Definition take_secondary_cleanup (decoder : bytes) : result EncodingError (SecondaryCleanupProgress * bytes) :=
  let? (tag, decoder) := take_u8 decoder in
  if tag =? 0x01 then
    read_as (fun counters => DeleteEntries {| ps_cursor := None; ps_counters := counters |}) (take_legacy_drain_counters decoder)
  else if tag =? 0x02 then read_as DeleteEntries (take_prefix_scan decoder)
  else if tag =? 0x03 then read_as SecondaryDeleteDeltas (take_prefix_scan decoder)
  else if tag =? 0x04 then read_as SecondaryFinalize (take_drained decoder)
  else if tag =? 0x05 then read_as SecondaryFinalize (take_no_cursor decoder)
  else unknown_discriminant "secondary cleanup stage" tag.

Definition put_vector_cleanup (progress : VectorCleanupProgress) : option bytes :=
  match progress with
  | RetireCache progress => tagged 0x02 (put_no_cursor progress)
  | DeletePhysical progress => tagged 0x03 (put_prefix_scan progress)
  | VectorDeleteDeltas progress => tagged 0x04 (put_prefix_scan progress)
  | VectorFinalize progress => tagged 0x06 (put_no_cursor progress)
  end.
Definition take_vector_cleanup (decoder : bytes) : result EncodingError (VectorCleanupProgress * bytes) :=
  let? (tag, decoder) := take_u8 decoder in
  if tag =? 0x01 then read_as RetireCache (take_drained decoder)
  else if tag =? 0x02 then read_as RetireCache (take_no_cursor decoder)
  else if tag =? 0x03 then read_as DeletePhysical (take_prefix_scan decoder)
  else if tag =? 0x04 then read_as VectorDeleteDeltas (take_prefix_scan decoder)
  else if tag =? 0x05 then read_as VectorFinalize (take_drained decoder)
  else if tag =? 0x06 then read_as VectorFinalize (take_no_cursor decoder)
  else unknown_discriminant "vector cleanup stage" tag.

Definition put_text_cleanup (progress : TextCleanupProgress) : option bytes :=
  match progress with
  | DeleteMetadata progress => tagged 0x01 (put_prefix_scan progress)
  | TextFinalize progress => tagged 0x02 (put_no_cursor progress)
  end.
Definition take_text_cleanup (decoder : bytes) : result EncodingError (TextCleanupProgress * bytes) :=
  let? (tag, decoder) := take_u8 decoder in
  if tag =? 0x01 then read_as DeleteMetadata (take_prefix_scan decoder)
  else if tag =? 0x02 then read_as TextFinalize (take_no_cursor decoder)
  else unknown_discriminant "text cleanup stage" tag.

Definition put_operation_progress (progress : IndexOperationProgress) : option bytes :=
  match progress with
  | SecondaryBuild (SecondaryConstructing stage) => tagged 0x01 (put_secondary_stage stage)
  | SecondaryBuild (SecondaryAborting progress) => tagged 0x02 (put_secondary_cleanup progress)
  | VectorBuild (VectorConstructing stage) => tagged 0x01 (put_vector_stage stage)
  | VectorBuild (VectorAborting progress) => tagged 0x02 (put_vector_cleanup progress)
  | TextBuild (TextConstructing stage) => tagged 0x01 (put_text_stage stage)
  | TextBuild (TextAborting progress) => tagged 0x02 (put_text_cleanup progress)
  | SecondaryCleanup progress => put_secondary_cleanup progress
  | VectorCleanup progress => put_vector_cleanup progress
  | TextCleanup progress => put_text_cleanup progress
  end.

Definition take_operation_progress (kind : IndexOperationKind) (family : IndexOperationFamily) (decoder : bytes)
    : result EncodingError (IndexOperationProgress * bytes) :=
  match kind, family with
  | Build, family =>
      let? (mode, decoder) := take_u8 decoder in
      match family with
      | SecondaryOperation =>
          if mode =? 0x01 then read_as (SecondaryBuild ∘ SecondaryConstructing) (take_secondary_stage decoder)
          else if mode =? 0x02 then read_as (SecondaryBuild ∘ SecondaryAborting) (take_secondary_cleanup decoder)
          else unknown_discriminant "build progress mode" mode
      | VectorOperation =>
          if mode =? 0x01 then read_as (VectorBuild ∘ VectorConstructing) (take_vector_stage decoder)
          else if mode =? 0x02 then read_as (VectorBuild ∘ VectorAborting) (take_vector_cleanup decoder)
          else unknown_discriminant "build progress mode" mode
      | TextOperation =>
          if mode =? 0x01 then read_as (TextBuild ∘ TextConstructing) (take_text_stage decoder)
          else if mode =? 0x02 then read_as (TextBuild ∘ TextAborting) (take_text_cleanup decoder)
          else unknown_discriminant "build progress mode" mode
      end
  | Drop, SecondaryOperation => read_as SecondaryCleanup (take_secondary_cleanup decoder)
  | Drop, VectorOperation => read_as VectorCleanup (take_vector_cleanup decoder)
  | Drop, TextOperation => read_as TextCleanup (take_text_cleanup decoder)
  end.

(** ** Execution states *)

Definition put_schedule (schedule : IndexOperationQueueSchedule) : bytes :=
  match schedule with
  | Immediate => [0x01]
  | DelayedAfterProgress not_before => 0x02 :: to_be 8 not_before
  | DelayedAfterTransientFailure not_before failed_writer_epoch => 0x03 :: to_be 8 not_before ++ failed_writer_epoch
  end.
Definition take_schedule (decoder : bytes) : result EncodingError (IndexOperationQueueSchedule * bytes) :=
  let? (tag, decoder) := take_u8 decoder in
  if tag =? 0x01 then Ok (Immediate, decoder)
  else if tag =? 0x02 then let? (not_before, decoder) := take_u64 decoder in Ok (DelayedAfterProgress not_before, decoder)
  else if tag =? 0x03 then
    let? (not_before, decoder) := take_u64 decoder in
    let? (failed_writer_epoch, decoder) := take_writer_epoch decoder in
    Ok (DelayedAfterTransientFailure not_before failed_writer_epoch, decoder)
  else unknown_discriminant "operation queue schedule" tag.

Definition build_outcome_u8 (outcome : BuildOperationOutcome) : Z := match outcome with Succeeded => 0x01 | Aborted => 0x02 end.

Definition put_execution_state (kind : IndexOperationKind) (state : IndexOperationExecutionState) (queue_schedule : option IndexOperationQueueSchedule)
    : option bytes :=
  match state with
  | Queued _ => schedule ← queue_schedule; Some (0x01 :: put_schedule schedule)
  | Claimed claim => Some (0x02 :: put_claim claim)
  | Blocked blocker => tagged 0x03 (put_blocker blocker)
  | Completed outcome =>
      match kind, outcome with
      | Build, BuildOutcome outcome => Some [0x04; build_outcome_u8 outcome]
      | Drop, DropSucceeded => Some [0x04; 0x01]
      | _, _ => None
      end
  end.

Record DecodedExecutionState := {
  ds_state : IndexOperationExecutionState; ds_queue_schedule : option IndexOperationQueueSchedule;
  ds_legacy_reader_coordination_blocker : bool }.

(** A state with neither a schedule nor anything to repair. *)
Definition plain_state (state : IndexOperationExecutionState) : DecodedExecutionState :=
  {| ds_state := state; ds_queue_schedule := None; ds_legacy_reader_coordination_blocker := false |}.
Definition queued_state (schedule : IndexOperationQueueSchedule) : DecodedExecutionState :=
  {| ds_state := Queued (not_before_unix_millis schedule); ds_queue_schedule := Some schedule;
     ds_legacy_reader_coordination_blocker := false |}.
Definition blocked_state (blocker : DecodedIndexOperationBlocker) : DecodedExecutionState :=
  match blocker with
  | Current blocker => plain_state (Blocked blocker)
  | LegacyReaderCoordinationUnavailable =>
      {| ds_state := Blocked InvariantViolation; ds_queue_schedule := None; ds_legacy_reader_coordination_blocker := true |}
  end.

Definition take_outcome (kind : IndexOperationKind) (decoder : bytes) : result EncodingError (IndexOperationOutcome * bytes) :=
  let? (value, decoder) := take_u8 decoder in
  match kind with
  | Build =>
      if value =? 0x01 then Ok (BuildOutcome Succeeded, decoder)
      else if value =? 0x02 then Ok (BuildOutcome Aborted, decoder)
      else unknown_discriminant "operation outcome" value
  | Drop => if value =? 0x01 then Ok (DropSucceeded, decoder) else unknown_discriminant "operation outcome" value
  end.

Definition take_execution_state (kind : IndexOperationKind) (decoder : bytes) : result EncodingError (DecodedExecutionState * bytes) :=
  let? (tag, decoder) := take_u8 decoder in
  if tag =? 0x01 then read_as queued_state (take_schedule decoder)
  else if tag =? 0x02 then read_as (plain_state ∘ Claimed) (take_claim decoder)
  else if tag =? 0x03 then read_as blocked_state (take_blocker decoder)
  else if tag =? 0x04 then read_as (plain_state ∘ Completed) (take_outcome kind decoder)
  else unknown_discriminant "operation execution state" tag.

(** ** Records *)

Definition OPERATION_RECORD_KIND : Z := 0x02.

Definition kind_u8 (kind : IndexOperationKind) : Z := match kind with Build => 0x01 | Drop => 0x02 end.
Definition take_kind (decoder : bytes) : result EncodingError (IndexOperationKind * bytes) :=
  let? (value, decoder) := take_u8 decoder in
  if value =? 0x01 then Ok (Build, decoder)
  else if value =? 0x02 then Ok (Drop, decoder)
  else unknown_discriminant "operation kind" value.
Definition operation_family_u8 (family : IndexOperationFamily) : Z :=
  match family with SecondaryOperation => 0x01 | VectorOperation => 0x02 | TextOperation => 0x03 end.
Definition take_operation_family (decoder : bytes) : result EncodingError (IndexOperationFamily * bytes) :=
  let? (value, decoder) := take_u8 decoder in
  if value =? 0x01 then Ok (SecondaryOperation, decoder)
  else if value =? 0x02 then Ok (VectorOperation, decoder)
  else if value =? 0x03 then Ok (TextOperation, decoder)
  else unknown_discriminant "operation family" value.

Definition encode_operation_record (record : IndexOperationRecord) : option bytes :=
  identity ← put_identity (op_identity record);
  progress ← put_operation_progress (op_progress record);
  state ← put_execution_state (op_kind record) (op_execution_state record) (op_queue_schedule record);
  Some (with_header OPERATION_RECORD_KIND ++ op_operation_id record ++ to_be 8 (op_index_id record) ++ identity
    ++ to_be 8 (op_generation record) ++ to_be 8 (op_index_record_revision record) ++ to_be 8 (op_operation_revision record)
    ++ kind_u8 (op_kind record) :: operation_family_u8 (op_family record) :: progress ++ to_be 4 (op_attempt record) ++ state).

(** The fields of a record before it is validated, in the order they are read. *)
Definition take_operation_parts (decoder : bytes) : result EncodingError (IndexOperationRecord * bool * bytes) :=
  let? (operation_id, decoder) := take_operation_id decoder in
  let? (index_id, decoder) := take_id INDEX_ID decoder in
  let? (identity, decoder) := take_identity decoder in
  let? (generation, decoder) := take_id GENERATION_ID decoder in
  let? (index_record_revision, decoder) := take_id INDEX_REVISION decoder in
  let? (operation_revision, decoder) := take_id OPERATION_REVISION decoder in
  let? (kind, decoder) := take_kind decoder in
  let? (family, decoder) := take_operation_family decoder in
  let? (progress, decoder) := take_operation_progress kind family decoder in
  let? (attempt, decoder) := take_u32 decoder in
  let? (state, decoder) := take_execution_state kind decoder in
  Ok ({| op_operation_id := operation_id; op_index_id := index_id; op_identity := identity; op_generation := generation;
         op_index_record_revision := index_record_revision; op_operation_revision := operation_revision; op_kind := kind;
         op_family := family; op_progress := progress; op_attempt := attempt; op_execution_state := ds_state state;
         op_queue_schedule := ds_queue_schedule state |}, ds_legacy_reader_coordination_blocker state, decoder).

Definition decode_operation_record_with_compatibility (value : bytes) : result EncodingError (IndexOperationRecord * bool) :=
  let? parts := decode_value OPERATION_RECORD_KIND take_operation_parts value in
  let '(r, legacy_reader_coordination_blocker) := parts in
  let? record := operation_model (try_new_with_queue_schedule (op_operation_id r) (op_index_id r) (op_identity r) (op_generation r)
    (op_index_record_revision r) (op_operation_revision r) (op_kind r) (op_family r) (op_progress r) (op_attempt r) (op_execution_state r)
    (op_queue_schedule r)) in
  Ok (record, legacy_reader_coordination_blocker).

Definition decode_operation_record (value : bytes) : result EncodingError IndexOperationRecord :=
  let? (record, _) := decode_operation_record_with_compatibility value in Ok record.
End OperationValues.
