(* ===== verification/OperationValuesSpec.v ===== *)
(** Operation records are read back from the bytes they are written as, and from no
    others but the forms of older releases. *)
From S2P Require Import Prelude Bytes Cursor IndexIdentity ManagedKeysSpec LifecycleSpec OperationRecord OperationRecordSpec OperationValues.

Open Scope Z_scope.

(** A reader of what a relation allows to be written. *)
Class Reads {A} (wire : A -> bytes -> Prop) (get : bytes -> result EncodingError (A * bytes)) : Prop := {
  reads : forall a p c, wire a p -> get (p ++ c) = Ok (a, c);
  reads_inv : forall b a c, bytes_ok b -> get b = Ok (a, c) -> exists p, wire a p /\ b = p ++ c }.

Module OperationValuesSpec.
Export LifecycleSpec.
Export OperationRecordSpec.
Export OperationValues.

(** ** Fields *)

Lemma operation_model_ok {A} (r : result IndexOperationModelError A) a : operation_model r = Ok a <-> r = Ok a.
Proof. destruct r; cbn; split; (done || by intros [= ->]). Qed.

Lemma wire_wired {A} (ok : A -> Prop) put get : Wire ok put get -> Wired ok (fun a => Some (put a)) get.
Proof.
  intros W. split.
  - intros a Ha. exists (put a). split_and!; [done|by apply (wire_ok (Wire := W))|]. intros c. by apply (wire_get (Wire := W)).
  - intros b a c Hb H. apply (wire_put (Wire := W)) in H as [Ha ->]; [|done]. split; [done|]. by exists (put a).
Qed.

#[global] Instance wired_reads {A} (ok : A -> Prop) put get `{!Wired ok put get} : Reads (fun a p => ok a /\ put a = Some p) get.
Proof.
  split.
  - intros a p c [Ha E]. destruct (wired_put a Ha) as (q & E' & _ & Hg). rewrite E in E'. by injection E' as <-.
  - intros b a c Hb H. apply wired_get in H as (Ha & p & E & ->); [|done]. by exists p.
Qed.

#[global] Instance writer_epoch_wire : Wire uuid_ok (fun a => a) take_writer_epoch.
Proof. exact (uuid_wire WRITER_EPOCH). Qed.
Lemma epoch_read a c : uuid_ok a -> take_writer_epoch (a ++ c) = Ok (a, c).
Proof. exact (wire_get (get := take_writer_epoch) a c). Qed.

#[global] Instance index_cursor_wired : Wired cursor_ok put_bytes take_index_cursor.
Proof.
  assert (Wired (field_ok INDEX_CURSOR_MAX_LEN) put_bytes (take_bytes INDEX_CURSOR_MAX_LEN)) as W by by apply bytes_wired. split.
  - intros a [Ha Hl]. destruct (wired_put (Wired := W) a) as (p & E & Hp & Hg); [by split|]. exists p. split_and!; [done|done|].
    intros c. unfold take_index_cursor. rewrite Hg. cbn [result_bind]. unfold cursor_try_new. by rewrite (proj2 (Z.ltb_ge _ _)).
  - intros b a c Hb H. apply result_bind_ok in H as ([v r] & E & H). apply (wired_get (Wired := W)) in E as ([Hv Hl] & p & E & ->); [|done].
    unfold cursor_try_new in H. rewrite (proj2 (Z.ltb_ge _ _)) in H by done. injection H as <- <-. split; [by split|]. by exists p.
Qed.

#[global] Instance cursor_wired : Wired resume_ok put_cursor take_cursor.
Proof. exact (option_wired cursor_ok put_bytes take_index_cursor). Qed.

#[global] Instance counters_wire : Wire counters_ok put_counters take_counters.
Proof.
  split.
  - intros [e i o b] c (He & Hi & Ho & Hb). unfold take_counters, put_counters. cbn [entities input_bytes output_operations output_bytes] in *. by read_fields.
  - intros b a c Hb H. unfold take_counters in H. repeat wired_step Hb. split; [by split_and!|].
    unfold put_counters. cbn [entities input_bytes output_operations output_bytes]. by rewrite <- ?app_assoc.
  - intros [e i o b] _. unfold put_counters. fields_ok.
Qed.

Lemma sequence_iff v w : claim_sequence_new v = Ok w <-> v <> 0 /\ w = v.
Proof. unfold claim_sequence_new. destruct (Z.eqb_spec v 0); split; try done; [by intros [? _]|by intros [= <-]|by intros [_ ->]]. Qed.

#[global] Instance claim_wire : Wire claim_ok put_claim take_claim.
Proof.
  split.
  - intros [e s] c [He Hs]. unfold take_claim, put_claim. cbn [writer_epoch sequence] in *. rewrite <- app_assoc, epoch_read by done. cbn [result_bind].
    unfold id_ok in Hs. rewrite wire_get by (unfold in_u; lia). cbn [result_bind]. by rewrite (proj2 (sequence_iff s s)) by (split; [lia|done]).
  - intros b a c Hb H. unfold take_claim in H. repeat wired_step Hb.
    match goal with E : operation_model _ = Ok _ |- _ => apply operation_model_ok, sequence_iff in E as [Hn ->] end.
    unfold put_claim. cbn [writer_epoch sequence]. rewrite <- app_assoc. split; [|done]. split; [done|]. unfold id_ok, in_u in *. cbn. lia.
  - intros [e s] [[He _] _]. unfold put_claim. fields_ok.
Qed.

#[global] Instance lane_wire : Wire any (fun l => [lane_u8 l]) take_lane.
Proof. wire_enum. Qed.
#[global] Instance kind_wire : Wire any (fun k => [kind_u8 k]) take_kind.
Proof. wire_enum. Qed.
#[global] Instance operation_family_wire : Wire any (fun f => [operation_family_u8 f]) take_operation_family.
Proof. wire_enum. Qed.

(** The bytes of enumerated fields and of what was written. *)
Ltac parts_ok :=
  repeat first [assumption | apply to_be_ok | apply Forall_nil; exact I | apply (wire_ok (get := take_counters)); assumption
    | (apply Forall_cons; split; [first [done | match goal with |- byte_ok (_ ?x) => by destruct x end]|]) | (apply Forall_app; split) ].

(** ** Scans *)

#[global] Instance source_wired : Wired source_ok put_source_scan take_source_scan.
Proof.
  split.
  - intros [b r c] (Hb & Hr & Hc). cbn [sc_inclusive_upper_bound sc_cursor sc_counters] in *.
    destruct (wired_put b Hb) as (pb & Eb & Hbb & Hgb). destruct (wired_put (get := take_cursor) r Hr) as (pr & Er & Hbr & Hgr).
    eexists. split; [unfold put_source_scan; cbn [sc_inclusive_upper_bound sc_cursor sc_counters]; written; reflexivity|]. split; [parts_ok|].
    intros d. unfold take_source_scan. by read_fields.
  - intros b a c Hb H. unfold take_source_scan in H. repeat wired_step Hb. split; [by split_and!|]. unfold put_source_scan.
    cbn [sc_inclusive_upper_bound sc_cursor sc_counters]. rewritten.
Qed.

#[global] Instance prefix_wired : Wired prefix_ok put_prefix_scan take_prefix_scan.
Proof.
  split.
  - intros [r c] [Hr Hc]. cbn [ps_cursor ps_counters] in *. destruct (wired_put (get := take_cursor) r Hr) as (pr & Er & Hbr & Hgr).
    eexists. split; [unfold put_prefix_scan; cbn [ps_cursor ps_counters]; written; reflexivity|]. split; [parts_ok|].
    intros d. unfold take_prefix_scan. by read_fields.
  - intros b a c Hb H. unfold take_prefix_scan in H. repeat wired_step Hb. split; [by split|]. unfold put_prefix_scan. cbn [ps_cursor ps_counters]. rewritten.
Qed.

#[global] Instance no_cursor_wired : Wired no_cursor_ok put_no_cursor take_no_cursor.
Proof.
  split.
  - intros [c] Hc. unfold no_cursor_ok in Hc. cbn [nc_counters] in Hc. eexists. split; [reflexivity|]. cbn [nc_counters]. split; [parts_ok|].
    intros d. unfold take_no_cursor. by read_fields.
  - intros b a c Hb H. unfold take_no_cursor in H. repeat wired_step Hb. split; [done|]. by eexists.
Qed.

#[global] Instance adoption_wired : Wired adoption_ok put_legacy_vector_validation take_legacy_vector_validation.
Proof.
  split.
  - intros [l r c] [Hr Hc]. cbn [lv_cursor lv_counters] in *. destruct (wired_put (get := take_cursor) r Hr) as (pr & Er & Hbr & Hgr).
    eexists. split; [unfold put_legacy_vector_validation; cbn [lv_lane lv_cursor lv_counters]; written; reflexivity|]. split; [parts_ok|].
    intros d. unfold take_legacy_vector_validation. by read_fields.
  - intros b a c Hb H. unfold take_legacy_vector_validation in H. repeat wired_step Hb. split; [by split|]. unfold put_legacy_vector_validation.
    cbn [lv_lane lv_cursor lv_counters]. rewritten.
Qed.

#[global] Instance directory_wired : Wired directory_ok put_legacy_vector_directory_validation take_legacy_vector_directory_validation.
Proof.
  split.
  - intros [r e v c] (Hr & He & Hv & Hle & Hc). cbn [ld_cursor ld_expected_markers ld_verified_markers ld_counters] in *.
    destruct (wired_put (get := take_cursor) r Hr) as (pr & Er & Hbr & Hgr).
    eexists. split; [unfold put_legacy_vector_directory_validation; cbn [ld_cursor ld_expected_markers ld_verified_markers ld_counters]; written; reflexivity|].
    split; [parts_ok|]. intros d. unfold take_legacy_vector_directory_validation. read_fields. by rewrite (proj2 (Z.ltb_ge _ _)).
  - intros b a c Hb H. unfold take_legacy_vector_directory_validation in H. repeat wired_step Hb.
    match type of H with (if ?x <? ?y then _ else _) = _ => destruct (Z.ltb_spec x y); [done|] end. injection H as <- <-.
    split; [by split_and!|]. unfold put_legacy_vector_directory_validation. cbn [ld_cursor ld_expected_markers ld_verified_markers ld_counters]. rewritten.
Qed.

(** ** Manifest validation *)

Lemma manifest_non_zero_iff reason v w : manifest_non_zero reason v = Ok w <-> v <> 0 /\ w = v.
Proof. unfold manifest_non_zero. destruct (Z.eqb_spec v 0); split; try done; [by intros [? _]|by intros [= <-]|by intros [_ ->]]. Qed.

(** [try_new] accepts exactly incomplete proofs. *)
Lemma partition_validation_iff f rr pc sc np oc v :
  bytes_ok f -> blen f = 32 -> id_ok rr -> in_u 32 pc -> in_u 64 sc -> in_u 32 np -> in_u 64 oc ->
  partition_validation_try_new f rr pc sc np oc = Ok v <->
  validation_ok v /\ v = {| pv_partition_fingerprint := f; pv_root_revision := rr; pv_page_count := pc; pv_split_count := sc; pv_next_page := np;
                            pv_observed_split_count := oc |}.
Proof.
  intros Hf Hl Hr Hpc Hsc Hnp Hoc. unfold partition_validation_try_new, checked_sub, sat_add. unfold id_ok, in_u, umax in *. split.
  - intros H. repeat (apply result_bind_ok in H as (? & ?E & H); apply manifest_non_zero_iff in E as [? ->]).
    destruct (Z.leb_spec np pc); [|done]. destruct (Z.eqb_spec (pc - np) 0); [done|]. destruct (Z.ltb_spec oc np); [done|].
    destruct (Z.ltb_spec sc oc); [done|]. destruct (Z.ltb_spec sc (Z.min (oc + (pc - np)) (2 ^ 64 - 1))); [done|].
    destruct (Z.ltb_spec rr (pc + 1)); [done|]. injection H as <-. split; [|done].
    split; cbn [pv_partition_fingerprint pv_root_revision pv_page_count pv_split_count pv_next_page pv_observed_split_count]; unfold id_ok, umax; split_and!; try done; lia.
  - intros [[_ [_ H1] H2 H3] ->]. unfold umax in H3. cbn [pv_partition_fingerprint pv_root_revision pv_page_count pv_split_count pv_next_page pv_observed_split_count] in *.
    do 4 (rewrite (proj2 (manifest_non_zero_iff _ _ _)) by (split; [lia|reflexivity]); cbn [result_bind]).
    rewrite (proj2 (Z.leb_le np pc)), (proj2 (Z.eqb_neq (pc - np) 0)), (proj2 (Z.ltb_ge oc np)), (proj2 (Z.ltb_ge sc oc)),
      (proj2 (Z.ltb_ge sc (Z.min (oc + (pc - np)) (2 ^ 64 - 1)))), (proj2 (Z.ltb_ge rr (pc + 1))) by lia. done.
Qed.

#[global] Instance partition_validation_wired : Wired validation_ok put_partition_validation take_partition_validation.
Proof.
  split.
  - intros [f rr pc sc np oc] Hv. pose proof Hv as [[Hf Hl] [Hr Hrp] [Hp Hpc] (Hs & Hsc & Ho)].
    cbn [pv_partition_fingerprint pv_root_revision pv_page_count pv_split_count pv_next_page pv_observed_split_count] in *.
    eexists. split; [reflexivity|]. cbn [pv_partition_fingerprint pv_root_revision pv_page_count pv_split_count pv_next_page pv_observed_split_count].
    split; [parts_ok|]. intros c. unfold take_partition_validation. rewrite <- !app_assoc, <- Hl, take_all. cbn [result_bind].
    rewrite wire_get by done. cbn [result_bind]. rewrite (wire_get (get := take_u32)) by (unfold in_u; lia). cbn [result_bind].
    rewrite (wire_get (get := take_u64)) by (unfold in_u; lia). cbn [result_bind]. rewrite (wire_get (get := take_u32)) by (unfold in_u; lia). cbn [result_bind].
    rewrite (wire_get (get := take_u64)) by (unfold in_u; lia). cbn [result_bind].
    rewrite (proj2 (operation_model_ok _ _) (proj2 (partition_validation_iff f rr pc sc np oc _ Hf Hl Hr ltac:(unfold in_u; lia) ltac:(unfold in_u; lia)
      ltac:(unfold in_u; lia) ltac:(unfold in_u; lia)) (conj Hv eq_refl))). done.
  - intros b a c Hb H. unfold take_partition_validation in H. apply result_bind_ok in H as ([f r] & E & H). apply take_raw_inv in E as [-> Hl]; [|done].
    apply Forall_app in Hb as [Hf Hb]. repeat wired_step Hb.
    match goal with E : operation_model _ = Ok _ |- _ => apply operation_model_ok, partition_validation_iff in E as [Hv ->]; [|done..] end.
    split; [done|]. eexists. split; [reflexivity|]. cbn [pv_partition_fingerprint pv_root_revision pv_page_count pv_split_count pv_next_page pv_observed_split_count].
    by rewrite <- !app_assoc.
Qed.

#[global] Instance partition_option_wired :
  Wired (option_ok validation_ok) (fun value => put_option value put_partition_validation) (take_option take_partition_validation).
Proof. apply _. Qed.

#[global] Instance pages_wired : Wired pages_ok put_pages take_pages.
Proof.
  split.
  - intros [r v c] (Hr & Hc & Hv). cbn [tp_cursor tp_partition tp_counters] in *. assert (option_ok validation_ok v) as Hov by by destruct v as [v|]; [destruct Hv|].
    destruct (wired_put (get := take_cursor) r Hr) as (pr & Er & Hbr & Hgr).
    destruct (wired_put (get := take_option take_partition_validation) v Hov) as (pv & Ev & Hbv & Hgv). cbv beta in Ev.
    eexists. split; [unfold put_pages; cbn [tp_cursor tp_partition tp_counters]; written; reflexivity|]. split; [parts_ok|].
    intros d. unfold take_pages. read_fields. destruct v as [v|]; cbn [page_validation_try_new]; [destruct r; [done|by destruct Hv]|done].
  - intros b a c Hb H. unfold take_pages in H. repeat wired_step Hb.
    match goal with E : operation_model _ = Ok ?p, Hv : option_ok _ ?v |- _ => apply operation_model_ok in E;
      assert (match v with Some v => validation_ok v /\ tp_cursor p <> None | None => True end /\
        p = {| tp_cursor := tp_cursor p; tp_partition := v; tp_counters := tp_counters p |}) as [Hok _] by
        (unfold page_validation_try_new in E; repeat case_match; try done; injection E as <-; by split) end.
    match goal with E : page_validation_try_new ?r ?v ?k = Ok ?p |- _ =>
      assert (p = {| tp_cursor := r; tp_partition := v; tp_counters := k |}) as -> by (unfold page_validation_try_new in E; repeat case_match; congruence) end.
    split; [by split_and!|]. unfold put_pages. cbn [tp_cursor tp_partition tp_counters]. rewritten.
Qed.

(** ** Sums *)

(** A sum of parts, each after its tag: writes the part that [H] calls valid. *)
Ltac write_case H :=
  let q := fresh "q" in let E := fresh "E" in let Hb := fresh "Hb" in let Hg := fresh "Hg" in
  destruct (wired_put _ H) as (q & E & Hb & Hg); eexists; split; [unfold tagged; rewrite E; reflexivity|]; split; [by apply Forall_cons|];
  intros c; cbn [app]; rewrite take_byte; cbn [result_bind Z.eqb Pos.eqb]; unfold read_as; by rewrite Hg.

#[global] Instance manifests_wired : Wired manifests_ok put_text_manifest_validation take_text_manifest_validation.
Proof.
  split.
  - intros [p|p|p] Hp; cbn [manifests_ok] in Hp; unfold put_text_manifest_validation, take_text_manifest_validation; write_case Hp.
  - intros b a c Hb H. unfold take_text_manifest_validation, read_as in H. repeat wired_step Hb; (split; [assumption|]);
      unfold put_text_manifest_validation, tagged; rewritten.
Qed.

#[global] Instance secondary_stage_wired : Wired secondary_stage_ok put_secondary_stage take_secondary_stage.
Proof.
  split.
  - intros [p|p|p|p] Hp; cbn [secondary_stage_ok] in Hp; unfold put_secondary_stage, take_secondary_stage; write_case Hp.
  - intros b a c Hb H. unfold take_secondary_stage, read_as in H. repeat wired_step Hb; (split; [assumption|]); unfold put_secondary_stage, tagged; rewritten.
Qed.

#[global] Instance vector_stage_wired : Wired vector_stage_ok put_vector_stage take_vector_stage.
Proof.
  split.
  - intros [p|p|p|p|p|p] Hp; cbn [vector_stage_ok] in Hp; unfold put_vector_stage, take_vector_stage; write_case Hp.
  - intros b a c Hb H. unfold take_vector_stage, read_as in H. repeat wired_step Hb; (split; [assumption|]); unfold put_vector_stage, tagged; rewritten.
Qed.

#[global] Instance text_stage_wired : Wired text_stage_ok put_text_stage take_text_stage.
Proof.
  split.
  - intros [p|p|p|p|p|p|p] Hp; cbn [text_stage_ok] in Hp; unfold put_text_stage, take_text_stage; write_case Hp.
  - intros b a c Hb H. unfold take_text_stage, read_as in H. repeat wired_step Hb; (split; [assumption|]); unfold put_text_stage, tagged; rewritten.
Qed.

#[global] Instance text_cleanup_wired : Wired text_cleanup_ok put_text_cleanup take_text_cleanup.
Proof.
  split.
  - intros [p|p] Hp; cbn [text_cleanup_ok] in Hp; unfold put_text_cleanup, take_text_cleanup; write_case Hp.
  - intros b a c Hb H. unfold take_text_cleanup, read_as in H. repeat wired_step Hb; (split; [assumption|]); unfold put_text_cleanup, tagged; rewritten.
Qed.

(** ** Cleanups *)

#[global] Instance drain_epoch_wired : Wired (option_ok (in_u 64)) (fun value => put_option value (fun v => Some (to_be 8 v))) (take_option take_u64).
Proof. apply (option_wired (in_u 64) (fun v => Some (to_be 8 v)) take_u64 (Wired0 := wire_wired (in_u 64) (to_be 8) take_u64 _)). Qed.

(** The counters of an older cleanup, after the drain epoch that is not kept. *)
Definition drained (counters : OperationCounters) (p : bytes) : Prop :=
  exists epoch pe, option_ok (in_u 64) epoch /\ put_option epoch (fun v => Some (to_be 8 v)) = Some pe /\ p = pe ++ put_counters counters.

#[global] Instance drained_reads : Reads (fun counters p => counters_ok counters /\ drained counters p) take_legacy_drain_counters.
Proof.
  split.
  - intros k p c [Hk (epoch & pe & He & E & ->)]. destruct (wired_put (get := take_option take_u64) epoch He) as (q & E' & _ & Hg). cbv beta in E'.
    rewrite E in E'. injection E' as <-. unfold take_legacy_drain_counters. rewrite <- app_assoc, Hg. cbn [result_bind]. by apply wire_get.
  - intros b k c Hb H. unfold take_legacy_drain_counters in H. repeat wired_step Hb. eexists. split; [split; [done|]; eexists _, _; split_and!; done|].
    by rewrite <- app_assoc.
Qed.

Inductive old_secondary : SecondaryCleanupProgress -> bytes -> Prop :=
| old_entries k q : drained k q -> old_secondary (DeleteEntries {| ps_cursor := None; ps_counters := k |}) (0x01 :: q)
| old_secondary_finalize k q : drained k q -> old_secondary (SecondaryFinalize {| nc_counters := k |}) (0x04 :: q).
Inductive old_vector : VectorCleanupProgress -> bytes -> Prop :=
| old_retire k q : drained k q -> old_vector (RetireCache {| nc_counters := k |}) (0x01 :: q)
| old_vector_finalize k q : drained k q -> old_vector (VectorFinalize {| nc_counters := k |}) (0x05 :: q).

(** What a writer of this or an older release wrote. *)
Definition current_or {A} (put : A -> option bytes) (old : A -> bytes -> Prop) (a : A) (p : bytes) : Prop := put a = Some p \/ old a p.

Lemma secondary_cleanup_put c : secondary_cleanup_ok c -> exists p, put_secondary_cleanup c = Some p /\ bytes_ok p.
Proof.
  destruct c as [p|p|p]; intros Hp; cbn [secondary_cleanup_ok] in Hp; destruct (wired_put p Hp) as (q & E & Hb & _); cbn [put_secondary_cleanup];
    unfold tagged; rewrite E; eexists; (split; [reflexivity|by apply Forall_cons]).
Qed.
Lemma vector_cleanup_put c : vector_cleanup_ok c -> exists p, put_vector_cleanup c = Some p /\ bytes_ok p.
Proof.
  destruct c as [p|p|p|p]; intros Hp; cbn [vector_cleanup_ok] in Hp; destruct (wired_put p Hp) as (q & E & Hb & _); cbn [put_vector_cleanup];
    unfold tagged; rewrite E; eexists; (split; [reflexivity|by apply Forall_cons]).
Qed.

(** Reads a part that a current writer wrote. *)
Ltac read_current H E :=
  let q := fresh "q" in let Eq := fresh "Eq" in let Hg := fresh "Hg" in
  destruct (wired_put _ H) as (q & Eq & _ & Hg); unfold tagged in E; rewrite Eq in E; injection E as <-;
  cbn [app]; rewrite take_byte; cbn [result_bind Z.eqb Pos.eqb]; unfold read_as; by rewrite Hg.

(** Reads the counters of an older writer. *)
Ltac read_drained H Hd :=
  cbn [app]; rewrite take_byte; cbn [result_bind Z.eqb Pos.eqb]; unfold take_drained, read_as;
  by rewrite (reads (get := take_legacy_drain_counters) _ _ _ (conj H Hd)).

#[global] Instance secondary_cleanup_reads :
  Reads (fun c p => secondary_cleanup_ok c /\ current_or put_secondary_cleanup old_secondary c p) take_secondary_cleanup.
Proof.
  split.
  - intros c p d [Hc [E|Ho]]; unfold take_secondary_cleanup.
    + destruct c as [x|x|x]; cbn [secondary_cleanup_ok put_secondary_cleanup] in *; read_current Hc E.
    + destruct Ho as [k q Hd|k q Hd]; [destruct Hc as [_ Hc]|]; read_drained Hc Hd.
  - intros b c d Hb H. unfold take_secondary_cleanup, take_drained, read_as in H. apply result_bind_ok in H as ([t r] & E & H).
    apply take_byte_ok in E as ->. apply Forall_cons in Hb as [_ Hb].
    destruct (Z.eqb_spec t 1) as [->|]; [apply result_bind_ok in H as ([k r'] & E & [= <- <-]); apply reads_inv in E as (q & [Hk Hd] & ->); [|done];
      exists (1 :: q); split; [split; [by split|right; by constructor]|done]|].
    destruct (Z.eqb_spec t 4) as [->|]; [cbn [Z.eqb Pos.eqb] in H; apply result_bind_ok in H as ([k0 r'] & E & [= <- <-]);
      apply result_bind_ok in E as ([k r0] & E & [= <- <-]); apply reads_inv in E as (q & [Hk Hd] & ->); [|done];
      exists (4 :: q); split; [split; [done|right; by constructor]|done]|].
    repeat wired_step Hb; (eexists; split; [split; [assumption|left; unfold put_secondary_cleanup, tagged; written; reflexivity]|done]).
Qed.

#[global] Instance vector_cleanup_reads :
  Reads (fun c p => vector_cleanup_ok c /\ current_or put_vector_cleanup old_vector c p) take_vector_cleanup.
Proof.
  split.
  - intros c p d [Hc [E|Ho]]; unfold take_vector_cleanup.
    + destruct c as [x|x|x|x]; cbn [vector_cleanup_ok put_vector_cleanup] in *; read_current Hc E.
    + destruct Ho as [k q Hd|k q Hd]; read_drained Hc Hd.
  - intros b c d Hb H. unfold take_vector_cleanup, take_drained, read_as in H. apply result_bind_ok in H as ([t r] & E & H).
    apply take_byte_ok in E as ->. apply Forall_cons in Hb as [_ Hb].
    destruct (Z.eqb_spec t 1) as [->|]; [apply result_bind_ok in H as ([k0 r'] & E & [= <- <-]);
      apply result_bind_ok in E as ([k r0] & E & [= <- <-]); apply reads_inv in E as (q & [Hk Hd] & ->); [|done];
      exists (1 :: q); split; [split; [done|right; by constructor]|done]|].
    destruct (Z.eqb_spec t 5) as [->|]; [cbn [Z.eqb Pos.eqb] in H; apply result_bind_ok in H as ([k0 r'] & E & [= <- <-]);
      apply result_bind_ok in E as ([k r0] & E & [= <- <-]); apply reads_inv in E as (q & [Hk Hd] & ->); [|done];
      exists (5 :: q); split; [split; [done|right; by constructor]|done]|].
    repeat wired_step Hb; (eexists; split; [split; [assumption|left; unfold put_vector_cleanup, tagged; written; reflexivity]|done]).
Qed.

(** ** Progress *)

Inductive old_progress : IndexOperationProgress -> bytes -> Prop :=
| old_secondary_abort c q : old_secondary c q -> old_progress (SecondaryBuild (SecondaryAborting c)) (0x02 :: q)
| old_vector_abort c q : old_vector c q -> old_progress (VectorBuild (VectorAborting c)) (0x02 :: q)
| old_secondary_drop c q : old_secondary c q -> old_progress (SecondaryCleanup c) q
| old_vector_drop c q : old_vector c q -> old_progress (VectorCleanup c) q.

Lemma progress_put progress : progress_ok progress -> exists p, put_operation_progress progress = Some p /\ bytes_ok p.
Proof.
  destruct progress as [[c|c]|[c|c]|[c|c]|c|c|c]; intros Hc; cbn [progress_ok put_operation_progress] in *; unfold tagged;
    first [destruct (secondary_cleanup_put c Hc) as (q & E & Hb) | destruct (vector_cleanup_put c Hc) as (q & E & Hb)
          | destruct (wired_put c Hc) as (q & E & Hb & _)]; rewrite E; eexists; (split; [reflexivity|]); by first [exact Hb | apply Forall_cons].
Qed.

(** Reads a part after its mode. *)
Ltac read_mode Hg := cbn [app]; rewrite take_byte; cbn [result_bind Z.eqb Pos.eqb]; unfold read_as; by rewrite Hg.

#[global] Instance progress_reads kind family :
  Reads (fun progress p => (progress_ok progress /\ progress_kind progress = kind /\ progress_family progress = family) /\
    current_or put_operation_progress old_progress progress p) (take_operation_progress kind family).
Proof.
  split.
  - intros progress p d [(Hc & <- & <-) [E|Ho]].
    + destruct progress as [[c|c]|[c|c]|[c|c]|c|c|c]; cbn [progress_ok put_operation_progress progress_kind progress_family take_operation_progress] in *;
        unfold tagged in E;
        first [destruct (wired_put c Hc) as (q & Eq & _ & Hg); rewrite Eq in E; injection E as <-;
                 first [read_mode Hg | unfold read_as; by rewrite Hg]
              |destruct (secondary_cleanup_put c Hc) as (q & Eq & _) | destruct (vector_cleanup_put c Hc) as (q & Eq & _)];
        rewrite Eq in E; injection E as <-;
        first [assert (forall d, take_secondary_cleanup (q ++ d) = Ok (c, d)) as Hg by (intros; apply reads; split; [done|by left])
              |assert (forall d, take_vector_cleanup (q ++ d) = Ok (c, d)) as Hg by (intros; apply reads; split; [done|by left])];
        first [read_mode Hg | unfold read_as; by rewrite Hg].
    + destruct Ho as [c q Ho|c q Ho|c q Ho|c q Ho]; cbn [progress_ok progress_kind progress_family take_operation_progress] in *;
        first [assert (forall d, take_secondary_cleanup (q ++ d) = Ok (c, d)) as Hg by (intros; apply reads; split; [done|by right])
              |assert (forall d, take_vector_cleanup (q ++ d) = Ok (c, d)) as Hg by (intros; apply reads; split; [done|by right])];
        first [read_mode Hg | unfold read_as; by rewrite Hg].
  - intros b progress d Hb H. unfold take_operation_progress, read_as in H.
    destruct kind.
    + apply result_bind_ok in H as ([t r] & E & H). apply take_byte_ok in E as ->. apply Forall_cons in Hb as [_ Hb].
      destruct family; (destruct (Z.eqb_spec t 1) as [->|]; [repeat wired_step Hb; eexists; split;
        [split; [by split_and!|left; cbn [compose put_operation_progress]; unfold tagged; written; reflexivity]|done]|]);
        (destruct (Z.eqb_spec t 2) as [->|]; [|done]); apply result_bind_ok in H as ([c r'] & E & [= <- <-]);
        apply reads_inv in E as (q & [Hc Ho] & ->); try done;
        (exists (2 :: q); split; [split; [by split_and!|]|done]); cbn [compose].
      * destruct Ho as [E|Ho]; [left; cbn [put_operation_progress]; unfold tagged; by rewrite E|right; by constructor].
      * destruct Ho as [E|Ho]; [left; cbn [put_operation_progress]; unfold tagged; by rewrite E|right; by constructor].
      * left. cbn [put_operation_progress]. unfold tagged. by rewrite Ho.
    + destruct family; apply result_bind_ok in H as ([c r'] & E & [= <- <-]); apply reads_inv in E as (q & [Hc Ho] & ->); try done;
        (exists q; split; [split; [by split_and!|]|done]); [destruct Ho as [E|Ho]; [by left|right; by constructor]..|by left].
Qed.

(** ** Execution states *)

#[global] Instance schedule_wire : Wire (fun s => schedule_ok (Some s)) put_schedule take_schedule.
Proof.
  split.
  - intros [|t|t e] c Hs; unfold take_schedule, put_schedule; cbn [schedule_ok] in Hs; [by read_fields..|]. destruct Hs as [Ht He]. read_fields.
    by rewrite epoch_read.
  - intros b s c Hb H. unfold take_schedule in H. repeat wired_step Hb; (split; [done|]); cbn [put_schedule app]; by rewrite <- ?app_assoc.
  - intros [|t|t e] Hs; unfold put_schedule; cbn [schedule_ok] in Hs; parts_ok. apply Hs.
Qed.

Lemma blocker_iff b : blocker_validate b = Ok tt <->
  match b with OversizedEntity _ _ observed limit | ManifestLimit _ observed limit => limit < observed | _ => True end.
Proof.
  destruct b as [? ?|? ?|? ? o l|p o l| | |]; cbn [blocker_validate]; try done; destruct (Z.leb_spec o l); (split; [done || lia|done || lia]).
Qed.

Lemma blocker_put b : blocker_ok b -> exists p, put_blocker b = Some p /\ bytes_ok p.
Proof.
  destruct b as [k e|f s|k e o l|pa o l| | |]; intros Hb; cbn [blocker_ok put_blocker] in *; try (eexists; split; [reflexivity|parts_ok]).
  destruct Hb as (Hp & _). destruct (wired_put pa Hp) as (q & E & Hb & _). rewrite E. eexists. split; [reflexivity|parts_ok].
Qed.

#[global] Instance blocker_reads :
  Reads (fun d p => match d with Current b => blocker_ok b /\ put_blocker b = Some p | LegacyReaderCoordinationUnavailable => p = [0x05] end) take_blocker.
Proof.
  split.
  - intros [b|] p c; [intros [Hb E]|intros ->; unfold take_blocker, take_any_blocker; cbn [app]; by rewrite take_byte].
    enough (take_any_blocker (p ++ c) = Ok (Current b, c)) as Ht.
    { unfold take_blocker. rewrite Ht. cbn [result_bind]. by rewrite (blocker_exceeds b Hb). }
    destruct b as [k e|f s|k e o l|pa o l| | |]; cbn [blocker_ok put_blocker] in *; unfold take_any_blocker.
    + apply (inj Some) in E as <-. by read_fields.
    + destruct Hb as [Hf Hs]. apply (inj Some) in E as <-. by read_fields.
    + destruct Hb as (He & Ho & Hl & _). apply (inj Some) in E as <-. by read_fields.
    + destruct Hb as (Hp & Ho & Hl & _). destruct (wired_put pa Hp) as (q & Eq & Hbq & Hg). rewrite Eq in E. apply (inj Some) in E as <-. by read_fields.
    + apply (inj Some) in E as <-. by read_fields.
    + apply (inj Some) in E as <-. by read_fields.
    + apply (inj Some) in E as <-. by read_fields.
  - intros b d c Hb H. unfold take_blocker in H. apply result_bind_ok in H as ([x r] & E & H). destruct x as [x|].
    + apply result_bind_ok in H as ([] & Hv & [= <- <-]). apply operation_model_ok, blocker_iff in Hv.
      unfold take_any_blocker in E. rename E into H. repeat wired_step Hb; try discriminate;
        (eexists; split; [split; [by cbn|cbn [put_blocker]; written; reflexivity]|]; cbn [app]; rewrite <- ?app_assoc; cbn [app]; by rewrite <- ?app_assoc).
    + injection H as <- <-. unfold take_any_blocker in E. rename E into H. repeat wired_step Hb; try discriminate. by exists [5].
Qed.

(** A schedule exactly where the operation is queued, with its deadline. *)
Definition scheduled (state : IndexOperationExecutionState) (schedule : option IndexOperationQueueSchedule) : Prop :=
  match state with
  | Queued not_before => exists s, schedule = Some s /\ not_before_unix_millis s = not_before
  | _ => schedule = None
  end.

(** The retired blocker of older releases, read as a violated invariant to be repaired. *)
Definition stored_state (kind : IndexOperationKind) (state : IndexOperationExecutionState) (schedule : option IndexOperationQueueSchedule)
    (legacy : bool) (p : bytes) : Prop :=
  if legacy then state = Blocked InvariantViolation /\ p = [0x03; 0x05] else put_execution_state kind state schedule = Some p.

Definition state_wire (kind : IndexOperationKind) (d : DecodedExecutionState) (p : bytes) : Prop :=
  (execution_ok (ds_state d) /\ schedule_ok (ds_queue_schedule d) /\ scheduled (ds_state d) (ds_queue_schedule d)) /\
  stored_state kind (ds_state d) (ds_queue_schedule d) (ds_legacy_reader_coordination_blocker d) p.

Lemma outcome_read kind o c p : put_execution_state kind (Completed o) None = Some p -> exists v, p = [0x04; v] /\ take_outcome kind (v :: c) = Ok (o, c).
Proof. unfold take_outcome. destruct kind, o as [[|]|]; intros [= <-]; eexists; (split; [reflexivity|]); by rewrite take_byte. Qed.

Lemma outcome_inv kind b o c : take_outcome kind b = Ok (o, c) -> exists v, b = v :: c /\ put_execution_state kind (Completed o) None = Some [0x04; v].
Proof.
  intros H. unfold take_outcome in H. apply result_bind_ok in H as ([v r] & E & H). apply take_byte_ok in E as ->. exists v.
  destruct kind; (destruct (Z.eqb_spec v 1) as [->|]; [by injection H as <- <-|]); [|done].
  destruct (Z.eqb_spec v 2) as [->|]; [|done]. by injection H as <- <-.
Qed.

#[global] Instance state_reads kind : Reads (state_wire kind) (take_execution_state kind).
Proof.
  split.
  - intros [st sch legacy] p c [(Hx & Hsch & Hs) Hp]. cbn [ds_state ds_queue_schedule ds_legacy_reader_coordination_blocker] in *. unfold take_execution_state.
    destruct legacy; cbn [stored_state] in Hp.
    + destruct Hp as [-> ->]. cbn [scheduled] in Hs. subst sch. cbn [app]. rewrite take_byte. cbn [result_bind Z.eqb Pos.eqb]. unfold read_as.
      change (5 :: c) with ([5] ++ c). by rewrite (reads (get := take_blocker) LegacyReaderCoordinationUnavailable [5] c eq_refl).
    + destruct st as [t|k|b|o]; cbn [scheduled execution_ok] in *.
      * destruct Hs as (s & -> & <-). cbn [put_execution_state mbind option_bind] in Hp. apply (inj Some) in Hp as <-. cbn [app]. rewrite take_byte.
        cbn [result_bind Z.eqb Pos.eqb]. unfold read_as. by rewrite (wire_get (Wire := schedule_wire)).
      * subst sch. apply (inj Some) in Hp as <-. cbn [app]. rewrite take_byte. cbn [result_bind Z.eqb Pos.eqb]. unfold read_as. by rewrite wire_get.
      * subst sch. destruct (blocker_put b Hx) as (q & E & _). cbn [put_execution_state] in Hp. unfold tagged in Hp. rewrite E in Hp.
        apply (inj Some) in Hp as <-. cbn [app]. rewrite take_byte. cbn [result_bind Z.eqb Pos.eqb]. unfold read_as.
        by rewrite (reads (get := take_blocker) (Current b) q c (conj Hx E)).
      * subst sch. destruct (outcome_read kind o c p Hp) as (v & -> & E). cbn [app]. rewrite take_byte. cbn [result_bind Z.eqb Pos.eqb]. unfold read_as.
        by rewrite E.
  - intros b d c Hb H. unfold take_execution_state, read_as in H. apply result_bind_ok in H as ([t r] & E & H). apply take_byte_ok in E as ->.
    apply Forall_cons in Hb as [_ Hb]. destruct (Z.eqb_spec t 1) as [->|]; [|destruct (Z.eqb_spec t 2) as [->|]; [|destruct (Z.eqb_spec t 3) as [->|];
      [|destruct (Z.eqb_spec t 4) as [->|]; [|done]]]]; apply result_bind_ok in H as ([x r'] & E & [= <- <-]).
    + apply (wire_put (Wire := schedule_wire)) in E as [Hs ->]; [|done]. exists (1 :: put_schedule x). split; [|done]. split; [|done].
      split_and!; [by destruct x as [|?|? ?]; try done; destruct Hs|done|by exists x].
    + apply wire_put in E as [Hx ->]; [|done]. by exists (2 :: put_claim x).
    + apply reads_inv in E as (q & Hx & ->); [|done]. exists (3 :: q). split; [|done]. destruct x as [x|]; [|by subst q].
      destruct Hx as [Hx E]. split; [done|]. cbn. unfold tagged. by rewrite E.
    + apply outcome_inv in E as (v & -> & E). by exists [4; v].
Qed.

(** ** Records *)

(** What is stored of a record, by a writer of this or an older release. *)
Definition stored_parts (r : IndexOperationRecord) (legacy : bool) (p : bytes) : Prop :=
  exists ident progress state, put_identity (op_identity r) = Some ident /\
    current_or put_operation_progress old_progress (op_progress r) progress /\
    stored_state (op_kind r) (op_execution_state r) (op_queue_schedule r) legacy state /\
    p = op_operation_id r ++ to_be 8 (op_index_id r) ++ ident ++ to_be 8 (op_generation r) ++ to_be 8 (op_index_record_revision r)
      ++ to_be 8 (op_operation_revision r) ++ kind_u8 (op_kind r) :: operation_family_u8 (op_family r) :: progress ++ to_be 4 (op_attempt r) ++ state.

Definition stored (r : IndexOperationRecord) (legacy : bool) (b : bytes) : Prop :=
  exists p, stored_parts r legacy p /\ b = with_header OPERATION_RECORD_KIND ++ p.

(** What the fields hold before the record is validated. *)
Record fields_valid (r : IndexOperationRecord) : Prop := {
  fv_id : uuid_ok (op_operation_id r);
  fv_index : id_ok (op_index_id r);
  fv_identity : identity_ok (op_identity r);
  fv_generation : id_ok (op_generation r);
  fv_index_revision : id_ok (op_index_record_revision r);
  fv_revision : id_ok (op_operation_revision r);
  fv_progress : progress_ok (op_progress r) /\ progress_kind (op_progress r) = op_kind r /\ progress_family (op_progress r) = op_family r;
  fv_attempt : in_u 32 (op_attempt r);
  fv_state : execution_ok (op_execution_state r) /\ schedule_ok (op_queue_schedule r) /\ scheduled (op_execution_state r) (op_queue_schedule r) }.

#[global] Instance operation_parts_reads : Reads (fun x p => fields_valid x.1 /\ stored_parts x.1 x.2 p) take_operation_parts.
Proof.
  split.
  - intros [r legacy] p c [Hv (ident & progress & state & Ei & Hp & Hs & ->)]. cbn [fst snd] in *. unfold take_operation_parts.
    rewrite <- !app_assoc. cbn [app]. rewrite <- !app_assoc.
    rewrite operation_read by apply Hv. cbn [result_bind]. rewrite wire_get by apply Hv. cbn [result_bind].
    destruct (wired_put (get := take_identity) _ (fv_identity _ Hv)) as (q & E & _ & Hg). rewrite Ei in E. injection E as <-. rewrite Hg. cbn [result_bind].
    do 3 (rewrite wire_get by apply Hv; cbn [result_bind]). rewrite (cons_get take_kind). cbn [result_bind].
    rewrite (cons_get take_operation_family). cbn [result_bind].
    rewrite (reads (get := take_operation_progress (op_kind r) (op_family r)) _ _ _ (conj (fv_progress _ Hv) Hp)). cbn [result_bind].
    rewrite wire_get by apply Hv. cbn [result_bind].
    set (d := {| ds_state := op_execution_state r; ds_queue_schedule := op_queue_schedule r; ds_legacy_reader_coordination_blocker := legacy |}).
    rewrite (reads (get := take_execution_state (op_kind r)) d state c (conj (fv_state _ Hv) Hs)). cbn. by destruct r.
  - intros b [r legacy] c Hb H. unfold take_operation_parts in H. do 8 wired_step Hb. repeat wired_step Hb.
    match goal with E : take_operation_progress _ _ _ = Ok _ |- _ => apply reads_inv in E as (pp & [Hpr Hcur] & ->); [|done] end.
    apply Forall_app in Hb as [_ Hb]. match goal with E : take_u32 _ = Ok _ |- _ => apply wire_put in E as [Hat ->]; [|done] end.
    apply Forall_app in Hb as [_ Hb]. match goal with E : take_execution_state _ _ = Ok _ |- _ => apply reads_inv in E as (ps & [Hst Hsto] & ->); [|done] end.
    eexists. split; [split; [by split|]; eexists _, _, _; split_and!; [eassumption|exact Hcur|exact Hsto|reflexivity]|].
    cbn [op_operation_id op_index_id op_generation op_index_record_revision op_operation_revision op_kind op_family op_attempt fst].
    rewrite <- !app_assoc. cbn [app]. by rewrite <- !app_assoc.
Qed.

Lemma decode_value_reads {A} kind (wire : A -> bytes -> Prop) get `{!Reads wire get} b a : bytes_ok b ->
  decode_value kind get b = Ok a <-> exists p, wire a p /\ b = with_header kind ++ p.
Proof.
  intros Hb. unfold decode_value. destruct (decoder_new b) as [[k r]|e] eqn:Eh; cbn [result_bind].
  - apply header_iff in Eh as ->. apply Forall_app in Hb as [_ Hr]. destruct (Z.eqb_spec k kind) as [->|Hk]; cbn [negb].
    + split.
      * intros H. apply result_bind_ok in H as ([x r'] & E & H). apply result_bind_ok in H as ([] & Hf & [= ->]). apply value_finish_iff in Hf as ->.
        apply reads_inv in E as (p & Hp & ->); [|done]. exists p. by rewrite app_nil_r.
      * intros (p & Hp & E). apply app_inv_head in E as ->. rewrite <- (app_nil_r p), (reads a p []) by done. done.
    + split; [done|]. intros (p & _ & H). by injection H as ->.
  - split; [done|]. intros (p & _ & H). apply header_iff in H. by rewrite Eh in H.
Qed.

Lemma operation_fields r : operation_ok r <->
  fields_valid r /\ agrees (op_kind r) (op_family r) (op_identity r) (op_progress r) (op_execution_state r) (op_queue_schedule r).
Proof.
  split.
  - intros Hr. pose proof (oo_agrees _ Hr) as Hc. split; [|done]. destruct Hc as (Hf & Hk & _ & Hs).
    split; try apply Hr; [split_and!; try done; apply Hr|]. split_and!; try apply Hr. destruct (op_execution_state r); try done; by destruct Hs.
  - intros [Hv Hc]. split; try apply Hv. by apply agrees_iff.
Qed.

(** The reader accepts exactly what was stored of valid records. *)
Lemma decode_operation_iff b r legacy : bytes_ok b ->
  decode_operation_record_with_compatibility b = Ok (r, legacy) <-> operation_ok r /\ stored r legacy b.
Proof.
  intros Hb. unfold decode_operation_record_with_compatibility. rewrite operation_fields. split.
  - intros H. apply result_bind_ok in H as ([x l] & E & H). apply result_bind_ok in H as (y & Ey & [= -> ->]).
    apply operation_model_ok, operation_new_iff in Ey as [Hc ->]. apply (decode_value_reads _ _ _ _ _ Hb) in E as (p & [Hv Hp] & ->).
    cbn [fst snd] in *. destruct x. split; [by split|]. by exists p.
  - intros ([Hv Hc] & p & Hp & ->). rewrite (proj2 (decode_value_reads _ _ take_operation_parts _ (r, legacy) Hb)) by by exists p. cbn [result_bind].
    rewrite (proj2 (operation_model_ok _ _) (proj2 (operation_new_iff _ _ _ _ _ _ _ _ _ _ _ _ _) (conj Hc eq_refl))). cbn [result_bind]. by destruct r.
Qed.

Lemma execution_put r : operation_ok r -> exists p, put_execution_state (op_kind r) (op_execution_state r) (op_queue_schedule r) = Some p /\ bytes_ok p.
Proof.
  intros Hr. pose proof (oo_execution _ Hr) as Hx. pose proof (oo_schedule _ Hr) as Hs. destruct (oo_agrees _ Hr) as (_ & Hk & _ & Hc).
  destruct (op_execution_state r) as [t|k|b|o]; cbn [put_execution_state execution_ok] in *.
  - destruct Hc as (s & E & _). rewrite E in *. eexists. split; [reflexivity|]. apply Forall_cons. split; [done|]. by apply (wire_ok (Wire := schedule_wire)).
  - eexists. split; [reflexivity|]. apply Forall_cons. split; [done|]. by apply (wire_ok (get := take_claim)).
  - destruct (blocker_put b Hx) as (q & E & Hb). unfold tagged. rewrite E. eexists. split; [reflexivity|]. by apply Forall_cons.
  - destruct Hc as [_ Hm]. apply outcome_matches in Hm. rewrite Hk in Hm. rewrite <- Hm. destruct o as [[|]|]; cbn; eexists; (split; [reflexivity|]); parts_ok.
Qed.

Lemma encode_operation r : operation_ok r -> exists b, encode_operation_record r = Some b /\ bytes_ok b /\ stored r false b.
Proof.
  intros Hr. destruct (wired_put (get := take_identity) _ (oo_identity _ Hr)) as (pi & Ei & Hbi & _).
  destruct (progress_put _ (oo_progress _ Hr)) as (pp & Ep & Hbp). destruct (execution_put r Hr) as (ps & Es & Hbs).
  unfold encode_operation_record. rewrite Ei, Ep, Es. cbn [mbind option_bind]. eexists. split; [reflexivity|]. split.
  - do 2 (apply Forall_cons; split; [done|]). apply Forall_app. split; [apply (oo_id _ Hr)|]. parts_ok.
  - eexists. split; [|reflexivity]. exists pi, pp, ps. by split_and!; try (left; exact Ep).
Qed.

(** [C17] Every valid operation record is written without panicking and read back as it was; and the reader accepts
    exactly what a writer of this or an older release stored of a valid record: with a drain epoch in a cleanup, or
    with the retired blocker, which it alone reports. *)
Theorem operation_record_roundtrip (b : bytes) (r : IndexOperationRecord) (legacy : bool) : bytes_ok b ->
  (operation_ok r -> exists b', encode_operation_record r = Some b' /\ bytes_ok b' /\ decode_operation_record b' = Ok r) /\
  (decode_operation_record_with_compatibility b = Ok (r, legacy) <-> operation_ok r /\ stored r legacy b).
Proof.
  intros Hb. split; [|by apply decode_operation_iff]. intros Hr. destruct (encode_operation r Hr) as (b' & E & Hb' & Hs). exists b'. split_and!; [done..|].
  unfold decode_operation_record. by rewrite (proj2 (decode_operation_iff b' r false Hb')).
Qed.

Lemma operation_record_roundtrip_witness :
  exists b, encode_operation_record sample_build = Some b /\ bytes_ok b /\ decode_operation_record b = Ok sample_build.
Proof. exact (proj1 (operation_record_roundtrip [] sample_build false (Forall_nil_2 _)) sample_build_ok). Defined.
End OperationValuesSpec.
